(* ===== verification/_CoqProject ===== *)
-Q . S2P
Prelude.v
Errors.v
Ids.v
Clock.v
Policy.v
JobRecord.v
Wire.v
KeyCodec.v
ValueCodec.v
JobCodec.v
JobRoundtrip.v
OperationCodec.v
Keyspace.v
Store.v
FakeStore.v
Prog.v
Logic.v
System.v
Transition.v
Permits.v
Claim.v
Completion.v
Enqueue.v
Admin.v
Failure.v
Refs.v
Invariant.v
Update.v
Protocol.v
Steps.v
Moves.v
Held.v
LeaseTx.v
Completed.v
Outcomes.v
Renewal.v
Claimed.v
Controls.v
Recovery.v
Administered.v
Payload.v
Enqueued.v
Ordered.v
Fairness.v
FairLedger.v
FairSelect.v
FairInvariant.v
FairSteps.v
FairAdmission.v
FairExtrema.v
FairPass.v
FairSearch.v
FairBound.v
FairReach.v
FairProgress.v
FairGuarantees.v
FairFindings.v
FairOwner.v
FairCodec.v
FairRoundtrip.v
FairCommands.v
FairDurable.v
FairOwned.v
Budgets.v
Discovery.v
Candidate.v
DriveOwner.v
Scheduler.v
Futures.v
CandidateSafe.v
DiscoverySafe.v
DiscoveryComplete.v
SchedulerSafe.v
DriveBounds.v
Engine.v
Scenario.v
Guarantees.v
Pulse.v
Driven.v
Batch.v
