(* ===== verification/Prelude.v ===== *)
(** * A verification of the bg-jobs engine

    [crates/bg-jobs] is a durable job engine over a key-value store that the
    embedding program supplies.  A producer enqueues jobs; workers on any
    number of machines drive it: they discover due jobs, choose among them by
    a persisted fairness ledger, claim one under a fenced lease, run its
    handler and commit the outcome.  All of this is conditional transactions
    on the shared store, whose commits may be lost in flight.  This library
    translates the engine into executable definitions and proves what makes it
    correct.  Names are the source's; a definition of a method is prefixed by
    its type, a field by two letters of its record.

    ** How the source is translated

    [Result] is [result], [?] is the bind of its monad, and the error
    conversions of [?] are [map_err].  Integers are [Z]: the width is in the
    range predicates ([is_u64], [is_i64]) and in [checked], [saturating_add]
    and the like, so that overflow behaves as in the source.  Byte strings are
    [list Byte.byte]; [BTreeMap] and [BTreeSet] are [gmap] and [gset] iterated
    in key order by [Ordered.btree].  Asynchronous functions are programs
    ([Prog]): trees whose nodes are the operations on the store, on the source
    of random identifiers and on the scheduler.  A value that the code borrows
    mutably is an argument and a part of the result.

    ** Values and codecs

    [Errors], [Ids], [Clock], [Policy] and [JobRecord] are [error.rs],
    [ids/types.rs], [time/*.rs], [policy/types.rs] and [model/record.rs].
    [Wire] holds the readers and writers with the contract [codec]; [KeyCodec],
    [ValueCodec], [JobCodec], [OperationCodec] and [Keyspace] are [codec/*] and
    [keys/keyspace.rs].  Theorems: encoders and decoders are inverse in both
    directions (keys, envelopes, records, operation values, due keys, payload
    chunks), keys of different entries are different, a prefix range holds
    exactly the extensions of its prefix, due keys order by time, and capacity
    estimates are exact.

    ** The store

    [Store] is [store/*.rs]: requests, transactions, capabilities and the
    contract an adapter must meet.  [FakeStore] is the reference store of
    [test_helper/fake_store.rs], which is shown to meet the contract; that is
    also the witness that the contract can be met.  A repeated commit is shown
    to be harmless.

    ** The engine

    [System], [Transition], [Permits], [Claim], [Completion], [Enqueue],
    [Admin] and [Failure] are [engine.rs], [registry.rs], [transition/*],
    [wake/planning.rs], [fairness/permits.rs], [lifecycle/*], [enqueue/*],
    [admin/*] and [failure/*]: every operation that changes a job, as a
    program.  [Logic] gives any number of such programs, run by any number of
    processes in any interleaving with lost and unknown commits, their meaning
    and a rely-guarantee weakest precondition.  [Refs] to [Enqueued] prove each
    operation safe for the invariant of [Invariant]; [Engine] puts them
    together and [Guarantees] states the consequences for every reachable
    state: index entries are exactly those of the records, payloads are
    intact, fences only rise, a claim that lost its lease can never commit, a
    key is leased once, a scope's concurrency is bounded by its permit slots,
    and whatever an operation reported is true of the history.  [Scenario] is a
    computed run that serves as witness.

    ** Fair dispatch

    [Ordered], [Fairness], [FairLedger] and [FairSelect] are [fairness/*]: the
    values, the ledger with its lifecycle and its selection pass.
    [FairInvariant] to [FairProgress] carry the invariant, the service bound
    and the liveness argument; [FairGuarantees] states that counters are
    exact, concurrency and the gap between primaries are bounded, selection
    takes the best admissible candidate, ends, and makes progress on unit
    costs.  The selection loop runs with fuel [SELECT_FUEL] = 2, which
    [FairGuarantees.selection_terminates] shows to be enough.  [FairFindings]
    holds computed runs in which the code departs from its documentation.

    [FairOwner] and [FairCodec] are [fairness_ledger/owner/*]: the durable
    owner, its commands, its discovery registration, its validation and its
    codec.  [FairRoundtrip] to [FairOwned] show that the owner refines the
    ledger through its whole life, that what is saved is what is loaded, and
    that discovery keeps the positions of ordered work.

    ** Drives

    [Budgets], [Discovery], [Candidate], [DriveOwner] and [Scheduler] are
    [budget/*], [drive/discovery/*], [drive/candidate/*],
    [drive/scheduler/owner.rs] with [owner/persistence.rs], and
    [drive/scheduler/*]: one bounded drive, from the scans of the indexes to
    its report.  A handler is any tree of yields, checkpoints, an outcome or a
    panic; the candidates in flight are programs whose operations interleave in
    any order.  The loops run with fuel: [collect_pages] with the operations
    that remain, each page costing one; [load_records] with the number of
    records; [run_loop] with [loop_fuel], which [Driven.drive_terminates] shows
    to be enough.  [Futures], [CandidateSafe], [DiscoverySafe] and
    [SchedulerSafe] show that a drive keeps the invariant and reports only
    completions whose receipts are durable, so drives are among the calls of
    [Engine].  [DiscoveryComplete] shows that a discovery that is not stopped
    misses no job that stays where it is while other processes work.
    [DriveBounds] and [Driven] show that a drive ends and stays within its
    request, for every answer of the store; [Driven] also holds computed drives
    in which the code departs from what it means to do.  [Pulse] is
    [active_pulse/request.rs], a burst of drives.

    ** Batches

    [Batch] is [batch/*]: the formation of a bounded batch, whose admission is
    shown to be independent of the hash of its index, and the application of
    results with the ordering barrier.

    ** Not modelled

    Observers and metrics ([observer], [metrics_observer]) receive events and
    return nothing.  Formatting ([Display], [Debug]) and the parsing of
    configuration text are not modelled.  [schedule] and
    [time/cron_expression.rs] rest on the third-party [cron] and [chrono]
    crates.  [quint] and the [*_tests] modules are test drivers.  The other
    crates of the workspace are independent libraries and adapters.
    SHA-256 is a parameter of the definitions that use it, and the identifiers
    drawn from the operating system are assumed fresh. *)

From stdpp Require Export base tactics numbers list strings gmap.
From Stdlib Require Export ZArith Lia.
From Stdlib Require Import Strings.Byte.

#[export] Set Default Goal Selector "!".
Open Scope Z_scope.

(** ** Results

    [Result<A, E>] of the source.  The error type comes first so that
    [result E] is a monad and the stdpp notation [x ← m; k] is Rust's [?]. *)

Inductive result (E A : Type) : Type :=
  | Ok (a : A)
  | Err (e : E).
Arguments Ok {E A} a.
Arguments Err {E A} e.

#[export] Instance result_ret E : MRet (result E) := @Ok E.
#[export] Instance result_bind E : MBind (result E) :=
  λ A B k r, match r with Ok a => k a | Err e => Err e end.
#[export] Instance result_fmap E : FMap (result E) :=
  λ A B f r, match r with Ok a => Ok (f a) | Err e => Err e end.

(** [Result::map_err]. *)
Definition map_err {E F A} (f : E → F) (r : result E A) : result F A :=
  match r with Ok a => Ok a | Err e => Err (f e) end.

(** [Option::ok_or]. *)
Definition ok_or {E A} (e : E) (o : option A) : result E A :=
  match o with Some a => Ok a | None => Err e end.

(** [if c { return Err(e) }]. *)
Definition ensure {E} (c : bool) (e : E) : result E unit :=
  if c then Ok tt else Err e.

Definition is_ok {E A} (r : result E A) : bool :=
  match r with Ok _ => true | Err _ => false end.

Section result_lemmas.
Context {E F : Type}.

Lemma bind_Ok {A B} (k : A → result E B) (r : result E A) (b : B) :
  (r ≫= k) = Ok b ↔ ∃ a, r = Ok a ∧ k a = Ok b.
Proof. destruct r; cbn; naive_solver. Qed.

Lemma bind_Err {A B} (k : A → result E B) (r : result E A) (e : E) :
  (r ≫= k) = Err e ↔ r = Err e ∨ ∃ a, r = Ok a ∧ k a = Err e.
Proof. destruct r; cbn; naive_solver. Qed.

Lemma fmap_Ok {A B} (f : A → B) (r : result E A) (b : B) :
  (f <$> r) = Ok b ↔ ∃ a, r = Ok a ∧ f a = b.
Proof. destruct r; cbn; naive_solver. Qed.

Lemma map_err_Ok {A} (f : E → F) (r : result E A) (a : A) :
  map_err f r = Ok a ↔ r = Ok a.
Proof. destruct r; cbn; naive_solver. Qed.

Lemma ok_or_Ok {A} (e : E) (o : option A) (a : A) :
  ok_or e o = Ok a ↔ o = Some a.
Proof. destruct o; cbn; naive_solver. Qed.

Lemma ensure_Ok (c : bool) (e : E) (u : unit) :
  ensure c e = Ok u ↔ c = true.
Proof. destruct c, u; cbn; naive_solver. Qed.
End result_lemmas.

(** Inverts every hypothesis that says a composed computation returned. *)
Ltac invert_ok :=
  repeat match goal with
  | H : Ok _ = Ok _ |- _ => injection H as H; subst
  | H : Err _ = Ok _ |- _ => discriminate H
  | H : Ok _ = Err _ |- _ => discriminate H
  | H : (_ ≫= _) = Ok _ |- _ =>
      apply bind_Ok in H; let a := fresh "a" in let Ha := fresh "Ha" in
      destruct H as (a & Ha & H); cbn beta in H
  | H : map_err _ _ = Ok _ |- _ => apply map_err_Ok in H
  | H : ok_or _ _ = Ok _ |- _ => apply ok_or_Ok in H
  | H : ensure _ _ = Ok _ |- _ => apply ensure_Ok in H
  | H : mret _ = Ok _ |- _ => injection H as H; subst
  end.

(** ** Bytes *)

Abbreviation byte := Byte.byte.
Abbreviation bytes := (list Byte.byte).

#[export] Instance byte_eq_dec : EqDecision byte := Byte.byte_eq_dec.
#[export] Program Instance byte_countable : Countable byte :=
  inj_countable Byte.to_N Byte.of_N _.
Next Obligation. intros b. apply Byte.of_to_N. Qed.
#[export] Instance byte_inhabited : Inhabited byte := populate x00.

Definition Z_of_byte (b : byte) : Z := Z.of_N (Byte.to_N b).
Definition byte_of_Z (z : Z) : byte :=
  match Byte.of_N (Z.to_N (z mod 256)) with Some b => b | None => x00 end.

Lemma Z_of_byte_range b : 0 ≤ Z_of_byte b < 256.
Proof. unfold Z_of_byte. pose proof (Byte.to_N_bounded b). lia. Qed.

Lemma Z_of_byte_of_Z z : Z_of_byte (byte_of_Z z) = z mod 256.
Proof.
  unfold byte_of_Z, Z_of_byte.
  pose proof (Z.mod_pos_bound z 256 ltac:(lia)) as Hb.
  destruct (Byte.of_N (Z.to_N (z mod 256))) as [b|] eqn:Hof.
  - apply Byte.to_of_N in Hof. rewrite Hof. lia.
  - apply Byte.of_N_None_iff in Hof. lia.
Qed.

Lemma byte_of_Z_of_byte b : byte_of_Z (Z_of_byte b) = b.
Proof.
  unfold byte_of_Z, Z_of_byte.
  pose proof (Byte.to_N_bounded b) as Hb.
  rewrite Z.mod_small by lia. rewrite N2Z.id. by rewrite Byte.of_to_N.
Qed.

#[export] Instance Z_of_byte_inj : Inj (=) (=) Z_of_byte.
Proof. intros a b H. rewrite <- (byte_of_Z_of_byte a), H. apply byte_of_Z_of_byte. Qed.

Definition byte_eqb (a b : byte) : bool := bool_decide (a = b).
Definition bytes_eqb (a b : bytes) : bool := bool_decide (a = b).

(** [slice.len()], a [usize]. *)
Definition len {A} (l : list A) : Z := Z.of_nat (length l).

Lemma len_nonneg {A} (l : list A) : 0 ≤ len l.
Proof. unfold len. lia. Qed.
Lemma len_app {A} (l k : list A) : len (l ++ k) = len l + len k.
Proof. unfold len. rewrite length_app. lia. Qed.
Lemma len_nil {A} : len (@nil A) = 0.
Proof. done. Qed.
Lemma len_cons {A} (x : A) l : len (x :: l) = 1 + len l.
Proof. unfold len. cbn. lia. Qed.
Lemma len_zero_nil {A} (l : list A) : len l = 0 → l = [].
Proof. destruct l; [done|]. rewrite len_cons. pose proof (len_nonneg l). lia. Qed.

(** [&slice[from..to]], for bounds already checked by the caller. *)
Definition slice {A} (l : list A) (from to : Z) : list A :=
  take (Z.to_nat (to - from)) (drop (Z.to_nat from) l).

Lemma slice_app {A} (pre l post : list A) :
  slice (pre ++ l ++ post) (len pre) (len pre + len l) = l.
Proof.
  unfold slice, len. rewrite Nat2Z.id.
  replace (Z.to_nat _) with (length l) by lia.
  rewrite drop_app_length. apply take_app_length.
Qed.

Lemma len_slice {A} (l : list A) from to :
  0 ≤ from ≤ to → to ≤ len l → len (slice l from to) = to - from.
Proof.
  unfold slice, len. intros. rewrite length_take, length_drop. lia.
Qed.

Lemma slice_split {A} (l : list A) from to :
  0 ≤ from ≤ to → to ≤ len l →
  l = slice l 0 from ++ slice l from to ++ slice l to (len l).
Proof.
  unfold slice, len. intros ??. rewrite !Z.sub_0_r. cbn [Z.to_nat]. rewrite drop_0.
  rewrite <- (take_drop (Z.to_nat from) l) at 1. f_equal.
  rewrite <- (take_drop (Z.to_nat (to - from)) (drop _ l)) at 1. f_equal.
  rewrite drop_drop. rewrite take_ge; [f_equal; lia|].
  rewrite length_drop. lia.
Qed.

Lemma slice_drop {A} (l : list A) from to :
  0 ≤ from ≤ to → drop (Z.to_nat from) l = slice l from to ++ drop (Z.to_nat to) l.
Proof.
  intros. unfold slice.
  replace (Z.to_nat to) with (Z.to_nat from + Z.to_nat (to - from))%nat by lia.
  rewrite <- drop_drop. by rewrite take_drop.
Qed.

Lemma drop_slice {A} (l x y : list A) from :
  0 ≤ from → drop (Z.to_nat from) l = x ++ y →
  slice l from (from + len x) = x ∧ drop (Z.to_nat (from + len x)) l = y.
Proof.
  intros Hf Hd. unfold slice. replace (from + len x - from) with (len x) by lia.
  rewrite Hd. unfold len. rewrite Nat2Z.id, take_app_length. split; [done|].
  rewrite Z2Nat.inj_add by lia. rewrite <- drop_drop, Hd, Nat2Z.id. apply drop_app_length.
Qed.

Lemma slice_to_end {A} (l : list A) from :
  0 ≤ from → slice l from (len l) = drop (Z.to_nat from) l.
Proof. intros. unfold slice, len. apply take_ge. rewrite length_drop. lia. Qed.

Lemma drop_nil_len {A} (l : list A) from :
  0 ≤ from → drop (Z.to_nat from) l = [] ↔ len l ≤ from.
Proof.
  intros. unfold len. split.
  - intros Hd%(f_equal length). rewrite length_drop in Hd. cbn in Hd. lia.
  - intros. apply drop_ge. lia.
Qed.

(** ** Machine integers

    Unsigned and signed integers are [Z]; their width is written out where the
    source relies on it ([usize] is 64 bits wide). *)

Definition U8_MAX : Z := 255.
Definition U16_MAX : Z := 65535.
Definition U32_MAX : Z := 4294967295.
Definition U64_MAX : Z := 18446744073709551615.
Definition USIZE_MAX : Z := U64_MAX.
Definition I64_MIN : Z := -9223372036854775808.
Definition I64_MAX : Z := 9223372036854775807.

Definition in_range (lo hi z : Z) : bool := (lo <=? z) && (z <=? hi).
Definition is_u16 : Z → bool := in_range 0 U16_MAX.
Definition is_u32 : Z → bool := in_range 0 U32_MAX.
Definition is_u64 : Z → bool := in_range 0 U64_MAX.
Definition is_i64 : Z → bool := in_range I64_MIN I64_MAX.
(** [NonZeroU16], [NonZeroU32] and [NonZeroU64]. *)
Definition is_nonzero_u16 : Z → bool := in_range 1 U16_MAX.
Definition is_nonzero_u32 : Z → bool := in_range 1 U32_MAX.
Definition is_nonzero_u64 : Z → bool := in_range 1 U64_MAX.

(** [T::try_from], [checked_add] and [checked_sub] at the bounds [lo..hi]. *)
Definition checked (lo hi z : Z) : option Z :=
  if in_range lo hi z then Some z else None.
Definition checked_add_usize (a b : Z) : option Z := checked 0 USIZE_MAX (a + b).
Definition checked_add_u32 (a b : Z) : option Z := checked 0 U32_MAX (a + b).
Definition checked_add_u64 (a b : Z) : option Z := checked 0 U64_MAX (a + b).
Definition checked_add_i64 (a b : Z) : option Z := checked I64_MIN I64_MAX (a + b).
Definition checked_sub_i64 (a b : Z) : option Z := checked I64_MIN I64_MAX (a - b).
Definition saturating_sub (a b : Z) : Z := Z.max 0 (a - b).

Lemma in_range_spec lo hi z : in_range lo hi z = true ↔ lo ≤ z ≤ hi.
Proof. unfold in_range. rewrite andb_true_iff, !Z.leb_le. lia. Qed.

Lemma checked_Some lo hi z a : checked lo hi z = Some a ↔ a = z ∧ lo ≤ z ≤ hi.
Proof.
  unfold checked. destruct (in_range lo hi z) eqn:H.
  - apply in_range_spec in H. naive_solver.
  - split; [done|]. intros [_ Hr]. apply in_range_spec in Hr. congruence.
Qed.

Lemma checked_ok lo hi z : lo ≤ z ≤ hi → checked lo hi z = Some z.
Proof. intros. by apply checked_Some. Qed.

Lemma checked_None lo hi z : checked lo hi z = None ↔ z < lo ∨ hi < z.
Proof.
  unfold checked. destruct (in_range lo hi z) eqn:H.
  - apply in_range_spec in H. split; [done|lia].
  - split; [intros _|done]. destruct (decide (lo ≤ z ≤ hi)) as [Hr|]; [|lia].
    apply in_range_spec in Hr. congruence.
Qed.

(** Turns the boolean range tests of the context and the goal into
    inequalities that [lia] reads. *)
Ltac ranges :=
  unfold is_u16, is_u32, is_u64, is_i64,
    is_nonzero_u16, is_nonzero_u32, is_nonzero_u64,
    checked_add_usize, checked_add_u32, checked_add_u64,
    checked_add_i64, checked_sub_i64, saturating_sub in *;
  repeat match goal with
  | H : in_range _ _ _ = true |- _ => apply in_range_spec in H
  | H : checked _ _ _ = Some _ |- _ => apply checked_Some in H as [-> H]
  | H : checked _ _ _ = None |- _ => apply checked_None in H
  | |- in_range _ _ _ = true => apply in_range_spec
  | |- checked _ _ _ = Some _ => apply checked_Some; split; [done|]
  end;
  unfold U8_MAX, U16_MAX, U32_MAX, USIZE_MAX, U64_MAX, I64_MIN, I64_MAX in *.

(** Splits the conjunctions of a boolean invariant into one fact each. *)
Ltac split_andb :=
  repeat match goal with
  | H : _ && _ = true |- _ => apply andb_true_iff in H as [? H]
  | |- _ && _ = true => apply andb_true_iff; split
  end.

(** ** Big-endian encodings: [to_be_bytes] and [from_be_bytes] *)

Fixpoint to_be_bytes (n : nat) (z : Z) : bytes :=
  match n with
  | O => []
  | S m => to_be_bytes m (z / 256) ++ [byte_of_Z z]
  end.

Definition be_step (acc : Z) (b : byte) : Z := acc * 256 + Z_of_byte b.
Definition from_be_unsigned (bs : bytes) : Z := fold_left be_step bs 0.

(** Two's complement reading of the same eight bytes. *)
Definition from_be_i64 (bs : bytes) : Z :=
  let u := from_be_unsigned bs in
  if u <=? I64_MAX then u else u - (U64_MAX + 1).

Definition u16_bytes : Z → bytes := to_be_bytes 2.
Definition u32_bytes : Z → bytes := to_be_bytes 4.
Definition u64_bytes : Z → bytes := to_be_bytes 8.
Definition i64_bytes : Z → bytes := to_be_bytes 8.

Lemma length_to_be_bytes n z : length (to_be_bytes n z) = n.
Proof.
  revert z. induction n as [|n IH]; intros z; [done|].
  cbn. rewrite length_app, IH. cbn. lia.
Qed.

Lemma len_to_be_bytes n z : len (to_be_bytes n z) = Z.of_nat n.
Proof. unfold len. by rewrite length_to_be_bytes. Qed.

Lemma from_be_unsigned_snoc bs b :
  from_be_unsigned (bs ++ [b]) = from_be_unsigned bs * 256 + Z_of_byte b.
Proof. unfold from_be_unsigned. by rewrite fold_left_app. Qed.

Lemma from_be_unsigned_range bs :
  0 ≤ from_be_unsigned bs < 256 ^ len bs.
Proof.
  induction bs as [|b bs IH] using rev_ind; [done|].
  rewrite from_be_unsigned_snoc, len_app.
  replace (len [b]) with 1 by done.
  rewrite Z.pow_add_r by (pose proof (len_nonneg bs); lia).
  pose proof (Z_of_byte_range b). lia.
Qed.

Lemma from_to_be_bytes n z :
  from_be_unsigned (to_be_bytes n z) = z mod 256 ^ Z.of_nat n.
Proof.
  revert z. induction n as [|n IH]; intros z; cbn [to_be_bytes].
  - by rewrite Z.mod_1_r.
  - rewrite from_be_unsigned_snoc, IH, Z_of_byte_of_Z.
    rewrite Nat2Z.inj_succ, Z.pow_succ_r by lia.
    rewrite (Z.rem_mul_r z 256) by lia. lia.
Qed.

Lemma to_from_be_bytes bs :
  to_be_bytes (length bs) (from_be_unsigned bs) = bs.
Proof.
  induction bs as [|b bs IH] using rev_ind; [done|].
  rewrite length_app, Nat.add_comm. cbn [to_be_bytes length Nat.add].
  rewrite from_be_unsigned_snoc.
  pose proof (Z_of_byte_range b).
  rewrite Z.div_add_l, Z.div_small, Z.add_0_r, IH by lia.
  f_equal. f_equal. rewrite <- (byte_of_Z_of_byte b) at 2.
  unfold byte_of_Z. rewrite Z.add_comm, Z.mod_add by lia. done.
Qed.

Lemma to_be_bytes_mod n z :
  to_be_bytes n (z mod 256 ^ Z.of_nat n) = to_be_bytes n z.
Proof.
  rewrite <- (to_from_be_bytes (to_be_bytes n z)) .
  by rewrite length_to_be_bytes, from_to_be_bytes.
Qed.

Lemma from_be_unsigned_exact n z :
  0 ≤ z < 256 ^ Z.of_nat n → from_be_unsigned (to_be_bytes n z) = z.
Proof. intros. rewrite from_to_be_bytes. by apply Z.mod_small. Qed.

Lemma from_be_i64_exact z : is_i64 z = true → from_be_i64 (i64_bytes z) = z.
Proof.
  intros Hz. ranges. unfold from_be_i64, i64_bytes. rewrite from_to_be_bytes.
  change (256 ^ Z.of_nat 8) with 18446744073709551616.
  destruct (decide (0 ≤ z)) as [Hp|Hn].
  - rewrite Z.mod_small by lia. case_match; unfold I64_MAX in *; lia.
  - rewrite <- (Z.mod_unique z 18446744073709551616 (-1) (z + 18446744073709551616)) by lia.
    case_match; unfold I64_MAX, U64_MAX in *; lia.
Qed.

Lemma i64_bytes_exact bs : length bs = 8%nat → i64_bytes (from_be_i64 bs) = bs.
Proof.
  intros Hl. unfold i64_bytes.
  assert (from_be_i64 bs mod 256 ^ Z.of_nat 8 = from_be_unsigned bs mod 256 ^ Z.of_nat 8) as Hm.
  { unfold from_be_i64. change (256 ^ Z.of_nat 8) with (U64_MAX + 1). case_match; [done|].
    replace (from_be_unsigned bs - (U64_MAX + 1))
      with (from_be_unsigned bs + (-1) * (U64_MAX + 1)) by lia.
    by rewrite Z.mod_add by (unfold U64_MAX; lia). }
  rewrite <- to_be_bytes_mod, Hm, to_be_bytes_mod, <- Hl. apply to_from_be_bytes.
Qed.

Lemma from_be_i64_range bs : length bs = 8%nat → is_i64 (from_be_i64 bs) = true.
Proof.
  intros Hl. pose proof (from_be_unsigned_range bs) as Hr. unfold len in Hr. rewrite Hl in Hr.
  change (256 ^ Z.of_nat 8) with 18446744073709551616 in Hr.
  unfold from_be_i64. ranges. case_match; lia.
Qed.

(** ** Lexicographic order: [Ord] for [Vec<u8>] *)

Fixpoint bytes_ltb (a b : bytes) : bool :=
  match a, b with
  | _, [] => false
  | [], _ :: _ => true
  | x :: a, y :: b =>
      (Z_of_byte x <? Z_of_byte y) || (byte_eqb x y && bytes_ltb a b)
  end.
Definition bytes_leb (a b : bytes) : bool := negb (bytes_ltb b a).

Lemma byte_eqb_spec a b : byte_eqb a b = true ↔ a = b.
Proof. apply bool_decide_eq_true. Qed.
Lemma bytes_eqb_spec a b : bytes_eqb a b = true ↔ a = b.
Proof. apply bool_decide_eq_true. Qed.
Lemma bytes_eqb_refl a : bytes_eqb a a = true.
Proof. by apply bytes_eqb_spec. Qed.

Lemma bytes_ltb_cons x y a b :
  bytes_ltb (x :: a) (y :: b) = true ↔
  Z_of_byte x < Z_of_byte y ∨ (x = y ∧ bytes_ltb a b = true).
Proof. cbn. rewrite orb_true_iff, andb_true_iff, Z.ltb_lt, byte_eqb_spec. done. Qed.

Lemma bytes_ltb_irrefl a : bytes_ltb a a = false.
Proof.
  induction a as [|x a IH]; [done|]. cbn. rewrite IH, Z.ltb_irrefl, andb_false_r. done.
Qed.

Lemma bytes_ltb_trans a b c :
  bytes_ltb a b = true → bytes_ltb b c = true → bytes_ltb a c = true.
Proof.
  revert b c. induction a as [|x a IH]; intros [|y b] [|z c]; try done.
  rewrite !bytes_ltb_cons. intros [?|[-> ?]] [?|[-> ?]]; [lia|lia|lia|eauto].
Qed.

Lemma bytes_ltb_total a b : bytes_ltb a b = true ∨ a = b ∨ bytes_ltb b a = true.
Proof.
  revert b. induction a as [|x a IH]; intros [|y b]; [auto..|].
  rewrite !bytes_ltb_cons. destruct (Z.lt_total (Z_of_byte x) (Z_of_byte y)) as [?|[He|?]]; [auto| |auto].
  apply (inj Z_of_byte) in He. subst. destruct (IH b) as [?|[->|?]]; auto.
Qed.

Lemma bytes_ltb_asym a b : bytes_ltb a b = true → bytes_ltb b a = false.
Proof.
  intros H. destruct (bytes_ltb b a) eqn:H'; [|done].
  pose proof (bytes_ltb_trans _ _ _ H H') as C. by rewrite bytes_ltb_irrefl in C.
Qed.

Lemma bytes_leb_spec a b : bytes_leb a b = true ↔ a = b ∨ bytes_ltb a b = true.
Proof.
  unfold bytes_leb. rewrite negb_true_iff. split.
  - intros H. destruct (bytes_ltb_total a b) as [?|[?|?]]; [auto|auto|congruence].
  - intros [->|H]; [apply bytes_ltb_irrefl|by apply bytes_ltb_asym].
Qed.

Lemma bytes_ltb_app_l p a b : bytes_ltb (p ++ a) (p ++ b) = bytes_ltb a b.
Proof.
  induction p as [|x p IH]; [done|]. cbn. rewrite IH, Z.ltb_irrefl.
  unfold byte_eqb. by rewrite bool_decide_true.
Qed.

Lemma bytes_ltb_app_r a b p q :
  length a = length b → bytes_ltb a b = true → bytes_ltb (a ++ p) (b ++ q) = true.
Proof.
  revert b. induction a as [|x a IH]; intros [|y b]; try done.
  cbn [length app]. intros [= Hl]. rewrite !bytes_ltb_cons. naive_solver.
Qed.

Lemma from_be_unsigned_acc bs acc :
  fold_left be_step bs acc = acc * 256 ^ len bs + from_be_unsigned bs.
Proof.
  induction bs as [|b bs IH] using rev_ind; [change (acc = acc * 1 + 0); lia|].
  rewrite fold_left_app, from_be_unsigned_snoc, len_app. cbn [fold_left]. unfold be_step at 1.
  rewrite IH. replace (len [b]) with 1 by done.
  rewrite Z.pow_add_r by (pose proof (len_nonneg bs); lia). lia.
Qed.

Lemma from_be_unsigned_cons b bs :
  from_be_unsigned (b :: bs) = Z_of_byte b * 256 ^ len bs + from_be_unsigned bs.
Proof. unfold from_be_unsigned at 1. cbn [fold_left]. by rewrite from_be_unsigned_acc. Qed.

(** Big-endian encodings of one width compare as the numbers do. *)
Lemma bytes_ltb_unsigned a b :
  length a = length b →
  bytes_ltb a b = (from_be_unsigned a <? from_be_unsigned b).
Proof.
  revert b. induction a as [|x a IH]; intros [|y b]; try done.
  cbn [length]. intros [= Hl]. rewrite !from_be_unsigned_cons. cbn [bytes_ltb]. rewrite IH by done.
  pose proof (from_be_unsigned_range a). pose proof (from_be_unsigned_range b).
  assert (len a = len b) as Hlen by (unfold len; lia). rewrite Hlen in *.
  pose proof (Z_of_byte_range x). pose proof (Z_of_byte_range y).
  destruct (Z.lt_total (Z_of_byte x) (Z_of_byte y)) as [Hlt|[He|Hgt]].
  - rewrite (proj2 (Z.ltb_lt _ _) Hlt). symmetry. apply Z.ltb_lt.
    assert ((Z_of_byte x + 1) * 256 ^ len b ≤ Z_of_byte y * 256 ^ len b)
      by (apply Z.mul_le_mono_nonneg_r; lia). lia.
  - rewrite He, Z.ltb_irrefl. apply (inj Z_of_byte) in He. subst.
    unfold byte_eqb. rewrite bool_decide_true by done. cbn.
    destruct (Z.ltb_spec (from_be_unsigned a) (from_be_unsigned b)); symmetry;
      [apply Z.ltb_lt|apply Z.ltb_ge]; lia.
  - rewrite (proj2 (Z.ltb_ge _ _)) by lia.
    unfold byte_eqb. rewrite bool_decide_false by (intros ->; lia). cbn.
    symmetry. apply Z.ltb_ge.
    assert ((Z_of_byte y + 1) * 256 ^ len b ≤ Z_of_byte x * 256 ^ len b)
      by (apply Z.mul_le_mono_nonneg_r; lia). lia.
Qed.

Lemma bytes_ltb_be n a b :
  0 ≤ a < 256 ^ Z.of_nat n → 0 ≤ b < 256 ^ Z.of_nat n →
  bytes_ltb (to_be_bytes n a) (to_be_bytes n b) = (a <? b).
Proof.
  intros. rewrite bytes_ltb_unsigned by (by rewrite !length_to_be_bytes).
  by rewrite !from_be_unsigned_exact.
Qed.

#[global] Arguments to_be_bytes : simpl never.
#[global] Arguments slice : simpl never.

Create HintDb bgjobs.
#[export] Hint Rewrite @len_app @len_cons @len_nil len_to_be_bytes bytes_eqb_refl : bgjobs.
