(* ===== verification/Errors.v ===== *)
(** * Errors

    The error enumerations of [crates/bg-jobs/src/error.rs] and of
    [crates/bg-jobs/src/ids/types.rs], with the [From] conversions that the
    [?] operator applies.  [&'static str] fields are strings; formatting
    ([Display], [Debug]) is not modelled. *)

From S2P Require Import Prelude.

Inductive ValidationError : Type :=
  | VE_Empty (field : string)
  | VE_TooLong (field : string) (maximum actual : Z)
  | VE_TooShort (field : string) (minimum actual : Z)
  | VE_InvalidText (field : string)
  | VE_InvalidValue (field : string)
  | VE_Overflow (field : string)
  | VE_Ordering (field : string).

Inductive IdentifierError : Type :=
  | IE_InvalidLength (kind : string) (expected actual : Z)
  | IE_Empty (kind : string)
  | IE_TooLong (kind : string) (maximum actual : Z)
  | IE_EntropyUnavailable
  | IE_InvalidText (kind : string).

Inductive StoreDataError : Type :=
  | SDE_UnknownVersion (version : Z)
  | SDE_UnknownTag (tag : Z)
  | SDE_Truncated
  | SDE_Malformed (reason : string)
  | SDE_InvalidLength (field : string) (actual maximum : Z)
  | SDE_LengthOverflow
  | SDE_TrailingBytes.

Inductive StoreContractError : Type :=
  | SCE_Validation (error : ValidationError)
  | SCE_CapabilityExceeded (field : string)
  | SCE_DuplicateTransactionKey (section : string)
  | SCE_FalseDistributedClaim
  | SCE_EmptyTransaction.

(** [JobSystemError<E>]; the wake scheduler's error is kept abstract. *)
Inductive JobSystemError (E : Type) : Type :=
  | JSE_Validation (error : ValidationError)
  | JSE_StoreContract (error : StoreContractError)
  | JSE_StoreData (error : StoreDataError)
  | JSE_Store (error : E)
  | JSE_WakeScheduler
  | JSE_UnregisteredHandler
  | JSE_JobIdConflict
  | JSE_NotFound
  | JSE_LeaseConflict
  | JSE_LeaseLost
  | JSE_PayloadCorrupt
  | JSE_ClaimPublicationUnacknowledged
  | JSE_UnsupportedOutcome
  | JSE_UnknownCommit
  | JSE_EntropyUnavailable.
Arguments JSE_Validation {E} error.
Arguments JSE_StoreContract {E} error.
Arguments JSE_StoreData {E} error.
Arguments JSE_Store {E} error.
Arguments JSE_WakeScheduler {E}.
Arguments JSE_UnregisteredHandler {E}.
Arguments JSE_JobIdConflict {E}.
Arguments JSE_NotFound {E}.
Arguments JSE_LeaseConflict {E}.
Arguments JSE_LeaseLost {E}.
Arguments JSE_PayloadCorrupt {E}.
Arguments JSE_ClaimPublicationUnacknowledged {E}.
Arguments JSE_UnsupportedOutcome {E}.
Arguments JSE_UnknownCommit {E}.
Arguments JSE_EntropyUnavailable {E}.

#[export] Instance ValidationError_eq_dec : EqDecision ValidationError.
Proof. solve_decision. Defined.
#[export] Instance IdentifierError_eq_dec : EqDecision IdentifierError.
Proof. solve_decision. Defined.
#[export] Instance StoreDataError_eq_dec : EqDecision StoreDataError.
Proof. solve_decision. Defined.
#[export] Instance StoreContractError_eq_dec : EqDecision StoreContractError.
Proof. solve_decision. Defined.

(** [impl From<IdentifierError> for ValidationError]. *)
Definition ValidationError_from_identifier (e : IdentifierError) : ValidationError :=
  match e with
  | IE_Empty kind => VE_Empty kind
  | IE_TooLong kind maximum actual => VE_TooLong kind maximum actual
  | IE_InvalidText kind => VE_InvalidText kind
  | IE_InvalidLength kind _ _ => VE_InvalidValue kind
  | IE_EntropyUnavailable => VE_InvalidValue "secure entropy"
  end.

(** [impl From<IdentifierError> for StoreDataError]. *)
Definition StoreDataError_from_identifier (_ : IdentifierError) : StoreDataError :=
  SDE_Malformed "identifier".

(** [impl From<ValidationError> for StoreDataError]. *)
Definition StoreDataError_from_validation (_ : ValidationError) : StoreDataError :=
  SDE_Malformed "validated value".
