(* ===== verification/Ids.v ===== *)
(** * Identifiers

    [crates/bg-jobs/src/ids/types.rs].  A fixed identifier ([JobId],
    [OperationId], ...) is its sixteen bytes, a bounded opaque key and a
    validated name are their bytes; what the private Rust fields guarantee is
    the boolean invariant of each type ([is_fixed_id], [is_opaque],
    [is_text]), which every constructor is shown to establish.  The UTF-8
    decoder stands for [core::str::from_utf8] and [str::chars]. *)

From S2P Require Import Prelude Errors.

Abbreviation JobId := bytes.
Abbreviation ExecutionId := bytes.
Abbreviation AttemptId := bytes.
Abbreviation LeaseToken := bytes.
Abbreviation OperationId := bytes.
Abbreviation CommitOperationId := bytes.
Abbreviation OwnerId := bytes.
Abbreviation ScheduleId := bytes.
Abbreviation OccurrenceId := bytes.
Abbreviation FairnessKey := bytes.
Abbreviation OrderingKey := bytes.
Abbreviation DeduplicationKey := bytes.
Abbreviation Namespace := bytes.
Abbreviation JobKind := bytes.
Abbreviation QueueName := bytes.

Definition OPAQUE_ID_BYTES : Z := 16.
Definition MAX_NAME_BYTES : Z := 128.
Definition MAX_NAMESPACE_BYTES : Z := 128.
Definition MAX_FAIRNESS_KEY_BYTES : Z := 128.
Definition MAX_ORDERING_KEY_BYTES : Z := 128.
Definition MAX_DEDUPE_KEY_BYTES : Z := 256.

(** ** UTF-8 text *)

Definition continuation (lo hi : Z) (b : byte) : bool := in_range lo hi (Z_of_byte b).
Definition low6 (b : byte) : Z := Z.land (Z_of_byte b) 63.

(** The scalar values of well-formed UTF-8 (RFC 3629: no overlong forms, no
    surrogates, nothing above U+10FFFF), [None] on any other byte string. *)
Fixpoint utf8_chars (bs : bytes) : option (list Z) :=
  match bs with
  | [] => Some []
  | b0 :: r0 =>
      let c0 := Z_of_byte b0 in
      if c0 <=? 127 then (c0 ::.) <$> utf8_chars r0 else
      match r0 with
      | [] => None
      | b1 :: r1 =>
          if in_range 194 223 c0 then
            if continuation 128 191 b1
            then (Z.shiftl (Z.land c0 31) 6 + low6 b1 ::.) <$> utf8_chars r1
            else None
          else
          match r1 with
          | [] => None
          | b2 :: r2 =>
              if in_range 224 239 c0 then
                let lo := if c0 =? 224 then 160 else 128 in
                let hi := if c0 =? 237 then 159 else 191 in
                if continuation lo hi b1 && continuation 128 191 b2
                then (Z.shiftl (Z.land c0 15) 12 + Z.shiftl (low6 b1) 6 + low6 b2 ::.)
                       <$> utf8_chars r2
                else None
              else
              match r2 with
              | [] => None
              | b3 :: r3 =>
                  if in_range 240 244 c0 then
                    let lo := if c0 =? 240 then 144 else 128 in
                    let hi := if c0 =? 244 then 143 else 191 in
                    if continuation lo hi b1 && continuation 128 191 b2 && continuation 128 191 b3
                    then (Z.shiftl (Z.land c0 7) 18 + Z.shiftl (low6 b1) 12
                            + Z.shiftl (low6 b2) 6 + low6 b3 ::.) <$> utf8_chars r3
                    else None
                  else None
              end
          end
      end
  end.

Definition is_str (bs : bytes) : bool := if utf8_chars bs then true else false.
Definition str_chars (bs : bytes) : list Z := default [] (utf8_chars bs).
(** [char::is_control]: the Unicode category Cc. *)
Definition char_is_control (c : Z) : bool := (c <=? 31) || in_range 127 159 c.

Lemma utf8_chars_ascii bs :
  Forall (λ b, Z_of_byte b ≤ 127) bs → utf8_chars bs = Some (Z_of_byte <$> bs).
Proof.
  induction 1 as [|b bs Hb _ IH]; [done|].
  cbn. rewrite (proj2 (Z.leb_le _ _) Hb), IH. done.
Qed.

(** ** Fixed-size identifiers: the [fixed_identifier!] macro *)

Definition is_fixed_id (bs : bytes) : bool := len bs =? OPAQUE_ID_BYTES.

Definition fixed_try_from_slice (label : string) (bs : bytes) : result IdentifierError bytes :=
  if len bs =? OPAQUE_ID_BYTES then Ok bs
  else Err (IE_InvalidLength label OPAQUE_ID_BYTES (len bs)).

(** ** Opaque bounded keys *)

Definition is_opaque (MAX : Z) (bs : bytes) : bool :=
  (0 <? len bs) && (len bs <=? MAX).

Definition OpaqueBytes_try_new (MAX : Z) (kind : string) (bs : bytes)
    : result IdentifierError bytes :=
  if len bs =? 0 then Err (IE_Empty kind)
  else if MAX <? len bs then Err (IE_TooLong kind MAX (len bs))
  else Ok bs.

Definition FairnessKey_try_new : bytes → result IdentifierError FairnessKey :=
  OpaqueBytes_try_new MAX_FAIRNESS_KEY_BYTES "fairness key".
Definition OrderingKey_try_new : bytes → result IdentifierError OrderingKey :=
  OpaqueBytes_try_new MAX_ORDERING_KEY_BYTES "ordering key".
Definition DeduplicationKey_try_new : bytes → result IdentifierError DeduplicationKey :=
  OpaqueBytes_try_new MAX_DEDUPE_KEY_BYTES "deduplication key".
Definition Namespace_try_new : bytes → result IdentifierError Namespace :=
  OpaqueBytes_try_new MAX_NAMESPACE_BYTES "namespace".

(** ** Validated names; the argument is a [&str], so it satisfies [is_str] *)

Definition is_text (maximum : Z) (bs : bytes) : bool :=
  is_opaque maximum bs && is_str bs && forallb (λ c, negb (char_is_control c)) (str_chars bs).

Definition ValidatedText_try_new (kind : string) (value : bytes) (maximum : Z)
    : result IdentifierError bytes :=
  if len value =? 0 then Err (IE_Empty kind)
  else if maximum <? len value then Err (IE_TooLong kind maximum (len value))
  else if existsb char_is_control (str_chars value) then Err (IE_InvalidText kind)
  else Ok value.

Definition JobKind_try_new (value : bytes) : result IdentifierError JobKind :=
  ValidatedText_try_new "job kind" value MAX_NAME_BYTES.
Definition QueueName_try_new (value : bytes) : result IdentifierError QueueName :=
  ValidatedText_try_new "queue name" value MAX_NAME_BYTES.

(** ** Constructors establish the invariants and accept exactly them *)

Lemma fixed_try_from_slice_Ok label bs a :
  fixed_try_from_slice label bs = Ok a ↔ a = bs ∧ is_fixed_id bs = true.
Proof. unfold fixed_try_from_slice, is_fixed_id. case_match; naive_solver. Qed.

Lemma OpaqueBytes_try_new_Ok MAX kind bs a :
  OpaqueBytes_try_new MAX kind bs = Ok a ↔ a = bs ∧ is_opaque MAX bs = true.
Proof.
  unfold OpaqueBytes_try_new, is_opaque. pose proof (len_nonneg bs).
  destruct (Z.eqb_spec (len bs) 0), (Z.ltb_spec MAX (len bs)), (Z.ltb_spec 0 (len bs)),
    (Z.leb_spec (len bs) MAX); cbn; try lia; naive_solver.
Qed.

Lemma existsb_forallb_negb {A} (f : A → bool) l :
  existsb f l = negb (forallb (λ x, negb (f x)) l).
Proof. induction l as [|x l IH]; [done|]. cbn. rewrite IH. by destruct (f x), (forallb _ l). Qed.

Lemma ValidatedText_try_new_Ok kind maximum value a :
  is_str value = true →
  ValidatedText_try_new kind value maximum = Ok a ↔ a = value ∧ is_text maximum value = true.
Proof.
  intros Hs. unfold ValidatedText_try_new, is_text, is_opaque. rewrite Hs, andb_true_r.
  pose proof (len_nonneg value). rewrite existsb_forallb_negb.
  destruct (Z.eqb_spec (len value) 0), (Z.ltb_spec maximum (len value)), (Z.ltb_spec 0 (len value)),
    (Z.leb_spec (len value) maximum), (forallb _ _); cbn; try lia; naive_solver.
Qed.

Lemma is_text_is_str maximum bs : is_text maximum bs = true → is_str bs = true.
Proof. unfold is_text. intros. by split_andb. Qed.

Lemma is_text_len maximum bs : is_text maximum bs = true → 0 < len bs ≤ maximum.
Proof. unfold is_text, is_opaque. intros. split_andb. rewrite Z.ltb_lt, Z.leb_le in *. lia. Qed.

Lemma is_opaque_len MAX bs : is_opaque MAX bs = true → 0 < len bs ≤ MAX.
Proof. unfold is_opaque. intros. split_andb. rewrite Z.ltb_lt, Z.leb_le in *. lia. Qed.

Lemma is_fixed_id_len bs : is_fixed_id bs = true → len bs = 16.
Proof. unfold is_fixed_id, OPAQUE_ID_BYTES. apply Z.eqb_eq. Qed.

#[export] Hint Resolve is_text_is_str : bgjobs.

(** [OccurrenceId::derive]: the digest is the [sha2] crate's. *)
Section occurrence.
Variable sha256 : bytes → bytes.

Definition OccurrenceId_derive (schedule_id : ScheduleId) (intended_at : Z) : OccurrenceId :=
  slice (sha256 (schedule_id ++ i64_bytes intended_at)) 0 OPAQUE_ID_BYTES.
End occurrence.
