(* ===== verification/Clock.v ===== *)
(** * Time

    [crates/bg-jobs/src/time/timestamp.rs] and [time/wake.rs].  A [Timestamp]
    is its signed milliseconds, a [MonotonicDeadline] its nanoseconds, and
    [std::time::Duration] its total nanoseconds (whole seconds in a [u64]). *)

From S2P Require Import Prelude Errors.

Abbreviation Timestamp := Z.
Abbreviation MonotonicDeadline := Z.

(** ** [std::time::Duration] *)

Abbreviation Duration := Z.
Definition NANOS_PER_SEC : Z := 1000000000.
Definition NANOS_PER_MILLI : Z := 1000000.
Definition DURATION_MAX : Z := (U64_MAX + 1) * NANOS_PER_SEC - 1.
Definition is_duration : Z → bool := in_range 0 DURATION_MAX.

Definition as_millis (d : Duration) : Z := d / NANOS_PER_MILLI.
Definition from_millis (ms : Z) : Duration := ms * NANOS_PER_MILLI.
Definition from_secs (s : Z) : Duration := s * NANOS_PER_SEC.
Definition Duration_checked_mul (d : Duration) (k : Z) : option Duration :=
  checked 0 DURATION_MAX (d * k).

(** ** [Timestamp] *)

Definition Timestamp_checked_add (t : Timestamp) (d : Duration)
    : result ValidationError Timestamp :=
  millis ← ok_or (VE_Overflow "timestamp duration") (checked I64_MIN I64_MAX (as_millis d));
  ok_or (VE_Overflow "timestamp") (checked_add_i64 t millis).

Definition Timestamp_checked_sub (t : Timestamp) (d : Duration)
    : result ValidationError Timestamp :=
  millis ← ok_or (VE_Overflow "timestamp duration") (checked I64_MIN I64_MAX (as_millis d));
  ok_or (VE_Overflow "timestamp") (checked_sub_i64 t millis).

Definition Timestamp_duration_since (t earlier : Timestamp) : result ValidationError Duration :=
  millis ← ok_or (VE_Overflow "timestamp") (checked_sub_i64 t earlier);
  if millis <? 0 then Err (VE_Ordering "timestamp") else Ok (from_millis millis).

(** ** [MonotonicDeadline] *)

Definition MonotonicDeadline_from_duration (d : Duration) : option MonotonicDeadline :=
  checked 0 U64_MAX d.

Definition MonotonicDeadline_checked_add (t : MonotonicDeadline) (d : Duration) (field : string)
    : result ValidationError MonotonicDeadline :=
  delta ← ok_or (VE_Overflow field) (checked 0 U64_MAX d);
  ok_or (VE_Overflow field) (checked_add_u64 t delta).

Definition MonotonicDeadline_is_before (a b : MonotonicDeadline) : bool := a <? b.
Definition MonotonicDeadline_is_at_or_before (a b : MonotonicDeadline) : bool := a <=? b.
Definition MonotonicDeadline_remaining_until (t now : MonotonicDeadline) : Duration :=
  saturating_sub t now.

(** ** Advisory wake hints *)

Inductive WakeHint : Type :=
  | WH_Now
  | WH_At (at_ : Timestamp)
  | WH_None.

#[export] Instance WakeHint_eq_dec : EqDecision WakeHint.
Proof. solve_decision. Defined.

Definition WakeHint_from_timestamp (at_ now : Timestamp) : WakeHint :=
  if at_ <=? now then WH_Now else WH_At at_.

Definition WakeHint_from_optional_timestamp (t : option Timestamp) : WakeHint :=
  match t with Some t => WH_At t | None => WH_None end.

Definition WakeHint_is_now (h : WakeHint) : bool :=
  match h with WH_Now => true | _ => false end.

Definition WakeHint_earliest (self candidate : WakeHint) : WakeHint :=
  match self, candidate with
  | WH_Now, _ | _, WH_Now => WH_Now
  | WH_None, other | other, WH_None => other
  | WH_At current, WH_At candidate =>
      if current <=? candidate then WH_At current else WH_At candidate
  end.

(** ** Facts *)

Lemma Timestamp_checked_add_Ok t d a :
  Timestamp_checked_add t d = Ok a → a = t + as_millis d ∧ is_i64 a = true.
Proof.
  unfold Timestamp_checked_add. intros H. invert_ok.
  apply checked_Some in Ha as [-> ?]. apply checked_Some in H as [-> ?].
  split; [done|]. by ranges.
Qed.

Lemma as_millis_nonneg d : 0 ≤ d → 0 ≤ as_millis d.
Proof. intros. apply Z.div_pos; unfold NANOS_PER_MILLI; lia. Qed.

(** Adding a duration to a timestamp and measuring it back loses exactly the
    sub-millisecond part of the duration. *)
Lemma Timestamp_add_duration_since t d a :
  is_i64 t = true → 0 ≤ d → Timestamp_checked_add t d = Ok a →
  Timestamp_duration_since a t = Ok (from_millis (as_millis d)).
Proof.
  intros Ht Hd H. unfold Timestamp_checked_add in H. invert_ok.
  apply checked_Some in Ha as [-> Hm]. apply checked_Some in H as [-> ?].
  pose proof (as_millis_nonneg d Hd).
  unfold Timestamp_duration_since, checked_sub_i64.
  replace (t + as_millis d - t) with (as_millis d) by lia.
  rewrite checked_ok by done. cbn. rewrite (proj2 (Z.ltb_ge _ _)) by lia. done.
Qed.

(** [earliest] is a commutative, associative and idempotent minimum with
    [WH_Now] least and [WH_None] greatest. *)
Lemma WakeHint_earliest_comm a b : WakeHint_earliest a b = WakeHint_earliest b a.
Proof.
  destruct a as [|x|], b as [|y|]; try done. cbn.
  destruct (Z.leb_spec x y), (Z.leb_spec y x); f_equal; lia.
Qed.

Lemma WakeHint_earliest_assoc a b c :
  WakeHint_earliest a (WakeHint_earliest b c) = WakeHint_earliest (WakeHint_earliest a b) c.
Proof.
  destruct a as [|x|], b as [|y|], c as [|z|]; cbn; repeat (case_match; cbn); try done;
    simplify_eq; rewrite ?Z.leb_le, ?Z.leb_gt in *; try (f_equal; lia); lia.
Qed.

#[export] Instance WakeHint_earliest_Comm : Comm (=) WakeHint_earliest.
Proof. intros ??. apply WakeHint_earliest_comm. Qed.
#[export] Instance WakeHint_earliest_Assoc : Assoc (=) WakeHint_earliest.
Proof. intros ???. apply WakeHint_earliest_assoc. Qed.
