(* ===== verification/Policy.v ===== *)
(** * Policies

    [crates/bg-jobs/src/policy/types.rs]: fairness classes, priorities, effect
    modes, retry policies and their backoff, outcome codes and deduplication
    requests. *)

From S2P Require Import Prelude Errors Ids Clock.

(** ** Fairness, priority and effect modes *)

Record FairnessPath : Type := mkFairnessPath {
  fp_primary : FairnessKey;
  fp_secondary : option FairnessKey;
}.

Inductive FairnessClass : Type :=
  | FC_Scoped (path : FairnessPath)
  | FC_LowVolume.

Inductive Priority : Type := Critical | Default | Bulk.

Definition Priority_default_weight (p : Priority) : Z :=
  match p with Critical => 8 | Default => 4 | Bulk => 1 end.

Inductive EffectMode : Type := ReadOnly | Idempotent | AtLeastOnce | Fenced.

Inductive FairnessPolicy : Type :=
  | FP_Scoped (weight : Z)
  | FP_LowVolume.

#[export] Instance FairnessPath_eq_dec : EqDecision FairnessPath.
Proof. solve_decision. Defined.
#[export] Instance FairnessClass_eq_dec : EqDecision FairnessClass.
Proof. solve_decision. Defined.
#[export] Instance Priority_eq_dec : EqDecision Priority.
Proof. solve_decision. Defined.
#[export] Instance EffectMode_eq_dec : EqDecision EffectMode.
Proof. solve_decision. Defined.

(** What the private fields of the keys guarantee. *)
Definition is_option {A} (P : A → bool) (o : option A) : bool :=
  match o with Some a => P a | None => true end.
Definition is_fairness_path (p : FairnessPath) : bool :=
  is_opaque MAX_FAIRNESS_KEY_BYTES (fp_primary p)
  && is_option (is_opaque MAX_FAIRNESS_KEY_BYTES) (fp_secondary p).
Definition is_fairness_class (c : FairnessClass) : bool :=
  match c with FC_Scoped p => is_fairness_path p | FC_LowVolume => true end.

(** ** Retry policies *)

Definition BackoffMultiplier_MAX : Z := 32.

(** [BackoffMultiplier::try_from(u32)]. *)
Definition BackoffMultiplier_try_from (value : Z) : result ValidationError Z :=
  if value =? 0 then Err (VE_InvalidValue "retry multiplier")
  else if BackoffMultiplier_MAX <? value
  then Err (VE_TooLong "retry multiplier" BackoffMultiplier_MAX value)
  else Ok value.

(** [RetryPolicy] and [RetryPolicyInput]; [FullJitter] is the unit value the
    source stores in [jitter]. *)
Record RetryPolicy : Type := mkRetryPolicy {
  rp_maximum_attempts : Z;
  rp_maximum_age : Duration;
  rp_minimum_backoff : Duration;
  rp_maximum_backoff : Duration;
  rp_multiplier : Z;
}.

#[export] Instance RetryPolicy_eq_dec : EqDecision RetryPolicy.
Proof. solve_decision. Defined.

(** [RetryPolicy::try_from(RetryPolicyInput)]. *)
Definition RetryPolicy_try_from (input : RetryPolicy) : result ValidationError RetryPolicy :=
  if rp_maximum_age input =? 0 then Err (VE_InvalidValue "retry maximum age")
  else if rp_minimum_backoff input =? 0 then Err (VE_InvalidValue "retry minimum backoff")
  else if rp_maximum_backoff input =? 0 then Err (VE_InvalidValue "retry maximum backoff")
  else if rp_maximum_backoff input <? rp_minimum_backoff input
  then Err (VE_Ordering "retry backoff")
  else if (U64_MAX <? rp_maximum_age input) || (U64_MAX <? rp_minimum_backoff input)
          || (U64_MAX <? rp_maximum_backoff input)
  then Err (VE_Overflow "retry duration")
  else Ok input.

(** The invariant behind the private fields: what [try_from] accepts, with the
    field types' own ranges. *)
Definition is_multiplier : Z → bool := in_range 1 BackoffMultiplier_MAX.
Definition is_retry_policy (p : RetryPolicy) : bool :=
  is_nonzero_u16 (rp_maximum_attempts p) && is_multiplier (rp_multiplier p)
  && is_nonzero_u64 (rp_maximum_age p) && is_nonzero_u64 (rp_minimum_backoff p)
  && is_nonzero_u64 (rp_maximum_backoff p)
  && (rp_minimum_backoff p <=? rp_maximum_backoff p).

Inductive RetryPreset : Type := Interactive | Network | Maintenance.

Definition DEFAULT_MAXIMUM_ATTEMPTS : Z := 180.

Definition RetryPolicy_preset_values (attempts age_seconds minimum_millis maximum_millis : Z)
    : RetryPolicy :=
  let maximum_attempts := if attempts =? 0 then 1 else attempts in
  mkRetryPolicy maximum_attempts (from_secs age_seconds) (from_millis minimum_millis)
    (from_millis maximum_millis) 2.

Definition RetryPolicy_preset (preset : RetryPreset) : RetryPolicy :=
  match preset with
  | Interactive => RetryPolicy_preset_values DEFAULT_MAXIMUM_ATTEMPTS 120 100 5000
  | Network => RetryPolicy_preset_values DEFAULT_MAXIMUM_ATTEMPTS 86400 1000 900000
  | Maintenance => RetryPolicy_preset_values DEFAULT_MAXIMUM_ATTEMPTS 604800 5000 21600000
  end.

(** The body of the [for _ in 1..attempt.get()] loop, run [steps] times. *)
Fixpoint backoff_loop (p : RetryPolicy) (steps : nat) (value : Duration) : Duration :=
  match steps with
  | O => Z.min value (rp_maximum_backoff p)
  | S steps =>
      let value :=
        match Duration_checked_mul value (rp_multiplier p) with
        | Some value => value
        | None => rp_maximum_backoff p
        end in
      if rp_maximum_backoff p <=? value then rp_maximum_backoff p
      else backoff_loop p steps value
  end.

Definition RetryPolicy_backoff_cap (p : RetryPolicy) (attempt : Z) : Duration :=
  backoff_loop p (Z.to_nat (attempt - 1)) (rp_minimum_backoff p).

Inductive RetrySelection : Type :=
  | RS_Preset (preset : RetryPreset)
  | RS_Custom (policy : RetryPolicy).

(** [impl From<RetrySelection> for RetryPolicy]. *)
Definition RetryPolicy_from (selection : RetrySelection) : RetryPolicy :=
  match selection with
  | RS_Preset preset => RetryPolicy_preset preset
  | RS_Custom policy => policy
  end.

Definition RetryPreset_with_limits (preset : RetryPreset)
    (maximum_attempts : Z) (maximum_backoff : Duration) : result ValidationError RetrySelection :=
  let base := RetryPolicy_preset preset in
  policy ← RetryPolicy_try_from
    (mkRetryPolicy (Z.min maximum_attempts (rp_maximum_attempts base)) (rp_maximum_age base)
       (rp_minimum_backoff base) (Z.min maximum_backoff (rp_maximum_backoff base))
       (rp_multiplier base));
  Ok (RS_Custom policy).

Definition RetryPreset_with_backoff (preset : RetryPreset)
    (minimum_backoff maximum_backoff : Duration) : result ValidationError RetrySelection :=
  let base := RetryPolicy_preset preset in
  policy ← RetryPolicy_try_from
    (mkRetryPolicy (rp_maximum_attempts base) (rp_maximum_age base)
       minimum_backoff maximum_backoff (rp_multiplier base));
  Ok (RS_Custom policy).

Inductive RetryClass : Type := Transient | Throttled | AmbiguousEffect.

(** ** Outcome codes *)

Abbreviation OutcomeCode := bytes.
Definition OutcomeCode_MAX_BYTES : Z := 64.

(** [is_ascii_lowercase], [is_ascii_digit], ['_'] or ['-']. *)
Definition outcome_byte (b : byte) : bool :=
  let c := Z_of_byte b in
  in_range 97 122 c || in_range 48 57 c || (c =? 95) || (c =? 45).

Definition is_outcome_code (bs : bytes) : bool :=
  is_opaque OutcomeCode_MAX_BYTES bs && forallb outcome_byte bs.

Definition OutcomeCode_try_new (value : bytes) : result ValidationError OutcomeCode :=
  if len value =? 0 then Err (VE_Empty "outcome code")
  else if OutcomeCode_MAX_BYTES <? len value
  then Err (VE_TooLong "outcome code" OutcomeCode_MAX_BYTES (len value))
  else if negb (forallb outcome_byte value) then Err (VE_InvalidText "outcome code")
  else Ok value.

(** ** Deduplication requests *)

Record Deduplication : Type := mkDeduplication {
  dd_key : DeduplicationKey;
  dd_retain_until : Timestamp;
}.

#[export] Instance Deduplication_eq_dec : EqDecision Deduplication.
Proof. solve_decision. Defined.

Definition Deduplication_try_new (key : DeduplicationKey) (retain_until : Timestamp)
    : result ValidationError Deduplication :=
  if retain_until <? 0 then Err (VE_InvalidValue "deduplication retention")
  else Ok (mkDeduplication key retain_until).

Definition is_deduplication (d : Deduplication) : bool :=
  is_opaque MAX_DEDUPE_KEY_BYTES (dd_key d) && in_range 0 I64_MAX (dd_retain_until d).

(** ** Constructors establish the invariants *)

Lemma BackoffMultiplier_try_from_Ok value a :
  is_u32 value = true →
  BackoffMultiplier_try_from value = Ok a ↔ a = value ∧ is_multiplier value = true.
Proof.
  intros Hu. unfold BackoffMultiplier_try_from, is_multiplier. rewrite in_range_spec.
  ranges. unfold BackoffMultiplier_MAX.
  destruct (Z.eqb_spec value 0), (Z.ltb_spec 32 value); split; try naive_solver lia.
Qed.

Lemma RetryPolicy_try_from_Ok p a :
  is_nonzero_u16 (rp_maximum_attempts p) = true → is_multiplier (rp_multiplier p) = true →
  0 ≤ rp_maximum_age p → 0 ≤ rp_minimum_backoff p → 0 ≤ rp_maximum_backoff p →
  RetryPolicy_try_from p = Ok a ↔ a = p ∧ is_retry_policy p = true.
Proof.
  intros Ha Hm ???. unfold RetryPolicy_try_from, is_retry_policy. rewrite Ha, Hm.
  unfold is_nonzero_u64, in_range.
  destruct (Z.eqb_spec (rp_maximum_age p) 0), (Z.eqb_spec (rp_minimum_backoff p) 0),
    (Z.eqb_spec (rp_maximum_backoff p) 0), (Z.ltb_spec (rp_maximum_backoff p) (rp_minimum_backoff p)),
    (Z.ltb_spec U64_MAX (rp_maximum_age p)), (Z.ltb_spec U64_MAX (rp_minimum_backoff p)),
    (Z.ltb_spec U64_MAX (rp_maximum_backoff p)); cbn; rewrite ?andb_true_iff, ?Z.leb_le;
    split; try naive_solver lia.
Qed.

Lemma OutcomeCode_try_new_Ok value a :
  OutcomeCode_try_new value = Ok a ↔ a = value ∧ is_outcome_code value = true.
Proof.
  unfold OutcomeCode_try_new, is_outcome_code, is_opaque. pose proof (len_nonneg value).
  destruct (Z.eqb_spec (len value) 0), (Z.ltb_spec OutcomeCode_MAX_BYTES (len value)),
    (Z.ltb_spec 0 (len value)), (Z.leb_spec (len value) OutcomeCode_MAX_BYTES),
    (forallb outcome_byte value); cbn; try lia; naive_solver.
Qed.

(** An outcome code is ASCII, hence a [str]. *)
Lemma is_outcome_code_is_str bs : is_outcome_code bs = true → is_str bs = true.
Proof.
  unfold is_outcome_code. intros H. split_andb. rewrite forallb_forall in H.
  unfold is_str. rewrite utf8_chars_ascii; [done|].
  apply Forall_forall. intros b Hb%list_elem_of_In%H. unfold outcome_byte in Hb.
  rewrite !orb_true_iff, !in_range_spec, !Z.eqb_eq in Hb. lia.
Qed.
#[export] Hint Resolve is_outcome_code_is_str : bgjobs.

Lemma Deduplication_try_new_Ok key t a :
  is_opaque MAX_DEDUPE_KEY_BYTES key = true → is_i64 t = true →
  Deduplication_try_new key t = Ok a ↔ a = mkDeduplication key t ∧ is_deduplication a = true.
Proof.
  intros Hk Ht. unfold Deduplication_try_new, is_deduplication. ranges.
  destruct (Z.ltb_spec t 0); split; try done.
  - intros [-> Hd]. cbn in Hd. split_andb. ranges. lia.
  - intros [= <-]. cbn. rewrite Hk. split; [done|]. cbn. ranges. lia.
  - intros [-> _]. done.
Qed.

(** ** Backoff *)

(** The backoff of the [n]-th retry, without the saturating loop. *)
Definition backoff_spec (p : RetryPolicy) (attempt : Z) : Duration :=
  Z.min (rp_maximum_backoff p) (rp_minimum_backoff p * rp_multiplier p ^ (attempt - 1)).

Lemma backoff_loop_spec p steps value :
  1 ≤ rp_multiplier p → 0 < value → rp_maximum_backoff p ≤ DURATION_MAX →
  backoff_loop p steps value
  = Z.min (rp_maximum_backoff p) (value * rp_multiplier p ^ Z.of_nat steps).
Proof.
  intros Hm Hv Hmax. revert value Hv. induction steps as [|steps IH]; intros value Hv.
  - cbn. rewrite Z.mul_1_r. apply Z.min_comm.
  - cbn [backoff_loop]. rewrite Nat2Z.inj_succ, Z.pow_succ_r by lia.
    pose proof (Z.pow_pos_nonneg (rp_multiplier p) (Z.of_nat steps) ltac:(lia) ltac:(lia)) as Hp.
    rewrite Z.mul_assoc.
    set (v := value * rp_multiplier p). assert (0 < v) by (unfold v; nia).
    assert (v ≤ v * rp_multiplier p ^ Z.of_nat steps) by nia.
    unfold Duration_checked_mul. fold v.
    destruct (checked 0 DURATION_MAX v) as [w|] eqn:Hc.
    + apply checked_Some in Hc as [-> _].
      destruct (Z.leb_spec (rp_maximum_backoff p) v); [lia|]. by apply IH.
    + apply checked_None in Hc. rewrite Z.leb_refl. lia.
Qed.

Lemma backoff_loop_cap p attempt :
  is_retry_policy p = true → 1 ≤ attempt →
  RetryPolicy_backoff_cap p attempt = backoff_spec p attempt.
Proof.
  intros Hp Ha. unfold is_retry_policy, is_multiplier in Hp. split_andb. rewrite Z.leb_le in Hp. ranges.
  unfold RetryPolicy_backoff_cap, backoff_spec.
  rewrite backoff_loop_spec by (unfold DURATION_MAX, NANOS_PER_SEC, U64_MAX; lia).
  rewrite Z2Nat.id by lia. done.
Qed.

(** ** Properties *)

(** The saturating doubling loop of [RetryPolicy::backoff_cap] computes the
    closed form [min(maximum, minimum * multiplier ^ (attempt - 1))] for every
    valid policy and every attempt, overflow of the intermediate product
    included. *)
Theorem backoff_cap_closed_form p attempt :
  is_retry_policy p = true → 1 ≤ attempt →
  RetryPolicy_backoff_cap p attempt = backoff_spec p attempt.
Proof. apply backoff_loop_cap. Qed.

Lemma backoff_cap_closed_form_witness :
  RetryPolicy_backoff_cap (RetryPolicy_preset Network) 7
  = backoff_spec (RetryPolicy_preset Network) 7.
Proof. apply backoff_cap_closed_form; [vm_compute; reflexivity|lia]. Defined.

(** Narrowing a preset with [RetryPreset::with_limits] can only tighten it:
    a returned policy is valid, keeps the preset's age, first backoff and
    multiplier, and never raises its attempts or its backoff ceiling, so no
    attempt waits longer than under the preset. *)
Theorem with_limits_tightens preset attempts maximum policy attempt :
  1 ≤ attempts ≤ U16_MAX → 0 ≤ maximum → 1 ≤ attempt →
  RetryPreset_with_limits preset attempts maximum = Ok (RS_Custom policy) →
  is_retry_policy policy = true ∧
  rp_maximum_attempts policy ≤ rp_maximum_attempts (RetryPolicy_preset preset) ∧
  RetryPolicy_backoff_cap policy attempt ≤ RetryPolicy_backoff_cap (RetryPolicy_preset preset) attempt.
Proof.
  intros Hat Hm Ha Hw. unfold RetryPreset_with_limits in Hw. invert_ok.
  set (base := RetryPolicy_preset preset) in *.
  assert (is_retry_policy base = true) as Hbase by (by destruct preset).
  pose proof Hbase as Hb. unfold is_retry_policy, is_multiplier in Hb. split_andb. ranges.
  apply RetryPolicy_try_from_Ok in Ha0 as [-> Hp]; cbn; unfold is_multiplier; try (ranges; lia).
  split; [done|]. split; [lia|]. rewrite !backoff_loop_cap by done. unfold backoff_spec. cbn. lia.
Qed.

Lemma with_limits_tightens_witness :
  is_retry_policy (mkRetryPolicy 3 (from_secs 120) (from_millis 100) (from_millis 900) 2) = true ∧
  3 ≤ rp_maximum_attempts (RetryPolicy_preset Interactive) ∧
  RetryPolicy_backoff_cap (mkRetryPolicy 3 (from_secs 120) (from_millis 100) (from_millis 900) 2) 5
  ≤ RetryPolicy_backoff_cap (RetryPolicy_preset Interactive) 5.
Proof.
  apply (with_limits_tightens Interactive 3 (from_millis 900)
    (mkRetryPolicy 3 (from_secs 120) (from_millis 100) (from_millis 900) 2));
    [unfold U16_MAX; lia|vm_compute; congruence|lia|vm_compute; reflexivity].
Defined.
