(* ===== verification/JobRecord.v ===== *)
(** * Persisted job values

    [crates/bg-jobs/src/model/record.rs]: the payload manifest, leases,
    attempt histories, the authoritative record [JobRecordV1] and its
    validation, enqueue inputs, handler outcomes and completion receipts.
    [is_job_record] collects what the Rust types of the fields guarantee; the
    [validate] methods are what the code checks at run time. *)

From S2P Require Import Prelude Errors Ids Clock Policy.

Abbreviation StoreKey := bytes.

Definition MAX_INLINE_PAYLOAD_BYTES : Z := 950 * 1024.
Definition MAX_CHECKPOINT_BYTES : Z := 65536.
Definition PAYLOAD_DIGEST_BYTES : Z := 32.
Definition MAX_COST_UNITS : Z := 1024.
Definition MAX_CHUNKS : Z := 1024.

(** ** Payload manifests *)

Record PayloadManifest : Type := mkPayloadManifest {
  pm_total_length : Z;
  pm_digest : bytes;
  pm_chunk_keys : list StoreKey;
}.

(** [iter().enumerate().any(|(index, key)| keys[..index].contains(key))]. *)
Fixpoint dup_quadratic_from (previous keys : list StoreKey) : bool :=
  match keys with
  | [] => false
  | key :: keys =>
      existsb (bytes_eqb key) previous || dup_quadratic_from (previous ++ [key]) keys
  end.
Definition dup_quadratic : list StoreKey → bool := dup_quadratic_from [].

(** [iter().any(|key| !seen.insert(key))] over a [HashSet]. *)
Fixpoint dup_hashed (seen : gset StoreKey) (keys : list StoreKey) : bool :=
  match keys with
  | [] => false
  | key :: keys => if decide (key ∈ seen) then true else dup_hashed ({[key]} ∪ seen) keys
  end.

Definition PayloadManifest_validate (m : PayloadManifest) : result ValidationError unit :=
  if MAX_INLINE_PAYLOAD_BYTES <? pm_total_length m
  then Err (VE_TooLong "payload" MAX_INLINE_PAYLOAD_BYTES (pm_total_length m))
  else if MAX_CHUNKS <? len (pm_chunk_keys m)
  then Err (VE_TooLong "payload chunks" MAX_CHUNKS (len (pm_chunk_keys m)))
  else if (0 <? pm_total_length m) && (len (pm_chunk_keys m) =? 0)
  then Err (VE_Empty "payload chunks")
  else if (pm_total_length m =? 0) && negb (len (pm_chunk_keys m) =? 0)
  then Err (VE_InvalidValue "zero-length payload chunks")
  else
    let duplicate :=
      if len (pm_chunk_keys m) <=? 8 then dup_quadratic (pm_chunk_keys m)
      else dup_hashed ∅ (pm_chunk_keys m) in
    if duplicate then Err (VE_InvalidValue "duplicate payload chunk") else Ok tt.

Definition PayloadManifest_try_new (total_length : Z) (digest : bytes) (chunk_keys : list StoreKey)
    : result ValidationError PayloadManifest :=
  let manifest := mkPayloadManifest total_length digest chunk_keys in
  _ ← PayloadManifest_validate manifest;
  Ok manifest.

(** ** Leases and states *)

Record Lease : Type := mkLease {
  ls_owner : OwnerId;
  ls_token : LeaseToken;
  ls_fence : Z;
  ls_expires_at : Timestamp;
}.

Definition Lease_try_new (owner : OwnerId) (token : LeaseToken) (fence : Z) (expires_at : Timestamp)
    : result ValidationError Lease :=
  if expires_at <? 0 then Err (VE_InvalidValue "lease expiry")
  else Ok (mkLease owner token fence expires_at).

Inductive JobState : Type :=
  | Scheduled
  | Leased (lease : Lease)
  | DeadLettered
  | Cancelled
  | Suspended.

(** ** Attempt history *)

Record AttemptHistory : Type := mkAttemptHistory {
  ah_attempts : Z;
  ah_first_attempt_at : Timestamp;
  ah_last_attempt_at : Timestamp;
  ah_last_outcome : option OutcomeCode;
}.

Definition AttemptHistory_validate (h : AttemptHistory) : result ValidationError unit :=
  if ah_last_attempt_at h <? ah_first_attempt_at h
  then Err (VE_Ordering "attempt chronology") else Ok tt.

(** ** Policy snapshots *)

Record JobPolicySnapshot : Type := mkJobPolicySnapshot {
  ps_effect_mode : EffectMode;
  ps_cost_units : Z;
  ps_execution_timeout : option Duration;
  ps_retry_policy : RetryPolicy;
}.

Definition validate_cost_units (field : string) (value : Z) : result ValidationError unit :=
  if MAX_COST_UNITS <? value then Err (VE_TooLong field MAX_COST_UNITS value) else Ok tt.

Definition validate_execution_timeout (field : string) (timeout : option Duration)
    : result ValidationError unit :=
  match timeout with
  | Some timeout =>
      if timeout =? 0 then Err (VE_InvalidValue field)
      else if U64_MAX <? timeout then Err (VE_Overflow field) else Ok tt
  | None => Ok tt
  end.

Definition JobPolicySnapshot_validate (p : JobPolicySnapshot) : result ValidationError unit :=
  _ ← validate_cost_units "job cost units" (ps_cost_units p);
  _ ← validate_execution_timeout "execution timeout" (ps_execution_timeout p);
  Ok tt.

(** ** The authoritative record *)

Record JobRecordV1 : Type := mkJobRecordV1 {
  jr_job_id : JobId;
  jr_namespace : Namespace;
  jr_queue : QueueName;
  jr_kind : JobKind;
  jr_schema_version : Z;
  jr_generation : Z;
  jr_execution_id : ExecutionId;
  jr_payload : PayloadManifest;
  jr_fairness : FairnessClass;
  jr_ordering_key : option OrderingKey;
  jr_priority : Priority;
  jr_created_at : Timestamp;
  jr_scheduled_at : Timestamp;
  jr_expires_at : option Timestamp;
  jr_policy : JobPolicySnapshot;
  jr_attempts : option AttemptHistory;
  jr_state : JobState;
  jr_checkpoint : option bytes;
  jr_retention_deadline : Timestamp;
  jr_deduplication : option Deduplication;
  jr_revision : Z;
}.

#[export] Instance PayloadManifest_eq_dec : EqDecision PayloadManifest.
Proof. solve_decision. Defined.
#[export] Instance Lease_eq_dec : EqDecision Lease.
Proof. solve_decision. Defined.
#[export] Instance JobState_eq_dec : EqDecision JobState.
Proof. solve_decision. Defined.
#[export] Instance AttemptHistory_eq_dec : EqDecision AttemptHistory.
Proof. solve_decision. Defined.
#[export] Instance JobPolicySnapshot_eq_dec : EqDecision JobPolicySnapshot.
Proof. solve_decision. Defined.
#[export] Instance JobRecordV1_eq_dec : EqDecision JobRecordV1.
Proof. solve_decision. Defined.

Definition JobRecordV1_has_exhausted_attempts (r : JobRecordV1) : bool :=
  match jr_attempts r with
  | Some attempts => rp_maximum_attempts (ps_retry_policy (jr_policy r)) <=? ah_attempts attempts
  | None => false
  end.

Definition JobRecordV1_validate_expiry_and_retention (r : JobRecordV1)
    : result ValidationError unit :=
  _ ← match jr_expires_at r with
      | Some expiry => if expiry <? jr_scheduled_at r then Err (VE_Ordering "job expiry") else Ok tt
      | None => Ok tt
      end;
  if jr_retention_deadline r <? jr_created_at r
  then Err (VE_Ordering "job retention") else Ok tt.

Definition JobRecordV1_validate_checkpoint_and_lease (r : JobRecordV1)
    : result ValidationError unit :=
  _ ← match jr_checkpoint r with
      | Some checkpoint =>
          if MAX_CHECKPOINT_BYTES <? len checkpoint
          then Err (VE_TooLong "checkpoint" MAX_CHECKPOINT_BYTES (len checkpoint)) else Ok tt
      | None => Ok tt
      end;
  match jr_state r with
  | Leased lease =>
      if ls_expires_at lease <? jr_created_at r then Err (VE_Ordering "lease expiry") else Ok tt
  | _ => Ok tt
  end.

Definition JobRecordV1_validate (r : JobRecordV1) : result ValidationError unit :=
  _ ← PayloadManifest_validate (jr_payload r);
  _ ← JobPolicySnapshot_validate (jr_policy r);
  _ ← match jr_attempts r with
      | Some attempts => AttemptHistory_validate attempts
      | None => Ok tt
      end;
  _ ← JobRecordV1_validate_expiry_and_retention r;
  JobRecordV1_validate_checkpoint_and_lease r.

(** ** Field types *)

Definition is_array (n : Z) (bs : bytes) : bool := len bs =? n.
Definition is_store_key (k : StoreKey) : bool := 0 <? len k.
(** Values of type [Vec<u8>], [Bytes] or [StoreKey] whose length exceeds [u32]
    cannot be framed; every bound of this crate is far below it. *)
Definition is_framed (bs : bytes) : bool := len bs <=? U32_MAX.

Definition is_payload_manifest (m : PayloadManifest) : bool :=
  is_u32 (pm_total_length m) && is_array PAYLOAD_DIGEST_BYTES (pm_digest m)
  && forallb is_store_key (pm_chunk_keys m).

Definition is_lease (l : Lease) : bool :=
  is_fixed_id (ls_owner l) && is_fixed_id (ls_token l)
  && is_nonzero_u64 (ls_fence l) && in_range 0 I64_MAX (ls_expires_at l).

Definition is_job_state (s : JobState) : bool :=
  match s with Leased l => is_lease l | _ => true end.

Definition is_attempt_history (h : AttemptHistory) : bool :=
  is_nonzero_u32 (ah_attempts h) && is_i64 (ah_first_attempt_at h)
  && is_i64 (ah_last_attempt_at h) && is_option is_outcome_code (ah_last_outcome h).

Definition is_policy_snapshot (p : JobPolicySnapshot) : bool :=
  is_nonzero_u16 (ps_cost_units p) && is_option is_duration (ps_execution_timeout p)
  && is_retry_policy (ps_retry_policy p).

Definition is_job_record (r : JobRecordV1) : bool :=
  is_fixed_id (jr_job_id r) && is_opaque MAX_NAMESPACE_BYTES (jr_namespace r)
  && is_text MAX_NAME_BYTES (jr_queue r) && is_text MAX_NAME_BYTES (jr_kind r)
  && is_nonzero_u16 (jr_schema_version r) && is_u32 (jr_generation r)
  && is_fixed_id (jr_execution_id r) && is_payload_manifest (jr_payload r)
  && is_fairness_class (jr_fairness r)
  && is_option (is_opaque MAX_ORDERING_KEY_BYTES) (jr_ordering_key r)
  && is_i64 (jr_created_at r) && is_i64 (jr_scheduled_at r)
  && is_option is_i64 (jr_expires_at r) && is_policy_snapshot (jr_policy r)
  && is_option is_attempt_history (jr_attempts r) && is_job_state (jr_state r)
  && is_i64 (jr_retention_deadline r) && is_option is_deduplication (jr_deduplication r)
  && is_u64 (jr_revision r).

(** ** Enqueue inputs *)

Record NewJob : Type := mkNewJob {
  nj_job_id : JobId;
  nj_kind : JobKind;
  nj_schema_version : Z;
  nj_payload : bytes;
  nj_fairness : FairnessClass;
  nj_ordering_key : option OrderingKey;
  nj_priority : Priority;
  nj_scheduled_at : Timestamp;
  nj_expires_at : option Timestamp;
  nj_retry_override : option RetrySelection;
  nj_deduplication : option Deduplication;
}.

Definition NewJob_validate (j : NewJob) : result ValidationError unit :=
  if MAX_INLINE_PAYLOAD_BYTES <? len (nj_payload j)
  then Err (VE_TooLong "payload" MAX_INLINE_PAYLOAD_BYTES (len (nj_payload j)))
  else match nj_expires_at j with
       | Some expiry =>
           if expiry <? nj_scheduled_at j then Err (VE_Ordering "job expiry") else Ok tt
       | None => Ok tt
       end.

(** ** Handler outcomes *)

Inductive JobOutcome : Type :=
  | Complete (code : OutcomeCode)
  | Continue (not_before : Timestamp) (checkpoint : bytes)
  | Retry (class : RetryClass) (not_before : option Timestamp) (code : OutcomeCode)
  | DeadLetter (code : OutcomeCode)
  | OutcomeCancelled.

Definition JobOutcome_validate (o : JobOutcome) : result ValidationError unit :=
  match o with
  | Continue _ checkpoint =>
      if MAX_CHECKPOINT_BYTES <? len checkpoint
      then Err (VE_TooLong "checkpoint" MAX_CHECKPOINT_BYTES (len checkpoint)) else Ok tt
  | _ => Ok tt
  end.

(** ** Completion receipts; [TerminalDisposition] has the single value
    [Completed] *)

Inductive TerminalDisposition : Type := Completed.

Record OperationReceipt : Type := mkOperationReceipt {
  or_definition_digest : option bytes;
  or_operation_id : OperationId;
  or_job_id : JobId;
  or_generation : Z;
  or_revision : Z;
  or_execution_id : ExecutionId;
  or_attempt_id : AttemptId;
  or_attempts : Z;
  or_kind : JobKind;
  or_queue : QueueName;
  or_effect_mode : EffectMode;
  or_created_at : Timestamp;
  or_completed_at : Timestamp;
  or_owner : OwnerId;
  or_token : LeaseToken;
  or_fence : Z;
  or_terminal : TerminalDisposition;
  or_outcome : OutcomeCode;
}.

Definition is_receipt (r : OperationReceipt) : bool :=
  is_option (is_array 32) (or_definition_digest r) && is_fixed_id (or_operation_id r)
  && is_fixed_id (or_job_id r) && is_u32 (or_generation r) && is_u64 (or_revision r)
  && is_fixed_id (or_execution_id r) && is_fixed_id (or_attempt_id r)
  && is_nonzero_u32 (or_attempts r) && is_text MAX_NAME_BYTES (or_kind r)
  && is_text MAX_NAME_BYTES (or_queue r) && is_i64 (or_created_at r)
  && is_i64 (or_completed_at r) && is_fixed_id (or_owner r) && is_fixed_id (or_token r)
  && is_nonzero_u64 (or_fence r) && is_outcome_code (or_outcome r).

(** ** Duplicate detection *)

Lemma existsb_bytes_eqb key (l : list StoreKey) :
  existsb (bytes_eqb key) l = true ↔ key ∈ l.
Proof.
  rewrite existsb_exists, list_elem_of_In. split.
  - intros (x & Hx & He). apply bytes_eqb_spec in He. by subst.
  - intros H. exists key. by rewrite bytes_eqb_refl.
Qed.

Lemma dup_quadratic_from_false previous keys :
  dup_quadratic_from previous keys = false ↔ NoDup keys ∧ ∀ k, k ∈ keys → k ∉ previous.
Proof.
  revert previous. induction keys as [|key keys IH]; intros previous; cbn.
  - split; [|done]. intros _. split; [constructor|]. by intros k Hk%not_elem_of_nil.
  - rewrite orb_false_iff, IH, <- not_true_iff_false, existsb_bytes_eqb, NoDup_cons.
    setoid_rewrite elem_of_cons. setoid_rewrite elem_of_app.
    setoid_rewrite list_elem_of_singleton. naive_solver.
Qed.

Lemma dup_hashed_false seen keys :
  dup_hashed seen keys = false ↔ NoDup keys ∧ ∀ k, k ∈ keys → k ∉ seen.
Proof.
  revert seen. induction keys as [|key keys IH]; intros seen; cbn.
  - split; [|done]. intros _. split; [constructor|]. by intros k Hk%not_elem_of_nil.
  - rewrite NoDup_cons. setoid_rewrite elem_of_cons. case_decide; [naive_solver|].
    rewrite IH. setoid_rewrite elem_of_union. setoid_rewrite elem_of_singleton. naive_solver.
Qed.

(** What a valid manifest promises to the payload loader. *)
Record manifest_valid (m : PayloadManifest) : Prop := {
  mv_length : pm_total_length m ≤ MAX_INLINE_PAYLOAD_BYTES;
  mv_chunks : len (pm_chunk_keys m) ≤ MAX_CHUNKS;
  mv_empty : pm_total_length m = 0 ↔ pm_chunk_keys m = [];
  mv_nodup : NoDup (pm_chunk_keys m);
}.

Lemma PayloadManifest_validate_Ok m u :
  0 ≤ pm_total_length m → PayloadManifest_validate m = Ok u ↔ manifest_valid m.
Proof.
  intros Hpos. destruct u. unfold PayloadManifest_validate.
  pose proof (len_nonneg (pm_chunk_keys m)) as Hl.
  assert (len (pm_chunk_keys m) = 0 ↔ pm_chunk_keys m = []) as Hnil.
  { split; [apply len_zero_nil|by intros ->]. }
  assert ((if len (pm_chunk_keys m) <=? 8 then dup_quadratic (pm_chunk_keys m)
           else dup_hashed ∅ (pm_chunk_keys m)) = false ↔ NoDup (pm_chunk_keys m)) as Hdup.
  { case_match; [unfold dup_quadratic; rewrite dup_quadratic_from_false|rewrite dup_hashed_false];
      set_solver. }
  destruct (Z.ltb_spec MAX_INLINE_PAYLOAD_BYTES (pm_total_length m)).
  { split; [done|]. intros []. lia. }
  destruct (Z.ltb_spec MAX_CHUNKS (len (pm_chunk_keys m))).
  { split; [done|]. intros []. lia. }
  destruct (Z.ltb_spec 0 (pm_total_length m)), (Z.eqb_spec (len (pm_chunk_keys m)) 0),
    (Z.eqb_spec (pm_total_length m) 0); cbn; try lia;
    try (split; [done|]; intros [_ _ He _]; rewrite <- Hnil in He; lia);
    destruct (if len (pm_chunk_keys m) <=? 8 then _ else _).
  all: split; [try done|try (intros []; naive_solver)].
  all: intros _; split; [done|done| |by apply Hdup]; rewrite <- Hnil; lia.
Qed.

(** ** Properties *)

(** [PayloadManifest::validate] accepts exactly the manifests the payload
    loader relies on: a length within the inline limit, at most 1024 chunks,
    chunks present exactly when the payload is not empty, and no chunk key
    twice; the quadratic and the hashed duplicate search agree. *)
Theorem manifest_validate_iff m :
  0 ≤ pm_total_length m → is_ok (PayloadManifest_validate m) = true ↔ manifest_valid m.
Proof.
  intros Hm. rewrite <- (PayloadManifest_validate_Ok m tt) by done.
  destruct (PayloadManifest_validate m) as [[]|]; done.
Qed.

Lemma manifest_validate_iff_witness :
  manifest_valid (mkPayloadManifest 5 [] [[Byte.x01]; [Byte.x02]; [Byte.x03]]).
Proof. apply manifest_validate_iff; [cbn; lia|vm_compute; reflexivity]. Defined.
