(* ===== verification/Wire.v ===== *)
(** * Wire readers and writers

    The [Writer] of [codec/value/job/encoder.rs] and the [Reader] of
    [codec/value/job/reader.rs] (the private copies in
    [codec/value/operation.rs] have the same primitives).  A reader is a
    function on the pair of the slice and the offset; a failed read abandons
    the reader, as [?] does in every caller.

    [codec p wf enc] is the contract every read function of the crate is
    proved against: on the layout [enc a] of a value satisfying [wf] it
    returns exactly [a] and advances by that layout, and whenever it returns
    [a] at all, [wf a] holds and what it consumed was [enc a]. *)

From S2P Require Import Prelude Errors.

(** ** Writer *)

Abbreviation Writer := bytes.

Definition Writer_u8 (w : Writer) (value : Z) : Writer := w ++ to_be_bytes 1 value.
Definition Writer_u16 (w : Writer) (value : Z) : Writer := w ++ u16_bytes value.
Definition Writer_u32 (w : Writer) (value : Z) : Writer := w ++ u32_bytes value.
Definition Writer_u64 (w : Writer) (value : Z) : Writer := w ++ u64_bytes value.
Definition Writer_i64 (w : Writer) (value : Z) : Writer := w ++ i64_bytes value.
Definition Writer_fixed (w : Writer) (value : bytes) : Writer := w ++ value.
Definition Writer_bytes (w : Writer) (value : bytes) : result StoreDataError Writer :=
  length ← ok_or SDE_LengthOverflow (checked 0 U32_MAX (len value));
  Ok (Writer_fixed (Writer_u32 w length) value).
Definition Writer_text (w : Writer) (value : bytes) : result StoreDataError Writer :=
  Writer_bytes w value.

(** ** Reader *)

Record Reader : Type := mkReader { rd_bytes : bytes; rd_offset : Z }.

Definition reader (A : Type) : Type := Reader → result StoreDataError (A * Reader).

#[export] Instance reader_ret : MRet reader := λ A a r, Ok (a, r).
#[export] Instance reader_bind : MBind reader :=
  λ A B k p r, match p r with Ok (a, r) => k a r | Err e => Err e end.

(** A fallible conversion of a value that has been read. *)
Definition lift {A} (x : result StoreDataError A) : reader A :=
  λ r, match x with Ok a => Ok (a, r) | Err e => Err e end.
Definition fail {A} (e : StoreDataError) : reader A := λ _, Err e.

Definition Reader_new (bs : bytes) : Reader := mkReader bs 0.

Definition Reader_finish (r : Reader) : result StoreDataError unit :=
  if rd_offset r =? len (rd_bytes r) then Ok tt else Err SDE_TrailingBytes.

Definition Reader_take (length : Z) : reader bytes := λ r,
  match checked_add_usize (rd_offset r) length with
  | None => Err SDE_LengthOverflow
  | Some end_ =>
      if len (rd_bytes r) <? end_ then Err SDE_Truncated
      else Ok (slice (rd_bytes r) (rd_offset r) end_, mkReader (rd_bytes r) end_)
  end.

(** [fixed_array::<N>]: the conversion to [&[u8; N]] cannot fail after
    [take(N)]. *)
Definition Reader_fixed_array (N : Z) : reader bytes :=
  value ← Reader_take N;
  if len value =? N then mret value else fail SDE_Truncated.

Definition Reader_u8 : reader Z := value ← Reader_take 1; mret (from_be_unsigned value).
Definition Reader_u16 : reader Z := value ← Reader_fixed_array 2; mret (from_be_unsigned value).
Definition Reader_u32 : reader Z := value ← Reader_fixed_array 4; mret (from_be_unsigned value).
Definition Reader_u64 : reader Z := value ← Reader_fixed_array 8; mret (from_be_unsigned value).
Definition Reader_i64 : reader Z := value ← Reader_fixed_array 8; mret (from_be_i64 value).
Definition Reader_bytes : reader bytes := length ← Reader_u32; Reader_take length.

(** ** The contract of a read function *)

(** A slice in memory is at most [usize::MAX] bytes long. *)
Definition reader_ok (r : Reader) : Prop :=
  0 ≤ rd_offset r ≤ len (rd_bytes r) ∧ len (rd_bytes r) ≤ USIZE_MAX.
Definition rest (r : Reader) : bytes := drop (Z.to_nat (rd_offset r)) (rd_bytes r).
Definition advance (r : Reader) (bs : bytes) : Reader :=
  mkReader (rd_bytes r) (rd_offset r + len bs).

Lemma rest_len r : reader_ok r → len (rest r) = len (rd_bytes r) - rd_offset r.
Proof. unfold reader_ok, rest, len. rewrite length_drop. lia. Qed.

Lemma advance_ok r bs tl :
  reader_ok r → rest r = bs ++ tl → reader_ok (advance r bs) ∧ rest (advance r bs) = tl.
Proof.
  intros Hr Hrest. pose proof (rest_len r Hr) as Hl. rewrite Hrest, len_app in Hl.
  pose proof (len_nonneg tl). pose proof (len_nonneg bs).
  unfold reader_ok in *. cbn. split; [lia|].
  unfold rest in *. cbn. rewrite Z2Nat.inj_add by lia. rewrite <- drop_drop, Hrest.
  unfold len. rewrite Nat2Z.id. by rewrite drop_app_length.
Qed.

Lemma advance_nil r : advance r [] = r.
Proof. destruct r. unfold advance. rewrite len_nil, Z.add_0_r. done. Qed.

Lemma advance_app r a b : advance (advance r a) b = advance r (a ++ b).
Proof. unfold advance. cbn. f_equal. rewrite len_app. lia. Qed.

Record codec {A} (p : reader A) (wf : A → Prop) (enc : A → bytes) : Prop := {
  codec_complete : ∀ a r tl,
    wf a → reader_ok r → rest r = enc a ++ tl → p r = Ok (a, advance r (enc a));
  codec_sound : ∀ a r r',
    reader_ok r → p r = Ok (a, r') →
    wf a ∧ r' = advance r (enc a) ∧ ∃ tl, rest r = enc a ++ tl;
}.

Lemma codec_ext {A} (p : reader A) (wf wf' : A → Prop) (enc enc' : A → bytes) :
  codec p wf enc → (∀ a, wf a ↔ wf' a) → (∀ a, wf a → enc a = enc' a) → codec p wf' enc'.
Proof.
  intros [Hc Hs] Hwf Henc. split.
  - intros a r tl Ha Hr Hrest. apply Hwf in Ha. rewrite <- Henc in * by done. eauto.
  - intros a r r' Hr Hp. destruct (Hs a r r' Hr Hp) as (Ha & -> & tl & Hrest).
    rewrite <- Henc by done. split; [by apply Hwf|]. eauto.
Qed.

Lemma codec_ret {A} (a : A) : codec (mret a) (λ b, b = a) (λ _, []).
Proof.
  split.
  - intros b r tl -> Hr Hrest. by rewrite advance_nil.
  - intros b r r' Hr Hp. unfold mret, reader_ret in Hp. simplify_eq.
    rewrite advance_nil. eauto.
Qed.

Lemma codec_fail {A} (e : StoreDataError) (enc : A → bytes) : codec (fail e) (λ _, False) enc.
Proof. split; [done|]. intros a r r' _ Hp. done. Qed.

(** Sequencing: [π] recovers the first component from the whole. *)
Lemma codec_bind {A B} (π : B → A) (p : reader A) (k : A → reader B)
    (wf1 : A → Prop) (enc1 : A → bytes) (wf2 : A → B → Prop) (enc2 : A → B → bytes) :
  codec p wf1 enc1 →
  (∀ a, wf1 a → codec (k a) (wf2 a) (enc2 a)) →
  (∀ a b, wf1 a → wf2 a b → π b = a) →
  codec (p ≫= k) (λ b, wf1 (π b) ∧ wf2 (π b) b) (λ b, enc1 (π b) ++ enc2 (π b) b).
Proof.
  intros [Hc Hs] Hk Hπ. split.
  - intros b r tl [H1 H2] Hr Hrest. rewrite <- app_assoc in Hrest.
    unfold mbind, reader_bind. rewrite (Hc _ _ _ H1 Hr Hrest).
    destruct (advance_ok _ _ _ Hr Hrest) as [Hr' Hrest'].
    rewrite (codec_complete _ _ _ (Hk _ H1) _ _ _ H2 Hr' Hrest'). by rewrite advance_app.
  - intros b r r' Hr Hp. unfold mbind, reader_bind in Hp.
    destruct (p r) as [[a r1]|] eqn:Hpr; [|done].
    destruct (Hs _ _ _ Hr Hpr) as (Ha & -> & tl & Hrest).
    destruct (advance_ok _ _ _ Hr Hrest) as [Hr' Hrest'].
    destruct (codec_sound _ _ _ (Hk _ Ha) _ _ _ Hr' Hp) as (Hb & -> & tl' & Htl).
    rewrite (Hπ _ _ Ha Hb). rewrite advance_app. split; [done|]. split; [done|].
    exists tl'. by rewrite Hrest, <- Hrest', Htl, app_assoc.
Qed.

(** A checked conversion of the value read: [f] accepts [a] exactly when it is
    the image [g b] of an admissible [b]. *)
Lemma codec_check {A B} (g : B → A) (p : reader A) (f : A → result StoreDataError B)
    (wf : A → Prop) (enc : A → bytes) (wf' : B → Prop) :
  codec p wf enc →
  (∀ a b, wf a → f a = Ok b ↔ a = g b ∧ wf' b) →
  codec (a ← p; lift (f a)) (λ b, wf (g b) ∧ wf' b) (λ b, enc (g b)).
Proof.
  intros [Hc Hs] Hf. split.
  - intros b r tl [H1 H2] Hr Hrest. unfold mbind, reader_bind.
    rewrite (Hc _ _ _ H1 Hr Hrest). unfold lift. by rewrite (proj2 (Hf _ _ H1) (conj eq_refl H2)).
  - intros b r r' Hr Hp. unfold mbind, reader_bind in Hp.
    destruct (p r) as [[a r1]|] eqn:Hpr; [|done].
    destruct (Hs _ _ _ Hr Hpr) as (Ha & -> & tl & Hrest).
    unfold lift in Hp. destruct (f a) as [b'|] eqn:Hfa; [|done]. simplify_eq.
    apply Hf in Hfa as [-> Hb]; [|done]. eauto.
Qed.

(** ** The primitives *)

Lemma Reader_take_complete n bs r tl :
  len bs = n → reader_ok r → rest r = bs ++ tl → Reader_take n r = Ok (bs, advance r bs).
Proof.
  intros <- Hr Hrest. pose proof (rest_len r Hr) as Hl. rewrite Hrest, len_app in Hl.
  pose proof (len_nonneg tl). pose proof (len_nonneg bs). unfold reader_ok in Hr.
  unfold Reader_take, checked_add_usize. rewrite checked_ok by lia.
  rewrite (proj2 (Z.ltb_ge _ _)) by lia. unfold advance. do 2 f_equal.
  unfold slice. replace (rd_offset r + len bs - rd_offset r) with (len bs) by lia.
  fold (rest r). rewrite Hrest. unfold len. rewrite Nat2Z.id. apply take_app_length.
Qed.

Lemma Reader_take_sound n bs r r' :
  0 ≤ n → reader_ok r → Reader_take n r = Ok (bs, r') →
  len bs = n ∧ r' = advance r bs ∧ ∃ tl, rest r = bs ++ tl.
Proof.
  intros Hn Hr. unfold Reader_take, checked_add_usize.
  destruct (checked _ _ _) as [e|] eqn:He; [|done]. apply checked_Some in He as [-> He].
  destruct (Z.ltb_spec (len (rd_bytes r)) (rd_offset r + n)); [done|].
  intros Hp. injection Hp as <- <-. unfold reader_ok in Hr.
  rewrite len_slice by lia. split; [lia|]. split.
  - unfold advance. rewrite len_slice by lia. f_equal. lia.
  - eexists. unfold rest, slice. by rewrite take_drop.
Qed.

Lemma codec_take n : 0 ≤ n → codec (Reader_take n) (λ bs, len bs = n) (λ bs, bs).
Proof.
  intros Hn. split.
  - intros. by eapply Reader_take_complete.
  - intros bs r r' Hr Hp. by apply Reader_take_sound.
Qed.

Lemma codec_fixed_array n : 0 ≤ n → codec (Reader_fixed_array n) (λ bs, len bs = n) (λ bs, bs).
Proof.
  intros Hn. eapply codec_ext.
  - eapply (codec_bind (λ bs, bs)); [by apply codec_take| |].
    + intros bs Hbs. cbn beta. rewrite (proj2 (Z.eqb_eq _ _) Hbs). apply codec_ret.
    + by intros a b _ ->.
  - intros bs. naive_solver.
  - intros bs _. apply app_nil_r.
Qed.

(** A total conversion with a partial inverse. *)
Lemma codec_map {A B} (g : B → A) (f : A → B) (p : reader A)
    (wf : A → Prop) (enc : A → bytes) (wf' : B → Prop) :
  codec p wf enc →
  (∀ a, wf a → g (f a) = a ∧ wf' (f a)) →
  (∀ b, wf' b → f (g b) = b ∧ wf (g b)) →
  codec (a ← p; mret (f a)) wf' (λ b, enc (g b)).
Proof.
  intros Hp Hf Hg. eapply codec_ext.
  - eapply (codec_bind g _ (λ a, mret (f a)) _ _ (λ a b, b = f a) (λ _ _, [])); [done| |].
    + intros a _. apply codec_ret.
    + intros a b Ha ->. by apply Hf.
  - intros b. cbn. split.
    + intros [H1 ->]. by apply Hf.
    + intros Hb. destruct (Hg _ Hb) as [-> ?]. done.
  - intros b _. apply app_nil_r.
Qed.

Lemma codec_unsigned n (p : reader bytes) lo hi :
  codec p (λ bs, len bs = Z.of_nat n) (λ bs, bs) →
  lo = 0 → hi = 256 ^ Z.of_nat n - 1 →
  codec (value ← p; mret (from_be_unsigned value)) (λ z, in_range lo hi z = true) (to_be_bytes n).
Proof.
  intros Hp -> ->. apply (codec_map (to_be_bytes n) from_be_unsigned _ _ _ _ Hp).
  - intros bs Hbs. unfold len in Hbs. assert (n = length bs) as -> by lia.
    rewrite to_from_be_bytes. split; [done|]. apply in_range_spec.
    pose proof (from_be_unsigned_range bs) as Hr. unfold len in Hr. lia.
  - intros z Hz%in_range_spec. rewrite from_be_unsigned_exact by lia. by rewrite len_to_be_bytes.
Qed.

Definition is_u8 : Z → bool := in_range 0 U8_MAX.

Lemma codec_u8 : codec Reader_u8 (λ z, is_u8 z = true) (to_be_bytes 1).
Proof. by apply codec_unsigned; [apply codec_take| |]. Qed.
Lemma codec_u16 : codec Reader_u16 (λ z, is_u16 z = true) u16_bytes.
Proof. by apply (codec_unsigned 2); [apply codec_fixed_array| |]. Qed.
Lemma codec_u32 : codec Reader_u32 (λ z, is_u32 z = true) u32_bytes.
Proof. by apply (codec_unsigned 4); [apply codec_fixed_array| |]. Qed.
Lemma codec_u64 : codec Reader_u64 (λ z, is_u64 z = true) u64_bytes.
Proof. by apply (codec_unsigned 8); [apply codec_fixed_array| |]. Qed.

Lemma codec_i64 : codec Reader_i64 (λ z, is_i64 z = true) i64_bytes.
Proof.
  apply (codec_map i64_bytes from_be_i64 _ _ _ _ (codec_fixed_array 8 ltac:(lia))).
  - intros bs Hbs. assert (length bs = 8%nat) by (unfold len in Hbs; lia).
    split; [by apply i64_bytes_exact|by apply from_be_i64_range].
  - intros z Hz. split; [by apply from_be_i64_exact|apply len_to_be_bytes].
Qed.

(** The layout of a length-prefixed byte string. *)
Definition framed (bs : bytes) : bytes := u32_bytes (len bs) ++ bs.

Lemma codec_bytes : codec Reader_bytes (λ bs, len bs ≤ U32_MAX) framed.
Proof.
  eapply codec_ext.
  - eapply (codec_bind len); [apply codec_u32| |].
    + intros n Hn. apply codec_take. ranges; lia.
    + by intros a b _ <-.
  - intros bs. cbn. pose proof (len_nonneg bs). split; [intros [Hb _]; ranges; lia|].
    intros. split; [ranges; lia|done].
  - done.
Qed.

Lemma Writer_bytes_Ok w value :
  len value ≤ U32_MAX → Writer_bytes w value = Ok (w ++ framed value).
Proof.
  intros Hl. unfold Writer_bytes. pose proof (len_nonneg value).
  rewrite checked_ok by lia. cbn. unfold Writer_fixed, Writer_u32, framed.
  by rewrite <- app_assoc.
Qed.

Lemma len_framed bs : len (framed bs) = 4 + len bs.
Proof. unfold framed. rewrite len_app. unfold u32_bytes. by rewrite len_to_be_bytes. Qed.

Lemma framed_app_inj a b tl tl' :
  len a ≤ U32_MAX → len b ≤ U32_MAX → framed a ++ tl = framed b ++ tl' → a = b ∧ tl = tl'.
Proof.
  intros Ha Hb He. unfold framed in He. rewrite <- !app_assoc in He.
  apply app_inj_1 in He as [Hl He]; [|unfold u32_bytes; by rewrite !length_to_be_bytes].
  apply (f_equal from_be_unsigned) in Hl. unfold u32_bytes in Hl.
  pose proof (len_nonneg a). pose proof (len_nonneg b).
  rewrite !from_be_unsigned_exact in Hl by (unfold U32_MAX in *; cbn; lia).
  apply app_inj_1 in He; [done|]. unfold len in Hl. lia.
Qed.

#[export] Hint Rewrite len_framed : bgjobs.
#[export] Hint Resolve codec_u8 codec_u16 codec_u32 codec_u64 codec_i64 codec_bytes : bgjobs.
