(* ===== verification/KeyCodec.v ===== *)
(** * Key codec

    [crates/bg-jobs/src/codec/key.rs]: the version-1 layout of store keys,
    [0x01 · len(ns) · ns · tag · (len(c) · c)*] with big-endian 32-bit lengths,
    its decoder, and the end of a prefix range.  The codec is a bijection
    between keys and (namespace, tag, components), and prefix ranges select
    exactly the keys that extend the components of the prefix. *)

From S2P Require Import Prelude Errors Ids JobRecord Wire.

Definition KEY_VERSION : Z := 1.
Definition NAMESPACE_LENGTH_BYTES : Z := 4.
Definition MAX_COMPONENTS : Z := 64.

Inductive KeyTag : Type :=
  | KT_Job | KT_PayloadChunk | KT_Due | KT_FairReady | KT_Lease | KT_DeadLetter
  | KT_Schedule | KT_Dedupe | KT_Wake | KT_Permit | KT_Operation | KT_Cancellation.

#[export] Instance KeyTag_eq_dec : EqDecision KeyTag.
Proof. solve_decision. Defined.

(** The ASCII letters of the [repr(u8)] discriminants. *)
Definition KeyTag_as_byte (t : KeyTag) : Z :=
  match t with
  | KT_Job => 74 | KT_PayloadChunk => 80 | KT_Due => 68 | KT_FairReady => 70
  | KT_Lease => 76 | KT_DeadLetter => 88 | KT_Schedule => 83 | KT_Dedupe => 85
  | KT_Wake => 87 | KT_Permit => 82 | KT_Operation => 79 | KT_Cancellation => 67
  end.

Definition KeyTag_try_from_byte (b : Z) : result StoreDataError KeyTag :=
  if b =? 74 then Ok KT_Job else if b =? 80 then Ok KT_PayloadChunk
  else if b =? 68 then Ok KT_Due else if b =? 70 then Ok KT_FairReady
  else if b =? 76 then Ok KT_Lease else if b =? 88 then Ok KT_DeadLetter
  else if b =? 83 then Ok KT_Schedule else if b =? 85 then Ok KT_Dedupe
  else if b =? 87 then Ok KT_Wake else if b =? 82 then Ok KT_Permit
  else if b =? 79 then Ok KT_Operation else if b =? 67 then Ok KT_Cancellation
  else Err (SDE_UnknownTag b).

(** [StoreKey::try_from(Vec<u8>)]. *)
Definition StoreKey_try_from (bs : bytes) : result ValidationError StoreKey :=
  if len bs =? 0 then Err (VE_Empty "store key") else Ok bs.

(** ** Encoding *)

(** The [try_fold] that sums the encoded length of the components. *)
Fixpoint component_bytes (total : Z) (components : list bytes) : result StoreDataError Z :=
  match components with
  | [] => Ok total
  | component :: components =>
      if U32_MAX <? len component then Err SDE_LengthOverflow
      else
        total ← ok_or SDE_LengthOverflow (checked_add_usize total 4);
        total ← ok_or SDE_LengthOverflow (checked_add_usize total (len component));
        component_bytes total components
  end.

(** [encoded.extend(len.to_be_bytes()); encoded.extend(component)] per
    component. *)
Definition push_components (encoded : bytes) (components : list bytes) : bytes :=
  fold_left (λ encoded component, encoded ++ u32_bytes (len component) ++ component)
    components encoded.

Definition KeyCodec_encode (namespace : Namespace) (tag : KeyTag) (components : list bytes)
    : result StoreDataError StoreKey :=
  if MAX_COMPONENTS <? len components then Err (SDE_Malformed "too many key components")
  else
    component_bytes ← component_bytes 0 components;
    namespace_length ← ok_or SDE_LengthOverflow (checked 0 U32_MAX (len namespace));
    _ ← ok_or SDE_LengthOverflow
          (total ← checked_add_usize NAMESPACE_LENGTH_BYTES 1;
           total ← checked_add_usize total (len namespace);
           total ← checked_add_usize total 1;
           checked_add_usize total component_bytes);
    let encoded := to_be_bytes 1 KEY_VERSION in
    let encoded := encoded ++ u32_bytes namespace_length in
    let encoded := encoded ++ namespace in
    let encoded := encoded ++ to_be_bytes 1 (KeyTag_as_byte tag) in
    let encoded := push_components encoded components in
    map_err (λ _, SDE_Malformed "empty key") (StoreKey_try_from encoded).

Definition KeyCodec_job (namespace : Namespace) (job_id : JobId) : result StoreDataError StoreKey :=
  KeyCodec_encode namespace KT_Job [job_id].

(** ** Decoding *)

(** [bytes[i]] for an index the caller has checked. *)
Definition byte_at (bs : bytes) (i : Z) : Z := Z_of_byte (nth (Z.to_nat i) bs Byte.x00).

Definition decode_header (namespace : Namespace) (bs : bytes)
    : result StoreDataError (KeyTag * Z) :=
  namespace_length_end ← ok_or SDE_LengthOverflow (checked_add_usize 1 NAMESPACE_LENGTH_BYTES);
  if len bs <? namespace_length_end then Err SDE_Truncated
  else if negb (byte_at bs 0 =? KEY_VERSION) then Err (SDE_UnknownVersion (byte_at bs 0))
  else
    let namespace_length := from_be_unsigned (slice bs 1 namespace_length_end) in
    if negb (namespace_length =? len namespace) then Err (SDE_Malformed "key prefix")
    else
      namespace_end ← ok_or SDE_LengthOverflow
                        (checked_add_usize namespace_length_end namespace_length);
      tag_end ← ok_or SDE_LengthOverflow (checked_add_usize namespace_end 1);
      if (len bs <? tag_end)
         || negb (bytes_eqb (slice bs namespace_length_end namespace_end) namespace)
      then Err (SDE_Malformed "key prefix")
      else
        tag ← KeyTag_try_from_byte (byte_at bs namespace_end);
        Ok (tag, tag_end).

(** The [while offset < bytes.len()] loop; [budget] is how many more
    components fit before [components.len() == MAX_COMPONENTS]. *)
Fixpoint decode_component_loop (budget : nat) (bs : bytes) (offset : Z) (components : list bytes)
    : result StoreDataError (list bytes) :=
  if offset <? len bs then
    match budget with
    | O => Err (SDE_Malformed "too many key components")
    | S budget =>
        end_ ← ok_or SDE_LengthOverflow (checked_add_usize offset 4);
        if len bs <? end_ then Err SDE_Truncated
        else
          let length := from_be_unsigned (slice bs offset end_) in
          component_end ← ok_or SDE_LengthOverflow (checked_add_usize end_ length);
          if len bs <? component_end then Err SDE_Truncated
          else
            decode_component_loop budget bs component_end
              (components ++ [slice bs end_ component_end])
    end
  else Ok components.

Definition decode_component_slices (bs : bytes) : result StoreDataError (list bytes) :=
  decode_component_loop (Z.to_nat MAX_COMPONENTS) bs 0 [].

Definition KeyCodec_decode_borrowed (namespace : Namespace) (key : StoreKey)
    : result StoreDataError (KeyTag * list bytes) :=
  '(tag, components_start) ← decode_header namespace key;
  components ← decode_component_slices (slice key components_start (len key));
  Ok (tag, components).

(** ** Prefix ranges *)

(** The [for index in (0..len).rev()] loop, on the reversed bytes. *)
Fixpoint prefix_end_rev (rev_bytes : bytes) : option StoreKey :=
  match rev_bytes with
  | [] => None
  | b :: before =>
      if Z_of_byte b =? U8_MAX then prefix_end_rev before
      else Some (rev before ++ [byte_of_Z (Z_of_byte b + 1)])
  end.

Definition KeyCodec_prefix_end (prefix : StoreKey) : option StoreKey :=
  prefix_end_rev (rev prefix).

(** ** The layout *)

Definition components_layout (components : list bytes) : bytes := concat (framed <$> components).
Definition key_layout (namespace : Namespace) (tag : KeyTag) (components : list bytes) : bytes :=
  to_be_bytes 1 KEY_VERSION ++ framed namespace ++ to_be_bytes 1 (KeyTag_as_byte tag)
  ++ components_layout components.

(** What the encoder accepts. *)
Record key_fits (namespace : Namespace) (tag : KeyTag) (components : list bytes) : Prop := {
  kf_count : len components ≤ MAX_COMPONENTS;
  kf_components : Forall (λ c, len c ≤ U32_MAX) components;
  kf_namespace : len namespace ≤ U32_MAX;
  kf_total : len (key_layout namespace tag components) ≤ USIZE_MAX;
}.

Lemma components_layout_cons c cs :
  components_layout (c :: cs) = framed c ++ components_layout cs.
Proof. done. Qed.

Lemma components_layout_app cs cs' :
  components_layout (cs ++ cs') = components_layout cs ++ components_layout cs'.
Proof. unfold components_layout. by rewrite fmap_app, concat_app. Qed.

Lemma push_components_layout encoded cs :
  push_components encoded cs = encoded ++ components_layout cs.
Proof.
  unfold push_components. revert encoded.
  induction cs as [|c cs IH]; intros encoded; cbn [fold_left].
  - by rewrite app_nil_r.
  - rewrite IH, components_layout_cons. unfold framed. by rewrite <- !app_assoc.
Qed.

Lemma component_bytes_spec t cs n :
  0 ≤ t ≤ USIZE_MAX →
  component_bytes t cs = Ok n ↔
  Forall (λ c, len c ≤ U32_MAX) cs ∧ n = t + len (components_layout cs) ∧ n ≤ USIZE_MAX.
Proof.
  revert t n. induction cs as [|c cs IH]; intros t n Ht; cbn [component_bytes].
  - split.
    + intros [= <-]. split; [constructor|]. cbn. unfold len. cbn. lia.
    + intros (_ & -> & _). f_equal. unfold len. cbn. lia.
  - rewrite components_layout_cons, len_app, len_framed, Forall_cons.
    pose proof (len_nonneg c). pose proof (len_nonneg (components_layout cs)).
    destruct (Z.ltb_spec U32_MAX (len c)); [split; [done|lia]|].
    unfold checked_add_usize. split.
    + intros Hb. invert_ok. apply checked_Some in Ha as [-> ?]. apply checked_Some in Ha0 as [-> ?].
      apply IH in Hb as (? & -> & ?); [|lia]. repeat split; try done; lia.
    + intros ([? ?] & -> & ?). rewrite checked_ok by lia. cbn [mbind result_bind ok_or].
      rewrite checked_ok by lia. cbn [mbind result_bind ok_or]. apply IH; [lia|].
      repeat split; try done; lia.
Qed.

Lemma len_key_layout ns tag cs :
  len (key_layout ns tag cs) = 6 + len ns + len (components_layout cs).
Proof. unfold key_layout. autorewrite with bgjobs. lia. Qed.

Lemma KeyCodec_encode_Ok ns tag cs k :
  KeyCodec_encode ns tag cs = Ok k ↔ k = key_layout ns tag cs ∧ key_fits ns tag cs.
Proof.
  unfold KeyCodec_encode. pose proof (len_nonneg ns). pose proof (len_nonneg (components_layout cs)).
  destruct (Z.ltb_spec MAX_COMPONENTS (len cs)).
  { split; [done|]. intros [_ []]. lia. }
  split.
  - intros Hk. invert_ok. apply component_bytes_spec in Ha as (? & -> & ?); [|unfold USIZE_MAX, U64_MAX; lia].
    apply checked_Some in Ha0 as [-> ?].
    destruct (checked_add_usize NAMESPACE_LENGTH_BYTES 1) as [t1|] eqn:Ht1; [|done]. cbn in Ha1.
    destruct (checked_add_usize t1 _) as [t2|] eqn:Ht2; [|done]. cbn in Ha1.
    destruct (checked_add_usize t2 _) as [t3|] eqn:Ht3; [|done]. cbn in Ha1.
    apply checked_Some in Ht1 as [-> ?]. apply checked_Some in Ht2 as [-> ?].
    apply checked_Some in Ht3 as [-> ?]. apply checked_Some in Ha1 as [-> ?].
    unfold StoreKey_try_from in Hk. case_match; [done|]. simplify_eq.
    rewrite push_components_layout. split; [unfold key_layout, framed; cbn; by rewrite <- ?app_assoc|].
    split; [done|done|lia|]. rewrite len_key_layout. unfold NAMESPACE_LENGTH_BYTES in *. lia.
  - intros [-> [? ? ? Ht]]. rewrite len_key_layout in Ht.
    rewrite (proj2 (component_bytes_spec 0 cs _ ltac:(unfold USIZE_MAX, U64_MAX; lia)))
      by (split; [done|]; split; [reflexivity|lia]).
    cbn [mbind result_bind]. rewrite checked_ok by lia. cbn [mbind result_bind ok_or].
    unfold checked_add_usize, NAMESPACE_LENGTH_BYTES.
    rewrite checked_ok by (unfold USIZE_MAX, U64_MAX; lia). cbn [mbind option_bind].
    rewrite checked_ok by lia. cbn [mbind option_bind].
    rewrite checked_ok by lia. cbn [mbind option_bind].
    rewrite checked_ok by lia. cbn [mbind result_bind ok_or].
    rewrite push_components_layout, <- !app_assoc. unfold StoreKey_try_from.
    match goal with |- context [len ?k =? 0] => change k with (key_layout ns tag cs) end.
    rewrite len_key_layout, (proj2 (Z.eqb_neq _ _)) by lia. done.
Qed.

(** One turn of the loop is a framed read at the offset. *)
Lemma decode_component_step budget bs offset acc :
  0 ≤ offset < len bs →
  decode_component_loop (S budget) bs offset acc =
  match Reader_bytes (mkReader bs offset) with
  | Ok (c, r) => decode_component_loop budget bs (rd_offset r) (acc ++ [c])
  | Err e => Err e
  end.
Proof.
  intros Hoff. cbn [decode_component_loop]. rewrite (proj2 (Z.ltb_lt _ _)) by lia.
  unfold Reader_bytes, Reader_u32, Reader_fixed_array, mbind, reader_bind, mret, reader_ret.
  unfold Reader_take. cbn [rd_offset rd_bytes].
  unfold checked_add_usize. destruct (checked 0 USIZE_MAX (offset + 4)) as [e|] eqn:He; [|reflexivity].
  apply checked_Some in He as [-> _]. cbn [ok_or result_bind].
  destruct (Z.ltb_spec (len bs) (offset + 4)); [done|].
  rewrite len_slice by lia. replace (offset + 4 - offset =? 4) with true by lia.
  cbn [rd_offset rd_bytes].
  destruct (checked _ _ _) as [e|] eqn:He; [|reflexivity]. cbn [ok_or result_bind].
  by destruct (Z.ltb_spec (len bs) e).
Qed.

Lemma components_layout_nil cs : components_layout cs = [] → cs = [].
Proof.
  destruct cs as [|c cs]; [done|]. intros Hd%(f_equal len).
  rewrite components_layout_cons, len_app, len_framed, len_nil in Hd.
  pose proof (len_nonneg c). pose proof (len_nonneg (components_layout cs)). lia.
Qed.

(** The components a loop with [budget] left returns after [acc], read from
    the bytes [rest]. *)
Definition decoded_components (budget : nat) (rest : bytes) (acc cs : list bytes) : Prop :=
  ∃ cs', cs = acc ++ cs' ∧ len cs' ≤ Z.of_nat budget ∧ Forall (λ c, len c ≤ U32_MAX) cs'
    ∧ rest = components_layout cs'.

Lemma decoded_components_nil budget acc cs : decoded_components budget [] acc cs ↔ cs = acc.
Proof.
  split.
  - intros (cs' & -> & _ & _ & ->%eq_sym%components_layout_nil). apply app_nil_r.
  - intros ->. exists []. rewrite app_nil_r, len_nil. split_and!; [done|lia|done|done].
Qed.

Lemma decoded_components_cons budget c tl acc cs :
  len c ≤ U32_MAX →
  decoded_components (S budget) (framed c ++ tl) acc cs ↔
  decoded_components budget tl (acc ++ [c]) cs.
Proof.
  intros Hc. split.
  - intros ([|c' cs'] & -> & Hlen & Hall & He).
    { apply (f_equal len) in He. rewrite len_app, len_framed in He.
      pose proof (len_nonneg c). pose proof (len_nonneg tl). cbn in He. rewrite len_nil in He. lia. }
    apply Forall_cons in Hall as [Hc' Hall]. rewrite components_layout_cons in He.
    apply framed_app_inj in He as [-> ->]; [|done..].
    exists cs'. rewrite <- app_assoc. rewrite len_cons in Hlen. split_and!; [done|lia|done|done].
  - intros (cs' & -> & Hlen & Hall & ->). exists (c :: cs').
    rewrite <- app_assoc, len_cons, components_layout_cons.
    split_and!; [done|lia|by constructor|done].
Qed.

Lemma decode_component_loop_spec budget bs offset acc cs :
  reader_ok (mkReader bs offset) →
  decode_component_loop budget bs offset acc = Ok cs ↔
  decoded_components budget (rest (mkReader bs offset)) acc cs.
Proof.
  revert offset acc. induction budget as [|budget IH]; intros offset acc Hr;
    pose proof Hr as Hb; unfold reader_ok in Hb; cbn [rd_bytes rd_offset] in Hb.
  all: destruct (decide (offset < len bs)) as [Hlt|Hge]; last first.
  1,3: unfold rest; cbn; rewrite (proj2 (Z.ltb_ge _ _)) by lia;
    rewrite (proj2 (drop_nil_len bs offset ltac:(lia)) ltac:(lia)), decoded_components_nil; naive_solver.
  - cbn. rewrite (proj2 (Z.ltb_lt _ _)) by lia. split; [done|].
    intros (cs' & _ & Hlen & _ & Hd). pose proof (len_nonneg cs').
    assert (cs' = []) as -> by (apply len_zero_nil; lia).
    unfold rest in Hd. cbn in Hd. apply drop_nil_len in Hd; lia.
  - rewrite decode_component_step by lia.
    destruct (Reader_bytes (mkReader bs offset)) as [[c r]|e] eqn:Hread.
    + destruct (codec_sound _ _ _ codec_bytes _ _ _ Hr Hread) as (Hc & -> & tl & Hrest).
      destruct (advance_ok _ _ _ Hr Hrest) as [Hr' Hrest'].
      rewrite Hrest, decoded_components_cons, <- Hrest' by done. by apply IH.
    + split; [done|]. intros ([|c cs'] & -> & Hlen & Hall & Hd).
      { unfold rest in Hd. cbn in Hd. apply drop_nil_len in Hd; lia. }
      apply Forall_cons in Hall as [Hc _]. rewrite components_layout_cons in Hd.
      by rewrite (codec_complete _ _ _ codec_bytes _ _ _ Hc Hr Hd) in Hread.
Qed.

(** ** The header *)

Definition key_header (namespace : Namespace) (tag : KeyTag) : bytes :=
  to_be_bytes 1 KEY_VERSION ++ framed namespace ++ to_be_bytes 1 (KeyTag_as_byte tag).

Lemma key_layout_header ns tag cs :
  key_layout ns tag cs = key_header ns tag ++ components_layout cs.
Proof. unfold key_layout, key_header. by rewrite <- !app_assoc. Qed.

Lemma len_key_header ns tag : len (key_header ns tag) = 6 + len ns.
Proof.
  unfold key_header. rewrite !len_app, len_framed, !len_to_be_bytes. lia.
Qed.

Lemma slice_byte_at bs i :
  0 ≤ i < len bs → slice bs i (i + 1) = to_be_bytes 1 (byte_at bs i).
Proof.
  intros Hi. unfold slice, byte_at, len in *. replace (Z.to_nat (i + 1 - i)) with 1%nat by lia.
  destruct (drop (Z.to_nat i) bs) as [|b tl] eqn:Hd.
  { apply (f_equal length) in Hd. rewrite length_drop in Hd. cbn in Hd. lia. }
  cbn. rewrite take_0. f_equal. rewrite <- (take_drop (Z.to_nat i) bs), Hd.
  rewrite app_nth2 by (rewrite length_take; lia).
  rewrite length_take, Nat.min_l, Nat.sub_diag by lia. unfold to_be_bytes. cbn.
  by rewrite byte_of_Z_of_byte.
Qed.

Lemma byte_at_range bs i : 0 ≤ byte_at bs i < 256.
Proof. apply Z_of_byte_range. Qed.

Lemma byte_at_slice bs i z :
  0 ≤ i < len bs → 0 ≤ z < 256 → slice bs i (i + 1) = to_be_bytes 1 z → byte_at bs i = z.
Proof.
  intros Hi Hz Hs. rewrite slice_byte_at in Hs by done.
  apply (f_equal from_be_unsigned) in Hs.
  pose proof (byte_at_range bs i). by rewrite !from_be_unsigned_exact in Hs by (cbn; lia).
Qed.

Lemma to_be_bytes_1_inj a b :
  0 ≤ a < 256 → 0 ≤ b < 256 → to_be_bytes 1 a = to_be_bytes 1 b → a = b.
Proof.
  intros Ha Hb He%(f_equal from_be_unsigned). by rewrite !from_be_unsigned_exact in He by (cbn; lia).
Qed.

Lemma KeyTag_as_byte_range tag : 0 ≤ KeyTag_as_byte tag < 256.
Proof. destruct tag; cbn; lia. Qed.

Lemma KeyTag_try_from_byte_Ok b tag : KeyTag_try_from_byte b = Ok tag ↔ b = KeyTag_as_byte tag.
Proof.
  split.
  - unfold KeyTag_try_from_byte. intros. repeat case_match; simplify_eq; cbn; lia.
  - intros ->. by destruct tag.
Qed.

(** The fields of a header cut out of the bytes. *)
Lemma header_fields bs ns tag :
  (∃ tl, bs = key_header ns tag ++ tl) ↔
  6 + len ns ≤ len bs ∧ slice bs 0 1 = to_be_bytes 1 KEY_VERSION ∧
  slice bs 1 5 = u32_bytes (len ns) ∧ slice bs 5 (5 + len ns) = ns ∧
  slice bs (5 + len ns) (6 + len ns) = to_be_bytes 1 (KeyTag_as_byte tag).
Proof.
  pose proof (len_nonneg ns). split.
  - intros (tl & Hbs). pose proof (len_nonneg tl).
    assert (len bs = 6 + len ns + len tl) by (rewrite Hbs, len_app, len_key_header; lia).
    change bs with (drop (Z.to_nat 0) bs) in Hbs at 1.
    unfold key_header, framed in Hbs. rewrite <- !app_assoc in Hbs.
    apply drop_slice in Hbs as [Hf0 Hbs]; [|lia]. rewrite len_to_be_bytes in *.
    apply drop_slice in Hbs as [Hf1 Hbs]; [|lia]. unfold u32_bytes in *. rewrite len_to_be_bytes in *.
    apply drop_slice in Hbs as [Hf2 Hbs]; [|lia].
    apply drop_slice in Hbs as [Hf3 _]; [|lia]. rewrite len_to_be_bytes in *.
    split_and!; [lia|done|done|done|].
    rewrite <- Hf3. f_equal; lia.
  - intros (Hl & Hf0 & Hf1 & Hf2 & Hf3). exists (drop (Z.to_nat (6 + len ns)) bs).
    unfold key_header, framed. rewrite <- !app_assoc, <- Hf0, <- Hf1, <- Hf3.
    rewrite <- Hf2 at 1. rewrite <- !slice_drop by lia. by rewrite drop_0.
Qed.

Lemma decode_header_spec ns bs tag n :
  len ns ≤ U32_MAX →
  decode_header ns bs = Ok (tag, n) ↔
  n = 6 + len ns ∧ ∃ tl, bs = key_header ns tag ++ tl.
Proof.
  intros Hns. pose proof (len_nonneg ns). rewrite header_fields. unfold decode_header.
  change (checked_add_usize 1 NAMESPACE_LENGTH_BYTES) with (Some 5). cbn [ok_or mbind result_bind].
  destruct (Z.ltb_spec (len bs) 5); [split; [done|lia]|].
  change (slice bs 0 1) with (slice bs 0 (0 + 1)). rewrite (slice_byte_at bs 0) by lia.
  pose proof (byte_at_range bs 0).
  destruct (Z.eqb_spec (byte_at bs 0) KEY_VERSION) as [->|Hv]; cbn [negb]; last first.
  { split; [done|]. intros (_ & _ & Hf0 & _). destruct Hv. apply (f_equal from_be_unsigned) in Hf0.
    by rewrite !from_be_unsigned_exact in Hf0 by (cbn; lia). }
  destruct (Z.eqb_spec (from_be_unsigned (slice bs 1 5)) (len ns)) as [Hn|Hn]; cbn [negb]; last first.
  { split; [done|]. intros (_ & _ & _ & Hf1 & _). destruct Hn. rewrite Hf1. unfold u32_bytes.
    apply from_be_unsigned_exact. unfold U32_MAX in *. cbn. lia. }
  assert (slice bs 1 5 = u32_bytes (len ns)) as Hf1.
  { rewrite <- Hn, <- (to_from_be_bytes (slice bs 1 5)) at 1. unfold u32_bytes. f_equal.
    pose proof (len_slice bs 1 5 ltac:(lia) ltac:(lia)) as Hl. unfold len in Hl. lia. }
  rewrite Hn. unfold checked_add_usize.
  rewrite checked_ok by (unfold U32_MAX, USIZE_MAX, U64_MAX in *; lia). cbn [ok_or mbind result_bind].
  rewrite checked_ok by (unfold U32_MAX, USIZE_MAX, U64_MAX in *; lia). cbn [ok_or mbind result_bind].
  replace (5 + len ns + 1) with (6 + len ns) by lia.
  destruct (Z.ltb_spec (len bs) (6 + len ns)); cbn [orb]; [split; [done|lia]|].
  unfold bytes_eqb. destruct (decide (slice bs 5 (5 + len ns) = ns)) as [Hf2|Hf2]; cycle 1.
  { rewrite bool_decide_false by done. split; [done|naive_solver]. }
  rewrite bool_decide_true by done. cbn [negb]. replace (6 + len ns) with (5 + len ns + 1) by lia.
  rewrite slice_byte_at by lia. split.
  - intros Hk. invert_ok. apply KeyTag_try_from_byte_Ok in Ha as ->. split_and!; done || lia.
  - intros (-> & _ & _ & _ & _ & Hf3). apply (f_equal from_be_unsigned) in Hf3.
    pose proof (byte_at_range bs (5 + len ns)). pose proof (KeyTag_as_byte_range tag).
    rewrite !from_be_unsigned_exact in Hf3 by (cbn; lia).
    by rewrite (proj2 (KeyTag_try_from_byte_Ok _ _) Hf3).
Qed.

(** ** The codec is a bijection *)

Lemma slice_after_header ns tag tl :
  slice (key_header ns tag ++ tl) (6 + len ns) (len (key_header ns tag ++ tl)) = tl.
Proof.
  rewrite <- (len_key_header ns tag), slice_to_end by apply len_nonneg.
  unfold len. by rewrite Nat2Z.id, drop_app_length.
Qed.

Lemma KeyCodec_decode_Ok ns key tag cs :
  len ns ≤ U32_MAX → len key ≤ USIZE_MAX →
  KeyCodec_decode_borrowed ns key = Ok (tag, cs) ↔
  key = key_layout ns tag cs ∧ key_fits ns tag cs.
Proof.
  intros Hns Hkey. pose proof (len_nonneg ns). unfold KeyCodec_decode_borrowed.
  assert (∀ tl, key = key_header ns tag ++ tl → reader_ok (mkReader tl 0)) as Hr.
  { intros tl ->. rewrite len_app in Hkey. pose proof (len_nonneg (key_header ns tag)).
    pose proof (len_nonneg tl). split; cbn; lia. }
  split.
  - intros Hd. invert_ok. destruct a as [tag' n]. invert_ok. simplify_eq.
    apply decode_header_spec in Ha as (-> & tl & ->); [|done].
    rewrite slice_after_header in Ha0.
    apply decode_component_loop_spec in Ha0 as (cs' & -> & Hc & Hall & Htl); [|by apply Hr].
    unfold rest in Htl. cbn in Htl. rewrite drop_0 in Htl. subst tl.
    rewrite <- key_layout_header in *. split; [done|]. by split.
  - intros [-> [Hc Hall _ _]]. rewrite key_layout_header in *.
    rewrite (proj2 (decode_header_spec ns _ tag _ Hns) (conj eq_refl (ex_intro _ _ eq_refl))).
    cbn [mbind result_bind]. rewrite slice_after_header. unfold decode_component_slices.
    rewrite (proj2 (decode_component_loop_spec _ _ _ _ cs (Hr _ eq_refl))); [done|].
    exists cs. split_and!; [done|done|done|]. unfold rest. cbn. by rewrite drop_0.
Qed.

Lemma KeyCodec_encode_len ns tag cs key :
  KeyCodec_encode ns tag cs = Ok key → key ≠ [] ∧ len key ≤ USIZE_MAX.
Proof.
  intros [-> Hf]%KeyCodec_encode_Ok. split; [|by apply Hf].
  intros Hn%(f_equal len). rewrite key_layout_header, len_app, len_key_header, len_nil in Hn.
  pose proof (len_nonneg ns). pose proof (len_nonneg (components_layout cs)). lia.
Qed.

Lemma components_layout_inj cs cs' :
  Forall (λ c, len c ≤ U32_MAX) cs → Forall (λ c, len c ≤ U32_MAX) cs' →
  components_layout cs = components_layout cs' → cs = cs'.
Proof.
  revert cs'. induction cs as [|c cs IH]; intros cs' Hc Hc' He.
  - symmetry. by apply components_layout_nil.
  - destruct cs' as [|c' cs']; [by apply components_layout_nil in He|].
    apply Forall_cons in Hc as [? ?]. apply Forall_cons in Hc' as [? ?].
    apply framed_app_inj in He as [-> He]; [|done..]. f_equal. by apply IH.
Qed.

Lemma key_layout_inj ns tag cs ns' tag' cs' :
  key_fits ns tag cs → key_fits ns' tag' cs' →
  key_layout ns tag cs = key_layout ns' tag' cs' → ns = ns' ∧ tag = tag' ∧ cs = cs'.
Proof.
  intros [_ Hc Hn _] [_ Hc' Hn' _] He. unfold key_layout in He.
  apply app_inj_1 in He as [_ He]; [|done]. apply framed_app_inj in He as [-> He]; [|done..].
  apply app_inj_1 in He as [Ht He]; [|by rewrite !length_to_be_bytes].
  apply components_layout_inj in He as ->; [|done..].
  split_and!; [done| |done]. by destruct tag, tag'.
Qed.

(** ** Prefix ranges *)

Lemma bytes_ltb_snoc_succ p b k :
  Z_of_byte b < 255 →
  bytes_ltb k (p ++ [byte_of_Z (Z_of_byte b + 1)]) = true →
  bytes_leb (p ++ [b]) k = true → (p ++ [b]) `prefix_of` k.
Proof.
  intros Hb. revert k. induction p as [|x p IH]; intros [|y k]; cbn [app]; try done.
  - unfold bytes_leb. rewrite negb_true_iff, bytes_ltb_cons. pose proof (Z_of_byte_range b).
    rewrite Z_of_byte_of_Z, Z.mod_small by lia.
    intros [Hlt|[_ Hk]] Hle; [|by destruct k].
    apply not_true_iff_false in Hle. rewrite bytes_ltb_cons in Hle.
    assert (Z_of_byte y = Z_of_byte b) as ->%(inj _); [lia|]. apply prefix_cons, prefix_nil.
  - unfold bytes_leb. rewrite negb_true_iff, bytes_ltb_cons. intros Hlt Hle.
    apply not_true_iff_false in Hle. rewrite bytes_ltb_cons in Hle.
    destruct Hlt as [?|[-> Hlt]]; [lia|]. apply prefix_cons, IH; [done|].
    unfold bytes_leb. rewrite negb_true_iff. apply not_true_iff_false. naive_solver.
Qed.

(** Every key not below a run of [0xff] bytes starts with it. *)
Lemma bytes_leb_full p k :
  Forall (λ b, Z_of_byte b = U8_MAX) p → bytes_leb p k = true → p `prefix_of` k.
Proof.
  revert k. induction p as [|x p IH]; intros k Hp; [intros; apply prefix_nil|].
  apply Forall_cons in Hp as [Hx Hp]. unfold bytes_leb. rewrite negb_true_iff. intros Hle.
  destruct k as [|y k]; [done|]. apply not_true_iff_false in Hle. rewrite bytes_ltb_cons in Hle.
  pose proof (Z_of_byte_range y). unfold U8_MAX in *.
  assert (Z_of_byte x = Z_of_byte y) as ->%(inj _) by lia.
  apply prefix_cons, IH; [done|]. unfold bytes_leb. rewrite negb_true_iff.
  apply not_true_iff_false. naive_solver.
Qed.

Lemma prefix_bytes_leb p k : p `prefix_of` k → bytes_leb p k = true.
Proof.
  intros [tl ->]. apply bytes_leb_spec. destruct tl as [|b tl]; [left; by rewrite app_nil_r|right].
  rewrite <- (app_nil_r p) at 1. by rewrite bytes_ltb_app_l.
Qed.

(** The end of the range is the prefix without its trailing [0xff] bytes, its
    last byte incremented. *)
Lemma prefix_end_shape p :
  match KeyCodec_prefix_end p with
  | Some e => ∃ q b full, p = q ++ [b] ++ full ∧ Z_of_byte b < 255 ∧
      Forall (λ b, Z_of_byte b = U8_MAX) full ∧ e = q ++ [byte_of_Z (Z_of_byte b + 1)]
  | None => Forall (λ b, Z_of_byte b = U8_MAX) p
  end.
Proof.
  unfold KeyCodec_prefix_end. induction p as [|x p IH] using rev_ind; [constructor|].
  rewrite rev_app_distr. cbn. pose proof (Z_of_byte_range x).
  destruct (Z.eqb_spec (Z_of_byte x) U8_MAX) as [Hx|Hx].
  - destruct (prefix_end_rev (rev p)) as [e|].
    + destruct IH as (q & b & full & -> & Hb & Hf & ->). exists q, b, (full ++ [x]).
      rewrite <- !app_assoc. split_and!; [done|done| |done]. by apply Forall_app_2; [|constructor].
    + by apply Forall_app_2; [|constructor].
  - rewrite rev_involutive. exists p, x, []. unfold U8_MAX in *.
    split_and!; [done|lia|constructor|done].
Qed.

Definition in_prefix_range (prefix : StoreKey) (k : bytes) : bool :=
  bytes_leb prefix k &&
  match KeyCodec_prefix_end prefix with Some e => bytes_ltb k e | None => true end.

Lemma in_prefix_range_spec p k : in_prefix_range p k = true ↔ p `prefix_of` k.
Proof.
  unfold in_prefix_range. pose proof (prefix_end_shape p) as Hs. rewrite andb_true_iff. split.
  - intros [Hle Hlt]. destruct (KeyCodec_prefix_end p) as [e|]; [|by apply bytes_leb_full].
    destruct Hs as (q & b & full & -> & Hb & Hf & ->).
    assert (bytes_leb (q ++ [b]) k = true) as Hqb.
    { apply bytes_leb_spec. apply bytes_leb_spec in Hle.
      pose proof (prefix_bytes_leb (q ++ [b]) (q ++ [b] ++ full)) as Hp.
      rewrite app_assoc in Hp. specialize (Hp (prefix_app_r _ _ _ ltac:(done))).
      apply bytes_leb_spec in Hp. rewrite <- app_assoc in Hp.
      destruct Hle as [<-|Hle]; [done|]. destruct Hp as [->|Hp]; [auto|].
      right. by eapply bytes_ltb_trans. }
    destruct (bytes_ltb_snoc_succ q b k Hb Hlt Hqb) as [tl ->].
    rewrite app_assoc. apply prefix_app. apply bytes_leb_full; [done|].
    unfold bytes_leb in *. rewrite app_assoc, bytes_ltb_app_l in Hle. done.
  - intros Hp. split; [by apply prefix_bytes_leb|].
    destruct (KeyCodec_prefix_end p) as [e|]; [|done].
    destruct Hs as (q & b & full & -> & Hb & Hf & ->). destruct Hp as [tl ->].
    rewrite <- !app_assoc, bytes_ltb_app_l. cbn [app]. apply bytes_ltb_cons. left.
    pose proof (Z_of_byte_range b). rewrite Z_of_byte_of_Z, Z.mod_small by lia. lia.
Qed.

(** Byte prefixes of key layouts are component prefixes. *)
Lemma components_layout_prefix pre cs :
  Forall (λ c, len c ≤ U32_MAX) pre → Forall (λ c, len c ≤ U32_MAX) cs →
  components_layout pre `prefix_of` components_layout cs ↔ pre `prefix_of` cs.
Proof.
  intros Hp Hc. split.
  - revert cs Hc. induction pre as [|c pre IH]; intros cs Hc [tl He]; [apply prefix_nil|].
    apply Forall_cons in Hp as [Hcl Hp]. rewrite components_layout_cons, <- app_assoc in He.
    destruct cs as [|c' cs].
    { apply (f_equal len) in He. rewrite !len_app, len_framed in He.
      pose proof (len_nonneg c). pose proof (len_nonneg (components_layout pre)).
      pose proof (len_nonneg tl). change (len (components_layout [])) with 0 in He. lia. }
    apply Forall_cons in Hc as [Hcl' Hc]. rewrite components_layout_cons in He.
    apply framed_app_inj in He as [-> He]; [|done..]. apply prefix_cons, IH; [done|done|].
    by exists tl.
  - intros [tl ->]. rewrite components_layout_app. by apply prefix_app_r.
Qed.

(** ** Properties *)

(** C33: the key codec is a bijection on its image: [KeyCodec::encode] returns
    [key] for a namespace, a tag and components exactly when
    [KeyCodec::decode_borrowed] returns that tag and those components for
    [key] under the namespace.  Decoding therefore accepts no byte string the
    encoder would not have produced. *)
Theorem key_codec_roundtrip ns tag cs key :
  len ns ≤ U32_MAX → len key ≤ USIZE_MAX →
  KeyCodec_encode ns tag cs = Ok key ↔ KeyCodec_decode_borrowed ns key = Ok (tag, cs).
Proof. intros. by rewrite KeyCodec_decode_Ok, KeyCodec_encode_Ok. Qed.

Lemma key_codec_roundtrip_witness :
  KeyCodec_decode_borrowed [Byte.x61] 
    [Byte.x01; Byte.x00; Byte.x00; Byte.x00; Byte.x01; Byte.x61; Byte.x4a;
     Byte.x00; Byte.x00; Byte.x00; Byte.x02; Byte.x07; Byte.x08]
  = Ok (KT_Job, [[Byte.x07; Byte.x08]]).
Proof. apply (key_codec_roundtrip [Byte.x61]); [vm_compute; congruence..|reflexivity]. Defined.

(** Keys are collision free: two calls of [KeyCodec::encode] that return
    the same key had the same namespace, tag and components, so records of
    different tenants, kinds or identities never share a key. *)
Theorem key_encode_injective ns tag cs ns' tag' cs' key :
  KeyCodec_encode ns tag cs = Ok key → KeyCodec_encode ns' tag' cs' = Ok key →
  ns = ns' ∧ tag = tag' ∧ cs = cs'.
Proof.
  intros [-> Hf]%KeyCodec_encode_Ok [He Hf']%KeyCodec_encode_Ok. by apply key_layout_inj.
Qed.

Lemma key_encode_injective_witness :
  [Byte.x61] = [Byte.x61] ∧ KT_Due = KT_Due ∧ [[Byte.x07]; []] = [[Byte.x07]; []].
Proof.
  by apply (key_encode_injective [Byte.x61] KT_Due [[Byte.x07]; []] _ _ _
    [Byte.x01; Byte.x00; Byte.x00; Byte.x00; Byte.x01; Byte.x61; Byte.x44;
     Byte.x00; Byte.x00; Byte.x00; Byte.x01; Byte.x07; Byte.x00; Byte.x00; Byte.x00; Byte.x00]).
Defined.

Lemma encoded_prefix ns tag pre cs prefix key :
  KeyCodec_encode ns tag pre = Ok prefix → KeyCodec_encode ns tag cs = Ok key →
  prefix `prefix_of` key ↔ pre `prefix_of` cs.
Proof.
  intros [-> Hp]%KeyCodec_encode_Ok [-> Hc]%KeyCodec_encode_Ok. rewrite !key_layout_header.
  rewrite <- components_layout_prefix by (apply Hp || apply Hc).
  split; [intros Hpre; by apply prefix_app_inv in Hpre|apply prefix_app].
Qed.

(** C34: a scan of the range from an encoded prefix key to its
    [KeyCodec::prefix_end] (unbounded when there is none) covers exactly the
    keys of the same namespace and tag whose components extend the prefix's
    components: no key is missed and no neighbour is included. *)
Theorem prefix_range_exact ns tag pre cs prefix key :
  KeyCodec_encode ns tag pre = Ok prefix → KeyCodec_encode ns tag cs = Ok key →
  in_prefix_range prefix key = true ↔ pre `prefix_of` cs.
Proof. rewrite in_prefix_range_spec. apply encoded_prefix. Qed.

Lemma prefix_range_exact_witness :
  in_prefix_range
    [Byte.x01; Byte.x00; Byte.x00; Byte.x00; Byte.x01; Byte.xff; Byte.x44;
     Byte.x00; Byte.x00; Byte.x00; Byte.x01; Byte.xff]
    [Byte.x01; Byte.x00; Byte.x00; Byte.x00; Byte.x01; Byte.xff; Byte.x44;
     Byte.x00; Byte.x00; Byte.x00; Byte.x01; Byte.xff; Byte.x00; Byte.x00; Byte.x00; Byte.x00] = true.
Proof.
  apply (prefix_range_exact [Byte.xff] KT_Due [[Byte.xff]] [[Byte.xff]; []]);
    [reflexivity..|by exists [[]]].
Defined.
