(* ===== verification/ValueCodec.v ===== *)
(** * Value envelopes

    [crates/bg-jobs/src/codec/value/envelope.rs]: every stored value is
    [0x01 · tag · len(body) · body].  The decoder is fail-closed; it accepts
    exactly the encoder's image. *)

From S2P Require Import Prelude Errors Clock Policy Wire KeyCodec.

Definition VALUE_VERSION : Z := 1.
Definition VALUE_HEADER_BYTES : Z := 6.
Definition MAX_VALUE_BODY_BYTES : Z := 1024 * 1024.

Definition encode_effect_mode (mode : EffectMode) : Z :=
  match mode with ReadOnly => 0 | Idempotent => 1 | AtLeastOnce => 2 | Fenced => 3 end.

Definition decode_effect_mode (value : Z) : result StoreDataError EffectMode :=
  if value =? 0 then Ok ReadOnly else if value =? 1 then Ok Idempotent
  else if value =? 2 then Ok AtLeastOnce else if value =? 3 then Ok Fenced
  else Err (SDE_Malformed "effect mode").

Inductive ValueTag : Type :=
  | VT_Job | VT_PayloadChunk | VT_Due | VT_FairReady | VT_Lease | VT_DeadLetter
  | VT_Schedule | VT_Dedupe | VT_Wake | VT_Permit | VT_Operation | VT_Cancellation.

#[export] Instance ValueTag_eq_dec : EqDecision ValueTag.
Proof. solve_decision. Defined.

Definition ValueTag_as_byte (t : ValueTag) : Z :=
  match t with
  | VT_Job => 74 | VT_PayloadChunk => 80 | VT_Due => 68 | VT_FairReady => 70
  | VT_Lease => 76 | VT_DeadLetter => 88 | VT_Schedule => 83 | VT_Dedupe => 85
  | VT_Wake => 87 | VT_Permit => 82 | VT_Operation => 79 | VT_Cancellation => 67
  end.

Definition ValueTag_try_from_byte (b : Z) : result StoreDataError ValueTag :=
  if b =? 74 then Ok VT_Job else if b =? 80 then Ok VT_PayloadChunk
  else if b =? 68 then Ok VT_Due else if b =? 70 then Ok VT_FairReady
  else if b =? 76 then Ok VT_Lease else if b =? 88 then Ok VT_DeadLetter
  else if b =? 83 then Ok VT_Schedule else if b =? 85 then Ok VT_Dedupe
  else if b =? 87 then Ok VT_Wake else if b =? 82 then Ok VT_Permit
  else if b =? 79 then Ok VT_Operation else if b =? 67 then Ok VT_Cancellation
  else Err (SDE_UnknownTag b).

Definition ValueCodec_encode (tag : ValueTag) (body : bytes) : result StoreDataError bytes :=
  if MAX_VALUE_BODY_BYTES <? len body
  then Err (SDE_InvalidLength "value body" (len body) MAX_VALUE_BODY_BYTES)
  else
    length ← ok_or SDE_LengthOverflow (checked 0 U32_MAX (len body));
    let encoded := to_be_bytes 1 VALUE_VERSION in
    let encoded := encoded ++ to_be_bytes 1 (ValueTag_as_byte tag) in
    let encoded := encoded ++ u32_bytes length in
    Ok (encoded ++ body).

(** [decode_envelope], which [decode_body] is and [decode] copies. *)
Definition ValueCodec_decode_body (encoded : bytes) : result StoreDataError (ValueTag * bytes) :=
  if len encoded =? 0 then Err SDE_Truncated
  else if negb (byte_at encoded 0 =? VALUE_VERSION)
  then Err (SDE_UnknownVersion (byte_at encoded 0))
  else if len encoded <? VALUE_HEADER_BYTES then Err SDE_Truncated
  else
    tag ← ValueTag_try_from_byte (byte_at encoded 1);
    let length := from_be_unsigned (slice encoded 2 VALUE_HEADER_BYTES) in
    if MAX_VALUE_BODY_BYTES <? length
    then Err (SDE_InvalidLength "value body" length MAX_VALUE_BODY_BYTES)
    else
      end_ ← ok_or SDE_LengthOverflow (checked_add_usize VALUE_HEADER_BYTES length);
      if len encoded <? end_ then Err SDE_Truncated
      else if negb (end_ =? len encoded) then Err SDE_TrailingBytes
      else Ok (tag, slice encoded VALUE_HEADER_BYTES end_).

Definition ValueCodec_decode_timestamp (encoded : bytes) (expected : ValueTag)
    : result StoreDataError Timestamp :=
  '(tag, body) ← ValueCodec_decode_body encoded;
  if negb (bool_decide (tag = expected)) || negb (len body =? 8)
  then Err (SDE_Malformed "timestamp index")
  else Ok (from_be_i64 body).

(** ** Layout *)

Definition value_layout (tag : ValueTag) (body : bytes) : bytes :=
  to_be_bytes 1 VALUE_VERSION ++ to_be_bytes 1 (ValueTag_as_byte tag) ++ framed body.

Lemma len_value_layout tag body : len (value_layout tag body) = 6 + len body.
Proof. unfold value_layout. rewrite !len_app, len_framed, !len_to_be_bytes. lia. Qed.

Lemma ValueCodec_encode_Ok tag body encoded :
  ValueCodec_encode tag body = Ok encoded ↔
  encoded = value_layout tag body ∧ len body ≤ MAX_VALUE_BODY_BYTES.
Proof.
  unfold ValueCodec_encode. pose proof (len_nonneg body).
  destruct (Z.ltb_spec MAX_VALUE_BODY_BYTES (len body)); [split; [done|lia]|].
  rewrite checked_ok by (unfold MAX_VALUE_BODY_BYTES, U32_MAX in *; lia).
  cbn [ok_or mbind result_bind]. rewrite <- !app_assoc.
  change (to_be_bytes 1 VALUE_VERSION ++ _) with (value_layout tag body). naive_solver.
Qed.

Lemma ValueTag_as_byte_range tag : 0 ≤ ValueTag_as_byte tag < 256.
Proof. destruct tag; cbn; lia. Qed.

Lemma ValueTag_try_from_byte_Ok b tag :
  ValueTag_try_from_byte b = Ok tag ↔ b = ValueTag_as_byte tag.
Proof.
  split.
  - unfold ValueTag_try_from_byte. intros. repeat case_match; simplify_eq; cbn; lia.
  - intros ->. by destruct tag.
Qed.

(** The fields of an envelope cut out of the bytes. *)
Lemma envelope_fields encoded tag body :
  encoded = value_layout tag body ↔
  len encoded = 6 + len body ∧ slice encoded 0 1 = to_be_bytes 1 VALUE_VERSION ∧
  slice encoded 1 2 = to_be_bytes 1 (ValueTag_as_byte tag) ∧
  slice encoded 2 6 = u32_bytes (len body) ∧ slice encoded 6 (len encoded) = body.
Proof.
  split.
  - intros He. assert (len encoded = 6 + len body) as Hl by (by rewrite He, len_value_layout).
    assert (drop (Z.to_nat 0) encoded = value_layout tag body ++ []) as Hd by by rewrite app_nil_r.
    unfold value_layout, framed in Hd. rewrite <- !app_assoc in Hd.
    apply drop_slice in Hd as [Hf0 Hd]; [|lia]. rewrite len_to_be_bytes in *.
    apply drop_slice in Hd as [Hf1 Hd]; [|lia]. rewrite len_to_be_bytes in *.
    apply drop_slice in Hd as [Hf2 Hd]; [|lia]. unfold u32_bytes in *. rewrite len_to_be_bytes in *.
    apply drop_slice in Hd as [Hf3 _]; [|lia].
    split_and!; [done..|]. rewrite Hl. done.
  - intros (Hl & Hf0 & Hf1 & Hf2 & Hf3). pose proof (len_nonneg body).
    unfold value_layout, framed. rewrite <- Hf0, <- Hf1, <- Hf2. rewrite <- Hf3 at 1.
    rewrite slice_to_end, <- !slice_drop by lia. by rewrite drop_0.
Qed.

Lemma ValueCodec_decode_body_Ok encoded tag body :
  ValueCodec_decode_body encoded = Ok (tag, body) ↔
  encoded = value_layout tag body ∧ len body ≤ MAX_VALUE_BODY_BYTES.
Proof.
  rewrite envelope_fields. unfold ValueCodec_decode_body. pose proof (len_nonneg body).
  destruct (Z.eqb_spec (len encoded) 0) as [|Hnz]; [split; [done|lia]|]. pose proof (len_nonneg encoded).
  change (slice encoded 0 1) with (slice encoded 0 (0 + 1)). rewrite slice_byte_at by lia.
  destruct (Z.eqb_spec (byte_at encoded 0) VALUE_VERSION) as [->|Hv]; cbn [negb]; last first.
  { split; [done|]. intros ((_ & Hb & _) & _). destruct Hv.
    apply to_be_bytes_1_inj in Hb; [done|apply byte_at_range|unfold VALUE_VERSION; lia]. }
  unfold VALUE_HEADER_BYTES. destruct (Z.ltb_spec (len encoded) 6); [split; [done|lia]|].
  change (slice encoded 1 2) with (slice encoded 1 (1 + 1)). rewrite slice_byte_at by lia.
  assert (slice encoded 2 6 = u32_bytes (from_be_unsigned (slice encoded 2 6))) as Hlen.
  { rewrite <- (to_from_be_bytes (slice encoded 2 6)) at 1. unfold u32_bytes. f_equal.
    pose proof (len_slice encoded 2 6 ltac:(lia) ltac:(lia)) as Hl. unfold len in Hl. lia. }
  set (n := from_be_unsigned (slice encoded 2 6)) in *. split.
  - intros Hd. invert_ok. apply ValueTag_try_from_byte_Ok in Ha as Ht. rewrite Ht.
    destruct (Z.ltb_spec MAX_VALUE_BODY_BYTES n); [done|]. invert_ok.
    apply checked_Some in Ha0 as [-> _]. destruct (Z.ltb_spec (len encoded) (6 + n)); [done|].
    destruct (Z.eqb_spec (6 + n) (len encoded)) as [He|]; [|done]. cbn in Hd. simplify_eq.
    pose proof (from_be_unsigned_range (slice encoded 2 6)) as Hn. fold n in Hn.
    assert (len (slice encoded 6 (6 + n)) = n) as Hs by (rewrite len_slice; lia).
    rewrite Hs, <- He, Hlen. split_and!; done || lia.
  - intros ((Hl & _ & Ht & Hf & Hb) & Hmax). apply to_be_bytes_1_inj in Ht;
      [|apply byte_at_range|apply ValueTag_as_byte_range].
    rewrite (proj2 (ValueTag_try_from_byte_Ok _ _) Ht). cbn [mbind result_bind].
    assert (n = len body) as ->.
    { unfold n. rewrite Hf. apply from_be_unsigned_exact.
      unfold MAX_VALUE_BODY_BYTES in *. cbn. lia. }
    rewrite (proj2 (Z.ltb_ge _ _)) by lia. unfold checked_add_usize.
    rewrite checked_ok by (unfold MAX_VALUE_BODY_BYTES, USIZE_MAX, U64_MAX in *; lia).
    cbn [ok_or mbind result_bind]. rewrite (proj2 (Z.ltb_ge _ _)) by lia.
    rewrite <- Hl, Z.eqb_refl, Hb. done.
Qed.

Lemma effect_mode_codec b mode :
  decode_effect_mode b = Ok mode ↔ b = encode_effect_mode mode.
Proof.
  split.
  - unfold decode_effect_mode. intros. repeat case_match; simplify_eq; cbn; lia.
  - intros ->. by destruct mode.
Qed.

(** ** Properties *)

(** The value envelope is a bijection on its image: [ValueCodec::encode]
    returns [encoded] for a tag and a body exactly when the decoder returns
    them for [encoded]; truncated, padded, oversized, unknown-version and
    unknown-tag values are all rejected. *)
Theorem value_envelope_roundtrip tag body encoded :
  ValueCodec_encode tag body = Ok encoded ↔ ValueCodec_decode_body encoded = Ok (tag, body).
Proof. by rewrite ValueCodec_decode_body_Ok, ValueCodec_encode_Ok. Qed.
