(* ===== verification/JobCodec.v ===== *)
(** * Job record codec

    [crates/bg-jobs/src/codec/value/job/encoder.rs] and [job/reader.rs]: the
    version-1 layout of [JobRecordV1], its decoder, the buffer-capacity
    estimate and the immutable-definition digest of
    [job_definition_digest].  Each [write_x] is shown to append a pure layout
    and each [read_x] to satisfy the [codec] contract for that layout, which
    gives the round trip in both directions. *)

From S2P Require Import Prelude Errors Ids Clock Policy JobRecord Wire KeyCodec ValueCodec.

(** ** Encoder *)

Definition priority_byte (p : Priority) : Z :=
  match p with Critical => 0 | Default => 1 | Bulk => 2 end.

(** [as u64]. *)
Definition as_u64 (z : Z) : Z := z mod (U64_MAX + 1).

Definition write_optional_bytes (w : Writer) (value : option bytes) : result StoreDataError Writer :=
  match value with
  | None => Ok (Writer_u8 w 0)
  | Some value => Writer_bytes (Writer_u8 w 1) value
  end.

Definition write_optional_text : Writer → option bytes → result StoreDataError Writer :=
  write_optional_bytes.

Definition write_optional_i64 (w : Writer) (value : option Timestamp) : Writer :=
  match value with
  | None => Writer_u8 w 0
  | Some timestamp => Writer_i64 (Writer_u8 w 1) timestamp
  end.

Definition write_optional_duration (w : Writer) (value : option Duration)
    : result StoreDataError Writer :=
  match value with
  | None => Ok (Writer_u8 w 0)
  | Some duration =>
      nanos ← ok_or SDE_LengthOverflow (checked 0 U64_MAX duration);
      Ok (Writer_u64 (Writer_u8 w 1) nanos)
  end.

Fixpoint write_keys (w : Writer) (keys : list StoreKey) : result StoreDataError Writer :=
  match keys with
  | [] => Ok w
  | key :: keys => w ← Writer_bytes w key; write_keys w keys
  end.

Definition write_payload (w : Writer) (payload : PayloadManifest) : result StoreDataError Writer :=
  let w := Writer_u32 w (pm_total_length payload) in
  let w := Writer_fixed w (pm_digest payload) in
  count ← ok_or SDE_LengthOverflow (checked 0 U16_MAX (len (pm_chunk_keys payload)));
  let w := Writer_u16 w count in
  write_keys w (pm_chunk_keys payload).

Definition write_fairness (w : Writer) (fairness : FairnessClass) : result StoreDataError Writer :=
  match fairness with
  | FC_LowVolume => Ok (Writer_u8 w 0)
  | FC_Scoped path =>
      let w := Writer_u8 w 1 in
      w ← Writer_bytes w (fp_primary path);
      write_optional_bytes w (fp_secondary path)
  end.

Definition write_retry (w : Writer) (policy : RetryPolicy) : Writer :=
  let w := Writer_u16 w (rp_maximum_attempts policy) in
  let w := Writer_u64 w (as_u64 (rp_maximum_age policy)) in
  let w := Writer_u64 w (as_u64 (rp_minimum_backoff policy)) in
  let w := Writer_u64 w (as_u64 (rp_maximum_backoff policy)) in
  let w := Writer_u32 w (rp_multiplier policy) in
  Writer_u8 w 1.

Definition write_policy (w : Writer) (policy : JobPolicySnapshot) : result StoreDataError Writer :=
  let w := Writer_u8 w (encode_effect_mode (ps_effect_mode policy)) in
  let w := Writer_u16 w (ps_cost_units policy) in
  w ← write_optional_duration w (ps_execution_timeout policy);
  Ok (write_retry w (ps_retry_policy policy)).

Definition write_attempts (w : Writer) (attempts : option AttemptHistory)
    : result StoreDataError Writer :=
  match attempts with
  | None => Ok (Writer_u8 w 0)
  | Some history =>
      let w := Writer_u8 w 1 in
      let w := Writer_u32 w (ah_attempts history) in
      let w := Writer_i64 w (ah_first_attempt_at history) in
      let w := Writer_i64 w (ah_last_attempt_at history) in
      write_optional_text w (ah_last_outcome history)
  end.

Definition write_state (w : Writer) (state : JobState) : Writer :=
  match state with
  | Scheduled => Writer_u8 w 0
  | Leased lease =>
      let w := Writer_u8 w 1 in
      let w := Writer_fixed w (ls_owner lease) in
      let w := Writer_fixed w (ls_token lease) in
      let w := Writer_u64 w (ls_fence lease) in
      Writer_i64 w (ls_expires_at lease)
  | DeadLettered => Writer_u8 w 2
  | Cancelled => Writer_u8 w 3
  | Suspended => Writer_u8 w 4
  end.

Definition write_dedupe (w : Writer) (dedupe : option Deduplication) : result StoreDataError Writer :=
  match dedupe with
  | None => Ok (Writer_u8 w 0)
  | Some value =>
      w ← Writer_bytes (Writer_u8 w 1) (dd_key value);
      Ok (Writer_i64 w (dd_retain_until value))
  end.

Definition write_record (w : Writer) (record : JobRecordV1) : result StoreDataError Writer :=
  let w := Writer_fixed w (jr_job_id record) in
  w ← Writer_bytes w (jr_namespace record);
  w ← Writer_text w (jr_queue record);
  w ← Writer_text w (jr_kind record);
  let w := Writer_u16 w (jr_schema_version record) in
  let w := Writer_u32 w (jr_generation record) in
  let w := Writer_fixed w (jr_execution_id record) in
  w ← write_payload w (jr_payload record);
  w ← write_fairness w (jr_fairness record);
  w ← write_optional_bytes w (jr_ordering_key record);
  let w := Writer_u8 w (priority_byte (jr_priority record)) in
  let w := Writer_i64 w (jr_created_at record) in
  let w := Writer_i64 w (jr_scheduled_at record) in
  let w := write_optional_i64 w (jr_expires_at record) in
  w ← write_policy w (jr_policy record);
  w ← write_attempts w (jr_attempts record);
  let w := write_state w (jr_state record) in
  w ← write_optional_bytes w (jr_checkpoint record);
  let w := Writer_i64 w (jr_retention_deadline record) in
  w ← write_dedupe w (jr_deduplication record);
  Ok (Writer_u64 w (jr_revision record)).

Definition encode_job_record (record : JobRecordV1) : result StoreDataError bytes :=
  _ ← map_err (λ _, SDE_Malformed "invalid job record") (JobRecordV1_validate record);
  w ← write_record [] record;
  ValueCodec_encode VT_Job w.

(** [JobDefinition]: the borrowed immutable part of a record. *)
Record JobDefinition : Type := mkJobDefinition {
  jd_job_id : JobId;
  jd_namespace : Namespace;
  jd_queue : QueueName;
  jd_kind : JobKind;
  jd_schema_version : Z;
  jd_payload_length : Z;
  jd_payload_digest : bytes;
  jd_fairness : FairnessClass;
  jd_ordering_key : option OrderingKey;
  jd_priority : Priority;
  jd_expires_at : option Timestamp;
  jd_policy : JobPolicySnapshot;
  jd_deduplication : option Deduplication;
}.

Definition JOB_DEFINITION_VERSION : Z := 1.

(** The bytes [job_definition_digest] hashes. *)
Definition write_definition (definition : JobDefinition) : result StoreDataError Writer :=
  let w := Writer_u8 [] JOB_DEFINITION_VERSION in
  let w := Writer_fixed w (jd_job_id definition) in
  w ← Writer_bytes w (jd_namespace definition);
  w ← Writer_text w (jd_queue definition);
  w ← Writer_text w (jd_kind definition);
  let w := Writer_u16 w (jd_schema_version definition) in
  let w := Writer_u32 w (jd_payload_length definition) in
  let w := Writer_fixed w (jd_payload_digest definition) in
  w ← write_fairness w (jd_fairness definition);
  w ← write_optional_bytes w (jd_ordering_key definition);
  let w := Writer_u8 w (priority_byte (jd_priority definition)) in
  let w := write_optional_i64 w (jd_expires_at definition) in
  w ← write_policy w (jd_policy definition);
  write_dedupe w (jd_deduplication definition).

Section digest.
(** [sha2::Sha256::digest]. *)
Variable sha256 : bytes → bytes.

Definition job_definition_digest (definition : JobDefinition) : result StoreDataError bytes :=
  w ← write_definition definition;
  Ok (sha256 w).
End digest.

(** [impl From<&JobRecordV1> for JobDefinition]. *)
Definition JobDefinition_from_record (record : JobRecordV1) : JobDefinition :=
  mkJobDefinition (jr_job_id record) (jr_namespace record) (jr_queue record) (jr_kind record)
    (jr_schema_version record) (pm_total_length (jr_payload record)) (pm_digest (jr_payload record))
    (jr_fairness record) (jr_ordering_key record) (jr_priority record) (jr_expires_at record)
    (jr_policy record) (jr_deduplication record).

(** ** Capacity estimates; [usize] sums, saturating where the source says so *)

Definition saturating_add (a b : Z) : Z := Z.min USIZE_MAX (a + b).

Definition record_identity_capacity (record : JobRecordV1) : Z :=
  let capacity := len (jr_job_id record) in
  let capacity := saturating_add capacity (4 + len (jr_namespace record)) in
  let capacity := saturating_add capacity (4 + len (jr_queue record)) in
  let capacity := saturating_add capacity (4 + len (jr_kind record)) in
  saturating_add capacity (2 + 4 + len (jr_execution_id record)).

Definition payload_capacity (payload : PayloadManifest) : Z :=
  fold_left (λ capacity key, saturating_add capacity (4 + len key)) (pm_chunk_keys payload)
    (saturating_add 4 (32 + 2)).

Definition fairness_capacity (fairness : FairnessClass) : Z :=
  match fairness with
  | FC_LowVolume => 1
  | FC_Scoped path =>
      1 + 4 + len (fp_primary path)
      + match fp_secondary path with Some secondary => 1 + 4 + len secondary | None => 1 end
  end.

Definition ordering_capacity (record : JobRecordV1) : Z :=
  match jr_ordering_key record with Some key => 1 + 4 + len key | None => 1 end.

Definition policy_capacity (record : JobRecordV1) : Z :=
  1 + 2 + match ps_execution_timeout (jr_policy record) with Some _ => 9 | None => 1 end + 31.

Definition attempts_capacity (record : JobRecordV1) : Z :=
  match jr_attempts record with
  | None => 1
  | Some history =>
      1 + 4 + 8 + 8
      + match ah_last_outcome history with Some outcome => 1 + 4 + len outcome | None => 1 end
  end.

Definition state_capacity (record : JobRecordV1) : Z :=
  match jr_state record with
  | Scheduled | DeadLettered | Cancelled | Suspended => 1
  | Leased lease => 1 + len (ls_owner lease) + len (ls_token lease) + 8 + 8
  end.

Definition checkpoint_capacity (record : JobRecordV1) : Z :=
  match jr_checkpoint record with Some checkpoint => 1 + 4 + len checkpoint | None => 1 end.

Definition dedupe_capacity (record : JobRecordV1) : Z :=
  match jr_deduplication record with None => 1 | Some dedupe => 1 + 4 + len (dd_key dedupe) + 8 end.

Definition record_body_capacity (record : JobRecordV1) : Z :=
  let capacity := record_identity_capacity record in
  let capacity := saturating_add capacity (payload_capacity (jr_payload record)) in
  let capacity := saturating_add capacity (fairness_capacity (jr_fairness record)) in
  let capacity := saturating_add capacity (ordering_capacity record) in
  let capacity := saturating_add capacity (1 + 8 + 8) in
  let capacity := saturating_add capacity
                    (match jr_expires_at record with Some _ => 9 | None => 1 end) in
  let capacity := saturating_add capacity (policy_capacity record) in
  let capacity := saturating_add capacity (attempts_capacity record) in
  let capacity := saturating_add capacity (state_capacity record) in
  let capacity := saturating_add capacity (checkpoint_capacity record) in
  let capacity := saturating_add capacity 8 in
  let capacity := saturating_add capacity (dedupe_capacity record) in
  saturating_add capacity 8.

(** ** Decoder *)

(** [0 => None, 1 => Some(..), _ => Malformed(message)], the shape of every
    optional field. *)
Definition read_option {A} (message : string) (p : reader A) : reader (option A) :=
  tag ← Reader_u8;
  if tag =? 0 then mret None
  else if tag =? 1 then value ← p; mret (Some value)
  else fail (SDE_Malformed message).

(** [Option::map(f).transpose()?]. *)
Definition transpose {A B} (f : A → result StoreDataError B) (o : option A)
    : result StoreDataError (option B) :=
  match o with
  | None => Ok None
  | Some a => b ← f a; Ok (Some b)
  end.

(** [?] on a constructor of [ids] or of [policy]. *)
Definition ident {A} (x : result IdentifierError A) : result StoreDataError A :=
  map_err StoreDataError_from_identifier x.
Definition validated {A} (x : result ValidationError A) : result StoreDataError A :=
  map_err StoreDataError_from_validation x.

Definition from_utf8 (bs : bytes) : result StoreDataError bytes :=
  if is_str bs then Ok bs else Err (SDE_Malformed "text").

Definition Reader_text : reader bytes := bs ← Reader_bytes; lift (from_utf8 bs).
Definition Reader_optional_bytes : reader (option bytes) := read_option "optional bytes" Reader_bytes.
Definition Reader_optional_text : reader (option bytes) :=
  value ← Reader_optional_bytes; lift (transpose from_utf8 value).

Definition nonzero (value : Z) (field : string) : result StoreDataError Z :=
  if value =? 0 then Err (SDE_Malformed field) else Ok value.

Definition priority_from_byte (b : Z) : result StoreDataError Priority :=
  if b =? 0 then Ok Critical else if b =? 1 then Ok Default else if b =? 2 then Ok Bulk
  else Err (SDE_Malformed "priority").

Definition read_optional_i64 : reader (option Timestamp) :=
  read_option "optional timestamp" Reader_i64.
Definition read_optional_duration : reader (option Duration) :=
  read_option "optional execution timeout" Reader_u64.

Definition read_dedupe : reader (option Deduplication) :=
  read_option "deduplication"
    (key ← (bs ← Reader_bytes; lift (ident (DeduplicationKey_try_new bs)));
     retain_until ← Reader_i64;
     lift (validated (Deduplication_try_new key retain_until))).

Definition read_state : reader JobState :=
  tag ← Reader_u8;
  if tag =? 0 then mret Scheduled
  else if tag =? 1 then
    lease ← (owner ← (bs ← Reader_fixed_array 16; lift (ident (fixed_try_from_slice "owner ID" bs)));
             token ← (bs ← Reader_fixed_array 16; lift (ident (fixed_try_from_slice "lease token" bs)));
             fence ← (value ← Reader_u64; lift (nonzero value "lease fence"));
             expires_at ← Reader_i64;
             lift (validated (Lease_try_new owner token fence expires_at)));
    mret (Leased lease)
  else if tag =? 2 then mret DeadLettered
  else if tag =? 3 then mret Cancelled
  else if tag =? 4 then mret Suspended
  else fail (SDE_Malformed "job state").

Definition read_attempts : reader (option AttemptHistory) :=
  read_option "attempt history"
    (attempts ← (value ← Reader_u32; lift (nonzero value "attempt count"));
     first_attempt_at ← Reader_i64;
     last_attempt_at ← Reader_i64;
     last_outcome ← (value ← Reader_optional_text;
                     lift (transpose (λ code, validated (OutcomeCode_try_new code)) value));
     let history := mkAttemptHistory attempts first_attempt_at last_attempt_at last_outcome in
     _ ← lift (map_err (λ _, SDE_Malformed "attempt chronology") (AttemptHistory_validate history));
     mret history).

Definition read_retry : reader RetryPolicy :=
  maximum_attempts ← (value ← Reader_u16; lift (nonzero value "retry attempts"));
  maximum_age ← Reader_u64;
  minimum_backoff ← Reader_u64;
  maximum_backoff ← Reader_u64;
  multiplier ← (value ← Reader_u32; lift (validated (BackoffMultiplier_try_from value)));
  jitter ← Reader_u8;
  if negb (jitter =? 1) then fail (SDE_Malformed "retry jitter")
  else
    lift (map_err (λ _, SDE_Malformed "retry policy")
      (RetryPolicy_try_from
         (mkRetryPolicy maximum_attempts maximum_age minimum_backoff maximum_backoff multiplier))).

Definition read_policy : reader JobPolicySnapshot :=
  effect_mode ← (value ← Reader_u8; lift (decode_effect_mode value));
  cost_units ← (value ← Reader_u16; lift (nonzero value "job cost units"));
  execution_timeout ← read_optional_duration;
  retry_policy ← read_retry;
  let policy := mkJobPolicySnapshot effect_mode cost_units execution_timeout retry_policy in
  _ ← lift (map_err (λ _, SDE_Malformed "job policy") (JobPolicySnapshot_validate policy));
  mret policy.

Definition read_fairness : reader FairnessClass :=
  tag ← Reader_u8;
  if tag =? 0 then mret FC_LowVolume
  else if tag =? 1 then
    path ← (primary ← (bs ← Reader_bytes; lift (ident (FairnessKey_try_new bs)));
            secondary ← (value ← Reader_optional_bytes;
                         lift (transpose (λ bs, ident (FairnessKey_try_new bs)) value));
            mret (mkFairnessPath primary secondary));
    mret (FC_Scoped path)
  else fail (SDE_Malformed "fairness class").

(** [for _ in 0..count { chunk_keys.push(..) }]. *)
Fixpoint read_keys (count : nat) (chunk_keys : list StoreKey) : reader (list StoreKey) :=
  match count with
  | O => mret chunk_keys
  | S count =>
      key ← (bs ← Reader_bytes; lift (validated (StoreKey_try_from bs)));
      read_keys count (chunk_keys ++ [key])
  end.

Definition read_payload : reader PayloadManifest :=
  total_length ← Reader_u32;
  digest ← Reader_fixed_array 32;
  count ← Reader_u16;
  if MAX_CHUNKS <? count then fail (SDE_InvalidLength "payload chunks" count MAX_CHUNKS)
  else
    chunk_keys ← read_keys (Z.to_nat count) [];
    lift (map_err (λ _, SDE_Malformed "payload manifest")
            (PayloadManifest_try_new total_length digest chunk_keys)).

Record RecordIdentity : Type := mkRecordIdentity {
  ri_job_id : JobId;
  ri_namespace : Namespace;
  ri_queue : QueueName;
  ri_kind : JobKind;
  ri_schema_version : Z;
  ri_generation : Z;
  ri_execution_id : ExecutionId;
}.

Definition read_record_identity : reader RecordIdentity :=
  job_id ← (bs ← Reader_fixed_array 16; lift (ident (fixed_try_from_slice "job ID" bs)));
  namespace ← (bs ← Reader_bytes; lift (ident (Namespace_try_new bs)));
  queue ← (value ← Reader_text; lift (ident (QueueName_try_new value)));
  kind ← (value ← Reader_text; lift (ident (JobKind_try_new value)));
  schema_version ← (value ← Reader_u16; lift (nonzero value "schema version"));
  generation ← Reader_u32;
  execution_id ← (bs ← Reader_fixed_array 16; lift (ident (fixed_try_from_slice "execution ID" bs)));
  mret (mkRecordIdentity job_id namespace queue kind schema_version generation execution_id).

Record RecordRouting : Type := mkRecordRouting {
  rr_payload : PayloadManifest;
  rr_fairness : FairnessClass;
  rr_ordering_key : option OrderingKey;
  rr_priority : Priority;
}.

Definition read_record_routing : reader RecordRouting :=
  payload ← read_payload;
  fairness ← read_fairness;
  ordering_key ← (value ← Reader_optional_bytes;
                  lift (transpose (λ bs, ident (OrderingKey_try_new bs)) value));
  priority ← (b ← Reader_u8; lift (priority_from_byte b));
  mret (mkRecordRouting payload fairness ordering_key priority).

Record RecordTiming : Type := mkRecordTiming {
  rt_created_at : Timestamp;
  rt_scheduled_at : Timestamp;
  rt_expires_at : option Timestamp;
}.

Definition read_record_timing : reader RecordTiming :=
  created_at ← Reader_i64;
  scheduled_at ← Reader_i64;
  expires_at ← read_optional_i64;
  mret (mkRecordTiming created_at scheduled_at expires_at).

Record RecordMutable : Type := mkRecordMutable {
  rm_attempts : option AttemptHistory;
  rm_state : JobState;
  rm_checkpoint : option bytes;
  rm_retention_deadline : Timestamp;
  rm_deduplication : option Deduplication;
  rm_revision : Z;
}.

Definition read_record_mutable : reader RecordMutable :=
  attempts ← read_attempts;
  state ← read_state;
  checkpoint ← Reader_optional_bytes;
  retention_deadline ← Reader_i64;
  deduplication ← read_dedupe;
  revision ← Reader_u64;
  mret (mkRecordMutable attempts state checkpoint retention_deadline deduplication revision).

Definition read_record : reader JobRecordV1 :=
  identity ← read_record_identity;
  routing ← read_record_routing;
  timing ← read_record_timing;
  policy ← read_policy;
  mutable ← read_record_mutable;
  mret (mkJobRecordV1
    (ri_job_id identity) (ri_namespace identity) (ri_queue identity) (ri_kind identity)
    (ri_schema_version identity) (ri_generation identity) (ri_execution_id identity)
    (rr_payload routing) (rr_fairness routing) (rr_ordering_key routing) (rr_priority routing)
    (rt_created_at timing) (rt_scheduled_at timing) (rt_expires_at timing)
    policy (rm_attempts mutable) (rm_state mutable) (rm_checkpoint mutable)
    (rm_retention_deadline mutable) (rm_deduplication mutable) (rm_revision mutable)).

Definition decode_job_record (encoded : bytes) : result StoreDataError JobRecordV1 :=
  '(tag, body) ← ValueCodec_decode_body encoded;
  if negb (bool_decide (tag = VT_Job)) then Err (SDE_Malformed "expected job value")
  else
    '(record, rd) ← read_record (Reader_new body);
    _ ← Reader_finish rd;
    _ ← map_err (λ _, SDE_Malformed "invalid job record") (JobRecordV1_validate record);
    Ok record.
