(* ===== verification/JobRoundtrip.v ===== *)
(** * Round trips of the job record codec

    The pure layouts of the values of [JobCodec], the [codec] contracts of its
    read functions, and the theorems that the encoder and the decoder of job
    records are inverse to each other, that the capacity estimate is exact and
    that the hashed definition bytes determine the definition. *)

From S2P Require Import Prelude Errors Ids Clock Policy JobRecord Wire KeyCodec ValueCodec JobCodec.

(** ** Layouts *)

Definition option_layout {A} (layout : A → bytes) (o : option A) : bytes :=
  match o with
  | None => to_be_bytes 1 0
  | Some a => to_be_bytes 1 1 ++ layout a
  end.

Definition payload_layout (m : PayloadManifest) : bytes :=
  u32_bytes (pm_total_length m) ++ pm_digest m ++ u16_bytes (len (pm_chunk_keys m))
  ++ components_layout (pm_chunk_keys m).

Definition fairness_layout (f : FairnessClass) : bytes :=
  match f with
  | FC_LowVolume => to_be_bytes 1 0
  | FC_Scoped path =>
      to_be_bytes 1 1 ++ framed (fp_primary path) ++ option_layout framed (fp_secondary path)
  end.

Definition retry_layout (p : RetryPolicy) : bytes :=
  u16_bytes (rp_maximum_attempts p) ++ u64_bytes (rp_maximum_age p)
  ++ u64_bytes (rp_minimum_backoff p) ++ u64_bytes (rp_maximum_backoff p)
  ++ u32_bytes (rp_multiplier p) ++ to_be_bytes 1 1.

Definition policy_layout (p : JobPolicySnapshot) : bytes :=
  to_be_bytes 1 (encode_effect_mode (ps_effect_mode p)) ++ u16_bytes (ps_cost_units p)
  ++ option_layout u64_bytes (ps_execution_timeout p) ++ retry_layout (ps_retry_policy p).

Definition history_layout (h : AttemptHistory) : bytes :=
  u32_bytes (ah_attempts h) ++ i64_bytes (ah_first_attempt_at h)
  ++ i64_bytes (ah_last_attempt_at h) ++ option_layout framed (ah_last_outcome h).

Definition lease_layout (l : Lease) : bytes :=
  ls_owner l ++ ls_token l ++ u64_bytes (ls_fence l) ++ i64_bytes (ls_expires_at l).

Definition state_layout (s : JobState) : bytes :=
  match s with
  | Scheduled => to_be_bytes 1 0
  | Leased l => to_be_bytes 1 1 ++ lease_layout l
  | DeadLettered => to_be_bytes 1 2
  | Cancelled => to_be_bytes 1 3
  | Suspended => to_be_bytes 1 4
  end.

Definition deduplication_layout (d : Deduplication) : bytes :=
  framed (dd_key d) ++ i64_bytes (dd_retain_until d).

Definition identity_layout (i : RecordIdentity) : bytes :=
  ri_job_id i ++ framed (ri_namespace i) ++ framed (ri_queue i) ++ framed (ri_kind i)
  ++ u16_bytes (ri_schema_version i) ++ u32_bytes (ri_generation i) ++ ri_execution_id i.

Definition routing_layout (r : RecordRouting) : bytes :=
  payload_layout (rr_payload r) ++ fairness_layout (rr_fairness r)
  ++ option_layout framed (rr_ordering_key r) ++ to_be_bytes 1 (priority_byte (rr_priority r)).

Definition timing_layout (t : RecordTiming) : bytes :=
  i64_bytes (rt_created_at t) ++ i64_bytes (rt_scheduled_at t)
  ++ option_layout i64_bytes (rt_expires_at t).

Definition mutable_layout (m : RecordMutable) : bytes :=
  option_layout history_layout (rm_attempts m) ++ state_layout (rm_state m)
  ++ option_layout framed (rm_checkpoint m) ++ i64_bytes (rm_retention_deadline m)
  ++ option_layout deduplication_layout (rm_deduplication m) ++ u64_bytes (rm_revision m).

Definition identity_of (r : JobRecordV1) : RecordIdentity :=
  mkRecordIdentity (jr_job_id r) (jr_namespace r) (jr_queue r) (jr_kind r)
    (jr_schema_version r) (jr_generation r) (jr_execution_id r).
Definition routing_of (r : JobRecordV1) : RecordRouting :=
  mkRecordRouting (jr_payload r) (jr_fairness r) (jr_ordering_key r) (jr_priority r).
Definition timing_of (r : JobRecordV1) : RecordTiming :=
  mkRecordTiming (jr_created_at r) (jr_scheduled_at r) (jr_expires_at r).
Definition mutable_of (r : JobRecordV1) : RecordMutable :=
  mkRecordMutable (jr_attempts r) (jr_state r) (jr_checkpoint r) (jr_retention_deadline r)
    (jr_deduplication r) (jr_revision r).

Definition record_layout (r : JobRecordV1) : bytes :=
  identity_layout (identity_of r) ++ routing_layout (routing_of r) ++ timing_layout (timing_of r)
  ++ policy_layout (jr_policy r) ++ mutable_layout (mutable_of r).

(** ** Well-formedness of the parts *)

Definition on_option {A} (P : A → Prop) (o : option A) : Prop :=
  match o with Some a => P a | None => True end.

Definition payload_wf (m : PayloadManifest) : Prop :=
  is_payload_manifest m = true ∧ PayloadManifest_validate m = Ok tt
  ∧ Forall (λ k, len k ≤ U32_MAX) (pm_chunk_keys m).

Definition history_wf (h : AttemptHistory) : Prop :=
  is_attempt_history h = true ∧ AttemptHistory_validate h = Ok tt.

Definition policy_wf (p : JobPolicySnapshot) : Prop :=
  is_policy_snapshot p = true ∧ JobPolicySnapshot_validate p = Ok tt.

Definition identity_wf (i : RecordIdentity) : Prop :=
  is_fixed_id (ri_job_id i) = true ∧ is_opaque MAX_NAMESPACE_BYTES (ri_namespace i) = true
  ∧ is_text MAX_NAME_BYTES (ri_queue i) = true ∧ is_text MAX_NAME_BYTES (ri_kind i) = true
  ∧ is_nonzero_u16 (ri_schema_version i) = true ∧ is_u32 (ri_generation i) = true
  ∧ is_fixed_id (ri_execution_id i) = true.

Definition routing_wf (r : RecordRouting) : Prop :=
  payload_wf (rr_payload r) ∧ is_fairness_class (rr_fairness r) = true
  ∧ is_option (is_opaque MAX_ORDERING_KEY_BYTES) (rr_ordering_key r) = true.

Definition timing_wf (t : RecordTiming) : Prop :=
  is_i64 (rt_created_at t) = true ∧ is_i64 (rt_scheduled_at t) = true
  ∧ is_option is_i64 (rt_expires_at t) = true.

Definition mutable_wf (m : RecordMutable) : Prop :=
  on_option history_wf (rm_attempts m) ∧ is_job_state (rm_state m) = true
  ∧ on_option (λ c, len c ≤ U32_MAX) (rm_checkpoint m) ∧ is_i64 (rm_retention_deadline m) = true
  ∧ is_option is_deduplication (rm_deduplication m) = true ∧ is_u64 (rm_revision m) = true.

Definition record_wf (r : JobRecordV1) : Prop :=
  identity_wf (identity_of r) ∧ routing_wf (routing_of r) ∧ timing_wf (timing_of r)
  ∧ policy_wf (jr_policy r) ∧ mutable_wf (mutable_of r).

(** ** Contracts of the field readers *)

Create HintDb codecs.
#[export] Hint Resolve codec_u8 codec_u16 codec_u32 codec_u64 codec_i64 codec_bytes : codecs.

Lemma codec_lift {A} (x : result StoreDataError A) : codec (lift x) (λ a, x = Ok a) (λ _, []).
Proof.
  split.
  - intros a r tl -> _ _. cbn. by rewrite advance_nil.
  - intros a r r' _ Hp. unfold lift in Hp. destruct x; [|done]. simplify_eq.
    rewrite advance_nil. eauto.
Qed.

(** A read followed by a checked identity conversion. *)
Lemma codec_guard {A} (p : reader A) (f : A → result StoreDataError A)
    (wf wf' : A → Prop) (enc : A → bytes) :
  codec p wf enc → (∀ a b, wf a → f a = Ok b ↔ b = a ∧ wf' a) → (∀ a, wf' a → wf a) →
  codec (a ← p; lift (f a)) wf' enc.
Proof.
  intros Hp Hf Hwf. eapply codec_ext.
  - eapply (codec_check (λ b, b) _ f _ _ wf' Hp). intros a b Ha. rewrite Hf by done. naive_solver.
  - naive_solver.
  - done.
Qed.

Lemma codec_fixed_id label :
  codec (bs ← Reader_fixed_array 16; lift (ident (fixed_try_from_slice label bs)))
    (λ bs, is_fixed_id bs = true) (λ bs, bs).
Proof.
  eapply codec_guard; [apply (codec_fixed_array 16); lia| |].
  - intros a b _. unfold ident. by rewrite map_err_Ok, fixed_try_from_slice_Ok.
  - intros a. apply is_fixed_id_len.
Qed.

Lemma codec_opaque MAX kind :
  MAX ≤ U32_MAX →
  codec (bs ← Reader_bytes; lift (ident (OpaqueBytes_try_new MAX kind bs)))
    (λ bs, is_opaque MAX bs = true) framed.
Proof.
  intros HM. eapply codec_guard; [apply codec_bytes| |].
  - intros a b _. unfold ident. by rewrite map_err_Ok, OpaqueBytes_try_new_Ok.
  - intros a Ha%is_opaque_len. cbn; lia.
Qed.

Lemma codec_text : codec Reader_text (λ bs, len bs ≤ U32_MAX ∧ is_str bs = true) framed.
Proof.
  eapply codec_guard; [apply codec_bytes| |naive_solver].
  intros a b Ha. unfold from_utf8. case_match; naive_solver.
Qed.

Lemma codec_name MAX kind :
  MAX ≤ U32_MAX →
  codec (value ← Reader_text; lift (ident (ValidatedText_try_new kind value MAX)))
    (λ bs, is_text MAX bs = true) framed.
Proof.
  intros HM. eapply codec_guard; [apply codec_text| |].
  - intros a b [_ Ha]. unfold ident. by rewrite map_err_Ok, ValidatedText_try_new_Ok.
  - intros a Ha. split; [apply is_text_len in Ha; lia|by eapply is_text_is_str].
Qed.

Lemma codec_nonzero hi field p enc :
  codec p (λ z, in_range 0 hi z = true) enc →
  codec (value ← p; lift (nonzero value field)) (λ z, in_range 1 hi z = true) enc.
Proof.
  intros Hp. eapply codec_guard; [apply Hp| |].
  - intros a b Ha. unfold nonzero. rewrite in_range_spec in *.
    destruct (Z.eqb_spec a 0); [split; [done|lia]|]. naive_solver lia.
  - intros a. rewrite !in_range_spec. lia.
Qed.

Lemma codec_wf {A} (p : reader A) (wf wf' : A → Prop) enc :
  codec p wf enc → (∀ a, wf a ↔ wf' a) → codec p wf' enc.
Proof. intros Hp Hwf. by eapply codec_ext. Qed.

(** A read wrapped by a constructor. *)
Lemma codec_inj {A B} (f : A → B) (p : reader A) wf enc (enc' : B → bytes) :
  codec p wf enc → (∀ a, enc' (f a) = enc a) →
  codec (a ← p; mret (f a)) (λ b, ∃ a, b = f a ∧ wf a) enc'.
Proof.
  intros [Hc Hs] He. split.
  - intros b r tl (a & -> & Ha) Hr Hrest. rewrite He in *. unfold mbind, reader_bind.
    by rewrite (Hc _ _ _ Ha Hr Hrest).
  - intros b r r' Hr Hp. unfold mbind, reader_bind in Hp.
    destruct (p r) as [[a r1]|] eqn:Hpr; [|done]. injection Hp as <- <-.
    destruct (Hs _ _ _ Hr Hpr) as (Ha & -> & tl & Hrest). rewrite He.
    split_and!; eauto.
Qed.

(** A one-byte discriminant followed by the fields of its variant. *)
Lemma codec_tagged {B} (tag_of : B → Z) (k : Z → reader B) (wf : B → Prop) enc :
  (∀ tag, codec (k tag) (λ b, tag_of b = tag ∧ wf b) enc) →
  (∀ b, is_u8 (tag_of b) = true) →
  codec (tag ← Reader_u8; k tag) wf (λ b, to_be_bytes 1 (tag_of b) ++ enc b).
Proof.
  intros Hk Ht. eapply codec_ext.
  - apply (codec_bind tag_of _ k _ _ (λ tag b, tag_of b = tag ∧ wf b) (λ _, enc) codec_u8);
      naive_solver.
  - naive_solver.
  - done.
Qed.

(** Decides the [if tag =? n] cascade of a tagged read. *)
Ltac tag_cases :=
  repeat match goal with
  | |- codec (if ?t =? ?n then _ else _) _ _ => destruct (Z.eqb_spec t n) as [->|?]
  end.
(** A variant without fields, and an unknown discriminant. *)
Ltac tag_unit := eapply codec_ext; [apply codec_ret|intros []; cbn; naive_solver|by intros ? ->].
Ltac tag_unknown := eapply codec_ext; [apply codec_fail|intros []; cbn; naive_solver lia|done].

Lemma codec_option {A} message (p : reader A) wf enc :
  codec p wf enc → codec (read_option message p) (on_option wf) (option_layout enc).
Proof.
  intros Hp. eapply (codec_ext _ (on_option wf)); [|done|].
  - apply (codec_tagged (λ o : option A, match o with None => 0 | Some _ => 1 end) _ _
      (λ o, match o with None => [] | Some a => enc a end)); [|by intros []].
    intros tag. cbn beta. tag_cases; [tag_unit| |tag_unknown].
    eapply codec_wf; [by apply (codec_inj Some _ _ _ _ Hp)|]. intros [a|]; cbn; naive_solver.
  - by intros [a|].
Qed.

Lemma codec_transpose {A} (p : reader (option A)) (f : A → result StoreDataError A) wf wf' enc :
  codec p (on_option wf) enc →
  (∀ a b, wf a → f a = Ok b ↔ b = a ∧ wf' a = true) → (∀ a, wf' a = true → wf a) →
  codec (value ← p; lift (transpose f value)) (λ o, is_option wf' o = true) enc.
Proof.
  intros Hp Hf Hwf. eapply codec_guard; [apply Hp| |].
  - intros [a|] b Ha; cbn in *; [|naive_solver]. specialize (Hf a).
    destruct (f a) as [b'|e]; cbn; destruct (wf' a) eqn:?; naive_solver.
  - intros [a|]; cbn; [apply Hwf|done].
Qed.

Lemma codec_optional_bytes :
  codec Reader_optional_bytes (on_option (λ bs, len bs ≤ U32_MAX)) (option_layout framed).
Proof. apply codec_option, codec_bytes. Qed.

Lemma codec_optional_opaque MAX kind :
  MAX ≤ U32_MAX →
  codec (value ← Reader_optional_bytes;
         lift (transpose (λ bs, ident (OpaqueBytes_try_new MAX kind bs)) value))
    (λ o, is_option (is_opaque MAX) o = true) (option_layout framed).
Proof.
  intros HM. eapply codec_transpose; [apply codec_optional_bytes| |].
  - intros a b _. unfold ident. by rewrite map_err_Ok, OpaqueBytes_try_new_Ok.
  - intros a Ha%is_opaque_len. cbn. lia.
Qed.

Lemma codec_optional_text :
  codec Reader_optional_text (on_option (λ bs, len bs ≤ U32_MAX ∧ is_str bs = true))
    (option_layout framed).
Proof.
  eapply codec_ext.
  - eapply (codec_transpose _ _ _ (λ bs, (len bs <=? U32_MAX) && is_str bs));
      [apply codec_optional_bytes| |].
    + intros a b Ha. unfold from_utf8. rewrite andb_true_iff, Z.leb_le. case_match; naive_solver.
    + intros a. rewrite andb_true_iff, Z.leb_le. naive_solver.
  - intros [a|]; cbn; [|done]. by rewrite andb_true_iff, Z.leb_le.
  - done.
Qed.

(** ** Contracts of the composite readers *)

(** Reads the field [π] next; that the rest of the read keeps it is left to
    the end of the proof. *)
Ltac field π :=
  eapply (codec_bind π); [solve [eauto with codecs]|intros ? ?; cbn beta|shelve].
(** The well-formedness of a read record is that of its fields. *)
Ltac fields_wf :=
  cbn; rewrite ?andb_true_iff; split; intros; destruct_and?; split_and?;
    try assumption; try reflexivity; try congruence.
Ltac fields_layout := intros; cbn; rewrite ?app_nil_r; reflexivity.
(** A field of a record that was built from the values read. *)
Ltac field_kept :=
  intros ? ? _ ?; cbn in *; destruct_and?;
  match goal with H : ?b = _ |- _ => rewrite H; reflexivity end.

Lemma codec_optional_i64 : codec read_optional_i64 (on_option (λ t, is_i64 t = true)) (option_layout i64_bytes).
Proof. apply codec_option, codec_i64. Qed.
Lemma codec_optional_duration :
  codec read_optional_duration (on_option (λ d, is_u64 d = true)) (option_layout u64_bytes).
Proof. apply codec_option, codec_u64. Qed.

Lemma codec_effect_mode :
  codec (value ← Reader_u8; lift (decode_effect_mode value)) (λ _, True)
    (λ m, to_be_bytes 1 (encode_effect_mode m)).
Proof.
  eapply codec_wf.
  - eapply (codec_check encode_effect_mode _ _ _ _ (λ _, True)); [apply codec_u8|].
    intros a b _. rewrite effect_mode_codec. naive_solver.
  - intros []; naive_solver.
Qed.

Lemma codec_priority :
  codec (b ← Reader_u8; lift (priority_from_byte b)) (λ _, True)
    (λ p, to_be_bytes 1 (priority_byte p)).
Proof.
  eapply codec_wf.
  - eapply (codec_check priority_byte _ _ _ _ (λ _, True)); [apply codec_u8|].
    intros a b _. unfold priority_from_byte. split.
    + intros. repeat case_match; simplify_eq; cbn; split; lia || done.
    + intros [-> _]. by destruct b.
  - intros []; naive_solver.
Qed.

#[export] Hint Resolve codec_fixed_id codec_optional_bytes codec_optional_text
  codec_optional_i64 codec_optional_duration codec_effect_mode codec_priority : codecs.
#[export] Hint Extern 1 (codec (_ ← Reader_bytes; _) _ _) => apply codec_opaque; done : codecs.
#[export] Hint Extern 1 (codec (_ ← Reader_text; _) _ _) => apply codec_name; done : codecs.
#[export] Hint Extern 1 (codec (_ ← Reader_optional_bytes; _) _ _) =>
  apply codec_optional_opaque; done : codecs.
#[export] Hint Extern 1 (codec (_ ← Reader_u16; _) _ _) => apply codec_nonzero, codec_u16 : codecs.
#[export] Hint Extern 1 (codec (_ ← Reader_u32; _) _ _) => apply codec_nonzero, codec_u32 : codecs.
#[export] Hint Extern 1 (codec (_ ← Reader_u64; _) _ _) => apply codec_nonzero, codec_u64 : codecs.

Lemma codec_identity : codec read_record_identity identity_wf identity_layout.
Proof.
  eapply codec_ext.
  - unfold read_record_identity.
    field ri_job_id. field ri_namespace. field ri_queue. field ri_kind.
    field ri_schema_version. field ri_generation. field ri_execution_id. apply codec_ret.
  - unfold identity_wf. intros []. fields_wf.
  - fields_layout.
  Unshelve. all: field_kept.
Qed.

Lemma codec_timing : codec read_record_timing timing_wf timing_layout.
Proof.
  eapply codec_ext.
  - unfold read_record_timing.
    field rt_created_at. field rt_scheduled_at. field rt_expires_at. apply codec_ret.
  - unfold timing_wf. intros [? ? []]; fields_wf.
  - fields_layout.
  Unshelve. all: field_kept.
Qed.

(** [if c { return Err(e) }] in the middle of a read. *)
Lemma codec_unless {A} (c : bool) (e : StoreDataError) (p : reader A) wf enc :
  codec p wf enc → codec (if c then fail e else p) (λ a, c = false ∧ wf a) enc.
Proof.
  intros Hp. destruct c.
  - eapply codec_wf; [apply codec_fail|]. naive_solver.
  - eapply codec_wf; [apply Hp|]. naive_solver.
Qed.

Lemma RetryPolicy_try_from_id p a : RetryPolicy_try_from p = Ok a → a = p.
Proof. unfold RetryPolicy_try_from. intros. repeat case_match; by simplify_eq. Qed.

Lemma codec_retry : codec read_retry (λ p, is_retry_policy p = true) retry_layout.
Proof.
  eapply codec_ext.
  - unfold read_retry. field rp_maximum_attempts. field rp_maximum_age.
    field rp_minimum_backoff. field rp_maximum_backoff.
    eapply (codec_bind rp_multiplier); [|intros ? ?; cbn beta|shelve].
    { eapply (codec_guard _ _ _ (λ m, is_multiplier m = true)); [apply codec_u32| |].
      - intros m n Hm. unfold validated. by rewrite map_err_Ok, BackoffMultiplier_try_from_Ok.
      - intros m. unfold is_multiplier, BackoffMultiplier_MAX. intros. ranges. lia. }
    eapply (codec_bind (λ _, 1)); [apply codec_u8|intros ? ?; cbn beta|shelve].
    apply codec_unless, codec_lift.
  - intros p. cbn. rewrite map_err_Ok. split.
    + intros (Ha & ? & ? & ? & Hm & _ & _ & Hp). ranges.
      apply RetryPolicy_try_from_Ok in Hp as [-> Hp]; cbn; ranges; done || lia.
    + intros Hp. pose proof Hp as Hw. unfold is_retry_policy in Hw. split_andb.
      assert (RetryPolicy_try_from p = Ok p) as Ht.
      { apply RetryPolicy_try_from_Ok; ranges; done || lia. }
      destruct p. cbn in *. split_and!; ranges; done || lia.
  - fields_layout.
  Unshelve.
  all: intros ? ? _ Hk; cbn in Hk; destruct_and?; try (by symmetry; apply Z.eqb_eq, negb_false_iff).
  all: match goal with H : map_err _ _ = Ok _ |- _ => apply map_err_Ok, RetryPolicy_try_from_id in H end.
  all: match goal with H : ?b = _ |- _ = _ => rewrite H; reflexivity end.
Qed.
#[export] Hint Resolve codec_retry : codecs.

(** A validation of the value built so far. *)
Lemma codec_validated {A} (a : A) (x : result StoreDataError unit) :
  codec (_ ← lift x; mret a) (λ b, x = Ok tt ∧ b = a) (λ _, []).
Proof.
  eapply codec_ext.
  - eapply (codec_bind (λ _, tt)); [apply codec_lift|intros ? ?; apply codec_ret|by intros []].
  - naive_solver.
  - done.
Qed.

Lemma is_option_on_option {A} (P : A → bool) o : is_option P o = true ↔ on_option (λ a, P a = true) o.
Proof. by destruct o. Qed.

Lemma validate_execution_timeout_range field o :
  validate_execution_timeout field o = Ok tt → on_option (λ d, 0 ≤ d) o →
  on_option (λ d, is_u64 d = true) o.
Proof.
  destruct o as [d|]; [|done]. cbn. intros Hv Hd. repeat case_match; simplify_eq. ranges. lia.
Qed.

Lemma codec_policy : codec read_policy policy_wf policy_layout.
Proof.
  eapply codec_ext.
  - unfold read_policy. field ps_effect_mode. field ps_cost_units. field ps_execution_timeout.
    field ps_retry_policy. apply codec_validated.
  - intros [m c o p]. unfold policy_wf, is_policy_snapshot. cbn. rewrite map_err_Ok, !andb_true_iff.
    rewrite is_option_on_option. split.
    + intros (_ & ? & Ho & ? & ? & _). split_and!; [done| |done|done].
      destruct o; [|done]. unfold is_duration, DURATION_MAX, NANOS_PER_SEC. cbn in *. ranges. lia.
    + intros (((? & Ho) & ?) & Hv). split_and!; [done..| |done|done|done].
      unfold JobPolicySnapshot_validate in Hv. invert_ok. destruct a0. cbn in *.
      eapply validate_execution_timeout_range; [done|]. destruct o; [|done].
      cbn in *. unfold is_duration in Ho. ranges. lia.
  - fields_layout.
  Unshelve. all: field_kept.
Qed.

Lemma Deduplication_try_new_id key t d :
  Deduplication_try_new key t = Ok d → d = mkDeduplication key t.
Proof. unfold Deduplication_try_new. case_match; naive_solver. Qed.

Lemma codec_dedupe :
  codec read_dedupe (on_option (λ d, is_deduplication d = true)) (option_layout deduplication_layout).
Proof.
  apply codec_option. eapply codec_ext.
  - field dd_key. field dd_retain_until. apply codec_lift.
  - intros d. cbn. unfold validated. rewrite map_err_Ok. split.
    + intros (? & ? & Hd). apply Deduplication_try_new_Ok in Hd; [by destruct Hd|done..].
    + intros Hd. pose proof Hd as Hw. unfold is_deduplication in Hw. split_andb.
      assert (is_i64 (dd_retain_until d) = true) by (ranges; lia).
      split_and!; [done..|]. apply Deduplication_try_new_Ok; [done..|]. split; [by destruct d|done].
  - fields_layout.
  Unshelve.
  all: intros ? ? _ Hk; cbn in Hk; destruct_and?.
  all: match goal with H : validated _ = Ok ?d |- _ =>
    apply map_err_Ok, Deduplication_try_new_id in H; rewrite H; reflexivity end.
Qed.

Lemma Lease_try_new_Ok owner token fence t l :
  Lease_try_new owner token fence t = Ok l ↔ l = mkLease owner token fence t ∧ 0 ≤ t.
Proof. unfold Lease_try_new. destruct (Z.ltb_spec t 0); naive_solver lia. Qed.

Lemma codec_state : codec read_state (λ s, is_job_state s = true) state_layout.
Proof.
  eapply (codec_ext _ (λ s, is_job_state s = true)); [|done|].
  - apply (codec_tagged (λ s, match s with Scheduled => 0 | Leased _ => 1 | DeadLettered => 2
                                         | Cancelled => 3 | Suspended => 4 end) _ _
      (λ s, match s with Leased l => lease_layout l | _ => [] end)); [|by intros []].
    intros tag. cbn beta. tag_cases; [tag_unit| |tag_unit..|tag_unknown].
    eapply codec_wf; [eapply (codec_inj Leased _ (λ l, is_lease l = true) lease_layout)|]; [|done|].
    + eapply codec_ext.
      * field ls_owner. field ls_token. field ls_fence. field ls_expires_at. apply codec_lift.
      * intros l. cbn. unfold validated, is_lease. rewrite map_err_Ok, Lease_try_new_Ok.
        rewrite !andb_true_iff. split.
        { intros (? & ? & ? & ? & _ & ?). split_and!; [done..|]. ranges. lia. }
        { intros (((? & ?) & ?) & ?). split_and!; [done..| |by destruct l|]; ranges; lia. }
      * fields_layout.
    + intros []; cbn; naive_solver.
  - by intros [].
  Unshelve.
  all: intros ? ? _ Hk; cbn in Hk; destruct_and?.
  all: match goal with H : validated _ = Ok ?l |- _ =>
    apply map_err_Ok, Lease_try_new_Ok in H as [H _]; rewrite H; reflexivity end.
Qed.

Lemma codec_history_outcome :
  codec (value ← Reader_optional_text;
         lift (transpose (λ code, validated (OutcomeCode_try_new code)) value))
    (λ o, is_option is_outcome_code o = true) (option_layout framed).
Proof.
  eapply codec_transpose; [apply codec_optional_text| |].
  - intros a b _. unfold validated. by rewrite map_err_Ok, OutcomeCode_try_new_Ok.
  - intros a Ha. split; [|by apply is_outcome_code_is_str].
    unfold is_outcome_code in Ha. split_andb. apply is_opaque_len in H. unfold OutcomeCode_MAX_BYTES, U32_MAX in *. lia.
Qed.
#[export] Hint Resolve codec_policy codec_dedupe codec_state codec_history_outcome : codecs.

Lemma codec_attempts :
  codec read_attempts (on_option history_wf) (option_layout history_layout).
Proof.
  apply codec_option. eapply codec_ext.
  - field ah_attempts. field ah_first_attempt_at. field ah_last_attempt_at. field ah_last_outcome.
    apply codec_validated.
  - intros []. unfold history_wf, is_attempt_history. cbn. rewrite map_err_Ok. fields_wf.
  - fields_layout.
  Unshelve. all: field_kept.
Qed.

Lemma codec_fairness :
  codec read_fairness (λ f, is_fairness_class f = true) fairness_layout.
Proof.
  eapply (codec_ext _ (λ f, is_fairness_class f = true)); [|done|].
  - apply (codec_tagged (λ f, match f with FC_LowVolume => 0 | FC_Scoped _ => 1 end) _ _
      (λ f, match f with
            | FC_Scoped p => framed (fp_primary p) ++ option_layout framed (fp_secondary p)
            | FC_LowVolume => [] end)); [|by intros []].
    intros tag. cbn beta. tag_cases; [tag_unit| |tag_unknown].
    eapply codec_wf; [eapply (codec_inj FC_Scoped _ (λ p, is_fairness_path p = true))|]; [|done|].
    + eapply codec_ext.
      * field fp_primary. field fp_secondary. apply codec_ret.
      * intros []. unfold is_fairness_path. fields_wf.
      * fields_layout.
    + intros []; cbn; naive_solver.
  - by intros [].
  Unshelve. all: field_kept.
Qed.

Definition key_wf (k : StoreKey) : Prop := is_store_key k = true ∧ len k ≤ U32_MAX.

Lemma codec_key :
  codec (bs ← Reader_bytes; lift (validated (StoreKey_try_from bs))) key_wf framed.
Proof.
  eapply codec_guard; [apply codec_bytes| |by intros a []].
  intros a b Ha. unfold validated, key_wf, is_store_key. rewrite map_err_Ok. unfold StoreKey_try_from.
  pose proof (len_nonneg a). rewrite Z.ltb_lt. destruct (Z.eqb_spec (len a) 0); naive_solver lia.
Qed.

Lemma codec_keys n acc :
  codec (read_keys n acc) (λ l, ∃ ks, l = acc ++ ks ∧ length ks = n ∧ Forall key_wf ks)
    (λ l, components_layout (drop (length acc) l)).
Proof.
  revert acc. induction n as [|n IH]; intros acc; cbn [read_keys].
  - eapply codec_ext; [apply codec_ret| |].
    + intros l. split; [intros ->; exists []; rewrite app_nil_r; split_and!; done|].
      intros (ks & -> & ->%nil_length_inv & _). apply app_nil_r.
    + intros l ->. by rewrite drop_all.
  - eapply codec_ext.
    + eapply (codec_bind (λ l, nth (length acc) l [])); [apply codec_key|intros; apply IH|].
      intros k l _ (ks & -> & _). rewrite <- app_assoc. apply nth_middle.
    + intros l. cbn. split.
      * intros (Hk & ks & Hl & Hn & Hks). rewrite <- app_assoc in Hl.
        exists (nth (length acc) l [] :: ks). split_and!; [done|by cbn; rewrite Hn|by constructor].
      * intros ([|k ks] & -> & [= Hn] & Hks); [].
        apply Forall_cons in Hks as [Hk Hks]. rewrite nth_middle. split; [done|].
        exists ks. by rewrite <- app_assoc.
    + intros l (_ & ks & Hl & _). rewrite <- app_assoc in Hl.
      generalize dependent (nth (length acc) l []). intros k ->.
      rewrite length_app. cbn. rewrite !drop_app_length, <- drop_drop, drop_app_length. done.
Qed.

Lemma PayloadManifest_try_new_Ok l d ks m :
  PayloadManifest_try_new l d ks = Ok m ↔
  m = mkPayloadManifest l d ks ∧ PayloadManifest_validate m = Ok tt.
Proof.
  unfold PayloadManifest_try_new. split.
  - intros Hm. invert_ok. by destruct a.
  - intros [-> Hv]. by rewrite Hv.
Qed.

Lemma Forall_key_wf ks :
  Forall key_wf ks ↔ forallb is_store_key ks = true ∧ Forall (λ k, len k ≤ U32_MAX) ks.
Proof.
  unfold key_wf. rewrite Forall_and, forallb_forall, Forall_forall.
  setoid_rewrite list_elem_of_In. done.
Qed.

Lemma codec_payload : codec read_payload payload_wf payload_layout.
Proof.
  eapply codec_ext.
  - unfold read_payload. field pm_total_length.
    eapply (codec_bind pm_digest); [apply (codec_fixed_array 32); lia|intros ? ?; cbn beta|shelve].
    eapply (codec_bind (λ m, len (pm_chunk_keys m))); [apply codec_u16|intros ? ?; cbn beta|shelve].
    apply codec_unless.
    eapply (codec_bind pm_chunk_keys); [apply codec_keys|intros ? ?; cbn beta|shelve].
    apply codec_lift.
  - intros m. cbn. unfold payload_wf, is_payload_manifest, is_array, PAYLOAD_DIGEST_BYTES.
    rewrite map_err_Ok, PayloadManifest_try_new_Ok, !andb_true_iff, Z.eqb_eq. split.
    + intros (? & ? & ? & ? & (ks & Hks & _ & Hall) & Hm). rewrite Hks in *.
      apply Forall_key_wf in Hall as [? ?]. by destruct_and!; split_and!.
    + intros (((Hl & ?) & ?) & Hv & ?). pose proof Hv as Hm.
      apply PayloadManifest_validate_Ok in Hm as [_ Hc _ _]; [|ranges; lia].
      pose proof (len_nonneg (pm_chunk_keys m)). unfold MAX_CHUNKS in *.
      split_and!; [done|done|ranges; lia|by apply Z.ltb_ge| |by destruct m|done].
      exists (pm_chunk_keys m). split_and!; [done|unfold len; lia|by apply Forall_key_wf].
  - intros m _. cbn. unfold payload_layout. by rewrite drop_0, app_nil_r.
  Unshelve.
  all: intros ? ? Hw Hk; cbn in Hw, Hk; destruct_and?.
  all: match goal with H : map_err _ _ = Ok _ |- _ =>
    apply map_err_Ok, PayloadManifest_try_new_Ok in H as [H _]; rewrite H; try reflexivity end.
  match goal with H : ∃ _, _ |- _ => destruct H as (ks & Hks & Hn & _) end.
  cbn. rewrite Hks. unfold len. cbn. rewrite Hn. ranges. lia.
Qed.
#[export] Hint Resolve codec_identity codec_timing codec_payload codec_fairness codec_attempts : codecs.
#[export] Hint Extern 1 (codec (_ ← Reader_u8; lift (priority_from_byte _)) _ _) => apply codec_priority : codecs.

Lemma codec_routing : codec read_record_routing routing_wf routing_layout.
Proof.
  eapply codec_ext.
  - unfold read_record_routing. field rr_payload. field rr_fairness. field rr_ordering_key.
    field rr_priority. apply codec_ret.
  - unfold routing_wf. intros []. fields_wf.
  - fields_layout.
  Unshelve. all: field_kept.
Qed.

Lemma codec_mutable : codec read_record_mutable mutable_wf mutable_layout.
Proof.
  eapply codec_ext.
  - unfold read_record_mutable. field rm_attempts. field rm_state. field rm_checkpoint.
    field rm_retention_deadline. field rm_deduplication. field rm_revision. apply codec_ret.
  - unfold mutable_wf. intros []. rewrite is_option_on_option. fields_wf.
  - fields_layout.
  Unshelve. all: field_kept.
Qed.
#[export] Hint Resolve codec_routing codec_mutable : codecs.

Lemma codec_record : codec read_record record_wf record_layout.
Proof.
  eapply codec_ext.
  - unfold read_record. field identity_of. field routing_of. field timing_of. field jr_policy.
    field mutable_of. apply codec_ret.
  - unfold record_wf. intros []. fields_wf.
  - fields_layout.
  Unshelve.
  all: intros [] ? _ ?; cbn in *; destruct_and?.
  all: match goal with H : ?b = _ |- _ => rewrite H; reflexivity end.
Qed.

(** ** Writers append the layouts *)

Lemma write_optional_bytes_Ok w o :
  on_option (λ bs, len bs ≤ U32_MAX) o →
  write_optional_bytes w o = Ok (w ++ option_layout framed o).
Proof.
  destruct o as [bs|]; cbn; intros Ho; [|done].
  rewrite Writer_bytes_Ok by done. unfold Writer_u8. by rewrite <- app_assoc.
Qed.

Lemma write_optional_i64_layout w o :
  write_optional_i64 w o = w ++ option_layout i64_bytes o.
Proof. destruct o; cbn; [|done]. unfold Writer_i64, Writer_u8. by rewrite <- app_assoc. Qed.

Lemma write_keys_Ok w ks :
  Forall (λ k, len k ≤ U32_MAX) ks → write_keys w ks = Ok (w ++ components_layout ks).
Proof.
  intros Hks. revert w. induction Hks as [|k ks Hk _ IH]; intros w; cbn [write_keys].
  - by rewrite app_nil_r.
  - rewrite Writer_bytes_Ok by done. cbn [mbind result_bind].
    by rewrite IH, components_layout_cons, <- app_assoc.
Qed.

Lemma write_keys_fit w ks w' : write_keys w ks = Ok w' → Forall (λ k, len k ≤ U32_MAX) ks.
Proof.
  revert w. induction ks as [|k ks IH]; intros w Hw; [constructor|].
  cbn [write_keys] in Hw. unfold Writer_bytes in Hw. invert_ok.
  apply checked_Some in Ha0 as [_ ?]. constructor; [lia|by eapply IH].
Qed.

Lemma write_payload_Ok w m :
  len (pm_chunk_keys m) ≤ U16_MAX → Forall (λ k, len k ≤ U32_MAX) (pm_chunk_keys m) →
  write_payload w m = Ok (w ++ payload_layout m).
Proof.
  intros Hc Hks. unfold write_payload. pose proof (len_nonneg (pm_chunk_keys m)).
  rewrite checked_ok by lia. cbn [mbind result_bind ok_or]. rewrite write_keys_Ok by done.
  unfold Writer_u16, Writer_fixed, Writer_u32, payload_layout. by rewrite <- !app_assoc.
Qed.

Lemma is_opaque_framed MAX bs : MAX ≤ U32_MAX → is_opaque MAX bs = true → len bs ≤ U32_MAX.
Proof. intros ? ?%is_opaque_len. lia. Qed.
Lemma is_option_framed MAX o :
  MAX ≤ U32_MAX → is_option (is_opaque MAX) o = true → on_option (λ bs, len bs ≤ U32_MAX) o.
Proof. intros ?. destruct o; [|done]. cbn. by apply is_opaque_framed. Qed.
Lemma is_text_framed MAX bs : MAX ≤ U32_MAX → is_text MAX bs = true → len bs ≤ U32_MAX.
Proof. intros ? ?%is_text_len. lia. Qed.

Lemma write_fairness_Ok w f :
  is_fairness_class f = true → write_fairness w f = Ok (w ++ fairness_layout f).
Proof.
  destruct f as [[p s]|]; [|done]. cbn. unfold is_fairness_path. cbn. intros Hf. split_andb.
  rewrite Writer_bytes_Ok by (by eapply (is_opaque_framed MAX_FAIRNESS_KEY_BYTES)).
  cbn. rewrite write_optional_bytes_Ok by (by eapply (is_option_framed MAX_FAIRNESS_KEY_BYTES)).
  unfold Writer_u8. by rewrite <- !app_assoc.
Qed.

Lemma write_retry_layout w p : write_retry w p = w ++ retry_layout p.
Proof.
  unfold write_retry, retry_layout, Writer_u16, Writer_u64, Writer_u32, Writer_u8, u64_bytes, as_u64.
  change (U64_MAX + 1) with (256 ^ Z.of_nat 8). rewrite !to_be_bytes_mod. by rewrite <- !app_assoc.
Qed.

Lemma policy_timeout_wf p :
  policy_wf p → on_option (λ d, is_u64 d = true) (ps_execution_timeout p).
Proof.
  intros [Hpol Hv]. unfold JobPolicySnapshot_validate in Hv. invert_ok. destruct a0.
  eapply validate_execution_timeout_range; [done|]. unfold is_policy_snapshot in Hpol. split_andb.
  destruct (ps_execution_timeout p); [|done]. cbn in *. unfold is_duration in *. ranges. lia.
Qed.

Lemma write_policy_Ok w p :
  on_option (λ d, is_u64 d = true) (ps_execution_timeout p) →
  write_policy w p = Ok (w ++ policy_layout p).
Proof.
  intros Hd. unfold write_policy, policy_layout. destruct (ps_execution_timeout p) as [d|]; cbn in *.
  - rewrite checked_ok by (ranges; lia). cbn. rewrite write_retry_layout.
    unfold Writer_u8, Writer_u16, Writer_u64. by rewrite <- !app_assoc.
  - rewrite write_retry_layout. unfold Writer_u8, Writer_u16. by rewrite <- !app_assoc.
Qed.

Lemma write_attempts_Ok w o :
  is_option is_attempt_history o = true →
  write_attempts w o = Ok (w ++ option_layout history_layout o).
Proof.
  destruct o as [h|]; [|done]. cbn. unfold is_attempt_history. intros Hh. split_andb.
  unfold write_optional_text. rewrite write_optional_bytes_Ok.
  - unfold Writer_i64, Writer_u32, Writer_u8, history_layout. by rewrite <- !app_assoc.
  - destruct (ah_last_outcome h); [|done]. cbn in *. unfold is_outcome_code in *. split_andb.
    by eapply (is_opaque_framed OutcomeCode_MAX_BYTES).
Qed.

Lemma write_state_layout w s : write_state w s = w ++ state_layout s.
Proof.
  destruct s; cbn; try done.
  unfold Writer_fixed, Writer_u8, Writer_u64, Writer_i64, lease_layout. by rewrite <- !app_assoc.
Qed.

Lemma write_dedupe_Ok w o :
  is_option is_deduplication o = true →
  write_dedupe w o = Ok (w ++ option_layout deduplication_layout o).
Proof.
  destruct o as [d|]; [|done]. cbn. unfold is_deduplication. intros Hd. split_andb.
  rewrite Writer_bytes_Ok by (by eapply (is_opaque_framed MAX_DEDUPE_KEY_BYTES)).
  cbn. unfold Writer_i64, Writer_u8, deduplication_layout. by rewrite <- !app_assoc.
Qed.

(** What the record's own bounds leave to the writer: keys short enough to be
    framed. *)
Lemma record_wf_spec r :
  is_job_record r = true → JobRecordV1_validate r = Ok tt →
  Forall (λ k, len k ≤ U32_MAX) (pm_chunk_keys (jr_payload r)) → record_wf r.
Proof.
  intros Hr Hv Hk. unfold is_job_record in Hr. split_andb.
  unfold JobRecordV1_validate in Hv. invert_ok. destruct a, a0, a1, a2.
  unfold record_wf, identity_wf, routing_wf, timing_wf, mutable_wf, payload_wf, policy_wf. cbn.
  split_and!; try done.
  - destruct (jr_attempts r); [|done]. by split.
  - unfold JobRecordV1_validate_checkpoint_and_lease in Hv. invert_ok.
    destruct (jr_checkpoint r) as [c|]; [|done]. cbn.
    destruct (Z.ltb_spec MAX_CHECKPOINT_BYTES (len c)); [done|].
    unfold MAX_CHECKPOINT_BYTES, U32_MAX in *. lia.
Qed.

Lemma record_wf_typed r : record_wf r → is_job_record r = true.
Proof.
  intros (Hi & Hr & Ht & Hp & Hm). unfold is_job_record.
  destruct Hi as (? & ? & ? & ? & ? & ? & ?), Hr as ([? _] & ? & ?), Ht as (? & ? & ?), Hp as [? _],
    Hm as (Ha & ? & _ & ? & ? & ?). cbn in *.
  split_andb; try assumption.
  destruct (jr_attempts r) as [h|]; [apply Ha|done].
Qed.

Lemma write_record_Ok w r : record_wf r → write_record w r = Ok (w ++ record_layout r).
Proof.
  intros Hr. pose proof (record_wf_typed r Hr) as Ht.
  destruct Hr as ((? & ? & ? & ? & _) & (Hp & ? & ?) & _ & Hpol & (_ & _ & ? & _ & ? & _)).
  cbn [routing_of rr_payload] in Hp.
  assert (len (pm_chunk_keys (jr_payload r)) ≤ U16_MAX) as Hc.
  { destruct Hp as (Hp & Hm & _). unfold is_payload_manifest in Hp. split_andb.
    apply PayloadManifest_validate_Ok in Hm as [_ Hc _ _]; [unfold MAX_CHUNKS in Hc; ranges; lia|].
    ranges. lia. }
  assert (on_option (λ d, is_u64 d = true) (ps_execution_timeout (jr_policy r))) as Hd
    by (by apply policy_timeout_wf).
  assert (is_option is_attempt_history (jr_attempts r) = true) as Ha.
  { unfold is_job_record in Ht. by split_andb. }
  unfold write_record, Writer_text.
  rewrite Writer_bytes_Ok by (by eapply (is_opaque_framed MAX_NAMESPACE_BYTES)). cbn [mbind result_bind].
  rewrite Writer_bytes_Ok by (by eapply (is_text_framed MAX_NAME_BYTES)). cbn [mbind result_bind].
  rewrite Writer_bytes_Ok by (by eapply (is_text_framed MAX_NAME_BYTES)). cbn [mbind result_bind].
  rewrite write_payload_Ok by (done || apply Hp). cbn [mbind result_bind].
  rewrite write_fairness_Ok by done. cbn [mbind result_bind].
  rewrite write_optional_bytes_Ok by (by eapply (is_option_framed MAX_ORDERING_KEY_BYTES)).
  cbn [mbind result_bind]. rewrite write_optional_i64_layout, write_policy_Ok by done.
  cbn [mbind result_bind]. rewrite write_attempts_Ok by done.
  cbn [mbind result_bind]. rewrite write_state_layout, write_optional_bytes_Ok by done.
  cbn [mbind result_bind]. rewrite write_dedupe_Ok by done. cbn [mbind result_bind].
  unfold Writer_fixed, Writer_u8, Writer_u16, Writer_u32, Writer_u64, Writer_i64.
  unfold record_layout, identity_layout, routing_layout, timing_layout, mutable_layout.
  cbn [identity_of ri_job_id ri_namespace ri_queue ri_kind ri_schema_version ri_generation
    ri_execution_id routing_of rr_payload rr_fairness rr_ordering_key rr_priority timing_of
    rt_created_at rt_scheduled_at rt_expires_at mutable_of rm_attempts rm_state rm_checkpoint
    rm_retention_deadline rm_deduplication rm_revision].
  by rewrite <- !app_assoc.
Qed.

Lemma write_record_fits w r w' :
  write_record w r = Ok w' → Forall (λ k, len k ≤ U32_MAX) (pm_chunk_keys (jr_payload r)).
Proof.
  unfold write_record. intros Hw. invert_ok. unfold write_payload in *. invert_ok.
  by eapply write_keys_fit.
Qed.

Lemma encode_job_record_Ok r e :
  encode_job_record r = Ok e ∧ is_job_record r = true ↔
  record_wf r ∧ JobRecordV1_validate r = Ok tt ∧
  len (record_layout r) ≤ MAX_VALUE_BODY_BYTES ∧ e = value_layout VT_Job (record_layout r).
Proof.
  unfold encode_job_record. split.
  - intros [He Ht]. invert_ok. destruct a. pose proof (write_record_fits _ _ _ Ha0) as Hk.
    pose proof (record_wf_spec r Ht Ha Hk) as Hr. rewrite write_record_Ok in Ha0 by done.
    invert_ok. apply ValueCodec_encode_Ok in He as [-> ?]. done.
  - intros (Hr & -> & Hl & ->). split; [|by apply record_wf_typed].
    cbn. rewrite write_record_Ok by done. cbn. by apply ValueCodec_encode_Ok.
Qed.

(** A whole-body read: the reader must consume everything. *)
Lemma codec_whole {A} (p : reader A) wf enc body a :
  codec p wf enc → len body ≤ USIZE_MAX →
  (∃ r, p (Reader_new body) = Ok (a, r) ∧ Reader_finish r = Ok tt) ↔ wf a ∧ body = enc a.
Proof.
  intros Hp Hl. pose proof (len_nonneg body).
  assert (reader_ok (Reader_new body)) as Hr by (split; cbn; lia). split.
  - intros (r & Hpr & Hf). destruct (codec_sound _ _ _ Hp _ _ _ Hr Hpr) as (Ha & -> & tl & Hrest).
    split; [done|]. unfold rest in Hrest. cbn in Hrest. rewrite drop_0 in Hrest.
    unfold Reader_finish in Hf. cbn in Hf. rewrite Hrest, len_app in Hf.
    destruct (Z.eqb_spec (0 + len (enc a)) (len (enc a) + len tl)) as [Hz|]; [|done].
    assert (tl = []) as -> by (apply len_zero_nil; lia). by rewrite app_nil_r in Hrest.
  - intros [Ha ->]. eexists. split.
    + apply (codec_complete _ _ _ Hp _ _ [] Ha Hr). unfold rest. cbn. by rewrite app_nil_r.
    + unfold Reader_finish. cbn. by rewrite Z.eqb_refl.
Qed.

Lemma decode_job_record_Ok r e :
  decode_job_record e = Ok r ↔
  record_wf r ∧ JobRecordV1_validate r = Ok tt ∧
  len (record_layout r) ≤ MAX_VALUE_BODY_BYTES ∧ e = value_layout VT_Job (record_layout r).
Proof.
  unfold decode_job_record. split.
  - intros Hd. invert_ok. destruct a as [tag body]. apply ValueCodec_decode_body_Ok in Ha as [-> Hl].
    case_bool_decide; [|done]. subst. cbn in Hd. invert_ok. destruct a as [r' rd]. invert_ok.
    destruct a, a0. assert (record_wf r ∧ body = record_layout r) as [Hr ->].
    { apply (codec_whole read_record); [apply codec_record|
        unfold MAX_VALUE_BODY_BYTES, USIZE_MAX, U64_MAX in *; lia|eauto]. }
    done.
  - intros (Hr & Hv & Hl & ->).
    rewrite (proj2 (ValueCodec_decode_body_Ok _ _ _) (conj eq_refl Hl)). cbn [mbind result_bind].
    rewrite bool_decide_true by done. cbn [negb].
    destruct (proj2 (codec_whole read_record record_wf record_layout (record_layout r) r codec_record
      ltac:(unfold MAX_VALUE_BODY_BYTES, USIZE_MAX, U64_MAX in *; lia)) (conj Hr eq_refl)) as (rd & -> & Hf).
    cbn [mbind result_bind]. rewrite Hf. cbn [mbind result_bind]. by rewrite Hv.
Qed.

(** ** Capacity *)

Lemma saturating_add_min a b :
  0 ≤ b → saturating_add (Z.min USIZE_MAX a) b = Z.min USIZE_MAX (a + b).
Proof. unfold saturating_add. lia. Qed.

Lemma payload_capacity_spec m :
  payload_capacity m = Z.min USIZE_MAX (38 + len (components_layout (pm_chunk_keys m))).
Proof.
  unfold payload_capacity. change (saturating_add 4 (32 + 2)) with (Z.min USIZE_MAX 38).
  generalize 38. induction (pm_chunk_keys m) as [|k ks IH]; intros n; cbn [fold_left].
  - change (len (components_layout [])) with 0. f_equal. lia.
  - pose proof (len_nonneg k). rewrite saturating_add_min, IH by lia.
    rewrite components_layout_cons, len_app, len_framed. f_equal. lia.
Qed.

Lemma len_option_layout {A} (f : A → bytes) o :
  len (option_layout f o) = match o with Some a => 1 + len (f a) | None => 1 end.
Proof. destruct o; cbn [option_layout]; [|done]. by rewrite len_app, len_to_be_bytes. Qed.

Lemma saturating_add_min_r a b :
  0 ≤ a → 0 ≤ b →
  saturating_add (Z.min USIZE_MAX a) (Z.min USIZE_MAX b) = Z.min USIZE_MAX (a + b).
Proof. unfold saturating_add. unfold USIZE_MAX, U64_MAX. lia. Qed.

(** The estimates of the parts are the lengths of their layouts. *)
Lemma part_capacities r :
  is_job_state (jr_state r) = true →
  fairness_capacity (jr_fairness r) = len (fairness_layout (jr_fairness r)) ∧
  ordering_capacity r = len (option_layout framed (jr_ordering_key r)) ∧
  policy_capacity r = len (policy_layout (jr_policy r)) ∧
  attempts_capacity r = len (option_layout history_layout (jr_attempts r)) ∧
  state_capacity r = len (state_layout (jr_state r)) ∧
  checkpoint_capacity r = len (option_layout framed (jr_checkpoint r)) ∧
  dedupe_capacity r = len (option_layout deduplication_layout (jr_deduplication r)).
Proof.
  intros Hs. unfold fairness_capacity, ordering_capacity, policy_capacity, attempts_capacity,
    state_capacity, checkpoint_capacity, dedupe_capacity, policy_layout, retry_layout.
  split_and!.
  - destruct (jr_fairness r) as [[p s]|]; cbn [fairness_layout]; [|done].
    rewrite !len_app, len_option_layout, len_framed, len_to_be_bytes. cbn [fp_primary fp_secondary].
    destruct s; rewrite ?len_framed; lia.
  - rewrite len_option_layout. destruct (jr_ordering_key r); rewrite ?len_framed; lia.
  - rewrite !len_app, len_option_layout. unfold u16_bytes, u32_bytes, u64_bytes.
    rewrite !len_to_be_bytes. destruct (ps_execution_timeout _); rewrite ?len_to_be_bytes; lia.
  - rewrite len_option_layout. destruct (jr_attempts r) as [h|]; [|done].
    unfold history_layout, u32_bytes, i64_bytes.
    rewrite !len_app, !len_to_be_bytes, len_option_layout.
    destruct (ah_last_outcome h); rewrite ?len_framed; lia.
  - destruct (jr_state r) as [|l| | |]; try done. cbn [state_layout]. unfold lease_layout.
    unfold u64_bytes, i64_bytes. rewrite !len_app, !len_to_be_bytes. lia.
  - rewrite len_option_layout. destruct (jr_checkpoint r); rewrite ?len_framed; lia.
  - rewrite len_option_layout. destruct (jr_deduplication r); [|done].
    unfold deduplication_layout, i64_bytes. rewrite len_app, len_framed, len_to_be_bytes. lia.
Qed.

(** The length of a record's layout, part by part. *)
Lemma len_record_layout r :
  len (pm_digest (jr_payload r)) = 32 →
  len (record_layout r) =
    len (jr_job_id r) + (4 + len (jr_namespace r)) + (4 + len (jr_queue r)) + (4 + len (jr_kind r))
    + (2 + 4 + len (jr_execution_id r)) + (38 + len (components_layout (pm_chunk_keys (jr_payload r))))
    + len (fairness_layout (jr_fairness r)) + len (option_layout framed (jr_ordering_key r))
    + (1 + 8 + 8) + match jr_expires_at r with Some _ => 9 | None => 1 end
    + len (policy_layout (jr_policy r)) + len (option_layout history_layout (jr_attempts r))
    + len (state_layout (jr_state r)) + len (option_layout framed (jr_checkpoint r)) + 8
    + len (option_layout deduplication_layout (jr_deduplication r)) + 8.
Proof.
  intros Hdig.
  unfold record_layout, identity_layout, routing_layout, timing_layout, mutable_layout, payload_layout.
  cbn [identity_of ri_job_id ri_namespace ri_queue ri_kind ri_schema_version ri_generation
    ri_execution_id routing_of rr_payload rr_fairness rr_ordering_key rr_priority timing_of
    rt_created_at rt_scheduled_at rt_expires_at mutable_of rm_attempts rm_state rm_checkpoint
    rm_retention_deadline rm_deduplication rm_revision].
  unfold u16_bytes, u32_bytes, u64_bytes, i64_bytes.
  rewrite !len_app, !len_framed, !len_to_be_bytes, Hdig, (len_option_layout (to_be_bytes 8)).
  destruct (jr_expires_at r); rewrite ?len_to_be_bytes; lia.
Qed.

Ltac lens := repeat apply Z.add_nonneg_nonneg; try apply len_nonneg; repeat case_match; lia.

Lemma record_body_capacity_spec r :
  record_wf r → record_body_capacity r = Z.min USIZE_MAX (len (record_layout r)).
Proof.
  intros Hr. pose proof (record_wf_typed r Hr) as Ht. unfold is_job_record in Ht. split_andb.
  destruct (part_capacities r) as (Hf & Ho & Hp & Ha & Hs & Hc & Hd); [done|].
  unfold record_body_capacity, record_identity_capacity.
  rewrite Hf, Ho, Hp, Ha, Hs, Hc, Hd, payload_capacity_spec, len_record_layout; last first.
  { unfold is_payload_manifest, is_array, PAYLOAD_DIGEST_BYTES in *. split_andb. by apply Z.eqb_eq. }
  rewrite (is_fixed_id_len (jr_job_id r)) by done.
  change 16 with (Z.min USIZE_MAX 16) at 1.
  repeat first [rewrite saturating_add_min_r by lens|rewrite saturating_add_min by lens].
  done.
Qed.

(** ** Definitions *)

Definition definition_layout (d : JobDefinition) : bytes :=
  to_be_bytes 1 JOB_DEFINITION_VERSION ++ jd_job_id d ++ framed (jd_namespace d)
  ++ framed (jd_queue d) ++ framed (jd_kind d) ++ u16_bytes (jd_schema_version d)
  ++ u32_bytes (jd_payload_length d) ++ jd_payload_digest d ++ fairness_layout (jd_fairness d)
  ++ option_layout framed (jd_ordering_key d) ++ to_be_bytes 1 (priority_byte (jd_priority d))
  ++ option_layout i64_bytes (jd_expires_at d) ++ policy_layout (jd_policy d)
  ++ option_layout deduplication_layout (jd_deduplication d).

(** What the field types guarantee, with a validated policy. *)
Definition definition_wf (d : JobDefinition) : Prop :=
  is_fixed_id (jd_job_id d) = true ∧ is_opaque MAX_NAMESPACE_BYTES (jd_namespace d) = true
  ∧ is_text MAX_NAME_BYTES (jd_queue d) = true ∧ is_text MAX_NAME_BYTES (jd_kind d) = true
  ∧ is_nonzero_u16 (jd_schema_version d) = true ∧ is_u32 (jd_payload_length d) = true
  ∧ len (jd_payload_digest d) = 32 ∧ is_fairness_class (jd_fairness d) = true
  ∧ is_option (is_opaque MAX_ORDERING_KEY_BYTES) (jd_ordering_key d) = true
  ∧ is_option is_i64 (jd_expires_at d) = true ∧ policy_wf (jd_policy d)
  ∧ is_option is_deduplication (jd_deduplication d) = true.

(** A reader for the hashed bytes, built from the readers of the crate.  The
    program only hashes them; that they can be read back is how their
    injectivity is proved. *)
Definition read_definition : reader JobDefinition :=
  version ← Reader_u8;
  if negb (version =? JOB_DEFINITION_VERSION) then fail (SDE_UnknownVersion version) else
  job_id ← (bs ← Reader_fixed_array 16; lift (ident (fixed_try_from_slice "job ID" bs)));
  namespace ← (bs ← Reader_bytes; lift (ident (Namespace_try_new bs)));
  queue ← (value ← Reader_text; lift (ident (QueueName_try_new value)));
  kind ← (value ← Reader_text; lift (ident (JobKind_try_new value)));
  schema_version ← (value ← Reader_u16; lift (nonzero value "schema version"));
  payload_length ← Reader_u32;
  payload_digest ← Reader_fixed_array 32;
  fairness ← read_fairness;
  ordering_key ← (value ← Reader_optional_bytes;
                  lift (transpose (λ bs, ident (OrderingKey_try_new bs)) value));
  priority ← (b ← Reader_u8; lift (priority_from_byte b));
  expires_at ← read_optional_i64;
  policy ← read_policy;
  deduplication ← read_dedupe;
  mret (mkJobDefinition job_id namespace queue kind schema_version payload_length payload_digest
          fairness ordering_key priority expires_at policy deduplication).

Lemma codec_definition : codec read_definition definition_wf definition_layout.
Proof.
  eapply codec_ext.
  - unfold read_definition.
    eapply (codec_bind (λ _, JOB_DEFINITION_VERSION)); [apply codec_u8|intros ? ?; cbn beta|shelve].
    apply codec_unless.
    field jd_job_id. field jd_namespace. field jd_queue. field jd_kind. field jd_schema_version.
    field jd_payload_length.
    eapply (codec_bind jd_payload_digest); [apply (codec_fixed_array 32); lia|intros ? ?; cbn beta|shelve].
    field jd_fairness. field jd_ordering_key. field jd_priority. field jd_expires_at.
    field jd_policy. field jd_deduplication. apply codec_ret.
  - unfold definition_wf. intros []. rewrite !is_option_on_option. fields_wf.
  - intros d _. unfold definition_layout. cbn beta.
    by rewrite app_nil_r.
  Unshelve.
  all: intros ? ? _ Hk; cbn in Hk; destruct_and?; try (by symmetry; apply Z.eqb_eq, negb_false_iff).
  all: match goal with H : ?b = _ |- _ => rewrite H; reflexivity end.
Qed.

Lemma write_definition_Ok d :
  definition_wf d → write_definition d = Ok (definition_layout d).
Proof.
  intros (? & ? & ? & ? & ? & ? & ? & ? & ? & ? & [Hpol Hv] & ?).
  assert (on_option (λ d, is_u64 d = true) (ps_execution_timeout (jd_policy d))) as Hd.
  { apply policy_timeout_wf. by split. }
  unfold write_definition, Writer_text.
  rewrite Writer_bytes_Ok by (by eapply (is_opaque_framed MAX_NAMESPACE_BYTES)). cbn [mbind result_bind].
  rewrite Writer_bytes_Ok by (by eapply (is_text_framed MAX_NAME_BYTES)). cbn [mbind result_bind].
  rewrite Writer_bytes_Ok by (by eapply (is_text_framed MAX_NAME_BYTES)). cbn [mbind result_bind].
  rewrite write_fairness_Ok by done. cbn [mbind result_bind].
  rewrite write_optional_bytes_Ok by (by eapply (is_option_framed MAX_ORDERING_KEY_BYTES)).
  cbn [mbind result_bind]. rewrite write_optional_i64_layout, write_policy_Ok by done.
  cbn [mbind result_bind]. rewrite write_dedupe_Ok by done.
  unfold Writer_fixed, Writer_u8, Writer_u16, Writer_u32, definition_layout. by rewrite <- !app_assoc.
Qed.

Lemma definition_layout_inj d d' :
  definition_wf d → definition_wf d' → definition_layout d = definition_layout d' →
  len (definition_layout d) ≤ USIZE_MAX → d = d'.
Proof.
  intros Hd Hd' He Hl.
  destruct (proj2 (codec_whole _ _ _ _ d codec_definition Hl) (conj Hd eq_refl)) as (r & Hr & _).
  destruct (proj2 (codec_whole _ _ _ _ d' codec_definition Hl) (conj Hd' He)) as (r' & Hr' & _).
  congruence.
Qed.

Lemma len_policy_layout p : len (policy_layout p) ≤ 43.
Proof.
  unfold policy_layout, retry_layout, u16_bytes, u32_bytes, u64_bytes.
  rewrite !len_app, len_option_layout, !len_to_be_bytes.
  destruct (ps_execution_timeout p); rewrite ?len_to_be_bytes; lia.
Qed.

Lemma len_fairness_layout f : is_fairness_class f = true → len (fairness_layout f) ≤ 266.
Proof.
  destruct f as [[p s]|]; [|done]. cbn [is_fairness_class fairness_layout]. unfold is_fairness_path.
  cbn [fp_primary fp_secondary]. intros [Hp%is_opaque_len Hf]%andb_true_iff.
  rewrite !len_app, len_framed, len_option_layout, len_to_be_bytes.
  unfold MAX_FAIRNESS_KEY_BYTES in *. destruct s as [s|]; cbn in Hf; [|lia].
  apply is_opaque_len in Hf. rewrite len_framed. lia.
Qed.

Lemma len_definition_layout d : definition_wf d → len (definition_layout d) ≤ 1500.
Proof.
  intros (Hj%is_fixed_id_len & Hn%is_opaque_len & Hq%is_text_len & Hk%is_text_len & _ & _ & Hd & Hf & Ho
    & _ & _ & Hdd).
  apply len_fairness_layout in Hf. pose proof (len_policy_layout (jd_policy d)).
  unfold definition_layout, u16_bytes, u32_bytes.
  rewrite !len_app, !len_framed, !len_to_be_bytes, !len_option_layout, Hj, Hd.
  assert (match jd_ordering_key d with Some a => 1 + len (framed a) | None => 1 end ≤ 133).
  { destruct (jd_ordering_key d) as [k|]; [|lia]. apply is_opaque_len in Ho. rewrite len_framed.
    unfold MAX_ORDERING_KEY_BYTES in Ho. lia. }
  assert (match jd_expires_at d with Some a => 1 + len (i64_bytes a) | None => 1 end ≤ 9).
  { destruct (jd_expires_at d); unfold i64_bytes; rewrite ?len_to_be_bytes; lia. }
  assert (match jd_deduplication d with Some a => 1 + len (deduplication_layout a) | None => 1 end ≤ 269).
  { destruct (jd_deduplication d) as [[k t]|]; [|lia]. cbn in Hdd. unfold is_deduplication in Hdd.
    apply andb_true_iff in Hdd as [Hkey%is_opaque_len _]. cbn in Hkey. unfold deduplication_layout, i64_bytes.
    rewrite len_app, len_framed, len_to_be_bytes. unfold MAX_DEDUPE_KEY_BYTES in Hkey. cbn. lia. }
  unfold MAX_NAMESPACE_BYTES, MAX_NAME_BYTES in *. lia.
Qed.

(** ** A sample record *)

Module Sample.
Definition id16 (z : Z) : bytes := to_be_bytes 16 z.
Definition name : bytes := [Byte.x6d; Byte.x61; Byte.x69; Byte.x6c].
Definition policy : JobPolicySnapshot :=
  mkJobPolicySnapshot Idempotent 3 (Some (from_secs 30)) (RetryPolicy_preset Network).
Definition lease : Lease := mkLease (id16 7) (id16 8) 5 9000.
Definition record : JobRecordV1 :=
  mkJobRecordV1 (id16 1) name name name 2 0 (id16 2)
    (mkPayloadManifest 3 (to_be_bytes 32 99) [[Byte.x01]; [Byte.x02]])
    (FC_Scoped (mkFairnessPath name None)) (Some name) Bulk 1000 (-4) (Some 8000) policy
    (Some (mkAttemptHistory 1 1000 2000 (Some name))) (Leased lease) (Some [Byte.xff]) 5000
    (Some (mkDeduplication name 7000)) 12.
Definition definition : JobDefinition := JobDefinition_from_record record.
Definition encoded : bytes := value_layout VT_Job (record_layout record).
End Sample.

(** ** Properties *)

(** C29: the job record codec is a bijection between the typed, valid records
    that fit a value body and the byte strings the decoder accepts: a record of
    the Rust type encodes to [e] exactly when [e] decodes to that record.
    Decoding never yields a value outside the field types, and never accepts
    two encodings of one record. *)
Theorem job_record_roundtrip r e :
  encode_job_record r = Ok e ∧ is_job_record r = true ↔ decode_job_record e = Ok r.
Proof. by rewrite encode_job_record_Ok, decode_job_record_Ok. Qed.

(** The buffer reserved by [record_body_capacity] for a typed, valid record
    is exactly as long as the body the encoder writes (or saturates), so
    encoding a job record neither reallocates nor over-allocates. *)
Theorem record_capacity_exact r w :
  is_job_record r = true → JobRecordV1_validate r = Ok tt → write_record [] r = Ok w →
  record_body_capacity r = Z.min USIZE_MAX (len w).
Proof.
  intros Ht Hv Hw. pose proof (write_record_fits _ _ _ Hw) as Hk.
  pose proof (record_wf_spec r Ht Hv Hk) as Hr. rewrite write_record_Ok in Hw by done.
  injection Hw as <-. by apply record_body_capacity_spec.
Qed.

Lemma record_capacity_exact_witness :
  record_body_capacity Sample.record = Z.min USIZE_MAX (len (record_layout Sample.record)).
Proof. apply (record_capacity_exact Sample.record); vm_compute; reflexivity. Defined.

(** C36: a definition digest binds the whole immutable definition: two
    well-formed definitions with the same [job_definition_digest] are equal,
    unless two different byte strings with the same SHA-256 digest are
    exhibited. *)
Theorem definition_digest_binding sha256 d d' h :
  definition_wf d → definition_wf d' →
  job_definition_digest sha256 d = Ok h → job_definition_digest sha256 d' = Ok h →
  d = d' ∨ ∃ w w' : bytes, w ≠ w' ∧ sha256 w = sha256 w'.
Proof.
  intros Hd Hd'. unfold job_definition_digest. rewrite !write_definition_Ok by done. cbn.
  intros [= <-] [= He]. pose proof (len_definition_layout d Hd).
  destruct (decide (definition_layout d = definition_layout d')) as [Hl|Hl].
  - left. apply definition_layout_inj; [done..|unfold USIZE_MAX, U64_MAX; lia].
  - right. by exists (definition_layout d), (definition_layout d').
Qed.

Lemma definition_digest_binding_witness :
  Sample.definition = Sample.definition ∨ ∃ w w' : bytes, w ≠ w' ∧ (λ x : bytes, x) w = (λ x, x) w'.
Proof.
  apply (definition_digest_binding (λ x, x) Sample.definition Sample.definition
    (definition_layout Sample.definition)); [vm_compute; tauto..| |]; reflexivity.
Defined.
