(* ===== verification/OperationCodec.v ===== *)
(** * Operation values

    [crates/bg-jobs/src/codec/value/operation.rs]: the value under a job's
    operation key is a live marker (job, pending operation, fence high-water
    mark), a live watermark (no pending operation) or a terminal receipt.  The
    file's private [Writer] and [Reader] have the primitives of [Wire]. *)

From S2P Require Import Prelude Errors Ids Clock Policy JobRecord Wire KeyCodec ValueCodec JobCodec.
From S2P Require Import JobRoundtrip.

Definition MARKER_KIND : Z := 0.
Definition RECEIPT_KIND : Z := 1.
Definition WATERMARK_KIND : Z := 2.
Definition DEFINED_RECEIPT_KIND : Z := 3.

Record LiveOperationAuthority : Type := mkLiveOperationAuthority {
  lo_job_id : JobId;
  lo_fence_high_water : Z;
  lo_operation_id : option OperationId;
}.

Definition LiveOperationAuthority_matches_job (a : LiveOperationAuthority) (expected : JobId) : bool :=
  bytes_eqb (lo_job_id a) expected.

Inductive DecodedOperation : Type :=
  | DO_Live (authority : LiveOperationAuthority)
  | DO_Receipt (receipt : OperationReceipt).

(** ** Encoding *)

Definition encode_operation_marker (job_id : JobId) (operation : OperationId) (fence_high_water : Z)
    : result StoreDataError bytes :=
  let body := to_be_bytes 1 MARKER_KIND in
  let body := body ++ job_id in
  let body := body ++ operation in
  let body := body ++ u64_bytes fence_high_water in
  ValueCodec_encode VT_Operation body.

Definition encode_operation_watermark (job_id : JobId) (fence_high_water : Z)
    : result StoreDataError bytes :=
  let body := to_be_bytes 1 WATERMARK_KIND in
  let body := body ++ job_id in
  let body := body ++ u64_bytes fence_high_water in
  ValueCodec_encode VT_Operation body.

Definition terminal_byte (t : TerminalDisposition) : Z := match t with Completed => 0 end.

Definition encode_operation_receipt (receipt : OperationReceipt) : result StoreDataError bytes :=
  let w := Writer_u8 [] (if or_definition_digest receipt then DEFINED_RECEIPT_KIND else RECEIPT_KIND) in
  let w := Writer_fixed w (or_operation_id receipt) in
  let w := Writer_fixed w (or_job_id receipt) in
  let w := Writer_u32 w (or_generation receipt) in
  let w := Writer_u64 w (or_revision receipt) in
  let w := Writer_fixed w (or_execution_id receipt) in
  let w := Writer_fixed w (or_attempt_id receipt) in
  let w := Writer_u32 w (or_attempts receipt) in
  let w := Writer_fixed w (or_owner receipt) in
  let w := Writer_fixed w (or_token receipt) in
  let w := Writer_u64 w (or_fence receipt) in
  let w := Writer_u8 w (encode_effect_mode (or_effect_mode receipt)) in
  let w := Writer_i64 w (or_created_at receipt) in
  let w := Writer_i64 w (or_completed_at receipt) in
  let w := Writer_u8 w (terminal_byte (or_terminal receipt)) in
  w ← Writer_bytes w (or_kind receipt);
  w ← Writer_bytes w (or_queue receipt);
  w ← Writer_bytes w (or_outcome receipt);
  let w := match or_definition_digest receipt with
           | Some digest => Writer_fixed w digest
           | None => w
           end in
  ValueCodec_encode VT_Operation w.

(** ** Decoding *)

Definition decode_marker (body : bytes) : result StoreDataError LiveOperationAuthority :=
  if negb (len body =? 1 + 16 + 16 + 8) then Err (SDE_Malformed "operation marker")
  else
    job_id ← ident (fixed_try_from_slice "job ID" (slice body 1 17));
    operation_id ← ident (fixed_try_from_slice "operation ID" (slice body 17 33));
    Ok (mkLiveOperationAuthority job_id (from_be_unsigned (slice body 33 41)) (Some operation_id)).

Definition decode_watermark (body : bytes) : result StoreDataError LiveOperationAuthority :=
  if negb (len body =? 1 + 16 + 8) then Err (SDE_Malformed "operation watermark")
  else
    job_id ← ident (fixed_try_from_slice "job ID" (slice body 1 17));
    Ok (mkLiveOperationAuthority job_id (from_be_unsigned (slice body 17 25)) None).

Definition decode_terminal (value : Z) : result StoreDataError TerminalDisposition :=
  if value =? 0 then Ok Completed else Err (SDE_Malformed "terminal disposition").

(** [Reader::id] and [Reader::text] of this file. *)
Definition Reader_id (field : string) : reader bytes :=
  bs ← Reader_take 16; lift (map_err (λ _, SDE_Malformed field) (fixed_try_from_slice field bs)).
Definition Reader_text_field (field : string) : reader bytes :=
  bs ← Reader_bytes; lift (if is_str bs then Ok bs else Err (SDE_Malformed field)).

(** The struct literal of [decode_receipt], without a digest. *)
Definition read_receipt_fields : reader OperationReceipt :=
  operation_id ← Reader_id "operation ID";
  job_id ← Reader_id "job ID";
  generation ← Reader_u32;
  revision ← Reader_u64;
  execution_id ← Reader_id "execution ID";
  attempt_id ← Reader_id "attempt ID";
  attempts ← (value ← Reader_u32; lift (nonzero value "attempt count"));
  owner ← Reader_id "owner ID";
  token ← Reader_id "lease token";
  fence ← (value ← Reader_u64; lift (nonzero value "lease fence"));
  effect_mode ← (value ← Reader_u8; lift (decode_effect_mode value));
  created_at ← Reader_i64;
  completed_at ← Reader_i64;
  terminal ← (value ← Reader_u8; lift (decode_terminal value));
  kind ← (value ← Reader_text_field "job kind";
          lift (map_err (λ _, SDE_Malformed "job kind") (JobKind_try_new value)));
  queue ← (value ← Reader_text_field "queue";
           lift (map_err (λ _, SDE_Malformed "queue") (QueueName_try_new value)));
  outcome ← (value ← Reader_text_field "outcome code";
             lift (validated (OutcomeCode_try_new value)));
  mret (mkOperationReceipt None operation_id job_id generation revision execution_id attempt_id
          attempts kind queue effect_mode created_at completed_at owner token fence terminal outcome).

Definition with_digest (receipt : OperationReceipt) (digest : option bytes) : OperationReceipt :=
  mkOperationReceipt digest (or_operation_id receipt) (or_job_id receipt) (or_generation receipt)
    (or_revision receipt) (or_execution_id receipt) (or_attempt_id receipt) (or_attempts receipt)
    (or_kind receipt) (or_queue receipt) (or_effect_mode receipt) (or_created_at receipt)
    (or_completed_at receipt) (or_owner receipt) (or_token receipt) (or_fence receipt)
    (or_terminal receipt) (or_outcome receipt).

Definition read_receipt (kind : Z) : reader OperationReceipt :=
  receipt ← read_receipt_fields;
  if kind =? DEFINED_RECEIPT_KIND
  then digest ← Reader_fixed_array 32; mret (with_digest receipt (Some digest))
  else mret receipt.

Definition decode_receipt (body : bytes) (kind : Z) : result StoreDataError OperationReceipt :=
  '(receipt, rd) ← read_receipt kind (Reader_new body);
  _ ← Reader_finish rd;
  Ok receipt.

Definition decode_operation (encoded : bytes) : result StoreDataError DecodedOperation :=
  '(tag, body) ← ValueCodec_decode_body encoded;
  if negb (bool_decide (tag = VT_Operation)) then Err (SDE_Malformed "operation marker")
  else if len body =? 0 then Err (SDE_Malformed "operation kind")
  else
    let kind := byte_at body 0 in
    if kind =? MARKER_KIND then DO_Live <$> decode_marker body
    else if (kind =? RECEIPT_KIND) || (kind =? DEFINED_RECEIPT_KIND)
    then DO_Receipt <$> decode_receipt (slice body 1 (len body)) kind
    else if kind =? WATERMARK_KIND then DO_Live <$> decode_watermark body
    else Err (SDE_Malformed "operation kind").

(** ** Layouts *)

Definition receipt_kind (r : OperationReceipt) : Z :=
  if or_definition_digest r then DEFINED_RECEIPT_KIND else RECEIPT_KIND.

Definition receipt_layout (r : OperationReceipt) : bytes :=
  or_operation_id r ++ or_job_id r ++ u32_bytes (or_generation r) ++ u64_bytes (or_revision r)
  ++ or_execution_id r ++ or_attempt_id r ++ u32_bytes (or_attempts r) ++ or_owner r ++ or_token r
  ++ u64_bytes (or_fence r) ++ to_be_bytes 1 (encode_effect_mode (or_effect_mode r))
  ++ i64_bytes (or_created_at r) ++ i64_bytes (or_completed_at r)
  ++ to_be_bytes 1 (terminal_byte (or_terminal r)) ++ framed (or_kind r) ++ framed (or_queue r)
  ++ framed (or_outcome r).

Definition operation_body (o : DecodedOperation) : bytes :=
  match o with
  | DO_Live a =>
      match lo_operation_id a with
      | Some operation =>
          to_be_bytes 1 MARKER_KIND ++ lo_job_id a ++ operation ++ u64_bytes (lo_fence_high_water a)
      | None => to_be_bytes 1 WATERMARK_KIND ++ lo_job_id a ++ u64_bytes (lo_fence_high_water a)
      end
  | DO_Receipt r =>
      to_be_bytes 1 (receipt_kind r) ++ receipt_layout r ++ default [] (or_definition_digest r)
  end.

Definition is_operation (o : DecodedOperation) : bool :=
  match o with
  | DO_Live a => is_fixed_id (lo_job_id a) && is_u64 (lo_fence_high_water a)
                 && is_option is_fixed_id (lo_operation_id a)
  | DO_Receipt r => is_receipt r
  end.

(** The encoder for each kind of value. *)
Definition encode_operation (o : DecodedOperation) : result StoreDataError bytes :=
  match o with
  | DO_Live a =>
      match lo_operation_id a with
      | Some operation => encode_operation_marker (lo_job_id a) operation (lo_fence_high_water a)
      | None => encode_operation_watermark (lo_job_id a) (lo_fence_high_water a)
      end
  | DO_Receipt r => encode_operation_receipt r
  end.

(** ** Live values *)

Lemma slice_u64 body from :
  0 ≤ from → from + 8 ≤ len body →
  slice body from (from + 8) = u64_bytes (from_be_unsigned (slice body from (from + 8)))
  ∧ is_u64 (from_be_unsigned (slice body from (from + 8))) = true.
Proof.
  intros Hf Hl. pose proof (len_slice body from (from + 8) ltac:(lia) Hl) as Hs.
  assert (length (slice body from (from + 8)) = 8%nat) as Hn by (unfold len in Hs; lia).
  split.
  - rewrite <- (to_from_be_bytes (slice body from (from + 8))) at 1. unfold u64_bytes. by rewrite Hn.
  - pose proof (from_be_unsigned_range (slice body from (from + 8))) as Hr. rewrite Hs in Hr.
    replace (from + 8 - from) with 8 in Hr by lia. ranges. lia.
Qed.

Lemma fixed_try_from_slice_id label bs :
  is_fixed_id bs = true → fixed_try_from_slice label bs = Ok bs.
Proof. intros. by apply fixed_try_from_slice_Ok. Qed.

Lemma decode_marker_Ok body a :
  decode_marker body = Ok a ∧ byte_at body 0 = MARKER_KIND ↔
  is_operation (DO_Live a) = true ∧ lo_operation_id a ≠ None ∧ body = operation_body (DO_Live a).
Proof.
  unfold decode_marker, ident. split.
  - intros [Hd Hb]. destruct (Z.eqb_spec (len body) (1 + 16 + 16 + 8)) as [Hl|]; [|done].
    cbn [negb] in Hd. invert_ok.
    apply fixed_try_from_slice_Ok in Ha as [-> ?]. apply fixed_try_from_slice_Ok in Ha0 as [-> ?].
    destruct (slice_u64 body 33 ltac:(lia) ltac:(lia)) as [Hu Hr].
    split; [by cbn; split_andb|]. split; [done|]. cbn [operation_body lo_operation_id lo_job_id lo_fence_high_water].
    change (slice body 33 41) with (slice body 33 (33 + 8)).
    rewrite <- Hb, <- Hu, <- slice_byte_at by lia. change (33 + 8) with (1 + 16 + 16 + 8). rewrite <- Hl, slice_to_end, <- !slice_drop by lia.
    by rewrite drop_0.
  - destruct a as [j f [o|]]; [|naive_solver]. cbn. intros (Ht & _ & ->). split_andb.
    pose proof (is_fixed_id_len j ltac:(done)) as Hj. pose proof (is_fixed_id_len o ltac:(done)) as Ho.
    set (body := to_be_bytes 1 MARKER_KIND ++ j ++ o ++ u64_bytes f).
    assert (drop (Z.to_nat 0) body = body ++ []) as Hd by by rewrite app_nil_r.
    assert (len body = 1 + 16 + 16 + 8) as Hl.
    { unfold body, u64_bytes. rewrite !len_app, !len_to_be_bytes, Hj, Ho. done. }
    unfold body at 2 in Hd. rewrite <- !app_assoc in Hd.
    apply drop_slice in Hd as [Hb Hd]; [|lia]. rewrite len_to_be_bytes in *.
    apply drop_slice in Hd as [Hs1 Hd]; [|lia].
    apply drop_slice in Hd as [Hs2 Hd]; [|lia]. rewrite Hj, Ho in *.
    apply drop_slice in Hd as [Hs3 _]; [|lia]. unfold u64_bytes in Hs3. rewrite len_to_be_bytes in Hs3.
    change (slice body 1 17 = j) in Hs1. change (slice body 17 33 = o) in Hs2.
    change (slice body 33 41 = to_be_bytes 8 f) in Hs3. rewrite Hl, Z.eqb_refl. cbn [negb]. rewrite Hs1, Hs2, Hs3.
    rewrite !fixed_try_from_slice_id by done. cbn.
    rewrite from_be_unsigned_exact by (ranges; cbn; lia). split; [done|].
    apply byte_at_slice; [lia|done|done].
Qed.

Lemma decode_watermark_Ok body a :
  decode_watermark body = Ok a ∧ byte_at body 0 = WATERMARK_KIND ↔
  is_operation (DO_Live a) = true ∧ lo_operation_id a = None ∧ body = operation_body (DO_Live a).
Proof.
  unfold decode_watermark, ident. split.
  - intros [Hd Hb]. destruct (Z.eqb_spec (len body) (1 + 16 + 8)) as [Hl|]; [|done].
    cbn [negb] in Hd. invert_ok. apply fixed_try_from_slice_Ok in Ha as [-> ?].
    destruct (slice_u64 body 17 ltac:(lia) ltac:(lia)) as [Hu Hr].
    split; [by cbn; split_andb|]. split; [done|]. cbn [operation_body lo_operation_id lo_job_id lo_fence_high_water].
    change (slice body 17 25) with (slice body 17 (17 + 8)).
    rewrite <- Hb, <- Hu, <- slice_byte_at by lia. change (17 + 8) with (1 + 16 + 8).
    rewrite <- Hl, slice_to_end, <- !slice_drop by lia. by rewrite drop_0.
  - destruct a as [j f [o|]]; [naive_solver|]. cbn. intros (Ht & _ & ->). split_andb.
    pose proof (is_fixed_id_len j ltac:(done)) as Hj.
    set (body := to_be_bytes 1 WATERMARK_KIND ++ j ++ u64_bytes f).
    assert (drop (Z.to_nat 0) body = body ++ []) as Hd by by rewrite app_nil_r.
    assert (len body = 1 + 16 + 8) as Hl.
    { unfold body, u64_bytes. rewrite !len_app, !len_to_be_bytes, Hj. done. }
    unfold body at 2 in Hd. rewrite <- !app_assoc in Hd.
    apply drop_slice in Hd as [Hb Hd]; [|lia]. rewrite len_to_be_bytes in *.
    apply drop_slice in Hd as [Hs1 Hd]; [|lia]. rewrite Hj in *.
    apply drop_slice in Hd as [Hs2 _]; [|lia]. unfold u64_bytes in Hs2. rewrite len_to_be_bytes in Hs2.
    change (slice body 1 17 = j) in Hs1. change (slice body 17 25 = to_be_bytes 8 f) in Hs2.
    rewrite Hl, Z.eqb_refl. cbn [negb]. rewrite Hs1, Hs2, fixed_try_from_slice_id by done. cbn.
    rewrite from_be_unsigned_exact by (ranges; cbn; lia). split; [done|].
    apply byte_at_slice; [lia|done|done].
Qed.

(** ** Receipts *)

Lemma codec_id field :
  codec (Reader_id field) (λ bs, is_fixed_id bs = true) (λ bs, bs).
Proof.
  eapply codec_guard; [apply (codec_take 16); lia| |].
  - intros a b _. by rewrite map_err_Ok, fixed_try_from_slice_Ok.
  - intros a. apply is_fixed_id_len.
Qed.

Lemma codec_text_field field :
  codec (Reader_text_field field) (λ bs, len bs ≤ U32_MAX ∧ is_str bs = true) framed.
Proof.
  eapply codec_guard; [apply codec_bytes| |naive_solver].
  intros a b Ha. cbn. case_match; naive_solver.
Qed.

Lemma codec_name_field field kind e :
  codec (value ← Reader_text_field field;
         lift (map_err (λ _, e) (ValidatedText_try_new kind value MAX_NAME_BYTES)))
    (λ bs, is_text MAX_NAME_BYTES bs = true) framed.
Proof.
  eapply codec_guard; [apply codec_text_field| |].
  - intros a b [_ Ha]. by rewrite map_err_Ok, ValidatedText_try_new_Ok.
  - intros a Ha. split; [|by eapply is_text_is_str].
    apply is_text_len in Ha. unfold MAX_NAME_BYTES, U32_MAX in *. lia.
Qed.

Lemma is_outcome_code_framed bs : is_outcome_code bs = true → len bs ≤ U32_MAX.
Proof.
  unfold is_outcome_code. intros [Ho _]%andb_true_iff.
  by apply (is_opaque_framed OutcomeCode_MAX_BYTES).
Qed.

Lemma codec_outcome field :
  codec (value ← Reader_text_field field; lift (validated (OutcomeCode_try_new value)))
    (λ bs, is_outcome_code bs = true) framed.
Proof.
  eapply codec_guard; [apply codec_text_field| |].
  - intros a b _. unfold validated. by rewrite map_err_Ok, OutcomeCode_try_new_Ok.
  - intros a Ha. split; [by apply is_outcome_code_framed|by apply is_outcome_code_is_str].
Qed.

Lemma codec_terminal :
  codec (value ← Reader_u8; lift (decode_terminal value)) (λ _, True)
    (λ t, to_be_bytes 1 (terminal_byte t)).
Proof.
  eapply codec_wf.
  - eapply (codec_check terminal_byte _ _ _ _ (λ _, True)); [apply codec_u8|].
    intros a []. unfold decode_terminal. cbn. destruct (Z.eqb_spec a 0); naive_solver.
  - intros []; naive_solver.
Qed.

#[export] Hint Resolve codec_id codec_outcome codec_terminal : codecs.
#[export] Hint Extern 1 (codec (_ ← Reader_text_field _; _) _ _) => apply codec_name_field : codecs.

Lemma codec_receipt_fields :
  codec read_receipt_fields
    (λ r, is_receipt r = true ∧ or_definition_digest r = None) receipt_layout.
Proof.
  eapply codec_ext.
  - unfold read_receipt_fields.
    field or_operation_id. field or_job_id. field or_generation. field or_revision.
    field or_execution_id. field or_attempt_id. field or_attempts. field or_owner. field or_token.
    field or_fence. field or_effect_mode. field or_created_at. field or_completed_at.
    field or_terminal. field or_kind. field or_queue. field or_outcome. apply codec_ret.
  - intros [digest]. unfold is_receipt. cbn. rewrite !andb_true_iff. split.
    + intros. destruct_and!. assert (digest = None) as -> by congruence. by split_and!.
    + intros. destruct_and!. subst digest. by split_and!.
  - intros r _. unfold receipt_layout. cbn beta. by rewrite app_nil_r.
  Unshelve. all: field_kept.
Qed.

Lemma is_receipt_with_digest r d :
  is_receipt (with_digest r d) = true ↔
  is_receipt (with_digest r None) = true ∧ is_option (is_array 32) d = true.
Proof. unfold is_receipt. cbn. rewrite !andb_true_iff. tauto. Qed.

Lemma with_digest_id r : with_digest r (or_definition_digest r) = r.
Proof. by destruct r. Qed.

Lemma codec_receipt kind :
  codec (read_receipt kind)
    (λ r, is_receipt r = true ∧ (kind = DEFINED_RECEIPT_KIND ↔ or_definition_digest r ≠ None))
    (λ r, receipt_layout r ++ default [] (or_definition_digest r)).
Proof.
  eapply codec_ext.
  - unfold read_receipt.
    eapply (codec_bind (λ r, with_digest r None) _ _ _ _
      (λ base r, r = with_digest base (or_definition_digest r) ∧ or_definition_digest base = None
         ∧ is_option (is_array 32) (or_definition_digest r) = true
         ∧ (kind = DEFINED_RECEIPT_KIND ↔ or_definition_digest r ≠ None))
      (λ _ r, default [] (or_definition_digest r))); [apply codec_receipt_fields| |].
    + intros base [Hb Hn]. cbn beta. destruct (Z.eqb_spec kind DEFINED_RECEIPT_KIND) as [->|Hk].
      * eapply codec_wf.
        { eapply (codec_inj (λ d, with_digest base (Some d)));
            [apply (codec_fixed_array 32); lia|done]. }
        intros r. split.
        { intros (d & -> & Hd). cbn. unfold is_array. by rewrite Hd. }
        intros (Hr & _ & Ho & Hd). destruct (or_definition_digest r) as [d|]; [|naive_solver].
        exists d. split; [done|]. by apply Z.eqb_eq.
      * eapply codec_ext; [apply codec_ret| |].
        { intros r. split.
          - intros ->. rewrite Hn. split; [by rewrite <- Hn, with_digest_id|naive_solver].
          - intros (Hr & _ & _ & Hd). destruct (or_definition_digest r) as [d|]; [naive_solver|].
            rewrite Hr, <- Hn. apply with_digest_id. }
        { intros r ->. by rewrite Hn. }
    + intros base r _ (Hr & Hn & _). rewrite Hr. transitivity (with_digest base None); [done|].
      rewrite <- Hn. apply with_digest_id.
  - intros r. cbn. rewrite <- (with_digest_id r) at 4. rewrite (is_receipt_with_digest r (or_definition_digest r)).
    split; [naive_solver|]. intros ((? & ?) & ?). split_and!; try done. by destruct r.
  - done.
Qed.

Lemma read_receipt_whole body kind r :
  len body ≤ USIZE_MAX →
  decode_receipt body kind = Ok r ↔
  is_receipt r = true ∧ (kind = DEFINED_RECEIPT_KIND ↔ or_definition_digest r ≠ None)
  ∧ body = receipt_layout r ++ default [] (or_definition_digest r).
Proof.
  intros Hl. pose proof (codec_whole _ _ _ body r (codec_receipt kind) Hl) as Hw. cbn in Hw.
  unfold decode_receipt. rewrite (assoc (∧)), <- Hw. split.
  - intros Hd. invert_ok. destruct a as [r' rd]. invert_ok. destruct a. eauto.
  - intros (rd & -> & Hf). cbn. by rewrite Hf.
Qed.

(** The body of an operation value, after the envelope. *)
Lemma receipt_body_Ok body r :
  len body ≤ USIZE_MAX →
  0 < len body ∧ (byte_at body 0 = RECEIPT_KIND ∨ byte_at body 0 = DEFINED_RECEIPT_KIND) ∧
    decode_receipt (slice body 1 (len body)) (byte_at body 0) = Ok r ↔
  is_receipt r = true ∧ body = operation_body (DO_Receipt r).
Proof.
  intros Hl. split.
  - intros (Hp & Hk & Hd). apply read_receipt_whole in Hd as (Hr & Hdig & Hb);
      [|rewrite len_slice; lia]. split; [done|]. cbn. rewrite <- Hb.
    assert (receipt_kind r = byte_at body 0) as ->.
    { unfold receipt_kind. destruct (or_definition_digest r); naive_solver. }
    rewrite <- slice_byte_at, slice_to_end, <- slice_drop by lia. by rewrite drop_0.
  - cbn. intros [Hr Hb].
    set (tl := receipt_layout r ++ default [] (or_definition_digest r)) in *.
    assert (len body = 1 + len tl) as Hlen by (by rewrite Hb, len_app, len_to_be_bytes).
    pose proof (len_nonneg tl). change body with (drop (Z.to_nat 0) body) in Hb at 1.
    apply drop_slice in Hb as [Hs Hd]; [|lia]. rewrite len_to_be_bytes in *.
    assert (byte_at body 0 = receipt_kind r) as Hk.
    { apply byte_at_slice; [lia| |done]. unfold receipt_kind. by case_match. }
    rewrite Hk. split; [lia|]. split; [unfold receipt_kind; case_match; auto|].
    rewrite slice_to_end by lia. change (Z.to_nat 1) with (Z.to_nat (0 + Z.of_nat 1)). rewrite Hd.
    apply read_receipt_whole; [lia|]. split_and!; [done| |done].
    unfold receipt_kind. by destruct (or_definition_digest r).
Qed.

Lemma decode_operation_Ok e o :
  decode_operation e = Ok o ↔
  is_operation o = true ∧ len (operation_body o) ≤ MAX_VALUE_BODY_BYTES ∧
  e = value_layout VT_Operation (operation_body o).
Proof.
  unfold decode_operation. split.
  - intros Hd. invert_ok. destruct a as [tag body]. apply ValueCodec_decode_body_Ok in Ha as [-> Hl].
    case_bool_decide; [|done]. subst. cbn [negb] in Hd. pose proof (len_nonneg body).
    assert (len body ≤ USIZE_MAX) by (unfold MAX_VALUE_BODY_BYTES, USIZE_MAX, U64_MAX in *; lia).
    destruct (Z.eqb_spec (len body) 0); [done|].
    assert (is_operation o = true ∧ body = operation_body o) as [Ho ->]; [|done].
    destruct (Z.eqb_spec (byte_at body 0) MARKER_KIND).
    { apply fmap_Ok in Hd as (a & Hd & <-).
      destruct (proj1 (decode_marker_Ok body a)) as (? & ? & ?); done. }
    destruct (Z.eqb_spec (byte_at body 0) RECEIPT_KIND), (Z.eqb_spec (byte_at body 0) DEFINED_RECEIPT_KIND);
      cbn [orb] in Hd.
    1-3: apply fmap_Ok in Hd as (r & Hd & <-); apply receipt_body_Ok; [done|];
      split_and!; [lia|auto|done].
    destruct (Z.eqb_spec (byte_at body 0) WATERMARK_KIND); [|done].
    apply fmap_Ok in Hd as (a & Hd & <-).
    destruct (proj1 (decode_watermark_Ok body a)) as (? & ? & ?); done.
  - intros (Ho & Hl & ->). rewrite (proj2 (ValueCodec_decode_body_Ok _ _ _) (conj eq_refl Hl)).
    cbn [mbind result_bind]. rewrite bool_decide_true by done. cbn [negb].
    assert (len (operation_body o) ≤ USIZE_MAX)
      by (unfold MAX_VALUE_BODY_BYTES, USIZE_MAX, U64_MAX in *; lia).
    assert (len (operation_body o) ≠ 0) as Hnz.
    { destruct o as [[? ? []]|]; cbn [operation_body lo_operation_id];
        rewrite len_app, len_to_be_bytes; match goal with |- _ + len ?l ≠ _ => pose proof (len_nonneg l) end; lia. }
    rewrite (proj2 (Z.eqb_neq _ _) Hnz).
    destruct o as [a|r].
    + destruct (lo_operation_id a) as [op|] eqn:Hop.
      * destruct (proj2 (decode_marker_Ok (operation_body (DO_Live a)) a)) as [Hd Hb]; [naive_solver|].
        by rewrite Hb, Hd.
      * destruct (proj2 (decode_watermark_Ok (operation_body (DO_Live a)) a)) as [Hd Hb]; [naive_solver|].
        by rewrite Hb, Hd.
    + destruct (proj2 (receipt_body_Ok (operation_body (DO_Receipt r)) r ltac:(done))) as (_ & Hk & Hd); [done|].
      destruct Hk as [Hk|Hk]; rewrite Hk in *; cbn [Z.eqb MARKER_KIND RECEIPT_KIND DEFINED_RECEIPT_KIND orb]; by rewrite Hd.
Qed.

Lemma encode_operation_receipt_body r :
  is_receipt r = true →
  encode_operation_receipt r = ValueCodec_encode VT_Operation (operation_body (DO_Receipt r)).
Proof.
  intros Hr. unfold is_receipt in Hr. split_andb. unfold encode_operation_receipt.
  rewrite Writer_bytes_Ok by (by eapply (is_text_framed MAX_NAME_BYTES)). cbn [mbind result_bind].
  rewrite Writer_bytes_Ok by (by eapply (is_text_framed MAX_NAME_BYTES)). cbn [mbind result_bind].
  rewrite Writer_bytes_Ok by (by apply is_outcome_code_framed). cbn [mbind result_bind].
  f_equal. cbn [operation_body]. unfold receipt_layout, receipt_kind.
  unfold Writer_fixed, Writer_u8, Writer_u32, Writer_u64, Writer_i64.
  destruct (or_definition_digest r); cbn [default]; rewrite ?app_nil_r; by rewrite <- !app_assoc.
Qed.

Lemma encode_operation_Ok o e :
  is_operation o = true →
  encode_operation o = Ok e ↔
  len (operation_body o) ≤ MAX_VALUE_BODY_BYTES ∧ e = value_layout VT_Operation (operation_body o).
Proof.
  intros Ho. assert (encode_operation o = ValueCodec_encode VT_Operation (operation_body o)) as ->.
  { destruct o as [a|r]; cbn; [|by apply encode_operation_receipt_body].
    unfold encode_operation_marker, encode_operation_watermark.
    destruct (lo_operation_id a); by rewrite <- !app_assoc. }
  rewrite ValueCodec_encode_Ok. tauto.
Qed.

(** ** Properties *)

(** C35: markers, watermarks and receipts share one key and one envelope tag but
    never confuse: a typed operation value encodes to [e] exactly when [e]
    decodes to that same value, with its kind, its optional operation
    identifier and its optional definition digest. *)
Theorem operation_roundtrip o e :
  is_operation o = true ∧ encode_operation o = Ok e ↔ decode_operation e = Ok o.
Proof.
  rewrite decode_operation_Ok. split.
  - intros [Ho He]. by apply encode_operation_Ok in He.
  - intros (Ho & Hl & ->). split; [done|]. by apply encode_operation_Ok.
Qed.
