(* ===== verification/Keyspace.v ===== *)
(** * Key space

    [crates/bg-jobs/src/keys/keyspace.rs]: the keys and the small values of
    every record the engine persists (jobs, payload chunks, the due and fair
    indexes, leases, permits, deduplication, wake, operation, cancellation and
    dead-letter entries). *)

From Stdlib Require Strings.String.
From S2P Require Import Prelude Errors Ids Clock Policy JobRecord Wire KeyCodec ValueCodec JobCodec.
From S2P Require Import JobRoundtrip OperationCodec.

(** A byte-string literal [b"..."]. *)
Definition ascii (s : string) : bytes := String.list_byte_of_string s.

Definition MAX_DURABLE_PERMIT_SLOTS : Z := 1024.

(** ** Keys *)

Definition job_key (namespace : Namespace) (job_id : JobId) : result StoreDataError StoreKey :=
  KeyCodec_job namespace job_id.

Definition payload_key (namespace : Namespace) (job_id : JobId) (index : Z)
    : result StoreDataError StoreKey :=
  KeyCodec_encode namespace KT_PayloadChunk [job_id; u32_bytes index].

Definition due_key (namespace : Namespace) (queue : QueueName) (scheduled_at : Timestamp)
    (job_id : JobId) : result StoreDataError StoreKey :=
  KeyCodec_encode namespace KT_Due [queue; i64_bytes scheduled_at; job_id].

Definition fair_key (namespace : Namespace) (queue : QueueName) (job_id : JobId)
    : result StoreDataError StoreKey :=
  KeyCodec_encode namespace KT_FairReady [queue; job_id].

Definition fair_state_key (namespace : Namespace) : result StoreDataError StoreKey :=
  KeyCodec_encode namespace KT_FairReady [ascii "dispatch-state"].

Definition lease_key (namespace : Namespace) (queue : QueueName) (job_id : JobId)
    : result StoreDataError StoreKey :=
  KeyCodec_encode namespace KT_Lease [queue; job_id].

Definition lease_queue_prefix (namespace : Namespace) (queue : QueueName)
    : result StoreDataError StoreKey :=
  KeyCodec_encode namespace KT_Lease [queue].

Definition dedupe_key (namespace : Namespace) (key : DeduplicationKey)
    : result StoreDataError StoreKey :=
  KeyCodec_encode namespace KT_Dedupe [key].

Definition wake_key (namespace : Namespace) (queue : QueueName) : result StoreDataError StoreKey :=
  KeyCodec_encode namespace KT_Wake [queue].

Definition operation_key (namespace : Namespace) (job_id : JobId) : result StoreDataError StoreKey :=
  KeyCodec_encode namespace KT_Operation [job_id].

Definition cancellation_key (namespace : Namespace) (job_id : JobId)
    : result StoreDataError StoreKey :=
  KeyCodec_encode namespace KT_Cancellation [job_id].

Definition dead_letter_key (namespace : Namespace) (queue : QueueName) (job_id : JobId)
    : result StoreDataError StoreKey :=
  KeyCodec_encode namespace KT_DeadLetter [queue; job_id].

Definition due_prefix (namespace : Namespace) : result StoreDataError StoreKey :=
  KeyCodec_encode namespace KT_Due [].

Definition due_queue_prefix (namespace : Namespace) (queue : QueueName)
    : result StoreDataError StoreKey :=
  KeyCodec_encode namespace KT_Due [queue].

(** ** Permits *)

Definition ordering_permit_key (namespace : Namespace) (queue : bytes) (ordering : OrderingKey)
    : result StoreDataError StoreKey :=
  KeyCodec_encode namespace KT_Permit [ascii "ordering"; queue; ordering; u32_bytes 0].

Definition permit_keys_for_slot (namespace : Namespace) (record : JobRecordV1) (slot : Z)
    : result StoreDataError (list StoreKey) :=
  let slot := u32_bytes slot in
  let queue := jr_queue record in
  keys ← match jr_fairness record with
         | FC_LowVolume => Ok []
         | FC_Scoped path =>
             primary ← KeyCodec_encode namespace KT_Permit
                         [ascii "scope"; ascii "primary"; queue; fp_primary path; slot];
             match fp_secondary path with
             | Some secondary =>
                 secondary ← KeyCodec_encode namespace KT_Permit
                   [ascii "scope"; ascii "secondary"; queue; fp_primary path; secondary; slot];
                 Ok [primary; secondary]
             | None => Ok [primary]
             end
         end;
  match jr_ordering_key record with
  | Some ordering =>
      ordering ← ordering_permit_key namespace queue ordering;
      Ok (keys ++ [ordering])
  | None => Ok keys
  end.

(** [Iterator::map(f).collect::<Result<Vec<_>, _>>()]. *)
Fixpoint try_map {E A B} (f : A → result E B) (l : list A) : result E (list B) :=
  match l with
  | [] => Ok []
  | a :: l => b ← f a; bs ← try_map f l; Ok (b :: bs)
  end.

(** [0..n]. *)
Definition range (n : Z) : list Z := Z.of_nat <$> seq 0 (Z.to_nat n).

Definition permit_key_sets (namespace : Namespace) (record : JobRecordV1) (capacity : Z)
    : result StoreDataError (list (list StoreKey)) :=
  if MAX_DURABLE_PERMIT_SLOTS <? capacity
  then Err (SDE_InvalidLength "durable permit slots" capacity MAX_DURABLE_PERMIT_SLOTS)
  else try_map (permit_keys_for_slot namespace record) (range capacity).

Definition permit_value_for_record (record : JobRecordV1) : result StoreDataError bytes :=
  match jr_state record with
  | Leased lease =>
      let body := jr_job_id record in
      let body := body ++ u32_bytes (jr_generation record) in
      let body := body ++ ls_owner lease in
      let body := body ++ ls_token lease in
      let body := body ++ u64_bytes (ls_fence lease) in
      ValueCodec_encode VT_Permit body
  | _ => Err (SDE_Malformed "permit requires leased record")
  end.

Definition permit_value_matches_record (encoded : bytes) (record : JobRecordV1)
    : result StoreDataError bool :=
  '(tag, body) ← ValueCodec_decode_body encoded;
  match jr_state record with
  | Leased lease =>
      if negb (bool_decide (tag = VT_Permit)) || negb (len body =? 60) then Ok false
      else
        Ok (bytes_eqb (slice body 0 16) (jr_job_id record)
            && bytes_eqb (slice body 16 20) (u32_bytes (jr_generation record))
            && bytes_eqb (slice body 20 36) (ls_owner lease)
            && bytes_eqb (slice body 36 52) (ls_token lease)
            && bytes_eqb (slice body 52 60) (u64_bytes (ls_fence lease)))
  | _ => Ok false
  end.

(** ** Operation values *)

Definition operation_value (job_id : JobId) (operation_id : OperationId) (fence_high_water : Z)
    : result StoreDataError bytes :=
  encode_operation_marker job_id operation_id fence_high_water.

Definition operation_watermark_value (job_id : JobId) (fence_high_water : Z)
    : result StoreDataError bytes :=
  encode_operation_watermark job_id fence_high_water.

Definition operation_receipt_value (receipt : OperationReceipt) : result StoreDataError bytes :=
  encode_operation_receipt receipt.

Definition decode_operation_authority (encoded : bytes) (expected_job_id : JobId)
    : result StoreDataError LiveOperationAuthority :=
  operation ← decode_operation encoded;
  match operation with
  | DO_Live authority =>
      if LiveOperationAuthority_matches_job authority expected_job_id then Ok authority
      else Err (SDE_Malformed "operation job identity")
  | DO_Receipt _ => Err (SDE_Malformed "operation marker")
  end.

Definition decode_active_operation (encoded : bytes) (expected_job_id : JobId)
    : result StoreDataError (OperationId * Z) :=
  authority ← decode_operation_authority encoded expected_job_id;
  operation ← ok_or (SDE_Malformed "operation marker") (lo_operation_id authority);
  Ok (operation, lo_fence_high_water authority).

Definition decode_operation_fence_high_water (encoded : bytes) (expected_job_id : JobId)
    : result StoreDataError Z :=
  operation ← decode_operation encoded;
  match operation with
  | DO_Live authority =>
      if LiveOperationAuthority_matches_job authority expected_job_id
      then Ok (lo_fence_high_water authority)
      else Err (SDE_Malformed "operation job identity")
  | DO_Receipt receipt =>
      if bytes_eqb (or_job_id receipt) expected_job_id then Ok (or_fence receipt)
      else Err (SDE_Malformed "operation job identity")
  end.

(** ** Index and marker values *)

Definition cancellation_value : result StoreDataError bytes := ValueCodec_encode VT_Cancellation [].
Definition dead_letter_value (job_id : JobId) : result StoreDataError bytes :=
  ValueCodec_encode VT_DeadLetter job_id.
Definition due_value (timestamp : Timestamp) : result StoreDataError bytes :=
  ValueCodec_encode VT_Due (i64_bytes timestamp).
Definition fair_value (job_id : JobId) : result StoreDataError bytes :=
  ValueCodec_encode VT_FairReady job_id.
Definition lease_value (job_id : JobId) : result StoreDataError bytes :=
  ValueCodec_encode VT_Lease job_id.
Definition wake_value (timestamp : Timestamp) : result StoreDataError bytes :=
  ValueCodec_encode VT_Wake (i64_bytes timestamp).

Definition dedupe_value (job_id : JobId) (retain_until : Timestamp) : result StoreDataError bytes :=
  let body := job_id in
  let body := body ++ i64_bytes retain_until in
  ValueCodec_encode VT_Dedupe body.

Definition decode_dedupe_value (encoded : bytes) : result StoreDataError (JobId * Timestamp) :=
  '(tag, body) ← ValueCodec_decode_body encoded;
  if negb (bool_decide (tag = VT_Dedupe)) || negb (len body =? 16 + 8)
  then Err (SDE_Malformed "dedupe marker")
  else
    job_id ← ident (fixed_try_from_slice "job ID" (slice body 0 16));
    Ok (job_id, from_be_i64 (slice body 16 (len body))).

Definition validate_job_marker (encoded : bytes) (expected_tag : ValueTag) (expected_job_id : JobId)
    : result StoreDataError unit :=
  '(tag, body) ← ValueCodec_decode_body encoded;
  if negb (bool_decide (tag = expected_tag)) || negb (bytes_eqb body expected_job_id)
  then Err (SDE_Malformed "job marker") else Ok tt.

Definition validate_empty_marker (encoded : bytes) (expected_tag : ValueTag)
    : result StoreDataError unit :=
  '(tag, body) ← ValueCodec_decode_body encoded;
  if negb (bool_decide (tag = expected_tag)) || negb (len body =? 0)
  then Err (SDE_Malformed "empty marker") else Ok tt.

Definition decode_timestamp_value (encoded : bytes) (expected : ValueTag)
    : result StoreDataError Timestamp :=
  ValueCodec_decode_timestamp encoded expected.

(** ** Due keys *)

Record DecodedDueKey : Type := mkDecodedDueKey {
  dk_queue : QueueName;
  dk_when : Timestamp;
  dk_job_id : JobId;
}.

Definition decode_due_key (namespace : Namespace) (key : StoreKey)
    : result StoreDataError (option DecodedDueKey) :=
  '(tag, components) ← KeyCodec_decode_borrowed namespace key;
  if negb (bool_decide (tag = KT_Due)) then Ok None
  else
    match components with
    | [queue_bytes; timestamp_bytes; job_bytes] =>
        if negb (is_str queue_bytes) then Err (SDE_Malformed "due queue")
        else if (len queue_bytes =? 0) || (MAX_NAME_BYTES <? len queue_bytes)
                || existsb char_is_control (str_chars queue_bytes)
        then Err (SDE_Malformed "due queue")
        else if negb (len timestamp_bytes =? 8) then Err (SDE_Malformed "due timestamp")
        else
          let timestamp := from_be_i64 timestamp_bytes in
          job_id ← map_err (λ _, SDE_Malformed "due job ID")
                     (fixed_try_from_slice "job ID" job_bytes);
          Ok (Some (mkDecodedDueKey queue_bytes timestamp job_id))
    | _ => Err (SDE_Malformed "due key")
    end.

(** ** Totality: components of the typed identifiers always fit *)

Definition small (c : bytes) : Prop := len c ≤ 4096.

Lemma len_components_layout_small cs :
  Forall small cs → len (components_layout cs) ≤ 4100 * len cs.
Proof.
  unfold small. induction 1 as [|c cs Hc _ IH]; [done|].
  rewrite components_layout_cons, len_app, len_framed, len_cons. lia.
Qed.

Lemma KeyCodec_encode_small ns tag cs :
  is_opaque MAX_NAMESPACE_BYTES ns = true → Forall small cs → len cs ≤ MAX_COMPONENTS →
  KeyCodec_encode ns tag cs = Ok (key_layout ns tag cs).
Proof.
  intros Hn%is_opaque_len Hs Hc. apply KeyCodec_encode_Ok. split; [done|].
  pose proof (len_components_layout_small cs Hs).
  unfold MAX_NAMESPACE_BYTES, MAX_COMPONENTS in *. split.
  - done.
  - eapply Forall_impl; [done|]. unfold small, U32_MAX. intros. lia.
  - unfold U32_MAX. lia.
  - rewrite key_layout_header, len_app, len_key_header. unfold USIZE_MAX, U64_MAX. lia.
Qed.

Lemma small_fixed_id bs : is_fixed_id bs = true → small bs.
Proof. intros ?%is_fixed_id_len. unfold small. lia. Qed.
Lemma small_text bs : is_text MAX_NAME_BYTES bs = true → small bs.
Proof. intros ?%is_text_len. unfold small, MAX_NAME_BYTES in *. lia. Qed.
Lemma small_fairness bs : is_opaque MAX_FAIRNESS_KEY_BYTES bs = true → small bs.
Proof. intros ?%is_opaque_len. unfold small, MAX_FAIRNESS_KEY_BYTES in *. lia. Qed.
Lemma small_ordering bs : is_opaque MAX_ORDERING_KEY_BYTES bs = true → small bs.
Proof. intros ?%is_opaque_len. unfold small, MAX_ORDERING_KEY_BYTES in *. lia. Qed.
Lemma small_dedupe bs : is_opaque MAX_DEDUPE_KEY_BYTES bs = true → small bs.
Proof. intros ?%is_opaque_len. unfold small, MAX_DEDUPE_KEY_BYTES in *. lia. Qed.
Lemma small_be n z : (n ≤ 64)%nat → small (to_be_bytes n z).
Proof. intros. unfold small. rewrite len_to_be_bytes. lia. Qed.

Create HintDb small.
#[export] Hint Resolve small_fixed_id small_text small_fairness small_ordering small_dedupe : small.
#[export] Hint Extern 1 (small (ascii _)) => (unfold small; vm_compute; congruence) : small.
#[export] Hint Extern 1 (small (u32_bytes _)) => (apply small_be; lia) : small.
#[export] Hint Extern 1 (small (i64_bytes _)) => (apply small_be; lia) : small.

(** Discharges the side conditions of [KeyCodec_encode_small]. *)
Ltac small_key :=
  rewrite KeyCodec_encode_small by
    (done || (repeat first [apply Forall_nil; exact I|apply Forall_cons; split; [eauto with small|]]; done)
     || (unfold MAX_COMPONENTS; rewrite ?len_cons, ?len_nil; lia)).

Lemma due_key_layout ns q t j :
  is_opaque MAX_NAMESPACE_BYTES ns = true → is_text MAX_NAME_BYTES q = true → is_fixed_id j = true →
  due_key ns q t j = Ok (key_layout ns KT_Due [q; i64_bytes t; j]).
Proof. intros. unfold due_key. by small_key. Qed.

(** ** The due index is in schedule order *)

Lemma components_layout_3 a b c :
  components_layout [a; b; c] = framed a ++ framed b ++ framed c.
Proof. unfold components_layout. cbn. by rewrite app_nil_r. Qed.

Lemma framed_same_len a b tl tl' :
  length a = length b → 
  bytes_ltb (framed a ++ tl) (framed b ++ tl') = bytes_ltb (a ++ tl) (b ++ tl').
Proof.
  intros Hl. unfold framed. rewrite <- !app_assoc.
  replace (len b) with (len a) by (unfold len; lia). apply bytes_ltb_app_l.
Qed.

Lemma bytes_ltb_app_ne a b tl tl' :
  length a = length b → a ≠ b → bytes_ltb (a ++ tl) (b ++ tl') = bytes_ltb a b.
Proof.
  intros Hl Hne. destruct (bytes_ltb_total a b) as [H|[->|H]]; [|done|].
  - rewrite H. by apply bytes_ltb_app_r.
  - rewrite (bytes_ltb_asym b a) by done. apply bytes_ltb_asym. by apply bytes_ltb_app_r.
Qed.

Lemma due_key_order_raw ns q t t' j j' :
  is_fixed_id j = true → is_fixed_id j' = true →
  bytes_ltb (key_layout ns KT_Due [q; i64_bytes t; j]) (key_layout ns KT_Due [q; i64_bytes t'; j'])
  = if decide (i64_bytes t = i64_bytes t') then bytes_ltb j j'
    else bytes_ltb (i64_bytes t) (i64_bytes t').
Proof.
  intros Hj%is_fixed_id_len Hj'%is_fixed_id_len.
  rewrite !key_layout_header, bytes_ltb_app_l, !components_layout_3, bytes_ltb_app_l.
  rewrite framed_same_len by (unfold i64_bytes; by rewrite !length_to_be_bytes).
  case_decide as Ht.
  - rewrite Ht, bytes_ltb_app_l. rewrite <- (app_nil_r (framed j)), <- (app_nil_r (framed j')).
    rewrite framed_same_len by (unfold len in *; lia). by rewrite !app_nil_r.
  - apply bytes_ltb_app_ne; [|done]. unfold i64_bytes. by rewrite !length_to_be_bytes.
Qed.

(** ** Permits *)

Lemma try_map_Ok {E A B} (f : A → result E B) l bs :
  try_map f l = Ok bs ↔ Forall2 (λ a b, f a = Ok b) l bs.
Proof.
  revert bs. induction l as [|a l IH]; intros bs; cbn [try_map].
  - split; [by intros [= <-]|by intros ->%Forall2_nil_inv_l].
  - split.
    + intros H. invert_ok. constructor; [done|by apply IH].
    + intros (b & bs' & Hb & Hbs & ->)%Forall2_cons_inv_l. rewrite Hb. cbn.
      by rewrite (proj2 (IH bs') Hbs).
Qed.

(** The scope permits of one slot; the ordering permit is the same in every
    slot. *)
Definition scope_permit_keys (ns : Namespace) (r : JobRecordV1) (slot : Z) : list StoreKey :=
  match jr_fairness r with
  | FC_LowVolume => []
  | FC_Scoped path =>
      key_layout ns KT_Permit [ascii "scope"; ascii "primary"; jr_queue r; fp_primary path; u32_bytes slot]
      :: match fp_secondary path with
         | Some secondary =>
             [key_layout ns KT_Permit [ascii "scope"; ascii "secondary"; jr_queue r; fp_primary path;
                                       secondary; u32_bytes slot]]
         | None => []
         end
  end.
Definition ordering_permit_keys (ns : Namespace) (r : JobRecordV1) : list StoreKey :=
  match jr_ordering_key r with
  | Some ordering =>
      [key_layout ns KT_Permit [ascii "ordering"; jr_queue r; ordering; u32_bytes 0]]
  | None => []
  end.

(** The fields of a record that its permit keys are made of. *)
Definition permit_record (r : JobRecordV1) : Prop :=
  is_text MAX_NAME_BYTES (jr_queue r) = true ∧ is_fairness_class (jr_fairness r) = true
  ∧ is_option (is_opaque MAX_ORDERING_KEY_BYTES) (jr_ordering_key r) = true.

Lemma permit_keys_for_slot_Ok ns r slot :
  is_opaque MAX_NAMESPACE_BYTES ns = true → permit_record r →
  permit_keys_for_slot ns r slot = Ok (scope_permit_keys ns r slot ++ ordering_permit_keys ns r).
Proof.
  intros Hn (Hq & Hf & Ho). unfold permit_keys_for_slot, scope_permit_keys, ordering_permit_keys,
    ordering_permit_key.
  destruct (jr_fairness r) as [[p [s|]]|]; cbn in Hf; unfold is_fairness_path in Hf; cbn in Hf;
    split_andb; cbn [fp_primary fp_secondary]; repeat (small_key; cbn [mbind result_bind]);
    destruct (jr_ordering_key r); cbn in Ho; repeat (small_key; cbn [mbind result_bind]); done.
Qed.

Lemma key_layout_small_inj ns tag cs ns' tag' cs' :
  is_opaque MAX_NAMESPACE_BYTES ns = true → is_opaque MAX_NAMESPACE_BYTES ns' = true →
  Forall small cs → Forall small cs' → len cs ≤ MAX_COMPONENTS → len cs' ≤ MAX_COMPONENTS →
  key_layout ns tag cs = key_layout ns' tag' cs' → ns = ns' ∧ tag = tag' ∧ cs = cs'.
Proof.
  intros Hn Hn' Hs Hs' Hc Hc' He.
  pose proof (KeyCodec_encode_small ns tag cs Hn Hs Hc) as H1%KeyCodec_encode_Ok.
  pose proof (KeyCodec_encode_small ns' tag' cs' Hn' Hs' Hc') as H2%KeyCodec_encode_Ok.
  apply key_layout_inj; [apply H1|apply H2|done].
Qed.

Lemma u32_bytes_inj a b : is_u32 a = true → is_u32 b = true → u32_bytes a = u32_bytes b → a = b.
Proof.
  intros Ha Hb He%(f_equal from_be_unsigned). unfold u32_bytes in He. ranges.
  by rewrite !from_be_unsigned_exact in He by (cbn; lia).
Qed.

Ltac small_list := repeat first [apply Forall_nil; exact I|apply Forall_cons; split; [eauto with small|]].
Ltac small_count := unfold MAX_COMPONENTS; rewrite ?len_cons, ?len_nil; lia.

(** A scope permit of one slot is a permit of no other slot, and no ordering
    permit. *)
Lemma scope_permit_slot ns r slot slot' k :
  is_opaque MAX_NAMESPACE_BYTES ns = true → permit_record r → is_u32 slot = true → is_u32 slot' = true →
  k ∈ scope_permit_keys ns r slot → k ∈ scope_permit_keys ns r slot' → slot = slot'.
Proof.
  intros Hn (Hq & Hf & _) Hs Hs'. unfold scope_permit_keys.
  destruct (jr_fairness r) as [[p o]|]; [|set_solver]. cbn in Hf. unfold is_fairness_path in Hf.
  cbn in Hf. split_andb. cbn [fp_primary fp_secondary].
  destruct o as [s|]; cbn in Hf; rewrite !elem_of_cons, !elem_of_nil.
  all: intros Hk Hk'; destruct_or?; subst; try done.
  all: match goal with H : key_layout _ _ _ = key_layout _ _ _ |- _ =>
    apply key_layout_small_inj in H as (_ & _ & H); [|done|done|small_list|small_list|small_count|small_count] end.
  all: first [by apply u32_bytes_inj; [..|congruence]|discriminate].
Qed.

Lemma permit_record_typed r : is_job_record r = true → permit_record r.
Proof. unfold is_job_record. intros. split_andb. by split_and!. Qed.

Lemma range_lookup n i : 0 ≤ n → range n !! i = if (decide (Z.of_nat i < n)) then Some (Z.of_nat i) else None.
Proof.
  intros Hn. unfold range. rewrite list_lookup_fmap. case_decide.
  - rewrite lookup_seq_lt by lia. done.
  - rewrite lookup_seq_ge by lia. done.
Qed.

Lemma permit_key_sets_Ok ns r cap sets :
  is_opaque MAX_NAMESPACE_BYTES ns = true → permit_record r → 0 ≤ cap →
  permit_key_sets ns r cap = Ok sets ↔
  cap ≤ MAX_DURABLE_PERMIT_SLOTS ∧
  sets = (λ slot, scope_permit_keys ns r slot ++ ordering_permit_keys ns r) <$> range cap.
Proof.
  intros Hn Hr Hc. unfold permit_key_sets.
  destruct (Z.ltb_spec MAX_DURABLE_PERMIT_SLOTS cap); [split; [done|lia]|].
  rewrite try_map_Ok. split.
  - intros Hs. split; [done|]. induction Hs as [|slot keys slots sets Hk _ IH]; [done|].
    rewrite permit_keys_for_slot_Ok in Hk by done. cbn. congruence.
  - intros [_ ->]. induction (range cap); [constructor|]. constructor; [|done].
    by apply permit_keys_for_slot_Ok.
Qed.

(** The queue name test of [decode_due_key] is that of [QueueName::try_new]. *)
Lemma due_queue_check q :
  is_str q = true →
  ((len q =? 0) || (MAX_NAME_BYTES <? len q) || existsb char_is_control (str_chars q))
  = negb (is_text MAX_NAME_BYTES q).
Proof.
  intros Hs. unfold is_text, is_opaque. rewrite Hs, andb_true_r, existsb_forallb_negb.
  pose proof (len_nonneg q).
  destruct (Z.eqb_spec (len q) 0), (Z.ltb_spec MAX_NAME_BYTES (len q)), (Z.ltb_spec 0 (len q)),
    (Z.leb_spec (len q) MAX_NAME_BYTES), (forallb _ _); cbn; done || lia.
Qed.

(** ** Lease authority of permits *)

Lemma slices_5 body (a b c d e : bytes) :
  len a = 16 → len b = 4 → len c = 16 → len d = 16 → len e = 8 →
  body = a ++ b ++ c ++ d ++ e ↔
  len body = 60 ∧ slice body 0 16 = a ∧ slice body 16 20 = b ∧ slice body 20 36 = c ∧
  slice body 36 52 = d ∧ slice body 52 60 = e.
Proof.
  intros Ha Hb Hc Hd He. split.
  - intros Hbody. assert (len body = 60) as Hl by (rewrite Hbody, !len_app; lia). split; [done|].
    assert (drop (Z.to_nat 0) body = a ++ b ++ c ++ d ++ e ++ []) as Hd0 by by rewrite app_nil_r.
    apply drop_slice in Hd0 as [H1 Hd0]; [|lia]. apply drop_slice in Hd0 as [H2 Hd0]; [|lia].
    apply drop_slice in Hd0 as [H3 Hd0]; [|lia]. apply drop_slice in Hd0 as [H4 Hd0]; [|lia].
    apply drop_slice in Hd0 as [H5 _]; [|lia]. rewrite Ha, Hb, Hc, Hd, He in *. done.
  - intros (Hl & <- & <- & <- & <- & <-). rewrite <- Hl at 1. rewrite slice_to_end, <- !slice_drop by lia.
    by rewrite drop_0.
Qed.

Lemma permit_body_len r l :
  is_job_record r = true → jr_state r = Leased l →
  is_fixed_id (jr_job_id r) = true ∧ is_fixed_id (ls_owner l) = true ∧ is_fixed_id (ls_token l) = true.
Proof.
  unfold is_job_record. intros Hr Hs. split_andb. rewrite Hs in *. cbn in *.
  unfold is_lease in *. by split_andb.
Qed.

(** ** Properties *)

(** C37: for jobs of one queue scheduled at non-negative times, the byte order
    of their due keys is the order of their times, ties broken by job
    identifier: a forward scan of the due index visits jobs in schedule
    order. *)
Theorem due_key_order ns q t t' j j' k k' :
  is_opaque MAX_NAMESPACE_BYTES ns = true → is_text MAX_NAME_BYTES q = true →
  is_fixed_id j = true → is_fixed_id j' = true → 0 ≤ t ≤ I64_MAX → 0 ≤ t' ≤ I64_MAX →
  due_key ns q t j = Ok k → due_key ns q t' j' = Ok k' →
  bytes_ltb k k' = true ↔ t < t' ∨ (t = t' ∧ bytes_ltb j j' = true).
Proof.
  intros Hn Hq Hj Hj' Ht Ht'. rewrite !due_key_layout by done. intros [= <-] [= <-].
  rewrite due_key_order_raw by done. unfold I64_MAX in *. case_decide as He.
  - apply (f_equal from_be_unsigned) in He. unfold i64_bytes in He.
    rewrite !from_be_unsigned_exact in He by (cbn; lia). subst. naive_solver lia.
  - unfold i64_bytes in *. rewrite bytes_ltb_be, Z.ltb_lt by (cbn; lia).
    split; [auto|]. intros [?|[-> _]]; [done|]. by destruct He.
Qed.

Lemma due_key_order_witness :
  bytes_ltb (key_layout Sample.name KT_Due [Sample.name; i64_bytes 5; Sample.id16 9])
            (key_layout Sample.name KT_Due [Sample.name; i64_bytes 700; Sample.id16 1]) = true.
Proof.
  apply (due_key_order Sample.name Sample.name 5 700 (Sample.id16 9) (Sample.id16 1));
    [reflexivity..|unfold I64_MAX; lia|unfold I64_MAX; lia|reflexivity|reflexivity|lia].
Defined.

(** a job scheduled before the epoch sorts after every job of its queue
    scheduled at a non-negative time, although it is due earlier: the due
    index encodes the signed time in two's complement without flipping the
    sign bit. *)
Theorem due_key_negative_last ns q t t' j j' k k' :
  is_opaque MAX_NAMESPACE_BYTES ns = true → is_text MAX_NAME_BYTES q = true →
  is_fixed_id j = true → is_fixed_id j' = true → I64_MIN ≤ t < 0 → 0 ≤ t' ≤ I64_MAX →
  due_key ns q t j = Ok k → due_key ns q t' j' = Ok k' → bytes_ltb k' k = true.
Proof.
  intros Hn Hq Hj Hj' Ht Ht'. rewrite !due_key_layout by done. intros [= <-] [= <-].
  rewrite due_key_order_raw by done. unfold I64_MAX, I64_MIN in *.
  assert (from_be_unsigned (i64_bytes t) = t + 18446744073709551616) as Hu.
  { unfold i64_bytes. rewrite from_to_be_bytes. symmetry.
    apply (Z.mod_unique _ _ (-1)); cbn; lia. }
  assert (from_be_unsigned (i64_bytes t') = t') as Hu'.
  { unfold i64_bytes. apply from_be_unsigned_exact. cbn. lia. }
  case_decide as He; [apply (f_equal from_be_unsigned) in He; lia|].
  rewrite bytes_ltb_unsigned by (unfold i64_bytes; by rewrite !length_to_be_bytes).
  rewrite Hu, Hu'. apply Z.ltb_lt. lia.
Qed.

Lemma due_key_negative_last_witness :
  bytes_ltb (key_layout Sample.name KT_Due [Sample.name; i64_bytes 700; Sample.id16 1])
            (key_layout Sample.name KT_Due [Sample.name; i64_bytes (-1); Sample.id16 9]) = true.
Proof.
  apply (due_key_negative_last Sample.name Sample.name (-1) 700 (Sample.id16 9) (Sample.id16 1));
    [reflexivity..|unfold I64_MIN; lia|unfold I64_MAX; lia|reflexivity|reflexivity].
Defined.

Lemma due_key_decodes ns q t j :
  is_opaque MAX_NAMESPACE_BYTES ns = true → is_text MAX_NAME_BYTES q = true → is_i64 t = true → is_fixed_id j = true →
  len (key_layout ns KT_Due [q; i64_bytes t; j]) ≤ USIZE_MAX →
  decode_due_key ns (key_layout ns KT_Due [q; i64_bytes t; j]) = Ok (Some (mkDecodedDueKey q t j)).
Proof.
  intros Hn Hq Ht Hj Hl. assert (len ns ≤ U32_MAX) as Hns.
  { apply is_opaque_len in Hn. unfold MAX_NAMESPACE_BYTES, U32_MAX in *. lia. }
  unfold decode_due_key. rewrite (proj2 (KeyCodec_decode_Ok ns _ KT_Due [q; i64_bytes t; j] Hns Hl)); last first.
  { by apply KeyCodec_encode_Ok, due_key_layout. }
  cbn [mbind result_bind]. rewrite bool_decide_true by done. cbn [negb].
  rewrite (is_text_is_str _ _ Hq), due_queue_check, Hq by eauto with bgjobs. cbn [negb].
  unfold i64_bytes at 1. rewrite len_to_be_bytes. cbn [Z.eqb Z.of_nat negb].
  rewrite fixed_try_from_slice_id by done. cbn. by rewrite from_be_i64_exact.
Qed.

(** C38: [decode_due_key] inverts [due_key]: a key decodes to a due entry exactly
    when it is the due key of a valid queue name, an [i64] time and a job
    identifier, and these are what is returned. *)
Theorem due_key_roundtrip ns key d :
  is_opaque MAX_NAMESPACE_BYTES ns = true → len key ≤ USIZE_MAX →
  decode_due_key ns key = Ok (Some d) ↔
  due_key ns (dk_queue d) (dk_when d) (dk_job_id d) = Ok key ∧
  is_text MAX_NAME_BYTES (dk_queue d) = true ∧ is_i64 (dk_when d) = true ∧
  is_fixed_id (dk_job_id d) = true.
Proof.
  intros Hn Hl. assert (len ns ≤ U32_MAX) as Hns.
  { apply is_opaque_len in Hn. unfold MAX_NAMESPACE_BYTES, U32_MAX in *. lia. }
  unfold decode_due_key. split.
  - intros Hd. invert_ok. destruct a as [tag cs]. apply KeyCodec_decode_Ok in Ha as [-> Hf]; [|done..].
    case_bool_decide; [|done]. subst. cbn [negb] in Hd.
    destruct cs as [|q [|t [|j [|]]]]; try done.
    destruct (is_str q) eqn:Hs; [|done]. cbn [negb] in Hd.
    rewrite due_queue_check in Hd by done. destruct (is_text MAX_NAME_BYTES q) eqn:Hq; [|done].
    cbn [negb] in Hd. destruct (Z.eqb_spec (len t) 8) as [Ht|]; [|done]. cbn [negb] in Hd.
    invert_ok. apply fixed_try_from_slice_Ok in Ha as [-> Hj]. simplify_eq. cbn.
    assert (length t = 8%nat) as Ht8 by (unfold len in Ht; lia).
    rewrite due_key_layout, i64_bytes_exact by done. split_and!; try done.
    by apply from_be_i64_range.
  - destruct d as [q t j]. cbn. intros (Hk & Hq & Ht & Hj). rewrite due_key_layout in Hk by done.
    injection Hk as <-. by apply due_key_decodes.
Qed.

Lemma due_key_roundtrip_witness :
  decode_due_key Sample.name (key_layout Sample.name KT_Due [Sample.name; i64_bytes (-1); Sample.id16 9])
  = Ok (Some (mkDecodedDueKey Sample.name (-1) (Sample.id16 9))).
Proof.
  apply due_key_roundtrip; [reflexivity|vm_compute; congruence|]. split_and!; reflexivity.
Defined.

Lemma permit_matches_iff r l v encoded :
  is_job_record r = true → jr_state r = Leased l → permit_value_for_record r = Ok v →
  permit_value_matches_record encoded r = Ok true ↔ encoded = v.
Proof.
  intros Hr Hs Hv. destruct (permit_body_len r l Hr Hs) as (Hj%is_fixed_id_len & Ho%is_fixed_id_len & Ht%is_fixed_id_len).
  unfold permit_value_for_record in Hv. rewrite Hs in Hv. apply ValueCodec_encode_Ok in Hv as [-> Hl].
  rewrite <- !app_assoc in *. unfold permit_value_matches_record. rewrite Hs.
  set (body := jr_job_id r ++ u32_bytes (jr_generation r) ++ ls_owner l ++ ls_token l ++ u64_bytes (ls_fence l)) in *.
  pose proof (λ b, slices_5 b (jr_job_id r) (u32_bytes (jr_generation r)) (ls_owner l) (ls_token l)
    (u64_bytes (ls_fence l)) Hj (len_to_be_bytes 4 _) Ho Ht (len_to_be_bytes 8 _)) as Hsl.
  fold body in Hsl. split.
  - intros Hm. invert_ok. destruct a as [tag b]. apply ValueCodec_decode_body_Ok in Ha as [-> _].
    case_bool_decide; [|done]. subst. destruct (Z.eqb_spec (len b) 60); [|done]. cbn in Hm.
    injection Hm as Hm. split_andb. rewrite bytes_eqb_spec in *.
    by rewrite (proj2 (Hsl b)).
  - intros ->. rewrite (proj2 (ValueCodec_decode_body_Ok _ _ _) (conj eq_refl Hl)). cbn [mbind result_bind].
    rewrite bool_decide_true by done. cbn [negb orb].
    destruct (proj1 (Hsl body) eq_refl) as (-> & -> & -> & -> & -> & ->).
    by rewrite !bytes_eqb_refl.
Qed.

(** A stored permit belongs to the lease of a record exactly when it is byte
    for byte the permit value the record's own lease writes: recovery deletes
    a permit only for the same job, generation, owner, token and fence. *)
Theorem permit_match_exact r l v encoded :
  is_job_record r = true → jr_state r = Leased l → permit_value_for_record r = Ok v →
  permit_value_matches_record encoded r = Ok true ↔ encoded = v.
Proof. apply permit_matches_iff. Qed.

Definition sample_permit : bytes :=
  value_layout VT_Permit (Sample.id16 1 ++ u32_bytes 0 ++ Sample.id16 7 ++ Sample.id16 8 ++ u64_bytes 5).

Lemma permit_match_exact_witness :
  permit_value_matches_record sample_permit Sample.record = Ok true.
Proof. apply (permit_match_exact Sample.record Sample.lease sample_permit); reflexivity. Defined.

(** An ordering key is an exclusion lock: any permit set of a record shares
    its ordering permit with any permit set of any record of the same queue
    and ordering key, whatever the slots and capacities, so two such claims
    cannot both create their permits. *)
Theorem ordering_permit_excludes ns r r' o cap cap' sets sets' a b :
  is_opaque MAX_NAMESPACE_BYTES ns = true → is_job_record r = true → is_job_record r' = true →
  0 ≤ cap → 0 ≤ cap' →
  jr_queue r = jr_queue r' → jr_ordering_key r = Some o → jr_ordering_key r' = Some o →
  permit_key_sets ns r cap = Ok sets → permit_key_sets ns r' cap' = Ok sets' →
  a ∈ sets → b ∈ sets' → ∃ k, k ∈ a ∧ k ∈ b.
Proof.
  intros Hn Hr%permit_record_typed Hr'%permit_record_typed Hc Hc' Hq Ho Ho'.
  rewrite !permit_key_sets_Ok by done. intros [_ ->] [_ ->] (s & -> & _)%list_elem_of_fmap
    (s' & -> & _)%list_elem_of_fmap.
  unfold ordering_permit_keys. rewrite Ho, Ho', Hq. eexists. rewrite !elem_of_app.
  split; right; apply list_elem_of_here.
Qed.

Lemma ordering_permit_excludes_witness :
  ∃ k, k ∈ scope_permit_keys Sample.name Sample.record 0 ++ ordering_permit_keys Sample.name Sample.record
     ∧ k ∈ scope_permit_keys Sample.name Sample.record 1 ++ ordering_permit_keys Sample.name Sample.record.
Proof.
  apply (ordering_permit_excludes Sample.name Sample.record Sample.record Sample.name 1 2
    ((λ slot, scope_permit_keys Sample.name Sample.record slot ++ ordering_permit_keys Sample.name Sample.record) <$> range 1)
    ((λ slot, scope_permit_keys Sample.name Sample.record slot ++ ordering_permit_keys Sample.name Sample.record) <$> range 2));
    [reflexivity|reflexivity|reflexivity|lia|lia|reflexivity..|left|right; left].
Defined.

(** [permit_key_sets] offers exactly [capacity] candidate sets, and the
    candidate sets of different slots share no scope permit (only the
    record's ordering lock, if it has one): at most [capacity] claims of one
    scope hold permits at a time. *)
Theorem permit_slots_disjoint ns r cap sets i j a b k :
  is_opaque MAX_NAMESPACE_BYTES ns = true → is_job_record r = true → 0 ≤ cap →
  permit_key_sets ns r cap = Ok sets →
  len sets = cap ∧
  (i ≠ j → sets !! i = Some a → sets !! j = Some b → k ∈ a → k ∈ b → k ∈ ordering_permit_keys ns r).
Proof.
  intros Hn Hr%permit_record_typed Hc. rewrite permit_key_sets_Ok by done. intros [Hmax ->].
  split; [unfold len, range; rewrite !length_fmap, length_seq; lia|].
  rewrite !list_lookup_fmap, !range_lookup by done. intros Hij.
  case_decide as Hi; [|done]. case_decide as Hj; [|done]. cbn. intros [= <-] [= <-].
  rewrite !elem_of_app. intros [Ha|?] [Hb|?]; try done.
  destruct Hij. apply Nat2Z.inj. unfold MAX_DURABLE_PERMIT_SLOTS in *.
  eapply (scope_permit_slot ns r); [done..| | |done|done]; ranges; lia.
Qed.

Lemma permit_slots_disjoint_witness :
  len [scope_permit_keys Sample.name Sample.record 0 ++ ordering_permit_keys Sample.name Sample.record] = 1.
Proof.
  apply (permit_slots_disjoint Sample.name Sample.record 1 _ 0 0 [] [] []);
    [reflexivity|reflexivity|lia|reflexivity].
Defined.
