(* ===== verification/Store.v ===== *)
(** * Store requests and capabilities

    [crates/bg-jobs/src/store]: range requests ([range.rs]), conditional
    transactions ([transaction.rs]), backend limits ([capabilities.rs]) and
    the [JobStore] contract ([contract.rs]).  The backend itself is supplied by
    the consumer of the library: [JobStoreContract] states what its documentation
    requires of a commit, a point read and a range read, on an abstract state. *)

From stdpp Require Import sorting.
From S2P Require Import Prelude Errors Ids Clock JobRecord.

(** ** Ranges *)

Inductive RangeDirection : Type := Forward | Reverse.

Record RangeRequest : Type := mkRangeRequest {
  rq_start : option StoreKey;
  rq_end : option StoreKey;
  rq_direction : RangeDirection;
  rq_item_limit : Z;
  rq_byte_limit : Z;
  rq_continuation : option StoreKey;
}.

Definition is_none_or {A} (P : A → bool) (o : option A) : bool :=
  match o with Some a => P a | None => true end.
Definition is_some_and {A} (P : A → bool) (o : option A) : bool :=
  match o with Some a => P a | None => false end.

Definition within_bounds (cursor : StoreKey) (start end_ : option StoreKey) : bool :=
  is_none_or (λ value, bytes_leb value cursor) start && is_none_or (λ value, bytes_ltb cursor value) end_.

(** [RangeRequest::try_from(RangeRequestInput)]; the input has the same
    fields. *)
Definition RangeRequest_try_from (input : RangeRequest) : result ValidationError RangeRequest :=
  if match rq_start input, rq_end input with
     | Some start, Some end_ => bytes_leb end_ start
     | _, _ => false
     end
  then Err (VE_Ordering "range bounds")
  else if match rq_continuation input with
          | Some cursor => negb (within_bounds cursor (rq_start input) (rq_end input))
          | None => false
          end
  then Err (VE_Ordering "range continuation")
  else Ok input.

Record RangeEntry : Type := mkRangeEntry { re_key : StoreKey; re_value : bytes }.
Record RangePage : Type := mkRangePage {
  pg_entries : list RangeEntry;
  pg_continuation : option StoreKey;
}.

Definition RangePage_new (entries : list RangeEntry) (continuation : option StoreKey)
    : result StoreContractError RangePage :=
  if (len entries =? 0) && (if continuation then true else false)
  then Err (SCE_Validation (VE_InvalidValue "range continuation"))
  else Ok (mkRangePage entries continuation).

Definition RangePage_total_bytes (page : RangePage) : Z :=
  fold_right (λ entry total, len (re_key entry) + len (re_value entry) + total) 0 (pg_entries page).

(** ** Transactions *)

Inductive Check : Type :=
  | Absent (key : StoreKey)
  | Value (key : StoreKey) (expected : bytes).

Inductive Mutation : Type :=
  | Put (key : StoreKey) (value : bytes)
  | Delete (key : StoreKey).

#[export] Instance Check_eq_dec : EqDecision Check.
Proof. solve_decision. Defined.
#[export] Instance Mutation_eq_dec : EqDecision Mutation.
Proof. solve_decision. Defined.

Definition Check_key (c : Check) : StoreKey :=
  match c with Absent key | Value key _ => key end.
Definition Check_encoded_bytes (c : Check) : Z :=
  len (Check_key c) + match c with Absent _ => 0 | Value _ expected => len expected end.
Definition Mutation_key (m : Mutation) : StoreKey :=
  match m with Put key _ | Delete key => key end.
Definition Mutation_encoded_bytes (m : Mutation) : Z :=
  len (Mutation_key m) + match m with Put _ value => len value | Delete _ => 0 end.

Record TransactionLimits : Type := mkTransactionLimits {
  tl_max_checks : Z;
  tl_max_mutations : Z;
  tl_max_bytes : Z;
}.

Record StoreTransactionInput : Type := mkStoreTransactionInput {
  ti_operation_id : CommitOperationId;
  ti_checks : list Check;
  ti_mutations : list Mutation;
  ti_limits : TransactionLimits;
}.

Record StoreTransaction : Type := mkStoreTransaction {
  tx_operation_id : CommitOperationId;
  tx_checks : list Check;
  tx_mutations : list Mutation;
  tx_limits : TransactionLimits;
  tx_encoded_bytes : Z;
  tx_max_key_bytes : Z;
  tx_max_value_bytes : Z;
}.

#[export] Instance TransactionLimits_eq_dec : EqDecision TransactionLimits.
Proof. solve_decision. Defined.
#[export] Instance StoreTransaction_eq_dec : EqDecision StoreTransaction.
Proof. solve_decision. Defined.

(** [values.iter().any(|value| !seen.insert(key(value)))] over a set. *)
Definition validate_unique_keys {T} (values : list T) (key : T → StoreKey) (section : string)
    : result StoreContractError unit :=
  if dup_hashed ∅ (key <$> values) then Err (SCE_DuplicateTransactionKey section) else Ok tt.

Definition validate_counts (input : StoreTransactionInput) : result StoreContractError unit :=
  if (len (ti_checks input) =? 0) && (len (ti_mutations input) =? 0) then Err SCE_EmptyTransaction
  else if tl_max_checks (ti_limits input) <? len (ti_checks input)
  then Err (SCE_CapabilityExceeded "transaction checks")
  else if tl_max_mutations (ti_limits input) <? len (ti_mutations input)
  then Err (SCE_CapabilityExceeded "transaction mutations")
  else
    _ ← validate_unique_keys (ti_checks input) Check_key "checks";
    _ ← validate_unique_keys (ti_mutations input) Mutation_key "mutations";
    Ok tt.

Definition sum_Z (l : list Z) : Z := fold_right Z.add 0 l.
(** [Iterator::max().unwrap_or_default()]. *)
Definition max_Z (l : list Z) : Z := fold_right Z.max 0 l.

Definition encoded_bytes (input : StoreTransactionInput) : Z :=
  sum_Z ((Check_encoded_bytes <$> ti_checks input) ++ (Mutation_encoded_bytes <$> ti_mutations input)).

Definition max_key_bytes (input : StoreTransactionInput) : Z :=
  max_Z (((λ c, len (Check_key c)) <$> ti_checks input)
         ++ ((λ m, len (Mutation_key m)) <$> ti_mutations input)).

Definition max_value_bytes (input : StoreTransactionInput) : Z :=
  max_Z (omap (λ c, match c with Absent _ => None | Value _ value => Some (len value) end)
              (ti_checks input)
         ++ omap (λ m, match m with Delete _ => None | Put _ value => Some (len value) end)
              (ti_mutations input)).

(** [StoreTransaction::try_from(StoreTransactionInput)]. *)
Definition StoreTransaction_try_from (input : StoreTransactionInput)
    : result StoreContractError StoreTransaction :=
  _ ← validate_counts input;
  let encoded := encoded_bytes input in
  if tl_max_bytes (ti_limits input) <? encoded then Err (SCE_CapabilityExceeded "transaction bytes")
  else
    Ok (mkStoreTransaction (ti_operation_id input) (ti_checks input) (ti_mutations input)
          (ti_limits input) encoded (max_key_bytes input) (max_value_bytes input)).

(** ** Capabilities *)

Inductive StoreLevel : Type := Local | Distributed.

Record StoreCapabilities : Type := mkStoreCapabilities {
  cap_level : StoreLevel;
  cap_max_key_bytes : Z;
  cap_max_value_bytes : Z;
  cap_max_get_many_keys : Z;
  cap_max_get_many_key_bytes : Z;
  cap_max_transaction_bytes : Z;
  cap_max_transaction_keys : Z;
  cap_max_range_items : Z;
  cap_max_range_bytes : Z;
  cap_max_transaction_duration : Duration;
}.

Definition StoreCapabilities_try_from (input : StoreCapabilities)
    : result StoreContractError StoreCapabilities :=
  if cap_max_transaction_duration input =? 0
  then Err (SCE_Validation (VE_InvalidValue "transaction duration"))
  else if cap_max_transaction_bytes input <? cap_max_key_bytes input
  then Err (SCE_Validation (VE_Ordering "transaction/key bytes"))
  else if cap_max_get_many_key_bytes input <? cap_max_key_bytes input
  then Err (SCE_Validation (VE_Ordering "get-many/key bytes"))
  else Ok input.

Definition validate_transaction (caps : StoreCapabilities) (transaction : StoreTransaction)
    : result StoreContractError unit :=
  if cap_max_transaction_keys caps <? len (tx_checks transaction) + len (tx_mutations transaction)
  then Err (SCE_CapabilityExceeded "transaction keys")
  else if cap_max_transaction_bytes caps <? tx_encoded_bytes transaction
  then Err (SCE_CapabilityExceeded "transaction bytes")
  else if cap_max_key_bytes caps <? tx_max_key_bytes transaction
  then Err (SCE_CapabilityExceeded "key bytes")
  else if cap_max_value_bytes caps <? tx_max_value_bytes transaction
  then Err (SCE_CapabilityExceeded "value bytes")
  else Ok tt.

(** [try_fold(0, |total, key| total.checked_add(key.len()))]. *)
Fixpoint checked_key_bytes (total : Z) (keys : list StoreKey) : option Z :=
  match keys with
  | [] => Some total
  | key :: keys => total ← checked_add_usize total (len key); checked_key_bytes total keys
  end.

Definition validate_get_many (caps : StoreCapabilities) (keys : list StoreKey)
    : result StoreContractError unit :=
  if cap_max_get_many_keys caps <? len keys then Err (SCE_CapabilityExceeded "get-many keys")
  else if existsb (λ key, cap_max_key_bytes caps <? len key) keys
  then Err (SCE_CapabilityExceeded "get-many key bytes")
  else if is_none_or (λ bytes, cap_max_get_many_key_bytes caps <? bytes) (checked_key_bytes 0 keys)
  then Err (SCE_CapabilityExceeded "get-many key bytes")
  else Ok tt.

Definition validate_range (caps : StoreCapabilities) (request : RangeRequest)
    : result StoreContractError unit :=
  if cap_max_range_items caps <? rq_item_limit request then Err (SCE_CapabilityExceeded "range items")
  else if cap_max_range_bytes caps <? rq_byte_limit request
  then Err (SCE_CapabilityExceeded "range bytes")
  else if is_some_and (λ key, cap_max_key_bytes caps <? len key) (rq_start request)
          || is_some_and (λ key, cap_max_key_bytes caps <? len key) (rq_end request)
          || is_some_and (λ key, cap_max_key_bytes caps <? len key) (rq_continuation request)
  then Err (SCE_CapabilityExceeded "range key bytes")
  else Ok tt.

Inductive CommitOutcome : Type := Committed | Conflict | Unknown.

#[export] Instance CommitOutcome_eq_dec : EqDecision CommitOutcome.
Proof. solve_decision. Defined.

(** ** The state of a store *)

Abbreviation StoreMap := (gmap StoreKey bytes).
(** The outcomes a store has established, by commit operation. *)
Abbreviation Ledger := (gmap CommitOperationId (StoreTransaction * CommitOutcome)).

Definition check_holds (entries : StoreMap) (c : Check) : bool :=
  match c with
  | Absent key => bool_decide (entries !! key = None)
  | Value key expected => bool_decide (entries !! key = Some expected)
  end.
Definition checks_match (entries : StoreMap) (checks : list Check) : bool :=
  forallb (check_holds entries) checks.

Definition apply_mutation (entries : StoreMap) (m : Mutation) : StoreMap :=
  match m with
  | Put key value => <[key := value]> entries
  | Delete key => delete key entries
  end.
Definition apply_mutations (entries : StoreMap) (mutations : list Mutation) : StoreMap :=
  fold_left apply_mutation mutations entries.
#[global] Arguments apply_mutations : simpl never.

(** [BTreeMap::iter]: the entries in key order. *)
Definition key_le (a b : StoreKey * bytes) : Prop := bytes_leb a.1 b.1 = true.
#[export] Instance key_le_dec : RelDecision key_le.
Proof. intros a b. unfold key_le. apply _. Defined.
Definition btree_iter (entries : StoreMap) : list (StoreKey * bytes) :=
  merge_sort key_le (map_to_list entries).

Definition within_range (key : StoreKey) (request : RangeRequest) : bool :=
  is_none_or (λ start, bytes_leb start key) (rq_start request)
  && is_none_or (λ end_, bytes_ltb key end_) (rq_end request).

Definition after_continuation (key : StoreKey) (request : RangeRequest) : bool :=
  is_none_or (λ cursor, match rq_direction request with
                        | Forward => bytes_ltb cursor key
                        | Reverse => bytes_ltb key cursor
                        end) (rq_continuation request).

(** The entries a request still has to deliver, in its direction. *)
Definition selected (request : RangeRequest) (kv : StoreKey * bytes) : bool :=
  within_range kv.1 request && after_continuation kv.1 request.
Definition entry_of (kv : StoreKey * bytes) : RangeEntry := mkRangeEntry kv.1 kv.2.
Definition iter_of (direction : RangeDirection) (entries : StoreMap) : list (StoreKey * bytes) :=
  match direction with Forward => btree_iter entries | Reverse => rev (btree_iter entries) end.
Definition range_entries (entries : StoreMap) (request : RangeRequest) : list RangeEntry :=
  entry_of <$> List.filter (selected request) (iter_of (rq_direction request) entries).

Definition with_continuation (request : RangeRequest) (cursor : StoreKey) : RangeRequest :=
  mkRangeRequest (rq_start request) (rq_end request) (rq_direction request) (rq_item_limit request)
    (rq_byte_limit request) (Some cursor).

(** ** The contract of [JobStore] *)

Class JobStore (S E : Type) := {
  js_capabilities : S → StoreCapabilities;
  js_get : StoreKey → S → result E (option bytes);
  js_get_many : list StoreKey → S → result E (list (option bytes));
  js_read_range : RangeRequest → S → result E RangePage;
  js_commit : StoreTransaction → S → S * result E CommitOutcome;
}.

(** What the documentation of [JobStore::commit] allows.  A commit that
    returns an error applied nothing; one that returns [Unknown] applied
    everything or nothing; an operation identifier is bound to its first
    transaction and outcome. *)
Inductive commit_contract {E : Type} (entries : StoreMap) (ledger : Ledger) (tx : StoreTransaction)
    : StoreMap → Ledger → result E CommitOutcome → Prop :=
  | CC_replayed outcome :
      ledger !! tx_operation_id tx = Some (tx, outcome) →
      commit_contract entries ledger tx entries ledger (Ok outcome)
  | CC_conflict :
      ledger !! tx_operation_id tx = None →
      commit_contract entries ledger tx
        entries (<[tx_operation_id tx := (tx, Conflict)]> ledger) (Ok Conflict)
  | CC_applied outcome :
      ledger !! tx_operation_id tx = None →
      checks_match entries (tx_checks tx) = true →
      outcome = Committed ∨ outcome = Unknown →
      commit_contract entries ledger tx
        (apply_mutations entries (tx_mutations tx))
        (<[tx_operation_id tx := (tx, Committed)]> ledger) (Ok outcome)
  | CC_unknown_lost :
      ledger !! tx_operation_id tx = None →
      commit_contract entries ledger tx entries ledger (Ok Unknown)
  | CC_error e :
      commit_contract entries ledger tx entries ledger (Err e).

(** What the documentation of [JobStore::read_range] requires of a page. *)
Record range_contract (entries : StoreMap) (request : RangeRequest) (page : RangePage) : Prop := {
  rc_split : range_entries entries request = pg_entries page ++
    match pg_continuation page with
    | Some cursor => range_entries entries (with_continuation request cursor)
    | None => []
    end;
  rc_progress : pg_continuation page ≠ None → pg_entries page ≠ [];
  rc_items : len (pg_entries page) ≤ rq_item_limit request;
  rc_bytes : RangePage_total_bytes page ≤ rq_byte_limit request;
}.

Class JobStoreContract (S E : Type) `{!JobStore S E} := {
  (** Holds initially and is kept by every commit. *)
  sc_inv : S → Prop;
  sc_entries : S → StoreMap;
  sc_ledger : S → Ledger;
  sc_get key s value : js_get key s = Ok value → value = sc_entries s !! key;
  sc_get_many keys s values :
    js_get_many keys s = Ok values → values = (λ key, sc_entries s !! key) <$> keys;
  sc_read_range request s page :
    0 < rq_item_limit request → 0 < rq_byte_limit request < USIZE_MAX →
    js_read_range request s = Ok page → range_contract (sc_entries s) request page;
  sc_commit tx s s' outcome :
    sc_inv s → js_commit tx s = (s', outcome) →
    sc_inv s' ∧
    commit_contract (sc_entries s) (sc_ledger s) tx (sc_entries s') (sc_ledger s') outcome;
}.

(** ** Transactions have one meaning *)

Lemma validate_unique_keys_Ok {T} (values : list T) key section u :
  validate_unique_keys values key section = Ok u ↔ NoDup (key <$> values).
Proof.
  unfold validate_unique_keys. destruct (dup_hashed ∅ (key <$> values)) eqn:Hd.
  - split; [done|]. intros Hn. assert (dup_hashed ∅ (key <$> values) = false); [|congruence].
    apply dup_hashed_false. split; [done|]. set_solver.
  - apply dup_hashed_false in Hd as [? _]. split; [done|]. by destruct u.
Qed.

(** What a checked transaction promises to the adapter. *)
Record transaction_ok (input : StoreTransactionInput) : Prop := {
  to_nonempty : ti_checks input ≠ [] ∨ ti_mutations input ≠ [];
  to_checks : len (ti_checks input) ≤ tl_max_checks (ti_limits input);
  to_mutations : len (ti_mutations input) ≤ tl_max_mutations (ti_limits input);
  to_check_keys : NoDup (Check_key <$> ti_checks input);
  to_mutation_keys : NoDup (Mutation_key <$> ti_mutations input);
  to_bytes : encoded_bytes input ≤ tl_max_bytes (ti_limits input);
}.

Definition accepted_transaction (input : StoreTransactionInput) : StoreTransaction :=
  mkStoreTransaction (ti_operation_id input) (ti_checks input) (ti_mutations input)
    (ti_limits input) (encoded_bytes input) (max_key_bytes input) (max_value_bytes input).

Lemma len_zero_iff {A} (l : list A) : len l = 0 ↔ l = [].
Proof. split; [apply len_zero_nil|by intros ->]. Qed.

Lemma StoreTransaction_try_from_Ok input tx :
  StoreTransaction_try_from input = Ok tx ↔
  tx = accepted_transaction input ∧ transaction_ok input.
Proof.
  unfold StoreTransaction_try_from, validate_counts. split.
  - intros Ht. invert_ok. destruct (_ && _) eqn:He; [done|].
    destruct (Z.ltb_spec (tl_max_checks (ti_limits input)) (len (ti_checks input))); [done|].
    destruct (Z.ltb_spec (tl_max_mutations (ti_limits input)) (len (ti_mutations input))); [done|].
    destruct (Z.ltb_spec (tl_max_bytes (ti_limits input)) (encoded_bytes input)); [done|].
    invert_ok.
    repeat match goal with H : validate_unique_keys _ _ _ = Ok _ |- _ => apply validate_unique_keys_Ok in H end.
    split; [done|]. split; try done.
    apply andb_false_iff in He. rewrite !Z.eqb_neq, !len_zero_iff in He. tauto.
  - intros [-> [Hn Hc Hm Hck Hmk Hb]].
    assert ((len (ti_checks input) =? 0) && (len (ti_mutations input) =? 0) = false) as ->.
    { apply andb_false_iff. rewrite !Z.eqb_neq, !len_zero_iff. tauto. }
    rewrite (proj2 (Z.ltb_ge _ _) Hc), (proj2 (Z.ltb_ge _ _) Hm).
    rewrite (proj2 (validate_unique_keys_Ok _ Check_key "checks" tt) Hck).
    cbn [mbind result_bind].
    rewrite (proj2 (validate_unique_keys_Ok _ Mutation_key "mutations" tt) Hmk).
    cbn [mbind result_bind]. by rewrite (proj2 (Z.ltb_ge _ _) Hb).
Qed.

Lemma apply_mutations_cons e m ms :
  apply_mutations e (m :: ms) = apply_mutations (apply_mutation e m) ms.
Proof. done. Qed.

Lemma apply_mutations_app e ms ms' :
  apply_mutations e (ms ++ ms') = apply_mutations (apply_mutations e ms) ms'.
Proof. apply fold_left_app. Qed.

Lemma lookup_apply_mutations_ne e ms k :
  k ∉ Mutation_key <$> ms → apply_mutations e ms !! k = e !! k.
Proof.
  revert e. induction ms as [|m ms IH]; intros e Hk; [done|]. rewrite apply_mutations_cons, IH by set_solver.
  destruct m as [k' v|k']; cbn in *; [rewrite lookup_insert_ne|rewrite lookup_delete_ne]; set_solver.
Qed.

Definition mutation_result (m : Mutation) : option bytes :=
  match m with Put _ v => Some v | Delete _ => None end.

Lemma lookup_apply_mutations e ms m :
  NoDup (Mutation_key <$> ms) → m ∈ ms → apply_mutations e ms !! Mutation_key m = mutation_result m.
Proof.
  revert e. induction ms as [|m' ms IH]; intros e Hn Hm; [set_solver|].
  cbn in Hn. apply NoDup_cons in Hn as [Hm' Hn]. rewrite apply_mutations_cons.
  apply elem_of_cons in Hm as [->|Hm]; [|by apply IH].
  rewrite lookup_apply_mutations_ne by done. destruct m'; cbn; by simplify_map_eq.
Qed.

(** ** Ordered iteration *)

#[export] Instance key_le_total : Total key_le.
Proof.
  intros a b. unfold key_le. rewrite !bytes_leb_spec.
  destruct (bytes_ltb_total a.1 b.1) as [?|[?|?]]; auto.
Qed.
Lemma bytes_leb_trans a b c : bytes_leb a b = true → bytes_leb b c = true → bytes_leb a c = true.
Proof.
  rewrite !bytes_leb_spec. intros [->|?] [->|?]; auto. right. by eapply bytes_ltb_trans.
Qed.
#[export] Instance key_le_trans : Transitive key_le.
Proof. intros a b c. apply bytes_leb_trans. Qed.

Definition key_lt (a b : StoreKey * bytes) : Prop := bytes_ltb a.1 b.1 = true.

Lemma btree_iter_elem e k v : (k, v) ∈ btree_iter e ↔ e !! k = Some v.
Proof. unfold btree_iter. by rewrite merge_sort_Permutation, elem_of_map_to_list. Qed.

Lemma btree_iter_nodup e : NoDup (btree_iter e).*1.
Proof. unfold btree_iter. rewrite merge_sort_Permutation. apply NoDup_fst_map_to_list. Qed.

Lemma btree_iter_sorted e : StronglySorted key_lt (btree_iter e).
Proof.
  assert (StronglySorted key_le (btree_iter e)) as Hs.
  { apply (StronglySorted_merge_sort key_le). }
  pose proof (btree_iter_nodup e) as Hn. induction Hs as [|x l Hs IH Hx]; [constructor|].
  cbn in Hn. apply NoDup_cons in Hn as [Hnx Hn]. constructor; [by apply IH|].
  rewrite Forall_forall in *. intros y Hy. specialize (Hx y Hy). unfold key_le in Hx.
  apply bytes_leb_spec in Hx as [He|?]; [|done]. destruct Hnx. rewrite He.
  apply list_elem_of_fmap. by exists y.
Qed.

(** ** Histories of a store *)

Section histories.
Context {S E : Type} `{!JobStore S E} `{!JobStoreContract S E}.

(** One commit by any client, and any number of them. *)
Definition commit_step (s s' : S) : Prop := ∃ tx outcome, js_commit tx s = (s', outcome).
Definition history : S → S → Prop := rtc commit_step.

Lemma commit_inv tx s s' outcome : sc_inv s → js_commit tx s = (s', outcome) → sc_inv s'.
Proof. intros Hi Hc. by apply (sc_commit _ _ _ _ Hi) in Hc as [? _]. Qed.

Lemma history_inv s s' : sc_inv s → history s s' → sc_inv s'.
Proof. intros Hi Hh. induction Hh as [|s1 s2 s3 (tx & o & Hc) _ IH]; [done|]. eauto using commit_inv. Qed.

(** An established outcome is never forgotten nor changed. *)
Lemma ledger_kept tx s s' outcome op r :
  sc_inv s → js_commit tx s = (s', outcome) →
  sc_ledger s !! op = Some r → sc_ledger s' !! op = Some r.
Proof.
  intros Hi Hc Hl. apply (sc_commit _ _ _ _ Hi) in Hc as [_ Hc].
  inversion Hc; simplify_eq; try done; rewrite lookup_insert_ne; congruence.
Qed.

Lemma history_ledger s s' op r :
  sc_inv s → history s s' → sc_ledger s !! op = Some r → sc_ledger s' !! op = Some r.
Proof.
  intros Hi Hh. induction Hh as [|s1 s2 s3 (tx & o & Hc) _ IH]; [done|]. intros Hl.
  eauto using commit_inv, ledger_kept.
Qed.

(** A commit whose outcome is established changes nothing. *)
Lemma commit_replayed tx s s' outcome r :
  sc_inv s → js_commit tx s = (s', outcome) → sc_ledger s !! tx_operation_id tx = Some (tx, r) →
  sc_entries s' = sc_entries s ∧ (outcome = Ok r ∨ ∃ e, outcome = Err e).
Proof.
  intros Hi Hc Hl. apply (sc_commit _ _ _ _ Hi) in Hc as [_ Hc].
  inversion Hc; simplify_eq; try (split; [done|eauto]); congruence.
Qed.

(** What a commit that reports success did. *)
Lemma commit_committed tx s s' :
  sc_inv s → js_commit tx s = (s', Ok Committed) →
  sc_ledger s' !! tx_operation_id tx = Some (tx, Committed) ∧
  (sc_ledger s !! tx_operation_id tx = Some (tx, Committed) ∧ sc_entries s' = sc_entries s ∨
   checks_match (sc_entries s) (tx_checks tx) = true ∧
   sc_entries s' = apply_mutations (sc_entries s) (tx_mutations tx)).
Proof.
  intros Hi Hc. apply (sc_commit _ _ _ _ Hi) in Hc as [_ Hc].
  remember (sc_entries s') as e'. remember (sc_ledger s') as l'. inversion Hc; simplify_eq.
  - split; [congruence|]. left. split; congruence.
  - split; [by rewrite lookup_insert_eq|]. right. split; congruence.
Qed.
End histories.

(** ** Properties *)

(** A transaction has one meaning: [StoreTransaction::try_from] rejects
    repeated keys, so the order in which an adapter applies the mutations of
    an accepted transaction does not change the resulting store. *)
Theorem mutation_order_irrelevant input tx e ms :
  StoreTransaction_try_from input = Ok tx → ms ≡ₚ tx_mutations tx →
  apply_mutations e ms = apply_mutations e (tx_mutations tx).
Proof.
  intros [-> [_ _ _ _ Hn _]]%StoreTransaction_try_from_Ok Hp. cbn in *. apply map_eq. intros k.
  destruct (decide (k ∈ Mutation_key <$> ti_mutations input)) as [Hk|Hk].
  - apply list_elem_of_fmap in Hk as (m & -> & Hm).
    rewrite !lookup_apply_mutations by (rewrite ?Hp; done). done.
  - rewrite !lookup_apply_mutations_ne by (rewrite ?Hp; done). done.
Qed.

Lemma mutation_order_irrelevant_witness :
  apply_mutations ∅ [Put [Byte.x02] []; Delete [Byte.x01]]
  = apply_mutations ∅ [Delete [Byte.x01]; Put [Byte.x02] []].
Proof.
  apply (mutation_order_irrelevant
    (mkStoreTransactionInput [] [] [Delete [Byte.x01]; Put [Byte.x02] []] (mkTransactionLimits 1 2 9))
    (accepted_transaction
      (mkStoreTransactionInput [] [] [Delete [Byte.x01]; Put [Byte.x02] []] (mkTransactionLimits 1 2 9))));
    [vm_compute; reflexivity|constructor].
Defined.

