(* ===== verification/FakeStore.v ===== *)
(** * The reference store

    [crates/bg-jobs/src/test_helper/fake_store.rs]: the in-memory store that
    adapters are compared against, with its queue of scripted commit outcomes.
    It is shown to implement [JobStoreContract].  The mutex is not modelled:
    each call is one atomic step, and no call panics while holding the lock. *)

From stdpp Require Import sorting.
From S2P Require Import Prelude Errors Ids Clock JobRecord Store.

Inductive FakeStoreError : Type :=
  | FSE_Contract (error : StoreContractError)
  | FSE_KeyTooLarge
  | FSE_RangeItemTooLarge
  | FSE_CommitOperationReused.

Record QueuedCommit : Type := mkQueuedCommit { qc_outcome : CommitOutcome; qc_apply : bool }.

(** [FakeStore] with its [FakeState]; a [RecordedCommit] is an entry of the
    ledger. *)
Record FakeStore : Type := mkFakeStore {
  fk_capabilities : StoreCapabilities;
  fk_entries : StoreMap;
  fk_commits : Ledger;
  fk_queued_commits : list QueuedCommit;
}.

Definition DEFAULT_MAX_KEY_BYTES : Z := 4096.
Definition DEFAULT_MAX_VALUE_BYTES : Z := 1048576.
Definition DEFAULT_MAX_GET_MANY_KEYS : Z := 1024.
Definition DEFAULT_MAX_GET_MANY_KEY_BYTES : Z := 2 * 1048576.
Definition DEFAULT_MAX_TRANSACTION_BYTES : Z := 2 * 1048576.
Definition DEFAULT_MAX_TRANSACTION_KEYS : Z := 1024.
Definition DEFAULT_MAX_RANGE_ITEMS : Z := 1024.
Definition DEFAULT_MAX_RANGE_BYTES : Z := 2 * 1048576.

Definition with_capabilities (capabilities : StoreCapabilities) : FakeStore :=
  mkFakeStore capabilities ∅ ∅ [].

(** The [unreachable!] arm is the [Err] of [try_from]. *)
Definition with_level (level : StoreLevel) : result StoreContractError FakeStore :=
  capabilities ← StoreCapabilities_try_from
    (mkStoreCapabilities level DEFAULT_MAX_KEY_BYTES DEFAULT_MAX_VALUE_BYTES
       DEFAULT_MAX_GET_MANY_KEYS DEFAULT_MAX_GET_MANY_KEY_BYTES DEFAULT_MAX_TRANSACTION_BYTES
       DEFAULT_MAX_TRANSACTION_KEYS DEFAULT_MAX_RANGE_ITEMS DEFAULT_MAX_RANGE_BYTES (from_secs 5));
  Ok (with_capabilities capabilities).

Definition validate_key (s : FakeStore) (key : StoreKey) : result FakeStoreError unit :=
  if cap_max_key_bytes (fk_capabilities s) <? len key then Err FSE_KeyTooLarge else Ok tt.

Fixpoint validate_keys (s : FakeStore) (keys : list StoreKey) : result FakeStoreError unit :=
  match keys with
  | [] => Ok tt
  | key :: keys => _ ← validate_key s key; validate_keys s keys
  end.

Definition with_entries (s : FakeStore) (entries : StoreMap) : FakeStore :=
  mkFakeStore (fk_capabilities s) entries (fk_commits s) (fk_queued_commits s).

Definition queue_commit (s : FakeStore) (outcome : CommitOutcome) (apply : bool) : FakeStore :=
  mkFakeStore (fk_capabilities s) (fk_entries s) (fk_commits s)
    (fk_queued_commits s ++ [mkQueuedCommit outcome apply]).

Definition queue_commit_outcome (s : FakeStore) (outcome : CommitOutcome) : FakeStore :=
  queue_commit s outcome (negb (bool_decide (outcome = Conflict))).
Definition queue_unknown_before_commit (s : FakeStore) : FakeStore := queue_commit s Unknown false.
Definition queue_unknown_after_commit (s : FakeStore) : FakeStore := queue_commit s Unknown true.

Definition put_raw (s : FakeStore) (key : StoreKey) (value : bytes)
    : result FakeStoreError FakeStore :=
  _ ← validate_key s key;
  if cap_max_value_bytes (fk_capabilities s) <? len value
  then Err (FSE_Contract (SCE_CapabilityExceeded "value bytes"))
  else Ok (with_entries s (<[key := value]> (fk_entries s))).

Definition delete_raw (s : FakeStore) (key : StoreKey) : result FakeStoreError (FakeStore * bool) :=
  _ ← validate_key s key;
  Ok (with_entries s (delete key (fk_entries s)), if fk_entries s !! key then true else false).

Definition snapshot (s : FakeStore) : list (StoreKey * bytes) := btree_iter (fk_entries s).

(** ** Reads *)

Definition get (key : StoreKey) (s : FakeStore) : result FakeStoreError (option bytes) :=
  _ ← validate_key s key;
  Ok (fk_entries s !! key).

Definition get_many (keys : list StoreKey) (s : FakeStore)
    : result FakeStoreError (list (option bytes)) :=
  _ ← map_err FSE_Contract (validate_get_many (fk_capabilities s) keys);
  if len keys =? 0 then Ok [] else Ok ((λ key, fk_entries s !! key) <$> keys).

Definition validate_range_keys (s : FakeStore) (request : RangeRequest) : result FakeStoreError unit :=
  if is_some_and (λ key, cap_max_key_bytes (fk_capabilities s) <? len key) (rq_start request)
     || is_some_and (λ key, cap_max_key_bytes (fk_capabilities s) <? len key) (rq_end request)
  then Err FSE_KeyTooLarge else Ok tt.

Definition saturating_add (a b : Z) : Z := Z.min USIZE_MAX (a + b).

(** The [for (key, value) in iter] loop: the entries and [has_more]. *)
Fixpoint page_loop (request : RangeRequest) (iter : list (StoreKey * bytes))
    (entries : list RangeEntry) (bytes : Z) : result FakeStoreError (list RangeEntry * bool) :=
  match iter with
  | [] => Ok (entries, false)
  | (key, value) :: iter =>
      if negb (within_range key request) || negb (after_continuation key request)
      then page_loop request iter entries bytes
      else if rq_item_limit request <=? len entries then Ok (entries, true)
      else
        let entry_bytes := saturating_add (len key) (len value) in
        if (rq_byte_limit request <? entry_bytes) && (len entries =? 0) then Err FSE_RangeItemTooLarge
        else if rq_byte_limit request <? saturating_add bytes entry_bytes then Ok (entries, true)
        else
          page_loop request iter (entries ++ [mkRangeEntry key value])
            (saturating_add bytes entry_bytes)
  end.

Definition read_page (request : RangeRequest) (s : FakeStore) : result FakeStoreError RangePage :=
  _ ← map_err FSE_Contract (validate_range (fk_capabilities s) request);
  _ ← validate_range_keys s request;
  let iter := iter_of (rq_direction request) (fk_entries s) in
  '(entries, has_more) ← page_loop request iter [] 0;
  let continuation := if has_more : bool then re_key <$> last entries else None in
  map_err FSE_Contract (RangePage_new entries continuation).

(** ** Commit *)

Definition record_commit (s : FakeStore) (tx : StoreTransaction) (outcome : CommitOutcome) : FakeStore :=
  mkFakeStore (fk_capabilities s) (fk_entries s)
    (<[tx_operation_id tx := (tx, outcome)]> (fk_commits s)) (fk_queued_commits s).

Definition pop_queued (s : FakeStore) : FakeStore :=
  mkFakeStore (fk_capabilities s) (fk_entries s) (fk_commits s) (tail (fk_queued_commits s)).

Definition validate_commit (s : FakeStore) (tx : StoreTransaction) : result FakeStoreError unit :=
  _ ← map_err FSE_Contract (validate_transaction (fk_capabilities s) tx);
  _ ← validate_keys s (Check_key <$> tx_checks tx);
  validate_keys s (Mutation_key <$> tx_mutations tx).

Definition commit_transaction (tx : StoreTransaction) (s : FakeStore)
    : FakeStore * result FakeStoreError CommitOutcome :=
  match validate_commit s tx with
  | Err e => (s, Err e)
  | Ok _ =>
      match fk_commits s !! tx_operation_id tx with
      | Some (recorded, outcome) =>
          if decide (recorded = tx) then (s, Ok outcome) else (s, Err FSE_CommitOperationReused)
      | None =>
          if negb (checks_match (fk_entries s) (tx_checks tx))
          then (record_commit s tx Conflict, Ok Conflict)
          else
            let '(outcome, apply) :=
              match head (fk_queued_commits s) with
              | Some queued => (qc_outcome queued, qc_apply queued)
              | None => (Committed, true)
              end in
            let s := pop_queued s in
            if bool_decide (outcome = Conflict) || negb apply
            then ((if bool_decide (outcome = Conflict) then record_commit s tx Conflict else s), Ok outcome)
            else
              let s := with_entries s (apply_mutations (fk_entries s) (tx_mutations tx)) in
              (record_commit s tx Committed, Ok outcome)
      end
  end.

#[export] Instance FakeStore_JobStore : JobStore FakeStore FakeStoreError := {|
  js_capabilities := fk_capabilities;
  js_get := get;
  js_get_many := get_many;
  js_read_range := read_page;
  js_commit := commit_transaction;
|}.

(** ** Paging *)

Definition entry_bytes (e : RangeEntry) : Z := len (re_key e) + len (re_value e).
Definition total_bytes (es : list RangeEntry) : Z := sum_Z (entry_bytes <$> es).
Lemma total_bytes_snoc es e : total_bytes (es ++ [e]) = total_bytes es + entry_bytes e.
Proof.
  unfold total_bytes, sum_Z. rewrite fmap_app. cbn. induction es as [|x es IH]; cbn in *; lia.
Qed.

Lemma entry_bytes_nonneg e : 0 ≤ entry_bytes e.
Proof. unfold entry_bytes. pose proof (len_nonneg (re_key e)). pose proof (len_nonneg (re_value e)). lia. Qed.

Lemma RangePage_total_bytes_spec es c : RangePage_total_bytes (mkRangePage es c) = total_bytes es.
Proof.
  unfold RangePage_total_bytes, total_bytes, sum_Z, entry_bytes. cbn.
  induction es as [|x es IH]; cbn; [done|]. rewrite IH. lia.
Qed.

Lemma page_loop_spec request iter entries es more :
  0 < rq_item_limit request → 0 < rq_byte_limit request < USIZE_MAX →
  len entries ≤ rq_item_limit request → 0 ≤ total_bytes entries ≤ rq_byte_limit request →
  page_loop request iter entries (total_bytes entries) = Ok (es, more) →
  len es ≤ rq_item_limit request ∧ total_bytes es ≤ rq_byte_limit request ∧
  (more = true → es ≠ []) ∧
  ∃ taken rest, entry_of <$> List.filter (selected request) iter = taken ++ rest ∧
    es = entries ++ taken ∧ (more = false → rest = []).
Proof.
  intros Hi Hb. revert entries. induction iter as [|[k v] iter IH]; intros entries Hl Ht Hp; cbn [page_loop] in Hp.
  - simplify_eq. split_and!; [done|lia|done|]. exists [], []. split_and!; [done|by rewrite app_nil_r|done].
  - cbn [List.filter]. unfold selected at 1. cbn [fst].
    destruct (within_range k request); cbn [negb orb andb] in Hp |- *; [|by apply IH].
    destruct (after_continuation k request); cbn [negb] in Hp; [|by apply IH].
    rewrite fmap_cons. unfold saturating_add in Hp.
    set (e := entry_of (k, v)) in *. change (len k + len v) with (entry_bytes e) in Hp.
    pose proof (entry_bytes_nonneg e) as He.
    assert (len entries = 0 → total_bytes entries = 0) as H0 by (intros ->%len_zero_nil; done).
    destruct (Z.leb_spec (rq_item_limit request) (len entries)) as [Hfull|Hroom].
    { simplify_eq. split_and!; [done|lia| |].
      - intros _ ->. rewrite len_nil in *. lia.
      - eexists [], _. split_and!; [done|by rewrite app_nil_r|done]. }
    destruct (Z.ltb_spec (rq_byte_limit request) (Z.min USIZE_MAX (entry_bytes e))),
      (Z.eqb_spec (len entries) 0) as [Hz|Hnz]; cbn [andb] in Hp; try done.
    all: destruct (Z.ltb_spec (rq_byte_limit request)
      (Z.min USIZE_MAX (total_bytes entries + Z.min USIZE_MAX (entry_bytes e)))) as [Hover|Hfit].
    all: try (simplify_eq; split_and!; [done|lia|intros _ ->; by destruct Hnz|]; eexists [], _; split_and!; [done|by rewrite app_nil_r|done]).
    all: try lia.
    all: assert (Z.min USIZE_MAX (total_bytes entries + Z.min USIZE_MAX (entry_bytes e))
                 = total_bytes (entries ++ [e])) as Hs by (rewrite total_bytes_snoc; lia).
    all: rewrite Hs in Hp, Hfit.
    all: apply IH in Hp as (? & ? & ? & taken & rest & Hf & -> & Hm); [|rewrite len_app, len_cons, len_nil; lia|rewrite total_bytes_snoc in *; lia].
    all: split_and!; [done|done|done|]; exists (e :: taken), rest; by rewrite Hf, <- app_assoc.
Qed.

Definition dir_lt (direction : RangeDirection) (a b : StoreKey) : bool :=
  match direction with Forward => bytes_ltb a b | Reverse => bytes_ltb b a end.

Lemma dir_lt_trans d a b c : dir_lt d a b = true → dir_lt d b c = true → dir_lt d a c = true.
Proof. destruct d; cbn; intros; by eapply bytes_ltb_trans. Qed.
Lemma dir_lt_irrefl d a : dir_lt d a a = false.
Proof. destruct d; apply bytes_ltb_irrefl. Qed.
Lemma dir_lt_asym d a b : dir_lt d a b = true → dir_lt d b a = false.
Proof. destruct d; apply bytes_ltb_asym. Qed.

Lemma after_continuation_dir k request :
  after_continuation k request = is_none_or (λ c, dir_lt (rq_direction request) c k) (rq_continuation request).
Proof. unfold after_continuation, dir_lt. by destruct (rq_continuation request), (rq_direction request). Qed.

Lemma StronglySorted_snoc {A} (R : A → A → Prop) l x :
  StronglySorted R l → Forall (λ y, R y x) l → StronglySorted R (l ++ [x]).
Proof.
  induction 1 as [|y l Hs IH Hy]; cbn; [by repeat constructor|].
  intros [? ?]%Forall_cons. constructor; [by apply IH|]. apply Forall_app. by repeat constructor.
Qed.

Lemma iter_of_sorted d m :
  StronglySorted (λ a b, dir_lt d a.1 b.1 = true) (iter_of d m).
Proof.
  pose proof (btree_iter_sorted m) as Hs. destruct d; cbn; [done|].
  induction Hs as [|x l Hs IH Hx]; cbn; [constructor|]. apply StronglySorted_snoc; [done|].
  rewrite Forall_forall in *. intros y Hy. apply Hx.
  by apply list_elem_of_In, in_rev, list_elem_of_In.
Qed.

Lemma StronglySorted_filter {A} (R : A → A → Prop) (f : A → bool) l :
  StronglySorted R l → StronglySorted R (List.filter f l).
Proof.
  induction 1 as [|x l Hs IH Hx]; cbn; [constructor|]. destruct (f x); [|done].
  constructor; [done|]. rewrite Forall_forall in *. intros y [Hy _]%list_elem_of_In%filter_In.
  apply Hx. by apply list_elem_of_In.
Qed.

(** In a sorted list, the elements after the last one of a prefix are the
    rest. *)
Lemma filter_after_prefix d (taken rest : list (StoreKey * bytes)) c :
  StronglySorted (λ a b, dir_lt d a.1 b.1 = true) (taken ++ [c] ++ rest) →
  List.filter (λ kv, dir_lt d c.1 kv.1) (taken ++ [c] ++ rest) = rest.
Proof.
  intros Hs. rewrite !List.filter_app. cbn. rewrite dir_lt_irrefl. cbn.
  assert (∀ x, x ∈ taken → dir_lt d c.1 x.1 = false) as Ht.
  { intros x Hx. apply dir_lt_asym. clear -Hs Hx. induction taken as [|y taken IH]; [set_solver|].
    cbn in Hs. apply StronglySorted_inv in Hs as [Hs Hy]. apply elem_of_cons in Hx as [->|Hx]; [|by apply IH].
    rewrite Forall_forall in Hy. apply Hy. set_solver. }
  assert (∀ x, x ∈ rest → dir_lt d c.1 x.1 = true) as Hr.
  { intros x Hx. clear -Hs Hx. induction taken as [|y taken IH]; cbn in Hs.
    - apply StronglySorted_inv in Hs as [_ Hy]. rewrite Forall_forall in Hy. by apply Hy.
    - apply StronglySorted_inv in Hs as [Hs _]. by apply IH. }
  clear Hs. assert (List.filter (λ kv, dir_lt d c.1 kv.1) taken = []) as ->.
  { induction taken as [|x l IH]; [done|]. cbn. rewrite Ht by set_solver. apply IH. set_solver. }
  induction rest as [|x l IH]; [done|]. cbn. rewrite Hr by set_solver. f_equal. apply IH. set_solver.
Qed.

Lemma filter_filter_and {A} (f g : A → bool) l :
  List.filter f (List.filter g l) = List.filter (λ x, g x && f x) l.
Proof. induction l as [|x l IH]; [done|]. cbn. destruct (g x); cbn; [destruct (f x)|]; by rewrite IH. Qed.

(** Restarting a request after an entry it has delivered leaves exactly the
    entries behind it. *)
Lemma range_entries_continue m request taken e rest :
  range_entries m request = taken ++ [e] ++ rest →
  range_entries m (with_continuation request (re_key e)) = rest.
Proof.
  unfold range_entries. cbn [rq_direction with_continuation].
  set (d := rq_direction request). set (L := List.filter (selected request) (iter_of d m)). intros He.
  apply fmap_app_inv in He as (taken' & tl & -> & Htl & HL).
  destruct tl as [|c rest']; [done|]. cbn in Htl. injection Htl as -> ->.
  assert (List.filter (selected (with_continuation request (re_key (entry_of c)))) (iter_of d m)
          = List.filter (λ kv, dir_lt d c.1 kv.1) L) as ->.
  { unfold L. rewrite filter_filter_and. apply List.filter_ext_in. intros kv Hkv.
    unfold selected. rewrite !after_continuation_dir. cbn. fold d.
    change (within_range kv.1 (with_continuation request c.1)) with (within_range kv.1 request).
    destruct (dir_lt d c.1 kv.1) eqn:Hd; [|by rewrite !andb_false_r]. rewrite !andb_true_r.
    destruct (within_range kv.1 request); [|done]. cbn.
    assert (selected request c = true) as Hc.
    { assert (In c L) as Hin by (rewrite HL; apply in_or_app; right; left; done).
      by apply filter_In in Hin as [_ ?]. }
    unfold selected in Hc. rewrite after_continuation_dir in Hc. fold d in Hc. split_andb.
    destruct (rq_continuation request) as [c0|]; [|done]. cbn in *.
    symmetry. by eapply dir_lt_trans. }
  f_equal. rewrite HL. apply (filter_after_prefix d). change (c :: rest') with ([c] ++ rest') in HL.
  rewrite <- HL. apply StronglySorted_filter, iter_of_sorted.
Qed.

Lemma read_page_contract request s page :
  0 < rq_item_limit request → 0 < rq_byte_limit request < USIZE_MAX →
  read_page request s = Ok page → range_contract (fk_entries s) request page.
Proof.
  intros Hi Hb Hp. unfold read_page in Hp. invert_ok. destruct a1 as [es more]. invert_ok.
  unfold RangePage_new in Hp. destruct (_ && _); [done|]. injection Hp as <-.
  apply (page_loop_spec _ _ []) in Ha1 as (Hl & Ht & Hne & taken & rest & Hf & Hes & Hm);
    [|done|done|rewrite len_nil; lia|cbn; lia]. cbn in Hes. subst taken.
  change (range_entries (fk_entries s) request = es ++ rest) in Hf.
  split; cbn [pg_entries pg_continuation]; [| |done|by rewrite RangePage_total_bytes_spec].
  - rewrite Hf. destruct more; [|by rewrite Hm]. 
    destruct es as [|e es _] using rev_ind; [by destruct Hne|].
    rewrite last_snoc. cbn. rewrite (range_entries_continue _ _ es e rest); [done|].
    by rewrite Hf, <- app_assoc.
  - destruct more; [|done]. intros _. by apply Hne.
Qed.

(** ** Commits *)

(** The scripted outcomes that the queueing methods can produce. *)
Definition queued_ok (q : QueuedCommit) : Prop :=
  match qc_outcome q with Committed => qc_apply q = true | Conflict => qc_apply q = false | Unknown => True end.
Definition fake_ok (s : FakeStore) : Prop := Forall queued_ok (fk_queued_commits s).

Lemma commit_transaction_contract tx s s' outcome :
  fake_ok s → commit_transaction tx s = (s', outcome) →
  fake_ok s' ∧ commit_contract (fk_entries s) (fk_commits s) tx (fk_entries s') (fk_commits s') outcome.
Proof.
  unfold fake_ok, commit_transaction. intros Hq Hc.
  destruct (validate_commit s tx); [|simplify_eq; split; [done|constructor]].
  destruct (fk_commits s !! tx_operation_id tx) as [[recorded o]|] eqn:Hl.
  { case_decide; simplify_eq; split; try done; by constructor. }
  destruct (checks_match (fk_entries s) (tx_checks tx)) eqn:Hch; cbn [negb] in Hc; last first.
  { simplify_eq. split; [done|]. by constructor. }
  destruct (fk_queued_commits s) as [|q qs] eqn:Hqs; cbn in Hc, Hq.
  { case_bool_decide; [done|]. cbn in Hc. simplify_eq. cbn. rewrite Hqs.
    split; [done|]. apply CC_applied; auto. }
  apply Forall_cons in Hq as [Hq Hqs'].
  assert (Forall queued_ok (fk_queued_commits (pop_queued s))) by (by cbn; rewrite Hqs).
  destruct q as [[] []]; cbn in Hq, Hc; try done; repeat case_bool_decide; try done;
    cbn in Hc; simplify_eq; (split; [done|]); cbn.
  all: first [by apply CC_applied; auto|by apply CC_conflict|by apply CC_unknown_lost].
Qed.

#[export] Program Instance FakeStore_contract : JobStoreContract FakeStore FakeStoreError := {|
  sc_inv := fake_ok;
  sc_entries := fk_entries;
  sc_ledger := fk_commits;
|}.
Next Obligation. intros key s value Hg. cbn in Hg. unfold get in Hg. by invert_ok. Qed.
Next Obligation.
  intros keys s values Hg. cbn in Hg. unfold get_many in Hg. invert_ok.
  destruct (Z.eqb_spec (len keys) 0) as [->%len_zero_nil|]; by invert_ok.
Qed.
Next Obligation. intros. by apply read_page_contract. Qed.
Next Obligation. intros. by apply commit_transaction_contract. Qed.

Lemma queue_keeps_ok s outcome :
  fake_ok s → fake_ok (queue_commit_outcome s outcome) ∧ fake_ok (queue_unknown_before_commit s)
  ∧ fake_ok (queue_unknown_after_commit s).
Proof.
  unfold fake_ok. intros. cbn. rewrite !Forall_app. split_and!; try done; repeat constructor.
  all: unfold queued_ok; cbn; by destruct outcome.
Qed.

(** ** A sample store *)

Module SampleStore.
Definition caps : StoreCapabilities :=
  mkStoreCapabilities Local 64 64 8 512 4096 64 64 4096 (from_secs 5).
Definition limits : TransactionLimits := mkTransactionLimits 8 8 4096.
Definition tx : StoreTransaction :=
  accepted_transaction (mkStoreTransactionInput [Byte.x01] [Absent [Byte.x0a]]
    [Put [Byte.x0a] [Byte.x01]; Put [Byte.x0b] [Byte.x02]] limits).
Definition store : FakeStore := queue_unknown_after_commit (with_capabilities caps).
Definition empty : FakeStore := with_capabilities caps.
Definition request : RangeRequest := mkRangeRequest (Some [Byte.x0a]) None Forward 1 100 None.
Definition after : FakeStore := (commit_transaction tx empty).1.
End SampleStore.

(** ** Properties *)

(** C30: the reference store implements the documented commit contract, scripted
    outcomes included: a commit applies all of its mutations or none, only
    when its checks hold, never when it reports a conflict or an error, and
    binds its operation identifier to one transaction and one outcome. *)
Theorem fake_store_commit_refines tx s s' outcome :
  sc_inv s → js_commit tx s = (s', outcome) →
  sc_inv s' ∧ commit_contract (fk_entries s) (fk_commits s) tx (fk_entries s') (fk_commits s') outcome.
Proof. exact (sc_commit tx s s' outcome). Qed.

Lemma fake_store_commit_refines_witness :
  sc_inv (commit_transaction SampleStore.tx SampleStore.store).1 ∧
  commit_contract ∅ ∅ SampleStore.tx
    (fk_entries (commit_transaction SampleStore.tx SampleStore.store).1)
    (fk_commits (commit_transaction SampleStore.tx SampleStore.store).1) (@Ok FakeStoreError _ Unknown).
Proof.
  apply (fake_store_commit_refines SampleStore.tx SampleStore.store); [|reflexivity].
  repeat constructor.
Defined.

(** C32: paging through the reference store neither repeats nor skips an entry:
    a page is a non-empty prefix of what the request still has to deliver, in
    order and within both limits, and restarting from its continuation cursor
    delivers exactly the remainder. *)
Theorem fake_store_paging request s page :
  0 < rq_item_limit request → 0 < rq_byte_limit request < USIZE_MAX →
  read_page request s = Ok page → range_contract (fk_entries s) request page.
Proof. exact (sc_read_range request s page). Qed.

Lemma fake_store_paging_witness :
  range_contract (fk_entries SampleStore.after) SampleStore.request
    (mkRangePage [mkRangeEntry [Byte.x0a] [Byte.x01]] (Some [Byte.x0a])).
Proof.
  apply fake_store_paging; [cbn; lia|cbn; unfold USIZE_MAX, U64_MAX; lia|vm_compute; reflexivity].
Defined.

