(* ===== verification/Prog.v ===== *)
(** * Programs over a store

    The asynchronous functions of the engine as trees of store operations:
    every [await] on the [JobStore], every draw from the operating system's
    entropy and every scheduling choice of a concurrent poll is an operation,
    the rest is computation.  [run] executes a program against one store;
    [Logic] gives programs that run concurrently on a shared store their
    meaning. *)

From S2P Require Import Prelude Errors Ids JobRecord Store.

(** ** Operations and programs *)

(** How the publication of a claim by its handler ended. *)
Inductive Publication : Type :=
  | PUB_panicked
  | PUB_none
  | PUB_acknowledged
  | PUB_unacknowledged
  | PUB_timed_out
  | PUB_no_timer.

(** What polling a timer of the wake scheduler found. *)
Inductive TimerPoll : Type := TM_pending | TM_elapsed | TM_unavailable.

(** [AttemptAuthority] of [engine.rs]: an attempt running in this process. *)
Record AttemptAuthority : Type := mkAttemptAuthority {
  aa_job_id : JobId;
  aa_operation_id : OperationId;
  aa_fence_high_water : Z;
  aa_attempt_id : AttemptId;
}.

(** Inputs and signals that are not the store's: the shutdown flag, the wall
    clock and the monotonic clock of a bounded drive, timers, a handler's
    publication, which of the futures in flight a poll advances, and the
    registered attempts of this process with their cancellation tokens. *)
Inductive ambient : Type → Type :=
  | AShutdown : ambient bool
  | AWallNow : ambient (result ValidationError Z)
  | AMonotonicNow : ambient Z
  | ATimer : ambient TimerPoll
  | APublish : ambient Publication
  | ANextReady : ambient nat
  | ACancelled (attempt_id : AttemptId) : ambient bool
  | ARegister (authority : AttemptAuthority) : ambient unit
  | AUnregister (authority : AttemptAuthority) : ambient unit
  | ASignal (job_id : JobId) (fence : Z) (fallback : bool) : ambient unit
  | ASignalRegistered (authority : AttemptAuthority) : ambient unit
  | ASignalActive : ambient unit.

Inductive op (E : Type) : Type → Type :=
  | OGet (key : StoreKey) : op E (result E (option bytes))
  | OGetMany (keys : list StoreKey) : op E (result E (list (option bytes)))
  | OReadRange (request : RangeRequest) : op E (result E RangePage)
  | OCommit (tx : StoreTransaction) : op E (result E CommitOutcome)
  (** [getrandom::fill] of a fixed identifier. *)
  | ORandom : op E (option bytes)
  (** Which of two concurrently polled futures makes progress. *)
  | OChoose : op E bool
  | OAmbient (X : Type) (a : ambient X) : op E X.
Arguments OGet {E} key.
Arguments OGetMany {E} keys.
Arguments OReadRange {E} request.
Arguments OCommit {E} tx.
Arguments ORandom {E}.
Arguments OChoose {E}.
Arguments OAmbient {E X} a.

Inductive prog (E A : Type) : Type :=
  | Ret (a : A)
  | Vis (X : Type) (o : op E X) (k : X → prog E A).
Arguments Ret {E A} a.
Arguments Vis {E A X} o k.

Fixpoint prog_bind {E A B} (p : prog E A) (k : A → prog E B) : prog E B :=
  match p with
  | Ret a => k a
  | Vis o k' => Vis o (λ x, prog_bind (k' x) k)
  end.

Definition trigger {E X} (o : op E X) : prog E X := Vis o Ret.

#[export] Instance prog_ret E : MRet (prog E) := @Ret E.
#[export] Instance prog_mbind E : MBind (prog E) := λ A B k p, prog_bind p k.

(** [poll_fn] over two pinned futures: their operations interleave in any
    order, and the results are returned when both are ready. *)
Fixpoint join {E A B} (p : prog E A) : prog E B → prog E (A * B) :=
  match p with
  | Ret a => λ q, prog_bind q (λ b, Ret (a, b))
  | Vis o k =>
      fix join_r (q : prog E B) : prog E (A * B) :=
        match q with
        | Ret b => prog_bind (Vis o k) (λ a, Ret (a, b))
        | Vis o' k' =>
            Vis OChoose (λ first : bool,
              if first then Vis o (λ x, join (k x) q) else Vis o' (λ x, join_r (k' x)))
        end
  end.

(** ** [JobResult]: programs that fail with a [JobSystemError] *)

Definition job (E A : Type) : Type := prog E (result (JobSystemError E) A).

#[export] Instance job_ret E : MRet (job E) := λ A a, Ret (Ok a).
#[export] Instance job_bind E : MBind (job E) :=
  λ A B k p, prog_bind p (λ r, match r with Ok a => k a | Err e => Ret (Err e) end).

Definition fail {E A} (e : JobSystemError E) : job E A := Ret (Err e).

(** The conversions [?] applies to an error. *)
Class IntoJobError (F E : Type) := into_job_error : F → JobSystemError E.
#[export] Instance into_self E : IntoJobError (JobSystemError E) E := λ e, e.
#[export] Instance into_validation E : IntoJobError ValidationError E := JSE_Validation.
#[export] Instance into_contract E : IntoJobError StoreContractError E := JSE_StoreContract.
#[export] Instance into_data E : IntoJobError StoreDataError E := JSE_StoreData.

Definition try_ {E F A} `{!IntoJobError F E} (r : result F A) : job E A :=
  Ret (map_err into_job_error r).

(** A program that cannot fail, among programs that can. *)
Definition lift_prog {E A} (p : prog E A) : job E A := prog_bind p (λ a, Ret (Ok a)).

(** The result of a program as a value, for code that inspects it. *)
Definition catch {E A} (p : job E A) : job E (result (JobSystemError E) A) := lift_prog p.

(** [store.get(key).await.map_err(JobSystemError::Store)] and the like. *)
Definition store_get {E} (key : StoreKey) : job E (option bytes) :=
  prog_bind (trigger (OGet key)) (λ r, Ret (map_err JSE_Store r)).
Definition store_get_many {E} (keys : list StoreKey) : job E (list (option bytes)) :=
  prog_bind (trigger (OGetMany keys)) (λ r, Ret (map_err JSE_Store r)).
Definition store_read_range {E} (request : RangeRequest) : job E RangePage :=
  prog_bind (trigger (OReadRange request)) (λ r, Ret (map_err JSE_Store r)).
Definition store_commit {E} (tx : StoreTransaction) : job E CommitOutcome :=
  prog_bind (trigger (OCommit tx)) (λ r, Ret (map_err JSE_Store r)).

(** [Identifier::generate().map_err(|_| JobSystemError::EntropyUnavailable)];
    the sixteen bytes are the operating system's. *)
Definition generate {E} : job E bytes :=
  prog_bind (trigger ORandom) (λ x, Ret (ok_or JSE_EntropyUnavailable x)).

Definition ambient_ {E X} (a : ambient X) : job E X :=
  prog_bind (trigger (OAmbient a)) (λ x, Ret (Ok x)).

(** ** Execution against one store *)

(** Running normally, at the epoch, with handlers that publish nothing; the
    first future in flight makes progress. *)
Definition ambient_default {X} (a : ambient X) : X :=
  match a with
  | AShutdown => false
  | AWallNow => Ok 0
  | AMonotonicNow => 0
  | ATimer => TM_pending
  | APublish => PUB_none
  | ANextReady => O
  | ACancelled _ => false
  | ARegister _ | AUnregister _ | ASignalRegistered _ | ASignalActive => tt
  | ASignal _ _ _ => tt
  end.

Section run.
Context {S E : Type} `{!JobStore S E}.

(** The entropy still to be drawn is part of the state; a concurrent poll
    makes progress in the order of the source. *)
Definition run_op {X} (o : op E X) (s : S) (entropy : list bytes) : X * S * list bytes :=
  match o in op _ X return X * S * list bytes with
  | OGet key => (js_get key s, s, entropy)
  | OGetMany keys => (js_get_many keys s, s, entropy)
  | OReadRange request => (js_read_range request s, s, entropy)
  | OCommit tx => let '(s', outcome) := js_commit tx s in (outcome, s', entropy)
  | ORandom => (head entropy, s, tail entropy)
  | OChoose => (true, s, entropy)
  | OAmbient a => (ambient_default a, s, entropy)
  end.

Fixpoint run {A} (p : prog E A) (s : S) (entropy : list bytes) : A * S * list bytes :=
  match p with
  | Ret a => (a, s, entropy)
  | Vis o k => let '(x, s', entropy') := run_op o s entropy in run (k x) s' entropy'
  end.

Lemma run_bind {A B} (p : prog E A) (k : A → prog E B) s entropy :
  run (prog_bind p k) s entropy
  = let '(a, s', entropy') := run p s entropy in run (k a) s' entropy'.
Proof.
  revert s entropy. induction p as [a|X o k' IH]; intros s entropy; [done|]. cbn.
  destruct (run_op o s entropy) as [[x s'] entropy']. apply IH.
Qed.
End run.
