(* ===== verification/Logic.v ===== *)
(** * Concurrent clients of one store

    Any number of processes run programs ([Prog]) against one store that meets
    the contract of [Store].  A [world] is the store together with its past
    states, the outcomes it established and the identifiers drawn so far.
    [wp] is a rely-guarantee weakest precondition: between two operations of a
    program the other processes may change the world in any way their own
    guarantee allows ([extends]), and every operation must keep the guarantee
    ([step_ok]).  [pool_safe] shows that a pool of such programs keeps the
    invariant in every interleaving.

    Identifiers come from the operating system's secure random source; the
    model draws an identifier that was never drawn before. *)

From S2P Require Import Prelude Errors Ids JobRecord Store Prog.

(** ** Worlds *)

Record world : Type := mkWorld {
  w_now : StoreMap;
  w_past : list StoreMap;
  w_ledger : Ledger;
  w_ids : gset bytes;
}.

(** The present state and every past one, newest first. *)
Definition states (w : world) : list StoreMap := w_now w :: w_past w.

Definition draw (w : world) (id : bytes) : world :=
  mkWorld (w_now w) (w_past w) (w_ledger w) ({[id]} ∪ w_ids w).
Definition push (w : world) (now : StoreMap) (ledger : Ledger) : world :=
  mkWorld now (states w) ledger (w_ids w).

(** ** The effect of one operation *)

(** [op_effect o mine w x mine' w']: the operation [o], issued by a process
    that drew the identifiers [mine], may return [x] in the world [w] and
    leave [mine'] and [w']. *)
Definition op_effect {E X} (o : op E X) (mine : gset bytes) (w : world)
    : X → gset bytes → world → Prop :=
  match o in op _ X return X → gset bytes → world → Prop with
  | OGet key => λ x mine' w', mine' = mine ∧ w' = w ∧ ∀ v, x = Ok v → v = w_now w !! key
  | OGetMany keys => λ x mine' w',
      mine' = mine ∧ w' = w ∧ ∀ vs, x = Ok vs → vs = (λ key, w_now w !! key) <$> keys
  | OReadRange request => λ x mine' w',
      mine' = mine ∧ w' = w ∧
      ∀ page, x = Ok page → 0 < rq_item_limit request → 0 < rq_byte_limit request < USIZE_MAX →
        range_contract (w_now w) request page
  | OCommit tx => λ x mine' w',
      mine' = mine ∧ ∃ now ledger, commit_contract (w_now w) (w_ledger w) tx now ledger x ∧
        w' = push w now ledger
  | ORandom => λ x mine' w',
      x = None ∧ mine' = mine ∧ w' = w ∨
      ∃ id, x = Some id ∧ is_fixed_id id = true ∧ id ∉ w_ids w ∧
        mine' = {[id]} ∪ mine ∧ w' = draw w id
  | OChoose => λ _ mine' w', mine' = mine ∧ w' = w
  | OAmbient _ => λ _ mine' w', mine' = mine ∧ w' = w
  end.

(** ** What processes promise each other *)

(** How the ledger grows when a commit changes no entry. *)
Inductive idle_ledger (w : world) : Ledger → Prop :=
  | IL_same : idle_ledger w (w_ledger w)
  | IL_conflict tx :
      w_ledger w !! tx_operation_id tx = None → tx_operation_id tx ∈ w_ids w →
      idle_ledger w (<[tx_operation_id tx := (tx, Conflict)]> (w_ledger w)).

(** A transaction took effect at some point of the past. *)
Definition applied (w : world) (tx : StoreTransaction) : Prop :=
  ∃ m, m ∈ states w ∧ apply_mutations m (tx_mutations tx) ∈ states w ∧
    checks_match m (tx_checks tx) = true.

(** The invariant of all reachable worlds ([valid]), the identifiers that a
    state shows to other processes ([visible]) and the states that may follow
    ([good]). *)
Class Discipline := {
  valid : world → Prop;
  visible : StoreMap → bytes → Prop;
  good : world → StoreMap → Prop;
  valid_draw w id : valid w → valid (draw w id);
  visible_drawn w m id : valid w → m ∈ states w → visible m id → id ∈ w_ids w;
  committed_drawn w id r : valid w → w_ledger w !! id = Some r → id ∈ w_ids w;
  committed_applied w tx :
    valid w → w_ledger w !! tx_operation_id tx = Some (tx, Committed) → applied w tx;
  valid_idle w ledger : valid w → idle_ledger w ledger → valid (push w (w_now w) ledger);
  valid_commit w tx :
    valid w → w_ledger w !! tx_operation_id tx = None → tx_operation_id tx ∈ w_ids w →
    checks_match (w_now w) (tx_checks tx) = true →
    good w (apply_mutations (w_now w) (tx_mutations tx)) →
    (∀ id, visible (apply_mutations (w_now w) (tx_mutations tx)) id → id ∈ w_ids w) →
    valid (push w (apply_mutations (w_now w) (tx_mutations tx))
             (<[tx_operation_id tx := (tx, Committed)]> (w_ledger w)));
}.

Definition published `{!Discipline} (w : world) (id : bytes) : Prop :=
  ∃ m, m ∈ states w ∧ visible m id.

Section logic.
Context `{!Discipline}.
Implicit Types w : world.
Implicit Types mine : gset bytes.

(** What the other processes may have done while a process that drew [mine]
    was waiting. *)
Record extends (mine : gset bytes) (w w' : world) : Prop := mkExtends {
  ex_states : states w `suffix_of` states w';
  ex_ids : w_ids w ⊆ w_ids w';
  ex_ledger id r : w_ledger w !! id = Some r → w_ledger w' !! id = Some r;
  ex_valid : valid w';
  ex_unpublished id : id ∈ mine → ¬ published w id → ¬ published w' id;
  ex_uncommitted id : id ∈ mine → w_ledger w !! id = None → w_ledger w' !! id = None;
}.

(** What one operation of a process that drew [mine] may do. *)
Record step_ok (mine : gset bytes) (w w' : world) : Prop := mkStepOk {
  so_valid : valid w';
  so_published id : published w' id → published w id ∨ id ∈ mine;
  so_ledger id : w_ledger w' !! id ≠ w_ledger w !! id → id ∈ mine;
}.

Fixpoint wp {E A : Type} (mine : gset bytes) (w : world) (p : prog E A)
    (Φ : A → gset bytes → world → Prop) : Prop :=
  match p with
  | Ret a => ∀ w', extends mine w w' → Φ a mine w'
  | Vis o k =>
      ∀ w1, extends mine w w1 → ∀ x mine' w2, op_effect o mine w1 x mine' w2 →
        step_ok mine w1 w2 ∧ wp mine' w2 (k x) Φ
  end.

Lemma extends_refl mine w : valid w → extends mine w w.
Proof. by split. Qed.

Lemma extends_trans mine w1 w2 w3 :
  extends mine w1 w2 → extends mine w2 w3 → extends mine w1 w3.
Proof. intros [] []. split; [by etrans|set_solver|naive_solver..]. Qed.

Lemma extends_weaken mine mine' w w' : mine' ⊆ mine → extends mine w w' → extends mine' w w'.
Proof. intros Hm []. split; try done; set_solver. Qed.

Lemma extends_state mine w w' m : extends mine w w' → m ∈ states w → m ∈ states w'.
Proof. intros [[l Hl] _ _ _ _ _] Hm. rewrite Hl. set_solver. Qed.

Lemma extends_draw mine w id : valid w → extends mine w (draw w id).
Proof.
  intros Hv. split; cbn; [done|set_solver|done|by apply valid_draw|done|done].
Qed.

Lemma step_ok_refl mine w : valid w → step_ok mine w w.
Proof. split; [done|tauto|done]. Qed.

Lemma step_ok_draw mine w id : valid w → step_ok mine w (draw w id).
Proof.
  intros Hv. split; [by apply valid_draw|by left|done].
Qed.

Section rules.
Context {E : Type}.

Lemma wp_extends {A} mine w w' (p : prog E A) Φ :
  extends mine w w' → wp mine w p Φ → wp mine w' p Φ.
Proof.
  intros He. destruct p as [a|X o k]; cbn.
  - intros Hp w'' He'. apply Hp. by eapply extends_trans.
  - intros Hp w1 He1. apply Hp. by eapply extends_trans.
Qed.

(** Every program point is reached in a valid world. *)
Lemma wp_valid {A} mine w (p : prog E A) Φ :
  (∀ w', extends mine w w' → valid w' → wp mine w' p Φ) → wp mine w p Φ.
Proof.
  intros Hp. destruct p as [a|X o k]; cbn.
  - intros w' He. pose proof (ex_valid _ _ _ He) as Hv. apply (Hp w' He Hv). by apply extends_refl.
  - intros w1 He. pose proof (ex_valid _ _ _ He) as Hv. apply (Hp w1 He Hv). by apply extends_refl.
Qed.

Lemma wp_ret {A} mine w (a : A) (Φ : A → gset bytes → world → Prop) :
  (∀ w', extends mine w w' → Φ a mine w') → wp mine w (@Ret E A a) Φ.
Proof. done. Qed.

Lemma wp_bind {A B} mine w (p : prog E A) (k : A → prog E B) Φ :
  wp mine w p (λ a mine' w', wp mine' w' (k a) Φ) → wp mine w (prog_bind p k) Φ.
Proof.
  revert mine w. induction p as [a|X o k' IH]; intros mine w Hp; cbn in *.
  - apply wp_valid. intros w' He _. by apply Hp.
  - intros w1 He x mine' w2 Ho. destruct (Hp w1 He x mine' w2 Ho) as [Hs Hk]. auto.
Qed.

Lemma wp_mono {A} mine w (p : prog E A) (Φ Ψ : A → gset bytes → world → Prop) :
  wp mine w p Φ → (∀ a mine' w', valid w' → Φ a mine' w' → Ψ a mine' w') → wp mine w p Ψ.
Proof.
  intros Hp HΦ. revert mine w Hp. induction p as [a|X o k IH]; intros mine w Hp; cbn in *.
  - intros w' He. apply HΦ; [by eapply ex_valid|by apply Hp].
  - intros w1 He x mine' w2 Ho. destruct (Hp w1 He x mine' w2 Ho) as [Hs Hk]. auto.
Qed.

(** The operations of a quiet program change nothing. *)
Definition read_only {X} (o : op E X) : Prop :=
  match o with OCommit _ | ORandom => False | _ => True end.
Fixpoint quiet {A : Type} (p : prog E A) : Prop :=
  match p with Ret _ => True | Vis o k => read_only o ∧ ∀ x, quiet (k x) end.

Lemma read_only_effect {X} (o : op E X) mine w x mine' w' :
  read_only o → op_effect o mine w x mine' w' → mine' = mine ∧ w' = w.
Proof. destruct o; cbn; naive_solver. Qed.

Lemma quiet_bind {A B} (p : prog E A) (k : A → prog E B) :
  quiet p → (∀ a, quiet (k a)) → quiet (prog_bind p k).
Proof. intros Hp Hk. induction p as [a|X o k' IH]; cbn in *; [done|]. naive_solver. Qed.

Definition stable {A : Type} (Φ : A → gset bytes → world → Prop) : Prop :=
  ∀ a mine w w', extends mine w w' → Φ a mine w → Φ a mine w'.

(** What is stable survives a quiet program. *)
Lemma wp_frame {A B : Type} (Φ : A → gset bytes → world → Prop) (Ψ : B → gset bytes → world → Prop)
    a mine w (q : prog E B) :
  stable Φ → quiet q → (∀ w', extends mine w w' → Φ a mine w') → wp mine w q Ψ →
  wp mine w q (λ b mine' w', Φ a mine' w' ∧ Ψ b mine' w').
Proof.
  intros HΦ Hq Ha. revert w Ha. induction q as [b|Y o k IH]; intros w Ha Wq; cbn in *.
  - auto.
  - intros w1 He x mine' w2 Ho. destruct (Wq w1 He x mine' w2 Ho) as [Hs Hk]. split; [done|].
    destruct Hq as [Hr Hq]. destruct (read_only_effect _ _ _ _ _ _ Hr Ho) as [-> ->].
    apply IH; [done| |done]. intros w' He'. apply Ha. by eapply extends_trans.
Qed.

(** Two quiet futures polled together: each establishes its postcondition. *)
Lemma wp_join {A B : Type} mine w (p : prog E A) (q : prog E B)
    (Φ : A → gset bytes → world → Prop) (Ψ : B → gset bytes → world → Prop)
    (Θ : A * B → gset bytes → world → Prop) :
  stable Φ → stable Ψ → quiet p → quiet q → wp mine w p Φ → wp mine w q Ψ →
  (∀ a b mine' w', valid w' → Φ a mine' w' → Ψ b mine' w' → Θ (a, b) mine' w') →
  wp mine w (join p q) Θ.
Proof.
  intros HΦ HΨ Hp Hq Wp Wq HΘ. revert w q Hq Wp Wq. induction p as [a|X o k IH]; intros w q Hq Wp Wq.
  { cbn. apply wp_bind. eapply wp_mono; [by apply (wp_frame Φ Ψ a)|]. cbn. intros b mine' w' Hv [Ha Hb] w'' He.
    apply HΘ; [by eapply ex_valid|by eapply HΦ|by eapply HΨ]. }
  revert w Wp Wq. induction q as [b|Y o' k' IHq]; intros w Wp Wq.
  { change (join (Vis o k) (Ret b)) with (prog_bind (Vis o k) (λ a, Ret (a, b))). apply wp_bind.
    eapply wp_mono; [by apply (wp_frame Ψ Φ b)|]. cbn. intros a mine' w' Hv [Hb Ha] w'' He.
    apply HΘ; [by eapply ex_valid|by eapply HΦ|by eapply HΨ]. }
  intros w1 He first mine1 w1' [-> ->]. split; [apply step_ok_refl; by eapply ex_valid|].
  destruct Hp as [Hr Hp], Hq as [Hr' Hq]. destruct first.
  - intros w2 He2 x mine' w3 Ho. pose proof (extends_trans _ _ _ _ He He2) as He'.
    destruct (Wp w2 He' x mine' w3 Ho) as [Hs Hk]. split; [done|].
    destruct (read_only_effect _ _ _ _ _ _ Hr Ho) as [-> ->].
    apply IH; [done|done|done|]. by apply (wp_extends mine w w2).
  - intros w2 He2 x mine' w3 Ho. pose proof (extends_trans _ _ _ _ He He2) as He'.
    destruct (Wq w2 He' x mine' w3 Ho) as [Hs Hk]. split; [done|].
    destruct (read_only_effect _ _ _ _ _ _ Hr' Ho) as [-> ->].
    apply (IHq x); [done| |done]. by apply (wp_extends mine w w2).
Qed.

(** ** Transactions *)

(** Wherever the checks hold, from now on, the mutations lead to a state that
    may follow and show no identifier but those of [ids]; the identifiers
    [ids] are this process's, and still hidden. *)
Definition tx_safe (ids : gset bytes) (w : world) (checks : list Check) (mutations : list Mutation)
    : Prop :=
  ∀ w', extends ids w w' → checks_match (w_now w') checks = true →
    good w' (apply_mutations (w_now w') mutations) ∧
    ∀ id, visible (apply_mutations (w_now w') mutations) id → published w' id ∨ id ∈ ids.

Lemma tx_safe_extends ids w w' checks mutations :
  extends ids w w' → tx_safe ids w checks mutations → tx_safe ids w' checks mutations.
Proof. intros He Hs w'' He'. apply Hs. by eapply extends_trans. Qed.

(** A transaction that has not taken effect is safe to commit. *)
Definition tx_ready (ids : gset bytes) (w : world) (tx : StoreTransaction) : Prop :=
  w_ledger w !! tx_operation_id tx = None → tx_safe ids w (tx_checks tx) (tx_mutations tx).

(** The identifier of a transaction was drawn by this process for nothing
    else. *)
Record tx_owned (ids mine : gset bytes) (w : world) (tx : StoreTransaction) : Prop := mkTxOwned {
  to_mine : tx_operation_id tx ∈ mine;
  to_drawn : tx_operation_id tx ∈ w_ids w;
  to_other : tx_operation_id tx ∉ ids;
  to_ids : ids ⊆ mine;
  to_ids_drawn : ids ⊆ w_ids w;
}.

Lemma tx_owned_extends ids mine mine' w w' tx :
  extends mine' w w' → tx_owned ids mine w tx → tx_owned ids mine w' tx.
Proof. intros [] []. split; set_solver. Qed.

Definition commit_post (ids mine : gset bytes) (w : world) (tx : StoreTransaction)
    (x : result E CommitOutcome) (mine' : gset bytes) (w' : world) : Prop :=
  mine' = mine ∧ extends ∅ w w' ∧
  (w_ledger w' !! tx_operation_id tx ≠ Some (tx, Committed) → extends ids w w') ∧
  (x = Ok Committed → w_ledger w' !! tx_operation_id tx = Some (tx, Committed)) ∧
  (x = Ok Conflict → w_ledger w' !! tx_operation_id tx = Some (tx, Conflict)).

Lemma states_push_idle w ledger : states w `suffix_of` states (push w (w_now w) ledger).
Proof. by exists [w_now w]. Qed.

Lemma published_push w now ledger id :
  published (push w now ledger) id → published w id ∨ visible now id.
Proof.
  intros (m & [->|Hm]%elem_of_cons & Hid); [by right|]. left. by exists m.
Qed.

Lemma published_push_idle w ledger id : published (push w (w_now w) ledger) id → published w id.
Proof.
  intros [?|Hid]%published_push; [done|]. exists (w_now w). split; [|done]. apply list_elem_of_here.
Qed.

Lemma push_idle_same mine w : valid w → extends mine w (push w (w_now w) (w_ledger w)).
Proof.
  intros Hv. split; cbn; [apply states_push_idle|done|done|apply valid_idle; [done|constructor]| |done].
  intros id _ Hn Hp%published_push_idle. done.
Qed.

Lemma push_idle_conflict ids w tx :
  valid w → w_ledger w !! tx_operation_id tx = None → tx_operation_id tx ∈ w_ids w →
  tx_operation_id tx ∉ ids →
  extends ids w (push w (w_now w) (<[tx_operation_id tx := (tx, Conflict)]> (w_ledger w))).
Proof.
  intros Hv Hl Hd Ho. split; cbn; [apply states_push_idle|done| | | |].
  - intros id r Hr. rewrite lookup_insert_ne; [done|]. congruence.
  - apply valid_idle; [done|]. by constructor.
  - intros id _ Hn Hp%published_push_idle. done.
  - intros id Hid Hn. rewrite lookup_insert_ne; [done|]. congruence.
Qed.

Lemma push_commit w tx ids :
  valid w → w_ledger w !! tx_operation_id tx = None → tx_operation_id tx ∈ w_ids w → ids ⊆ w_ids w →
  tx_safe ids w (tx_checks tx) (tx_mutations tx) → checks_match (w_now w) (tx_checks tx) = true →
  let w' := push w (apply_mutations (w_now w) (tx_mutations tx))
              (<[tx_operation_id tx := (tx, Committed)]> (w_ledger w)) in
  extends ∅ w w' ∧ ∀ id, published w' id → published w id ∨ id ∈ ids.
Proof.
  intros Hv Hl Hd Hi Hs Hc w'. destruct (Hs w (extends_refl _ _ Hv) Hc) as [Hg Hp].
  assert (∀ id, published w id → id ∈ w_ids w) as Hpd.
  { intros id (m & Hm & Hid). by eapply visible_drawn. }
  split; [split; cbn; [| |intros id r Hr| | |]|].
  - by exists [apply_mutations (w_now w) (tx_mutations tx)].
  - done.
  - rewrite lookup_insert_ne; [done|]. congruence.
  - apply valid_commit; try done. intros id Hid. destruct (Hp id Hid); [auto|set_solver].
  - set_solver.
  - set_solver.
  - intros id [?|Hid]%published_push; auto.
Qed.

Lemma step_ok_idle mine w ledger :
  valid w → idle_ledger w ledger → (∀ id, ledger !! id ≠ w_ledger w !! id → id ∈ mine) →
  step_ok mine w (push w (w_now w) ledger).
Proof.
  intros Hv Hl Hm. split; [by apply valid_idle| |done]. intros id ?%published_push_idle. by left.
Qed.

(** A commit that changed nothing, followed by anything. *)
Lemma commit_post_idle ids mine w w1 ledger tx (x : result E CommitOutcome) w3 :
  ids ⊆ mine → extends mine w w1 → extends ids w1 (push w1 (w_now w1) ledger) →
  extends mine (push w1 (w_now w1) ledger) w3 →
  (x = Ok Committed → ledger !! tx_operation_id tx = Some (tx, Committed)) →
  (x = Ok Conflict → ledger !! tx_operation_id tx = Some (tx, Conflict)) →
  commit_post ids mine w tx x mine w3.
Proof.
  intros Hi He H1 H3 Hc Hf.
  assert (extends ids w w3) as Hw.
  { eapply extends_trans; [by eapply extends_weaken|]. eapply extends_trans; [done|].
    by eapply extends_weaken. }
  split; [done|]. split; [eapply extends_weaken; [|done]; set_solver|]. split; [done|].
  split; intros Hx; eapply (ex_ledger _ _ _ H3); cbn; auto.
Qed.

Lemma wp_commit ids mine w tx :
  tx_owned ids mine w tx → tx_ready ids w tx →
  wp mine w (trigger (OCommit tx)) (commit_post ids mine w tx).
Proof.
  intros Ho Hr w1 He x mine' w2 [-> (now & ledger & Hc & ->)].
  pose proof (tx_owned_extends _ _ _ _ _ _ He Ho) as [Hm Hd Hot Hi Hid].
  pose proof (ex_valid _ _ _ He) as Hv.
  assert (∀ x : result E CommitOutcome,
    (x = Ok Committed → w_ledger w1 !! tx_operation_id tx = Some (tx, Committed)) →
    (x = Ok Conflict → w_ledger w1 !! tx_operation_id tx = Some (tx, Conflict)) →
    step_ok mine w1 (push w1 (w_now w1) (w_ledger w1)) ∧
    ∀ w3, extends mine (push w1 (w_now w1) (w_ledger w1)) w3 → commit_post ids mine w tx x mine w3) as Hidle.
  { intros x' H1 H2. split; [apply step_ok_idle; [done|constructor|done]|]. intros w3 He3.
    eapply commit_post_idle; eauto. by apply push_idle_same. }
  inversion Hc as [outcome Hl|Hl|outcome Hl Hch Hou|Hl|e]; subst; cbn [wp].
  - apply Hidle; congruence.
  - split; [apply step_ok_idle; [done|by constructor|]|].
    + intros id Hne. destruct (decide (id = tx_operation_id tx)) as [->|]; [done|].
      by rewrite lookup_insert_ne in Hne by done.
    + intros w3 He3. eapply commit_post_idle; eauto; [by apply push_idle_conflict|done|].
      intros _. by rewrite lookup_insert_eq.
  - assert (tx_safe ids w1 (tx_checks tx) (tx_mutations tx)) as Hs.
    { apply (tx_safe_extends ids w); [by apply (extends_weaken mine)|]. apply Hr.
      destruct (w_ledger w !! tx_operation_id tx) as [r|] eqn:Hw; [|done].
      apply (ex_ledger _ _ _ He) in Hw. congruence. }
    destruct (push_commit w1 tx ids) as [Hex Hpub]; try done. split.
    + split; [by eapply ex_valid| |].
      * intros id Hp. destruct (Hpub id Hp); [by left|right; set_solver].
      * intros id Hne. destruct (decide (id = tx_operation_id tx)) as [->|]; [done|].
        cbn in Hne. by rewrite lookup_insert_ne in Hne by done.
    + intros w3 He3.
      assert (w_ledger w3 !! tx_operation_id tx = Some (tx, Committed)) as Hl3.
      { apply (ex_ledger _ _ _ He3). cbn. by rewrite lookup_insert_eq. }
      split; [done|]. split.
      { eapply extends_trans; [eapply (extends_weaken mine); [set_solver|done]|].
        eapply extends_trans; [done|]. eapply extends_weaken; [|done]. set_solver. }
      split; [congruence|]. split; [done|]. intros [= ->]. by destruct Hou.
  - apply Hidle; congruence.
  - apply Hidle; congruence.
Qed.

(** ** Programs that fail: the postcondition speaks of success *)

Definition wpj {A : Type} mine w (p : job E A) (Φ : A → gset bytes → world → Prop) : Prop :=
  wp mine w p (λ r mine' w', match r with Ok a => Φ a mine' w' | Err _ => True end).

Lemma wpj_ret {A} mine w (a : A) (Φ : A → gset bytes → world → Prop) :
  (∀ w', extends mine w w' → Φ a mine w') → wpj mine w (mret a) Φ.
Proof. done. Qed.

Lemma wpj_fail {A} mine w (e : JobSystemError E) (Φ : A → gset bytes → world → Prop) : wpj mine w (fail e) Φ.
Proof. done. Qed.

Lemma wpj_bind {A B} mine w (p : job E A) (k : A → job E B) Φ :
  wpj mine w p (λ a mine' w', wpj mine' w' (k a) Φ) → wpj mine w (p ≫= k) Φ.
Proof.
  intros Hp. apply wp_bind. eapply wp_mono; [exact Hp|]. intros [a|e] mine' w' _ Ha; [done|]. done.
Qed.

Lemma wpj_mono {A} mine w (p : job E A) (Φ Ψ : A → gset bytes → world → Prop) :
  wpj mine w p Φ → (∀ a mine' w', valid w' → Φ a mine' w' → Ψ a mine' w') → wpj mine w p Ψ.
Proof. intros Hp HΦ. eapply wp_mono; [exact Hp|]. intros [a|e]; naive_solver. Qed.

Lemma wpj_extends {A} mine w w' (p : job E A) Φ :
  extends mine w w' → wpj mine w p Φ → wpj mine w' p Φ.
Proof. apply wp_extends. Qed.

Lemma wpj_try {A B F} `{!IntoJobError F E} mine w (r : result F A) (k : A → job E B) Φ :
  (∀ a, r = Ok a → wpj mine w (k a) Φ) → wpj mine w (try_ r ≫= k) Φ.
Proof. intros Hk. destruct r; [by apply Hk|done]. Qed.

Lemma wpj_try_last {A F} `{!IntoJobError F E} mine w (r : result F A) (Φ : A → gset bytes → world → Prop) :
  (∀ a w', r = Ok a → extends mine w w' → Φ a mine w') → wpj mine w (try_ r) Φ.
Proof. intros Hk. destruct r; [intros w' He; by apply Hk|done]. Qed.

Lemma wpj_get {A} mine w (key : StoreKey) (k : option bytes → job E A) Φ :
  (∀ w' v, extends mine w w' → v = w_now w' !! key → wpj mine w' (k v) Φ) →
  wpj mine w (store_get key ≫= k) Φ.
Proof.
  intros Hk w1 He x mine' w2 (-> & -> & Hx). split; [apply step_ok_refl; by eapply ex_valid|].
  destruct x as [v|e]; [|done]. apply Hk; auto.
Qed.

Lemma wpj_get_many {A} mine w (keys : list StoreKey) (k : list (option bytes) → job E A) Φ :
  (∀ w' vs, extends mine w w' → vs = (λ key, w_now w' !! key) <$> keys → wpj mine w' (k vs) Φ) →
  wpj mine w (store_get_many keys ≫= k) Φ.
Proof.
  intros Hk w1 He x mine' w2 (-> & -> & Hx). split; [apply step_ok_refl; by eapply ex_valid|].
  destruct x as [v|e]; [|done]. apply Hk; auto.
Qed.

Lemma wpj_read_range {A} mine w (request : RangeRequest) (k : RangePage → job E A) Φ :
  (∀ w' page, extends mine w w' → wpj mine w' (k page) Φ) →
  wpj mine w (store_read_range request ≫= k) Φ.
Proof.
  intros Hk w1 He x mine' w2 (-> & -> & Hx). split; [apply step_ok_refl; by eapply ex_valid|].
  destruct x as [v|e]; [|done]. by apply Hk.
Qed.

Lemma wpj_ambient {A X} mine w (a : ambient X) (k : X → job E A) Φ :
  (∀ w' x, extends mine w w' → wpj mine w' (k x) Φ) → wpj mine w (ambient_ a ≫= k) Φ.
Proof.
  intros Hk w1 He x mine' w2 (-> & ->). split; [apply step_ok_refl; by eapply ex_valid|]. by apply Hk.
Qed.

Lemma fresh_hidden w id :
  valid w → id ∉ w_ids w → ¬ published (draw w id) id ∧ w_ledger (draw w id) !! id = None.
Proof.
  intros Hv Hid. split.
  - intros (m & Hm & Hvis). destruct Hid. by eapply visible_drawn.
  - cbn. destruct (w_ledger w !! id) eqn:Hl; [|done]. by apply committed_drawn in Hl.
Qed.

Lemma wpj_generate {A} mine w (k : bytes → job E A) Φ :
  (∀ w' id, extends mine w w' → is_fixed_id id = true → id ∉ w_ids w' →
     wpj ({[id]} ∪ mine) (draw w' id) (k id) Φ) →
  wpj mine w (generate ≫= k) Φ.
Proof.
  intros Hk w1 He x mine' w2 Ho. pose proof (ex_valid _ _ _ He) as Hv.
  destruct Ho as [(-> & -> & ->)|(id & -> & Hf & Hid & -> & ->)].
  - split; [by apply step_ok_refl|done].
  - split; [by apply step_ok_draw|by apply Hk].
Qed.
End rules.
End logic.

(** ** Interference *)

Section interference.
Context `{!Discipline} {E : Type}.

(** Operations only add to the past, to the drawn identifiers and to the
    established outcomes. *)
Lemma op_grows {X} (o : op E X) mine w x mine' w' :
  op_effect o mine w x mine' w' →
  states w `suffix_of` states w' ∧ w_ids w ⊆ w_ids w' ∧
  ∀ id r, w_ledger w !! id = Some r → w_ledger w' !! id = Some r.
Proof.
  destruct o; cbn; try by intros (_ & -> & _).
  - intros (_ & now & ledger & Hc & ->). split; [by exists [now]|]. split; [done|]. intros id r Hr. cbn.
    inversion Hc; subst; try done; (rewrite lookup_insert_ne; [done|congruence]).
  - intros [(_ & _ & ->)|(id & _ & _ & _ & _ & ->)]; [done|]. split; [done|]. split; [set_solver|done].
  - by intros [_ ->].
  - by intros [_ ->].
Qed.

Lemma op_mine {X} (o : op E X) mine w x mine' w' :
  op_effect o mine w x mine' w' → ∀ id, id ∈ mine' → id ∈ mine ∨ (id ∉ w_ids w ∧ id ∈ w_ids w').
Proof.
  destruct o; cbn; try (intros (-> & _) id ?; by left).
  intros [(_ & -> & _)|(id & _ & _ & Hid & -> & ->)]; [by left|]. intros id' Hi. cbn.
  destruct (decide (id' = id)) as [->|]; [right; set_solver|left; set_solver].
Qed.

(** An operation of one process is interference that the others rely on. *)
Lemma op_extends {X} (o : op E X) mine w x mine' w' other :
  op_effect o mine w x mine' w' → step_ok mine w w' → other ## mine → extends other w w'.
Proof.
  intros Ho [Hv' Hp Hl] Hd. destruct (op_grows _ _ _ _ _ _ Ho) as (Hst & Hids & Hled).
  split; [done|done|done|done| |].
  - intros id Hid Hn Hpub. destruct (Hp id Hpub); [done|set_solver].
  - intros id Hid Hn. destruct (decide (w_ledger w' !! id = w_ledger w !! id)) as [->|Hne]; [done|].
    apply Hl in Hne. set_solver.
Qed.

End interference.

(** ** Pools of processes *)

Section pool.
Context `{!Discipline} {E T : Type}.
(** What a process returns to its caller (claims), what is known of it, and
    the calls a holder of such values may make. *)
Context (token_ok : world → T → Prop) (calls : list T → prog E (list T) → Prop).

Record thread : Type := mkThread { th_mine : gset bytes; th_prog : prog E (list T) }.
Record config : Type := mkConfig {
  cf_world : world;
  cf_threads : gmap nat thread;
  cf_tokens : list T;
}.

Inductive pool_step : config → config → Prop :=
  | PS_call w ts tokens i p :
      calls tokens p → ts !! i = None →
      pool_step (mkConfig w ts tokens) (mkConfig w (<[i := mkThread ∅ p]> ts) tokens)
  | PS_op w ts tokens i mine X (o : op E X) k x mine' w' :
      ts !! i = Some (mkThread mine (Vis o k)) → op_effect o mine w x mine' w' →
      pool_step (mkConfig w ts tokens) (mkConfig w' (<[i := mkThread mine' (k x)]> ts) tokens)
  | PS_return w ts tokens i mine rs :
      ts !! i = Some (mkThread mine (Ret rs)) →
      pool_step (mkConfig w ts tokens) (mkConfig w (delete i ts) (rs ++ tokens)).

Definition returns (rs : list T) (_ : gset bytes) (w : world) : Prop := Forall (token_ok w) rs.

Record pool_ok (c : config) : Prop := mkPoolOk {
  po_valid : valid (cf_world c);
  po_threads i t :
    cf_threads c !! i = Some t →
    wp (th_mine t) (cf_world c) (th_prog t) returns ∧ th_mine t ⊆ w_ids (cf_world c);
  po_disjoint i j t u :
    i ≠ j → cf_threads c !! i = Some t → cf_threads c !! j = Some u → th_mine t ## th_mine u;
  po_tokens : Forall (token_ok (cf_world c)) (cf_tokens c);
}.

Hypothesis token_stable : ∀ w w' t, extends ∅ w w' → token_ok w t → token_ok w' t.
Hypothesis calls_safe : ∀ w tokens p,
  valid w → Forall (token_ok w) tokens → calls tokens p → wp ∅ w p returns.

Lemma pool_ok_call w ts tokens i p :
  pool_ok (mkConfig w ts tokens) → calls tokens p → ts !! i = None →
  pool_ok (mkConfig w (<[i := mkThread ∅ p]> ts) tokens).
Proof.
  intros [Hv Ht Hd Htok] Hc Hi. cbn in *. split; cbn; [done| | |done].
  - intros j t [[<- <-]|[Hj Hl]]%lookup_insert_Some; [|by apply (Ht j)]. cbn. split; [|set_solver].
    by eapply calls_safe.
  - intros j k t u Hjk. rewrite !lookup_insert_Some. intros [[<- <-]|[? H1]] [[<- <-]|[? H2]]; cbn.
    + done.
    + set_solver.
    + set_solver.
    + exact (Hd j k t u Hjk H1 H2).
Qed.

Lemma pool_ok_op w ts tokens i mine X (o : op E X) k x mine' w' :
  pool_ok (mkConfig w ts tokens) → ts !! i = Some (mkThread mine (Vis o k)) →
  op_effect o mine w x mine' w' →
  pool_ok (mkConfig w' (<[i := mkThread mine' (k x)]> ts) tokens).
Proof.
  intros [Hv Ht Hd Htok] Hi Ho. cbn in *. destruct (Ht i _ Hi) as [Hw Hm]. cbn in *.
  destruct (Hw w (extends_refl _ _ Hv) x mine' w' Ho) as [Hs Hk].
  destruct (op_grows _ _ _ _ _ _ Ho) as (_ & Hids & _). pose proof (op_mine _ _ _ _ _ _ Ho) as Hm'.
  assert (∀ other, other ## mine → extends other w w') as He by (intros other ?; by eapply op_extends).
  split; cbn; [by destruct Hs| | |].
  - intros j t [[<- <-]|[Hj Hl]]%lookup_insert_Some; cbn.
    + split; [done|]. intros id [?|[_ ?]]%Hm'; set_solver.
    + destruct (Ht j t Hl) as [Hwj Hmj]. split; [|set_solver]. eapply wp_extends; [|exact Hwj].
      apply He. by apply (Hd j i t (mkThread mine (Vis o k))).
  - assert (∀ j t, i ≠ j → ts !! j = Some t → mine' ## th_mine t) as Hn.
    { intros j t Hj Hl id Hid Hit. destruct (Hm' id Hid) as [Hin|[Hout _]].
      - by apply (Hd i j _ _ Hj Hi Hl id).
      - apply Hout. by apply (Ht j t Hl). }
    intros j k' t u Hjk. rewrite !lookup_insert_Some. intros [[<- <-]|[? H1]] [[<- <-]|[? H2]]; cbn.
    + done.
    + by apply (Hn k').
    + symmetry. by apply (Hn j).
    + exact (Hd j k' t u Hjk H1 H2).
  - eapply Forall_impl; [exact Htok|]. intros t. apply token_stable. apply He. set_solver.
Qed.

Lemma pool_ok_return w ts tokens i mine rs :
  pool_ok (mkConfig w ts tokens) → ts !! i = Some (mkThread mine (Ret rs)) →
  pool_ok (mkConfig w (delete i ts) (rs ++ tokens)).
Proof.
  intros [Hv Ht Hd Htok] Hi. cbn in *. destruct (Ht i _ Hi) as [Hw _]. split; cbn; [done| | |].
  - intros j t [_ Hl]%lookup_delete_Some. by apply (Ht j).
  - intros j k t u Hjk [_ H1]%lookup_delete_Some [_ H2]%lookup_delete_Some. exact (Hd j k t u Hjk H1 H2).
  - apply Forall_app. split; [|done]. apply Hw. by apply extends_refl.
Qed.

Theorem pool_safe c c' : pool_ok c → rtc pool_step c c' → pool_ok c'.
Proof.
  intros Hc Hr. induction Hr as [|c1 c2 c3 Hs _ IH]; [done|]. apply IH.
  destruct Hs; [by apply pool_ok_call|by eapply pool_ok_op|by eapply pool_ok_return].
Qed.
End pool.

(** ** Running alone is one of the interleavings *)

Section adequacy.
Context {S E : Type} `{!JobStore S E} `{!JobStoreContract S E}.

Definition world_of (s : S) (past : list StoreMap) (ids : gset bytes) : world :=
  mkWorld (sc_entries s) past (sc_ledger s) ids.

(** Entropy that is still to be drawn. *)
Definition fresh_entropy (entropy : list bytes) (ids : gset bytes) : Prop :=
  NoDup entropy ∧ Forall (λ id, is_fixed_id id = true ∧ id ∉ ids) entropy.

Inductive thread_run {A : Type} : gset bytes → world → prog E A → gset bytes → world → A → Prop :=
  | TR_ret mine w a : thread_run mine w (Ret a) mine w a
  | TR_op mine w X (o : op E X) k x mine1 w1 mine2 w2 a :
      op_effect o mine w x mine1 w1 → thread_run mine1 w1 (k x) mine2 w2 a →
      thread_run mine w (Vis o k) mine2 w2 a.

Lemma run_op_effect {X} (o : op E X) s entropy mine past ids x s' entropy' :
  sc_inv s → fresh_entropy entropy ids → run_op o s entropy = (x, s', entropy') →
  ∃ mine' past' ids', op_effect o mine (world_of s past ids) x mine' (world_of s' past' ids') ∧
    sc_inv s' ∧ fresh_entropy entropy' ids'.
Proof.
  intros Hi Hf Hr. destruct o; cbn in Hr.
  - simplify_eq. exists mine, past, ids. cbn. split_and!; try done. intros v. apply sc_get.
  - simplify_eq. exists mine, past, ids. cbn. split_and!; try done. intros vs. apply sc_get_many.
  - simplify_eq. exists mine, past, ids. cbn. split_and!; try done. intros page Hp ??. by apply sc_read_range.
  - destruct (js_commit tx s) as [s1 outcome] eqn:Hc. simplify_eq.
    apply (sc_commit _ _ _ _ Hi) in Hc as [Hi' Hc]. exists mine, (sc_entries s :: past), ids. cbn.
    split_and!; try done. by exists (sc_entries s'), (sc_ledger s').
  - destruct entropy as [|id entropy]; simplify_eq/=; [exists mine, past, ids; cbn; tauto|].
    destruct Hf as [[Hn Hnd]%NoDup_cons [[Hid Hni] Hall]%Forall_cons].
    exists ({[id]} ∪ mine), past, ({[id]} ∪ ids). split; [|split; [done|]].
    + right. by exists id.
    + split; [done|]. rewrite Forall_forall in Hall |- *. intros y Hy. destruct (Hall y Hy). split; [done|]. set_solver.
  - simplify_eq. by exists mine, past, ids.
  - simplify_eq. by exists mine, past, ids.
Qed.

Lemma run_thread {A} (p : prog E A) s entropy mine past ids a s' entropy' :
  sc_inv s → fresh_entropy entropy ids → run p s entropy = (a, s', entropy') →
  ∃ mine' past' ids', thread_run mine (world_of s past ids) p mine' (world_of s' past' ids') a ∧
    sc_inv s' ∧ fresh_entropy entropy' ids'.
Proof.
  revert s entropy mine past ids. induction p as [b|X o k IH]; intros s entropy mine past ids Hi Hf Hr; cbn in Hr.
  - simplify_eq. exists mine, past, ids. split; [constructor|done].
  - destruct (run_op o s entropy) as [[x s1] entropy1] eqn:Ho.
    destruct (run_op_effect _ _ _ mine past _ _ _ _ Hi Hf Ho) as (mine1 & past1 & ids1 & He & Hi1 & Hf1).
    destruct (IH x _ _ mine1 past1 _ Hi1 Hf1 Hr) as (mine2 & past2 & ids2 & Ht & Hi2 & Hf2).
    exists mine2, past2, ids2. split; [by econstructor|done].
Qed.

Context {T : Type} (calls : list T → prog E (list T) → Prop).

Lemma thread_run_pool mine w p mine' w' rs ts tokens i :
  thread_run mine w p mine' w' rs → ts !! i = Some (mkThread mine p) →
  rtc (pool_step calls) (mkConfig w ts tokens) (mkConfig w' (delete i ts) (rs ++ tokens)).
Proof.
  intros Hr. remember rs as a eqn:Ha. revert ts. induction Hr as [mine w a|]; intros ts Hi; subst.
  - apply rtc_once. by econstructor.
  - eapply rtc_l; [by econstructor|]. rewrite <- (delete_insert_eq ts i (mkThread mine1 (k x))).
    apply IHHr; [done|]. by rewrite lookup_insert_eq.
Qed.
End adequacy.
