(* ===== verification/System.v ===== *)
(** * The job system

    [crates/bg-jobs/src/engine.rs] ([JobSystem] and its reads),
    [registry.rs] (handler registrations) and
    [lifecycle/claim/types.rs] ([ClaimedJob]).  The store is reached through
    the operations of [Prog]; what a program needs to know of it without an
    operation is its constant capabilities.  Observers receive events and
    return nothing; they are not modelled. *)

From S2P Require Import Prelude Errors Ids Clock Policy JobRecord Store Prog.

(** ** Handler registrations *)

Record HandlerRegistration : Type := mkHandlerRegistration {
  hr_kind : JobKind;
  hr_schema_version : Z;
  hr_queue : QueueName;
  hr_effect_mode : EffectMode;
  hr_cost_units : Z;
  hr_fairness_policy : FairnessPolicy;
  hr_default_retry : RetrySelection;
  hr_default_timeout : Duration;
}.

(** What the types of the fields guarantee. *)
Definition is_retry_selection (s : RetrySelection) : bool := is_retry_policy (RetryPolicy_from s).
Definition is_registration (d : HandlerRegistration) : bool :=
  is_text MAX_NAME_BYTES (hr_kind d) && is_nonzero_u16 (hr_schema_version d) && is_text MAX_NAME_BYTES (hr_queue d)
  && is_nonzero_u16 (hr_cost_units d) && is_retry_selection (hr_default_retry d) && is_duration (hr_default_timeout d).
Definition is_new_job (j : NewJob) : bool :=
  is_fixed_id (nj_job_id j) && is_text MAX_NAME_BYTES (nj_kind j) && is_nonzero_u16 (nj_schema_version j)
  && is_fairness_class (nj_fairness j) && is_option (is_opaque MAX_ORDERING_KEY_BYTES) (nj_ordering_key j)
  && is_i64 (nj_scheduled_at j) && is_option is_i64 (nj_expires_at j)
  && is_option is_retry_selection (nj_retry_override j) && is_option is_deduplication (nj_deduplication j).

(** [HandlerDefinition] carries the fields of its registration. *)
Definition HandlerDefinition_validate (d : HandlerRegistration) : result ValidationError unit :=
  _ ← validate_cost_units "handler cost units" (hr_cost_units d);
  _ ← validate_execution_timeout "handler timeout" (Some (hr_default_timeout d));
  Ok tt.

Definition HandlerRegistry : Type := gmap Z (gmap JobKind HandlerRegistration).

Definition HandlerRegistry_register (registry : HandlerRegistry) (definition : HandlerRegistration)
    : result ValidationError HandlerRegistry :=
  _ ← HandlerDefinition_validate definition;
  let by_kind := default ∅ (registry !! hr_schema_version definition) in
  match by_kind !! hr_kind definition with
  | Some _ => Err (VE_InvalidValue "duplicate handler registration")
  | None =>
      Ok (<[hr_schema_version definition := <[hr_kind definition := definition]> by_kind]> registry)
  end.

Definition HandlerRegistry_get_ref (registry : HandlerRegistry) (kind : JobKind) (schema_version : Z)
    : option HandlerRegistration :=
  by_kind ← registry !! schema_version; by_kind !! kind.

Definition HandlerRegistry_contains (registry : HandlerRegistry) (kind : JobKind) (schema_version : Z)
    : bool :=
  match HandlerRegistry_get_ref registry kind schema_version with Some _ => true | None => false end.

(** ** The engine *)

Record JobSystem : Type := mkJobSystem {
  sys_capabilities : StoreCapabilities;
  sys_registry : HandlerRegistry;
  sys_namespace : Namespace;
  sys_owner : OwnerId;
  (** [sha2::Sha256::digest]. *)
  sys_sha256 : bytes → bytes;
}.

Definition read_many {E} (system : JobSystem) (keys : list StoreKey) : job E (list (option bytes)) :=
  _ ← try_ (validate_get_many (sys_capabilities system) keys);
  match keys with
  | [] => mret []
  | _ => store_get_many keys
  end.

(** ** Claims *)

Record ClaimedJob : Type := mkClaimedJob {
  cj_record : JobRecordV1;
  cj_encoded : bytes;
  cj_payload : bytes;
  cj_due_key : option StoreKey;
  cj_fair_key : StoreKey;
  cj_lease_key : StoreKey;
  cj_permit_keys : list StoreKey;
  cj_attempt_id : AttemptId;
  cj_operation_id : OperationId;
  cj_fence_high_water : Z;
  cj_cancellation : bool;
  cj_authority_lost : bool;
  cj_last_heartbeat : Z;
  cj_execution_deadline : option Timestamp;
}.

(** [*claim.record_mut() = record], [replace_encoded_authority],
    [lose_authority] and [last_heartbeat().store]. *)
Definition set_record (claim : ClaimedJob) (record : JobRecordV1) : ClaimedJob :=
  mkClaimedJob record (cj_encoded claim) (cj_payload claim) (cj_due_key claim) (cj_fair_key claim)
    (cj_lease_key claim) (cj_permit_keys claim) (cj_attempt_id claim) (cj_operation_id claim)
    (cj_fence_high_water claim) (cj_cancellation claim) (cj_authority_lost claim)
    (cj_last_heartbeat claim) (cj_execution_deadline claim).

Definition replace_encoded_authority (claim : ClaimedJob) (encoded : bytes) (operation_id : OperationId)
    : ClaimedJob :=
  mkClaimedJob (cj_record claim) encoded (cj_payload claim) (cj_due_key claim) (cj_fair_key claim)
    (cj_lease_key claim) (cj_permit_keys claim) (cj_attempt_id claim) operation_id
    (cj_fence_high_water claim) (cj_cancellation claim) (cj_authority_lost claim)
    (cj_last_heartbeat claim) (cj_execution_deadline claim).

Definition lose_authority (claim : ClaimedJob) : ClaimedJob :=
  mkClaimedJob (cj_record claim) (cj_encoded claim) (cj_payload claim) (cj_due_key claim)
    (cj_fair_key claim) (cj_lease_key claim) (cj_permit_keys claim) (cj_attempt_id claim)
    (cj_operation_id claim) (cj_fence_high_water claim) true true
    (cj_last_heartbeat claim) (cj_execution_deadline claim).

Definition set_last_heartbeat (claim : ClaimedJob) (millis : Z) : ClaimedJob :=
  mkClaimedJob (cj_record claim) (cj_encoded claim) (cj_payload claim) (cj_due_key claim)
    (cj_fair_key claim) (cj_lease_key claim) (cj_permit_keys claim) (cj_attempt_id claim)
    (cj_operation_id claim) (cj_fence_high_water claim) (cj_cancellation claim)
    (cj_authority_lost claim) millis (cj_execution_deadline claim).

Definition lease_at (claim : ClaimedJob) (now : Timestamp) : option Lease :=
  match jr_state (cj_record claim) with
  | Leased lease => if now <? ls_expires_at lease then Some lease else None
  | _ => None
  end.

(** [TransitionAuthority] of a claim: owner, token, generation and fence. *)
Definition authority (claim : ClaimedJob) : option (OwnerId * LeaseToken * Z * Z) :=
  match jr_state (cj_record claim) with
  | Leased lease =>
      Some (ls_owner lease, ls_token lease, jr_generation (cj_record claim), ls_fence lease)
  | _ => None
  end.

(** ** Assignments to the fields of a record *)

Definition set_state (r : JobRecordV1) (state : JobState) : JobRecordV1 :=
  mkJobRecordV1 (jr_job_id r) (jr_namespace r) (jr_queue r) (jr_kind r) (jr_schema_version r)
    (jr_generation r) (jr_execution_id r) (jr_payload r) (jr_fairness r) (jr_ordering_key r)
    (jr_priority r) (jr_created_at r) (jr_scheduled_at r) (jr_expires_at r) (jr_policy r)
    (jr_attempts r) state (jr_checkpoint r) (jr_retention_deadline r) (jr_deduplication r)
    (jr_revision r).

Definition set_revision (r : JobRecordV1) (revision : Z) : JobRecordV1 :=
  mkJobRecordV1 (jr_job_id r) (jr_namespace r) (jr_queue r) (jr_kind r) (jr_schema_version r)
    (jr_generation r) (jr_execution_id r) (jr_payload r) (jr_fairness r) (jr_ordering_key r)
    (jr_priority r) (jr_created_at r) (jr_scheduled_at r) (jr_expires_at r) (jr_policy r)
    (jr_attempts r) (jr_state r) (jr_checkpoint r) (jr_retention_deadline r) (jr_deduplication r)
    revision.

Definition set_generation (r : JobRecordV1) (generation : Z) : JobRecordV1 :=
  mkJobRecordV1 (jr_job_id r) (jr_namespace r) (jr_queue r) (jr_kind r) (jr_schema_version r)
    generation (jr_execution_id r) (jr_payload r) (jr_fairness r) (jr_ordering_key r)
    (jr_priority r) (jr_created_at r) (jr_scheduled_at r) (jr_expires_at r) (jr_policy r)
    (jr_attempts r) (jr_state r) (jr_checkpoint r) (jr_retention_deadline r) (jr_deduplication r)
    (jr_revision r).

Definition set_execution_id (r : JobRecordV1) (execution_id : ExecutionId) : JobRecordV1 :=
  mkJobRecordV1 (jr_job_id r) (jr_namespace r) (jr_queue r) (jr_kind r) (jr_schema_version r)
    (jr_generation r) execution_id (jr_payload r) (jr_fairness r) (jr_ordering_key r)
    (jr_priority r) (jr_created_at r) (jr_scheduled_at r) (jr_expires_at r) (jr_policy r)
    (jr_attempts r) (jr_state r) (jr_checkpoint r) (jr_retention_deadline r) (jr_deduplication r)
    (jr_revision r).

Definition set_attempts (r : JobRecordV1) (attempts : option AttemptHistory) : JobRecordV1 :=
  mkJobRecordV1 (jr_job_id r) (jr_namespace r) (jr_queue r) (jr_kind r) (jr_schema_version r)
    (jr_generation r) (jr_execution_id r) (jr_payload r) (jr_fairness r) (jr_ordering_key r)
    (jr_priority r) (jr_created_at r) (jr_scheduled_at r) (jr_expires_at r) (jr_policy r)
    attempts (jr_state r) (jr_checkpoint r) (jr_retention_deadline r) (jr_deduplication r)
    (jr_revision r).

Definition set_checkpoint (r : JobRecordV1) (checkpoint : option bytes) : JobRecordV1 :=
  mkJobRecordV1 (jr_job_id r) (jr_namespace r) (jr_queue r) (jr_kind r) (jr_schema_version r)
    (jr_generation r) (jr_execution_id r) (jr_payload r) (jr_fairness r) (jr_ordering_key r)
    (jr_priority r) (jr_created_at r) (jr_scheduled_at r) (jr_expires_at r) (jr_policy r)
    (jr_attempts r) (jr_state r) checkpoint (jr_retention_deadline r) (jr_deduplication r)
    (jr_revision r).

Definition set_scheduled_at (r : JobRecordV1) (scheduled_at : Timestamp) : JobRecordV1 :=
  mkJobRecordV1 (jr_job_id r) (jr_namespace r) (jr_queue r) (jr_kind r) (jr_schema_version r)
    (jr_generation r) (jr_execution_id r) (jr_payload r) (jr_fairness r) (jr_ordering_key r)
    (jr_priority r) (jr_created_at r) scheduled_at (jr_expires_at r) (jr_policy r)
    (jr_attempts r) (jr_state r) (jr_checkpoint r) (jr_retention_deadline r) (jr_deduplication r)
    (jr_revision r).

Definition set_expires_at (r : JobRecordV1) (expires_at : option Timestamp) : JobRecordV1 :=
  mkJobRecordV1 (jr_job_id r) (jr_namespace r) (jr_queue r) (jr_kind r) (jr_schema_version r)
    (jr_generation r) (jr_execution_id r) (jr_payload r) (jr_fairness r) (jr_ordering_key r)
    (jr_priority r) (jr_created_at r) (jr_scheduled_at r) expires_at (jr_policy r)
    (jr_attempts r) (jr_state r) (jr_checkpoint r) (jr_retention_deadline r) (jr_deduplication r)
    (jr_revision r).

Definition set_retention_deadline (r : JobRecordV1) (deadline : Timestamp) : JobRecordV1 :=
  mkJobRecordV1 (jr_job_id r) (jr_namespace r) (jr_queue r) (jr_kind r) (jr_schema_version r)
    (jr_generation r) (jr_execution_id r) (jr_payload r) (jr_fairness r) (jr_ordering_key r)
    (jr_priority r) (jr_created_at r) (jr_scheduled_at r) (jr_expires_at r) (jr_policy r)
    (jr_attempts r) (jr_state r) (jr_checkpoint r) deadline (jr_deduplication r)
    (jr_revision r).

(** [attempts.last_attempt_at = now; attempts.last_outcome = Some(outcome)], when
    the record has attempts. *)
Definition record_outcome (r : JobRecordV1) (now : Timestamp) (outcome : OutcomeCode) : JobRecordV1 :=
  match jr_attempts r with
  | Some attempts =>
      set_attempts r (Some (mkAttemptHistory (ah_attempts attempts) (ah_first_attempt_at attempts)
                              now (Some outcome)))
  | None => r
  end.

(** ** Assignments keep the types of the fields *)

Section typed.
Context (r : JobRecordV1) (Hr : is_job_record r = true).

Lemma typed_state s : is_job_state s = true → is_job_record (set_state r s) = true.
Proof. intros. revert Hr. unfold is_job_record. cbn. intros. by split_andb. Qed.
Lemma typed_revision n : is_u64 n = true → is_job_record (set_revision r n) = true.
Proof. intros. revert Hr. unfold is_job_record. cbn. intros. by split_andb. Qed.
Lemma typed_generation n : is_u32 n = true → is_job_record (set_generation r n) = true.
Proof. intros. revert Hr. unfold is_job_record. cbn. intros. by split_andb. Qed.
Lemma typed_execution_id id : is_fixed_id id = true → is_job_record (set_execution_id r id) = true.
Proof. intros. revert Hr. unfold is_job_record. cbn. intros. by split_andb. Qed.
Lemma typed_attempts a : is_option is_attempt_history a = true → is_job_record (set_attempts r a) = true.
Proof. intros. revert Hr. unfold is_job_record. cbn. intros. by split_andb. Qed.
Lemma typed_checkpoint c : is_job_record (set_checkpoint r c) = true.
Proof. revert Hr. unfold is_job_record. cbn. intros. by split_andb. Qed.
Lemma typed_scheduled_at t : is_i64 t = true → is_job_record (set_scheduled_at r t) = true.
Proof. intros. revert Hr. unfold is_job_record. cbn. intros. by split_andb. Qed.
Lemma typed_expires_at o : is_option is_i64 o = true → is_job_record (set_expires_at r o) = true.
Proof. intros. revert Hr. unfold is_job_record. cbn. intros. by split_andb. Qed.
Lemma typed_retention_deadline t : is_i64 t = true → is_job_record (set_retention_deadline r t) = true.
Proof. intros. revert Hr. unfold is_job_record. cbn. intros. by split_andb. Qed.
Lemma typed_outcome now code :
  is_i64 now = true → is_outcome_code code = true → is_job_record (record_outcome r now code) = true.
Proof.
  intros. unfold record_outcome. destruct (jr_attempts r) as [a|] eqn:Ha; [|done].
  apply typed_attempts. revert Hr. unfold is_job_record. rewrite Ha. cbn. unfold is_attempt_history. cbn.
  intros. split_andb; done.
Qed.
End typed.

Create HintDb typed.
#[export] Hint Resolve typed_state typed_revision typed_generation typed_execution_id typed_attempts
  typed_checkpoint typed_scheduled_at typed_expires_at typed_retention_deadline typed_outcome : typed.

(** What a recorded outcome leaves alone. *)
Lemma record_outcome_kept r now code :
  jr_job_id (record_outcome r now code) = jr_job_id r ∧
  jr_namespace (record_outcome r now code) = jr_namespace r ∧
  jr_queue (record_outcome r now code) = jr_queue r ∧
  jr_execution_id (record_outcome r now code) = jr_execution_id r ∧
  jr_payload (record_outcome r now code) = jr_payload r ∧
  jr_state (record_outcome r now code) = jr_state r ∧
  jr_scheduled_at (record_outcome r now code) = jr_scheduled_at r ∧
  jr_revision (record_outcome r now code) = jr_revision r.
Proof. unfold record_outcome. by destruct (jr_attempts r). Qed.
