(* ===== verification/Transition.v ===== *)
(** * Checked transitions

    [crates/bg-jobs/src/transition] and [wake/planning.rs]: lease authority,
    the transactions of every lease-gated lifecycle transition, the wake
    watermark with its bounded scan of the due index, and the commit protocol
    that reconciles unknown outcomes and refreshes a conflicting wake. *)

From S2P Require Import Prelude Errors Ids Clock Policy JobRecord KeyCodec ValueCodec JobCodec.
From S2P Require Import OperationCodec Keyspace Store Prog System.

Definition MAX_INDEX_RANGE_ITEMS : Z := 4096.
Definition MAX_INDEX_RANGE_BYTES : Z := 16 * 1024 * 1024.
Definition MAX_DUE_RANGE_PAGES : nat := 1.

(** ** Wake planning: [wake::apply] *)

Inductive WakeUpdate : Type :=
  | Lower (candidate : Timestamp)
  | Reconcile (next : option Timestamp).

(** [option.as_deref().map(decode).transpose()]. *)
Definition decode_wake (current : option bytes) : result StoreDataError (option Timestamp) :=
  transpose (λ encoded, decode_timestamp_value encoded VT_Wake) current.

Definition wake_apply (wake_key : StoreKey) (current : option bytes) (update : WakeUpdate)
    (mutations : list Mutation) : result StoreDataError (list Mutation * option Check) :=
  current_time ← decode_wake current;
  let next :=
    match update with
    | Lower candidate =>
        if is_some_and (λ current, current <=? candidate) current_time then None
        else Some (Some candidate)
    | Reconcile next => Some next
    end in
  match next with
  | None => Ok (mutations, None)
  | Some next =>
      match current, next with
      | Some encoded, Some next =>
          if bool_decide (current_time = Some next) then Ok (mutations, None)
          else
            value ← wake_value next;
            Ok (mutations ++ [Put wake_key value], Some (Value wake_key encoded))
      | Some encoded, None => Ok (mutations ++ [Delete wake_key], Some (Value wake_key encoded))
      | None, Some next =>
          value ← wake_value next;
          Ok (mutations ++ [Put wake_key value], Some (Absent wake_key))
      | None, None => Ok (mutations, None)
      end
  end.

(** ** Bounded due scans: [transition/due.rs] *)

Record RangeLimits : Type := mkRangeLimits { rl_item_limit : Z; rl_byte_limit : Z }.

Definition bounded_range_limits (capabilities : StoreCapabilities)
    (requested_items remaining_items remaining_bytes : Z) : option RangeLimits :=
  let item_limit :=
    Z.min (Z.min (Z.min remaining_items MAX_INDEX_RANGE_ITEMS) requested_items)
      (cap_max_range_items capabilities) in
  let byte_limit :=
    Z.min (Z.min remaining_bytes MAX_INDEX_RANGE_BYTES) (cap_max_range_bytes capabilities) in
  item_limit ← checked 0 U32_MAX item_limit;
  if item_limit =? 0 then None
  else if byte_limit =? 0 then None
  else Some (mkRangeLimits item_limit byte_limit).

Record DuePageScan : Type := mkDuePageScan {
  dp_next : option Timestamp;
  dp_complete : bool;
  dp_continuation : option StoreKey;
  dp_remaining_items : Z;
  dp_remaining_bytes : Z;
}.

Definition DuePageScan_new : DuePageScan :=
  mkDuePageScan None false None MAX_INDEX_RANGE_ITEMS MAX_INDEX_RANGE_BYTES.

Definition DuePageScan_limits (scan : DuePageScan) (capabilities : StoreCapabilities)
    : option RangeLimits :=
  bounded_range_limits capabilities MAX_INDEX_RANGE_ITEMS (dp_remaining_items scan)
    (dp_remaining_bytes scan).

Definition DuePageScan_fits (scan : DuePageScan) (item_count total_bytes : Z) : bool :=
  (item_count <=? dp_remaining_items scan) && (total_bytes <=? dp_remaining_bytes scan).

Definition merge_timestamps (current next : option Timestamp) : option Timestamp :=
  match current, next with
  | Some current, Some next => Some (Z.min current next)
  | Some current, None => Some current
  | None, next => next
  end.

(** The flag tells the loop to continue. *)
Definition DuePageScan_accept (scan : DuePageScan) (item_count total_bytes : Z)
    (continuation : option StoreKey) (next : option Timestamp) : DuePageScan * bool :=
  let scan :=
    mkDuePageScan (merge_timestamps (dp_next scan) next) (dp_complete scan) (dp_continuation scan)
      (saturating_sub (dp_remaining_items scan) item_count)
      (saturating_sub (dp_remaining_bytes scan) total_bytes) in
  match continuation with
  | None =>
      (mkDuePageScan (dp_next scan) true (dp_continuation scan) (dp_remaining_items scan)
         (dp_remaining_bytes scan), false)
  | Some continuation =>
      if bool_decide (dp_continuation scan = Some continuation) then (scan, false)
      else
        (mkDuePageScan (dp_next scan) (dp_complete scan) (Some continuation)
           (dp_remaining_items scan) (dp_remaining_bytes scan), true)
  end.

(** One entry of a page; corrupt entries are reported to the observer and
    skipped. *)
Definition scan_due_entry (namespace : Namespace) (skip include : option StoreKey)
    (next : option Timestamp) (entry : RangeEntry) : option Timestamp :=
  if bool_decide (skip = Some (re_key entry)) || bool_decide (include = Some (re_key entry)) then next
  else
    match decode_due_key namespace (re_key entry) with
    | Ok (Some decoded) =>
        match decode_timestamp_value (re_value entry) VT_Due with
        | Ok timestamp =>
            if timestamp =? dk_when decoded then merge_timestamps next (Some timestamp) else next
        | Err _ => next
        end
    | Ok None | Err _ => next
    end.

Definition scan_due_entries (namespace : Namespace) (page : RangePage) (skip include : option StoreKey)
    : option Timestamp :=
  fold_left (scan_due_entry namespace skip include) (pg_entries page) None.

Definition read_due_page {E} (prefix : StoreKey) (end_ continuation : option StoreKey)
    (limits : RangeLimits) : job E RangePage :=
  request ← try_ (RangeRequest_try_from
    (mkRangeRequest (Some prefix) end_ Forward (rl_item_limit limits) (rl_byte_limit limits)
       continuation));
  store_read_range request.

Fixpoint scan_due_pages {E} (system : JobSystem) (prefix : StoreKey) (end_ skip include : option StoreKey)
    (pages : nat) (scan : DuePageScan) : job E DuePageScan :=
  match pages with
  | O => mret scan
  | S pages =>
      match DuePageScan_limits scan (sys_capabilities system) with
      | None => mret scan
      | Some limits =>
          page ← read_due_page prefix end_ (dp_continuation scan) limits;
          let item_count := len (pg_entries page) in
          let total_bytes := RangePage_total_bytes page in
          if negb (DuePageScan_fits scan item_count total_bytes) then mret scan
          else
            let next := scan_due_entries (sys_namespace system) page skip include in
            let '(scan, more) := DuePageScan_accept scan item_count total_bytes (pg_continuation page) next in
            if more then scan_due_pages system prefix end_ skip include pages scan else mret scan
      end
  end.

Definition merge_included_due (system : JobSystem) (queue : QueueName) (include : StoreKey)
    (next : option Timestamp) : result StoreDataError (option Timestamp) :=
  decoded ← decode_due_key (sys_namespace system) include;
  match decoded with
  | None => Ok next
  | Some entry_due =>
      if negb (bytes_eqb (dk_queue entry_due) queue) then Ok next
      else Ok (merge_timestamps next (Some (dk_when entry_due)))
  end.

(** [DueScan]: the earliest entry seen, and whether the scan saw them all. *)
Definition next_due {E} (system : JobSystem) (queue : QueueName) (skip include : option StoreKey)
    : job E (option Timestamp * bool) :=
  prefix ← try_ (due_queue_prefix (sys_namespace system) queue);
  let end_ := KeyCodec_prefix_end prefix in
  scan ← scan_due_pages system prefix end_ skip include MAX_DUE_RANGE_PAGES DuePageScan_new;
  next ← match include with
         | Some include => try_ (merge_included_due system queue include (dp_next scan))
         | None => mret (dp_next scan)
         end;
  mret (next, dp_complete scan).

(** ** The wake watermark: [transition/wake.rs] *)

Definition join_wake_and_due {E} (system : JobSystem) (wake_key : StoreKey) (queue : QueueName)
    (skip include : option StoreKey) : job E (option bytes * (option Timestamp * bool)) :=
  prog_bind (join (trigger (OGet wake_key)) (next_due system queue skip include)) (λ '(wake, due),
    wake ← try_ (map_err JSE_Store wake);
    due ← try_ due;
    mret (wake, due)).

(** A scan that stopped early keeps the current watermark as a lower bound. *)
Definition reconciled_wake (current_time : option Timestamp) (due : option Timestamp * bool)
    : option Timestamp :=
  if due.2 then due.1
  else
    (λ candidate, match current_time with Some current => Z.min current candidate | None => candidate end)
      <$> match due.1 with Some next => Some next | None => current_time end.

Definition wake_mutation {E} (system : JobSystem) (queue : QueueName) (skip include : option StoreKey)
    (mutations : list Mutation) : job E (list Mutation * option Check) :=
  wake_key ← try_ (wake_key (sys_namespace system) queue);
  '(current, due) ← join_wake_and_due system wake_key queue skip include;
  current_time ← try_ (decode_wake current);
  let next := reconciled_wake current_time due in
  try_ (wake_apply wake_key current (Reconcile next) mutations).

Definition find_wake_check (namespace : Namespace) (transaction : StoreTransaction)
    : result StoreDataError (option Check) :=
  (fix find (checks : list Check) : result StoreDataError (option Check) :=
     match checks with
     | [] => Ok None
     | check :: checks =>
         '(tag, _) ← KeyCodec_decode_borrowed namespace (Check_key check);
         if bool_decide (tag = KT_Wake)
            && existsb (λ mutation, bytes_eqb (Mutation_key mutation) (Check_key check))
                 (tx_mutations transaction)
         then Ok (Some check)
         else find checks
     end) (tx_checks transaction).

Definition retain_wake_bound (transaction : StoreTransaction) (wake_key : StoreKey)
    (current : option bytes) : result StoreDataError (option Timestamp) :=
  current_time ← decode_wake current;
  match List.find (λ mutation, bytes_eqb (Mutation_key mutation) wake_key) (tx_mutations transaction) with
  | Some (Put _ encoded) => next ← decode_timestamp_value encoded VT_Wake; Ok (Some next)
  | Some (Delete _) | None => Ok current_time
  end.

Definition retain_authority (transaction : StoreTransaction) (wake_key : StoreKey)
    : list Check * list Mutation :=
  (List.filter (λ check, negb (bytes_eqb (Check_key check) wake_key)) (tx_checks transaction),
   List.filter (λ mutation, negb (bytes_eqb (Mutation_key mutation) wake_key))
     (tx_mutations transaction)).

(** [checked_transaction] of [transition/commit.rs]. *)
Definition checked_transaction {E} (system : JobSystem) (checks : list Check) (mutations : list Mutation)
    : job E StoreTransaction :=
  let capabilities := sys_capabilities system in
  operation_id ← generate;
  transaction ← try_ (StoreTransaction_try_from
    (mkStoreTransactionInput operation_id checks mutations
       (mkTransactionLimits (cap_max_transaction_keys capabilities)
          (cap_max_transaction_keys capabilities) (cap_max_transaction_bytes capabilities))));
  _ ← try_ (validate_transaction capabilities transaction);
  mret transaction.

Definition refresh_conflicted_wake {E} (system : JobSystem) (transaction : StoreTransaction)
    : job E (option StoreTransaction) :=
  found ← try_ (find_wake_check (sys_namespace system) transaction);
  match found with
  | None => mret None
  | Some check =>
      current ← store_get (Check_key check);
      let unchanged :=
        match check with
        | Absent _ => bool_decide (current = None)
        | Value _ expected => bool_decide (current = Some expected)
        end in
      if unchanged then mret None
      else
        next ← try_ (retain_wake_bound transaction (Check_key check) current);
        let '(checks, mutations) := retain_authority transaction (Check_key check) in
        '(checks, mutations) ←
          match next with
          | Some next =>
              '(mutations, fresh_check) ←
                try_ (wake_apply (Check_key check) current (Lower next) mutations);
              mret (match fresh_check with
                    | Some fresh_check => (checks ++ [fresh_check], mutations)
                    | None => (checks, mutations)
                    end)
          | None => mret (checks, mutations)
          end;
        transaction ← checked_transaction system checks mutations;
        mret (Some transaction)
  end.

(** ** Commits: [transition/commit.rs] *)

Inductive TransitionConflict : Type := TC_LeaseConflict | TC_LeaseLost.

Definition TransitionConflict_error {E} (conflict : TransitionConflict) : JobSystemError E :=
  match conflict with
  | TC_LeaseConflict => JSE_LeaseConflict
  | TC_LeaseLost => JSE_LeaseLost
  end.

Inductive UnknownTransition : Type := Reached | UT_Retry | Unresolved.

Record TransitionProbe : Type := mkTransitionProbe {
  tp_key : StoreKey;
  tp_expected_old : option bytes;
  tp_expected_new : option bytes;
}.

Definition reconcile_unknown {E} (probe : TransitionProbe) (retry_allowed : bool)
    : job E UnknownTransition :=
  visible ← store_get (tp_key probe);
  if bool_decide (visible = tp_expected_new probe) then mret Reached
  else mret (if bool_decide (visible = tp_expected_old probe) && retry_allowed
             then UT_Retry else Unresolved).

Fixpoint commit_attempts {E} (transaction : StoreTransaction) (probe : TransitionProbe)
    (attempt : Z) (remaining : nat) : job E bool :=
  match remaining with
  | O => fail JSE_UnknownCommit
  | S remaining =>
      outcome ← store_commit transaction;
      match outcome with
      | Committed => mret true
      | Conflict => mret false
      | Unknown =>
          unknown ← reconcile_unknown probe (attempt =? 0);
          match unknown with
          | Reached => mret true
          | UT_Retry => commit_attempts transaction probe (attempt + 1) remaining
          | Unresolved => fail (if attempt =? 1 then JSE_UnknownCommit else JSE_LeaseLost)
          end
      end
  end.

(** [for attempt in 0..=1]. *)
Definition commit_reconciled {E} (transaction : StoreTransaction) (probe : TransitionProbe) : job E bool :=
  commit_attempts transaction probe 0 2.

Definition commit_transition {E} (system : JobSystem) (transaction : StoreTransaction)
    (probe_key : StoreKey) (expected_old expected_new : option bytes) (conflict : TransitionConflict)
    : job E unit :=
  let probe := mkTransitionProbe probe_key expected_old expected_new in
  committed ← commit_reconciled transaction probe;
  if committed : bool then mret tt
  else
    refreshed ← refresh_conflicted_wake system transaction;
    match refreshed with
    | Some refreshed =>
        committed ← commit_reconciled refreshed probe;
        if committed : bool then mret tt else fail (TransitionConflict_error conflict)
    | None => fail (TransitionConflict_error conflict)
    end.

Definition commit_record {E} (system : JobSystem) (transaction : StoreTransaction) (claim : ClaimedJob)
    (new_encoded : bytes) : job E unit :=
  key ← try_ (job_key (sys_namespace system) (jr_job_id (cj_record claim)));
  commit_transition system transaction key (Some (cj_encoded claim)) (Some new_encoded) TC_LeaseLost.

Definition commit_record_without_claim {E} (system : JobSystem) (transaction : StoreTransaction)
    (job_id : JobId) (old_encoded new_encoded : bytes) : job E unit :=
  key ← try_ (job_key (sys_namespace system) job_id);
  commit_transition system transaction key (Some old_encoded) (Some new_encoded) TC_LeaseLost.

Definition commit_marker {E} (system : JobSystem) (transaction : StoreTransaction) (marker : StoreKey)
    : job E unit :=
  marker_value ← try_ cancellation_value;
  commit_transition system transaction marker None (Some marker_value) TC_LeaseLost.

(** ** Reconciliation of an operation by its identifier *)

Inductive ReconciliationOutcome : Type :=
  | RO_Committed | RO_AlreadyCommitted | RO_LeaseLost | RO_RetryCommit | RO_Conflict.

Definition read_reconciliation_state {E} (system : JobSystem) (job_id : JobId)
    : job E (option (option bytes * bytes)) :=
  job ← try_ (job_key (sys_namespace system) job_id);
  operation ← try_ (operation_key (sys_namespace system) job_id);
  values ← read_many system [job; operation];
  match values with
  | [job; Some operation] => mret (Some (job, operation))
  | _ => mret None
  end.

Definition decode_reconciliation_operation (encoded : bytes) (job_id : JobId)
    : result ReconciliationOutcome (option OperationId * bool) :=
  decoded ← map_err (λ _, RO_Conflict) (decode_operation encoded);
  match decoded with
  | DO_Live live =>
      if LiveOperationAuthority_matches_job live job_id
      then Ok (lo_operation_id live, false) else Err RO_Conflict
  | DO_Receipt receipt =>
      if bytes_eqb (or_job_id receipt) job_id
      then Ok (Some (or_operation_id receipt), true) else Err RO_Conflict
  end.

Definition resolve_reconciliation (has_job : bool) (current : option OperationId) (is_receipt : bool)
    (expected : OperationId) : ReconciliationOutcome :=
  match has_job, is_receipt, bool_decide (current = Some expected) with
  | false, true, true => RO_AlreadyCommitted
  | false, _, _ | true, true, _ => RO_Conflict
  | true, false, true => RO_RetryCommit
  | true, false, false => RO_LeaseLost
  end.

Definition reconcile {E} (system : JobSystem) (job_id : JobId) (operation : OperationId)
    : job E ReconciliationOutcome :=
  state ← read_reconciliation_state system job_id;
  match state with
  | None => mret RO_Conflict
  | Some (job, encoded) =>
      match decode_reconciliation_operation encoded job_id with
      | Err outcome => mret outcome
      | Ok (current, is_receipt) =>
          mret (resolve_reconciliation (bool_decide (job ≠ None)) current is_receipt operation)
      end
  end.

(** ** Lease authority and transactions: [transition/transaction.rs] *)

Definition current_lease {E} (claim : ClaimedJob) (now : Timestamp) : result (JobSystemError E) Lease :=
  if cj_authority_lost claim then Err JSE_LeaseLost
  else ok_or JSE_LeaseLost (lease_at claim now).

Definition next_revision {E} (record : JobRecordV1) : result (JobSystemError E) Z :=
  ok_or JSE_LeaseConflict (checked_add_u64 (jr_revision record) 1).

Definition fresh_operation {E} : job E OperationId := generate.

Definition code (value : string) : result ValidationError OutcomeCode := OutcomeCode_try_new (ascii value).

Definition jitter_duration (sha256 : bytes → bytes) (execution : ExecutionId) (attempt : Z)
    (now : Timestamp) (cap : Duration) : Duration :=
  let digest := sha256 (execution ++ u16_bytes attempt ++ i64_bytes now) in
  let cap_millis := Z.max (as_millis cap) 1 in
  let sample := from_be_unsigned (slice digest 0 8) in
  from_millis (sample mod default U64_MAX (checked 0 U64_MAX cap_millis)).

Definition lease_fence {E} (record : JobRecordV1) : result (JobSystemError E) Z :=
  match jr_state record with
  | Leased lease => Ok (ls_fence lease)
  | _ => Err JSE_LeaseLost
  end.

(** [?] on a [StoreDataError]. *)
Definition data {E A} (r : result StoreDataError A) : result (JobSystemError E) A :=
  map_err JSE_StoreData r.

Definition authority_checks {E} (system : JobSystem) (claim : ClaimedJob)
    : result (JobSystemError E) (list Check) :=
  let job_id := jr_job_id (cj_record claim) in
  job_key ← data (job_key (sys_namespace system) job_id);
  lease_value ← data (lease_value job_id);
  operation_key ← data (operation_key (sys_namespace system) job_id);
  operation_value ← data (operation_value job_id (cj_operation_id claim) (cj_fence_high_water claim));
  let checks :=
    [Value job_key (cj_encoded claim); Value (cj_lease_key claim) lease_value;
     Value operation_key operation_value] in
  persisted ← data (decode_job_record (cj_encoded claim));
  permit_value ← data (permit_value_for_record persisted);
  Ok (checks ++ ((λ key, Value key permit_value) <$> cj_permit_keys claim)).

Definition lease_record_transaction {E} (system : JobSystem) (claim : ClaimedJob) (record : JobRecordV1)
    (encoded : bytes) (operation : OperationId) : job E StoreTransaction :=
  let namespace := sys_namespace system in
  checks ← try_ (authority_checks system claim);
  cancellation_key ← try_ (cancellation_key namespace (jr_job_id record));
  let checks := checks ++ [Absent cancellation_key] in
  permit_value ← try_ (permit_value_for_record record);
  job_key ← try_ (job_key namespace (jr_job_id record));
  operation_key ← try_ (operation_key namespace (jr_job_id record));
  fence ← try_ (lease_fence record);
  operation_value ← try_ (operation_value (jr_job_id record) operation fence);
  let mutations :=
    [Put job_key encoded; Put operation_key operation_value]
    ++ ((λ permit_key, Put permit_key permit_value) <$> cj_permit_keys claim) in
  checked_transaction system checks mutations.

Definition scheduled_mutations {E} (system : JobSystem) (claim : ClaimedJob) (record : JobRecordV1)
    (encoded : bytes) (operation : OperationId) (due_key : StoreKey) : job E (list Mutation) :=
  let namespace := sys_namespace system in
  job_key ← try_ (job_key namespace (jr_job_id record));
  due_value ← try_ (due_value (jr_scheduled_at record));
  fair_key ← try_ (fair_key namespace (jr_queue record) (jr_job_id record));
  fair_value ← try_ (fair_value (jr_job_id record));
  operation_key ← try_ (operation_key namespace (jr_job_id record));
  operation_value ← try_ (operation_value (jr_job_id record) operation (cj_fence_high_water claim));
  mret ([Put job_key encoded; Delete (cj_lease_key claim); Put due_key due_value;
         Put fair_key fair_value; Put operation_key operation_value]
        ++ (Delete <$> cj_permit_keys claim)).

Definition scheduled_transaction {E} (system : JobSystem) (claim : ClaimedJob) (record : JobRecordV1)
    (encoded : bytes) (operation : OperationId) (due_key : StoreKey) : job E StoreTransaction :=
  mutations ← scheduled_mutations system claim record encoded operation due_key;
  '(mutations, wake_check) ←
    wake_mutation system (jr_queue record) (cj_due_key claim) (Some due_key) mutations;
  checks ← try_ (authority_checks system claim);
  cancellation_key ← try_ (cancellation_key (sys_namespace system) (jr_job_id record));
  let checks := checks ++ [Absent cancellation_key] ++ option_list wake_check in
  checked_transaction system checks mutations.

Inductive TerminalTransition : Type :=
  | TT_DeadLetter (dlq_key : StoreKey)
  | TT_WorkerCancellation
  | TT_CancellationAcknowledgement.

Definition terminal_mutations {E} (system : JobSystem) (claim : ClaimedJob) (record : JobRecordV1)
    (encoded : bytes) (operation : OperationId) (transition : TerminalTransition) : job E (list Mutation) :=
  let namespace := sys_namespace system in
  job_key ← try_ (job_key namespace (jr_job_id record));
  operation_key ← try_ (operation_key namespace (jr_job_id record));
  operation_value ← try_ (operation_value (jr_job_id record) operation (cj_fence_high_water claim));
  let mutations :=
    [Put job_key encoded; Delete (cj_lease_key claim); Delete (cj_fair_key claim);
     Put operation_key operation_value] in
  mutations ← match transition with
              | TT_CancellationAcknowledgement =>
                  cancellation_key ← try_ (cancellation_key namespace (jr_job_id record));
                  mret (mutations ++ [Delete cancellation_key])
              | _ => mret mutations
              end;
  let mutations := mutations ++ (Delete <$> cj_permit_keys claim) in
  match transition with
  | TT_DeadLetter dlq_key =>
      dead_letter_value ← try_ (dead_letter_value (jr_job_id record));
      mret (mutations ++ [Put dlq_key dead_letter_value])
  | _ => mret mutations
  end.

Definition terminal_transaction {E} (system : JobSystem) (claim : ClaimedJob) (record : JobRecordV1)
    (encoded : bytes) (operation : OperationId) (transition : TerminalTransition)
    : job E StoreTransaction :=
  mutations ← terminal_mutations system claim record encoded operation transition;
  let mutations := mutations ++ (Delete <$> option_list (cj_due_key claim)) in
  '(mutations, wake_check) ←
    wake_mutation system (jr_queue record) (cj_due_key claim) None mutations;
  checks ← try_ (authority_checks system claim);
  let checks := checks ++ option_list wake_check in
  cancellation_key ← try_ (cancellation_key (sys_namespace system) (jr_job_id record));
  cancellation_check ←
    match transition with
    | TT_CancellationAcknowledgement =>
        cancellation_value ← try_ cancellation_value;
        mret (Value cancellation_key cancellation_value)
    | TT_DeadLetter _ | TT_WorkerCancellation => mret (Absent cancellation_key)
    end;
  checked_transaction system (checks ++ [cancellation_check]) mutations.
