(* ===== verification/Permits.v ===== *)
(** * Durable permit slots

    [crates/bg-jobs/src/fairness/permits.rs]: finding the permit keys a claim
    acquires, the complete set an expired lease still holds, and every permit
    a lease owns, with reads batched to the store's limits. *)

From S2P Require Import Prelude Errors Ids JobRecord KeyCodec ValueCodec Keyspace Store Prog System.

Definition permit_probes (sets : list (list StoreKey)) : list StoreKey := concat sets.

(** The loop of [permit_batch_end], from [start]: how many keys fit. *)
Fixpoint permit_batch_count (max_key_bytes : Z) (max_keys : nat) (bytes : Z) (probes : list StoreKey) : nat :=
  match max_keys, probes with
  | S max_keys, probe :: probes =>
      match checked_add_usize bytes (len probe) with
      | Some next_bytes =>
          if max_key_bytes <? next_bytes then O
          else S (permit_batch_count max_key_bytes max_keys next_bytes probes)
      | None => O
      end
  | _, _ => O
  end.

Definition permit_batch_end (probes : list StoreKey) (capabilities : StoreCapabilities) : nat :=
  permit_batch_count (cap_max_get_many_key_bytes capabilities)
    (Z.to_nat (cap_max_get_many_keys capabilities)) 0 probes.

(** [while start < probes.len()]; every batch has at least one key, so as many
    rounds as there are keys are enough. *)
Fixpoint read_permit_batches {E} (system : JobSystem) (rounds : nat) (probes : list StoreKey)
    : job E (list (option bytes)) :=
  match rounds, probes with
  | O, _ | _, [] => mret []
  | S rounds, _ =>
      let size := Nat.max (permit_batch_end probes (sys_capabilities system)) 1 in
      batch ← read_many system (take size probes);
      if negb (len batch =? len (take size probes)) then fail JSE_PayloadCorrupt
      else
        values ← read_permit_batches system rounds (drop size probes);
        mret (batch ++ values)
  end.

Definition read_permit_values {E} (system : JobSystem) (probes : list StoreKey)
    : job E (list (option bytes)) :=
  read_permit_batches system (length probes) probes.

(** The first set all of whose values satisfy [free]. *)
Fixpoint first_set (free : option bytes → bool) (sets : list (list StoreKey)) (values : list (option bytes))
    : option (list StoreKey) :=
  match sets with
  | [] => None
  | set :: sets =>
      if forallb free (take (length set) values) then Some set
      else first_set free sets (drop (length set) values)
  end.

Definition first_is_empty (sets : list (list StoreKey)) : bool :=
  match sets with [] :: _ => true | _ => false end.

Definition find_available_permit_keys {E} (system : JobSystem) (record : JobRecordV1) (capacity : Z)
    : job E (option (list StoreKey)) :=
  sets ← try_ (permit_key_sets (sys_namespace system) record capacity);
  if first_is_empty sets then mret (Some [])
  else
    let probes := permit_probes sets in
    values ← read_permit_values system probes;
    mret (first_set (λ value, bool_decide (value = None)) sets values).

Definition find_reclaimable_permit_keys {E} (system : JobSystem) (record : JobRecordV1)
    : job E (option (list StoreKey)) :=
  sets ← try_ (permit_key_sets (sys_namespace system) record MAX_DURABLE_PERMIT_SLOTS);
  if first_is_empty sets then mret (Some [])
  else
    expected ← try_ (permit_value_for_record record);
    let probes := permit_probes sets in
    values ← read_permit_values system probes;
    mret (first_set (λ value, bool_decide (value = Some expected)) sets values).

(** The keys whose value is the record's own permit, each once. *)
Fixpoint owned_permits (record : JobRecordV1) (seen : gset StoreKey) (probes : list (StoreKey * option bytes))
    : result StoreDataError (list StoreKey) :=
  match probes with
  | [] => Ok []
  | (key, None) :: probes => owned_permits record seen probes
  | (key, Some value) :: probes =>
      matches ← permit_value_matches_record value record;
      if (matches : bool) && bool_decide (key ∉ seen)
      then owned ← owned_permits record ({[key]} ∪ seen) probes; Ok (key :: owned)
      else owned_permits record seen probes
  end.

Definition find_owned_permit_keys {E} (system : JobSystem) (record : JobRecordV1) : job E (list StoreKey) :=
  sets ← try_ (permit_key_sets (sys_namespace system) record MAX_DURABLE_PERMIT_SLOTS);
  let probes := permit_probes sets in
  if bool_decide (probes = []) then mret []
  else
    values ← read_permit_values system probes;
    try_ (owned_permits record ∅ (zip probes values)).

(** ** The number of reads a scan may take *)

Definition div_ceil (a b : Z) : Z := (a + b - 1) / b.

Definition permit_read_operation_bound (system : JobSystem) (record : JobRecordV1) (capacity : Z)
    : result StoreDataError (option Z) :=
  if MAX_DURABLE_PERMIT_SLOTS <? capacity
  then Err (SDE_InvalidLength "durable permit slots" capacity MAX_DURABLE_PERMIT_SLOTS)
  else
    sets ← permit_key_sets (sys_namespace system) record 1;
    match last sets with
    | None => Ok None
    | Some [] => Ok (Some 0)
    | Some first_set =>
        let max_key_bytes := max_Z (len <$> first_set) in
        let capabilities := sys_capabilities system in
        let keys_per_batch :=
          Z.min (Z.max (cap_max_get_many_key_bytes capabilities / max_key_bytes) 1)
            (cap_max_get_many_keys capabilities) in
        Ok (total_keys ← checked 0 USIZE_MAX (capacity * len first_set);
            checked 0 U32_MAX (div_ceil total_keys keys_per_batch))
    end.
