(* ===== verification/Claim.v ===== *)
(** * Claims

    [crates/bg-jobs/src/lifecycle]: the identity check of persisted records
    ([identity.rs]), loading and validating payloads ([payload.rs]), and the
    claim of a due or abandoned job ([claim/flow.rs], [claim/authority.rs],
    [claim/transaction.rs], [claim/publication.rs]). *)

From S2P Require Import Prelude Errors Ids Clock Policy JobRecord KeyCodec ValueCodec JobCodec.
From S2P Require Import OperationCodec Keyspace Store Prog System Transition Permits.

(** ** Persisted identity *)

(** [iter().enumerate()] over the chunk keys. *)
Fixpoint validate_chunk_keys {E} (namespace : Namespace) (job_id : JobId) (index : Z) (keys : list StoreKey)
    : result (JobSystemError E) unit :=
  match keys with
  | [] => Ok tt
  | key :: keys =>
      index ← ok_or JSE_PayloadCorrupt (checked 0 U32_MAX index);
      expected ← data (payload_key namespace job_id index);
      if negb (bytes_eqb key expected) then Err JSE_PayloadCorrupt
      else validate_chunk_keys namespace job_id (index + 1) keys
  end.

Definition validate_persisted_identity {E} (system : JobSystem) (requested_job_id : JobId)
    (record : JobRecordV1) : result (JobSystemError E) unit :=
  if negb (bytes_eqb (jr_job_id record) requested_job_id)
     || negb (bytes_eqb (jr_namespace record) (sys_namespace system))
  then Err JSE_LeaseConflict
  else validate_chunk_keys (sys_namespace system) (jr_job_id record) 0 (pm_chunk_keys (jr_payload record)).

(** ** Payloads *)

(** [PayloadAccumulator]: the bytes given to the digest are those consumed. *)
Record PayloadScan : Type := mkPayloadScan { sc_chunk_count : Z; sc_total_length : Z; sc_consumed : bytes }.

Definition PayloadAccumulator_accept {E} (expected_length : Z) (scan : PayloadScan) (encoded : option bytes)
    : result (JobSystemError E) PayloadScan :=
  encoded ← ok_or JSE_PayloadCorrupt encoded;
  '(tag, body) ← data (ValueCodec_decode_body encoded);
  if negb (bool_decide (tag = VT_PayloadChunk)) then Err JSE_PayloadCorrupt
  else
    total_length ← ok_or JSE_PayloadCorrupt (checked_add_usize (sc_total_length scan) (len body));
    if (expected_length <? total_length) || (MAX_INLINE_PAYLOAD_BYTES <? total_length)
    then Err JSE_PayloadCorrupt
    else
      chunk_count ← ok_or JSE_PayloadCorrupt (checked_add_usize (sc_chunk_count scan) 1);
      Ok (mkPayloadScan chunk_count total_length (sc_consumed scan ++ body)).

(** [for _ in 0..expected_chunks]; the chunks left over are returned. *)
Fixpoint accept_chunks {E} (expected_length : Z) (expected_chunks : nat) (encoded_chunks : list (option bytes))
    (scan : PayloadScan) : result (JobSystemError E) (PayloadScan * list (option bytes)) :=
  match expected_chunks, encoded_chunks with
  | S expected_chunks, encoded :: encoded_chunks =>
      scan ← PayloadAccumulator_accept expected_length scan encoded;
      accept_chunks expected_length expected_chunks encoded_chunks scan
  | _, _ => Ok (scan, encoded_chunks)
  end.

Definition scan_payload {E} (sha256 : bytes → bytes) (manifest : PayloadManifest)
    (encoded_chunks : list (option bytes)) : result (JobSystemError E) PayloadScan :=
  let expected_length := pm_total_length manifest in
  if MAX_INLINE_PAYLOAD_BYTES <? expected_length then Err JSE_PayloadCorrupt
  else
    '(scan, rest) ←
      accept_chunks expected_length (length (pm_chunk_keys manifest)) encoded_chunks
        (mkPayloadScan 0 0 []);
    let valid :=
      (sc_chunk_count scan =? len (pm_chunk_keys manifest)) && (sc_total_length scan =? expected_length)
      && bytes_eqb (sha256 (sc_consumed scan)) (pm_digest manifest) && bool_decide (rest = []) in
    if negb valid then Err JSE_PayloadCorrupt else Ok scan.

Definition decode_payload {E} (sha256 : bytes → bytes) (record : JobRecordV1)
    (encoded_chunks : list (option bytes)) : result (JobSystemError E) bytes :=
  if MAX_INLINE_PAYLOAD_BYTES <? pm_total_length (jr_payload record) then Err JSE_PayloadCorrupt
  else
    scan ← scan_payload sha256 (jr_payload record) encoded_chunks;
    Ok (sc_consumed scan).

Definition load_payload_and_cancellation {E} (system : JobSystem) (record : JobRecordV1)
    : job E (bytes * option bytes) :=
  _ ← try_ (validate_persisted_identity system (jr_job_id record) record);
  cancellation_key ← try_ (cancellation_key (sys_namespace system) (jr_job_id record));
  let read_keys := pm_chunk_keys (jr_payload record) ++ [cancellation_key] in
  values ← read_many system read_keys;
  if negb (len values =? len read_keys) then fail JSE_PayloadCorrupt
  else
    let chunks := length (pm_chunk_keys (jr_payload record)) in
    payload ← try_ (decode_payload (sys_sha256 system) record (take chunks values));
    match drop chunks values with
    | [] => fail JSE_PayloadCorrupt
    | cancellation :: rest =>
        _ ← match cancellation with
            | Some encoded => try_ (validate_empty_marker encoded VT_Cancellation)
            | None => mret tt
            end;
        match rest with
        | [] => mret (payload, cancellation)
        | _ => fail JSE_PayloadCorrupt
        end
    end.

(** ** Authority of a claim *)

Definition claimable (record : JobRecordV1) (now : Timestamp) : bool :=
  match jr_state record with
  | Scheduled => true
  | Leased lease => ls_expires_at lease <=? now
  | DeadLettered | Cancelled | Suspended => false
  end.

Definition next_attempt (record : JobRecordV1) (now : Timestamp) : option AttemptHistory :=
  match jr_attempts record with
  | None => Some (mkAttemptHistory 1 now now None)
  | Some history =>
      attempts ← checked_add_u32 (ah_attempts history) 1;
      if attempts =? 0 then None
      else Some (mkAttemptHistory attempts (ah_first_attempt_at history) now (ah_last_outcome history))
  end.

Definition claim_authority {E} (system : JobSystem) (record : JobRecordV1) (now : Timestamp)
    (fence_high_water : Z) (deadline : option Timestamp)
    : job E (AttemptHistory * Z * LeaseToken * Timestamp) :=
  registration ← try_ (ok_or JSE_UnregisteredHandler
    (HandlerRegistry_get_ref (sys_registry system) (jr_kind record) (jr_schema_version record)));
  if JobRecordV1_has_exhausted_attempts record then fail JSE_LeaseConflict
  else
    attempts ← try_ (ok_or JSE_LeaseConflict (next_attempt record now));
    let previous_fence :=
      match jr_state record with
      | Leased lease => Z.max (ls_fence lease) fence_high_water
      | _ => fence_high_water
      end in
    fence ← try_ (ok_or JSE_LeaseConflict (checked_add_u64 previous_fence 1));
    _ ← try_ (ensure (negb (fence =? 0)) JSE_LeaseConflict);
    token ← generate;
    expires_at ← try_ (Timestamp_checked_add now (hr_default_timeout registration));
    let expires_at := match deadline with Some deadline => Z.min expires_at deadline | None => expires_at end in
    if expires_at <=? now then fail JSE_LeaseConflict
    else mret (attempts, fence, token, expires_at).

Definition prepare_claim_record {E} (system : JobSystem) (record : JobRecordV1) (now : Timestamp)
    (fence_high_water : Z) (deadline : option Timestamp) : job E JobRecordV1 :=
  if (now <? jr_scheduled_at record)
     || is_some_and (λ expiry, expiry <=? now) (jr_expires_at record)
     || (jr_retention_deadline record <=? now)
     || negb (claimable record now)
  then fail JSE_LeaseConflict
  else
    '(attempts, fence, token, expires_at) ← claim_authority system record now fence_high_water deadline;
    generation ← try_ (ok_or JSE_LeaseConflict (checked_add_u32 (jr_generation record) 1));
    let record := set_attempts (set_generation record generation) (Some attempts) in
    lease ← try_ (Lease_try_new (sys_owner system) token fence expires_at);
    let record := set_state record (Leased lease) in
    revision ← try_ (ok_or JSE_LeaseConflict (checked_add_u64 (jr_revision record) 1));
    mret (set_revision record revision).

(** ** The claim transaction *)

Inductive ClaimRoute : Type :=
  | CR_Due (key : StoreKey) (value : bytes)
  | CR_ExpiredLease (key : StoreKey) (value : bytes).

Definition ClaimRoute_key (route : ClaimRoute) : StoreKey :=
  match route with CR_Due key _ | CR_ExpiredLease key _ => key end.
Definition ClaimRoute_value (route : ClaimRoute) : bytes :=
  match route with CR_Due _ value | CR_ExpiredLease _ value => value end.
Definition ClaimRoute_removes_route (route : ClaimRoute) : bool :=
  match route with CR_Due _ _ => true | CR_ExpiredLease _ _ => false end.
Definition ClaimRoute_replaces_permits (route : ClaimRoute) : bool :=
  match route with CR_Due _ _ => false | CR_ExpiredLease _ _ => true end.

Definition claim_checks (job_key : StoreKey) (encoded : bytes) (route_key : StoreKey) (route_value : bytes)
    (permit_keys : list StoreKey) (existing_permit_value : option bytes) : list Check :=
  [Value job_key encoded; Value route_key route_value]
  ++ ((λ key, match existing_permit_value with
              | Some value => Value key value
              | None => Absent key
              end) <$> permit_keys).

Record ClaimTransactionInput : Type := mkClaimTransactionInput {
  ct_record : JobRecordV1;
  ct_encoded : bytes;
  ct_route : ClaimRoute;
  ct_new_encoded : bytes;
  ct_operation_id : OperationId;
  ct_permit_keys : list StoreKey;
  ct_existing_permit_value : option bytes;
}.

Definition claim_mutations {E} (system : JobSystem) (record : JobRecordV1) (route : ClaimRoute)
    (new_encoded : bytes) (operation_id : OperationId) (permit_keys : list StoreKey)
    : result (JobSystemError E) (StoreKey * StoreKey * StoreKey * list Mutation) :=
  job_key ← data (job_key (sys_namespace system) (jr_job_id record));
  fair_key ← data (fair_key (sys_namespace system) (jr_queue record) (jr_job_id record));
  lease_key ← data (lease_key (sys_namespace system) (jr_queue record) (jr_job_id record));
  fence_high_water ← lease_fence record;
  lease_value ← data (lease_value (jr_job_id record));
  operation_key ← data (operation_key (sys_namespace system) (jr_job_id record));
  operation_value ← data (operation_value (jr_job_id record) operation_id fence_high_water);
  permit_value ← data (permit_value_for_record record);
  let mutations :=
    [Put job_key new_encoded]
    ++ (if ClaimRoute_removes_route route then [Delete (ClaimRoute_key route)] else [])
    ++ [Delete fair_key; Put lease_key lease_value; Put operation_key operation_value]
    ++ ((λ permit_key, Put permit_key permit_value) <$> permit_keys) in
  Ok (job_key, fair_key, lease_key, mutations).

Definition claim_transaction {E} (system : JobSystem) (input : ClaimTransactionInput)
    : job E (StoreKey * StoreKey * StoreKey * StoreTransaction) :=
  '(job_key, fair_key, lease_key, mutations) ←
    try_ (claim_mutations system (ct_record input) (ct_route input) (ct_new_encoded input)
            (ct_operation_id input) (ct_permit_keys input));
  let checks :=
    claim_checks job_key (ct_encoded input) (ClaimRoute_key (ct_route input))
      (ClaimRoute_value (ct_route input)) (ct_permit_keys input) (ct_existing_permit_value input) in
  cancellation_key ← try_ (cancellation_key (sys_namespace system) (jr_job_id (ct_record input)));
  transaction ← checked_transaction system (checks ++ [Absent cancellation_key]) mutations;
  mret (job_key, fair_key, lease_key, transaction).

Definition commit_claim {E} (system : JobSystem) (input : ClaimTransactionInput)
    : job E (StoreKey * StoreKey) :=
  '(job_key, fair_key, lease_key, transaction) ← claim_transaction system input;
  _ ← commit_transition system transaction job_key (Some (ct_encoded input))
        (Some (ct_new_encoded input)) TC_LeaseConflict;
  mret (fair_key, lease_key).

(** ** The claim *)

Definition validate_claim_route {E} (record : JobRecordV1) (route : ClaimRoute)
    : result (JobSystemError E) unit :=
  match route with
  | CR_Due _ value =>
      timestamp ← data (decode_timestamp_value value VT_Due);
      if negb (timestamp =? jr_scheduled_at record) then Err JSE_LeaseConflict else Ok tt
  | CR_ExpiredLease _ value => data (validate_job_marker value VT_Lease (jr_job_id record))
  end.

Definition load_fence_high_water {E} (system : JobSystem) (job_id : JobId) : job E Z :=
  operation_key ← try_ (operation_key (sys_namespace system) job_id);
  encoded ← store_get operation_key;
  match encoded with
  | None => mret 0
  | Some encoded => try_ (decode_operation_fence_high_water encoded job_id)
  end.

Definition find_claim_permit_keys {E} (system : JobSystem) (record : JobRecordV1) (capacity : Z)
    (reclaiming_expired_lease : bool) : job E (option (list StoreKey)) :=
  if reclaiming_expired_lease then find_reclaimable_permit_keys system record
  else find_available_permit_keys system record capacity.

Definition join_claim_reads_with_mode {E} (system : JobSystem) (record : JobRecordV1) (capacity : Z)
    (reclaiming_expired_lease : bool)
    : prog E (result (JobSystemError E) Z * result (JobSystemError E) (option (list StoreKey))) :=
  join (load_fence_high_water system (jr_job_id record))
       (find_claim_permit_keys system record capacity reclaiming_expired_lease).

(** [claim.context()] exists. *)
Definition has_context (claim : ClaimedJob) : bool :=
  negb (cj_authority_lost claim)
  && match jr_state (cj_record claim) with Leased _ => true | _ => false end
  && bool_decide (jr_attempts (cj_record claim) ≠ None).

(** [finish_claim] publishes the claim within the time its lease has left;
    only the poll that ends the publication matters. *)
Definition publish_claim {E} (system : JobSystem) (claim : ClaimedJob) (deadline : option Timestamp)
    : job E unit :=
  _ ← try_ (ok_or JSE_UnregisteredHandler
    (HandlerRegistry_get_ref (sys_registry system) (jr_kind (cj_record claim))
       (jr_schema_version (cj_record claim))));
  let remaining : job E unit :=
    match deadline with
    | None => mret tt
    | Some _ =>
        now ← ambient_ AWallNow;
        now ← try_ now;
        lease ← try_ (ok_or JSE_LeaseLost (lease_at claim now));
        _ ← try_ (Timestamp_duration_since (ls_expires_at lease) now);
        mret tt
    end in
  _ ← remaining;
  if negb (has_context claim) then fail JSE_LeaseLost
  else
    publication ← ambient_ APublish;
    match publication with
    | PUB_panicked => fail JSE_ClaimPublicationUnacknowledged
    | PUB_none => remaining
    | PUB_no_timer => _ ← remaining; fail JSE_WakeScheduler
    | PUB_timed_out => _ ← remaining; _ ← remaining; fail JSE_LeaseLost
    | PUB_unacknowledged => _ ← remaining; _ ← remaining; fail JSE_ClaimPublicationUnacknowledged
    | PUB_acknowledged => _ ← remaining; _ ← remaining; remaining
    end.

Record ClaimParts : Type := mkClaimParts {
  cp_execution_deadline : option Timestamp;
  cp_route : ClaimRoute;
  cp_fair_key : StoreKey;
  cp_lease_key : StoreKey;
  cp_permit_keys : list StoreKey;
  cp_attempt_id : AttemptId;
  cp_operation_id : OperationId;
}.

Definition assemble_claim {E} (parts : ClaimParts) (record : JobRecordV1) (encoded payload : bytes)
    (cancellation : bool) : result (JobSystemError E) ClaimedJob :=
  fence_high_water ← lease_fence record;
  Ok (mkClaimedJob record encoded payload
        (if ClaimRoute_removes_route (cp_route parts) then Some (ClaimRoute_key (cp_route parts)) else None)
        (cp_fair_key parts) (cp_lease_key parts) (cp_permit_keys parts) (cp_attempt_id parts)
        (cp_operation_id parts) fence_high_water cancellation false I64_MIN
        (cp_execution_deadline parts)).

Definition finish_claim {E} (system : JobSystem) (record : JobRecordV1) (encoded : bytes)
    (parts : ClaimParts) (deadline : option Timestamp) : job E ClaimedJob :=
  '(payload, cancellation_value) ← load_payload_and_cancellation system record;
  claim ← try_ (assemble_claim parts record encoded payload (bool_decide (cancellation_value ≠ None)));
  _ ← publish_claim system claim deadline;
  mret claim.

(** [claim_record_with_capacity], on a [ClaimRecordInput] with the bound of its
    deadline. *)
Definition claim_record_with_capacity {E} (system : JobSystem) (record : JobRecordV1) (encoded : bytes)
    (route : ClaimRoute) (now : Timestamp) (capacity : Z) (deadline : option Timestamp)
    : job E ClaimedJob :=
  _ ← try_ (validate_persisted_identity system (jr_job_id record) record);
  _ ← try_ (validate_claim_route record route);
  existing_permit_value ←
    (if ClaimRoute_replaces_permits route
     then value ← try_ (permit_value_for_record record); mret (Some value) else mret None);
  '(fence_result, permit_result) ←
    lift_prog (join_claim_reads_with_mode system record capacity (ClaimRoute_replaces_permits route));
  fence_high_water ← try_ fence_result;
  record ← prepare_claim_record system record now fence_high_water deadline;
  new_encoded ← try_ (encode_job_record record);
  attempt_id ← generate;
  operation_id ← generate;
  permit_keys ← try_ permit_result;
  permit_keys ← try_ (ok_or JSE_LeaseConflict permit_keys);
  '(fair_key, lease_key) ←
    commit_claim system (mkClaimTransactionInput record encoded route new_encoded operation_id
                           permit_keys existing_permit_value);
  finish_claim system record new_encoded
    (mkClaimParts deadline route fair_key lease_key permit_keys attempt_id operation_id) deadline.

Definition load_claim_route {E} (system : JobSystem) (record : JobRecordV1) (job_id : JobId)
    (now : Timestamp) : job E ClaimRoute :=
  due_key ← try_ (due_key (sys_namespace system) (jr_queue record) (jr_scheduled_at record) job_id);
  value ← store_get due_key;
  match value with
  | Some value => mret (CR_Due due_key value)
  | None =>
      lease_key ← try_ (lease_key (sys_namespace system) (jr_queue record) job_id);
      value ← store_get lease_key;
      value ← try_ (ok_or JSE_LeaseConflict value);
      match jr_state record with
      | Leased lease =>
          if ls_expires_at lease <=? now then mret (CR_ExpiredLease lease_key value)
          else fail JSE_LeaseConflict
      | _ => fail JSE_LeaseConflict
      end
  end.

Definition claim_with_capacity {E} (system : JobSystem) (job_id : JobId) (now : Timestamp) (capacity : Z)
    : job E ClaimedJob :=
  job_key ← try_ (job_key (sys_namespace system) job_id);
  encoded ← store_get job_key;
  encoded ← try_ (ok_or JSE_NotFound encoded);
  record ← try_ (decode_job_record encoded);
  _ ← try_ (validate_persisted_identity system job_id record);
  route ← load_claim_route system record job_id now;
  claim_record_with_capacity system record encoded route now capacity None.

Definition claim {E} (system : JobSystem) (job_id : JobId) (now : Timestamp) : job E ClaimedJob :=
  claim_with_capacity system job_id now 1.
