(* ===== verification/Completion.v ===== *)
(** * Completion and observation

    [crates/bg-jobs/src/lifecycle/completion.rs]: the receipt and the
    transaction of a successful completion; [lifecycle/terminal_projection.rs]
    and [lifecycle/observation.rs]: what callers are told of a job. *)

From S2P Require Import Prelude Errors Ids Clock Policy JobRecord KeyCodec ValueCodec JobCodec.
From S2P Require Import OperationCodec Keyspace Store Prog System Transition Claim.

(** ** Completion *)

Record CompletionDetails : Type := mkCompletionDetails {
  cd_job_id : JobId;
  cd_execution_id : ExecutionId;
  cd_generation : Z;
  cd_kind : JobKind;
  cd_queue : QueueName;
  cd_effect_mode : EffectMode;
  cd_created_at : Timestamp;
  cd_completed_at : Timestamp;
  cd_attempts : Z;
  cd_outcome : OutcomeCode;
}.

Definition completion_receipt {E} (system : JobSystem) (claim : ClaimedJob) (outcome : OutcomeCode)
    (completed_at : Timestamp) : result (JobSystemError E) OperationReceipt :=
  let record := cj_record claim in
  lease ← match jr_state record with Leased lease => Ok lease | _ => Err JSE_LeaseLost end;
  history ← ok_or JSE_LeaseLost (jr_attempts record);
  revision ← ok_or JSE_LeaseConflict (checked_add_u64 (jr_revision record) 1);
  digest ← data (job_definition_digest (sys_sha256 system) (JobDefinition_from_record record));
  Ok (mkOperationReceipt (Some digest) (cj_operation_id claim) (jr_job_id record) (jr_generation record)
        revision (jr_execution_id record) (cj_attempt_id claim) (ah_attempts history) (jr_kind record)
        (jr_queue record) (ps_effect_mode (jr_policy record)) (jr_created_at record) completed_at
        (ls_owner lease) (ls_token lease) (ls_fence lease) Completed outcome).

Definition completion_details (receipt : OperationReceipt) : CompletionDetails :=
  mkCompletionDetails (or_job_id receipt) (or_execution_id receipt) (or_generation receipt)
    (or_kind receipt) (or_queue receipt) (or_effect_mode receipt) (or_created_at receipt)
    (or_completed_at receipt) (or_attempts receipt) (or_outcome receipt).

Definition completion_mutations (system : JobSystem) (claim : ClaimedJob) (receipt : OperationReceipt)
    : result StoreDataError (list Mutation) :=
  operation_key ← operation_key (sys_namespace system) (jr_job_id (cj_record claim));
  receipt_value ← operation_receipt_value receipt;
  Ok ((Delete <$> pm_chunk_keys (jr_payload (cj_record claim)))
      ++ (Delete <$> option_list (cj_due_key claim))
      ++ [Delete (cj_fair_key claim); Delete (cj_lease_key claim)]
      ++ (Delete <$> cj_permit_keys claim)
      ++ [Put operation_key receipt_value]).

Definition completion_transaction {E} (system : JobSystem) (claim : ClaimedJob) (receipt : OperationReceipt)
    : job E StoreTransaction :=
  let namespace := sys_namespace system in
  let job_id := jr_job_id (cj_record claim) in
  job_key ← try_ (job_key namespace job_id);
  lease_value ← try_ (lease_value job_id);
  operation_key ← try_ (operation_key namespace job_id);
  operation_value ← try_ (operation_value job_id (cj_operation_id claim) (cj_fence_high_water claim));
  cancellation_key ← try_ (cancellation_key namespace job_id);
  let checks :=
    [Value job_key (cj_encoded claim); Value (cj_lease_key claim) lease_value;
     Value operation_key operation_value; Absent cancellation_key] in
  mutations ← try_ (completion_mutations system claim receipt);
  '(mutations, wake_check) ←
    wake_mutation system (jr_queue (cj_record claim)) (cj_due_key claim) None mutations;
  checked_transaction system (checks ++ option_list wake_check) (Delete job_key :: mutations).

Definition prepare_completion {E} (system : JobSystem) (claim : ClaimedJob) (outcome : JobOutcome)
    (completed_at : Timestamp) : job E (OperationReceipt * StoreTransaction) :=
  code ← match outcome with
         | Complete code => mret code
         | other => _ ← try_ (JobOutcome_validate other); fail JSE_UnsupportedOutcome
         end;
  _ ← try_ (current_lease claim completed_at);
  receipt ← try_ (completion_receipt system claim code completed_at);
  transaction ← completion_transaction system claim receipt;
  mret (receipt, transaction).

Definition complete {E} (system : JobSystem) (claim : ClaimedJob) (outcome : JobOutcome)
    (completed_at : Timestamp) : job E CompletionDetails :=
  '(receipt, transaction) ← prepare_completion system claim outcome completed_at;
  let job_id := jr_job_id (cj_record claim) in
  operation_key ← try_ (operation_key (sys_namespace system) job_id);
  previous_operation ← try_ (operation_value job_id (cj_operation_id claim) (cj_fence_high_water claim));
  receipt_value ← try_ (operation_receipt_value receipt);
  _ ← commit_transition system transaction operation_key (Some previous_operation) (Some receipt_value)
        TC_LeaseLost;
  mret (completion_details receipt).

(** ** Terminal authority *)

(** [JobTerminalAuthority]: the observed keys, the record's bytes, its terminal
    state and last outcome. *)
Record JobTerminalAuthority : Type := mkJobTerminalAuthority {
  ta_keys : list StoreKey;
  ta_encoded : bytes;
  ta_state : JobState;
  ta_outcome : option OutcomeCode;
}.

Definition terminal_authority {E} (system : JobSystem) (job_id : JobId)
    : job E (option JobTerminalAuthority) :=
  job ← try_ (job_key (sys_namespace system) job_id);
  cancellation ← try_ (cancellation_key (sys_namespace system) job_id);
  let observation_keys := [job; cancellation] in
  values ← read_many system observation_keys;
  match values with
  | [Some encoded_job; _] =>
      record ← try_ (decode_job_record encoded_job);
      _ ← try_ (validate_persisted_identity system job_id record);
      mret (match jr_state record with
            | DeadLettered =>
                Some (mkJobTerminalAuthority observation_keys encoded_job DeadLettered
                        (attempts ← jr_attempts record; ah_last_outcome attempts))
            | Cancelled => Some (mkJobTerminalAuthority observation_keys encoded_job Cancelled None)
            | Scheduled | Leased _ | Suspended => None
            end)
  | [None; _] => mret None
  | _ => fail JSE_PayloadCorrupt
  end.

(** ** Observation *)

Record LifecycleRoutes : Type := mkLifecycleRoutes {
  lr_due : bool;
  lr_fair : bool;
  lr_lease : bool;
  lr_wake : bool;
}.
Definition LifecycleRoutes_default : LifecycleRoutes := mkLifecycleRoutes false false false false.

Inductive LifecycleRecordStatus : Type := LRS_Valid | LRS_Corrupt | LRS_UnknownVersion.

(** [LifecycleRecord] is the record without its payload keys and checkpoint
    bytes; the projection keeps the record itself and adds whether the payload
    is complete. *)
Inductive LifecycleObservation : Type :=
  | LO_Missing
  | LO_Current (record : JobRecordV1) (payload_complete : bool) (operation_id : option OperationId)
      (routes : LifecycleRoutes) (cancellation_requested : bool)
  | LO_Invalid (status : LifecycleRecordStatus) (routes : LifecycleRoutes)
      (record : option (JobRecordV1 * bool))
  | LO_Terminal (receipt : OperationReceipt).

Definition record_status (error : StoreDataError) : LifecycleRecordStatus :=
  match error with SDE_UnknownVersion _ => LRS_UnknownVersion | _ => LRS_Corrupt end.

Definition current_evidence_keys (system : JobSystem) (record : JobRecordV1)
    : result StoreDataError (list StoreKey) :=
  let namespace := sys_namespace system in
  due ← due_key namespace (jr_queue record) (jr_scheduled_at record) (jr_job_id record);
  fair ← fair_key namespace (jr_queue record) (jr_job_id record);
  lease ← lease_key namespace (jr_queue record) (jr_job_id record);
  wake ← wake_key namespace (jr_queue record);
  cancellation ← cancellation_key namespace (jr_job_id record);
  Ok ([due; fair; lease; wake] ++ pm_chunk_keys (jr_payload record) ++ [cancellation]).

Definition present (value : option bytes) : bool := bool_decide (value ≠ None).

Definition decode_routes (due fair lease wake : option bytes) : LifecycleRoutes :=
  mkLifecycleRoutes (present due) (present fair) (present lease)
    ((present due || present fair) && present wake).

Definition payload_complete (E : Type) (sha256 : bytes → bytes) (manifest : PayloadManifest)
    (encoded_chunks : list (option bytes)) : bool :=
  is_ok (scan_payload (E := E) sha256 manifest encoded_chunks).

Definition decode_current_evidence {E} (system : JobSystem) (record : JobRecordV1)
    (values : list (option bytes)) : result (JobSystemError E) (LifecycleRoutes * bool * bool) :=
  let chunks := length (pm_chunk_keys (jr_payload record)) in
  match values with
  | due :: fair :: lease :: wake :: values =>
      match drop chunks values with
      | [cancellation] =>
          Ok (decode_routes due fair lease wake,
              payload_complete E (sys_sha256 system) (jr_payload record) (take chunks values),
              present cancellation)
      | _ => Err JSE_PayloadCorrupt
      end
  | _ => Err JSE_PayloadCorrupt
  end.

Definition decode_operation_id (encoded : option bytes) (job_id : JobId)
    : result StoreDataError (option OperationId) :=
  match encoded with
  | None => Ok None
  | Some encoded =>
      live ← decode_operation_authority encoded job_id;
      Ok (lo_operation_id live)
  end.

Definition observe_current {E} (system : JobSystem) (job_id : JobId) (encoded : bytes)
    (encoded_operation : option bytes) : job E LifecycleObservation :=
  match decode_job_record encoded with
  | Err error => mret (LO_Invalid (record_status error) LifecycleRoutes_default None)
  | Ok record =>
      if negb (is_ok (validate_persisted_identity (E := E) system job_id record))
      then mret (LO_Invalid LRS_Corrupt LifecycleRoutes_default (Some (record, false)))
      else
        keys ← try_ (current_evidence_keys system record);
        values ← read_many system keys;
        if negb (len values =? len keys) then fail JSE_PayloadCorrupt
        else
          '(routes, complete, cancellation_requested) ← try_ (decode_current_evidence system record values);
          match decode_operation_id encoded_operation job_id with
          | Err error => mret (LO_Invalid (record_status error) routes (Some (record, complete)))
          | Ok operation_id => mret (LO_Current record complete operation_id routes cancellation_requested)
          end
  end.

Definition observe_terminal (job_id : JobId) (encoded : bytes) : LifecycleObservation :=
  match decode_operation encoded with
  | Ok (DO_Receipt receipt) =>
      if bytes_eqb (or_job_id receipt) job_id then LO_Terminal receipt
      else LO_Invalid LRS_Corrupt LifecycleRoutes_default None
  | Ok (DO_Live _) => LO_Invalid LRS_Corrupt LifecycleRoutes_default None
  | Err error => LO_Invalid (record_status error) LifecycleRoutes_default None
  end.

Definition observe {E} (system : JobSystem) (job_id : JobId) : job E LifecycleObservation :=
  job ← try_ (job_key (sys_namespace system) job_id);
  operation ← try_ (operation_key (sys_namespace system) job_id);
  values ← read_many system [job; operation];
  match values with
  | [None; None] => mret LO_Missing
  | [Some encoded; operation] => observe_current system job_id encoded operation
  | [None; Some encoded] => mret (observe_terminal job_id encoded)
  | _ => fail JSE_PayloadCorrupt
  end.
