(* ===== verification/Enqueue.v ===== *)
(** * Enqueue

    [crates/bg-jobs/src/enqueue]: admission of a new job ([operation.rs]),
    the authority it is reconciled against ([authority.rs]), the record and
    index entries it creates ([state.rs]) and its transaction
    ([transaction.rs]). *)

From S2P Require Import Prelude Errors Ids Clock Policy JobRecord KeyCodec ValueCodec JobCodec.
From S2P Require Import OperationCodec Keyspace Store Prog System Transition Claim.

Inductive EnqueueDisposition : Type := Enqueued | AlreadyPresent | Deduplicated.

Record EnqueueResult : Type := mkEnqueueResult {
  er_job_id : JobId;
  er_disposition : EnqueueDisposition;
  er_wake : WakeHint;
}.

Inductive ExistingJobMatch : Type := ExactRequest | StableSeed.

Record PriorFenceAuthority : Type := mkPriorFenceAuthority {
  pf_encoded : bytes;
  pf_fence_high_water : Z;
}.

Inductive EnqueueAuthority : Type :=
  | EA_Existing (encoded : bytes)
  | EA_Deduplicated (job_id : JobId)
  | EA_Missing (expected_dedupe : option bytes) (prior_fence : option PriorFenceAuthority).

Record ValidatedEnqueue : Type := mkValidatedEnqueue {
  ve_job : NewJob;
  ve_registration : HandlerRegistration;
  ve_digest : bytes;
  ve_now : Timestamp;
  ve_existing_match : ExistingJobMatch;
}.

(** ** Admission *)

Definition build_policy (job : NewJob) (registration : HandlerRegistration) : JobPolicySnapshot :=
  mkJobPolicySnapshot (hr_effect_mode registration) (hr_cost_units registration)
    (Some (hr_default_timeout registration))
    (RetryPolicy_from (default (hr_default_retry registration) (nj_retry_override job))).

Definition ValidatedEnqueue_definition (request : ValidatedEnqueue) (namespace : Namespace)
    : result StoreDataError JobDefinition :=
  let job := ve_job request in
  payload_length ← ok_or SDE_LengthOverflow (checked 0 U32_MAX (len (nj_payload job)));
  Ok (mkJobDefinition (nj_job_id job) namespace (hr_queue (ve_registration request)) (nj_kind job)
        (nj_schema_version job) payload_length (ve_digest request) (nj_fairness job)
        (nj_ordering_key job) (nj_priority job) (nj_expires_at job)
        (build_policy job (ve_registration request)) (nj_deduplication job)).

Definition validate_fairness (fairness : FairnessClass) (policy : FairnessPolicy)
    : result ValidationError unit :=
  match fairness, policy with
  | FC_Scoped _, FP_Scoped _ | FC_LowVolume, FP_LowVolume => Ok tt
  | _, _ => Err (VE_InvalidValue "fairness policy")
  end.

(** ** Authority *)

Definition enqueue_read_keys (system : JobSystem) (job : NewJob) (job_key : StoreKey)
    : result StoreDataError (list StoreKey * bool) :=
  '(read_keys, has_dedupe) ←
    match nj_deduplication job with
    | Some deduplication =>
        key ← dedupe_key (sys_namespace system) (dd_key deduplication);
        Ok ([job_key; key], true)
    | None => Ok ([job_key], false)
    end;
  operation_key ← operation_key (sys_namespace system) (nj_job_id job);
  Ok (read_keys ++ [operation_key], has_dedupe).

Definition decode_prior_fence (encoded : bytes) (job_id : JobId)
    : result StoreDataError PriorFenceAuthority :=
  fence_high_water ← decode_operation_fence_high_water encoded job_id;
  Ok (mkPriorFenceAuthority encoded fence_high_water).

(** [values.next().flatten()]. *)
Definition next_value (values : list (option bytes)) : option bytes * list (option bytes) :=
  match values with [] => (None, []) | value :: values => (value, values) end.

Definition classify_prior (values : list (option bytes)) (job_id : JobId) (expected_dedupe : option bytes)
    : result StoreDataError EnqueueAuthority :=
  prior_fence ← transpose (λ encoded, decode_prior_fence encoded job_id) (next_value values).1;
  Ok (EA_Missing expected_dedupe prior_fence).

Definition classify_enqueue_values (values : list (option bytes)) (has_dedupe : bool) (job : NewJob)
    (now : Timestamp) : result StoreDataError EnqueueAuthority :=
  let '(existing, values) := next_value values in
  match existing with
  | Some existing => Ok (EA_Existing existing)
  | None =>
      if has_dedupe then
        let '(dedupe, values) := next_value values in
        match dedupe with
        | Some encoded =>
            '(dedupe_job_id, retain_until) ← decode_dedupe_value encoded;
            if now <? retain_until then Ok (EA_Deduplicated dedupe_job_id)
            else classify_prior values (nj_job_id job) (Some encoded)
        | None => classify_prior values (nj_job_id job) None
        end
      else classify_prior values (nj_job_id job) None
  end.

Definition read_enqueue_authority {E} (system : JobSystem) (job : NewJob) (job_key : StoreKey)
    (now : Timestamp) : Prog.job E EnqueueAuthority :=
  '(read_keys, has_dedupe) ← try_ (enqueue_read_keys system job job_key);
  values ← read_many system read_keys;
  if negb (len values =? len read_keys) then fail JSE_PayloadCorrupt
  else try_ (classify_enqueue_values values has_dedupe job now).

Definition enqueue_result_at (job_id : JobId) (disposition : EnqueueDisposition)
    (scheduled_at now : Timestamp) : EnqueueResult :=
  mkEnqueueResult job_id disposition (WakeHint_from_timestamp scheduled_at now).

Definition JobDefinition_eqb (a b : JobDefinition) : bool :=
  bytes_eqb (jd_job_id a) (jd_job_id b) && bytes_eqb (jd_namespace a) (jd_namespace b)
  && bytes_eqb (jd_queue a) (jd_queue b) && bytes_eqb (jd_kind a) (jd_kind b)
  && (jd_schema_version a =? jd_schema_version b) && (jd_payload_length a =? jd_payload_length b)
  && bytes_eqb (jd_payload_digest a) (jd_payload_digest b)
  && bool_decide (jd_fairness a = jd_fairness b) && bool_decide (jd_ordering_key a = jd_ordering_key b)
  && bool_decide (jd_priority a = jd_priority b) && bool_decide (jd_expires_at a = jd_expires_at b)
  && bool_decide (jd_policy a = jd_policy b) && bool_decide (jd_deduplication a = jd_deduplication b).

Definition reconcile_record {E} (system : JobSystem) (request : ValidatedEnqueue) (encoded : bytes)
    (disposition : EnqueueDisposition) : result (JobSystemError E) EnqueueResult :=
  record ← data (decode_job_record encoded);
  _ ← map_err (λ error, match error with
                        | JSE_LeaseConflict | JSE_PayloadCorrupt => JSE_JobIdConflict
                        | other => other
                        end)
        (validate_persisted_identity system (nj_job_id (ve_job request)) record);
  let matches_schedule :=
    match ve_existing_match request with
    | ExactRequest => jr_scheduled_at record =? nj_scheduled_at (ve_job request)
    | StableSeed => true
    end in
  if negb matches_schedule then Err JSE_JobIdConflict
  else
    definition ← data (ValidatedEnqueue_definition request (sys_namespace system));
    if negb (JobDefinition_eqb (JobDefinition_from_record record) definition) then Err JSE_JobIdConflict
    else
      Ok (enqueue_result_at (nj_job_id (ve_job request)) disposition (jr_scheduled_at record)
            (ve_now request)).

Definition reconcile_completed_seed {E} (system : JobSystem) (request : ValidatedEnqueue)
    (prior : PriorFenceAuthority) (disposition : EnqueueDisposition)
    : result (JobSystemError E) (option EnqueueResult) :=
  match ve_existing_match request with
  | ExactRequest => Ok None
  | StableSeed =>
      decoded ← data (decode_operation (pf_encoded prior));
      match decoded with
      | DO_Live _ => Ok None
      | DO_Receipt receipt =>
          if negb (bytes_eqb (or_kind receipt) (nj_kind (ve_job request)))
             || negb (bytes_eqb (or_queue receipt) (hr_queue (ve_registration request)))
             || negb (bool_decide (or_effect_mode receipt = hr_effect_mode (ve_registration request)))
          then Err JSE_JobIdConflict
          else
            definition ← data (ValidatedEnqueue_definition request (sys_namespace system));
            digest ← data (job_definition_digest (sys_sha256 system) definition);
            if negb (bool_decide (or_definition_digest receipt = Some digest)) then Err JSE_JobIdConflict
            else Ok (Some (mkEnqueueResult (or_job_id receipt) disposition WH_None))
      end
  end.

Definition reconcile_after_commit {E} (system : JobSystem) (request : ValidatedEnqueue)
    (disposition : EnqueueDisposition) : job E EnqueueResult :=
  let job_id := nj_job_id (ve_job request) in
  job ← try_ (job_key (sys_namespace system) job_id);
  operation ← try_ (operation_key (sys_namespace system) job_id);
  values ← read_many system [job; operation];
  match values with
  | [Some encoded; _] => try_ (reconcile_record system request encoded disposition)
  | [None; Some encoded] =>
      prior ← try_ (decode_prior_fence encoded job_id);
      result ← try_ (reconcile_completed_seed system request prior disposition);
      match result with
      | Some result => mret result
      | None => fail JSE_UnknownCommit
      end
  | [None; None] => fail JSE_UnknownCommit
  | _ => fail JSE_PayloadCorrupt
  end.

(** ** State *)

Definition payload_chunk_capacity (system : JobSystem) : result StoreContractError Z :=
  ok_or (SCE_CapabilityExceeded "payload chunk bytes")
    (checked 0 USIZE_MAX (cap_max_value_bytes (sys_capabilities system) - 6)).

(** [payload.chunks(n)] for [n > 0]; the fuel is the payload's length. *)
Fixpoint chunks_from (fuel : nat) (n : nat) (payload : bytes) : list bytes :=
  match fuel, payload with
  | S fuel, _ :: _ => take n payload :: chunks_from fuel n (drop n payload)
  | _, _ => []
  end.
Definition chunks (n : Z) (payload : bytes) : list bytes :=
  chunks_from (length payload) (Z.to_nat n) payload.

Fixpoint put_chunks {E} (namespace : Namespace) (job_id : JobId) (index : Z) (chunks : list bytes)
    : result (JobSystemError E) (list StoreKey * list Mutation) :=
  match chunks with
  | [] => Ok ([], [])
  | chunk :: chunks =>
      index ← ok_or (JSE_Validation (VE_Overflow "payload chunk index")) (checked 0 U32_MAX index);
      key ← data (payload_key namespace job_id index);
      value ← data (ValueCodec_encode VT_PayloadChunk chunk);
      '(keys, mutations) ← put_chunks namespace job_id (index + 1) chunks;
      Ok (key :: keys, Put key value :: mutations)
  end.

Definition build_payload_chunks {E} (system : JobSystem) (job : NewJob) (chunk_capacity : Z)
    : result (JobSystemError E) (list StoreKey * list Mutation) :=
  if (chunk_capacity =? 0) && negb (len (nj_payload job) =? 0)
  then Err (JSE_StoreContract (SCE_CapabilityExceeded "payload chunk bytes"))
  else
    put_chunks (sys_namespace system) (nj_job_id job) 0
      (chunks (Z.max chunk_capacity 1) (nj_payload job)).

Definition scheduled_record (system : JobSystem) (job : NewJob) (registration : HandlerRegistration)
    (now : Timestamp) (policy : JobPolicySnapshot) (execution_id : ExecutionId) (payload : PayloadManifest)
    : result ValidationError JobRecordV1 :=
  retention_deadline ←
    match nj_expires_at job with
    | Some expiry => Ok (Z.max expiry now)
    | None =>
        Timestamp_checked_add (Z.max (nj_scheduled_at job) now) (rp_maximum_age (ps_retry_policy policy))
    end;
  Ok (mkJobRecordV1 (nj_job_id job) (sys_namespace system) (hr_queue registration) (nj_kind job)
        (nj_schema_version job) 0 execution_id payload (nj_fairness job) (nj_ordering_key job)
        (nj_priority job) now (nj_scheduled_at job) (nj_expires_at job) policy None Scheduled None
        retention_deadline (nj_deduplication job) 0).

Definition build_job_record {E} (system : JobSystem) (job : NewJob) (registration : HandlerRegistration)
    (digest : bytes) (now : Timestamp) (chunk_keys : list StoreKey) : Prog.job E JobRecordV1 :=
  let policy := build_policy job registration in
  execution_id ← generate;
  total_length ← try_ (ok_or (VE_TooLong "payload" MAX_INLINE_PAYLOAD_BYTES (len (nj_payload job)))
                         (checked 0 U32_MAX (len (nj_payload job))));
  payload ← try_ (PayloadManifest_try_new total_length digest chunk_keys);
  try_ (scheduled_record system job registration now policy execution_id payload).

Definition append_enqueue_indexes (system : JobSystem) (job : NewJob) (registration : HandlerRegistration)
    (record : JobRecordV1) (mutations : list Mutation) (prior_fence : option PriorFenceAuthority)
    : result StoreDataError (list Mutation) :=
  let namespace := sys_namespace system in
  let job_id := nj_job_id job in
  job_key ← job_key namespace job_id;
  encoded ← encode_job_record record;
  due_key ← due_key namespace (hr_queue registration) (nj_scheduled_at job) job_id;
  due_value ← due_value (nj_scheduled_at job);
  fair_key ← fair_key namespace (hr_queue registration) job_id;
  fair_value ← fair_value job_id;
  let mutations := mutations ++ [Put job_key encoded; Put due_key due_value; Put fair_key fair_value] in
  mutations ← match prior_fence with
              | Some prior_fence =>
                  operation_key ← operation_key namespace job_id;
                  value ← operation_watermark_value job_id (pf_fence_high_water prior_fence);
                  Ok (mutations ++ [Put operation_key value])
              | None => Ok mutations
              end;
  match nj_deduplication job with
  | Some deduplication =>
      dedupe_key ← dedupe_key namespace (dd_key deduplication);
      value ← dedupe_value job_id (dd_retain_until deduplication);
      Ok (mutations ++ [Put dedupe_key value])
  | None => Ok mutations
  end.

Definition build_enqueue_state {E} (system : JobSystem) (job : NewJob) (registration : HandlerRegistration)
    (digest : bytes) (now : Timestamp) (prior_fence : option PriorFenceAuthority)
    : Prog.job E (JobRecordV1 * list Mutation) :=
  chunk_capacity ← try_ (payload_chunk_capacity system);
  '(chunk_keys, mutations) ← try_ (build_payload_chunks system job chunk_capacity);
  record ← build_job_record system job registration digest now chunk_keys;
  mutations ← try_ (append_enqueue_indexes system job registration record mutations prior_fence);
  mret (record, mutations).

(** ** Transaction *)

Definition append_dedupe_check (system : JobSystem) (job : NewJob) (expected_dedupe : option bytes)
    (checks : list Check) : result StoreDataError (list Check) :=
  match nj_deduplication job with
  | None => Ok checks
  | Some deduplication =>
      key ← dedupe_key (sys_namespace system) (dd_key deduplication);
      Ok (checks ++ [match expected_dedupe with Some value => Value key value | None => Absent key end])
  end.

Definition build_enqueue_transaction {E} (system : JobSystem) (job : NewJob) (record : JobRecordV1)
    (mutations : list Mutation) (expected_dedupe expected_operation : option bytes)
    : Prog.job E StoreTransaction :=
  let namespace := sys_namespace system in
  wake_key ← try_ (wake_key namespace (jr_queue record));
  current_wake ← store_get wake_key;
  job_key ← try_ (job_key namespace (nj_job_id job));
  operation_key ← try_ (operation_key namespace (nj_job_id job));
  let checks :=
    [Absent job_key;
     match expected_operation with Some value => Value operation_key value | None => Absent operation_key end] in
  '(mutations, wake_check) ←
    try_ (wake_apply wake_key current_wake (Lower (jr_scheduled_at record)) mutations);
  checks ← try_ (append_dedupe_check system job expected_dedupe (checks ++ option_list wake_check));
  checked_transaction system checks mutations.

Definition enqueue_result (job : NewJob) (disposition : EnqueueDisposition) (now : Timestamp)
    : EnqueueResult :=
  mkEnqueueResult (nj_job_id job) disposition (WakeHint_from_timestamp (nj_scheduled_at job) now).

(** [for attempt in 0..attempts]; a stable seed replays an unknown commit once. *)
Fixpoint resolve_attempts {E} (system : JobSystem) (request : ValidatedEnqueue)
    (transaction : StoreTransaction) (attempt : Z) (remaining : nat) : job E EnqueueResult :=
  match remaining with
  | O => fail JSE_UnknownCommit
  | S remaining =>
      outcome ← store_commit transaction;
      match outcome with
      | Committed => mret (enqueue_result (ve_job request) Enqueued (ve_now request))
      | _ =>
          let disposition := match outcome with Conflict => AlreadyPresent | _ => Enqueued end in
          reconciled ← catch (reconcile_after_commit system request disposition);
          match reconciled with
          | Err JSE_UnknownCommit =>
              if bool_decide (outcome = Unknown)
                 && match ve_existing_match request with StableSeed => true | ExactRequest => false end
                 && (attempt =? 0)
              then resolve_attempts system request transaction (attempt + 1) remaining
              else fail JSE_UnknownCommit
          | result => try_ result
          end
      end
  end.

Definition resolve_enqueue_commit {E} (system : JobSystem) (request : ValidatedEnqueue)
    (transaction : StoreTransaction) : job E EnqueueResult :=
  resolve_attempts system request transaction 0
    match ve_existing_match request with StableSeed => 2 | ExactRequest => 1 end.

Definition enqueue_new {E} (system : JobSystem) (request : ValidatedEnqueue)
    (expected_dedupe : option bytes) (prior_fence : option PriorFenceAuthority) : job E EnqueueResult :=
  if is_some_and (λ prior, pf_fence_high_water prior =? U64_MAX) prior_fence then fail JSE_LeaseConflict
  else
    '(record, mutations) ←
      build_enqueue_state system (ve_job request) (ve_registration request) (ve_digest request)
        (ve_now request) prior_fence;
    let expected_operation := pf_encoded <$> prior_fence in
    transaction ←
      build_enqueue_transaction system (ve_job request) record mutations expected_dedupe
        expected_operation;
    resolve_enqueue_commit system request transaction.

(** ** Enqueue *)

Definition enqueue_missing_job {E} (system : JobSystem) (request : ValidatedEnqueue)
    (expected_dedupe : option bytes) (prior_fence : option PriorFenceAuthority) : job E EnqueueResult :=
  result ← match prior_fence with
           | Some prior => try_ (reconcile_completed_seed system request prior AlreadyPresent)
           | None => mret None
           end;
  match result with
  | Some result => mret result
  | None => enqueue_new system request expected_dedupe prior_fence
  end.

Definition enqueue_validated {E} (system : JobSystem) (request : ValidatedEnqueue) : job E EnqueueResult :=
  job_key ← try_ (job_key (sys_namespace system) (nj_job_id (ve_job request)));
  authority ← read_enqueue_authority system (ve_job request) job_key (ve_now request);
  match authority with
  | EA_Existing encoded => try_ (reconcile_record system request encoded AlreadyPresent)
  | EA_Deduplicated job_id =>
      mret (mkEnqueueResult job_id Deduplicated
              (WakeHint_from_timestamp (nj_scheduled_at (ve_job request)) (ve_now request)))
  | EA_Missing expected_dedupe prior_fence => enqueue_missing_job system request expected_dedupe prior_fence
  end.

Definition enqueue_with_match {E} (system : JobSystem) (job : NewJob) (now : Timestamp)
    (existing_match : ExistingJobMatch) : Prog.job E EnqueueResult :=
  registration ← try_ (ok_or JSE_UnregisteredHandler
    (HandlerRegistry_get_ref (sys_registry system) (nj_kind job) (nj_schema_version job)));
  _ ← try_ (NewJob_validate job);
  _ ← try_ (validate_fairness (nj_fairness job) (hr_fairness_policy registration));
  let digest := sys_sha256 system (nj_payload job) in
  enqueue_validated system (mkValidatedEnqueue job registration digest now existing_match).

Definition enqueue {E} (system : JobSystem) (job : NewJob) (now : Timestamp) : Prog.job E EnqueueResult :=
  enqueue_with_match system job now ExactRequest.

Definition ensure_seed {E} (system : JobSystem) (job : NewJob) (now : Timestamp)
    : Prog.job E EnqueueResult :=
  enqueue_with_match system job now StableSeed.
