(* ===== verification/Admin.v ===== *)
(** * Administration

    [crates/bg-jobs/src/admin]: the reads every control operation starts from
    ([repository.rs]), cancellation ([cancellation.rs]), suspension
    ([suspension.rs]), redrive of dead letters ([redrive.rs]), expiration of
    leases and jobs ([expiration.rs]) and repair of routing ([repair.rs]). *)

From S2P Require Import Prelude Errors Ids Clock Policy JobRecord KeyCodec ValueCodec JobCodec.
From S2P Require Import OperationCodec Keyspace Store Prog System Transition Permits Claim.

(** [map_err(|_| JobSystemError::PayloadCorrupt)]. *)
Definition corrupt {E A} (r : result StoreDataError A) : result (JobSystemError E) A :=
  map_err (λ _, JSE_PayloadCorrupt) r.

(** ** Repository *)

Definition load_job {E} (system : JobSystem) (job_id : JobId) : job E (StoreKey * bytes * JobRecordV1) :=
  job_key ← try_ (job_key (sys_namespace system) job_id);
  encoded ← store_get job_key;
  encoded ← try_ (ok_or JSE_NotFound encoded);
  record ← try_ (decode_job_record encoded);
  _ ← try_ (validate_persisted_identity system job_id record);
  mret (job_key, encoded, record).

Record JobOperation : Type := mkJobOperation {
  jo_job_key : StoreKey;
  jo_encoded : bytes;
  jo_record : JobRecordV1;
  jo_operation_key : StoreKey;
  jo_operation_value : option bytes;
}.

Definition active_operation {E} (authority : JobOperation) : result (JobSystemError E) (bytes * OperationId * Z) :=
  value ← ok_or JSE_PayloadCorrupt (jo_operation_value authority);
  '(operation, fence) ← corrupt (decode_active_operation value (jr_job_id (jo_record authority)));
  Ok (value, operation, fence).

Definition load_job_operation {E} (system : JobSystem) (job_id : JobId) : job E JobOperation :=
  job_key ← try_ (job_key (sys_namespace system) job_id);
  operation_key ← try_ (operation_key (sys_namespace system) job_id);
  values ← read_many system [job_key; operation_key];
  match values with
  | [encoded; operation_value] =>
      encoded ← try_ (ok_or JSE_NotFound encoded);
      record ← try_ (decode_job_record encoded);
      _ ← try_ (validate_persisted_identity system job_id record);
      mret (mkJobOperation job_key encoded record operation_key operation_value)
  | _ => fail JSE_PayloadCorrupt
  end.

Record LeaseMarkerValues : Type := mkLeaseMarkerValues {
  lv_lease_key : StoreKey;
  lv_lease_value : option bytes;
  lv_operation_key : StoreKey;
  lv_operation_value : option bytes;
}.

Record LeaseMarkers : Type := mkLeaseMarkers {
  lm_lease_key : StoreKey;
  lm_lease_value : bytes;
  lm_operation_key : StoreKey;
  lm_operation_value : bytes;
  lm_operation : OperationId;
  lm_fence_high_water : Z;
}.

Definition load_lease_marker_values {E} (system : JobSystem) (queue : QueueName) (job_id : JobId)
    : job E LeaseMarkerValues :=
  lease_key ← try_ (lease_key (sys_namespace system) queue job_id);
  operation_key ← try_ (operation_key (sys_namespace system) job_id);
  values ← read_many system [lease_key; operation_key];
  match values with
  | [lease_value; operation_value] =>
      mret (mkLeaseMarkerValues lease_key lease_value operation_key operation_value)
  | _ => fail JSE_PayloadCorrupt
  end.

Definition decode_lease_markers {E} (values : LeaseMarkerValues) (job_id : JobId)
    : result (JobSystemError E) LeaseMarkers :=
  lease_value ← ok_or JSE_LeaseLost (lv_lease_value values);
  operation_value ← ok_or JSE_LeaseLost (lv_operation_value values);
  _ ← corrupt (validate_job_marker lease_value VT_Lease job_id);
  '(operation, fence_high_water) ← corrupt (decode_active_operation operation_value job_id);
  Ok (mkLeaseMarkers (lv_lease_key values) lease_value (lv_operation_key values) operation_value
        operation fence_high_water).

Definition load_lease_markers {E} (system : JobSystem) (queue : QueueName) (job_id : JobId)
    : job E LeaseMarkers :=
  values ← load_lease_marker_values system queue job_id;
  try_ (decode_lease_markers values job_id).

Record ScheduledMarkers : Type := mkScheduledMarkers {
  sm_due_value : bytes;
  sm_fair_value : bytes;
  sm_operation_value : option bytes;
  sm_fence_high_water : Z;
}.

Definition decode_scheduled_markers {E} (due_value fair_value operation_value : option bytes)
    (record : JobRecordV1) : result (JobSystemError E) ScheduledMarkers :=
  due_value ← ok_or JSE_LeaseConflict due_value;
  timestamp ← data (decode_timestamp_value due_value VT_Due);
  if negb (timestamp =? jr_scheduled_at record) then Err JSE_LeaseConflict
  else
    fair_value ← ok_or JSE_LeaseConflict fair_value;
    _ ← corrupt (validate_job_marker fair_value VT_FairReady (jr_job_id record));
    fence_high_water ←
      match operation_value with
      | Some encoded => '(_, fence) ← corrupt (decode_active_operation encoded (jr_job_id record)); Ok fence
      | None => Ok 0
      end;
    Ok (mkScheduledMarkers due_value fair_value operation_value fence_high_water).

Definition load_scheduled_markers {E} (system : JobSystem) (record : JobRecordV1)
    : job E (StoreKey * StoreKey * ScheduledMarkers) :=
  let namespace := sys_namespace system in
  due_key ← try_ (due_key namespace (jr_queue record) (jr_scheduled_at record) (jr_job_id record));
  fair_key ← try_ (fair_key namespace (jr_queue record) (jr_job_id record));
  operation_key ← try_ (operation_key namespace (jr_job_id record));
  values ← read_many system [due_key; fair_key; operation_key];
  match values with
  | [due_value; fair_value; operation_value] =>
      markers ← try_ (decode_scheduled_markers due_value fair_value operation_value record);
      mret (due_key, fair_key, markers)
  | _ => fail JSE_PayloadCorrupt
  end.

(** ** Cancellation *)

Inductive CancellationResult : Type := CR_Requested | CR_Cancelled.

Definition request_job_cancellation {E} (system : JobSystem) (claim : ClaimedJob) (now : Timestamp)
    : job E CancellationResult :=
  _ ← try_ (ok_or JSE_LeaseLost (lease_at claim now));
  let job_id := jr_job_id (cj_record claim) in
  key ← try_ (cancellation_key (sys_namespace system) job_id);
  current ← store_get key;
  cancellation_check ←
    match current with
    | Some value =>
        _ ← try_ (corrupt (validate_empty_marker value VT_Cancellation));
        mret (Value key value)
    | None => mret (Absent key)
    end;
  checks ← try_ (authority_checks system claim);
  cancellation ← try_ cancellation_value;
  transaction ← checked_transaction system (checks ++ [cancellation_check]) [Put key cancellation];
  _ ← commit_marker system transaction key;
  _ ← ambient_ (ASignal job_id (cj_fence_high_water claim) true);
  mret CR_Requested.

Definition leased_cancel_transaction {E} (system : JobSystem) (job_key : StoreKey) (encoded : bytes)
    (queue : QueueName) (job_id : JobId) : job E (StoreTransaction * Z) :=
  cancellation_key ← try_ (cancellation_key (sys_namespace system) job_id);
  markers ← load_lease_markers system queue job_id;
  cancellation_value ← try_ cancellation_value;
  transaction ←
    checked_transaction system
      [Value job_key encoded; Value (lm_lease_key markers) (lm_lease_value markers);
       Value (lm_operation_key markers) (lm_operation_value markers)]
      [Put cancellation_key cancellation_value];
  mret (transaction, lm_fence_high_water markers).

Inductive ScheduledInactivation : Type := SI_Cancel | SI_Suspend.

Definition ScheduledInactivation_state (disposition : ScheduledInactivation) : JobState :=
  match disposition with SI_Cancel => Cancelled | SI_Suspend => Suspended end.

Definition cancel_scheduled_mutations (system : JobSystem) (record : JobRecordV1) (old_due : StoreKey)
    (new_encoded : bytes) (operation : OperationId) (fence_high_water : Z)
    : result StoreDataError (list Mutation) :=
  let namespace := sys_namespace system in
  job_key ← job_key namespace (jr_job_id record);
  fair_key ← fair_key namespace (jr_queue record) (jr_job_id record);
  operation_key ← operation_key namespace (jr_job_id record);
  operation_value ← operation_value (jr_job_id record) operation fence_high_water;
  Ok [Put job_key new_encoded; Delete old_due; Delete fair_key; Put operation_key operation_value].

Definition cancel_scheduled_transaction {E} (system : JobSystem) (record : JobRecordV1) (encoded : bytes)
    (disposition : ScheduledInactivation) : job E (StoreTransaction * bytes) :=
  let namespace := sys_namespace system in
  '(old_due, fair_key, markers) ← load_scheduled_markers system record;
  let record := set_state record (ScheduledInactivation_state disposition) in
  revision ← try_ (next_revision record);
  let record := set_revision record revision in
  operation ← fresh_operation;
  new_encoded ← try_ (encode_job_record record);
  mutations ← try_ (cancel_scheduled_mutations system record old_due new_encoded operation
                      (sm_fence_high_water markers));
  '(mutations, wake_check) ← wake_mutation system (jr_queue record) (Some old_due) None mutations;
  job_key ← try_ (job_key namespace (jr_job_id record));
  operation_key ← try_ (operation_key namespace (jr_job_id record));
  cancellation_key ← try_ (cancellation_key namespace (jr_job_id record));
  let checks :=
    [Value job_key encoded; Value old_due (sm_due_value markers); Value fair_key (sm_fair_value markers);
     match sm_operation_value markers with
     | Some value => Value operation_key value
     | None => Absent operation_key
     end;
     Absent cancellation_key] ++ option_list wake_check in
  transaction ← checked_transaction system checks mutations;
  mret (transaction, new_encoded).

Definition inactivate_scheduled {E} (system : JobSystem) (record : JobRecordV1) (encoded : bytes)
    (disposition : ScheduledInactivation) : job E unit :=
  '(transaction, new_encoded) ← cancel_scheduled_transaction system record encoded disposition;
  commit_record_without_claim system transaction (jr_job_id record) encoded new_encoded.

Definition cancel_suspended {E} (system : JobSystem) (job_id : JobId) : job E CancellationResult :=
  authority ← load_job_operation system job_id;
  _ ← match jr_state (jo_record authority) with
      | Suspended => mret tt
      | Scheduled | Leased _ | DeadLettered | Cancelled => fail JSE_LeaseConflict
      end;
  '(old_marker, _, fence) ← try_ (active_operation authority);
  let record := set_state (jo_record authority) Cancelled in
  revision ← try_ (next_revision record);
  let record := set_revision record revision in
  next ← try_ (encode_job_record record);
  operation ← fresh_operation;
  marker ← try_ (operation_value job_id operation fence);
  transaction ←
    checked_transaction system
      [Value (jo_job_key authority) (jo_encoded authority); Value (jo_operation_key authority) old_marker]
      [Put (jo_job_key authority) next; Put (jo_operation_key authority) marker];
  _ ← commit_record_without_claim system transaction job_id (jo_encoded authority) next;
  mret CR_Cancelled.

Definition cancel_job {E} (system : JobSystem) (job_id : JobId) (now : Timestamp) : job E CancellationResult :=
  '(job_key, encoded, record) ← load_job system job_id;
  match jr_state record with
  | Leased lease =>
      if now <? ls_expires_at lease then
        '(transaction, fence_high_water) ←
          leased_cancel_transaction system job_key encoded (jr_queue record) job_id;
        cancellation_key ← try_ (cancellation_key (sys_namespace system) job_id);
        _ ← commit_marker system transaction cancellation_key;
        _ ← ambient_ (ASignal job_id fence_high_water false);
        mret CR_Requested
      else fail JSE_LeaseLost
  | Scheduled =>
      _ ← inactivate_scheduled system record encoded SI_Cancel;
      mret CR_Cancelled
  | Suspended => cancel_suspended system job_id
  | DeadLettered | Cancelled => mret CR_Cancelled
  end.

(** ** Suspension *)

Definition suspend_job {E} (system : JobSystem) (job_id : JobId) : job E unit :=
  '(_, encoded, record) ← load_job system job_id;
  match jr_state record with
  | Scheduled => inactivate_scheduled system record encoded SI_Suspend
  | Suspended => mret tt
  | Leased _ | DeadLettered | Cancelled => fail JSE_LeaseConflict
  end.

(** [resume_transaction] with [resume_mutations] and [resume_checks]; the
    authority's record is already rescheduled. *)
Definition resume_transaction {E} (system : JobSystem) (authority : JobOperation) (encoded : bytes)
    : job E StoreTransaction :=
  let namespace := sys_namespace system in
  let record := jo_record authority in
  due ← try_ (due_key namespace (jr_queue record) (jr_scheduled_at record) (jr_job_id record));
  fair ← try_ (fair_key namespace (jr_queue record) (jr_job_id record));
  '(_, _, fence_high_water) ← try_ (active_operation authority);
  operation ← fresh_operation;
  due_value ← try_ (due_value (jr_scheduled_at record));
  fair_value ← try_ (fair_value (jr_job_id record));
  operation_value ← try_ (operation_value (jr_job_id record) operation fence_high_water);
  let mutations :=
    [Put (jo_job_key authority) encoded; Put due due_value; Put fair fair_value;
     Put (jo_operation_key authority) operation_value] in
  cancellation_key ← try_ (cancellation_key namespace (jr_job_id record));
  let checks :=
    [Value (jo_job_key authority) (jo_encoded authority); Absent due; Absent fair; Absent cancellation_key;
     match jo_operation_value authority with
     | Some value => Value (jo_operation_key authority) value
     | None => Absent (jo_operation_key authority)
     end] in
  '(mutations, wake_check) ← wake_mutation system (jr_queue record) None (Some due) mutations;
  checked_transaction system (checks ++ option_list wake_check) mutations.

Definition resume_job {E} (system : JobSystem) (job_id : JobId) : job E unit :=
  authority ← load_job_operation system job_id;
  match jr_state (jo_record authority) with
  | Suspended =>
      let record := set_state (jo_record authority) Scheduled in
      revision ← try_ (next_revision record);
      let record := set_revision record revision in
      encoded ← try_ (encode_job_record record);
      transaction ←
        resume_transaction system
          (mkJobOperation (jo_job_key authority) (jo_encoded authority) record
             (jo_operation_key authority) (jo_operation_value authority)) encoded;
      commit_record_without_claim system transaction job_id (jo_encoded authority) encoded
  | Scheduled => mret tt
  | Leased _ | DeadLettered | Cancelled => fail JSE_LeaseConflict
  end.

(** ** Redrive *)

Inductive RedriveExecution : Type := ReuseExecutionId | NewExecutionId.

Record RedriveRequest : Type := mkRedriveRequest {
  rd_expected_revision : Z;
  rd_expected_operation : OperationId;
  rd_execution : RedriveExecution;
  rd_scheduled_at : Timestamp;
}.

Record RedriveResult : Type := mkRedriveResult {
  rr_job_id : JobId;
  rr_generation : Z;
  rr_execution_id : ExecutionId;
  rr_reused_execution : bool;
}.

Definition prepare_redrive {E} (record : JobRecordV1) (request : RedriveRequest) : job E JobRecordV1 :=
  revision ← try_ (next_revision record);
  execution_id ← match rd_execution request with
                 | ReuseExecutionId => mret (jr_execution_id record)
                 | NewExecutionId => generate
                 end;
  generation ← try_ (ok_or JSE_LeaseConflict (checked_add_u32 (jr_generation record) 1));
  expires_at ←
    match jr_expires_at record with
    | Some _ =>
        expiry ← try_ (Timestamp_checked_add (rd_scheduled_at request)
                         (rp_maximum_age (ps_retry_policy (jr_policy record))));
        mret (Some expiry)
    | None => mret None
    end;
  let record := set_execution_id (set_generation record generation) execution_id in
  let record := set_checkpoint (set_attempts record None) None in
  let record := set_expires_at (set_scheduled_at record (rd_scheduled_at request)) expires_at in
  mret (set_revision (set_state record Scheduled) revision).

Definition redrive_mutations (system : JobSystem) (next : JobRecordV1) (new_encoded : bytes)
    (operation : OperationId) (fence_high_water : Z) : result StoreDataError (list Mutation) :=
  let namespace := sys_namespace system in
  let job_id := jr_job_id next in
  job_key ← job_key namespace job_id;
  operation_key ← operation_key namespace job_id;
  due_key ← due_key namespace (jr_queue next) (jr_scheduled_at next) job_id;
  dlq_key ← dead_letter_key namespace (jr_queue next) job_id;
  due_value ← due_value (jr_scheduled_at next);
  fair_key ← fair_key namespace (jr_queue next) job_id;
  fair_value ← fair_value job_id;
  operation_value ← operation_value job_id operation fence_high_water;
  Ok [Put job_key new_encoded; Delete dlq_key; Put due_key due_value; Put fair_key fair_value;
      Put operation_key operation_value].

Definition redrive_checks (job_key : StoreKey) (encoded : bytes) (operation_key dlq_key : StoreKey)
    (operation : OperationId) (job_id : JobId) (fence_high_water : Z) : result StoreDataError (list Check) :=
  operation_value ← operation_value job_id operation fence_high_water;
  dead_letter_value ← dead_letter_value job_id;
  Ok [Value job_key encoded; Value operation_key operation_value; Value dlq_key dead_letter_value].

Definition redrive_transaction {E} (system : JobSystem) (encoded : bytes) (next : JobRecordV1)
    (request : RedriveRequest) (fence_high_water : Z) : job E (StoreTransaction * bytes) :=
  let namespace := sys_namespace system in
  let job_id := jr_job_id next in
  job_key ← try_ (job_key namespace job_id);
  operation_key ← try_ (operation_key namespace job_id);
  new_operation ← fresh_operation;
  new_encoded ← try_ (encode_job_record next);
  due_key ← try_ (due_key namespace (jr_queue next) (jr_scheduled_at next) job_id);
  dlq_key ← try_ (dead_letter_key namespace (jr_queue next) job_id);
  mutations ← try_ (redrive_mutations system next new_encoded new_operation fence_high_water);
  '(mutations, wake_check) ← wake_mutation system (jr_queue next) None (Some due_key) mutations;
  checks ← try_ (redrive_checks job_key encoded operation_key dlq_key (rd_expected_operation request)
                   job_id fence_high_water);
  transaction ← checked_transaction system (checks ++ option_list wake_check) mutations;
  mret (transaction, new_encoded).

Definition redrive_job {E} (system : JobSystem) (job_id : JobId) (request : RedriveRequest)
    : job E RedriveResult :=
  authority ← load_job_operation system job_id;
  _ ← match jr_state (jo_record authority) with
      | DeadLettered =>
          if jr_revision (jo_record authority) =? rd_expected_revision request then mret tt
          else fail JSE_LeaseConflict
      | Scheduled | Leased _ | Cancelled | Suspended => fail JSE_LeaseConflict
      end;
  '(_, operation, fence_high_water) ← try_ (active_operation authority);
  if negb (bytes_eqb operation (rd_expected_operation request)) then fail JSE_LeaseLost
  else if negb (HandlerRegistry_contains (sys_registry system) (jr_kind (jo_record authority))
                  (jr_schema_version (jo_record authority)))
  then fail JSE_UnregisteredHandler
  else
    next ← prepare_redrive (jo_record authority) request;
    '(transaction, new_encoded) ←
      redrive_transaction system (jo_encoded authority) next request fence_high_water;
    _ ← commit_record_without_claim system transaction (jr_job_id next) (jo_encoded authority) new_encoded;
    mret (mkRedriveResult (jr_job_id next) (jr_generation next) (jr_execution_id next)
            match rd_execution request with ReuseExecutionId => true | NewExecutionId => false end).

(** ** Repair *)

Definition validate_repair_authority {E} (authority : JobOperation) (job_id : JobId)
    (expected_revision : Z) (expected_operation : OperationId) : result (JobSystemError E) bytes :=
  operation_value ← ok_or JSE_LeaseLost (jo_operation_value authority);
  '(operation, _) ← corrupt (decode_active_operation operation_value job_id);
  if negb (bytes_eqb operation expected_operation) then Err JSE_LeaseLost
  else if negb (jr_revision (jo_record authority) =? expected_revision) then Err JSE_LeaseConflict
  else
    match jr_state (jo_record authority) with
    | Scheduled => Ok operation_value
    | Leased _ | DeadLettered | Cancelled | Suspended => Err JSE_LeaseConflict
    end.

Definition build_repair_transaction {E} (system : JobSystem) (authority : JobOperation)
    (operation_value : bytes) (record : JobRecordV1) (new_encoded : bytes) : job E StoreTransaction :=
  let namespace := sys_namespace system in
  due_key ← try_ (due_key namespace (jr_queue record) (jr_scheduled_at record) (jr_job_id record));
  due_value ← try_ (due_value (jr_scheduled_at record));
  fair_key ← try_ (fair_key namespace (jr_queue record) (jr_job_id record));
  fair_value ← try_ (fair_value (jr_job_id record));
  let mutations :=
    [Put (jo_job_key authority) new_encoded; Put due_key due_value; Put fair_key fair_value] in
  let checks :=
    [Value (jo_job_key authority) (jo_encoded authority);
     Value (jo_operation_key authority) operation_value] in
  '(mutations, wake_check) ← wake_mutation system (jr_queue record) None (Some due_key) mutations;
  checked_transaction system (checks ++ option_list wake_check) mutations.

Definition repair_job {E} (system : JobSystem) (job_id : JobId) (expected_revision : Z)
    (expected_operation : OperationId) : job E unit :=
  authority ← load_job_operation system job_id;
  operation_value ← try_ (validate_repair_authority authority job_id expected_revision expected_operation);
  revision ← try_ (next_revision (jo_record authority));
  let record := set_revision (jo_record authority) revision in
  new_encoded ← try_ (encode_job_record record);
  transaction ← build_repair_transaction system authority operation_value record new_encoded;
  commit_record_without_claim system transaction job_id (jo_encoded authority) new_encoded.

(** ** Expiration *)

Inductive ExpiryResult : Type := ER_Cancelled | ER_DeadLettered | ER_LeaseExpired | ER_Unchanged.

Inductive LeaseRecovery : Type :=
  | LR_Retry (due_key : StoreKey)
  | LR_Cancelled (marker : bytes)
  | LR_DeadLettered (key : StoreKey) (code : OutcomeCode).

Definition is_expired (record : JobRecordV1) (now : Timestamp) : bool :=
  is_some_and (λ expiry, expiry <=? now) (jr_expires_at record) || (jr_retention_deadline record <=? now).

Definition exhaustion_code (record : JobRecordV1) (now : Timestamp) : option string :=
  if is_expired record now then Some "expired"%string
  else if JobRecordV1_has_exhausted_attempts record then Some "attempts_exhausted"%string
  else None.

Definition LeaseRecovery_load {E} (system : JobSystem) (record : JobRecordV1) (now : Timestamp)
    : job E LeaseRecovery :=
  let namespace := sys_namespace system in
  cancellation_key ← try_ (cancellation_key namespace (jr_job_id record));
  cancellation ← store_get cancellation_key;
  match cancellation with
  | Some marker =>
      _ ← try_ (corrupt (validate_empty_marker marker VT_Cancellation));
      mret (LR_Cancelled marker)
  | None =>
      match exhaustion_code record now with
      | Some code =>
          key ← try_ (dead_letter_key namespace (jr_queue record) (jr_job_id record));
          code ← try_ (Transition.code code);
          mret (LR_DeadLettered key code)
      | None =>
          key ← try_ (due_key namespace (jr_queue record) now (jr_job_id record));
          mret (LR_Retry key)
      end
  end.

Definition LeaseRecovery_prepare_record (recovery : LeaseRecovery) (record : JobRecordV1) (now : Timestamp)
    : JobRecordV1 :=
  match recovery with
  | LR_Retry _ => set_scheduled_at (set_state record Scheduled) now
  | LR_Cancelled _ => set_state record Cancelled
  | LR_DeadLettered _ code => record_outcome (set_state record DeadLettered) now code
  end.

Definition LeaseRecovery_mutations (recovery : LeaseRecovery) (record : JobRecordV1)
    (fair_key cancellation_key : StoreKey) : result StoreDataError (list Mutation) :=
  match recovery with
  | LR_Retry due_key =>
      due_value ← due_value (jr_scheduled_at record);
      fair_value ← fair_value (jr_job_id record);
      Ok [Put due_key due_value; Put fair_key fair_value]
  | LR_Cancelled _ => Ok [Delete fair_key; Delete cancellation_key]
  | LR_DeadLettered key _ =>
      dead_letter_value ← dead_letter_value (jr_job_id record);
      Ok [Delete fair_key; Put key dead_letter_value]
  end.

Definition LeaseRecovery_cancellation_check (recovery : LeaseRecovery) (key : StoreKey) : Check :=
  match recovery with
  | LR_Cancelled marker => Value key marker
  | LR_Retry _ | LR_DeadLettered _ _ => Absent key
  end.

Definition LeaseRecovery_next_due (recovery : LeaseRecovery) : option StoreKey :=
  match recovery with LR_Retry key => Some key | LR_Cancelled _ | LR_DeadLettered _ _ => None end.

Definition LeaseRecovery_result (recovery : LeaseRecovery) : ExpiryResult :=
  match recovery with
  | LR_Retry _ => ER_LeaseExpired
  | LR_Cancelled _ => ER_Cancelled
  | LR_DeadLettered _ _ => ER_DeadLettered
  end.

Record LeaseExpiration : Type := mkLeaseExpiration {
  le_job_key : StoreKey;
  le_old_encoded : bytes;
  le_record : JobRecordV1;
  le_new_encoded : bytes;
  le_markers : LeaseMarkers;
  le_new_operation : OperationId;
  le_permit_keys : list StoreKey;
  le_permit_value : bytes;
  le_fair_key : StoreKey;
  le_cancellation_key : StoreKey;
  le_recovery : LeaseRecovery;
}.

Definition LeaseExpiration_load {E} (system : JobSystem) (old_encoded : bytes) (record : JobRecordV1)
    (now : Timestamp) : job E LeaseExpiration :=
  let namespace := sys_namespace system in
  recovery ← LeaseRecovery_load system record now;
  permit_keys ← find_owned_permit_keys system record;
  permit_value ← try_ (permit_value_for_record record);
  markers ← load_lease_markers system (jr_queue record) (jr_job_id record);
  let record := LeaseRecovery_prepare_record recovery record now in
  revision ← try_ (next_revision record);
  let record := set_revision record revision in
  job_key ← try_ (job_key namespace (jr_job_id record));
  new_encoded ← try_ (encode_job_record record);
  fair_key ← try_ (fair_key namespace (jr_queue record) (jr_job_id record));
  cancellation_key ← try_ (cancellation_key namespace (jr_job_id record));
  new_operation ← fresh_operation;
  mret (mkLeaseExpiration job_key old_encoded record new_encoded markers new_operation permit_keys
          permit_value fair_key cancellation_key recovery).

Definition LeaseExpiration_mutations (expiration : LeaseExpiration) : result StoreDataError (list Mutation) :=
  let markers := le_markers expiration in
  operation_value ← operation_value (jr_job_id (le_record expiration)) (le_new_operation expiration)
                      (lm_fence_high_water markers);
  recovery ← LeaseRecovery_mutations (le_recovery expiration) (le_record expiration)
               (le_fair_key expiration) (le_cancellation_key expiration);
  Ok ([Put (le_job_key expiration) (le_new_encoded expiration); Delete (lm_lease_key markers);
       Put (lm_operation_key markers) operation_value]
      ++ recovery ++ (Delete <$> le_permit_keys expiration)).

Definition LeaseExpiration_checks (expiration : LeaseExpiration) : list Check :=
  let markers := le_markers expiration in
  [Value (le_job_key expiration) (le_old_encoded expiration);
   Value (lm_lease_key markers) (lm_lease_value markers);
   Value (lm_operation_key markers) (lm_operation_value markers);
   LeaseRecovery_cancellation_check (le_recovery expiration) (le_cancellation_key expiration)]
  ++ ((λ key, Value key (le_permit_value expiration)) <$> le_permit_keys expiration).

Definition LeaseExpiration_commit {E} (system : JobSystem) (expiration : LeaseExpiration)
    : job E ExpiryResult :=
  mutations ← try_ (LeaseExpiration_mutations expiration);
  '(mutations, wake_check) ←
    wake_mutation system (jr_queue (le_record expiration)) None
      (LeaseRecovery_next_due (le_recovery expiration)) mutations;
  transaction ←
    checked_transaction system (LeaseExpiration_checks expiration ++ option_list wake_check) mutations;
  _ ← commit_record_without_claim system transaction (jr_job_id (le_record expiration))
        (le_old_encoded expiration) (le_new_encoded expiration);
  mret (LeaseRecovery_result (le_recovery expiration)).

Definition prepare_expired {E} (record : JobRecordV1) (now : Timestamp)
    : job E (JobRecordV1 * bytes * OperationId) :=
  let record := set_state record DeadLettered in
  revision ← try_ (next_revision record);
  let record := set_revision record revision in
  outcome ← try_ (code "expired");
  let record := record_outcome record now outcome in
  operation ← fresh_operation;
  new_encoded ← try_ (encode_job_record record);
  mret (record, new_encoded, operation).

Definition expired_transaction {E} (system : JobSystem) (encoded : bytes) (record : JobRecordV1)
    (now : Timestamp) : job E (StoreTransaction * bytes) :=
  let namespace := sys_namespace system in
  '(due_key, fair_key, markers) ← load_scheduled_markers system record;
  let job_id := jr_job_id record in
  job_key ← try_ (job_key namespace job_id);
  '(record, new_encoded, operation) ← prepare_expired record now;
  dlq_key ← try_ (dead_letter_key namespace (jr_queue record) job_id);
  dead_letter_value ← try_ (dead_letter_value job_id);
  operation_key ← try_ (operation_key namespace job_id);
  operation_value ← try_ (operation_value job_id operation (sm_fence_high_water markers));
  let mutations :=
    [Put job_key new_encoded; Delete due_key; Delete fair_key; Put dlq_key dead_letter_value;
     Put operation_key operation_value] in
  '(mutations, wake_check) ← wake_mutation system (jr_queue record) (Some due_key) None mutations;
  cancellation_key ← try_ (cancellation_key namespace job_id);
  let checks :=
    [Value job_key encoded; Value due_key (sm_due_value markers); Value fair_key (sm_fair_value markers);
     Absent cancellation_key;
     match sm_operation_value markers with
     | Some value => Value operation_key value
     | None => Absent operation_key
     end] ++ option_list wake_check in
  transaction ← checked_transaction system checks mutations;
  mret (transaction, new_encoded).

Definition expire_scheduled {E} (system : JobSystem) (encoded : bytes) (record : JobRecordV1)
    (now : Timestamp) : job E ExpiryResult :=
  '(transaction, new_encoded) ← expired_transaction system encoded record now;
  _ ← commit_record_without_claim system transaction (jr_job_id record) encoded new_encoded;
  _ ← try_ (code "expired");
  mret ER_DeadLettered.

Definition expire_job {E} (system : JobSystem) (job_id : JobId) (now : Timestamp) : job E ExpiryResult :=
  '(_, encoded, record) ← load_job system job_id;
  match jr_state record with
  | Leased lease =>
      if ls_expires_at lease <=? now then
        expiration ← LeaseExpiration_load system encoded record now;
        LeaseExpiration_commit system expiration
      else mret ER_Unchanged
  | Scheduled =>
      if is_expired record now then expire_scheduled system encoded record now else mret ER_Unchanged
  | DeadLettered | Cancelled | Suspended => mret ER_Unchanged
  end.
