(* ===== verification/Failure.v ===== *)
(** * Handler outcomes

    [crates/bg-jobs/src/failure]: the dispatch of an outcome
    ([operation.rs]), continuation and retry with their schedules
    ([retry.rs]), lease renewal and checkpoints ([lease.rs]), dead letters,
    acknowledged cancellation and the quarantine of corrupt payloads
    ([terminal.rs]).

    A claim passed by value is dropped when its call returns, so what the code
    does to it last ([lose_authority] before an error) is not kept.  [renew]
    and [checkpoint] borrow the claim and return what they leave of it. *)

From S2P Require Import Prelude Errors Ids Clock Policy JobRecord KeyCodec ValueCodec JobCodec.
From S2P Require Import OperationCodec Keyspace Store Prog System Transition Permits Claim Completion Admin.

Inductive OutcomeResult : Type :=
  | OR_Completed (details : CompletionDetails)
  | OR_Continued (not_before : Timestamp)
  | OR_Retried (class : RetryClass) (not_before : Timestamp)
  | OR_DeadLettered (code : OutcomeCode)
  | OR_Cancelled.

Inductive RenewalResult : Type :=
  | RR_Renewed (expires_at : Timestamp)
  | RR_Coalesced (expires_at : Timestamp).

(** [CheckpointResult]: the bytes written. *)
Record CheckpointResult : Type := mkCheckpointResult { ck_bytes : Z }.

(** ** Dead letters *)

Definition dead_letter_claim {E} (system : JobSystem) (claim : ClaimedJob) (code : OutcomeCode)
    (now : Timestamp) : job E OutcomeResult :=
  _ ← try_ (current_lease claim now);
  let record := set_state (record_outcome (cj_record claim) now code) DeadLettered in
  revision ← try_ (next_revision record);
  let claim := set_record claim (set_revision record revision) in
  operation_id ← fresh_operation;
  new_encoded ← try_ (encode_job_record (cj_record claim));
  dlq_key ← try_ (dead_letter_key (sys_namespace system) (jr_queue (cj_record claim))
                    (jr_job_id (cj_record claim)));
  transaction ←
    terminal_transaction system claim (cj_record claim) new_encoded operation_id (TT_DeadLetter dlq_key);
  _ ← commit_record system transaction claim new_encoded;
  mret (OR_DeadLettered code).

(** ** Continuation and retry *)

Inductive ExhaustionReason : Type := Age | Attempts.

Definition ExhaustionReason_outcome_code (reason : ExhaustionReason) : result ValidationError OutcomeCode :=
  code match reason with Age => "age_exhausted" | Attempts => "attempts_exhausted" end.

Definition exhaustion_reason (claim : ClaimedJob) (now : Timestamp) : option ExhaustionReason :=
  let record := cj_record claim in
  attempts ← jr_attempts record;
  let policy := ps_retry_policy (jr_policy record) in
  if (jr_retention_deadline record <=? now)
     || match Timestamp_duration_since now (ah_first_attempt_at attempts) with
        | Ok age => rp_maximum_age policy <=? age
        | Err _ => false
        end
  then Some Age
  else if JobRecordV1_has_exhausted_attempts record then Some Attempts
  else None.

Definition validate_continuation_schedule {E} (record : JobRecordV1) (not_before : Timestamp)
    : result (JobSystemError E) unit :=
  attempts ← ok_or JSE_LeaseLost (jr_attempts record);
  if not_before <? ah_last_attempt_at attempts
  then Err (JSE_Validation (VE_Ordering "continuation schedule")) else Ok tt.

Definition commit_scheduled_transition {E} (system : JobSystem) (claim : ClaimedJob) : job E unit :=
  revision ← try_ (next_revision (cj_record claim));
  let claim := set_record claim (set_revision (cj_record claim) revision) in
  let record := cj_record claim in
  operation_id ← fresh_operation;
  new_encoded ← try_ (encode_job_record record);
  due_key ← try_ (due_key (sys_namespace system) (jr_queue record) (jr_scheduled_at record)
                    (jr_job_id record));
  transaction ← scheduled_transaction system claim record new_encoded operation_id due_key;
  commit_record system transaction claim new_encoded.

Definition continue_claim {E} (system : JobSystem) (claim : ClaimedJob) (not_before : Timestamp)
    (checkpoint : bytes) (now : Timestamp) : job E OutcomeResult :=
  let record := cj_record claim in
  _ ← try_ (validate_continuation_schedule record not_before);
  if is_some_and (λ expiry, expiry <=? Z.max not_before now) (jr_expires_at record) then
    code ← try_ (ExhaustionReason_outcome_code Age);
    dead_letter_claim system claim code now
  else
    _ ← try_ (current_lease claim now);
    let not_before := Z.max not_before (jr_scheduled_at record) in
    retention_deadline ←
      match jr_expires_at record with
      | Some _ => mret (jr_retention_deadline record)
      | None => try_ (Timestamp_checked_add (Z.max not_before now)
                        (rp_maximum_age (ps_retry_policy (jr_policy record))))
      end;
    let record := set_scheduled_at (set_state record Scheduled) not_before in
    let record := set_attempts (set_checkpoint record (Some checkpoint)) None in
    let record := set_retention_deadline record retention_deadline in
    _ ← commit_scheduled_transition system (set_record claim record);
    mret (OR_Continued not_before).

Definition prepare_retry_record (claim : ClaimedJob) (now not_before : Timestamp) (outcome_code : OutcomeCode)
    : ClaimedJob :=
  let record := record_outcome (cj_record claim) now outcome_code in
  set_record claim (set_scheduled_at (set_state record Scheduled) not_before).

Definition retry_timing {E} (system : JobSystem) (claim : ClaimedJob) (hint : option Timestamp)
    (now : Timestamp) : result (JobSystemError E) (Z * Timestamp) :=
  let record := cj_record claim in
  attempts ← ok_or JSE_LeaseLost (jr_attempts record);
  let attempt := Z.max (default U16_MAX (checked 0 U16_MAX (ah_attempts attempts))) 1 in
  let cap := RetryPolicy_backoff_cap (ps_retry_policy (jr_policy record)) attempt in
  let jitter := jitter_duration (sys_sha256 system) (jr_execution_id record) attempt now cap in
  jittered ← map_err JSE_Validation (Timestamp_checked_add now jitter);
  let not_before := Z.max jittered (jr_scheduled_at record) in
  match hint with
  | Some hint =>
      if now <? hint then
        capped ← map_err JSE_Validation (Timestamp_checked_add now cap);
        Ok (attempt, Z.max (Z.min hint capped) not_before)
      else Ok (attempt, not_before)
  | None => Ok (attempt, not_before)
  end.

Definition retry_claim {E} (system : JobSystem) (claim : ClaimedJob) (class : RetryClass)
    (hint : option Timestamp) (outcome_code : OutcomeCode) (now : Timestamp) : job E OutcomeResult :=
  _ ← try_ (ok_or JSE_LeaseLost (jr_attempts (cj_record claim)));
  match exhaustion_reason claim now with
  | Some reason =>
      code ← try_ (ExhaustionReason_outcome_code reason);
      dead_letter_claim system claim code now
  | None =>
      '(_, not_before) ← try_ (retry_timing system claim hint now);
      if is_some_and (λ expiry, expiry <=? not_before) (jr_expires_at (cj_record claim)) then
        exhausted ← try_ (code "age_exhausted");
        dead_letter_claim system claim exhausted now
      else
        _ ← commit_scheduled_transition system (prepare_retry_record claim now not_before outcome_code);
        mret (OR_Retried class not_before)
  end.

(** ** Cancellation by its worker *)

Definition has_cancellation_request {E} (system : JobSystem) (job_id : JobId) : job E bool :=
  key ← try_ (cancellation_key (sys_namespace system) job_id);
  value ← store_get key;
  match value with
  | None => mret false
  | Some value =>
      _ ← try_ (corrupt (validate_empty_marker value VT_Cancellation));
      mret true
  end.

Definition cancel_claim_commit {E} (system : JobSystem) (claim : ClaimedJob) (now : Timestamp)
    : job E OutcomeResult :=
  _ ← try_ (ok_or JSE_LeaseLost (lease_at claim now));
  cancellation_requested ← has_cancellation_request system (jr_job_id (cj_record claim));
  shutdown ← ambient_ AShutdown;
  if (shutdown : bool) && negb cancellation_requested then
    continue_claim system claim now (default [] (jr_checkpoint (cj_record claim))) now
  else
    _ ← (if cancellation_requested : bool then mret tt
         else _ ← try_ (current_lease claim now); mret tt);
    let record := set_state (cj_record claim) Cancelled in
    revision ← try_ (next_revision record);
    let claim := set_record claim (set_revision record revision) in
    operation_id ← fresh_operation;
    new_encoded ← try_ (encode_job_record (cj_record claim));
    transaction ←
      terminal_transaction system claim (cj_record claim) new_encoded operation_id
        (if cancellation_requested then TT_CancellationAcknowledgement else TT_WorkerCancellation);
    _ ← commit_record system transaction claim new_encoded;
    mret OR_Cancelled.

Definition cancel_claim {E} (system : JobSystem) (claim : ClaimedJob) (now : Timestamp)
    : job E CancellationResult :=
  _ ← try_ (ok_or JSE_LeaseLost (lease_at claim now));
  cancellation_key ← try_ (cancellation_key (sys_namespace system) (jr_job_id (cj_record claim)));
  cancellation ← store_get cancellation_key;
  cancellation ← try_ (ok_or JSE_LeaseConflict cancellation);
  _ ← try_ (corrupt (validate_empty_marker cancellation VT_Cancellation));
  let record := set_state (cj_record claim) Cancelled in
  revision ← try_ (next_revision record);
  let claim := set_record claim (set_revision record revision) in
  operation_id ← fresh_operation;
  new_encoded ← try_ (encode_job_record (cj_record claim));
  transaction ←
    terminal_transaction system claim (cj_record claim) new_encoded operation_id
      TT_CancellationAcknowledgement;
  _ ← commit_record system transaction claim new_encoded;
  mret CR_Cancelled.

(** ** Corrupt payloads *)

Record PayloadAuthority : Type := mkPayloadAuthority {
  pa_job_key : StoreKey;
  pa_encoded : bytes;
  pa_record : JobRecordV1;
  pa_markers : LeaseMarkers;
  pa_permit_keys : list StoreKey;
  pa_permit_value : bytes;
}.

Definition load_payload_authority {E} (system : JobSystem) (job_id : JobId) : job E PayloadAuthority :=
  '(job_key, encoded, record) ← load_job system job_id;
  marker_values ← load_lease_marker_values system (jr_queue record) job_id;
  match jr_state record with
  | Leased _ =>
      permit_value ← try_ (permit_value_for_record record);
      permit_keys ← find_owned_permit_keys system record;
      markers ← try_ (decode_lease_markers marker_values job_id);
      mret (mkPayloadAuthority job_key encoded record markers permit_keys permit_value)
  | _ => fail JSE_LeaseLost
  end.

Definition payload_corrupt_checks (authority : PayloadAuthority) : result StoreDataError (list Check) :=
  let markers := pa_markers authority in
  operation_value ← operation_value (jr_job_id (pa_record authority)) (lm_operation markers)
                      (lm_fence_high_water markers);
  Ok ([Value (pa_job_key authority) (pa_encoded authority);
       Value (lm_lease_key markers) (lm_lease_value markers);
       Value (lm_operation_key markers) operation_value]
      ++ ((λ key, Value key (pa_permit_value authority)) <$> pa_permit_keys authority)).

Definition payload_corrupt_transaction {E} (system : JobSystem) (authority : PayloadAuthority)
    (record : JobRecordV1) (encoded : bytes) (operation : OperationId) (dlq_key : StoreKey)
    : job E StoreTransaction :=
  let namespace := sys_namespace system in
  let markers := pa_markers authority in
  fair_key ← try_ (fair_key namespace (jr_queue record) (jr_job_id record));
  cancellation_key ← try_ (cancellation_key namespace (jr_job_id record));
  dead_letter_value ← try_ (dead_letter_value (jr_job_id record));
  operation_value ← try_ (operation_value (jr_job_id record) operation (lm_fence_high_water markers));
  let mutations :=
    [Put (pa_job_key authority) encoded; Delete (lm_lease_key markers); Delete fair_key;
     Delete cancellation_key; Put dlq_key dead_letter_value;
     Put (lm_operation_key markers) operation_value]
    ++ (Delete <$> pa_permit_keys authority) in
  '(mutations, wake_check) ← wake_mutation system (jr_queue record) None None mutations;
  checks ← try_ (payload_corrupt_checks authority);
  checked_transaction system (checks ++ option_list wake_check) mutations.

Definition dead_letter_by_id {E} (system : JobSystem) (job_id : JobId) (now : Timestamp) : job E unit :=
  authority ← load_payload_authority system job_id;
  outcome ← try_ (code "payload_corrupt");
  let record := set_state (record_outcome (pa_record authority) now outcome) DeadLettered in
  revision ← try_ (next_revision record);
  let record := set_revision record revision in
  let authority :=
    mkPayloadAuthority (pa_job_key authority) (pa_encoded authority) record (pa_markers authority)
      (pa_permit_keys authority) (pa_permit_value authority) in
  new_operation ← fresh_operation;
  new_encoded ← try_ (encode_job_record record);
  dlq_key ← try_ (dead_letter_key (sys_namespace system) (jr_queue record) job_id);
  transaction ← payload_corrupt_transaction system authority record new_encoded new_operation dlq_key;
  commit_record_without_claim system transaction job_id (pa_encoded authority) new_encoded.

(** ** Renewal and checkpoints *)

Definition HEARTBEAT_MIN_INTERVAL : Duration := from_millis 100.

Definition heartbeat_is_coalesced (claim : ClaimedJob) (now : Timestamp) : bool :=
  let last := cj_last_heartbeat claim in
  let minimum := default I64_MAX (checked I64_MIN I64_MAX (as_millis HEARTBEAT_MIN_INTERVAL)) in
  negb (last =? I64_MIN) && is_some_and (λ elapsed, elapsed <? minimum) (checked_sub_i64 now last).

Definition renewal_expiry {E} (system : JobSystem) (claim : ClaimedJob) (lease_expiry now : Timestamp)
    : result (JobSystemError E) Timestamp :=
  registration ← ok_or JSE_UnregisteredHandler
    (HandlerRegistry_get_ref (sys_registry system) (jr_kind (cj_record claim))
       (jr_schema_version (cj_record claim)));
  extended ← map_err JSE_Validation (Timestamp_checked_add now (hr_default_timeout registration));
  let expires_at := Z.max extended lease_expiry in
  Ok match cj_execution_deadline claim with
     | Some deadline => Z.min expires_at deadline
     | None => expires_at
     end.

(** [RenewalState] and [CheckpointState] are what [restore] puts back. *)
Record RenewalState : Type := mkRenewalState { rs_previous_state : JobState; rs_previous_revision : Z }.

Definition RenewalState_restore (previous : RenewalState) (claim : ClaimedJob) : ClaimedJob :=
  set_record claim
    (set_revision (set_state (cj_record claim) (rs_previous_state previous))
       (rs_previous_revision previous)).

Definition prepare_renewal_record {E} (claim : ClaimedJob) (lease : Lease) (expires_at : Timestamp)
    : result (JobSystemError E) (ClaimedJob * RenewalState) :=
  next ← map_err JSE_Validation (Lease_try_new (ls_owner lease) (ls_token lease) (ls_fence lease) expires_at);
  let previous := mkRenewalState (jr_state (cj_record claim)) (jr_revision (cj_record claim)) in
  let record := set_state (cj_record claim) (Leased next) in
  revision ← next_revision record;
  Ok (set_record claim (set_revision record revision), previous).

(** [RenewalTransaction] and [CheckpointTransaction] are built alike. *)
Definition build_renewal_transaction {E} (system : JobSystem) (claim : ClaimedJob)
    : job E (OperationId * bytes * StoreTransaction) :=
  operation_id ← fresh_operation;
  encoded ← try_ (encode_job_record (cj_record claim));
  transaction ← lease_record_transaction system claim (cj_record claim) encoded operation_id;
  mret (operation_id, encoded, transaction).

Definition complete_renewal (claim : ClaimedJob) (now : Timestamp) (operation_id : OperationId)
    (encoded : bytes) : ClaimedJob :=
  set_last_heartbeat (replace_encoded_authority claim encoded operation_id) now.

Definition renew {E} (system : JobSystem) (claim : ClaimedJob) (now : Timestamp)
    : prog E (ClaimedJob * result (JobSystemError E) RenewalResult) :=
  match current_lease claim now with
  | Err error => Ret (lose_authority claim, Err error)
  | Ok lease =>
      if heartbeat_is_coalesced claim now then Ret (claim, Ok (RR_Coalesced (ls_expires_at lease)))
      else
        match (expires_at ← renewal_expiry system claim (ls_expires_at lease) now;
               prepared ← prepare_renewal_record claim lease expires_at;
               Ok (expires_at, prepared)) with
        | Err error => Ret (claim, Err error)
        | Ok (expires_at, (claim, previous)) =>
            prog_bind (build_renewal_transaction system claim) (λ prepared,
              match prepared with
              | Err error => Ret (RenewalState_restore previous claim, Err error)
              | Ok (operation_id, encoded, transaction) =>
                  prog_bind (commit_record system transaction claim encoded) (λ committed,
                    match committed with
                    | Ok _ => Ret (complete_renewal claim now operation_id encoded, Ok (RR_Renewed expires_at))
                    | Err error => Ret (lose_authority (RenewalState_restore previous claim), Err error)
                    end)
              end)
        end
  end.

Record CheckpointState : Type := mkCheckpointState {
  cs_previous_checkpoint : option bytes;
  cs_previous_revision : Z;
}.

Definition CheckpointState_restore (previous : CheckpointState) (claim : ClaimedJob) : ClaimedJob :=
  set_record claim
    (set_revision (set_checkpoint (cj_record claim) (cs_previous_checkpoint previous))
       (cs_previous_revision previous)).

Definition prepare_checkpoint_record {E} (claim : ClaimedJob) (checkpoint : bytes)
    : result (JobSystemError E) (ClaimedJob * CheckpointState) :=
  let previous := mkCheckpointState (jr_checkpoint (cj_record claim)) (jr_revision (cj_record claim)) in
  let record := set_checkpoint (cj_record claim) (Some checkpoint) in
  revision ← next_revision record;
  Ok (set_record claim (set_revision record revision), previous).

Definition build_checkpoint_transaction {E} (system : JobSystem) (claim : ClaimedJob)
    : job E (OperationId * bytes * StoreTransaction) :=
  operation_id ← fresh_operation;
  encoded ← try_ (encode_job_record (cj_record claim));
  transaction ← lease_record_transaction system claim (cj_record claim) encoded operation_id;
  mret (operation_id, encoded, transaction).

Definition commit_checkpoint {E} (system : JobSystem) (claim : ClaimedJob) (previous : CheckpointState)
    (prepared : OperationId * bytes * StoreTransaction)
    : prog E (ClaimedJob * result (JobSystemError E) unit) :=
  let '(operation_id, encoded, transaction) := prepared in
  prog_bind (commit_record system transaction claim encoded) (λ committed,
    match committed with
    | Ok _ => Ret (replace_encoded_authority claim encoded operation_id, Ok tt)
    | Err error => Ret (lose_authority (CheckpointState_restore previous claim), Err error)
    end).

Definition checkpoint {E} (system : JobSystem) (claim : ClaimedJob) (checkpoint : bytes) (now : Timestamp)
    : prog E (ClaimedJob * result (JobSystemError E) CheckpointResult) :=
  if MAX_CHECKPOINT_BYTES <? len checkpoint
  then Ret (claim, Err (JSE_Validation (VE_TooLong "checkpoint" MAX_CHECKPOINT_BYTES (len checkpoint))))
  else
    match current_lease claim now with
    | Err error => Ret (lose_authority claim, Err error)
    | Ok _ =>
        match prepare_checkpoint_record claim checkpoint with
        | Err error => Ret (claim, Err error)
        | Ok (claim, previous) =>
            prog_bind (build_checkpoint_transaction system claim) (λ prepared,
              match prepared with
              | Err error => Ret (CheckpointState_restore previous claim, Err error)
              | Ok prepared =>
                  prog_bind (commit_checkpoint system claim previous prepared) (λ '(claim, committed),
                    Ret (claim, _ ← committed; Ok (mkCheckpointResult (len checkpoint))))
              end)
        end
    end.

(** ** Dispatch *)

Definition apply_outcome {E} (system : JobSystem) (claim : ClaimedJob) (outcome : JobOutcome)
    (now : Timestamp) : job E OutcomeResult :=
  _ ← try_ (JobOutcome_validate outcome);
  match outcome with
  | Complete code =>
      details ← complete system claim (Complete code) now;
      mret (OR_Completed details)
  | Continue not_before checkpoint => continue_claim system claim not_before checkpoint now
  | Retry class not_before code => retry_claim system claim class not_before code now
  | DeadLetter code => dead_letter_claim system claim code now
  | OutcomeCancelled => cancel_claim_commit system claim now
  end.
