(* ===== verification/Refs.v ===== *)
(** * The entries of a store

    The keys of a namespace read back as data: which kind of entry a key names
    and which job it belongs to.  The key functions of [Keyspace] give the
    keys that [parse] inverts, and the small values decode to what was
    written; the invariant of the engine ([Invariant]) is stated on these. *)

From S2P Require Import Prelude Errors Ids Clock Policy JobRecord Wire KeyCodec ValueCodec JobCodec.
From S2P Require Import JobRoundtrip OperationCodec Keyspace Store.

Section refs.
Context (ns : Namespace).

(** [KeyCodec::decode_borrowed] on keys of a length a [Vec] can have. *)
Definition parse (k : StoreKey) : option (KeyTag * list bytes) :=
  if USIZE_MAX <? len k then None
  else match KeyCodec_decode_borrowed ns k with Ok p => Some p | Err _ => None end.

Definition key_tag (k : StoreKey) : option KeyTag := fst <$> parse k.

(** The job an entry belongs to; permits, deduplication and wake entries
    belong to none. *)
Definition key_job (k : StoreKey) : option JobId :=
  match parse k with
  | Some (KT_Job, [j]) | Some (KT_Operation, [j]) | Some (KT_Cancellation, [j])
  | Some (KT_PayloadChunk, [j; _]) | Some (KT_Due, [_; _; j])
  | Some (KT_FairReady, [_; j]) | Some (KT_Lease, [_; j]) | Some (KT_DeadLetter, [_; j]) => Some j
  | _ => None
  end.

Definition is_permit (k : StoreKey) : Prop := key_tag k = Some KT_Permit.
Definition is_wake (k : StoreKey) : Prop := key_tag k = Some KT_Wake.
(** The due, fair, lease and dead-letter entries of a job. *)
Definition is_index (j : JobId) (k : StoreKey) : Prop :=
  key_job k = Some j ∧
  match key_tag k with
  | Some (KT_Due | KT_FairReady | KT_Lease | KT_DeadLetter) => True
  | _ => False
  end.
Definition is_chunk (j : JobId) (k : StoreKey) : Prop :=
  key_job k = Some j ∧ key_tag k = Some KT_PayloadChunk.

#[export] Instance is_permit_dec k : Decision (is_permit k).
Proof. unfold is_permit. apply _. Defined.
#[export] Instance is_wake_dec k : Decision (is_wake k).
Proof. unfold is_wake. apply _. Defined.

(** ** Keys *)

Definition JobK (j : JobId) : StoreKey := key_layout ns KT_Job [j].
Definition OpK (j : JobId) : StoreKey := key_layout ns KT_Operation [j].
Definition CancelK (j : JobId) : StoreKey := key_layout ns KT_Cancellation [j].
Definition ChunkK (j : JobId) (i : Z) : StoreKey := key_layout ns KT_PayloadChunk [j; u32_bytes i].
Definition DueK (q : QueueName) (t : Timestamp) (j : JobId) : StoreKey :=
  key_layout ns KT_Due [q; i64_bytes t; j].
Definition FairK (q : QueueName) (j : JobId) : StoreKey := key_layout ns KT_FairReady [q; j].
Definition LeaseK (q : QueueName) (j : JobId) : StoreKey := key_layout ns KT_Lease [q; j].
Definition DeadK (q : QueueName) (j : JobId) : StoreKey := key_layout ns KT_DeadLetter [q; j].
Definition WakeK (q : QueueName) : StoreKey := key_layout ns KT_Wake [q].
Definition DedupeK (d : DeduplicationKey) : StoreKey := key_layout ns KT_Dedupe [d].

Context (Hns : is_opaque MAX_NAMESPACE_BYTES ns = true).

Lemma ns_fits : len ns ≤ U32_MAX.
Proof. apply is_opaque_len in Hns. unfold MAX_NAMESPACE_BYTES, U32_MAX in *. lia. Qed.

Lemma parse_layout tag cs :
  Forall small cs → len cs ≤ MAX_COMPONENTS → parse (key_layout ns tag cs) = Some (tag, cs).
Proof.
  intros Hs Hc. pose proof (KeyCodec_encode_small ns tag cs Hns Hs Hc) as [_ Hf]%KeyCodec_encode_Ok.
  unfold parse. rewrite (proj2 (Z.ltb_ge _ _)) by apply Hf.
  rewrite (proj2 (KeyCodec_decode_Ok ns _ tag cs ns_fits (kf_total _ _ _ Hf))) by done. done.
Qed.

Lemma parse_inv k tag cs : parse k = Some (tag, cs) → k = key_layout ns tag cs.
Proof.
  unfold parse. destruct (Z.ltb_spec USIZE_MAX (len k)) as [|Hl]; [done|].
  destruct (KeyCodec_decode_borrowed ns k) as [[t c]|] eqn:Hd; [|done]. intros [= -> ->].
  by apply KeyCodec_decode_Ok in Hd as [-> _]; [|apply ns_fits|].
Qed.
End refs.

Ltac parse_small := rewrite parse_layout by (done || small_list || small_count).

Section keys.
Context (ns : Namespace) (Hns : is_opaque MAX_NAMESPACE_BYTES ns = true).
Implicit Types j : JobId.
Implicit Types q : QueueName.

Lemma parse_JobK j : is_fixed_id j = true → parse ns (JobK ns j) = Some (KT_Job, [j]).
Proof. intros. unfold JobK. by parse_small. Qed.
Lemma parse_OpK j : is_fixed_id j = true → parse ns (OpK ns j) = Some (KT_Operation, [j]).
Proof. intros. unfold OpK. by parse_small. Qed.
Lemma parse_CancelK j : is_fixed_id j = true → parse ns (CancelK ns j) = Some (KT_Cancellation, [j]).
Proof. intros. unfold CancelK. by parse_small. Qed.
Lemma parse_ChunkK j i :
  is_fixed_id j = true → parse ns (ChunkK ns j i) = Some (KT_PayloadChunk, [j; u32_bytes i]).
Proof. intros. unfold ChunkK. by parse_small. Qed.
Lemma parse_DueK q t j :
  is_text MAX_NAME_BYTES q = true → is_fixed_id j = true →
  parse ns (DueK ns q t j) = Some (KT_Due, [q; i64_bytes t; j]).
Proof. intros. unfold DueK. by parse_small. Qed.
Lemma parse_FairK q j :
  is_text MAX_NAME_BYTES q = true → is_fixed_id j = true →
  parse ns (FairK ns q j) = Some (KT_FairReady, [q; j]).
Proof. intros. unfold FairK. by parse_small. Qed.
Lemma parse_LeaseK q j :
  is_text MAX_NAME_BYTES q = true → is_fixed_id j = true →
  parse ns (LeaseK ns q j) = Some (KT_Lease, [q; j]).
Proof. intros. unfold LeaseK. by parse_small. Qed.
Lemma parse_DeadK q j :
  is_text MAX_NAME_BYTES q = true → is_fixed_id j = true →
  parse ns (DeadK ns q j) = Some (KT_DeadLetter, [q; j]).
Proof. intros. unfold DeadK. by parse_small. Qed.
Lemma parse_WakeK q : is_text MAX_NAME_BYTES q = true → parse ns (WakeK ns q) = Some (KT_Wake, [q]).
Proof. intros. unfold WakeK. by parse_small. Qed.
Lemma parse_DedupeK d :
  is_opaque MAX_DEDUPE_KEY_BYTES d = true → parse ns (DedupeK ns d) = Some (KT_Dedupe, [d]).
Proof. intros. unfold DedupeK. by parse_small. Qed.

(** ** The key functions of the source *)

Lemma job_key_Ok j : is_fixed_id j = true → job_key ns j = Ok (JobK ns j).
Proof. intros. unfold job_key, KeyCodec_job, JobK. by small_key. Qed.
Lemma operation_key_Ok j : is_fixed_id j = true → operation_key ns j = Ok (OpK ns j).
Proof. intros. unfold operation_key, OpK. by small_key. Qed.
Lemma cancellation_key_Ok j : is_fixed_id j = true → cancellation_key ns j = Ok (CancelK ns j).
Proof. intros. unfold cancellation_key, CancelK. by small_key. Qed.
Lemma payload_key_Ok j i : is_fixed_id j = true → payload_key ns j i = Ok (ChunkK ns j i).
Proof. intros. unfold payload_key, ChunkK. by small_key. Qed.
Lemma due_key_Ok q t j :
  is_text MAX_NAME_BYTES q = true → is_fixed_id j = true → due_key ns q t j = Ok (DueK ns q t j).
Proof. intros. unfold due_key, DueK. by small_key. Qed.
Lemma fair_key_Ok q j :
  is_text MAX_NAME_BYTES q = true → is_fixed_id j = true → fair_key ns q j = Ok (FairK ns q j).
Proof. intros. unfold fair_key, FairK. by small_key. Qed.
Lemma lease_key_Ok q j :
  is_text MAX_NAME_BYTES q = true → is_fixed_id j = true → lease_key ns q j = Ok (LeaseK ns q j).
Proof. intros. unfold lease_key, LeaseK. by small_key. Qed.
Lemma dead_letter_key_Ok q j :
  is_text MAX_NAME_BYTES q = true → is_fixed_id j = true → dead_letter_key ns q j = Ok (DeadK ns q j).
Proof. intros. unfold dead_letter_key, DeadK. by small_key. Qed.
Lemma wake_key_Ok q : is_text MAX_NAME_BYTES q = true → wake_key ns q = Ok (WakeK ns q).
Proof. intros. unfold wake_key, WakeK. by small_key. Qed.
Lemma dedupe_key_Ok d : is_opaque MAX_DEDUPE_KEY_BYTES d = true → dedupe_key ns d = Ok (DedupeK ns d).
Proof. intros. unfold dedupe_key, DedupeK. by small_key. Qed.
End keys.

(** ** Small values *)

Definition due_layout (t : Timestamp) : bytes := value_layout VT_Due (i64_bytes t).
Definition marker_layout (tag : ValueTag) (j : JobId) : bytes := value_layout tag j.
Definition cancel_layout : bytes := value_layout VT_Cancellation [].

Lemma value_small tag body : len body ≤ 4096 → ValueCodec_encode tag body = Ok (value_layout tag body).
Proof. intros. apply ValueCodec_encode_Ok. split; [done|]. unfold MAX_VALUE_BODY_BYTES. lia. Qed.

Lemma due_value_Ok t : due_value t = Ok (due_layout t).
Proof. unfold due_value. apply value_small. unfold i64_bytes. rewrite len_to_be_bytes. lia. Qed.
Lemma wake_value_Ok t : wake_value t = Ok (value_layout VT_Wake (i64_bytes t)).
Proof. unfold wake_value. apply value_small. unfold i64_bytes. rewrite len_to_be_bytes. lia. Qed.
Lemma fair_value_Ok j : is_fixed_id j = true → fair_value j = Ok (marker_layout VT_FairReady j).
Proof. intros ?%is_fixed_id_len. apply value_small. lia. Qed.
Lemma lease_value_Ok j : is_fixed_id j = true → lease_value j = Ok (marker_layout VT_Lease j).
Proof. intros ?%is_fixed_id_len. apply value_small. lia. Qed.
Lemma dead_letter_value_Ok j : is_fixed_id j = true → dead_letter_value j = Ok (marker_layout VT_DeadLetter j).
Proof. intros ?%is_fixed_id_len. apply value_small. lia. Qed.
Lemma cancellation_value_Ok : cancellation_value = Ok cancel_layout.
Proof. apply value_small. rewrite len_nil. lia. Qed.

Lemma validate_empty_marker_Ok v tag u :
  validate_empty_marker v tag = Ok u → v = value_layout tag [].
Proof.
  unfold validate_empty_marker. intros H. invert_ok. destruct a as [t b].
  apply ValueCodec_decode_body_Ok in Ha as [-> _]. case_bool_decide; [|done]. subst.
  destruct (Z.eqb_spec (len b) 0) as [Hb|]; [|done]. apply len_zero_nil in Hb. by subst.
Qed.

(** ** Operation values *)

(** The fence high-water mark of an operation entry. *)
Definition fence_of (j : JobId) (op : option bytes) : Z :=
  match op with
  | None => 0
  | Some e => match decode_operation_fence_high_water e j with Ok f => f | Err _ => 0 end
  end.

Lemma fence_of_u64 j op : is_u64 (fence_of j op) = true.
Proof.
  unfold fence_of. destruct op as [e|]; [|done].
  destruct (decode_operation_fence_high_water e j) as [f|] eqn:Hf; [|done].
  unfold decode_operation_fence_high_water in Hf. invert_ok.
  apply decode_operation_Ok in Ha as [Ho _]. destruct a as [a|r]; cbn in Ho.
  - case_match; [|done]. invert_ok. by split_andb.
  - case_match; [|done]. invert_ok. unfold is_receipt in Ho. split_andb. ranges. lia.
Qed.

Lemma fence_of_nonneg j op : 0 ≤ fence_of j op.
Proof. pose proof (fence_of_u64 j op). ranges. lia. Qed.

Lemma decode_live e j o f :
  is_fixed_id j = true → is_option is_fixed_id o = true → is_u64 f = true →
  encode_operation (DO_Live (mkLiveOperationAuthority j f o)) = Ok e →
  decode_operation_authority e j = Ok (mkLiveOperationAuthority j f o) ∧ fence_of j (Some e) = f.
Proof.
  intros Hj Ho Hf He. assert (is_operation (DO_Live (mkLiveOperationAuthority j f o)) = true) as Hi.
  { cbn. by rewrite Hj, Hf, Ho. }
  apply encode_operation_Ok in He as [Hl ->]; [|done].
  unfold decode_operation_authority, fence_of, decode_operation_fence_high_water.
  rewrite (proj2 (decode_operation_Ok _ _) (conj Hi (conj Hl eq_refl))). cbn [mbind result_bind].
  unfold LiveOperationAuthority_matches_job. cbn. by rewrite bytes_eqb_refl.
Qed.

Lemma operation_value_decodes j id f e :
  is_fixed_id j = true → is_fixed_id id = true → is_u64 f = true → operation_value j id f = Ok e →
  decode_active_operation e j = Ok (id, f) ∧ fence_of j (Some e) = f.
Proof.
  intros Hj Hid Hf He. destruct (decode_live e j (Some id) f) as [Ha Hfe]; try done.
  split; [|done]. unfold decode_active_operation. by rewrite Ha.
Qed.

Lemma watermark_value_decodes j f e :
  is_fixed_id j = true → is_u64 f = true → operation_watermark_value j f = Ok e →
  decode_operation_authority e j = Ok (mkLiveOperationAuthority j f None) ∧ fence_of j (Some e) = f.
Proof. intros. by apply (decode_live e j None f). Qed.

Lemma receipt_value_decodes r e :
  is_receipt r = true → operation_receipt_value r = Ok e →
  decode_operation e = Ok (DO_Receipt r) ∧ fence_of (or_job_id r) (Some e) = or_fence r.
Proof.
  intros Hr He. apply (encode_operation_Ok (DO_Receipt r)) in He as [Hl ->]; [|done].
  assert (decode_operation (value_layout VT_Operation (operation_body (DO_Receipt r))) = Ok (DO_Receipt r)) as Hd.
  { by apply decode_operation_Ok. }
  split; [done|]. unfold fence_of, decode_operation_fence_high_water. rewrite Hd. cbn.
  by rewrite bytes_eqb_refl.
Qed.

Lemma decode_active_fence e j id f :
  decode_active_operation e j = Ok (id, f) →
  is_fixed_id id = true ∧ is_u64 f = true ∧ fence_of j (Some e) = f ∧ operation_value j id f = Ok e.
Proof.
  unfold decode_active_operation, decode_operation_authority. intros Hd.
  apply bind_Ok in Hd as (a & Ha & Hd). apply bind_Ok in Ha as (o & Ho & Ha). invert_ok.
  destruct o as [a'|]; [|done]. case_match eqn:Hm; [|done]. invert_ok.
  unfold LiveOperationAuthority_matches_job in Hm. apply bytes_eqb_spec in Hm.
  destruct a as [j' f' o]. cbn in *. subst. pose proof Ho as (Hi & Hl & He)%decode_operation_Ok.
  assert (operation_value j id f' = Ok e) as Hv.
  { by apply (encode_operation_Ok (DO_Live (mkLiveOperationAuthority j f' (Some id)))). }
  cbn in Hi. split_andb. split_and!; try done.
  unfold fence_of, decode_operation_fence_high_water. rewrite Ho. cbn.
  unfold LiveOperationAuthority_matches_job. cbn. by rewrite bytes_eqb_refl.
Qed.

Lemma decode_authority_active e j id f :
  decode_active_operation e j = Ok (id, f) →
  ∃ a, decode_operation_authority e j = Ok a.
Proof. unfold decode_active_operation. intros H. invert_ok. eauto. Qed.

(** ** Effects of a transaction by membership *)

Section effects.
Context (m : StoreMap) (ms : list Mutation) (Hnd : NoDup (Mutation_key <$> ms)).

Lemma apply_put k v : Put k v ∈ ms → apply_mutations m ms !! k = Some v.
Proof. intros H. exact (lookup_apply_mutations m ms (Put k v) Hnd H). Qed.
Lemma apply_delete k : Delete k ∈ ms → apply_mutations m ms !! k = None.
Proof. intros H. exact (lookup_apply_mutations m ms (Delete k) Hnd H). Qed.
Lemma apply_other k : k ∉ Mutation_key <$> ms → apply_mutations m ms !! k = m !! k.
Proof. apply lookup_apply_mutations_ne. Qed.
End effects.

Lemma check_value m checks k v :
  checks_match m checks = true → Value k v ∈ checks → m !! k = Some v.
Proof.
  unfold checks_match. rewrite forallb_forall. intros Hc Hk.
  specialize (Hc _ (proj1 (list_elem_of_In _ _) Hk)). cbn in Hc. by apply bool_decide_eq_true in Hc.
Qed.
Lemma check_absent m checks k :
  checks_match m checks = true → Absent k ∈ checks → m !! k = None.
Proof.
  unfold checks_match. rewrite forallb_forall. intros Hc Hk.
  specialize (Hc _ (proj1 (list_elem_of_In _ _) Hk)). cbn in Hc. by apply bool_decide_eq_true in Hc.
Qed.
Lemma checks_match_sub m cs cs' : cs ⊆ cs' → checks_match m cs' = true → checks_match m cs = true.
Proof.
  unfold checks_match. rewrite !forallb_forall. intros Hs Hc c Hin. apply Hc.
  apply list_elem_of_In. apply Hs. by apply list_elem_of_In.
Qed.

(** ** Records *)

Lemma decode_typed e r : decode_job_record e = Ok r → is_job_record r = true.
Proof. intros [Hw _]%decode_job_record_Ok. by apply record_wf_typed. Qed.

Lemma encode_decodes r e : is_job_record r = true → encode_job_record r = Ok e → decode_job_record e = Ok r.
Proof. intros Hr He. apply decode_job_record_Ok. by apply encode_job_record_Ok. Qed.

Lemma decode_encodes r e : decode_job_record e = Ok r → encode_job_record r = Ok e.
Proof. intros Hd. apply (encode_job_record_Ok r e). by apply decode_job_record_Ok. Qed.

(** The parts of a typed record that name its entries. *)
Record record_names (r : JobRecordV1) : Prop := {
  rn_job : is_fixed_id (jr_job_id r) = true;
  rn_queue : is_text MAX_NAME_BYTES (jr_queue r) = true;
  rn_scheduled : is_i64 (jr_scheduled_at r) = true;
  rn_execution : is_fixed_id (jr_execution_id r) = true;
  rn_revision : is_u64 (jr_revision r) = true;
  rn_generation : is_u32 (jr_generation r) = true;
  rn_permits : permit_record r;
}.

Lemma typed_names r : is_job_record r = true → record_names r.
Proof. intros Hr. pose proof (permit_record_typed r Hr). unfold is_job_record in Hr. split_andb. by split. Qed.

Lemma typed_lease r l :
  is_job_record r = true → jr_state r = Leased l →
  is_fixed_id (ls_owner l) = true ∧ is_fixed_id (ls_token l) = true ∧ is_nonzero_u64 (ls_fence l) = true.
Proof. unfold is_job_record. intros Hr Hs. split_andb. rewrite Hs in *. cbn in *. unfold is_lease in *. by split_andb. Qed.

(** ** Permit values *)

Definition permit_layout (r : JobRecordV1) (l : Lease) : bytes :=
  value_layout VT_Permit
    (jr_job_id r ++ u32_bytes (jr_generation r) ++ ls_owner l ++ ls_token l ++ u64_bytes (ls_fence l)).

Definition permit_of (r : JobRecordV1) : option bytes :=
  match jr_state r with Leased l => Some (permit_layout r l) | _ => None end.

Lemma permit_value_Ok r v :
  is_job_record r = true → permit_value_for_record r = Ok v ↔ permit_of r = Some v.
Proof.
  intros Hr. unfold permit_value_for_record, permit_of. destruct (jr_state r) as [|l| | |] eqn:Hs; try done.
  destruct (permit_body_len r l Hr Hs) as (Hj%is_fixed_id_len & Ho%is_fixed_id_len & Ht%is_fixed_id_len).
  rewrite value_small.
  - rewrite <- !app_assoc. unfold permit_layout. naive_solver.
  - rewrite !len_app. unfold u32_bytes, u64_bytes. rewrite !len_to_be_bytes. lia.
Qed.

Lemma value_layout_inj tag tag' b b' :
  len b ≤ U32_MAX → len b' ≤ U32_MAX → value_layout tag b = value_layout tag' b' → tag = tag' ∧ b = b'.
Proof.
  intros Hb Hb'. unfold value_layout. intros He. apply app_inv_head in He.
  apply app_inj_1 in He as [Ht He]; [|by rewrite !length_to_be_bytes].
  rewrite <- (app_nil_r (framed b)), <- (app_nil_r (framed b')) in He.
  apply framed_app_inj in He as [-> _]; [|done|done]. split; [|done].
  apply to_be_bytes_1_inj in Ht; [|apply ValueTag_as_byte_range..]. by destruct tag, tag'.
Qed.

(** Permits name their job, its owner and its lease token. *)
Lemma permit_layout_inj r r' l l' :
  is_job_record r = true → is_job_record r' = true → jr_state r = Leased l → jr_state r' = Leased l' →
  permit_layout r l = permit_layout r' l' → jr_job_id r = jr_job_id r' ∧ ls_token l = ls_token l'.
Proof.
  intros Hr Hr' Hs Hs'.
  destruct (permit_body_len r l Hr Hs) as (Hj%is_fixed_id_len & Ho%is_fixed_id_len & Ht%is_fixed_id_len).
  destruct (permit_body_len r' l' Hr' Hs') as (Hj'%is_fixed_id_len & Ho'%is_fixed_id_len & Ht'%is_fixed_id_len).
  unfold permit_layout. intros [_ He]%value_layout_inj.
  - unfold len in *. apply app_inj_1 in He as [Hjj He]; [|lia].
    apply app_inj_1 in He as [_ He]; [|unfold u32_bytes; by rewrite !length_to_be_bytes].
    apply app_inj_1 in He as [_ He]; [|lia]. apply app_inj_1 in He as [Htt _]; [done|lia].
  - rewrite !len_app. unfold u32_bytes, u64_bytes, U32_MAX. rewrite !len_to_be_bytes. lia.
  - rewrite !len_app. unfold u32_bytes, u64_bytes, U32_MAX. rewrite !len_to_be_bytes. lia.
Qed.

(** Keys are told apart by [parse], never by their bytes. *)
#[global] Opaque JobK OpK CancelK ChunkK DueK FairK LeaseK DeadK WakeK DedupeK.
