(* ===== verification/Invariant.v ===== *)
(** * The invariant of the engine

    What every store reached by the engine's operations looks like, and how
    its history proceeds: the index entries of a job are exactly those of its
    state, its operation entry carries its fence, a cancellation is pending
    only while it is leased, its payload is intact, and permits are held by
    live leases, one slot each ([state_ok]); a record value that changes never
    comes back, a fence never falls, and what a lease holds does not change
    while its record does not ([follows], [history_ok]).

    [engine_discipline] makes this the invariant of [Logic]; [good_update] is
    the one proof obligation of every transaction. *)

From S2P Require Import Prelude Errors Ids Clock Policy JobRecord Wire KeyCodec ValueCodec JobCodec.
From S2P Require Import JobRoundtrip OperationCodec Keyspace Store Prog Logic System Claim Refs.

Section invariant.
Context (ns : Namespace) (sha256 : bytes → bytes).
Implicit Types m : StoreMap.
Implicit Types j : JobId.
Implicit Types r : JobRecordV1.

(** ** One state *)

Definition record_at m j : option JobRecordV1 :=
  e ← m !! JobK ns j;
  match decode_job_record e with Ok r => Some r | Err _ => None end.

(** The entries a record's state puts into the indexes. *)
Definition index_entries r : list (StoreKey * bytes) :=
  let q := jr_queue r in
  let j := jr_job_id r in
  match jr_state r with
  | Scheduled =>
      [(DueK ns q (jr_scheduled_at r) j, due_layout (jr_scheduled_at r));
       (FairK ns q j, marker_layout VT_FairReady j)]
  | Leased _ => [(LeaseK ns q j, marker_layout VT_Lease j)]
  | DeadLettered => [(DeadK ns q j, marker_layout VT_DeadLetter j)]
  | Cancelled | Suspended => []
  end.
Definition index_at (o : option JobRecordV1) (k : StoreKey) : option bytes :=
  r ← o; (list_to_map (index_entries r) : StoreMap) !! k.

(** The operation entry of a job, by the state of its record. *)
Definition op_inv j (state : option JobState) (op : option bytes) : Prop :=
  match state with
  | None => op = None ∨ ∃ e rc, op = Some e ∧ decode_operation e = Ok (DO_Receipt rc) ∧ or_job_id rc = j
  | Some (Leased l) => ∃ e id, op = Some e ∧ decode_active_operation e j = Ok (id, ls_fence l)
  | Some Scheduled => op = None ∨ ∃ e a, op = Some e ∧ decode_operation_authority e j = Ok a
  | Some _ => ∃ e id f, op = Some e ∧ decode_active_operation e j = Ok (id, f)
  end.

Definition chunk_values m r : list (option bytes) := (λ k, m !! k) <$> pm_chunk_keys (jr_payload r).

Record job_inv m j : Prop := {
  ji_record e : m !! JobK ns j = Some e →
    ∃ r, decode_job_record e = Ok r ∧ jr_job_id r = j ∧ jr_namespace r = ns ∧
      validate_chunk_keys (E := unit) ns j 0 (pm_chunk_keys (jr_payload r)) = Ok tt;
  ji_index k : is_index ns j k → m !! k = index_at (record_at m j) k;
  ji_op : op_inv j (jr_state <$> record_at m j) (m !! OpK ns j);
  ji_cancel v : m !! CancelK ns j = Some v →
    v = cancel_layout ∧ ∃ r l, record_at m j = Some r ∧ jr_state r = Leased l;
  ji_chunks k : is_chunk ns j k →
    is_Some (m !! k) ↔ ∃ r, record_at m j = Some r ∧ k ∈ pm_chunk_keys (jr_payload r);
  ji_payload r : record_at m j = Some r →
    ∃ p, decode_payload (E := unit) sha256 r (chunk_values m r) = Ok p;
}.

(** The permits of one slot. *)
Definition slot_keys r (slot : Z) : list StoreKey := scope_permit_keys ns r slot ++ ordering_permit_keys ns r.

(** The permits a record holds are those of one slot. *)
Definition holds_slot m r (pv : bytes) (slot : Z) : Prop :=
  0 ≤ slot < MAX_DURABLE_PERMIT_SLOTS ∧
  ∀ k, is_permit ns k → m !! k = Some pv ↔ k ∈ slot_keys r slot.

Record state_ok m : Prop := {
  so_job j : is_fixed_id j = true → job_inv m j;
  so_permit k v : is_permit ns k → m !! k = Some v →
    ∃ j r, is_fixed_id j = true ∧ record_at m j = Some r ∧ permit_of r = Some v;
  so_slot j r pv : is_fixed_id j = true → record_at m j = Some r → permit_of r = Some pv →
    ∃ slot, holds_slot m r pv slot;
}.

(** ** Histories *)

Definition fence_at m j : Z := fence_of j (m !! OpK ns j).

(** What a later state [m] keeps of an earlier state [m0]. *)
Record follows m0 m j : Prop := {
  fo_revision r0 r : record_at m0 j = Some r0 → record_at m j = Some r →
    jr_execution_id r0 = jr_execution_id r → jr_revision r0 ≤ jr_revision r;
  fo_operation e : m0 !! JobK ns j = Some e → m !! JobK ns j = Some e → m0 !! OpK ns j = m !! OpK ns j;
  fo_permits r0 r pv : record_at m0 j = Some r0 → record_at m j = Some r →
    permit_of r0 = Some pv → permit_of r = Some pv →
    ∀ k, is_permit ns k → m0 !! k = Some pv ↔ m !! k = Some pv;
  fo_fence : fence_at m0 j ≤ fence_at m j;
  fo_lease r0 r l0 l : record_at m0 j = Some r0 → record_at m j = Some r →
    jr_state r0 = Leased l0 → jr_state r = Leased l → ls_token l0 = ls_token l ∨ ls_fence l0 < ls_fence l;
}.

(** A record value seen before is the value of the previous state. *)
Definition no_return m (past : list StoreMap) j : Prop :=
  ∀ e m0, m0 ∈ past → m0 !! JobK ns j = Some e → m !! JobK ns j = Some e →
    ∃ previous older, past = previous :: older ∧ previous !! JobK ns j = Some e.

Definition succeeds m (past : list StoreMap) j : Prop :=
  (∀ m0, m0 ∈ past → follows m0 m j) ∧ no_return m past j.

(** Newest first. *)
Fixpoint history_ok (l : list StoreMap) : Prop :=
  match l with
  | [] => True
  | m :: past => history_ok past ∧ state_ok m ∧ ∀ j, is_fixed_id j = true → succeeds m past j
  end.

(** The execution identifiers and lease tokens of the records of a state. *)
Definition visible_id m (id : bytes) : Prop :=
  ∃ j r, is_fixed_id j = true ∧ record_at m j = Some r ∧
    (jr_execution_id r = id ∨ ∃ l, jr_state r = Leased l ∧ ls_token l = id).

Record valid_world (w : world) : Prop := {
  vw_history : history_ok (states w);
  vw_visible m id : m ∈ states w → visible_id m id → id ∈ w_ids w;
  vw_ledger id rc : w_ledger w !! id = Some rc → id ∈ w_ids w;
  vw_applied id tx : w_ledger w !! id = Some (tx, Committed) → applied w tx;
}.

Definition good_state (w : world) m : Prop := history_ok (m :: states w).

(** ** The discipline *)

Lemma follows_refl m j : follows m m j.
Proof. split; try done; intros; simplify_eq; [lia|]. left. congruence. Qed.

Lemma history_idle m past : history_ok (m :: past) → history_ok (m :: m :: past).
Proof.
  intros Hh. split; [done|]. destruct Hh as (Hp & Hs & Hj). split; [done|]. intros j Hf.
  destruct (Hj j Hf) as [Hfo Hn]. split.
  - intros m0 [->|Hm]%elem_of_cons; [apply follows_refl|auto].
  - intros e m0 _ _ He. eauto.
Qed.

Lemma history_in m l : history_ok l → m ∈ l → state_ok m.
Proof. induction l as [|m0 l IH]; [set_solver|]. intros (Hp & Hs & _) [->|Hm]%elem_of_cons; auto. Qed.

Lemma history_suffix l l' : l `suffix_of` l' → history_ok l' → history_ok l.
Proof. intros [p ->]. induction p as [|m p IH]; [done|]. intros (Hp & _). auto. Qed.

Lemma history_follows m0 m older newer j :
  history_ok (newer ++ m :: older) → is_fixed_id j = true → m0 ∈ m :: older → follows m0 m j.
Proof.
  intros Hh Hf Hm. assert (history_ok (m :: older)) as (_ & _ & Hj).
  { eapply history_suffix; [|done]. by exists newer. }
  apply elem_of_cons in Hm as [->|Hm]; [apply follows_refl|]. by apply Hj.
Qed.

(** Between two states with the same record value, the value is the same. *)
Lemma history_between l1 m l2 m0 l3 j e x :
  history_ok (m :: l1 ++ x :: l2 ++ m0 :: l3) → is_fixed_id j = true →
  m0 !! JobK ns j = Some e → m !! JobK ns j = Some e → x !! JobK ns j = Some e.
Proof.
  revert m. induction l1 as [|m1 l1 IH]; intros m Hh Hf H0 He; destruct Hh as (Hp & _ & Hj);
    destruct (Hj j Hf) as [_ Hn].
  - destruct (Hn e m0) as (previous & older & Heq & Hv); try done; [set_solver|]. by simplify_eq/=.
  - destruct (Hn e m0) as (previous & older & Heq & Hv); try done; [set_solver|]. simplify_eq/=. eauto.
Qed.

Lemma valid_world_draw w id : valid_world w → valid_world (draw w id).
Proof. intros []. split; cbn; [done|set_solver|set_solver|]. eauto. Qed.

Lemma applied_push w m ledger tx : applied w tx → applied (push w m ledger) tx.
Proof. intros (m0 & Hm & Ha & Hc). exists m0. unfold states, push. cbn. set_solver. Qed.

Lemma valid_world_idle w ledger :
  valid_world w → idle_ledger w ledger → valid_world (push w (w_now w) ledger).
Proof.
  intros [Hh Hv Hl Ha] Hi. split; cbn.
  - by apply history_idle.
  - intros m id [->|Hm]%elem_of_cons Hid; eapply Hv; try done. left.
  - intros id rc Hrc. destruct Hi as [|tx Hn Hd]; [eauto|].
    apply lookup_insert_Some in Hrc as [[<- _]|[_ Hrc]]; eauto.
  - intros id tx Hc. apply applied_push. destruct Hi as [|tx' Hn Hd]; [eauto|].
    apply lookup_insert_Some in Hc as [[_ ?]|[_ Hc]]; [done|eauto].
Qed.

Lemma valid_world_commit w tx :
  valid_world w → w_ledger w !! tx_operation_id tx = None → tx_operation_id tx ∈ w_ids w →
  checks_match (w_now w) (tx_checks tx) = true →
  good_state w (apply_mutations (w_now w) (tx_mutations tx)) →
  (∀ id, visible_id (apply_mutations (w_now w) (tx_mutations tx)) id → id ∈ w_ids w) →
  valid_world (push w (apply_mutations (w_now w) (tx_mutations tx))
                 (<[tx_operation_id tx := (tx, Committed)]> (w_ledger w))).
Proof.
  intros [Hh Hv Hl Ha] Hn Hd Hc Hg Hid. split; cbn.
  - done.
  - intros m id [->|Hm]%elem_of_cons Hvis; [auto|eauto].
  - intros id rc [[<- _]|[_ Hrc]]%lookup_insert_Some; eauto.
  - intros id tx' [[_ [= <-]]|[_ Hrc]]%lookup_insert_Some; [|apply applied_push; eauto].
    exists (w_now w). unfold states, push. cbn. set_solver.
Qed.

Definition engine_discipline : Discipline := {|
  valid := valid_world;
  visible := visible_id;
  good := good_state;
  valid_draw := valid_world_draw;
  visible_drawn w m id Hv := vw_visible w Hv m id;
  committed_drawn w id rc Hv := vw_ledger w Hv id rc;
  committed_applied w tx Hv := vw_applied w Hv (tx_operation_id tx) tx;
  valid_idle := valid_world_idle;
  valid_commit := valid_world_commit;
|}.
End invariant.
