(* ===== verification/Update.v ===== *)
(** * Updates of one job

    [good_update]: a transaction that changes the entries of one job and the
    permits of its lease keeps the invariant, if the job's own entries are
    consistent afterwards, its record is a new version, its fence does not
    fall, and its permits are kept, taken or dropped as a whole. *)

From S2P Require Import Prelude Errors Ids Clock Policy JobRecord Wire KeyCodec ValueCodec JobCodec.
From S2P Require Import JobRoundtrip OperationCodec Keyspace Store Prog Logic System Claim Refs Invariant.

Section update.
Context (ns : Namespace) (sha256 : bytes → bytes) (Hns : is_opaque MAX_NAMESPACE_BYTES ns = true).
#[local] Instance disc : Discipline := engine_discipline ns sha256.
Implicit Types m : StoreMap.
Implicit Types j : JobId.
Implicit Types r : JobRecordV1.
Implicit Types w : world.
Abbreviation record_at := (record_at ns).
Abbreviation job_inv := (job_inv ns sha256).
Abbreviation state_ok := (state_ok ns sha256).

(** ** Entries of one job *)

Lemma key_job_JobK j : is_fixed_id j = true → key_job ns (JobK ns j) = Some j.
Proof. intros. unfold key_job. by rewrite parse_JobK. Qed.
Lemma key_job_OpK j : is_fixed_id j = true → key_job ns (OpK ns j) = Some j.
Proof. intros. unfold key_job. by rewrite parse_OpK. Qed.
Lemma key_job_CancelK j : is_fixed_id j = true → key_job ns (CancelK ns j) = Some j.
Proof. intros. unfold key_job. by rewrite parse_CancelK. Qed.

Lemma is_chunk_ChunkK j i : is_fixed_id j = true → is_chunk ns j (ChunkK ns j i).
Proof. intros. unfold is_chunk, key_job, key_tag. by rewrite parse_ChunkK. Qed.

Lemma validate_chunk_keys_in {E} j i keys k :
  is_fixed_id j = true → validate_chunk_keys (E := E) ns j i keys = Ok tt → k ∈ keys →
  is_chunk ns j k.
Proof.
  intros Hj. revert i. induction keys as [|k0 keys IH]; intros i Hv Hk; [set_solver|]. cbn in Hv. invert_ok.
  unfold Transition.data in Ha0. rewrite payload_key_Ok in Ha0 by done. cbn in Ha0. invert_ok. destruct (bytes_eqb k0 _) eqn:Hb; [|done].
  apply bytes_eqb_spec in Hb. cbn in Hv. apply elem_of_cons in Hk as [->|Hk]; [|by eapply IH].
  subst. by apply is_chunk_ChunkK.
Qed.

Lemma record_at_decode m j e r : m !! JobK ns j = Some e → decode_job_record e = Ok r → record_at m j = Some r.
Proof. intros He Hd. unfold Invariant.record_at. rewrite He. cbn. by rewrite Hd. Qed.

Lemma record_at_inv m j r : record_at m j = Some r → ∃ e, m !! JobK ns j = Some e ∧ decode_job_record e = Ok r.
Proof.
  unfold Invariant.record_at. destruct (m !! JobK ns j) as [e|]; [|done]. cbn.
  destruct (decode_job_record e) eqn:Hd; naive_solver.
Qed.

Lemma record_at_eq m m' j : m' !! JobK ns j = m !! JobK ns j → record_at m' j = record_at m j.
Proof. intros He. unfold Invariant.record_at. by rewrite He. Qed.

Lemma record_at_none m j : m !! JobK ns j = None → record_at m j = None.
Proof. intros He. unfold Invariant.record_at. by rewrite He. Qed.

Lemma job_inv_frame m m' j :
  is_fixed_id j = true → (∀ k, key_job ns k = Some j → m' !! k = m !! k) → job_inv m j → job_inv m' j.
Proof.
  intros Hj Hk [Hr Hi Ho Hc Hch Hp].
  assert (m' !! JobK ns j = m !! JobK ns j) as Hjob by (apply Hk, key_job_JobK, Hj).
  pose proof (record_at_eq m m' j Hjob) as Hrec.
  split; rewrite ?Hrec.
  - intros e. rewrite Hjob. apply Hr.
  - intros k Hx. rewrite Hk by apply Hx. auto.
  - rewrite Hk by by apply key_job_OpK. done.
  - intros v. rewrite Hk by by apply key_job_CancelK. auto.
  - intros k Hx. rewrite Hk by apply Hx. auto.
  - intros r Hx. destruct (Hp r Hx) as [p Hd]. exists p. rewrite <- Hd. f_equal.
    unfold chunk_values. apply list_fmap_ext. intros i k Hin%list_elem_of_lookup_2. apply Hk.
    destruct (record_at_inv _ _ _ Hx) as (e & He & Hdec). destruct (Hr e He) as (r' & Hdec' & _ & _ & Hv).
    assert (r' = r) as -> by congruence. exact (proj1 (validate_chunk_keys_in j 0 _ k Hj Hv Hin)).
Qed.

Record record_spec m j r (e : bytes) : Prop := {
  rs_encoded : m !! JobK ns j = Some e;
  rs_decodes : decode_job_record e = Ok r;
  rs_typed : is_job_record r = true;
  rs_job : jr_job_id r = j;
  rs_namespace : jr_namespace r = ns;
  rs_chunks : validate_chunk_keys (E := unit) ns j 0 (pm_chunk_keys (jr_payload r)) = Ok tt;
}.

Lemma record_at_spec m j r : job_inv m j → record_at m j = Some r → ∃ e, record_spec m j r e.
Proof.
  intros Hi Hr. destruct (record_at_inv _ _ _ Hr) as (e & He & Hd).
  destruct (ji_record _ _ _ _ Hi e He) as (r' & Hd' & Hj & Hn & Hc). assert (r' = r) as -> by congruence.
  exists e. split; try done. by eapply decode_typed.
Qed.

(** Permits of different jobs differ. *)
Lemma permit_of_job m m' j j' r r' pv :
  job_inv m j → job_inv m' j' → record_at m j = Some r → record_at m' j' = Some r' →
  permit_of r = Some pv → permit_of r' = Some pv → j = j' ∧
  ∃ l l', jr_state r = Leased l ∧ jr_state r' = Leased l' ∧ ls_token l = ls_token l'.
Proof.
  intros Hi Hi' Hr Hr'. destruct (record_at_spec _ _ _ Hi Hr) as (e & [_ _ Ht <- _ _]).
  destruct (record_at_spec _ _ _ Hi' Hr') as (e' & [_ _ Ht' <- _ _]). unfold permit_of.
  destruct (jr_state r) as [|l| | |] eqn:Hs; try done. destruct (jr_state r') as [|l'| | |] eqn:Hs'; try done.
  intros [= Hp] [= <-]. destruct (permit_layout_inj r r' l l') as [Hj Htok]; try done. eauto 10.
Qed.

(** The operation entry of a leased job carries its fence. *)
Lemma leased_fence m j r l :
  job_inv m j → record_at m j = Some r → jr_state r = Leased l → fence_at ns m j = ls_fence l.
Proof.
  intros Hi Hr Hl. pose proof (ji_op _ _ _ _ Hi) as Hop. rewrite Hr in Hop. cbn in Hop. rewrite Hl in Hop.
  destruct Hop as (e & id & He & (_ & _ & Hf & _)%decode_active_fence). unfold fence_at. by rewrite He.
Qed.

(** ** The change of a job *)

Inductive change w m' j : Prop :=
  | CH_same :
      m' !! JobK ns j = w_now w !! JobK ns j → m' !! OpK ns j = w_now w !! OpK ns j → change w m' j
  | CH_gone : m' !! JobK ns j = None → change w m' j
  | CH_next r r' :
      record_at (w_now w) j = Some r → record_at m' j = Some r' →
      jr_execution_id r' = jr_execution_id r → jr_revision r' = jr_revision r + 1 → change w m' j
  | CH_new r' : record_at m' j = Some r' → ¬ published w (jr_execution_id r') → change w m' j.

Definition permit_at m j : option bytes := record_at m j ≫= permit_of.

(** The fields a record's permit keys are made of. *)
Definition same_route r r' : Prop :=
  jr_queue r' = jr_queue r ∧ jr_fairness r' = jr_fairness r ∧ jr_ordering_key r' = jr_ordering_key r.

Inductive permit_change w m' j : Prop :=
  | PC_keep :
      permit_at m' j = permit_at (w_now w) j →
      (∀ r r', record_at (w_now w) j = Some r → record_at m' j = Some r' → same_route r r') →
      (∀ k, is_permit ns k → m' !! k = w_now w !! k) → permit_change w m' j
  | PC_take r' l' slot :
      record_at m' j = Some r' → jr_state r' = Leased l' → 0 ≤ slot < MAX_DURABLE_PERMIT_SLOTS →
      ¬ published w (ls_token l') → fence_at ns (w_now w) j < ls_fence l' →
      (∀ k, is_permit ns k → k ∈ slot_keys ns r' slot →
        m' !! k = permit_of r' ∧ (w_now w !! k = None ∨ w_now w !! k = permit_at (w_now w) j)) →
      (∀ k, is_permit ns k → k ∉ slot_keys ns r' slot →
        m' !! k = w_now w !! k ∧ (w_now w !! k = None ∨ w_now w !! k ≠ permit_at (w_now w) j)) →
      permit_change w m' j
  | PC_drop :
      permit_at m' j = None →
      (∀ k, is_permit ns k →
        m' !! k = if decide (w_now w !! k = permit_at (w_now w) j) then None else w_now w !! k) →
      permit_change w m' j.

Lemma slot_keys_route r r' slot : same_route r r' → slot_keys ns r' slot = slot_keys ns r slot.
Proof.
  intros (Hq & Hf & Ho). unfold slot_keys, scope_permit_keys, ordering_permit_keys. by rewrite Hq, Hf, Ho.
Qed.

(** ** The update *)

Section one.
Context (w : world) (m' : StoreMap) (j : JobId).
Context (Hv : valid_world ns sha256 w) (Hj : is_fixed_id j = true).
Context (Hframe : ∀ k j', key_job ns k = Some j' → j' ≠ j → m' !! k = w_now w !! k).
Context (Hinv : job_inv m' j) (Hchange : change w m' j).
Context (Hfence : fence_at ns (w_now w) j ≤ fence_at ns m' j).
Context (Hpermits : permit_change w m' j).
Let m := w_now w.

Lemma now_ok : state_ok m.
Proof. apply Hv. Qed.

Lemma now_inv j0 : is_fixed_id j0 = true → job_inv m j0.
Proof. apply now_ok. Qed.

Lemma new_inv j0 : is_fixed_id j0 = true → job_inv m' j0.
Proof.
  intros Hj0. destruct (decide (j0 = j)) as [->|Hne]; [done|].
  apply (job_inv_frame m); [done| |by apply now_inv]. intros k Hk. by eapply Hframe.
Qed.

Lemma other_entry j0 k : j0 ≠ j → key_job ns k = Some j0 → m' !! k = m !! k.
Proof. intros Hne Hk. by eapply Hframe. Qed.

Lemma other_record j0 : is_fixed_id j0 = true → j0 ≠ j → record_at m' j0 = record_at m j0.
Proof. intros H0 Hne. apply record_at_eq. apply (other_entry j0); [done|]. by apply key_job_JobK. Qed.

Lemma other_permit_old j0 r0 pv :
  is_fixed_id j0 = true → j0 ≠ j → record_at m j0 = Some r0 → permit_of r0 = Some pv → permit_at m j ≠ Some pv.
Proof.
  intros H0 Hne Hr Hp. unfold permit_at. destruct (record_at m j) as [r|] eqn:Hrj; [|done]. cbn. intros Hpj.
  destruct (permit_of_job m m j0 j r0 r pv) as [? _]; try done; by apply now_inv.
Qed.

Lemma other_permit_new j0 r0 pv :
  is_fixed_id j0 = true → j0 ≠ j → record_at m j0 = Some r0 → permit_of r0 = Some pv → permit_at m' j ≠ Some pv.
Proof.
  intros H0 Hne Hr Hp. unfold permit_at. destruct (record_at m' j) as [r|] eqn:Hrj; [|done]. cbn. intros Hpj.
  destruct (permit_of_job m m' j0 j r0 r pv) as [? _]; try done. by apply now_inv.
Qed.

(** The permits of the other jobs stay. *)
Lemma other_permits j0 r0 pv k :
  is_fixed_id j0 = true → j0 ≠ j → record_at m j0 = Some r0 → permit_of r0 = Some pv → is_permit ns k →
  m' !! k = Some pv ↔ m !! k = Some pv.
Proof.
  intros H0 Hne Hr Hp Hk. pose proof (other_permit_old _ _ _ H0 Hne Hr Hp) as Hold.
  pose proof (other_permit_new _ _ _ H0 Hne Hr Hp) as Hnew. unfold m in *.
  destruct Hpermits as [_ _ Hsame|r' l' slot Hr' Hs' _ _ _ Hin Hout|_ Hall].
  - by rewrite Hsame.
  - destruct (decide (k ∈ slot_keys ns r' slot)) as [Hki|Hki].
    + destruct (Hin k Hk Hki) as [-> Ho]. unfold permit_at in Hnew. rewrite Hr' in Hnew. cbn in Hnew.
      split; [done|]. intros He. destruct Ho as [Ho|Ho]; congruence.
    + by destruct (Hout k Hk Hki) as [-> _].
  - rewrite Hall by done. case_decide as He; [|done]. split; [done|]. intros Hx. congruence.
Qed.

Lemma new_permit k v :
  is_permit ns k → m' !! k = Some v →
  ∃ j0 r, is_fixed_id j0 = true ∧ record_at m' j0 = Some r ∧ permit_of r = Some v.
Proof.
  intros Hk Hkv.
  assert (m !! k = Some v ∧ permit_at m j ≠ Some v ∨ permit_at m' j = Some v) as [[Hm Hno]|Hnew].
  { unfold m. destruct Hpermits as [Hpp _ Hsame|r' l' slot Hr' Hs' _ _ _ Hin Hout|_ Hall].
    - rewrite Hsame in Hkv by done. rewrite Hpp. destruct (decide (permit_at (w_now w) j = Some v)); auto.
    - destruct (decide (k ∈ slot_keys ns r' slot)) as [Hki|Hki].
      + destruct (Hin k Hk Hki) as [Hp _]. right. unfold permit_at. rewrite Hr'. cbn. congruence.
      + destruct (Hout k Hk Hki) as [Hp Ho]. left. rewrite Hp in Hkv. split; [done|]. destruct Ho; congruence.
    - rewrite Hall in Hkv by done. case_decide as He; [done|]. left. split; [done|]. congruence. }
  - destruct (so_permit _ _ _ now_ok k v Hk Hm) as (j0 & r & H0 & Hr & Hp).
    destruct (decide (j0 = j)) as [->|Hne]; [exfalso; apply Hno; unfold permit_at; by rewrite Hr|].
    exists j0, r. rewrite other_record by done. done.
  - unfold permit_at in Hnew. destruct (record_at m' j) as [r|] eqn:Hr; [|done]. by exists j, r.
Qed.

Lemma new_slot j0 r pv :
  is_fixed_id j0 = true → record_at m' j0 = Some r → permit_of r = Some pv → ∃ slot, holds_slot ns m' r pv slot.
Proof.
  intros H0 Hr Hp. destruct (decide (j0 = j)) as [->|Hne]; last first.
  { rewrite other_record in Hr by done. destruct (so_slot _ _ _ now_ok j0 r pv H0 Hr Hp) as (slot & Hb & Hs).
    exists slot. split; [done|]. intros k Hk. rewrite <- Hs by done. by eapply other_permits. }
  destruct Hpermits as [Hpp Hroute Hsame|r' l' slot Hr' Hs' Hb Hpub _ Hin Hout|Hnone _].
  - unfold permit_at in Hpp. rewrite Hr in Hpp. cbn in Hpp. destruct (record_at (w_now w) j) as [r0|] eqn:Hr0; [|cbn in Hpp; congruence].
    cbn in Hpp. destruct (so_slot _ _ _ now_ok j r0 pv Hj Hr0) as (slot & Hb & Hs); [congruence|].
    exists slot. split; [done|]. intros k Hk. rewrite (slot_keys_route r0) by auto. rewrite <- Hs by done.
    unfold m. by rewrite Hsame.
  - assert (r' = r) as -> by congruence. exists slot. split; [done|]. intros k Hk. rewrite <- Hp.
    destruct (decide (k ∈ slot_keys ns r slot)) as [Hki|Hki].
    + destruct (Hin k Hk Hki) as [-> _]. done.
    + destruct (Hout k Hk Hki) as [-> Ho]. split; [|done]. intros Hx. exfalso.
      destruct (so_permit _ _ _ now_ok k pv Hk) as (j1 & r1 & H1 & Hr1 & Hp1); [unfold m; congruence|].
      destruct (permit_of_job m m' j1 j r1 r pv) as (-> & l & l0 & Hl & Hl0 & Ht); try done.
      { by apply now_inv. }
      apply Hpub. exists m. split; [left|]. exists j, r1. split_and!; try done. right. exists l. split; congruence.
  - unfold permit_at in Hnone. rewrite Hr in Hnone. cbn in Hnone. congruence.
Qed.

Lemma new_state_ok : state_ok m'.
Proof. split; [apply new_inv|apply new_permit|apply new_slot]. Qed.

Lemma past_follows m0 j0 : m0 ∈ states w → is_fixed_id j0 = true → follows ns m0 m j0.
Proof. intros Hm H0. apply (history_follows ns sha256 m0 m (w_past w) []); [apply Hv|done|done]. Qed.

Lemma past_inv m0 j0 : m0 ∈ states w → is_fixed_id j0 = true → job_inv m0 j0.
Proof. intros Hm H0. apply (history_in ns sha256 m0 (states w)); [apply Hv|done|done]. Qed.

Lemma other_succeeds j0 : is_fixed_id j0 = true → j0 ≠ j → succeeds ns m' (states w) j0.
Proof.
  intros H0 Hne. assert (m' !! JobK ns j0 = m !! JobK ns j0) as Hjob.
  { apply (other_entry j0); [done|]. by apply key_job_JobK. }
  assert (m' !! OpK ns j0 = m !! OpK ns j0) as Hop.
  { apply (other_entry j0); [done|]. by apply key_job_OpK. }
  pose proof (other_record _ H0 Hne) as Hrec. split.
  - intros m0 Hm. destruct (past_follows m0 j0 Hm H0) as [Hrev Hlock Hper Hfen Hlea]. split; rewrite ?Hrec, ?Hjob, ?Hop.
    + done.
    + done.
    + intros r0 r pv Hr0 Hr Hp0 Hp k Hk. rewrite (Hper r0 r pv) by done. symmetry. by eapply other_permits.
    + unfold fence_at. rewrite Hop. done.
    + done.
  - intros e m0 _ _ He. rewrite Hjob in He. unfold states. eauto.
Qed.

(** A changed record value was never seen before. *)
Lemma change_fresh m0 e :
  m0 ∈ states w → m0 !! JobK ns j = Some e → m' !! JobK ns j = Some e →
  m !! JobK ns j = Some e ∧ m' !! OpK ns j = m !! OpK ns j.
Proof.
  intros Hm H0 He. unfold m. destruct Hchange as [Hs Ho|Hg|r r' Hr Hr' Hx Hrev|r' Hr' Hpub].
  - split; congruence.
  - congruence.
  - exfalso. assert (record_at m0 j = Some r') as Hr0.
    { rewrite <- Hr'. apply record_at_eq. congruence. }
    pose proof (fo_revision _ _ _ _ (past_follows m0 j Hm Hj) r' r Hr0 Hr Hx). lia.
  - exfalso. apply Hpub. exists m0. split; [done|]. exists j, r'. split_and!; [done| |by left].
    rewrite <- Hr'. apply record_at_eq. congruence.
Qed.

Lemma own_revision m0 r0 r :
  m0 ∈ states w → record_at m0 j = Some r0 → record_at m' j = Some r →
  jr_execution_id r0 = jr_execution_id r → jr_revision r0 ≤ jr_revision r.
Proof.
  intros Hm Hr0 Hr Hx. pose proof (fo_revision _ _ _ _ (past_follows m0 j Hm Hj)) as Hrev.
  destruct Hchange as [Hs _|Hg|r1 r' Hr1 Hr' Hx' Hn|r' Hr' Hpub].
  - eapply Hrev; [done| |done]. rewrite <- Hr. apply record_at_eq. done.
  - apply record_at_none in Hg. congruence.
  - simplify_eq. specialize (Hrev r0 r1 Hr0 Hr1). rewrite <- Hx', Hx in Hrev. specialize (Hrev eq_refl). lia.
  - exfalso. apply Hpub. exists m0. split; [done|]. exists j, r0. split_and!; [done..|]. left. congruence.
Qed.

Lemma own_permits m0 r0 r pv k :
  m0 ∈ states w → record_at m0 j = Some r0 → record_at m' j = Some r →
  permit_of r0 = Some pv → permit_of r = Some pv → is_permit ns k → m0 !! k = Some pv ↔ m' !! k = Some pv.
Proof.
  intros Hm Hr0 Hr Hp0 Hp Hk.
  destruct Hpermits as [Hpp _ Hsame|r' l' slot Hr' Hs' _ Hpub _ _ _|Hnone _].
  - rewrite Hsame by done. unfold permit_at in Hpp. rewrite Hr in Hpp. cbn in Hpp.
    destruct (record_at (w_now w) j) as [r1|] eqn:Hr1; [|cbn in Hpp; congruence]. cbn in Hpp.
    apply (fo_permits _ _ _ _ (past_follows m0 j Hm Hj) r0 r1); try done. congruence.
  - exfalso. simplify_eq. destruct (permit_of_job m0 m' j j r0 r pv) as (_ & l & l1 & Hl & Hl1 & Ht); try done.
    { by apply past_inv. }
    apply Hpub. exists m0. split; [done|]. exists j, r0. split_and!; [done..|]. right. exists l. split; congruence.
  - unfold permit_at in Hnone. rewrite Hr in Hnone. cbn in Hnone. congruence.
Qed.

(** A new lease has a higher fence than any lease before it. *)
Lemma own_lease m0 r0 r l0 l :
  m0 ∈ states w → record_at m0 j = Some r0 → record_at m' j = Some r → jr_state r0 = Leased l0 →
  jr_state r = Leased l → ls_token l0 = ls_token l ∨ ls_fence l0 < ls_fence l.
Proof.
  intros Hm Hr0 Hr Hl0 Hl. pose proof (past_follows m0 j Hm Hj) as Hf.
  pose proof (leased_fence m0 j r0 l0 (past_inv m0 j Hm Hj) Hr0 Hl0) as Hf0.
  destruct Hpermits as [Hpp _ _|r' l' slot Hr' Hs' _ _ Hlt _ _|Hnone _].
  - unfold permit_at in Hpp. rewrite Hr in Hpp. destruct (record_at (w_now w) j) as [r1|] eqn:Hr1.
    2:{ cbn in Hpp. unfold permit_of in Hpp. by rewrite Hl in Hpp. }
    cbn in Hpp. destruct (permit_of r) as [pv|] eqn:Hpv; [|unfold permit_of in Hpv; by rewrite Hl in Hpv].
    destruct (permit_of_job m' m j j r r1 pv) as (_ & l2 & l1 & Hl2 & Hl1 & Ht); try done; [by apply now_inv|].
    assert (l2 = l) as -> by congruence. rewrite Ht.
    destruct (fo_lease _ _ _ _ Hf r0 r1 l0 l1) as [?|Hlt]; try done; [by left|right].
    pose proof (leased_fence m j r1 l1 (now_inv j Hj) Hr1 Hl1). pose proof (leased_fence m' j r l Hinv Hr Hl). unfold m in *. lia.
  - assert (l' = l) as -> by congruence. right. pose proof (fo_fence _ _ _ _ Hf). unfold m in *. lia.
  - unfold permit_at, permit_of in Hnone. rewrite Hr in Hnone. cbn in Hnone. by rewrite Hl in Hnone.
Qed.

Lemma own_succeeds : succeeds ns m' (states w) j.
Proof.
  split.
  - intros m0 Hm. pose proof (past_follows m0 j Hm Hj) as Hf. split.
    + intros r0 r. by apply own_revision.
    + intros e H0 He. destruct (change_fresh m0 e Hm H0 He) as [Hme Hop]. rewrite Hop.
      by apply (fo_operation _ _ _ _ Hf e).
    + intros r0 r pv Hr0 Hr Hp0 Hp k Hk. by eapply own_permits.
    + pose proof (fo_fence _ _ _ _ Hf). unfold m in *. lia.
    + intros r0 r l0 l. by apply own_lease.
  - intros e m0 Hm H0 He. destruct (change_fresh m0 e Hm H0 He) as [Hme _]. unfold states. eauto.
Qed.

Lemma good_update : good_state ns sha256 w m'.
Proof.
  split; [apply Hv|]. split; [apply new_state_ok|]. intros j0 H0.
  destruct (decide (j0 = j)) as [->|Hne]; [apply own_succeeds|by apply other_succeeds].
Qed.

(** Identifiers that become visible are those of the new record. *)
Lemma visible_update id :
  visible_id ns m' id →
  published w id ∨ ∃ r, record_at m' j = Some r ∧
    (jr_execution_id r = id ∨ ∃ l, jr_state r = Leased l ∧ ls_token l = id).
Proof.
  intros (j0 & r & H0 & Hr & Hid). destruct (decide (j0 = j)) as [->|Hne]; [eauto|]. left.
  exists m. split; [left|]. exists j0, r. rewrite other_record in Hr by done. done.
Qed.
End one.
End update.
