(* ===== verification/Protocol.v ===== *)
(** * The commit protocol

    Program proofs shared by every operation of the engine: programs that only
    read ([quiet]), the wake watermark, checked transactions, and
    [commit_transition] with its reconciliation of unknown outcomes and its
    refresh of a conflicting wake. *)

From S2P Require Import Prelude Errors Ids Clock Policy JobRecord Wire KeyCodec ValueCodec JobCodec.
From S2P Require Import JobRoundtrip OperationCodec Keyspace Store Prog Logic System Transition Claim.
From S2P Require Import Refs Invariant Update.

(** ** The results of a program *)

Fixpoint leaves {E A : Type} (P : A → Prop) (p : prog E A) : Prop :=
  match p with Ret a => P a | Vis o k => ∀ x, leaves P (k x) end.

Lemma leaves_bind {E A B} (P : A → Prop) (Q : B → Prop) (p : prog E A) (k : A → prog E B) :
  leaves P p → (∀ a, P a → leaves Q (k a)) → leaves Q (prog_bind p k).
Proof. intros Hp Hk. induction p as [a|X o k' IH]; cbn in *; auto. Qed.

Lemma leaves_true {E A} (p : prog E A) : leaves (λ _, True) p.
Proof. induction p; cbn; auto. Qed.

(** The same for programs that fail: only successes count. *)
Definition on_ok {E A : Type} (P : A → Prop) (x : result E A) : Prop :=
  match x with Ok a => P a | Err _ => True end.
Definition outcomes {E A : Type} (P : A → Prop) (p : job E A) : Prop := leaves (on_ok P) p.

Lemma outcomes_bind {E A B} (P : A → Prop) (Q : B → Prop) (p : job E A) (k : A → job E B) :
  outcomes P p → (∀ a, P a → outcomes Q (k a)) → outcomes Q (p ≫= k).
Proof. intros Hp Hk. eapply leaves_bind; [exact Hp|]. intros [a|e] Ha; [by apply Hk|done]. Qed.

Lemma leaves_ok {E A} (p : job E A) : outcomes (λ _, True) p.
Proof. unfold outcomes. induction p as [[a|e]|X o k IH]; cbn; auto. Qed.

Lemma outcomes_any {E A B} (Q : B → Prop) (p : job E A) (k : A → job E B) :
  (∀ a, outcomes Q (k a)) → outcomes Q (p ≫= k).
Proof. intros Hk. eapply leaves_bind; [apply leaves_true|]. intros [a|e] _; [apply Hk|done]. Qed.

Lemma outcomes_try {E F A B} `{!IntoJobError F E} (Q : B → Prop) (x : result F A) (k : A → job E B) :
  (∀ a, x = Ok a → outcomes Q (k a)) → outcomes Q (try_ x ≫= k).
Proof. intros Hk. destruct x; [by apply Hk|done]. Qed.

Lemma outcomes_last {E F A} `{!IntoJobError F E} (Q : A → Prop) (x : result F A) :
  (∀ a, x = Ok a → Q a) → outcomes (E := E) Q (try_ x).
Proof. intros Hk. destruct x; [by apply Hk|done]. Qed.

(** ** Programs that only read *)

Section quiet.
Context {E : Type}.

Lemma quiet_try {F A} `{!IntoJobError F E} (x : result F A) : quiet (try_ (E := E) x).
Proof. done. Qed.
Lemma quiet_mret {A} (a : A) : quiet (mret a : job E A).
Proof. done. Qed.
Lemma quiet_fail {A} e : quiet (fail e : job E A).
Proof. done. Qed.
Lemma quiet_get k : quiet (store_get (E := E) k).
Proof. done. Qed.
Lemma quiet_get_many ks : quiet (store_get_many (E := E) ks).
Proof. done. Qed.
Lemma quiet_read_range request : quiet (store_read_range (E := E) request).
Proof. done. Qed.
Lemma quiet_ambient {X} (a : ambient X) : quiet (ambient_ (E := E) a).
Proof. done. Qed.
Lemma quiet_job_bind {A B} (p : job E A) (k : A → job E B) :
  quiet p → (∀ a, quiet (k a)) → quiet (p ≫= k).
Proof. intros Hp Hk. apply quiet_bind; [done|]. intros [a|e]; [apply Hk|done]. Qed.

Lemma quiet_join {A B} (p : prog E A) (q : prog E B) : quiet p → quiet q → quiet (join p q).
Proof.
  revert q. induction p as [a|X o k IH]; intros q Hp Hq; [by apply quiet_bind|]. cbn [join].
  induction q as [b|Y o' k' IHq].
  - destruct Hp as [Ho Hp]. split; [done|]. intros x. apply quiet_bind; [apply Hp|done].
  - destruct Hp as [Ho Hp]. destruct Hq as [Ho' Hq]. split; [done|]. intros [|].
    + split; [done|]. intros x. apply IH; [done|by split].
    + split; [done|]. intros x. by apply IHq.
Qed.

Lemma quiet_read_many system keys : quiet (read_many (E := E) system keys).
Proof. apply quiet_job_bind; [done|]. intros _. by destruct keys. Qed.
End quiet.

Create HintDb quiet.
#[export] Hint Resolve quiet_try quiet_mret quiet_fail quiet_get quiet_get_many quiet_read_range
  quiet_ambient quiet_read_many quiet_join : quiet.

(** Shows a program to be quiet, by its structure. *)
Ltac quiet :=
  repeat first
    [ progress auto with quiet
    | apply quiet_job_bind; [|intro]
    | match goal with
      | |- quiet (match ?x with _ => _ end) => destruct x
      | |- quiet (if ?x then _ else _) => destruct x
      end ].

Lemma quiet_scan_due {E} system prefix end_ skip include n scan :
  quiet (scan_due_pages (E := E) system prefix end_ skip include n scan).
Proof.
  revert scan. induction n as [|n IH]; intros scan; cbn [scan_due_pages]; [done|].
  destruct (DuePageScan_limits _ _); [|done]. apply quiet_job_bind; [by unfold read_due_page; quiet|].
  intros page. destruct (negb _); [done|]. destruct (DuePageScan_accept _ _ _ _ _) as [scan' []]; [apply IH|done].
Qed.
#[export] Hint Resolve quiet_scan_due : quiet.

Lemma quiet_next_due {E} system queue skip include : quiet (next_due (E := E) system queue skip include).
Proof. unfold next_due. quiet. Qed.
#[export] Hint Resolve quiet_next_due : quiet.

Lemma quiet_wake_mutation {E} system queue skip include ms :
  quiet (wake_mutation (E := E) system queue skip include ms).
Proof.
  unfold wake_mutation, join_wake_and_due. apply quiet_job_bind; [done|]. intros k.
  apply quiet_job_bind; [|intros [current due]; quiet].
  apply quiet_bind; [apply quiet_join; [done|auto with quiet]|]. intros [wake due]. quiet.
Qed.
#[export] Hint Resolve quiet_wake_mutation : quiet.

(** ** Wake entries *)

(** Mutations and checks with the entries of the wake watermark left out. *)
Definition plain (ns : Namespace) (mu : Mutation) : bool := negb (bool_decide (is_wake ns (Mutation_key mu))).
Definition core (ns : Namespace) (ms : list Mutation) : list Mutation := List.filter (plain ns) ms.

(** [ms'] and [checks'] add wake entries to [ms] and [checks]. *)
Record wake_ext (ns : Namespace) (checks : list Check) (ms : list Mutation) (checks' : list Check)
    (ms' : list Mutation) : Prop := {
  we_checks c : c ∈ checks → ¬ is_wake ns (Check_key c) → c ∈ checks';
  we_core : core ns ms' = core ns ms;
}.

Lemma core_app ns a b : core ns (a ++ b) = core ns a ++ core ns b.
Proof. apply List.filter_app. Qed.

Lemma core_wake ns ms : Forall (λ mu, is_wake ns (Mutation_key mu)) ms → core ns ms = [].
Proof.
  induction 1 as [|mu ms Hm _ IH]; [done|]. unfold core. cbn. unfold plain at 1.
  rewrite bool_decide_true by done. done.
Qed.

Lemma wake_apply_spec ns k current update ms ms' chk :
  is_wake ns k → wake_apply k current update ms = Ok (ms', chk) →
  core ns ms' = core ns ms ∧ ∀ c, chk = Some c → Check_key c = k.
Proof.
  intros Hk. unfold wake_apply. intros Ha. invert_ok.
  assert (∀ mu, Mutation_key mu = k → core ns (ms ++ [mu]) = core ns ms) as Hc.
  { intros mu Hmu. rewrite core_app, (core_wake ns [mu]), app_nil_r; [done|].
    constructor; [|constructor]. by rewrite Hmu. }
  repeat (case_match; invert_ok; simplify_eq; try done);
    (split; [first [done|by apply Hc]|intros ? [= <-]; done]).
Qed.

Lemma wake_mutation_outcomes {E} ns system queue skip include ms :
  is_opaque MAX_NAMESPACE_BYTES ns = true → sys_namespace system = ns → is_text MAX_NAME_BYTES queue = true →
  outcomes (λ '(ms', chk), core ns ms' = core ns ms ∧ ∀ c : Check, chk = Some c → is_wake ns (Check_key c))
    (wake_mutation (E := E) system queue skip include ms).
Proof.
  intros Hns Hs Hq. unfold wake_mutation. rewrite Hs, wake_key_Ok by done. apply outcomes_try. intros k [= <-].
  apply outcomes_any. intros [current due]. apply outcomes_try. intros current_time _. apply outcomes_last.
  intros [ms' chk] Ha. assert (is_wake ns (WakeK ns queue)) as Hk.
  { unfold is_wake, key_tag. by rewrite parse_WakeK. }
  apply (wake_apply_spec ns) in Ha as [Hc Hck]; [|done]. split; [done|]. intros c Hx. by rewrite (Hck c Hx).
Qed.

(** ** Wake entries do not matter *)

(** What the types of the fields of [JobSystem] say, for a system of the
    namespace [ns] that digests with [sha256]. *)
Record system_ok (ns : Namespace) (sha256 : bytes → bytes) (system : JobSystem) : Prop := {
  sk_namespace : sys_namespace system = ns;
  sk_sha256 : sys_sha256 system = sha256;
  sk_owner : is_fixed_id (sys_owner system) = true;
  sk_key_bytes : cap_max_key_bytes (sys_capabilities system) ≤ USIZE_MAX;
  sk_range : 0 < cap_max_range_items (sys_capabilities system) ∧ 0 < cap_max_range_bytes (sys_capabilities system);
  sk_registry kind version d :
    HandlerRegistry_get_ref (sys_registry system) kind version = Some d → is_registration d = true;
}.

Section protocol.
Context (ns : Namespace) (sha256 : bytes → bytes) (Hns : is_opaque MAX_NAMESPACE_BYTES ns = true).
#[local] Instance disc : Discipline := engine_discipline ns sha256.
Implicit Types m : StoreMap.
Implicit Types j : JobId.
Implicit Types w : world.
Implicit Types mine ids : gset bytes.
Implicit Types ms : list Mutation.
Implicit Types checks : list Check.

Definition agree m m' : Prop := ∀ k, ¬ is_wake ns k → m' !! k = m !! k.

Lemma key_job_not_wake k j : key_job ns k = Some j → ¬ is_wake ns k.
Proof.
  unfold key_job, is_wake, key_tag. destruct (parse ns k) as [[tag cs]|]; [|done]. cbn. intros Hj [= ->]. done.
Qed.
Lemma permit_not_wake k : is_permit ns k → ¬ is_wake ns k.
Proof. unfold is_permit, is_wake. congruence. Qed.

(** The entries of jobs and the permits are the same. *)
Definition same_jobs m m' : Prop := ∀ k, (∃ j, key_job ns k = Some j) ∨ is_permit ns k → m' !! k = m !! k.

Lemma agree_same_jobs m m' : agree m m' → same_jobs m m'.
Proof. intros Ha k [[j Hk]|Hk]; apply Ha; [by eapply key_job_not_wake|by apply permit_not_wake]. Qed.

Lemma agree_job m m' j : same_jobs m m' → is_fixed_id j = true → m' !! JobK ns j = m !! JobK ns j.
Proof. intros Ha Hj. apply Ha. left. exists j. by apply key_job_JobK. Qed.
Lemma agree_op m m' j : same_jobs m m' → is_fixed_id j = true → m' !! OpK ns j = m !! OpK ns j.
Proof. intros Ha Hj. apply Ha. left. exists j. by apply key_job_OpK. Qed.
Lemma agree_record m m' j : same_jobs m m' → is_fixed_id j = true → record_at ns m' j = record_at ns m j.
Proof. intros. apply record_at_eq. by apply agree_job. Qed.
Lemma agree_permit m m' k : same_jobs m m' → is_permit ns k → m' !! k = m !! k.
Proof. intros Ha Hk. apply Ha. by right. Qed.

Lemma state_ok_agree m m' : same_jobs m m' → state_ok ns sha256 m → state_ok ns sha256 m'.
Proof.
  intros Ha [Hj Hp Hs]. split.
  - intros j Hf. apply (job_inv_frame ns sha256 Hns m); [done| |auto]. intros k Hk. apply Ha. left. by exists j.
  - intros k v Hk. rewrite (agree_permit m m') by done. intros Hv. destruct (Hp k v Hk Hv) as (j & r & Hf & Hr & Hpv).
    exists j, r. by rewrite (agree_record m m').
  - intros j r pv Hf. rewrite (agree_record m m') by done. intros Hr Hpv.
    destruct (Hs j r pv Hf Hr Hpv) as (slot & Hb & Hh). exists slot. split; [done|]. intros k Hk.
    rewrite (agree_permit m m') by done. auto.
Qed.

Lemma succeeds_agree m m' past j :
  same_jobs m m' → is_fixed_id j = true → succeeds ns m past j → succeeds ns m' past j.
Proof.
  intros Ha Hf [Hfo Hn]. split.
  - intros m0 Hm. destruct (Hfo m0 Hm) as [Hrev Hop Hper Hfe Hlea]. split.
    + intros r0 r. rewrite (agree_record m m') by done. auto.
    + intros e. rewrite (agree_job m m'), (agree_op m m') by done. apply Hop.
    + intros r0 r pv. rewrite (agree_record m m') by done. intros H1 H2 H3 H4 k Hk.
      rewrite (agree_permit m m') by done. by apply (Hper r0 r).
    + unfold fence_at. by rewrite (agree_op m m').
    + intros r0 r l0 l. rewrite (agree_record m m') by done. apply Hlea.
  - intros e m0. rewrite (agree_job m m') by done. apply Hn.
Qed.

Lemma good_agree w m m' : same_jobs m m' → good_state ns sha256 w m → good_state ns sha256 w m'.
Proof.
  intros Ha (Hh & Hs & Hj). split; [done|]. split; [by apply (state_ok_agree m)|]. intros j Hf.
  apply (succeeds_agree m); auto.
Qed.

Lemma visible_agree m m' id : same_jobs m m' → visible_id ns m' id → visible_id ns m id.
Proof. intros Ha (j & r & Hf & Hr & Hid). exists j, r. by rewrite <- (agree_record m m'). Qed.

Lemma core_agree m ms ms' :
  core ns ms = core ns ms' → agree (apply_mutations m ms) (apply_mutations m ms').
Proof.
  assert (∀ l m0 k, ¬ is_wake ns k → apply_mutations m0 l !! k = apply_mutations m0 (core ns l) !! k) as Hcore.
  { assert (∀ l m1 m2, agree m1 m2 → agree (apply_mutations m1 l) (apply_mutations m2 l)) as Hmono.
    { induction l as [|mu l IH]; intros m1 m2 Ha; [done|]. rewrite !apply_mutations_cons. apply IH.
      intros k Hk. destruct mu as [k' v|k']; cbn.
      - destruct (decide (k' = k)) as [->|]; [by rewrite !lookup_insert_eq|rewrite !lookup_insert_ne by done; auto].
      - destruct (decide (k' = k)) as [->|]; [by rewrite !lookup_delete_eq|rewrite !lookup_delete_ne by done; auto]. }
    induction l as [|mu l IH]; intros m0 k Hk; [done|]. unfold core. cbn. fold (core ns l). unfold plain at 1.
    case_bool_decide as Hw; cbn; rewrite !apply_mutations_cons.
    - rewrite <- (IH m0 k Hk). apply Hmono; [|done]. intros k' Hk'.
      destruct mu as [k2 v|k2]; cbn in *; [rewrite lookup_insert_ne|rewrite lookup_delete_ne]; congruence.
    - by apply IH. }
  intros Hc k Hk. rewrite (Hcore ms' m k Hk), (Hcore ms m k Hk). by rewrite Hc.
Qed.

(** ** Safe transactions *)

(** Wherever the checks hold, from now on, the mutations keep the invariant
    and show no identifier but those of [ids].  A checked transaction names no
    key twice. *)
Definition step_safe ids w checks ms : Prop :=
  ∀ w', extends ids w w' → checks_match (w_now w') checks = true → NoDup (Mutation_key <$> ms) →
    good_state ns sha256 w' (apply_mutations (w_now w') ms) ∧
    ∀ id, visible_id ns (apply_mutations (w_now w') ms) id → published w' id ∨ id ∈ ids.

Lemma step_safe_extends ids w w' checks ms :
  extends ids w w' → step_safe ids w checks ms → step_safe ids w' checks ms.
Proof. intros He Hs w'' He'. apply Hs. by eapply extends_trans. Qed.

(** Entries that are no job's and no permits do not matter. *)
Lemma foreign_safe ids w checks ms :
  Forall (λ mu, key_job ns (Mutation_key mu) = None ∧ ¬ is_permit ns (Mutation_key mu)) ms → step_safe ids w checks ms.
Proof.
  intros Hms w' He _ _. pose proof (ex_valid _ _ _ He) as [Hh _ _ _].
  assert (same_jobs (w_now w') (apply_mutations (w_now w') ms)) as Ha.
  { intros k Hk. apply lookup_apply_mutations_ne. intros Hin. apply list_elem_of_fmap in Hin as (mu & -> & Hin).
    rewrite Forall_forall in Hms. destruct (Hms mu Hin) as [Hj Hp]. destruct Hk as [[j Hk]|Hk]; congruence. }
  split; [eapply good_agree; [exact Ha|]; by apply history_idle|].
  intros id Hid. left. exists (w_now w'). split; [apply list_elem_of_here|]. by eapply visible_agree.
Qed.

(** The wake left out. *)
Definition no_wake checks ms : Prop :=
  Forall (λ c, ¬ is_wake ns (Check_key c)) checks ∧ Forall (λ mu, ¬ is_wake ns (Mutation_key mu)) ms.

Lemma core_plain ms : Forall (λ mu, ¬ is_wake ns (Mutation_key mu)) ms → core ns ms = ms.
Proof.
  induction 1 as [|mu ms Hm _ IH]; [done|]. unfold core. cbn. unfold plain at 1.
  rewrite bool_decide_false by done. cbn. f_equal. apply IH.
Qed.

Lemma core_nodup ms : NoDup (Mutation_key <$> ms) → NoDup (Mutation_key <$> core ns ms).
Proof.
  induction ms as [|mu ms IH]; [done|]. cbn. intros [Hn Hd]%NoDup_cons. unfold core. cbn. fold (core ns ms).
  destruct (plain ns mu); [|auto]. cbn. constructor; [|auto]. intros Hin. apply Hn.
  apply list_elem_of_fmap in Hin as (mu' & -> & Hin). apply list_elem_of_fmap. exists mu'. split; [done|].
  apply list_elem_of_In, List.filter_In in Hin as [Hin _]. by apply list_elem_of_In.
Qed.

Lemma step_safe_ext ids w checks ms checks' ms' :
  no_wake checks ms → wake_ext ns checks ms checks' ms' → NoDup (Mutation_key <$> ms') →
  step_safe ids w checks ms → tx_safe ids w checks' ms'.
Proof.
  intros [Hnc Hnm] [Hc Hm] Hnd Hs w' He Hch. rewrite (core_plain ms) in Hm by done.
  destruct (Hs w' He) as [Hg Hv].
  - eapply checks_match_sub; [|exact Hch]. intros c Hin. apply Hc; [done|].
    rewrite Forall_forall in Hnc. auto.
  - rewrite <- Hm. by apply core_nodup.
  - assert (agree (apply_mutations (w_now w') ms) (apply_mutations (w_now w') ms')) as Ha.
    { apply core_agree. by rewrite Hm, core_plain. }
    apply agree_same_jobs in Ha. split; [by eapply good_agree|]. intros id Hid. apply Hv. by eapply visible_agree.
Qed.

(** A transaction ready to be committed: its identifier is fresh, and what it
    does besides the wake is safe. *)
Record tx_good ids mine w (tx : StoreTransaction) checks ms : Prop := {
  tg_owned : tx_owned ids mine w tx;
  tg_fresh : w_ledger w !! tx_operation_id tx = None;
  tg_safe : step_safe ids w checks ms;
  tg_no_wake : no_wake checks ms;
  tg_ext : wake_ext ns checks ms (tx_checks tx) (tx_mutations tx);
  tg_nodup : NoDup (Mutation_key <$> tx_mutations tx);
  tg_len : Forall (λ c, len (Check_key c) ≤ USIZE_MAX) (tx_checks tx);
}.

Lemma max_Z_le x l : x ∈ l → x ≤ max_Z l.
Proof.
  unfold max_Z. induction l as [|y l IH]; [by intros ?%not_elem_of_nil|]. cbn.
  intros [->|Hx]%elem_of_cons; [lia|]. specialize (IH Hx). lia.
Qed.

Lemma check_keys_len caps input :
  cap_max_key_bytes caps ≤ USIZE_MAX → validate_transaction caps (accepted_transaction input) = Ok tt →
  Forall (λ c, len (Check_key c) ≤ USIZE_MAX) (ti_checks input).
Proof.
  intros Hc Hv. apply Forall_forall. intros c Hin. etrans; [|exact Hc].
  assert (max_key_bytes input ≤ cap_max_key_bytes caps) as Hm.
  { unfold validate_transaction in Hv. repeat (case_match; [done|]). cbn in *. lia. }
  etrans; [|exact Hm]. apply max_Z_le. apply elem_of_app. left. apply list_elem_of_fmap. by exists c.
Qed.

Section rules.
Context {E : Type} (system : JobSystem) (Hsys : system_ok ns sha256 system).

Lemma wpj_quiet {A} mine w (p : job E A) (P : A → Prop) :
  valid w → quiet p → outcomes P p →
  wpj mine w p (λ a mine' w', mine' = mine ∧ extends mine w w' ∧ P a).
Proof.
  intros Hv. revert w Hv. induction p as [x|X o k IH]; intros w Hv Hq Hl.
  - intros w' He. destruct x; [|done]. split; [done|]. split; [done|]. apply Hl.
  - intros w1 He x mine' w2 Ho. destruct Hq as [Hr Hq].
    destruct (read_only_effect _ _ _ _ _ _ Hr Ho) as [-> ->]. pose proof (ex_valid _ _ _ He) as Hv1.
    split; [by apply step_ok_refl|]. eapply wpj_mono; [apply (IH x); [done|apply Hq|apply Hl]|].
    intros a mine' w' _ (-> & He' & HP). split; [done|]. split; [|done].
    by eapply extends_trans.
Qed.

Lemma wpj_quiet_bind {A B} mine w (p : job E A) (k : A → job E B) (P : A → Prop) Φ :
  quiet p → outcomes P p →
  (∀ a w', extends mine w w' → P a → wpj mine w' (k a) Φ) → wpj mine w (p ≫= k) Φ.
Proof.
  intros Hq Hl Hk. apply wpj_bind. apply wp_valid. intros w0 He0 Hv. eapply wpj_mono; [by apply wpj_quiet|].
  intros a mine' w' _ (-> & He & HP). apply Hk; [|done]. by eapply extends_trans.
Qed.

Lemma wpj_checked_last checks ms ids mine w checks0 ms0
    (Φ : StoreTransaction → gset bytes → world → Prop) :
  ids ⊆ mine → ids ⊆ w_ids w → no_wake checks0 ms0 → wake_ext ns checks0 ms0 checks ms →
  step_safe ids w checks0 ms0 →
  (∀ tx mine' w', mine ⊆ mine' → extends mine w w' → tx_good ids mine' w' tx checks0 ms0 → Φ tx mine' w') →
  wpj mine w (checked_transaction (E := E) system checks ms) Φ.
Proof.
  intros Hi Hd Hnw Hext Hs HΦ. unfold checked_transaction. apply wpj_generate. intros w1 id He Hf Hn.
  apply wpj_try. intros tx [-> Hok]%StoreTransaction_try_from_Ok. apply wpj_try. intros [] Hcap.
  apply wpj_ret. intros w2 He2. pose proof (ex_valid _ _ _ He) as Hv.
  assert (extends mine (draw w1 id) w2) as He2' by (eapply extends_weaken; [|exact He2]; set_solver).
  assert (extends mine w w2) as Hw2.
  { eapply extends_trans; [exact He|]. eapply extends_trans; [by apply extends_draw|done]. }
  apply HΦ; [set_solver|done|]. split; cbn.
  - split; cbn; [set_solver| | |set_solver|].
    + eapply (ex_ids _ _ _ He2). cbn. set_solver.
    + intros Hin. apply Hn. apply (ex_ids _ _ _ He). set_solver.
    + etrans; [exact Hd|]. apply (ex_ids _ _ _ Hw2).
  - eapply (ex_uncommitted _ _ _ He2); [set_solver|]. by apply fresh_hidden.
  - apply (step_safe_extends ids w); [by apply (extends_weaken mine)|done].
  - done.
  - done.
  - apply Hok.
  - by apply check_keys_len in Hcap; [|apply Hsys].
Qed.

Lemma tx_good_extends ids mine w w' tx checks ms :
  extends mine w w' → tx_good ids mine w tx checks ms → tx_good ids mine w' tx checks ms.
Proof.
  intros He [Ho Hf Hs Hn Hx Hd Hl]. split; try done.
  - by eapply tx_owned_extends.
  - eapply (ex_uncommitted _ _ _ He); [apply Ho|done].
  - apply (step_safe_extends ids w); [|done]. apply (extends_weaken mine); [apply Ho|done].
Qed.

(** ** Reconciled commits *)

(** What is known when a commit is reported done: the transaction was applied
    to a state in which its checks held, or nothing of this process became
    visible and the probed entry has its new value. *)
Definition was_applied w checks ms : Prop :=
  ∃ m m', m ∈ states w ∧ m' ∈ states w ∧ checks_match m checks = true ∧
    NoDup (Mutation_key <$> ms) ∧ agree (apply_mutations m ms) m'.
Definition reached ids w checks ms (key : StoreKey) (new : option bytes) w' : Prop :=
  was_applied w' checks ms ∨ (extends ids w w' ∧ ∃ m, m ∈ states w' ∧ m !! key = new).

Lemma was_applied_extends mine w w' checks ms :
  extends mine w w' → was_applied w checks ms → was_applied w' checks ms.
Proof.
  intros He (m & m' & Hm & Hm' & Hr). exists m, m'. split; [by eapply extends_state|].
  split; [by eapply extends_state|done].
Qed.

Lemma applied_core w tx checks ms :
  no_wake checks ms → wake_ext ns checks ms (tx_checks tx) (tx_mutations tx) →
  NoDup (Mutation_key <$> tx_mutations tx) → applied w tx → was_applied w checks ms.
Proof.
  intros [Hnc Hnm] [Hc Hm] Hnd (m & Hin & Hin' & Hch). rewrite (core_plain ms) in Hm by done.
  exists m, (apply_mutations m (tx_mutations tx)). split_and!; try done.
  - eapply checks_match_sub; [|exact Hch]. intros c Hx. apply Hc; [done|]. rewrite Forall_forall in Hnc. auto.
  - rewrite <- Hm. by apply core_nodup.
  - apply core_agree. by rewrite Hm, core_plain.
Qed.

(** The transaction [tx] of this process took effect, or nothing of it is
    visible since [w0]. *)
Record pending ids mine w0 w tx checks ms : Prop := {
  pe_owned : tx_owned ids mine w tx;
  pe_no_wake : no_wake checks ms;
  pe_safe : step_safe ids w0 checks ms;
  pe_ext : wake_ext ns checks ms (tx_checks tx) (tx_mutations tx);
  pe_nodup : NoDup (Mutation_key <$> tx_mutations tx);
  pe_hidden : w_ledger w !! tx_operation_id tx = Some (tx, Committed) ∨ extends ids w0 w;
}.

Lemma pending_extends ids mine w0 w w' tx checks ms :
  extends mine w w' → pending ids mine w0 w tx checks ms → pending ids mine w0 w' tx checks ms.
Proof.
  intros He [Ho Hn Hs Hx Hd Hw]. split; try done; [by eapply tx_owned_extends|].
  destruct Hw as [Hl|Hw]; [left; by apply (ex_ledger _ _ _ He)|right].
  eapply extends_trans; [exact Hw|]. eapply extends_weaken; [apply Ho|done].
Qed.

Lemma pending_applied ids mine w0 w tx checks ms :
  valid w → pending ids mine w0 w tx checks ms →
  w_ledger w !! tx_operation_id tx = Some (tx, Committed) → was_applied w checks ms.
Proof. intros Hv [_ Hn _ Hx Hd _] Hl. eapply applied_core; [done..|]. by apply committed_applied. Qed.

(** What is known of a pending transaction when its entry is as wanted. *)
Lemma pending_reached ids mine w0 w tx checks ms key new m :
  valid w → pending ids mine w0 w tx checks ms → m ∈ states w → m !! key = new →
  reached ids w0 checks ms key new w.
Proof.
  intros Hv Hp Hm Hk. destruct (pe_hidden _ _ _ _ _ _ _ Hp) as [Hl|He]; [left; by eapply pending_applied|].
  right. split; [done|]. by exists m.
Qed.

(** One commit. *)
Lemma wpj_store_commit {A} ids mine w0 w tx checks ms (k : CommitOutcome → job E A) Φ :
  pending ids mine w0 w tx checks ms →
  (∀ outcome w', extends ∅ w w' → pending ids mine w0 w' tx checks ms →
     (outcome = Committed → was_applied w' checks ms) → (outcome = Conflict → extends ids w0 w') →
     wpj mine w' (k outcome) Φ) →
  wpj mine w (store_commit tx ≫= k) Φ.
Proof.
  intros Hp Hk. pose proof Hp as [Ho Hnw Hs Hx Hnd Hw]. apply wpj_bind, wp_bind. eapply wp_mono.
  { apply (wp_commit ids); [done|]. intros Hl. destruct Hw as [Hw|Hw]; [congruence|].
    eapply (step_safe_ext ids w); [done..|]. by eapply step_safe_extends. }
  intros x mine1 w1 Hv1 (-> & He & Hne & Hc & Hf). apply wp_ret. intros w2 He2. destruct x as [outcome|e]; [|done].
  pose proof (ex_valid _ _ _ He2) as Hv2.
  assert (pending ids mine w0 w1 tx checks ms) as Hp1.
  { split; try done; [by eapply tx_owned_extends|].
    destruct (decide (w_ledger w1 !! tx_operation_id tx = Some (tx, Committed))) as [Hl|Hl]; [by left|].
    specialize (Hne Hl). destruct Hw as [Hw|Hw]; [by apply (ex_ledger _ _ _ He) in Hw|].
    right. by eapply extends_trans. }
  apply (pending_extends ids mine w0 w1 w2) in Hp1; [|done]. cbn [map_err]. apply Hk; [|done|..].
  - eapply extends_trans; [exact He|]. eapply extends_weaken; [|exact He2]. set_solver.
  - intros ->. eapply pending_applied; [done..|]. apply (ex_ledger _ _ _ He2). by apply Hc.
  - intros ->. destruct (pe_hidden _ _ _ _ _ _ _ Hp1) as [Hl|Hh]; [|done].
    exfalso. specialize (Hf eq_refl). apply (ex_ledger _ _ _ He2) in Hf. congruence.
Qed.

Lemma wpj_commit_attempts ids mine w0 w tx checks ms key old new attempt n :
  pending ids mine w0 w tx checks ms →
  wpj mine w (commit_attempts (E := E) tx (mkTransitionProbe key old new) attempt n)
    (λ b mine' w', mine' = mine ∧ extends ∅ w w' ∧
       if b : bool then reached ids w0 checks ms key new w' else extends ids w0 w').
Proof.
  revert attempt w. induction n as [|n IH]; intros attempt w Hp; [done|].
  assert (∀ w1 w2, extends ∅ w w1 → extends mine w1 w2 → extends ∅ w w2) as Htrans.
  { intros w1 w2 H1 H2. eapply extends_trans; [exact H1|]. apply (extends_weaken mine); [set_solver|done]. }
  cbn [commit_attempts]. apply (wpj_store_commit ids mine w0 w tx checks ms); [done|].
  intros outcome w2 He2 Hp2 Hc Hf. pose proof (to_ids _ _ _ _ (pe_owned _ _ _ _ _ _ _ Hp2)) as Hids. destruct outcome.
  - apply wpj_ret. intros w3 He3. split; [done|]. split; [by eapply Htrans|]. left.
    eapply was_applied_extends; [exact He3|]. by apply Hc.
  - apply wpj_ret. intros w3 He3. split; [done|]. split; [by eapply Htrans|].
    eapply extends_trans; [by apply Hf|]. by apply (extends_weaken mine).
  - apply wpj_bind. unfold reconcile_unknown. apply wpj_get. intros w3 v He3 Hval. cbn.
    apply (pending_extends ids mine w0 w2 w3) in Hp2; [|done].
    assert (extends ∅ w w3) as Hew3 by by eapply Htrans. case_bool_decide as Hb.
    + apply wpj_ret. intros w4 He4. apply wpj_ret. intros w5 He5.
      assert (extends mine w3 w5) as He35 by by eapply extends_trans.
      split; [done|]. split; [by eapply Htrans|].
      eapply (pending_reached ids mine _ _ tx _ _ _ _ (w_now w3)); [by eapply ex_valid|by eapply pending_extends| |].
      * eapply extends_state; [exact He35|]. apply list_elem_of_here.
      * cbn in *. congruence.
    + apply wpj_ret. intros w4 He4. destruct (_ && _); [|done]. eapply wpj_mono.
      { apply IH. by eapply pending_extends. }
      intros b mine' w' _ (-> & Hew & Hr). split; [done|]. split; [|done].
      eapply extends_trans; [|exact Hew]. by eapply Htrans.
Qed.

(** ** Refreshing the wake *)

Lemma find_wake_check_spec tx c :
  Forall (λ c, len (Check_key c) ≤ USIZE_MAX) (tx_checks tx) →
  find_wake_check ns tx = Ok (Some c) → is_wake ns (Check_key c).
Proof.
  unfold find_wake_check. generalize (tx_checks tx) as checks. induction checks as [|c0 checks IH]; [done|].
  intros [Hl0 Hl]%Forall_cons H. apply bind_Ok in H as ([tag cs] & Hd & H).
  case_bool_decide as Ht; cbn in H; [destruct (existsb _ _)|]; [|by apply IH..].
  simplify_eq. unfold is_wake, key_tag, parse. rewrite (proj2 (Z.ltb_ge _ _)) by done. by rewrite Hd.
Qed.

Lemma retain_core k ms :
  is_wake ns k → core ns (List.filter (λ mu, negb (bytes_eqb (Mutation_key mu) k)) ms) = core ns ms.
Proof.
  intros Hk. induction ms as [|mu ms IH]; [done|]. cbn [List.filter].
  destruct (bytes_eqb (Mutation_key mu) k) eqn:He; cbn [negb].
  - apply bytes_eqb_spec in He. rewrite IH. change (mu :: ms) with ([mu] ++ ms). rewrite core_app, (core_wake ns [mu]); [done|].
    constructor; [congruence|constructor].
  - unfold core in IH |- *. cbn. by rewrite IH.
Qed.

Lemma retain_ext checks ms tx k :
  is_wake ns k → wake_ext ns checks ms (tx_checks tx) (tx_mutations tx) →
  wake_ext ns checks ms (retain_authority tx k).1 (retain_authority tx k).2.
Proof.
  intros Hk [Hc Hm]. split; [|unfold retain_authority; cbn [snd]; by rewrite retain_core].
  intros c Hin Hn. cbn. apply list_elem_of_In, List.filter_In. split.
  - apply list_elem_of_In. auto.
  - destruct (bytes_eqb (Check_key c) k) eqn:He; [|done]. apply bytes_eqb_spec in He. congruence.
Qed.

Lemma wake_ext_more checks ms cs1 ms1 ms2 cs2 :
  wake_ext ns checks ms cs1 ms1 → core ns ms2 = core ns ms1 → wake_ext ns checks ms (cs1 ++ cs2) ms2.
Proof. intros [Hc Hm] Hcore. split; [set_solver|congruence]. Qed.

Lemma wpj_refresh ids mine w tx checks ms :
  ids ⊆ mine → ids ⊆ w_ids w → no_wake checks ms → wake_ext ns checks ms (tx_checks tx) (tx_mutations tx) →
  Forall (λ c, len (Check_key c) ≤ USIZE_MAX) (tx_checks tx) → step_safe ids w checks ms →
  wpj mine w (refresh_conflicted_wake (E := E) system tx)
    (λ o mine' w', mine ⊆ mine' ∧ extends mine w w' ∧ ∀ tx', o = Some tx' → tx_good ids mine' w' tx' checks ms).
Proof.
  intros Hi Hd Hnw Hx Hlen Hs. unfold refresh_conflicted_wake. rewrite (sk_namespace _ _ _ Hsys).
  apply wpj_try. intros [c|] Hc; [|by apply wpj_ret].
  apply find_wake_check_spec in Hc; [|done]. pose proof (retain_ext checks ms tx _ Hc Hx) as Hr.
  apply wpj_get. intros w1 current He1 _. destruct (match c with Absent _ => _ | _ => _ end).
  { apply wpj_ret. intros w2 He2. split; [done|]. split; [by eapply extends_trans|done]. }
  apply wpj_try. intros next _. destruct (retain_authority tx (Check_key c)) as [checks1 ms1].
  assert (∀ checks2 ms2, wake_ext ns checks ms checks2 ms2 →
    wpj mine w1 (transaction ← checked_transaction (E := E) system checks2 ms2; mret (Some transaction))
      (λ o mine' w', mine ⊆ mine' ∧ extends mine w w' ∧
         ∀ tx', o = Some tx' → tx_good ids mine' w' tx' checks ms)) as Hlast.
  { intros checks2 ms2 Hx2. apply wpj_bind. apply (wpj_checked_last _ _ ids _ _ checks ms); try done.
    - etrans; [exact Hd|apply (ex_ids _ _ _ He1)].
    - apply (step_safe_extends ids w); [by apply (extends_weaken mine)|done].
    - intros tx' mine' w' Hm He Hg. apply wpj_ret. intros w2 He2. split; [done|]. split.
      + eapply extends_trans; [exact He1|]. eapply extends_trans; [exact He|]. by apply (extends_weaken mine').
      + intros ? [= <-]. by apply (tx_good_extends ids mine' w'). }
  destruct next as [next|]; [|by apply Hlast]. apply wpj_bind. apply wpj_try. intros [ms2 chk] Ha.
  apply (wake_apply_spec ns) in Ha as [Hcore _]; [|done].
  apply wpj_ret. intros w2 He2. eapply wpj_extends; [exact He2|].
  destruct chk as [chk|]; apply Hlast; [by apply (wake_ext_more _ _ checks1 ms1)|].
  rewrite <- (app_nil_r checks1). by apply (wake_ext_more _ _ checks1 ms1).
Qed.

Lemma wpj_commit_transition ids mine w tx checks ms key old new conflict :
  tx_good ids mine w tx checks ms →
  wpj mine w (commit_transition (E := E) system tx key old new conflict)
    (λ _ mine' w', mine ⊆ mine' ∧ extends ∅ w w' ∧ reached ids w checks ms key new w').
Proof.
  intros [Ho Hf Hs Hn Hx Hd Hl]. apply wp_valid. intros w0 He0 Hv0.
  assert (extends ids w w0) as Hw0 by (apply (extends_weaken mine); [apply Ho|done]).
  apply (tx_owned_extends _ _ _ _ _ _ He0) in Ho. unfold commit_transition, commit_reconciled.
  apply wpj_bind. eapply wpj_mono.
  { apply (wpj_commit_attempts ids mine w w0 tx checks ms). split; try done. by right. }
  assert (∀ w', extends ∅ w0 w' → extends ∅ w w') as Hempty.
  { intros w' He. eapply extends_trans; [|exact He]. eapply (extends_weaken ids); [set_solver|done]. }
  intros [] mine' w1 _ (-> & He & Hr).
  { apply wpj_ret. intros w2 He2. split; [done|]. split.
    - apply Hempty. eapply extends_trans; [exact He|]. apply (extends_weaken mine); [set_solver|done].
    - destruct Hr as [Hr|(Hr & m & Hm & Hkey)]; [left; by eapply was_applied_extends|right]. split.
      + eapply extends_trans; [exact Hr|]. apply (extends_weaken mine); [apply Ho|done].
      + exists m. split; [by eapply extends_state|done]. }
  apply wpj_bind. eapply wpj_mono.
  { apply (wpj_refresh ids mine w1 tx checks ms); try done.
    - apply Ho.
    - etrans; [apply (to_ids_drawn _ _ _ _ Ho)|]. apply (ex_ids _ _ _ He).
    - by apply (step_safe_extends ids w). }
  intros [tx'|] mine' w2 _ (Hm & He2 & Hg); [|done]. destruct (Hg tx' eq_refl) as [Ho' Hf' Hs' Hn' Hx' Hd' Hl'].
  assert (extends ids w w2) as Hw2.
  { eapply extends_trans; [exact Hr|]. apply (extends_weaken mine); [apply Ho|done]. }
  apply wpj_bind. eapply wpj_mono.
  { apply (wpj_commit_attempts ids mine' w w2 tx' checks ms). split; try done. by right. }
  intros [] mine3 w3 _ (-> & He3 & Hr3); [|done]. apply wpj_ret. intros w4 He4. split; [done|]. split.
  - apply Hempty. eapply extends_trans; [exact He|].
    eapply extends_trans; [apply (extends_weaken mine); [set_solver|exact He2]|].
    eapply extends_trans; [exact He3|]. apply (extends_weaken mine'); [set_solver|done].
  - destruct Hr3 as [Hr3|(Hr3 & m & Hm3 & Hkey)]; [left; by eapply was_applied_extends|right]. split.
    + eapply extends_trans; [exact Hr3|]. apply (extends_weaken mine'); [apply Ho'|done].
    + exists m. split; [by eapply extends_state|done].
Qed.
End rules.
End protocol.
