(* ===== verification/Steps.v ===== *)
(** * The transactions of one job

    What a transaction must look like to keep the invariant: every mutation
    belongs to the job or is a permit ([touch]), the index entries follow the
    new record, and the permits are kept, taken or dropped as a whole.
    [good_next] is the case of a record that is replaced by its next version;
    [good_gone] that of a completion, [good_new] that of an enqueue and
    [good_marker] that of a cancellation request. *)

From S2P Require Import Prelude Errors Ids Clock Policy JobRecord Wire KeyCodec ValueCodec JobCodec.
From S2P Require Import JobRoundtrip OperationCodec Keyspace Store Prog Logic System Transition Claim.
From S2P Require Import Refs Invariant Update.

Create HintDb keys.

Section steps.
Context (ns : Namespace) (sha256 : bytes → bytes) (Hns : is_opaque MAX_NAMESPACE_BYTES ns = true).
#[local] Instance disc : Discipline := engine_discipline ns sha256.
Implicit Types m : StoreMap.
Implicit Types j : JobId.
Implicit Types r : JobRecordV1.
Implicit Types w : world.
Implicit Types q : QueueName.
Implicit Types ms : list Mutation.

(** ** Kinds of keys *)

Lemma is_index_DueK q t j :
  is_text MAX_NAME_BYTES q = true → is_fixed_id j = true → is_index ns j (DueK ns q t j).
Proof. intros. unfold is_index, key_job, key_tag. by rewrite parse_DueK. Qed.
Lemma is_index_FairK q j :
  is_text MAX_NAME_BYTES q = true → is_fixed_id j = true → is_index ns j (FairK ns q j).
Proof. intros. unfold is_index, key_job, key_tag. by rewrite parse_FairK. Qed.
Lemma is_index_LeaseK q j :
  is_text MAX_NAME_BYTES q = true → is_fixed_id j = true → is_index ns j (LeaseK ns q j).
Proof. intros. unfold is_index, key_job, key_tag. by rewrite parse_LeaseK. Qed.
Lemma is_index_DeadK q j :
  is_text MAX_NAME_BYTES q = true → is_fixed_id j = true → is_index ns j (DeadK ns q j).
Proof. intros. unfold is_index, key_job, key_tag. by rewrite parse_DeadK. Qed.

Lemma tag_JobK j : is_fixed_id j = true → key_tag ns (JobK ns j) = Some KT_Job.
Proof. intros. unfold key_tag. by rewrite parse_JobK. Qed.
Lemma tag_OpK j : is_fixed_id j = true → key_tag ns (OpK ns j) = Some KT_Operation.
Proof. intros. unfold key_tag. by rewrite parse_OpK. Qed.
Lemma tag_CancelK j : is_fixed_id j = true → key_tag ns (CancelK ns j) = Some KT_Cancellation.
Proof. intros. unfold key_tag. by rewrite parse_CancelK. Qed.
Lemma tag_DueK q t j :
  is_text MAX_NAME_BYTES q = true → is_fixed_id j = true → key_tag ns (DueK ns q t j) = Some KT_Due.
Proof. intros. unfold key_tag. by rewrite parse_DueK. Qed.
Lemma tag_FairK q j :
  is_text MAX_NAME_BYTES q = true → is_fixed_id j = true → key_tag ns (FairK ns q j) = Some KT_FairReady.
Proof. intros. unfold key_tag. by rewrite parse_FairK. Qed.
Lemma tag_LeaseK q j :
  is_text MAX_NAME_BYTES q = true → is_fixed_id j = true → key_tag ns (LeaseK ns q j) = Some KT_Lease.
Proof. intros. unfold key_tag. by rewrite parse_LeaseK. Qed.
Lemma tag_DeadK q j :
  is_text MAX_NAME_BYTES q = true → is_fixed_id j = true → key_tag ns (DeadK ns q j) = Some KT_DeadLetter.
Proof. intros. unfold key_tag. by rewrite parse_DeadK. Qed.

Lemma slot_keys_permit r slot k : permit_record r → k ∈ slot_keys ns r slot → is_permit ns k.
Proof.
  intros (Hq & Hf & Ho). unfold slot_keys, scope_permit_keys, ordering_permit_keys, is_permit, key_tag.
  destruct (jr_fairness r) as [[p [s|]]|]; cbn in Hf; unfold is_fairness_path in Hf; cbn in Hf;
    split_andb; destruct (jr_ordering_key r) as [o|]; cbn in Ho; cbn [fp_primary fp_secondary app];
    rewrite ?elem_of_cons, ?elem_of_nil; intros Hk; destruct_or?; subst; try done; by parse_small.
Qed.

(** ** Index entries *)

(** The index kinds that hold the records of a state. *)
Definition state_tags (s : JobState) : list KeyTag :=
  match s with
  | Scheduled => [KT_Due; KT_FairReady]
  | Leased _ => [KT_Lease]
  | DeadLettered => [KT_DeadLetter]
  | Cancelled | Suspended => []
  end.

Lemma index_entries_tag r k v :
  is_job_record r = true → (k, v) ∈ index_entries ns r →
  ∃ t, key_tag ns k = Some t ∧ t ∈ state_tags (jr_state r).
Proof.
  intros [Hj Hq _ _ _ _ _]%typed_names. unfold index_entries, state_tags.
  destruct (jr_state r); rewrite ?elem_of_cons, ?elem_of_nil.
  - intros [[= -> _]|[[= -> _]|[]]]; [exists KT_Due|exists KT_FairReady].
    + split; [by apply tag_DueK|left].
    + split; [by apply tag_FairK|right; left].
  - intros [[= -> _]|[]]. exists KT_Lease. split; [by apply tag_LeaseK|left].
  - intros [[= -> _]|[]]. exists KT_DeadLetter. split; [by apply tag_DeadK|left].
  - intros [].
  - intros [].
Qed.

Lemma index_at_none r k t :
  is_job_record r = true → key_tag ns k = Some t → t ∉ state_tags (jr_state r) →
  index_at ns (Some r) k = None.
Proof.
  intros Hr Ht Hn. cbn. apply not_elem_of_list_to_map_1. intros Hin.
  apply list_elem_of_fmap in Hin as ([k' v] & -> & Hin). cbn in Ht.
  destruct (index_entries_tag r k' v Hr Hin) as (t' & Ht' & Hin'). congruence.
Qed.

Lemma index_entries_nodup r : is_job_record r = true → NoDup (index_entries ns r).*1.
Proof.
  intros [Hj Hq _ _ _ _ _]%typed_names. unfold index_entries. destruct (jr_state r); cbn; try (repeat constructor; set_solver).
  constructor; [|repeat constructor; set_solver]. rewrite list_elem_of_singleton. intros He.
  pose proof (tag_DueK (jr_queue r) (jr_scheduled_at r) (jr_job_id r) Hq Hj) as Ht.
  rewrite He, tag_FairK in Ht by done. done.
Qed.

Lemma index_at_in r k v :
  is_job_record r = true → (k, v) ∈ index_entries ns r → index_at ns (Some r) k = Some v.
Proof. intros Hr Hin. cbn. apply elem_of_list_to_map_1; [by apply index_entries_nodup|done]. Qed.

(** ** Mutations of one job *)

(** The mutations a transaction of job [j] consists of, where the new record
    is [o'], the permit mutations satisfy [P], and those of payload
    chunks [C]. *)
Inductive touch j (o' : option JobRecordV1) (P : Mutation → Prop) (C : Mutation → Prop) (mu : Mutation) : Prop :=
  | T_job : Mutation_key mu = JobK ns j → touch j o' P C mu
  | T_op : Mutation_key mu = OpK ns j → touch j o' P C mu
  | T_cancel : Mutation_key mu = CancelK ns j → touch j o' P C mu
  | T_index :
      is_index ns j (Mutation_key mu) → mutation_result mu = index_at ns o' (Mutation_key mu) → touch j o' P C mu
  | T_chunk : C mu → is_chunk ns j (Mutation_key mu) → touch j o' P C mu
  | T_permit : is_permit ns (Mutation_key mu) → P mu → touch j o' P C mu
  | T_dedupe : key_tag ns (Mutation_key mu) = Some KT_Dedupe → touch j o' P C mu.

(** The index entries of a record that are not written are right already. *)
Definition covered ms (o o' : option JobRecordV1) : Prop :=
  ∀ k v, (∃ r, (o = Some r ∨ o' = Some r) ∧ (k, v) ∈ index_entries ns r) →
    k ∈ Mutation_key <$> ms ∨ index_at ns o k = index_at ns o' k.

Section touched.
Context (m : StoreMap) (ms : list Mutation) (j : JobId) (o' : option JobRecordV1) (P : Mutation → Prop) (C : Mutation → Prop).
Context (Hj : is_fixed_id j = true) (Hnd : NoDup (Mutation_key <$> ms)) (Ht : Forall (touch j o' P C) ms).
Let m' := apply_mutations m ms.

Lemma touch_key k : k ∈ Mutation_key <$> ms → ∃ mu, mu ∈ ms ∧ k = Mutation_key mu ∧ touch j o' P C mu ∧ m' !! k = mutation_result mu.
Proof.
  intros (mu & -> & Hin)%list_elem_of_fmap. exists mu. split; [done|]. split; [done|].
  split; [by eapply (proj1 (Forall_forall _ _))|]. by apply lookup_apply_mutations.
Qed.

Lemma untouched k : k ∉ Mutation_key <$> ms → m' !! k = m !! k.
Proof. apply lookup_apply_mutations_ne. Qed.

Lemma touch_frame k j' : key_job ns k = Some j' → j' ≠ j → m' !! k = m !! k.
Proof.
  intros Hk Hne. apply untouched. intros (mu & _ & -> & Hm & _)%touch_key.
  destruct Hm as [He|He|He|[He _] _|_ [He _]|He _|He].
  - rewrite He, key_job_JobK in Hk by done. congruence.
  - rewrite He, key_job_OpK in Hk by done. congruence.
  - rewrite He, key_job_CancelK in Hk by done. congruence.
  - congruence.
  - congruence.
  - revert Hk. unfold key_job, is_permit, key_tag in *. destruct (parse ns _) as [[t c]|]; [|done].
    cbn in He. simplify_eq. done.
  - revert Hk. unfold key_job, key_tag in *. destruct (parse ns _) as [[t c]|]; [|done].
    cbn in He. simplify_eq. done.
Qed.

Lemma touch_index k : is_index ns j k → k ∈ Mutation_key <$> ms → m' !! k = index_at ns o' k.
Proof.
  intros [_ Hk] (mu & _ & -> & Hm & Hr)%touch_key. rewrite Hr.
  destruct Hm as [He|He|He|_ He|_ [_ He]|He _|He]; try done; exfalso.
  - by rewrite He, tag_JobK in Hk.
  - by rewrite He, tag_OpK in Hk.
  - by rewrite He, tag_CancelK in Hk.
  - by rewrite He in Hk.
  - unfold is_permit in He. by rewrite He in Hk.
  - by rewrite He in Hk.
Qed.

Lemma touch_permit k : is_permit ns k → k ∈ Mutation_key <$> ms → ∃ mu, mu ∈ ms ∧ k = Mutation_key mu ∧ P mu.
Proof.
  unfold is_permit. intros Hk (mu & Hin & -> & Hm & _)%touch_key.
  destruct Hm as [He|He|He|[_ He] _|_ [_ He]|_ He|He]; [exfalso..|by exists mu|exfalso].
  - by rewrite He, tag_JobK in Hk.
  - by rewrite He, tag_OpK in Hk.
  - by rewrite He, tag_CancelK in Hk.
  - by rewrite Hk in He.
  - by rewrite Hk in He.
  - by rewrite Hk in He.
Qed.

Lemma touch_chunk_in k : is_chunk ns j k → k ∈ Mutation_key <$> ms → ∃ mu, mu ∈ ms ∧ k = Mutation_key mu ∧ C mu.
Proof.
  intros [_ Hk] (mu & Hin & -> & Hm & _)%touch_key.
  destruct Hm as [He|He|He|[_ He] _|He _|He _|He]; [exfalso..|by exists mu|exfalso|exfalso].
  - by rewrite He, tag_JobK in Hk.
  - by rewrite He, tag_OpK in Hk.
  - by rewrite He, tag_CancelK in Hk.
  - by rewrite Hk in He.
  - unfold is_permit in He. congruence.
  - congruence.
Qed.

Lemma touch_chunk k : (∀ mu, ¬ C mu) → is_chunk ns j k → m' !! k = m !! k.
Proof. intros HC Hk. apply untouched. intros Hin. destruct (touch_chunk_in k Hk Hin) as (mu & _ & _ & []%HC). Qed.

Lemma touched_index o :
  (∀ k, is_index ns j k → m !! k = index_at ns o k) → covered ms o o' →
  ∀ k, is_index ns j k → m' !! k = index_at ns o' k.
Proof.
  intros Hm Hc k Hk. destruct (decide (k ∈ Mutation_key <$> ms)) as [Hin|Hin]; [by apply touch_index|].
  rewrite untouched, Hm by done.
  assert (∀ o, (∃ r v, o = Some r ∧ (k, v) ∈ index_entries ns r) ∨ index_at ns o k = None) as Hcase.
  { intros [r|]; [|by right]. destruct (decide (k ∈ (index_entries ns r).*1)) as [Hx|Hx].
    - left. apply list_elem_of_fmap in Hx as ([k' v] & -> & Hx). eauto.
    - right. cbn. by apply not_elem_of_list_to_map_1. }
  destruct (Hcase o) as [(r & v & -> & Hv)|Ho].
  { destruct (Hc k v) as [?|?]; [|done..]. exists r. auto. }
  destruct (Hcase o') as [(r & v & -> & Hv)|Ho']; [|congruence].
  destruct (Hc k v) as [?|?]; [|done..]. exists r. auto.
Qed.
End touched.

(** ** Permits *)

Section permits.
Context (w : world) (ms : list Mutation) (j : JobId) (o' : option JobRecordV1) (P : Mutation → Prop) (C : Mutation → Prop).
Context (Hj : is_fixed_id j = true) (Hnd : NoDup (Mutation_key <$> ms)) (Ht : Forall (touch j o' P C) ms).
Context (Hr' : record_at ns (apply_mutations (w_now w) ms) j = o').
Let m := w_now w.
Let m' := apply_mutations m ms.

(** The permits are written as they are. *)
Lemma permits_kept :
  (∀ mu, P mu → mutation_result mu = m !! Mutation_key mu) →
  ∀ k, is_permit ns k → m' !! k = m !! k.
Proof.
  intros HP k Hk. destruct (decide (k ∈ Mutation_key <$> ms)) as [Hin|Hin]; [|by apply untouched].
  destruct (touch_permit m ms j o' P C Hj Hnd Ht k Hk Hin) as (mu & Hmu & -> & HPm). rewrite <- HP by done.
  by apply lookup_apply_mutations.
Qed.

Lemma permits_keep r r' :
  record_at ns m j = Some r → o' = Some r' → permit_of r' = permit_of r → same_route r r' →
  (∀ mu, P mu → mutation_result mu = m !! Mutation_key mu) → permit_change ns sha256 w m' j.
Proof.
  intros Hr Ho Hp Hroute HP. apply PC_keep; [| |by apply permits_kept].
  - unfold permit_at, m', m in *. rewrite Hr, Hr', Ho. done.
  - unfold m', m in *. intros. rewrite Ho in Hr'. by simplify_eq.
Qed.

(** No permits before, none after. *)
Lemma permits_none :
  (∀ r, record_at ns m j = Some r → permit_of r = None) → (∀ r', o' = Some r' → permit_of r' = None) →
  (∀ mu, ¬ P mu) → permit_change ns sha256 w m' j.
Proof.
  intros Hr Ho HP. apply PC_drop.
  - unfold permit_at, m', m in *. rewrite Hr'. destruct o'; [by apply Ho|done].
  - intros k Hk. rewrite permits_kept; [|by intros ? ?%HP|done]. unfold m. case_decide as He; [|done].
    rewrite He. unfold permit_at. destruct (record_at ns (w_now w) j) eqn:Hx; [by apply Hr|done].
Qed.

Lemma permits_drop r pv (K : list StoreKey) :
  record_at ns m j = Some r → permit_of r = Some pv → (∀ r', o' = Some r' → permit_of r' = None) →
  (∀ k, is_permit ns k → m !! k = Some pv ↔ k ∈ K) → (∀ k, k ∈ K → Delete k ∈ ms) →
  (∀ mu, P mu → mu ∈ Delete <$> K) → permit_change ns sha256 w m' j.
Proof.
  intros Hr Hp Ho HK Hdel HP. apply PC_drop.
  - unfold permit_at, m', m in *. rewrite Hr'. destruct o'; [by apply Ho|done].
  - intros k Hk. unfold permit_at. fold m. rewrite Hr. cbn. rewrite Hp. case_decide as He.
    + apply apply_delete; [done|]. apply Hdel. by apply HK.
    + apply untouched. intros Hin. destruct (touch_permit m ms j o' P C Hj Hnd Ht k Hk Hin) as (mu & Hmu & -> & HPm).
      apply HP in HPm. apply list_elem_of_fmap in HPm as (k & -> & Hin'). cbn in *. apply He. by apply HK.
Qed.

Lemma permits_take r' l' slot pv :
  o' = Some r' → is_job_record r' = true → jr_state r' = Leased l' → permit_of r' = Some pv →
  0 ≤ slot < MAX_DURABLE_PERMIT_SLOTS → ¬ published w (ls_token l') → fence_at ns m j < ls_fence l' →
  (∀ k, k ∈ slot_keys ns r' slot → Put k pv ∈ ms) →
  (∀ k, k ∈ slot_keys ns r' slot → m !! k = None ∨ m !! k = permit_at ns m j) →
  (∀ k, is_permit ns k → k ∉ slot_keys ns r' slot → m !! k = None ∨ m !! k ≠ permit_at ns m j) →
  (∀ mu, P mu → mu ∈ (λ k, Put k pv) <$> slot_keys ns r' slot) → permit_change ns sha256 w m' j.
Proof.
  intros Ho Htyp Hs Hp Hb Hpub Hfe Hput Hold Hout HP. apply (PC_take _ _ _ _ _ r' l' slot); try done.
  - by rewrite <- Ho.
  - intros k Hk Hin. rewrite Hp. split; [apply apply_put; auto|auto].
  - intros k Hk Hin. split; [|auto]. apply untouched. intros Hx.
    destruct (touch_permit m ms j o' P C Hj Hnd Ht k Hk Hx) as (mu & Hmu & -> & HPm).
    apply HP in HPm. apply list_elem_of_fmap in HPm as (k & -> & Hin'). done.
Qed.
End permits.

(** ** The next version of a record *)

Lemma chunk_values_same m m' j r r' :
  is_fixed_id j = true → validate_chunk_keys (E := unit) ns j 0 (pm_chunk_keys (jr_payload r)) = Ok tt →
  jr_payload r' = jr_payload r → (∀ k, is_chunk ns j k → m' !! k = m !! k) →
  chunk_values m' r' = chunk_values m r.
Proof.
  intros Hj Hv Hp Hk. unfold chunk_values. rewrite Hp. apply list_fmap_ext.
  intros i k Hin%list_elem_of_lookup_2. apply Hk. by eapply validate_chunk_keys_in.
Qed.

(** What the next version keeps of a record. *)
Record version w r r' : Prop := {
  vr_job : jr_job_id r' = jr_job_id r;
  vr_namespace : jr_namespace r' = jr_namespace r;
  vr_payload : jr_payload r' = jr_payload r;
  vr_next : jr_execution_id r' = jr_execution_id r ∧ jr_revision r' = jr_revision r + 1
            ∨ ¬ published w (jr_execution_id r');
}.

Section next.
Context (w : world) (ms : list Mutation) (j : JobId) (r r' : JobRecordV1) (e' : bytes) (P : Mutation → Prop).
Context (Hv : valid_world ns sha256 w) (Hj : is_fixed_id j = true) (Hnd : NoDup (Mutation_key <$> ms)).
Let m := w_now w.
Let m' := apply_mutations m ms.
Context (Hr : record_at ns m j = Some r) (Hput : Put (JobK ns j) e' ∈ ms) (Hdec : decode_job_record e' = Ok r').
Context (Hver : version w r r') (Ht : Forall (touch j (Some r') P (λ _, False)) ms).
Context (Hcov : covered ms (Some r) (Some r')).

Lemma next_record : record_at ns m' j = Some r'.
Proof. eapply record_at_decode; [|exact Hdec]. by apply apply_put. Qed.

Lemma next_inv :
  op_inv j (Some (jr_state r')) (m' !! OpK ns j) →
  (∀ v, m' !! CancelK ns j = Some v → v = cancel_layout ∧ ∃ l, jr_state r' = Leased l) →
  job_inv ns sha256 m' j.
Proof.
  intros Hop Hcan. assert (job_inv ns sha256 m j) as Hi by by apply Hv.
  destruct (record_at_spec ns sha256 m j r Hi Hr) as (e & [_ _ _ Hjob Hnsp Hch]). destruct Hver as [Hj' Hn' Hp' _].
  assert (∀ k, is_chunk ns j k → m' !! k = m !! k) as Hck by (intros; by apply (touch_chunk m ms j (Some r') P (λ _, False)); [..|naive_solver|]).
  split; rewrite ?next_record.
  - intros e0 He. assert (m' !! JobK ns j = Some e') as He' by by apply apply_put.
    assert (e0 = e') as -> by congruence. exists r'. split_and!; [done|congruence..|]. by rewrite Hp'.
  - eapply touched_index; [done..| |exact Hcov]. intros k Hk. rewrite (ji_index _ _ _ _ Hi k Hk). by rewrite Hr.
  - done.
  - intros v Hc. destruct (Hcan v Hc) as [? [l ?]]. split; [done|]. by exists r', l.
  - intros k Hk. rewrite Hck, (ji_chunks _ _ _ _ Hi k Hk) by done. rewrite Hr. split; intros (r0 & [= <-] & Hin);
      eexists; (split; [done|]); congruence.
  - intros r0 [= <-]. destruct (ji_payload _ _ _ _ Hi r Hr) as [p Hp]. exists p.
    rewrite (chunk_values_same m m' j r r') by done. rewrite <- Hp. unfold decode_payload. by rewrite Hp'.
Qed.

Lemma good_next :
  op_inv j (Some (jr_state r')) (m' !! OpK ns j) → fence_at ns m j ≤ fence_at ns m' j →
  (∀ v, m' !! CancelK ns j = Some v → v = cancel_layout ∧ ∃ l, jr_state r' = Leased l) →
  permit_change ns sha256 w m' j →
  good_state ns sha256 w m' ∧
  ∀ id, visible_id ns m' id → published w id ∨ id = jr_execution_id r' ∨ ∃ l, jr_state r' = Leased l ∧ ls_token l = id.
Proof.
  intros Hop Hfe Hcan Hper.
  assert (∀ k j', key_job ns k = Some j' → j' ≠ j → m' !! k = m !! k) as Hframe.
  { intros k j' Hk Hne. by eapply touch_frame. }
  split.
  - apply (good_update ns sha256 Hns w m' j); [done..|by apply next_inv| |done|done].
    destruct (vr_next _ _ _ Hver) as [[Hx Hn]|Hx]; [by eapply (CH_next _ _ _ _ _ r r'); try done; apply next_record|].
    eapply CH_new; [apply next_record|done].
  - intros id Hid. destruct (visible_update ns sha256 Hns w m' j Hframe id Hid) as [?|(r0 & Hr0 & Hor)]; [by left|].
    rewrite next_record in Hr0. simplify_eq. destruct Hor as [<-|Hl]; auto.
Qed.
End next.

(** ** A record that goes *)

Section gone.
Context (w : world) (ms : list Mutation) (j : JobId) (r : JobRecordV1) (P : Mutation → Prop).
Context (Hv : valid_world ns sha256 w) (Hj : is_fixed_id j = true) (Hnd : NoDup (Mutation_key <$> ms)).
Let m := w_now w.
Let m' := apply_mutations m ms.
Context (Hr : record_at ns m j = Some r) (Hdel : Delete (JobK ns j) ∈ ms).
Context (Ht : Forall (touch j None P (λ mu, mutation_result mu = None)) ms).
Context (Hcov : covered ms (Some r) None) (Hchunks : ∀ k, k ∈ pm_chunk_keys (jr_payload r) → Delete k ∈ ms).

Lemma gone_job : m' !! JobK ns j = None.
Proof. by apply apply_delete. Qed.

Lemma gone_chunk k : is_chunk ns j k → m' !! k = None.
Proof.
  intros Hk. destruct (decide (k ∈ Mutation_key <$> ms)) as [Hin|Hin].
  - destruct (touch_chunk_in m ms j None P _ Hj Hnd Ht k Hk Hin) as (mu & Hmu & -> & Hx). rewrite <- Hx.
    by apply lookup_apply_mutations.
  - unfold m'. rewrite untouched by done. destruct (m !! k) eqn:Hm; [|done]. exfalso. apply Hin.
    assert (is_Some (m !! k)) as (r0 & Hr0 & Hr1)%(ji_chunks ns sha256 m j (so_job _ _ _ (now_ok ns sha256 w Hv) j Hj) k Hk) by eauto.
    rewrite Hr in Hr0. simplify_eq. apply list_elem_of_fmap. exists (Delete k). auto.
Qed.

Lemma gone_inv : op_inv j None (m' !! OpK ns j) → m' !! CancelK ns j = None → job_inv ns sha256 m' j.
Proof.
  intros Hop Hcan. assert (job_inv ns sha256 m j) as Hi by by apply Hv.
  pose proof (record_at_none ns m' j gone_job) as Hnone. split; rewrite ?Hnone.
  - intros e0. rewrite gone_job. done.
  - eapply touched_index; [done..| |exact Hcov]. intros k Hk. rewrite (ji_index _ _ _ _ Hi k Hk). by rewrite Hr.
  - done.
  - intros v. rewrite Hcan. done.
  - intros k Hk. rewrite gone_chunk by done. split; [by intros []|by intros (? & ? & _)].
  - done.
Qed.

Lemma good_gone :
  op_inv j None (m' !! OpK ns j) → fence_at ns m j ≤ fence_at ns m' j → m' !! CancelK ns j = None →
  permit_change ns sha256 w m' j →
  good_state ns sha256 w m' ∧ ∀ id, visible_id ns m' id → published w id.
Proof.
  intros Hop Hfe Hcan Hper.
  assert (∀ k j', key_job ns k = Some j' → j' ≠ j → m' !! k = m !! k) as Hframe.
  { intros k j' Hk Hne. by eapply touch_frame. }
  split.
  - apply (good_update ns sha256 Hns w m' j); [done..|by apply gone_inv| |done|done].
    apply CH_gone. apply gone_job.
  - intros id Hid. destruct (visible_update ns sha256 Hns w m' j Hframe id Hid) as [?|(r0 & Hr0 & _)]; [done|].
    rewrite (record_at_none ns m' j gone_job) in Hr0. done.
Qed.
End gone.

(** ** A new record *)

Section new.
Context (w : world) (ms : list Mutation) (j : JobId) (r' : JobRecordV1) (e' : bytes) (C : Mutation → Prop).
Context (Hv : valid_world ns sha256 w) (Hj : is_fixed_id j = true) (Hnd : NoDup (Mutation_key <$> ms)).
Let m := w_now w.
Let m' := apply_mutations m ms.
Context (Hno : m !! JobK ns j = None) (Hput : Put (JobK ns j) e' ∈ ms) (Hdec : decode_job_record e' = Ok r').
Context (Hjob : jr_job_id r' = j) (Hnsp : jr_namespace r' = ns) (Hpub : ¬ published w (jr_execution_id r')).
Context (Hval : validate_chunk_keys (E := unit) ns j 0 (pm_chunk_keys (jr_payload r')) = Ok tt).
Context (Hstate : jr_state r' = Scheduled).
Context (Ht : Forall (touch j (Some r') (λ _, False) C) ms) (Hcov : covered ms None (Some r')).
Context (HC : ∀ mu, C mu → Mutation_key mu ∈ pm_chunk_keys (jr_payload r')).
Context (Hchunks : ∀ k, k ∈ pm_chunk_keys (jr_payload r') → ∃ v, Put k v ∈ ms).
Context (Hpay : ∃ p, decode_payload (E := unit) sha256 r' (chunk_values m' r') = Ok p).

Lemma new_record : record_at ns m' j = Some r'.
Proof. eapply record_at_decode; [|exact Hdec]. by apply apply_put. Qed.

Lemma new_none : record_at ns m j = None.
Proof. by apply record_at_none. Qed.

Lemma new_chunk k : is_chunk ns j k → is_Some (m' !! k) ↔ k ∈ pm_chunk_keys (jr_payload r').
Proof.
  intros Hk. split.
  - intros Hs. destruct (decide (k ∈ Mutation_key <$> ms)) as [Hin|Hin].
    + by destruct (touch_chunk_in m ms j (Some r') _ C Hj Hnd Ht k Hk Hin) as (mu & Hmu & -> & Hx%HC).
    + unfold m' in Hs. rewrite untouched in Hs by done. exfalso.
      apply (ji_chunks ns sha256 m j (so_job _ _ _ (now_ok ns sha256 w Hv) j Hj) k Hk) in Hs as (r0 & Hr0 & _).
      by rewrite new_none in Hr0.
  - intros Hin. destruct (Hchunks k Hin) as (v & Hp). exists v. by apply apply_put.
Qed.

Lemma new_job_inv :
  op_inv j (Some Scheduled) (m' !! OpK ns j) → CancelK ns j ∉ Mutation_key <$> ms → job_inv ns sha256 m' j.
Proof.
  intros Hop Hcan. assert (job_inv ns sha256 m j) as Hi by by apply Hv.
  split; rewrite ?new_record.
  - intros e0 He. assert (m' !! JobK ns j = Some e') as He' by by apply apply_put.
    assert (e0 = e') as -> by congruence. by exists r'.
  - eapply touched_index; [done..| |exact Hcov]. intros k Hk. rewrite (ji_index _ _ _ _ Hi k Hk). by rewrite new_none.
  - cbn. by rewrite Hstate.
  - intros v Hc. unfold m' in Hc. rewrite untouched in Hc by done.
    destruct (ji_cancel _ _ _ _ Hi v Hc) as (_ & r0 & l & Hr0 & _). by rewrite new_none in Hr0.
  - intros k Hk. rewrite new_chunk by done. split; [eauto|]. by intros (r0 & [= <-] & Hin).
  - intros r0 [= <-]. done.
Qed.
Lemma good_new :
  op_inv j (Some Scheduled) (m' !! OpK ns j) → fence_at ns m j ≤ fence_at ns m' j →
  CancelK ns j ∉ Mutation_key <$> ms →
  good_state ns sha256 w m' ∧ ∀ id, visible_id ns m' id → published w id ∨ id = jr_execution_id r'.
Proof.
  intros Hop Hfe Hcan.
  assert (∀ k j', key_job ns k = Some j' → j' ≠ j → m' !! k = m !! k) as Hframe.
  { intros k j' Hk Hne. by eapply touch_frame. }
  split.
  - apply (good_update ns sha256 Hns w m' j); [done..|by apply new_job_inv| |done|].
    + eapply CH_new; [apply new_record|done].
    + eapply permits_none; [done..|apply new_record| | |naive_solver].
      * fold m. rewrite new_none. done.
      * intros ? [= <-]. unfold permit_of. by rewrite Hstate.
  - intros id Hid. destruct (visible_update ns sha256 Hns w m' j Hframe id Hid) as [?|(r0 & Hr0 & Hx)]; [by left|].
    rewrite new_record in Hr0. simplify_eq. right. destruct Hx as [->|(l & Hl & _)]; [done|congruence].
Qed.
End new.

(** ** A cancellation request *)

Lemma good_marker w j r l :
  valid_world ns sha256 w → is_fixed_id j = true → record_at ns (w_now w) j = Some r → jr_state r = Leased l →
  let m' := apply_mutations (w_now w) [Put (CancelK ns j) cancel_layout] in
  good_state ns sha256 w m' ∧ ∀ id, visible_id ns m' id → published w id.
Proof.
  intros Hv Hj Hr Hl m'. assert (∀ k, key_tag ns k ≠ Some KT_Cancellation → m' !! k = w_now w !! k) as Hsame.
  { intros k Hk. apply untouched. cbn. rewrite list_elem_of_singleton. intros ->. by rewrite tag_CancelK in Hk. }
  assert (job_inv ns sha256 (w_now w) j) as Hi by by apply Hv.
  assert (m' !! JobK ns j = w_now w !! JobK ns j) as Hjob by (apply Hsame; by rewrite tag_JobK).
  assert (m' !! OpK ns j = w_now w !! OpK ns j) as Hop by (apply Hsame; by rewrite tag_OpK).
  pose proof (record_at_eq ns _ _ j Hjob) as Hrec.
  assert (∀ k j', key_job ns k = Some j' → j' ≠ j → m' !! k = w_now w !! k) as Hframe.
  { intros k j' Hk Hne. apply untouched. cbn. rewrite list_elem_of_singleton. intros ->.
    rewrite key_job_CancelK in Hk by done. congruence. }
  split.
  - apply (good_update ns sha256 Hns w m' j); [done..| | | |].
    + split; rewrite ?Hrec.
      * rewrite Hjob. apply Hi.
      * intros k Hk. rewrite Hsame; [by apply Hi|]. destruct Hk as [_ Hk]. by destruct (key_tag ns k) as [[]|].
      * rewrite Hop. apply Hi.
      * unfold m'. rewrite (apply_put _ _) with (v := cancel_layout); [|apply NoDup_singleton|set_solver].
        intros v [= <-]. eauto 6.
      * intros k Hk. rewrite Hsame; [by apply Hi|]. destruct Hk as [_ ->]. done.
      * intros r0 Hr0. destruct (ji_payload _ _ _ _ Hi r0 Hr0) as [p Hp]. exists p. rewrite <- Hp. f_equal.
        destruct (record_at_spec ns sha256 _ _ _ Hi Hr0) as (e & [_ _ _ _ _ Hch]).
        apply (chunk_values_same _ _ j); [done..|]. intros k [_ Hk]. apply Hsame. by rewrite Hk.
    + by apply CH_same.
    + unfold fence_at. by rewrite Hop.
    + apply PC_keep; [unfold permit_at; by rewrite Hrec| |].
      * intros r1 r2 H1. rewrite Hrec, H1. intros [= <-]. done.
      * intros k Hk. apply Hsame. unfold is_permit in Hk. by rewrite Hk.
  - intros id Hid. destruct (visible_update ns sha256 Hns w m' j Hframe id Hid) as [?|(r0 & Hr0 & Hx)]; [done|].
    exists (w_now w). split; [left|]. exists j, r0. by rewrite <- Hrec.
Qed.
End steps.
