(* ===== verification/Moves.v ===== *)
(** * The moves of a job

    The transactions of the engine by what they do to a job: leave a lease
    ([good_leave]), keep it ([good_renew]), move between states without one
    ([good_idle]), take one ([good_take]).  Every transition of the engine is
    an instance. *)

From S2P Require Import Prelude Errors Ids Clock Policy JobRecord Wire KeyCodec ValueCodec JobCodec.
From S2P Require Import JobRoundtrip OperationCodec Keyspace Store Prog Logic System Transition Claim.
From S2P Require Import Refs Invariant Update Steps.

Definition leased (s : JobState) : Prop := ∃ l, s = Leased l.

Section moves.
Context (ns : Namespace) (sha256 : bytes → bytes) (Hns : is_opaque MAX_NAMESPACE_BYTES ns = true).
#[local] Instance disc : Discipline := engine_discipline ns sha256.
Implicit Types m : StoreMap.
Implicit Types j : JobId.
Implicit Types r : JobRecordV1.
Implicit Types w : world.
Implicit Types l : Lease.
Implicit Types q : QueueName.
Implicit Types ms : list Mutation.
Implicit Types K : list StoreKey.

(** ** What the store holds of a job *)

(** A lease and the permits [K] it holds. *)
Record lease_now w j r l K : Prop := {
  ln_record : record_at ns (w_now w) j = Some r;
  ln_leased : jr_state r = Leased l;
  ln_permits k : is_permit ns k → w_now w !! k = Some (permit_layout r l) ↔ k ∈ K;
}.

Lemma leased_permit r l : jr_state r = Leased l → permit_of r = Some (permit_layout r l).
Proof. intros Hl. unfold permit_of. by rewrite Hl. Qed.
Lemma unleased_permit r : ¬ leased (jr_state r) → permit_of r = None.
Proof. intros Hl. unfold permit_of. destruct (jr_state r) eqn:Hs; try done. destruct Hl. by eexists. Qed.

Section now.
Context (w : world) (Hv : valid_world ns sha256 w) (j : JobId) (Hj : is_fixed_id j = true).
Context (r : JobRecordV1) (Hr : record_at ns (w_now w) j = Some r).

Lemma now_job_inv : job_inv ns sha256 (w_now w) j.
Proof. by apply Hv. Qed.

Lemma now_names : is_job_record r = true ∧ jr_job_id r = j ∧ jr_namespace r = ns ∧ record_names r.
Proof.
  destruct (record_at_spec ns sha256 _ _ _ now_job_inv Hr) as (e & [_ _ Ht Hjob Hn _]).
  split_and!; [done..|]. by apply typed_names.
Qed.

Lemma now_fence l : jr_state r = Leased l → fence_at ns (w_now w) j = ls_fence l.
Proof.
  apply (leased_fence ns sha256); [apply now_job_inv|done].
Qed.

Lemma now_not_cancelled : ¬ leased (jr_state r) → w_now w !! CancelK ns j = None.
Proof.
  intros Hn. destruct (w_now w !! CancelK ns j) as [c|] eqn:Hc; [|done].
  destruct (ji_cancel _ _ _ _ now_job_inv _ Hc) as (_ & r0 & l & Hr0 & Hl). simplify_eq. destruct Hn. by exists l.
Qed.

Lemma now_published : published w (jr_execution_id r).
Proof. exists (w_now w). split; [left|]. exists j, r. split_and!; [done..|by left]. Qed.

Lemma now_token l : jr_state r = Leased l → published w (ls_token l).
Proof. intros Hl. exists (w_now w). split; [left|]. exists j, r. split_and!; [done..|]. right. by exists l. Qed.

(** An index entry is one of the record's, and tells its state. *)
Lemma now_index k v : is_index ns j k → w_now w !! k = Some v → (k, v) ∈ index_entries ns r.
Proof.
  intros Hk. rewrite (ji_index _ _ _ _ now_job_inv k Hk), Hr. cbn. apply elem_of_list_to_map_2.
Qed.

Lemma now_tag k v t :
  is_index ns j k → key_tag ns k = Some t → w_now w !! k = Some v → t ∈ state_tags (jr_state r).
Proof.
  intros Hk Ht Hv'. destruct (index_entries_tag ns Hns r k v) as (t' & Ht' & Hin); [apply now_names|by apply now_index|].
  congruence.
Qed.

Lemma now_due t v :
  w_now w !! DueK ns (jr_queue r) t j = Some v →
  jr_state r = Scheduled ∧ DueK ns (jr_queue r) t j = DueK ns (jr_queue r) (jr_scheduled_at r) j.
Proof.
  destruct now_names as (_ & Hjob & _ & [_ Hq _ _ _ _ _]). intros Hk.
  pose proof (is_index_DueK ns Hns _ t _ Hq Hj) as Hi. pose proof (tag_DueK ns Hns _ t _ Hq Hj) as Ht.
  assert (jr_state r = Scheduled) as Hs.
  { pose proof (now_tag _ _ _ Hi Ht Hk) as Hin. revert Hin. destruct (jr_state r); cbn; set_solver. }
  split; [done|]. pose proof (now_index _ _ Hi Hk) as Hin. unfold index_entries in Hin. rewrite Hs, Hjob in Hin.
  apply elem_of_cons in Hin as [He|[He|[]%not_elem_of_nil]%elem_of_cons]; apply (f_equal fst) in He; [exact He|].
  change (DueK ns (jr_queue r) t j = FairK ns (jr_queue r) j) in He. rewrite He, tag_FairK in Ht by done. done.
Qed.

Lemma now_leased v : w_now w !! LeaseK ns (jr_queue r) j = Some v → leased (jr_state r).
Proof.
  destruct now_names as (_ & Hjob & _ & [_ Hq _ _ _ _ _]). intros Hk.
  pose proof (now_tag _ _ _ (is_index_LeaseK ns Hns _ _ Hq Hj) (tag_LeaseK ns Hns _ _ Hq Hj) Hk) as Hin.
  destruct (jr_state r); cbn in Hin; try set_solver. by eexists.
Qed.
End now.

(** ** The next version of a record *)

(** The fields no transition changes. *)
Record same_job r r' : Prop := {
  sj_job : jr_job_id r' = jr_job_id r;
  sj_namespace : jr_namespace r' = jr_namespace r;
  sj_payload : jr_payload r' = jr_payload r;
  sj_route : same_route r r';
}.
Definition next_of r r' : Prop :=
  same_job r r' ∧ jr_execution_id r' = jr_execution_id r ∧ jr_revision r' = jr_revision r + 1.

Lemma next_version w r r' : next_of r r' → version ns sha256 w r r'.
Proof. intros ([] & Hx & Hn). split; auto. Qed.

(** ** The index entries by state *)

Section entries.
Context (r r' : JobRecordV1) (Hsame : same_job r r').

Lemma entries_scheduled :
  jr_state r' = Scheduled → index_entries ns r' =
  [(DueK ns (jr_queue r) (jr_scheduled_at r') (jr_job_id r), due_layout (jr_scheduled_at r'));
   (FairK ns (jr_queue r) (jr_job_id r), marker_layout VT_FairReady (jr_job_id r))].
Proof. destruct Hsame as [Hj _ _ (Hq & _)]. unfold index_entries. intros ->. by rewrite Hj, Hq. Qed.
Lemma entries_leased l :
  jr_state r' = Leased l → index_entries ns r' =
  [(LeaseK ns (jr_queue r) (jr_job_id r), marker_layout VT_Lease (jr_job_id r))].
Proof. destruct Hsame as [Hj _ _ (Hq & _)]. unfold index_entries. intros ->. by rewrite Hj, Hq. Qed.
Lemma entries_dead :
  jr_state r' = DeadLettered → index_entries ns r' =
  [(DeadK ns (jr_queue r) (jr_job_id r), marker_layout VT_DeadLetter (jr_job_id r))].
Proof. destruct Hsame as [Hj _ _ (Hq & _)]. unfold index_entries. intros ->. by rewrite Hj, Hq. Qed.
Lemma entries_none : jr_state r' = Cancelled ∨ jr_state r' = Suspended → index_entries ns r' = [].
Proof. unfold index_entries. by intros [->| ->]. Qed.
End entries.

Lemma same_job_refl r : same_job r r.
Proof. split; [done..|]. by split_and!. Qed.

(** ** Mutations *)

Lemma touch_deletes j o' C K :
  Forall (is_permit ns) K → Forall (touch ns j o' (λ mu, mu ∈ Delete <$> K) C) (Delete <$> K).
Proof.
  intros HK. apply Forall_forall. intros mu Hmu. apply T_permit; [|done].
  apply list_elem_of_fmap in Hmu as (k & -> & Hk). rewrite Forall_forall in HK. by apply HK.
Qed.

Lemma touch_puts j o' C K pv :
  Forall (is_permit ns) K →
  Forall (touch ns j o' (λ mu, mu ∈ (λ k, Put k pv) <$> K) C) ((λ k, Put k pv) <$> K).
Proof.
  intros HK. apply Forall_forall. intros mu Hmu. apply T_permit; [|done].
  apply list_elem_of_fmap in Hmu as (k & -> & Hk). rewrite Forall_forall in HK. by apply HK.
Qed.

Lemma touch_no_wake j o' P C ms :
  is_fixed_id j = true → Forall (touch ns j o' P C) ms → Forall (λ mu, ¬ is_wake ns (Mutation_key mu)) ms.
Proof.
  intros Hj Ht. eapply Forall_impl; [exact Ht|]. intros mu. cbn. unfold is_wake.
  intros [->| -> | -> |[_ Hk] _|_ [_ ->]|Hk _| ->] Hw; try (unfold is_permit in *; congruence).
  - by rewrite tag_JobK in Hw.
  - by rewrite tag_OpK in Hw.
  - by rewrite tag_CancelK in Hw.
  - by rewrite Hw in Hk.
Qed.

(** Keys of another kind are not written. *)
Definition without (t : KeyTag) ms : Prop := Forall (λ mu, key_tag ns (Mutation_key mu) ≠ Some t) ms.

Lemma without_key k t ms : key_tag ns k = Some t → without t ms → k ∉ Mutation_key <$> ms.
Proof.
  intros Hk Hw (mu & -> & Hin)%list_elem_of_fmap. unfold without in Hw. rewrite Forall_forall in Hw.
  by apply (Hw mu Hin).
Qed.

Lemma without_permits t (f : StoreKey → Mutation) K :
  t ≠ KT_Permit → (∀ k, Mutation_key (f k) = k) → Forall (is_permit ns) K → without t (f <$> K).
Proof.
  intros Ht Hf HK. unfold without. apply Forall_fmap. eapply Forall_impl; [exact HK|]. intros k Hk. cbn.
  rewrite Hf, Hk. congruence.
Qed.

Lemma permit_checks_no_wake (f : StoreKey → Check) K :
  (∀ k, Check_key (f k) = k) → Forall (is_permit ns) K → Forall (λ c, ¬ is_wake ns (Check_key c)) (f <$> K).
Proof.
  intros Hf HK. apply Forall_fmap. eapply Forall_impl; [exact HK|]. intros k Hk. cbn. rewrite Hf. unfold is_wake.
  rewrite Hk. done.
Qed.

Lemma touch_put j r' P C k v :
  is_job_record r' = true → is_index ns j k → (k, v) ∈ index_entries ns r' → touch ns j (Some r') P C (Put k v).
Proof. intros Ht Hk Hin. apply T_index; [done|]. symmetry. by apply (index_at_in ns Hns). Qed.

Lemma touch_gone j P C k : is_index ns j k → touch ns j None P C (Delete k).
Proof. intros Hk. by apply T_index. Qed.

Lemma touch_delete j r' P C k t :
  is_job_record r' = true → is_index ns j k → key_tag ns k = Some t → t ∉ state_tags (jr_state r') →
  touch ns j (Some r') P C (Delete k).
Proof. intros Ht Hk Htag Hn. apply T_index; [done|]. symmetry. by apply (index_at_none ns Hns r' k t). Qed.

(** The index entries of the old record are rewritten, those of the new one
    written. *)
Record reindexed ms r r' : Prop := {
  re_old k v : (k, v) ∈ index_entries ns r → k ∈ Mutation_key <$> ms;
  re_new k v : (k, v) ∈ index_entries ns r' → Put k v ∈ ms;
}.

Lemma put_key k v ms : Put k v ∈ ms → k ∈ Mutation_key <$> ms.
Proof. intros Hin. apply list_elem_of_fmap. by exists (Put k v). Qed.
Lemma delete_key k ms : Delete k ∈ ms → k ∈ Mutation_key <$> ms.
Proof. intros Hin. apply list_elem_of_fmap. by exists (Delete k). Qed.

Lemma reindexed_covered ms r r' : reindexed ms r r' → covered ns ms (Some r) (Some r').
Proof.
  intros [Ho Hn] k v (r0 & [[= <-]|[= <-]] & Hin); left; [by eapply Ho|]. by eapply put_key, Hn.
Qed.

(** The entry of a job that holds no cancellation afterwards. *)
Definition uncancelled w j ms : Prop :=
  w_now w !! CancelK ns j = None ∧ CancelK ns j ∉ Mutation_key <$> ms ∨ Delete (CancelK ns j) ∈ ms.

Lemma uncancelled_after w j ms :
  NoDup (Mutation_key <$> ms) → uncancelled w j ms → apply_mutations (w_now w) ms !! CancelK ns j = None.
Proof. intros Hnd [[Hn Hk]|Hd]; [by rewrite apply_other|by apply apply_delete]. Qed.

(** ** Operation entries *)

(** The entry [v] of an operation that carries the fence [f]. *)
Definition op_entry j (v : bytes) (f : Z) : Prop := ∃ id, decode_active_operation v j = Ok (id, f).

Lemma op_entry_idle j v f s : ¬ leased s → op_entry j v f → op_inv j (Some s) (Some v).
Proof.
  intros Hs [id Hd]. destruct s; cbn; eauto 6.
  - right. destruct (decode_authority_active _ _ _ _ Hd) as [a Ha]. eauto.
  - destruct Hs. by eexists.
Qed.
Lemma op_entry_leased j v l : op_entry j v (ls_fence l) → op_inv j (Some (Leased l)) (Some v).
Proof. intros [id Hd]. cbn. eauto. Qed.
Lemma op_entry_fence j v f : op_entry j v f → fence_of j (Some v) = f.
Proof. by intros [id (_ & _ & Hf & _)%decode_active_fence]. Qed.
Lemma op_entry_new j id f v :
  is_fixed_id j = true → is_fixed_id id = true → is_u64 f = true → operation_value j id f = Ok v → op_entry j v f.
Proof. intros. exists id. by eapply operation_value_decodes. Qed.

(** ** Leaving a lease *)

Section leave.
Context (w : world) (ms : list Mutation) (j : JobId) (r r' : JobRecordV1) (l : Lease) (K : list StoreKey).
Context (e' ov : bytes).
Context (Hv : valid_world ns sha256 w) (Hj : is_fixed_id j = true) (Hnd : NoDup (Mutation_key <$> ms)).
Context (Hl : lease_now w j r l K).
Context (Hput : Put (JobK ns j) e' ∈ ms) (Hdec : decode_job_record e' = Ok r') (Hnext : next_of r r').
Context (Ht : Forall (touch ns j (Some r') (λ mu, mu ∈ Delete <$> K) (λ _, False)) ms).
Context (Hidle : ¬ leased (jr_state r')) (Hre : reindexed ms r r').
Context (Hop : Put (OpK ns j) ov ∈ ms) (Hov : op_entry j ov (ls_fence l)).
Context (HK : ∀ k, k ∈ K → Delete k ∈ ms) (Hcan : uncancelled w j ms).

Lemma good_leave :
  good_state ns sha256 w (apply_mutations (w_now w) ms) ∧
  ∀ id, visible_id ns (apply_mutations (w_now w) ms) id → published w id.
Proof.
  destruct Hl as [Hr Hs Hper].
  assert (apply_mutations (w_now w) ms !! OpK ns j = Some ov) as Hopv by by apply apply_put.
  destruct (good_next ns sha256 Hns w ms j r r' e' (λ mu, mu ∈ Delete <$> K)) as [Hg Hvis]; try done.
  - by apply next_version.
  - by apply reindexed_covered.
  - rewrite Hopv. by eapply op_entry_idle.
  - rewrite (now_fence w Hv j Hj r Hr l Hs). unfold fence_at. rewrite Hopv, (op_entry_fence j ov (ls_fence l)); done.
  - intros v. by rewrite uncancelled_after.
  - eapply (permits_drop ns sha256 Hns w ms j (Some r')); [done..| |exact Hr|by apply leased_permit| |done|done|done].
    + by apply (next_record ns w ms j r' e').
    + intros ? [= <-]. by apply unleased_permit.
  - split; [done|]. intros id Hid. destruct (Hvis id Hid) as [?|[->|(l' & Hl' & _)]]; [done| |].
    + destruct Hnext as (_ & -> & _). by eapply now_published.
    + destruct Hidle. by eexists.
Qed.
End leave.

(** ** Keeping a lease *)

Section renew.
Context (w : world) (ms : list Mutation) (j : JobId) (r r' : JobRecordV1) (l l' : Lease) (K : list StoreKey).
Context (e' ov : bytes).
Context (Hv : valid_world ns sha256 w) (Hj : is_fixed_id j = true) (Hnd : NoDup (Mutation_key <$> ms)).
Context (Hl : lease_now w j r l K).
Context (Hput : Put (JobK ns j) e' ∈ ms) (Hdec : decode_job_record e' = Ok r') (Hnext : next_of r r').
Context (Hl' : jr_state r' = Leased l') (Hsame : permit_of r' = permit_of r) (Htok : ls_token l' = ls_token l).
Context (Hfence : ls_fence l' = ls_fence l).
Context (Ht : Forall (touch ns j (Some r') (λ mu, mu ∈ (λ k, Put k (permit_layout r l)) <$> K) (λ _, False)) ms).
Context (Hop : Put (OpK ns j) ov ∈ ms) (Hov : op_entry j ov (ls_fence l)).
Context (HKp : Forall (is_permit ns) K).
Context (Hcan : w_now w !! CancelK ns j = None) (Hcan' : CancelK ns j ∉ Mutation_key <$> ms).

Lemma renew_index : index_entries ns r' = index_entries ns r.
Proof.
  destruct Hnext as ([Hjob _ _ (Hq & _)] & _). destruct Hl as [_ Hs _]. unfold index_entries.
  by rewrite Hs, Hl', Hjob, Hq.
Qed.

Lemma good_renew :
  good_state ns sha256 w (apply_mutations (w_now w) ms) ∧
  ∀ id, visible_id ns (apply_mutations (w_now w) ms) id → published w id.
Proof.
  destruct Hl as [Hr Hs Hper].
  assert (apply_mutations (w_now w) ms !! OpK ns j = Some ov) as Hopv by by apply apply_put.
  destruct (good_next ns sha256 Hns w ms j r r' e' (λ mu, mu ∈ (λ k, Put k (permit_layout r l)) <$> K)) as [Hg Hvis];
    try done.
  - by apply next_version.
  - intros k v _. right. cbn. by rewrite renew_index.
  - rewrite Hopv, Hl'. apply op_entry_leased. by rewrite Hfence.
  - rewrite (now_fence w Hv j Hj r Hr l Hs). unfold fence_at. rewrite Hopv, (op_entry_fence j ov (ls_fence l)); done.
  - intros v. rewrite apply_other by done. congruence.
  - eapply (permits_keep ns sha256 Hns w ms j (Some r')); [done..| |exact Hr|done|done| |].
    + by apply (next_record ns w ms j r' e').
    + apply Hnext.
    + intros mu (k & -> & Hk)%list_elem_of_fmap. cbn. symmetry. apply Hper; [|done].
      rewrite Forall_forall in HKp. by apply HKp.
  - split; [done|]. intros id Hid. destruct (Hvis id Hid) as [?|[->|(l0 & Hl0 & <-)]]; [done| |].
    + destruct Hnext as (_ & -> & _). by eapply now_published.
    + assert (l0 = l') as -> by congruence. rewrite Htok. by eapply now_token.
Qed.
End renew.

(** ** Moves without a lease *)

Section idle.
Context (w : world) (ms : list Mutation) (j : JobId) (r r' : JobRecordV1) (e' : bytes).
Context (Hv : valid_world ns sha256 w) (Hj : is_fixed_id j = true) (Hnd : NoDup (Mutation_key <$> ms)).
Context (Hr : record_at ns (w_now w) j = Some r).
Context (Hput : Put (JobK ns j) e' ∈ ms) (Hdec : decode_job_record e' = Ok r') (Hver : version ns sha256 w r r').
Context (Ht : Forall (touch ns j (Some r') (λ _, False) (λ _, False)) ms).
Context (Hidle : ¬ leased (jr_state r)) (Hidle' : ¬ leased (jr_state r')) (Hre : reindexed ms r r').
Context (Hcan : CancelK ns j ∉ Mutation_key <$> ms).

Lemma good_idle :
  op_inv j (Some (jr_state r')) (apply_mutations (w_now w) ms !! OpK ns j) →
  fence_at ns (w_now w) j ≤ fence_of j (apply_mutations (w_now w) ms !! OpK ns j) →
  good_state ns sha256 w (apply_mutations (w_now w) ms) ∧
  ∀ id, visible_id ns (apply_mutations (w_now w) ms) id → published w id ∨ id = jr_execution_id r'.
Proof.
  intros Hop Hfe. destruct (good_next ns sha256 Hns w ms j r r' e' (λ _, False)) as [Hg Hvis]; try done.
  - by apply reindexed_covered.
  - intros v. rewrite apply_other by done. by rewrite (now_not_cancelled w Hv j Hj r Hr).
  - eapply (permits_none ns sha256 Hns w ms j (Some r')); [done..| | | |naive_solver].
    + by apply (next_record ns w ms j r' e').
    + intros r0 Hr0. simplify_eq. by apply unleased_permit.
    + intros ? [= <-]. by apply unleased_permit.
  - split; [done|]. intros id Hid. destruct (Hvis id Hid) as [?|[->|(l0 & Hl0 & <-)]]; [auto..|].
    destruct Hidle'. by eexists.
Qed.
End idle.

(** ** Taking a lease *)

Lemma scope_not_ordering r slot k :
  permit_record r → k ∈ scope_permit_keys ns r slot → k ∉ ordering_permit_keys ns r.
Proof.
  intros (Hq & Hf & Ho). unfold scope_permit_keys, ordering_permit_keys.
  destruct (jr_fairness r) as [[p o]|]; [|set_solver]. destruct (jr_ordering_key r) as [ord|]; [|set_solver].
  cbn in Hf, Ho. unfold is_fairness_path in Hf. cbn in Hf. split_andb. cbn [fp_primary fp_secondary].
  destruct o as [s|]; cbn in Hf; rewrite !elem_of_cons, !elem_of_nil.
  all: intros Hk Hk'; destruct_or?; subst; try done.
  all: match goal with H : key_layout _ _ _ = key_layout _ _ _ |- _ =>
    apply key_layout_small_inj in H as (_ & _ & H); [|done|done|small_list|small_list|small_count|small_count] end.
  all: discriminate.
Qed.

(** A lease that holds all permits of a slot holds that slot. *)
Lemma slot_full m r pv slot slot' :
  permit_record r → 0 ≤ slot' < MAX_DURABLE_PERMIT_SLOTS → holds_slot ns m r pv slot →
  (∀ k, k ∈ slot_keys ns r slot' → m !! k = Some pv) → slot_keys ns r slot' = slot_keys ns r slot.
Proof.
  intros Hp Hb' [Hb Hs] Hall. destruct (scope_permit_keys ns r slot') as [|k ks] eqn:Hk.
  - unfold slot_keys. rewrite Hk. f_equal. revert Hk. unfold scope_permit_keys. by destruct (jr_fairness r).
  - assert (k ∈ scope_permit_keys ns r slot') as Hin by (rewrite Hk; left).
    assert (k ∈ slot_keys ns r slot') as Hin' by (apply elem_of_app; by left).
    pose proof (Hall k Hin') as Hm. apply Hs in Hm; [|by eapply slot_keys_permit].
    apply elem_of_app in Hm as [Hx|Hx].
    + assert (slot' = slot) as ->; [|done]. eapply (scope_permit_slot ns r); [done..| | |done|done];
        unfold MAX_DURABLE_PERMIT_SLOTS in *; ranges; lia.
    + by destruct (scope_not_ordering r slot' k Hp Hin).
Qed.

Section take.
Context (w : world) (ms : list Mutation) (j : JobId) (r r' : JobRecordV1) (l' : Lease) (slot : Z).
Context (e' ov : bytes).
Context (Hv : valid_world ns sha256 w) (Hj : is_fixed_id j = true) (Hnd : NoDup (Mutation_key <$> ms)).
Context (Hr : record_at ns (w_now w) j = Some r).
Context (Hput : Put (JobK ns j) e' ∈ ms) (Hdec : decode_job_record e' = Ok r') (Hnext : next_of r r').
Context (Hl' : jr_state r' = Leased l') (Hslot : 0 ≤ slot < MAX_DURABLE_PERMIT_SLOTS).
Context (Hpub : ¬ published w (ls_token l')).
Context (Ht : Forall (touch ns j (Some r')
  (λ mu, mu ∈ (λ k, Put k (permit_layout r' l')) <$> slot_keys ns r' slot) (λ _, False)) ms).
Context (Hputs : ∀ k, k ∈ slot_keys ns r' slot → Put k (permit_layout r' l') ∈ ms).
Context (Hre : reindexed ms r r') (Hop : Put (OpK ns j) ov ∈ ms) (Hov : op_entry j ov (ls_fence l')).
Context (Hfence : fence_at ns (w_now w) j < ls_fence l').
Context (Hcan : w_now w !! CancelK ns j = None) (Hcan' : CancelK ns j ∉ Mutation_key <$> ms).
Context (Hold : ∀ k, k ∈ slot_keys ns r' slot → w_now w !! k = permit_of r).

Lemma good_take :
  good_state ns sha256 w (apply_mutations (w_now w) ms) ∧
  ∀ id, visible_id ns (apply_mutations (w_now w) ms) id → published w id ∨ id = ls_token l'.
Proof.
  destruct (now_names w Hv j Hj r Hr) as (Htyp & Hjob & _ & Hnames).
  assert (apply_mutations (w_now w) ms !! OpK ns j = Some ov) as Hopv by by apply apply_put.
  assert (slot_keys ns r' slot = slot_keys ns r slot) as Hsk by (apply slot_keys_route, Hnext).
  assert (permit_at ns (w_now w) j = permit_of r) as Hat by (unfold permit_at; by rewrite Hr).
  destruct (good_next ns sha256 Hns w ms j r r' e'
    (λ mu, mu ∈ (λ k, Put k (permit_layout r' l')) <$> slot_keys ns r' slot)) as [Hg Hvis]; try done.
  - by apply next_version.
  - by apply reindexed_covered.
  - rewrite Hopv, Hl'. by apply op_entry_leased.
  - unfold fence_at at 2. rewrite Hopv, (op_entry_fence j ov (ls_fence l')) by done. lia.
  - intros v. rewrite apply_other by done. congruence.
  - eapply (permits_take ns sha256 Hns w ms j (Some r')); try done.
    + by apply (next_record ns w ms j r' e').
    + by eapply decode_typed.
    + by apply leased_permit.
    + intros k Hk. right. rewrite Hat. auto.
    + intros k Hk Hout. rewrite Hat. destruct (permit_of r) as [pv|] eqn:Hpv; [|destruct (w_now w !! k); auto].
      right. intros Hx. destruct (so_slot _ _ _ (now_ok ns sha256 w Hv) j r pv Hj Hr Hpv) as (slot0 & Hh).
      apply Hh in Hx; [|done]. apply Hout. rewrite Hsk. rewrite (slot_full (w_now w) r pv slot0 slot); try done.
      * apply Hnames.
      * intros k0 Hk0. apply Hold. by rewrite Hsk.
  - split; [done|]. intros id Hid. destruct (Hvis id Hid) as [?|[->|(l0 & Hl0 & <-)]]; [by left| |].
    + left. destruct Hnext as (_ & -> & _). by eapply now_published.
    + right. congruence.
Qed.
End take.
End moves.

(** ** Automation for transactions written out as lists *)

(** Membership in a list written out. *)
Ltac mem :=
  lazymatch goal with
  | |- ?x ∈ ?x :: _ => apply list_elem_of_here
  | |- _ ∈ _ :: _ => apply list_elem_of_further; mem
  | |- _ ∈ _ ++ _ => first [apply elem_of_app; left; mem|apply elem_of_app; right; mem]
  | |- Delete _ ∈ Delete <$> _ => apply list_elem_of_fmap_2; assumption
  | |- Put ?k ?v ∈ _ <$> _ => apply (list_elem_of_fmap_2 (λ k, Put k v)); assumption
  | |- Value ?k ?v ∈ _ <$> _ => apply (list_elem_of_fmap_2 (λ k, Value k v)); assumption
  | |- Absent _ ∈ Absent <$> _ => apply list_elem_of_fmap_2; assumption
  end.

(** One index mutation of a transaction to the record [r'], whose entries [Hen]
    gives and whose state [Hs]. *)
Ltac touch_index Hs Hen :=
  lazymatch goal with
  | |- touch _ _ _ _ _ (Put ?k _) =>
      apply touch_put; [assumption|assumption|index_kind k|rewrite Hen; mem]
  | |- touch _ _ _ _ _ (Delete ?k) =>
      eapply touch_delete; [assumption|assumption|index_kind k|index_tag k|rewrite Hs; set_solver]
  end
with index_kind k :=
  lazymatch k with
  | DueK _ _ _ _ => apply is_index_DueK; assumption
  | FairK _ _ _ => apply is_index_FairK; assumption
  | LeaseK _ _ _ => apply is_index_LeaseK; assumption
  | DeadK _ _ _ => apply is_index_DeadK; assumption
  end
with index_tag k :=
  lazymatch k with
  | DueK _ _ _ _ => apply tag_DueK; assumption
  | FairK _ _ _ => apply tag_FairK; assumption
  | LeaseK _ _ _ => apply tag_LeaseK; assumption
  | DeadK _ _ _ => apply tag_DeadK; assumption
  end.

Ltac split_Forall :=
  repeat lazymatch goal with
  | |- Forall _ [] => apply Forall_nil_2
  | |- Forall _ (_ :: _) => apply Forall_cons_2
  | |- Forall _ (_ ++ _) => apply Forall_app; split
  end.

(** The kinds of keys in checks and mutations. *)
Ltac tag_differs :=
  cbn [Mutation_key Check_key]; unfold is_wake;
  first
    [ rewrite tag_JobK by assumption | rewrite tag_OpK by assumption | rewrite tag_CancelK by assumption
    | rewrite tag_DueK by assumption | rewrite tag_FairK by assumption | rewrite tag_LeaseK by assumption
    | rewrite tag_DeadK by assumption ];
  discriminate.
Ltac tags :=
  unfold without; split_Forall;
  first
    [ assumption
    | tag_differs
    | apply without_permits; [discriminate|reflexivity|assumption]
    | apply permit_checks_no_wake; [reflexivity|assumption] ].

(** All mutations of a transaction. *)
Ltac touches Hs Hen :=
  split_Forall;
  try lazymatch goal with
  | |- touch _ _ _ _ _ (_ (JobK _ _) _) => apply T_job; reflexivity
  | |- touch _ _ _ _ _ (_ (OpK _ _) _) => apply T_op; reflexivity
  | |- touch _ _ _ _ _ (_ (CancelK _ _)) => apply T_cancel; reflexivity
  | |- touch _ _ _ _ _ _ => touch_index Hs Hen
  end.

(** The keys of a transaction. *)
Ltac mem_key := rewrite ?fmap_app; cbn [fmap list_fmap Mutation_key]; mem.

(** Each of the index entries in [H], a list written out. *)
Ltac each_entry H tac :=
  lazymatch type of H with
  | _ ∈ [] => by apply not_elem_of_nil in H
  | _ ∈ _ :: _ => apply elem_of_cons in H as [H|H]; [injection H as -> ->; tac|each_entry H tac]
  end.

(** The index entries [Hen0] of the old record are rewritten, those [Hen] of the
    new one written. *)
Ltac reindex Hen0 Hen :=
  split;
  [ let H := fresh in intros ? ? H; rewrite Hen0 in H; each_entry H ltac:(idtac; mem_key)
  | let H := fresh in intros ? ? H; rewrite Hen in H; each_entry H ltac:(idtac; mem) ].
