(* ===== verification/Held.v ===== *)
(** * Claims and the transactions they authorize

    [claim_held] is what is known of a claim for as long as its holder keeps
    it: its record was written with its lease, and it names the permits the
    lease took.  Nothing of it says that the lease still stands; the checks
    of every transaction do.  The transactions of [Transition] and
    [Completion] are shown to keep the invariant on this ground alone. *)

From S2P Require Import Prelude Errors Ids Clock Policy JobRecord Wire KeyCodec ValueCodec JobCodec.
From S2P Require Import JobRoundtrip OperationCodec Keyspace Store Prog Logic System Transition Claim Completion.
From S2P Require Import Refs Invariant Update Protocol Steps Moves.

(** ** Programs and the past *)

Section grows.
Context `{!Discipline} {E : Type}.
Implicit Types w : world.
Implicit Types mine ids : gset bytes.

(** Whatever a program does, what was is still part of the past. *)
Lemma wp_grows {A} mine w (p : prog E A) (Φ : A → gset bytes → world → Prop) :
  valid w → wp mine w p Φ → wp mine w p (λ a mine' w', Φ a mine' w' ∧ extends ∅ w w').
Proof.
  revert mine w. induction p as [a|X o k IH]; intros mine w Hv Hp; cbn in *.
  - intros w' He. split; [by apply Hp|]. apply (extends_weaken mine); [set_solver|done].
  - intros w1 He x mine' w2 Ho. destruct (Hp w1 He x mine' w2 Ho) as [Hs Hk]. split; [done|].
    eapply wp_mono; [apply IH; [by destruct Hs|exact Hk]|]. intros a mine3 w3 _ [Ha He3]. split; [done|].
    destruct (op_grows _ _ _ _ _ _ Ho) as (H1 & H2 & H3). eapply extends_trans; [|exact He3].
    eapply extends_trans; [apply (extends_weaken mine); [set_solver|exact He]|].
    split; [done|done|done|by destruct Hs|set_solver|set_solver].
Qed.

Lemma extends_empty mine w w' : extends mine w w' → extends ∅ w w'.
Proof. apply extends_weaken. set_solver. Qed.
End grows.

Lemma checked_revision {E} (e : JobSystemError E) a n :
  0 ≤ a → ok_or e (checked_add_u64 a 1) = Ok n → n = a + 1 ∧ is_u64 n = true.
Proof.
  intros Ha. unfold checked_add_u64. destruct (checked 0 U64_MAX (a + 1)) as [x|] eqn:Hx; [|done]. cbn. intros [= <-].
  apply checked_Some in Hx as [-> Hb]. split; [done|]. ranges. lia.
Qed.

Lemma next_revision_Ok {E} r n :
  is_job_record r = true → next_revision (E := E) r = Ok n → n = jr_revision r + 1 ∧ is_u64 n = true.
Proof.
  intros [_ _ _ _ Hr _ _]%typed_names. apply checked_revision. ranges. lia.
Qed.

Section held.
Context (ns : Namespace) (sha256 : bytes → bytes) (Hns : is_opaque MAX_NAMESPACE_BYTES ns = true).
#[local] Instance disc : Discipline := engine_discipline ns sha256.
Implicit Types m : StoreMap.
Implicit Types j : JobId.
Implicit Types r : JobRecordV1.
Implicit Types w : world.
Implicit Types l : Lease.
Implicit Types ms : list Mutation.
Implicit Types c : ClaimedJob.
Implicit Types mine ids : gset bytes.

(** ** Claims *)

Record claim_held w c r l : Prop := {
  ch_decodes : decode_job_record (cj_encoded c) = Ok r;
  ch_leased : jr_state r = Leased l;
  ch_written : ∃ m, m ∈ states w ∧ m !! JobK ns (jr_job_id r) = Some (cj_encoded c) ∧
    ∀ k, is_permit ns k → m !! k = Some (permit_layout r l) ↔ k ∈ cj_permit_keys c;
  ch_permits : Forall (is_permit ns) (cj_permit_keys c);
  ch_job : jr_job_id (cj_record c) = jr_job_id r;
  ch_operation : is_fixed_id (cj_operation_id c) = true;
  ch_attempt : is_fixed_id (cj_attempt_id c) = true;
  ch_fence : cj_fence_high_water c = ls_fence l;
  ch_lease_key : cj_lease_key c = LeaseK ns (jr_queue r) (jr_job_id r);
  ch_fair_key : cj_fair_key c = FairK ns (jr_queue r) (jr_job_id r);
  ch_due_key k : cj_due_key c = Some k → ∃ t, k = DueK ns (jr_queue r) t (jr_job_id r);
}.

(** A claim whose record is the one persisted. *)
Definition claim_ok w c : Prop := ∃ l, claim_held w c (cj_record c) l.

Lemma claim_held_extends w w' c r l : extends ∅ w w' → claim_held w c r l → claim_held w' c r l.
Proof.
  intros He [Hd Hl (m & Hm & Hr) Hp Hj Hop Hat Hf Hlk Hfk Hdk]. split; try done. exists m. split; [|done].
  by eapply extends_state.
Qed.

Lemma claim_held_record w c r l r' :
  claim_held w c r l → jr_job_id r' = jr_job_id r → claim_held w (set_record c r') r l.
Proof. intros []. split; try done. Qed.

Lemma claim_held_typed w c r l : claim_held w c r l → is_job_record r = true.
Proof. intros []. by eapply decode_typed. Qed.

(** The value [v] was durable at [key]. *)
Definition recorded_bytes w (key : StoreKey) (v : bytes) : Prop := ∃ m, m ∈ states w ∧ m !! key = Some v.

(** While the record is still there, so is the lease and what it holds. *)
Lemma claim_now w c r l :
  valid_world ns sha256 w → claim_held w c r l →
  w_now w !! JobK ns (jr_job_id r) = Some (cj_encoded c) →
  lease_now ns w (jr_job_id r) r l (cj_permit_keys c).
Proof.
  intros Hv [Hd Hl (m & Hm & He & Hk) _ _ _ _ _ _ _ _] Hnow.
  assert (is_fixed_id (jr_job_id r) = true) as Hj by by eapply rn_job, typed_names, decode_typed.
  pose proof (record_at_decode ns _ _ _ _ Hnow Hd) as Hr. pose proof (record_at_decode ns _ _ _ _ He Hd) as Hr0.
  split; [done|done|]. intros k Hp. rewrite <- (Hk k Hp). symmetry.
  apply (fo_permits _ _ _ _ (past_follows ns sha256 w Hv m _ Hm Hj) r r); try done; by apply leased_permit.
Qed.

Lemma claim_chunks w c r l :
  valid_world ns sha256 w → claim_held w c r l →
  validate_chunk_keys (E := unit) ns (jr_job_id r) 0 (pm_chunk_keys (jr_payload r)) = Ok tt.
Proof.
  intros Hv Hc. pose proof (claim_held_typed _ _ _ _ Hc) as [Hj _ _ _ _ _ _]%typed_names.
  destruct Hc as [Hd _ (m & Hm & He & _) _ _ _ _ _ _ _ _].
  pose proof (past_inv ns sha256 w Hv m _ Hm Hj) as Hi.
  destruct (ji_record _ _ _ _ Hi _ He) as (r0 & Hd0 & _ & _ & Hch). congruence.
Qed.

(** Of two states of the past, one follows the other. *)
Lemma past_total w m1 m2 j :
  valid_world ns sha256 w → m1 ∈ states w → m2 ∈ states w → is_fixed_id j = true →
  follows ns m1 m2 j ∨ follows ns m2 m1 j.
Proof.
  intros Hv H1 H2 Hj. pose proof (vw_history _ _ _ Hv) as Hh.
  apply list_elem_of_split in H2 as (newer & older & Heq). rewrite Heq in H1, Hh.
  apply elem_of_app in H1 as [Hin|Hin]; [right|left; by eapply history_follows].
  apply list_elem_of_split in Hin as (a & b & ->). rewrite <- app_assoc in Hh. cbn in Hh.
  eapply history_follows; [exact Hh|done|]. set_solver.
Qed.

(** A later version of the lease, with the same permits, is held as well. *)
Lemma claim_held_next w c r l c' r' l' :
  valid_world ns sha256 w → claim_held w c r l → same_job r r' → jr_state r' = Leased l' →
  permit_layout r' l' = permit_layout r l → ls_fence l' = ls_fence l →
  decode_job_record (cj_encoded c') = Ok r' → recorded_bytes w (JobK ns (jr_job_id r)) (cj_encoded c') →
  jr_job_id (cj_record c') = jr_job_id r → is_fixed_id (cj_operation_id c') = true →
  cj_attempt_id c' = cj_attempt_id c → cj_permit_keys c' = cj_permit_keys c →
  cj_fence_high_water c' = cj_fence_high_water c → cj_lease_key c' = cj_lease_key c →
  cj_fair_key c' = cj_fair_key c → cj_due_key c' = cj_due_key c → claim_held w c' r' l'.
Proof.
  intros Hv [Hd Hl (m0 & Hm0 & He0 & Hk) Hp Hj _ Hat Hf Hlk Hfk Hdk] [Hj' _ _ (Hq' & _)] Hl' Hpl Hfe Hd' (m & Hm & He).
  intros Hjc Hopc Hac Hpc Hfc Hlc Hfac Hdc.
  assert (is_fixed_id (jr_job_id r) = true) as Hfix by by eapply rn_job, typed_names, decode_typed.
  split; rewrite ?Hpc, ?Hac, ?Hlc, ?Hfac, ?Hdc, ?Hj', ?Hq'; try done; [|congruence].
  exists m. split; [done|]. split; [done|]. intros k Hpk. rewrite Hpl, <- (Hk k Hpk).
  pose proof (record_at_decode ns _ _ _ _ He0 Hd) as Hr0. pose proof (record_at_decode ns _ _ _ _ He Hd') as Hr.
  assert (permit_of r' = Some (permit_layout r l)) as Hpr' by (rewrite <- Hpl; by apply leased_permit).
  destruct (past_total w m0 m (jr_job_id r) Hv Hm0 Hm Hfix) as [Hfo|Hfo].
  - symmetry. by apply (fo_permits _ _ _ _ Hfo r r'); [..|apply leased_permit| |].
  - by apply (fo_permits _ _ _ _ Hfo r' r); [..|apply leased_permit|].
Qed.

(** ** Effects *)

Lemma recorded_extends mine w w' key v : extends mine w w' → recorded_bytes w key v → recorded_bytes w' key v.
Proof. intros He (m & Hm & Hr). exists m. split; [by eapply extends_state|done]. Qed.

Section rules.
Context {E : Type} (system : JobSystem) (Hsys : system_ok ns sha256 system).

Lemma wpj_commit_effect ids mine w tx checks ms key v old conflict :
  tx_good ns sha256 ids mine w tx checks ms → ¬ is_wake ns key → Put key v ∈ ms →
  wpj mine w (commit_transition (E := E) system tx key old (Some v) conflict)
    (λ _ _ w', recorded_bytes w' key v).
Proof.
  intros Hg Hk Hp. eapply wpj_mono; [by apply (wpj_commit_transition ns sha256 Hns system Hsys ids mine w tx checks ms)|].
  intros _ mine' w' _ (_ & _ & [(m & m' & _ & Hm' & _ & Hnd & Ha)|(_ & m & Hm & He)]); [|by exists m].
  exists m'. split; [done|]. rewrite (Ha key Hk). by apply apply_put.
Qed.

Lemma wpj_commit_record ids mine w tx checks ms c r l e' :
  claim_held w c r l → tx_good ns sha256 ids mine w tx checks ms → Put (JobK ns (jr_job_id r)) e' ∈ ms →
  wpj mine w (commit_record (E := E) system tx c e')
    (λ _ _ w', recorded_bytes w' (JobK ns (jr_job_id r)) e').
Proof.
  intros Hc Hg Hp. assert (is_fixed_id (jr_job_id r) = true) as Hj by by eapply rn_job, typed_names, claim_held_typed.
  unfold commit_record. rewrite (sk_namespace _ _ _ Hsys), (ch_job _ _ _ _ Hc), job_key_Ok by done.
  apply wpj_try. intros k [= <-].
  apply (wpj_commit_effect ids mine w tx checks ms); [done| |done].
  eapply key_job_not_wake. by apply key_job_JobK.
Qed.

(** A transaction of job [j], with the wake left out. *)
Lemma wpj_checked_job ids mine w j (o' : option JobRecordV1) (P C : Mutation → Prop) (checks0 checks : list Check) ms0 ms
    (Φ : StoreTransaction → gset bytes → world → Prop) :
  is_fixed_id j = true → ids ⊆ mine → ids ⊆ w_ids w → Forall (λ ck, ¬ is_wake ns (Check_key ck)) checks0 →
  Forall (touch ns j o' P C) ms0 → checks0 ⊆ checks → core ns ms = core ns ms0 →
  step_safe ns sha256 ids w checks0 ms0 →
  (∀ tx mine' w', mine ⊆ mine' → extends mine w w' → tx_good ns sha256 ids mine' w' tx checks0 ms0 → Φ tx mine' w') →
  wpj mine w (checked_transaction (E := E) system checks ms) Φ.
Proof.
  intros Hj Hi Hd Hn Ht Hsub Hcore Hs HΦ.
  apply (wpj_checked_last ns sha256 Hns system Hsys _ _ ids mine w checks0 ms0); try done.
  - split; [done|]. by eapply touch_no_wake.
  - split; [|done]. intros ck Hck _. by apply Hsub.
Qed.

(** The checks of a lease-gated transaction. *)
Lemma authority_checks_Ok w c r l checks :
  claim_held w c r l → authority_checks (E := E) system c = Ok checks →
  ∃ ov, operation_value (jr_job_id r) (cj_operation_id c) (ls_fence l) = Ok ov ∧
    checks = [Value (JobK ns (jr_job_id r)) (cj_encoded c);
              Value (LeaseK ns (jr_queue r) (jr_job_id r)) (marker_layout VT_Lease (jr_job_id r));
              Value (OpK ns (jr_job_id r)) ov]
             ++ ((λ k, Value k (permit_layout r l)) <$> cj_permit_keys c).
Proof.
  intros Hc. pose proof (claim_held_typed _ _ _ _ Hc) as Ht. pose proof (typed_names _ Ht) as [Hj _ _ _ _ _ _].
  destruct Hc as [Hd Hl _ _ Hjob _ _ Hf Hlk _ _]. unfold authority_checks, data.
  rewrite (sk_namespace _ _ _ Hsys), Hjob, job_key_Ok, lease_value_Ok, operation_key_Ok, Hf by done. cbn.
  intros H. apply bind_Ok in H as (ov & Hov & H). apply map_err_Ok in Hov. exists ov. split; [done|].
  rewrite Hd in H. cbn in H. apply bind_Ok in H as (pv & Hpv & H). apply map_err_Ok in Hpv.
  apply permit_value_Ok in Hpv; [|done]. unfold permit_of in Hpv. rewrite Hl in Hpv. simplify_eq.
  by rewrite Hlk.
Qed.
End rules.
End held.

(** A transaction whose checks are [cs] and those of its wake. *)
Ltac wp_checked_with i cs :=
  eapply wpj_checked_job with (ids := i) (checks0 := cs);
  [eassumption|eassumption|eassumption|set_solver|set_solver|
   |
   |first [done|intros ?; rewrite !elem_of_app; tauto]
   |first [eassumption|reflexivity]
   |
   |].
Ltac wp_checked i :=
  lazymatch goal with
  | |- wpj _ _ (checked_transaction _ (?cs ++ option_list _) _) _ => wp_checked_with i cs
  | |- wpj _ _ (checked_transaction _ ((?cs ++ option_list _) ++ ?cs') _) _ => wp_checked_with i (cs ++ cs')
  | |- wpj _ _ (checked_transaction _ ?cs _) _ => wp_checked_with i cs
  end.
