(* ===== verification/LeaseTx.v ===== *)
(** * Lease-gated transactions

    The transactions of [transition/transaction.rs] and
    [lifecycle/completion.rs], built from a claim: each is safe to commit in
    every store in which its checks hold. *)

From S2P Require Import Prelude Errors Ids Clock Policy JobRecord Wire KeyCodec ValueCodec JobCodec.
From S2P Require Import JobRoundtrip OperationCodec Keyspace Store Prog Logic System Transition Claim Completion.
From S2P Require Import Refs Invariant Update Protocol Steps Moves Held.

Lemma quiet_terminal_mutations {E} system c r e op t : quiet (terminal_mutations (E := E) system c r e op t).
Proof. unfold terminal_mutations. quiet. Qed.

Section lease_tx.
Context (ns : Namespace) (sha256 : bytes → bytes) (Hns : is_opaque MAX_NAMESPACE_BYTES ns = true).
#[local] Instance disc : Discipline := engine_discipline ns sha256.
Implicit Types m : StoreMap.
Implicit Types j : JobId.
Implicit Types r : JobRecordV1.
Implicit Types w : world.
Implicit Types l : Lease.
Implicit Types ms : list Mutation.
Implicit Types c : ClaimedJob.
Implicit Types mine ids : gset bytes.

Section claimed.
Context (w : world) (c : ClaimedJob) (r r' : JobRecordV1) (l : Lease) (e' ov : bytes).
Context (Hc : claim_held ns w c r l) (Hnext : next_of r r') (Hdec : decode_job_record e' = Ok r').
Context (Hov : op_entry (jr_job_id r) ov (ls_fence l)).
Abbreviation j := (jr_job_id r).
Abbreviation q := (jr_queue r).

Lemma claimed_names : is_fixed_id j = true ∧ is_text MAX_NAME_BYTES q = true.
Proof. pose proof (claim_held_typed _ _ _ _ _ Hc) as [??]%typed_names. done. Qed.

(** What the checks say at the time of the commit. *)
Lemma claimed_now w' checks :
  extends ∅ w w' → checks_match (w_now w') checks = true → Value (JobK ns j) (cj_encoded c) ∈ checks →
  valid_world ns sha256 w' ∧ lease_now ns w' j r l (cj_permit_keys c).
Proof.
  intros He Hch Hin. pose proof (ex_valid _ _ _ He) as Hv. split; [done|].
  apply (claim_now ns sha256 w' c); [done|by eapply claim_held_extends|]. by eapply check_value.
Qed.

(** ** Back to the schedule *)

Abbreviation scheduled_list :=
  ([Put (JobK ns j) e'; Delete (LeaseK ns q j);
   Put (DueK ns q (jr_scheduled_at r') j) (due_layout (jr_scheduled_at r'));
   Put (FairK ns q j) (marker_layout VT_FairReady j); Put (OpK ns j) ov]
  ++ (Delete <$> cj_permit_keys c)).

Lemma scheduled_touch :
  jr_state r' = Scheduled →
  Forall (touch ns j (Some r') (λ mu, mu ∈ Delete <$> cj_permit_keys c) (λ _, False)) scheduled_list.
Proof.
  intros Hs. destruct claimed_names as [Hj Hq]. pose proof (decode_typed _ _ Hdec) as Ht.
  destruct Hnext as (Hsame & _). pose proof (entries_scheduled ns r r' Hsame Hs) as Hen.
  touches Hs Hen. by apply touch_deletes, Hc.
Qed.
Lemma scheduled_safe checks :
  jr_state r' = Scheduled → Value (JobK ns j) (cj_encoded c) ∈ checks → Absent (CancelK ns j) ∈ checks →
  step_safe ns sha256 ∅ w checks scheduled_list.
Proof.
  intros Hs Hin Hab w' He Hch Hnd. destruct (claimed_now w' checks He Hch Hin) as [Hv Hl].
  destruct claimed_names as [Hj Hq]. pose proof (ch_permits _ _ _ _ _ Hc) as HK.
  destruct (good_leave ns sha256 Hns w' scheduled_list j r r' l (cj_permit_keys c) e' ov) as [Hg Hvis]; try done.
  - mem.
  - by apply scheduled_touch.
  - intros [l' Hl']. congruence.
  - pose proof (entries_scheduled ns r r' (proj1 Hnext) Hs) as Hen.
    pose proof (entries_leased ns r r (same_job_refl r) l (ch_leased _ _ _ _ _ Hc)) as Hen0.
    split; rewrite ?Hen, ?Hen0.
    + intros k v [[= -> _]|[]%not_elem_of_nil]%elem_of_cons. apply delete_key. mem.
    + intros k v [[= -> ->]|[[= -> ->]|[]%not_elem_of_nil]%elem_of_cons]%elem_of_cons; mem.
  - mem.
  - intros k Hk. mem.
  - left. split; [by eapply check_absent|]. apply (without_key ns _ KT_Cancellation); [by apply tag_CancelK|].
    tags.
  - split; [done|]. intros id Hid. left. auto.
Qed.
(** ** Renewal *)

Abbreviation renewed_list :=
  ([Put (JobK ns j) e'; Put (OpK ns j) ov] ++ ((λ k, Put k (permit_layout r l)) <$> cj_permit_keys c)).

Lemma renewed_touch :
  Forall (touch ns j (Some r') (λ mu, mu ∈ (λ k, Put k (permit_layout r l)) <$> cj_permit_keys c) (λ _, False))
    renewed_list.
Proof.
  apply Forall_app. split; [|apply touch_puts; apply Hc]. repeat apply Forall_cons_2; [..|constructor].
  - by apply T_job.
  - by apply T_op.
Qed.

Lemma renewed_safe checks l' :
  jr_state r' = Leased l' → permit_layout r' l' = permit_layout r l → ls_token l' = ls_token l →
  ls_fence l' = ls_fence l → Value (JobK ns j) (cj_encoded c) ∈ checks → Absent (CancelK ns j) ∈ checks →
  step_safe ns sha256 ∅ w checks renewed_list.
Proof.
  intros Hl' Hpl Htok Hfe Hin Hab w' He Hch Hnd. destruct (claimed_now w' checks He Hch Hin) as [Hv Hl].
  destruct claimed_names as [Hj Hq]. pose proof (ch_permits _ _ _ _ _ Hc) as HK.
  destruct (good_renew ns sha256 Hns w' renewed_list j r r' l l' (cj_permit_keys c) e' ov) as [Hg Hvis]; try done.
  - mem.
  - rewrite (leased_permit r' l'), (leased_permit r l), Hpl by (done || apply Hc). done.
  - by apply renewed_touch.
  - mem.
  - by eapply check_absent.
  - apply (without_key ns _ KT_Cancellation); [by apply tag_CancelK|]. tags.
  - split; [done|]. intros id Hid. left. auto.
Qed.

(** ** To a terminal state *)

Definition terminal_state (t : TerminalTransition) : JobState :=
  match t with TT_DeadLetter _ => DeadLettered | _ => Cancelled end.

Abbreviation terminal_base :=
  ([Put (JobK ns j) e'; Delete (LeaseK ns q j); Delete (FairK ns q j); Put (OpK ns j) ov]).
Abbreviation due_list := (Delete <$> option_list (cj_due_key c)).

(** [terminal_mutations], with the due entry of the claim. *)
Definition terminal_list (t : TerminalTransition) : list Mutation :=
  match t with
  | TT_DeadLetter _ =>
      ((terminal_base ++ (Delete <$> cj_permit_keys c)) ++ [Put (DeadK ns q j) (marker_layout VT_DeadLetter j)])
      ++ due_list
  | TT_WorkerCancellation => (terminal_base ++ (Delete <$> cj_permit_keys c)) ++ due_list
  | TT_CancellationAcknowledgement =>
      ((terminal_base ++ [Delete (CancelK ns j)]) ++ (Delete <$> cj_permit_keys c)) ++ due_list
  end.

Lemma due_list_touch P C :
  KT_Due ∉ state_tags (jr_state r') → Forall (touch ns j (Some r') P C) due_list.
Proof.
  intros Hs. destruct claimed_names as [Hj Hq]. pose proof (decode_typed _ _ Hdec) as Ht.
  destruct (cj_due_key c) as [k|] eqn:Hk; [|constructor]. destruct (ch_due_key _ _ _ _ _ Hc k Hk) as [t ->].
  cbn. constructor; [|constructor]. eapply touch_delete; [done..|by apply is_index_DueK|by apply tag_DueK|done].
Qed.

Lemma due_list_without t : t ≠ KT_Due → without ns t due_list.
Proof.
  intros Hn. destruct claimed_names as [Hj Hq].
  destruct (cj_due_key c) as [k|] eqn:Hk; [|constructor]. destruct (ch_due_key _ _ _ _ _ Hc k Hk) as [t0 ->].
  cbn. constructor; [|constructor]. cbn. rewrite tag_DueK by done. congruence.
Qed.

Lemma terminal_entries t :
  jr_state r' = terminal_state t → index_entries ns r' =
  match t with TT_DeadLetter _ => [(DeadK ns q j, marker_layout VT_DeadLetter j)] | _ => [] end.
Proof.
  destruct Hnext as (Hsame & _). destruct t; cbn; intros Hs.
  - by apply entries_dead.
  - apply entries_none. by left.
  - apply entries_none. by left.
Qed.

Lemma terminal_touch t :
  jr_state r' = terminal_state t →
  Forall (touch ns j (Some r') (λ mu, mu ∈ Delete <$> cj_permit_keys c) (λ _, False)) (terminal_list t).
Proof.
  intros Hs. destruct claimed_names as [Hj Hq]. pose proof (decode_typed _ _ Hdec) as Ht.
  pose proof (terminal_entries t Hs) as Hen. assert (KT_Due ∉ state_tags (jr_state r')) as Hd.
  { rewrite Hs. destruct t; cbn; set_solver. }
  destruct t; cbn [terminal_list terminal_state] in *; touches Hs Hen;
    first [by apply touch_deletes, Hc|by apply due_list_touch].
Qed.

Lemma terminal_safe checks t :
  jr_state r' = terminal_state t → Value (JobK ns j) (cj_encoded c) ∈ checks →
  match t with TT_CancellationAcknowledgement => True | _ => Absent (CancelK ns j) ∈ checks end →
  step_safe ns sha256 ∅ w checks (terminal_list t).
Proof.
  intros Hs Hin Hab w' He Hch Hnd. destruct (claimed_now w' checks He Hch Hin) as [Hv Hl].
  destruct claimed_names as [Hj Hq]. pose proof (ch_permits _ _ _ _ _ Hc) as HK.
  pose proof (terminal_entries t Hs) as Hen.
  pose proof (entries_leased ns r r (same_job_refl r) l (ch_leased _ _ _ _ _ Hc)) as Hen0.
  pose proof (due_list_without KT_Cancellation ltac:(done)) as Hwd.
  destruct (good_leave ns sha256 Hns w' (terminal_list t) j r r' l (cj_permit_keys c) e' ov) as [Hg Hvis]; try done.
  - destruct t; cbn [terminal_list]; mem.
  - by apply terminal_touch.
  - rewrite Hs. intros [l' Hl']. by destruct t.
  - split; rewrite ?Hen, ?Hen0.
    + intros k v [[= -> _]|[]%not_elem_of_nil]%elem_of_cons. apply delete_key. destruct t; cbn [terminal_list]; mem.
    + intros k v. destruct t; [|by intros []%not_elem_of_nil..].
      intros [[= -> ->]|[]%not_elem_of_nil]%elem_of_cons. cbn [terminal_list]. mem.
  - destruct t; cbn [terminal_list]; mem.
  - intros k Hk. destruct t; cbn [terminal_list]; mem.
  - destruct t; cbn [terminal_list]; [left|left|right; mem].
    all: split; [by eapply check_absent|]; apply (without_key ns _ KT_Cancellation); [by apply tag_CancelK|].
    all: tags.
  - split; [done|]. intros id Hid. left. auto.
Qed.
End claimed.

(** ** The programs *)

Section programs.
Context {E : Type} (system : JobSystem) (Hsys : system_ok ns sha256 system).
Context (c : ClaimedJob) (r r' : JobRecordV1) (l : Lease) (e' : bytes) (op : OperationId).
Context (Hnext : next_of r r') (Hdec : decode_job_record e' = Ok r') (Hop : is_fixed_id op = true).
Abbreviation j := (jr_job_id r).
Abbreviation q := (jr_queue r).

(** The transaction [tx] leads to the record of [e'] and may be committed. *)
Definition tx_to (tx : StoreTransaction) mine w : Prop :=
  claim_held ns w c r l ∧
  ∃ checks ms, tx_good ns sha256 ∅ mine w tx checks ms ∧ Put (JobK ns j) e' ∈ ms.

Lemma lease_fence_u64 w : claim_held ns w c r l → is_u64 (ls_fence l) = true.
Proof.
  intros Hc. destruct (typed_lease r l) as (_ & _ & Hf); [by eapply claim_held_typed|apply Hc|]. ranges. lia.
Qed.

Lemma wpj_scheduled_transaction mine w :
  claim_held ns w c r l → jr_state r' = Scheduled →
  wpj mine w
    (scheduled_transaction (E := E) system c r' e' op (DueK ns q (jr_scheduled_at r') j)) tx_to.
Proof.
  intros Hc Hs. destruct (claimed_names _ _ _ _ Hc) as [Hj Hq].
  destruct Hnext as (Hsame & Hexec & Hrev). pose proof Hsame as [Hj' _ _ (Hq' & _)].
  unfold scheduled_transaction, scheduled_mutations.
  rewrite !(sk_namespace _ _ _ Hsys), !Hj', !Hq', (ch_fence _ _ _ _ _ Hc), (ch_lease_key _ _ _ _ _ Hc).
  rewrite job_key_Ok, fair_key_Ok, operation_key_Ok, cancellation_key_Ok, due_value_Ok, fair_value_Ok by done.
  apply wpj_bind. do 5 (apply wpj_try; intros ? [= <-]). apply wpj_try. intros ov Hov.
  apply wpj_ret. intros w1 He1. apply (claim_held_extends ns sha256 w w1) in Hc; [|by eapply extends_empty].
  apply (wpj_quiet_bind ns sha256 _ _ _ _ _ _ (quiet_wake_mutation _ _ _ _ _)
    (wake_mutation_outcomes ns _ _ _ _ _ Hns (sk_namespace _ _ _ Hsys) Hq)).
  intros [ms' wake_check] w2 He2 [Hcore _]. apply (claim_held_extends ns sha256 w1 w2) in Hc; [|by eapply extends_empty].
  apply wpj_try. intros checks Hch. apply wpj_try. intros ? [= <-].
  destruct (authority_checks_Ok ns sha256 Hns system Hsys w2 c r l checks Hc Hch) as (ov0 & _ & ->).
  assert (op_entry j ov (ls_fence l)) as Hoe by (eapply (op_entry_new j op); [done..|by eapply lease_fence_u64|done]).
  pose proof (ch_permits _ _ _ _ _ Hc) as HK.
  rewrite app_assoc. wp_checked (∅ : gset bytes).
  - tags.
  - by apply (scheduled_touch w2 c r r' l e' ov).
  - apply (scheduled_safe w2 c r r' l e' ov); try done; mem.
  - intros tx mine' w3 Hm He3 Hg. split; [eapply claim_held_extends; [by eapply extends_empty|done]|].
    eexists _, _. split; [exact Hg|mem].
Qed.
Lemma wpj_lease_record_transaction mine w l' :
  claim_held ns w c r l → jr_state r' = Leased l' → permit_layout r' l' = permit_layout r l →
  ls_token l' = ls_token l → ls_fence l' = ls_fence l →
  wpj mine w (lease_record_transaction (E := E) system c r' e' op) tx_to.
Proof.
  intros Hc Hl' Hpl Htok Hfe. destruct (claimed_names _ _ _ _ Hc) as [Hj Hq].
  pose proof (proj1 Hnext) as [Hj' _ _ _]. unfold lease_record_transaction, lease_fence.
  rewrite !(sk_namespace _ _ _ Hsys), !Hj', Hl', Hfe, cancellation_key_Ok, job_key_Ok, operation_key_Ok by done.
  apply wpj_try. intros checks Hch. apply wpj_try. intros ? [= <-]. apply wpj_try. intros pv Hpv.
  do 3 (apply wpj_try; intros ? [= <-]). apply wpj_try. intros ov Hov.
  apply permit_value_Ok in Hpv; [|by eapply decode_typed]. rewrite (leased_permit r' l'), Hpl in Hpv by done.
  injection Hpv as <-.
  destruct (authority_checks_Ok ns sha256 Hns system Hsys w c r l checks Hc Hch) as (ov0 & _ & ->).
  assert (op_entry j ov (ls_fence l)) as Hoe.
  { eapply (op_entry_new j op); [done..|by eapply lease_fence_u64|done]. }
  pose proof (ch_permits _ _ _ _ _ Hc) as HK.
  wp_checked (∅ : gset bytes).
  - tags.
  - by apply (renewed_touch w c r r' l e' ov).
  - apply (renewed_safe w c r r' l e' ov) with (l' := l'); try done; mem.
  - intros tx mine' w3 Hm He3 Hg. split; [eapply claim_held_extends; [by eapply extends_empty|done]|].
    eexists _, _. split; [exact Hg|mem].
Qed.

Lemma terminal_mutations_outcomes w t :
  claim_held ns w c r l → match t with TT_DeadLetter k => k = DeadK ns q j | _ => True end →
  outcomes (λ ms, ∃ ov, operation_value j op (ls_fence l) = Ok ov ∧
      ms ++ (Delete <$> option_list (cj_due_key c)) = terminal_list c r e' ov t)
    (terminal_mutations (E := E) system c r' e' op t).
Proof.
  intros Hc Hdlq. destruct (claimed_names _ _ _ _ Hc) as [Hj Hq].
  destruct Hnext as ([Hj' _ _ (Hq' & _)] & _). unfold terminal_mutations.
  rewrite !(sk_namespace _ _ _ Hsys), !Hj', (ch_fence _ _ _ _ _ Hc), (ch_lease_key _ _ _ _ _ Hc).
  rewrite (ch_fair_key _ _ _ _ _ Hc), job_key_Ok, operation_key_Ok, cancellation_key_Ok, dead_letter_value_Ok by done.
  do 2 (apply outcomes_try; intros ? [= <-]). apply outcomes_try. intros ov Hov.
  destruct t; subst; cbn; eauto.
Qed.

Lemma wpj_terminal_transaction mine w t :
  claim_held ns w c r l → jr_state r' = terminal_state t →
  match t with TT_DeadLetter k => k = DeadK ns q j | _ => True end →
  wpj mine w (terminal_transaction (E := E) system c r' e' op t) tx_to.
Proof.
  intros Hc Hs Hdlq. destruct (claimed_names _ _ _ _ Hc) as [Hj Hq].
  pose proof (proj1 Hnext) as [Hj' _ _ (Hq' & _)]. unfold terminal_transaction.
  rewrite !(sk_namespace _ _ _ Hsys), !Hj', !Hq', cancellation_key_Ok by done.
  apply (wpj_quiet_bind ns sha256 _ _ _ _ _ _ (quiet_terminal_mutations _ _ _ _ _ _)
    (terminal_mutations_outcomes w t Hc Hdlq)).
  intros ms w1 He1 (ov & Hov & Hms). apply (claim_held_extends ns sha256 w w1) in Hc; [|by eapply extends_empty].
  assert (op_entry j ov (ls_fence l)) as Hoe.
  { eapply (op_entry_new j op); [done..|by eapply lease_fence_u64|done]. }
  rewrite Hms. apply (wpj_quiet_bind ns sha256 _ _ _ _ _ _ (quiet_wake_mutation _ _ _ _ _)
    (wake_mutation_outcomes ns _ _ _ _ _ Hns (sk_namespace _ _ _ Hsys) Hq)).
  intros [ms' wake_check] w2 He2 [Hcore _]. apply (claim_held_extends ns sha256 w1 w2) in Hc; [|by eapply extends_empty].
  apply wpj_try. intros checks Hch. apply wpj_try. intros ? [= <-].
  destruct (authority_checks_Ok ns sha256 Hns system Hsys w2 c r l checks Hc Hch) as (ov0 & _ & ->).
  pose proof (ch_permits _ _ _ _ _ Hc) as HK. rewrite cancellation_value_Ok.
  assert (∀ check, Check_key check = CancelK ns j →
    match t with TT_CancellationAcknowledgement => True | _ => check = Absent (CancelK ns j) end →
    wpj mine w2 (checked_transaction (E := E) system
      ((([Value (JobK ns j) (cj_encoded c); Value (LeaseK ns q j) (marker_layout VT_Lease j); Value (OpK ns j) ov0]
        ++ ((λ k, Value k (permit_layout r l)) <$> cj_permit_keys c)) ++ option_list wake_check) ++ [check]) ms')
      tx_to) as Htx.
  { intros check Hkey Hcheck. wp_checked (∅ : gset bytes).
    - split_Forall; try tags. rewrite Hkey. tags.
    - by apply (terminal_touch w2 c r r' l e' ov).
    - apply (terminal_safe w2 c r r' l e' ov); try done; [mem|]. destruct t; subst; [mem..|done].
    - intros tx mine' w3 Hm He3 Hg. split; [eapply claim_held_extends; [by eapply extends_empty|done]|].
      eexists _, _. split; [exact Hg|]. destruct t; cbn [terminal_list]; mem. }
  destruct t.
  - by apply Htx.
  - by apply Htx.
  - by apply Htx.
Qed.
End programs.
End lease_tx.
