(* ===== verification/Completed.v ===== *)
(** * Completion keeps the invariant

    [lifecycle/completion.rs]: the receipt replaces the job and everything
    that belongs to it. *)

From S2P Require Import Prelude Errors Ids Clock Policy JobRecord Wire KeyCodec ValueCodec JobCodec.
From S2P Require Import JobRoundtrip OperationCodec Keyspace Store Prog Logic System Transition Claim Completion.
From S2P Require Import Refs Invariant Update Protocol Steps Moves Held LeaseTx.

Section completed.
Context (ns : Namespace) (sha256 : bytes → bytes) (Hns : is_opaque MAX_NAMESPACE_BYTES ns = true).
Context (Hsha : ∀ bs, len (sha256 bs) = 32).
#[local] Instance disc : Discipline := engine_discipline ns sha256.
Implicit Types m : StoreMap.
Implicit Types r : JobRecordV1.
Implicit Types w : world.
Implicit Types l : Lease.
Implicit Types ms : list Mutation.
Implicit Types mine ids : gset bytes.

Section claimed.
Context (w : world) (c : ClaimedJob) (r : JobRecordV1) (l : Lease) (rc : OperationReceipt) (rv : bytes).
Context (Hv : valid_world ns sha256 w) (Hc : claim_held ns w c r l).
Context (Hrc : is_receipt rc = true) (Hrcj : or_job_id rc = jr_job_id r) (Hrcf : or_fence rc = ls_fence l).
Context (Hrv : operation_receipt_value rc = Ok rv).
Abbreviation j := (jr_job_id r).
Abbreviation q := (jr_queue r).

Abbreviation completed_tail :=
  ((Delete <$> pm_chunk_keys (jr_payload r)) ++ (Delete <$> option_list (cj_due_key c))
   ++ [Delete (FairK ns q j); Delete (LeaseK ns q j)] ++ (Delete <$> cj_permit_keys c)
   ++ [Put (OpK ns j) rv]).
Abbreviation completed_list := (Delete (JobK ns j) :: completed_tail).

Lemma chunk_keys_chunks : Forall (is_chunk ns j) (pm_chunk_keys (jr_payload r)).
Proof.
  destruct (claimed_names _ _ _ _ _ Hc) as [Hj _]. apply Forall_forall. intros k Hk.
  eapply (validate_chunk_keys_in ns Hns); [done| |done]. by apply (claim_chunks ns sha256 w c r l).
Qed.

Lemma completed_touch :
  Forall (touch ns j None (λ mu, mu ∈ Delete <$> cj_permit_keys c) (λ mu, mutation_result mu = None)) completed_list.
Proof.
  destruct (claimed_names _ _ _ _ _ Hc) as [Hj Hq]. split_Forall.
  - by apply T_job.
  - apply Forall_fmap. eapply Forall_impl; [exact chunk_keys_chunks|]. intros k Hk. by apply T_chunk.
  - destruct (cj_due_key c) as [k|] eqn:Hk; [|constructor]. destruct (ch_due_key _ _ _ _ _ Hc k Hk) as [t ->].
    constructor; [|constructor]. by apply touch_gone, is_index_DueK.
  - by apply touch_gone, is_index_FairK.
  - by apply touch_gone, is_index_LeaseK.
  - apply touch_deletes, Hc.
  - by apply T_op.
Qed.

Lemma completed_without_cancel : without ns KT_Cancellation completed_list.
Proof.
  destruct (claimed_names _ _ _ _ _ Hc) as [Hj Hq]. pose proof (ch_permits _ _ _ _ _ Hc) as HK.
  pose proof (due_list_without ns Hns w c r l Hc KT_Cancellation ltac:(done)) as Hdue.
  assert (without ns KT_Cancellation (Delete <$> pm_chunk_keys (jr_payload r))) as Hch.
  { apply Forall_fmap. eapply Forall_impl; [exact chunk_keys_chunks|]. intros k [_ Hk]. cbn. by rewrite Hk. }
  tags.
Qed.

Lemma completed_safe checks :
  Value (JobK ns j) (cj_encoded c) ∈ checks → Absent (CancelK ns j) ∈ checks →
  step_safe ns sha256 ∅ w checks completed_list.
Proof.
  intros Hin Hab w' He Hch Hnd. destruct (claimed_now ns sha256 w c r l Hc w' checks He Hch Hin) as [Hv' [Hr Hs Hper]].
  destruct (claimed_names _ _ _ _ _ Hc) as [Hj Hq]. destruct (receipt_value_decodes rc rv Hrc Hrv) as [Hdec Hfe].
  assert (apply_mutations (w_now w') completed_list !! OpK ns j = Some rv) as Hop by (apply apply_put; [done|mem]).
  destruct (good_gone ns sha256 Hns w' completed_list j r (λ mu, mu ∈ Delete <$> cj_permit_keys c)) as [Hg Hvis]; try done.
  - mem.
  - apply completed_touch.
  - intros k v (r0 & [[= <-]|?] & Hk); [|done]. left. apply delete_key.
    rewrite (entries_leased ns r r (same_job_refl r) l Hs) in Hk.
    apply elem_of_cons in Hk as [[= -> _]|[]%not_elem_of_nil]. mem.
  - intros k Hk. mem.
  - rewrite Hop. right. by exists rv, rc.
  - rewrite (now_fence ns sha256 w' Hv' j Hj r Hr l Hs). unfold fence_at. rewrite Hop, <- Hrcj, Hfe, Hrcf. done.
  - rewrite apply_other; [by eapply check_absent|].
    apply (without_key ns _ KT_Cancellation); [by apply tag_CancelK|]. apply completed_without_cancel.
  - eapply (permits_drop ns sha256 Hns w' completed_list j None); [done|done|apply completed_touch| |exact Hr| |done|exact Hper| |done].
    + apply record_at_none, apply_delete; [done|mem].
    + by apply leased_permit.
    + intros k Hk. mem.
  - split; [done|]. intros id Hid. left. auto.
Qed.
End claimed.

(** ** The program *)

Section program.
Context {E : Type} (system : JobSystem) (Hsys : system_ok ns sha256 system).
Context (c : ClaimedJob) (l : Lease).
Abbreviation r := (cj_record c).
Abbreviation j := (jr_job_id r).

Lemma completion_receipt_typed w outcome completed_at rc :
  claim_held ns w c r l → is_outcome_code outcome = true → is_i64 completed_at = true →
  completion_receipt (E := E) system c outcome completed_at = Ok rc →
  is_receipt rc = true ∧ or_job_id rc = j ∧ or_fence rc = ls_fence l.
Proof.
  intros Hc Ho Hat. pose proof (claim_held_typed _ _ _ _ _ Hc) as Ht. pose proof (ch_leased _ _ _ _ _ Hc) as Hl.
  destruct (typed_lease r l Ht Hl) as (Hown & Htok & Hfen). unfold completion_receipt. rewrite Hl. cbn.
  intros H. apply bind_Ok in H as (history & Hh & H). apply bind_Ok in H as (revision & Hrev & H).
  apply bind_Ok in H as (digest & Hdig & [= <-]). cbn. split; [|done].
  unfold Transition.data in Hdig. apply map_err_Ok in Hdig. unfold job_definition_digest in Hdig.
  apply bind_Ok in Hdig as (bs & _ & [= <-]). rewrite (sk_sha256 _ _ _ Hsys).
  pose proof (ch_operation _ _ _ _ _ Hc). pose proof (ch_attempt _ _ _ _ _ Hc).
  destruct (jr_attempts r) as [hist|] eqn:Hatt; [|done]. cbn in Hh. simplify_eq.
  unfold is_job_record in Ht. rewrite Hatt in Ht. cbn in Ht. unfold is_attempt_history in Ht. split_andb.
  unfold is_receipt. cbn. unfold is_array. rewrite Hsha. cbn.
  destruct (checked_revision (E := E) JSE_LeaseConflict (jr_revision r) revision) as [_ Hru]; [ranges; lia|exact Hrev|].
  rewrite !andb_true_iff. by split_and!.
Qed.
(** What a completed call leaves behind: its receipt. *)
Definition completed w (details : CompletionDetails) : Prop :=
  ∃ rc rv, details = completion_details rc ∧ operation_receipt_value rc = Ok rv ∧ is_receipt rc = true ∧
    or_job_id rc = j ∧ recorded_bytes w (OpK ns j) rv.

Lemma completed_extends mine w w' details : extends mine w w' → completed w details → completed w' details.
Proof.
  intros He (rc & rv & Hd & Hv & Ht & Hj & Hr). exists rc, rv. split_and!; try done. by eapply recorded_extends.
Qed.

Lemma wpj_completion_transaction mine w rc :
  claim_held ns w c r l → is_receipt rc = true → or_job_id rc = j → or_fence rc = ls_fence l →
  wpj mine w (completion_transaction (E := E) system c rc) (λ tx mine' w', claim_held ns w' c r l ∧
    ∃ rv checks ms, operation_receipt_value rc = Ok rv ∧ tx_good ns sha256 ∅ mine' w' tx checks ms ∧
      Put (OpK ns j) rv ∈ ms).
Proof.
  intros Hc Hrc Hrcj Hrcf. destruct (claimed_names _ _ _ _ _ Hc) as [Hj Hq].
  unfold completion_transaction, completion_mutations.
  rewrite !(sk_namespace _ _ _ Hsys), job_key_Ok, lease_value_Ok, operation_key_Ok, cancellation_key_Ok by done.
  rewrite (ch_lease_key _ _ _ _ _ Hc), (ch_fair_key _ _ _ _ _ Hc).
  do 3 (apply wpj_try; intros ? [= <-]). apply wpj_try. intros ov _. apply wpj_try. intros ? [= <-].
  cbn [mbind result_bind]. apply wpj_try. intros ms Hms. apply bind_Ok in Hms as (rv & Hrv & [= <-]).
  apply (wpj_quiet_bind ns sha256 _ _ _ _ _ _ (quiet_wake_mutation _ _ _ _ _)
    (wake_mutation_outcomes ns _ _ _ _ _ Hns (sk_namespace _ _ _ Hsys) Hq)).
  intros [ms' wake_check] w2 He2 [Hcore _]. pose proof (ex_valid _ _ _ He2) as Hv2.
  apply (claim_held_extends ns sha256 w w2) in Hc; [|by eapply extends_empty].
  assert (core ns (Delete (JobK ns j) :: ms') = core ns (Delete (JobK ns j) ::
    ((Delete <$> pm_chunk_keys (jr_payload r)) ++ (Delete <$> option_list (cj_due_key c))
     ++ [Delete (FairK ns (jr_queue r) j); Delete (LeaseK ns (jr_queue r) j)] ++ (Delete <$> cj_permit_keys c)
     ++ [Put (OpK ns j) rv]))) as Hcore'.
  { unfold core in *. cbn [List.filter]. by rewrite Hcore. }
  clear Hcore. wp_checked (∅ : gset bytes).
  - tags.
  - by apply (completed_touch w2 c r l rv).
  - apply (completed_safe w2 c r l rc rv); try done; mem.
  - intros tx mine' w3 Hm He3 Hg. split; [eapply claim_held_extends; [by eapply extends_empty|done]|].
    eexists _, _, _. split; [done|]. split; [exact Hg|mem].
Qed.

Lemma wpj_complete mine w outcome completed_at :
  claim_held ns w c r l → is_i64 completed_at = true →
  match outcome with Complete code => is_outcome_code code = true | _ => True end →
  wpj mine w (complete (E := E) system c outcome completed_at) (λ details _ w', completed w' details).
Proof.
  intros Hc Hat Hout. destruct (claimed_names _ _ _ _ _ Hc) as [Hj Hq]. unfold complete, prepare_completion.
  rewrite !(sk_namespace _ _ _ Hsys), operation_key_Ok by done. apply wpj_bind.
  destruct outcome as [code| | | |]; try (by destruct (JobOutcome_validate _)).
  apply wpj_bind, wpj_ret. intros w0 He0. apply (claim_held_extends ns sha256 w w0) in Hc; [|by eapply extends_empty].
  apply wpj_try. intros lease _. apply wpj_try. intros rc Hrc.
  destruct (completion_receipt_typed w0 code completed_at rc Hc Hout Hat Hrc) as (Htyp & Hrj & Hrf).
  apply wpj_bind. eapply wpj_mono; [by apply wpj_completion_transaction|].
  intros tx mine1 w1 _ (Hc1 & rv & checks & ms & Hrv & Hg & Hput). apply wpj_ret. intros w2 He2.
  apply (tx_good_extends ns sha256 ∅ mine1 w1 w2) in Hg; [|done].
  apply wpj_try. intros ? [= <-]. apply wpj_try. intros prev _. rewrite Hrv. apply wpj_try. intros ? [= <-].
  apply wpj_bind. eapply wpj_mono.
  { apply (wpj_commit_effect ns sha256 Hns system Hsys ∅ mine1 w2 tx checks ms); [done| |done].
    eapply key_job_not_wake. by apply key_job_OpK. }
  intros ? mine3 w3 ? Hrec. apply wpj_ret. intros w4 He4. exists rc, rv. split_and!; try done.
  by eapply recorded_extends.
Qed.
End program.
End completed.
