(* ===== verification/Outcomes.v ===== *)
(** * Handler outcomes keep the invariant

    The operations of [Failure] on a claim: what they persist, and that they
    are safe whatever other processes do meanwhile. *)

From S2P Require Import Prelude Errors Ids Clock Policy JobRecord Wire KeyCodec ValueCodec JobCodec.
From S2P Require Import JobRoundtrip OperationCodec Keyspace Store Prog Logic System Transition Claim Completion.
From S2P Require Import Admin Failure Refs Invariant Update Protocol Steps Moves Held LeaseTx Completed.

Lemma typed_retention r : is_job_record r = true → is_i64 (jr_retention_deadline r) = true.
Proof. unfold is_job_record. intros. by split_andb. Qed.

Lemma is_i64_max a b : is_i64 a = true → is_i64 b = true → is_i64 (Z.max a b) = true.
Proof. intros. ranges. lia. Qed.

Lemma is_i64_min a b : is_i64 a = true → is_i64 b = true → is_i64 (Z.min a b) = true.
Proof. intros. ranges. lia. Qed.

#[export] Hint Resolve typed_retention is_i64_max is_i64_min : typed.

Lemma next_of_outcome r now code s n :
  n = jr_revision r + 1 → next_of r (set_revision (set_state (record_outcome r now code) s) n).
Proof. intros ->. unfold record_outcome. by destruct (jr_attempts r). Qed.

Section outcomes.
Context (ns : Namespace) (sha256 : bytes → bytes) (Hns : is_opaque MAX_NAMESPACE_BYTES ns = true).
Context (Hsha : ∀ bs, len (sha256 bs) = 32).
#[local] Instance disc : Discipline := engine_discipline ns sha256.
Implicit Types r : JobRecordV1.
Implicit Types w : world.
Implicit Types l : Lease.
Implicit Types mine ids : gset bytes.

(** A record of job [j] in state [s] was durable. *)
Definition moved w (j : JobId) (s : JobState) : Prop :=
  ∃ e r, recorded_bytes w (JobK ns j) e ∧ decode_job_record e = Ok r ∧ jr_state r = s.

Lemma moved_extends mine w w' j s : extends mine w w' → moved w j s → moved w' j s.
Proof. intros He (e & r & Hr & ?). exists e, r. split; [by eapply recorded_extends|done]. Qed.

Context {E : Type} (system : JobSystem) (Hsys : system_ok ns sha256 system).
Context (c : ClaimedJob) (l : Lease).
Abbreviation r := (cj_record c).
Abbreviation j := (jr_job_id r).

(** What the result of an outcome says. *)
Definition outcome_moved w (result : OutcomeResult) : Prop :=
  match result with
  | OR_Completed details => completed ns c w details
  | OR_Continued _ | OR_Retried _ _ => moved w j Scheduled
  | OR_DeadLettered _ => moved w j DeadLettered
  | OR_Cancelled => moved w j Cancelled
  end.

(** ** Moves *)

Lemma wpj_fresh_operation {A} mine w (k : bytes → job E A) Φ :
  claim_held ns w c r l →
  (∀ mine' w' id, claim_held ns w' c r l → is_fixed_id id = true → wpj mine' w' (k id) Φ) →
  wpj mine w (fresh_operation ≫= k) Φ.
Proof.
  intros Hc Hk. apply wpj_generate. intros w' id He Hid _. apply Hk; [|done].
  eapply claim_held_extends; [|exact Hc]. eapply extends_trans; [by eapply extends_empty|].
  apply extends_draw. by eapply ex_valid.
Qed.

Lemma wpj_commit_move mine w r' e' tx :
  decode_job_record e' = Ok r' → tx_to ns sha256 (set_record c r') r l e' tx mine w →
  wpj mine w (commit_record (E := E) system tx (set_record c r') e') (λ _ _ w', moved w' j (jr_state r')).
Proof.
  intros Hd (Hc' & checks & ms & Hg & Hput). eapply wpj_mono.
  { by apply (wpj_commit_record ns sha256 Hns system Hsys ∅ mine w tx checks ms (set_record c r') r l e'). }
  intros ? mine' w' ? Hr. by exists e', r'.
Qed.

(** ** Dead letters *)

Lemma wpj_dead_letter_claim mine w code now :
  claim_held ns w c r l → is_i64 now = true → is_outcome_code code = true →
  wpj mine w (dead_letter_claim (E := E) system c code now) (λ res _ w', outcome_moved w' res).
Proof.
  intros Hc Hnow Hcode. destruct (claimed_names _ _ _ _ _ Hc) as [Hj Hq].
  pose proof (claim_held_typed _ _ _ _ _ Hc) as Ht. unfold dead_letter_claim.
  apply wpj_try. intros lease _. apply wpj_try. intros rev Hrev.
  apply next_revision_Ok in Hrev as [Hrev Hru]; [|by auto with typed].
  set (r' := set_revision _ rev). assert (is_job_record r' = true) as Ht' by (unfold r'; auto with typed).
  assert (next_of r r') as Hnext.
  { apply next_of_outcome. rewrite Hrev. cbn. unfold record_outcome. by destruct (jr_attempts r). }
  pose proof (proj1 Hnext) as [Hj' _ _ (Hq' & _)].
  apply wpj_fresh_operation; [done|]. intros mine1 w1 op Hc1 Hop. apply wpj_try. intros e' He'.
  apply encode_decodes in He'; [|done]. cbn [cj_record set_record].
  rewrite (sk_namespace _ _ _ Hsys), Hj', Hq', dead_letter_key_Ok by done. apply wpj_try. intros ? [= <-].
  apply wpj_bind. eapply wpj_mono.
  { apply (wpj_terminal_transaction ns sha256 Hns system Hsys (set_record c r') r r' l e' op); try done.
    by apply claim_held_record. }
  intros tx mine2 w2 _ Htx. apply wpj_bind. eapply wpj_mono; [by apply (wpj_commit_move mine2 w2 r')|].
  intros ? mine3 w3 ? Hm. apply wpj_ret. intros w4 He4. by eapply moved_extends.
Qed.

(** ** Continuation and retry *)

Lemma wpj_commit_scheduled mine w r0 :
  claim_held ns w c r l → is_job_record r0 = true → same_job r r0 → jr_execution_id r0 = jr_execution_id r →
  jr_revision r0 = jr_revision r → jr_state r0 = Scheduled →
  wpj mine w (commit_scheduled_transition (E := E) system (set_record c r0)) (λ _ _ w', moved w' j Scheduled).
Proof.
  intros Hc Ht0 Hsame Hex Hrv Hs. destruct (claimed_names _ _ _ _ _ Hc) as [Hj Hq].
  unfold commit_scheduled_transition. cbn [cj_record set_record]. apply wpj_try. intros rev Hrev.
  apply next_revision_Ok in Hrev as [Hrev Hru]; [|done].
  set (r' := set_revision r0 rev). assert (is_job_record r' = true) as Ht' by (unfold r'; auto with typed).
  assert (next_of r r') as Hnext.
  { destruct Hsame as [H1 H2 H3 H4]. split; [by split|]. split; [done|]. cbn. congruence. }
  pose proof (proj1 Hnext) as [Hj' _ _ (Hq' & _)].
  apply wpj_fresh_operation; [done|]. intros mine1 w1 op Hc1 Hop. apply wpj_try. intros e' He'.
  apply encode_decodes in He'; [|done]. cbn [cj_record set_record].
  rewrite (sk_namespace _ _ _ Hsys), Hj', Hq', due_key_Ok by done. apply wpj_try. intros ? [= <-].
  apply wpj_bind. eapply wpj_mono.
  { apply (wpj_scheduled_transaction ns sha256 Hns system Hsys (set_record c r') r r' l e' op); try done.
    by apply claim_held_record. }
  intros tx mine2 w2 _ Htx. eapply wpj_mono; [by apply (wpj_commit_move mine2 w2 r')|].
  intros ? mine3 w3 ? Hm. unfold r' in Hm. cbn in Hm. by rewrite Hs in Hm.
Qed.
Lemma wpj_continue_claim mine w not_before checkpoint now :
  claim_held ns w c r l → is_i64 not_before = true → is_i64 now = true →
  wpj mine w (continue_claim (E := E) system c not_before checkpoint now) (λ res _ w', outcome_moved w' res).
Proof.
  intros Hc Hnb Hnow. pose proof (claim_held_typed _ _ _ _ _ Hc) as Ht. unfold continue_claim.
  apply wpj_try. intros _ _. destruct (is_some_and _ _).
  { apply wpj_try. intros code Hcode. apply wpj_dead_letter_claim; [done..|].
    unfold ExhaustionReason_outcome_code, Transition.code in Hcode. by apply OutcomeCode_try_new_Ok in Hcode as [-> ?]. }
  apply wpj_try. intros _ _. eapply (wpj_quiet_bind ns sha256 _ _ _ _ (λ t, is_i64 t = true)).
  { destruct (jr_expires_at r); quiet. }
  { destruct (jr_expires_at r); [by apply typed_retention|].
    apply outcomes_last. by intros t [_ Hi]%Timestamp_checked_add_Ok. }
  intros deadline w1 He1 Hdl. apply (claim_held_extends ns sha256 w w1) in Hc; [|by eapply extends_empty].
  apply wpj_bind. eapply wpj_mono.
  { pose proof (typed_names r Ht) as [_ _ Hsa _ _ _ _]. eapply wpj_commit_scheduled; try done. auto 10 with typed. }
  intros ? mine3 w3 ? Hm. apply wpj_ret. intros w4 He4. by eapply moved_extends.
Qed.

Lemma retry_timing_typed hint now a t :
  is_option is_i64 hint = true → is_job_record r = true → retry_timing (E := E) system c hint now = Ok (a, t) →
  is_i64 t = true.
Proof.
  intros Hh [_ _ Hs _ _ _ _]%typed_names. unfold retry_timing. intros H.
  apply bind_Ok in H as (attempts & _ & H). apply bind_Ok in H as (jittered & Hj & H).
  apply map_err_Ok in Hj. apply Timestamp_checked_add_Ok in Hj as [_ Hj].
  destruct hint as [hint|]; [|simplify_eq; auto with typed].
  destruct (now <? hint); [|simplify_eq; auto with typed].
  apply bind_Ok in H as (capped & Hcap & H). apply map_err_Ok in Hcap.
  apply Timestamp_checked_add_Ok in Hcap as [_ Hcap]. simplify_eq. cbn in Hh. auto with typed.
Qed.

Lemma wpj_retry_claim mine w class hint code now :
  claim_held ns w c r l → is_option is_i64 hint = true → is_outcome_code code = true → is_i64 now = true →
  wpj mine w (retry_claim (E := E) system c class hint code now) (λ res _ w', outcome_moved w' res).
Proof.
  intros Hc Hh Hcode Hnow. pose proof (claim_held_typed _ _ _ _ _ Hc) as Ht. unfold retry_claim.
  apply wpj_try. intros _ _. destruct (exhaustion_reason c now) as [reason|].
  { apply wpj_try. intros oc Hoc. apply wpj_dead_letter_claim; [done..|].
    unfold ExhaustionReason_outcome_code, Transition.code in Hoc. by apply OutcomeCode_try_new_Ok in Hoc as [-> ?]. }
  apply wpj_try. intros [attempt nb] Hnb. apply retry_timing_typed in Hnb; [|done..]. destruct (is_some_and _ _).
  { apply wpj_try. intros oc Hoc. apply wpj_dead_letter_claim; [done..|].
    unfold Transition.code in Hoc. by apply OutcomeCode_try_new_Ok in Hoc as [-> ?]. }
  apply wpj_bind. eapply wpj_mono.
  { eapply wpj_commit_scheduled; try done; [auto 10 with typed|..];
      unfold record_outcome; by destruct (jr_attempts r). }
  intros ? mine3 w3 ? Hm. apply wpj_ret. intros w4 He4. by eapply moved_extends.
Qed.
(** ** Cancellation *)

Lemma wpj_cancel_tail {A} (res : A) mine w t :
  claim_held ns w c r l → terminal_state t = Cancelled →
  wpj mine w
    (revision ← try_ (next_revision (E := E) (set_state r Cancelled));
     let claim := set_record c (set_revision (set_state r Cancelled) revision) in
     operation_id ← fresh_operation;
     new_encoded ← try_ (encode_job_record (cj_record claim));
     transaction ← terminal_transaction system claim (cj_record claim) new_encoded operation_id t;
     _ ← commit_record system transaction claim new_encoded;
     mret res)
    (λ res' _ w', res' = res ∧ moved w' j Cancelled).
Proof.
  intros Hc Hstate. pose proof (claim_held_typed _ _ _ _ _ Hc) as Ht.
  apply wpj_try. intros rev Hrev. apply next_revision_Ok in Hrev as [Hrev Hru]; [|by auto with typed].
  set (r' := set_revision _ rev). assert (is_job_record r' = true) as Ht' by (unfold r'; auto with typed).
  assert (next_of r r') as Hnext by (split; [|split]; [by split|done|done]).
  apply wpj_fresh_operation; [done|]. intros mine1 w1 op Hc1 Hop. apply wpj_try. intros e' He'.
  apply encode_decodes in He'; [|done]. apply wpj_bind. eapply wpj_mono.
  { apply (wpj_terminal_transaction ns sha256 Hns system Hsys (set_record c r') r r' l e' op); try done.
    - by apply claim_held_record.
    - by destruct t. }
  intros tx mine2 w2 _ Htx. apply wpj_bind. eapply wpj_mono; [by apply (wpj_commit_move mine2 w2 r')|].
  intros ? mine3 w3 ? Hm. apply wpj_ret. intros w4 He4. split; [done|]. by eapply moved_extends.
Qed.

Lemma wpj_cancel_claim_commit mine w now :
  claim_held ns w c r l → is_i64 now = true →
  wpj mine w (cancel_claim_commit (E := E) system c now) (λ res _ w', outcome_moved w' res).
Proof.
  intros Hc Hnow. unfold cancel_claim_commit. apply wpj_try. intros _ _.
  apply (wpj_quiet_bind ns sha256 _ _ _ _ (λ _, True)); [unfold has_cancellation_request; quiet|apply leaves_ok|].
  intros requested w1 He1 _. apply (claim_held_extends ns sha256 w w1) in Hc; [|by eapply extends_empty].
  apply wpj_ambient. intros w2 shutdown He2. apply (claim_held_extends ns sha256 w1 w2) in Hc; [|by eapply extends_empty].
  destruct (shutdown && negb requested); [by apply wpj_continue_claim|].
  apply (wpj_quiet_bind ns sha256 _ _ _ _ (λ _, True)); [destruct requested; quiet|apply leaves_ok|].
  intros _ w3 He3 _. apply (claim_held_extends ns sha256 w2 w3) in Hc; [|by eapply extends_empty].
  eapply wpj_mono; [apply (wpj_cancel_tail OR_Cancelled); [done|by destruct requested]|]. by intros ? mine' w' _ [-> Hm].
Qed.

Lemma wpj_cancel_claim mine w now :
  claim_held ns w c r l →
  wpj mine w (cancel_claim (E := E) system c now) (λ res _ w', res = CR_Cancelled ∧ moved w' j Cancelled).
Proof.
  intros Hc. unfold cancel_claim. apply wpj_try. intros _ _. apply wpj_try. intros key _.
  apply wpj_get. intros w1 v He1 _. apply (claim_held_extends ns sha256 w w1) in Hc; [|by eapply extends_empty].
  apply wpj_try. intros marker _. apply wpj_try. intros _ _. by apply wpj_cancel_tail.
Qed.

(** ** Dispatch *)

Definition outcome_typed (outcome : JobOutcome) : Prop :=
  match outcome with
  | Complete code | DeadLetter code => is_outcome_code code = true
  | Continue not_before _ => is_i64 not_before = true
  | Retry _ hint code => is_option is_i64 hint = true ∧ is_outcome_code code = true
  | OutcomeCancelled => True
  end.

Lemma wpj_apply_outcome mine w outcome now :
  claim_held ns w c r l → outcome_typed outcome → is_i64 now = true →
  wpj mine w (apply_outcome (E := E) system c outcome now) (λ res _ w', outcome_moved w' res).
Proof.
  intros Hc Ho Hnow. unfold apply_outcome. apply wpj_try. intros _ _. destruct outcome as [code|nb cp|cl hint code|code|].
  - apply wpj_bind. eapply wpj_mono; [by apply (wpj_complete ns sha256 Hns Hsha system Hsys c l)|].
    intros details mine' w' _ Hd. apply wpj_ret. intros w2 He2. by eapply completed_extends.
  - by apply wpj_continue_claim.
  - destruct Ho. by apply wpj_retry_claim.
  - by apply wpj_dead_letter_claim.
  - by apply wpj_cancel_claim_commit.
Qed.
End outcomes.
