(* ===== verification/Renewal.v ===== *)
(** * Renewal and checkpoints keep the invariant

    [failure/lease.rs]: the operations that keep a lease.  They borrow the
    claim; what they leave of it is a claim again, whether they succeed or
    fail. *)

From S2P Require Import Prelude Errors Ids Clock Policy JobRecord Wire KeyCodec ValueCodec JobCodec.
From S2P Require Import JobRoundtrip OperationCodec Keyspace Store Prog Logic System Transition Claim Completion.
From S2P Require Import Admin Failure Refs Invariant Update Protocol Steps Moves Held LeaseTx Completed Outcomes.

(** ** What [restore] puts back *)

Lemma restore_renewal c r' :
  (∃ s n, r' = set_revision (set_state (cj_record c) s) n) →
  RenewalState_restore (mkRenewalState (jr_state (cj_record c)) (jr_revision (cj_record c))) (set_record c r') = c.
Proof. intros (s & n & ->). destruct c as [rec]. by destruct rec. Qed.

Lemma restore_checkpoint c r' :
  (∃ cp n, r' = set_revision (set_checkpoint (cj_record c) cp) n) →
  CheckpointState_restore (mkCheckpointState (jr_checkpoint (cj_record c)) (jr_revision (cj_record c)))
    (set_record c r') = c.
Proof. intros (s & n & ->). destruct c as [rec]. by destruct rec. Qed.

Section renewal.
Context (ns : Namespace) (sha256 : bytes → bytes) (Hns : is_opaque MAX_NAMESPACE_BYTES ns = true).
#[local] Instance disc : Discipline := engine_discipline ns sha256.
Implicit Types r : JobRecordV1.
Implicit Types w : world.
Implicit Types l : Lease.
Implicit Types mine ids : gset bytes.
Context {E : Type} (system : JobSystem) (Hsys : system_ok ns sha256 system).
Context (c : ClaimedJob).
Abbreviation r := (cj_record c).
Abbreviation j := (jr_job_id r).

Lemma claim_ok_extends w w' c' : extends ∅ w w' → claim_ok ns w c' → claim_ok ns w' c'.
Proof. intros He [l Hc]. exists l. by eapply claim_held_extends. Qed.

Lemma claim_ok_lost w : claim_ok ns w c → claim_ok ns w (lose_authority c).
Proof. intros [l Hc]. exists l. by destruct Hc. Qed.

(** The lease is the same but for its expiry. *)
Record keeps (r' : JobRecordV1) l l' : Prop := {
  ke_next : next_of r r';
  ke_typed : is_job_record r' = true;
  ke_leased : jr_state r' = Leased l';
  ke_permit : permit_layout r' l' = permit_layout r l;
  ke_token : ls_token l' = ls_token l;
  ke_fence : ls_fence l' = ls_fence l;
}.

(** [RenewalTransaction] and [CheckpointTransaction]. *)
Lemma wpj_build_renewal mine w r' l l' :
  claim_held ns w c r l → keeps r' l l' →
  wpj mine w (build_renewal_transaction (E := E) system (set_record c r')) (λ '(op, e', tx) mine' w',
    is_fixed_id op = true ∧ decode_job_record e' = Ok r' ∧
    tx_to ns sha256 (set_record c r') r l e' tx mine' w').
Proof.
  intros Hc [Hnext Ht' Hl' Hpl Htok Hfe]. unfold build_renewal_transaction. cbn [cj_record set_record].
  apply (wpj_fresh_operation ns sha256 c l); [done|]. intros mine1 w1 op Hc1 Hop. apply wpj_try. intros e' He'.
  apply encode_decodes in He'; [|done]. apply wpj_bind. eapply wpj_mono.
  { apply (wpj_lease_record_transaction ns sha256 Hns system Hsys (set_record c r') r r' l e' op Hnext He' Hop _ _ l');
      try done. apply claim_held_record; [done|]. apply Hnext. }
  intros tx mine2 w2 _ (Hc2 & checks & ms & Hg & Hput). apply wpj_ret. intros w3 He3. split; [done|]. split; [done|].
  split; [eapply claim_held_extends; [by eapply extends_empty|done]|]. exists checks, ms. split; [|done].
  by apply (tx_good_extends ns sha256 ∅ mine2 w2).
Qed.

(** The claim after a committed renewal. *)
Lemma renewed_claim_ok w r' l l' e' op c' :
  valid_world ns sha256 w → claim_held ns w c r l → keeps r' l l' → is_fixed_id op = true →
  decode_job_record e' = Ok r' → recorded_bytes w (JobK ns j) e' →
  cj_record c' = r' → cj_encoded c' = e' → cj_operation_id c' = op → cj_attempt_id c' = cj_attempt_id c →
  cj_permit_keys c' = cj_permit_keys c → cj_fence_high_water c' = cj_fence_high_water c →
  cj_lease_key c' = cj_lease_key c → cj_fair_key c' = cj_fair_key c → cj_due_key c' = cj_due_key c →
  claim_ok ns w c'.
Proof.
  intros Hv Hc [Hnext Ht' Hl' Hpl Htok Hfe] Hop Hd Hrec <- <- <- Hat Hpk Hfh Hlk Hfk Hdk. exists l'.
  apply (claim_held_next ns sha256 Hns w c r l c' (cj_record c') l'); try done; apply Hnext.
Qed.

(** The end of both operations: a commit, and the claim it leaves. *)
Lemma wp_commit_renewal {A} mine w r' l l' e' op tx (c1 : ClaimedJob) (ok : A) (err : JobSystemError E → A) :
  claim_held ns w c r l → keeps r' l l' → is_fixed_id op = true → decode_job_record e' = Ok r' →
  tx_to ns sha256 (set_record c r') r l e' tx mine w → (∀ w', recorded_bytes w' (JobK ns j) e' → valid_world ns sha256 w' →
    claim_held ns w' c r l → claim_ok ns w' c1) →
  wp mine w (prog_bind (commit_record (E := E) system tx (set_record c r') e')
    (λ committed, match committed with Ok _ => Ret (c1, ok) | Err e => Ret (lose_authority c, err e) end))
    (λ '(c', _) _ w', claim_ok ns w' c').
Proof.
  intros Hc Hk Hop Hd (Hc' & checks & ms & Hg & Hput) H1. apply wp_bind, wp_valid. intros w0 He0 Hv0.
  apply (claim_held_extends ns sha256 w w0) in Hc; [|by eapply extends_empty]. eapply wp_mono.
  { apply wp_grows; [done|]. eapply wp_extends; [exact He0|].
    by apply (wpj_commit_record ns sha256 Hns system Hsys ∅ mine w tx checks ms (set_record c r') r l e'). }
  intros x mine' w' Hv' [Hx He]. apply (claim_held_extends ns sha256 w0 w') in Hc; [|done].
  destruct x as [u|e]; apply wp_ret; intros w2 He2;
    apply (claim_held_extends ns sha256 w' w2) in Hc; try by eapply extends_empty.
  - apply H1; [by eapply recorded_extends|exact (ex_valid _ _ _ He2)|done].
  - apply claim_ok_lost. by exists l.
Qed.

Lemma current_lease_state now lease : current_lease (E := E) c now = Ok lease → jr_state r = Leased lease.
Proof.
  unfold current_lease, lease_at. destruct (cj_authority_lost c); [done|].
  destruct (jr_state r); try done. destruct (now <? _); [|done]. by intros [= <-].
Qed.

Lemma renewal_keeps now lease expires_at c' previous :
  is_job_record r = true → jr_state r = Leased lease →
  renewal_expiry (E := E) system c (ls_expires_at lease) now = Ok expires_at →
  prepare_renewal_record (E := E) c lease expires_at = Ok (c', previous) →
  ∃ r' l', c' = set_record c r' ∧ keeps r' lease l' ∧ RenewalState_restore previous c' = c.
Proof.
  intros Ht Hs Hex Hp. unfold prepare_renewal_record in Hp. apply bind_Ok in Hp as (next & Hn & Hp).
  apply bind_Ok in Hp as (rev & Hrev & [= <- <-]). apply map_err_Ok in Hn. unfold Lease_try_new in Hn.
  destruct (Z.ltb_spec expires_at 0) as [|Hpos]; [done|]. injection Hn as <-.
  assert (expires_at ≤ I64_MAX) as Hmax.
  { unfold renewal_expiry in Hex. apply bind_Ok in Hex as (reg & _ & Hex). apply bind_Ok in Hex as (ext & Hext & [= Hex]).
    apply map_err_Ok in Hext. apply Timestamp_checked_add_Ok in Hext as [_ Hext].
    unfold is_job_record in Ht. split_andb. rewrite Hs in *. cbn in *. unfold is_lease in *. split_andb. ranges.
    destruct (cj_execution_deadline c); lia. }
  assert (is_lease (mkLease (ls_owner lease) (ls_token lease) (ls_fence lease) expires_at) = true) as Hl.
  { destruct (typed_lease r lease Ht Hs) as (H1 & H2 & H3). unfold is_lease. cbn. rewrite H1, H2, H3. cbn. ranges. lia. }
  apply next_revision_Ok in Hrev as [Hrev Hru]; [|by apply typed_state].
  eexists _, _. split; [done|]. split.
  - split; [|by auto with typed|done|done|done|done]. split; [by split|]. done.
  - apply restore_renewal. eauto.
Qed.

Lemma wp_renew mine w now :
  claim_ok ns w c → wp mine w (renew (E := E) system c now) (λ '(c', _) _ w', claim_ok ns w' c').
Proof.
  intros [l Hc]. pose proof (claim_held_typed _ _ _ _ _ Hc) as Ht. unfold renew.
  destruct (current_lease c now) as [lease|e] eqn:Hcl; last first.
  { apply wp_ret. intros w' He. apply claim_ok_lost. exists l. eapply claim_held_extends; [by eapply extends_empty|done]. }
  apply current_lease_state in Hcl. pose proof (ch_leased _ _ _ _ _ Hc) as Hl. assert (lease = l) as -> by congruence.
  assert (∀ (a : result (JobSystemError E) RenewalResult), wp mine w (@Ret E _ (c, a)) (λ '(c', _) _ w', claim_ok ns w' c')) as Hret.
  { intros a. apply wp_ret. intros w' He. exists l. eapply claim_held_extends; [by eapply extends_empty|done]. }
  destruct (heartbeat_is_coalesced c now); [apply Hret|].
  destruct (renewal_expiry (E := E) system c (ls_expires_at l) now) as [expires_at|e] eqn:Hex; [cbn [mbind result_bind]|apply Hret].
  destruct (prepare_renewal_record (E := E) c l expires_at) as [[c0 previous]|e] eqn:Hp; [cbn [mbind result_bind]|apply Hret].
  destruct (renewal_keeps now l expires_at c0 previous Ht Hl Hex Hp) as (r' & l' & -> & Hk & Hres).
  apply wp_bind, wp_valid. intros w0 He0 Hv0. eapply wp_mono.
  { apply wp_grows; [done|]. eapply wp_extends; [exact He0|]. by apply (wpj_build_renewal mine w r' l l'). }
  intros x mine1 w1 Hv1 [Hx He1].
  assert (claim_held ns w1 c r l) as Hc1.
  { eapply claim_held_extends; [exact He1|]. eapply claim_held_extends; [by eapply extends_empty|done]. }
  rewrite Hres. destruct x as [[[op e'] tx]|e].
  - destruct Hx as (Hop & Hd & Htx). apply (wp_commit_renewal mine1 w1 r' l l' e' op tx); try done.
    intros w2 Hrec Hv2 Hc2. by apply (renewed_claim_ok w2 r' l l' e' op).
  - apply wp_ret. intros w' He. exists l. eapply claim_held_extends; [by eapply extends_empty|done].
Qed.
Lemma checkpoint_keeps l bs c' previous :
  is_job_record r = true → jr_state r = Leased l → prepare_checkpoint_record (E := E) c bs = Ok (c', previous) →
  ∃ r', c' = set_record c r' ∧ keeps r' l l ∧ CheckpointState_restore previous c' = c.
Proof.
  intros Ht Hs Hp. unfold prepare_checkpoint_record in Hp. apply bind_Ok in Hp as (rev & Hrev & [= <- <-]).
  apply next_revision_Ok in Hrev as [Hrev Hru]; [|by apply typed_checkpoint].
  eexists _. split; [done|]. split.
  - split; [|by auto with typed|done|done|done|done]. split; [by split|]. done.
  - apply restore_checkpoint. eauto.
Qed.

Lemma wp_checkpoint mine w bs now :
  claim_ok ns w c → wp mine w (checkpoint (E := E) system c bs now) (λ '(c', _) _ w', claim_ok ns w' c').
Proof.
  intros [l Hc]. pose proof (claim_held_typed _ _ _ _ _ Hc) as Ht. unfold checkpoint.
  assert (∀ (a : result (JobSystemError E) CheckpointResult), wp mine w (@Ret E _ (c, a)) (λ '(c', _) _ w', claim_ok ns w' c')) as Hret.
  { intros a. apply wp_ret. intros w' He. exists l. eapply claim_held_extends; [by eapply extends_empty|done]. }
  destruct (MAX_CHECKPOINT_BYTES <? len bs); [apply Hret|].
  destruct (current_lease c now) as [lease|e] eqn:Hcl; last first.
  { apply wp_ret. intros w' He. apply claim_ok_lost. exists l. eapply claim_held_extends; [by eapply extends_empty|done]. }
  apply current_lease_state in Hcl. pose proof (ch_leased _ _ _ _ _ Hc) as Hl. assert (lease = l) as -> by congruence.
  destruct (prepare_checkpoint_record (E := E) c bs) as [[c0 previous]|e] eqn:Hp; [|apply Hret].
  destruct (checkpoint_keeps l bs c0 previous Ht Hl Hp) as (r' & -> & Hk & Hres).
  apply wp_bind, wp_valid. intros w0 He0 Hv0. eapply wp_mono.
  { apply wp_grows; [done|]. eapply wp_extends; [exact He0|]. by apply (wpj_build_renewal mine w r' l l). }
  intros x mine1 w1 Hv1 [Hx He1].
  assert (claim_held ns w1 c r l) as Hc1.
  { eapply claim_held_extends; [exact He1|]. eapply claim_held_extends; [by eapply extends_empty|done]. }
  rewrite Hres. destruct x as [[[op e'] tx]|e].
  - destruct Hx as (Hop & Hd & Htx). apply wp_bind. unfold commit_checkpoint. rewrite Hres. eapply wp_mono.
    { apply (wp_commit_renewal mine1 w1 r' l l e' op tx); try done.
      intros w2 Hrec Hv2 Hc2. by apply (renewed_claim_ok w2 r' l l e' op). }
    intros [c' x] mine2 w2 _ Hok. apply wp_ret. intros w3 He3. eapply claim_ok_extends; [by eapply extends_empty|done].
  - apply wp_ret. intros w' He. exists l. eapply claim_held_extends; [by eapply extends_empty|done].
Qed.
End renewal.
