(* ===== verification/Claimed.v ===== *)
(** * Claims keep the invariant

    [lifecycle/claim]: a claim takes the lease of a due job, or that of a
    lease that expired, with the permits of one slot.  The fence it read is
    still the job's fence when its transaction commits, because a record value
    never comes back. *)

From S2P Require Import Prelude Errors Ids Clock Policy JobRecord Wire KeyCodec ValueCodec JobCodec.
From S2P Require Import JobRoundtrip OperationCodec Keyspace Store Prog Logic System Transition Permits Claim.
From S2P Require Import Completion Refs Invariant Update Protocol Steps Moves Held LeaseTx.

(** ** Permit sets *)

Lemma first_set_in free sets values K : first_set free sets values = Some K → K ∈ sets.
Proof.
  revert values. induction sets as [|set sets IH]; intros values; [done|]. cbn.
  destruct (forallb _ _); [intros [= <-]; left|]. intros H. right. by eapply IH.
Qed.

Lemma quiet_read_permit_values {E} system probes : quiet (read_permit_values (E := E) system probes).
Proof.
  unfold read_permit_values. generalize (length probes) as n. intros n. revert probes.
  induction n as [|n IH]; intros probes; cbn [read_permit_batches]; [done|]. destruct probes as [|p probes]; [done|].
  apply quiet_job_bind; [auto with quiet|]. intros batch. destruct (negb _); [done|].
  apply quiet_job_bind; [apply IH|]. done.
Qed.
#[export] Hint Resolve quiet_read_permit_values : quiet.

Lemma quiet_find_claim_permit_keys {E} system record capacity b :
  quiet (find_claim_permit_keys (E := E) system record capacity b).
Proof. unfold find_claim_permit_keys, find_reclaimable_permit_keys, find_available_permit_keys. quiet. Qed.

Lemma quiet_load_fence {E} system j : quiet (load_fence_high_water (E := E) system j).
Proof. unfold load_fence_high_water. quiet. Qed.

Lemma quiet_load_payload {E} system r : quiet (load_payload_and_cancellation (E := E) system r).
Proof. unfold load_payload_and_cancellation. quiet. Qed.

Lemma quiet_publish_claim {E} system c d : quiet (publish_claim (E := E) system c d).
Proof. unfold publish_claim. quiet. Qed.

(** A program that cannot fail, then one that can. *)
Lemma wpj_lift `{!Discipline} {E A B : Type} (mine : gset bytes) (w : world) (p : prog E A) (k : A → job E B)
    (Φ : B → gset bytes → world → Prop) :
  wp mine w p (λ a mine' w', wpj mine' w' (k a) Φ) → wpj mine w (lift_prog p ≫= k) Φ.
Proof.
  intros Hp. unfold lift_prog. apply wp_bind, wp_bind. eapply wp_mono; [exact Hp|].
  intros a mine' w' _ Hk. apply wp_ret. intros w2 He2. by eapply wpj_extends.
Qed.

(** A quiet program draws nothing. *)
Lemma wp_quiet_extends `{!Discipline} {E A : Type} (mine : gset bytes) (w : world) (p : prog E A)
    (Φ : A → gset bytes → world → Prop) :
  valid w → quiet p → wp mine w p Φ →
  wp mine w p (λ a mine' w', Φ a mine' w' ∧ mine' = mine ∧ extends mine w w').
Proof.
  revert w. induction p as [a|X o k IH]; intros w Hv Hq Hp; cbn in *; [auto|].
  intros w1 He x mine' w2 Ho. destruct (Hp w1 He x mine' w2 Ho) as [Hs Hk]. split; [done|].
  destruct Hq as [Hr Hq]. destruct (read_only_effect _ _ _ _ _ _ Hr Ho) as [-> ->].
  eapply wp_mono; [by apply IH; [by destruct Hs|..]|]. intros a mine' w' _ (Ha & -> & He').
  split; [done|]. split; [done|]. by eapply extends_trans.
Qed.

Section claimed.
Context (ns : Namespace) (sha256 : bytes → bytes) (Hns : is_opaque MAX_NAMESPACE_BYTES ns = true).
#[local] Instance disc : Discipline := engine_discipline ns sha256.
Implicit Types m : StoreMap.
Implicit Types r : JobRecordV1.
Implicit Types w : world.
Implicit Types l : Lease.
Implicit Types j : JobId.
Implicit Types mine ids : gset bytes.

(** ** Reads between two sights of a record *)

Lemma seen_between w0 w1 w2 j e :
  is_fixed_id j = true → extends ∅ w0 w1 → extends ∅ w1 w2 → w_now w0 !! JobK ns j = Some e →
  w_now w2 !! JobK ns j = Some e → w_now w1 !! JobK ns j = Some e.
Proof.
  intros Hj [[l1 H1] _ _ _ _ _] [[l2 H2] _ _ Hv _ _] H0 He.
  pose proof (vw_history _ _ _ Hv) as Hh. rewrite H2, H1 in Hh. unfold states in H1, H2, Hh.
  destruct l1 as [|m1 l1]; [injection H1 as Hm1 _; congruence|]. injection H1 as Hm1 H1.
  destruct l2 as [|m2 l2]; [injection H2 as Hm2 _; congruence|]. injection H2 as Hm2 H2.
  rewrite Hm1. rewrite Hm2 in He.
  rewrite <- app_comm_cons in Hh. by eapply (history_between ns sha256 l2 _ l1 (w_now w0)).
Qed.

(** The fence of a job, for as long as its record is [e]. *)
Definition fence_seen w j (e : bytes) (f : Z) : Prop :=
  ∀ w', extends ∅ w w' → w_now w' !! JobK ns j = Some e → fence_at ns (w_now w') j = f.

Lemma fence_seen_extends w w' j e f : extends ∅ w w' → fence_seen w j e f → fence_seen w' j e f.
Proof. intros He Hf w'' He'. apply Hf. by eapply extends_trans. Qed.

Lemma fence_seen_read w0 w1 j e :
  is_fixed_id j = true → extends ∅ w0 w1 → w_now w0 !! JobK ns j = Some e →
  fence_seen w1 j e (fence_of j (w_now w1 !! OpK ns j)).
Proof.
  intros Hj He0 H0 w2 He Hnow. pose proof (seen_between w0 w1 w2 j e Hj He0 He H0 Hnow) as H1.
  pose proof (ex_valid _ _ _ He) as Hv. unfold fence_at. f_equal. symmetry.
  apply (fo_operation _ _ _ _ (past_follows ns sha256 w2 Hv (w_now w1) j
    (extends_state _ _ _ _ He (list_elem_of_here _ _)) Hj) e); done.
Qed.

Context {E : Type} (system : JobSystem) (Hsys : system_ok ns sha256 system).

Lemma wpj_load_fence mine w0 w j e :
  is_fixed_id j = true → extends ∅ w0 w → w_now w0 !! JobK ns j = Some e →
  wpj mine w (load_fence_high_water (E := E) system j) (λ f _ w', fence_seen w' j e f).
Proof.
  intros Hj He0 H0. unfold load_fence_high_water. rewrite (sk_namespace _ _ _ Hsys), operation_key_Ok by done.
  apply wpj_try. intros ? [= <-]. apply wpj_get. intros w1 v He1 ->.
  assert (fence_seen w1 j e (fence_of j (w_now w1 !! OpK ns j))) as Hf.
  { apply (fence_seen_read w0); [done| |done]. eapply extends_trans; [exact He0|by eapply extends_empty]. }
  destruct (w_now w1 !! OpK ns j) as [op|] eqn:Hop.
  - apply wpj_try_last. intros f w2 Hd He2. cbn in Hf. rewrite Hd in Hf.
    eapply fence_seen_extends; [by eapply extends_empty|done].
  - apply wpj_ret. intros w2 He2. eapply fence_seen_extends; [by eapply extends_empty|done].
Qed.

(** Every set a claim may take is that of one slot. *)
Lemma permit_sets_slot r cap sets K :
  is_job_record r = true → 0 ≤ cap → permit_key_sets ns r cap = Ok sets → K ∈ sets →
  ∃ slot, 0 ≤ slot < MAX_DURABLE_PERMIT_SLOTS ∧ K = slot_keys ns r slot.
Proof.
  intros Hr%permit_record_typed Hc. rewrite permit_key_sets_Ok by done. intros [Hmax ->].
  intros (slot & -> & Hin)%list_elem_of_fmap. exists slot. split; [|done].
  unfold range in Hin. apply list_elem_of_fmap in Hin as (n & -> & Hn). apply elem_of_seq in Hn. lia.
Qed.

Lemma find_claim_permit_outcomes r cap b :
  is_job_record r = true → 0 ≤ cap →
  outcomes (λ o, ∀ K, o = Some K → ∃ slot, 0 ≤ slot < MAX_DURABLE_PERMIT_SLOTS ∧ K = slot_keys ns r slot)
    (find_claim_permit_keys (E := E) system r cap b).
Proof.
  intros Hr Hc. unfold find_claim_permit_keys, find_reclaimable_permit_keys, find_available_permit_keys.
  rewrite (sk_namespace _ _ _ Hsys).
  assert (∀ n sets, 0 ≤ n → permit_key_sets ns r n = Ok sets → first_is_empty sets = true →
    ∃ slot, 0 ≤ slot < MAX_DURABLE_PERMIT_SLOTS ∧ [] = slot_keys ns r slot) as Hempty.
  { intros n sets Hn Hs Hf. destruct sets as [|[|] sets]; try done. eapply permit_sets_slot; [done|exact Hn|exact Hs|left]. }
  destruct b; apply outcomes_try; intros sets Hs; destruct (first_is_empty sets) eqn:Hf.
  - intros K [= <-]. by eapply (Hempty MAX_DURABLE_PERMIT_SLOTS).
  - apply outcomes_any. intros pv. apply outcomes_any. intros values K HK%first_set_in.
    by eapply (permit_sets_slot r MAX_DURABLE_PERMIT_SLOTS).
  - intros K [= <-]. by eapply (Hempty cap).
  - apply outcomes_any. intros values K HK%first_set_in. by eapply (permit_sets_slot r cap).
Qed.

(** ** The leased record *)

(** The next version of [r], under a lease of this process that no state has
    shown and whose fence is above [f]. *)
Record taken r (f : Z) (r' : JobRecordV1) l' mine w : Prop := {
  tk_next : next_of r r';
  tk_typed : is_job_record r' = true;
  tk_leased : jr_state r' = Leased l';
  tk_fence : f < ls_fence l';
  tk_mine : ls_token l' ∈ mine;
  tk_drawn : ls_token l' ∈ w_ids w;
  tk_hidden : ¬ published w (ls_token l');
}.

Lemma taken_extends r f r' l' mine mine' w w' :
  extends mine w w' → mine ⊆ mine' → taken r f r' l' mine w → taken r f r' l' mine' w'.
Proof.
  intros He Hm [Hn Ht Hl Hf Hmi Hd Hh]. split; try done; [set_solver|by apply (ex_ids _ _ _ He)|].
  by apply (ex_unpublished _ _ _ He).
Qed.

Lemma next_attempt_typed r now a :
  is_job_record r = true → is_i64 now = true → next_attempt r now = Some a → is_attempt_history a = true.
Proof.
  intros Hr Hn. unfold next_attempt.
  assert (is_option is_attempt_history (jr_attempts r) = true) as Ha by (unfold is_job_record in Hr; by split_andb).
  destruct (jr_attempts r) as [h|]; cbn in Ha.
  - intros H. destruct (checked_add_u32 (ah_attempts h) 1) as [n|] eqn:Hc; [|done]. cbn in H.
    destruct (Z.eqb_spec n 0) as [|Hn0]; [done|]. injection H as <-. apply checked_Some in Hc as [-> Hb].
    unfold is_attempt_history in *. split_andb; cbn; try done. ranges. lia.
  - intros [= <-]. unfold is_attempt_history. cbn. by rewrite !Hn.
Qed.

Lemma wpj_claim_authority mine w r now f deadline :
  is_job_record r = true → is_i64 now = true →
  wpj mine w (claim_authority (E := E) system r now f deadline) (λ '(attempts, fence, token, expires_at) mine' w',
    is_attempt_history attempts = true ∧ f < fence ∧
    is_lease (mkLease (sys_owner system) token fence (Z.max 0 expires_at)) = true ∧
    mine ⊆ mine' ∧ extends ∅ w w' ∧ token ∈ mine' ∧ token ∈ w_ids w' ∧ ¬ published w' token).
Proof.
  intros Hr Hnow. unfold claim_authority. apply wpj_try. intros reg _.
  destruct (JobRecordV1_has_exhausted_attempts r); [done|]. apply wpj_try. intros attempts Ha.
  destruct (next_attempt r now) as [a|] eqn:Hna; [|done]. injection Ha as <-.
  apply wpj_try. intros fence Hf. apply wpj_try. intros u Hnz. apply wpj_generate. intros w1 token He1 Htok Hnew.
  apply wpj_try. intros ex Hex. apply Timestamp_checked_add_Ok in Hex as [_ Hex]. cbn zeta.
  set (expires_at := match deadline with Some _ => _ | None => _ end).
  assert (expires_at ≤ I64_MAX) as Hmax by (destruct deadline; ranges; lia).
  destruct (expires_at <=? now); [done|]. apply wpj_ret. intros w2 He2.
  pose proof (ex_valid _ _ _ He1) as Hv1. destruct (fresh_hidden w1 token Hv1 Hnew) as [Hh _].
  destruct (checked_add_u64 _ 1) as [x|] eqn:Hx; [|done]. injection Hf as <-. apply checked_Some in Hx as [-> Hb].
  unfold ensure in Hnz. destruct (Z.eqb_spec (match jr_state r with Leased lease => Z.max (ls_fence lease) f | _ => f end + 1) 0)
    as [|Hnz']; [done|].
  clearbody expires_at. split_and!.
  - by apply (next_attempt_typed r now).
  - destruct (jr_state r); lia.
  - unfold is_lease. cbn. rewrite (sk_owner _ _ _ Hsys), Htok. cbn. split_andb; ranges; lia.
  - set_solver.
  - eapply extends_trans; [by eapply extends_empty|].
    eapply extends_trans; [by apply (extends_draw _ _ token)|by eapply extends_empty].
  - set_solver.
  - apply (ex_ids _ _ _ He2). cbn. set_solver.
  - apply (ex_unpublished _ _ _ He2); [set_solver|done].
Qed.

Lemma wpj_prepare_claim mine w r now f deadline :
  is_job_record r = true → is_i64 now = true →
  wpj mine w (prepare_claim_record (E := E) system r now f deadline) (λ r' mine' w',
    mine ⊆ mine' ∧ extends ∅ w w' ∧ ∃ l', taken r f r' l' mine' w').
Proof.
  intros Hr Hnow. unfold prepare_claim_record. destruct (_ || _ || _ || _); [done|].
  apply wpj_bind. eapply wpj_mono; [by apply wpj_claim_authority|].
  intros [[[a fence] token] ex] mine1 w1 _ (Ha & Hf & Hl & Hm & He & Htm & Hd & Hh).
  apply wpj_try. intros gen Hgen. apply wpj_try. intros lease Hle. apply wpj_try. intros rev Hrev.
  apply wpj_ret. intros w2 He2. split; [done|].
  split; [eapply extends_trans; [exact He|by eapply extends_empty]|]. exists lease.
  unfold Lease_try_new in Hle. destruct (Z.ltb_spec ex 0) as [|Hpos]; [done|]. injection Hle as <-.
  rewrite Z.max_r in Hl by done.
  destruct (checked_add_u32 (jr_generation r) 1) as [g|] eqn:Hg; [|done]. injection Hgen as <-.
  apply checked_Some in Hg as [-> Hgb]. pose proof (typed_names r Hr) as [_ _ _ _ Hrv _ _].
  apply checked_revision in Hrev as [Hrev Hru]; [|cbn; ranges; lia]. cbn in Hrev.
  assert (is_u32 (jr_generation r + 1) = true) as Hgu by (ranges; lia).
  split; cbn; try done.
  - auto 10 with typed.
  - by apply (ex_ids _ _ _ He2).
  - by apply (ex_unpublished _ _ _ He2).
Qed.

(** ** The transaction *)

Section take_tx.
Context (w : world) (r r' : JobRecordV1) (l' : Lease) (e e' ov : bytes) (f slot : Z) (mine : gset bytes).
Context (Hdec : decode_job_record e = Ok r) (Hdec' : decode_job_record e' = Ok r').
Context (Htk : taken r f r' l' mine w) (Hslot : 0 ≤ slot < MAX_DURABLE_PERMIT_SLOTS).
Abbreviation j := (jr_job_id r).
Abbreviation q := (jr_queue r).
Abbreviation K := (slot_keys ns r' slot).
Context (Hov : op_entry j ov (ls_fence l')) (Hfs : fence_seen w j e f).

(** The route of a claim is an index entry of its record. *)
Definition route_ok (route : ClaimRoute) : Prop :=
  match route with
  | CR_Due key _ => ∃ t, key = DueK ns q t j
  | CR_ExpiredLease key _ => key = LeaseK ns q j
  end.

Abbreviation claim_list route :=
  ([Put (JobK ns j) e'] ++ (if ClaimRoute_removes_route route then [Delete (ClaimRoute_key route)] else [])
   ++ [Delete (FairK ns q j); Put (LeaseK ns q j) (marker_layout VT_Lease j); Put (OpK ns j) ov]
   ++ ((λ k, Put k (permit_layout r' l')) <$> K)).

Lemma take_names : is_fixed_id j = true ∧ is_text MAX_NAME_BYTES q = true ∧ Forall (is_permit ns) K.
Proof.
  pose proof (typed_names r (decode_typed _ _ Hdec)) as [Hj Hq _ _ _ _ _]. split_and!; [done..|].
  apply Forall_forall. intros k. apply slot_keys_permit; [done|]. apply permit_record_typed, Htk.
Qed.

Lemma claim_touch route :
  route_ok route →
  Forall (touch ns j (Some r') (λ mu, mu ∈ (λ k, Put k (permit_layout r' l')) <$> K) (λ _, False)) (claim_list route).
Proof.
  intros Hro. destruct take_names as (Hj & Hq & HK). destruct Htk as [(Hsame & _) Ht Hl _ _ _ _].
  pose proof (entries_leased ns r r' Hsame l' Hl) as Hen.
  destruct route as [k v|k v]; cbn in Hro; [destruct Hro as [t ->]|]; cbn [ClaimRoute_removes_route ClaimRoute_key];
    touches Hl Hen; by apply touch_puts.
Qed.

(** What a route and the permits say of the record at the commit. *)
Lemma route_state w' route v :
  valid_world ns sha256 w' → record_at ns (w_now w') j = Some r → route_ok route →
  w_now w' !! ClaimRoute_key route = Some v →
  match route with
  | CR_Due key _ => jr_state r = Scheduled ∧ key = DueK ns q (jr_scheduled_at r) j
  | CR_ExpiredLease _ _ => leased (jr_state r)
  end.
Proof.
  intros Hv Hr Hro Hk. destruct take_names as (Hj & Hq & HK). destruct route as [k v'|k v']; cbn in *.
  - destruct Hro as [t ->]. by apply (now_due ns sha256 Hns w' Hv j Hj r Hr t v).
  - subst. by apply (now_leased ns sha256 Hns w' Hv j Hj r Hr v).
Qed.

Lemma claim_reindexed route s0 :
  match route with
  | CR_Due key _ => jr_state r = Scheduled ∧ key = DueK ns q (jr_scheduled_at r) j
  | CR_ExpiredLease _ _ => jr_state r = Leased s0
  end → reindexed ns (claim_list route) r r'.
Proof.
  intros Hs. destruct Htk as [(Hsame & _) Ht Hl _ _ _ _]. pose proof (entries_leased ns r r' Hsame l' Hl) as Hen.
  split; rewrite ?Hen.
  - intros k v. destruct route as [k0 v0|k0 v0]; cbn [ClaimRoute_removes_route ClaimRoute_key].
    + destruct Hs as [Hs ->]. rewrite (entries_scheduled ns r r (same_job_refl r) Hs).
      intros [[= -> _]|[[= -> _]|[]%not_elem_of_nil]%elem_of_cons]%elem_of_cons; apply delete_key; mem.
    + rewrite (entries_leased ns r r (same_job_refl r) s0 Hs).
      intros [[= -> _]|[]%not_elem_of_nil]%elem_of_cons. apply (put_key _ (marker_layout VT_Lease j)). mem.
  - intros k v [[= -> ->]|[]%not_elem_of_nil]%elem_of_cons. mem.
Qed.

(** The value the permits of a claim have before it. *)
Definition permit_before (route : ClaimRoute) (pv : option bytes) : Prop :=
  match route with CR_Due _ _ => pv = None | CR_ExpiredLease _ _ => pv = permit_of r end.

Lemma claim_safe route pv checks :
  route_ok route → permit_before route pv → Value (JobK ns j) e ∈ checks →
  Value (ClaimRoute_key route) (ClaimRoute_value route) ∈ checks → Absent (CancelK ns j) ∈ checks →
  (∀ k, k ∈ K → match pv with Some v => Value k v | None => Absent k end ∈ checks) →
  step_safe ns sha256 {[ls_token l']} w checks (claim_list route).
Proof.
  intros Hro Hpv Hin Hrt Hab Hpc w' He Hch Hnd. destruct take_names as (Hj & Hq & HK).
  pose proof (ex_valid _ _ _ He) as Hv. pose proof Htk as [Hnext Ht Hl Hf Hmi Hd Hh].
  pose proof (check_value _ _ _ _ Hch Hin) as Hnow. pose proof (record_at_decode ns _ _ _ _ Hnow Hdec) as Hr.
  pose proof (route_state w' route _ Hv Hr Hro (check_value _ _ _ _ Hch Hrt)) as Hst.
  destruct (good_take ns sha256 Hns w' (claim_list route) j r r' l' slot e' ov) as [Hg Hvis]; try done.
  - mem.
  - apply (ex_unpublished _ _ _ He); [set_solver|done].
  - by apply claim_touch.
  - intros k Hk. mem.
  - destruct route as [k v|k v]; [by apply claim_reindexed|]. destruct Hst as [l0 Hl0]. by apply (claim_reindexed _ l0).
  - mem.
  - rewrite (Hfs w'); [lia|by eapply extends_empty|done].
  - by eapply check_absent.
  - apply (without_key ns _ KT_Cancellation); [by apply tag_CancelK|].
    destruct route as [k v|k v]; cbn in Hro; [destruct Hro as [t ->]|]; cbn [ClaimRoute_removes_route ClaimRoute_key]; tags.
  - intros k Hk. specialize (Hpc k Hk). assert (pv = permit_of r) as <-.
    { destruct route; [|done]. destruct Hst as [Hst _]. cbn in Hpv. rewrite unleased_permit; [done|].
      rewrite Hst. by intros []. }
    destruct pv; [by eapply check_value|by eapply check_absent].
  - split; [done|]. intros id Hid. destruct (Hvis id Hid); [by left|right; set_solver].
Qed.
End take_tx.

(** ** The commit *)

Section commit.
Context (r r' : JobRecordV1) (l' : Lease) (e e' : bytes) (f slot : Z) (route : ClaimRoute) (op : OperationId).
Context (Hdec : decode_job_record e = Ok r) (Hdec' : decode_job_record e' = Ok r').
Context (Hslot : 0 ≤ slot < MAX_DURABLE_PERMIT_SLOTS) (Hop : is_fixed_id op = true) (Hro : route_ok r route).
Abbreviation j := (jr_job_id r).
Abbreviation q := (jr_queue r).
Abbreviation K := (slot_keys ns r' slot).

Lemma claim_mutations_Ok mine w x :
  taken r f r' l' mine w → claim_mutations (E := E) system r' route e' op K = Ok x →
  ∃ ov, op_entry j ov (ls_fence l') ∧
    x = (JobK ns j, FairK ns q j, LeaseK ns q j,
      [Put (JobK ns j) e'] ++ (if ClaimRoute_removes_route route then [Delete (ClaimRoute_key route)] else [])
      ++ [Delete (FairK ns q j); Put (LeaseK ns q j) (marker_layout VT_Lease j); Put (OpK ns j) ov]
      ++ ((λ k, Put k (permit_layout r' l')) <$> K)).
Proof.
  intros [([Hj' _ _ (Hq' & _)] & _) Ht Hl _ _ _ _] Hm.
  pose proof (typed_names r (decode_typed _ _ Hdec)) as [Hj Hq _ _ _ _ _]. unfold claim_mutations, data, lease_fence in Hm.
  rewrite (sk_namespace _ _ _ Hsys), Hj', Hq', job_key_Ok, fair_key_Ok, lease_key_Ok, lease_value_Ok,
    operation_key_Ok, Hl in Hm by done. cbn [mbind result_bind map_err] in Hm.
  apply bind_Ok in Hm as (ov & Hov & Hm). apply map_err_Ok in Hov.
  apply bind_Ok in Hm as (pv & Hpv & [= <-]). apply map_err_Ok in Hpv. apply permit_value_Ok in Hpv; [|done].
  rewrite (leased_permit r' l' Hl) in Hpv. injection Hpv as <-. exists ov. split; [|done].
  destruct (typed_lease r' l' Ht Hl) as (_ & _ & Hf). eapply (op_entry_new j op); [done..| |done]. ranges. lia.
Qed.

(** The lease was durable, with its permits and no others. *)
Definition lease_written w : Prop :=
  ∃ m, m ∈ states w ∧ m !! JobK ns j = Some e' ∧
    ∀ k, is_permit ns k → m !! k = Some (permit_layout r' l') ↔ k ∈ K.

Lemma lease_written_extends mine w w' : extends mine w w' → lease_written w → lease_written w'.
Proof. intros He (m & Hm & Hr). exists m. split; [by eapply extends_state|done]. Qed.

Lemma claim_reached mine w w' checks ms :
  taken r f r' l' mine w → valid_world ns sha256 w' → Put (JobK ns j) e' ∈ ms →
  (∀ k, k ∈ K → Put k (permit_layout r' l') ∈ ms) →
  reached ns sha256 {[ls_token l']} w checks ms (JobK ns j) (Some e') w' → lease_written w'.
Proof.
  intros [([Hj' _ _ _] & _) Ht Hl _ _ _ Hh] Hv Hput Hputs Hre.
  pose proof (typed_names r (decode_typed _ _ Hdec)) as [Hj _ _ _ _ _ _].
  pose proof (permit_record_typed r' Ht) as Hpr.
  destruct Hre as [(m & m' & _ & Hm' & _ & Hnd & Ha)|(He & m & Hm & Hk)].
  - assert (m' !! JobK ns j = Some e') as Hrec.
    { rewrite (Ha (JobK ns j)); [by apply apply_put|]. eapply key_job_not_wake. by apply key_job_JobK. }
    exists m'. split; [done|]. split; [done|].
    pose proof (history_in ns sha256 m' _ (vw_history _ _ _ Hv) Hm') as Hok.
    destruct (so_slot _ _ _ Hok j r' _ Hj (record_at_decode ns _ _ _ _ Hrec Hdec') (leased_permit r' l' Hl)) as [slot0 Hs].
    rewrite (slot_full ns Hns m' r' (permit_layout r' l') slot0 slot); [apply Hs|done..|].
    intros k Hk. rewrite (Ha k); [by apply apply_put, Hputs|]. eapply permit_not_wake, slot_keys_permit; done.
  - destruct (ex_unpublished _ _ _ He (ls_token l')); [set_solver|done|]. exists m. split; [done|].
    exists j, r'. split; [done|]. split; [by eapply record_at_decode|]. right. by exists l'.
Qed.

(** What a claim returns is held. *)
Lemma wpj_finish_claim mine w attempt deadline :
  is_job_record r' = true → same_job r r' → jr_state r' = Leased l' → is_fixed_id attempt = true → lease_written w →
  wpj mine w (finish_claim (E := E) system r' e'
    (mkClaimParts deadline route (FairK ns q j) (LeaseK ns q j) K attempt op) deadline)
    (λ c _ w', claim_ok ns w' c).
Proof.
  intros Ht [Hj' _ _ (Hq' & _)] Hl Hat Hw. unfold finish_claim.
  apply (wpj_quiet_bind ns sha256 _ _ _ _ _ _ (quiet_load_payload _ _) (leaves_ok _)). intros [payload cancel] w1 He1 _.
  apply wpj_try. intros c Hc. unfold assemble_claim, lease_fence in Hc. rewrite Hl in Hc. cbn in Hc. injection Hc as <-.
  apply (wpj_quiet_bind ns sha256 _ _ _ _ _ _ (quiet_publish_claim _ _ _) (leaves_ok _)). intros _ w2 He2 _.
  apply wpj_ret. intros w3 He3. exists l'. split; cbn; rewrite ?Hj', ?Hq'; try done.
  - do 3 (eapply lease_written_extends; [eassumption|]). done.
  - apply Forall_forall. intros k. apply slot_keys_permit; [done|by apply permit_record_typed].
  - intros k. destruct route as [k0 v|k0 v]; [|done]. intros [= <-]. apply Hro.
Qed.

Lemma wpj_commit_claim mine w pv :
  taken r f r' l' mine w → fence_seen w j e f → permit_before r route pv →
  wpj mine w (commit_claim (E := E) system (mkClaimTransactionInput r' e route e' op K pv))
    (λ keys _ w', keys = (FairK ns q j, LeaseK ns q j) ∧ lease_written w').
Proof.
  intros Htk Hfs Hpv. destruct (take_names w r r' l' e f slot mine Hdec Htk) as (Hj & Hq & HK).
  unfold commit_claim. apply wpj_bind. unfold claim_transaction. cbn [ct_record ct_encoded ct_route ct_new_encoded
    ct_operation_id ct_permit_keys ct_existing_permit_value].
  apply wpj_try. intros x Hx. destruct (claim_mutations_Ok mine w x Htk Hx) as (ov & Hov & ->).
  pose proof (proj1 (tk_next _ _ _ _ _ _ Htk)) as [Hj' _ _ _].
  rewrite (sk_namespace _ _ _ Hsys), Hj', cancellation_key_Ok by done. apply wpj_try. intros ? [= <-].
  pose proof (tk_mine _ _ _ _ _ _ Htk) as Hmi. pose proof (tk_drawn _ _ _ _ _ _ Htk) as Hdr.
  apply wpj_bind. unfold claim_checks. wp_checked ({[ls_token l']} : gset bytes).
  - destruct route as [k v|k v]; cbn in Hro; [destruct Hro as [t ->]|subst k]; cbn [ClaimRoute_key]; split_Forall; try tags.
    all: apply permit_checks_no_wake; [by destruct pv|done].
  - by apply (claim_touch w r r' l' e e' ov f slot mine).
  - apply (claim_safe w r r' l' e e' ov f slot mine) with (pv := pv); try done; try mem.
    intros k Hk. apply elem_of_app. left. apply elem_of_app. right. apply list_elem_of_fmap. by exists k.
  - intros tx mine1 w1 Hm1 He1 Hg. apply wpj_ret. intros w2 He2.
    apply wpj_bind. eapply wpj_mono.
    { eapply (wpj_commit_transition ns sha256 Hns system Hsys). by eapply tx_good_extends. }
    intros ? mine3 w3 Hv3 (_ & _ & Hre). apply wpj_ret. intros w4 He4. split; [done|].
    eapply lease_written_extends; [exact He4|]. eapply (claim_reached mine1 w2); [| | | |exact Hre]; try done; try mem.
    + apply (taken_extends _ _ _ _ mine1 mine1 w1); [done..|]. by apply (taken_extends _ _ _ _ mine mine1 w).
    + intros k Hk. mem.
Qed.
End commit.

(** ** The claim *)

Lemma taken_draw r f r' l' mine w id :
  valid w → taken r f r' l' mine w → taken r f r' l' ({[id]} ∪ mine) (draw w id).
Proof. intros Hv. apply taken_extends; [by apply extends_draw|set_solver]. Qed.

Lemma wp_join_claim_reads mine w0 w r e cap b :
  is_job_record r = true → 0 ≤ cap → extends ∅ w0 w → w_now w0 !! JobK ns (jr_job_id r) = Some e →
  wp mine w (join_claim_reads_with_mode (E := E) system r cap b) (λ '(fence, permits) mine' w',
    mine' = mine ∧ extends mine w w' ∧ on_ok (fence_seen w' (jr_job_id r) e) fence ∧
    on_ok (λ o, ∀ K, o = Some K → ∃ slot, 0 ≤ slot < MAX_DURABLE_PERMIT_SLOTS ∧ K = slot_keys ns r slot) permits).
Proof.
  intros Ht Hc He0 H0. pose proof (typed_names r Ht) as [Hj _ _ _ _ _ _].
  apply wp_valid. intros w1 He1 Hv1. unfold join_claim_reads_with_mode.
  apply (wp_join _ _ _ _
    (λ x mine' w', mine' = mine ∧ extends mine w w' ∧ on_ok (fence_seen w' (jr_job_id r) e) x)
    (λ x _ _, on_ok (λ o, ∀ K, o = Some K → ∃ slot, 0 ≤ slot < MAX_DURABLE_PERMIT_SLOTS ∧ K = slot_keys ns r slot) x)).
  - intros x mine' wa wb He (-> & Ha & Hx). split; [done|]. split; [by eapply extends_trans|].
    destruct x; [|done]. eapply fence_seen_extends; [by eapply extends_empty|done].
  - by intros x mine0 wa wb _ Hx.
  - apply quiet_load_fence.
  - apply quiet_find_claim_permit_keys.
  - eapply wp_mono; [apply wp_quiet_extends; [done|apply quiet_load_fence|]|].
    + apply (wpj_load_fence mine w0 w1 (jr_job_id r) e); try done. eapply extends_trans; [exact He0|by eapply extends_empty].
    + intros x mine' w' _ (Hx & -> & He). split; [done|]. split; [by eapply extends_trans|]. by destruct x.
  - eapply wp_mono; [apply (wpj_quiet ns sha256); [done|apply quiet_find_claim_permit_keys|by apply find_claim_permit_outcomes]|].
    intros [x|] mine' w' _; [by intros (_ & _ & ?)|done].
  - intros x y mine' w' _ (-> & He & Hx) Hy. done.
Qed.

Lemma wpj_claim_record mine w0 w r e route now cap deadline :
  decode_job_record e = Ok r → route_ok r route → is_i64 now = true → 0 ≤ cap →
  extends ∅ w0 w → w_now w0 !! JobK ns (jr_job_id r) = Some e →
  wpj mine w (claim_record_with_capacity (E := E) system r e route now cap deadline) (λ c _ w', claim_ok ns w' c).
Proof.
  intros Hdec Hro Hnow Hcap He0 H0. pose proof (decode_typed _ _ Hdec) as Ht. unfold claim_record_with_capacity.
  apply wpj_try. intros ? _. apply wpj_try. intros ? _. apply wpj_bind. eapply wpj_mono.
  { instantiate (1 := λ pv mine' w', mine' = mine ∧ extends mine w w' ∧ permit_before r route pv).
    destruct route; cbn [ClaimRoute_replaces_permits]; [by apply wpj_ret|]. apply wpj_try. intros v Hv.
    apply wpj_ret. intros w1 He1. split; [done|]. split; [done|]. cbn. symmetry. by apply permit_value_Ok. }
  intros pv mine1 w1 _ (-> & He1 & Hpv). apply wpj_lift. eapply wp_mono.
  { apply (wp_join_claim_reads mine w0 w1 r e); try done. eapply extends_trans; [exact He0|by eapply extends_empty]. }
  intros [xf xp] mine2 w2 _ (-> & He2 & Hf & Hp). apply wpj_try. intros f ->. cbn in Hf.
  apply wpj_bind. eapply wpj_mono; [by apply wpj_prepare_claim|]. intros r' mine3 w3 _ (_ & He3 & l' & Htk).
  apply (fence_seen_extends w2 w3) in Hf; [|done].
  apply wpj_try. intros e' He'. apply encode_decodes in He'; [|apply Htk].
  apply wpj_generate. intros w4 attempt He4 Hat _. pose proof (ex_valid _ _ _ He4) as Hv4.
  apply (taken_extends _ _ _ _ _ mine3 _ w4) in Htk; [|done..]. apply (taken_draw _ _ _ _ _ _ attempt) in Htk; [|done].
  apply wpj_generate. intros w5 op He5 Hop _. pose proof (ex_valid _ _ _ He5) as Hv5.
  apply (taken_extends _ _ _ _ _ ({[attempt]} ∪ mine3) _ w5) in Htk; [|done..].
  apply (taken_draw _ _ _ _ _ _ op) in Htk; [|done].
  assert (extends ∅ w3 (draw w5 op)) as He35.
  { eapply extends_trans; [by eapply extends_empty|]. eapply extends_trans; [by apply (extends_draw _ _ attempt)|].
    eapply extends_trans; [by eapply extends_empty|]. by apply extends_draw. }
  apply (fence_seen_extends w3 (draw w5 op)) in Hf; [|done].
  apply wpj_try. intros o ->. apply wpj_try. intros K HK. destruct o as [K0|]; [|done]. injection HK as ->.
  destruct (Hp K eq_refl) as (slot & Hslot & ->). pose proof (proj1 (tk_next _ _ _ _ _ _ Htk)) as Hsame.
  rewrite <- (slot_keys_route ns r r' slot) by apply Hsame.
  apply wpj_bind. eapply wpj_mono; [by apply (wpj_commit_claim r r' l' e e' f slot route op)|].
  intros keys mine6 w6 _ (-> & Hw). by apply (wpj_finish_claim r r' l' e' slot route op); try apply Htk.
Qed.

Lemma wpj_claim mine w j now cap :
  is_fixed_id j = true → is_i64 now = true → 0 ≤ cap →
  wpj mine w (claim_with_capacity (E := E) system j now cap) (λ c _ w', claim_ok ns w' c).
Proof.
  intros Hj Hnow Hcap. unfold claim_with_capacity. rewrite (sk_namespace _ _ _ Hsys), job_key_Ok by done.
  apply wpj_try. intros ? [= <-]. apply wpj_get. intros w0 v He0 ->.
  apply wpj_try. intros e He. destruct (w_now w0 !! JobK ns j) as [e0|] eqn:H0; [|done]. injection He as ->.
  apply wpj_try. intros r Hdec. apply wpj_try. intros [] Hid. apply map_err_Ok in Hdec || idtac.
  pose proof (decode_typed _ _ Hdec) as Ht. pose proof (typed_names r Ht) as [_ Hq _ _ _ _ _].
  assert (jr_job_id r = j) as <-.
  { unfold validate_persisted_identity in Hid. destruct (bytes_eqb (jr_job_id r) j) eqn:Hb; [|done]. by apply bytes_eqb_spec. }
  apply wpj_bind. eapply wpj_mono.
  { instantiate (1 := λ route mine' w', mine' = mine ∧ extends mine w0 w' ∧ route_ok r route).
    unfold load_claim_route. rewrite (sk_namespace _ _ _ Hsys), due_key_Ok, lease_key_Ok by done.
    apply wpj_try. intros ? [= <-]. apply wpj_get. intros w1 v He1 ->. destruct (w_now w1 !! _) as [v|].
    { apply wpj_ret. intros w2 He2. split; [done|]. split; [by eapply extends_trans|]. cbn. eauto. }
    apply wpj_try. intros ? [= <-]. apply wpj_get. intros w2 v He2 ->. apply wpj_try. intros v _.
    destruct (jr_state r); try done. destruct (_ <=? _); [|done]. apply wpj_ret. intros w3 He3.
    split; [done|]. split; [|done]. eapply extends_trans; [exact He1|]. by eapply extends_trans. }
  intros route mine' w1 _ (-> & He1 & Hro). apply (wpj_claim_record mine w0); try done. by eapply extends_empty.
Qed.
End claimed.
