(* ===== verification/Controls.v ===== *)
(** * Control operations keep the invariant

    [admin/*.rs] on jobs without a lease: cancellation, suspension, resumption,
    expiry, redrive and repair replace the record by its next version, under
    checks of the record and of its operation entry. *)

From S2P Require Import Prelude Errors Ids Clock Policy JobRecord Wire KeyCodec ValueCodec JobCodec.
From S2P Require Import JobRoundtrip OperationCodec Keyspace Store Prog Logic System Transition Permits Claim.
From S2P Require Import Admin Refs Invariant Update Protocol Steps Moves Held LeaseTx Outcomes Claimed.

Lemma code_typed value c : code value = Ok c → is_outcome_code c = true.
Proof. unfold code. rewrite OutcomeCode_try_new_Ok. by intros [-> ?]. Qed.

Section controls.
Context (ns : Namespace) (sha256 : bytes → bytes) (Hns : is_opaque MAX_NAMESPACE_BYTES ns = true).
#[local] Instance disc : Discipline := engine_discipline ns sha256.
Implicit Types r : JobRecordV1.
Implicit Types w : world.
Implicit Types l : Lease.
Implicit Types j : JobId.
Implicit Types ms : list Mutation.
Implicit Types checks : list Check.
Implicit Types mine ids : gset bytes.

(** ** A record that was read *)

(** The value [e] of the record of [j] was read in some world before [w]. *)
Record seen w j (e : bytes) r : Prop := {
  se_decodes : decode_job_record e = Ok r;
  se_job : jr_job_id r = j;
  se_then : ∃ w0, extends ∅ w0 w ∧ w_now w0 !! JobK ns j = Some e;
}.

Lemma seen_extends w w' j e r : extends ∅ w w' → seen w j e r → seen w' j e r.
Proof. intros He [Hd Hj (w0 & He0 & H0)]. split; [done..|]. exists w0. split; [by eapply extends_trans|done]. Qed.

Lemma seen_names w j e r :
  seen w j e r → is_job_record r = true ∧ is_fixed_id j = true ∧ is_text MAX_NAME_BYTES (jr_queue r) = true.
Proof.
  intros [Hd <- _]. pose proof (decode_typed _ _ Hd) as Ht. pose proof (typed_names r Ht) as [? ? _ _ _ _ _]. done.
Qed.

Lemma seen_record w w' j e r checks :
  seen w j e r → checks_match (w_now w') checks = true → Value (JobK ns j) e ∈ checks →
  record_at ns (w_now w') j = Some r.
Proof. intros [Hd _ _] Hch Hin. eapply record_at_decode; [|exact Hd]. by eapply check_value. Qed.

(** ** Operation entries under check *)

(** A check of the operation entry, and the fence it proves. *)
Definition op_check j checks (f : Z) : Prop :=
  ∃ op, match op with Some v => Value (OpK ns j) v | None => Absent (OpK ns j) end ∈ checks ∧ fence_of j op = f.

Lemma op_check_fence w j checks f :
  checks_match (w_now w) checks = true → op_check j checks f → fence_at ns (w_now w) j = f.
Proof.
  intros Hch ([v|] & Hin & <-); unfold fence_at; [by rewrite (check_value _ _ _ _ Hch Hin)|].
  by rewrite (check_absent _ _ _ Hch Hin).
Qed.

(** ** Moves *)

(** The next version of a record: of the same execution, or of a new one that
    no state has shown. *)
Definition moves_to ids w r (r' : JobRecordV1) : Prop :=
  same_job r r' ∧
  (jr_execution_id r' = jr_execution_id r ∧ jr_revision r' = jr_revision r + 1 ∨
   jr_execution_id r' ∈ ids ∧ ¬ published w (jr_execution_id r')).

Lemma moves_extends ids w w' r r' : extends ids w w' → moves_to ids w r r' → moves_to ids w' r r'.
Proof.
  intros He [Hs [Hn|[Hi Hp]]]; split; auto. right. split; [done|]. by apply (ex_unpublished _ _ _ He).
Qed.

Lemma moves_version ids w r r' : moves_to ids w r r' → version ns sha256 w r r'.
Proof. intros [[] [Hn|[Hi Hp]]]; split; auto. Qed.

Lemma moves_next w r r' : next_of r r' → moves_to ∅ w r r'.
Proof. intros (Hs & Hn). split; [done|by left]. Qed.

(** What the operation entry becomes. *)
Definition op_moved j checks ms (s s' : JobState) : Prop :=
  (∃ ov f, Put (OpK ns j) ov ∈ ms ∧ op_entry j ov f ∧ op_check j checks f) ∨
  (OpK ns j ∉ Mutation_key <$> ms ∧ s' = s).

Section idle_tx.
Context (ids : gset bytes) (w : world) (j : JobId) (e e' : bytes) (r r' : JobRecordV1).
Context (checks : list Check) (ms : list Mutation).
Context (Hseen : seen w j e r) (Hdec' : decode_job_record e' = Ok r') (Hmv : moves_to ids w r r').
Context (Hidle : ¬ leased (jr_state r)) (Hidle' : ¬ leased (jr_state r')).
Context (Hin : Value (JobK ns j) e ∈ checks) (Hput : Put (JobK ns j) e' ∈ ms).
Context (Ht : Forall (touch ns j (Some r') (λ _, False) (λ _, False)) ms).
Context (Hre : reindexed ns ms r r') (Hcan : without ns KT_Cancellation ms).
Context (Hop : op_moved j checks ms (jr_state r) (jr_state r')).

Lemma idle_safe : step_safe ns sha256 ids w checks ms.
Proof.
  intros w' He Hch Hnd. destruct (seen_names _ _ _ _ Hseen) as (Htyp & Hj & Hq).
  pose proof (ex_valid _ _ _ He) as Hv. pose proof (seen_record w w' j e r checks Hseen Hch Hin) as Hr.
  apply (moves_extends ids w w') in Hmv; [|done].
  destruct (good_idle ns sha256 Hns w' ms j r r' e') as [Hg Hvis]; try done.
  - by eapply moves_version.
  - apply (without_key ns _ KT_Cancellation); [by apply tag_CancelK|done].
  - destruct Hop as [(ov & f & Hp & Hov & _)|[Hn ->]].
    + rewrite (apply_put _ _ Hnd _ _ Hp). by eapply op_entry_idle.
    + rewrite apply_other by done. pose proof (ji_op _ _ _ _ (now_job_inv ns sha256 w' Hv j Hj)) as Hi.
      by rewrite Hr in Hi.
  - destruct Hop as [(ov & f & Hp & Hov & Hoc)|[Hn _]].
    + rewrite (apply_put _ _ Hnd _ _ Hp).
      rewrite (op_entry_fence j ov f), (op_check_fence w' j checks f); done.
    + rewrite apply_other by done. done.
  - split; [done|]. intros id Hid. destruct (Hvis id Hid) as [?| ->]; [by left|].
    destruct Hmv as [_ [[-> _]|[Hi _]]]; [|by right]. left. by eapply now_published.
Qed.
End idle_tx.

(** ** Reads *)

Section programs.
Context {E : Type} (system : JobSystem) (Hsys : system_ok ns sha256 system).

Lemma persisted_identity j r :
  validate_persisted_identity (E := E) system j r = Ok tt → jr_job_id r = j.
Proof.
  unfold validate_persisted_identity. destruct (bytes_eqb (jr_job_id r) j) eqn:Hb; [|done].
  intros _. by apply bytes_eqb_spec.
Qed.

Lemma wpj_load_job {A} mine w j (k : StoreKey * bytes * JobRecordV1 → job E A) Φ :
  is_fixed_id j = true →
  (∀ w' e r, extends mine w w' → seen w' j e r → wpj mine w' (k (JobK ns j, e, r)) Φ) →
  wpj mine w (load_job system j ≫= k) Φ.
Proof.
  intros Hj Hk. apply wpj_bind. unfold load_job. rewrite (sk_namespace _ _ _ Hsys), job_key_Ok by done.
  apply wpj_try. intros ? [= <-]. apply wpj_get. intros w1 v He1 Hv. apply wpj_try. intros e He.
  destruct v as [e0|]; [|done]. injection He as ->. apply wpj_try. intros r Hr. apply wpj_try. intros [] Hid.
  apply persisted_identity in Hid. apply wpj_ret. intros w2 He2. apply Hk; [by eapply extends_trans|].
  split; [done..|]. exists w1. split; [by eapply extends_empty|done].
Qed.

Lemma wpj_read_many {A} mine w keys (k : list (option bytes) → job E A) Φ :
  (∀ w' vs, extends mine w w' → vs = (λ key, w_now w' !! key) <$> keys → wpj mine w' (k vs) Φ) →
  wpj mine w (read_many system keys ≫= k) Φ.
Proof.
  intros Hk. unfold read_many. destruct (validate_get_many _ _); [|done]. destruct keys as [|key keys].
  - apply wp_valid. intros w' He _. by apply Hk.
  - by apply (wpj_get_many mine w (key :: keys)).
Qed.

(** A job and its operation entry, read together. *)
Lemma wpj_load_job_operation {A} mine w j (k : JobOperation → job E A) Φ :
  is_fixed_id j = true →
  (∀ w' e r op, extends mine w w' → seen w' j e r →
     wpj mine w' (k (mkJobOperation (JobK ns j) e r (OpK ns j) op)) Φ) →
  wpj mine w (load_job_operation system j ≫= k) Φ.
Proof.
  intros Hj Hk. apply wpj_bind. unfold load_job_operation.
  rewrite (sk_namespace _ _ _ Hsys), job_key_Ok, operation_key_Ok by done.
  do 2 (apply wpj_try; intros ? [= <-]). apply wpj_read_many. intros w1 vs He1 ->. cbn [fmap list_fmap].
  apply wpj_try. intros e He. destruct (w_now w1 !! JobK ns j) as [e0|] eqn:H0; [|done]. injection He as ->.
  apply wpj_try. intros r Hr. apply wpj_try. intros [] Hid. apply persisted_identity in Hid.
  apply wpj_ret. intros w2 He2. apply Hk; [by eapply extends_trans|].
  split; [done..|]. exists w1. split; [by eapply extends_empty|done].
Qed.

Lemma active_operation_Ok j k e r ok op x :
  jr_job_id r = j → active_operation (E := E) (mkJobOperation k e r ok op) = Ok x →
  ∃ v id f, x = (v, id, f) ∧ op = Some v ∧ decode_active_operation v j = Ok (id, f) ∧ fence_of j (Some v) = f.
Proof.
  intros <- H. unfold active_operation in H. cbn in H. destruct op as [v|]; [|done]. cbn in H.
  apply bind_Ok in H as ([id f] & Hd & [= <-]). apply map_err_Ok in Hd. exists v, id, f. split_and!; try done.
  by apply decode_active_fence in Hd as (_ & _ & ? & _).
Qed.

Lemma quiet_load_scheduled_markers r : quiet (load_scheduled_markers (E := E) system r).
Proof. unfold load_scheduled_markers. quiet. Qed.

Lemma scheduled_markers_outcomes r :
  is_job_record r = true →
  outcomes (λ '(due, fair, markers), due = DueK ns (jr_queue r) (jr_scheduled_at r) (jr_job_id r) ∧
      fair = FairK ns (jr_queue r) (jr_job_id r) ∧
      fence_of (jr_job_id r) (sm_operation_value markers) = sm_fence_high_water markers)
    (load_scheduled_markers (E := E) system r).
Proof.
  intros Ht. pose proof (typed_names r Ht) as [Hj Hq _ _ _ _ _]. unfold load_scheduled_markers.
  rewrite (sk_namespace _ _ _ Hsys), due_key_Ok, fair_key_Ok, operation_key_Ok by done. cbn zeta.
  do 3 (apply outcomes_try; intros ? [= <-]). apply outcomes_any. intros [|dv [|fv [|ov [|]]]]; try done.
  apply outcomes_try. intros markers Hm. split; [done|]. split; [done|]. unfold decode_scheduled_markers in Hm.
  apply bind_Ok in Hm as (d & _ & Hm). apply bind_Ok in Hm as (t & _ & Hm). destruct (negb _); [done|].
  apply bind_Ok in Hm as (fv' & _ & Hm). apply bind_Ok in Hm as (u & _ & Hm).
  apply bind_Ok in Hm as (f & Hf & [= <-]). cbn. destruct ov as [v|]; [|by injection Hf as <-].
  apply bind_Ok in Hf as ([id f'] & Hd & [= <-]). apply map_err_Ok in Hd.
  by apply decode_active_fence in Hd as (_ & _ & ? & _).
Qed.

(** ** Commits *)

(** A transaction to the record [e'] of [j], ready to commit. *)
Definition tx_for ids j (e' : bytes) (tx : StoreTransaction) mine w : Prop :=
  ∃ checks ms, tx_good ns sha256 ids mine w tx checks ms ∧ Put (JobK ns j) e' ∈ ms.

Lemma tx_for_extends ids j e' tx mine w w' :
  extends mine w w' → tx_for ids j e' tx mine w → tx_for ids j e' tx mine w'.
Proof. intros He (checks & ms & Hg & Hp). exists checks, ms. split; [by eapply tx_good_extends|done]. Qed.

Lemma wpj_commit_for ids mine w j e e' r' tx :
  is_fixed_id j = true → decode_job_record e' = Ok r' → tx_for ids j e' tx mine w →
  wpj mine w (commit_record_without_claim (E := E) system tx j e e') (λ _ _ w', moved ns w' j (jr_state r')).
Proof.
  intros Hj Hd (checks & ms & Hg & Hp). unfold commit_record_without_claim.
  rewrite (sk_namespace _ _ _ Hsys), job_key_Ok by done. apply wpj_try. intros ? [= <-]. eapply wpj_mono.
  { apply (wpj_commit_effect ns sha256 Hns system Hsys ids mine w tx checks ms); [done| |done].
    eapply key_job_not_wake. by apply key_job_JobK. }
  intros ? mine' w' ? Hr. by exists e', r'.
Qed.

Lemma seen_moved w j e r : seen w j e r → moved ns w j (jr_state r).
Proof.
  intros [Hd _ (w0 & He & H0)]. exists e, r. split; [|done]. exists (w_now w0). split; [|done].
  eapply extends_state; [exact He|]. apply list_elem_of_here.
Qed.

(** A transaction between states without a lease, its wake left out. *)
Lemma wpj_checked_idle ids mine w j (e e' : bytes) r (r' : JobRecordV1) (checks0 checks : list Check) ms0 ms
    (Φ : StoreTransaction → gset bytes → world → Prop) :
  core ns ms = core ns ms0 → checks0 ⊆ checks → ids ⊆ mine → ids ⊆ w_ids w →
  seen w j e r → decode_job_record e' = Ok r' → moves_to ids w r r' →
  ¬ leased (jr_state r) → ¬ leased (jr_state r') →
  Forall (λ ck, ¬ is_wake ns (Check_key ck)) checks0 → Value (JobK ns j) e ∈ checks0 → Put (JobK ns j) e' ∈ ms0 →
  Forall (touch ns j (Some r') (λ _, False) (λ _, False)) ms0 → reindexed ns ms0 r r' →
  without ns KT_Cancellation ms0 → op_moved j checks0 ms0 (jr_state r) (jr_state r') →
  (∀ tx mine' w', mine ⊆ mine' → extends mine w w' → tx_for ids j e' tx mine' w' → Φ tx mine' w') →
  wpj mine w (checked_transaction (E := E) system checks ms) Φ.
Proof.
  intros Hcore Hsub Hi Hd Hs Hdec' Hmv Hl Hl' Hck Hin Hput Ht Hre Hcan Hop HΦ.
  destruct (seen_names _ _ _ _ Hs) as (_ & Hj & _).
  apply (wpj_checked_job ns sha256 Hns system Hsys ids mine w j (Some r') (λ _, False) (λ _, False) checks0 checks ms0 ms);
    try done.
  - by apply (idle_safe ids w j e e' r r').
  - intros tx mine' w' Hm He Hg. apply HΦ; [done..|]. by exists checks0, ms0.
Qed.

(** The obligations of [wpj_checked_idle] for a transaction written out. *)
Ltac wp_idle_with i e e' r r' cs :=
  eapply (wpj_checked_idle i _ _ (jr_job_id r) e e' r r' cs);
  [ first [eassumption|reflexivity]
  | first [done|intros ?; rewrite !elem_of_app; tauto] | set_solver | set_solver
  | | assumption | | | | | mem | mem | | | tags | | ].
Ltac wp_idle i e e' r r' :=
  lazymatch goal with
  | |- wpj _ _ (checked_transaction _ (?cs ++ option_list _) _) _ => wp_idle_with i e e' r r' cs
  | |- wpj _ _ (checked_transaction _ ?cs _) _ => wp_idle_with i e e' r r' cs
  end.

Lemma wpj_fresh {A} mine w j e r (k : bytes → job E A) Φ :
  seen w j e r →
  (∀ mine' w' id, mine ⊆ mine' → extends mine w w' → seen w' j e r → is_fixed_id id = true →
     wpj mine' w' (k id) Φ) →
  wpj mine w (fresh_operation ≫= k) Φ.
Proof.
  intros Hs Hk. apply wpj_generate. intros w' id He Hid _.
  assert (extends mine w (draw w' id)) as He'.
  { eapply extends_trans; [done|]. apply extends_draw. by eapply ex_valid. }
  apply Hk; [apply union_subseteq_r|done| |done]. eapply seen_extends; [by eapply extends_empty|done].
Qed.

(** ** Cancellation and suspension of a scheduled job *)

Lemma next_state r s n :
  n = jr_revision r + 1 → next_of r (set_revision (set_state r s) n).
Proof. intros ->. split; [by split|done]. Qed.

Lemma wpj_inactivate mine w j e r d :
  seen w j e r → jr_state r = Scheduled →
  wpj mine w (inactivate_scheduled (E := E) system r e d) (λ _ _ w', moved ns w' j (ScheduledInactivation_state d)).
Proof.
  intros Hs Hst. destruct (seen_names _ _ _ _ Hs) as (Ht & Hj & Hq). destruct (se_job _ _ _ _ Hs).
  unfold inactivate_scheduled. apply wpj_bind. unfold cancel_scheduled_transaction.
  apply (wpj_quiet_bind ns sha256 _ _ _ _ _ _ (quiet_load_scheduled_markers r) (scheduled_markers_outcomes r Ht)).
  intros [[due fair] markers] w1 He1 (-> & -> & Hf). apply (seen_extends w w1) in Hs; [|by eapply extends_empty].
  apply wpj_try. intros rev Hrev. apply next_revision_Ok in Hrev as [Hrev Hru]; [|by destruct d; auto with typed].
  set (r' := set_revision _ rev). assert (is_job_record r' = true) as Ht' by (unfold r'; destruct d; auto with typed).
  assert (next_of r r') as Hnext by by apply next_state.
  assert (index_entries ns r' = []) as Hen by (unfold index_entries, r'; by destruct d).
  pose proof (entries_scheduled ns r r (same_job_refl r) Hst) as Hen0.
  apply (wpj_fresh _ _ _ _ _ _ _ Hs). intros mine2 w2 op Hm2 He2 Hs2 Hop. apply wpj_try. intros e' He'.
  apply encode_decodes in He'; [|done]. apply wpj_try. intros ms Hms. unfold cancel_scheduled_mutations in Hms.
  cbn [r' jr_job_id jr_queue set_revision set_state] in Hms |- *.
  rewrite !(sk_namespace _ _ _ Hsys), job_key_Ok, fair_key_Ok, operation_key_Ok in Hms by done.
  cbn [mbind result_bind] in Hms. apply bind_Ok in Hms as (ov & Hov & [= <-]).
  apply (op_entry_new (jr_job_id r) op) in Hov; [|done..|rewrite <- Hf; apply fence_of_u64].
  apply (wpj_quiet_bind ns sha256 _ _ _ _ _ _ (quiet_wake_mutation _ _ _ _ _)
    (wake_mutation_outcomes ns _ _ _ _ _ Hns (sk_namespace _ _ _ Hsys) Hq)).
  intros [ms' wake] w3 He3 [Hcore _]. apply (seen_extends w2 w3) in Hs2; [|by eapply extends_empty].
  rewrite !(sk_namespace _ _ _ Hsys), job_key_Ok, operation_key_Ok, cancellation_key_Ok by done.
  do 3 (apply wpj_try; intros ? [= <-]). apply wpj_bind.
  assert (state_tags (jr_state r') = []) as Htags by by destruct d.
  wp_idle (∅ : gset bytes) e e' r r'; [done|by apply moves_next| | | |touches Htags Hen|reindex Hen0 Hen|..].
  - rewrite Hst. by intros [].
  - destruct d; by intros [].
  - destruct (sm_operation_value markers); tags.
  - left. exists ov, (sm_fence_high_water markers). split; [mem|]. split; [done|]. exists (sm_operation_value markers). split; [mem|done].
  - intros tx mine4 w4 Hm4 He4 Hg. apply wpj_ret. intros w5 He5.
    eapply (wpj_commit_for ∅ _ _ _ _ _ r'); [done..|]. by eapply tx_for_extends.
Qed.

(** ** Suspended jobs *)

Lemma wpj_cancel_suspended mine w j :
  is_fixed_id j = true →
  wpj mine w (cancel_suspended (E := E) system j) (λ res _ w', res = CR_Cancelled ∧ moved ns w' j Cancelled).
Proof.
  intros Hj0. unfold cancel_suspended. apply wpj_load_job_operation; [done|]. intros w1 e r op He1 Hs. cbn [jo_record].
  destruct (seen_names _ _ _ _ Hs) as (Ht & Hj & Hq). destruct (se_job _ _ _ _ Hs).
  destruct (jr_state r) eqn:Hst; try done. cbn [mbind job_bind prog_bind mret job_ret].
  apply wpj_try. intros x Hx. destruct (active_operation_Ok _ _ _ _ _ _ _ eq_refl Hx) as (v & id & f & -> & -> & Hd & Hf).
  apply wpj_try. intros rev Hrev. apply next_revision_Ok in Hrev as [Hrev Hru]; [|by auto with typed].
  set (r' := set_revision _ rev). assert (is_job_record r' = true) as Ht' by (unfold r'; auto with typed).
  assert (next_of r r') as Hnext by by apply next_state.
  pose proof (entries_none ns r' (or_introl eq_refl)) as Hen. pose proof (entries_none ns r (or_intror Hst)) as Hen0.
  apply wpj_try. intros e' He'. apply encode_decodes in He'; [|done].
  apply (wpj_fresh _ _ _ _ _ _ _ Hs). intros mine2 w2 nop Hm2 He2 Hs2 Hop. apply wpj_try. intros ov Hov.
  apply (op_entry_new (jr_job_id r) nop) in Hov; [|done..|rewrite <- Hf; apply fence_of_u64].
  apply wpj_bind. cbn [jo_job_key jo_encoded jo_operation_key].
  wp_idle (∅ : gset bytes) e e' r r'; [done|by apply moves_next| | |tags|touches Hst Hen|reindex Hen0 Hen|..].
  - rewrite Hst. by intros [].
  - by intros [].
  - left. exists ov, f. split; [mem|]. split; [done|]. exists (Some v). split; [mem|done].
  - intros tx mine4 w4 Hm4 He4 Hg. apply wpj_bind. eapply wpj_mono; [by apply (wpj_commit_for ∅ _ _ _ _ _ r')|].
    intros ? mine5 w5 ? Hmv. apply wpj_ret. intros w6 He6. split; [done|by eapply moved_extends].
Qed.

Lemma wpj_resume mine w j :
  is_fixed_id j = true → wpj mine w (resume_job (E := E) system j) (λ _ _ w', moved ns w' j Scheduled).
Proof.
  intros Hj0. unfold resume_job. apply wpj_load_job_operation; [done|]. intros w1 e r op He1 Hs. cbn [jo_record].
  destruct (seen_names _ _ _ _ Hs) as (Ht & Hj & Hq). destruct (se_job _ _ _ _ Hs).
  destruct (jr_state r) eqn:Hst; try done.
  { apply wpj_ret. intros w2 He2. eapply moved_extends; [exact He2|]. rewrite <- Hst. by eapply seen_moved. }
  apply wpj_try. intros rev Hrev. apply next_revision_Ok in Hrev as [Hrev Hru]; [|by auto with typed].
  set (r' := set_revision _ rev). assert (is_job_record r' = true) as Ht' by (unfold r'; auto with typed).
  assert (next_of r r') as Hnext by by apply next_state.
  pose proof (entries_scheduled ns r r' (proj1 Hnext) eq_refl) as Hen. pose proof (entries_none ns r (or_intror Hst)) as Hen0.
  assert (jr_state r' = Scheduled) as Hst' by done. change (jr_scheduled_at r') with (jr_scheduled_at r) in Hen.
  apply wpj_try. intros e' He'. apply encode_decodes in He'; [|done]. apply wpj_bind.
  unfold resume_transaction. cbn [jo_job_key jo_encoded jo_operation_key jo_record jo_operation_value].
  cbn [r' jr_job_id jr_queue jr_scheduled_at set_revision set_state].
  rewrite (sk_namespace _ _ _ Hsys), due_key_Ok, fair_key_Ok, cancellation_key_Ok, due_value_Ok, fair_value_Ok by done.
  do 2 (apply wpj_try; intros ? [= <-]).
  apply wpj_try. intros x Hx. destruct (active_operation_Ok _ _ _ _ _ _ _ eq_refl Hx) as (v & id & f & -> & -> & Hd & Hf).
  apply (wpj_fresh _ _ _ _ _ _ _ Hs). intros mine2 w2 nop Hm2 He2 Hs2 Hop. do 2 (apply wpj_try; intros ? [= <-]).
  apply wpj_try. intros ov Hov. change (fence_of (jr_job_id r) (Some v) = f) in Hf.
  apply (op_entry_new (jr_job_id r) nop) in Hov; [|done..|rewrite <- Hf; apply fence_of_u64].
  apply wpj_try. intros ? [= <-].
  apply (wpj_quiet_bind ns sha256 _ _ _ _ _ _ (quiet_wake_mutation _ _ _ _ _)
    (wake_mutation_outcomes ns _ _ _ _ _ Hns (sk_namespace _ _ _ Hsys) Hq)).
  intros [ms' wake] w3 He3 [Hcore _]. apply (seen_extends w2 w3) in Hs2; [|by eapply extends_empty].
  wp_idle (∅ : gset bytes) e e' r r'; [done|by apply moves_next| | |tags|touches Hst' Hen|reindex Hen0 Hen|..].
  - rewrite Hst. by intros [].
  - by intros [].
  - left. exists ov, f. split; [mem|]. split; [done|]. exists (Some v). split; [mem|done].
  - intros tx mine4 w4 Hm4 He4 Hg. by apply (wpj_commit_for ∅ _ _ _ _ _ r').
Qed.

(** ** Repair *)

Lemma wpj_repair mine w j revision operation :
  is_fixed_id j = true →
  wpj mine w (repair_job (E := E) system j revision operation) (λ _ _ w', moved ns w' j Scheduled).
Proof.
  intros Hj0. unfold repair_job. apply wpj_load_job_operation; [done|]. intros w1 e r op He1 Hs. cbn [jo_record].
  destruct (seen_names _ _ _ _ Hs) as (Ht & Hj & Hq). destruct (se_job _ _ _ _ Hs).
  apply wpj_try. intros opv Hopv.
  assert (jr_state r = Scheduled) as Hst.
  { unfold validate_repair_authority in Hopv. apply bind_Ok in Hopv as (v & _ & Hopv).
    apply bind_Ok in Hopv as ([id f] & _ & Hopv). cbn in Hopv. destruct (negb _); [done|]. destruct (negb _); [done|].
    by destruct (jr_state r). }
  apply wpj_try. intros rev Hrev. apply next_revision_Ok in Hrev as [Hrev Hru]; [|done].
  set (r' := set_revision _ rev). assert (is_job_record r' = true) as Ht' by (unfold r'; auto with typed).
  assert (next_of r r') as Hnext by (split; [by split|done]). assert (jr_state r' = Scheduled) as Hst' by done.
  pose proof (entries_scheduled ns r r' (proj1 Hnext) Hst') as Hen.
  change (jr_scheduled_at r') with (jr_scheduled_at r) in Hen.
  pose proof (entries_scheduled ns r r (same_job_refl r) Hst) as Hen0.
  apply wpj_try. intros e' He'. apply encode_decodes in He'; [|done]. apply wpj_bind.
  unfold build_repair_transaction. cbn [jo_job_key jo_encoded jo_operation_key].
  cbn [r' jr_job_id jr_queue jr_scheduled_at set_revision].
  rewrite (sk_namespace _ _ _ Hsys), due_key_Ok, fair_key_Ok, due_value_Ok, fair_value_Ok by done.
  do 4 (apply wpj_try; intros ? [= <-]).
  apply (wpj_quiet_bind ns sha256 _ _ _ _ _ _ (quiet_wake_mutation _ _ _ _ _)
    (wake_mutation_outcomes ns _ _ _ _ _ Hns (sk_namespace _ _ _ Hsys) Hq)).
  intros [ms' wake] w3 He3 [Hcore _]. apply (seen_extends w1 w3) in Hs; [|by eapply extends_empty].
  wp_idle (∅ : gset bytes) e e' r r'; [done|by apply moves_next| | |tags|touches Hst' Hen|reindex Hen0 Hen|..].
  - rewrite Hst. by intros [].
  - rewrite Hst'. by intros [].
  - right. split; [|done]. apply (without_key ns _ KT_Operation); [by apply tag_OpK|tags].
  - intros tx mine4 w4 Hm4 He4 Hg. rewrite <- Hst'. by apply (wpj_commit_for ∅ _ _ _ _ _ r').
Qed.

(** ** Redrive *)

Lemma wpj_prepare_redrive mine w r request :
  is_job_record r = true → is_i64 (rd_scheduled_at request) = true →
  wpj mine w (prepare_redrive (E := E) r request) (λ r' mine' w', ∃ ids,
    ids ⊆ mine' ∧ ids ⊆ w_ids w' ∧ moves_to ids w' r r' ∧ is_job_record r' = true ∧ jr_state r' = Scheduled ∧
    mine ⊆ mine' ∧ extends mine w w').
Proof.
  intros Ht Hsch. unfold prepare_redrive. apply wpj_try. intros rev Hrev.
  apply next_revision_Ok in Hrev as [Hrev Hru]; [|done]. apply wpj_bind. eapply wpj_mono.
  { instantiate (1 := λ id mine' w', ∃ ids, ids ⊆ mine' ∧ ids ⊆ w_ids w' ∧ is_fixed_id id = true ∧
      (id = jr_execution_id r ∨ id ∈ ids ∧ ¬ published w' id) ∧ mine ⊆ mine' ∧ extends mine w w').
    destruct (rd_execution request).
    - apply wpj_ret. intros w1 He1. exists ∅. split_and!; [set_solver..| |by left|done|done].
      unfold is_job_record in Ht. by split_andb.
    - intros w1 He1 x mine' w2 [(-> & -> & ->)|(id & -> & Hid & Hn & -> & ->)]; pose proof (ex_valid _ _ _ He1) as Hv.
      { split; [by apply step_ok_refl|done]. }
      split; [by apply step_ok_draw|]. intros w3 He3. exists {[id]}. cbn. destruct (fresh_hidden w1 id Hv Hn) as [Hh _].
      split_and!; [set_solver| |done| |set_solver|].
      + pose proof (ex_ids _ _ _ He3) as Hi. cbn in Hi. set_solver.
      + right. split; [set_solver|]. apply (ex_unpublished _ _ _ He3); [set_solver|done].
      + eapply extends_trans; [exact He1|]. eapply extends_trans; [by apply (extends_draw _ _ id)|].
        eapply extends_weaken; [|exact He3]. set_solver. }
  intros id mine1 w1 _ (ids & Hi & Hd & Hid & Hcase & Hm & He). apply wpj_try. intros gen Hgen.
  destruct (checked_add_u32 (jr_generation r) 1) as [g|] eqn:Hg; [|done]. injection Hgen as <-.
  apply checked_Some in Hg as [-> Hgb]. assert (is_u32 (jr_generation r + 1) = true) as Hgu by (ranges; lia).
  apply wpj_bind. eapply wpj_mono.
  { instantiate (1 := λ o mine' w', mine' = mine1 ∧ extends mine1 w1 w' ∧ is_option is_i64 o = true).
    destruct (jr_expires_at r); [|by apply wpj_ret]. apply wpj_try. intros t [_ Hti]%Timestamp_checked_add_Ok.
    by apply wpj_ret. }
  intros o mine2 w2 _ (-> & He2 & Ho). apply wpj_ret. intros w3 He3. exists ids.
  assert (extends mine1 w1 w3) as He13 by by eapply extends_trans.
  split_and!; [done| | | |done|done|].
  - etrans; [exact Hd|apply (ex_ids _ _ _ He13)].
  - apply (moves_extends ids w1 w3); [by apply (extends_weaken mine1)|]. split; [by split|]. cbn.
    destruct Hcase as [->|[Hin Hp]]; [by left|by right].
  - auto 15 with typed.
  - eapply extends_trans; [exact He|]. by apply (extends_weaken mine1).
Qed.

Lemma wpj_redrive mine w j request :
  is_fixed_id j = true → is_i64 (rd_scheduled_at request) = true →
  wpj mine w (redrive_job (E := E) system j request) (λ res _ w', rr_job_id res = j ∧ moved ns w' j Scheduled).
Proof.
  intros Hj0 Hsch. unfold redrive_job. apply wpj_load_job_operation; [done|]. intros w1 e r op He1 Hs. cbn [jo_record].
  destruct (seen_names _ _ _ _ Hs) as (Ht & Hj & Hq). destruct (se_job _ _ _ _ Hs).
  destruct (jr_state r) eqn:Hst; try done. destruct (_ =? _); [|done]. cbn [mbind job_bind prog_bind mret job_ret].
  apply wpj_try. intros x Hx. destruct (active_operation_Ok _ _ _ _ _ _ _ eq_refl Hx) as (v & id & f & -> & -> & Hd & Hf).
  destruct (bytes_eqb id _) eqn:Hb; [|done]. apply bytes_eqb_spec in Hb. cbn [negb]. destruct (negb _); [done|].
  apply wpj_bind. eapply wpj_mono; [by apply wpj_prepare_redrive|].
  intros r' mine2 w2 _ (ids & Hi & Hdr & Hmv & Ht' & Hst' & Hm2 & He2).
  apply (seen_extends w1 w2) in Hs; [|by eapply extends_empty].
  pose proof (proj1 Hmv) as Hsame. pose proof Hsame as [Hj' _ _ (Hq' & _)].
  pose proof (entries_scheduled ns r r' Hsame Hst') as Hen.
  pose proof (entries_dead ns r r (same_job_refl r) Hst) as Hen0.
  unfold redrive_transaction. cbn [jo_encoded]. apply wpj_bind. rewrite !(sk_namespace _ _ _ Hsys), !Hj', !Hq'.
  rewrite job_key_Ok, operation_key_Ok, due_key_Ok, dead_letter_key_Ok by done. cbn zeta.
  do 2 (apply wpj_try; intros ? [= <-]). apply (wpj_fresh _ _ _ _ _ _ _ Hs). intros mine3 w3 nop Hm3 He3 Hs3 Hop.
  apply wpj_try. intros e' He'. apply encode_decodes in He'; [|done]. do 2 (apply wpj_try; intros ? [= <-]).
  apply wpj_try. intros ms Hms. unfold redrive_mutations in Hms.
  rewrite !(sk_namespace _ _ _ Hsys), !Hj', !Hq', job_key_Ok, operation_key_Ok, due_key_Ok, dead_letter_key_Ok,
    due_value_Ok, fair_key_Ok, fair_value_Ok in Hms by done.
  cbn [mbind result_bind] in Hms. apply bind_Ok in Hms as (ov & Hov & [= <-]).
  apply (op_entry_new (jr_job_id r) nop) in Hov; [|done..|rewrite <- Hf; apply fence_of_u64].
  apply (wpj_quiet_bind ns sha256 _ _ _ _ _ _ (quiet_wake_mutation _ _ _ _ _)
    (wake_mutation_outcomes ns _ _ _ _ _ Hns (sk_namespace _ _ _ Hsys) Hq)).
  intros [ms' wake] w4 He4 [Hcore _]. apply (seen_extends w3 w4) in Hs3; [|by eapply extends_empty].
  apply wpj_try. intros checks Hch. unfold redrive_checks in Hch.
  apply bind_Ok in Hch as (ov0 & Hov0 & Hch). rewrite dead_letter_value_Ok in Hch by done. injection Hch as <-.
  apply wpj_bind.
  assert (extends ids w2 w4) as He24.
  { eapply extends_trans; [by apply (extends_weaken mine2)|]. apply (extends_weaken mine3); [set_solver|done]. }
  apply (moves_extends ids w2 w4) in Hmv; [|done]. pose proof (ex_ids _ _ _ He24) as Hids.
  apply decode_active_fence in Hd as (_ & _ & _ & Hv). rewrite <- Hb, Hv in Hov0. injection Hov0 as <-.
  wp_idle ids e e' r r'; [done|done| | |tags|touches Hst' Hen|reindex Hen0 Hen|..].
  - rewrite Hst. by intros [].
  - rewrite Hst'. by intros [].
  - left. exists ov, f. split; [mem|]. split; [done|]. exists (Some v). split; [mem|done].
  - intros tx mine5 w5 Hm5 He5 Hg. apply wpj_ret. intros w6 He6. apply wpj_bind. eapply wpj_mono.
    { apply (wpj_commit_for ids _ _ _ _ _ r'); [done..|]. by eapply tx_for_extends. }
    intros ? mine7 w7 ? Hmoved. apply wpj_ret. intros w8 He8. split; [done|]. rewrite <- Hst'. by eapply moved_extends.
Qed.

(** ** Expiry of a scheduled job *)

Lemma wpj_expire_scheduled mine w j e r now :
  seen w j e r → jr_state r = Scheduled → is_i64 now = true →
  wpj mine w (expire_scheduled (E := E) system e r now) (λ res _ w', res = ER_DeadLettered ∧ moved ns w' j DeadLettered).
Proof.
  intros Hs Hst Hnow. destruct (seen_names _ _ _ _ Hs) as (Ht & Hj & Hq). destruct (se_job _ _ _ _ Hs).
  unfold expire_scheduled. apply wpj_bind. unfold expired_transaction.
  apply (wpj_quiet_bind ns sha256 _ _ _ _ _ _ (quiet_load_scheduled_markers r) (scheduled_markers_outcomes r Ht)).
  intros [[due fair] markers] w1 He1 (-> & -> & Hf). apply (seen_extends w w1) in Hs; [|by eapply extends_empty].
  rewrite !(sk_namespace _ _ _ Hsys), job_key_Ok by done. apply wpj_try. intros ? [= <-].
  apply wpj_bind. unfold prepare_expired. apply wpj_try. intros rev Hrev.
  apply next_revision_Ok in Hrev as [Hrev Hru]; [|by auto with typed]. apply wpj_try. intros code Hcode. apply code_typed in Hcode.
  set (r' := record_outcome _ now code).
  assert (is_job_record r' = true) as Ht' by (unfold r'; auto 10 with typed).
  assert (next_of r r' ∧ jr_state r' = DeadLettered) as [Hnext Hst'].
  { unfold r', record_outcome. cbn. destruct (jr_attempts r); (split; [split; [by split|done]|done]). }
  pose proof (proj1 Hnext) as Hsame. pose proof Hsame as [Hj' _ _ (Hq' & _)].
  pose proof (entries_dead ns r r' Hsame Hst') as Hen. pose proof (entries_scheduled ns r r (same_job_refl r) Hst) as Hen0.
  apply (wpj_fresh _ _ _ _ _ _ _ Hs). intros mine2 w2 op Hm2 He2 Hs2 Hop. apply wpj_try. intros e' He'.
  apply encode_decodes in He'; [|done]. apply wpj_ret. intros w3 He3.
  apply (seen_extends w2 w3) in Hs2; [|by eapply extends_empty].
  rewrite Hq', dead_letter_key_Ok, dead_letter_value_Ok, operation_key_Ok, cancellation_key_Ok by done.
  do 3 (apply wpj_try; intros ? [= <-]). apply wpj_try. intros ov Hov.
  apply (op_entry_new (jr_job_id r) op) in Hov; [|done..|rewrite <- Hf; apply fence_of_u64].
  apply (wpj_quiet_bind ns sha256 _ _ _ _ _ _ (quiet_wake_mutation _ _ _ _ _)
    (wake_mutation_outcomes ns _ _ _ _ _ Hns (sk_namespace _ _ _ Hsys) Hq)).
  intros [ms' wake] w4 He4 [Hcore _]. apply (seen_extends w3 w4) in Hs2; [|by eapply extends_empty].
  apply wpj_try. intros ? [= <-]. apply wpj_bind.
  wp_idle (∅ : gset bytes) e e' r r'; [done|by apply moves_next| | | |touches Hst' Hen|reindex Hen0 Hen|..].
  - rewrite Hst. by intros [].
  - rewrite Hst'. by intros [].
  - destruct (sm_operation_value markers); tags.
  - left. exists ov, (sm_fence_high_water markers). split; [mem|]. split; [done|].
    exists (sm_operation_value markers). split; [mem|done].
  - intros tx mine5 w5 Hm5 He5 Hg. apply wpj_ret. intros w6 He6. apply wpj_bind. eapply wpj_mono.
    { apply (wpj_commit_for ∅ _ _ _ _ _ r'); [done..|]. by eapply tx_for_extends. }
    intros ? mine7 w7 ? Hmoved. apply wpj_try. intros ? _. apply wpj_ret. intros w8 He8. split; [done|].
    rewrite <- Hst'. by eapply moved_extends.
Qed.
End programs.
End controls.
