(* ===== verification/Recovery.v ===== *)
(** * Recovery of leases keeps the invariant

    [admin/expiration.rs] and the dead-lettering of corrupt payloads take a
    lease away from its holder.  The permits they release are found by reading
    every slot, one batch after the other; as long as the record has not
    changed they are exactly the permits of the lease. *)

From S2P Require Import Prelude Errors Ids Clock Policy JobRecord Wire KeyCodec ValueCodec JobCodec.
From S2P Require Import JobRoundtrip OperationCodec Keyspace Store Prog Logic System Transition Permits Claim.
From S2P Require Import Admin Failure Refs Invariant Update Protocol Steps Moves Held LeaseTx Outcomes Claimed Controls.

Lemma owned_permits_spec r seen probes K :
  owned_permits r seen probes = Ok K →
  ∀ k, k ∈ K ↔ k ∉ seen ∧ ∃ v, (k, Some v) ∈ probes ∧ permit_value_matches_record v r = Ok true.
Proof.
  revert seen K. induction probes as [|[k0 [v0|]] probes IH]; intros seen K; cbn [owned_permits].
  - intros [= <-] k. set_solver.
  - intros H k. apply bind_Ok in H as (b & Hb & H).
    destruct (b && bool_decide (k0 ∉ seen)) eqn:Hc.
    + apply andb_true_iff in Hc as [-> Hn]. apply bool_decide_eq_true in Hn.
      apply bind_Ok in H as (K' & HK & [= <-]). rewrite elem_of_cons, (IH _ _ HK k).
      destruct (decide (k = k0)) as [->|Hne]; [|set_solver].
      split; [|by left]. intros _. split; [done|]. exists v0. split; [left|done].
    + rewrite (IH _ _ H k). split; [set_solver|]. intros (Hn & v & Hin & Hm). split; [done|].
      exists v. split; [|done]. apply elem_of_cons in Hin as [[= -> ->]|Hin]; [|done].
      rewrite Hm in Hb. injection Hb as <-. rewrite bool_decide_true in Hc; done.
  - intros H k. rewrite (IH _ _ H k). split; [set_solver|]. intros (Hn & v & Hin & Hm). split; [done|].
    exists v. split; [|done]. by apply elem_of_cons in Hin as [[=]|Hin].
Qed.

Section recovery.
Context (ns : Namespace) (sha256 : bytes → bytes) (Hns : is_opaque MAX_NAMESPACE_BYTES ns = true).
#[local] Instance disc : Discipline := engine_discipline ns sha256.
Implicit Types r : JobRecordV1.
Implicit Types w : world.
Implicit Types l : Lease.
Implicit Types j : JobId.
Implicit Types ms : list Mutation.
Implicit Types checks : list Check.
Implicit Types K : list StoreKey.
Implicit Types mine ids : gset bytes.
Context {E : Type} (system : JobSystem) (Hsys : system_ok ns sha256 system).
Abbreviation seen := (seen ns sha256).

(** ** The permits of a lease *)

(** The value read at [k] was there at some point between [w] and [w']. *)
Definition read_between w w' (k : StoreKey) (v : option bytes) : Prop :=
  ∃ wi, extends ∅ w wi ∧ extends ∅ wi w' ∧ v = w_now wi !! k.

Lemma read_between_mono w0 w w' w1 k v :
  extends ∅ w0 w → extends ∅ w' w1 → read_between w w' k v → read_between w0 w1 k v.
Proof. intros H0 H1 (wi & Ha & Hb & ->). exists wi. split_and!; [by eapply extends_trans..|done]. Qed.

Lemma wpj_read_permit_batches mine w n probes :
  valid w → (length probes ≤ n)%nat →
  wpj mine w (read_permit_batches (E := E) system n probes) (λ vs mine' w',
    mine' = mine ∧ extends mine w w' ∧ Forall2 (read_between w w') probes vs).
Proof.
  revert w probes. induction n as [|n IH]; intros w probes Hv Hn; cbn [read_permit_batches].
  - destruct probes; [|cbn in Hn; lia]. apply wpj_ret. intros w' He. by split_and!.
  - destruct probes as [|p probes]; [apply wpj_ret; intros w' He; by split_and!|].
    set (size := Nat.max _ 1). set (all := p :: probes) in *. cbn zeta.
    apply wpj_read_many. intros w1 vs He1 Hvs. destruct (negb _); [done|]. apply wpj_bind.
    eapply wpj_mono; [apply IH; [by eapply ex_valid|]|].
    { rewrite length_drop. assert (1 ≤ size)%nat by (unfold size; lia). unfold all. cbn in *. lia. }
    intros rest mine' w2 _ (-> & He2 & Hrest). apply wpj_ret. intros w3 He3. split; [done|].
    assert (extends mine w1 w3) as He13 by by eapply extends_trans.
    split; [by eapply extends_trans|]. rewrite <- (take_drop size all). apply Forall2_app.
    + subst vs. apply Forall2_fmap_r, Forall_Forall2_diag, Forall_true. intros k. exists w1.
      split_and!; [by eapply extends_empty..|done].
    + eapply Forall2_impl; [exact Hrest|]. intros k v. apply read_between_mono; by eapply extends_empty.
Qed.

(** While the record of [j] is [e], the permits of its lease are [K]. *)
Definition owned w j (e : bytes) r l K : Prop :=
  ∀ w', extends ∅ w w' → w_now w' !! JobK ns j = Some e →
    ∀ k, is_permit ns k → w_now w' !! k = Some (permit_layout r l) ↔ k ∈ K.

Lemma owned_extends w w' j e r l K : extends ∅ w w' → owned w j e r l K → owned w' j e r l K.
Proof. intros He Ho w'' He'. apply Ho. by eapply extends_trans. Qed.

Section owned.
Context (w0 w w1 : world) (j : JobId) (e : bytes) (r : JobRecordV1) (l : Lease).
Context (Hdec : decode_job_record e = Ok r) (Hjob : jr_job_id r = j) (Hl : jr_state r = Leased l).
Context (He0 : extends ∅ w0 w) (H0 : w_now w0 !! JobK ns j = Some e).
Abbreviation pv := (permit_layout r l).

(** A permit read while the record was [e] is the permit of now. *)
Lemma read_permit w' k v :
  extends ∅ w1 w' → w_now w' !! JobK ns j = Some e → is_permit ns k → read_between w w1 k v →
  v = Some pv ↔ w_now w' !! k = Some pv.
Proof.
  intros He Hnow Hk (wi & Ha & Hb & ->).
  assert (is_fixed_id j = true) as Hj by (subst j; by eapply rn_job, typed_names, decode_typed).
  assert (extends ∅ wi w') as Hi by by eapply extends_trans.
  pose proof (seen_between ns sha256 w0 wi w' j e Hj ltac:(by eapply extends_trans) Hi H0 Hnow) as Hei.
  apply (fo_permits _ _ _ _ (past_follows ns sha256 w' (ex_valid _ _ _ He) (w_now wi) j
    (extends_state _ _ _ _ Hi (list_elem_of_here _ _)) Hj) r r); try done;
    first [by eapply record_at_decode|by apply leased_permit].
Qed.

Lemma all_slots_owned K vs sets :
  permit_key_sets ns r MAX_DURABLE_PERMIT_SLOTS = Ok sets → Forall2 (read_between w w1) (concat sets) vs →
  owned_permits r ∅ (zip (concat sets) vs) = Ok K → Forall (is_permit ns) K ∧ owned w1 j e r l K.
Proof.
  intros Hsets Hvs HK. pose proof (owned_permits_spec _ _ _ _ HK) as Hspec.
  assert (is_job_record r = true) as Ht by by eapply decode_typed.
  pose proof (permit_record_typed r Ht) as Hpr. assert (is_fixed_id j = true) as Hj by (subst j; by apply typed_names).
  assert (∀ v, permit_value_matches_record v r = Ok true ↔ v = pv) as Hm.
  { intros v. apply permit_matches_iff with (l := l); [done..|]. apply permit_value_Ok; [done|]. by apply leased_permit. }
  assert (∀ k v, (k, v) ∈ zip (concat sets) vs → is_permit ns k ∧ read_between w w1 k v) as Hzip.
  { intros k v Hin. split.
    - apply elem_of_zip_l in Hin. apply list_elem_of_In, in_concat in Hin as (set & Hs & Hk).
      apply list_elem_of_In in Hs, Hk. destruct (permit_sets_slot ns Hns r MAX_DURABLE_PERMIT_SLOTS sets set Ht ltac:(done) Hsets Hs) as (slot & _ & ->).
      by eapply slot_keys_permit.
    - apply list_elem_of_lookup in Hin as [i Hi]. apply lookup_zip_Some in Hi as [Hk Hv].
      by eapply Forall2_lookup_lr. }
  split.
  { apply Forall_forall. intros k (_ & v & Hin & _)%Hspec. by eapply Hzip. }
  intros w' He Hnow k Hk. rewrite Hspec. split.
  - intros Hnk. pose proof (ex_valid _ _ _ He) as Hv. pose proof (record_at_decode ns _ _ _ _ Hnow Hdec) as Hr.
    destruct (so_slot _ _ _ (now_ok ns sha256 w' Hv) j r pv Hj Hr (leased_permit r l Hl)) as (slot & Hb & Hs).
    apply Hs in Hnk as Hin; [|done]. split; [set_solver|]. exists pv. split; [|by apply Hm].
    assert (k ∈ concat sets) as Hc.
    { apply list_elem_of_In, in_concat. exists (slot_keys ns r slot). split; apply list_elem_of_In; [|done].
      apply permit_key_sets_Ok in Hsets as [_ ->]; [|done..]. apply list_elem_of_fmap. exists slot. split; [done|].
      unfold range. apply list_elem_of_fmap. exists (Z.to_nat slot). split; [lia|]. apply elem_of_seq. lia. }
    apply list_elem_of_lookup in Hc as [i Hi]. destruct (Forall2_lookup_l _ _ _ _ _ Hvs Hi) as (v & Hiv & Hrb).
    rewrite <- (proj2 (read_permit w' k v He Hnow Hk Hrb) Hnk). apply list_elem_of_lookup. exists i.
    by apply lookup_zip_Some.
  - intros (_ & v & Hin & ->%Hm). destruct (Hzip _ _ Hin) as [_ Hrb]. by apply (read_permit w' k _ He Hnow Hk Hrb).
Qed.
End owned.

Lemma wpj_find_owned mine w j e r l :
  seen w j e r → jr_state r = Leased l →
  wpj mine w (find_owned_permit_keys (E := E) system r) (λ K mine' w',
    mine' = mine ∧ extends mine w w' ∧ Forall (is_permit ns) K ∧ owned w' j e r l K).
Proof.
  intros [Hdec Hjob (w0 & He0 & H0)] Hl. apply wp_valid. intros w1 He1 Hv1.
  assert (extends ∅ w0 w1) as He01 by (eapply extends_trans; [exact He0|by eapply extends_empty]).
  unfold find_owned_permit_keys. rewrite (sk_namespace _ _ _ Hsys). apply wpj_try. intros sets Hsets. cbn zeta.
  assert (∀ vs K w2 w3, extends mine w1 w2 → extends mine w2 w3 → Forall2 (read_between w1 w2) (permit_probes sets) vs →
    owned_permits r ∅ (zip (permit_probes sets) vs) = Ok K →
    mine = mine ∧ extends mine w w3 ∧ Forall (is_permit ns) K ∧ owned w3 j e r l K) as Hend.
  { intros vs K w2 w3 He2 He3 Hvs HK.
    destruct (all_slots_owned w0 w1 w2 j e r l Hdec Hjob Hl He01 H0 K vs sets Hsets Hvs HK) as [HKp Ho].
    split_and!; [done| |done|]; [|eapply owned_extends; [by eapply extends_empty|done]].
    eapply extends_trans; [exact He1|by eapply extends_trans]. }
  case_bool_decide as Hp.
  - apply wpj_ret. intros w2 He2. apply (Hend [] [] w1 w2); [by apply extends_refl|done|..]; rewrite Hp; [constructor|done].
  - apply wpj_bind. eapply wpj_mono; [by apply wpj_read_permit_batches|]. intros vs mine2 w2 _ (-> & He2 & Hvs).
    apply wpj_try_last. intros K w3 HK He3. by apply (Hend vs K w2 w3).
Qed.

(** ** Leaving a lease that was read *)

(** No cancellation is pending afterwards. *)
Definition clears j checks ms : Prop :=
  Absent (CancelK ns j) ∈ checks ∧ without ns KT_Cancellation ms ∨ Delete (CancelK ns j) ∈ ms.

Section leave_tx.
Context (w : world) (j : JobId) (e e' ov : bytes) (r r' : JobRecordV1) (l : Lease) (f : Z) (K : list StoreKey).
Context (checks : list Check) (ms : list Mutation).
Context (Hseen : seen w j e r) (Hl : jr_state r = Leased l) (Hown : owned w j e r l K).
Context (Hdec' : decode_job_record e' = Ok r') (Hnext : next_of r r') (Hidle' : ¬ leased (jr_state r')).
Context (Hin : Value (JobK ns j) e ∈ checks) (Hput : Put (JobK ns j) e' ∈ ms).
Context (Ht : Forall (touch ns j (Some r') (λ mu, mu ∈ Delete <$> K) (λ _, False)) ms).
Context (Hre : reindexed ns ms r r') (Hcan : clears j checks ms) (HK : ∀ k, k ∈ K → Delete k ∈ ms).
Context (Hop : Put (OpK ns j) ov ∈ ms) (Hov : op_entry j ov f) (Hoc : op_check ns j checks f).

Lemma leave_safe : step_safe ns sha256 ∅ w checks ms.
Proof.
  intros w' He Hch Hnd. destruct (seen_names ns sha256 _ _ _ _ Hseen) as (Htyp & Hj & Hq).
  pose proof (ex_valid _ _ _ He) as Hv.
  pose proof (seen_record ns sha256 w w' j e r checks Hseen Hch Hin) as Hr.
  assert (f = ls_fence l) as ->.
  { rewrite <- (op_check_fence ns w' j checks f Hch Hoc). by apply (now_fence ns sha256 w' Hv j Hj r Hr). }
  destruct (good_leave ns sha256 Hns w' ms j r r' l K e' ov) as [Hg Hvis]; try done.
  - split; [done..|]. apply Hown; [done|]. by eapply check_value.
  - destruct Hcan as [[Hab Hw]|Hd]; [left|by right]. split; [by eapply check_absent|].
    apply (without_key ns _ KT_Cancellation); [by apply tag_CancelK|done].
  - split; [done|]. intros id Hid. left. auto.
Qed.
End leave_tx.

Lemma wpj_checked_leave mine w j (e e' ov : bytes) r (r' : JobRecordV1) l (f : Z) K (checks0 checks : list Check) ms0 ms
    (Φ : StoreTransaction → gset bytes → world → Prop) :
  core ns ms = core ns ms0 → checks0 ⊆ checks → seen w j e r → jr_state r = Leased l → owned w j e r l K →
  decode_job_record e' = Ok r' → next_of r r' → ¬ leased (jr_state r') →
  Forall (λ ck, ¬ is_wake ns (Check_key ck)) checks0 → Value (JobK ns j) e ∈ checks0 → Put (JobK ns j) e' ∈ ms0 →
  Forall (touch ns j (Some r') (λ mu, mu ∈ Delete <$> K) (λ _, False)) ms0 → reindexed ns ms0 r r' →
  clears j checks0 ms0 → (∀ k, k ∈ K → Delete k ∈ ms0) →
  Put (OpK ns j) ov ∈ ms0 → op_entry j ov f → op_check ns j checks0 f →
  (∀ tx mine' w', mine ⊆ mine' → extends mine w w' → tx_for ns sha256 ∅ j e' tx mine' w' → Φ tx mine' w') →
  wpj mine w (checked_transaction (E := E) system checks ms) Φ.
Proof.
  intros Hcore Hsub Hs Hl Ho Hdec' Hnext Hl' Hck Hin Hput Ht Hre Hcan HK Hop Hov Hoc HΦ.
  destruct (seen_names ns sha256 _ _ _ _ Hs) as (_ & Hj & _).
  apply (wpj_checked_job ns sha256 Hns system Hsys ∅ mine w j (Some r') (λ mu, mu ∈ Delete <$> K) (λ _, False)
    checks0 checks ms0 ms); try done; [set_solver..| |].
  - by apply (leave_safe w j e e' ov r r' l f K).
  - intros tx mine' w' Hm He Hg. apply HΦ; [done..|]. by exists checks0, ms0.
Qed.

(** ** The markers of a lease *)

Lemma quiet_lease_marker_values q j : quiet (load_lease_marker_values (E := E) system q j).
Proof. unfold load_lease_marker_values. quiet. Qed.

Record marks q j (m : LeaseMarkers) : Prop := {
  mk_lease_key : lm_lease_key m = LeaseK ns q j;
  mk_operation_key : lm_operation_key m = OpK ns j;
  mk_operation : operation_value j (lm_operation m) (lm_fence_high_water m) = Ok (lm_operation_value m);
  mk_fence : fence_of j (Some (lm_operation_value m)) = lm_fence_high_water m;
}.

Lemma lease_marker_values_outcomes q j :
  is_text MAX_NAME_BYTES q = true → is_fixed_id j = true →
  outcomes (λ v, lv_lease_key v = LeaseK ns q j ∧ lv_operation_key v = OpK ns j)
    (load_lease_marker_values (E := E) system q j).
Proof.
  intros Hq Hj. unfold load_lease_marker_values. rewrite (sk_namespace _ _ _ Hsys), lease_key_Ok, operation_key_Ok by done.
  do 2 (apply outcomes_try; intros ? [= <-]). apply outcomes_any. by intros [|lv [|ov [|]]].
Qed.

Lemma decode_lease_markers_Ok q j v m :
  lv_lease_key v = LeaseK ns q j → lv_operation_key v = OpK ns j →
  decode_lease_markers (E := E) v j = Ok m → marks q j m.
Proof.
  intros Hl Ho H. unfold decode_lease_markers in H. apply bind_Ok in H as (lv & _ & H).
  apply bind_Ok in H as (ov & _ & H). apply bind_Ok in H as (u & _ & H).
  apply bind_Ok in H as ([op f] & Hd & [= <-]). apply map_err_Ok in Hd.
  apply decode_active_fence in Hd as (_ & _ & Hf & Hv). by split.
Qed.

Lemma lease_markers_outcomes q j :
  is_text MAX_NAME_BYTES q = true → is_fixed_id j = true →
  outcomes (marks q j) (load_lease_markers (E := E) system q j).
Proof.
  intros Hq Hj. unfold load_lease_markers. eapply outcomes_bind; [by apply lease_marker_values_outcomes|].
  intros v [Hl Ho]. apply outcomes_last. intros m. by apply decode_lease_markers_Ok.
Qed.

Lemma quiet_lease_markers q j : quiet (load_lease_markers (E := E) system q j).
Proof. apply quiet_job_bind; [apply quiet_lease_marker_values|auto with quiet]. Qed.

(** ** Expired leases *)

Definition recovery_state (recovery : LeaseRecovery) : JobState :=
  match recovery with LR_Retry _ => Scheduled | LR_Cancelled _ => Cancelled | LR_DeadLettered _ _ => DeadLettered end.

Definition recovery_ok r (now : Timestamp) (recovery : LeaseRecovery) : Prop :=
  match recovery with
  | LR_Retry key => key = DueK ns (jr_queue r) now (jr_job_id r)
  | LR_Cancelled _ => True
  | LR_DeadLettered key code => key = DeadK ns (jr_queue r) (jr_job_id r) ∧ is_outcome_code code = true
  end.

Lemma quiet_recovery_load r now : quiet (LeaseRecovery_load (E := E) system r now).
Proof. unfold LeaseRecovery_load. quiet. Qed.

Lemma recovery_load_outcomes r now :
  is_job_record r = true → outcomes (recovery_ok r now) (LeaseRecovery_load (E := E) system r now).
Proof.
  intros Ht. pose proof (typed_names r Ht) as [Hj Hq _ _ _ _ _]. unfold LeaseRecovery_load.
  rewrite (sk_namespace _ _ _ Hsys), dead_letter_key_Ok, due_key_Ok by done. cbn zeta.
  apply outcomes_try. intros ck _. apply outcomes_any. intros [marker|].
  - apply outcomes_try. by intros.
  - destruct (exhaustion_code r now) as [code|].
    + apply outcomes_try. intros ? [= <-]. apply outcomes_try. intros c Hc. split; [done|]. by eapply code_typed.
    + by apply outcomes_try; intros ? [= <-].
Qed.

(** What [LeaseExpiration::load] returns. *)
Record expiring w j e r l now (x : LeaseExpiration) : Prop := {
  xp_seen : seen w j e r;
  xp_job_key : le_job_key x = JobK ns j;
  xp_old : le_old_encoded x = e;
  xp_next : next_of r (le_record x);
  xp_recovery : recovery_ok r now (le_recovery x);
  xp_state : jr_state (le_record x) = recovery_state (le_recovery x);
  xp_due : jr_state (le_record x) = Scheduled → jr_scheduled_at (le_record x) = now;
  xp_decodes : decode_job_record (le_new_encoded x) = Ok (le_record x);
  xp_markers : marks (jr_queue r) j (le_markers x);
  xp_operation : is_fixed_id (le_new_operation x) = true;
  xp_permits : Forall (is_permit ns) (le_permit_keys x);
  xp_owned : owned w j e r l (le_permit_keys x);
  xp_fair : le_fair_key x = FairK ns (jr_queue r) j;
  xp_cancellation : le_cancellation_key x = CancelK ns j;
}.

Lemma recovered_record r now recovery rev :
  is_job_record r = true → is_i64 now = true → recovery_ok r now recovery →
  next_revision (E := E) (LeaseRecovery_prepare_record recovery r now) = Ok rev →
  let r' := set_revision (LeaseRecovery_prepare_record recovery r now) rev in
  is_job_record r' = true ∧ next_of r r' ∧ jr_state r' = recovery_state recovery ∧
  (jr_state r' = Scheduled → jr_scheduled_at r' = now).
Proof.
  intros Ht Hnow Hok Hrev. cbn zeta.
  assert (is_job_record (LeaseRecovery_prepare_record recovery r now) = true) as Ht0.
  { destruct recovery; cbn in *; auto with typed. destruct Hok. auto with typed. }
  apply next_revision_Ok in Hrev as [Hrev Hru]; [|done]. split; [by auto with typed|]. subst rev.
  destruct recovery as [k|m|k c]; cbn; unfold record_outcome; cbn; try (split; [by repeat split|done]).
  destruct (jr_attempts r); cbn; (split; [by repeat split|done]).
Qed.

Lemma wpj_expiration_load mine w j e r l now :
  seen w j e r → jr_state r = Leased l → is_i64 now = true →
  wpj mine w (LeaseExpiration_load (E := E) system e r now) (λ x _ w', expiring w' j e r l now x).
Proof.
  intros Hs Hl Hnow. destruct (seen_names ns sha256 _ _ _ _ Hs) as (Ht & Hj & Hq).
  destruct (se_job _ _ _ _ _ _ Hs). unfold LeaseExpiration_load.
  apply (wpj_quiet_bind ns sha256 _ _ _ _ _ _ (quiet_recovery_load r now) (recovery_load_outcomes r now Ht)).
  intros recovery w1 He1 Hok. apply (seen_extends ns sha256 w w1) in Hs; [|by eapply extends_empty].
  apply wpj_bind. eapply wpj_mono; [by apply wpj_find_owned|]. intros K mine2 w2 _ (-> & He2 & HK & Hown).
  apply (seen_extends ns sha256 w1 w2) in Hs; [|by eapply extends_empty]. apply wpj_try. intros pv _.
  apply (wpj_quiet_bind ns sha256 _ _ _ _ _ _ (quiet_lease_markers _ _) (lease_markers_outcomes _ _ Hq Hj)).
  intros markers w3 He3 Hmk. apply (seen_extends ns sha256 w2 w3) in Hs; [|by eapply extends_empty].
  apply (owned_extends w2 w3) in Hown; [|by eapply extends_empty].
  apply wpj_try. intros rev Hrev. destruct (recovered_record r now recovery rev Ht Hnow Hok Hrev) as (Ht' & Hnext & Hst & Hdue).
  set (r' := set_revision _ rev) in *. pose proof (proj1 Hnext) as [Hj' _ _ (Hq' & _)].
  rewrite !(sk_namespace _ _ _ Hsys), !Hj', !Hq', job_key_Ok, fair_key_Ok, cancellation_key_Ok by done.
  apply wpj_try. intros ? [= <-]. apply wpj_try. intros e' He'. apply encode_decodes in He'; [|done].
  do 2 (apply wpj_try; intros ? [= <-]). apply (wpj_fresh ns sha256 _ _ (jr_job_id r) e r _ _ Hs).
  intros mine4 w4 op Hm4 He4 Hs4 Hop. apply wpj_ret. intros w5 He5.
  split; cbn; try done.
  - eapply seen_extends; [by eapply extends_empty|done].
  - apply (owned_extends w4 w5); [by eapply extends_empty|]. apply (owned_extends w3 w4); [by eapply extends_empty|done].
Qed.

Definition recovery_list r now (recovery : LeaseRecovery) : list Mutation :=
  let j := jr_job_id r in
  let q := jr_queue r in
  match recovery with
  | LR_Retry _ =>
      [Put (DueK ns q now j) (due_layout now); Put (FairK ns q j) (marker_layout VT_FairReady j)]
  | LR_Cancelled _ => [Delete (FairK ns q j); Delete (CancelK ns j)]
  | LR_DeadLettered _ _ => [Delete (FairK ns q j); Put (DeadK ns q j) (marker_layout VT_DeadLetter j)]
  end.

Lemma expiration_mutations_Ok w e r l now x ms :
  expiring w (jr_job_id r) e r l now x → LeaseExpiration_mutations x = Ok ms →
  ∃ ov, op_entry (jr_job_id r) ov (lm_fence_high_water (le_markers x)) ∧
    ms = [Put (JobK ns (jr_job_id r)) (le_new_encoded x); Delete (LeaseK ns (jr_queue r) (jr_job_id r));
          Put (OpK ns (jr_job_id r)) ov]
         ++ recovery_list r now (le_recovery x) ++ (Delete <$> le_permit_keys x).
Proof.
  intros [Hs Hjk _ Hnext Hok Hst Hdue Hd [Hlk Hok' Hop Hf] Hnop _ _ Hfk Hck] H.
  destruct (seen_names ns sha256 _ _ _ _ Hs) as (Ht & Hj & Hq). pose proof (proj1 Hnext) as [Hj' _ _ (Hq' & _)].
  unfold LeaseExpiration_mutations in H. rewrite Hjk, Hlk, Hok', Hj', Hfk, Hck in H.
  apply bind_Ok in H as (ov & Hov & H). exists ov. split.
  { eapply (op_entry_new (jr_job_id r) (le_new_operation x)); [done..| |done]. rewrite <- Hf. apply fence_of_u64. }
  apply bind_Ok in H as (rm & Hrm & [= <-]). unfold LeaseRecovery_mutations in Hrm.
  rewrite Hj', due_value_Ok, fair_value_Ok, dead_letter_value_Ok in Hrm by done.
  destruct (le_recovery x) as [k|m|k c]; cbn in *; simplify_eq; [|done|by destruct Hok as [-> _]].
  by rewrite Hdue.
Qed.

Lemma recovery_entries r r' now recovery :
  same_job r r' → recovery_ok r now recovery → jr_state r' = recovery_state recovery →
  (jr_state r' = Scheduled → jr_scheduled_at r' = now) →
  index_entries ns r' =
  match recovery with
  | LR_Retry _ => [(DueK ns (jr_queue r) now (jr_job_id r), due_layout now);
                   (FairK ns (jr_queue r) (jr_job_id r), marker_layout VT_FairReady (jr_job_id r))]
  | LR_Cancelled _ => []
  | LR_DeadLettered _ _ => [(DeadK ns (jr_queue r) (jr_job_id r), marker_layout VT_DeadLetter (jr_job_id r))]
  end.
Proof.
  intros Hsame Hok Hst Hdue. destruct recovery; cbn in Hst.
  - rewrite (entries_scheduled ns r r' Hsame Hst). by rewrite (Hdue Hst).
  - apply entries_none. by left.
  - by apply entries_dead.
Qed.

Lemma wpj_expiration_commit mine w j e r l now x :
  jr_state r = Leased l → expiring w j e r l now x →
  wpj mine w (LeaseExpiration_commit (E := E) system x) (λ res _ w',
    res = LeaseRecovery_result (le_recovery x) ∧ moved ns w' j (recovery_state (le_recovery x))).
Proof.
  intros Hl Hx. destruct (seen_names ns sha256 _ _ _ _ (xp_seen _ _ _ _ _ _ _ Hx)) as (Ht & Hj & Hq).
  destruct (se_job _ _ _ _ _ _ (xp_seen _ _ _ _ _ _ _ Hx)). unfold LeaseExpiration_commit.
  apply wpj_try. intros ms Hms. destruct (expiration_mutations_Ok w e r l now x ms Hx Hms) as (ov & Hov & ->).
  destruct Hx as [Hs Hjk Hold Hnext Hok Hst Hdue Hd [Hlk Hok' Hop Hf] Hnop HK Hown Hfk Hck].
  pose proof (proj1 Hnext) as Hsame. pose proof Hsame as [Hj' _ _ (Hq' & _)]. rewrite Hj', Hq', Hold.
  pose proof (decode_typed _ _ Hd) as Ht'. pose proof (recovery_entries r _ now _ Hsame Hok Hst Hdue) as Hen.
  pose proof (entries_leased ns r r (same_job_refl r) l Hl) as Hen0.
  apply (wpj_quiet_bind ns sha256 _ _ _ _ _ _ (quiet_wake_mutation _ _ _ _ _)
    (wake_mutation_outcomes ns _ _ _ _ _ Hns (sk_namespace _ _ _ Hsys) Hq)).
  intros [ms' wake] w1 He1 [Hcore _]. apply (seen_extends ns sha256 w w1) in Hs; [|by eapply extends_empty].
  apply (owned_extends w w1) in Hown; [|by eapply extends_empty]. apply wpj_bind.
  unfold LeaseExpiration_checks. rewrite Hjk, Hlk, Hok', Hold, Hck.
  eapply (wpj_checked_leave mine w1 (jr_job_id r) e (le_new_encoded x) ov r (le_record x) l (lm_fence_high_water (le_markers x))
    (le_permit_keys x)); [exact Hcore|intros ? ?; apply elem_of_app; left; eassumption|..]; try done.
  - rewrite Hst. intros [l0 Hl0]. by destruct (le_recovery x).
  - split_Forall; try tags. destruct (le_recovery x); cbn [LeaseRecovery_cancellation_check]; tags.
  - mem.
  - mem.
  - destruct (le_recovery x) eqn:Hrec; cbn [recovery_list recovery_state] in *; touches Hst Hen; by apply touch_deletes.
  - destruct (le_recovery x) eqn:Hrec; cbn [recovery_list] in *; reindex Hen0 Hen.
  - destruct (le_recovery x) eqn:Hrec; cbn [recovery_list LeaseRecovery_cancellation_check]; [left|right; mem|left];
      (split; [mem|tags]).
  - intros k Hk. mem.
  - mem.
  - exists (Some (lm_operation_value (le_markers x))). split; [mem|done].
  - intros tx mine2 w2 Hm2 He2 Hg. apply wpj_bind. eapply wpj_mono.
    { by apply (wpj_commit_for ns sha256 Hns system Hsys ∅ _ _ _ _ _ (le_record x)). }
    intros ? mine3 w3 ? Hmv. apply wpj_ret. intros w4 He4. split; [done|]. rewrite <- Hst. by eapply moved_extends.
Qed.

(** ** Corrupt payloads *)

(** What [load_payload_authority] returns. *)
Record corrupted w j (x : PayloadAuthority) l : Prop := {
  pc_seen : seen w j (pa_encoded x) (pa_record x);
  pc_leased : jr_state (pa_record x) = Leased l;
  pc_job_key : pa_job_key x = JobK ns j;
  pc_markers : marks (jr_queue (pa_record x)) j (pa_markers x);
  pc_permits : Forall (is_permit ns) (pa_permit_keys x);
  pc_owned : owned w j (pa_encoded x) (pa_record x) l (pa_permit_keys x);
}.

Lemma wpj_load_payload_authority mine w j :
  is_fixed_id j = true →
  wpj mine w (load_payload_authority (E := E) system j) (λ x _ w', ∃ l, corrupted w' j x l).
Proof.
  intros Hj0. unfold load_payload_authority. apply (wpj_load_job ns sha256 Hns system Hsys); [done|].
  intros w1 e r He1 Hs. destruct (seen_names ns sha256 _ _ _ _ Hs) as (Ht & Hj & Hq).
  apply (wpj_quiet_bind ns sha256 _ _ _ _ _ _ (quiet_lease_marker_values _ _) (lease_marker_values_outcomes _ _ Hq Hj)).
  intros v w2 He2 [Hlk Hok]. apply (seen_extends ns sha256 w1 w2) in Hs; [|by eapply extends_empty].
  destruct (jr_state r) as [|l| | |] eqn:Hl; try done. apply wpj_try. intros pv _.
  apply wpj_bind. eapply wpj_mono; [by apply wpj_find_owned|]. intros K mine3 w3 _ (-> & He3 & HK & Hown).
  apply (seen_extends ns sha256 w2 w3) in Hs; [|by eapply extends_empty].
  apply wpj_try. intros m Hm. apply wpj_ret. intros w4 He4. exists l. split; cbn; try done.
  - eapply seen_extends; [by eapply extends_empty|done].
  - by eapply decode_lease_markers_Ok.
  - eapply owned_extends; [by eapply extends_empty|done].
Qed.

Lemma wpj_payload_corrupt mine w j x r l e' op :
  corrupted w j (mkPayloadAuthority (pa_job_key x) (pa_encoded x) r (pa_markers x) (pa_permit_keys x) (pa_permit_value x)) l →
  next_of r (pa_record x) → jr_state (pa_record x) = DeadLettered →
  decode_job_record e' = Ok (pa_record x) → is_fixed_id op = true →
  wpj mine w (payload_corrupt_transaction (E := E) system x (pa_record x) e' op (DeadK ns (jr_queue r) j))
    (tx_for ns sha256 ∅ j e').
Proof.
  intros [Hs Hl Hjk [Hlk Hok' Hop0 Hf] HK Hown] Hnext Hst Hd Hop.
  cbn [pa_job_key pa_encoded pa_record pa_markers pa_permit_keys pa_permit_value] in *.
  destruct (seen_names ns sha256 _ _ _ _ Hs) as (Ht & Hj & Hq). destruct (se_job _ _ _ _ _ _ Hs).
  pose proof (proj1 Hnext) as Hsame. pose proof Hsame as [Hj' _ _ (Hq' & _)].
  pose proof (decode_typed _ _ Hd) as Ht'. pose proof (entries_dead ns r _ Hsame Hst) as Hen.
  pose proof (entries_leased ns r r (same_job_refl r) l Hl) as Hen0.
  unfold payload_corrupt_transaction. cbn zeta. rewrite Hjk, Hlk, Hok', Hj', Hq', (sk_namespace _ _ _ Hsys).
  rewrite fair_key_Ok, cancellation_key_Ok, dead_letter_value_Ok by done. do 3 (apply wpj_try; intros ? [= <-]).
  apply wpj_try. intros ov Hov.
  apply (op_entry_new (jr_job_id r) op) in Hov; [|done..|rewrite <- Hf; apply fence_of_u64].
  apply (wpj_quiet_bind ns sha256 _ _ _ _ _ _ (quiet_wake_mutation _ _ _ _ _)
    (wake_mutation_outcomes ns _ _ _ _ _ Hns (sk_namespace _ _ _ Hsys) Hq)).
  intros [ms' wake] w1 He1 [Hcore _]. apply (seen_extends ns sha256 w w1) in Hs; [|by eapply extends_empty].
  apply (owned_extends w w1) in Hown; [|by eapply extends_empty].
  apply wpj_try. intros checks Hch. unfold payload_corrupt_checks in Hch. rewrite Hj', Hop0, Hjk, Hlk, Hok' in Hch.
  injection Hch as <-.
  eapply (wpj_checked_leave mine w1 (jr_job_id r) (pa_encoded x) e' ov r (pa_record x) l
    (lm_fence_high_water (pa_markers x)) (pa_permit_keys x));
    [exact Hcore|intros ? ?; apply elem_of_app; left; eassumption|..]; try done.
  - rewrite Hst. by intros [].
  - tags.
  - mem.
  - mem.
  - touches Hst Hen. by apply touch_deletes.
  - reindex Hen0 Hen.
  - right. mem.
  - intros k Hk. mem.
  - mem.
  - exists (Some (lm_operation_value (pa_markers x))). split; [mem|done].
Qed.

Lemma wpj_dead_letter_by_id mine w j now :
  is_fixed_id j = true → is_i64 now = true →
  wpj mine w (dead_letter_by_id (E := E) system j now) (λ _ _ w', moved ns w' j DeadLettered).
Proof.
  intros Hj0 Hnow. unfold dead_letter_by_id. apply wpj_bind. eapply wpj_mono; [by apply wpj_load_payload_authority|].
  intros x mine1 w1 _ (l & Hx). destruct (seen_names ns sha256 _ _ _ _ (pc_seen _ _ _ _ Hx)) as (Ht & Hj & Hq).
  apply wpj_try. intros code Hcode. apply code_typed in Hcode. cbn zeta. apply wpj_try. intros rev Hrev.
  apply next_revision_Ok in Hrev as [Hrev Hru]; [|by auto with typed].
  set (r' := set_revision _ rev). assert (is_job_record r' = true) as Ht' by (unfold r'; auto with typed).
  assert (next_of (pa_record x) r') as Hnext.
  { apply next_of_outcome. rewrite Hrev. cbn. unfold record_outcome. by destruct (jr_attempts _). }
  pose proof (proj1 Hnext) as [_ _ _ (Hq' & _)].
  apply (wpj_fresh ns sha256 _ _ j (pa_encoded x) (pa_record x) _ _ (pc_seen _ _ _ _ Hx)).
  intros mine2 w2 op Hm2 He2 Hs2 Hop. apply wpj_try. intros e' He'. apply encode_decodes in He'; [|done].
  rewrite (sk_namespace _ _ _ Hsys), Hq', dead_letter_key_Ok by done. apply wpj_try. intros ? [= <-].
  apply wpj_bind. eapply wpj_mono.
  { eapply (wpj_payload_corrupt _ _ j (mkPayloadAuthority (pa_job_key x) (pa_encoded x) r' (pa_markers x) (pa_permit_keys x)
      (pa_permit_value x)) (pa_record x) l e' op); [|done..].
    destruct Hx as [_ Hl Hjk Hmk HK Hown]. split; try done. apply (owned_extends w1 w2); [by eapply extends_empty|done]. }
  intros tx mine3 w3 _ Htx. by apply (wpj_commit_for ns sha256 Hns system Hsys ∅ _ _ _ _ _ r').
Qed.
End recovery.
