(* ===== verification/Administered.v ===== *)
(** * Administration keeps the invariant

    Cancellation requests of leased jobs, and the control operations of
    [admin] put together: what each reports is what the store went through. *)

From S2P Require Import Prelude Errors Ids Clock Policy JobRecord Wire KeyCodec ValueCodec JobCodec.
From S2P Require Import JobRoundtrip OperationCodec Keyspace Store Prog Logic System Transition Claim.
From S2P Require Import Admin Refs Invariant Update Protocol Steps Moves Held LeaseTx Outcomes Controls Recovery.

Section administered.
Context (ns : Namespace) (sha256 : bytes → bytes) (Hns : is_opaque MAX_NAMESPACE_BYTES ns = true).
#[local] Instance disc : Discipline := engine_discipline ns sha256.
Implicit Types r : JobRecordV1.
Implicit Types w : world.
Implicit Types l : Lease.
Implicit Types j : JobId.
Implicit Types checks : list Check.
Implicit Types mine ids : gset bytes.
Context {E : Type} (system : JobSystem) (Hsys : system_ok ns sha256 system).
Abbreviation seen := (seen ns sha256).

(** ** Cancellation requests *)

(** A cancellation of [j] was durable. *)
Definition requested w j : Prop := recorded_bytes w (CancelK ns j) cancel_layout.

Lemma marker_safe w j e r l checks :
  is_fixed_id j = true → decode_job_record e = Ok r → jr_state r = Leased l → Value (JobK ns j) e ∈ checks →
  step_safe ns sha256 ∅ w checks [Put (CancelK ns j) cancel_layout].
Proof.
  intros Hj Hd Hl Hin w' He Hch _. pose proof (ex_valid _ _ _ He) as Hv.
  pose proof (record_at_decode ns _ _ _ _ (check_value _ _ _ _ Hch Hin) Hd) as Hr.
  destruct (good_marker ns sha256 Hns w' j r l Hv Hj Hr Hl) as [Hg Hvis]. split; [done|]. intros id Hid. left. auto.
Qed.

Lemma wpj_commit_marker mine w j e r l checks :
  is_fixed_id j = true → decode_job_record e = Ok r → jr_state r = Leased l → Value (JobK ns j) e ∈ checks →
  Forall (λ ck, ¬ is_wake ns (Check_key ck)) checks →
  wpj mine w (tx ← checked_transaction (E := E) system checks [Put (CancelK ns j) cancel_layout];
              commit_marker system tx (CancelK ns j)) (λ _ _ w', requested w' j).
Proof.
  intros Hj Hd Hl Hin Hck. apply wpj_bind.
  apply (wpj_checked_job ns sha256 Hns system Hsys ∅ mine w j None (λ _, False) (λ _, False) checks checks
    [Put (CancelK ns j) cancel_layout]); try done.
  - constructor; [|constructor]. by apply T_cancel.
  - by apply (marker_safe w j e r l).
  - intros tx mine' w' Hm He Hg. unfold commit_marker. rewrite cancellation_value_Ok. apply wpj_try. intros ? [= <-].
    apply (wpj_commit_effect ns sha256 Hns system Hsys ∅ mine' w' tx checks [Put (CancelK ns j) cancel_layout]);
      [done| |set_solver]. eapply key_job_not_wake. by apply key_job_CancelK.
Qed.

Lemma job_bind_assoc {A B C : Type} (p : job E A) (k : A → job E B) (k' : B → job E C) mine w Φ :
  wpj mine w ((p ≫= k) ≫= k') Φ → wpj mine w (p ≫= λ a, k a ≫= k') Φ.
Proof.
  revert mine w. induction p as [[a|e]|X o k0 IH]; intros mine w; cbn; [done|done|].
  intros H w1 He x mine' w2 Ho. destruct (H w1 He x mine' w2 Ho) as [Hs Hk]. split; [done|]. by apply IH.
Qed.

Lemma wpj_request_cancellation mine w c r l now :
  claim_held ns w c r l →
  wpj mine w (request_job_cancellation (E := E) system c now) (λ _ _ w', requested w' (jr_job_id r)).
Proof.
  intros Hc. destruct (claimed_names _ _ _ _ _ Hc) as [Hj Hq]. unfold request_job_cancellation.
  apply wpj_try. intros ? _. rewrite (sk_namespace _ _ _ Hsys), (ch_job _ _ _ _ _ Hc), cancellation_key_Ok by done.
  cbn zeta. apply wpj_try. intros ? [= <-]. apply wpj_get. intros w1 v He1 _.
  apply (claim_held_extends ns sha256 w w1) in Hc; [|by eapply extends_empty].
  apply wpj_bind. eapply wpj_mono.
  { instantiate (1 := λ ck mine' w', mine' = mine ∧ extends mine w1 w' ∧ Check_key ck = CancelK ns (jr_job_id r)).
    destruct v as [v|]; [apply wpj_try; intros ? _|]; by apply wpj_ret. }
  intros ck mine' w2 _ (-> & He2 & Hkey). apply (claim_held_extends ns sha256 w1 w2) in Hc; [|by eapply extends_empty].
  apply wpj_try. intros checks Hch. destruct (authority_checks_Ok ns sha256 Hns system Hsys w2 c r l checks Hc Hch) as (ov & _ & ->).
  rewrite cancellation_value_Ok. apply wpj_try. intros ? [= <-].
  pose proof (ch_permits _ _ _ _ _ Hc) as HK. apply job_bind_assoc, wpj_bind. eapply wpj_mono.
  { apply (wpj_commit_marker _ _ (jr_job_id r) (cj_encoded c) r l); try done; [apply Hc..|mem|].
    split_Forall; try tags. rewrite Hkey. tags. }
  intros ? mine3 w3 ? Hr. apply wpj_ambient. intros w4 x He4. apply wpj_ret. intros w5 He5.
  eapply recorded_extends; [exact He5|]. by eapply recorded_extends.
Qed.

(** ** Control operations *)

(** What a control operation reports of a cancellation. *)
Definition cancelled_or_requested w j (res : CancellationResult) : Prop :=
  match res with
  | CR_Requested => requested w j
  | CR_Cancelled => moved ns w j Cancelled ∨ moved ns w j DeadLettered
  end.

Lemma wpj_cancel_job mine w j now :
  is_fixed_id j = true →
  wpj mine w (cancel_job (E := E) system j now) (λ res _ w', cancelled_or_requested w' j res).
Proof.
  intros Hj0. unfold cancel_job. apply (wpj_load_job ns sha256 Hns system Hsys); [done|]. intros w1 e r He1 Hs.
  destruct (seen_names ns sha256 _ _ _ _ Hs) as (Ht & Hj & Hq). pose proof (seen_moved ns sha256 _ _ _ _ Hs) as Hmv.
  destruct (jr_state r) as [|l| | |] eqn:Hst.
  - apply wpj_bind. eapply wpj_mono; [by apply (wpj_inactivate ns sha256 Hns system Hsys _ _ j)|].
    intros ? mine2 w2 ? Hm. apply wpj_ret. intros w3 He3. left. by eapply moved_extends.
  - destruct (now <? ls_expires_at l); [|done]. unfold leased_cancel_transaction.
    rewrite (sk_namespace _ _ _ Hsys), cancellation_key_Ok, cancellation_value_Ok by done.
    apply wpj_bind. apply wpj_try. intros ? [= <-].
    apply (wpj_quiet_bind ns sha256 _ _ _ _ _ _ (quiet_lease_markers system _ _)
      (lease_markers_outcomes ns sha256 Hns system Hsys _ _ Hq Hj)).
    intros m w2 He2 [Hlk Hok _ _]. rewrite Hlk, Hok. apply wpj_try. intros ? [= <-].
    apply wpj_bind.
    apply (wpj_checked_job ns sha256 Hns system Hsys ∅ mine w2 j None (λ _, False) (λ _, False)
      [Value (JobK ns j) e; Value (LeaseK ns (jr_queue r) j) (lm_lease_value m); Value (OpK ns j) (lm_operation_value m)]
      _ [Put (CancelK ns j) cancel_layout]); try done.
    + tags.
    + constructor; [|constructor]. by apply T_cancel.
    + apply (marker_safe w2 j e r l); [done|apply Hs|done|mem].
    + intros tx mine' w' Hm He Hg. apply wpj_ret. intros w3 He3. apply wpj_try. intros ? [= <-].
      apply wpj_bind. unfold commit_marker. rewrite cancellation_value_Ok. apply wpj_try. intros ? [= <-]. eapply wpj_mono.
      { eapply (wpj_commit_effect ns sha256 Hns system Hsys ∅ mine' w3); [by eapply tx_good_extends| |mem].
        eapply key_job_not_wake. by apply key_job_CancelK. }
      intros ? mine4 w4 ? Hr. apply wpj_ambient. intros w5 x He5. apply wpj_ret. intros w6 He6.
      eapply recorded_extends; [exact He6|]. by eapply recorded_extends.
  - apply wpj_ret. intros w2 He2. right. by eapply moved_extends.
  - apply wpj_ret. intros w2 He2. left. by eapply moved_extends.
  - eapply wpj_mono; [by apply (wpj_cancel_suspended ns sha256 Hns system Hsys _ _ j)|]. intros res mine2 w2 _ [-> Hm].
    by left.
Qed.

Lemma wpj_suspend_job mine w j :
  is_fixed_id j = true →
  wpj mine w (suspend_job (E := E) system j) (λ _ _ w', moved ns w' j Suspended).
Proof.
  intros Hj0. unfold suspend_job. apply (wpj_load_job ns sha256 Hns system Hsys); [done|]. intros w1 e r He1 Hs.
  pose proof (seen_moved ns sha256 _ _ _ _ Hs) as Hmv. destruct (jr_state r) eqn:Hst; try done.
  - by apply (wpj_inactivate ns sha256 Hns system Hsys _ _ j).
  - apply wpj_ret. intros w2 He2. by eapply moved_extends.
Qed.

(** What an expiry reports. *)
Definition expiry_moved w j (res : ExpiryResult) : Prop :=
  match res with
  | ER_Cancelled => moved ns w j Cancelled
  | ER_DeadLettered => moved ns w j DeadLettered
  | ER_LeaseExpired => moved ns w j Scheduled
  | ER_Unchanged => True
  end.

Lemma wpj_expire_job mine w j now :
  is_fixed_id j = true → is_i64 now = true →
  wpj mine w (expire_job (E := E) system j now) (λ res _ w', expiry_moved w' j res).
Proof.
  intros Hj0 Hnow. unfold expire_job. apply (wpj_load_job ns sha256 Hns system Hsys); [done|]. intros w1 e r He1 Hs.
  destruct (jr_state r) as [|l| | |] eqn:Hst; try by apply wpj_ret.
  - destruct (is_expired r now); [|by apply wpj_ret].
    eapply wpj_mono; [by apply (wpj_expire_scheduled ns sha256 Hns system Hsys _ _ j)|].
    by intros res mine2 w2 _ [-> Hm].
  - destruct (ls_expires_at l <=? now); [|by apply wpj_ret]. apply wpj_bind.
    eapply wpj_mono; [by apply (wpj_expiration_load ns sha256 Hns system Hsys _ _ j e r l)|]. intros x mine2 w2 _ Hx.
    eapply wpj_mono; [by apply (wpj_expiration_commit ns sha256 Hns system Hsys _ _ j e r l now x)|].
    intros res mine3 w3 _ [-> Hm]. by destruct (le_recovery x).
Qed.
End administered.
