(* ===== verification/Payload.v ===== *)
(** * Payloads

    A payload is stored in chunks that fit the store's values
    ([enqueue/state.rs]) and put together again by every claim
    ([lifecycle/payload.rs]), which checks the number of chunks, the total
    length and the digest.  What was stored is what is read. *)

From S2P Require Import Prelude Errors Ids Clock Policy JobRecord Wire KeyCodec ValueCodec JobCodec.
From S2P Require Import JobRoundtrip Keyspace Store Prog.
From S2P Require Import System Transition Claim Enqueue Refs Invariant Update.

(** ** Chunks *)

Lemma chunks_from_concat fuel n payload :
  (0 < n)%nat → (length payload ≤ fuel)%nat → concat (chunks_from fuel n payload) = payload.
Proof.
  intros Hn. revert payload. induction fuel as [|fuel IH]; intros payload Hf.
  { destruct payload; [done|cbn in Hf; lia]. }
  destruct payload as [|b payload]; [done|]. cbn [chunks_from concat]. rewrite IH.
  - apply take_drop.
  - rewrite length_drop. cbn in *. lia.
Qed.

Lemma chunks_concat n payload : 0 < n → concat (chunks n payload) = payload.
Proof. intros Hn. apply chunks_from_concat; lia. Qed.

Abbreviation chunk_value := (value_layout VT_PayloadChunk).

Section chunks.
Context (ns : Namespace) (Hns : is_opaque MAX_NAMESPACE_BYTES ns = true) {E : Type}.

Lemma put_chunks_Ok j i cs ks ms :
  is_fixed_id j = true → put_chunks (E := E) ns j i cs = Ok (ks, ms) →
  length ks = length cs ∧ validate_chunk_keys (E := unit) ns j i ks = Ok tt ∧
  Forall (λ c, len c ≤ MAX_VALUE_BODY_BYTES) cs ∧ ms = zip_with (λ k c, Put k (chunk_value c)) ks cs.
Proof.
  intros Hj. revert i ks ms. induction cs as [|c cs IH]; intros i ks ms; cbn [put_chunks]; [by intros [= <- <-]|].
  intros H. apply bind_Ok in H as (i' & Hi & H). apply bind_Ok in H as (k & Hk & H). apply bind_Ok in H as (v & Hv & H).
  apply bind_Ok in H as ([ks' ms'] & Hrest & [= <- <-]). unfold data in Hk, Hv. apply map_err_Ok in Hk, Hv.
  apply ValueCodec_encode_Ok in Hv as [-> Hc]. destruct (checked 0 U32_MAX i) as [i0|] eqn:Hci; [|done]. injection Hi as ->.
  pose proof Hci as [-> _]%checked_Some. destruct (IH _ _ _ Hrest) as (Hlen & Hval & Hall & ->).
  split_and!; [cbn; by rewrite Hlen| |by constructor|done]. cbn [validate_chunk_keys]. rewrite Hci. cbn [ok_or mbind result_bind].
  unfold data. rewrite Hk. cbn [map_err mbind result_bind]. by rewrite bytes_eqb_refl.
Qed.

(** ** Reading the chunks *)

Lemma accept_chunks_Ok total cs scan :
  Forall (λ c, len c ≤ MAX_VALUE_BODY_BYTES) cs → 0 ≤ sc_total_length scan → 0 ≤ sc_chunk_count scan →
  sc_total_length scan + len (concat cs) ≤ total → total ≤ MAX_INLINE_PAYLOAD_BYTES →
  sc_chunk_count scan + len cs ≤ USIZE_MAX →
  accept_chunks (E := E) total (length cs) ((λ c, Some (chunk_value c)) <$> cs) scan =
  Ok (mkPayloadScan (sc_chunk_count scan + len cs) (sc_total_length scan + len (concat cs))
        (sc_consumed scan ++ concat cs), []).
Proof.
  intros Hall. revert scan. induction Hall as [|c cs Hc _ IH]; intros [n t p] H1 H2 H3 H4 H5; cbn in *.
  { by rewrite !Z.add_0_r, app_nil_r. }
  pose proof (len_nonneg c). pose proof (len_nonneg (concat cs)). pose proof (len_nonneg cs).
  rewrite len_app in H3. change (len (c :: cs)) with (Z.of_nat (S (length cs))) in *. rewrite Nat2Z.inj_succ in *.
  fold (len cs) in *. unfold PayloadAccumulator_accept, data.
  rewrite (proj2 (ValueCodec_decode_body_Ok _ _ _) (conj eq_refl Hc)). cbn [map_err mbind result_bind].
  rewrite bool_decide_true by done. cbn [negb]. unfold checked_add_usize, checked. cbn [sc_total_length sc_chunk_count sc_consumed].
  assert (t + len c ≤ MAX_INLINE_PAYLOAD_BYTES ∧ MAX_INLINE_PAYLOAD_BYTES ≤ USIZE_MAX) as [Hm Hu].
  { unfold MAX_INLINE_PAYLOAD_BYTES in *. ranges. lia. }
  replace (in_range 0 USIZE_MAX (t + len c)) with true by (symmetry; unfold in_range; lia).
  replace (in_range 0 USIZE_MAX (n + 1)) with true by (symmetry; unfold in_range; lia). cbn [ok_or mbind result_bind].
  rewrite (proj2 (Z.ltb_ge total _)), (proj2 (Z.ltb_ge MAX_INLINE_PAYLOAD_BYTES _)) by lia. cbn [orb mbind result_bind].
  rewrite IH; cbn [sc_total_length sc_chunk_count sc_consumed]; try lia.
  rewrite len_app, <- app_assoc. do 3 f_equal; lia.
Qed.

(** A record whose manifest describes the chunks of [payload] has that
    payload, wherever its chunks are. *)
Lemma decode_payload_chunks sha256 r payload cs :
  pm_total_length (jr_payload r) = len payload → pm_digest (jr_payload r) = sha256 payload →
  length (pm_chunk_keys (jr_payload r)) = length cs → manifest_valid (jr_payload r) →
  Forall (λ c, len c ≤ MAX_VALUE_BODY_BYTES) cs → concat cs = payload →
  decode_payload (E := E) sha256 r ((λ c, Some (chunk_value c)) <$> cs) = Ok payload.
Proof.
  intros Hl Hd Hn [Hmax Hch _ _] Hall Hc. unfold decode_payload, scan_payload. rewrite Hl in *.
  rewrite (proj2 (Z.ltb_ge MAX_INLINE_PAYLOAD_BYTES _)) by done. rewrite Hn.
  assert (len (pm_chunk_keys (jr_payload r)) = len cs) as Hlen by (unfold len; by rewrite Hn).
  rewrite accept_chunks_Ok; cbn [sc_total_length sc_chunk_count sc_consumed]; rewrite ?Hc; try done.
  - cbn [mbind result_bind sc_total_length sc_chunk_count sc_consumed]. rewrite Hlen, Hd, !Z.add_0_l, !Z.eqb_refl, bytes_eqb_refl.
    rewrite bool_decide_true by done. done.
  - rewrite <- Hlen. unfold MAX_CHUNKS in Hch. ranges. lia.
Qed.

Lemma zip_with_puts ks cs :
  NoDup ks → length ks = length cs →
  NoDup (Mutation_key <$> zip_with (λ k c, Put k (chunk_value c)) ks cs) ∧
  Mutation_key <$> zip_with (λ k c, Put k (chunk_value c)) ks cs = ks.
Proof.
  intros Hnd Hl. assert (Mutation_key <$> zip_with (λ k c, Put k (chunk_value c)) ks cs = ks) as Heq; [|by rewrite Heq].
  clear Hnd. revert cs Hl. induction ks as [|k ks IH]; intros [|c cs] Hl; try done. cbn. by rewrite IH by (cbn in *; lia).
Qed.

(** The chunks read back after any transaction that writes them. *)
Lemma chunk_values_put m ms ks cs :
  NoDup (Mutation_key <$> ms) → length ks = length cs →
  zip_with (λ k c, Put k (chunk_value c)) ks cs ⊆ ms →
  (λ k, apply_mutations m ms !! k) <$> ks = (λ c, Some (chunk_value c)) <$> cs.
Proof.
  intros Hnd. revert cs. induction ks as [|k ks IH]; intros [|c cs] Hl Hsub; try done. cbn in *. f_equal.
  - apply apply_put; [done|]. apply Hsub. left.
  - apply IH; [lia|]. intros mu Hmu. apply Hsub. by right.
Qed.
End chunks.

Lemma build_payload_chunks_Ok {E} ns system job capacity ks ms :
  sys_namespace system = ns → is_fixed_id (nj_job_id job) = true → 0 ≤ capacity →
  build_payload_chunks (E := E) system job capacity = Ok (ks, ms) →
  ∃ cs, concat cs = nj_payload job ∧ length ks = length cs ∧
    validate_chunk_keys (E := unit) ns (nj_job_id job) 0 ks = Ok tt ∧
    Forall (λ c, len c ≤ MAX_VALUE_BODY_BYTES) cs ∧ ms = zip_with (λ k c, Put k (chunk_value c)) ks cs.
Proof.
  intros <- Hj Hc. unfold build_payload_chunks. destruct (_ && _); [done|]. intros H.
  exists (chunks (Z.max capacity 1) (nj_payload job)). split; [apply chunks_concat; lia|]. by eapply put_chunks_Ok.
Qed.

(** C16: a payload stored is the payload read: the chunks [build_payload_chunks]
    cuts a job's payload into, written by any transaction and described by the
    manifest that [build_job_record] makes of them, are put together by
    [decode_payload] to the same bytes, with every check passed. *)
Theorem payload_roundtrip {E F} system job capacity ks ms0 r m ms :
  is_fixed_id (nj_job_id job) = true → 0 ≤ capacity →
  build_payload_chunks (E := E) system job capacity = Ok (ks, ms0) →
  PayloadManifest_try_new (len (nj_payload job)) (sys_sha256 system (nj_payload job)) ks = Ok (jr_payload r) →
  ms0 ⊆ ms → NoDup (Mutation_key <$> ms) →
  decode_payload (E := F) (sys_sha256 system) r (chunk_values (apply_mutations m ms) r) = Ok (nj_payload job).
Proof.
  intros Hj Hc (cs & Hcat & Hlen & _ & Hall & ->)%(build_payload_chunks_Ok (sys_namespace system)) Hm Hsub Hnd; [|done..].
  unfold PayloadManifest_try_new in Hm. apply bind_Ok in Hm as (u & Hval & [= Hm]).
  apply PayloadManifest_validate_Ok in Hval; [|apply len_nonneg]. rewrite Hm in Hval.
  unfold chunk_values. rewrite <- Hm. cbn [pm_chunk_keys]. rewrite (chunk_values_put m ms ks cs) by done.
  apply decode_payload_chunks; try done; by rewrite <- Hm.
Qed.

Module SamplePayload.
Definition sha256 (bs : bytes) : bytes := take 32 (bs ++ replicate 32 Byte.x00).
Definition caps : StoreCapabilities :=
  mkStoreCapabilities Local 4096 4096 64 4096 65536 64 64 65536 (from_secs 5).
Definition system : JobSystem := mkJobSystem caps ∅ Sample.name (Sample.id16 7) sha256.
Definition job : NewJob :=
  mkNewJob (Sample.id16 1) Sample.name 1 [Byte.x01; Byte.x02; Byte.x03; Byte.x04; Byte.x05] FC_LowVolume None
    Default 0 None None None.
Definition parts : list StoreKey * list Mutation :=
  match build_payload_chunks (E := unit) system job 2 with Ok parts => parts | Err _ => ([], []) end.
Definition record : JobRecordV1 :=
  mkJobRecordV1 (Sample.id16 1) Sample.name Sample.name Sample.name 1 0 (Sample.id16 2)
    (mkPayloadManifest 5 (sha256 (nj_payload job)) parts.1) FC_LowVolume None Default 0 0 None Sample.policy
    None Scheduled None 5000 None 0.
End SamplePayload.

Lemma payload_roundtrip_witness :
  decode_payload (E := unit) SamplePayload.sha256 SamplePayload.record
    (chunk_values (apply_mutations ∅ SamplePayload.parts.2) SamplePayload.record) = Ok (nj_payload SamplePayload.job).
Proof.
  apply (payload_roundtrip (E := unit) SamplePayload.system SamplePayload.job 2 SamplePayload.parts.1 SamplePayload.parts.2
    SamplePayload.record ∅ SamplePayload.parts.2);
    [reflexivity|lia|vm_compute; reflexivity|vm_compute; reflexivity|reflexivity|].
  apply (bool_decide_unpack _). vm_compute. exact I.
Defined.
