(* ===== verification/Enqueued.v ===== *)
(** * Enqueue keeps the invariant

    [enqueue/*.rs]: a new job is created only where none is, with its payload,
    its index entries and a fence at or above any the job ever had; an enqueue
    that reports success has put the job into the store, or found it there. *)

From S2P Require Import Prelude Errors Ids Clock Policy JobRecord Wire KeyCodec ValueCodec JobCodec.
From S2P Require Import JobRoundtrip OperationCodec Keyspace Store Prog Logic System Transition Claim Enqueue.
From S2P Require Import Refs Invariant Update Protocol Steps Moves Held LeaseTx Outcomes Claimed Controls Payload.

Section enqueued.
Context (ns : Namespace) (sha256 : bytes → bytes) (Hns : is_opaque MAX_NAMESPACE_BYTES ns = true).
Context (Hsha : ∀ bs, len (sha256 bs) = 32).
#[local] Instance disc : Discipline := engine_discipline ns sha256.
Implicit Types r : JobRecordV1.
Implicit Types w : world.
Implicit Types j : JobId.
Implicit Types ms : list Mutation.
Implicit Types mine ids : gset bytes.

(** ** The new record *)

(** The record of an enqueued job, under an execution of this process that no
    state has shown. *)
Record created (job : NewJob) (queue : QueueName) (ks : list StoreKey) mine w r : Prop := {
  cr_typed : is_job_record r = true;
  cr_job : jr_job_id r = nj_job_id job;
  cr_namespace : jr_namespace r = ns;
  cr_queue : jr_queue r = queue;
  cr_scheduled : jr_scheduled_at r = nj_scheduled_at job;
  cr_state : jr_state r = Scheduled;
  cr_manifest : PayloadManifest_try_new (len (nj_payload job)) (sha256 (nj_payload job)) ks = Ok (jr_payload r);
  cr_mine : jr_execution_id r ∈ mine;
  cr_drawn : jr_execution_id r ∈ w_ids w;
  cr_hidden : ¬ published w (jr_execution_id r);
}.

Lemma created_extends job queue ks mine mine' w w' r :
  extends mine w w' → mine ⊆ mine' → created job queue ks mine w r → created job queue ks mine' w' r.
Proof.
  intros He Hm []. split; try done; [set_solver|by apply (ex_ids _ _ _ He)|].
  by apply (ex_unpublished _ _ _ He).
Qed.

Section programs.
Context {E : Type} (system : JobSystem) (Hsys : system_ok ns sha256 system).
Context (job : NewJob) (d : HandlerRegistration).
Context (Hjob : is_new_job job = true) (Hd : is_registration d = true).
Abbreviation j := (nj_job_id job).
Abbreviation q := (hr_queue d).

Lemma new_job_names :
  is_fixed_id j = true ∧ is_text MAX_NAME_BYTES q = true ∧ is_i64 (nj_scheduled_at job) = true.
Proof. unfold is_new_job in Hjob. unfold is_registration in Hd. by split_andb. Qed.

Lemma policy_typed : is_policy_snapshot (build_policy job d) = true.
Proof.
  unfold is_new_job in Hjob. unfold is_registration in Hd. unfold is_policy_snapshot, build_policy. cbn.
  split_andb; try done. destruct (nj_retry_override job); done.
Qed.

Lemma wpj_build_record mine w now ks :
  is_i64 now = true → forallb is_store_key ks = true →
  wpj mine w (build_job_record (E := E) system job d (sha256 (nj_payload job)) now ks)
    (λ r mine' w', mine ⊆ mine' ∧ extends mine w w' ∧ created job q ks mine' w' r).
Proof.
  intros Hnow Hks. unfold build_job_record. cbn zeta. apply wpj_generate. intros w1 id He1 Hid Hn.
  pose proof (ex_valid _ _ _ He1) as Hv1. destruct (fresh_hidden w1 id Hv1 Hn) as [Hh _].
  apply wpj_try. intros n Hlen. destruct (checked 0 U32_MAX (len (nj_payload job))) as [n0|] eqn:Hc; [|done].
  injection Hlen as ->. apply checked_Some in Hc as [-> Hb]. apply wpj_try. intros manifest Hm.
  apply wpj_try_last. intros r w2 Hr He2. split; [apply union_subseteq_r|]. split.
  { eapply extends_trans; [exact He1|]. eapply extends_trans; [by apply (extends_draw _ _ id)|].
    eapply extends_weaken; [apply union_subseteq_r|done]. }
  unfold scheduled_record in Hr. apply bind_Ok in Hr as (deadline & Hdl & [= <-]).
  assert (is_payload_manifest manifest = true) as Hmt.
  { unfold PayloadManifest_try_new in Hm. apply bind_Ok in Hm as (u & _ & [= <-]). unfold is_payload_manifest. cbn.
    split_andb; [ranges; lia|unfold is_array; by rewrite Hsha|done]. }
  assert (is_i64 deadline = true) as Hdi.
  { unfold is_new_job in Hjob. split_andb. destruct (nj_expires_at job) as [x|]; cbn in *.
    - injection Hdl as <-. by apply is_i64_max.
    - by apply Timestamp_checked_add_Ok in Hdl as [_ ?]. }
  split; cbn; try done.
  - unfold is_job_record. cbn. rewrite (sk_namespace _ _ _ Hsys), Hns, Hid, Hmt, Hnow, policy_typed, Hdi.
    unfold is_new_job in Hjob. unfold is_registration in Hd. split_andb; done.
  - apply (sk_namespace _ _ _ Hsys).
  - apply elem_of_union_l. by apply elem_of_singleton.
  - apply (ex_ids _ _ _ He2). cbn. set_solver.
  - apply (ex_unpublished _ _ _ He2); [set_solver|done].
Qed.

(** ** The transaction *)

(** The operation entry an enqueue found, and the fence it carries. *)
Definition prior_ok (prior : option PriorFenceAuthority) : Prop :=
  match prior with
  | Some p => fence_of j (Some (pf_encoded p)) = pf_fence_high_water p
  | None => True
  end.

Abbreviation op_list prior ov := (match prior with Some _ => [Put (OpK ns j) ov] | None => [] end).
Abbreviation enqueue_list cm e ov prior dm :=
  (cm ++ [Put (JobK ns j) e; Put (DueK ns q (nj_scheduled_at job) j) (due_layout (nj_scheduled_at job));
          Put (FairK ns q j) (marker_layout VT_FairReady j)] ++ op_list prior ov ++ dm).
Abbreviation enqueue_checks prior :=
  ([Absent (JobK ns j);
    match pf_encoded <$> prior with Some v => Value (OpK ns j) v | None => Absent (OpK ns j) end]).

(** The mutations of an enqueue. *)
Record enqueue_mutations (cm : list Mutation) (e ov : bytes) (prior : option PriorFenceAuthority) (dm : list Mutation) ms : Prop := {
  em_list : ms = enqueue_list cm e ov prior dm;
  em_watermark p : prior = Some p → decode_operation_authority ov j = Ok (mkLiveOperationAuthority j (pf_fence_high_water p) None)
    ∧ fence_of j (Some ov) = pf_fence_high_water p;
  em_dedupe : Forall (λ mu, key_tag ns (Mutation_key mu) = Some KT_Dedupe) dm;
}.

Lemma append_indexes_Ok r cm prior ms :
  is_job_record r = true → prior_ok prior →
  append_enqueue_indexes system job d r cm prior = Ok ms →
  ∃ e ov dm, decode_job_record e = Ok r ∧ enqueue_mutations cm e ov prior dm ms.
Proof.
  intros Hr Hp H. destruct new_job_names as (Hj & Hq & Hs). unfold append_enqueue_indexes in H.
  rewrite (sk_namespace _ _ _ Hsys), job_key_Ok, due_key_Ok, due_value_Ok, fair_key_Ok, fair_value_Ok, operation_key_Ok
    in H by done. cbn [mbind result_bind] in H.
  apply bind_Ok in H as (e & He & H). apply encode_decodes in He; [|done].
  apply bind_Ok in H as (ms1 & Hms1 & H).
  assert (∃ ov, ms1 = cm ++ [Put (JobK ns j) e; Put (DueK ns q (nj_scheduled_at job) j) (due_layout (nj_scheduled_at job));
      Put (FairK ns q j) (marker_layout VT_FairReady j)] ++ op_list prior ov ∧
    ∀ p, prior = Some p → decode_operation_authority ov j = Ok (mkLiveOperationAuthority j (pf_fence_high_water p) None)
      ∧ fence_of j (Some ov) = pf_fence_high_water p) as (ov & -> & Hov).
  { destruct prior as [p|].
    - apply bind_Ok in Hms1 as (ov & Hov & [= <-]). exists ov. split; [by rewrite <- app_assoc|]. intros ? [= <-].
      apply watermark_value_decodes; [done| |done]. unfold prior_ok in Hp. rewrite <- Hp. apply fence_of_u64.
    - injection Hms1 as <-. exists []. split; [by rewrite app_nil_r|done]. }
  exists e, ov. destruct (nj_deduplication job) as [dd|] eqn:Hdd.
  - apply bind_Ok in H as (k & Hk & H). apply bind_Ok in H as (v & Hv & [= <-]).
    assert (is_opaque MAX_DEDUPE_KEY_BYTES (dd_key dd) = true) as Hdk.
    { unfold is_new_job in Hjob. rewrite Hdd in Hjob. split_andb. cbn in *. unfold is_deduplication in *. by split_andb. }
    rewrite dedupe_key_Ok in Hk by done. injection Hk as <-. exists [Put (DedupeK ns (dd_key dd)) v]. split; [done|].
    split; [by rewrite <- !app_assoc|done|]. constructor; [|constructor]. cbn. unfold key_tag. by rewrite parse_DedupeK.
  - injection H as <-. exists []. split; [done|]. split; [by rewrite app_nil_r|done|constructor].
Qed.

Section safe.
Context (w : world) (mine : gset bytes) (r : JobRecordV1) (ks : list StoreKey) (cs : list bytes) (e ov : bytes).
Context (prior : option PriorFenceAuthority) (dm ms : list Mutation).
Abbreviation cm := (zip_with (λ k c, Put k (chunk_value c)) ks cs).
Context (Hcr : created job q ks mine w r) (Hdec : decode_job_record e = Ok r) (Hprior : prior_ok prior).
Context (Hcat : concat cs = nj_payload job) (Hlen : length ks = length cs).
Context (Hval : validate_chunk_keys (E := unit) ns j 0 ks = Ok tt).
Context (Hall : Forall (λ c, len c ≤ MAX_VALUE_BODY_BYTES) cs).
Context (Hms : enqueue_mutations cm e ov prior dm ms).

Lemma manifest_fields :
  pm_chunk_keys (jr_payload r) = ks ∧ pm_total_length (jr_payload r) = len (nj_payload job) ∧
  pm_digest (jr_payload r) = sha256 (nj_payload job) ∧ manifest_valid (jr_payload r).
Proof.
  pose proof (cr_manifest _ _ _ _ _ _ Hcr) as Hm. unfold PayloadManifest_try_new in Hm.
  apply bind_Ok in Hm as (u & Hv & [= Hm]). apply PayloadManifest_validate_Ok in Hv; [|apply len_nonneg].
  rewrite Hm in Hv. by rewrite <- Hm in *.
Qed.

Lemma chunk_touch : Forall (touch ns j (Some r) (λ _, False) (λ mu, mu ∈ cm)) cm.
Proof.
  destruct new_job_names as (Hj & _). apply Forall_forall. intros mu Hin. apply T_chunk; [done|].
  apply list_elem_of_lookup in Hin as [i Hi]. apply lookup_zip_with_Some in Hi as (k & c & -> & Hk & _).
  eapply (validate_chunk_keys_in ns Hns); [done|exact Hval|]. by eapply list_elem_of_lookup_2.
Qed.

Lemma new_entries :
  index_entries ns r = [(DueK ns q (nj_scheduled_at job) j, due_layout (nj_scheduled_at job));
                        (FairK ns q j, marker_layout VT_FairReady j)].
Proof.
  destruct Hcr as [_ Hj _ Hq Hsc Hst _ _ _ _]. unfold index_entries. by rewrite Hst, Hj, Hq, Hsc.
Qed.

Lemma enqueue_touch : Forall (touch ns j (Some r) (λ _, False) (λ mu, mu ∈ cm)) ms.
Proof.
  destruct new_job_names as (Hj & Hq & _). destruct Hms as [-> _ Hdm]. pose proof new_entries as Hen.
  pose proof (cr_state _ _ _ _ _ _ Hcr) as Hst. pose proof (cr_typed _ _ _ _ _ _ Hcr) as Ht.
  touches Hst Hen.
  - apply chunk_touch.
  - destruct prior; [|constructor]. constructor; [by apply T_op|constructor].
  - eapply Forall_impl; [exact Hdm|]. intros mu Hmu. by apply T_dedupe.
Qed.

Lemma without_chunks t : t ≠ KT_PayloadChunk → without ns t cm.
Proof.
  intros Ht. destruct new_job_names as (Hj & _). apply Forall_forall. intros mu Hin.
  apply list_elem_of_lookup in Hin as [i Hi]. apply lookup_zip_with_Some in Hi as (k & c & -> & Hk & _).
  apply list_elem_of_lookup_2 in Hk. destruct (validate_chunk_keys_in ns Hns j 0 ks k Hj Hval Hk) as [_ Htag].
  cbn. congruence.
Qed.

Lemma enqueue_without t :
  t ∉ [KT_PayloadChunk; KT_Job; KT_Due; KT_FairReady; KT_Operation; KT_Dedupe] → without ns t ms.
Proof.
  intros Ht. destruct new_job_names as (Hj & Hq & _). destruct Hms as [-> _ Hdm]. unfold without.
  rewrite !not_elem_of_cons in Ht. destruct Ht as (H1 & H2 & H3 & H4 & H5 & H6 & _). split_Forall.
  - by apply without_chunks.
  - cbn. rewrite tag_JobK by done. congruence.
  - cbn. rewrite tag_DueK by done. congruence.
  - cbn. rewrite tag_FairK by done. congruence.
  - destruct prior; [|constructor]. constructor; [|constructor]. cbn. rewrite tag_OpK by done. congruence.
  - eapply Forall_impl; [exact Hdm|]. cbn. congruence.
Qed.

Lemma enqueue_op w' :
  checks_match (w_now w') (enqueue_checks prior) = true → NoDup (Mutation_key <$> ms) →
  op_inv j (Some Scheduled) (apply_mutations (w_now w') ms !! OpK ns j) ∧
  fence_at ns (w_now w') j ≤ fence_at ns (apply_mutations (w_now w') ms) j.
Proof.
  intros Hch Hnd. destruct new_job_names as (Hj & Hq & _). destruct Hms as [Heq Hw Hdm]. unfold fence_at.
  destruct prior as [p|] eqn:Hpr.
  - destruct (Hw p eq_refl) as [Ha Hf].
    change (checks_match (w_now w') [Absent (JobK ns j); Value (OpK ns j) (pf_encoded p)] = true) in Hch.
    assert (apply_mutations (w_now w') ms !! OpK ns j = Some ov) as -> by (apply apply_put; [done|subst ms; mem]).
    rewrite (check_value _ _ (OpK ns j) (pf_encoded p) Hch) by mem.
    unfold prior_ok in Hprior. rewrite Hf, Hprior. split; [right; eauto|done].
  - assert (OpK ns j ∉ Mutation_key <$> ms) as Hn.
    { apply (without_key ns _ KT_Operation); [by apply tag_OpK|]. subst ms. unfold without. cbn [app]. split_Forall.
      - by apply without_chunks.
      - tags.
      - tags.
      - tags.
      - eapply Forall_impl; [exact Hdm|]. cbn. congruence. }
    change (checks_match (w_now w') [Absent (JobK ns j); Absent (OpK ns j)] = true) in Hch.
    rewrite (apply_other _ _ _ Hn), (check_absent _ _ (OpK ns j) Hch) by mem. split; [by left|done].
Qed.

Lemma enqueue_safe : step_safe ns sha256 {[jr_execution_id r]} w (enqueue_checks prior) ms.
Proof.
  intros w' He Hch Hnd. destruct new_job_names as (Hj & Hq & _). pose proof (ex_valid _ _ _ He) as Hv.
  destruct (enqueue_op w' Hch Hnd) as [Hop Hfe]. destruct manifest_fields as (Hk & Hl & Hdg & Hmv).
  pose proof Hcr as [Ht Hjr Hn _ _ Hst _ _ _ Hh]. pose proof (em_list _ _ _ _ _ _ Hms) as Heq.
  destruct (good_new ns sha256 Hns w' ms j r e (λ mu, mu ∈ cm)) as [Hg Hvis]; try done.
  - apply (check_absent _ _ (JobK ns j) Hch). mem.
  - subst ms. mem.
  - apply (ex_unpublished _ _ _ He); [set_solver|done].
  - by rewrite Hk.
  - by apply enqueue_touch.
  - intros k v (r0 & [?|[= <-]] & Hin); [done|]. left. rewrite new_entries in Hin. subst ms.
    apply elem_of_cons in Hin as [[= -> ->]|[[= -> ->]|[]%not_elem_of_nil]%elem_of_cons];
      rewrite !fmap_app; cbn [fmap list_fmap Mutation_key]; mem.
  - intros mu Hin. rewrite Hk. apply list_elem_of_lookup in Hin as [i Hi].
    apply lookup_zip_with_Some in Hi as (k & c & -> & Hi & _). by eapply list_elem_of_lookup_2.
  - intros k Hin. rewrite Hk in Hin. apply list_elem_of_lookup in Hin as [i Hi].
    destruct (lookup_lt_is_Some_2 cs i) as [c Hc]; [rewrite <- Hlen; by eapply lookup_lt_Some|].
    exists (chunk_value c). subst ms. apply elem_of_app. left. apply list_elem_of_lookup. exists i.
    apply lookup_zip_with_Some. eauto.
  - exists (nj_payload job). unfold chunk_values. rewrite Hk. rewrite (chunk_values_put _ ms ks cs); [|done..|].
    + apply decode_payload_chunks; try done. by rewrite Hk.
    + subst ms. intros mu Hmu. apply elem_of_app. by left.
  - apply (without_key ns _ KT_Cancellation); [by apply tag_CancelK|]. apply enqueue_without. set_solver.
  - split; [done|]. intros id Hid. destruct (Hvis id Hid) as [?| ->]; [by left|right; set_solver].
Qed.
End safe.

(** ** Commit and reconciliation *)

Abbreviation request now ematch := (mkValidatedEnqueue job d (sha256 (nj_payload job)) now ematch).

(** The job was in the store, or, for a seed, its receipt. *)
Definition stored (ematch : ExistingJobMatch) w : Prop :=
  ∃ m, m ∈ states w ∧ (is_Some (m !! JobK ns j) ∨ ematch = StableSeed ∧ is_Some (m !! OpK ns j)).

Lemma stored_extends ematch mine w w' : extends mine w w' → stored ematch w → stored ematch w'.
Proof. intros He (m & Hm & Hs). exists m. split; [by eapply extends_state|done]. Qed.

Definition enqueue_post (ematch : ExistingJobMatch) (res : EnqueueResult) (w : world) : Prop :=
  match er_disposition res with
  | Deduplicated => True
  | _ => er_job_id res = j ∧ stored ematch w
  end.

Lemma reconcile_record_job now ematch e disposition res :
  reconcile_record (E := E) system (request now ematch) e disposition = Ok res →
  er_job_id res = j ∧ er_disposition res = disposition.
Proof.
  unfold reconcile_record. intros H. apply bind_Ok in H as (r & _ & H). apply bind_Ok in H as (u & _ & H).
  destruct (negb _); [done|]. apply bind_Ok in H as (def & _ & H). destruct (negb _); [done|]. by injection H as <-.
Qed.

Lemma reconcile_seed_job now ematch v prior disposition res :
  decode_prior_fence v j = Ok prior →
  reconcile_completed_seed (E := E) system (request now ematch) prior disposition = Ok (Some res) →
  ematch = StableSeed ∧ er_job_id res = j ∧ er_disposition res = disposition.
Proof.
  unfold decode_prior_fence, reconcile_completed_seed, decode_operation_fence_high_water. intros Hp H.
  apply bind_Ok in Hp as (f & Hf & [= <-]). apply bind_Ok in Hf as (o & Ho & Hf). cbn [ve_existing_match pf_encoded] in H.
  destruct ematch; [done|]. split; [done|]. unfold data in H. rewrite Ho in H. cbn in H. destruct o as [a|rc]; [done|].
  destruct (bytes_eqb (or_job_id rc) j) eqn:Hb; [|done]. apply bytes_eqb_spec in Hb.
  destruct (_ || _ || _); [done|]. apply bind_Ok in H as (def & _ & H). apply bind_Ok in H as (dg & _ & H).
  destruct (negb _); [done|]. by injection H as <-.
Qed.

Lemma quiet_reconcile_after_commit rq disposition : quiet (reconcile_after_commit (E := E) system rq disposition).
Proof. unfold reconcile_after_commit. quiet. Qed.

Lemma wpj_reconcile_after_commit mine w now ematch disposition :
  disposition ≠ Deduplicated →
  wpj mine w (reconcile_after_commit (E := E) system (request now ematch) disposition)
    (λ res _ w', enqueue_post ematch res w').
Proof.
  intros Hne. destruct new_job_names as (Hj & _). unfold reconcile_after_commit. cbn [ve_job].
  rewrite (sk_namespace _ _ _ Hsys), job_key_Ok, operation_key_Ok by done. cbn zeta.
  do 2 (apply wpj_try; intros ? [= <-]). apply wpj_read_many. intros w1 vs He1 ->. cbn [fmap list_fmap].
  assert (∀ w2, extends mine w1 w2 → w_now w1 ∈ states w2) as Hin.
  { intros w2 He2. eapply extends_state; [exact He2|]. apply list_elem_of_here. }
  destruct (w_now w1 !! JobK ns j) as [e|] eqn:Hjk.
  { apply wpj_try_last. intros res w2 [Hr Hd']%reconcile_record_job He2. unfold enqueue_post. rewrite Hd'.
    assert (stored ematch w2) by (exists (w_now w1); split; [auto|left; by rewrite Hjk]). by destruct disposition. }
  destruct (w_now w1 !! OpK ns j) as [v|] eqn:Hok; [|done]. apply wpj_try. intros prior Hp. apply wpj_try. intros [res|] Hr; [|done].
  apply wpj_ret. intros w2 He2. destruct (reconcile_seed_job _ _ _ _ _ _ Hp Hr) as (-> & Hrj & Hd').
  unfold enqueue_post. rewrite Hd'.
  assert (stored StableSeed w2) by (exists (w_now w1); split; [auto|right; by rewrite Hok]). by destruct disposition.
Qed.

Lemma wpj_resolve_attempts ids mine w0 w tx checks ms e now ematch attempt n :
  pending ns sha256 ids mine w0 w tx checks ms → Put (JobK ns j) e ∈ ms →
  wpj mine w (resolve_attempts (E := E) system (request now ematch) tx attempt n) (λ res _ w', enqueue_post ematch res w').
Proof.
  intros Hp Hput. destruct new_job_names as (Hj & _). revert attempt w Hp.
  induction n as [|n IH]; intros attempt w Hp; [done|]. cbn [resolve_attempts].
  apply (wpj_store_commit ns sha256 Hns system Hsys ids mine w0 w tx checks ms); [done|]. intros outcome w1 He1 Hp1 Hc _.
  assert (∀ disposition, disposition ≠ Deduplicated → wpj mine w1 (
    reconciled ← catch (reconcile_after_commit (E := E) system (request now ematch) disposition);
    match reconciled with
    | Err JSE_UnknownCommit =>
        if bool_decide (outcome = Unknown)
           && match ematch with StableSeed => true | ExactRequest => false end && (attempt =? 0)
        then resolve_attempts system (request now ematch) tx (attempt + 1) n
        else fail JSE_UnknownCommit
    | result => try_ result
    end) (λ res _ w', enqueue_post ematch res w')) as Hrec.
  { intros disposition Hne. apply wpj_lift, wp_valid. intros w2 He2 Hv2. eapply wp_mono.
    { apply wp_quiet_extends; [done|apply quiet_reconcile_after_commit|]. by apply wpj_reconcile_after_commit. }
    intros x mine' w3 _ (Hx & -> & He3). destruct x as [res|err].
    - apply wpj_try_last. intros res' w4 [= <-] He4. revert Hx. unfold enqueue_post.
      destruct (er_disposition res); try done; intros [Hr Hs]; (split; [done|by eapply stored_extends]).
    - destruct err; try done. destruct (_ && _ && _); [|done]. apply IH.
      eapply pending_extends; [exact He3|]. by eapply pending_extends. }
  destruct outcome; [|by apply Hrec..].
  apply wpj_ret. intros w2 He2. split; [done|]. destruct (Hc eq_refl) as (m & m' & _ & Hm' & _ & Hnd & Ha).
  exists m'. split; [by eapply extends_state|]. left. rewrite (Ha (JobK ns j)).
  - by rewrite (apply_put _ _ Hnd _ _ Hput).
  - eapply key_job_not_wake. by apply key_job_JobK.
Qed.

(** ** Enqueue *)

Lemma chunk_store_keys ks : validate_chunk_keys (E := unit) ns j 0 ks = Ok tt → forallb is_store_key ks = true.
Proof.
  intros Hval. destruct new_job_names as (Hj & _). apply forallb_forall. intros k Hin%list_elem_of_In.
  destruct (validate_chunk_keys_in ns Hns j 0 ks k Hj Hval Hin) as [_ Htag]. unfold is_store_key.
  destruct k; [|rewrite Z.ltb_lt; unfold len; cbn; lia]. unfold key_tag, parse in Htag. cbn in Htag. done.
Qed.

Lemma wpj_build_state mine w now prior :
  is_i64 now = true → prior_ok prior →
  wpj mine w (build_enqueue_state (E := E) system job d (sha256 (nj_payload job)) now prior)
    (λ '(r, ms) mine' w', mine ⊆ mine' ∧ extends mine w w' ∧ ∃ ks cs e ov dm,
       created job q ks mine' w' r ∧ decode_job_record e = Ok r ∧ concat cs = nj_payload job ∧
       length ks = length cs ∧ validate_chunk_keys (E := unit) ns j 0 ks = Ok tt ∧
       Forall (λ c, len c ≤ MAX_VALUE_BODY_BYTES) cs ∧
       enqueue_mutations (zip_with (λ k c, Put k (chunk_value c)) ks cs) e ov prior dm ms).
Proof.
  intros Hnow Hp. destruct new_job_names as (Hj & _). unfold build_enqueue_state.
  apply wpj_try. intros cap Hcap. unfold payload_chunk_capacity in Hcap.
  destruct (checked 0 USIZE_MAX _) as [cap0|] eqn:Hc; [|done]. injection Hcap as ->. apply checked_Some in Hc as [-> Hcb].
  apply wpj_try. intros [ks cm] Hb.
  destruct (build_payload_chunks_Ok ns _ _ _ _ _ (sk_namespace _ _ _ Hsys) Hj (proj1 Hcb) Hb) as (cs & Hcat & Hlen & Hval & Hall & ->).
  apply wpj_bind. eapply wpj_mono; [apply wpj_build_record; [done|by apply chunk_store_keys]|].
  intros r mine1 w1 _ (Hm1 & He1 & Hcr). apply wpj_try. intros ms Hms.
  destruct (append_indexes_Ok r _ prior ms (cr_typed _ _ _ _ _ _ Hcr) Hp Hms) as (e & ov & dm & Hdec & Hem).
  apply wpj_ret. intros w2 He2. split; [done|].
  split; [eapply extends_trans; [exact He1|by apply (extends_weaken mine1)]|].
  exists ks, cs, e, ov, dm. split_and!; try done. by apply (created_extends _ _ _ mine1 mine1 w1).
Qed.

Lemma dedupe_check_Ok expected checks checks' :
  append_dedupe_check system job expected checks = Ok checks' → checks ⊆ checks'.
Proof.
  unfold append_dedupe_check. destruct (nj_deduplication job); [|by intros [= <-]].
  intros H. apply bind_Ok in H as (k & _ & [= <-]). set_solver.
Qed.

Lemma wpj_build_transaction mine w r ms expected prior ks cs e ov dm :
  created job q ks mine w r → decode_job_record e = Ok r → prior_ok prior → concat cs = nj_payload job →
  length ks = length cs → validate_chunk_keys (E := unit) ns j 0 ks = Ok tt →
  Forall (λ c, len c ≤ MAX_VALUE_BODY_BYTES) cs →
  enqueue_mutations (zip_with (λ k c, Put k (chunk_value c)) ks cs) e ov prior dm ms →
  wpj mine w (build_enqueue_transaction (E := E) system job r ms expected (pf_encoded <$> prior))
    (λ tx mine' w', tx_good ns sha256 {[jr_execution_id r]} mine' w' tx (enqueue_checks prior) ms).
Proof.
  intros Hcr Hdec Hp Hcat Hlen Hval Hall Hms. destruct new_job_names as (Hj & Hq & _).
  unfold build_enqueue_transaction. rewrite (cr_queue _ _ _ _ _ _ Hcr), (sk_namespace _ _ _ Hsys), wake_key_Ok, job_key_Ok, operation_key_Ok by done.
  cbn zeta. apply wpj_try. intros ? [= <-]. apply wpj_get. intros w1 v He1 _.
  apply (created_extends _ _ _ mine mine w w1) in Hcr; [|done..]. do 2 (apply wpj_try; intros ? [= <-]).
  apply wpj_try. intros [ms' wake] Hwake.
  assert (is_wake ns (WakeK ns q)) as Hwk by (unfold is_wake, key_tag; by rewrite parse_WakeK).
  apply (wake_apply_spec ns) in Hwake as [Hcore _]; [|done]. apply wpj_try. intros checks Hch%dedupe_check_Ok.
  apply (wpj_checked_job ns sha256 Hns system Hsys {[jr_execution_id r]} mine w1 j (Some r) (λ _, False)
    (λ mu, mu ∈ zip_with (λ k c, Put k (chunk_value c)) ks cs) (enqueue_checks prior) checks ms ms'); try done.
  - apply singleton_subseteq_l, Hcr.
  - apply singleton_subseteq_l, Hcr.
  - constructor; [tag_differs|constructor; [|constructor]]. destruct prior; cbn [fmap option_fmap option_map]; tag_differs.
  - by apply (enqueue_touch w1 mine r ks cs e ov prior dm).
  - etrans; [|exact Hch]. intros c Hc. apply elem_of_app. by left.
  - by apply (enqueue_safe w1 mine r ks cs e ov prior dm).
Qed.

Lemma wpj_enqueue_new mine w now ematch expected prior :
  is_i64 now = true → prior_ok prior →
  wpj mine w (enqueue_new (E := E) system (request now ematch) expected prior) (λ res _ w', enqueue_post ematch res w').
Proof.
  intros Hnow Hp. unfold enqueue_new. destruct (is_some_and _ _); [done|]. cbn [ve_job ve_registration ve_digest ve_now].
  apply wpj_bind. eapply wpj_mono; [by apply wpj_build_state|].
  intros [r ms] mine1 w1 _ (_ & _ & ks & cs & e & ov & dm & Hcr & Hdec & Hcat & Hlen & Hval & Hall & Hms). cbn zeta.
  apply wpj_bind. eapply wpj_mono; [by apply (wpj_build_transaction _ _ r ms expected prior ks cs e ov dm)|].
  intros tx mine2 w2 Hv2 [Ho Hf Hs Hn Hx Hd' Hl]. unfold resolve_enqueue_commit.
  apply (wpj_resolve_attempts {[jr_execution_id r]} mine2 w2 w2 tx (enqueue_checks prior) ms e).
  - split; try done. right. by apply extends_refl.
  - destruct Hms as [-> _ _]. mem.
Qed.

Lemma classify_prior_Ok vs expected auth :
  classify_prior vs j expected = Ok auth →
  ∃ prior, auth = EA_Missing expected prior ∧ prior_ok prior ∧
    ∀ p, prior = Some p → (next_value vs).1 = Some (pf_encoded p) ∧ decode_prior_fence (pf_encoded p) j = Ok p.
Proof.
  unfold classify_prior. destruct (next_value vs).1 as [v|]; cbn; [|intros [= <-]; exists None; done].
  intros H. apply bind_Ok in H as (o & Ho & [= <-]). apply bind_Ok in Ho as (p & Hp & [= <-]). exists (Some p).
  pose proof Hp as Hp'. unfold decode_prior_fence in Hp. apply bind_Ok in Hp as (f & Hf & [= <-]).
  split; [done|]. split; [cbn; by rewrite Hf|]. by intros ? [= <-].
Qed.

(** What an enqueue found of its job. *)
Definition authority_seen (auth : EnqueueAuthority) w : Prop :=
  match auth with
  | EA_Existing e => ∃ m, m ∈ states w ∧ m !! JobK ns j = Some e
  | EA_Deduplicated _ => True
  | EA_Missing _ prior => prior_ok prior ∧ ∀ p, prior = Some p →
      decode_prior_fence (pf_encoded p) j = Ok p ∧ ∃ m, m ∈ states w ∧ m !! OpK ns j = Some (pf_encoded p)
  end.

Lemma wpj_read_authority mine w now :
  wpj mine w (read_enqueue_authority (E := E) system job (JobK ns j) now) (λ auth _ w', authority_seen auth w').
Proof.
  destruct new_job_names as (Hj & _). unfold read_enqueue_authority. apply wpj_try. intros [keys b] Hkeys.
  assert (∃ dk, keys = [JobK ns j] ++ (if b then [dk] else []) ++ [OpK ns j]) as [dk ->].
  { unfold enqueue_read_keys in Hkeys. rewrite (sk_namespace _ _ _ Hsys), operation_key_Ok in Hkeys by done.
    apply bind_Ok in Hkeys as ([rk hd] & Hrk & [= <- <-]). destruct (nj_deduplication job).
    - apply bind_Ok in Hrk as (k & _ & [= <- <-]). by exists k.
    - injection Hrk as <- <-. by exists []. }
  apply wpj_read_many. intros w1 vs He1 ->. destruct (negb _); [done|]. apply wpj_try_last. intros auth w2 Ha He2.
  assert (w_now w1 ∈ states w2) as Hin by (eapply extends_state; [exact He2|apply list_elem_of_here]).
  unfold classify_enqueue_values in Ha. cbn [fmap list_fmap app next_value] in Ha.
  destruct (w_now w1 !! JobK ns j) as [e|] eqn:Hjk; [injection Ha as <-; cbn; eauto|].
  assert (∀ expected, classify_prior [w_now w1 !! OpK ns j] j expected = Ok auth → authority_seen auth w2) as Hprior.
  { intros expected (prior & -> & Hp & Hs)%classify_prior_Ok. split; [done|]. intros p Hpr.
    destruct (Hs p Hpr) as [Hv Hd']. split; [done|]. by exists (w_now w1). }
  destruct b; cbn [fmap list_fmap app next_value] in Ha; [|by eapply Hprior].
  destruct (w_now w1 !! dk) as [v|]; [|by eapply Hprior]. apply bind_Ok in Ha as ([dj until] & _ & Ha).
  destruct (now <? until); [by injection Ha as <-|by eapply Hprior].
Qed.

Lemma wpj_enqueue_validated mine w now ematch :
  is_i64 now = true →
  wpj mine w (enqueue_validated (E := E) system (request now ematch)) (λ res _ w', enqueue_post ematch res w').
Proof.
  intros Hnow. destruct new_job_names as (Hj & _). unfold enqueue_validated. cbn [ve_job ve_now].
  rewrite (sk_namespace _ _ _ Hsys), job_key_Ok by done. apply wpj_try. intros ? [= <-].
  apply wpj_bind. eapply wpj_mono; [apply wpj_read_authority|]. intros auth mine1 w1 _ Ha. destruct auth as [e|dj|expected prior].
  - destruct Ha as (m & Hm & He). apply wpj_try_last. intros res w2 [Hr Hd']%reconcile_record_job He2.
    unfold enqueue_post. rewrite Hd'. split; [done|]. exists m. split; [by eapply extends_state|left; by rewrite He].
  - by apply wpj_ret.
  - destruct Ha as [Hp Hs]. unfold enqueue_missing_job. apply wpj_bind. eapply wpj_mono.
    { instantiate (1 := λ o mine' w', extends mine1 w1 w' ∧ ∀ res, o = Some res → enqueue_post ematch res w').
      destruct prior as [p|]; [|by apply wpj_ret]. destruct (Hs p eq_refl) as (Hd' & m & Hm & Hop).
      apply wpj_try_last. intros o w2 Ho He2. split; [done|]. intros res ->.
      destruct (reconcile_seed_job _ _ _ _ _ _ Hd' Ho) as (-> & Hr & Hdi). unfold enqueue_post. rewrite Hdi. split; [done|].
      exists m. split; [by eapply extends_state|right; by rewrite Hop]. }
    intros [res|] mine2 w2 _ [He2 Hres]; [|by apply wpj_enqueue_new].
    apply wpj_ret. intros w3 He3. specialize (Hres res eq_refl). unfold enqueue_post in *.
    destruct (er_disposition res); try done; destruct Hres as [? Hst]; (split; [done|by eapply stored_extends]).
Qed.
End programs.

Lemma wpj_enqueue {E} system (Hsys : system_ok ns sha256 system) mine w job now ematch :
  is_new_job job = true → is_i64 now = true →
  wpj mine w (enqueue_with_match (E := E) system job now ematch) (λ res _ w', enqueue_post job ematch res w').
Proof.
  intros Hjob Hnow. unfold enqueue_with_match. apply wpj_try. intros d Hd.
  assert (is_registration d = true) as Hreg.
  { destruct (HandlerRegistry_get_ref _ _ _) as [d0|] eqn:Hget; [|done]. injection Hd as ->. by eapply sk_registry. }
  do 2 (apply wpj_try; intros ? _). cbn zeta. rewrite (sk_sha256 _ _ _ Hsys). by apply wpj_enqueue_validated.
Qed.
End enqueued.
