(* ===== verification/Ordered.v ===== *)
(** * Ordered maps

    [std::collections::BTreeMap] and [BTreeSet]: finite maps and sets that are
    iterated in the order of their keys.  A key type brings its derived [Ord]
    as an instance of [KeyOrder]; [btree m] is the iteration. *)

From stdpp Require Import sorting.
From S2P Require Import Prelude.

(** The [<] of a type that derives [Ord]. *)
Class KeyOrder (K : Type) : Type := {
  key_ltb : K → K → bool;
  key_ltb_irrefl a : key_ltb a a = false;
  key_ltb_trans a b c : key_ltb a b = true → key_ltb b c = true → key_ltb a c = true;
  key_ltb_total a b : key_ltb a b = true ∨ a = b ∨ key_ltb b a = true;
}.

#[export] Program Instance bytes_order : KeyOrder bytes := {| key_ltb := bytes_ltb |}.
Next Obligation. apply bytes_ltb_irrefl. Qed.
Next Obligation. intros a b c. apply bytes_ltb_trans. Qed.
Next Obligation. apply bytes_ltb_total. Qed.

#[export] Program Instance Z_order : KeyOrder Z := {| key_ltb := Z.ltb |}.
Next Obligation. apply Z.ltb_irrefl. Qed.
Next Obligation. intros a b c. rewrite !Z.ltb_lt. lia. Qed.
Next Obligation. intros a b. cbn. rewrite !Z.ltb_lt. lia. Qed.

(** [Option<K>]: [None] comes first. *)
Definition option_ltb {K} `{!KeyOrder K} (a b : option K) : bool :=
  match a, b with
  | None, Some _ => true
  | Some a, Some b => key_ltb a b
  | _, None => false
  end.

#[export] Program Instance option_order K `{!KeyOrder K} : KeyOrder (option K) := {| key_ltb := option_ltb |}.
Next Obligation. intros K ? [a|]; cbn; [apply key_ltb_irrefl|done]. Qed.
Next Obligation. intros K ? [a|] [b|] [c|]; cbn; try done. apply key_ltb_trans. Qed.
Next Obligation.
  intros K ? [a|] [b|]; cbn; try naive_solver. destruct (key_ltb_total a b) as [?|[->|?]]; auto.
Qed.

(** Lexicographic order of two fields. *)
Definition pair_ltb {K L} `{!EqDecision K} `{!KeyOrder K} `{!KeyOrder L} (a b : K * L) : bool :=
  key_ltb a.1 b.1 || (bool_decide (a.1 = b.1) && key_ltb a.2 b.2).

#[export] Program Instance pair_order K L `{!EqDecision K} `{!KeyOrder K} `{!KeyOrder L} : KeyOrder (K * L) :=
  {| key_ltb := pair_ltb |}.
Next Obligation.
  intros K L ??? [a b]. unfold pair_ltb. cbn. rewrite !key_ltb_irrefl. by rewrite andb_false_r.
Qed.
Next Obligation.
  intros K L ??? [a b] [a' b'] [a'' b'']. unfold pair_ltb. cbn.
  rewrite !orb_true_iff, !andb_true_iff, !bool_decide_eq_true.
  intros [H1|[-> H1]] [H2|[-> H2]]; [left|left|left|right]; eauto using key_ltb_trans.
Qed.
Next Obligation.
  intros K L ??? [a b] [a' b']. unfold pair_ltb. cbn. destruct (key_ltb_total a a') as [Hk|[->|Hk]]; [by rewrite Hk; auto| |by rewrite Hk; auto].
  destruct (key_ltb_total b b') as [H|[->|H]]; auto.
  - left. rewrite H, bool_decide_true by done. by rewrite orb_true_r.
  - do 2 right. rewrite H, bool_decide_true by done. by rewrite orb_true_r.
Qed.

(** ** Iteration *)

Section btree.
Context {K A : Type} `{Countable K} `{!KeyOrder K}.
Implicit Types m : gmap K A.

Lemma key_ltb_asym (a b : K) : key_ltb a b = true → key_ltb b a = false.
Proof.
  intros Hab. destruct (key_ltb b a) eqn:Hba; [|done].
  pose proof (key_ltb_trans _ _ _ Hab Hba) as Haa. by rewrite key_ltb_irrefl in Haa.
Qed.

Definition entry_le (a b : K * A) : Prop := key_ltb b.1 a.1 = false.
#[global] Instance entry_le_dec : RelDecision entry_le.
Proof. intros a b. unfold entry_le. apply _. Defined.

(** [map.iter()]. *)
Definition btree m : list (K * A) := merge_sort entry_le (map_to_list m).

Lemma elem_of_btree m k a : (k, a) ∈ btree m ↔ m !! k = Some a.
Proof. unfold btree. by rewrite merge_sort_Permutation, elem_of_map_to_list. Qed.

Lemma btree_nodup m : NoDup (btree m).*1.
Proof. unfold btree. rewrite merge_sort_Permutation. apply NoDup_fst_map_to_list. Qed.

Lemma btree_perm m : btree m ≡ₚ map_to_list m.
Proof. apply merge_sort_Permutation. Qed.

Lemma btree_to_map m : list_to_map (btree m) = m.
Proof.
  rewrite <- (list_to_map_to_list m) at 2. apply list_to_map_proper; [apply btree_nodup|apply btree_perm].
Qed.

Lemma length_btree m : length (btree m) = size m.
Proof. rewrite btree_perm. apply length_map_to_list. Qed.

Lemma entry_le_total : Total entry_le.
Proof.
  intros [a x] [b y]. unfold entry_le. cbn.
  destruct (key_ltb_total a b) as [Hab|[->|Hab]]; [left|left|right]; try by apply key_ltb_asym. apply key_ltb_irrefl.
Qed.

Lemma entry_le_trans : Transitive entry_le.
Proof.
  intros [a x] [b y] [c z]. unfold entry_le. cbn. intros Hab Hbc.
  destruct (key_ltb c a) eqn:Hca; [|done]. destruct (key_ltb_total b c) as [Hlt|[->|Hlt]]; try congruence.
  pose proof (key_ltb_trans _ _ _ Hlt Hca). congruence.
Qed.

(** The keys ascend strictly. *)
Lemma btree_sorted m : StronglySorted (λ a b : K * A, key_ltb a.1 b.1 = true) (btree m).
Proof.
  pose proof (btree_nodup m) as Hn. assert (StronglySorted entry_le (btree m)) as Hs.
  { apply (@StronglySorted_merge_sort _ entry_le _ entry_le_trans entry_le_total). }
  revert Hn. induction Hs as [|[k a] l Hs IH Hall]; cbn; [constructor|]. intros [Hk Hn]%NoDup_cons.
  constructor; [auto|]. apply Forall_forall. intros [k' a'] Hin. cbn.
  rewrite Forall_forall in Hall. specialize (Hall _ Hin). unfold entry_le in Hall. cbn in Hall.
  destruct (key_ltb_total k k') as [?|[->|?]]; [done| |congruence].
  destruct Hk. apply list_elem_of_fmap. by exists (k', a').
Qed.
End btree.

(** The iteration is determined by its entries. *)
Lemma btree_unique {K A} `{Countable K} `{!KeyOrder K} (m : gmap K A) l :
  StronglySorted (λ a b : K * A, key_ltb a.1 b.1 = true) l → l ≡ₚ map_to_list m → btree m = l.
Proof.
  intros Hl Hp. eapply (StronglySorted_unique_strong (λ a b : K * A, key_ltb a.1 b.1 = true));
    [|apply btree_sorted|exact Hl|by rewrite btree_perm].
  intros a b _ _ Hab Hba. by rewrite (key_ltb_asym _ _ Hab) in Hba.
Qed.

Lemma btree_fmap {K A B} `{Countable K} `{!KeyOrder K} (f : A → B) (m : gmap K A) :
  btree (f <$> m) = prod_map id f <$> btree m.
Proof.
  apply btree_unique.
  - pose proof (btree_sorted m) as Hs. induction Hs as [|e l Hs IH Hall]; cbn; [constructor|]. constructor; [done|].
    rewrite Forall_fmap. exact Hall.
  - by rewrite btree_perm, map_to_list_fmap.
Qed.

(** [set.iter()]. *)
Definition btree_set {K} `{Countable K} `{!KeyOrder K} (X : gset K) : list K := (btree (gset_to_gmap tt X)).*1.

Lemma elem_of_btree_set {K} `{Countable K} `{!KeyOrder K} (X : gset K) k : k ∈ btree_set X ↔ k ∈ X.
Proof.
  unfold btree_set. rewrite list_elem_of_fmap. split.
  - intros ([k' u] & -> & Hin). apply elem_of_btree in Hin. by apply lookup_gset_to_gmap_Some in Hin as [? _].
  - intros Hk. exists (k, tt). split; [done|]. apply elem_of_btree. by apply lookup_gset_to_gmap_Some.
Qed.

Lemma btree_set_nodup {K} `{Countable K} `{!KeyOrder K} (X : gset K) : NoDup (btree_set X).
Proof. apply btree_nodup. Qed.

Lemma btree_set_to_set {K} `{Countable K} `{!KeyOrder K} (X : gset K) : list_to_set (btree_set X) = X.
Proof. apply set_eq. intros k. by rewrite elem_of_list_to_set, elem_of_btree_set. Qed.

Lemma length_btree_set {K} `{Countable K} `{!KeyOrder K} (X : gset K) : length (btree_set X) = size X.
Proof.
  rewrite <- (btree_set_to_set X) at 2. symmetry. apply size_list_to_set, btree_set_nodup.
Qed.

(** ** Sums over a map *)

Section sums.
Context {K A : Type} `{Countable K}.
Implicit Types m : gmap K A.
Implicit Types f : K → A → Z.

Definition map_sum f m : Z := map_fold (λ k a acc, f k a + acc) 0 m.

Lemma map_sum_empty f : map_sum f ∅ = 0.
Proof. apply map_fold_empty. Qed.

Lemma map_sum_insert f m k a : m !! k = None → map_sum f (<[k := a]> m) = f k a + map_sum f m.
Proof. intros Hk. unfold map_sum. rewrite map_fold_insert_L; [done| |done]. intros. lia. Qed.

Lemma map_sum_delete f m k a : m !! k = Some a → map_sum f m = f k a + map_sum f (delete k m).
Proof.
  intros Hk. rewrite <- (insert_delete_id m k a Hk) at 1. apply map_sum_insert. by rewrite lookup_delete_eq.
Qed.

Lemma map_sum_replace f m k a b :
  m !! k = Some a → map_sum f (<[k := b]> m) = map_sum f m - f k a + f k b.
Proof.
  intros Hk. rewrite <- insert_delete_eq, map_sum_insert by by rewrite lookup_delete_eq.
  rewrite (map_sum_delete f m k a Hk). lia.
Qed.

Lemma map_sum_alter f m (g : A → A) k a :
  m !! k = Some a → map_sum f (alter g k m) = map_sum f m - f k a + f k (g a).
Proof.
  intros Hk. rewrite <- (map_sum_replace f m k a (g a) Hk). f_equal. apply map_eq. intros i.
  destruct (decide (k = i)) as [<-|Hne].
  - by rewrite lookup_alter_eq, lookup_insert_eq, Hk.
  - by rewrite lookup_alter_ne, lookup_insert_ne by done.
Qed.

Lemma map_sum_le f g m : (∀ k a, m !! k = Some a → f k a ≤ g k a) → map_sum f m ≤ map_sum g m.
Proof.
  induction m as [|k a m Hk IH] using map_ind; intros Hle; [by rewrite !map_sum_empty|].
  rewrite !map_sum_insert by done. apply Z.add_le_mono.
  - apply Hle. by rewrite lookup_insert_eq.
  - apply IH. intros i b Hi. apply Hle. rewrite lookup_insert_ne; [done|]. intros ->. congruence.
Qed.

Lemma map_sum_ext f g m : (∀ k a, m !! k = Some a → f k a = g k a) → map_sum f m = map_sum g m.
Proof.
  intros He. apply Z.le_antisymm; apply map_sum_le; intros k a Hk; rewrite (He k a Hk); lia.
Qed.

Lemma map_sum_zero f m : (∀ k a, m !! k = Some a → f k a = 0) → map_sum f m = 0.
Proof.
  intros Hz. rewrite (map_sum_ext f (λ _ _, 0)) by done. clear Hz.
  induction m as [|k a m Hk IH] using map_ind; [apply map_sum_empty|]. rewrite map_sum_insert by done. lia.
Qed.

Lemma map_sum_nonneg f m : (∀ k a, m !! k = Some a → 0 ≤ f k a) → 0 ≤ map_sum f m.
Proof. intros Hf. rewrite <- (map_sum_zero (λ _ _, 0) m) by done. by apply map_sum_le. Qed.

Lemma map_sum_elem f m k a :
  (∀ i b, m !! i = Some b → 0 ≤ f i b) → m !! k = Some a → f k a ≤ map_sum f m.
Proof.
  intros Hf Hk. rewrite (map_sum_delete f m k a Hk).
  assert (0 ≤ map_sum f (delete k m)); [|lia]. apply map_sum_nonneg. intros i b Hi.
  apply (Hf i b). by apply lookup_delete_Some in Hi as [_ ?].
Qed.

Lemma map_sum_ones f m : (∀ k a, m !! k = Some a → f k a ≤ 1) → map_sum f m ≤ Z.of_nat (size m).
Proof.
  intros Hf. induction m as [|k a m Hk IH] using map_ind; [by rewrite map_sum_empty, map_size_empty|].
  rewrite map_sum_insert, map_size_insert_None by done. rewrite Nat2Z.inj_succ.
  assert (f k a ≤ 1) by (apply Hf; by rewrite lookup_insert_eq).
  assert (map_sum f m ≤ Z.of_nat (size m)); [|lia]. apply IH. intros i b Hi. apply (Hf i b).
  rewrite lookup_insert_ne; [done|]. intros ->. congruence.
Qed.

Lemma map_sum_fmap f (g : A → A) m : map_sum f (g <$> m) = map_sum (λ k a, f k (g a)) m.
Proof.
  induction m as [|k a m Hk IH] using map_ind; [by rewrite fmap_empty, !map_sum_empty|].
  rewrite fmap_insert, !map_sum_insert; [lia|done|]. by rewrite lookup_fmap, Hk.
Qed.

Lemma map_sum_filter f (P : K * A → Prop) `{!∀ x, Decision (P x)} m :
  (∀ k a, m !! k = Some a → ¬ P (k, a) → 0 ≤ f k a) → map_sum f (filter P m) ≤ map_sum f m.
Proof.
  induction m as [|k a m Hk IH] using map_ind; intros Hf; [by rewrite map_filter_empty|].
  assert (map_sum f (filter P m) ≤ map_sum f m) as Hle.
  { apply IH. intros i b Hi. apply Hf. rewrite lookup_insert_ne; [done|]. intros ->. congruence. }
  rewrite map_filter_insert, (map_sum_insert f m) by done. destruct (decide (P (k, a))) as [|Hn].
  - rewrite map_sum_insert; [lia|]. apply map_lookup_filter_None. auto.
  - rewrite delete_id by done. specialize (Hf k a (lookup_insert_eq _ _ _) Hn). lia.
Qed.

(** A sum of indicators is a count. *)
Lemma map_sum_count (f : K → A → bool) m :
  map_sum (λ k a, if f k a then 1 else 0) m = Z.of_nat (size (filter (λ e, f e.1 e.2 = true) m)).
Proof.
  induction m as [|k a m Hk IH] using map_ind; [by rewrite map_filter_empty, map_sum_empty, map_size_empty|].
  rewrite map_sum_insert, map_filter_insert, IH by done. cbn. destruct (f k a) eqn:E.
  - rewrite decide_True, map_size_insert_None by (try done; apply map_lookup_filter_None; auto). lia.
  - rewrite decide_False by done. by rewrite delete_id.
Qed.

Lemma map_sum_list f m : map_sum f m = foldr (λ e acc, f e.1 e.2 + acc) 0 (map_to_list m).
Proof.
  unfold map_sum. rewrite map_fold_foldr. induction (map_to_list m) as [|[k a] l IH]; cbn; [done|by rewrite IH].
Qed.
End sums.

Lemma map_sum_btree {K A} `{Countable K} `{!KeyOrder K} (f : K → A → Z) (m : gmap K A) :
  map_sum f m = foldr (λ e acc, f e.1 e.2 + acc) 0 (btree m).
Proof.
  rewrite map_sum_list. generalize (btree_perm m). generalize (btree m) as l. intros l Hl. symmetry in Hl.
  induction Hl; cbn; lia.
Qed.
