(* ===== verification/Fairness.v ===== *)
(** * Fair dispatch: values

    [crates/bg-jobs/src/fairness]: scopes and their accounting ([scope.rs],
    [service_accounting.rs]), candidates, permits and rejections
    ([candidate.rs]), budgets ([budget.rs]) and the priority deficit
    ([priority.rs]).  Unsigned integers saturate at their width where the
    source says [saturating_*]. *)

From S2P Require Import Prelude Errors Ids Clock Policy JobRecord Ordered.

Definition U128_MAX : Z := 2 ^ 128 - 1.

(** [saturating_add] at the maximum [hi], and [abs_diff]. *)
Definition saturating_add (hi a b : Z) : Z := Z.min hi (a + b).
Definition saturating_mul (hi a b : Z) : Z := Z.min hi (a * b).
Definition abs_diff (a b : Z) : Z := Z.abs (a - b).

Definition CRITICAL_WEIGHT : Z := 8.
Definition DEFAULT_WEIGHT : Z := 4.
Definition BULK_WEIGHT : Z := 1.
Definition NORMALIZATION_SCALE : Z := 2.

(** ** Scopes *)

Inductive FairScope : Type :=
  | Scoped (primary : FairnessKey) (secondary : option FairnessKey)
  | LowVolume.

#[export] Instance FairScope_eq_dec : EqDecision FairScope.
Proof. solve_decision. Defined.

Definition scope_fields (s : FairScope) : option (FairnessKey * option FairnessKey) :=
  match s with Scoped p c => Some (p, c) | LowVolume => None end.
Definition scope_of_fields (o : option (FairnessKey * option FairnessKey)) : FairScope :=
  match o with Some (p, c) => Scoped p c | None => LowVolume end.
#[export] Program Instance FairScope_countable : Countable FairScope :=
  inj_countable scope_fields (λ o, Some (scope_of_fields o)) _.
Next Obligation. by intros []. Qed.

(** The derived [Ord]: [Scoped] before [LowVolume], then by primary, then by
    secondary. *)
Definition scope_ltb (a b : FairScope) : bool :=
  match a, b with
  | Scoped p c, Scoped p' c' => key_ltb (p, c) (p', c')
  | Scoped _ _, LowVolume => true
  | LowVolume, _ => false
  end.

#[export] Program Instance FairScope_order : KeyOrder FairScope := {| key_ltb := scope_ltb |}.
Next Obligation. intros [p c|]; [|done]. apply (key_ltb_irrefl (p, c)). Qed.
Next Obligation.
  intros [p c|] [p' c'|] [p'' c''|]; try done. apply (key_ltb_trans (p, c) (p', c') (p'', c'')).
Qed.
Next Obligation.
  intros [p c|] [p' c'|]; auto.
  destruct (key_ltb_total (p, c) (p', c')) as [?|[?|?]]; simplify_eq; auto.
Qed.

Definition FairScope_primary_scope (s : FairScope) : FairScope :=
  match s with Scoped primary _ => Scoped primary None | LowVolume => LowVolume end.
Definition FairScope_is_secondary (s : FairScope) : bool :=
  match s with Scoped _ (Some _) => true | _ => false end.
(** [matches!(scope, FairScope::Scoped { secondary: None, .. })]. *)
Definition is_scoped_primary (s : FairScope) : bool :=
  match s with Scoped _ None => true | _ => false end.
Definition is_low_volume (s : FairScope) : bool :=
  match s with LowVolume => true | _ => false end.

Definition FairScope_from (class : FairnessClass) : FairScope :=
  match class with
  | FC_Scoped path => Scoped (fp_primary path) (fp_secondary path)
  | FC_LowVolume => LowVolume
  end.

Inductive FairVolumeMode : Type := VM_Scoped | VM_LowVolume.
#[export] Instance FairVolumeMode_eq_dec : EqDecision FairVolumeMode.
Proof. solve_decision. Defined.

(** ** Candidates, permits and rejections *)

Inductive CandidateBlock : Type :=
  | CB_Leased | CB_Missing | CB_Corrupt | CB_Oversized | CB_Poison | CB_RateLimited | CB_Capacity.

Record FairCandidateInput : Type := mkFairCandidateInput {
  fi_job_id : JobId;
  fi_fairness : FairnessClass;
  fi_priority : Priority;
  fi_cost_units : Z;
  fi_scheduled_at : Timestamp;
  fi_payload_bytes : Z;
  fi_ordering_key : option OrderingKey;
  fi_ordering_position : Z;
  fi_block : option CandidateBlock;
}.

Record FairCandidate : Type := mkFairCandidate {
  fc_job_id : JobId;
  fc_scope : FairScope;
  fc_priority : Priority;
  fc_cost_units : Z;
  fc_scheduled_at : Timestamp;
  fc_payload_bytes : Z;
  fc_ordering_key : option OrderingKey;
  fc_ordering_position : Z;
  fc_block : option CandidateBlock;
}.

Definition set_fc_scheduled_at (v : Timestamp) (x : FairCandidate) : FairCandidate :=
  mkFairCandidate (fc_job_id x) (fc_scope x) (fc_priority x) (fc_cost_units x) v (fc_payload_bytes x)
    (fc_ordering_key x) (fc_ordering_position x) (fc_block x).
Definition set_fc_block (v : option CandidateBlock) (x : FairCandidate) : FairCandidate :=
  mkFairCandidate (fc_job_id x) (fc_scope x) (fc_priority x) (fc_cost_units x) (fc_scheduled_at x)
    (fc_payload_bytes x) (fc_ordering_key x) (fc_ordering_position x) v.

Definition FairCandidate_try_from (input : FairCandidateInput) : result ValidationError FairCandidate :=
  if MAX_COST_UNITS <? fi_cost_units input
  then Err (VE_TooLong "fair candidate cost units" MAX_COST_UNITS (fi_cost_units input))
  else Ok (mkFairCandidate (fi_job_id input) (FairScope_from (fi_fairness input)) (fi_priority input)
             (fi_cost_units input) (fi_scheduled_at input) (fi_payload_bytes input) (fi_ordering_key input)
             (fi_ordering_position input) (fi_block input)).

Inductive FairCandidateState : Type :=
  | CS_Absent | CS_Scheduled | CS_Leased | CS_RetryWaiting | CS_DeadLettered | CS_Cancelled.
#[export] Instance FairCandidateState_eq_dec : EqDecision FairCandidateState.
Proof. solve_decision. Defined.

Definition has_ready_route (s : FairCandidateState) : bool :=
  match s with
  | CS_Scheduled | CS_RetryWaiting => true
  | CS_Absent | CS_Leased | CS_DeadLettered | CS_Cancelled => false
  end.
Definition is_leased (s : FairCandidateState) : bool :=
  match s with CS_Leased => true | _ => false end.

(** [FairPermitGeneration], a [NonZeroU64]. *)
Abbreviation FairPermitGeneration := Z.
Definition FairPermitGeneration_FIRST : FairPermitGeneration := 1.
Definition FairPermitGeneration_next (g : FairPermitGeneration) : option FairPermitGeneration :=
  checked_add_u64 g 1.
Definition FairPermitGeneration_from_u64 (value : Z) : option FairPermitGeneration :=
  if value =? 0 then None else Some value.

Record FairPermit : Type := mkFairPermit {
  pm_job_id : JobId;
  pm_scope : FairScope;
  pm_primary : option FairScope;
  pm_priority : Priority;
  pm_cost_units : Z;
  pm_ordering_key : option OrderingKey;
  pm_ordering_position : Z;
  pm_acquisition_generation : FairPermitGeneration;
}.

Inductive FairnessRejection : Type :=
  | FR_Blocked (block : CandidateBlock)
  | FR_PayloadCapacity
  | FR_ScopeCapacity
  | FR_RateCapacity
  | FR_LowVolumeCapacity
  | FR_OrderingHead
  | FR_PriorityDeficit
  | FR_NormalizedServiceBound
  | FR_UnknownScope
  | FR_PermitGenerationExhausted.
#[export] Instance CandidateBlock_eq_dec : EqDecision CandidateBlock.
Proof. solve_decision. Defined.
#[export] Instance FairnessRejection_eq_dec : EqDecision FairnessRejection.
Proof. solve_decision. Defined.

Inductive FairRelease : Type := RL_Complete | RL_Retry | RL_DeadLetter | RL_Cancelled | RL_Conflict.

Definition FairRelease_is_terminal (r : FairRelease) : bool :=
  match r with RL_Complete | RL_DeadLetter | RL_Cancelled => true | RL_Retry | RL_Conflict => false end.

(** ** Budgets *)

Record FairnessBudget : Type := mkFairnessBudget {
  fb_candidate_window : Z;
  fb_max_concurrency_per_scope : Z;
  fb_max_rate_per_scope : Z;
  fb_max_low_volume_service : Z;
  fb_max_payload_bytes : Z;
  fb_max_cost_units : Z;
}.

(** [FairnessBudgetInput] has the fields of the budget. *)
Definition FairnessBudget_try_new (input : FairnessBudget) : result ValidationError FairnessBudget :=
  if MAX_COST_UNITS <? fb_max_cost_units input
  then Err (VE_TooLong "fairness budget cost units" MAX_COST_UNITS (fb_max_cost_units input))
  else Ok input.

Definition FairnessBudget_tiny : FairnessBudget := mkFairnessBudget 4 1 4 1 (384 * 1024) MAX_COST_UNITS.

(** [E = C * (W + N)]. *)
Definition normalized_error_bound (b : FairnessBudget) : Z :=
  saturating_mul U64_MAX (fb_max_cost_units b)
    (saturating_add U64_MAX (fb_candidate_window b) (fb_max_concurrency_per_scope b)).

(** What the types of the fields and [try_new] guarantee. *)
Definition is_budget (b : FairnessBudget) : bool :=
  is_nonzero_u32 (fb_candidate_window b) && is_nonzero_u32 (fb_max_concurrency_per_scope b)
  && is_nonzero_u32 (fb_max_rate_per_scope b) && is_nonzero_u32 (fb_max_low_volume_service b)
  && is_nonzero_u64 (fb_max_payload_bytes b) && in_range 1 MAX_COST_UNITS (fb_max_cost_units b).

(** ** Service accounting *)

(** [normalized_service]. *)
Definition normalized_service (served_cost weight : Z) : Z :=
  saturating_mul U128_MAX served_cost NORMALIZATION_SCALE / weight.

Record ServiceAccounting : Type := mkServiceAccounting { sa_cost : Z; sa_origin : Z; sa_base_cost : Z }.
Definition ServiceAccounting_default : ServiceAccounting := mkServiceAccounting 0 0 0.

Definition sa_position (s : ServiceAccounting) (weight floor : Z) : Z :=
  Z.max (saturating_add U128_MAX (sa_origin s)
           (normalized_service (saturating_sub (sa_cost s) (sa_base_cost s)) weight)) floor.

Definition sa_align (s : ServiceAccounting) (weight floor : Z) : ServiceAccounting :=
  if sa_position s weight 0 <? floor then mkServiceAccounting (sa_cost s) floor (sa_cost s) else s.

Definition sa_reweight (s : ServiceAccounting) (previous_weight : Z) : ServiceAccounting :=
  mkServiceAccounting (sa_cost s) (sa_position s previous_weight 0) (sa_cost s).

Definition sa_cost_delta (s : ServiceAccounting) (weight cost : Z) : Z :=
  let current := saturating_sub (sa_cost s) (sa_base_cost s) in
  saturating_sub (normalized_service (saturating_add U64_MAX current cost) weight)
    (normalized_service current weight).

Definition sa_charge (s : ServiceAccounting) (cost : Z) : ServiceAccounting :=
  mkServiceAccounting (saturating_add U64_MAX (sa_cost s) cost) (sa_origin s) (sa_base_cost s).

Definition sa_undo (s : ServiceAccounting) (cost : Z) : ServiceAccounting :=
  let cost := saturating_sub (sa_cost s) cost in
  mkServiceAccounting cost (sa_origin s) (Z.min (sa_base_cost s) cost).

(** ** Priority deficit *)

Record PriorityDeficit : Type := mkPriorityDeficit {
  pd_critical_served : Z;
  pd_default_served : Z;
  pd_bulk_served : Z;
  pd_critical_window : Z;
  pd_default_window : Z;
  pd_bulk_window : Z;
  pd_cycle : Z;
}.
Definition PriorityDeficit_default : PriorityDeficit := mkPriorityDeficit 0 0 0 0 0 0 0.

Definition window_allows (d : PriorityDeficit) (priority : Priority) (cost : Z) : bool :=
  match priority with
  | Critical => saturating_add U32_MAX (pd_critical_window d) cost <=? CRITICAL_WEIGHT
  | Default => saturating_add U32_MAX (pd_default_window d) cost <=? DEFAULT_WEIGHT
  | Bulk => saturating_add U32_MAX (pd_bulk_window d) cost <=? BULK_WEIGHT
  end.

Definition pd_allows (d : PriorityDeficit) (priority : Priority) (cost : Z) (bulk_ready : bool) (bound : Z) : bool :=
  if (cost =? 0)
     || (bulk_ready && (bound <=? saturating_add U32_MAX (pd_cycle d) cost) && negb (bool_decide (priority = Bulk)))
     || negb (window_allows d priority cost)
  then false
  else match priority with
       | Critical =>
           saturating_add U64_MAX (pd_critical_served d) cost
           <=? saturating_mul U64_MAX 8 (saturating_add U64_MAX (pd_bulk_served d) 1)
       | Default =>
           saturating_add U64_MAX (pd_default_served d) cost
           <=? saturating_mul U64_MAX 4 (saturating_add U64_MAX (pd_bulk_served d) 1)
       | Bulk => true
       end.

Definition pd_charge (d : PriorityDeficit) (priority : Priority) (cost : Z) : PriorityDeficit :=
  let d :=
    match priority with
    | Critical =>
        mkPriorityDeficit (saturating_add U64_MAX (pd_critical_served d) cost) (pd_default_served d) (pd_bulk_served d)
          (saturating_add U32_MAX (pd_critical_window d) cost) (pd_default_window d) (pd_bulk_window d)
          (saturating_add U32_MAX (pd_cycle d) cost)
    | Default =>
        mkPriorityDeficit (pd_critical_served d) (saturating_add U64_MAX (pd_default_served d) cost) (pd_bulk_served d)
          (pd_critical_window d) (saturating_add U32_MAX (pd_default_window d) cost) (pd_bulk_window d)
          (saturating_add U32_MAX (pd_cycle d) cost)
    | Bulk =>
        mkPriorityDeficit (pd_critical_served d) (pd_default_served d) (saturating_add U64_MAX (pd_bulk_served d) cost)
          (pd_critical_window d) (pd_default_window d) (saturating_add U32_MAX (pd_bulk_window d) cost) 0
    end in
  if (8 <=? pd_critical_window d) && (4 <=? pd_default_window d) && (1 <=? pd_bulk_window d)
  then mkPriorityDeficit (pd_critical_served d) (pd_default_served d) (pd_bulk_served d) 0 0 0 (pd_cycle d)
  else d.

(** ** The state of a scope *)

Record ScopeState : Type := mkScopeState {
  ss_mode : FairVolumeMode;
  ss_ready_count : Z;
  ss_head : Z;
  ss_order : Z;
  ss_cost : Z;
  ss_block : option CandidateBlock;
  ss_weight : Z;
  ss_served : Z;
  ss_service : ServiceAccounting;
  ss_own_service : ServiceAccounting;
  ss_child_service_clock : Z;
  ss_in_flight : Z;
  ss_permits : Z;
  ss_rate : Z;
  ss_quiet_dwell : Z;
  ss_errors : Z;
  ss_acquisitions : Z;
  ss_releases : Z;
}.

Definition set_ss_mode (v : FairVolumeMode) (x : ScopeState) : ScopeState :=
  mkScopeState v (ss_ready_count x) (ss_head x) (ss_order x) (ss_cost x) (ss_block x) (ss_weight x) (ss_served x)
    (ss_service x) (ss_own_service x) (ss_child_service_clock x) (ss_in_flight x) (ss_permits x) (ss_rate x)
    (ss_quiet_dwell x) (ss_errors x) (ss_acquisitions x) (ss_releases x).
Definition set_ss_ready_count (v : Z) (x : ScopeState) : ScopeState :=
  mkScopeState (ss_mode x) v (ss_head x) (ss_order x) (ss_cost x) (ss_block x) (ss_weight x) (ss_served x)
    (ss_service x) (ss_own_service x) (ss_child_service_clock x) (ss_in_flight x) (ss_permits x) (ss_rate x)
    (ss_quiet_dwell x) (ss_errors x) (ss_acquisitions x) (ss_releases x).
Definition set_ss_head (v : Z) (x : ScopeState) : ScopeState :=
  mkScopeState (ss_mode x) (ss_ready_count x) v (ss_order x) (ss_cost x) (ss_block x) (ss_weight x) (ss_served x)
    (ss_service x) (ss_own_service x) (ss_child_service_clock x) (ss_in_flight x) (ss_permits x) (ss_rate x)
    (ss_quiet_dwell x) (ss_errors x) (ss_acquisitions x) (ss_releases x).
Definition set_ss_order (v : Z) (x : ScopeState) : ScopeState :=
  mkScopeState (ss_mode x) (ss_ready_count x) (ss_head x) v (ss_cost x) (ss_block x) (ss_weight x) (ss_served x)
    (ss_service x) (ss_own_service x) (ss_child_service_clock x) (ss_in_flight x) (ss_permits x) (ss_rate x)
    (ss_quiet_dwell x) (ss_errors x) (ss_acquisitions x) (ss_releases x).
Definition set_ss_cost (v : Z) (x : ScopeState) : ScopeState :=
  mkScopeState (ss_mode x) (ss_ready_count x) (ss_head x) (ss_order x) v (ss_block x) (ss_weight x) (ss_served x)
    (ss_service x) (ss_own_service x) (ss_child_service_clock x) (ss_in_flight x) (ss_permits x) (ss_rate x)
    (ss_quiet_dwell x) (ss_errors x) (ss_acquisitions x) (ss_releases x).
Definition set_ss_block (v : option CandidateBlock) (x : ScopeState) : ScopeState :=
  mkScopeState (ss_mode x) (ss_ready_count x) (ss_head x) (ss_order x) (ss_cost x) v (ss_weight x) (ss_served x)
    (ss_service x) (ss_own_service x) (ss_child_service_clock x) (ss_in_flight x) (ss_permits x) (ss_rate x)
    (ss_quiet_dwell x) (ss_errors x) (ss_acquisitions x) (ss_releases x).
Definition set_ss_served (v : Z) (x : ScopeState) : ScopeState :=
  mkScopeState (ss_mode x) (ss_ready_count x) (ss_head x) (ss_order x) (ss_cost x) (ss_block x) (ss_weight x) v
    (ss_service x) (ss_own_service x) (ss_child_service_clock x) (ss_in_flight x) (ss_permits x) (ss_rate x)
    (ss_quiet_dwell x) (ss_errors x) (ss_acquisitions x) (ss_releases x).
Definition set_ss_service (v : ServiceAccounting) (x : ScopeState) : ScopeState :=
  mkScopeState (ss_mode x) (ss_ready_count x) (ss_head x) (ss_order x) (ss_cost x) (ss_block x) (ss_weight x)
    (ss_served x) v (ss_own_service x) (ss_child_service_clock x) (ss_in_flight x) (ss_permits x) (ss_rate x)
    (ss_quiet_dwell x) (ss_errors x) (ss_acquisitions x) (ss_releases x).
Definition set_ss_own_service (v : ServiceAccounting) (x : ScopeState) : ScopeState :=
  mkScopeState (ss_mode x) (ss_ready_count x) (ss_head x) (ss_order x) (ss_cost x) (ss_block x) (ss_weight x)
    (ss_served x) (ss_service x) v (ss_child_service_clock x) (ss_in_flight x) (ss_permits x) (ss_rate x)
    (ss_quiet_dwell x) (ss_errors x) (ss_acquisitions x) (ss_releases x).
Definition set_ss_child_service_clock (v : Z) (x : ScopeState) : ScopeState :=
  mkScopeState (ss_mode x) (ss_ready_count x) (ss_head x) (ss_order x) (ss_cost x) (ss_block x) (ss_weight x)
    (ss_served x) (ss_service x) (ss_own_service x) v (ss_in_flight x) (ss_permits x) (ss_rate x) (ss_quiet_dwell x)
    (ss_errors x) (ss_acquisitions x) (ss_releases x).
Definition set_ss_rate (v : Z) (x : ScopeState) : ScopeState :=
  mkScopeState (ss_mode x) (ss_ready_count x) (ss_head x) (ss_order x) (ss_cost x) (ss_block x) (ss_weight x)
    (ss_served x) (ss_service x) (ss_own_service x) (ss_child_service_clock x) (ss_in_flight x) (ss_permits x) v
    (ss_quiet_dwell x) (ss_errors x) (ss_acquisitions x) (ss_releases x).
Definition set_ss_permits (v : Z) (x : ScopeState) : ScopeState :=
  mkScopeState (ss_mode x) (ss_ready_count x) (ss_head x) (ss_order x) (ss_cost x) (ss_block x) (ss_weight x)
    (ss_served x) (ss_service x) (ss_own_service x) (ss_child_service_clock x) (ss_in_flight x) v (ss_rate x)
    (ss_quiet_dwell x) (ss_errors x) (ss_acquisitions x) (ss_releases x).
Definition set_ss_quiet_dwell (v : Z) (x : ScopeState) : ScopeState :=
  mkScopeState (ss_mode x) (ss_ready_count x) (ss_head x) (ss_order x) (ss_cost x) (ss_block x) (ss_weight x)
    (ss_served x) (ss_service x) (ss_own_service x) (ss_child_service_clock x) (ss_in_flight x) (ss_permits x)
    (ss_rate x) v (ss_errors x) (ss_acquisitions x) (ss_releases x).
Definition set_ss_errors (v : Z) (x : ScopeState) : ScopeState :=
  mkScopeState (ss_mode x) (ss_ready_count x) (ss_head x) (ss_order x) (ss_cost x) (ss_block x) (ss_weight x)
    (ss_served x) (ss_service x) (ss_own_service x) (ss_child_service_clock x) (ss_in_flight x) (ss_permits x)
    (ss_rate x) (ss_quiet_dwell x) v (ss_acquisitions x) (ss_releases x).

Definition ScopeState_new (scope : FairScope) (cost : Z) (mode : FairVolumeMode) (budget : FairnessBudget)
    : ScopeState :=
  let initial_order := match scope with Scoped _ None | LowVolume => 1 | Scoped _ (Some _) => 0 end in
  mkScopeState mode 0 initial_order initial_order cost None 1 0 ServiceAccounting_default ServiceAccounting_default 0
    0 (fb_max_concurrency_per_scope budget) (fb_max_rate_per_scope budget) 0 0 0 0.

Definition ss_is_ready (s : ScopeState) : bool := negb (ss_ready_count s =? 0).
