(* ===== verification/FairLedger.v ===== *)
(** * The fair-dispatch ledger

    [crates/bg-jobs/src/fairness/fairness_ledger]: candidates, scopes and
    ordering keys ([state.rs]), the advisory ready index ([index.rs]), the
    capacity a permit takes and returns ([admission/capacity.rs]) and the
    lifecycle of candidates and permits ([lifecycle.rs]).  The build with
    [test-support] is modelled; it has the operations of the plain build and
    the service settlements. *)

From S2P Require Import Prelude Errors Ids Clock Policy JobRecord Ordered Fairness.

(** ** State *)

Record CandidateRecord : Type := mkCandidateRecord {
  cr_candidate : FairCandidate;
  cr_state : FairCandidateState;
  cr_service_transitions : Z;
  cr_acquisition_generation : option FairPermitGeneration;
}.

Definition set_cr_candidate (v : FairCandidate) (x : CandidateRecord) : CandidateRecord :=
  mkCandidateRecord v (cr_state x) (cr_service_transitions x) (cr_acquisition_generation x).
Definition set_cr_state (v : FairCandidateState) (x : CandidateRecord) : CandidateRecord :=
  mkCandidateRecord (cr_candidate x) v (cr_service_transitions x) (cr_acquisition_generation x).
Definition set_cr_service_transitions (v : Z) (x : CandidateRecord) : CandidateRecord :=
  mkCandidateRecord (cr_candidate x) (cr_state x) v (cr_acquisition_generation x).
Definition set_cr_acquisition_generation (v : option FairPermitGeneration) (x : CandidateRecord) : CandidateRecord :=
  mkCandidateRecord (cr_candidate x) (cr_state x) (cr_service_transitions x) v.

Definition CandidateRecord_scheduled (candidate : FairCandidate) : CandidateRecord :=
  mkCandidateRecord candidate CS_Scheduled 0 None.

Record OrderRecord : Type := mkOrderRecord {
  ord_head : Z;
  ord_owner : JobId;
  ord_in_flight : bool;
  ord_acquisitions : Z;
  ord_releases : Z;
}.

Definition OrderRecord_default : OrderRecord := mkOrderRecord 0 (replicate 16 Byte.x00) false 0 0.

Record FairnessLedger : Type := mkFairnessLedger {
  fl_budget : FairnessBudget;
  fl_scopes : gmap FairScope ScopeState;
  fl_candidates : gmap JobId CandidateRecord;
  fl_orders : gmap OrderingKey OrderRecord;
  fl_priority : PriorityDeficit;
  fl_service_clock : Z;
}.

Definition set_fl_scopes (v : gmap FairScope ScopeState) (x : FairnessLedger) : FairnessLedger :=
  mkFairnessLedger (fl_budget x) v (fl_candidates x) (fl_orders x) (fl_priority x) (fl_service_clock x).
Definition set_fl_candidates (v : gmap JobId CandidateRecord) (x : FairnessLedger) : FairnessLedger :=
  mkFairnessLedger (fl_budget x) (fl_scopes x) v (fl_orders x) (fl_priority x) (fl_service_clock x).
Definition set_fl_orders (v : gmap OrderingKey OrderRecord) (x : FairnessLedger) : FairnessLedger :=
  mkFairnessLedger (fl_budget x) (fl_scopes x) (fl_candidates x) v (fl_priority x) (fl_service_clock x).
Definition set_fl_priority (v : PriorityDeficit) (x : FairnessLedger) : FairnessLedger :=
  mkFairnessLedger (fl_budget x) (fl_scopes x) (fl_candidates x) (fl_orders x) v (fl_service_clock x).
Definition set_fl_service_clock (v : Z) (x : FairnessLedger) : FairnessLedger :=
  mkFairnessLedger (fl_budget x) (fl_scopes x) (fl_candidates x) (fl_orders x) (fl_priority x) v.

Definition FairnessLedger_new (budget : FairnessBudget) : FairnessLedger :=
  mkFairnessLedger budget ∅ ∅ ∅ PriorityDeficit_default 0.

(** [if let Some(state) = self.scopes.get_mut(scope) { .. }]. *)
Definition update_scope (f : ScopeState → ScopeState) (scope : FairScope) (l : FairnessLedger) : FairnessLedger :=
  set_fl_scopes (alter f scope (fl_scopes l)) l.
(** [if let Some(record) = self.candidates.get_mut(&job_id) { .. }]. *)
Definition update_candidate (f : CandidateRecord → CandidateRecord) (job_id : JobId) (l : FairnessLedger)
    : FairnessLedger :=
  set_fl_candidates (alter f job_id (fl_candidates l)) l.
Definition update_order (f : OrderRecord → OrderRecord) (key : OrderingKey) (l : FairnessLedger) : FairnessLedger :=
  set_fl_orders (alter f key (fl_orders l)) l.

Definition candidate_state (l : FairnessLedger) (job_id : JobId) : option FairCandidateState :=
  cr_state <$> fl_candidates l !! job_id.

(** ** The ready index *)

Inductive IndexRefresh : Type := PreserveOrder | AdvanceOrder.

Record CandidateRoute : Type := mkCandidateRoute {
  rt_scope : FairScope;
  rt_ready : bool;
  rt_ordering_position : Z;
}.

Definition CandidateRoute_from_record (r : CandidateRecord) : CandidateRoute :=
  mkCandidateRoute (fc_scope (cr_candidate r)) (has_ready_route (cr_state r)) (fc_ordering_position (cr_candidate r)).

(** [self.candidates.get(&job_id).map(CandidateRoute::from_record)]. *)
Definition route_of (l : FairnessLedger) (job_id : JobId) : option CandidateRoute :=
  CandidateRoute_from_record <$> fl_candidates l !! job_id.

Definition ensure_scope (scope : FairScope) (cost : Z) (l : FairnessLedger) : FairnessLedger :=
  let mode := match scope with LowVolume => VM_LowVolume | _ => VM_Scoped end in
  match fl_scopes l !! scope with
  | None => set_fl_scopes (<[scope := ScopeState_new scope cost mode (fl_budget l)]> (fl_scopes l)) l
  | Some state => set_fl_scopes (<[scope := set_ss_cost (Z.max (ss_cost state) cost) state]> (fl_scopes l)) l
  end.

Definition reweighted (weight : Z) (s : ScopeState) : ScopeState :=
  if ss_weight s =? weight then s
  else mkScopeState (ss_mode s) (ss_ready_count s) (ss_head s) (ss_order s) (ss_cost s) (ss_block s) weight (ss_served s)
         (sa_reweight (ss_service s) (ss_weight s)) (sa_reweight (ss_own_service s) (ss_weight s))
         (ss_child_service_clock s) (ss_in_flight s) (ss_permits s) (ss_rate s) (ss_quiet_dwell s) (ss_errors s)
         (ss_acquisitions s) (ss_releases s).

Definition set_scope_weight (scope : FairScope) (weight : Z) (l : FairnessLedger) : bool * FairnessLedger :=
  match fl_scopes l !! scope with
  | None => (false, l)
  | Some _ => (true, update_scope (reweighted weight) scope l)
  end.

Definition set_scope_mode (scope : FairScope) (mode : FairVolumeMode) (l : FairnessLedger) : bool * FairnessLedger :=
  match fl_scopes l !! scope with
  | None => (false, l)
  | Some _ => (true, update_scope (set_ss_mode mode) scope l)
  end.

Definition adjust_ready_count (scope : FairScope) (ready add : bool) (l : FairnessLedger) : FairnessLedger :=
  if ready then
    update_scope (λ s, set_ss_ready_count
      (if add then saturating_add U32_MAX (ss_ready_count s) 1 else saturating_sub (ss_ready_count s) 1) s) scope l
  else l.

Definition advance_order (position : Z) (s : ScopeState) : ScopeState :=
  let s := set_ss_order (Z.max (ss_order s) position) s in
  if (ss_head s =? 0) || (position <? ss_head s) then set_ss_head position s else s.

Definition replace_candidate_route (old new : option CandidateRoute) (refresh : IndexRefresh) (l : FairnessLedger)
    : FairnessLedger :=
  let l := match old with Some route => adjust_ready_count (rt_scope route) (rt_ready route) false l | None => l end in
  match new with
  | None => l
  | Some route =>
      let l := adjust_ready_count (rt_scope route) (rt_ready route) true l in
      match refresh with
      | AdvanceOrder =>
          if rt_ready route then update_scope (advance_order (rt_ordering_position route)) (rt_scope route) l else l
      | PreserveOrder => l
      end
  end.

Definition rebuild_ready_counts (l : FairnessLedger) : FairnessLedger :=
  let l := set_fl_scopes (set_ss_ready_count 0 <$> fl_scopes l) l in
  let ready_scopes :=
    (λ e, fc_scope (cr_candidate e.2)) <$> filter (λ e, has_ready_route (cr_state e.2) = true) (btree (fl_candidates l)) in
  foldl (λ l scope, adjust_ready_count scope true true l) l ready_scopes.

(** ** Capacity *)

Inductive ScopeCharge : Type := SC_Service | SC_ParentCapacity.
Inductive CapacityRelease : Type := CR_RestoreRate | CR_PreserveRate | CR_UndoService.

Definition release_state (max_concurrency max_rate : Z) (scope : FairScope) (release : CapacityRelease) (cost : Z)
    (charge : ScopeCharge) (s : ScopeState) : ScopeState :=
  let rate :=
    match release with
    | CR_RestoreRate | CR_UndoService => Z.min (saturating_add U32_MAX (ss_rate s) 1) max_rate
    | CR_PreserveRate => ss_rate s
    end in
  let undo := match release with CR_UndoService => true | _ => false end in
  let service_charge := match charge with SC_Service => true | SC_ParentCapacity => false end in
  mkScopeState (ss_mode s) (ss_ready_count s) (ss_head s) (ss_order s) (ss_cost s) (ss_block s) (ss_weight s)
    (if undo && service_charge then saturating_sub (ss_served s) 1 else ss_served s)
    (if undo then sa_undo (ss_service s) cost else ss_service s)
    (if undo && service_charge && is_scoped_primary scope then sa_undo (ss_own_service s) cost else ss_own_service s)
    (ss_child_service_clock s)
    (saturating_sub (ss_in_flight s) 1)
    (Z.min (saturating_add U32_MAX (ss_permits s) 1) max_concurrency)
    rate (ss_quiet_dwell s) (ss_errors s) (ss_acquisitions s) (saturating_add U64_MAX (ss_releases s) 1).

Definition release_scope (scope : FairScope) (release : CapacityRelease) (cost : Z) (charge : ScopeCharge)
    (l : FairnessLedger) : FairnessLedger :=
  update_scope (release_state (fb_max_concurrency_per_scope (fl_budget l)) (fb_max_rate_per_scope (fl_budget l))
    scope release cost charge) scope l.

Definition released_order (o : OrderRecord) : OrderRecord :=
  mkOrderRecord (ord_head o) (ord_owner o) false (ord_acquisitions o) (saturating_add U64_MAX (ord_releases o) 1).

Definition release_capacity (permit : FairPermit) (release : CapacityRelease) (l : FairnessLedger) : FairnessLedger :=
  let l := release_scope (pm_scope permit) release (pm_cost_units permit) SC_Service l in
  let l := match pm_primary permit with
           | Some primary => release_scope primary release (pm_cost_units permit) SC_ParentCapacity l
           | None => l
           end in
  match pm_ordering_key permit with
  | Some key => update_order released_order key l
  | None => l
  end.

Definition restore_reconciled_low_volume_service (permit : FairPermit) (l : FairnessLedger) : FairnessLedger :=
  if is_low_volume (pm_scope permit) then
    update_scope (λ s, set_ss_service (sa_undo (ss_service s) (pm_cost_units permit))
                         (set_ss_served (saturating_sub (ss_served s) 1) s)) (pm_scope permit) l
  else l.

(** What [FairDispatchOwner::load] does to the aggregate low-volume scope: a
    new drive starts with its outstanding reservations charged. *)
Definition restart_low_volume : FairnessLedger → FairnessLedger :=
  update_scope (λ s, set_ss_served (ss_in_flight s) s) LowVolume.

Definition acquire_state (scope : FairScope) (cost : Z) (charge : ScopeCharge) (s : ScopeState) : ScopeState :=
  let service_charge := match charge with SC_Service => true | SC_ParentCapacity => false end in
  mkScopeState (ss_mode s) (ss_ready_count s) (ss_head s) (ss_order s) (ss_cost s) (ss_block s) (ss_weight s)
    (if service_charge then saturating_add U64_MAX (ss_served s) 1 else ss_served s)
    (sa_charge (ss_service s) cost)
    (if service_charge && is_scoped_primary scope then sa_charge (ss_own_service s) cost else ss_own_service s)
    (ss_child_service_clock s)
    (saturating_add U32_MAX (ss_in_flight s) 1)
    (saturating_sub (ss_permits s) 1)
    (saturating_sub (ss_rate s) 1) (ss_quiet_dwell s) (ss_errors s)
    (saturating_add U64_MAX (ss_acquisitions s) 1) (ss_releases s).

Definition acquire_scope (scope : FairScope) (cost : Z) (charge : ScopeCharge) (l : FairnessLedger) : FairnessLedger :=
  update_scope (acquire_state scope cost charge) scope l.

Record CandidateSelection : Type := mkCandidateSelection {
  sel_job_id : JobId;
  sel_scope : FairScope;
  sel_primary : option FairScope;
  sel_priority : Priority;
  sel_cost_units : Z;
  sel_ordering_key : option OrderingKey;
  sel_ordering_position : Z;
  sel_acquisition_generation : FairPermitGeneration;
}.

Definition align_selection_service (selection : CandidateSelection) (l : FairnessLedger) : FairnessLedger :=
  if is_low_volume (sel_scope selection) then l
  else
    let primary := default (sel_scope selection) (sel_primary selection) in
    let child_floor := match fl_scopes l !! primary with Some s => ss_child_service_clock s | None => 0 end in
    let l :=
      update_scope (λ s,
        match sel_primary selection with
        | Some _ => set_ss_service (sa_align (ss_service s) (ss_weight s) child_floor) s
        | None =>
            set_ss_own_service (sa_align (ss_own_service s) (ss_weight s) child_floor)
              (set_ss_service (sa_align (ss_service s) (ss_weight s) (fl_service_clock l)) s)
        end) (sel_scope selection) l in
    match sel_primary selection with
    | Some primary =>
        update_scope (λ s, set_ss_service (sa_align (ss_service s) (ss_weight s) (fl_service_clock l)) s) primary l
    | None => l
    end.

Definition acquired_order (job_id : JobId) (o : OrderRecord) : OrderRecord :=
  mkOrderRecord (ord_head o) job_id true (saturating_add U64_MAX (ord_acquisitions o) 1) (ord_releases o).

Definition charge_selection (selection : CandidateSelection) (l : FairnessLedger) : FairnessLedger :=
  let l := align_selection_service selection l in
  let l := acquire_scope (sel_scope selection) (sel_cost_units selection) SC_Service l in
  let l := match sel_primary selection with
           | Some primary => acquire_scope primary (sel_cost_units selection) SC_ParentCapacity l
           | None => l
           end in
  match sel_ordering_key selection with
  | Some key => update_order (acquired_order (sel_job_id selection)) key l
  | None => l
  end.

(** ** Lifecycle *)

Inductive PermitSettlement : Type :=
  | PS_Outcome (release : FairRelease)
  | PS_Service (release : CapacityRelease).

Definition PermitSettlement_state (s : PermitSettlement) : FairCandidateState :=
  match s with
  | PS_Outcome (RL_Retry | RL_Conflict) | PS_Service _ => CS_RetryWaiting
  | PS_Outcome RL_DeadLetter => CS_DeadLettered
  | PS_Outcome RL_Cancelled => CS_Cancelled
  | PS_Outcome RL_Complete => CS_Absent
  end.
Definition PermitSettlement_capacity_release (s : PermitSettlement) : CapacityRelease :=
  match s with
  | PS_Outcome RL_Conflict => CR_UndoService
  | PS_Outcome _ => CR_RestoreRate
  | PS_Service release => release
  end.
Definition PermitSettlement_advances_order (s : PermitSettlement) : bool :=
  match s with PS_Outcome release => FairRelease_is_terminal release | PS_Service _ => false end.
Definition PermitSettlement_records_service (s : PermitSettlement) : bool :=
  match s with PS_Service _ => true | PS_Outcome _ => false end.

Definition register_candidate (candidate : FairCandidate) (l : FairnessLedger) : FairnessLedger :=
  let l := ensure_scope (fc_scope candidate) (fc_cost_units candidate) l in
  let l := if FairScope_is_secondary (fc_scope candidate)
           then ensure_scope (FairScope_primary_scope (fc_scope candidate)) (fc_cost_units candidate) l else l in
  match fc_ordering_key candidate with
  | Some key =>
      match fl_orders l !! key with
      | Some _ => l
      | None =>
          set_fl_orders (<[key := mkOrderRecord (fc_ordering_position candidate) (fc_job_id candidate)
            (ord_in_flight OrderRecord_default) (ord_acquisitions OrderRecord_default)
            (ord_releases OrderRecord_default)]> (fl_orders l)) l
      end
  | None => l
  end.

Definition add_candidate (input : FairCandidateInput) (l : FairnessLedger) : result ValidationError FairnessLedger :=
  candidate ← FairCandidate_try_from input;
  let job_id := fc_job_id candidate in
  match fl_candidates l !! job_id with
  | Some _ => Err (VE_InvalidValue "duplicate fair candidate")
  | None =>
      let l := register_candidate candidate l in
      let l := set_fl_candidates (<[job_id := CandidateRecord_scheduled candidate]> (fl_candidates l)) l in
      Ok (replace_candidate_route None (route_of l job_id) AdvanceOrder l)
  end.

Definition upsert_state (previous_state : option FairCandidateState) : result ValidationError FairCandidateState :=
  match previous_state with
  | None | Some (CS_Absent | CS_Scheduled) => Ok CS_Scheduled
  | Some CS_RetryWaiting => Ok CS_RetryWaiting
  | Some CS_Leased => Err (VE_InvalidValue "leased fair candidate")
  | Some (CS_DeadLettered | CS_Cancelled) => Err (VE_InvalidValue "terminal fair candidate")
  end.

Definition replace_candidate_record (job_id : JobId) (candidate : FairCandidate) (state : FairCandidateState)
    (l : FairnessLedger) : FairnessLedger :=
  match fl_candidates l !! job_id with
  | Some record =>
      set_fl_candidates (<[job_id := set_cr_state state (set_cr_candidate candidate record)]> (fl_candidates l)) l
  | None =>
      set_fl_candidates (<[job_id := set_cr_state state (CandidateRecord_scheduled candidate)]> (fl_candidates l)) l
  end.

Definition upsert_candidate (input : FairCandidateInput) (l : FairnessLedger)
    : result ValidationError FairnessLedger :=
  candidate ← FairCandidate_try_from input;
  let job_id := fc_job_id candidate in
  let previous_route := route_of l job_id in
  next_state ← upsert_state (candidate_state l job_id);
  let l := register_candidate candidate l in
  let l := replace_candidate_record job_id candidate next_state l in
  Ok (replace_candidate_route previous_route (route_of l job_id) PreserveOrder l).

Definition defer_candidate (job_id : JobId) (scheduled_at : Timestamp) (l : FairnessLedger) : FairnessLedger :=
  let old_route := route_of l job_id in
  match fl_candidates l !! job_id with
  | None => l
  | Some _ =>
      let l := update_candidate (λ r, set_cr_state CS_RetryWaiting
                 (set_cr_candidate (set_fc_scheduled_at scheduled_at (cr_candidate r)) r)) job_id l in
      replace_candidate_route old_route (route_of l job_id) PreserveOrder l
  end.

Definition permit_for_leased_record (job_id : JobId) (record : CandidateRecord) : FairPermit :=
  let candidate := cr_candidate record in
  mkFairPermit job_id (fc_scope candidate)
    (if FairScope_is_secondary (fc_scope candidate) then Some (FairScope_primary_scope (fc_scope candidate)) else None)
    (fc_priority candidate) (fc_cost_units candidate) (fc_ordering_key candidate) (fc_ordering_position candidate)
    (default FairPermitGeneration_FIRST (cr_acquisition_generation record)).

Definition apply_settlement (permit : FairPermit) (settlement : PermitSettlement) (l : FairnessLedger)
    : FairnessLedger :=
  let old_route := route_of l (pm_job_id permit) in
  let l := release_capacity permit (PermitSettlement_capacity_release settlement) l in
  let l :=
    match pm_ordering_key permit with
    | Some key =>
        if PermitSettlement_advances_order settlement
        then update_order (λ o, mkOrderRecord (saturating_add U64_MAX (pm_ordering_position permit) 1) (ord_owner o)
               (ord_in_flight o) (ord_acquisitions o) (ord_releases o)) key l
        else l
    | None => l
    end in
  let l :=
    update_candidate (λ r,
      let r := set_cr_state (PermitSettlement_state settlement) r in
      if PermitSettlement_records_service settlement
      then set_cr_service_transitions (saturating_add U64_MAX (cr_service_transitions r) (pm_cost_units permit)) r
      else r) (pm_job_id permit) l in
  replace_candidate_route old_route (route_of l (pm_job_id permit)) PreserveOrder l.

Definition remove_candidate (job_id : JobId) (l : FairnessLedger) : FairnessLedger :=
  match fl_candidates l !! job_id with
  | None => l
  | Some record =>
      if is_leased (cr_state record) then
        let permit := permit_for_leased_record job_id record in
        restore_reconciled_low_volume_service permit (apply_settlement permit (PS_Outcome RL_Complete) l)
      else
        let old_route := Some (CandidateRoute_from_record record) in
        let l := update_candidate (set_cr_state CS_Absent) job_id l in
        replace_candidate_route old_route (route_of l job_id) PreserveOrder l
  end.

Definition settle_permit (permit : FairPermit) (settlement : PermitSettlement) (l : FairnessLedger)
    : result FairnessRejection FairnessLedger :=
  match fl_candidates l !! pm_job_id permit with
  | None => Err FR_UnknownScope
  | Some record =>
      if is_leased (cr_state record)
         && bool_decide (cr_acquisition_generation record = Some (pm_acquisition_generation permit))
      then Ok (apply_settlement permit settlement l)
      else Err FR_OrderingHead
  end.

Definition release (permit : FairPermit) (release : FairRelease) (l : FairnessLedger)
    : result FairnessRejection FairnessLedger :=
  settle_permit permit (PS_Outcome release) l.

Definition settle_service (permit : FairPermit) (refill_rate : bool) (l : FairnessLedger)
    : result FairnessRejection FairnessLedger :=
  settle_permit permit (PS_Service (if refill_rate then CR_RestoreRate else CR_PreserveRate)) l.

Definition record_service_units (job_id : JobId) (units : Z) (l : FairnessLedger) : bool * FairnessLedger :=
  match fl_candidates l !! job_id with
  | None => (false, l)
  | Some _ =>
      (true, update_candidate (λ r, set_cr_service_transitions
               (saturating_add U64_MAX (cr_service_transitions r) units) r) job_id l)
  end.

Definition reconcile_leased (job_id : JobId) (scheduled_at : Timestamp) (l : FairnessLedger) : bool * FairnessLedger :=
  match fl_candidates l !! job_id with
  | None => (false, l)
  | Some record =>
      if is_leased (cr_state record) then
        let permit := permit_for_leased_record job_id record in
        let old_route := Some (CandidateRoute_from_record record) in
        let l := release_capacity permit CR_RestoreRate l in
        let l := restore_reconciled_low_volume_service permit l in
        let l := update_candidate (λ r, set_cr_acquisition_generation None (set_cr_state CS_RetryWaiting
                   (set_cr_candidate (set_fc_scheduled_at scheduled_at (cr_candidate r)) r))) job_id l in
        (true, replace_candidate_route old_route (route_of l job_id) PreserveOrder l)
      else (false, l)
  end.

Definition block (scope : FairScope) (reason : CandidateBlock) (l : FairnessLedger) : bool * FairnessLedger :=
  match fl_scopes l !! scope with
  | None => (false, l)
  | Some _ => (true, update_scope (set_ss_block (Some reason)) scope l)
  end.

Definition tick (l : FairnessLedger) : FairnessLedger :=
  set_fl_scopes ((λ s, if ss_is_ready s
                       then set_ss_quiet_dwell (saturating_add U32_MAX (ss_quiet_dwell s) 1) s else s) <$> fl_scopes l) l.

Definition refill (scope : FairScope) (l : FairnessLedger) : bool * FairnessLedger :=
  match fl_scopes l !! scope with
  | None => (false, l)
  | Some _ =>
      (true, update_scope (λ s, set_ss_permits
         (saturating_sub (fb_max_concurrency_per_scope (fl_budget l)) (ss_in_flight s))
         (set_ss_rate (fb_max_rate_per_scope (fl_budget l)) s)) scope l)
  end.

Definition reset_priority_window (l : FairnessLedger) : FairnessLedger :=
  set_fl_candidates (set_cr_service_transitions 0 <$> fl_candidates l) (set_fl_priority PriorityDeficit_default l).

(** ** Compaction *)

Definition is_terminal_or_absent (s : FairCandidateState) : bool :=
  match s with
  | CS_Absent | CS_DeadLettered | CS_Cancelled => true
  | CS_Scheduled | CS_Leased | CS_RetryWaiting => false
  end.

Definition terminal_or_absent_candidates (l : FairnessLedger) : list JobId :=
  (filter (λ e, is_terminal_or_absent (cr_state e.2) = true) (btree (fl_candidates l))).*1.

Definition compact_candidate (job_id : JobId) (l : FairnessLedger) : bool * FairnessLedger :=
  match fl_candidates l !! job_id with
  | None => (false, l)
  | Some record =>
      if is_terminal_or_absent (cr_state record) then
        let old_route := CandidateRoute_from_record record in
        let l := set_fl_candidates (delete job_id (fl_candidates l)) l in
        let l := replace_candidate_route (Some old_route) None PreserveOrder l in
        let l :=
          match fc_ordering_key (cr_candidate record) with
          | Some key =>
              if existsb (λ e, bool_decide (fc_ordering_key (cr_candidate e.2) = Some key)) (btree (fl_candidates l))
              then l else set_fl_orders (delete key (fl_orders l)) l
          | None => l
          end in
        (true, l)
      else (false, l)
  end.

Definition candidate_scopes (l : FairnessLedger) : gset FairScope :=
  list_to_set ((btree (fl_candidates l)) ≫= λ e,
    [fc_scope (cr_candidate e.2); FairScope_primary_scope (fc_scope (cr_candidate e.2))]).

Definition compact_empty_scopes (l : FairnessLedger) : FairnessLedger :=
  let kept := candidate_scopes l in
  set_fl_scopes (filter (λ e, negb (ss_in_flight e.2 =? 0) || ss_is_ready e.2 || bool_decide (e.1 ∈ kept) = true)
    (fl_scopes l)) l.
