(* ===== verification/FairSelect.v ===== *)
(** * Fair selection

    [crates/bg-jobs/src/fairness/fairness_ledger/admission/selection]: the
    snapshot of a selection pass ([preparation.rs], [state.rs]), the admission
    predicates ([admission.rs]), the settlement of a selection and the renewal
    of an exhausted priority window ([capacity.rs]), and the pass itself
    ([runner.rs]). *)

From S2P Require Import Prelude Errors Ids Clock Policy JobRecord Ordered Fairness FairLedger.

(** ** Values of a pass *)

Record SelectionMetrics : Type := mkSelectionMetrics {
  sm_primary_index : nat;
  sm_primary_service : Z;
  sm_admission_service : Z;
  sm_child_service : Z;
  sm_child_service_lag : Z;
  sm_primary_candidate_count : Z;
}.

Record CandidateFacts : Type := mkCandidateFacts {
  cf_scheduled_at : Timestamp;
  cf_priority : Priority;
  cf_cost_units : Z;
  cf_low_volume : bool;
}.

Record CandidatePreparation : Type := mkCandidatePreparation {
  cp_facts : CandidateFacts;
  cp_metrics : SelectionMetrics;
}.

Record PreparedCandidate : Type := mkPreparedCandidate {
  pc_job_id : JobId;
  pc_ready : bool;
  pc_due : bool;
  pc_preparation : result FairnessRejection CandidatePreparation;
}.

Record PrimaryStats : Type := mkPrimaryStats {
  ps_candidate_count : Z;
  ps_eligible : bool;
  ps_normalized_service : Z;
  ps_child_minimum : option Z;
}.
Definition PrimaryStats_default : PrimaryStats := mkPrimaryStats 0 false 0 None.

Record ServiceExtrema : Type := mkServiceExtrema {
  se_count : Z;
  se_min : option (nat * Z);
  se_second_min : option Z;
  se_max : option (nat * Z);
  se_second_max : option Z;
}.
Definition ServiceExtrema_default : ServiceExtrema := mkServiceExtrema 0 None None None None.

Definition ServiceExtrema_insert (primary_index : nat) (service : Z) (e : ServiceExtrema) : ServiceExtrema :=
  let '(min, second_min) :=
    match se_min e with
    | None => (Some (primary_index, service), se_second_min e)
    | Some (i, min_service) =>
        if service <? min_service then (Some (primary_index, service), Some min_service)
        else (Some (i, min_service),
              match se_second_min e with
              | None => Some service
              | Some second_min => if service <? second_min then Some service else Some second_min
              end)
    end in
  let '(max, second_max) :=
    match se_max e with
    | None => (Some (primary_index, service), se_second_max e)
    | Some (i, max_service) =>
        if max_service <? service then (Some (primary_index, service), Some max_service)
        else (Some (i, max_service),
              match se_second_max e with
              | None => Some service
              | Some second_max => if second_max <? service then Some service else Some second_max
              end)
    end in
  mkServiceExtrema (saturating_add USIZE_MAX (se_count e) 1) min second_min max second_max.

(** The extremum of the primaries other than [primary_index]. *)
Definition other_extremum (primary_index : nat) (first : option (nat * Z)) (second : option Z) : option Z :=
  match first with
  | Some (index, value) => if negb (index =? primary_index)%nat then Some value else second
  | None => None
  end.

Definition within_bound (service bound : Z) (value : option Z) : bool :=
  match value with Some value => abs_diff service value <=? bound | None => true end.

Definition ServiceExtrema_allows (e : ServiceExtrema) (primary_index : nat) (service bound : Z) : bool :=
  if se_count e <=? 1 then true
  else
    let minimum := other_extremum primary_index (se_min e) (se_second_min e) in
    let maximum := other_extremum primary_index (se_max e) (se_second_max e) in
    within_bound service bound minimum && within_bound service bound maximum.

Record SelectionPass : Type := mkSelectionPass {
  sp_candidates : list PreparedCandidate;
  sp_service_extrema : ServiceExtrema;
}.

Definition next_permit_generation (previous : option FairPermitGeneration)
    : result FairnessRejection FairPermitGeneration :=
  ok_or FR_PermitGenerationExhausted
    (match previous with None => Some FairPermitGeneration_FIRST | Some g => FairPermitGeneration_next g end).

(** ** Admission predicates *)

Definition check_scope (l : FairnessLedger) (scope : FairScope) (cost : Z) : result FairnessRejection unit :=
  match fl_scopes l !! scope with
  | None => Err FR_UnknownScope
  | Some state =>
      match ss_block state with
      | Some block => Err (FR_Blocked block)
      | None =>
          if match checked_add_u64 (sa_cost (ss_service state)) cost with Some _ => false | None => true end
             || (fb_max_concurrency_per_scope (fl_budget l) <=? ss_in_flight state)
             || (ss_permits state =? 0)
          then Err FR_ScopeCapacity
          else if ss_rate state =? 0 then Err FR_RateCapacity
          else if bool_decide (ss_mode state = VM_LowVolume)
                  && (fb_max_low_volume_service (fl_budget l) <=? ss_served state)
          then Err FR_LowVolumeCapacity
          else Ok tt
      end
  end.

Definition check_order (l : FairnessLedger) (candidate : FairCandidate) : result FairnessRejection unit :=
  match fc_ordering_key candidate with
  | None => Ok tt
  | Some key =>
      match fl_orders l !! key with
      | None => Err FR_OrderingHead
      | Some order =>
          if ord_in_flight order || negb (fc_ordering_position candidate =? ord_head order)
          then Err FR_OrderingHead else Ok tt
      end
  end.

(** [ValidatedCandidate] is the candidate with its next generation. *)
Definition validate_candidate (l : FairnessLedger) (job_id : JobId)
    : result FairnessRejection (FairCandidate * FairPermitGeneration) :=
  record ← ok_or FR_UnknownScope (fl_candidates l !! job_id);
  let candidate := cr_candidate record in
  if negb (has_ready_route (cr_state record)) then Err FR_OrderingHead
  else match fc_block candidate with
  | Some block => Err (FR_Blocked block)
  | None =>
      if fb_max_payload_bytes (fl_budget l) <? fc_payload_bytes candidate then Err FR_PayloadCapacity
      else
        generation ← next_permit_generation (cr_acquisition_generation record);
        _ ← check_scope l (fc_scope candidate) (fc_cost_units candidate);
        _ ← (if FairScope_is_secondary (fc_scope candidate)
             then check_scope l (FairScope_primary_scope (fc_scope candidate)) (fc_cost_units candidate)
             else Ok tt);
        _ ← check_order l candidate;
        Ok (candidate, generation)
  end.

Definition check_priority (l : FairnessLedger) (priority : Priority) (cost : Z) (bulk_ready : bool)
    : result FairnessRejection unit :=
  let bound := Z.min (normalized_error_bound (fl_budget l)) U32_MAX in
  if pd_allows (fl_priority l) priority cost bulk_ready bound then Ok tt else Err FR_PriorityDeficit.

Definition check_selection (l : FairnessLedger) (prepared : PreparedCandidate) (bulk_ready : bool)
    : result FairnessRejection CandidatePreparation :=
  preparation ← pc_preparation prepared;
  let facts := cp_facts preparation in
  if fb_max_cost_units (fl_budget l) <? cf_cost_units facts then Err FR_ScopeCapacity
  else
    _ ← check_priority l (cf_priority facts) (cf_cost_units facts) bulk_ready;
    Ok preparation.

Definition check_normalized_admission (l : FairnessLedger) (preparation : CandidatePreparation) (pass : SelectionPass)
    : result FairnessRejection unit :=
  if cf_low_volume (cp_facts preparation) then Ok tt
  else
    let bound := saturating_mul U128_MAX (normalized_error_bound (fl_budget l)) NORMALIZATION_SCALE in
    if ServiceExtrema_allows (sp_service_extrema pass) (sm_primary_index (cp_metrics preparation))
         (sm_admission_service (cp_metrics preparation)) bound
    then Ok tt else Err FR_NormalizedServiceBound.

Definition has_admissible_bulk (l : FairnessLedger) (pass : SelectionPass) : bool :=
  existsb (λ prepared,
    pc_ready prepared && pc_due prepared
    && match pc_preparation prepared with
       | Ok preparation =>
           bool_decide (cf_priority (cp_facts preparation) = Bulk)
           && is_ok (check_priority l (cf_priority (cp_facts preparation)) (cf_cost_units (cp_facts preparation)) true)
           && is_ok (check_normalized_admission l preparation pass)
       | Err _ => false
       end) (sp_candidates pass).

(** ** The snapshot of a pass *)

Definition primary_indices (l : FairnessLedger) : gmap FairScope nat :=
  foldl (λ indices scope,
    if negb (FairScope_is_secondary scope) then <[scope := size indices]> indices else indices)
    ∅ (btree (fl_scopes l)).*1.

Definition set_normalized_service (v : Z) (s : PrimaryStats) : PrimaryStats :=
  mkPrimaryStats (ps_candidate_count s) (ps_eligible s) v (ps_child_minimum s).

Definition prepare_primary_stats (l : FairnessLedger) (indices : gmap FairScope nat) : list PrimaryStats :=
  foldl (λ stats e,
    match fl_scopes l !! e.1 with
    | Some state =>
        alter (set_normalized_service
          (if is_low_volume e.1 then 0 else sa_position (ss_service state) (ss_weight state) (fl_service_clock l)))
          e.2 stats
    | None => stats
    end) (replicate (size indices) PrimaryStats_default) (btree indices).

Definition record_ready_candidate (candidate : FairCandidate) (ready : bool) (indices : gmap FairScope nat)
    (stats : list PrimaryStats) : list PrimaryStats :=
  if ready then
    match indices !! FairScope_primary_scope (fc_scope candidate) with
    | Some primary_index =>
        alter (λ s, mkPrimaryStats (saturating_add U32_MAX (ps_candidate_count s) 1) (ps_eligible s)
                      (ps_normalized_service s) (ps_child_minimum s)) primary_index stats
    | None => stats
    end
  else stats.

Definition candidate_service_metrics (l : FairnessLedger) (candidate : FairCandidate) (indices : gmap FairScope nat)
    (stats : list PrimaryStats) : result FairnessRejection (nat * Z * Z * Z) :=
  let scope := fc_scope candidate in
  let primary := if FairScope_is_secondary scope then FairScope_primary_scope scope else scope in
  primary_index ← ok_or FR_UnknownScope (indices !! primary);
  primary_state ← ok_or FR_UnknownScope (fl_scopes l !! primary);
  primary_service ← ok_or FR_UnknownScope (ps_normalized_service <$> stats !! primary_index);
  child_state ← ok_or FR_UnknownScope (fl_scopes l !! scope);
  let admission_service :=
    saturating_add U128_MAX
      (sa_position (ss_service primary_state) (ss_weight primary_state) (fl_service_clock l))
      (sa_cost_delta (ss_service primary_state) (ss_weight primary_state) (fc_cost_units candidate)) in
  let child_service :=
    if is_low_volume scope then 0
    else if FairScope_is_secondary scope
    then sa_position (ss_service child_state) (ss_weight child_state) (ss_child_service_clock primary_state)
    else sa_position (ss_own_service primary_state) (ss_weight primary_state) (ss_child_service_clock primary_state) in
  Ok (primary_index, primary_service, admission_service, child_service).

Definition prepare_candidate_for_pass (l : FairnessLedger) (job_id : JobId) (indices : gmap FairScope nat)
    (stats : list PrimaryStats) : result FairnessRejection CandidatePreparation :=
  '(candidate, _) ← validate_candidate l job_id;
  '(primary_index, primary_service, admission_service, child_service) ←
    candidate_service_metrics l candidate indices stats;
  Ok (mkCandidatePreparation
    (mkCandidateFacts (fc_scheduled_at candidate) (fc_priority candidate) (fc_cost_units candidate)
       (is_low_volume (fc_scope candidate)))
    (mkSelectionMetrics primary_index primary_service admission_service child_service 0 0)).

Definition mark_eligible_candidate (l : FairnessLedger) (ready due : bool)
    (selection : result FairnessRejection CandidatePreparation) (stats : list PrimaryStats) : list PrimaryStats :=
  match selection with
  | Ok preparation =>
      if ready && due && negb (cf_low_volume (cp_facts preparation))
         && (cf_cost_units (cp_facts preparation) <=? fb_max_cost_units (fl_budget l))
      then
        let service := sm_child_service (cp_metrics preparation) in
        alter (λ s, mkPrimaryStats (ps_candidate_count s) true (ps_normalized_service s)
                      (Some (match ps_child_minimum s with Some minimum => Z.min minimum service | None => service end)))
          (sm_primary_index (cp_metrics preparation)) stats
      else stats
  | Err _ => stats
  end.

Definition prepare_candidate_entry (l : FairnessLedger) (candidate : FairCandidate) (ready_route : bool)
    (now : option Timestamp) (eligible : option (gset JobId)) (indices : gmap FairScope nat)
    (stats : list PrimaryStats) : PreparedCandidate * list PrimaryStats :=
  let job_id := fc_job_id candidate in
  let in_scope := match eligible with Some ids => bool_decide (job_id ∈ ids) | None => true end in
  let ready := in_scope && ready_route in
  let stats := record_ready_candidate candidate ready indices stats in
  let due := in_scope && match now with Some now => fc_scheduled_at candidate <=? now | None => true end in
  let selection := if in_scope then prepare_candidate_for_pass l job_id indices stats else Err FR_UnknownScope in
  let stats := mark_eligible_candidate l ready due selection stats in
  (mkPreparedCandidate job_id ready due selection, stats).

Definition prepare_candidates (l : FairnessLedger) (now : option Timestamp) (eligible : option (gset JobId))
    (indices : gmap FairScope nat) (stats : list PrimaryStats) : list PreparedCandidate * list PrimaryStats :=
  foldl (λ acc e,
    let '(candidates, stats) := acc in
    let '(prepared, stats) :=
      prepare_candidate_entry l (cr_candidate e.2) (has_ready_route (cr_state e.2)) now eligible indices stats in
    (candidates ++ [prepared], stats)) ([], stats) (btree (fl_candidates l)).

Definition build_service_extrema (stats : list PrimaryStats) : ServiceExtrema :=
  foldl (λ e p, if ps_eligible p.2 then ServiceExtrema_insert p.1 (ps_normalized_service p.2) e else e)
    ServiceExtrema_default (imap (λ i s, (i, s)) stats).

Definition attach_counts (stats : list PrimaryStats) (prepared : PreparedCandidate) : PreparedCandidate :=
  match pc_preparation prepared with
  | Ok preparation =>
      let m := cp_metrics preparation in
      match stats !! sm_primary_index m with
      | Some s =>
          mkPreparedCandidate (pc_job_id prepared) (pc_ready prepared) (pc_due prepared)
            (Ok (mkCandidatePreparation (cp_facts preparation)
               (mkSelectionMetrics (sm_primary_index m) (sm_primary_service m) (sm_admission_service m)
                  (sm_child_service m)
                  (match ps_child_minimum s with
                   | Some minimum => saturating_sub (sm_child_service m) minimum
                   | None => 0
                   end)
                  (ps_candidate_count s))))
      | None => prepared
      end
  | Err _ => prepared
  end.

Definition attach_candidate_counts (candidates : list PreparedCandidate) (stats : list PrimaryStats)
    : list PreparedCandidate :=
  attach_counts stats <$> candidates.

Definition prepare_selection_pass (l : FairnessLedger) (now : option Timestamp) (eligible : option (gset JobId))
    : SelectionPass :=
  let indices := primary_indices l in
  let stats := prepare_primary_stats l indices in
  let '(candidates, stats) := prepare_candidates l now eligible indices stats in
  mkSelectionPass (attach_candidate_counts candidates stats) (build_service_extrema stats).

Definition prepare_candidate (l : FairnessLedger) (job_id : JobId) : result FairnessRejection CandidateSelection :=
  '(candidate, generation) ← validate_candidate l job_id;
  let scope := fc_scope candidate in
  Ok (mkCandidateSelection (fc_job_id candidate) scope
    (if FairScope_is_secondary scope then Some (FairScope_primary_scope scope) else None)
    (fc_priority candidate) (fc_cost_units candidate) (fc_ordering_key candidate) (fc_ordering_position candidate)
    generation).

(** ** Settlement *)

Definition lane_active (l : FairnessLedger) (pass : SelectionPass) (lane : Priority) (prepared : PreparedCandidate)
    : bool :=
  pc_ready prepared && pc_due prepared
  && match pc_preparation prepared with
     | Ok preparation =>
         (cf_cost_units (cp_facts preparation) <=? fb_max_cost_units (fl_budget l))
         && is_ok (check_normalized_admission l preparation pass)
         && bool_decide (cf_priority (cp_facts preparation) = lane)
     | Err _ => false
     end.

(** The window is renewed when every lane that can make progress used its share. *)
Definition reset_exhausted_priority_window (pass : SelectionPass) (l : FairnessLedger) : bool * FairnessLedger :=
  let active lane := existsb (lane_active l pass lane) (sp_candidates pass) in
  if negb (active Critical || active Default || active Bulk) then (false, l)
  else
    let complete :=
      (negb (active Critical) || (8 <=? pd_critical_window (fl_priority l)))
      && (negb (active Default) || (4 <=? pd_default_window (fl_priority l)))
      && (negb (active Bulk) || (1 <=? pd_bulk_window (fl_priority l))) in
    if complete then (true, reset_priority_window l) else (false, l).

Definition advance_service_clocks (selection : CandidateSelection) (preparation : CandidatePreparation)
    (pass : SelectionPass) (l : FairnessLedger) : FairnessLedger :=
  if is_low_volume (sel_scope selection) then l
  else
    let m := cp_metrics preparation in
    let child_minimum := saturating_sub (sm_child_service m) (sm_child_service_lag m) in
    let primary := default (sel_scope selection) (sel_primary selection) in
    let l := update_scope (λ s, set_ss_child_service_clock (Z.max (ss_child_service_clock s) child_minimum) s) primary l in
    match se_min (sp_service_extrema pass) with
    | Some (_, minimum) => set_fl_service_clock (Z.max (fl_service_clock l) minimum) l
    | None => l
    end.

Definition settle_selection (selection : CandidateSelection) (preparation : CandidatePreparation) (pass : SelectionPass)
    (l : FairnessLedger) : FairPermit * FairnessLedger :=
  let l := advance_service_clocks selection preparation pass l in
  let old_route := route_of l (sel_job_id selection) in
  let l := charge_selection selection l in
  let l := set_fl_priority (pd_charge (fl_priority l) (sel_priority selection) (sel_cost_units selection)) l in
  let l := update_candidate (λ r, set_cr_acquisition_generation (Some (sel_acquisition_generation selection))
             (set_cr_state CS_Leased r)) (sel_job_id selection) l in
  let l := replace_candidate_route old_route (route_of l (sel_job_id selection)) PreserveOrder l in
  (mkFairPermit (sel_job_id selection) (sel_scope selection) (sel_primary selection) (sel_priority selection)
     (sel_cost_units selection) (sel_ordering_key selection) (sel_ordering_position selection)
     (sel_acquisition_generation selection), l).

(** ** The pass *)

(** [SelectionScore]; tuples compare field by field. *)
Abbreviation SelectionScore := (Z * Z * Z * Z * Timestamp * JobId)%type.

Definition selection_score (job_id : JobId) (preparation : CandidatePreparation) : SelectionScore :=
  let m := cp_metrics preparation in
  let priority := match cf_priority (cp_facts preparation) with Critical => 0 | Default => 1 | Bulk => 2 end in
  (priority, sm_primary_service m, sm_primary_candidate_count m, sm_child_service_lag m,
   cf_scheduled_at (cp_facts preparation), job_id).

Record DueCandidateSearch : Type := mkDueCandidateSearch {
  ds_best : option (JobId * CandidatePreparation * SelectionScore);
  ds_first_rejection : option FairnessRejection;
  ds_priority_rejected : bool;
}.

(** [first_rejection.get_or_insert(reason)]. *)
Definition first_or (o : option FairnessRejection) (reason : FairnessRejection) : option FairnessRejection :=
  match o with Some r => Some r | None => Some reason end.

Definition search_step (l : FairnessLedger) (pass : SelectionPass) (bulk_ready : bool) (search : DueCandidateSearch)
    (prepared : PreparedCandidate) : DueCandidateSearch :=
  if negb (pc_ready prepared) || negb (pc_due prepared) then search
  else match check_selection l prepared bulk_ready with
  | Err reason =>
      mkDueCandidateSearch (ds_best search) (first_or (ds_first_rejection search) reason)
        (ds_priority_rejected search || bool_decide (reason = FR_PriorityDeficit))
  | Ok preparation =>
      match check_normalized_admission l preparation pass with
      | Err _ =>
          mkDueCandidateSearch (ds_best search) (first_or (ds_first_rejection search) FR_NormalizedServiceBound)
            (ds_priority_rejected search)
      | Ok _ =>
          let score := selection_score (pc_job_id prepared) preparation in
          if match ds_best search with Some (_, _, current) => key_ltb score current | None => true end
          then mkDueCandidateSearch (Some (pc_job_id prepared, preparation, score)) (ds_first_rejection search)
                 (ds_priority_rejected search)
          else search
      end
  end.

Definition find_due_candidate (l : FairnessLedger) (pass : SelectionPass) (bulk_ready : bool) : DueCandidateSearch :=
  foldl (search_step l pass bulk_ready) (mkDueCandidateSearch None None false) (sp_candidates pass).

(** The [loop] of [select_next_due_in_scope]; [None] when the fuel runs out. *)
Fixpoint select_loop (fuel : nat) (pass : SelectionPass) (bulk_ready : bool) (l : FairnessLedger)
    : option (result FairnessRejection (option FairPermit) * FairnessLedger) :=
  match fuel with
  | O => None
  | S fuel =>
      let search := find_due_candidate l pass bulk_ready in
      match ds_best search with
      | Some (best_job_id, preparation, _) =>
          match prepare_candidate l best_job_id with
          | Err reason => Some (Err reason, l)
          | Ok selection =>
              let '(permit, l) := settle_selection selection preparation pass l in Some (Ok (Some permit), l)
          end
      | None =>
          let finish := Some (match ds_first_rejection search with Some reason => Err reason | None => Ok None end, l) in
          if ds_priority_rejected search then
            let '(renewed, l) := reset_exhausted_priority_window pass l in
            if renewed then select_loop fuel pass (has_admissible_bulk l pass) l else finish
          else finish
      end
  end.

(** The loop runs at most twice. *)
Definition SELECT_FUEL : nat := 2.

Definition select_next_due_in_scope (now : Timestamp) (eligible : option (gset JobId)) (l : FairnessLedger)
    : option (result FairnessRejection (option FairPermit) * FairnessLedger) :=
  let pass := prepare_selection_pass l (Some now) eligible in
  select_loop SELECT_FUEL pass (has_admissible_bulk l pass) l.

Definition select_next_due_in (now : Timestamp) (eligible : gset JobId) (l : FairnessLedger)
    : option (result FairnessRejection (option FairPermit) * FairnessLedger) :=
  select_next_due_in_scope now (Some eligible) l.

(** [select], with the ledger it leaves. *)
Definition select (job_id : JobId) (l : FairnessLedger) : result FairnessRejection FairPermit * FairnessLedger :=
  let pass := prepare_selection_pass l None None in
  match list_find (λ c, pc_job_id c = job_id) (sp_candidates pass) with
  | None => (Err FR_UnknownScope, l)
  | Some (_, target) =>
      let '(checked, l) :=
        match check_selection l target (has_admissible_bulk l pass) with
        | Err FR_PriorityDeficit =>
            let '(renewed, l) := reset_exhausted_priority_window pass l in
            if renewed then (check_selection l target (has_admissible_bulk l pass), l) else (Err FR_PriorityDeficit, l)
        | checked => (checked, l)
        end in
      match checked with
      | Err reason => (Err reason, l)
      | Ok preparation =>
          match check_normalized_admission l preparation pass with
          | Err reason => (Err reason, l)
          | Ok _ =>
              match prepare_candidate l job_id with
              | Err reason => (Err reason, l)
              | Ok selection => let '(permit, l) := settle_selection selection preparation pass l in (Ok permit, l)
              end
          end
      end
  end.

Definition service_transition (job_id : JobId) (refill_rate : bool) (l : FairnessLedger)
    : result FairnessRejection FairPermit * FairnessLedger :=
  let '(selected, l) := select job_id l in
  match selected with
  | Err reason => (Err reason, l)
  | Ok permit =>
      match settle_service permit refill_rate l with
      | Err reason => (Err reason, l)
      | Ok l => (Ok permit, l)
      end
  end.
