(* ===== verification/FairInvariant.v ===== *)
(** * The invariant of the fair-dispatch ledger

    The counters of a scope are determined by the candidates: its ready count
    is the number of ready candidates in it, its in-flight count the number of
    leased candidates charged to it (its own and, for a primary, those of its
    children), its permits are what concurrency is left, and its service
    covers the cost of what is in flight.  A primary has been charged at least
    what its children and its own work were.  An ordering key is in flight
    exactly when one leased candidate carries it.

    [scopes_ok] is stated against a [demand], what the counters should be;
    every update of a scope changes both by the same amount, and between
    operations the demand is that of the candidates ([ledger_ok]). *)

From S2P Require Import Prelude Errors Ids Clock Policy JobRecord Ordered Fairness FairLedger FairSelect.

(** ** Types *)

Definition is_u128 : Z → bool := in_range 0 U128_MAX.

Definition is_service (s : ServiceAccounting) : bool :=
  is_u64 (sa_cost s) && is_u128 (sa_origin s) && in_range 0 (sa_cost s) (sa_base_cost s).

Definition is_scope_state (s : ScopeState) : bool :=
  is_u32 (ss_ready_count s) && is_u64 (ss_head s) && is_u64 (ss_order s) && is_nonzero_u16 (ss_cost s)
  && is_nonzero_u16 (ss_weight s) && is_u64 (ss_served s) && is_service (ss_service s) && is_service (ss_own_service s)
  && is_u128 (ss_child_service_clock s) && is_u32 (ss_in_flight s) && is_u32 (ss_permits s) && is_u32 (ss_rate s)
  && is_u32 (ss_quiet_dwell s) && is_u128 (ss_errors s) && is_u64 (ss_acquisitions s) && is_u64 (ss_releases s).

Definition is_fair_scope (s : FairScope) : bool :=
  match s with
  | Scoped p c => is_opaque MAX_FAIRNESS_KEY_BYTES p && is_option (is_opaque MAX_FAIRNESS_KEY_BYTES) c
  | LowVolume => true
  end.

Definition is_candidate (c : FairCandidate) : bool :=
  is_fixed_id (fc_job_id c) && is_fair_scope (fc_scope c) && is_nonzero_u16 (fc_cost_units c)
  && is_i64 (fc_scheduled_at c) && is_u64 (fc_payload_bytes c)
  && is_option (is_opaque MAX_ORDERING_KEY_BYTES) (fc_ordering_key c) && is_u64 (fc_ordering_position c).

Definition is_candidate_record (r : CandidateRecord) : bool :=
  is_candidate (cr_candidate r) && is_u64 (cr_service_transitions r)
  && is_option is_nonzero_u64 (cr_acquisition_generation r).

Definition is_order (o : OrderRecord) : bool :=
  is_u64 (ord_head o) && is_fixed_id (ord_owner o) && is_u64 (ord_acquisitions o) && is_u64 (ord_releases o).

Definition is_priority_deficit (d : PriorityDeficit) : bool :=
  is_u64 (pd_critical_served d) && is_u64 (pd_default_served d) && is_u64 (pd_bulk_served d)
  && is_u32 (pd_critical_window d) && is_u32 (pd_default_window d) && is_u32 (pd_bulk_window d) && is_u32 (pd_cycle d).

Ltac fair_ranges :=
  unfold is_u128, saturating_add, saturating_mul, abs_diff in *; ranges; unfold U128_MAX in *.

(** ** Arithmetic of the accounting *)

Lemma normalized_service_range c w : 0 ≤ c → 1 ≤ w → 0 ≤ normalized_service c w ≤ U128_MAX.
Proof.
  intros Hc Hw. unfold normalized_service, saturating_mul, NORMALIZATION_SCALE, U128_MAX.
  set (x := Z.min _ _). assert (0 ≤ x ≤ 2 ^ 128 - 1) by lia. split; [apply Z.div_pos; lia|].
  etrans; [apply (Z.div_le_upper_bound x w (2 ^ 128 - 1)); nia|lia].
Qed.

Lemma is_service_spec s :
  is_service s = true ↔ 0 ≤ sa_base_cost s ≤ sa_cost s ∧ sa_cost s ≤ U64_MAX ∧ 0 ≤ sa_origin s ≤ U128_MAX.
Proof. unfold is_service, is_u64, is_u128. rewrite !andb_true_iff, !in_range_spec. lia. Qed.

Lemma sa_position_range s w floor :
  is_service s = true → 1 ≤ w → 0 ≤ floor ≤ U128_MAX → 0 ≤ sa_position s w floor ≤ U128_MAX.
Proof.
  intros Hs%is_service_spec Hw Hf. unfold sa_position, saturating_add.
  pose proof (normalized_service_range (saturating_sub (sa_cost s) (sa_base_cost s)) w) as Hn.
  unfold saturating_sub in *. lia.
Qed.

Lemma sa_align_service s w floor : is_service s = true → 0 ≤ floor ≤ U128_MAX → is_service (sa_align s w floor) = true.
Proof.
  intros Hs Hf. unfold sa_align. destruct (_ <? _); [|done]. apply is_service_spec in Hs. apply is_service_spec. cbn. lia.
Qed.

Lemma sa_align_cost s w floor : sa_cost (sa_align s w floor) = sa_cost s.
Proof. unfold sa_align. by destruct (_ <? _). Qed.

Lemma sa_reweight_service s w : is_service s = true → 1 ≤ w → is_service (sa_reweight s w) = true.
Proof.
  intros Hs Hw. pose proof (sa_position_range s w 0 Hs Hw). apply is_service_spec in Hs. apply is_service_spec. cbn.
  unfold U128_MAX in *. lia.
Qed.

Lemma sa_charge_service s c :
  is_service s = true → 0 ≤ c → is_service (sa_charge s c) = true.
Proof.
  intros Hs%is_service_spec Hc. apply is_service_spec. cbn. unfold saturating_add. lia.
Qed.

Lemma sa_undo_service s c : is_service s = true → 0 ≤ c → is_service (sa_undo s c) = true.
Proof. intros Hs%is_service_spec Hc. apply is_service_spec. cbn. unfold saturating_sub. lia. Qed.

#[export] Hint Resolve sa_align_service sa_reweight_service sa_charge_service sa_undo_service : fair.

(** ** Demands *)

Definition ind (b : bool) : Z := if b then 1 else 0.

(** The scopes a candidate is charged to. *)
Definition charged (s : FairScope) (c : FairCandidate) : bool :=
  bool_decide (fc_scope c = s) || bool_decide (FairScope_primary_scope (fc_scope c) = s).

Definition ready_in (s : FairScope) (r : CandidateRecord) : Z :=
  ind (has_ready_route (cr_state r) && bool_decide (fc_scope (cr_candidate r) = s)).
Definition flight_in (s : FairScope) (r : CandidateRecord) : Z :=
  ind (is_leased (cr_state r) && charged s (cr_candidate r)).
Definition cost_in (s : FairScope) (r : CandidateRecord) : Z :=
  fc_cost_units (cr_candidate r) * flight_in s r.
Definition own_in (s : FairScope) (r : CandidateRecord) : Z :=
  fc_cost_units (cr_candidate r) * ind (is_leased (cr_state r) && bool_decide (fc_scope (cr_candidate r) = s)).
Definition key_in (k : OrderingKey) (r : CandidateRecord) : Z :=
  ind (is_leased (cr_state r) && bool_decide (fc_ordering_key (cr_candidate r) = Some k)).

Record demand : Type := mkDemand {
  dm_ready : FairScope → Z;
  dm_flight : FairScope → Z;
  dm_cost : FairScope → Z;
  dm_own : FairScope → Z;
  dm_slack : FairScope → Z;
}.

Definition add_at (s : FairScope) (x : Z) (f : FairScope → Z) : FairScope → Z :=
  λ i, f i + (if decide (i = s) then x else 0).

(** What the candidates ask of the scopes. *)
Definition demand_of (candidates : gmap JobId CandidateRecord) : demand :=
  mkDemand (λ s, map_sum (λ _, ready_in s) candidates) (λ s, map_sum (λ _, flight_in s) candidates)
    (λ s, map_sum (λ _, cost_in s) candidates) (λ s, map_sum (λ _, own_in s) candidates) (λ _, 0).

Record same_demand (d d' : demand) : Prop := {
  sd_ready s : dm_ready d s = dm_ready d' s;
  sd_flight s : dm_flight d s = dm_flight d' s;
  sd_cost s : dm_cost d s = dm_cost d' s;
  sd_own s : dm_own d s = dm_own d' s;
  sd_slack s : dm_slack d s ≤ dm_slack d' s;
}.

(** ** Scopes *)

Record scope_inv (b : FairnessBudget) (s : FairScope) (d : demand) (st : ScopeState) : Prop := {
  si_typed : is_scope_state st = true;
  si_ready : ss_ready_count st = dm_ready d s;
  si_flight : ss_in_flight st = dm_flight d s;
  si_permits : ss_permits st = fb_max_concurrency_per_scope b - dm_flight d s;
  si_rate : ss_rate st ≤ fb_max_rate_per_scope b;
  si_cost : dm_cost d s ≤ sa_cost (ss_service st);
  si_own : is_scoped_primary s = true → dm_own d s ≤ sa_cost (ss_own_service st);
  si_plain : is_scoped_primary s = false →
    ss_own_service st = ServiceAccounting_default ∧ ss_child_service_clock st = 0;
}.

(** What an entry adds to the charges of the primary [p] over its service. *)
Definition load (p s : FairScope) (st : ScopeState) : Z :=
  if FairScope_is_secondary s && bool_decide (FairScope_primary_scope s = p) then sa_cost (ss_service st)
  else if bool_decide (s = p) then sa_cost (ss_own_service st) - sa_cost (ss_service st)
  else 0.

Record scopes_ok (l : FairnessLedger) (d : demand) : Prop := {
  so_inv s st : fl_scopes l !! s = Some st → scope_inv (fl_budget l) s d st;
  so_none s : fl_scopes l !! s = None →
    dm_ready d s = 0 ∧ dm_flight d s = 0 ∧ dm_cost d s = 0 ∧ dm_own d s = 0;
  so_load p : is_scoped_primary p = true → map_sum (load p) (fl_scopes l) ≤ dm_slack d p;
  so_primary s : is_Some (fl_scopes l !! s) → is_Some (fl_scopes l !! FairScope_primary_scope s);
  so_named s : is_Some (fl_scopes l !! s) → is_fair_scope s = true;
}.

Lemma scopes_ok_same l d d' : same_demand d d' → scopes_ok l d → scopes_ok l d'.
Proof.
  intros [Hr Hf Hc Ho Hs] [Hi Hn Hl Hp Hm]. split; [| | |done|done].
  - intros s st Hst. destruct (Hi s st Hst). split; try done; by rewrite <- ?Hr, <- ?Hf, <- ?Hc, <- ?Ho.
  - intros s Hs0. rewrite <- Hr, <- Hf, <- Hc, <- Ho. auto.
  - intros p Hp'. etrans; [by apply Hl|apply Hs].
Qed.

(** Only the scopes and the budget matter. *)
Lemma scopes_ok_ledger l l' d :
  fl_scopes l' = fl_scopes l → fl_budget l' = fl_budget l → scopes_ok l d → scopes_ok l' d.
Proof. intros Hs Hb [Hi Hn Hl Hp Hm]. split; rewrite ?Hs, ?Hb; auto. Qed.

Lemma lookup_update_scope f s l i :
  fl_scopes (update_scope f s l) !! i = (if decide (s = i) then f <$> fl_scopes l !! i else fl_scopes l !! i).
Proof.
  cbn. destruct (decide (s = i)) as [->|Hne]; [by rewrite lookup_alter_eq|by rewrite lookup_alter_ne].
Qed.

Lemma update_scope_dom f s l i :
  is_Some (fl_scopes (update_scope f s l) !! i) ↔ is_Some (fl_scopes l !! i).
Proof. rewrite lookup_update_scope. destruct (decide _); [|done]. by rewrite fmap_is_Some. Qed.

(** One scope changes, with its demand. *)
Lemma scopes_update l d d' s f st :
  scopes_ok l d → fl_scopes l !! s = Some st →
  (scope_inv (fl_budget l) s d st → scope_inv (fl_budget l) s d' (f st)) →
  (∀ i, i ≠ s → dm_ready d' i = dm_ready d i ∧ dm_flight d' i = dm_flight d i ∧ dm_cost d' i = dm_cost d i
    ∧ dm_own d' i = dm_own d i) →
  (∀ p, is_scoped_primary p = true → dm_slack d p - load p s st + load p s (f st) ≤ dm_slack d' p) →
  scopes_ok (update_scope f s l) d'.
Proof.
  intros [Hi Hn Hl Hp Hm] Hst Hf Hsame Hslack. split.
  - intros i sti. rewrite lookup_update_scope. destruct (decide (s = i)) as [<-|Hne].
    + rewrite Hst. cbn. intros [= <-]. apply Hf. auto.
    + intros Hsti. destruct (Hsame i) as (E1 & E2 & E3 & E4); [congruence|].
      destruct (Hi i sti Hsti). split; rewrite ?E1, ?E2, ?E3, ?E4; done.
  - intros i. rewrite lookup_update_scope. destruct (decide (s = i)) as [<-|Hne]; [by rewrite Hst|].
    intros Hi0. destruct (Hsame i) as (-> & -> & -> & ->); [congruence|auto].
  - intros p Hp'. cbn. rewrite (map_sum_alter _ _ _ _ _ Hst). specialize (Hl p Hp'). specialize (Hslack p Hp'). lia.
  - intros i. rewrite !update_scope_dom. apply Hp.
  - intros i. rewrite update_scope_dom. apply Hm.
Qed.

(** An update that moves no counter. *)
Lemma scopes_quiet l d s f :
  scopes_ok l d →
  (∀ st, fl_scopes l !! s = Some st → scope_inv (fl_budget l) s d st → scope_inv (fl_budget l) s d (f st)) →
  (∀ st, sa_cost (ss_service (f st)) = sa_cost (ss_service st)
    ∧ sa_cost (ss_own_service (f st)) = sa_cost (ss_own_service st)) →
  scopes_ok (update_scope f s l) d.
Proof.
  intros Hok Hf Hc. destruct (fl_scopes l !! s) as [st|] eqn:Hst.
  - apply (scopes_update l d d s f st Hok Hst); [by apply Hf|done|].
    intros p _. destruct (Hc st) as [E1 E2]. unfold load. rewrite E1, E2. lia.
  - eapply scopes_ok_ledger; [| |exact Hok]; [|done]. cbn. apply map_eq. intros i.
    destruct (decide (s = i)) as [<-|]; [by rewrite lookup_alter_eq, Hst|by rewrite lookup_alter_ne].
Qed.

(** ** The demands of the updates *)

Definition ready_demand (s : FairScope) (x : Z) (d : demand) : demand :=
  mkDemand (add_at s x (dm_ready d)) (dm_flight d) (dm_cost d) (dm_own d) (dm_slack d).

(** What a charge of [x * c] to [s] does to the slack of its primary. *)
Definition slack_at (s : FairScope) (charge : ScopeCharge) (x : Z) (f : FairScope → Z) : FairScope → Z :=
  if FairScope_is_secondary s then add_at (FairScope_primary_scope s) x f
  else match charge with
       | SC_ParentCapacity => if is_scoped_primary s then add_at s (- x) f else f
       | SC_Service => f
       end.

Definition charge_demand (s : FairScope) (charge : ScopeCharge) (n c slack : Z) (d : demand) : demand :=
  mkDemand (dm_ready d) (add_at s n (dm_flight d)) (add_at s (n * c) (dm_cost d))
    (match charge with SC_Service => add_at s (n * c) (dm_own d) | SC_ParentCapacity => dm_own d end)
    (slack_at s charge slack (dm_slack d)).

Lemma add_at_eq s x f : add_at s x f s = f s + x.
Proof. unfold add_at. by rewrite decide_True. Qed.
Lemma add_at_ne s x f i : i ≠ s → add_at s x f i = f i.
Proof. intros. unfold add_at. rewrite decide_False by done. lia. Qed.

Ltac at_scope := rewrite ?add_at_eq; repeat (rewrite add_at_ne by done).

Lemma scope_state_spec st :
  is_scope_state st = true ↔
  (0 ≤ ss_ready_count st ≤ U32_MAX ∧ 0 ≤ ss_head st ≤ U64_MAX ∧ 0 ≤ ss_order st ≤ U64_MAX ∧ 1 ≤ ss_cost st ≤ U16_MAX
   ∧ 1 ≤ ss_weight st ≤ U16_MAX ∧ 0 ≤ ss_served st ≤ U64_MAX) ∧
  is_service (ss_service st) = true ∧ is_service (ss_own_service st) = true ∧
  (0 ≤ ss_child_service_clock st ≤ U128_MAX ∧ 0 ≤ ss_in_flight st ≤ U32_MAX ∧ 0 ≤ ss_permits st ≤ U32_MAX
   ∧ 0 ≤ ss_rate st ≤ U32_MAX ∧ 0 ≤ ss_quiet_dwell st ≤ U32_MAX ∧ 0 ≤ ss_errors st ≤ U128_MAX
   ∧ 0 ≤ ss_acquisitions st ≤ U64_MAX ∧ 0 ≤ ss_releases st ≤ U64_MAX).
Proof.
  unfold is_scope_state, is_u32, is_u64, is_u128, is_nonzero_u16. rewrite !andb_true_iff, !in_range_spec. tauto.
Qed.

Lemma load_secondary p s st :
  FairScope_is_secondary s = true → is_scoped_primary p = true →
  load p s st = if decide (p = FairScope_primary_scope s) then sa_cost (ss_service st) else 0.
Proof.
  intros Hs Hp. unfold load. rewrite Hs. cbn. destruct (decide _) as [->|Hne].
  - by rewrite bool_decide_true.
  - rewrite bool_decide_false by done. rewrite bool_decide_false; [done|]. intros ->. by destruct p as [? []|].
Qed.

Lemma load_plain p s st :
  FairScope_is_secondary s = false → is_scoped_primary p = true →
  load p s st = if decide (p = s) then sa_cost (ss_own_service st) - sa_cost (ss_service st) else 0.
Proof.
  intros Hs Hp. unfold load. rewrite Hs. cbn. destruct (decide _) as [->|Hne]; [by rewrite bool_decide_true|].
  by rewrite bool_decide_false by congruence.
Qed.

Lemma acquire_ok l d s c charge st :
  scopes_ok l d → is_budget (fl_budget l) = true → fl_scopes l !! s = Some st → 0 ≤ c →
  ss_permits st ≠ 0 → sa_cost (ss_service st) + c ≤ U64_MAX →
  (is_scoped_primary s = true → charge = SC_Service → sa_cost (ss_own_service st) + c ≤ U64_MAX) →
  scopes_ok (acquire_scope s c charge l) (charge_demand s charge 1 c c d).
Proof.
  intros Hok Hb Hst Hc Hperm Hcost Hown. apply (scopes_update l d _ s _ st Hok Hst).
  - intros [Ht Hr Hf Hp Hra Hco Ho Hpl]. apply scope_state_spec in Ht as (T1 & T2 & T3 & T4).
    unfold is_budget in Hb. split_andb. ranges.
    split; cbn; at_scope; try lia.
    + apply scope_state_spec. cbn. unfold saturating_add, saturating_sub, U32_MAX, U64_MAX, U128_MAX, U16_MAX in *.
      split_and!; try lia; auto with fair; try (destruct charge; lia); destruct (_ && _); auto with fair.
    + unfold saturating_add, U32_MAX. lia.
    + unfold saturating_sub. lia.
    + unfold saturating_sub. lia.
    + unfold saturating_add, U64_MAX. lia.
    + intros Hs. specialize (Ho Hs). rewrite Hs, andb_true_r. destruct charge; cbn; at_scope; [|done].
      specialize (Hown Hs eq_refl). unfold saturating_add, U64_MAX in *. lia.
    + intros Hs. rewrite Hs, andb_false_r. auto.
  - intros i Hi. cbn. at_scope. split_and!; try done. destruct charge; at_scope; done.
  - intros p Hp. cbn. unfold slack_at. destruct (FairScope_is_secondary s) eqn:Hs.
    + rewrite !load_secondary by done. unfold add_at. cbn. unfold saturating_add.
      destruct (decide _); unfold U64_MAX in *; lia.
    + rewrite !load_plain by done. unfold add_at, acquire_state. cbn [ss_service ss_own_service].
      destruct (decide (p = s)) as [->|Hne].
      * rewrite Hp, andb_true_r. destruct charge; cbn; [specialize (Hown Hp eq_refl)|rewrite decide_True by done];
          unfold saturating_add, U64_MAX in *; lia.
      * destruct charge; [lia|]. destruct (is_scoped_primary s); [rewrite decide_False by done|]; lia.
Qed.

Lemma release_ok l d s rel c charge st :
  scopes_ok l d → is_budget (fl_budget l) = true → fl_scopes l !! s = Some st → 0 ≤ c →
  1 ≤ dm_flight d s → c ≤ dm_cost d s → (charge = SC_Service → c ≤ dm_own d s) →
  scopes_ok (release_scope s rel c charge l)
    (charge_demand s charge (-1) c (match rel with CR_UndoService => - c | _ => 0 end) d).
Proof.
  intros Hok Hb Hst Hc Hfl Hdc Hdo. apply (scopes_update l d _ s _ st Hok Hst).
  - intros [Ht Hr Hf Hp Hra Hco Ho Hpl]. apply scope_state_spec in Ht as (T1 & T2 & T3 & T4).
    unfold is_budget in Hb. split_andb. ranges.
    split; cbn; at_scope; try lia.
    + apply scope_state_spec. cbn. unfold saturating_add, saturating_sub, U32_MAX, U64_MAX, U128_MAX, U16_MAX in *.
      split_and!; try lia; try (destruct rel, charge; cbn; lia); destruct rel; cbn; auto with fair;
        destruct charge; cbn; try done; destruct (is_scoped_primary s); auto with fair.
    + unfold saturating_sub. lia.
    + unfold saturating_add, U32_MAX. lia.
    + destruct rel; unfold saturating_add, U32_MAX; lia.
    + destruct rel; cbn; unfold saturating_sub; lia.
    + intros Hs. specialize (Ho Hs). rewrite Hs, andb_true_r.
      destruct charge; cbn; at_scope; [specialize (Hdo eq_refl)|]; destruct rel; cbn; unfold saturating_sub; lia.
    + intros Hs. rewrite Hs, andb_false_r. auto.
  - intros i Hi. cbn. at_scope. split_and!; try done. destruct charge; at_scope; done.
  - pose proof (so_inv _ _ Hok s st Hst) as [_ _ _ _ _ Hco Ho _].
    intros p Hp. cbn. unfold slack_at. destruct (FairScope_is_secondary s) eqn:Hs.
    + rewrite !load_secondary by done. unfold add_at. cbn.
      destruct (decide _); destruct rel; cbn; unfold saturating_sub; lia.
    + rewrite !load_plain by done. unfold add_at, release_state. cbn [ss_service ss_own_service].
      destruct (decide (p = s)) as [->|Hne].
      * specialize (Ho Hp). rewrite Hp, andb_true_r.
        destruct charge; cbn; [specialize (Hdo eq_refl)|rewrite decide_True by done]; destruct rel; cbn;
          unfold saturating_sub; lia.
      * destruct charge; [lia|]. destruct (is_scoped_primary s); [rewrite decide_False by done|]; lia.
Qed.

Lemma ready_add_ok l d s st :
  scopes_ok l d → fl_scopes l !! s = Some st → dm_ready d s < U32_MAX →
  scopes_ok (adjust_ready_count s true true l) (ready_demand s 1 d).
Proof.
  intros Hok Hst Hlt. cbn [adjust_ready_count]. apply (scopes_update l d _ s _ st Hok Hst).
  - intros [Ht Hr Hf Hp Hra Hco Ho Hpl]. split; cbn; at_scope; try done.
    + apply scope_state_spec in Ht. apply scope_state_spec. cbn. unfold saturating_add. split_and!; try tauto; lia.
    + unfold saturating_add. lia.
  - intros i Hi. cbn. by at_scope.
  - intros p Hp. change (load p s (set_ss_ready_count _ st)) with (load p s st). cbn. lia.
Qed.

Lemma ready_sub_ok l d s st :
  scopes_ok l d → fl_scopes l !! s = Some st → 1 ≤ dm_ready d s →
  scopes_ok (adjust_ready_count s true false l) (ready_demand s (-1) d).
Proof.
  intros Hok Hst Hlt. cbn [adjust_ready_count]. apply (scopes_update l d _ s _ st Hok Hst).
  - intros [Ht Hr Hf Hp Hra Hco Ho Hpl]. split; cbn; at_scope; try done.
    + apply scope_state_spec in Ht. apply scope_state_spec. cbn. unfold saturating_sub. split_and!; try tauto; lia.
    + unfold saturating_sub. lia.
  - intros i Hi. cbn. by at_scope.
  - intros p Hp. change (load p s (set_ss_ready_count _ st)) with (load p s st). cbn. lia.
Qed.

(** ** The ledger *)

Record candidate_inv (l : FairnessLedger) (j : JobId) (r : CandidateRecord) : Prop := {
  ci_typed : is_candidate_record r = true;
  ci_job : fc_job_id (cr_candidate r) = j;
  ci_scope : is_Some (fl_scopes l !! fc_scope (cr_candidate r));
  ci_order k : fc_ordering_key (cr_candidate r) = Some k → is_Some (fl_orders l !! k);
  ci_leased : is_leased (cr_state r) = true → is_Some (cr_acquisition_generation r);
}.

Record orders_ok (l : FairnessLedger) (g : OrderingKey → Z) : Prop := {
  oo_inv k o : fl_orders l !! k = Some o →
    is_order o = true ∧ is_opaque MAX_ORDERING_KEY_BYTES k = true ∧ ind (ord_in_flight o) = g k;
  oo_none k : fl_orders l !! k = None → g k = 0;
}.

Definition keys_of (candidates : gmap JobId CandidateRecord) (k : OrderingKey) : Z :=
  map_sum (λ _, key_in k) candidates.

Record ledger_ok (l : FairnessLedger) : Prop := {
  lk_budget : is_budget (fl_budget l) = true;
  lk_scopes : scopes_ok l (demand_of (fl_candidates l));
  lk_candidates j r : fl_candidates l !! j = Some r → candidate_inv l j r;
  lk_orders : orders_ok l (keys_of (fl_candidates l));
  lk_priority : is_priority_deficit (fl_priority l) = true;
  lk_clock : 0 ≤ fl_service_clock l ≤ U128_MAX;
  lk_size : Z.of_nat (size (fl_candidates l)) ≤ U32_MAX;
}.

(** ** The demand of changed candidates *)

Section demands.
Context (m : gmap JobId CandidateRecord) (j : JobId).

Lemma demand_replace r r' :
  m !! j = Some r →
  ∀ s, dm_ready (demand_of (<[j := r']> m)) s = dm_ready (demand_of m) s - ready_in s r + ready_in s r' ∧
    dm_flight (demand_of (<[j := r']> m)) s = dm_flight (demand_of m) s - flight_in s r + flight_in s r' ∧
    dm_cost (demand_of (<[j := r']> m)) s = dm_cost (demand_of m) s - cost_in s r + cost_in s r' ∧
    dm_own (demand_of (<[j := r']> m)) s = dm_own (demand_of m) s - own_in s r + own_in s r'.
Proof. intros Hj s. cbn. by rewrite !(map_sum_replace _ _ _ _ _ Hj). Qed.

Lemma demand_insert r' :
  m !! j = None →
  ∀ s, dm_ready (demand_of (<[j := r']> m)) s = ready_in s r' + dm_ready (demand_of m) s ∧
    dm_flight (demand_of (<[j := r']> m)) s = flight_in s r' + dm_flight (demand_of m) s ∧
    dm_cost (demand_of (<[j := r']> m)) s = cost_in s r' + dm_cost (demand_of m) s ∧
    dm_own (demand_of (<[j := r']> m)) s = own_in s r' + dm_own (demand_of m) s.
Proof. intros Hj s. cbn. by rewrite !map_sum_insert by done. Qed.

Lemma demand_delete r :
  m !! j = Some r →
  ∀ s, dm_ready (demand_of (delete j m)) s = dm_ready (demand_of m) s - ready_in s r ∧
    dm_flight (demand_of (delete j m)) s = dm_flight (demand_of m) s - flight_in s r ∧
    dm_cost (demand_of (delete j m)) s = dm_cost (demand_of m) s - cost_in s r ∧
    dm_own (demand_of (delete j m)) s = dm_own (demand_of m) s - own_in s r.
Proof. intros Hj s. cbn. rewrite !(map_sum_delete _ m j r Hj). lia. Qed.
End demands.

Lemma ind_range b : 0 ≤ ind b ≤ 1.
Proof. destruct b; cbn; lia. Qed.

(** A candidate is one of those counted. *)
Lemma demand_member l j r :
  ledger_ok l → fl_candidates l !! j = Some r → ∀ s,
  ready_in s r ≤ dm_ready (demand_of (fl_candidates l)) s ∧ flight_in s r ≤ dm_flight (demand_of (fl_candidates l)) s ∧
  cost_in s r ≤ dm_cost (demand_of (fl_candidates l)) s ∧ own_in s r ≤ dm_own (demand_of (fl_candidates l)) s.
Proof.
  intros Hok Hj s. assert (∀ i r', fl_candidates l !! i = Some r' → 1 ≤ fc_cost_units (cr_candidate r')) as Hcost.
  { intros i r' Hi. destruct (lk_candidates _ Hok i r' Hi) as [Ht _ _ _ _].
    unfold is_candidate_record, is_candidate in Ht. split_andb. ranges. lia. }
  cbn. split_and!; refine (map_sum_elem _ _ _ _ _ Hj); intros i r' Hi; specialize (Hcost i r' Hi);
    unfold ready_in, flight_in, cost_in, own_in; try apply ind_range.
  - pose proof (ind_range (is_leased (cr_state r') && charged s (cr_candidate r'))). unfold flight_in. nia.
  - pose proof (ind_range (is_leased (cr_state r') && bool_decide (fc_scope (cr_candidate r') = s))). nia.
Qed.

Lemma ready_bound l s : ledger_ok l → dm_ready (demand_of (fl_candidates l)) s ≤ Z.of_nat (size (fl_candidates l)).
Proof. intros _. cbn. apply map_sum_ones. intros. apply ind_range. Qed.

(** ** Routes *)

Definition route_ready (s : FairScope) (o : option CandidateRoute) : Z :=
  match o with Some route => ind (rt_ready route && bool_decide (rt_scope route = s)) | None => 0 end.

Definition route_demand (old new : option CandidateRoute) (d : demand) : demand :=
  mkDemand (λ s, dm_ready d s - route_ready s old + route_ready s new) (dm_flight d) (dm_cost d) (dm_own d) (dm_slack d).

Lemma adjust_dom s ready add l i :
  is_Some (fl_scopes (adjust_ready_count s ready add l) !! i) ↔ is_Some (fl_scopes l !! i).
Proof. unfold adjust_ready_count. destruct ready; [|done]. apply update_scope_dom. Qed.

Lemma advance_order_ok l d s p :
  scopes_ok l d → 0 ≤ p ≤ U64_MAX → scopes_ok (update_scope (advance_order p) s l) d.
Proof.
  intros Hok Hp. apply scopes_quiet; [done| |].
  - intros st _ [Ht Hr Hf Hpe Hra Hco Ho Hpl]. split; try (unfold advance_order; cbn; by destruct (_ || _)).
    apply scope_state_spec in Ht. apply scope_state_spec. unfold advance_order. cbn.
    destruct (_ || _); cbn; split_and!; try tauto; lia.
  - intros st. unfold advance_order. cbn. by destruct (_ || _).
Qed.

(** A route of a registered scope that is counted. *)
Definition counted (l : FairnessLedger) (d : demand) (o : option CandidateRoute) : Prop :=
  match o with
  | Some route => is_Some (fl_scopes l !! rt_scope route) ∧ route_ready (rt_scope route) o ≤ dm_ready d (rt_scope route)
      ∧ 0 ≤ rt_ordering_position route ≤ U64_MAX
  | None => True
  end.

Lemma route_ready_self route : route_ready (rt_scope route) (Some route) = ind (rt_ready route).
Proof. cbn. by rewrite bool_decide_true, andb_true_r. Qed.

Lemma drop_route_ok l d old :
  scopes_ok l d → counted l d old →
  scopes_ok (match old with Some route => adjust_ready_count (rt_scope route) (rt_ready route) false l | None => l end)
    (route_demand old None d).
Proof.
  intros Hok Hc. destruct old as [route|]; cbn [counted] in Hc; last first.
  { eapply scopes_ok_same; [|exact Hok]. split; intros s; cbn; lia. }
  destruct Hc as ([st Hst] & Hr & _). rewrite route_ready_self in Hr.
  destruct (rt_ready route) eqn:Hready; last first.
  { eapply scopes_ok_same; [|exact Hok]. split; intros s; cbn; rewrite ?Hready; cbn; lia. }
  eapply scopes_ok_same; [|by eapply ready_sub_ok]. split; intros s; cbn; try lia. rewrite Hready. cbn. unfold add_at.
  destruct (decide (s = rt_scope route)) as [->|Hne]; [rewrite bool_decide_true by done|rewrite bool_decide_false by done];
    cbn; lia.
Qed.

Lemma take_route_ok l d route :
  scopes_ok l d → is_Some (fl_scopes l !! rt_scope route) → dm_ready d (rt_scope route) < U32_MAX →
  scopes_ok (adjust_ready_count (rt_scope route) (rt_ready route) true l) (route_demand None (Some route) d).
Proof.
  intros Hok [st Hst] Hr. destruct (rt_ready route) eqn:Hready; last first.
  { eapply scopes_ok_same; [|exact Hok]. split; intros s; cbn; rewrite ?Hready; cbn; lia. }
  eapply scopes_ok_same; [|by eapply ready_add_ok]. split; intros s; cbn; try lia. rewrite Hready. cbn. unfold add_at.
  destruct (decide (s = rt_scope route)) as [->|Hne]; [rewrite bool_decide_true by done|rewrite bool_decide_false by done];
    cbn; lia.
Qed.

Lemma replace_route_ok l d old new refresh :
  scopes_ok l d → counted l d old →
  (∀ route, new = Some route → is_Some (fl_scopes l !! rt_scope route) ∧ 0 ≤ rt_ordering_position route ≤ U64_MAX ∧
    dm_ready d (rt_scope route) - route_ready (rt_scope route) old < U32_MAX) →
  scopes_ok (replace_candidate_route old new refresh l) (route_demand old new d).
Proof.
  intros Hok Hold Hnew. pose proof (drop_route_ok l d old Hok Hold) as H1. unfold replace_candidate_route.
  set (l1 := match old with Some route => _ | None => l end) in *.
  assert (∀ i, is_Some (fl_scopes l1 !! i) ↔ is_Some (fl_scopes l !! i)) as Hdom.
  { intros i. unfold l1. destruct old; [apply adjust_dom|done]. }
  destruct new as [route|].
  2:{ eapply scopes_ok_same; [|exact H1]. split; intros s; cbn; lia. }
  destruct (Hnew route eq_refl) as (Hs & Hp & Hlt).
  assert (scopes_ok (adjust_ready_count (rt_scope route) (rt_ready route) true l1)
    (route_demand None (Some route) (route_demand old None d))) as H2.
  { apply take_route_ok; [done|by apply Hdom|]. cbn [route_demand dm_ready]. cbn [route_ready]. lia. }
  eapply scopes_ok_same; [|].
  - instantiate (1 := route_demand None (Some route) (route_demand old None d)). split; intros s; cbn; lia.
  - destruct refresh; [done|]. destruct (rt_ready route); [|done]. by apply advance_order_ok.
Qed.

Lemma replace_route_parts old new refresh l :
  fl_candidates (replace_candidate_route old new refresh l) = fl_candidates l ∧
  fl_orders (replace_candidate_route old new refresh l) = fl_orders l ∧
  fl_budget (replace_candidate_route old new refresh l) = fl_budget l ∧
  fl_priority (replace_candidate_route old new refresh l) = fl_priority l ∧
  fl_service_clock (replace_candidate_route old new refresh l) = fl_service_clock l ∧
  ∀ i, is_Some (fl_scopes (replace_candidate_route old new refresh l) !! i) ↔ is_Some (fl_scopes l !! i).
Proof.
  unfold replace_candidate_route, adjust_ready_count.
  split_and!; try by (destruct old as [[? [] ?]|], new as [[? [] ?]|], refresh).
  intros i. destruct old as [[so [] po]|], new as [[sn [] pn]|], refresh; cbn [rt_scope rt_ready];
    rewrite ?update_scope_dom; done.
Qed.

(** ** Leases *)

Definition without (r : CandidateRecord) (d : demand) : demand :=
  mkDemand (dm_ready d) (λ s, dm_flight d s - flight_in s r) (λ s, dm_cost d s - cost_in s r)
    (λ s, dm_own d s - own_in s r) (dm_slack d).
Definition with_lease (r : CandidateRecord) (d : demand) : demand :=
  mkDemand (dm_ready d) (λ s, dm_flight d s + flight_in s r) (λ s, dm_cost d s + cost_in s r)
    (λ s, dm_own d s + own_in s r) (dm_slack d).

Lemma primary_of_plain s : FairScope_is_secondary s = false → FairScope_primary_scope s = s.
Proof. by destruct s as [p [c|]|]. Qed.
Lemma primary_of_secondary s : FairScope_is_secondary s = true → FairScope_primary_scope s ≠ s.
Proof. by destruct s as [p [c|]|]. Qed.
Lemma primary_scoped s : FairScope_is_secondary s = true → is_scoped_primary (FairScope_primary_scope s) = true.
Proof. by destruct s as [p [c|]|]. Qed.
Lemma primary_not_secondary s : FairScope_is_secondary (FairScope_primary_scope s) = false.
Proof. by destruct s as [p [c|]|]. Qed.

Lemma charged_spec s c :
  charged s c = bool_decide (s = fc_scope c) || bool_decide (s = FairScope_primary_scope (fc_scope c)).
Proof.
  unfold charged. f_equal; apply bool_decide_ext; split; congruence.
Qed.

(** Decides the scopes a goal about demands compares. *)
Ltac scopes_cases :=
  repeat match goal with
  | |- context [decide (?a = ?b)] => destruct (decide (a = b)); subst
  | |- context [bool_decide ?P] => destruct (bool_decide_reflect P); subst
  end; try congruence; cbn; try lia.

Lemma release_capacity_scopes l j r rel :
  ledger_ok l → fl_candidates l !! j = Some r → is_leased (cr_state r) = true →
  scopes_ok (release_capacity (permit_for_leased_record j r) rel l) (without r (demand_of (fl_candidates l))).
Proof.
  intros Hok Hj Hl. pose proof (lk_candidates _ Hok j r Hj) as [Ht _ [st Hst] _ _].
  pose proof (lk_scopes _ Hok) as Hs. pose proof (demand_member l j r Hok Hj) as Hm.
  assert (1 ≤ fc_cost_units (cr_candidate r)) as Hc.
  { unfold is_candidate_record, is_candidate in Ht. split_andb. ranges. lia. }
  set (s := fc_scope (cr_candidate r)) in *. set (c := fc_cost_units (cr_candidate r)) in *.
  set (d := demand_of (fl_candidates l)) in *.
  assert (flight_in s r = 1 ∧ cost_in s r = c ∧ own_in s r = c) as (F1 & F2 & F3).
  { unfold cost_in, flight_in, own_in, charged. fold s c. rewrite Hl, bool_decide_true by done. cbn. lia. }
  destruct (Hm s) as (_ & M1 & M2 & M3). rewrite F1 in M1. rewrite F2 in M2. rewrite F3 in M3.
  pose proof (release_ok l d s rel c SC_Service st Hs (lk_budget _ Hok) Hst ltac:(lia) M1 M2 (λ _, M3)) as H1.
  assert (scopes_ok (match (if FairScope_is_secondary s then Some (FairScope_primary_scope s) else None) with
                     | Some primary => release_scope primary rel c SC_ParentCapacity (release_scope s rel c SC_Service l)
                     | None => release_scope s rel c SC_Service l
                     end) (without r d)) as H2.
  { destruct (FairScope_is_secondary s) eqn:Hsec.
    - set (p := FairScope_primary_scope s). assert (p ≠ s) as Hps by by apply primary_of_secondary.
      assert (flight_in p r = 1 ∧ cost_in p r = c ∧ own_in p r = 0) as (P1 & P2 & P3).
      { unfold cost_in, flight_in, own_in, charged. fold s c p. rewrite Hl, (bool_decide_true (p = p)) by done.
        rewrite (bool_decide_false (s = p)) by congruence. cbn. lia. }
      destruct (Hm p) as (_ & N1 & N2 & _). rewrite P1 in N1. rewrite P2 in N2.
      assert (is_Some (fl_scopes (release_scope s rel c SC_Service l) !! p)) as [stp Hstp].
      { apply update_scope_dom. by apply (so_primary _ _ Hs). }
      eapply scopes_ok_same; [|eapply (release_ok _ _ p rel c SC_ParentCapacity stp H1); [apply Hok|done|lia|..]].
      + split; intros i; cbn; unfold slack_at, cost_in, flight_in, own_in; cbn; try done;
          try (rewrite charged_spec; fold s c p; rewrite Hl; unfold add_at; scopes_cases).
        * fold s c. rewrite Hl. unfold add_at. scopes_cases.
        * rewrite Hsec. unfold p. rewrite primary_not_secondary, (primary_scoped s Hsec). unfold add_at. fold p.
          destruct rel; scopes_cases.
      + cbn. rewrite add_at_ne by done. done.
      + cbn. rewrite add_at_ne by done. done.
      + done.
    - eapply scopes_ok_same; [|exact H1]. pose proof (primary_of_plain s Hsec) as Hps.
      split; intros i; cbn; unfold slack_at, cost_in, flight_in, own_in; cbn; try done;
        try (rewrite charged_spec; fold s c; rewrite Hps, Hl; unfold add_at; scopes_cases).
      + fold s c. rewrite Hl. unfold add_at. scopes_cases.
      + by rewrite Hsec. }
  unfold release_capacity. cbn [permit_for_leased_record pm_scope pm_primary pm_cost_units pm_ordering_key]. fold s c.
  destruct (fc_ordering_key (cr_candidate r)); [|done]. eapply scopes_ok_ledger; [| |exact H2]; done.
Qed.

(** ** Candidates *)

(** Everything registered in the one is registered in the other. *)
Record registers (l l' : FairnessLedger) : Prop := {
  rg_budget : fl_budget l' = fl_budget l;
  rg_scopes s : is_Some (fl_scopes l !! s) → is_Some (fl_scopes l' !! s);
  rg_orders k : is_Some (fl_orders l !! k) → is_Some (fl_orders l' !! k);
}.

#[export] Instance registers_preorder : PreOrder registers.
Proof.
  split; [by intros l; split|]. intros l1 l2 l3 [B1 S1 O1] [B2 S2 O2]. split; [congruence|auto..].
Qed.

Lemma update_scope_registers f s l : registers l (update_scope f s l).
Proof. split; [done| |done]. intros i. by rewrite update_scope_dom. Qed.

Lemma update_order_registers f k l : registers l (update_order f k l).
Proof.
  split; [done..|]. intros i. cbn. destruct (decide (k = i)) as [<-|]; [rewrite lookup_alter_eq, fmap_is_Some|rewrite lookup_alter_ne]; done.
Qed.

Lemma update_candidate_registers f j l : registers l (update_candidate f j l).
Proof. by split. Qed.

#[export] Hint Resolve update_scope_registers update_order_registers update_candidate_registers : fair.

Lemma replace_route_registers old new refresh l : registers l (replace_candidate_route old new refresh l).
Proof.
  destruct (replace_route_parts old new refresh l) as (_ & Ho & Hb & _ & _ & Hs).
  split; [done| |by rewrite Ho]. intros s. by rewrite Hs.
Qed.

Lemma candidate_inv_mono l l' j r : registers l l' → candidate_inv l j r → candidate_inv l' j r.
Proof. intros [_ Hs Ho] [H1 H2 H3 H4 H5]. split; eauto. Qed.

Lemma orders_ok_ext l l' g g' :
  fl_orders l' = fl_orders l → (∀ k, g k = g' k) → orders_ok l g → orders_ok l' g'.
Proof.
  intros Ho Hg [H1 H2]. split; rewrite Ho; intros k; rewrite <- (Hg k); auto.
Qed.

Lemma candidate_bounds l j r :
  candidate_inv l j r → 1 ≤ fc_cost_units (cr_candidate r) ≤ U16_MAX ∧ 0 ≤ fc_ordering_position (cr_candidate r) ≤ U64_MAX.
Proof.
  intros [Ht _ _ _ _]. unfold is_candidate_record, is_candidate in Ht. split_andb. unfold is_u64, is_nonzero_u16 in *.
  rewrite ?in_range_spec in *. lia.
Qed.

Lemma keys_replace (m : gmap JobId CandidateRecord) j r r' k :
  m !! j = Some r → keys_of (<[j := r']> m) k = keys_of m k - key_in k r + key_in k r'.
Proof. intros Hj. unfold keys_of. by rewrite (map_sum_replace _ _ _ _ _ Hj). Qed.

Lemma route_ready_from s r : route_ready s (Some (CandidateRoute_from_record r)) = ready_in s r.
Proof. done. Qed.

Lemma ready_others l j r s :
  ledger_ok l → fl_candidates l !! j = Some r →
  dm_ready (demand_of (fl_candidates l)) s - ready_in s r < U32_MAX.
Proof.
  intros Hok Hj. destruct (demand_delete (fl_candidates l) j r Hj s) as [<- _].
  pose proof (lk_size _ Hok) as Hsz. cbn [demand_of dm_ready].
  pose proof (map_sum_ones (λ _, ready_in s) (delete j (fl_candidates l)) (λ _ r' _, proj2 (ind_range _))) as Hones.
  rewrite map_size_delete_Some in Hones by by eexists.
  assert (size (fl_candidates l) ≠ 0%nat) by (rewrite map_size_empty_iff; intros E; by rewrite E in Hj). lia.
Qed.

(** The end of an operation that replaces the record of a candidate. *)
Lemma ledger_reroute l l1 j r r' refresh :
  ledger_ok l → fl_candidates l !! j = Some r →
  fl_candidates l1 = <[j := r']> (fl_candidates l) → registers l l1 →
  scopes_ok l1 (with_lease r' (without r (demand_of (fl_candidates l)))) →
  orders_ok l1 (λ k, keys_of (fl_candidates l) k - key_in k r + key_in k r') →
  candidate_inv l1 j r' → is_priority_deficit (fl_priority l1) = true → 0 ≤ fl_service_clock l1 ≤ U128_MAX →
  ledger_ok (replace_candidate_route (Some (CandidateRoute_from_record r)) (Some (CandidateRoute_from_record r')) refresh l1).
Proof.
  intros Hok Hj Hc Hreg Hs Ho Hr' Hp Hk.
  set (d := with_lease r' (without r (demand_of (fl_candidates l)))) in *.
  assert (scopes_ok (replace_candidate_route (Some (CandidateRoute_from_record r)) (Some (CandidateRoute_from_record r'))
    refresh l1) (route_demand (Some (CandidateRoute_from_record r)) (Some (CandidateRoute_from_record r')) d)) as Hs'.
  { apply replace_route_ok; [done| |].
    - split_and!; [|apply (demand_member l j r Hok Hj)|eapply (candidate_bounds l j r); by apply Hok..].
      apply Hreg. apply (lk_candidates _ Hok j r Hj).
    - intros route [= <-]. rewrite route_ready_from. split_and!; [apply Hr'|apply (candidate_bounds l1 j r' Hr')..|].
      by apply (ready_others l j r). }
  destruct (replace_route_parts (Some (CandidateRoute_from_record r)) (Some (CandidateRoute_from_record r')) refresh l1)
    as (Ec & Eo & Eb & Ep & Ek & _).
  pose proof (replace_route_registers (Some (CandidateRoute_from_record r)) (Some (CandidateRoute_from_record r')) refresh l1)
    as Hreg'.
  set (l2 := replace_candidate_route _ _ _ _) in *. split; rewrite ?Ec, ?Eb, ?Ep, ?Ek; try done.
  - rewrite (rg_budget _ _ Hreg). apply Hok.
  - rewrite Hc. eapply scopes_ok_same; [|exact Hs'].
    split; intros s; destruct (demand_replace (fl_candidates l) j r r' Hj s) as (D1 & D2 & D3 & D4); try done.
    all: rewrite ?D1, ?D2, ?D3, ?D4; cbn [route_demand d with_lease without dm_ready dm_flight dm_cost dm_own];
      rewrite ?route_ready_from; lia.
  - rewrite Hc. intros i ri. destruct (decide (j = i)) as [<-|Hne].
    + rewrite lookup_insert_eq. intros [= <-]. by eapply candidate_inv_mono.
    + rewrite lookup_insert_ne by done. intros Hi. eapply candidate_inv_mono; [exact Hreg'|].
      eapply candidate_inv_mono; [exact Hreg|]. by apply Hok.
  - eapply orders_ok_ext; [exact Eo| |exact Ho]. intros k. rewrite Hc. by rewrite (keys_replace _ _ r r' k Hj).
  - rewrite Hc, map_size_insert_Some by by eexists. apply Hok.
Qed.

(** The end of an operation that records a candidate. *)
Lemma ledger_record l j r refresh :
  ledger_ok l → fl_candidates l !! j = None → Z.of_nat (size (fl_candidates l)) < U32_MAX →
  is_leased (cr_state r) = false → candidate_inv l j r →
  ledger_ok (replace_candidate_route None (Some (CandidateRoute_from_record r)) refresh
    (set_fl_candidates (<[j := r]> (fl_candidates l)) l)).
Proof.
  intros Hok Hj Hsz Hl Hr. set (l1 := set_fl_candidates _ _).
  assert (scopes_ok (replace_candidate_route None (Some (CandidateRoute_from_record r)) refresh l1)
    (route_demand None (Some (CandidateRoute_from_record r)) (demand_of (fl_candidates l)))) as Hs'.
  { apply replace_route_ok; [by eapply scopes_ok_ledger; [| |apply Hok]|done|].
    intros route [= <-]. split_and!; [apply Hr|apply (candidate_bounds l j r Hr)..|].
    pose proof (ready_bound l (rt_scope (CandidateRoute_from_record r)) Hok). cbn [route_ready]. lia. }
  destruct (replace_route_parts None (Some (CandidateRoute_from_record r)) refresh l1) as (Ec & Eo & Eb & Ep & Ek & _).
  assert (registers l (replace_candidate_route None (Some (CandidateRoute_from_record r)) refresh l1)) as Hreg'.
  { etrans; [|apply replace_route_registers]. by split. }
  set (l2 := replace_candidate_route _ _ _ _) in *. split; rewrite ?Ec, ?Eb, ?Ep, ?Ek; try apply Hok.
  - eapply scopes_ok_same; [|exact Hs'].
    split; intros s; destruct (demand_insert (fl_candidates l) j r Hj s) as (D1 & D2 & D3 & D4); try done.
    all: cbn [l1 set_fl_candidates fl_candidates]; rewrite ?D1, ?D2, ?D3, ?D4;
      cbn [route_demand dm_ready dm_flight dm_cost dm_own]; rewrite ?route_ready_from; unfold cost_in, flight_in, own_in;
      rewrite ?Hl; cbn [route_ready andb ind]; lia.
  - cbn. intros i ri. destruct (decide (j = i)) as [<-|Hne].
    + rewrite lookup_insert_eq. intros [= <-]. by eapply candidate_inv_mono.
    + rewrite lookup_insert_ne by done. intros Hi. eapply candidate_inv_mono; [exact Hreg'|]. by apply Hok.
  - eapply (orders_ok_ext l); [exact Eo| |apply Hok]. intros k. unfold keys_of. cbn [l1 set_fl_candidates fl_candidates].
    rewrite map_sum_insert by done. unfold key_in. by rewrite Hl.
  - cbn. rewrite map_size_insert_None by done. lia.
Qed.
