(* ===== verification/FairSteps.v ===== *)
(** * The operations of the fair-dispatch ledger keep its invariant

    Registration, settlement, reconciliation, the updates of scopes and of the
    priority window, compaction and the selections of [FairSelect]: each keeps
    [ledger_ok].  Rebuilding the ready index from the candidates changes
    nothing. *)

From S2P Require Import Prelude Errors Ids Clock Policy JobRecord Ordered Fairness FairLedger FairSelect FairInvariant.

(** ** Settlements *)

Lemma keys_member l j r k :
  ledger_ok l → fl_candidates l !! j = Some r → 0 ≤ key_in k r ≤ keys_of (fl_candidates l) k.
Proof.
  intros _ Hj. split; [apply ind_range|].
  exact (map_sum_elem (λ _, key_in k) _ _ _ (λ _ _ _, proj1 (ind_range _)) Hj).
Qed.

Lemma not_leased_demand r :
  is_leased (cr_state r) = false → ∀ s k, flight_in s r = 0 ∧ cost_in s r = 0 ∧ own_in s r = 0 ∧ key_in k r = 0.
Proof. intros Hl s k. unfold cost_in, flight_in, own_in, key_in. rewrite Hl. cbn. lia. Qed.

(** A record that is not leased adds nothing. *)
Lemma with_lease_none r d : is_leased (cr_state r) = false → same_demand d (with_lease r d).
Proof. intros Hl. split; intros s; destruct (not_leased_demand r Hl s []) as (E1 & E2 & E3 & _); cbn; lia. Qed.
Lemma without_none r d : is_leased (cr_state r) = false → same_demand d (without r d).
Proof. intros Hl. split; intros s; destruct (not_leased_demand r Hl s []) as (E1 & E2 & E3 & _); cbn; lia. Qed.

(** An update of one ordering key. *)
Lemma orders_update l g g' k f :
  orders_ok l g →
  (∀ o, fl_orders l !! k = Some o → is_order o = true → ind (ord_in_flight o) = g k →
    is_order (f o) = true ∧ ind (ord_in_flight (f o)) = g' k) →
  (fl_orders l !! k = None → g' k = 0) →
  (∀ i, i ≠ k → g' i = g i) →
  orders_ok (update_order f k l) g'.
Proof.
  intros [Hi Hn] Hf Hk Hg. split; intros i; cbn; (destruct (decide (k = i)) as [<-|Hne]; [rewrite lookup_alter_eq|rewrite lookup_alter_ne by done]).
  - intros o. destruct (fl_orders l !! k) as [o'|] eqn:Ho; [|done]. intros [= <-]. destruct (Hi k o' Ho) as (T1 & T2 & T3).
    destruct (Hf o' eq_refl T1 T3). done.
  - intros o Ho. rewrite Hg by congruence. auto.
  - destruct (fl_orders l !! k) eqn:Ho; [done|auto].
  - intros Ho. rewrite Hg by congruence. auto.
Qed.

Lemma order_spec o :
  is_order o = true ↔ 0 ≤ ord_head o ≤ U64_MAX ∧ is_fixed_id (ord_owner o) = true ∧ 0 ≤ ord_acquisitions o ≤ U64_MAX
    ∧ 0 ≤ ord_releases o ≤ U64_MAX.
Proof. unfold is_order, is_u64. rewrite !andb_true_iff, !in_range_spec. tauto. Qed.

Lemma release_capacity_orders l j r rel :
  ledger_ok l → fl_candidates l !! j = Some r → is_leased (cr_state r) = true →
  orders_ok (release_capacity (permit_for_leased_record j r) rel l) (λ k, keys_of (fl_candidates l) k - key_in k r).
Proof.
  intros Hok Hj Hl. unfold release_capacity. cbn [permit_for_leased_record pm_ordering_key].
  set (l1 := match pm_primary _ with Some _ => _ | None => _ end).
  assert (fl_orders l1 = fl_orders l) as E1 by (unfold l1; by destruct (pm_primary _)).
  assert (orders_ok l1 (keys_of (fl_candidates l))) as H1 by (eapply orders_ok_ext; [exact E1|done|apply Hok]).
  destruct (fc_ordering_key (cr_candidate r)) as [k|] eqn:Hk.
  - apply (orders_update l1 _ _ k _ H1); unfold key_in; rewrite Hl.
    + intros o _ Ho Hf. pose proof (keys_member l j r k Hok Hj) as Hm. unfold key_in in Hm. rewrite Hl, Hk in Hm.
      rewrite Hk, bool_decide_true in * by done. cbn in *. pose proof (ind_range (ord_in_flight o)).
      apply order_spec in Ho as (T1 & T2 & T3 & T4).
      split; [apply order_spec; cbn; unfold saturating_add, U64_MAX in *; split_and!; try done; lia|cbn; lia].
    + intros Ho. rewrite (oo_none _ _ H1 k Ho), Hk, bool_decide_true by done.
      destruct (ci_order _ _ _ (lk_candidates _ Hok j r Hj) k Hk) as [o Ho']. congruence.
    + intros i Hi. rewrite Hk, bool_decide_false by congruence. cbn. lia.
  - eapply orders_ok_ext; [| |exact H1]; [done|]. intros k. unfold key_in. rewrite Hl, Hk, bool_decide_false by done. cbn. lia.
Qed.

Lemma release_capacity_parts p rel l :
  fl_candidates (release_capacity p rel l) = fl_candidates l ∧ fl_priority (release_capacity p rel l) = fl_priority l ∧
  fl_service_clock (release_capacity p rel l) = fl_service_clock l ∧ registers l (release_capacity p rel l).
Proof.
  unfold release_capacity, release_scope. split_and!; try by destruct (pm_primary p), (pm_ordering_key p).
  destruct (pm_primary p), (pm_ordering_key p);
    repeat (first [apply update_scope_registers | etrans; [|first [apply update_order_registers | apply update_scope_registers]]]).
Qed.

(** On the scope a low-volume permit takes, restoring the service after a
    release is releasing with the service undone. *)
Lemma restore_is_undo j r l :
  let p := permit_for_leased_record j r in
  restore_reconciled_low_volume_service p (release_capacity p CR_RestoreRate l) =
  release_capacity p (if is_low_volume (pm_scope p) then CR_UndoService else CR_RestoreRate) l.
Proof.
  cbn zeta. unfold restore_reconciled_low_volume_service, release_capacity. cbn [permit_for_leased_record pm_scope pm_primary pm_cost_units pm_ordering_key].
  destruct (fc_scope (cr_candidate r)) as [p c|]; cbn [is_low_volume FairScope_is_secondary]; [done|].
  unfold release_scope, update_scope, update_order, set_fl_scopes, set_fl_orders.
  destruct (fc_ordering_key (cr_candidate r)); cbn; f_equal; apply map_eq; intros i;
    (destruct (decide (i = LowVolume)) as [->|]; [|by rewrite !lookup_alter_ne by done]); rewrite !lookup_alter_eq;
    by destruct (fl_scopes l !! LowVolume).
Qed.

(** The record of a leased candidate is replaced by one that is not, its
    permit released. *)
Lemma settle_ok l l1 j r r' rel :
  ledger_ok l → fl_candidates l !! j = Some r → is_leased (cr_state r) = true → is_leased (cr_state r') = false →
  fl_candidates l1 = <[j := r']> (fl_candidates l) →
  fl_scopes l1 = fl_scopes (release_capacity (permit_for_leased_record j r) rel l) → fl_budget l1 = fl_budget l →
  fl_priority l1 = fl_priority l → fl_service_clock l1 = fl_service_clock l →
  (∀ k, is_Some (fl_orders l !! k) → is_Some (fl_orders l1 !! k)) →
  orders_ok l1 (λ k, keys_of (fl_candidates l) k - key_in k r) →
  candidate_inv l j r' →
  ledger_ok (replace_candidate_route (Some (CandidateRoute_from_record r)) (Some (CandidateRoute_from_record r')) PreserveOrder l1).
Proof.
  intros Hok Hj Hl Hl' Hc Hs Hb Hp Hk Hdom Ho Hr'.
  destruct (release_capacity_parts (permit_for_leased_record j r) rel l) as (_ & _ & _ & Hreg).
  assert (registers l l1) as Hreg1.
  { split; [done| |done]. intros s. rewrite Hs. apply Hreg. }
  apply (ledger_reroute l l1 j r r'); try done.
  - eapply scopes_ok_same; [by apply with_lease_none|]. eapply scopes_ok_ledger; [exact Hs| |by apply release_capacity_scopes].
    rewrite Hb. symmetry. apply Hreg.
  - eapply orders_ok_ext; [done| |exact Ho]. intros k. destruct (not_leased_demand r' Hl' LowVolume k) as (_ & _ & _ & E). cbn. lia.
  - by eapply candidate_inv_mono.
  - rewrite Hp. apply Hok.
  - rewrite Hk. apply Hok.
Qed.

Lemma alter_is_insert {A} (f : A → A) (j : JobId) (m : gmap JobId A) a : m !! j = Some a → alter f j m = <[j := f a]> m.
Proof.
  intros Hj. apply map_eq. intros i. destruct (decide (j = i)) as [<-|].
  - by rewrite lookup_alter_eq, lookup_insert_eq, Hj.
  - by rewrite lookup_alter_ne, lookup_insert_ne.
Qed.

Lemma route_after_update f j l r :
  fl_candidates l !! j = Some r → route_of (update_candidate f j l) j = Some (CandidateRoute_from_record (f r)).
Proof. intros Hj. unfold route_of. cbn. by rewrite lookup_alter_eq, Hj. Qed.

Lemma route_of_record l j r : fl_candidates l !! j = Some r → route_of l j = Some (CandidateRoute_from_record r).
Proof. intros Hj. unfold route_of. by rewrite Hj. Qed.

(** The records the operations leave. *)
Definition settled_record (permit : FairPermit) (settlement : PermitSettlement) (r : CandidateRecord) : CandidateRecord :=
  let r := set_cr_state (PermitSettlement_state settlement) r in
  if PermitSettlement_records_service settlement
  then set_cr_service_transitions (saturating_add U64_MAX (cr_service_transitions r) (pm_cost_units permit)) r
  else r.

Lemma settlement_not_leased s : is_leased (PermitSettlement_state s) = false.
Proof. by destruct s as [[]|]. Qed.

Lemma record_spec r :
  is_candidate_record r = true ↔ is_candidate (cr_candidate r) = true ∧ 0 ≤ cr_service_transitions r ≤ U64_MAX
    ∧ is_option is_nonzero_u64 (cr_acquisition_generation r) = true.
Proof. unfold is_candidate_record, is_u64. rewrite !andb_true_iff, in_range_spec. tauto. Qed.

Lemma settled_inv l j r p s :
  candidate_inv l j r → 0 ≤ pm_cost_units p → candidate_inv l j (settled_record p s r).
Proof.
  intros [Ht Hjob Hs Ho Hl] Hc. apply record_spec in Ht as (T1 & T2 & T3). unfold settled_record.
  split; [apply record_spec|..]; destruct (PermitSettlement_records_service s); cbn; try done;
    rewrite ?settlement_not_leased; try done; split_and!; try done; unfold saturating_add, U64_MAX in *; lia.
Qed.

(** [apply_settlement] after the release of the capacity. *)
Lemma settlement_ok l j r rel s :
  ledger_ok l → fl_candidates l !! j = Some r → is_leased (cr_state r) = true →
  let p := permit_for_leased_record j r in
  let l1 := release_capacity p rel l in
  let l2 := match pm_ordering_key p with
    | Some key =>
        if PermitSettlement_advances_order s
        then update_order (λ o, mkOrderRecord (saturating_add U64_MAX (pm_ordering_position p) 1) (ord_owner o)
               (ord_in_flight o) (ord_acquisitions o) (ord_releases o)) key l1
        else l1
    | None => l1
    end in
  let l3 := update_candidate (settled_record p s) j l2 in
  ledger_ok (replace_candidate_route (route_of l j) (route_of l3 j) PreserveOrder l3).
Proof.
  intros Hok Hj Hl p l1 l2 l3. pose proof (lk_candidates _ Hok j r Hj) as Hr.
  destruct (candidate_bounds l j r Hr) as [Hcost Hpos].
  destruct (release_capacity_parts p rel l) as (Ec & Ep & Ek & Hreg). fold l1 in Ec, Ep, Ek, Hreg.
  pose proof (release_capacity_orders l j r rel Hok Hj Hl) as Ho. fold p in Ho. fold l1 in Ho.
  assert (fl_candidates l2 = fl_candidates l ∧ fl_scopes l2 = fl_scopes l1 ∧ fl_budget l2 = fl_budget l1 ∧
    fl_priority l2 = fl_priority l ∧ fl_service_clock l2 = fl_service_clock l) as (E1 & E2 & E3 & E4 & E5).
  { unfold l2. destruct (pm_ordering_key p); [destruct (PermitSettlement_advances_order s)|]; cbn; done. }
  assert (fl_candidates l2 !! j = Some r) as Hj2 by by rewrite E1.
  unfold l3. rewrite (route_after_update _ _ _ r Hj2), (route_of_record l j r Hj).
  eapply (settle_ok l _ j r _ rel); try done.
  - unfold settled_record. destruct (PermitSettlement_records_service s); apply settlement_not_leased.
  - cbn. rewrite (alter_is_insert _ _ _ r Hj2). by rewrite E1.
  - cbn. rewrite E3. apply Hreg.
  - intros k Hk. apply (rg_orders _ _ Hreg) in Hk. cbn. unfold l2.
    destruct (pm_ordering_key p) as [key|]; [destruct (PermitSettlement_advances_order s)|]; [|done..].
    by apply (rg_orders _ _ (update_order_registers _ _ _)).
  - eapply (orders_ok_ext l2); [reflexivity|reflexivity|]. unfold l2.
    destruct (pm_ordering_key p) as [key|]; [destruct (PermitSettlement_advances_order s)|]; [|done..].
    eapply (orders_update _ _ _ key _ Ho); [|apply Ho|done]. intros o _ [T1 [T2 [T3 T4]]]%order_spec Hf.
    split; [|done]. apply order_spec. cbn. split_and!; try done; try lia; unfold saturating_add, U64_MAX in *; cbn in *; lia.
  - apply settled_inv; [done|]. cbn. lia.
Qed.

Lemma apply_settlement_ok l j r s :
  ledger_ok l → fl_candidates l !! j = Some r → is_leased (cr_state r) = true →
  ledger_ok (apply_settlement (permit_for_leased_record j r) s l).
Proof. apply settlement_ok. Qed.

Lemma settle_permit_ok l p s l' :
  ledger_ok l →
  (∀ r, fl_candidates l !! pm_job_id p = Some r → is_leased (cr_state r) = true →
    cr_acquisition_generation r = Some (pm_acquisition_generation p) → p = permit_for_leased_record (pm_job_id p) r) →
  settle_permit p s l = Ok l' → ledger_ok l'.
Proof.
  unfold settle_permit. intros Hok Hp. destruct (fl_candidates l !! pm_job_id p) as [r|] eqn:Hj; [|done].
  destruct (is_leased (cr_state r)) eqn:Hl; [|done]. destruct (bool_decide_reflect (cr_acquisition_generation r = Some (pm_acquisition_generation p))) as [Hg|]; [|done].
  cbn [andb]. intros [= <-]. rewrite (Hp r eq_refl Hl Hg). by apply apply_settlement_ok.
Qed.

Lemma update_scope_comm (f g : ScopeState → ScopeState) a b l :
  (∀ s, f (g s) = g (f s)) → update_scope f a (update_scope g b l) = update_scope g b (update_scope f a l).
Proof.
  intros Hfg. unfold update_scope, set_fl_scopes. cbn. f_equal. destruct (decide (a = b)) as [<-|Hab].
  - apply map_eq. intros i.
    destruct (decide (i = a)) as [->|]; [rewrite !lookup_alter_eq|by rewrite !lookup_alter_ne].
    destruct (fl_scopes l !! a); cbn; [by rewrite Hfg|done].
  - apply map_eq. intros i. destruct (decide (a = i)) as [Ha|Ha], (decide (b = i)) as [Hb|Hb];
      [congruence|try subst a; try subst b; rewrite ?lookup_alter_eq, ?lookup_alter_ne, ?lookup_alter_eq, ?lookup_alter_ne by done; done..].
Qed.

Lemma restore_after_route p o n l :
  restore_reconciled_low_volume_service p (replace_candidate_route o n PreserveOrder l) =
  replace_candidate_route o n PreserveOrder (restore_reconciled_low_volume_service p l).
Proof.
  assert (∀ s ready add l, restore_reconciled_low_volume_service p (adjust_ready_count s ready add l) =
    adjust_ready_count s ready add (restore_reconciled_low_volume_service p l)) as Hadj.
  { intros s ready add l'. unfold restore_reconciled_low_volume_service, adjust_ready_count.
    destruct (is_low_volume (pm_scope p)), ready; [|done..]. apply update_scope_comm. done. }
  unfold replace_candidate_route. destruct o as [ro|], n as [rn|]; rewrite ?Hadj; done.
Qed.

(** A record that is not leased is replaced by one that is not. *)
Lemma plain_reroute l j r r' refresh :
  ledger_ok l → fl_candidates l !! j = Some r → is_leased (cr_state r) = false → is_leased (cr_state r') = false →
  candidate_inv l j r' →
  ledger_ok (replace_candidate_route (Some (CandidateRoute_from_record r)) (Some (CandidateRoute_from_record r')) refresh
    (set_fl_candidates (<[j := r']> (fl_candidates l)) l)).
Proof.
  intros Hok Hj Hl Hl' Hr'. apply (ledger_reroute l _ j); try done; try apply Hok.
  - eapply scopes_ok_same; [by apply with_lease_none|]. eapply scopes_ok_same; [by apply without_none|].
    by eapply scopes_ok_ledger; [| |apply Hok].
  - eapply (orders_ok_ext l); [done| |apply Hok]. intros k. destruct (not_leased_demand r Hl LowVolume k) as (_ & _ & _ & ->).
    destruct (not_leased_demand r' Hl' LowVolume k) as (_ & _ & _ & ->). lia.
  - eapply candidate_inv_mono; [|exact Hr']. by split.
Qed.

Lemma remove_ok l j : ledger_ok l → ledger_ok (remove_candidate j l).
Proof.
  intros Hok. unfold remove_candidate. destruct (fl_candidates l !! j) as [r|] eqn:Hj; [|done].
  destruct (is_leased (cr_state r)) eqn:Hl.
  - set (p := permit_for_leased_record j r). unfold apply_settlement. rewrite restore_after_route.
    pose proof (settlement_ok l j r (if is_low_volume (pm_scope p) then CR_UndoService else CR_RestoreRate)
      (PS_Outcome RL_Complete) Hok Hj Hl) as H.
    cbn zeta in H. fold p in H. pose proof (restore_is_undo j r l) as E. cbn zeta in E. fold p in E. rewrite <- E in H.
    revert H. clear E. unfold restore_reconciled_low_volume_service.
    destruct (is_low_volume (pm_scope p)); [destruct (pm_ordering_key p)|]; exact id.
  - rewrite (route_after_update _ _ _ r Hj). unfold update_candidate. rewrite (alter_is_insert _ _ _ r Hj).
    apply (plain_reroute l j); try done. destruct (lk_candidates _ Hok j r Hj) as [H1 H2 H3 H4 H5]. by split.
Qed.

Lemma rescheduled c t : is_candidate c = true → is_i64 t = true → is_candidate (set_fc_scheduled_at t c) = true.
Proof. unfold is_candidate. cbn. rewrite !andb_true_iff. tauto. Qed.

Lemma defer_ok l j t :
  ledger_ok l → candidate_state l j ≠ Some CS_Leased → is_i64 t = true → ledger_ok (defer_candidate j t l).
Proof.
  intros Hok Hs Ht. unfold defer_candidate. destruct (fl_candidates l !! j) as [r|] eqn:Hj; [|done].
  rewrite (route_of_record l j r Hj), (route_after_update _ _ _ r Hj). unfold update_candidate.
  rewrite (alter_is_insert _ _ _ r Hj). apply (plain_reroute l j); try done.
  - unfold candidate_state in Hs. rewrite Hj in Hs. destruct (cr_state r) eqn:E; try done. cbn in Hs. by rewrite E in Hs.
  - destruct (lk_candidates _ Hok j r Hj) as [H1 H2 H3 H4 H5]. split; try done. apply record_spec in H1 as (T1 & T2 & T3).
    apply record_spec. cbn. split_and!; try done; try lia. by apply rescheduled.
Qed.

Lemma reconcile_ok l j t : ledger_ok l → is_i64 t = true → ledger_ok (reconcile_leased j t l).2.
Proof.
  intros Hok Ht. unfold reconcile_leased. destruct (fl_candidates l !! j) as [r|] eqn:Hj; [|done].
  destruct (is_leased (cr_state r)) eqn:Hl; [|done]. cbn [snd]. rewrite restore_is_undo.
  set (p := permit_for_leased_record j r). set (rel := if is_low_volume (pm_scope p) then _ else _).
  destruct (release_capacity_parts p rel l) as (Ec & Ep & Ek & Hreg).
  assert (fl_candidates (release_capacity p rel l) !! j = Some r) as Hj' by by rewrite Ec.
  rewrite (route_after_update _ _ _ r Hj'). eapply (settle_ok l _ j r _ rel); try done.
  - cbn. rewrite (alter_is_insert _ _ _ r Hj'). by rewrite Ec.
  - apply Hreg.
  - apply Hreg.
  - eapply (orders_ok_ext (release_capacity p rel l)); [done|done|]. by apply release_capacity_orders.
  - destruct (lk_candidates _ Hok j r Hj) as [H1 H2 H3 H4 H5]. split; try done. apply record_spec in H1 as (T1 & T2 & T3).
    apply record_spec. cbn. split_and!; try done; try lia. by apply rescheduled.
Qed.

(** ** Registration *)

Lemma ensure_scope_existing s c l st :
  fl_scopes l !! s = Some st → ensure_scope s c l = update_scope (λ s, set_ss_cost (Z.max (ss_cost s) c) s) s l.
Proof.
  intros Hst. unfold ensure_scope, update_scope. rewrite Hst. f_equal. apply map_eq. intros i.
  destruct (decide (s = i)) as [<-|]; [by rewrite lookup_insert_eq, lookup_alter_eq, Hst|by rewrite lookup_insert_ne, lookup_alter_ne].
Qed.

Lemma ensure_scope_lookup s c l i :
  is_Some (fl_scopes (ensure_scope s c l) !! i) ↔ i = s ∨ is_Some (fl_scopes l !! i).
Proof.
  unfold ensure_scope. destruct (fl_scopes l !! s) as [st|] eqn:Hs; cbn;
    (destruct (decide (s = i)) as [<-|]; [rewrite lookup_insert_eq|rewrite lookup_insert_ne by done]);
    (split; [by eauto|]; intros [?|?]; subst; by eauto).
Qed.

Lemma ensure_registers s c l : registers l (ensure_scope s c l).
Proof.
  split; unfold ensure_scope; try (by destruct (fl_scopes l !! s)). intros i Hi. apply ensure_scope_lookup. auto.
Qed.

Lemma load_new p s c mode b : load p s (ScopeState_new s c mode b) = 0.
Proof. unfold load. cbn. destruct (_ && _); [done|]. by case_match. Qed.

Lemma new_scope_inv b s c mode d :
  is_budget b = true → 1 ≤ c ≤ U16_MAX → dm_ready d s = 0 ∧ dm_flight d s = 0 ∧ dm_cost d s = 0 ∧ dm_own d s = 0 →
  scope_inv b s d (ScopeState_new s c mode b).
Proof.
  intros Hb Hc (D1 & D2 & D3 & D4). unfold is_budget in Hb. split_andb. ranges. split; cbn; try lia; try done.
  apply scope_state_spec. cbn. unfold U32_MAX, U64_MAX, U128_MAX, U16_MAX in *.
  split_and!; try done; try lia; destruct s as [? []|]; lia.
Qed.

Lemma ensure_ok l d s c :
  scopes_ok l d → is_budget (fl_budget l) = true → 1 ≤ c ≤ U16_MAX → is_fair_scope s = true →
  (FairScope_primary_scope s = s ∨ is_Some (fl_scopes l !! FairScope_primary_scope s)) →
  scopes_ok (ensure_scope s c l) d.
Proof.
  intros Hok Hb Hc Hf Hp. destruct (fl_scopes l !! s) as [st|] eqn:Hst.
  - rewrite (ensure_scope_existing s c l st Hst). apply scopes_quiet; [done| |done].
    intros st' _ [Ht Hr Hfl Hpe Hra Hco Ho Hpl]. split; try done. apply scope_state_spec in Ht. apply scope_state_spec.
    cbn. split_and!; try tauto; lia.
  - pose proof (so_none _ _ Hok s Hst) as Hn. unfold ensure_scope. rewrite Hst. set (st := ScopeState_new _ _ _ _).
    assert (scope_inv (fl_budget l) s d st) as Hnew by by apply new_scope_inv.
    destruct Hok as [Hi H0 Hl Hpr Hm]. split; cbn.
    + intros i sti. rewrite lookup_insert_Some. intros [[<- <-]|[_ ?]]; auto.
    + intros i [? _]%lookup_insert_None. auto.
    + intros p Hp'. rewrite map_sum_insert by done. unfold st. rewrite load_new. specialize (Hl p Hp'). lia.
    + intros i. rewrite !lookup_insert_is_Some'. intros [<-|Hi']; [destruct Hp; auto|auto].
    + intros i. rewrite lookup_insert_is_Some'. intros [<-|Hi']; auto.
Qed.

Lemma ensure_comm a b c l : a ≠ b → ensure_scope a c (ensure_scope b c l) = ensure_scope b c (ensure_scope a c l).
Proof.
  intros Hab. unfold ensure_scope. destruct (fl_scopes l !! a) eqn:Ha, (fl_scopes l !! b) eqn:Hb; cbn;
    rewrite !lookup_insert_ne by done; rewrite ?Ha, ?Hb; unfold set_fl_scopes; cbn; f_equal; by apply insert_insert_ne.
Qed.

Lemma register_scopes c l :
  let l1 := ensure_scope (fc_scope c) (fc_cost_units c) l in
  let l2 := if FairScope_is_secondary (fc_scope c)
            then ensure_scope (FairScope_primary_scope (fc_scope c)) (fc_cost_units c) l1 else l1 in
  ledger_ok l → is_candidate c = true →
  scopes_ok l2 (demand_of (fl_candidates l)) ∧ registers l l2 ∧ fl_candidates l2 = fl_candidates l ∧
  fl_orders l2 = fl_orders l ∧ fl_priority l2 = fl_priority l ∧ fl_service_clock l2 = fl_service_clock l ∧
  is_Some (fl_scopes l2 !! fc_scope c).
Proof.
  intros l1 l2 Hok Hc. unfold is_candidate in Hc. split_andb.
  assert (1 ≤ fc_cost_units c ≤ U16_MAX) as Hcost by (unfold is_nonzero_u16 in *; by rewrite in_range_spec in *).
  assert (registers l l2) as Hreg.
  { unfold l2, l1. destruct (FairScope_is_secondary _); [etrans|]; apply ensure_registers. }
  split_and!; [|done|unfold l2, l1, ensure_scope; by repeat case_match..|].
  - unfold l2, l1. destruct (FairScope_is_secondary (fc_scope c)) eqn:Hsec.
    + rewrite ensure_comm by by apply primary_of_secondary.
      assert (scopes_ok (ensure_scope (FairScope_primary_scope (fc_scope c)) (fc_cost_units c) l)
        (demand_of (fl_candidates l))) as Hpri.
      { apply ensure_ok; [apply Hok..|done| |by left; destruct (fc_scope c)].
        destruct (fc_scope c) as [p [s|]|]; cbn in *; split_andb; by rewrite ?andb_true_r. }
      apply ensure_ok; [done| |done..|].
      * rewrite (rg_budget _ _ (ensure_registers _ _ _)). apply Hok.
      * right. apply ensure_scope_lookup. auto.
    + apply ensure_ok; [apply Hok..|done|done|]. left. by apply primary_of_plain.
  - unfold l2, l1. destruct (FairScope_is_secondary _); rewrite !ensure_scope_lookup; auto.
Qed.

Lemma register_ok c l :
  ledger_ok l → is_candidate c = true →
  ledger_ok (register_candidate c l) ∧ fl_candidates (register_candidate c l) = fl_candidates l ∧
  is_Some (fl_scopes (register_candidate c l) !! fc_scope c) ∧
  (∀ k, fc_ordering_key c = Some k → is_Some (fl_orders (register_candidate c l) !! k)).
Proof.
  intros Hok Hc. destruct (register_scopes c l Hok Hc) as (Hs & Hreg & Ec & Eo & Ep & Ek & Hin).
  unfold register_candidate. set (l2 := if FairScope_is_secondary _ then _ else _) in *.
  assert (ledger_ok l2) as Hok2.
  { split; rewrite ?Ec, ?Ep, ?Ek; try apply Hok; [|done| |].
    - rewrite (rg_budget _ _ Hreg). apply Hok.
    - intros j r Hj. eapply candidate_inv_mono; [exact Hreg|]. by apply Hok.
    - eapply orders_ok_ext; [exact Eo|done|apply Hok]. }
  destruct (fc_ordering_key c) as [k|] eqn:Hk; [|done].
  destruct (fl_orders l2 !! k) as [o|] eqn:Ho; [by split_and!; [..|intros k' [= <-]]|].
  set (o := mkOrderRecord _ _ _ _ _). set (l3 := set_fl_orders _ _).
  assert (registers l2 l3) as Hreg3.
  { split; [done..|]. intros i. cbn. rewrite lookup_insert_is_Some'. auto. }
  split_and!; [|done|done|intros k' [= <-]; cbn; by rewrite lookup_insert_eq].
  unfold is_candidate in Hc. split_andb. split; try apply Hok2.
  - eapply scopes_ok_ledger; [| |apply Hok2]; done.
  - intros j r Hj. eapply candidate_inv_mono; [exact Hreg3|]. by apply Hok2.
  - pose proof (lk_orders _ Hok2) as [Hi Hn]. split; cbn.
    + intros i oi. rewrite lookup_insert_Some. intros [[<- <-]|[_ ?]]; [|by apply Hi].
      split_and!; [|by rewrite Hk in *|by rewrite (Hn k Ho)]. apply order_spec. cbn. unfold is_u64, U64_MAX in *.
      rewrite ?in_range_spec in *. split_and!; try done; lia.
    + intros i [? _]%lookup_insert_None. by apply Hn.
Qed.

(** What the types of the fields of an input guarantee. *)
Definition is_candidate_input (i : FairCandidateInput) : bool :=
  is_fixed_id (fi_job_id i) && is_fair_scope (FairScope_from (fi_fairness i)) && is_nonzero_u16 (fi_cost_units i)
  && is_i64 (fi_scheduled_at i) && is_u64 (fi_payload_bytes i)
  && is_option (is_opaque MAX_ORDERING_KEY_BYTES) (fi_ordering_key i) && is_u64 (fi_ordering_position i).

Lemma try_from_candidate i c : is_candidate_input i = true → FairCandidate_try_from i = Ok c → is_candidate c = true.
Proof. unfold FairCandidate_try_from. intros Hi. destruct (_ <? _); [done|]. by intros [= <-]. Qed.

Lemma registered_inv c l r :
  ledger_ok l → is_candidate c = true → cr_candidate r = c → is_leased (cr_state r) = false →
  0 ≤ cr_service_transitions r ≤ U64_MAX → is_option is_nonzero_u64 (cr_acquisition_generation r) = true →
  candidate_inv (register_candidate c l) (fc_job_id c) r.
Proof.
  intros Hok Hc <- Hl Ht Hg. destruct (register_ok (cr_candidate r) l Hok Hc) as (_ & _ & H1 & H2).
  split; [by apply record_spec|done..|by rewrite Hl].
Qed.

Lemma add_ok i l l' :
  ledger_ok l → is_candidate_input i = true → Z.of_nat (size (fl_candidates l)) < U32_MAX →
  add_candidate i l = Ok l' → ledger_ok l'.
Proof.
  intros Hok Hi Hsz. unfold add_candidate. destruct (FairCandidate_try_from i) as [c|] eqn:Hc; [|done]. cbn.
  apply (try_from_candidate _ _ Hi) in Hc. destruct (fl_candidates l !! fc_job_id c) eqn:Hj; [done|].
  destruct (register_ok c l Hok Hc) as (Hok' & Ec & _). intros [= <-].
  unfold route_of. cbn [set_fl_candidates fl_candidates]. rewrite lookup_insert_eq. cbn [fmap option_fmap option_map].
  apply ledger_record; rewrite ?Ec; try done. by apply registered_inv.
Qed.

Lemma upsert_ok i l l' :
  ledger_ok l → is_candidate_input i = true → Z.of_nat (size (fl_candidates l)) < U32_MAX →
  upsert_candidate i l = Ok l' → ledger_ok l'.
Proof.
  intros Hok Hi Hsz. unfold upsert_candidate. destruct (FairCandidate_try_from i) as [c|] eqn:Hc; [|done]. cbn.
  apply (try_from_candidate _ _ Hi) in Hc. destruct (register_ok c l Hok Hc) as (Hok' & Ec & _).
  destruct (upsert_state (candidate_state l (fc_job_id c))) as [next|] eqn:Hnext; [|done]. cbn. intros [= <-].
  unfold candidate_state, route_of, replace_candidate_record in *. rewrite Ec in *.
  destruct (fl_candidates l !! fc_job_id c) as [r|] eqn:Hj; cbn [set_fl_candidates fl_candidates];
    rewrite lookup_insert_eq; cbn [fmap option_fmap option_map] in *; rewrite <- Ec.
  - pose proof (lk_candidates _ Hok _ r Hj) as [Ht _ _ _ _]. apply record_spec in Ht as (_ & T2 & T3).
    assert (is_leased (cr_state r) = false ∧ is_leased next = false) as [L1 L2].
    { destruct (cr_state r); cbn in Hnext; by simplify_eq. }
    apply (plain_reroute _ _ r); try done; [by rewrite Ec|]. by apply registered_inv.
  - cbn in Hnext. simplify_eq. apply ledger_record; rewrite ?Ec; try done. by apply registered_inv.
Qed.

(** ** Updates of scopes *)

Lemma ledger_scopes l sc :
  ledger_ok l → (∀ s, is_Some (fl_scopes l !! s) → is_Some (sc !! s)) →
  scopes_ok (set_fl_scopes sc l) (demand_of (fl_candidates l)) → ledger_ok (set_fl_scopes sc l).
Proof.
  intros Hok Hdom Hs. split; try apply Hok; [done| |].
  - intros j r Hj. eapply candidate_inv_mono; [|by apply Hok]. by split.
  - eapply orders_ok_ext; [| |apply Hok]; done.
Qed.

(** What an update that moves no counter keeps. *)
Definition quiet (b : FairnessBudget) (s : FairScope) (f : ScopeState → ScopeState) : Prop :=
  (∀ d st, scope_inv b s d st → scope_inv b s d (f st)) ∧
  ∀ st, sa_cost (ss_service (f st)) = sa_cost (ss_service st) ∧ sa_cost (ss_own_service (f st)) = sa_cost (ss_own_service st).

Lemma quiet_ok l s f : ledger_ok l → quiet (fl_budget l) s f → ledger_ok (update_scope f s l).
Proof.
  intros Hok [Hf Hc]. apply ledger_scopes; [done| |].
  - intros i. apply (update_scope_dom f s l i).
  - apply scopes_quiet; [apply Hok|auto|done].
Qed.

Lemma set_weight_ok l s w : ledger_ok l → 1 ≤ w ≤ U16_MAX → ledger_ok (set_scope_weight s w l).2.
Proof.
  intros Hok Hw. unfold set_scope_weight. destruct (fl_scopes l !! s); [|done]. apply quiet_ok; [done|].
  assert (∀ st, sa_cost (ss_service (reweighted w st)) = sa_cost (ss_service st)
    ∧ sa_cost (ss_own_service (reweighted w st)) = sa_cost (ss_own_service st)) as Hcost.
  { intros st. unfold reweighted. by destruct (_ =? _). }
  split; [|done]. intros d st [Ht Hr Hfl Hpe Hra Hco Ho Hpl]. destruct (Hcost st) as [E1 E2].
  split; rewrite ?E1, ?E2; try done; unfold reweighted; destruct (ss_weight st =? w); try done.
  - apply scope_state_spec in Ht as (T1 & T2 & T3 & T4). apply scope_state_spec. cbn.
    split_and!; try lia; apply sa_reweight_service; auto; lia.
  - intros Hs. destruct (Hpl Hs) as [-> Hk]. split; [|done]. cbn. unfold sa_reweight, sa_position, normalized_service. cbn.
    by rewrite Zdiv_0_l.
Qed.

Lemma set_mode_ok l s m : ledger_ok l → ledger_ok (set_scope_mode s m l).2.
Proof.
  intros Hok. unfold set_scope_mode. destruct (fl_scopes l !! s); [|done]. apply quiet_ok; [done|].
  split; [|done]. by intros d st [].
Qed.

Lemma block_ok l s b : ledger_ok l → ledger_ok (block s b l).2.
Proof.
  intros Hok. unfold block. destruct (fl_scopes l !! s); [|done]. apply quiet_ok; [done|].
  split; [|done]. by intros d st [].
Qed.

Lemma refill_ok l s : ledger_ok l → ledger_ok (refill s l).2.
Proof.
  intros Hok. unfold refill. destruct (fl_scopes l !! s); [|done]. pose proof (lk_budget _ Hok) as Hb.
  unfold is_budget in Hb. split_andb. ranges. apply quiet_ok; [done|].
  split; [|done]. intros d st [Ht Hr Hfl Hpe Hra Hco Ho Hpl]. apply scope_state_spec in Ht as (T1 & T2 & T3 & T4).
  split; cbn; unfold saturating_sub; try done; try lia.
  apply scope_state_spec. cbn. unfold U32_MAX in *. split_and!; try done; lia.
Qed.

Lemma restart_ok l : ledger_ok l → ledger_ok (restart_low_volume l).
Proof.
  intros Hok. unfold restart_low_volume. apply quiet_ok; [done|].
  split; [|done]. intros d st [Ht Hr Hfl Hpe Hra Hco Ho Hpl]. apply scope_state_spec in Ht as (T1 & T2 & T3 & T4).
  split; cbn; try done. apply scope_state_spec. cbn. unfold U32_MAX, U64_MAX in *. split_and!; try done; lia.
Qed.

Lemma scopes_fmap l d f :
  scopes_ok l d → (∀ s, quiet (fl_budget l) s f) → scopes_ok (set_fl_scopes (f <$> fl_scopes l) l) d.
Proof.
  intros [Hi Hn Hl Hp Hm] Hf. split; cbn.
  - intros s st. rewrite lookup_fmap_Some. intros (st' & <- & Hst). apply Hf. by apply Hi.
  - intros s. rewrite lookup_fmap, fmap_None. apply Hn.
  - intros p Hp'. rewrite map_sum_fmap. etrans; [|by apply Hl]. apply map_sum_le. intros s st _.
    destruct (Hf s) as [_ E]. destruct (E st) as [E1 E2]. unfold load. rewrite E1, E2. lia.
  - intros s. rewrite !lookup_fmap, !fmap_is_Some. apply Hp.
  - intros s. rewrite !lookup_fmap, !fmap_is_Some. apply Hm.
Qed.

Lemma tick_ok l : ledger_ok l → ledger_ok (tick l).
Proof.
  intros Hok. apply ledger_scopes; [done| |].
  - intros s. by rewrite lookup_fmap, fmap_is_Some.
  - apply scopes_fmap; [apply Hok|]. intros s. split; [|intros st; by destruct (ss_is_ready st)].
    intros d st [Ht Hr Hfl Hpe Hra Hco Ho Hpl]. destruct (ss_is_ready st); split; try done.
    apply scope_state_spec in Ht as (T1 & T2 & T3 & T4). apply scope_state_spec. cbn. unfold saturating_add, U32_MAX in *.
    split_and!; try done; lia.
Qed.

(** ** Updates of candidates *)

(** Some candidates are updated by a function that keeps what the counters
    depend on. *)
Lemma ledger_candidates l m f :
  ledger_ok l →
  (∀ g : CandidateRecord → Z, (∀ r, g (f r) = g r) → map_sum (λ _, g) m = map_sum (λ _, g) (fl_candidates l)) →
  (∀ j r', m !! j = Some r' → ∃ r, fl_candidates l !! j = Some r ∧ (r' = r ∨ r' = f r)) → size m = size (fl_candidates l) →
  (∀ r, cr_candidate (f r) = cr_candidate r ∧ cr_state (f r) = cr_state r
    ∧ cr_acquisition_generation (f r) = cr_acquisition_generation r) →
  (∀ r, 0 ≤ cr_service_transitions r ≤ U64_MAX → 0 ≤ cr_service_transitions (f r) ≤ U64_MAX) →
  ledger_ok (set_fl_candidates m l).
Proof.
  intros Hok Hsum Hm Hsz Hf Ht. split; try apply Hok; cbn.
  - eapply scopes_ok_same; [|eapply scopes_ok_ledger; [| |apply Hok]; done].
    split; intros s; cbn; [symmetry; apply Hsum; intros r; destruct (Hf r) as (E1 & E2 & _)..|done];
      unfold ready_in, flight_in, cost_in, own_in, flight_in; by rewrite ?E1, ?E2.
  - intros j r' (r & Hj & Hr)%Hm. destruct (lk_candidates _ Hok j r Hj) as [H1 H2 H3 H4 H5].
    destruct Hr as [->| ->]; [done|]. destruct (Hf r) as (E1 & E2 & E3). split; rewrite ?E1, ?E2, ?E3; try done.
    apply record_spec in H1 as (T1 & T2 & T3). apply record_spec. rewrite E1, E3. auto.
  - eapply orders_ok_ext; [| |apply Hok]; [done|]. intros k. symmetry. apply Hsum. intros r. destruct (Hf r) as (E1 & E2 & _).
    unfold key_in. by rewrite E1, E2.
  - rewrite Hsz. apply Hok.
Qed.

Lemma record_service_ok l j u : ledger_ok l → 0 ≤ u → ledger_ok (record_service_units j u l).2.
Proof.
  intros Hok Hu. unfold record_service_units. destruct (fl_candidates l !! j) as [r|] eqn:Hj; [|done].
  apply (ledger_candidates l _ (λ r, set_cr_service_transitions (saturating_add U64_MAX (cr_service_transitions r) u) r));
    [done|..|done|].
  - intros g Hg. rewrite (map_sum_alter _ _ _ _ _ Hj), Hg. lia.
  - intros i r'. destruct (decide (j = i)) as [<-|]; [rewrite lookup_alter_eq, Hj|rewrite lookup_alter_ne by done; eauto].
    intros [= <-]. eauto.
  - rewrite (alter_is_insert _ _ _ r Hj). by rewrite map_size_insert_Some by by eexists.
  - intros r' Hr'. cbn. unfold saturating_add, U64_MAX in *. lia.
Qed.

Lemma reset_window_ok l : ledger_ok l → ledger_ok (reset_priority_window l).
Proof.
  intros Hok. assert (ledger_ok (set_fl_candidates (set_cr_service_transitions 0 <$> fl_candidates l) l)) as H.
  { eapply (ledger_candidates l _ (set_cr_service_transitions 0)); [done|..|done|].
    - intros g Hg. rewrite map_sum_fmap. apply map_sum_ext. auto.
    - intros j r'. rewrite lookup_fmap_Some. intros (r & <- & Hj). eauto.
    - apply map_size_fmap.
    - intros r _. unfold U64_MAX. cbn. lia. }
  destruct H as [H1 H2 H3 H4 H5 H6 H7]. split; try done.
  - by eapply scopes_ok_ledger; [| |exact H2].
  - intros j r Hj. eapply candidate_inv_mono; [|by apply H3]. by split.
  - by eapply orders_ok_ext; [| |exact H4].
Qed.

(** ** Compaction *)

Lemma terminal_plain s : is_terminal_or_absent s = true → has_ready_route s = false ∧ is_leased s = false.
Proof. by destruct s. Qed.

Lemma existsb_btree_false (f : JobId * CandidateRecord → bool) (m : gmap JobId CandidateRecord) j r :
  existsb f (btree m) = false → m !! j = Some r → f (j, r) = false.
Proof.
  intros Hf Hj. apply elem_of_btree in Hj. destruct (f (j, r)) eqn:E; [|done].
  assert (existsb f (btree m) = true); [|congruence]. apply existsb_exists. exists (j, r). by rewrite <- list_elem_of_In.
Qed.

Lemma ledger_forget l j r :
  ledger_ok l → fl_candidates l !! j = Some r → is_terminal_or_absent (cr_state r) = true →
  ledger_ok (set_fl_candidates (delete j (fl_candidates l)) l).
Proof.
  intros Hok Hj Ht. destruct (terminal_plain _ Ht) as [Hready Hl]. split; try apply Hok; cbn.
  - eapply scopes_ok_same; [|eapply scopes_ok_ledger; [| |apply Hok]; done].
    split; intros s; destruct (demand_delete (fl_candidates l) j r Hj s) as (D1 & D2 & D3 & D4); try done;
      destruct (not_leased_demand r Hl s []) as (E1 & E2 & E3 & _); rewrite ?D1, ?D2, ?D3, ?D4; try lia.
    unfold ready_in. rewrite Hready. cbn. lia.
  - intros i ri [_ Hi]%lookup_delete_Some. eapply candidate_inv_mono; [|by apply Hok]. by split.
  - eapply orders_ok_ext; [| |apply Hok]; [done|]. intros k. unfold keys_of. rewrite (map_sum_delete _ _ _ _ Hj).
    destruct (not_leased_demand r Hl LowVolume k) as (_ & _ & _ & ->). lia.
  - rewrite map_size_delete_Some by by eexists. pose proof (lk_size _ Hok). lia.
Qed.

Lemma compact_candidate_ok l j : ledger_ok l → ledger_ok (compact_candidate j l).2.
Proof.
  intros Hok. unfold compact_candidate. destruct (fl_candidates l !! j) as [r|] eqn:Hj; [|done].
  destruct (is_terminal_or_absent (cr_state r)) eqn:Ht; [|done]. cbn [snd].
  destruct (terminal_plain _ Ht) as [Hready _]. unfold replace_candidate_route. cbn [CandidateRoute_from_record rt_ready].
  rewrite Hready. cbn [adjust_ready_count].
  pose proof (ledger_forget l j r Hok Hj Ht) as Hok1. set (l1 := set_fl_candidates _ l) in *.
  destruct (fc_ordering_key (cr_candidate r)) as [k|]; [|done].
  destruct (existsb _ _) eqn:Hex; [done|].
  assert (∀ i ri, fl_candidates l1 !! i = Some ri → fc_ordering_key (cr_candidate ri) ≠ Some k) as Hno.
  { intros i ri Hi. pose proof (existsb_btree_false _ _ _ _ Hex Hi) as E. by apply bool_decide_eq_false in E. }
  split; try apply Hok1; cbn.
  - eapply (scopes_ok_ledger l1); [done..|apply Hok1].
  - intros i ri Hi. destruct (lk_candidates _ Hok1 i ri Hi) as [H1 H2 H3 H4 H5]. split; try done.
    intros k' Hk'. cbn. rewrite lookup_delete_ne; [auto|]. intros <-. by apply (Hno i ri Hi).
  - destruct (lk_orders _ Hok1) as [Hi Hn]. split; cbn.
    + intros k' o [_ Ho]%lookup_delete_Some. by apply Hi.
    + intros k' [<-|Ho]%lookup_delete_None; [|by apply Hn]. apply map_sum_zero. intros i ri Hi'. unfold key_in.
      rewrite bool_decide_false by by apply (Hno i). by rewrite andb_false_r.
Qed.

Lemma uncharged_demand (m : gmap JobId CandidateRecord) s :
  (∀ j r, m !! j = Some r → charged s (cr_candidate r) = false) →
  dm_ready (demand_of m) s = 0 ∧ dm_flight (demand_of m) s = 0 ∧ dm_cost (demand_of m) s = 0 ∧ dm_own (demand_of m) s = 0.
Proof.
  intros Hall. cbn. split_and!; apply map_sum_zero; intros j r Hj; specialize (Hall j r Hj);
    unfold ready_in, cost_in, flight_in, own_in; rewrite ?Hall, ?andb_false_r; cbn; try lia;
    unfold charged in Hall; apply orb_false_iff in Hall as [-> _]; rewrite andb_false_r; cbn; lia.
Qed.

Lemma candidate_scopes_spec l s :
  s ∈ candidate_scopes l ↔ ∃ j r, fl_candidates l !! j = Some r ∧ charged s (cr_candidate r) = true.
Proof.
  unfold candidate_scopes. rewrite elem_of_list_to_set, list_elem_of_bind. split.
  - intros ([j r] & Hs & Hj). rewrite elem_of_btree in Hj. exists j, r. split; [done|]. rewrite charged_spec. cbn in Hs.
    rewrite orb_true_iff, !bool_decide_eq_true. set_solver.
  - intros (j & r & Hj & Hs). exists (j, r). rewrite elem_of_btree. split; [|done]. cbn.
    rewrite charged_spec, orb_true_iff, !bool_decide_eq_true in Hs. set_solver.
Qed.

(** The scopes kept are those of the candidates. *)
Lemma kept_scope l s st :
  ledger_ok l → fl_scopes l !! s = Some st →
  negb (ss_in_flight st =? 0) || ss_is_ready st || bool_decide (s ∈ candidate_scopes l) = bool_decide (s ∈ candidate_scopes l).
Proof.
  intros Hok Hst. destruct (bool_decide_reflect (s ∈ candidate_scopes l)) as [|Hno]; [by rewrite orb_true_r|].
  destruct (uncharged_demand (fl_candidates l) s) as (D1 & D2 & _).
  { intros j r Hj. destruct (charged s (cr_candidate r)) eqn:E; [|done]. destruct Hno. apply candidate_scopes_spec. eauto. }
  destruct (so_inv _ _ (lk_scopes _ Hok) s st Hst) as [_ Hr Hf _ _ _ _ _]. unfold ss_is_ready. by rewrite Hr, Hf, D1, D2.
Qed.

Lemma compact_is_filter l :
  ledger_ok l → compact_empty_scopes l = set_fl_scopes (filter (λ e, e.1 ∈ candidate_scopes l) (fl_scopes l)) l.
Proof.
  intros Hok. unfold compact_empty_scopes. f_equal. apply map_filter_ext. intros s st Hst. cbn.
  rewrite (kept_scope l s st Hok Hst). apply bool_decide_eq_true.
Qed.

Lemma compact_scopes_ok l : ledger_ok l → ledger_ok (compact_empty_scopes l).
Proof.
  intros Hok. rewrite compact_is_filter by done. set (P := λ e : FairScope * ScopeState, e.1 ∈ candidate_scopes l).
  assert (∀ s, s ∈ candidate_scopes l → FairScope_primary_scope s ∈ candidate_scopes l) as Hpri.
  { intros s. rewrite !candidate_scopes_spec. intros (j & r & Hj & Hs). exists j, r. split; [done|].
    rewrite charged_spec, orb_true_iff, !bool_decide_eq_true in *. by destruct Hs as [->| ->]; destruct (fc_scope _); auto. }
  pose proof (lk_scopes _ Hok) as [Hi Hn Hl Hp Hm].
  assert (∀ s, is_Some (filter P (fl_scopes l) !! s) ↔ is_Some (fl_scopes l !! s) ∧ s ∈ candidate_scopes l) as Hdom.
  { intros s. split; [intros [st [? ?]%map_lookup_filter_Some]; eauto|]. intros [[st ?] ?]. exists st. by apply map_lookup_filter_Some. }
  split; try apply Hok; cbn.
  - split; cbn.
    + intros s st [Hst _]%map_lookup_filter_Some. by apply Hi.
    + intros s Hs. destruct (decide (s ∈ candidate_scopes l)) as [Hin|Hno].
      * apply Hn. destruct (fl_scopes l !! s) eqn:E; [|done]. apply eq_None_not_Some in Hs. destruct Hs. apply Hdom. eauto.
      * apply uncharged_demand. intros j r Hj. destruct (charged s (cr_candidate r)) eqn:E; [|done].
        destruct Hno. apply candidate_scopes_spec. eauto.
    + intros p Hp'. destruct (decide (p ∈ candidate_scopes l)) as [Hin|Hno].
      * etrans; [|by apply Hl]. apply map_sum_filter. intros s st Hst HP.
        apply Hi in Hst as [Ht _ _ _ _ _ _ _]. apply scope_state_spec in Ht as (_ & Hsv%is_service_spec & _).
        unfold load. case_match; [lia|]. rewrite bool_decide_false; [lia|]. by intros ->.
      * rewrite map_sum_zero; [done|]. intros s st [_ HP]%map_lookup_filter_Some. unfold P in HP. cbn in HP. unfold load.
        rewrite (bool_decide_false (s = p)) by by intros ->. rewrite bool_decide_false; [by rewrite andb_false_r|].
        intros <-. by apply Hno, Hpri.
    + intros s. rewrite !Hdom. intros [? ?]. auto.
    + intros s. rewrite Hdom. intros [? ?]. auto.
  - intros j r Hj. destruct (lk_candidates _ Hok j r Hj) as [H1 H2 H3 H4 H5]. split; try done. cbn. apply Hdom. split; [done|].
    apply candidate_scopes_spec. exists j, r. split; [done|]. unfold charged. by rewrite bool_decide_true.
  - eapply orders_ok_ext; [| |apply Hok]; done.
Qed.

(** ** The ready index *)

Definition occurrences (s : FairScope) (scopes : list FairScope) : Z :=
  foldr (λ i acc, ind (bool_decide (i = s)) + acc) 0 scopes.

Lemma occurrences_nonneg s scopes : 0 ≤ occurrences s scopes.
Proof. induction scopes as [|i scopes IH]; cbn [occurrences foldr]; [lia|]. pose proof (ind_range (bool_decide (i = s))). unfold occurrences in IH. lia. Qed.

Lemma count_ready scopes l :
  foldl (λ l scope, adjust_ready_count scope true true l) l scopes =
  set_fl_scopes (fl_scopes (foldl (λ l scope, adjust_ready_count scope true true l) l scopes)) l ∧
  ((∀ s st, fl_scopes l !! s = Some st → 0 ≤ ss_ready_count st ≤ U32_MAX) →
   ∀ s, fl_scopes (foldl (λ l scope, adjust_ready_count scope true true l) l scopes) !! s =
     (λ st, set_ss_ready_count (Z.min U32_MAX (ss_ready_count st + occurrences s scopes)) st) <$> fl_scopes l !! s).
Proof.
  revert l. induction scopes as [|i scopes IH]; intros l; cbn [foldl].
  - split; [by destruct l|]. intros Hr s. destruct (fl_scopes l !! s) as [st|] eqn:Hs; [|done]. cbn. f_equal.
    specialize (Hr s st Hs). destruct st; unfold set_ss_ready_count; cbn in *. f_equal. lia.
  - destruct (IH (adjust_ready_count i true true l)) as [E1 E2]. split; [by rewrite E1 at 1|].
    intros Hr s. rewrite E2; cbn [adjust_ready_count]; last first.
    { intros s' st'. rewrite lookup_update_scope. destruct (decide (i = s')) as [<-|]; [|by apply Hr].
      destruct (fl_scopes l !! i) as [st|] eqn:Hi; [|done]. intros [= <-]. cbn. specialize (Hr i st Hi).
      unfold saturating_add, U32_MAX in *. lia. }
    rewrite lookup_update_scope. cbn [occurrences foldr]. fold (occurrences s scopes).
    destruct (decide (i = s)) as [<-|Hne]; (destruct (fl_scopes l !! _) as [st|] eqn:Hs; [|done]); cbn; f_equal;
      specialize (Hr _ st Hs); pose proof (occurrences_nonneg i scopes);
      [rewrite bool_decide_true by done|rewrite bool_decide_false by done];
      unfold set_ss_ready_count, saturating_add; cbn; f_equal; lia.
Qed.

Lemma ready_occurrences (es : list (JobId * CandidateRecord)) s :
  occurrences s ((λ e, fc_scope (cr_candidate e.2)) <$> filter (λ e, has_ready_route (cr_state e.2) = true) es) =
  foldr (λ e acc, ready_in s e.2 + acc) 0 es.
Proof.
  induction es as [|e es IH]; [done|]. rewrite filter_cons. cbn [foldr]. rewrite <- IH. unfold ready_in.
  case_decide as Hr; [rewrite Hr|destruct (has_ready_route (cr_state e.2)); [done|]]; done.
Qed.

(** Rebuilding the index finds the counts the updates maintained. *)
Lemma rebuild_ready_same l : ledger_ok l → rebuild_ready_counts l = l.
Proof.
  intros Hok. unfold rebuild_ready_counts. cbn [set_fl_scopes fl_candidates]. set (l0 := set_fl_scopes _ l).
  set (L := _ <$> filter _ _). destruct (count_ready L l0) as [-> E2].
  assert (fl_scopes (foldl (λ l scope, adjust_ready_count scope true true l) l0 L) = fl_scopes l) as ->; [|by destruct l].
  apply map_eq. intros s. rewrite E2; cbn [l0 set_fl_scopes fl_scopes]; last first.
  { intros s' st'. rewrite lookup_fmap_Some. intros (st & <- & _). cbn. unfold U32_MAX. lia. }
  rewrite lookup_fmap. destruct (fl_scopes l !! s) as [st|] eqn:Hs; [|done]. cbn. f_equal.
  destruct (so_inv _ _ (lk_scopes _ Hok) s st Hs) as [Ht Hr _ _ _ _ _ _]. apply scope_state_spec in Ht as (T1 & _).
  unfold L. rewrite ready_occurrences. cbn in Hr. rewrite map_sum_btree in Hr. rewrite <- Hr.
  destruct st. unfold set_ss_ready_count. cbn in *. f_equal. lia.
Qed.
