(* ===== verification/FairAdmission.v ===== *)
(** * Selections keep the ledger's invariant

    What [validate_candidate] and [prepare_candidate] accept, the capacity a
    selection takes, the ranges of the values a pass computes, and that the
    selections of [FairSelect] keep [ledger_ok] and answer with the permit of
    the record they leased. *)

From S2P Require Import Prelude Errors Ids Clock Policy JobRecord Ordered Fairness FairLedger FairSelect FairInvariant FairSteps.

(** ** What an admission checked *)

Record scope_free (l : FairnessLedger) (s : FairScope) (c : Z) : Prop := {
  sf_state : ∃ st, fl_scopes l !! s = Some st ∧ ss_block st = None ∧ sa_cost (ss_service st) + c ≤ U64_MAX
    ∧ ss_in_flight st < fb_max_concurrency_per_scope (fl_budget l) ∧ ss_permits st ≠ 0 ∧ ss_rate st ≠ 0;
}.

Lemma check_scope_free l s c : check_scope l s c = Ok tt → scope_free l s c.
Proof.
  unfold check_scope. destruct (fl_scopes l !! s) as [st|] eqn:Hst; [|done].
  destruct (ss_block st) eqn:Hb; [done|]. unfold checked_add_u64.
  destruct (_ || _ || _) eqn:E; [done|]. rewrite !orb_false_iff in E. destruct E as [[E1 E2] E3].
  destruct (ss_rate st =? 0) eqn:E4; [done|]. destruct (_ && _); [done|]. intros _. split. exists st.
  split_and!; try done; try lia. unfold checked in E1. destruct (in_range _ _ _) eqn:E5; [|done]. apply in_range_spec in E5. lia.
Qed.

Definition key_free (l : FairnessLedger) (c : FairCandidate) : Prop :=
  ∀ k, fc_ordering_key c = Some k →
  ∃ o, fl_orders l !! k = Some o ∧ ord_in_flight o = false ∧ ord_head o = fc_ordering_position c.

Lemma check_order_free l c : check_order l c = Ok tt → key_free l c.
Proof.
  unfold check_order. intros H k Hk. rewrite Hk in H. destruct (fl_orders l !! k) as [o|]; [|done].
  destruct (ord_in_flight o) eqn:Hf; [done|]. destruct (_ =? _) eqn:Hh in H; [|done]. exists o. split_and!; try done. lia.
Qed.

Record admitted (l : FairnessLedger) (j : JobId) (r : CandidateRecord) (g : FairPermitGeneration) : Prop := {
  ad_record : fl_candidates l !! j = Some r;
  ad_ready : has_ready_route (cr_state r) = true;
  ad_block : fc_block (cr_candidate r) = None;
  ad_payload : fc_payload_bytes (cr_candidate r) ≤ fb_max_payload_bytes (fl_budget l);
  ad_generation : next_permit_generation (cr_acquisition_generation r) = Ok g;
  ad_scope : scope_free l (fc_scope (cr_candidate r)) (fc_cost_units (cr_candidate r));
  ad_primary : FairScope_is_secondary (fc_scope (cr_candidate r)) = true →
    scope_free l (FairScope_primary_scope (fc_scope (cr_candidate r))) (fc_cost_units (cr_candidate r));
  ad_order : key_free l (cr_candidate r);
}.

Lemma validate_admitted l j c g :
  validate_candidate l j = Ok (c, g) → ∃ r, cr_candidate r = c ∧ admitted l j r g.
Proof.
  unfold validate_candidate. destruct (fl_candidates l !! j) as [r|] eqn:Hj; [|done]. cbn.
  destruct (has_ready_route (cr_state r)) eqn:Hr; [|done]. cbn.
  destruct (fc_block (cr_candidate r)) eqn:Hb; [done|]. destruct (_ <? _) eqn:Hp; [done|].
  destruct (next_permit_generation _) as [g'|] eqn:Hg; [|done]. cbn.
  destruct (check_scope l (fc_scope (cr_candidate r)) _) as [[]|] eqn:Hs; [|done]. cbn.
  destruct (if FairScope_is_secondary _ then _ else _) as [[]|] eqn:Hpr; [|done]. cbn.
  destruct (check_order l (cr_candidate r)) as [[]|] eqn:Ho; [|done]. cbn. intros [= <- <-]. exists r. split; [done|].
  split; try done; [lia|by apply check_scope_free| |by apply check_order_free].
  intros Hsec. rewrite Hsec in Hpr. by apply check_scope_free.
Qed.

Definition selection_of (r : CandidateRecord) (g : FairPermitGeneration) : CandidateSelection :=
  let c := cr_candidate r in
  mkCandidateSelection (fc_job_id c) (fc_scope c)
    (if FairScope_is_secondary (fc_scope c) then Some (FairScope_primary_scope (fc_scope c)) else None)
    (fc_priority c) (fc_cost_units c) (fc_ordering_key c) (fc_ordering_position c) g.

Lemma prepare_admitted l j sel :
  prepare_candidate l j = Ok sel → ∃ r g, sel = selection_of r g ∧ admitted l j r g.
Proof.
  unfold prepare_candidate. destruct (validate_candidate l j) as [[c g]|] eqn:Hv; [|done]. cbn. intros [= <-].
  apply validate_admitted in Hv as (r & <- & Had). by exists r, g.
Qed.

(** ** The capacity a selection takes *)

(** The scopes keep their permits and charges. *)
Record same_capacity (l l' : FairnessLedger) : Prop := {
  sc_registers : registers l l';
  sc_scope s st' : fl_scopes l' !! s = Some st' →
    ∃ st, fl_scopes l !! s = Some st ∧ ss_permits st' = ss_permits st
      ∧ sa_cost (ss_service st') = sa_cost (ss_service st);
}.

#[export] Instance same_capacity_preorder : PreOrder same_capacity.
Proof.
  split; [intros l; split; [done|eauto]|]. intros l1 l2 l3 [R1 S1] [R2 S2]. split; [by etrans|].
  intros s st' (st & Hst & E1 & E2)%S2. apply S1 in Hst as (st0 & ? & ? & ?). exists st0. split_and!; congruence.
Qed.

Lemma update_same_capacity f s l :
  (∀ st, ss_permits (f st) = ss_permits st ∧ sa_cost (ss_service (f st)) = sa_cost (ss_service st)) →
  same_capacity l (update_scope f s l).
Proof.
  intros Hf. split; [apply update_scope_registers|]. intros i st'. rewrite lookup_update_scope.
  destruct (decide (s = i)) as [<-|]; [|eauto]. destruct (fl_scopes l !! s) as [st|] eqn:Hs; [|done].
  intros [= <-]. exists st. split; [done|]. apply Hf.
Qed.

Lemma own_within_service l d s st :
  scopes_ok l d → dm_slack d s ≤ 0 → is_scoped_primary s = true → fl_scopes l !! s = Some st →
  sa_cost (ss_own_service st) ≤ sa_cost (ss_service st).
Proof.
  intros Hok Hd Hs Hst. pose proof (so_load _ _ Hok s Hs) as Hl. rewrite (map_sum_delete _ _ _ _ Hst) in Hl.
  rewrite load_plain, decide_True in Hl by (try done; by destruct s as [? []|]).
  assert (0 ≤ map_sum (load s) (delete s (fl_scopes l))); [|lia]. apply map_sum_nonneg.
  intros i sti [Hne Hi]%lookup_delete_Some. apply (so_inv _ _ Hok) in Hi as [Ht _ _ _ _ _ _ _].
  apply scope_state_spec in Ht as (_ & Hsv%is_service_spec & _). unfold load. case_match; [lia|].
  rewrite bool_decide_false by congruence. lia.
Qed.

Lemma align_scopes l d sel r g :
  scopes_ok l d → sel = selection_of r g → 0 ≤ fl_service_clock l ≤ U128_MAX →
  scopes_ok (align_selection_service sel l) d ∧ same_capacity l (align_selection_service sel l).
Proof.
  intros Hok -> Hclk. unfold align_selection_service. cbn [selection_of sel_scope sel_primary].
  set (s := fc_scope (cr_candidate r)). destruct (is_low_volume s) eqn:Hlow; [by split|].
  set (floor := match _ with Some st => _ | None => 0 end).
  assert (0 ≤ floor ≤ U128_MAX) as Hfloor.
  { unfold floor. destruct (fl_scopes l !! _) as [st|] eqn:Hp; [|unfold U128_MAX; lia].
    apply (so_inv _ _ Hok) in Hp as [Ht _ _ _ _ _ _ _]. apply scope_state_spec in Ht. tauto. }
  destruct (FairScope_is_secondary s) eqn:Hsec; cbn [default].
  - split; [|etrans; apply update_same_capacity; intros st; cbn; by rewrite sa_align_cost].
    apply scopes_quiet; [apply scopes_quiet; [done| |]| |]; try (intros st; cbn; by rewrite sa_align_cost).
    all: intros st _ [Ht Hr Hf Hpe Hra Hco Ho Hpl]; split; cbn; rewrite ?sa_align_cost; try done;
      apply scope_state_spec in Ht as (T1 & T2 & T3 & T4); apply scope_state_spec; cbn; split_and!; try lia; auto with fair.
  - split; [|apply update_same_capacity; intros st; cbn; by rewrite sa_align_cost].
    apply scopes_quiet; [done| |]; [|intros st; cbn; by rewrite !sa_align_cost].
    intros st _ [Ht Hr Hf Hpe Hra Hco Ho Hpl]; split; cbn; rewrite ?sa_align_cost; try done.
    + apply scope_state_spec in Ht as (T1 & T2 & T3 & T4); apply scope_state_spec; cbn; split_and!; try lia; auto with fair.
    + by destruct s as [? []|].
Qed.

(** The record a selection leaves. *)
Definition leased_record (g : FairPermitGeneration) (r : CandidateRecord) : CandidateRecord :=
  set_cr_acquisition_generation (Some g) (set_cr_state CS_Leased r).

Lemma free_after l l' s c :
  same_capacity l l' → scope_free l s c →
  ∃ st, fl_scopes l' !! s = Some st ∧ ss_permits st ≠ 0 ∧ sa_cost (ss_service st) + c ≤ U64_MAX.
Proof.
  intros [Hreg Hsame] [(st & Hst & _ & Hc & _ & Hp & _)].
  destruct (rg_scopes _ _ Hreg s (mk_is_Some _ _ Hst)) as [st' Hst']. exists st'. split; [done|].
  apply Hsame in Hst' as (st0 & Hst0 & -> & ->). simplify_eq. done.
Qed.

Lemma acquire_scopes l l' r g j d :
  scopes_ok l' d → is_budget (fl_budget l') = true → (∀ s, dm_slack d s = 0) → same_capacity l l' → admitted l j r g →
  1 ≤ fc_cost_units (cr_candidate r) →
  let c := fc_cost_units (cr_candidate r) in
  let l1 := acquire_scope (fc_scope (cr_candidate r)) c SC_Service l' in
  scopes_ok (match sel_primary (selection_of r g) with
             | Some primary => acquire_scope primary c SC_ParentCapacity l1
             | None => l1
             end) (with_lease (leased_record g r) d).
Proof.
  intros Hok Hb Hslack Hsame Had Hc c l1. destruct (free_after _ _ _ _ Hsame (ad_scope _ _ _ _ Had)) as (st & Hst & Hp & Hle).
  cbn [selection_of sel_primary]. set (s := fc_scope (cr_candidate r)) in *. fold c in Hle.
  assert (scopes_ok l1 (charge_demand s SC_Service 1 c c d)) as H1.
  { apply (acquire_ok l' d s c SC_Service st); try done; [lia|]. intros Hs _.
    pose proof (own_within_service l' d s st Hok ltac:(by rewrite Hslack) Hs Hst). lia. }
  destruct (FairScope_is_secondary s) eqn:Hsec.
  - set (p := FairScope_primary_scope s). assert (p ≠ s) as Hps by by apply primary_of_secondary.
    destruct (free_after _ _ _ _ Hsame (ad_primary _ _ _ _ Had Hsec)) as (stp & Hstp & Hpp & Hlep). fold s p c in Hstp, Hlep.
    assert (fl_scopes l1 !! p = Some stp) as Hstp1 by (unfold l1, acquire_scope; by rewrite lookup_update_scope, decide_False).
    eapply scopes_ok_same; [|eapply (acquire_ok l1 _ p c SC_ParentCapacity stp H1); try done; lia].
    split; intros i; cbn; unfold slack_at, cost_in, flight_in, own_in; cbn; try done;
      try (rewrite charged_spec; fold s c p; unfold add_at; scopes_cases).
    + fold s c. unfold add_at. scopes_cases.
    + rewrite Hsec. unfold p. rewrite primary_not_secondary, (primary_scoped s Hsec). unfold add_at. fold p. scopes_cases.
  - eapply scopes_ok_same; [|exact H1]. pose proof (primary_of_plain s Hsec) as Hps.
    split; intros i; cbn; unfold slack_at, cost_in, flight_in, own_in; cbn; try done;
      try (rewrite charged_spec; fold s c; rewrite Hps; unfold add_at; scopes_cases).
    + fold s c. unfold add_at. scopes_cases.
    + by rewrite Hsec.
Qed.

Lemma charge_orders l l' r g j keys :
  orders_ok l' keys → fl_orders l' = fl_orders l → admitted l j r g → is_fixed_id (fc_job_id (cr_candidate r)) = true →
  orders_ok (match fc_ordering_key (cr_candidate r) with
             | Some key => update_order (acquired_order (fc_job_id (cr_candidate r))) key l'
             | None => l'
             end) (λ k, keys k + key_in k (leased_record g r)).
Proof.
  intros Hok Ho Had Hid. unfold key_in. cbn. destruct (fc_ordering_key (cr_candidate r)) as [k|] eqn:Hk.
  - destruct (ad_order _ _ _ _ Had k Hk) as (o & Ho' & Hfree & _). rewrite <- Ho in Ho'.
    apply (orders_update l' keys _ k _ Hok).
    + intros o0 Ho0 [T1 [T2 [T3 T4]]]%order_spec Hf. simplify_eq. rewrite Hfree in Hf. rewrite bool_decide_true by done.
      split; [apply order_spec; cbn; unfold saturating_add, U64_MAX in *; split_and!; try done; lia|cbn in *; lia].
    + congruence.
    + intros i Hi. rewrite bool_decide_false by congruence. cbn. lia.
  - eapply (orders_ok_ext l'); [done| |exact Hok]. intros k. rewrite bool_decide_false by done. cbn. lia.
Qed.

Lemma generation_typed o g :
  is_option is_nonzero_u64 o = true → next_permit_generation o = Ok g → is_nonzero_u64 g = true.
Proof.
  unfold next_permit_generation, FairPermitGeneration_FIRST, FairPermitGeneration_next, checked_add_u64, checked, is_nonzero_u64.
  destruct o as [g'|]; cbn; [|by intros _ [= <-]]. rewrite in_range_spec. intros Hg.
  destruct (in_range 0 U64_MAX (g' + 1)) eqn:E; [|done]. intros [= <-]. apply in_range_spec in E. apply in_range_spec. lia.
Qed.

Lemma pd_charge_typed d p c : is_priority_deficit d = true → 0 ≤ c → is_priority_deficit (pd_charge d p c) = true.
Proof.
  unfold is_priority_deficit, is_u64, is_u32. rewrite !andb_true_iff, !in_range_spec. intros Hd Hc.
  unfold pd_charge, saturating_add, U32_MAX, U64_MAX in *.
  destruct p; cbn; case_match; cbn; lia.
Qed.

(** ** Selections *)

Record sound_metrics (pass : SelectionPass) (p : CandidatePreparation) : Prop := {
  sn_child : 0 ≤ sm_child_service (cp_metrics p) ≤ U128_MAX;
  sn_lag : 0 ≤ sm_child_service_lag (cp_metrics p);
  sn_min i m : se_min (sp_service_extrema pass) = Some (i, m) → 0 ≤ m ≤ U128_MAX;
}.

Lemma advance_scopes l d sel r g p pass :
  scopes_ok l d → sel = selection_of r g → sound_metrics pass p → 0 ≤ fl_service_clock l ≤ U128_MAX →
  let l' := advance_service_clocks sel p pass l in
  scopes_ok l' d ∧ same_capacity l l' ∧ 0 ≤ fl_service_clock l' ≤ U128_MAX ∧
  fl_candidates l' = fl_candidates l ∧ fl_orders l' = fl_orders l ∧ fl_priority l' = fl_priority l ∧ fl_budget l' = fl_budget l.
Proof.
  intros Hok -> [Hc Hlag Hm] Hclk l'. unfold l', advance_service_clocks. cbn [selection_of sel_scope sel_primary].
  set (s := fc_scope (cr_candidate r)). destruct (is_low_volume s) eqn:Hlow; [by split_and!; try done; lia|].
  set (primary := default s _). set (f := λ st, _).
  assert (is_scoped_primary primary = true) as Hp.
  { unfold primary. by destruct s as [? []|]. }
  assert (scopes_ok (update_scope f primary l) d) as H1.
  { apply scopes_quiet; [done| |done]. intros st _ [Ht Hr Hf Hpe Hra Hco Ho Hpl]. split; try done; [|by rewrite Hp].
    apply scope_state_spec in Ht. apply scope_state_spec. unfold f, saturating_sub. cbn. split_and!; try tauto; lia. }
  assert (same_capacity l (update_scope f primary l)) as H2 by by apply update_same_capacity.
  destruct (se_min _) as [[i m]|] eqn:E; [|by split_and!; try done; cbn; lia].
  specialize (Hm i m eq_refl). split_and!; try done; cbn; try lia.
  - by eapply scopes_ok_ledger; [| |exact H1].
  - destruct H2 as [[? ? ?] ?]. split; [by split|done].
Qed.

Lemma align_parts sel l :
  fl_candidates (align_selection_service sel l) = fl_candidates l ∧ fl_orders (align_selection_service sel l) = fl_orders l ∧
  fl_priority (align_selection_service sel l) = fl_priority l ∧
  fl_service_clock (align_selection_service sel l) = fl_service_clock l.
Proof. unfold align_selection_service. by destruct (is_low_volume _), (sel_primary sel). Qed.

(** [charge_selection] on a ledger with the capacity of the one admitted. *)
Lemma charge_selection_ok l l' j r g :
  ledger_ok l → admitted l j r g → same_capacity l l' → 0 ≤ fl_service_clock l' ≤ U128_MAX →
  fl_candidates l' = fl_candidates l → fl_orders l' = fl_orders l → fl_priority l' = fl_priority l →
  scopes_ok l' (demand_of (fl_candidates l)) →
  let l2 := charge_selection (selection_of r g) l' in
  scopes_ok l2 (with_lease (leased_record g r) (demand_of (fl_candidates l))) ∧
  orders_ok l2 (λ k, keys_of (fl_candidates l) k + key_in k (leased_record g r)) ∧ registers l l2 ∧
  fl_candidates l2 = fl_candidates l ∧ fl_priority l2 = fl_priority l ∧ fl_service_clock l2 = fl_service_clock l'.
Proof.
  intros Hok Had Hsame Hclk Ec Eo Ep Hs l2. pose proof (lk_candidates _ Hok j r (ad_record _ _ _ _ Had)) as Hr.
  destruct (candidate_bounds l j r Hr) as [Hcost _].
  destruct (align_scopes l' _ (selection_of r g) r g Hs eq_refl Hclk) as [Ha1 Ha2].
  destruct (align_parts (selection_of r g) l') as (Ac & Ao & Ap & Ak).
  unfold l2, charge_selection. set (la := align_selection_service (selection_of r g) l') in *.
  assert (same_capacity l la) as Hla by by etrans.
  assert (is_budget (fl_budget la) = true) as Hb by (rewrite (rg_budget _ _ (sc_registers _ _ Hla)); apply Hok).
  pose proof (acquire_scopes l la r g j _ Ha1 Hb (λ _, eq_refl) Hla Had ltac:(lia)) as H1. cbn zeta in H1.
  cbn [selection_of sel_scope sel_cost_units sel_ordering_key sel_job_id]. set (lb := match sel_primary _ with Some _ => _ | None => _ end) in *.
  assert (registers la lb ∧ fl_candidates lb = fl_candidates la ∧ fl_orders lb = fl_orders la ∧ fl_priority lb = fl_priority la
    ∧ fl_service_clock lb = fl_service_clock la) as (Rb & Bc & Bo & Bp & Bk).
  { unfold lb, acquire_scope. destruct (sel_primary _); split_and!; try done; [etrans|]; apply update_scope_registers. }
  assert (registers l lb) as Hreg by (etrans; [apply Hla|done]).
  assert (orders_ok lb (keys_of (fl_candidates l))) as Hob.
  { eapply orders_ok_ext; [|done|apply Hok]. congruence. }
  pose proof (charge_orders l lb r g j _ Hob ltac:(congruence) Had) as H2.
  split_and!.
  - destruct (fc_ordering_key _); [|exact H1]. by eapply scopes_ok_ledger; [| |exact H1].
  - apply H2. destruct Hr as [Ht _ _ _ _]. unfold is_candidate_record, is_candidate in Ht. by split_andb.
  - destruct (fc_ordering_key _); [|done]. etrans; [exact Hreg|apply update_order_registers].
  - destruct (fc_ordering_key _); cbn; congruence.
  - destruct (fc_ordering_key _); cbn; congruence.
  - destruct (fc_ordering_key _); cbn; congruence.
Qed.

Lemma leased_inv l j r g :
  candidate_inv l j r → next_permit_generation (cr_acquisition_generation r) = Ok g → candidate_inv l j (leased_record g r).
Proof.
  intros [Ht Hj Hs Ho Hl] Hg. apply record_spec in Ht as (T1 & T2 & T3). split; try done. apply record_spec.
  split_and!; try done; try apply T2. cbn. by eapply generation_typed.
Qed.

Lemma ready_not_leased s : has_ready_route s = true → is_leased s = false.
Proof. by destruct s. Qed.

Lemma settle_selection_ok l j r g p pass :
  ledger_ok l → admitted l j r g → sound_metrics pass p →
  let '(permit, l') := settle_selection (selection_of r g) p pass l in
  ledger_ok l' ∧ permit = permit_for_leased_record j (leased_record g r) ∧
  fl_candidates l' = <[j := leased_record g r]> (fl_candidates l).
Proof.
  intros Hok Had Hsn. pose proof (ad_record _ _ _ _ Had) as Hj. pose proof (lk_candidates _ Hok j r Hj) as Hr.
  destruct (candidate_bounds l j r Hr) as [Hcost _]. pose proof (ready_not_leased _ (ad_ready _ _ _ _ Had)) as Hl.
  destruct (advance_scopes l _ (selection_of r g) r g p pass (lk_scopes _ Hok) eq_refl Hsn (lk_clock _ Hok))
    as (A1 & A2 & A3 & A4 & A5 & A6 & A7).
  unfold settle_selection. set (l1 := advance_service_clocks _ _ _ _) in *.
  destruct (charge_selection_ok l l1 j r g Hok Had A2 A3 A4 A5 A6 A1) as (C1 & C2 & C3 & C4 & C5 & C6).
  set (l2 := charge_selection _ _) in *. set (l3 := set_fl_priority _ l2).
  cbn [selection_of sel_job_id]. rewrite (ci_job _ _ _ Hr).
  assert (fl_candidates l3 !! j = Some r) as Hj3 by (cbn; by rewrite C4).
  assert (fl_candidates l1 !! j = Some r) as Hj1 by by rewrite A4.
  rewrite (route_after_update _ _ _ r Hj3), (route_of_record l1 j r Hj1). set (l4 := update_candidate _ j l3).
  assert (fl_candidates l4 = <[j := leased_record g r]> (fl_candidates l)) as E4.
  { cbn. rewrite C4. by rewrite (alter_is_insert _ _ _ r Hj). }
  assert (registers l l4) as R4 by (destruct C3; by split).
  split_and!; [| |by rewrite (proj1 (replace_route_parts _ _ _ _))].
  - apply (ledger_reroute l l4 j r (leased_record g r)); try done.
    + eapply (scopes_ok_ledger l2); [done..|]. eapply scopes_ok_same; [|exact C1].
      destruct (without_none r (demand_of (fl_candidates l)) Hl) as [W1 W2 W3 W4 W5].
      split; intros s; cbn in *; rewrite <- ?W2, <- ?W3, <- ?W4; done.
    + eapply (orders_ok_ext l2); [done| |exact C2]. intros k. destruct (not_leased_demand r Hl LowVolume k) as (_ & _ & _ & ->). lia.
    + eapply candidate_inv_mono; [exact R4|]. apply leased_inv; [done|apply Had].
    + cbn. rewrite C5. apply pd_charge_typed; [apply Hok|lia].
    + cbn. by rewrite C6.
  - unfold permit_for_leased_record. done.
Qed.
