(* ===== verification/FairExtrema.v ===== *)
(** * The extrema of a selection pass

    A pass keeps the least and the greatest service of the eligible primaries
    and the runners-up, and checks an admission against two of them.  That is
    checking it against every other eligible primary. *)

From S2P Require Import Prelude Errors Ids Clock Policy JobRecord Ordered Fairness FairLedger FairSelect.

(** [ServiceExtrema_insert] does the same for both ends; [sg] is 1 for the
    minimum and -1 for the maximum. *)
Definition extremum_insert (sg : Z) (x : nat * Z) (first : option (nat * Z)) (second : option Z)
    : option (nat * Z) * option Z :=
  match first with
  | None => (Some x, second)
  | Some (i, v) =>
      if sg * x.2 <? sg * v then (Some x, Some v)
      else (Some (i, v), match second with None => Some x.2 | Some w => if sg * x.2 <? sg * w then Some x.2 else Some w end)
  end.

Lemma insert_is_extremum i s e :
  ServiceExtrema_insert i s e =
  mkServiceExtrema (saturating_add USIZE_MAX (se_count e) 1)
    (extremum_insert 1 (i, s) (se_min e) (se_second_min e)).1 (extremum_insert 1 (i, s) (se_min e) (se_second_min e)).2
    (extremum_insert (-1) (i, s) (se_max e) (se_second_max e)).1 (extremum_insert (-1) (i, s) (se_max e) (se_second_max e)).2.
Proof.
  unfold ServiceExtrema_insert, extremum_insert. cbn [snd].
  assert (∀ a b, (1 * a <? 1 * b) = (a <? b)) as E1 by (intros; lia).
  assert (∀ a b, (-1 * a <? -1 * b) = (b <? a)) as E2 by (intros; lia).
  destruct (se_min e) as [[i1 v1]|], (se_max e) as [[i2 v2]|]; rewrite ?E1, ?E2; try done;
    repeat (case_match; try done); cbn in *; try congruence; rewrite ?E1, ?E2 in *; congruence.
Qed.

(** The first and second of [xs]. *)
Definition extremes (sg : Z) (xs : list (nat * Z)) (first : option (nat * Z)) (second : option Z) : Prop :=
  match first with
  | None => xs = [] ∧ second = None
  | Some (i, v) => ∃ ys, xs ≡ₚ (i, v) :: ys ∧ (∀ y, y ∈ ys → sg * v ≤ sg * y.2) ∧
      match second with
      | None => ys = []
      | Some w => (∃ y, y ∈ ys ∧ y.2 = w) ∧ ∀ y, y ∈ ys → sg * w ≤ sg * y.2
      end
  end.

Lemma extremum_insert_ok sg x xs first second :
  extremes sg xs first second →
  extremes sg (xs ++ [x]) (extremum_insert sg x first second).1 (extremum_insert sg x first second).2.
Proof.
  intros Hx. destruct first as [[i v]|]; cbn in *.
  - destruct Hx as (ys & Hp & Hv & Hsec). destruct (Z.ltb_spec (sg * x.2) (sg * v)) as [Hlt|Hge]; cbn.
    + destruct x as [n u]. cbn in *. exists ((i, v) :: ys). split_and!.
      * rewrite Hp. symmetry. apply Permutation_cons_append.
      * intros y [->|Hy]%elem_of_cons; cbn; [lia|]. specialize (Hv y Hy). lia.
      * exists (i, v). split; [apply elem_of_cons; auto|done].
      * intros y [->|Hy]%elem_of_cons; cbn; [lia|]. by apply Hv.
    + exists (ys ++ [x]). split_and!.
      * by rewrite Hp.
      * intros y [Hy|Hy%list_elem_of_singleton]%elem_of_app; [by apply Hv|by subst].
      * destruct second as [w|].
        -- destruct Hsec as [(y0 & Hy0 & <-) Hw].
           destruct (Z.ltb_spec (sg * x.2) (sg * y0.2)); (split; [eexists; split; [|reflexivity]; set_solver|]);
             intros y [Hy|Hy%list_elem_of_singleton]%elem_of_app; subst; try lia; specialize (Hw y Hy); lia.
        -- subst ys. split; [exists x; split; [set_solver|done]|]. intros y Hy%list_elem_of_singleton. subst. lia.
  - destruct Hx as [-> ->]. destruct x as [n u]. exists []. split_and!; [done|set_solver|done].
Qed.

(** The extremum of the others is one, when there is another. *)
Lemma other_extremum_ok sg xs first second i :
  NoDup xs.*1 → extremes sg xs first second →
  match other_extremum i first second with
  | Some v => (∃ y, y ∈ xs ∧ y.1 ≠ i ∧ y.2 = v) ∧ ∀ y, y ∈ xs → y.1 ≠ i → sg * v ≤ sg * y.2
  | None => ∀ y, y ∈ xs → y.1 = i
  end.
Proof.
  intros Hnd Hx. destruct first as [[n v]|]; cbn in *; [|destruct Hx as [-> _]; set_solver].
  destruct Hx as (ys & Hp & Hv & Hsec). rewrite Hp in Hnd. cbn in Hnd. apply NoDup_cons in Hnd as [Hn _].
  assert (∀ y, y ∈ xs ↔ y = (n, v) ∨ y ∈ ys) as Hin by (intros y; rewrite Hp; apply elem_of_cons).
  destruct (Nat.eqb_spec n i) as [->|Hne]; cbn.
  - assert (∀ y, y ∈ ys → y.1 ≠ i) as Hys by (intros y Hy E; apply Hn, list_elem_of_fmap; eauto).
    destruct second as [w|].
    + destruct Hsec as [(y0 & Hy0 & <-) Hw]. split; [exists y0; rewrite Hin; auto|].
      intros y [->|Hy]%Hin Hyi; [done|by apply Hw].
    + subst ys. intros y [->|?%not_elem_of_nil]%Hin; done.
  - split; [exists (n, v); rewrite Hin; auto|]. intros y [->|Hy]%Hin _; cbn; [lia|by apply Hv].
Qed.

(** ** The check *)

Definition eligible_services (stats : list PrimaryStats) : list (nat * Z) :=
  (λ p, (p.1, ps_normalized_service p.2)) <$> filter (λ p, ps_eligible p.2 = true) (imap (λ i s, (i, s)) stats).

(** An admission at [service] is within the bound of every other primary. *)
Definition bound_allows (xs : list (nat * Z)) (i : nat) (service bound : Z) : bool :=
  (length xs <=? 1)%nat || forallb (λ y, (y.1 =? i)%nat || (abs_diff service y.2 <=? bound)) xs.

Lemma build_fold stats :
  build_service_extrema stats = foldl (λ e y, ServiceExtrema_insert y.1 y.2 e) ServiceExtrema_default (eligible_services stats).
Proof.
  unfold build_service_extrema, eligible_services. generalize ServiceExtrema_default as e0.
  induction (imap _ stats) as [|p ps IH]; intros e0; cbn [foldl]; [done|].
  rewrite filter_cons. destruct (ps_eligible p.2) eqn:E; [rewrite decide_True by done|rewrite decide_False by done]; cbn; apply IH.
Qed.

Lemma extrema_fold xs :
  let e := foldl (λ e y, ServiceExtrema_insert y.1 y.2 e) ServiceExtrema_default xs in
  extremes 1 xs (se_min e) (se_second_min e) ∧ extremes (-1) xs (se_max e) (se_second_max e) ∧
  se_count e = Z.min USIZE_MAX (Z.of_nat (length xs)).
Proof.
  induction xs as [|[i s] xs IH] using rev_ind; cbn zeta in *; [by split_and!|].
  rewrite foldl_app. cbn [foldl]. destruct IH as (H1 & H2 & H3). rewrite insert_is_extremum.
  cbn [se_min se_second_min se_max se_second_max se_count fst snd]. split_and!; [by apply extremum_insert_ok..|].
  rewrite H3, length_app. unfold saturating_add. cbn. lia.
Qed.

Lemma eligible_indices (stats : list PrimaryStats) i v :
  (i, v) ∈ eligible_services stats ↔
  ∃ s, stats !! i = Some s ∧ ps_eligible s = true ∧ ps_normalized_service s = v.
Proof.
  unfold eligible_services. rewrite list_elem_of_fmap. split.
  - intros ([n s] & [= -> ->] & [He Hin]%list_elem_of_filter). apply elem_of_lookup_imap in Hin as (k & s' & [= -> ->] & Hk). eauto.
  - intros (s & Hs & He & <-). exists (i, s). split; [done|]. apply list_elem_of_filter. split; [done|].
    apply elem_of_lookup_imap. eauto.
Qed.

Lemma eligible_nodup (stats : list PrimaryStats) : NoDup (eligible_services stats).*1.
Proof.
  unfold eligible_services. rewrite <- list_fmap_compose.
  assert (NoDup (imap (λ i s, (i, s)) stats).*1) as Hnd.
  { rewrite fmap_imap. rewrite (imap_ext _ (λ i (_ : PrimaryStats), i)) by done. rewrite (imap_seq_0 stats (λ i, i)).
    rewrite list_fmap_id. apply NoDup_seq. }
  apply NoDup_fmap_2_strong; [|apply NoDup_filter, (NoDup_fmap_1 fst), Hnd].
  intros p q [_ Hp]%list_elem_of_filter [_ Hq]%list_elem_of_filter Heq.
  apply elem_of_lookup_imap in Hp as (i & s & -> & Hs), Hq as (k & s' & -> & Hs'). cbn in Heq. congruence.
Qed.

(** Between the extrema everything is within the bound. *)
Lemma extrema_allow xs i service bound :
  NoDup xs.*1 → Z.of_nat (length xs) ≤ USIZE_MAX →
  ServiceExtrema_allows (foldl (λ e y, ServiceExtrema_insert y.1 y.2 e) ServiceExtrema_default xs) i service bound
  = bound_allows xs i service bound.
Proof.
  intros Hnd Hlen. destruct (extrema_fold xs) as (H1 & H2 & H3). cbn zeta in *. set (e := foldl _ _ _) in *.
  unfold ServiceExtrema_allows, bound_allows. rewrite H3, Z.min_r by done.
  replace (Z.of_nat (length xs) <=? 1) with (length xs <=? 1)%nat by (apply eq_true_iff_eq; rewrite Nat.leb_le; lia).
  destruct (length xs <=? 1)%nat; [done|]. cbn [orb].
  apply (other_extremum_ok 1 xs _ _ i Hnd) in H1. apply (other_extremum_ok (-1) xs _ _ i Hnd) in H2.
  apply eq_true_iff_eq. rewrite andb_true_iff, forallb_forall.
  assert (∀ o, within_bound service bound o = true ↔ ∀ v, o = Some v → Z.abs (service - v) ≤ bound) as Hw.
  { intros [v|]; cbn; unfold abs_diff; [rewrite Z.leb_le|]; naive_solver. }
  rewrite !Hw. setoid_rewrite orb_true_iff. setoid_rewrite Nat.eqb_eq. setoid_rewrite Z.leb_le. unfold abs_diff. split.
  - intros [Hmin Hmax] y Hy%list_elem_of_In. destruct (decide (y.1 = i)) as [|Hne]; [auto|right].
    destruct (other_extremum i (se_min e) _) as [mn|]; [|by destruct Hne; apply H1].
    destruct (other_extremum i (se_max e) _) as [mx|]; [|by destruct Hne; apply H2].
    specialize (Hmin mn eq_refl). specialize (Hmax mx eq_refl). destruct H1 as [_ H1], H2 as [_ H2].
    specialize (H1 y Hy Hne). specialize (H2 y Hy Hne). lia.
  - intros Hall. split; intros v Hv; rewrite Hv in *.
    + destruct H1 as [(y & Hy & Hne & <-) _]. destruct (Hall y) as [?|?]; [by apply list_elem_of_In|done|done].
    + destruct H2 as [(y & Hy & Hne & <-) _]. destruct (Hall y) as [?|?]; [by apply list_elem_of_In|done|done].
Qed.

Lemma length_eligible (stats : list PrimaryStats) : (length (eligible_services stats) ≤ length stats)%nat.
Proof.
  unfold eligible_services. rewrite length_fmap. etrans; [apply length_filter|]. by rewrite length_imap.
Qed.
