(* ===== verification/FairPass.v ===== *)
(** * The snapshot of a selection pass

    [prepare_selection_pass] walks the candidates once, updating one vector of
    statistics.  Here is what the walk computes: the prepared candidates, one
    per candidate, and for every primary its position and whether a candidate
    of it can be admitted; and the two extrema a bound is checked against
    decide the same as comparing with every eligible primary. *)

From S2P Require Import Prelude Errors Ids Clock Policy JobRecord Ordered Fairness FairLedger FairSelect FairInvariant FairSteps FairAdmission.

(** ** The index of the primaries *)

Definition index_primary (indices : gmap FairScope nat) (scope : FairScope) : gmap FairScope nat :=
  if negb (FairScope_is_secondary scope) then <[scope := size indices]> indices else indices.

Record index_ok (m : gmap FairScope nat) : Prop := {
  ix_bound s i : m !! s = Some i → (i < size m)%nat;
  ix_inj s s' i : m !! s = Some i → m !! s' = Some i → s = s';
}.

Lemma index_fold scopes m :
  index_ok m → NoDup scopes → (∀ s, s ∈ scopes → m !! s = None) →
  index_ok (foldl index_primary m scopes) ∧
  ∀ s, is_Some (foldl index_primary m scopes !! s) ↔ is_Some (m !! s) ∨ s ∈ scopes ∧ FairScope_is_secondary s = false.
Proof.
  revert m. induction scopes as [|s scopes IH]; intros m Hm Hnd Hnew; cbn [foldl].
  { split; [done|]. intros s. set_solver. }
  apply NoDup_cons in Hnd as [Hs Hnd]. pose proof (Hnew s ltac:(set_solver)) as Hms. unfold index_primary at 2 4.
  destruct (FairScope_is_secondary s) eqn:Hsec; cbn [negb].
  - destruct (IH m Hm Hnd) as [H1 H2]; [set_solver|]. split; [done|]. intros i. rewrite H2. split; [set_solver|].
    intros [?|[[->|?]%elem_of_cons ?]]; [auto|congruence|auto].
  - destruct (IH (<[s := size m]> m)) as [H1 H2]; [|done| |].
    + split.
      * intros i n. rewrite lookup_insert_Some, map_size_insert_None by done.
        intros [[<- <-]|[_ Hi]]; [lia|]. apply (ix_bound _ Hm) in Hi. lia.
      * intros i i' n. rewrite !lookup_insert_Some. intros [[<- <-]|[Hne Hi]] [[<- Hn]|[Hne' Hi']]; try done.
        -- apply (ix_bound _ Hm) in Hi'. lia.
        -- apply (ix_bound _ Hm) in Hi. lia.
        -- by eapply (ix_inj _ Hm).
    + intros i Hi. rewrite lookup_insert_ne by set_solver. set_solver.
    + split; [done|]. intros i. rewrite H2, lookup_insert_is_Some'. split; [|rewrite elem_of_cons; naive_solver].
      intros [[<-|?]|[? ?]]; [right; split; [set_solver|done]|auto|right; set_solver].
Qed.

Lemma primary_indices_ok l :
  index_ok (primary_indices l) ∧
  ∀ s, is_Some (primary_indices l !! s) ↔ is_Some (fl_scopes l !! s) ∧ FairScope_is_secondary s = false.
Proof.
  destruct (index_fold (btree (fl_scopes l)).*1 ∅) as [H1 H2].
  - by split.
  - apply btree_nodup.
  - done.
  - split; [exact H1|]. intros s. etrans; [apply (H2 s)|]. rewrite lookup_empty, list_elem_of_fmap. split.
    + intros [[? ?]|[([s' st] & -> & Hin) ?]]; [done|]. apply elem_of_btree in Hin. eauto.
    + intros [[st Hst] ?]. right. split; [|done]. exists (s, st). by rewrite elem_of_btree.
Qed.

(** ** The positions of the primaries *)

Definition primary_position (l : FairnessLedger) (s : FairScope) (st : ScopeState) : Z :=
  if is_low_volume s then 0 else sa_position (ss_service st) (ss_weight st) (fl_service_clock l).

Definition set_position (l : FairnessLedger) (stats : list PrimaryStats) (e : FairScope * nat) : list PrimaryStats :=
  match fl_scopes l !! e.1 with
  | Some st => alter (set_normalized_service (primary_position l e.1 st)) e.2 stats
  | None => stats
  end.

Lemma positions_fold l es stats :
  NoDup es.*2 →
  length (foldl (set_position l) stats es) = length stats ∧
  (∀ i, i ∉ es.*2 → foldl (set_position l) stats es !! i = stats !! i) ∧
  ∀ s i st, (s, i) ∈ es → fl_scopes l !! s = Some st →
    foldl (set_position l) stats es !! i = set_normalized_service (primary_position l s st) <$> stats !! i.
Proof.
  revert stats. induction es as [|[s n] es IH]; intros stats Hnd; cbn [foldl fmap list_fmap].
  { split_and!; [done|done|]. intros ? ? ? ?%not_elem_of_nil. done. }
  apply NoDup_cons in Hnd as [Hn Hnd]. destruct (IH (set_position l stats (s, n)) Hnd) as (H1 & H2 & H3).
  assert (length (set_position l stats (s, n)) = length stats ∧
    ∀ i, i ≠ n → set_position l stats (s, n) !! i = stats !! i) as [L1 L2].
  { unfold set_position. cbn. destruct (fl_scopes l !! s); [|done].
    split; [apply length_alter|]. intros i Hi. by rewrite list_lookup_alter_ne. }
  split_and!.
  - by rewrite H1.
  - intros i [? ?]%not_elem_of_cons. rewrite H2 by done. by apply L2.
  - intros s' i st Hin Hst. apply elem_of_cons in Hin as [[= -> ->]|Hin].
    + rewrite H2 by done. unfold set_position. cbn. rewrite Hst. apply list_lookup_alter_eq.
    + rewrite (H3 s' i st) by done. rewrite L2; [done|]. intros ->. destruct Hn. apply list_elem_of_fmap.
      by exists (s', n).
Qed.

Lemma indices_nodup l : NoDup (btree (primary_indices l)).*2.
Proof.
  destruct (primary_indices_ok l) as [[_ Hinj] _]. apply NoDup_fmap_2_strong; [|apply (NoDup_fmap_1 fst), btree_nodup].
  intros [s i] [s' i'] H1 H2 [= ->]. apply elem_of_btree in H1, H2. by rewrite (Hinj s s' i').
Qed.

(** The statistics before the walk. *)
Definition base_stats (l : FairnessLedger) : list PrimaryStats := prepare_primary_stats l (primary_indices l).

Lemma base_stats_fold l :
  base_stats l = foldl (set_position l) (replicate (size (primary_indices l)) PrimaryStats_default) (btree (primary_indices l)).
Proof. done. Qed.

Lemma base_stats_primary l s i st :
  primary_indices l !! s = Some i → fl_scopes l !! s = Some st →
  base_stats l !! i = Some (set_normalized_service (primary_position l s st) PrimaryStats_default).
Proof.
  intros Hi Hst. rewrite base_stats_fold.
  destruct (positions_fold l (btree (primary_indices l)) (replicate (size (primary_indices l)) PrimaryStats_default)
    (indices_nodup l)) as (_ & _ & H3).
  rewrite (H3 s i st) by (try done; by apply elem_of_btree).
  rewrite lookup_replicate_2; [done|]. apply (ix_bound _ (proj1 (primary_indices_ok l)) s i Hi).
Qed.

Lemma base_stats_plain l i stats :
  ledger_ok l → base_stats l !! i = Some stats → ps_eligible stats = false ∧ 0 ≤ ps_normalized_service stats ≤ U128_MAX.
Proof.
  intros Hok Hi. destruct (decide (i ∈ (btree (primary_indices l)).*2)) as [Hin|Hno].
  - apply list_elem_of_fmap in Hin as ([s n] & -> & Hin). apply elem_of_btree in Hin.
    destruct (primary_indices_ok l) as [_ Hdom]. destruct (proj1 (Hdom s) (mk_is_Some _ _ Hin)) as [[st Hst] _].
    cbn in Hi. rewrite (base_stats_primary l s n st Hin Hst) in Hi. injection Hi as <-. split; [done|]. cbn.
    unfold primary_position. destruct (is_low_volume s); [unfold U128_MAX; lia|].
    apply (so_inv _ _ (lk_scopes _ Hok)) in Hst as [Ht _ _ _ _ _ _ _]. apply scope_state_spec in Ht as (T1 & T2 & _).
    apply sa_position_range; [done|lia|apply Hok].
  - rewrite base_stats_fold in Hi.
    destruct (positions_fold l (btree (primary_indices l)) (replicate (size (primary_indices l)) PrimaryStats_default)
      (indices_nodup l)) as (_ & H2 & _).
    rewrite H2 in Hi by done. apply lookup_replicate_1 in Hi as [-> _]. unfold U128_MAX. cbn. lia.
Qed.

(** ** The walk over the candidates *)

Definition services (stats : list PrimaryStats) : list Z := ps_normalized_service <$> stats.

Lemma prepare_services l j indices stats stats' :
  services stats = services stats' →
  prepare_candidate_for_pass l j indices stats = prepare_candidate_for_pass l j indices stats'.
Proof.
  intros Hs. unfold prepare_candidate_for_pass, candidate_service_metrics.
  assert (∀ i, ps_normalized_service <$> stats !! i = ps_normalized_service <$> stats' !! i) as E.
  { intros i. rewrite <- !list_lookup_fmap. unfold services in Hs. by rewrite Hs. }
  destruct (validate_candidate l j) as [[c g]|]; [|done]. cbn.
  destruct (indices !! _) as [i|]; cbn; [|done].
  destruct (fl_scopes l !! (if FairScope_is_secondary (fc_scope c) then _ else _)); cbn; [|done].
  specialize (E i). destruct (stats !! i), (stats' !! i); cbn in *; [by injection E as ->|done..].
Qed.

Lemma services_alter (f : PrimaryStats → PrimaryStats) i stats :
  (∀ s, ps_normalized_service (f s) = ps_normalized_service s) → services (alter f i stats) = services stats.
Proof.
  intros Hf. unfold services. apply list_eq. intros n. rewrite !list_lookup_fmap.
  destruct (decide (i = n)) as [<-|]; [rewrite list_lookup_alter_eq|by rewrite list_lookup_alter_ne].
  destruct (stats !! i); cbn; [by rewrite Hf|done].
Qed.

(** The candidate a mark of primary [i] comes from. *)
Definition marks (l : FairnessLedger) (i : nat) (pc : PreparedCandidate) : bool :=
  pc_ready pc && pc_due pc
  && match pc_preparation pc with
     | Ok p => negb (cf_low_volume (cp_facts p)) && (cf_cost_units (cp_facts p) <=? fb_max_cost_units (fl_budget l))
               && bool_decide (sm_primary_index (cp_metrics p) = i)
     | Err _ => false
     end.

Section pass.
Context (l : FairnessLedger) (now : option Timestamp) (eligible : option (gset JobId)).
Implicit Types e : JobId * CandidateRecord.

Definition in_pass (j : JobId) : bool := match eligible with Some ids => bool_decide (j ∈ ids) | None => true end.
Definition is_due (c : FairCandidate) : bool := match now with Some now => fc_scheduled_at c <=? now | None => true end.

(** What the walk prepares for a candidate. *)
Definition prepared_of e : PreparedCandidate :=
  let c := cr_candidate e.2 in
  mkPreparedCandidate (fc_job_id c) (in_pass (fc_job_id c) && has_ready_route (cr_state e.2))
    (in_pass (fc_job_id c) && is_due c)
    (if in_pass (fc_job_id c) then prepare_candidate_for_pass l (fc_job_id c) (primary_indices l) (base_stats l)
     else Err FR_UnknownScope).

(** The candidates counted for primary [i]. *)
Definition counts (i : nat) e : bool :=
  pc_ready (prepared_of e)
  && bool_decide (primary_indices l !! FairScope_primary_scope (fc_scope (cr_candidate e.2)) = Some i).

(** What the walk does at [e] to the statistics of primary [i]. *)
Definition stat_step (i : nat) (s : PrimaryStats) e : PrimaryStats :=
  let s := if counts i e
           then mkPrimaryStats (saturating_add U32_MAX (ps_candidate_count s) 1) (ps_eligible s) (ps_normalized_service s)
                  (ps_child_minimum s)
           else s in
  match pc_preparation (prepared_of e) with
  | Ok p =>
      if marks l i (prepared_of e)
      then mkPrimaryStats (ps_candidate_count s) true (ps_normalized_service s)
             (Some (match ps_child_minimum s with
                    | Some m => Z.min m (sm_child_service (cp_metrics p))
                    | None => sm_child_service (cp_metrics p)
                    end))
      else s
  | Err _ => s
  end.

Lemma alter_at (f : PrimaryStats → PrimaryStats) n i (stats : list PrimaryStats) :
  alter f n stats !! i = (if bool_decide (n = i) then f <$> stats !! i else stats !! i).
Proof.
  case_bool_decide as Hn; [subst; apply list_lookup_alter_eq|by apply list_lookup_alter_ne].
Qed.

Lemma walk_entry e stats :
  services stats = services (base_stats l) →
  prepare_candidate_entry l (cr_candidate e.2) (has_ready_route (cr_state e.2)) now eligible (primary_indices l) stats =
  (prepared_of e, (prepare_candidate_entry l (cr_candidate e.2) (has_ready_route (cr_state e.2)) now eligible (primary_indices l) stats).2)
  ∧ ∀ i, (prepare_candidate_entry l (cr_candidate e.2) (has_ready_route (cr_state e.2)) now eligible (primary_indices l) stats).2 !! i
    = (λ s, stat_step i s e) <$> stats !! i.
Proof.
  intros Hs. unfold prepare_candidate_entry. fold (in_pass (fc_job_id (cr_candidate e.2))). fold (is_due (cr_candidate e.2)).
  set (ready := in_pass _ && has_ready_route _). set (due := in_pass _ && is_due _).
  set (stats1 := record_ready_candidate _ ready _ stats).
  assert (services stats1 = services (base_stats l)) as Hs1.
  { unfold stats1, record_ready_candidate. destruct ready; [|done]. destruct (_ !! _); [|done]. by rewrite services_alter. }
  rewrite (prepare_services l _ _ stats1 (base_stats l) Hs1). cbn [fst snd]. split; [done|]. intros i.
  assert (stats1 !! i = (λ s, if counts i e then mkPrimaryStats (saturating_add U32_MAX (ps_candidate_count s) 1) (ps_eligible s)
    (ps_normalized_service s) (ps_child_minimum s) else s) <$> stats !! i) as E1.
  { unfold stats1, record_ready_candidate, counts. cbn [prepared_of pc_ready]. fold ready.
    destruct ready; cbn [andb]; [|by destruct (stats !! i)]. destruct (primary_indices l !! _) as [n|] eqn:Hn.
    - rewrite alter_at. rewrite (bool_decide_ext (Some n = Some i) (n = i)) by (split; congruence).
      by case_bool_decide; destruct (stats !! i).
    - by destruct (stats !! i). }
  unfold mark_eligible_candidate, stat_step, marks. cbn [prepared_of pc_preparation pc_ready pc_due]. fold ready due.
  destruct (if in_pass _ then _ else _) as [p|]; [|by rewrite E1].
  destruct (ready && due && negb (cf_low_volume (cp_facts p)) && (cf_cost_units (cp_facts p) <=? fb_max_cost_units (fl_budget l))) eqn:Hm.
  - rewrite alter_at, E1. rewrite !andb_true_iff in Hm. destruct Hm as [[[-> ->] ->] ->]. cbn [andb].
    case_bool_decide; by destruct (stats !! i).
  - rewrite E1. destruct (stats !! i); [|done]. cbn [fmap option_fmap option_map]. f_equal.
    rewrite !andb_assoc, Hm. done.
Qed.

Lemma stat_step_service i s e : ps_normalized_service (stat_step i s e) = ps_normalized_service s.
Proof. unfold stat_step. destruct (counts i e), (pc_preparation _); try done; by destruct (marks l i _). Qed.

Lemma walk_services e stats stats' :
  services stats = services (base_stats l) → (∀ i, stats' !! i = (λ s, stat_step i s e) <$> stats !! i) →
  services stats' = services (base_stats l).
Proof.
  intros <- Hl. unfold services. apply list_eq. intros i. rewrite !list_lookup_fmap, Hl.
  destruct (stats !! i); cbn; [by rewrite stat_step_service|done].
Qed.

Lemma walk es acc stats :
  services stats = services (base_stats l) →
  let result := foldl (λ acc e,
      let '(candidates, stats) := acc in
      let '(prepared, stats) :=
        prepare_candidate_entry l (cr_candidate e.2) (has_ready_route (cr_state e.2)) now eligible (primary_indices l) stats in
      (candidates ++ [prepared], stats)) (acc, stats) es in
  result.1 = acc ++ (prepared_of <$> es) ∧ ∀ i, result.2 !! i = (λ s, foldl (stat_step i) s es) <$> stats !! i.
Proof.
  revert acc stats. induction es as [|e es IH]; intros acc stats Hs; cbn [foldl].
  { cbn. rewrite app_nil_r. split; [done|]. intros i. by destruct (stats !! i). }
  destruct (walk_entry e stats Hs) as [E1 E2]. destruct (prepare_candidate_entry _ _ _ _ _ _ _) as [prepared stats1].
  injection E1 as ->. cbn [snd] in E2. destruct (IH (acc ++ [prepared_of e]) stats1) as [H1 H2].
  { by eapply walk_services. }
  split; [cbn zeta in *; rewrite H1; by rewrite <- app_assoc|]. intros i. cbn zeta in *. rewrite H2, E2.
  by destruct (stats !! i).
Qed.

(** The statistics after the walk. *)
Definition final_stats : list PrimaryStats :=
  imap (λ i s, foldl (stat_step i) s (btree (fl_candidates l))) (base_stats l).

Lemma pass_spec :
  prepare_selection_pass l now eligible =
  mkSelectionPass ((λ e, attach_counts final_stats (prepared_of e)) <$> btree (fl_candidates l))
    (build_service_extrema final_stats).
Proof.
  unfold prepare_selection_pass, prepare_candidates, attach_candidate_counts.
  destruct (walk (btree (fl_candidates l)) [] (base_stats l) eq_refl) as [H1 H2]. cbn zeta in H1, H2.
  fold (base_stats l). destruct (foldl _ _ _) as [cs stats]. cbn in H1, H2. subst cs.
  assert (stats = final_stats) as ->; [|by rewrite <- list_fmap_compose].
  apply list_eq. intros i. unfold final_stats. rewrite list_lookup_imap. by rewrite H2.
Qed.
End pass.
