(* ===== verification/FairSearch.v ===== *)
(** * The search of a selection pass

    What [find_due_candidate] finds, that the loop around it ends, and that a
    selection keeps the invariant of the ledger. *)

From S2P Require Import Prelude Errors Ids Clock Policy JobRecord Ordered Fairness FairLedger FairSelect FairExtrema FairInvariant FairSteps FairAdmission FairPass.

(** ** The search *)

(** The candidate passes every check of a pass. *)
Record admits (l : FairnessLedger) (pass : SelectionPass) (bulk_ready : bool) (pc : PreparedCandidate)
    (p : CandidatePreparation) : Prop := {
  am_ready : pc_ready pc = true;
  am_due : pc_due pc = true;
  am_checked : check_selection l pc bulk_ready = Ok p;
  am_normalized : check_normalized_admission l p pass = Ok tt;
}.

Record found (l : FairnessLedger) (pass : SelectionPass) (bulk_ready : bool) (xs : list PreparedCandidate)
    (search : DueCandidateSearch) : Prop := {
  fd_some j p score : ds_best search = Some (j, p, score) →
    (∃ pc, pc ∈ xs ∧ admits l pass bulk_ready pc p ∧ pc_job_id pc = j ∧ score = selection_score j p) ∧
    ∀ pc p', pc ∈ xs → admits l pass bulk_ready pc p' → key_ltb (selection_score (pc_job_id pc) p') score = false;
  fd_none : ds_best search = None → ∀ pc p, pc ∈ xs → ¬ admits l pass bulk_ready pc p;
  fd_priority : ds_priority_rejected search = true ↔
    ∃ pc, pc ∈ xs ∧ pc_ready pc = true ∧ pc_due pc = true ∧ check_selection l pc bulk_ready = Err FR_PriorityDeficit;
  fd_first : ds_first_rejection search = None → ∀ pc, pc ∈ xs → pc_ready pc = true → pc_due pc = true →
    ∃ p, admits l pass bulk_ready pc p;
  fd_empty : (∀ pc, pc ∈ xs → pc_ready pc = true → pc_due pc = false) → ds_first_rejection search = None;
}.

Section search.
Context (l : FairnessLedger) (pass : SelectionPass) (bulk_ready : bool).

(** What the step does with one candidate. *)
Inductive search_outcome (pc : PreparedCandidate) : Type :=
  | SO_Skipped (H : pc_ready pc = true → pc_due pc = false)
  | SO_Rejected (reason : FairnessRejection) (H1 : pc_ready pc = true) (H2 : pc_due pc = true)
      (H3 : check_selection l pc bulk_ready = Err reason)
  | SO_Bounded (p : CandidatePreparation) (H1 : pc_ready pc = true) (H2 : pc_due pc = true)
      (H3 : check_selection l pc bulk_ready = Ok p) (H4 : check_normalized_admission l p pass ≠ Ok tt)
  | SO_Admitted (p : CandidatePreparation) (H : admits l pass bulk_ready pc p).

Definition outcome_of (pc : PreparedCandidate) : search_outcome pc.
Proof.
  destruct (pc_ready pc) eqn:Hr; [|by apply SO_Skipped; rewrite Hr].
  destruct (pc_due pc) eqn:Hd; [|by apply SO_Skipped].
  destruct (check_selection l pc bulk_ready) as [p|reason] eqn:Hc; [|by apply (SO_Rejected pc reason)].
  destruct (check_normalized_admission l p pass) as [[]|] eqn:Hn; [by apply (SO_Admitted pc p)|].
  apply (SO_Bounded pc p); congruence.
Defined.

Lemma admits_unique pc p p' : admits l pass bulk_ready pc p → admits l pass bulk_ready pc p' → p = p'.
Proof. intros [_ _ H1 _] [_ _ H2 _]. congruence. Qed.

Lemma found_skip xs search pc :
  found l pass bulk_ready xs search → (∀ p, ¬ admits l pass bulk_ready pc p) →
  ∀ search', ds_best search' = ds_best search →
  (ds_priority_rejected search' = true ↔ ds_priority_rejected search = true ∨
    (pc_ready pc = true ∧ pc_due pc = true ∧ check_selection l pc bulk_ready = Err FR_PriorityDeficit)) →
  (ds_first_rejection search' = None ↔ ds_first_rejection search = None ∧ (pc_ready pc = true → pc_due pc = false)) →
  found l pass bulk_ready (xs ++ [pc]) search'.
Proof.
  intros [H1 H2 H3 H4 H5] Hno search' Eb Ep Ef. split.
  - rewrite Eb. intros j p score Hb. destruct (H1 j p score Hb) as [(pc0 & Hin & Had & Hj & Hs) Hmin].
    split; [exists pc0; split_and!; [set_solver|done..]|].
    intros pc' p' [Hin'|Heq%list_elem_of_singleton]%elem_of_app Had'; [by apply Hmin|]. subst pc'. by destruct (Hno p').
  - rewrite Eb. intros Hb pc' p' [Hin'|Heq%list_elem_of_singleton]%elem_of_app; [by apply H2|by subst].
  - rewrite Ep, H3. split.
    + intros [(pc' & ? & ? & ? & ?)|(? & ? & ?)]; [exists pc'|exists pc]; split_and!; set_solver.
    + intros (pc' & [?|Heq%list_elem_of_singleton]%elem_of_app & ? & ? & ?); [left; eauto|right; by subst].
  - rewrite Ef. intros [Hf Hsk] pc' [?|Heq%list_elem_of_singleton]%elem_of_app Hr Hd; [by apply H4|].
    subst pc'. rewrite Hsk in Hd by done. done.
  - intros Hall. apply Ef. split; [apply H5|apply Hall]; set_solver.
Qed.

Lemma better_best xs search pc p b :
  found l pass bulk_ready xs search → admits l pass bulk_ready pc p →
  let score := selection_score (pc_job_id pc) p in
  b = Some (pc_job_id pc, p, score) ∧ (∀ j q s, ds_best search = Some (j, q, s) → key_ltb score s = true) ∨
  b = ds_best search ∧ (∃ j q s, ds_best search = Some (j, q, s) ∧ key_ltb score s = false) →
  found l pass bulk_ready (xs ++ [pc]) (mkDueCandidateSearch b (ds_first_rejection search) (ds_priority_rejected search)).
Proof.
  intros [F1 F2 F3 F4 F5] Ha score Hb. split; cbn [ds_best ds_first_rejection ds_priority_rejected].
  - intros j q s Hq. destruct Hb as [[-> Hlt]|[-> (j0 & q0 & s0 & Hb0 & Hge)]].
    + injection Hq as <- <- <-. split; [exists pc; split_and!; set_solver|].
      intros pc' p' [Hin|Heq%list_elem_of_singleton]%elem_of_app Ha'.
      * destruct (ds_best search) as [[[j0 q0] s0]|] eqn:Hb0; [|by destruct (F2 eq_refl pc' p' Hin)].
        destruct (F1 j0 q0 s0 eq_refl) as [_ Hmin]. specialize (Hmin pc' p' Hin Ha'). specialize (Hlt j0 q0 s0 eq_refl).
        destruct (key_ltb (selection_score (pc_job_id pc') p') score) eqn:E; [|done].
        rewrite (key_ltb_trans _ _ _ E Hlt) in Hmin. done.
      * subst pc'. rewrite (admits_unique pc p' p) by done. apply key_ltb_irrefl.
    + rewrite Hb0 in Hq. injection Hq as <- <- <-. destruct (F1 j0 q0 s0 Hb0) as [(pc0 & Hin0 & ? & ? & ?) Hmin].
      split; [exists pc0; split_and!; [set_solver|done..]|].
      intros pc' p' [Hin|Heq%list_elem_of_singleton]%elem_of_app Ha'; [by apply Hmin|]. subst pc'.
      by rewrite (admits_unique pc p' p).
  - intros ->. destruct Hb as [[? _]|[Hb (j0 & q0 & s0 & Hb0 & _)]]; [done|congruence].
  - rewrite F3. split; [intros (pc' & ? & ?); exists pc'; split; [set_solver|done]|].
    intros (pc' & [?|Heq%list_elem_of_singleton]%elem_of_app & ? & ? & ?); [eauto|]. subst pc'. destruct Ha. congruence.
  - intros Hnone pc' [Hin|Heq%list_elem_of_singleton]%elem_of_app; [by apply F4|subst; eauto].
  - intros Hall. apply F5. set_solver.
Qed.

Lemma found_admit xs search pc p :
  found l pass bulk_ready xs search → admits l pass bulk_ready pc p →
  found l pass bulk_ready (xs ++ [pc]) (search_step l pass bulk_ready search pc).
Proof.
  intros Hf Ha. pose proof Ha as [Hr Hd Hc Hn]. unfold search_step. rewrite Hr, Hd, Hc, Hn. cbn [negb orb].
  pose proof (better_best xs search pc p) as Hgoal.
  destruct (ds_best search) as [[[j0 q0] s0]|] eqn:Hb0.
  - destruct (key_ltb _ s0) eqn:Hlt; [apply Hgoal; [done..|]; left; split; [done|]; by intros ? ? ? [= <- <- <-]|].
    destruct search as [b fr pr]. cbn in *. apply Hgoal; [done..|]. right. split; [done|]. eauto.
  - apply Hgoal; [done..|]. left. split; [done|]. done.
Qed.

Lemma found_step xs search pc :
  found l pass bulk_ready xs search → found l pass bulk_ready (xs ++ [pc]) (search_step l pass bulk_ready search pc).
Proof.
  intros Hf. destruct (outcome_of pc) as [Hs|reason H1 H2 H3|p H1 H2 H3 H4|p Ha]; [| | |by eapply found_admit];
    unfold search_step.
  - assert (negb (pc_ready pc) || negb (pc_due pc) = true) as ->.
    { destruct (pc_ready pc); cbn; [by rewrite Hs|done]. }
    eapply found_skip; [exact Hf| |done|..].
    + intros p [Hr Hd _ _]. rewrite Hs in Hd; done.
    + split; [auto|]. intros [?|(Hr & Hd & _)]; [done|]. rewrite Hs in Hd; done.
    + tauto.
  - rewrite H1, H2, H3. cbn [negb orb]. eapply found_skip; [exact Hf| |done|..]; cbn.
    + intros p [_ _ Hc _]. congruence.
    + rewrite orb_true_iff, bool_decide_eq_true, H3. naive_solver.
    + unfold first_or. destruct (ds_first_rejection search); [naive_solver|]. split; [done|]. intros [_ Hd]. rewrite Hd in H2; done.
  - rewrite H1, H2, H3. cbn [negb orb]. destruct (check_normalized_admission l p pass) as [[]|] eqn:Hn; [done|].
    eapply found_skip; [exact Hf| |done|..]; cbn.
    + intros p' [_ _ Hc Hn']. congruence.
    + split; [auto|]. intros [?|(_ & _ & ?)]; congruence.
    + unfold first_or. destruct (ds_first_rejection search); [naive_solver|]. split; [done|]. intros [_ Hd]. rewrite Hd in H2; done.
Qed.

Lemma find_found : found l pass bulk_ready (sp_candidates pass) (find_due_candidate l pass bulk_ready).
Proof.
  unfold find_due_candidate. induction (sp_candidates pass) as [|pc xs IH] using rev_ind.
  - split; try done; try set_solver. all: try (intros (pc & ?%not_elem_of_nil & _); done).
  - rewrite foldl_app. by apply found_step.
Qed.
End search.

(** ** The prepared candidates *)

(** What a preparation of candidate [r] of [j] holds. *)
Record prepares (l : FairnessLedger) (j : JobId) (r : CandidateRecord) (p : CandidatePreparation) : Prop := {
  pp_admitted : ∃ g, admitted l j r g;
  pp_facts : cp_facts p = mkCandidateFacts (fc_scheduled_at (cr_candidate r)) (fc_priority (cr_candidate r))
    (fc_cost_units (cr_candidate r)) (is_low_volume (fc_scope (cr_candidate r)));
  pp_index : primary_indices l !! FairScope_primary_scope (fc_scope (cr_candidate r)) = Some (sm_primary_index (cp_metrics p));
  pp_primary : ∃ st, fl_scopes l !! FairScope_primary_scope (fc_scope (cr_candidate r)) = Some st ∧
    sm_primary_service (cp_metrics p) = primary_position l (FairScope_primary_scope (fc_scope (cr_candidate r))) st ∧
    sm_admission_service (cp_metrics p) =
      saturating_add U128_MAX (sa_position (ss_service st) (ss_weight st) (fl_service_clock l))
        (sa_cost_delta (ss_service st) (ss_weight st) (fc_cost_units (cr_candidate r)));
  pp_child : 0 ≤ sm_child_service (cp_metrics p) ≤ U128_MAX;
  pp_lag : 0 ≤ sm_child_service_lag (cp_metrics p);
}.

Lemma primary_if s : (if FairScope_is_secondary s then FairScope_primary_scope s else s) = FairScope_primary_scope s.
Proof. by destruct s as [? []|]. Qed.

Lemma scope_typed l s st : ledger_ok l → fl_scopes l !! s = Some st → is_scope_state st = true.
Proof. intros Hok Hs. by apply (so_inv _ _ (lk_scopes _ Hok)) in Hs as [? _ _ _ _ _ _ _]. Qed.

Lemma child_position_range l s st :
  ledger_ok l → fl_scopes l !! s = Some st → ∀ acc floor, is_service acc = true → 0 ≤ floor ≤ U128_MAX →
  0 ≤ sa_position acc (ss_weight st) floor ≤ U128_MAX.
Proof.
  intros Hok Hs%(scope_typed l s st Hok) acc floor Ha Hf. apply scope_state_spec in Hs as (T1 & _).
  apply sa_position_range; [done|lia|done].
Qed.

Lemma metrics_prepared l j p :
  ledger_ok l → prepare_candidate_for_pass l j (primary_indices l) (base_stats l) = Ok p →
  ∃ r, prepares l j r p.
Proof.
  intros Hok. unfold prepare_candidate_for_pass. destruct (validate_candidate l j) as [[c g]|] eqn:Hv; [|done].
  apply validate_admitted in Hv as (r & <- & Had). unfold candidate_service_metrics. cbn [mbind result_bind].
  rewrite primary_if. set (s := fc_scope (cr_candidate r)).
  destruct (primary_indices l !! FairScope_primary_scope s) as [i|] eqn:Hi; [|done].
  destruct (fl_scopes l !! FairScope_primary_scope s) as [st|] eqn:Hst; [|done]. cbn [ok_or mbind result_bind].
  rewrite (base_stats_primary l _ i st Hi Hst). cbn [fmap option_fmap option_map ok_or mbind result_bind].
  destruct (fl_scopes l !! s) as [child|] eqn:Hc; [|done]. cbn [ok_or mbind result_bind]. intros [= <-].
  exists r. split; try done; [eauto|exists st; done|].
  cbn. pose proof (scope_typed l _ st Hok Hst) as Hty. apply scope_state_spec in Hty as (_ & Y1 & Y2 & Y3).
  pose proof (scope_typed l _ child Hok Hc) as Hty'. apply scope_state_spec in Hty' as (_ & C1 & _).
  destruct (is_low_volume s); [unfold U128_MAX; lia|]. destruct (FairScope_is_secondary s).
  - apply (child_position_range l s child); try done. lia.
  - apply (child_position_range l (FairScope_primary_scope s) st); try done. lia.
Qed.

Lemma attach_prepared l stats pc p j r :
  pc_preparation (attach_counts stats pc) = Ok p → (∀ q, pc_preparation pc = Ok q → prepares l j r q) → prepares l j r p.
Proof.
  unfold attach_counts. destruct (pc_preparation pc) as [q|] eqn:Hq; [|by rewrite Hq].
  destruct (stats !! _) as [s|]; [|rewrite Hq; by intros [= <-] H; apply H].
  cbn. intros [= <-] H. destruct (H q eq_refl) as [H1 H2 H3 H4 H5 H6]. split; cbn; try done.
  destruct (ps_child_minimum s); unfold saturating_sub; lia.
Qed.

Lemma attach_flags stats pc :
  pc_job_id (attach_counts stats pc) = pc_job_id pc ∧ pc_ready (attach_counts stats pc) = pc_ready pc ∧
  pc_due (attach_counts stats pc) = pc_due pc ∧
  (is_ok (pc_preparation (attach_counts stats pc)) = is_ok (pc_preparation pc)).
Proof.
  unfold attach_counts. destruct (pc_preparation pc) as [q|] eqn:Hq; [|by rewrite Hq].
  by destruct (stats !! _); rewrite ?Hq.
Qed.

Section prepared.
Context (l : FairnessLedger) (now : option Timestamp) (eligible : option (gset JobId)) (Hok : ledger_ok l).
Let pass := prepare_selection_pass l now eligible.

Lemma pass_candidate pc :
  pc ∈ sp_candidates pass ↔
  ∃ j r, fl_candidates l !! j = Some r ∧ pc = attach_counts (final_stats l now eligible) (prepared_of l now eligible (j, r)).
Proof.
  subst pass. rewrite pass_spec. cbn [sp_candidates]. rewrite list_elem_of_fmap. split.
  - intros ([j r] & -> & Hin%elem_of_btree). eauto.
  - intros (j & r & Hj & ->). exists (j, r). by rewrite elem_of_btree.
Qed.

Lemma pass_entry j r :
  fl_candidates l !! j = Some r →
  pc_job_id (prepared_of l now eligible (j, r)) = j ∧
  pc_ready (prepared_of l now eligible (j, r)) = in_pass eligible j && has_ready_route (cr_state r) ∧
  pc_due (prepared_of l now eligible (j, r)) = in_pass eligible j && is_due now (cr_candidate r).
Proof.
  intros Hj. pose proof (ci_job _ _ _ (lk_candidates _ Hok j r Hj)) as Hid. unfold prepared_of. cbn. by rewrite Hid.
Qed.

Lemma pass_prepares pc p :
  pc ∈ sp_candidates pass → pc_preparation pc = Ok p → ∃ r, prepares l (pc_job_id pc) r p ∧
    pc_ready pc = in_pass eligible (pc_job_id pc) ∧ pc_due pc = in_pass eligible (pc_job_id pc) && is_due now (cr_candidate r).
Proof.
  intros Hin Hp. apply pass_candidate in Hin as (j & r & Hj & ->).
  destruct (attach_flags (final_stats l now eligible) (prepared_of l now eligible (j, r))) as (-> & -> & -> & _).
  destruct (pass_entry j r Hj) as (-> & -> & ->). exists r.
  assert (prepares l j r p) as Hpr.
  { eapply attach_prepared; [exact Hp|]. intros q. unfold prepared_of. cbn.
    rewrite (ci_job _ _ _ (lk_candidates _ Hok j r Hj)). destruct (in_pass eligible j); [|done].
    intros Hq. destruct (metrics_prepared l j q Hok Hq) as [r' Hr']. destruct (pp_admitted _ _ _ _ Hr') as [g Ha].
    pose proof (ad_record _ _ _ _ Ha). by simplify_eq. }
  destruct (pp_admitted _ _ _ _ Hpr) as [g Ha]. rewrite (ad_ready _ _ _ _ Ha), andb_true_r. done.
Qed.
End prepared.

(** ** The statistics of the primaries *)

Lemma stat_fold_service l now eligible i s es :
  ps_normalized_service (foldl (stat_step l now eligible i) s es) = ps_normalized_service s.
Proof. revert s. induction es as [|e es IH]; intros s; cbn; [done|]. by rewrite IH, stat_step_service. Qed.

Lemma stat_fold_eligible l now eligible i s es :
  ps_eligible (foldl (stat_step l now eligible i) s es) =
  ps_eligible s || existsb (λ e, marks l i (prepared_of l now eligible e)) es.
Proof.
  revert s. induction es as [|e es IH]; intros s; cbn [foldl existsb]; [by rewrite orb_false_r|].
  rewrite IH, orb_assoc. f_equal. unfold stat_step, marks.
  destruct (pc_preparation _) as [p|]; [|rewrite !andb_false_r, orb_false_r; by destruct (counts l now eligible i e)].
  destruct (_ && _ && _); [by rewrite orb_true_r|]. rewrite orb_false_r. by destruct (counts l now eligible i e).
Qed.

Lemma final_stats_lookup l now eligible i s :
  ledger_ok l → final_stats l now eligible !! i = Some s →
  0 ≤ ps_normalized_service s ≤ U128_MAX ∧
  ps_eligible s = existsb (λ e, marks l i (prepared_of l now eligible e)) (btree (fl_candidates l)) ∧
  ∃ s0, base_stats l !! i = Some s0 ∧ ps_normalized_service s = ps_normalized_service s0.
Proof.
  intros Hok. unfold final_stats. rewrite list_lookup_imap. intros (s0 & Hs0 & ->)%fmap_Some.
  destruct (base_stats_plain l i s0 Hok Hs0) as [He Hr].
  rewrite stat_fold_service, stat_fold_eligible, He. cbn [orb]. split_and!; try done; try apply Hr. eauto.
Qed.

Lemma extrema_min_range l now eligible i m :
  ledger_ok l → se_min (build_service_extrema (final_stats l now eligible)) = Some (i, m) → 0 ≤ m ≤ U128_MAX.
Proof.
  intros Hok Hm. rewrite build_fold in Hm.
  destruct (extrema_fold (eligible_services (final_stats l now eligible))) as (H1 & _). cbn zeta in H1. rewrite Hm in H1.
  destruct H1 as (ys & Hp & _). assert ((i, m) ∈ eligible_services (final_stats l now eligible)) as Hin by (rewrite Hp; set_solver).
  apply eligible_indices in Hin as (s & Hs & _ & <-). by apply (final_stats_lookup l now eligible i s Hok Hs).
Qed.

Lemma pass_sound l now eligible pc p :
  ledger_ok l → pc ∈ sp_candidates (prepare_selection_pass l now eligible) → pc_preparation pc = Ok p →
  sound_metrics (prepare_selection_pass l now eligible) p.
Proof.
  intros Hok Hin Hp. destruct (pass_prepares l now eligible Hok pc p Hin Hp) as (r & Hpr & _).
  split; [apply Hpr|apply Hpr|]. intros i m. rewrite pass_spec. by apply extrema_min_range.
Qed.

(** ** The loop *)

Lemma checked_preparation l pc b p : check_selection l pc b = Ok p → pc_preparation pc = Ok p.
Proof.
  unfold check_selection. destruct (pc_preparation pc) as [q|]; [|done]. cbn. destruct (_ <? _); [done|].
  destruct (check_priority _ _ _ _); [|done]. cbn. congruence.
Qed.

(** A renewed window is not renewed again. *)
Lemma renewed_once pass l :
  reset_exhausted_priority_window pass (reset_priority_window l) = (false, reset_priority_window l).
Proof.
  unfold reset_exhausted_priority_window. cbn [fl_priority reset_priority_window set_fl_candidates set_fl_priority].
  destruct (existsb _ _), (existsb _ _), (existsb _ _); done.
Qed.

(** The pass over one ledger. *)
Definition finish_search (pass : SelectionPass) (bulk_ready : bool) (l : FairnessLedger)
    : result FairnessRejection (option FairPermit) * FairnessLedger :=
  let search := find_due_candidate l pass bulk_ready in
  match ds_best search with
  | Some (best_job_id, preparation, _) =>
      match prepare_candidate l best_job_id with
      | Err reason => (Err reason, l)
      | Ok selection => let '(permit, l) := settle_selection selection preparation pass l in (Ok (Some permit), l)
      end
  | None => (match ds_first_rejection search with Some reason => Err reason | None => Ok None end, l)
  end.

(** The loop is one search, or two with the window renewed in between. *)
Lemma select_loop_cases n pass b l :
  (select_loop (S (S n)) pass b l = Some (finish_search pass b l) ∧
   (ds_best (find_due_candidate l pass b) ≠ None ∨ ds_priority_rejected (find_due_candidate l pass b) = false ∨
    (reset_exhausted_priority_window pass l).1 = false)) ∨
  (ds_best (find_due_candidate l pass b) = None ∧ ds_priority_rejected (find_due_candidate l pass b) = true ∧
   reset_exhausted_priority_window pass l = (true, reset_priority_window l) ∧
   select_loop (S (S n)) pass b l =
     Some (finish_search pass (has_admissible_bulk (reset_priority_window l) pass) (reset_priority_window l))).
Proof.
  cbn [select_loop]. unfold finish_search at 1. destruct (ds_best (find_due_candidate l pass b)) as [[[j p] sc]|] eqn:Hb.
  - left. split; [|left; done]. destruct (prepare_candidate l j); [|done]. by destruct (settle_selection _ _ _ _).
  - destruct (ds_priority_rejected (find_due_candidate l pass b)) eqn:Hp; [|left; auto].
    destruct (reset_exhausted_priority_window pass l) as [[] l1] eqn:Hr; [|left; split; [|auto]].
    + right. assert (l1 = reset_priority_window l) as ->.
      { unfold reset_exhausted_priority_window in Hr. destruct (negb _); [done|]. destruct (_ && _ && _); [|done]. congruence. }
      split_and!; try done. unfold finish_search. set (l2 := reset_priority_window l).
      destruct (ds_best (find_due_candidate l2 pass _)) as [[[j p] sc]|].
      * destruct (prepare_candidate l2 j); [|done]. by destruct (settle_selection _ _ _ _).
      * assert (reset_exhausted_priority_window pass l2 = (false, l2)) as -> by apply renewed_once. by destruct (ds_priority_rejected (find_due_candidate l2 pass _)).
    + assert (l1 = l) as ->; [|done]. unfold reset_exhausted_priority_window in Hr. destruct (negb _); [congruence|].
      destruct (_ && _ && _); [done|congruence].
Qed.

(** ** Selections *)

(** The permit answers for the record it leased. *)
Definition leases (l l' : FairnessLedger) (permit : FairPermit) : Prop :=
  ∃ j r g, admitted l j r g ∧ permit = permit_for_leased_record j (leased_record g r) ∧
    fl_candidates l' = <[j := leased_record g r]> (fl_candidates l).

Definition sound_pass (pass : SelectionPass) : Prop :=
  ∀ pc p, pc ∈ sp_candidates pass → pc_preparation pc = Ok p → sound_metrics pass p.

Lemma prepare_sound l now eligible : ledger_ok l → sound_pass (prepare_selection_pass l now eligible).
Proof. intros Hok pc p. by apply pass_sound. Qed.

Lemma selection_settles l j sel p pass :
  ledger_ok l → prepare_candidate l j = Ok sel → sound_metrics pass p →
  let '(permit, l') := settle_selection sel p pass l in ledger_ok l' ∧ leases l l' permit.
Proof.
  intros Hok Hsel Hsn. apply prepare_admitted in Hsel as (r & g & -> & Had).
  pose proof (settle_selection_ok l j r g p pass Hok Had Hsn) as H. destruct (settle_selection _ _ _ _) as [permit l'].
  destruct H as (H1 & H2 & H3). split; [done|]. by exists j, r, g.
Qed.

Lemma finish_ok l pass b :
  ledger_ok l → sound_pass pass →
  let '(res, l') := finish_search pass b l in
  ledger_ok l' ∧ match res with Ok (Some permit) => leases l l' permit | _ => l' = l end.
Proof.
  intros Hok Hsn. unfold finish_search. pose proof (find_found l pass b) as Hf.
  destruct (ds_best _) as [[[j p] sc]|] eqn:Hb; [|by destruct (ds_first_rejection _)].
  destruct (fd_some _ _ _ _ _ Hf j p sc Hb) as [(pc & Hin & [_ _ Hc _] & _ & _) _].
  apply checked_preparation in Hc. destruct (prepare_candidate l j) as [sel|] eqn:Hsel; [|done].
  pose proof (selection_settles l j sel p pass Hok Hsel (Hsn pc p Hin Hc)) as H. by destruct (settle_selection _ _ _ _).
Qed.

(** The ledger a selection worked on: as it was, or with the priority window
    renewed. *)
Definition renewed (l L : FairnessLedger) : Prop := L = l ∨ L = reset_priority_window l.

Lemma select_loop_ok n pass b l :
  ledger_ok l → sound_pass pass →
  ∃ res l', select_loop (S (S n)) pass b l = Some (res, l') ∧ ledger_ok l' ∧
    match res with Ok (Some permit) => ∃ L, renewed l L ∧ leases L l' permit | _ => renewed l l' end.
Proof.
  intros Hok Hsn. destruct (select_loop_cases n pass b l) as [[-> _]|(_ & _ & _ & ->)].
  - pose proof (finish_ok l pass b Hok Hsn) as H. destruct (finish_search pass b l) as [res l']. exists res, l'.
    destruct H as [H1 H2]. split_and!; [done..|]. destruct res as [[permit|]|]; [|left; done..]. exists l. split; [by left|done].
  - set (L := reset_priority_window l). set (b' := has_admissible_bulk L pass).
    pose proof (finish_ok L pass b' (reset_window_ok l Hok) Hsn) as H. destruct (finish_search pass b' L) as [res l']. exists res, l'.
    destruct H as [H1 H2]. split_and!; [done..|]. destruct res as [[permit|]|]; [|right; done..]. exists L. split; [by right|done].
Qed.

Lemma select_next_ok now eligible l :
  ledger_ok l →
  ∃ res l', select_next_due_in_scope now eligible l = Some (res, l') ∧ ledger_ok l' ∧
    match res with Ok (Some permit) => ∃ L, renewed l L ∧ leases L l' permit | _ => renewed l l' end.
Proof. intros Hok. by apply select_loop_ok, prepare_sound. Qed.

Lemma renewed_case pass l : (reset_exhausted_priority_window pass l).2 = l ∨ (reset_exhausted_priority_window pass l).2 = reset_priority_window l.
Proof. unfold reset_exhausted_priority_window. destruct (negb _); [auto|]. destruct (_ && _ && _); auto. Qed.

Lemma renewed_ok l L : ledger_ok l → renewed l L → ledger_ok L.
Proof. intros Hok [->| ->]; [done|by apply reset_window_ok]. Qed.

(** What [select] does: it refuses, with the window renewed or not, or it
    settles a candidate of the pass that passed the checks. *)
Inductive select_case (j : JobId) (l : FairnessLedger) (result : result FairnessRejection FairPermit * FairnessLedger) : Prop :=
  | select_refused reason L : renewed l L → result = (Err reason, L) → select_case j l result
  | select_settled target p L b sel :
      target ∈ sp_candidates (prepare_selection_pass l None None) → pc_job_id target = j → renewed l L →
      check_selection L target b = Ok p →
      check_normalized_admission L p (prepare_selection_pass l None None) = Ok tt → prepare_candidate L j = Ok sel →
      result = (let '(permit, l') := settle_selection sel p (prepare_selection_pass l None None) L in (Ok permit, l')) →
      select_case j l result.

Lemma select_cases j l : select_case j l (select j l).
Proof.
  unfold select. set (pass := prepare_selection_pass l None None).
  destruct (list_find _ _) as [[n target]|] eqn:Ht; [|by eapply select_refused; [left|]].
  apply list_find_Some in Ht as (Hn%list_elem_of_lookup_2 & <- & _).
  set (checked := match check_selection l target _ with Ok _ => _ | Err _ => _ end).
  assert (renewed l checked.2 ∧ ∀ p, checked.1 = Ok p → ∃ b, check_selection checked.2 target b = Ok p) as [Hr Hp].
  { unfold checked. destruct (check_selection l target _) as [p|reason] eqn:Hc.
    - split; [by left|]. intros p' [= <-]. eauto.
    - destruct reason; try by (split; [left|]). pose proof (renewed_case pass l) as Hcase.
      destruct (reset_exhausted_priority_window pass l) as [[] L]; cbn in *; [|by split]. split; [done|]. eauto. }
  destruct checked as [[p|reason] L]; cbn [fst snd] in *; [|by eapply select_refused].
  destruct (check_normalized_admission L p pass) as [[]|] eqn:Hnorm; [|by eapply select_refused].
  destruct (prepare_candidate L (pc_job_id target)) as [sel|] eqn:Hsel; [|by eapply select_refused].
  destruct (Hp p eq_refl) as [b Hc]. by eapply (select_settled _ _ _ target p L b sel).
Qed.

Lemma select_ok j l :
  ledger_ok l →
  let '(res, l') := select j l in
  ledger_ok l' ∧ match res with Ok permit => ∃ L, renewed l L ∧ leases L l' permit | Err _ => renewed l l' end.
Proof.
  intros Hok. destruct (select_cases j l) as [reason L HL ->|target p L b sel Hin Hj HL Hc Hn Hsel ->].
  { split; [by apply (renewed_ok l)|done]. }
  pose proof (selection_settles L j sel p _ (renewed_ok l L Hok HL) Hsel
    (prepare_sound l None None Hok target p Hin (checked_preparation _ _ _ _ Hc))) as H.
  destruct (settle_selection _ _ _ _) as [permit l']. destruct H as [H1 H2]. split; [done|]. eauto.
Qed.
