(* ===== verification/FairBound.v ===== *)
(** * The service bound

    The service position of every primary stays within the admission bound
    [E = C * (W + N)] (times the scale) of the ledger's service clock, so any
    two primaries are within it of each other, and the least-served primary
    with a candidate to admit is never turned away by the bound. *)

From S2P Require Import Prelude Errors Ids Clock Policy JobRecord Ordered Fairness FairLedger FairSelect FairExtrema FairInvariant FairSteps FairAdmission FairPass FairSearch.

(** ** The bound *)

(** The bound admissions are checked against. *)
Definition service_bound (l : FairnessLedger) : Z :=
  saturating_mul U128_MAX (normalized_error_bound (fl_budget l)) NORMALIZATION_SCALE.

Lemma service_bound_exact l :
  is_budget (fl_budget l) = true →
  service_bound l = 2 * (fb_max_cost_units (fl_budget l)
    * (fb_candidate_window (fl_budget l) + fb_max_concurrency_per_scope (fl_budget l))).
Proof.
  intros Hb. unfold is_budget in Hb. split_andb. ranges.
  unfold service_bound, normalized_error_bound, saturating_mul, saturating_add, NORMALIZATION_SCALE, U128_MAX, MAX_COST_UNITS in *.
  rewrite (Z.min_r 18446744073709551615 (_ + _)) by lia.
  rewrite (Z.min_r 18446744073709551615 (_ * _)) by nia. rewrite Z.min_r by nia. lia.
Qed.

Lemma service_bound_wide l : is_budget (fl_budget l) = true → 4 * fb_max_cost_units (fl_budget l) ≤ service_bound l.
Proof.
  intros Hb. rewrite service_bound_exact by done. unfold is_budget in Hb. split_andb. ranges. nia.
Qed.

(** ** Positions *)

Definition position (st : ScopeState) : Z := sa_position (ss_service st) (ss_weight st) 0.

Lemma normalized_exact c w : 0 ≤ c ≤ U64_MAX → normalized_service c w = 2 * c / w.
Proof.
  intros Hc. unfold normalized_service, saturating_mul, NORMALIZATION_SCALE. f_equal. unfold U128_MAX, U64_MAX in *. lia.
Qed.

Lemma normalized_zero w : normalized_service 0 w = 0.
Proof. rewrite normalized_exact by (unfold U64_MAX; lia). apply Zdiv_0_l. Qed.

Lemma normalized_mono a b w : 0 ≤ a ≤ b → b ≤ U64_MAX → 1 ≤ w → normalized_service a w ≤ normalized_service b w.
Proof. intros Ha Hb Hw. rewrite !normalized_exact by lia. apply Z.div_le_mono; lia. Qed.

Lemma normalized_step a c w :
  0 ≤ a → 0 ≤ c → a + c ≤ U64_MAX → 1 ≤ w → normalized_service (a + c) w ≤ normalized_service a w + 2 * c.
Proof.
  intros Ha Hc Hac Hw. rewrite !normalized_exact by lia.
  replace (2 * (a + c)) with (2 * a + 2 * c) by lia.
  apply Z.lt_succ_r, Z.div_lt_upper_bound; [lia|].
  pose proof (Z.div_mod (2 * a) w ltac:(lia)). pose proof (Z.mod_pos_bound (2 * a) w ltac:(lia)). nia.
Qed.

(** Positions of well-typed accounts. *)
Lemma position_exact s w floor :
  is_service s = true → 1 ≤ w → 0 ≤ floor →
  sa_position s w floor = Z.max (Z.min U128_MAX (sa_origin s + normalized_service (sa_cost s - sa_base_cost s) w)) floor.
Proof.
  intros Hs%is_service_spec Hw Hf. unfold sa_position, saturating_add, saturating_sub. by rewrite (Z.max_r 0) by lia.
Qed.

Lemma position_floor s w floor :
  is_service s = true → 1 ≤ w → 0 ≤ floor → sa_position s w floor = Z.max (sa_position s w 0) floor.
Proof. intros Hs Hw Hf. rewrite !position_exact by done. lia. Qed.

Lemma position_align s w floor :
  is_service s = true → 1 ≤ w → 0 ≤ floor ≤ U128_MAX → sa_position (sa_align s w floor) w 0 = Z.max (sa_position s w 0) floor.
Proof.
  intros Hs Hw Hf. unfold sa_align. destruct (Z.ltb_spec (sa_position s w 0) floor); [|lia].
  rewrite position_exact; [|apply is_service_spec; apply is_service_spec in Hs; cbn; lia|done|lia]. cbn.
  rewrite Z.sub_diag, normalized_zero. lia.
Qed.

Lemma position_undo s w c :
  is_service s = true → 1 ≤ w → 0 ≤ c → sa_position (sa_undo s c) w 0 ≤ sa_position s w 0.
Proof.
  intros Hs Hw Hc. rewrite !position_exact; [|done..|by apply sa_undo_service|done|done]. apply is_service_spec in Hs.
  cbn. unfold saturating_sub.
  pose proof (normalized_mono (Z.max 0 (sa_cost s - c) - Z.min (sa_base_cost s) (Z.max 0 (sa_cost s - c)))
    (sa_cost s - sa_base_cost s) w ltac:(lia) ltac:(lia) Hw). lia.
Qed.

Lemma position_reweight s w w' :
  is_service s = true → 1 ≤ w → 1 ≤ w' → sa_position (sa_reweight s w) w' 0 = sa_position s w 0.
Proof.
  intros Hs Hw Hw'. rewrite (position_exact (sa_reweight s w)); [|by apply sa_reweight_service|done|lia]. cbn.
  rewrite Z.sub_diag, normalized_zero. pose proof (sa_position_range s w 0 Hs Hw ltac:(unfold U128_MAX; lia)). lia.
Qed.

(** What an admission computes covers the charge that follows. *)
Lemma position_charge s w c :
  is_service s = true → 1 ≤ w → 0 ≤ c → sa_cost s + c ≤ U64_MAX →
  sa_position (sa_charge s c) w 0 ≤ sa_position s w 0 + sa_cost_delta s w c ∧
  0 ≤ sa_cost_delta s w c ≤ 2 * c.
Proof.
  intros Hs Hw Hc Hle. rewrite !position_exact; [|done..|by apply sa_charge_service|done|done]. apply is_service_spec in Hs. cbn.
  unfold sa_cost_delta, saturating_sub, saturating_add. rewrite (Z.min_r U64_MAX (_ + c)) by lia.
  rewrite (Z.max_r 0 (sa_cost s - sa_base_cost s)) by lia. rewrite (Z.min_r U64_MAX) by lia.
  replace (sa_cost s + c - sa_base_cost s) with (sa_cost s - sa_base_cost s + c) by lia.
  pose proof (normalized_step (sa_cost s - sa_base_cost s) c w ltac:(lia) Hc ltac:(lia) Hw).
  pose proof (normalized_mono (sa_cost s - sa_base_cost s) (sa_cost s - sa_base_cost s + c) w ltac:(lia) ltac:(lia) Hw). lia.
Qed.

(** ** Updates that advance no position *)

Definition slower (st st' : ScopeState) : Prop :=
  is_service (ss_service st) = true → 1 ≤ ss_weight st →
  is_service (ss_service st') = true ∧ 1 ≤ ss_weight st' ∧ position st' ≤ position st.

#[export] Instance slower_preorder : PreOrder slower.
Proof.
  split; [by intros st ? ?|]. intros s1 s2 s3 A B Hs Hw. destruct (A Hs Hw) as (A1 & A2 & A3).
  destruct (B A1 A2) as (B1 & B2 & B3). split_and!; [done..|]. by etrans.
Qed.

Definition unserved (st : ScopeState) : Prop :=
  is_service (ss_service st) = true ∧ 1 ≤ ss_weight st ∧ position st ≤ 0.

Record slows (l l' : FairnessLedger) : Prop := {
  sw_budget : fl_budget l' = fl_budget l;
  sw_clock : fl_service_clock l' = fl_service_clock l;
  sw_scope s st' : fl_scopes l' !! s = Some st' →
    unserved st' ∨ ∃ st, fl_scopes l !! s = Some st ∧ slower st st';
}.

#[export] Instance slows_preorder : PreOrder slows.
Proof.
  split.
  { intros l. split; [done..|]. intros s st Hst. right. exists st. done. }
  intros l1 l2 l3 [B1 K1 S1] [B2 K2 S2]. split; [congruence..|]. intros s st3 [?|(st2 & Hst2 & Hsl)]%S2; [by left|].
  apply S1 in Hst2 as [(U1 & U2 & U3)|(st1 & Hst1 & Hsl1)]; [left|right; exists st1; split; [done|by etrans]].
  destruct (Hsl U1 U2) as (A1 & A2 & A3). split_and!; [done..|]. by etrans.
Qed.

Definition served_ok (l : FairnessLedger) : Prop :=
  ∀ s st, is_scoped_primary s = true → fl_scopes l !! s = Some st → position st ≤ fl_service_clock l + service_bound l.

Lemma slows_served l l' : ledger_ok l → slows l l' → served_ok l → served_ok l'.
Proof.
  intros Hok [Hb Hk Hs] Hserved s st' Hp Hst'. unfold service_bound. rewrite Hb, Hk. fold (service_bound l).
  destruct (Hs s st' Hst') as [(_ & _ & Hu)|(st & Hst & Hsl)].
  - pose proof (lk_clock _ Hok). pose proof (service_bound_wide l (lk_budget _ Hok)) as Hw.
    pose proof (lk_budget _ Hok) as Hbu. unfold is_budget in Hbu. split_andb. ranges. lia.
  - etrans; [|by apply (Hserved s st)]. pose proof (scope_typed l s st Hok Hst) as Hty. apply scope_state_spec in Hty as (T1 & T2 & _).
    apply Hsl; [done|lia].
Qed.

Lemma slows_same l l' :
  fl_scopes l' = fl_scopes l → fl_budget l' = fl_budget l → fl_service_clock l' = fl_service_clock l → slows l l'.
Proof. intros Hs Hb Hk. split; [done..|]. rewrite Hs. intros s st Hst. right. exists st. done. Qed.

Lemma slows_update f s l : (∀ st, slower st (f st)) → slows l (update_scope f s l).
Proof.
  intros Hf. split; [done..|]. intros i st'. rewrite lookup_update_scope.
  destruct (decide (s = i)) as [<-|]; [|intros Hst'; right; exists st'; done].
  destruct (fl_scopes l !! s) as [st|]; [|done]. intros [= <-]. eauto.
Qed.

(** An update that leaves the service and the weight alone. *)
Lemma slower_same st st' : ss_service st' = ss_service st → ss_weight st' = ss_weight st → slower st st'.
Proof. intros Hs Hw. unfold slower, position. by rewrite Hs, Hw. Qed.

Lemma slower_release mc mr s rel c charge st : 0 ≤ c → slower st (release_state mc mr s rel c charge st).
Proof.
  intros Hc Hs Hw. unfold position. destruct rel; cbn; split_and!; try done; auto with fair. by apply position_undo.
Qed.

Lemma slows_release p rel l : 0 ≤ pm_cost_units p → slows l (release_capacity p rel l).
Proof.
  intros Hc. unfold release_capacity. set (l1 := release_scope _ _ _ _ l).
  assert (slows l l1) as H1 by (apply slows_update; intros; by apply slower_release).
  assert (slows l (match pm_primary p with Some primary => release_scope primary rel (pm_cost_units p) SC_ParentCapacity l1 | None => l1 end)) as H2.
  { destruct (pm_primary p); [|done]. etrans; [exact H1|]. apply slows_update. intros. by apply slower_release. }
  destruct (pm_ordering_key p); [|done]. etrans; [exact H2|by apply slows_same].
Qed.

Lemma slows_restore p l : 0 ≤ pm_cost_units p → slows l (restore_reconciled_low_volume_service p l).
Proof.
  intros Hc. unfold restore_reconciled_low_volume_service. destruct (is_low_volume _); [|done]. apply slows_update.
  intros st Hs Hw. unfold position. cbn. split_and!; auto with fair. by apply position_undo.
Qed.

Lemma slows_route old new refresh l : slows l (replace_candidate_route old new refresh l).
Proof.
  assert (∀ s b a l, slows l (adjust_ready_count s b a l)) as Hadj.
  { intros s [] a l'; [|done]. apply slows_update. intros. by apply slower_same. }
  unfold replace_candidate_route. destruct old as [o|], new as [n|]; [etrans; [apply Hadj|]|..]; try apply Hadj; [| |done].
  all: destruct refresh; try apply Hadj; destruct (rt_ready n) eqn:Hr; rewrite <- ?Hr; try apply Hadj.
  all: etrans; [apply Hadj|]; apply slows_update; intros st; apply slower_same; unfold advance_order; cbn; by destruct (_ || _).
Qed.

Lemma slows_ensure s c l : slows l (ensure_scope s c l).
Proof.
  unfold ensure_scope. destruct (fl_scopes l !! s) as [st|] eqn:Hst; (split; [done..|]); cbn; intros i st'.
  - rewrite lookup_insert_Some. intros [[<- <-]|[_ ?]]; [|right; exists st'; done]. right. exists st. split; [done|by apply slower_same].
  - rewrite lookup_insert_Some. intros [[<- <-]|[_ ?]]; [|right; exists st'; done]. by left.
Qed.

Lemma slows_register c l : slows l (register_candidate c l).
Proof.
  unfold register_candidate. set (l1 := ensure_scope _ _ _). set (l2 := if FairScope_is_secondary _ then _ else _).
  assert (slows l l2) as H. { unfold l2. destruct (FairScope_is_secondary _); [etrans|]; apply slows_ensure. }
  destruct (fc_ordering_key c); [|done]. destruct (fl_orders l2 !! _); [done|]. etrans; [exact H|by apply slows_same].
Qed.

(** ** Admissions *)

(** The positions of the eligible primaries of a pass. *)
Definition pass_services (l : FairnessLedger) (now : option Timestamp) (eligible : option (gset JobId)) : list (nat * Z) :=
  eligible_services (final_stats l now eligible).

(** A primary of the pass. *)
Record eligible_primary (l : FairnessLedger) (now : option Timestamp) (eligible : option (gset JobId)) (i : nat) (v : Z) : Prop := {
  ep_candidate : ∃ pc p, pc ∈ sp_candidates (prepare_selection_pass l now eligible) ∧ pc_ready pc = true ∧ pc_due pc = true
    ∧ pc_preparation pc = Ok p ∧ cf_low_volume (cp_facts p) = false
    ∧ cf_cost_units (cp_facts p) ≤ fb_max_cost_units (fl_budget l) ∧ sm_primary_index (cp_metrics p) = i;
  ep_position : ∃ s st, is_scoped_primary s = true ∧ fl_scopes l !! s = Some st ∧ primary_indices l !! s = Some i
    ∧ v = sa_position (ss_service st) (ss_weight st) (fl_service_clock l);
}.

Lemma attach_facts stats pc q :
  pc_preparation pc = Ok q →
  ∃ p, pc_preparation (attach_counts stats pc) = Ok p ∧ cp_facts p = cp_facts q ∧
    sm_primary_index (cp_metrics p) = sm_primary_index (cp_metrics q).
Proof.
  intros Hq. unfold attach_counts. rewrite Hq. destruct (stats !! _); cbn; rewrite ?Hq; eauto.
Qed.

Lemma not_low_primary s : is_low_volume s = false → is_scoped_primary (FairScope_primary_scope s) = true.
Proof. by destruct s. Qed.

Lemma pass_services_spec l now eligible i v :
  ledger_ok l → (i, v) ∈ pass_services l now eligible → eligible_primary l now eligible i v.
Proof.
  intros Hok Hin. apply eligible_indices in Hin as (s & Hs & He & <-).
  destruct (final_stats_lookup l now eligible i s Hok Hs) as (_ & He' & s0 & Hs0 & ->). rewrite He' in He.
  apply existsb_exists in He as ([j r] & Hjr & Hm). apply list_elem_of_In, elem_of_btree in Hjr.
  unfold marks in Hm. rewrite !andb_true_iff in Hm. destruct Hm as [[Hr Hd] Hm].
  destruct (pc_preparation _) as [q|] eqn:Hq; [|done]. rewrite !andb_true_iff, bool_decide_eq_true, negb_true_iff in Hm.
  destruct Hm as [[Hlow Hc] <-].
  destruct (attach_facts (final_stats l now eligible) _ q Hq) as (p & Hp & Ef & Ei).
  destruct (attach_flags (final_stats l now eligible) (prepared_of l now eligible (j, r))) as (Ej & Er & Ed & _).
  assert (attach_counts (final_stats l now eligible) (prepared_of l now eligible (j, r))
    ∈ sp_candidates (prepare_selection_pass l now eligible)) as Hin by (apply pass_candidate; eauto).
  destruct (pass_prepares l now eligible Hok _ p Hin Hp) as (r' & [_ Hf Hix (st & Hst & _) _ _] & _). split.
  - exists (attach_counts (final_stats l now eligible) (prepared_of l now eligible (j, r))), p.
    rewrite Er, Ed, Ef, Ei. split_and!; try done. lia.
  - rewrite <- Ef, Hf in Hlow. cbn in Hlow. rewrite <- Ei in Hs0 |- *.
    exists (FairScope_primary_scope (fc_scope (cr_candidate r'))), st. split_and!; try done; [by apply not_low_primary|].
    rewrite (base_stats_primary l _ _ st Hix Hst) in Hs0. injection Hs0 as <-. cbn. unfold primary_position.
    by rewrite (proj1 (Bool.not_true_iff_false _)) by (destruct (fc_scope (cr_candidate r')); done).
Qed.

Lemma pass_services_in l now eligible pc p r :
  ledger_ok l → pc ∈ sp_candidates (prepare_selection_pass l now eligible) → pc_ready pc = true → pc_due pc = true →
  pc_preparation pc = Ok p → prepares l (pc_job_id pc) r p → cf_low_volume (cp_facts p) = false →
  cf_cost_units (cp_facts p) ≤ fb_max_cost_units (fl_budget l) →
  (sm_primary_index (cp_metrics p), sm_primary_service (cp_metrics p)) ∈ pass_services l now eligible.
Proof.
  intros Hok Hin Hr Hd Hp [_ Hf Hix (st & Hst & Hsv & _) _ _] Hlow Hc. apply pass_candidate in Hin as (j & r0 & Hj & ->).
  destruct (attach_flags (final_stats l now eligible) (prepared_of l now eligible (j, r0))) as (Ej & Er & Ed & Eo).
  rewrite Er in Hr. rewrite Ed in Hd. destruct (pc_preparation (prepared_of l now eligible (j, r0))) as [q|] eqn:Hq; last first.
  { rewrite Hp in Eo. done. }
  destruct (attach_facts (final_stats l now eligible) _ q Hq) as (p' & Hp' & Ef & Ei). rewrite Hp in Hp'. injection Hp' as <-.
  pose proof (base_stats_primary l _ _ st Hix Hst) as Hb. apply eligible_indices.
  unfold final_stats. rewrite list_lookup_imap, Hb. eexists. split; [reflexivity|].
  rewrite stat_fold_eligible, stat_fold_service. split; [|by rewrite Hsv]. cbn [orb ps_eligible PrimaryStats_default set_normalized_service].
  apply existsb_exists. exists (j, r0). split; [by apply list_elem_of_In, elem_of_btree|].
  unfold marks. rewrite Hr, Hd, Hq, <- Ef, <- Ei, Hlow. cbn. rewrite bool_decide_true by done. rewrite andb_true_r. lia.
Qed.

(** Every eligible primary has a candidate of its own. *)
Lemma pass_services_few l now eligible :
  ledger_ok l → Z.of_nat (length (pass_services l now eligible)) ≤ USIZE_MAX.
Proof.
  intros Hok. pose proof (lk_size _ Hok) as Hsz. rewrite <- length_btree in Hsz.
  set (index_of := λ e : JobId * CandidateRecord,
    default 0%nat (primary_indices l !! FairScope_primary_scope (fc_scope (cr_candidate e.2)))).
  assert (length (pass_services l now eligible).*1 ≤ length (index_of <$> btree (fl_candidates l)))%nat as H.
  { apply NoDup_incl_length; [apply NoDup_ListNoDup, eligible_nodup|]. intros i Hi%list_elem_of_In.
    apply list_elem_of_fmap in Hi as ([i' v] & -> & Hin). apply (pass_services_spec l now eligible _ _ Hok) in Hin as [Hc _].
    destruct Hc as (pc & p & Hpc & _ & _ & Hp & _ & _ & <-).
    destruct (pass_prepares l now eligible Hok pc p Hpc Hp) as (r & [[g Ha] _ Hix _ _ _] & _).
    apply list_elem_of_In, list_elem_of_fmap. exists (pc_job_id pc, r). rewrite elem_of_btree. split; [|apply Ha].
    unfold index_of. cbn. by rewrite Hix. }
  rewrite !length_fmap in H. unfold U32_MAX, USIZE_MAX, U64_MAX in *. lia.
Qed.

Section admission.
Context (l : FairnessLedger) (now : option Timestamp) (eligible : option (gset JobId)) (Hok : ledger_ok l).
Let pass := prepare_selection_pass l now eligible.

Lemma pass_extrema :
  sp_service_extrema pass =
  foldl (λ e y, ServiceExtrema_insert y.1 y.2 e) ServiceExtrema_default (pass_services l now eligible).
Proof. subst pass. rewrite pass_spec. apply build_fold. Qed.

Lemma normalized_check L p :
  fl_budget L = fl_budget l →
  (check_normalized_admission L p pass = Ok tt ↔
   cf_low_volume (cp_facts p) = true ∨
   bound_allows (pass_services l now eligible) (sm_primary_index (cp_metrics p)) (sm_admission_service (cp_metrics p))
     (service_bound l) = true).
Proof.
  intros Hb. unfold check_normalized_admission. destruct (cf_low_volume (cp_facts p)); [naive_solver|].
  rewrite pass_extrema, Hb. fold (service_bound l).
  rewrite extrema_allow; [|apply eligible_nodup|by apply pass_services_few].
  destruct (bound_allows _ _ _ _); naive_solver.
Qed.

Lemma pass_minimum i v :
  (i, v) ∈ pass_services l now eligible →
  ∃ i0 m, se_min (sp_service_extrema pass) = Some (i0, m) ∧ (i0, m) ∈ pass_services l now eligible ∧
    ∀ y, y ∈ pass_services l now eligible → m ≤ y.2.
Proof.
  intros Hin. rewrite pass_extrema. destruct (extrema_fold (pass_services l now eligible)) as (H1 & _). cbn zeta in H1.
  destruct (se_min _) as [[i0 m]|]; [|destruct H1 as [E _]; rewrite E in Hin; by apply not_elem_of_nil in Hin].
  destruct H1 as (ys & Hp & Hle & _). exists i0, m. split_and!; [done|rewrite Hp; set_solver|].
  intros y. rewrite Hp. intros [->|Hy]%elem_of_cons; cbn; [lia|]. specialize (Hle y Hy). lia.
Qed.

(** An admission stays within the bound of the minimum, which the clock
    reaches. *)
Lemma admission_bounded L p i0 m :
  fl_budget L = fl_budget l → check_normalized_admission L p pass = Ok tt → cf_low_volume (cp_facts p) = false →
  (sm_primary_index (cp_metrics p), sm_primary_service (cp_metrics p)) ∈ pass_services l now eligible →
  se_min (sp_service_extrema pass) = Some (i0, m) →
  sm_primary_service (cp_metrics p) ≤ m ∨ sm_admission_service (cp_metrics p) ≤ m + service_bound l.
Proof.
  intros Hb Hn Hlow Hin Hmin. destruct (pass_minimum _ _ Hin) as (i1 & m1 & Hm1 & Hin1 & Hle). rewrite Hmin in Hm1.
  injection Hm1 as <- <-. apply (normalized_check L p Hb) in Hn as [?|Hn]; [congruence|].
  destruct (decide (i0 = sm_primary_index (cp_metrics p))) as [E|Hne].
  - left. subst i0. pose proof (eligible_nodup (final_stats l now eligible)) as Hnd. fold (pass_services l now eligible) in Hnd.
    apply eligible_indices in Hin as (s & Hs & _ & <-), Hin1 as (s' & Hs' & _ & <-). rewrite Hs in Hs'. by simplify_eq.
  - right. unfold bound_allows in Hn. apply orb_true_iff in Hn as [Hlen%Nat.leb_le|Hall].
    + destruct (pass_services l now eligible) as [|y [|y' ys]]; [set_solver| |cbn in Hlen; lia].
      apply list_elem_of_singleton in Hin, Hin1. congruence.
    + rewrite forallb_forall in Hall. specialize (Hall (i0, m)). rewrite <- list_elem_of_In in Hall. specialize (Hall Hin1).
      cbn in Hall. apply orb_true_iff in Hall as [?%Nat.eqb_eq|Hd%Z.leb_le]; [done|]. unfold abs_diff in Hd. lia.
Qed.
End admission.

(** ** The charge of a selection *)

(** The account and the weight of a scope. *)
Definition accounts (l : FairnessLedger) (s : FairScope) : option (ServiceAccounting * Z) :=
  (λ st, (ss_service st, ss_weight st)) <$> fl_scopes l !! s.

Lemma accounts_update g f s l i :
  (∀ st, (ss_service (f st), ss_weight (f st)) = g (ss_service st, ss_weight st)) →
  accounts (update_scope f s l) i = (if decide (s = i) then g <$> accounts l i else accounts l i).
Proof.
  intros Hf. unfold accounts. rewrite lookup_update_scope. destruct (decide (s = i)) as [<-|]; [|done].
  destruct (fl_scopes l !! s); cbn; [by rewrite Hf|done].
Qed.

Lemma accounts_quiet f s l i :
  (∀ st, ss_service (f st) = ss_service st ∧ ss_weight (f st) = ss_weight st) →
  accounts (update_scope f s l) i = accounts l i.
Proof.
  intros Hf. rewrite (accounts_update id); [|intros st; by destruct (Hf st) as [-> ->]].
  destruct (decide _); [|done]. by destruct (accounts l i).
Qed.

Lemma accounts_route old new refresh l i : accounts (replace_candidate_route old new refresh l) i = accounts l i.
Proof.
  assert (∀ s b a l, accounts (adjust_ready_count s b a l) i = accounts l i) as Hadj.
  { intros s [] a l'; [|done]. by apply accounts_quiet. }
  unfold replace_candidate_route. destruct old as [o|], new as [n|]; rewrite ?Hadj; try done.
  all: destruct refresh; rewrite ?Hadj; try done; destruct (rt_ready n) eqn:Hr; rewrite <- ?Hr, ?Hadj; try done.
  all: rewrite accounts_quiet; [by rewrite !Hadj|]; intros st; unfold advance_order; cbn; by destruct (_ || _).
Qed.

Definition aligned (clock : Z) (a : ServiceAccounting * Z) : ServiceAccounting * Z := (sa_align a.1 a.2 clock, a.2).
Definition charged_account (c : Z) (a : ServiceAccounting * Z) : ServiceAccounting * Z := (sa_charge a.1 c, a.2).

Lemma accounts_charge r g l s :
  is_low_volume (fc_scope (cr_candidate r)) = false → is_scoped_primary s = true →
  accounts (charge_selection (selection_of r g) l) s =
  (if decide (FairScope_primary_scope (fc_scope (cr_candidate r)) = s)
   then charged_account (fc_cost_units (cr_candidate r)) <$> (aligned (fl_service_clock l) <$> accounts l s)
   else accounts l s).
Proof.
  intros Hlow Hs. unfold charge_selection, align_selection_service. cbn [selection_of sel_scope sel_primary sel_cost_units sel_ordering_key].
  rewrite Hlow. set (scope := fc_scope (cr_candidate r)) in *. set (c := fc_cost_units (cr_candidate r)).
  set (floor := match _ with Some st => _ | None => 0 end).
  assert (∀ L k, accounts (match k with Some key => update_order (acquired_order (sel_job_id (selection_of r g))) key L | None => L end) s
    = accounts L s) as Hk by (intros L []; done).
  rewrite Hk. destruct (FairScope_is_secondary scope) eqn:Hsec.
  - assert (scope ≠ s) as Hne by (intros ->; by destruct s as [? []|]). set (p := FairScope_primary_scope scope).
    unfold acquire_scope. rewrite (accounts_update (charged_account c)) by done.
    rewrite (accounts_update (charged_account c)) by done. rewrite (accounts_update (aligned (fl_service_clock l))) by done.
    rewrite (accounts_update (aligned floor)) by done. by destruct (decide (p = s)), (decide (scope = s)).
  - rewrite (primary_of_plain scope Hsec). unfold acquire_scope. rewrite (accounts_update (charged_account c)) by done.
    rewrite (accounts_update (aligned (fl_service_clock l))) by done. by destruct (decide (scope = s)).
Qed.

Lemma accounts_low r g l s :
  is_low_volume (fc_scope (cr_candidate r)) = true → is_scoped_primary s = true →
  accounts (charge_selection (selection_of r g) l) s = accounts l s.
Proof.
  intros Hlow Hs. unfold charge_selection, align_selection_service, acquire_scope.
  cbn [selection_of sel_scope sel_primary sel_cost_units sel_ordering_key]. rewrite Hlow.
  destruct (fc_scope (cr_candidate r)); [done|]. cbn [FairScope_is_secondary].
  assert (∀ L k, accounts (match k with Some key => update_order (acquired_order (sel_job_id (selection_of r g))) key L | None => L end) s
    = accounts L s) as -> by (intros L []; done).
  rewrite (accounts_update (charged_account (fc_cost_units (cr_candidate r)))) by done. by destruct s as [? []|].
Qed.

Lemma accounts_advance sel p pass l s : accounts (advance_service_clocks sel p pass l) s = accounts l s.
Proof.
  unfold advance_service_clocks. destruct (is_low_volume _); [done|].
  destruct (se_min _) as [[i m]|]; unfold accounts at 1; cbn [set_fl_service_clock fl_scopes];
    fold (accounts (update_scope (λ s0, set_ss_child_service_clock (Z.max (ss_child_service_clock s0)
      (saturating_sub (sm_child_service (cp_metrics p)) (sm_child_service_lag (cp_metrics p)))) s0)
      (default (sel_scope sel) (sel_primary sel)) l) s); by apply accounts_quiet.
Qed.

Lemma accounts_settle r g p pass l s :
  let l1 := advance_service_clocks (selection_of r g) p pass l in
  accounts (settle_selection (selection_of r g) p pass l).2 s = accounts (charge_selection (selection_of r g) l1) s ∧
  fl_service_clock (settle_selection (selection_of r g) p pass l).2 = fl_service_clock l1 ∧
  fl_budget (settle_selection (selection_of r g) p pass l).2 = fl_budget l.
Proof.
  cbn zeta. unfold settle_selection. cbn [snd]. rewrite accounts_route.
  set (l1 := advance_service_clocks _ _ _ _). split; [done|].
  set (l4 := update_candidate _ _ _). destruct (replace_route_parts (route_of l1 (sel_job_id (selection_of r g)))
    (route_of l4 (sel_job_id (selection_of r g))) PreserveOrder l4) as (_ & _ & -> & _ & -> & _).
  cbn [l4 update_candidate set_fl_candidates set_fl_priority fl_service_clock fl_budget].
  assert (fl_service_clock (charge_selection (selection_of r g) l1) = fl_service_clock l1 ∧
    fl_budget (charge_selection (selection_of r g) l1) = fl_budget l1) as [-> ->].
  { unfold charge_selection, align_selection_service, acquire_scope. cbn [selection_of sel_ordering_key sel_primary sel_scope].
    by destruct (fc_ordering_key _), (FairScope_is_secondary _), (is_low_volume _). }
  split; [done|]. unfold l1, advance_service_clocks. destruct (is_low_volume _); [done|]. by destruct (se_min _) as [[]|].
Qed.

Lemma accounts_lookup l s st : fl_scopes l !! s = Some st → accounts l s = Some (ss_service st, ss_weight st).
Proof. intros Hst. unfold accounts. by rewrite Hst. Qed.

(** Only the scopes, the clock and the budget matter. *)
Record same_service (l L : FairnessLedger) : Prop := {
  sv_scopes : fl_scopes L = fl_scopes l;
  sv_clock : fl_service_clock L = fl_service_clock l;
  sv_budget : fl_budget L = fl_budget l;
}.

Lemma renewed_service l L : renewed l L → same_service l L.
Proof. by intros [->| ->]. Qed.

Section settle.
Context (l : FairnessLedger) (now : option Timestamp) (eligible : option (gset JobId)) (Hok : ledger_ok l) (Hserved : served_ok l).
Context (L : FairnessLedger) (HL : ledger_ok L) (Hsame : same_service l L).
Let pass := prepare_selection_pass l now eligible.
Context (pc : PreparedCandidate) (p : CandidatePreparation) (r : CandidateRecord) (g : FairPermitGeneration).
Context (Hin : pc ∈ sp_candidates pass) (Hready : pc_ready pc = true) (Hdue : pc_due pc = true).
Context (Hprep : pc_preparation pc = Ok p) (Hr : prepares l (pc_job_id pc) r p).
Context (Hcost : cf_cost_units (cp_facts p) ≤ fb_max_cost_units (fl_budget l)).
Context (Hbound : check_normalized_admission L p pass = Ok tt).
Let primary := FairScope_primary_scope (fc_scope (cr_candidate r)).
Let cost := fc_cost_units (cr_candidate r).
Let l1 := advance_service_clocks (selection_of r g) p pass L.

Lemma advanced_clock :
  is_low_volume (fc_scope (cr_candidate r)) = false →
  ∃ i0 m, se_min (sp_service_extrema pass) = Some (i0, m) ∧ fl_service_clock l1 = Z.max (fl_service_clock l) m ∧
    (sm_primary_index (cp_metrics p), sm_primary_service (cp_metrics p)) ∈ pass_services l now eligible.
Proof.
  intros Hlow. assert (cf_low_volume (cp_facts p) = false) as Hlow' by (rewrite (pp_facts _ _ _ _ Hr); done).
  pose proof (pass_services_in l now eligible pc p r Hok Hin Hready Hdue Hprep Hr Hlow' Hcost) as Hx.
  destruct (pass_minimum l now eligible Hok _ _ Hx) as (i0 & m & Hm & _). exists i0, m. split_and!; [done| |done].
  unfold l1, advance_service_clocks. cbn [selection_of sel_scope]. rewrite Hlow. fold pass in Hm. rewrite Hm. cbn.
  by rewrite (sv_clock _ _ Hsame).
Qed.

Lemma charged_position st :
  is_low_volume (fc_scope (cr_candidate r)) = false → fl_scopes l !! primary = Some st → sa_cost (ss_service st) + cost ≤ U64_MAX →
  sa_position (sa_charge (sa_align (ss_service st) (ss_weight st) (fl_service_clock l1)) cost) (ss_weight st) 0
  ≤ fl_service_clock l1 + service_bound l.
Proof.
  intros Hlow Hst Hfit. destruct (advanced_clock Hlow) as (i0 & m & Hm & -> & Hx).
  set (clk := Z.max (fl_service_clock l) m).
  pose proof (extrema_min_range l now eligible i0 m Hok) as Hmr. unfold pass in Hm. rewrite pass_spec in Hm. specialize (Hmr Hm).
  pose proof (lk_clock _ Hok) as Hclk. pose proof (scope_typed l _ st Hok Hst) as Hty. apply scope_state_spec in Hty as (T1 & T2 & _).
  destruct (pp_admitted _ _ _ _ Hr) as [g' Hadm].
  destruct (candidate_bounds l _ r (lk_candidates _ Hok _ r (ad_record _ _ _ _ Hadm))) as [Hc _]. fold cost in Hc.
  pose proof (service_bound_wide l (lk_budget _ Hok)) as Hwide. rewrite (pp_facts _ _ _ _ Hr) in Hcost. cbn in Hcost. fold cost in Hcost.
  assert (is_service (sa_align (ss_service st) (ss_weight st) clk) = true) as Ha by (apply sa_align_service; [done|lia]).
  destruct (position_charge (sa_align (ss_service st) (ss_weight st) clk) (ss_weight st) cost Ha ltac:(lia) ltac:(lia)) as [P1 P2];
    [by rewrite sa_align_cost|]. rewrite position_align in P1 by (try done; lia).
  destruct (Z.le_gt_cases (sa_position (ss_service st) (ss_weight st) 0) clk) as [Hle|Hgt]; [lia|].
  assert (sa_align (ss_service st) (ss_weight st) clk = ss_service st) as Ealign.
  { unfold sa_align. destruct (Z.ltb_spec (sa_position (ss_service st) (ss_weight st) 0) clk); [lia|done]. }
  rewrite Ealign in *. destruct (pp_primary _ _ _ _ Hr) as (st' & Hst' & Hsv & Had). fold primary in Hst'. rewrite Hst in Hst'.
  injection Hst' as <-. fold primary cost in Hsv, Had. unfold primary_position in Hsv.
  rewrite (proj1 (Bool.not_true_iff_false (is_low_volume primary))) in Hsv by (unfold primary; destruct (fc_scope (cr_candidate r)); done).
  rewrite position_floor in Hsv, Had by (try done; lia).
  assert (cf_low_volume (cp_facts p) = false) as Hlow' by (rewrite (pp_facts _ _ _ _ Hr); done).
  pose proof (sa_position_range (sa_charge (ss_service st) cost) (ss_weight st) 0) as Hpr.
  specialize (Hpr (sa_charge_service (ss_service st) cost T2 ltac:(lia)) ltac:(lia) ltac:(unfold U128_MAX; lia)).
  destruct (admission_bounded l now eligible Hok L p i0 m (sv_budget _ _ Hsame) Hbound Hlow' Hx) as [Hlt|Hlt].
  - rewrite pass_spec. exact Hm.
  - lia.
  - rewrite Had in Hlt. unfold saturating_add in Hlt. lia.
Qed.

Lemma settle_served :
  scope_free L (fc_scope (cr_candidate r)) cost →
  (FairScope_is_secondary (fc_scope (cr_candidate r)) = true → scope_free L primary cost) →
  served_ok (settle_selection (selection_of r g) p pass L).2.
Proof.
  intros Hfree Hfree' s st' Hs Hst'. destruct (accounts_settle r g p pass L s) as (Ea & Ek & Eb). cbn zeta in Ea, Ek. fold l1 in Ea, Ek.
  unfold service_bound. rewrite Eb, Ek, (sv_budget _ _ Hsame). fold (service_bound l).
  apply accounts_lookup in Hst'. rewrite Ea in Hst'.
  assert (accounts l1 s = accounts l s) as E1 by (unfold l1; rewrite accounts_advance; unfold accounts; by rewrite (sv_scopes _ _ Hsame)).
  assert (fl_service_clock l ≤ fl_service_clock l1 ∧ (accounts l s = Some (ss_service st', ss_weight st') → position st' ≤ fl_service_clock l + service_bound l)) as [Hmono Hplain].
  { split.
    - unfold l1, advance_service_clocks. rewrite <- (sv_clock _ _ Hsame). destruct (is_low_volume _); [done|].
      destruct (se_min _) as [[i m]|]; cbn; lia.
    - unfold accounts. intros (st & Hst & [= E2 E3])%fmap_Some. specialize (Hserved s st Hs Hst). unfold position in *. by rewrite E2, E3. }
  destruct (is_low_volume (fc_scope (cr_candidate r))) eqn:Hlow.
  { rewrite accounts_low in Hst' by done. rewrite E1 in Hst'. specialize (Hplain Hst'). lia. }
  rewrite accounts_charge, E1 in Hst' by done. fold primary cost in Hst'.
  destruct (decide (primary = s)) as [<-|Hne]; [|specialize (Hplain Hst'); lia].
  destruct (fl_scopes l !! primary) as [st|] eqn:Hst; [|unfold accounts in Hst'; by rewrite Hst in Hst'].
  rewrite (accounts_lookup l primary st Hst) in Hst'. cbn in Hst'. injection Hst' as E2 E3. unfold position. rewrite <- E2, <- E3.
  apply charged_position; [done..|]. destruct Hfree as [(st0 & Hst0 & _ & Hfit & _)].
  destruct (FairScope_is_secondary (fc_scope (cr_candidate r))) eqn:Hsec.
  - destruct (Hfree' eq_refl) as [(st1 & Hst1 & _ & Hfit1 & _)]. rewrite (sv_scopes _ _ Hsame) in Hst1.
    rewrite Hst in Hst1. by simplify_eq.
  - rewrite (sv_scopes _ _ Hsame), <- (primary_of_plain _ Hsec) in Hst0. unfold primary in Hst. rewrite Hst in Hst0. by simplify_eq.
Qed.
End settle.

(** ** Selections *)

(** A renewed window leaves the candidates what they are. *)
Lemma renewed_candidate l L j r :
  renewed l L → fl_candidates L !! j = Some r →
  ∃ r0, fl_candidates l !! j = Some r0 ∧ cr_candidate r0 = cr_candidate r ∧ cr_state r0 = cr_state r
    ∧ cr_acquisition_generation r0 = cr_acquisition_generation r.
Proof.
  intros [->| ->] Hj; [by exists r|]. cbn in Hj. rewrite lookup_fmap_Some in Hj. destruct Hj as (r0 & <- & Hj). by exists r0.
Qed.

Lemma checked_cost l pc b p : check_selection l pc b = Ok p → cf_cost_units (cp_facts p) ≤ fb_max_cost_units (fl_budget l).
Proof.
  unfold check_selection. destruct (pc_preparation pc) as [q|]; [|done]. cbn. destruct (Z.ltb_spec (fb_max_cost_units (fl_budget l)) (cf_cost_units (cp_facts q))); [done|].
  destruct (check_priority _ _ _ _); [|done]. cbn. by intros [= <-].
Qed.

Lemma selection_served l now eligible L b pc p sel :
  ledger_ok l → served_ok l → renewed l L → pc ∈ sp_candidates (prepare_selection_pass l now eligible) →
  admits L (prepare_selection_pass l now eligible) b pc p → prepare_candidate L (pc_job_id pc) = Ok sel →
  served_ok (settle_selection sel p (prepare_selection_pass l now eligible) L).2.
Proof.
  intros Hok Hserved HL Hin [Hready Hdue Hc Hn] Hsel. apply prepare_admitted in Hsel as (r & g & -> & Had).
  pose proof (checked_preparation _ _ _ _ Hc) as Hp. pose proof (renewed_service l L HL) as Hsame.
  destruct (pass_prepares l now eligible Hok pc p Hin Hp) as (r0 & Hr0 & _).
  destruct (renewed_candidate l L _ r HL (ad_record _ _ _ _ Had)) as (r1 & Hr1 & E & _).
  destruct (pp_admitted _ _ _ _ Hr0) as [g0 Had0]. pose proof (ad_record _ _ _ _ Had0) as Hr0'. rewrite Hr1 in Hr0'. injection Hr0' as <-.
  assert (selection_of r g = selection_of r1 g) as -> by (unfold selection_of; by rewrite E).
  apply (settle_served l now eligible Hok Hserved L Hsame pc p r1 g); try done.
  - apply checked_cost in Hc. by rewrite <- (sv_budget _ _ Hsame).
  - rewrite E. apply Had.
  - rewrite E. apply Had.
Qed.

Lemma renewed_served l L : served_ok l → renewed l L → served_ok L.
Proof.
  intros Hserved HL s st. destruct (renewed_service l L HL) as [E1 E2 E3]. unfold service_bound. rewrite E1, E2, E3. apply Hserved.
Qed.

Lemma finish_served l now eligible L b :
  ledger_ok l → served_ok l → renewed l L → served_ok (finish_search (prepare_selection_pass l now eligible) b L).2.
Proof.
  intros Hok Hserved HL. set (pass := prepare_selection_pass l now eligible). unfold finish_search.
  pose proof (renewed_served l L Hserved HL) as HsL.
  pose proof (find_found L pass b) as Hf. destruct (ds_best _) as [[[j p] sc]|] eqn:Hb; [|done].
  destruct (fd_some _ _ _ _ _ Hf j p sc Hb) as [(pc & Hin & Had & <- & _) _].
  destruct (prepare_candidate L (pc_job_id pc)) as [sel|] eqn:Hsel; [|done].
  pose proof (selection_served l now eligible L b pc p sel Hok Hserved HL Hin Had Hsel) as H. fold pass in H.
  by destruct (settle_selection sel p pass L).
Qed.

Lemma select_next_served now eligible l res l' :
  ledger_ok l → served_ok l → select_next_due_in_scope now eligible l = Some (res, l') → served_ok l'.
Proof.
  intros Hok Hserved. unfold select_next_due_in_scope, SELECT_FUEL. set (pass := prepare_selection_pass l (Some now) eligible).
  destruct (select_loop_cases 0 pass (has_admissible_bulk l pass) l) as [[-> _]|(_ & _ & _ & ->)]; intros [= E].
  - change l' with (res, l').2. rewrite <- E. by apply finish_served; [| |left].
  - change l' with (res, l').2. rewrite <- E. by apply finish_served; [| |right].
Qed.

Lemma select_served j l : ledger_ok l → served_ok l → served_ok (select j l).2.
Proof.
  intros Hok Hserved. destruct (select_cases j l) as [reason L HL ->|target p L b sel Hin <- HL Hc Hn Hsel ->].
  { by apply (renewed_served l). }
  pose proof (checked_preparation _ _ _ _ Hc) as Hprep.
  destruct (pass_prepares l None None Hok target p Hin Hprep) as (r & _ & Hready & Hdue). cbn in Hready, Hdue.
  pose proof (selection_served l None None L b target p sel Hok Hserved HL Hin) as H.
  specialize (H ltac:(by split) Hsel). by destruct (settle_selection _ _ _ _).
Qed.
