(* ===== verification/FairReach.v ===== *)
(** * The ledgers that operations reach

    [ledger_step] has one constructor per operation of the ledger.  Every
    ledger reached from a new one satisfies the invariant and the service
    bound. *)

From S2P Require Import Prelude Errors Ids Clock Policy JobRecord Ordered Fairness FairLedger FairSelect FairExtrema FairInvariant FairSteps FairAdmission FairPass FairSearch FairBound.

(** ** Operations *)

(** The permit of the lease a record has. *)
Definition current_permit (l : FairnessLedger) (permit : FairPermit) : Prop :=
  ∃ r, fl_candidates l !! pm_job_id permit = Some r ∧ is_leased (cr_state r) = true
    ∧ permit = permit_for_leased_record (pm_job_id permit) r.

Inductive ledger_op : Type :=
  | LO_Add (input : FairCandidateInput)
  | LO_Upsert (input : FairCandidateInput)
  | LO_Defer (job_id : JobId) (scheduled_at : Timestamp)
  | LO_Remove (job_id : JobId)
  | LO_Release (permit : FairPermit) (outcome : FairRelease)
  | LO_SettleService (permit : FairPermit) (refill_rate : bool)
  | LO_RecordService (job_id : JobId) (units : Z)
  | LO_Reconcile (job_id : JobId) (scheduled_at : Timestamp)
  | LO_Block (scope : FairScope) (reason : CandidateBlock)
  | LO_Tick
  | LO_Refill (scope : FairScope)
  | LO_SetWeight (scope : FairScope) (weight : Z)
  | LO_SetMode (scope : FairScope) (mode : FairVolumeMode)
  | LO_ResetWindow
  | LO_CompactCandidate (job_id : JobId)
  | LO_CompactScopes
  | LO_Rebuild
  | LO_Restart
  | LO_SelectNext (now : Timestamp) (eligible : option (gset JobId))
  | LO_Select (job_id : JobId)
  | LO_ServiceTransition (job_id : JobId) (refill_rate : bool).

(** What the types of the arguments, and the callers, guarantee: a deferred
    candidate is not leased, and a permit settles the lease it was given for. *)
Definition op_ok (l : FairnessLedger) (op : ledger_op) : Prop :=
  match op with
  | LO_Add input | LO_Upsert input => is_candidate_input input = true ∧ Z.of_nat (size (fl_candidates l)) < U32_MAX
  | LO_Defer j t => candidate_state l j ≠ Some CS_Leased ∧ is_i64 t = true
  | LO_Release permit _ | LO_SettleService permit _ => current_permit l permit
  | LO_RecordService _ units => 0 ≤ units ≤ U64_MAX
  | LO_Reconcile _ t => is_i64 t = true
  | LO_SetWeight _ weight => 1 ≤ weight ≤ U16_MAX
  | _ => True
  end.

Definition ok_ledger {E} (r : result E FairnessLedger) (l : FairnessLedger) : FairnessLedger :=
  match r with Ok l' => l' | Err _ => l end.

(** The ledger an operation leaves; an error leaves it as it was. *)
Definition apply_op (op : ledger_op) (l : FairnessLedger) : FairnessLedger :=
  match op with
  | LO_Add input => ok_ledger (add_candidate input l) l
  | LO_Upsert input => ok_ledger (upsert_candidate input l) l
  | LO_Defer j t => defer_candidate j t l
  | LO_Remove j => remove_candidate j l
  | LO_Release permit outcome => ok_ledger (release permit outcome l) l
  | LO_SettleService permit refill_rate => ok_ledger (settle_service permit refill_rate l) l
  | LO_RecordService j units => (record_service_units j units l).2
  | LO_Reconcile j t => (reconcile_leased j t l).2
  | LO_Block scope reason => (block scope reason l).2
  | LO_Tick => tick l
  | LO_Refill scope => (refill scope l).2
  | LO_SetWeight scope weight => (set_scope_weight scope weight l).2
  | LO_SetMode scope mode => (set_scope_mode scope mode l).2
  | LO_ResetWindow => reset_priority_window l
  | LO_CompactCandidate j => (compact_candidate j l).2
  | LO_CompactScopes => compact_empty_scopes l
  | LO_Rebuild => rebuild_ready_counts l
  | LO_Restart => restart_low_volume l
  | LO_SelectNext now eligible => match select_next_due_in_scope now eligible l with Some (_, l') => l' | None => l end
  | LO_Select j => (select j l).2
  | LO_ServiceTransition j refill_rate => (service_transition j refill_rate l).2
  end.

Inductive ledger_step (l l' : FairnessLedger) : Prop :=
  | ledger_step_intro op (Hop : op_ok l op) (Heq : l' = apply_op op l).

(** ** The invariant *)

Lemma new_ok b : is_budget b = true → ledger_ok (FairnessLedger_new b).
Proof.
  intros Hb. split; try done.
  - split; cbn.
    + by intros s st.
    + intros s _. split_and!; apply map_sum_empty.
    + intros p _. rewrite map_sum_empty. lia.
    + by intros s [].
    + by intros s [].
Qed.

Lemma current_settles l p :
  current_permit l p →
  ∀ r, fl_candidates l !! pm_job_id p = Some r → is_leased (cr_state r) = true →
    cr_acquisition_generation r = Some (pm_acquisition_generation p) → p = permit_for_leased_record (pm_job_id p) r.
Proof. intros (r & Hr & _ & Hp) r' Hr' _ _. rewrite Hr in Hr'. by injection Hr' as <-. Qed.

Lemma ok_ledger_ok {E} (r : result E FairnessLedger) l :
  ledger_ok l → (∀ l', r = Ok l' → ledger_ok l') → ledger_ok (ok_ledger r l).
Proof. intros Hl Hr. destruct r; [by apply Hr|done]. Qed.

(** The permit a selection answers with is current. *)
Lemma leases_current l L l' permit : renewed l L → leases L l' permit → current_permit l' permit.
Proof.
  intros _ (j & r & g & Had & -> & Hc). exists (leased_record g r). cbn. rewrite Hc, lookup_insert_eq. done.
Qed.

Lemma service_transition_ok j refill_rate l : ledger_ok l → ledger_ok (service_transition j refill_rate l).2.
Proof.
  intros Hok. unfold service_transition. pose proof (select_ok j l Hok) as H. destruct (select j l) as [[permit|] l1]; [|by destruct H].
  destruct H as (H1 & L & HL & Hl). destruct (settle_service permit refill_rate l1) as [l2|] eqn:Hs; [|done].
  eapply settle_permit_ok; [exact H1| |exact Hs]. by eapply current_settles, leases_current.
Qed.

Lemma op_keeps l op : ledger_ok l → op_ok l op → ledger_ok (apply_op op l).
Proof.
  intros Hok Hop. destruct op; cbn [apply_op op_ok] in *.
  - apply ok_ledger_ok; [done|]. intros l'. destruct Hop. by apply add_ok.
  - apply ok_ledger_ok; [done|]. intros l'. destruct Hop. by apply upsert_ok.
  - destruct Hop. by apply defer_ok.
  - by apply remove_ok.
  - apply ok_ledger_ok; [done|]. intros l'. apply settle_permit_ok; [done|]. by apply current_settles.
  - apply ok_ledger_ok; [done|]. intros l'. apply settle_permit_ok; [done|]. by apply current_settles.
  - apply record_service_ok; [done|lia].
  - by apply reconcile_ok.
  - by apply block_ok.
  - by apply tick_ok.
  - by apply refill_ok.
  - by apply set_weight_ok.
  - by apply set_mode_ok.
  - by apply reset_window_ok.
  - by apply compact_candidate_ok.
  - by apply compact_scopes_ok.
  - by rewrite rebuild_ready_same.
  - by apply restart_ok.
  - destruct (select_next_ok now eligible l Hok) as (res & l' & -> & H & _). done.
  - pose proof (select_ok job_id l Hok) as H. destruct (select job_id l). by destruct H.
  - by apply service_transition_ok.
Qed.

(** ** The service bound *)

Lemma slows_candidate f j l : slows l (update_candidate f j l).
Proof. by apply slows_same. Qed.

Lemma slows_settlement p s l : 0 ≤ pm_cost_units p → slows l (apply_settlement p s l).
Proof.
  intros Hc. unfold apply_settlement. etrans; [|apply slows_route]. set (l1 := release_capacity _ _ _).
  assert (slows l l1) as H1 by by apply slows_release.
  set (l2 := match pm_ordering_key p with Some _ => _ | None => _ end).
  assert (slows l l2) as H2.
  { unfold l2. destruct (pm_ordering_key p); [destruct (PermitSettlement_advances_order s)|]; [|done..].
    etrans; [exact H1|by apply slows_same]. }
  etrans; [exact H2|by apply slows_same].
Qed.

Lemma slows_settle p s l : ledger_ok l → current_permit l p → slows l (ok_ledger (settle_permit p s l) l).
Proof.
  intros Hok (r & Hr & _ & Hp). unfold settle_permit. rewrite Hr. destruct (_ && _); [|done]. cbn [ok_ledger]. apply slows_settlement.
  rewrite Hp. cbn. pose proof (candidate_bounds l _ r (lk_candidates _ Hok _ r Hr)). lia.
Qed.

Lemma slows_remove j l : ledger_ok l → slows l (remove_candidate j l).
Proof.
  intros Hok. unfold remove_candidate. destruct (fl_candidates l !! j) as [r|] eqn:Hj; [|done].
  pose proof (candidate_bounds l j r (lk_candidates _ Hok j r Hj)).
  destruct (is_leased (cr_state r)).
  - etrans; [|apply slows_restore; cbn; lia]. apply slows_settlement. cbn. lia.
  - etrans; [|apply slows_route]. by apply slows_same.
Qed.

Lemma slows_upsert i l : slows l (ok_ledger (upsert_candidate i l) l).
Proof.
  unfold upsert_candidate. destruct (FairCandidate_try_from i) as [c|]; [|done]. cbn.
  destruct (upsert_state _); [|done]. cbn [mbind result_bind ok_ledger]. etrans; [|apply slows_route].
  etrans; [apply (slows_register c)|]. unfold replace_candidate_record. destruct (fl_candidates _ !! _); by apply slows_same.
Qed.

Lemma slows_add i l : slows l (ok_ledger (add_candidate i l) l).
Proof.
  unfold add_candidate. destruct (FairCandidate_try_from i) as [c|]; [|done]. cbn.
  destruct (fl_candidates l !! _); [done|]. cbn [ok_ledger]. etrans; [|apply slows_route].
  etrans; [apply (slows_register c)|by apply slows_same].
Qed.

Lemma slows_defer j t l : slows l (defer_candidate j t l).
Proof.
  unfold defer_candidate. destruct (fl_candidates l !! j); [|done]. etrans; [|apply slows_route]. by apply slows_same.
Qed.

Lemma slows_reconcile j t l : ledger_ok l → slows l (reconcile_leased j t l).2.
Proof.
  intros Hok. unfold reconcile_leased. destruct (fl_candidates l !! j) as [r|] eqn:Hj; [|done].
  pose proof (candidate_bounds l j r (lk_candidates _ Hok j r Hj)).
  destruct (is_leased (cr_state r)); [|done]. cbn [snd]. etrans; [|apply slows_route]. etrans; [|apply slows_candidate].
  etrans; [|apply slows_restore; cbn; lia]. apply slows_release. cbn. lia.
Qed.

Lemma slows_weight s w l : 1 ≤ w → slows l (set_scope_weight s w l).2.
Proof.
  intros Hw. unfold set_scope_weight. destruct (fl_scopes l !! s); [|done]. apply slows_update. intros st. unfold reweighted.
  destruct (ss_weight st =? w); [done|]. intros Hs Hw'. split_and!; cbn; [by apply sa_reweight_service|done|].
  unfold position. cbn. by rewrite position_reweight.
Qed.

Lemma slows_fmap f l : (∀ st, slower st (f st)) → slows l (set_fl_scopes (f <$> fl_scopes l) l).
Proof.
  intros Hf. split; [done..|]. cbn. intros s st'. rewrite lookup_fmap_Some. intros (st & <- & Hst). eauto.
Qed.

Lemma slows_compact l : slows l (compact_empty_scopes l).
Proof.
  split; [done..|]. cbn. intros s st [Hst _]%map_lookup_filter_Some. right. exists st. done.
Qed.

Lemma slows_compact_candidate j l : slows l (compact_candidate j l).2.
Proof.
  unfold compact_candidate. destruct (fl_candidates l !! j); [|done]. destruct (is_terminal_or_absent _); [|done]. cbn [snd].
  set (l1 := replace_candidate_route _ _ _ _). assert (slows l l1) as H1 by (etrans; [|apply slows_route]; by apply slows_same).
  destruct (fc_ordering_key _); [|done]. destruct (existsb _ _); [done|]. etrans; [exact H1|by apply slows_same].
Qed.

Lemma op_served l op : ledger_ok l → served_ok l → op_ok l op → served_ok (apply_op op l).
Proof.
  intros Hok Hs Hop. assert (∀ l', slows l l' → served_ok l') as Hslow by (intros l' H; by apply (slows_served l)).
  destruct op; cbn [apply_op op_ok] in *.
  - apply Hslow, slows_add.
  - apply Hslow, slows_upsert.
  - apply Hslow, slows_defer.
  - by apply Hslow, slows_remove.
  - by apply Hslow, slows_settle.
  - by apply Hslow, slows_settle.
  - apply Hslow. unfold record_service_units. destruct (_ !! _); by apply slows_same.
  - by apply Hslow, slows_reconcile.
  - apply Hslow. unfold block. destruct (_ !! _); [|done]. apply slows_update. intros. by apply slower_same.
  - apply Hslow, slows_fmap. intros st. destruct (ss_is_ready st); [by apply slower_same|done].
  - apply Hslow. unfold refill. destruct (_ !! _); [|done]. apply slows_update. intros. by apply slower_same.
  - apply Hslow, slows_weight. lia.
  - apply Hslow. unfold set_scope_mode. destruct (_ !! _); [|done]. apply slows_update. intros. by apply slower_same.
  - by apply Hslow, slows_same.
  - apply Hslow, slows_compact_candidate.
  - apply Hslow, slows_compact.
  - by rewrite rebuild_ready_same.
  - apply Hslow, slows_update. intros. by apply slower_same.
  - destruct (select_next_ok now eligible l Hok) as (res & l' & Hsel & _). rewrite Hsel. by eapply select_next_served.
  - by apply select_served.
  - unfold service_transition. pose proof (select_ok job_id l Hok) as H. pose proof (select_served job_id l Hok Hs) as Hs1.
    destruct (select job_id l) as [[permit|] l1]; [|done]. destruct H as (H1 & L & HL & Hl). cbn in Hs1.
    pose proof (slows_settle permit (PS_Service (if refill_rate then CR_RestoreRate else CR_PreserveRate)) l1 H1
      (leases_current l L l1 permit HL Hl)) as Hsl. unfold settle_service.
    destruct (settle_permit _ _ l1); [|done]. cbn in Hsl. by apply (slows_served l1).
Qed.

(** ** Reachable ledgers *)

Definition reached (b : FairnessBudget) (l : FairnessLedger) : Prop := rtc ledger_step (FairnessLedger_new b) l.

Lemma reached_ok b l : is_budget b = true → reached b l → ledger_ok l ∧ served_ok l.
Proof.
  intros Hb Hr. refine (rtc_ind_r (λ l, ledger_ok l ∧ served_ok l) (FairnessLedger_new b) _ _ l Hr).
  - split; [by apply new_ok|]. by intros s st _.
  - intros l1 l2 _ [op Hop ->] [IH1 IH2]. split; [by apply op_keeps|by apply op_served].
Qed.

(** ** The budget *)

Lemma finish_budget l now eligible L b :
  renewed l L → fl_budget (finish_search (prepare_selection_pass l now eligible) b L).2 = fl_budget l.
Proof.
  intros HL. unfold finish_search. destruct (ds_best _) as [[[j p] sc]|]; [|apply (renewed_service l L HL)].
  destruct (prepare_candidate L j) as [sel|] eqn:Hsel; [|apply (renewed_service l L HL)].
  apply prepare_admitted in Hsel as (r & g & -> & _).
  destruct (accounts_settle r g p (prepare_selection_pass l now eligible) L LowVolume) as (_ & _ & E).
  rewrite <- (sv_budget _ _ (renewed_service l L HL)), <- E. by destruct (settle_selection _ _ _ _).
Qed.

Lemma select_budget j l : fl_budget (select j l).2 = fl_budget l.
Proof.
  destruct (select_cases j l) as [reason L HL ->|target p L b sel Hin Hj HL Hc Hn Hsel ->]; [apply (renewed_service l L HL)|].
  apply prepare_admitted in Hsel as (r & g & -> & _).
  destruct (accounts_settle r g p (prepare_selection_pass l None None) L LowVolume) as (_ & _ & E).
  rewrite <- (sv_budget _ _ (renewed_service l L HL)), <- E. by destruct (settle_selection _ _ _ _).
Qed.

Lemma op_budget l op : ledger_ok l → op_ok l op → fl_budget (apply_op op l) = fl_budget l.
Proof.
  intros Hok Hop. destruct op; cbn [apply_op op_ok] in *; try done.
  - apply slows_add.
  - apply slows_upsert.
  - apply slows_defer.
  - by apply slows_remove.
  - by apply slows_settle.
  - by apply slows_settle.
  - unfold record_service_units. by destruct (_ !! _).
  - by apply slows_reconcile.
  - unfold block. by destruct (_ !! _).
  - unfold refill. by destruct (_ !! _).
  - apply slows_weight. lia.
  - unfold set_scope_mode. by destruct (_ !! _).
  - apply slows_compact_candidate.
  - by rewrite rebuild_ready_same.
  - unfold select_next_due_in_scope, SELECT_FUEL. set (pass := prepare_selection_pass l (Some now) eligible).
    destruct (select_loop_cases 0 pass (has_admissible_bulk l pass) l) as [[-> _]|(_ & _ & _ & ->)];
      [pose proof (finish_budget l (Some now) eligible l (has_admissible_bulk l pass) (or_introl eq_refl)) as E
      |pose proof (finish_budget l (Some now) eligible _ (has_admissible_bulk (reset_priority_window l) pass) (or_intror eq_refl)) as E];
      fold pass in E; by destruct (finish_search _ _ _).
  - apply select_budget.
  - unfold service_transition. pose proof (select_budget job_id l) as E. pose proof (select_ok job_id l Hok) as H.
    destruct (select job_id l) as [[permit|] l1]; [|done]. destruct H as (H1 & L & HL & Hl). cbn in E. rewrite <- E.
    pose proof (slows_settle permit (PS_Service (if refill_rate then CR_RestoreRate else CR_PreserveRate)) l1 H1
      (leases_current l L l1 permit HL Hl)) as Hsl. unfold settle_service.
    destruct (settle_permit _ _ l1); [apply Hsl|done].
Qed.

Lemma reached_budget b l : is_budget b = true → reached b l → fl_budget l = b.
Proof.
  intros Hb Hr. refine (proj2 (rtc_ind_r (λ l, ledger_ok l ∧ fl_budget l = b) (FairnessLedger_new b) _ _ l Hr)).
  - split; [by apply new_ok|done].
  - intros l1 l2 _ [op Hop ->] [IH1 IH2]. split; [by apply op_keeps|by rewrite op_budget].
Qed.

(** ** Runs *)

(** A sequence of operations. *)
Definition run_ops (ops : list ledger_op) (l : FairnessLedger) : FairnessLedger := foldl (λ l op, apply_op op l) l ops.

Fixpoint ops_ok (ops : list ledger_op) (l : FairnessLedger) : Prop :=
  match ops with
  | [] => True
  | op :: ops => op_ok l op ∧ ops_ok ops (apply_op op l)
  end.

Lemma run_steps ops l : ops_ok ops l → rtc ledger_step l (run_ops ops l).
Proof.
  revert l. induction ops as [|op ops IH]; intros l; [done|]. intros [Hop Hops]. eapply rtc_l; [by eapply ledger_step_intro|].
  by apply IH.
Qed.
