(* ===== verification/FairProgress.v ===== *)
(** * Progress of fair selection

    When every candidate costs one unit, a selection in a reachable ledger
    finds a candidate whenever one passes the capacity and ordering checks:
    neither the service bound nor the priority lanes can turn all of them
    away.  The lanes are weighted 8, 4 and 1, and a candidate that costs more
    than its lane's weight is never admitted. *)

From S2P Require Import Prelude Errors Ids Clock Policy JobRecord Ordered Fairness FairLedger FairSelect FairExtrema FairInvariant FairSteps FairAdmission FairPass FairSearch FairBound FairReach.

(** ** Lanes *)

(** [k] full windows were served, and part of another. *)
Record lanes_at (d : PriorityDeficit) (k : Z) : Prop := {
  ln_k : 0 ≤ k;
  ln_critical : 0 ≤ pd_critical_window d ≤ 8 ∧ pd_critical_served d = Z.min U64_MAX (8 * k + pd_critical_window d);
  ln_default : 0 ≤ pd_default_window d ≤ 4 ∧ pd_default_served d = Z.min U64_MAX (4 * k + pd_default_window d);
  ln_bulk : 0 ≤ pd_bulk_window d ≤ 1 ∧ pd_bulk_served d = Z.min U64_MAX (k + pd_bulk_window d);
}.
Definition lanes_ok (d : PriorityDeficit) : Prop := ∃ k, lanes_at d k.

Lemma lanes_default : lanes_ok PriorityDeficit_default.
Proof. exists 0. split; cbn; unfold U64_MAX; lia. Qed.

Lemma lanes_charge d p bulk_ready bound :
  lanes_ok d → pd_allows d p 1 bulk_ready bound = true → lanes_ok (pd_charge d p 1).
Proof.
  intros [k [Hk [C1 C2] [D1 D2] [B1 B2]]] Ha. unfold pd_allows in Ha.
  destruct ((1 =? 0) || _ || negb (window_allows d p 1)) eqn:E; [done|]. apply orb_false_iff in E as [_ E].
  apply negb_false_iff in E. unfold pd_charge. unfold saturating_add, U32_MAX, U64_MAX in *.
  destruct p; cbn in *; unfold saturating_add, CRITICAL_WEIGHT, DEFAULT_WEIGHT, BULK_WEIGHT in E;
    (match goal with |- context [if ?b then _ else _] => destruct b eqn:Hfull end);
    [exists (k + 1)|exists k|exists (k + 1)|exists k|exists (k + 1)|exists k]; split; cbn in *; unfold U32_MAX, U64_MAX in *; lia.
Qed.

(** A unit of work is turned away only by a full window, or by the bulk lane's
    turn. *)
Lemma unit_rejected d p bulk_ready bound :
  lanes_ok d → pd_allows d p 1 bulk_ready bound = false →
  (match p with
   | Critical => 8 ≤ pd_critical_window d
   | Default => 4 ≤ pd_default_window d
   | Bulk => 1 ≤ pd_bulk_window d
   end) ∨ (bulk_ready = true ∧ p ≠ Bulk).
Proof.
  intros [k [Hk [C1 C2] [D1 D2] [B1 B2]]]. unfold pd_allows. cbn [Z.eqb orb].
  destruct (bulk_ready && _ && negb (bool_decide (p = Bulk))) eqn:Eb.
  { intros _. right. rewrite !andb_true_iff, negb_true_iff, bool_decide_eq_false in Eb. tauto. }
  cbn [orb]. unfold window_allows, saturating_add, saturating_mul, CRITICAL_WEIGHT, DEFAULT_WEIGHT, BULK_WEIGHT, U32_MAX, U64_MAX in *.
  destruct p; (match goal with |- context [negb ?b] => destruct b eqn:Ew end); cbn [negb]; intros H; left; lia.
Qed.

(** A renewed window turns no unit away. *)
Lemma unit_renewed p bulk_ready bound : 2 ≤ bound → pd_allows PriorityDeficit_default p 1 bulk_ready bound = true.
Proof.
  intros Hb. unfold pd_allows. cbn. rewrite (proj2 (Z.leb_gt bound _)) by (unfold U32_MAX, saturating_add in *; lia).
  rewrite andb_false_r. by destruct p.
Qed.

(** ** Unit costs *)

Definition unit_costs (l : FairnessLedger) : Prop :=
  ∀ j r, fl_candidates l !! j = Some r → fc_cost_units (cr_candidate r) = 1.

(** The costs of the candidates and the lanes are left alone. *)
Record calm (l l' : FairnessLedger) : Prop := {
  cm_priority : fl_priority l' = fl_priority l ∨ fl_priority l' = PriorityDeficit_default;
  cm_costs j r' : fl_candidates l' !! j = Some r' → fc_cost_units (cr_candidate r') = 1 ∨
    ∃ r, fl_candidates l !! j = Some r ∧ fc_cost_units (cr_candidate r') = fc_cost_units (cr_candidate r);
}.

#[export] Instance calm_preorder : PreOrder calm.
Proof.
  split; [intros l; split; [by left|eauto]|]. intros l1 l2 l3 [P1 C1] [P2 C2]. split; [destruct P1, P2; intuition congruence|].
  intros j r3 [?|(r2 & Hr2 & E)]%C2; [by left|]. rewrite E. by apply C1.
Qed.

Lemma calm_same l l' : fl_priority l' = fl_priority l → fl_candidates l' = fl_candidates l → calm l l'.
Proof. intros Hp Hc. split; [by left|]. rewrite Hc. eauto. Qed.

Lemma calm_candidate f j l :
  (∀ r, fc_cost_units (cr_candidate (f r)) = fc_cost_units (cr_candidate r)) → calm l (update_candidate f j l).
Proof.
  intros Hf. split; [by left|]. cbn. intros i r'. destruct (decide (j = i)) as [<-|];
    [rewrite lookup_alter_eq|rewrite lookup_alter_ne by done; eauto].
  destruct (fl_candidates l !! j) as [r|]; [|done]. intros [= <-]. eauto.
Qed.

Lemma calm_route o n refresh l : calm l (replace_candidate_route o n refresh l).
Proof. destruct (replace_route_parts o n refresh l) as (? & _ & _ & ? & _). by apply calm_same. Qed.

Lemma calm_settlement p s l : calm l (apply_settlement p s l).
Proof.
  unfold apply_settlement. etrans; [|apply calm_route]. etrans; [|apply calm_candidate].
  - destruct (release_capacity_parts p (PermitSettlement_capacity_release s) l) as (? & ? & _).
    destruct (pm_ordering_key p); [destruct (PermitSettlement_advances_order s)|]; by apply calm_same.
  - intros r. by destruct (PermitSettlement_records_service s).
Qed.

Lemma calm_settle p s l : calm l (ok_ledger (settle_permit p s l) l).
Proof. unfold settle_permit. destruct (_ !! _); [|done]. destruct (_ && _); [|done]. apply calm_settlement. Qed.

Lemma calm_restore p l : calm l (restore_reconciled_low_volume_service p l).
Proof. unfold restore_reconciled_low_volume_service. destruct (is_low_volume _); [by apply calm_same|done]. Qed.

Lemma register_calm c l : fl_priority (register_candidate c l) = fl_priority l ∧ fl_candidates (register_candidate c l) = fl_candidates l.
Proof.
  unfold register_candidate, ensure_scope. by repeat (case_match; cbn).
Qed.

Definition unit_input (i : FairCandidateInput) : Prop := fi_cost_units i = 1.

Lemma unit_candidate i c : unit_input i → FairCandidate_try_from i = Ok c → fc_cost_units c = 1.
Proof. unfold FairCandidate_try_from. intros Hi. destruct (_ <? _); [done|]. by intros [= <-]. Qed.

Lemma calm_insert l l' j r :
  fl_priority l' = fl_priority l → fl_candidates l' = <[j := r]> (fl_candidates l) → fc_cost_units (cr_candidate r) = 1 → calm l l'.
Proof.
  intros Hp Hc Hr. split; [by left|]. rewrite Hc. intros i r'. rewrite lookup_insert_Some. intros [[<- <-]|[_ ?]]; eauto.
Qed.

Lemma calm_add i l : unit_input i → calm l (ok_ledger (add_candidate i l) l).
Proof.
  intros Hi. unfold add_candidate. destruct (FairCandidate_try_from i) as [c|] eqn:Hc; [|done]. cbn.
  destruct (fl_candidates l !! _); [done|]. cbn [ok_ledger]. etrans; [|apply calm_route].
  destruct (register_calm c l) as [Ep Ec]. eapply calm_insert; cbn; [done|by rewrite Ec|]. by apply (unit_candidate i).
Qed.

Lemma calm_upsert i l : unit_input i → calm l (ok_ledger (upsert_candidate i l) l).
Proof.
  intros Hi. unfold upsert_candidate. destruct (FairCandidate_try_from i) as [c|] eqn:Hc; [|done]. cbn.
  destruct (upsert_state _); [|done]. cbn [mbind result_bind ok_ledger]. etrans; [|apply calm_route].
  destruct (register_calm c l) as [Ep Ec]. unfold replace_candidate_record. rewrite Ec.
  destruct (fl_candidates l !! _); (eapply calm_insert; cbn; [done|done|]); by apply (unit_candidate i).
Qed.

Lemma settle_parts sel p pass L :
  fl_priority (settle_selection sel p pass L).2 = pd_charge (fl_priority L) (sel_priority sel) (sel_cost_units sel) ∧
  calm L (set_fl_priority (fl_priority L) (settle_selection sel p pass L).2).
Proof.
  unfold settle_selection. cbn [snd]. set (l1 := advance_service_clocks _ _ _ _). set (l2 := charge_selection _ l1).
  assert (fl_priority l2 = fl_priority L ∧ fl_candidates l2 = fl_candidates L) as [Ep Ec].
  { assert (fl_priority l1 = fl_priority L ∧ fl_candidates l1 = fl_candidates L) as [<- <-].
    { unfold l1, advance_service_clocks. destruct (is_low_volume _); [done|]. by destruct (se_min _) as [[]|]. }
    destruct (align_parts sel l1) as (E1 & _ & E2 & _). unfold l2, charge_selection, acquire_scope.
    destruct (sel_ordering_key sel), (sel_primary sel); cbn; by rewrite ?E1, ?E2. }
  set (l4 := update_candidate _ _ _).
  destruct (replace_route_parts (route_of l1 (sel_job_id sel)) (route_of l4 (sel_job_id sel)) PreserveOrder l4) as (Rc & _ & _ & Rp & _).
  split; [rewrite Rp; cbn; by rewrite Ep|]. split; [by left|].
  cbn [set_fl_priority fl_candidates]. rewrite Rc. cbn [l4 update_candidate set_fl_candidates set_fl_priority fl_candidates]. rewrite Ec.
  apply (calm_candidate (λ r, set_cr_acquisition_generation (Some (sel_acquisition_generation sel)) (set_cr_state CS_Leased r)) (sel_job_id sel) L).
  done.
Qed.

Definition units_ok (l : FairnessLedger) : Prop := unit_costs l ∧ lanes_ok (fl_priority l).

Lemma calm_units l l' : calm l l' → units_ok l → units_ok l'.
Proof.
  intros [Hp Hc] [Hu Hl]. split.
  - intros j r' [?|(r & Hr & ->)]%Hc; [done|by eapply Hu].
  - destruct Hp as [->| ->]; [done|apply lanes_default].
Qed.

Lemma checked_priority l pc b p :
  check_selection l pc b = Ok p → check_priority l (cf_priority (cp_facts p)) (cf_cost_units (cp_facts p)) b = Ok tt.
Proof.
  unfold check_selection. destruct (pc_preparation pc) as [q|]; [|done]. cbn. destruct (_ <? _); [done|].
  destruct (check_priority _ _ _ _) as [[]|] eqn:E; [|done]. cbn. by intros [= <-].
Qed.

Lemma reset_units l : units_ok l → units_ok (reset_priority_window l).
Proof.
  apply calm_units. split; [by right|]. cbn. intros j r'. rewrite lookup_fmap_Some. intros (r & <- & Hj). eauto.
Qed.

Lemma renewed_units l L : units_ok l → renewed l L → units_ok L.
Proof. intros Hu [->| ->]; [done|by apply reset_units]. Qed.

Lemma selection_units l now eligible L b pc p sel :
  ledger_ok l → units_ok l → renewed l L → pc ∈ sp_candidates (prepare_selection_pass l now eligible) →
  check_selection L pc b = Ok p → prepare_candidate L (pc_job_id pc) = Ok sel →
  units_ok (settle_selection sel p (prepare_selection_pass l now eligible) L).2.
Proof.
  intros Hok Hu HL Hin Hc Hsel. pose proof (renewed_units l L Hu HL) as [HuL HlL].
  destruct (settle_parts sel p (prepare_selection_pass l now eligible) L) as [Ep Hcalm].
  apply prepare_admitted in Hsel as (r & g & -> & Had).
  assert (cf_priority (cp_facts p) = fc_priority (cr_candidate r) ∧ cf_cost_units (cp_facts p) = 1 ∧ fc_cost_units (cr_candidate r) = 1)
    as (E1 & E2 & E3).
  { pose proof (checked_preparation _ _ _ _ Hc) as Hp.
    destruct (pass_prepares l now eligible Hok pc p Hin Hp) as (r0 & [[g0 Had0] Hf _ _ _ _] & _).
    destruct (renewed_candidate l L _ r HL (ad_record _ _ _ _ Had)) as (r1 & Hr1 & E & _).
    pose proof (ad_record _ _ _ _ Had0) as Hr0'. rewrite Hr1 in Hr0'. injection Hr0' as <-.
    rewrite Hf, E. cbn. split_and!; [done|by apply (HuL _ _ (ad_record _ _ _ _ Had))..]. }
  split.
  - destruct (calm_units _ _ Hcalm (conj HuL HlL)) as [H _]. exact H.
  - rewrite Ep. cbn [selection_of sel_priority sel_cost_units]. rewrite E3. apply checked_priority in Hc. rewrite E1, E2 in Hc.
    unfold check_priority in Hc. destruct (pd_allows _ _ _ _ _) eqn:Ha; [|done]. by eapply lanes_charge.
Qed.

Lemma finish_units l now eligible L b :
  ledger_ok l → units_ok l → renewed l L → units_ok (finish_search (prepare_selection_pass l now eligible) b L).2.
Proof.
  intros Hok Hu HL. set (pass := prepare_selection_pass l now eligible). unfold finish_search.
  pose proof (renewed_units l L Hu HL) as HuL. pose proof (find_found L pass b) as Hf.
  destruct (ds_best _) as [[[j p] sc]|] eqn:Hb; [|done].
  destruct (fd_some _ _ _ _ _ Hf j p sc Hb) as [(pc & Hin & [_ _ Hc _] & <- & _) _].
  destruct (prepare_candidate L (pc_job_id pc)) as [sel|] eqn:Hsel; [|done].
  pose proof (selection_units l now eligible L b pc p sel Hok Hu HL Hin Hc Hsel) as H. fold pass in H.
  by destruct (settle_selection sel p pass L).
Qed.

Lemma select_next_units now eligible l res l' :
  ledger_ok l → units_ok l → select_next_due_in_scope now eligible l = Some (res, l') → units_ok l'.
Proof.
  intros Hok Hu. unfold select_next_due_in_scope, SELECT_FUEL. set (pass := prepare_selection_pass l (Some now) eligible).
  destruct (select_loop_cases 0 pass (has_admissible_bulk l pass) l) as [[-> _]|(_ & _ & _ & ->)]; intros [= E];
    change l' with (res, l').2; rewrite <- E; apply finish_units; try done; [by left|by right].
Qed.

Lemma select_units j l : ledger_ok l → units_ok l → units_ok (select j l).2.
Proof.
  intros Hok Hu. destruct (select_cases j l) as [reason L HL ->|target p L b sel Hin <- HL Hc Hn Hsel ->].
  { by apply (renewed_units l). }
  pose proof (selection_units l None None L b target p sel Hok Hu HL Hin Hc Hsel) as H. by destruct (settle_selection _ _ _ _).
Qed.

(** ** Reachable with unit costs *)

Definition op_unit (op : ledger_op) : Prop :=
  match op with LO_Add input | LO_Upsert input => unit_input input | _ => True end.

Inductive unit_step (l l' : FairnessLedger) : Prop :=
  | unit_step_intro op (Hop : op_ok l op) (Hunit : op_unit op) (Heq : l' = apply_op op l).

Definition unit_reached (b : FairnessBudget) (l : FairnessLedger) : Prop := rtc unit_step (FairnessLedger_new b) l.

Lemma run_unit_steps ops l : ops_ok ops l → Forall op_unit ops → rtc unit_step l (run_ops ops l).
Proof.
  revert l. induction ops as [|op ops IH]; intros l; [done|]. intros [Hop Hops] [Hu Hus]%Forall_cons.
  eapply rtc_l; [by eapply unit_step_intro|]. by apply IH.
Qed.

Lemma calm_remove j l : calm l (remove_candidate j l).
Proof.
  unfold remove_candidate. destruct (_ !! _); [|done]. destruct (is_leased _).
  - etrans; [|apply calm_restore]. apply calm_settlement.
  - etrans; [|apply calm_route]. by apply calm_candidate.
Qed.

Lemma calm_reconcile j t l : calm l (reconcile_leased j t l).2.
Proof.
  unfold reconcile_leased. destruct (_ !! _) as [r|]; [|done]. destruct (is_leased _); [|done]. cbn [snd].
  etrans; [|apply calm_route]. etrans; [|by apply calm_candidate]. etrans; [|apply calm_restore].
  destruct (release_capacity_parts (permit_for_leased_record j r) CR_RestoreRate l) as (? & ? & _). by apply calm_same.
Qed.

Lemma calm_compact j l : calm l (compact_candidate j l).2.
Proof.
  unfold compact_candidate. destruct (_ !! _) as [r|]; [|done]. destruct (is_terminal_or_absent _); [|done]. cbn [snd].
  set (l1 := replace_candidate_route _ _ _ _). assert (calm l l1) as H1.
  { etrans; [|apply calm_route]. split; [by left|]. cbn. intros i r' [_ ?]%lookup_delete_Some. eauto. }
  destruct (fc_ordering_key _); [|done]. destruct (existsb _ _); [done|]. etrans; [exact H1|by apply calm_same].
Qed.

Lemma calm_defer j t l : calm l (defer_candidate j t l).
Proof.
  unfold defer_candidate. destruct (_ !! _); [|done]. etrans; [|apply calm_route]. by apply calm_candidate.
Qed.

Lemma op_units l op : ledger_ok l → units_ok l → op_ok l op → op_unit op → units_ok (apply_op op l).
Proof.
  intros Hok Hu Hop Hunit. assert (∀ l', calm l l' → units_ok l') as Hcalm by (intros l' H; by apply (calm_units l)).
  destruct op; cbn [apply_op op_ok op_unit] in *; try (by apply Hcalm, calm_same).
  - by apply Hcalm, calm_add.
  - by apply Hcalm, calm_upsert.
  - apply Hcalm, calm_defer.
  - apply Hcalm, calm_remove.
  - apply Hcalm, calm_settle.
  - apply Hcalm, calm_settle.
  - apply Hcalm. unfold record_service_units. destruct (_ !! _); [by apply calm_candidate|done].
  - apply Hcalm, calm_reconcile.
  - apply Hcalm. unfold block. destruct (_ !! _); by apply calm_same.
  - apply Hcalm. unfold refill. destruct (_ !! _); by apply calm_same.
  - apply Hcalm. unfold set_scope_weight. destruct (_ !! _); by apply calm_same.
  - apply Hcalm. unfold set_scope_mode. destruct (_ !! _); by apply calm_same.
  - by apply reset_units.
  - apply Hcalm, calm_compact.
  - by rewrite rebuild_ready_same.
  - destruct (select_next_ok now eligible l Hok) as (res & l' & Hsel & _). rewrite Hsel. by eapply select_next_units.
  - by apply select_units.
  - unfold service_transition. pose proof (select_units job_id l Hok Hu) as Hs1.
    destruct (select job_id l) as [[permit|] l1]; [|done]. cbn in Hs1. unfold settle_service.
    pose proof (calm_settle permit (PS_Service (if refill_rate then CR_RestoreRate else CR_PreserveRate)) l1) as Hsl.
    destruct (settle_permit _ _ l1); [|done]. cbn in Hsl. by apply (calm_units l1).
Qed.

Lemma unit_reached_ok b l : is_budget b = true → unit_reached b l → ledger_ok l ∧ served_ok l ∧ units_ok l.
Proof.
  intros Hb Hr. refine (rtc_ind_r (λ l, ledger_ok l ∧ served_ok l ∧ units_ok l) (FairnessLedger_new b) _ _ l Hr).
  - split_and!; [by apply new_ok|by intros s st _|]. split; [by intros j r|]. apply lanes_default.
  - intros l1 l2 _ [op Hop Hu ->] (IH1 & IH2 & IH3). split_and!; [by apply op_keeps|by apply op_served|by apply op_units].
Qed.

(** ** Progress *)

(** A candidate of the pass that passed the capacity and ordering checks. *)
Record active (l : FairnessLedger) (pass : SelectionPass) (pc : PreparedCandidate) (p : CandidatePreparation) : Prop := {
  ac_in : pc ∈ sp_candidates pass;
  ac_ready : pc_ready pc = true;
  ac_due : pc_due pc = true;
  ac_prepared : pc_preparation pc = Ok p;
  ac_cost : cf_cost_units (cp_facts p) ≤ fb_max_cost_units (fl_budget l);
}.

Section progress.
Context (l : FairnessLedger) (now : option Timestamp) (eligible : option (gset JobId)) (Hok : ledger_ok l) (Hserved : served_ok l).
Let pass := prepare_selection_pass l now eligible.

(** The least-served primary is within the bound of all. *)
Lemma least_within pc p r m :
  active l pass pc p → prepares l (pc_job_id pc) r p → cf_low_volume (cp_facts p) = false →
  sm_primary_service (cp_metrics p) = m → (∀ y, y ∈ pass_services l now eligible → m ≤ y.2) →
  ∀ y, y ∈ pass_services l now eligible → Z.abs (sm_admission_service (cp_metrics p) - y.2) ≤ service_bound l.
Proof.
  intros [_ _ _ _ Hcost] [[g Had] Hf _ (st & Hst & Hsv & Hadm) _ _] Hlow Hm Hmin [i v] Hin.
  pose proof (Hmin _ Hin) as Hle. destruct (pass_services_spec l now eligible i v Hok Hin) as [_ (s & st' & Hs & Hst' & _ & ->)].
  rewrite Hf in Hlow, Hcost. cbn in Hlow, Hcost, Hle. set (P := FairScope_primary_scope (fc_scope (cr_candidate r))) in *.
  pose proof (scope_typed l _ st Hok Hst) as Hty. apply scope_state_spec in Hty as (T1 & T2 & _).
  pose proof (scope_typed l _ st' Hok Hst') as Hty'. apply scope_state_spec in Hty' as (T1' & T2' & _).
  pose proof (lk_clock _ Hok) as Hclk. specialize (Hserved s st' Hs Hst') as Hsrv. unfold position in Hsrv.
  unfold primary_position in Hsv. assert (is_low_volume P = false) as EP by (unfold P; by destruct (fc_scope (cr_candidate r))).
  rewrite EP in Hsv. rewrite Hsv in Hm.
  rewrite Hadm. rewrite (position_floor (ss_service st) _ (fl_service_clock l)) in Hm |- * by (try done; lia).
  rewrite (position_floor (ss_service st') _ (fl_service_clock l)) in Hle |- * by (try done; lia).
  destruct (candidate_bounds l _ r (lk_candidates _ Hok _ r (ad_record _ _ _ _ Had))) as [Hc _].
  assert (sa_cost (ss_service st) + fc_cost_units (cr_candidate r) ≤ U64_MAX) as Hfit.
  { destruct (FairScope_is_secondary (fc_scope (cr_candidate r))) eqn:Hsec.
    - destruct (ad_primary _ _ _ _ Had Hsec) as [(st1 & Hst1 & _ & Hfit & _)]. fold P in Hst1. by simplify_eq.
    - destruct (ad_scope _ _ _ _ Had) as [(st1 & Hst1 & _ & Hfit & _)]. rewrite <- (primary_of_plain _ Hsec) in Hst1. fold P in Hst1.
      by simplify_eq. }
  destruct (position_charge (ss_service st) (ss_weight st) (fc_cost_units (cr_candidate r)) T2 ltac:(lia) ltac:(lia) Hfit) as [_ Hd].
  pose proof (service_bound_wide l (lk_budget _ Hok)). pose proof (sa_position_range (ss_service st) (ss_weight st) 0 T2 ltac:(lia) ltac:(unfold U128_MAX; lia)).
  unfold saturating_add. cbn. lia.
Qed.

(** So some active candidate is within the bound. *)
Lemma active_admissible pc p :
  active l pass pc p →
  ∃ pc' p', active l pass pc' p' ∧ ∀ L, fl_budget L = fl_budget l → check_normalized_admission L p' pass = Ok tt.
Proof.
  intros Ha. destruct (cf_low_volume (cp_facts p)) eqn:Hlow.
  { exists pc, p. split; [done|]. intros L HL. apply normalized_check; auto. }
  destruct Ha as [Hin Hr Hd Hp Hc]. destruct (pass_prepares l now eligible Hok pc p Hin Hp) as (r & Hpr & _).
  pose proof (pass_services_in l now eligible pc p r Hok Hin Hr Hd Hp Hpr Hlow Hc) as Hx.
  destruct (pass_minimum l now eligible Hok _ _ Hx) as (i0 & m & _ & Hin0 & Hmin).
  destruct (pass_services_spec l now eligible i0 m Hok Hin0) as [(pc0 & p0 & Hin1 & Hr0 & Hd0 & Hp0 & Hlow0 & Hc0 & <-) _].
  destruct (pass_prepares l now eligible Hok pc0 p0 Hin1 Hp0) as (r0 & Hpr0 & _).
  pose proof (pass_services_in l now eligible pc0 p0 r0 Hok Hin1 Hr0 Hd0 Hp0 Hpr0 Hlow0 Hc0) as Hx0.
  assert (sm_primary_service (cp_metrics p0) = m) as Em.
  { apply eligible_indices in Hx0 as (s & Hs & _ & <-), Hin0 as (s' & Hs' & _ & <-). rewrite Hs in Hs'. by simplify_eq. }
  exists pc0, p0. split; [by split|]. intros L HL. apply normalized_check; [done..|]. right.
  unfold bound_allows. apply orb_true_iff. right. apply forallb_forall. intros y Hy%list_elem_of_In.
  apply orb_true_iff. right. apply Z.leb_le. by eapply (least_within pc0 p0 r0 m).
Qed.
End progress.

Lemma renewed_validate l L j : renewed l L → validate_candidate L j = validate_candidate l j.
Proof.
  intros [->| ->]; [done|]. unfold validate_candidate. cbn [reset_priority_window set_fl_candidates set_fl_priority fl_candidates fl_budget].
  rewrite lookup_fmap. by destruct (fl_candidates l !! j).
Qed.

Lemma validated_prepared l j c g :
  ledger_ok l → validate_candidate l j = Ok (c, g) →
  ∃ p, prepare_candidate_for_pass l j (primary_indices l) (base_stats l) = Ok p.
Proof.
  intros Hok Hv. unfold prepare_candidate_for_pass. rewrite Hv. cbn [mbind result_bind]. apply validate_admitted in Hv as (r & <- & Had).
  pose proof (ci_scope _ _ _ (lk_candidates _ Hok j r (ad_record _ _ _ _ Had))) as [child Hc].
  destruct (so_primary _ _ (lk_scopes _ Hok) _ (mk_is_Some _ _ Hc)) as [st Hst].
  destruct (primary_indices_ok l) as [_ Hdom].
  destruct (proj2 (Hdom (FairScope_primary_scope (fc_scope (cr_candidate r))))) as [i Hi]; [split; [eauto|apply primary_not_secondary]|].
  unfold candidate_service_metrics. rewrite primary_if, Hi, Hst. cbn [ok_or mbind result_bind].
  rewrite (base_stats_primary l _ i st Hi Hst). cbn [fmap option_fmap option_map ok_or mbind result_bind].
  rewrite Hc. cbn. eauto.
Qed.

Lemma validated_active l now eligible j r c g :
  ledger_ok l → fl_candidates l !! j = Some r → validate_candidate l j = Ok (c, g) → in_pass eligible j = true →
  is_due now (cr_candidate r) = true → fc_cost_units (cr_candidate r) ≤ fb_max_cost_units (fl_budget l) →
  ∃ pc p, active l (prepare_selection_pass l now eligible) pc p.
Proof.
  intros Hok Hj Hv Hin Hdue Hcost. destruct (validated_prepared l j c g Hok Hv) as [q Hq].
  set (pc := attach_counts (final_stats l now eligible) (prepared_of l now eligible (j, r))).
  assert (pc ∈ sp_candidates (prepare_selection_pass l now eligible)) as Hpc by (apply pass_candidate; eauto).
  destruct (pass_entry l now eligible Hok j r Hj) as (Ej & Er & Ed).
  destruct (attach_flags (final_stats l now eligible) (prepared_of l now eligible (j, r))) as (Aj & Ar & Ad & _).
  assert (pc_preparation (prepared_of l now eligible (j, r)) = Ok q) as Hq'.
  { unfold prepared_of. cbn. by rewrite (ci_job _ _ _ (lk_candidates _ Hok j r Hj)), Hin. }
  destruct (attach_facts (final_stats l now eligible) _ q Hq') as (p & Hp & _). fold pc in Hp.
  apply validate_admitted in Hv as (r0 & <- & Had). pose proof (ad_record _ _ _ _ Had) as Hj'. rewrite Hj in Hj'. injection Hj' as <-.
  exists pc, p. split; try done.
  - unfold pc. by rewrite Ar, Er, Hin, (ad_ready _ _ _ _ Had).
  - unfold pc. by rewrite Ad, Ed, Hin, Hdue.
  - destruct (pass_prepares l now eligible Hok pc p Hpc Hp) as (r1 & [[g1 Had1] Hf _ _ _ _] & _).
    unfold pc in Had1. rewrite Aj, Ej in Had1. pose proof (ad_record _ _ _ _ Had1) as Hj1. rewrite Hj in Hj1. injection Hj1 as <-.
    by rewrite Hf.
Qed.

(** A search that finds a candidate leases it. *)
Lemma finish_finds l now eligible L b pc p :
  ledger_ok l → renewed l L → pc ∈ sp_candidates (prepare_selection_pass l now eligible) →
  admits L (prepare_selection_pass l now eligible) b pc p →
  ∃ permit l', finish_search (prepare_selection_pass l now eligible) b L = (Ok (Some permit), l').
Proof.
  intros Hok HL Hin Had. set (pass := prepare_selection_pass l now eligible). unfold finish_search.
  pose proof (find_found L pass b) as Hf. destruct (ds_best _) as [[[j p'] sc]|] eqn:Hb;
    [|by destruct (fd_none _ _ _ _ _ Hf Hb pc p Hin)].
  destruct (fd_some _ _ _ _ _ Hf j p' sc Hb) as [(pc' & Hin' & [_ _ Hc _] & <- & _) _].
  apply checked_preparation in Hc. destruct (pass_prepares l now eligible Hok pc' p' Hin' Hc) as (r & _ & _).
  unfold prepare_candidate. rewrite (renewed_validate l L _ HL).
  apply pass_candidate in Hin' as (j & r' & Hj & ->).
  destruct (attach_flags (final_stats l now eligible) (prepared_of l now eligible (j, r'))) as (Aj & _ & _ & Ao).
  destruct (pass_entry l now eligible Hok j r' Hj) as (Ej & _). rewrite Aj, Ej.
  rewrite Hc in Ao. unfold prepared_of in Ao. cbn in Ao. rewrite (ci_job _ _ _ (lk_candidates _ Hok j r' Hj)) in Ao.
  destruct (in_pass eligible j); [|done]. unfold prepare_candidate_for_pass in Ao.
  destruct (validate_candidate l j) as [[c g]|]; [|done]. cbn [mbind result_bind]. destruct (settle_selection _ _ _ _); eauto.
Qed.

(** The checks of an active candidate with a unit of work. *)
Lemma active_checked l pass pc p b L :
  active l pass pc p → fl_budget L = fl_budget l → cf_cost_units (cp_facts p) = 1 →
  check_selection L pc b =
  (if pd_allows (fl_priority L) (cf_priority (cp_facts p)) 1 b (Z.min (normalized_error_bound (fl_budget l)) U32_MAX)
   then Ok p else Err FR_PriorityDeficit).
Proof.
  intros [_ _ _ Hp Hc] HL H1. unfold check_selection. rewrite Hp. cbn. rewrite HL, H1 in *.
  rewrite (proj2 (Z.ltb_ge _ _) Hc). unfold check_priority. rewrite HL. by destruct (pd_allows _ _ _ _ _).
Qed.

Section selects.
Context (l : FairnessLedger) (now : option Timestamp) (eligible : option (gset JobId)).
Context (Hok : ledger_ok l) (Hserved : served_ok l) (Hunits : units_ok l).
Let pass := prepare_selection_pass l now eligible.

Lemma pass_unit pc p : pc ∈ sp_candidates pass → pc_preparation pc = Ok p → cf_cost_units (cp_facts p) = 1.
Proof.
  intros Hin Hp. destruct (pass_prepares l now eligible Hok pc p Hin Hp) as (r & [[g Had] Hf _ _ _ _] & _).
  rewrite Hf. cbn. by apply (proj1 Hunits _ r (ad_record _ _ _ _ Had)).
Qed.

Lemma wide_bound : 2 ≤ Z.min (normalized_error_bound (fl_budget l)) U32_MAX.
Proof.
  pose proof (lk_budget _ Hok) as Hb. pose proof (service_bound_exact l Hb) as He. unfold service_bound, saturating_mul, NORMALIZATION_SCALE, U128_MAX in He.
  unfold is_budget in Hb. split_andb. ranges. unfold normalized_error_bound, saturating_mul, saturating_add in *. nia.
Qed.

(** A bulk candidate that is announced is found. *)
Lemma bulk_found b : has_admissible_bulk l pass = true → ds_best (find_due_candidate l pass b) ≠ None.
Proof.
  intros Hb Hnone. unfold has_admissible_bulk in Hb. apply existsb_exists in Hb as (pc & Hin%list_elem_of_In & Hpc).
  rewrite !andb_true_iff in Hpc. destruct Hpc as [[Hr Hd] Hpc]. destruct (pc_preparation pc) as [p|] eqn:Hp; [|done].
  rewrite !andb_true_iff, bool_decide_eq_true in Hpc. destruct Hpc as [[Hlane Hprio] Hn].
  assert (cf_cost_units (cp_facts p) = 1) as H1 by by apply (pass_unit pc p).
  apply (fd_none _ _ _ _ _ (find_found l pass b) Hnone pc p Hin). split; try done.
  - assert (active l pass pc p) as Ha.
    { split; try done. rewrite H1. pose proof (lk_budget _ Hok) as Hbu. unfold is_budget in Hbu. split_andb. ranges. lia. }
    rewrite (active_checked l pass pc p b l Ha eq_refl H1). rewrite Hlane, H1 in *. unfold check_priority in Hprio.
    unfold pd_allows in *. cbn [Z.eqb orb] in *. rewrite !(bool_decide_true (Bulk = Bulk)) in * by done. cbn [negb] in *.
    rewrite !andb_false_r in *. cbn [orb] in *. by destruct (negb (window_allows (fl_priority l) Bulk 1)).
  - by destruct (check_normalized_admission l p pass) as [[]|].
Qed.

Definition window_full (lane : Priority) : bool :=
  match lane with
  | Critical => 8 <=? pd_critical_window (fl_priority l)
  | Default => 4 <=? pd_default_window (fl_priority l)
  | Bulk => 1 <=? pd_bulk_window (fl_priority l)
  end.

(** When nothing is found, the lanes with an active candidate are full. *)
Lemma lane_full lane pc :
  ds_best (find_due_candidate l pass (has_admissible_bulk l pass)) = None → pc ∈ sp_candidates pass →
  lane_active l pass lane pc = true →
  window_full lane = true ∧ check_selection l pc (has_admissible_bulk l pass) = Err FR_PriorityDeficit.
Proof.
  intros Hnone Hin Hpc. unfold lane_active in Hpc. rewrite !andb_true_iff in Hpc. destruct Hpc as [[Hr Hd] Hpc].
  destruct (pc_preparation pc) as [p|] eqn:Hp; [|done]. rewrite !andb_true_iff, bool_decide_eq_true, Z.leb_le in Hpc.
  destruct Hpc as [[Hc Hn] <-]. assert (active l pass pc p) as Ha by by split.
  pose proof (active_checked l pass pc p (has_admissible_bulk l pass) l Ha eq_refl (pass_unit pc p Hin Hp)) as Hck.
  destruct (pd_allows _ _ _ _ _) eqn:Hal.
  - exfalso. apply (fd_none _ _ _ _ _ (find_found l pass (has_admissible_bulk l pass)) Hnone pc p Hin).
    split; try done. by destruct (check_normalized_admission l p pass) as [[]|].
  - split; [|done]. destruct (unit_rejected _ _ _ _ (proj2 Hunits) Hal) as [Hw|[Hb _]].
    + unfold window_full. destruct (cf_priority (cp_facts p)); by apply Z.leb_le.
    + by destruct (bulk_found _ Hb Hnone).
Qed.

Lemma window_renewed :
  ds_best (find_due_candidate l pass (has_admissible_bulk l pass)) = None →
  (∃ lane pc, pc ∈ sp_candidates pass ∧ lane_active l pass lane pc = true) →
  reset_exhausted_priority_window pass l = (true, reset_priority_window l).
Proof.
  intros Hnone (lane & pc & Hin & Hpc).
  assert (∀ lane, existsb (lane_active l pass lane) (sp_candidates pass) = true → window_full lane = true) as Hfull.
  { intros lane' (pc' & Hin'%list_elem_of_In & Hpc')%existsb_exists. by eapply lane_full. }
  assert (existsb (lane_active l pass lane) (sp_candidates pass) = true) as Hex.
  { apply existsb_exists. exists pc. by rewrite <- list_elem_of_In. }
  unfold reset_exhausted_priority_window.
  pose proof (Hfull Critical) as F1. pose proof (Hfull Default) as F2. pose proof (Hfull Bulk) as F3. cbn [window_full] in F1, F2, F3.
  assert (existsb (lane_active l pass Critical) (sp_candidates pass) || existsb (lane_active l pass Default) (sp_candidates pass)
    || existsb (lane_active l pass Bulk) (sp_candidates pass) = true) as -> by (destruct lane; rewrite Hex, ?orb_true_r; done).
  destruct (existsb (lane_active l pass Critical) _), (existsb (lane_active l pass Default) _), (existsb (lane_active l pass Bulk) _);
    cbn [negb orb andb]; rewrite ?F1, ?F2, ?F3 by done; done.
Qed.

Lemma active_selects pc p :
  active l pass pc p → ∃ permit l',
    select_loop SELECT_FUEL pass (has_admissible_bulk l pass) l = Some (Ok (Some permit), l').
Proof.
  intros Ha. unfold SELECT_FUEL. destruct (active_admissible l now eligible Hok Hserved pc p Ha) as (pc0 & p0 & Ha0 & Hn0).
  pose proof Ha0 as [Hin0 Hr0 Hd0 Hp0 Hc0]. set (b := has_admissible_bulk l pass).
  destruct (ds_best (find_due_candidate l pass b)) as [[[j q] sc]|] eqn:Hb.
  - destruct (fd_some _ _ _ _ _ (find_found l pass b) j q sc Hb) as [(pc1 & Hin1 & Had1 & _) _].
    destruct (finish_finds l now eligible l b pc1 q Hok (or_introl eq_refl) Hin1 Had1) as (permit & l' & E).
    exists permit, l'. destruct (select_loop_cases 0 pass b l) as [[-> _]|[Hb' _]]; [by fold pass in E; rewrite E|congruence].
  - assert (lane_active l pass (cf_priority (cp_facts p0)) pc0 = true) as Hl.
    { unfold lane_active. rewrite Hr0, Hd0, Hp0, Hn0 by done. cbn. rewrite bool_decide_true by done. rewrite andb_true_r. lia. }
    destruct (lane_full _ pc0 Hb Hin0 Hl) as [_ Hrej].
    pose proof (window_renewed Hb) as Hw. specialize (Hw ltac:(eauto)).
    assert (ds_priority_rejected (find_due_candidate l pass b) = true) as Hpr.
    { apply (fd_priority _ _ _ _ _ (find_found l pass b)). eauto. }
    set (L := reset_priority_window l). set (b' := has_admissible_bulk L pass).
    assert (admits L pass b' pc0 p0) as Had.
    { split; try done; [|by apply Hn0]. rewrite (active_checked l pass pc0 p0 b' L Ha0 eq_refl (pass_unit pc0 p0 Hin0 Hp0)).
      cbn [fl_priority L reset_priority_window set_fl_candidates set_fl_priority]. by rewrite unit_renewed by apply wide_bound. }
    destruct (finish_finds l now eligible L b' pc0 p0 Hok (or_intror eq_refl) Hin0 Had) as (permit & l' & E).
    exists permit, l'. destruct (select_loop_cases 0 pass b l) as [[_ [Hx|[Hx|Hx]]]|(_ & _ & _ & ->)].
    + by rewrite Hb in Hx.
    + congruence.
    + by rewrite Hw in Hx.
    + f_equal. exact E.
Qed.
End selects.
