(* ===== verification/FairGuarantees.v ===== *)
(** * Guarantees of fair dispatch

    What the fair-dispatch ledger promises in every state its operations
    reach: exact counters, bounded concurrency, exclusive ordering keys, a
    bounded service gap between primaries, a selection that takes the best
    admissible candidate, ends, makes progress on unit work, and changes
    nothing but the priority window when it refuses. *)

From S2P Require Import Prelude Errors Ids Clock Policy JobRecord Ordered Fairness FairLedger FairSelect FairExtrema.
From S2P Require Import FairInvariant FairSteps FairAdmission FairPass FairSearch FairBound FairReach FairProgress.

(** ** Counting *)

Definition count_candidates (f : CandidateRecord → bool) (l : FairnessLedger) : Z :=
  Z.of_nat (size (filter (λ e : JobId * CandidateRecord, f e.2 = true) (fl_candidates l))).

Lemma count_sum f l : count_candidates f l = map_sum (λ _ r, ind (f r)) (fl_candidates l).
Proof. unfold count_candidates. symmetry. apply (map_sum_count (λ _ r, f r)). Qed.

Definition ready_at (s : FairScope) (r : CandidateRecord) : bool :=
  has_ready_route (cr_state r) && bool_decide (fc_scope (cr_candidate r) = s).
Definition leased_at (s : FairScope) (r : CandidateRecord) : bool :=
  is_leased (cr_state r) && charged s (cr_candidate r).

Lemma key_leased l k o :
  ledger_ok l → fl_orders l !! k = Some o →
  ord_in_flight o = true ↔
  ∃ j r, fl_candidates l !! j = Some r ∧ is_leased (cr_state r) = true ∧ fc_ordering_key (cr_candidate r) = Some k.
Proof.
  intros Hok Ho. destruct (oo_inv _ _ (lk_orders _ Hok) k o Ho) as (_ & _ & Hk). split.
  - intros Hf. rewrite Hf in Hk. destruct (decide (map_Exists (λ _ r, key_in k r = 1) (fl_candidates l))) as [(j & r & Hj & Hr)|Hno].
    + exists j, r. split; [done|]. unfold key_in in Hr. destruct (is_leased (cr_state r)); [|done].
      destruct (bool_decide_reflect (fc_ordering_key (cr_candidate r) = Some k)); done.
    + assert (keys_of (fl_candidates l) k = 0); [|cbn in Hk; lia]. apply map_sum_zero. intros j r Hj.
      pose proof (ind_range (is_leased (cr_state r) && bool_decide (fc_ordering_key (cr_candidate r) = Some k))) as Hr.
      fold (key_in k r) in Hr. destruct (decide (key_in k r = 1)); [by destruct Hno; exists j, r|lia].
  - intros (j & r & Hj & Hl & Hkey). destruct (keys_member l j r k Hok Hj) as [_ Hm]. unfold key_in in Hm.
    rewrite Hl, Hkey, bool_decide_true in Hm by done. destruct (ord_in_flight o); cbn in *; [done|lia].
Qed.

Lemma key_unique l k j1 r1 j2 r2 :
  ledger_ok l → fl_candidates l !! j1 = Some r1 → fl_candidates l !! j2 = Some r2 →
  is_leased (cr_state r1) = true → is_leased (cr_state r2) = true →
  fc_ordering_key (cr_candidate r1) = Some k → fc_ordering_key (cr_candidate r2) = Some k → j1 = j2.
Proof.
  intros Hok H1 H2 L1 L2 K1 K2. destruct (decide (j1 = j2)) as [|Hne]; [done|exfalso].
  destruct (ci_order _ _ _ (lk_candidates _ Hok j1 r1 H1) k K1) as [o Ho].
  destruct (oo_inv _ _ (lk_orders _ Hok) k o Ho) as (_ & _ & Hk). pose proof (ind_range (ord_in_flight o)).
  assert (∀ r, is_leased (cr_state r) = true → fc_ordering_key (cr_candidate r) = Some k → key_in k r = 1) as Hone.
  { intros r Hl Hr. unfold key_in. by rewrite Hl, Hr, bool_decide_true by done. }
  unfold keys_of in Hk. rewrite (map_sum_delete _ _ _ _ H1), (Hone r1 L1 K1) in Hk.
  pose proof (map_sum_elem (λ _, key_in k) (delete j1 (fl_candidates l)) j2 r2 (λ _ _ _, proj1 (ind_range _))) as Hm.
  rewrite lookup_delete_ne in Hm by done. specialize (Hm H2). cbn in Hm. rewrite (Hone r2 L2 K2) in Hm. lia.
Qed.

(** ** A run of the ledger *)

(** Two primaries, one with a child; one candidate is leased and settled, one
    is leased. *)
Module FairScenario.
Definition budget : FairnessBudget := mkFairnessBudget 4 2 4 1 (384 * 1024) 4.
Definition key (n : Byte.byte) : bytes := [n].
Definition job (n : Byte.byte) : JobId := replicate 16 n.
Definition input (j p : Byte.byte) (child : option bytes) (priority : Priority) (order : option OrderingKey) : FairCandidateInput :=
  mkFairCandidateInput (job j) (FC_Scoped (mkFairnessPath (key p) child)) priority 1 100 64 order 0 None.

Definition arrivals : list ledger_op :=
  [LO_Add (input Byte.x01 Byte.x0a None Critical (Some (key Byte.x07)));
   LO_Add (input Byte.x02 Byte.x0a (Some (key Byte.x0c)) Default None);
   LO_Upsert (input Byte.x03 Byte.x0b None Bulk None)].
Definition arrived : FairnessLedger := run_ops arrivals (FairnessLedger_new budget).

Definition selected : FairnessLedger := apply_op (LO_SelectNext 200 None) arrived.

Lemma arrived_reached : reached budget arrived.
Proof. apply run_steps. vm_compute. auto 20. Qed.

(** The job a selection leases. *)
Definition leased_job (answer : option (result FairnessRejection (option FairPermit) * FairnessLedger)) : option JobId :=
  match answer with Some (Ok (Some permit), _) => Some (pm_job_id permit) | _ => None end.

Lemma arrived_leases : leased_job (select_next_due_in_scope 200 None arrived) = Some (job Byte.x01).
Proof. vm_compute. reflexivity. Qed.

Lemma arrived_units : unit_reached budget arrived.
Proof. apply run_unit_steps; [vm_compute; auto 20|]. repeat constructor. Qed.

Lemma selected_reached : reached budget selected.
Proof.
  eapply rtc_r; [exact arrived_reached|]. by eapply (ledger_step_intro _ _ (LO_SelectNext 200 None)).
Qed.
End FairScenario.

(** ** Counters *)

(** C20: In every ledger the operations reach from a new one, the counters of a
    scope are what the candidates make them: its ready count is the number of
    ready candidates in it, its in-flight count the number of leased
    candidates charged to it, its in-flight count and its permits add up to
    the concurrency of the budget, and all its fields are in the range of
    their types; and an ordering key is in flight exactly when a leased
    candidate carries it. *)
Theorem counters_exact b l :
  is_budget b = true → reached b l →
  (∀ s st, fl_scopes l !! s = Some st →
     is_scope_state st = true ∧ ss_ready_count st = count_candidates (ready_at s) l ∧
     ss_in_flight st = count_candidates (leased_at s) l ∧
     ss_in_flight st + ss_permits st = fb_max_concurrency_per_scope b) ∧
  (∀ k o, fl_orders l !! k = Some o →
     ord_in_flight o = true ↔
     ∃ j r, fl_candidates l !! j = Some r ∧ is_leased (cr_state r) = true ∧ fc_ordering_key (cr_candidate r) = Some k).
Proof.
  intros Hb Hr. destruct (reached_ok b l Hb Hr) as [Hok _]. rewrite <- (reached_budget b l Hb Hr). split.
  - intros s st Hst. destruct (so_inv _ _ (lk_scopes _ Hok) s st Hst) as [Ht H1 H2 H3 _ _ _ _]. rewrite !count_sum.
    split_and!; [done|exact H1|exact H2|lia].
  - intros k o Ho. by apply key_leased.
Qed.

Lemma counters_exact_witness :
  is_budget FairScenario.budget = true ∧
  ∃ st, fl_scopes FairScenario.selected !! Scoped (FairScenario.key Byte.x0a) None = Some st ∧
    ss_in_flight st = 1 ∧ ss_in_flight st = count_candidates (leased_at (Scoped (FairScenario.key Byte.x0a) None)) FairScenario.selected.
Proof.
  split; [reflexivity|].
  destruct (fl_scopes FairScenario.selected !! Scoped (FairScenario.key Byte.x0a) None) as [st|] eqn:E;
    [|vm_compute in E; discriminate E].
  exists st. destruct (counters_exact FairScenario.budget FairScenario.selected eq_refl FairScenario.selected_reached) as [H _].
  destruct (H _ _ E) as (_ & _ & H2 & _). split_and!; [reflexivity|rewrite H2; vm_compute; reflexivity|exact H2].
Defined.

(** C21: In every ledger the operations reach, at most the budget's concurrency
    of candidates is leased at once in any registered scope, counting for a
    primary those of its children, and two leased candidates with one ordering
    key are the same. *)
Theorem leases_bounded b l :
  is_budget b = true → reached b l →
  (∀ s, is_Some (fl_scopes l !! s) → count_candidates (leased_at s) l ≤ fb_max_concurrency_per_scope b) ∧
  (∀ k j1 r1 j2 r2, fl_candidates l !! j1 = Some r1 → fl_candidates l !! j2 = Some r2 →
     is_leased (cr_state r1) = true → is_leased (cr_state r2) = true →
     fc_ordering_key (cr_candidate r1) = Some k → fc_ordering_key (cr_candidate r2) = Some k → j1 = j2).
Proof.
  intros Hb Hr. destruct (reached_ok b l Hb Hr) as [Hok _]. rewrite <- (reached_budget b l Hb Hr). split.
  - intros s [st Hst]. rewrite count_sum. destruct (so_inv _ _ (lk_scopes _ Hok) s st Hst) as [Ht _ _ Hp _ _ _ _].
    apply scope_state_spec in Ht. change (map_sum _ _) with (dm_flight (demand_of (fl_candidates l)) s). lia.
  - intros k j1 r1 j2 r2. by apply key_unique.
Qed.

Lemma leases_bounded_witness :
  count_candidates (leased_at (Scoped (FairScenario.key Byte.x0a) None)) FairScenario.selected ≤ 2.
Proof.
  destruct (leases_bounded FairScenario.budget FairScenario.selected eq_refl FairScenario.selected_reached) as [H _].
  apply H. eexists. vm_compute. reflexivity.
Defined.

(** ** Service *)

(** C17: In every ledger the operations reach, the service positions of any two
    registered primaries are within [E = C * (W + N)] of each other, on the
    scale positions are kept in: no primary runs ahead of another by more than
    the admission bound, whatever their weights and the order of the
    operations. *)
Theorem service_gap_bounded b l s1 st1 s2 st2 :
  is_budget b = true → reached b l → is_scoped_primary s1 = true → is_scoped_primary s2 = true →
  fl_scopes l !! s1 = Some st1 → fl_scopes l !! s2 = Some st2 →
  Z.abs (primary_position l s1 st1 - primary_position l s2 st2)
  ≤ NORMALIZATION_SCALE * (fb_max_cost_units b * (fb_candidate_window b + fb_max_concurrency_per_scope b)).
Proof.
  intros Hb Hr P1 P2 H1 H2. destruct (reached_ok b l Hb Hr) as [Hok Hs].
  pose proof (service_bound_exact l (lk_budget _ Hok)) as He. rewrite (reached_budget b l Hb Hr) in He.
  change NORMALIZATION_SCALE with 2. rewrite <- He.
  assert (∀ s st, is_scoped_primary s = true → fl_scopes l !! s = Some st →
    fl_service_clock l ≤ primary_position l s st ≤ fl_service_clock l + service_bound l) as Hpos.
  { intros s st Hp Hst. unfold primary_position. rewrite (proj1 (Bool.not_true_iff_false (is_low_volume s))) by by destruct s.
    pose proof (scope_typed l s st Hok Hst) as Hty. apply scope_state_spec in Hty as (T1 & T2 & _). pose proof (lk_clock _ Hok).
    rewrite position_floor by (try done; lia). pose proof (Hs s st Hp Hst) as Hle. unfold position in Hle.
    pose proof (service_bound_wide l (lk_budget _ Hok)). pose proof (lk_budget _ Hok) as Hbu. unfold is_budget in Hbu. split_andb. ranges. lia. }
  pose proof (Hpos s1 st1 P1 H1). pose proof (Hpos s2 st2 P2 H2). lia.
Qed.

Lemma service_gap_bounded_witness :
  ∃ st1 st2, Z.abs (primary_position FairScenario.selected (Scoped (FairScenario.key Byte.x0a) None) st1
    - primary_position FairScenario.selected (Scoped (FairScenario.key Byte.x0b) None) st2) ≤ 2 * (4 * (4 + 2)).
Proof.
  destruct (fl_scopes FairScenario.selected !! Scoped (FairScenario.key Byte.x0a) None) as [st1|] eqn:E1;
    [|vm_compute in E1; discriminate E1].
  destruct (fl_scopes FairScenario.selected !! Scoped (FairScenario.key Byte.x0b) None) as [st2|] eqn:E2;
    [|vm_compute in E2; discriminate E2].
  exists st1, st2. exact (service_gap_bounded FairScenario.budget FairScenario.selected
    (Scoped (FairScenario.key Byte.x0a) None) st1 (Scoped (FairScenario.key Byte.x0b) None) st2 eq_refl
    FairScenario.selected_reached eq_refl eq_refl E1 E2).
Defined.

(** C24: Checking an admission against the least and the greatest service of
    the eligible primaries, and the runners-up where the candidate's own
    primary is the extreme, is checking it against every other eligible
    primary. *)
Theorem extrema_exact stats i service bound :
  Z.of_nat (length stats) ≤ USIZE_MAX →
  ServiceExtrema_allows (build_service_extrema stats) i service bound =
  bound_allows (eligible_services stats) i service bound.
Proof.
  intros Hlen. rewrite build_fold. apply extrema_allow; [apply eligible_nodup|]. pose proof (length_eligible stats). lia.
Qed.

Lemma extrema_exact_witness :
  ServiceExtrema_allows (build_service_extrema [mkPrimaryStats 1 true 5 None; mkPrimaryStats 1 true 40 None]) 0 7 24 = false ∧
  bound_allows (eligible_services [mkPrimaryStats 1 true 5 None; mkPrimaryStats 1 true 40 None]) 0 7 24 = false.
Proof.
  rewrite <- (extrema_exact [mkPrimaryStats 1 true 5 None; mkPrimaryStats 1 true 40 None] 0 7 24); [|vm_compute; discriminate].
  split; reflexivity.
Defined.

(** ** The ready index *)

(** C25: In every ledger the operations reach, recomputing the ready counts of
    all scopes from the candidates changes nothing: the index the operations
    maintain one candidate at a time is the one [rebuild_ready_counts] builds
    from scratch. *)
Theorem ready_index_exact b l : is_budget b = true → reached b l → rebuild_ready_counts l = l.
Proof. intros Hb Hr. apply rebuild_ready_same, (reached_ok b l Hb Hr). Qed.

Lemma ready_index_exact_witness : rebuild_ready_counts FairScenario.selected = FairScenario.selected.
Proof. exact (ready_index_exact FairScenario.budget FairScenario.selected eq_refl FairScenario.selected_reached). Defined.

(** ** Selection *)

(** A search that leases, leases the best of what it may. *)
Lemma finish_least l now eligible L b :
  ledger_ok l → renewed l L →
  let pass := prepare_selection_pass l now eligible in
  match finish_search pass b L with
  | (Ok (Some permit), l') => ∃ pc p, pc ∈ sp_candidates pass ∧ pc_job_id pc = pm_job_id permit ∧ admits L pass b pc p ∧
      leases L l' permit ∧
      ∀ pc' p', pc' ∈ sp_candidates pass → admits L pass b pc' p' →
        key_ltb (selection_score (pc_job_id pc') p') (selection_score (pc_job_id pc) p) = false
  | (Ok None, l') => l' = L ∧ ∀ pc, pc ∈ sp_candidates pass → pc_ready pc = true → pc_due pc = false
  | (Err _, l') => l' = L ∧ ∃ pc, pc ∈ sp_candidates pass ∧ pc_ready pc = true ∧ pc_due pc = true
  end.
Proof.
  intros Hok HL pass. pose proof (renewed_ok l L Hok HL) as HokL. pose proof (find_found L pass b) as Hf. unfold finish_search.
  destruct (ds_best _) as [[[j p] sc]|] eqn:Hb.
  - destruct (fd_some _ _ _ _ _ Hf j p sc Hb) as [(pc & Hin & Had & <- & ->) Hmin].
    destruct (finish_finds l now eligible L b pc p Hok HL Hin Had) as (permit & l' & E). fold pass in E.
    unfold finish_search in E. rewrite Hb in E. destruct (prepare_candidate L (pc_job_id pc)) as [sel|] eqn:Hsel; [|done].
    pose proof Had as [_ _ Hc _]. apply checked_preparation in Hc.
    pose proof (selection_settles L _ sel p pass HokL Hsel (prepare_sound l now eligible Hok pc p Hin Hc)) as H.
    destruct (settle_selection sel p pass L) as [permit' l''] eqn:Es. destruct H as [_ Hl].
    exists pc, p. split_and!; try done. apply prepare_admitted in Hsel as (r & g & -> & Ha).
    unfold settle_selection in Es. injection Es as <- _. cbn. symmetry.
    apply (ci_job _ _ _ (lk_candidates _ HokL _ r (ad_record _ _ _ _ Ha))).
  - assert (∀ pc, pc ∈ sp_candidates pass → pc_ready pc = true → pc_due pc = true → ds_first_rejection (find_due_candidate L pass b) ≠ None) as Hrej.
    { intros pc Hin Hr Hd Hn. destruct (fd_first _ _ _ _ _ Hf Hn pc Hin Hr Hd) as [p Hp].
      by apply (fd_none _ _ _ _ _ Hf Hb pc p Hin). }
    destruct (ds_first_rejection _) as [reason|] eqn:E; (split; [done|]).
    + destruct (existsb (λ pc, pc_ready pc && pc_due pc) (sp_candidates pass)) eqn:Hex.
      * apply existsb_exists in Hex as (pc & Hin & Hpc). apply andb_true_iff in Hpc as [? ?]. exists pc. by rewrite list_elem_of_In.
      * exfalso. pose proof (fd_empty _ _ _ _ _ Hf) as He. rewrite He in E; [done|]. intros pc Hin Hr.
        destruct (pc_due pc) eqn:Hd; [|done]. assert (existsb (λ pc, pc_ready pc && pc_due pc) (sp_candidates pass) = true); [|congruence].
        apply existsb_exists. exists pc. rewrite <- list_elem_of_In. by rewrite Hr, Hd.
    + intros pc Hin Hr. destruct (pc_due pc) eqn:Hd; [|done]. by destruct (Hrej pc Hin Hr Hd).
Qed.

(** A candidate of the scope of the pass waits and is due. *)
Definition waiting (l : FairnessLedger) (now : Timestamp) (eligible : option (gset JobId)) : Prop :=
  ∃ j r, fl_candidates l !! j = Some r ∧ in_pass eligible j = true ∧ has_ready_route (cr_state r) = true
    ∧ fc_scheduled_at (cr_candidate r) ≤ now.

Lemma waiting_pass l now eligible :
  ledger_ok l →
  waiting l now eligible ↔
  ∃ pc, pc ∈ sp_candidates (prepare_selection_pass l (Some now) eligible) ∧ pc_ready pc = true ∧ pc_due pc = true.
Proof.
  intros Hok. split.
  - intros (j & r & Hj & Hin & Hr & Hd).
    exists (attach_counts (final_stats l (Some now) eligible) (prepared_of l (Some now) eligible (j, r))).
    destruct (attach_flags (final_stats l (Some now) eligible) (prepared_of l (Some now) eligible (j, r))) as (_ & -> & -> & _).
    destruct (pass_entry l (Some now) eligible Hok j r Hj) as (_ & -> & ->). rewrite Hin, Hr. split_and!; [|done|cbn; lia].
    apply pass_candidate. eauto.
  - intros (pc & Hin & Hr & Hd). apply pass_candidate in Hin as (j & r & Hj & ->). exists j, r.
    destruct (attach_flags (final_stats l (Some now) eligible) (prepared_of l (Some now) eligible (j, r))) as (_ & Er & Ed & _).
    destruct (pass_entry l (Some now) eligible Hok j r Hj) as (_ & Er' & Ed'). rewrite Er, Er', andb_true_iff in Hr.
    rewrite Ed, Ed', andb_true_iff in Hd. destruct Hr, Hd. split_and!; try done. cbn in *. lia.
Qed.

(** The loop, as one search or two. *)
Lemma select_next_search now eligible l :
  let pass := prepare_selection_pass l (Some now) eligible in
  ∃ L b, renewed l L ∧ select_next_due_in_scope now eligible l = Some (finish_search pass b L) ∧
    (L = l ∨ ∃ pc, pc ∈ sp_candidates pass ∧ pc_ready pc = true ∧ pc_due pc = true).
Proof.
  intros pass. unfold select_next_due_in_scope, SELECT_FUEL. fold pass. set (b := has_admissible_bulk l pass).
  destruct (select_loop_cases 0 pass b l) as [[E _]|(_ & Hp & _ & E)].
  - exists l, b. split_and!; [by left|exact E|by left].
  - exists (reset_priority_window l), (has_admissible_bulk (reset_priority_window l) pass). split_and!; [by right|exact E|right].
    apply (fd_priority _ _ _ _ _ (find_found l pass b)) in Hp as (pc & ? & ? & ? & _). eauto.
Qed.

(** C19: In every ledger the operations reach, a selection leases a candidate
    only after it passed every check of the pass, and the one it leases has
    the least score of all that did: priority lane first, then the service of
    its primary, how many candidates wait there, how far its scope is ahead of
    its siblings, its time and its identifier.  It answers that there is
    nothing to do exactly when no candidate of the pass waits and is due. *)
Theorem selection_least b now eligible l res l' :
  is_budget b = true → reached b l → select_next_due_in_scope now eligible l = Some (res, l') →
  let pass := prepare_selection_pass l (Some now) eligible in
  match res with
  | Ok (Some permit) => ∃ L bulk pc p, renewed l L ∧ leases L l' permit ∧ pc ∈ sp_candidates pass ∧
      pc_job_id pc = pm_job_id permit ∧ admits L pass bulk pc p ∧
      ∀ pc' p', pc' ∈ sp_candidates pass → admits L pass bulk pc' p' →
        key_ltb (selection_score (pc_job_id pc') p') (selection_score (pc_job_id pc) p) = false
  | Ok None => l' = l ∧ ¬ waiting l now eligible
  | Err _ => waiting l now eligible
  end.
Proof.
  intros Hb Hr Hsel pass. destruct (reached_ok b l Hb Hr) as [Hok _].
  destruct (select_next_search now eligible l) as (L & bulk & HL & E & Hwhy). rewrite E in Hsel. injection Hsel as Hsel.
  pose proof (finish_least l (Some now) eligible L bulk Hok HL) as H. cbn zeta in H. fold pass in H, Hwhy, Hsel. rewrite Hsel in H.
  destruct res as [[permit|]|reason].
  - destruct H as (pc & p & Hin & Hj & Had & Hl & Hmin). exists L, bulk, pc, p. done.
  - destruct H as [-> Hno]. split.
    + destruct Hwhy as [->|(pc & Hin & Hrd & Hd)]; [done|]. rewrite (Hno pc Hin Hrd) in Hd. done.
    + rewrite waiting_pass by done. intros (pc & Hin & Hrd & Hd). rewrite (Hno pc Hin Hrd) in Hd. done.
  - destruct H as [_ Hw]. by apply waiting_pass.
Qed.

Lemma selection_least_witness :
  ∃ permit l' pc p, select_next_due_in_scope 200 None FairScenario.arrived = Some (Ok (Some permit), l') ∧
    pm_job_id permit = FairScenario.job Byte.x01 ∧
    ∃ L bulk, renewed FairScenario.arrived L ∧ leases L l' permit ∧
      admits L (prepare_selection_pass FairScenario.arrived (Some 200) None) bulk pc p.
Proof.
  pose proof FairScenario.arrived_leases as Hj.
  destruct (select_next_due_in_scope 200 None FairScenario.arrived) as [[[[permit|]|reason] l']|] eqn:E; [|discriminate Hj..].
  injection Hj as Hj.
  destruct (selection_least FairScenario.budget 200 None FairScenario.arrived _ l' eq_refl FairScenario.arrived_reached E)
    as (L & bulk & pc & p & HL & Hl & _ & _ & Had & _).
  exists permit, l', pc, p. split; [reflexivity|]. split; [exact Hj|]. exists L, bulk. split_and!; assumption.
Defined.

(** C22: The selection loop ends: after at most one renewal of the priority
    window it has searched twice and answers, and more iterations would not
    change the answer. *)
Theorem selection_terminates now eligible l :
  let pass := prepare_selection_pass l (Some now) eligible in
  ∃ answer, select_next_due_in_scope now eligible l = Some answer ∧
    ∀ n, select_loop (S (S n)) pass (has_admissible_bulk l pass) l = Some answer.
Proof.
  intros pass. unfold select_next_due_in_scope, SELECT_FUEL. fold pass. set (b := has_admissible_bulk l pass).
  destruct (select_loop_cases 0 pass b l) as [[-> Hwhy]|(Hb & Hp & Hr & ->)]; eexists; (split; [reflexivity|]); intros n.
  - destruct (select_loop_cases n pass b l) as [[-> _]|(Hb & Hp & Hr & _)]; [done|].
    destruct Hwhy as [?|[?|Hx]]; [done|congruence|by rewrite Hr in Hx].
  - destruct (select_loop_cases n pass b l) as [[_ Hwhy]|(_ & _ & _ & ->)]; [|done].
    destruct Hwhy as [?|[?|Hx]]; [done|congruence|by rewrite Hr in Hx].
Qed.

(** C18: Progress.  When every candidate ever registered costs one unit, a
    selection in a reachable ledger leases a candidate whenever some candidate
    of the pass is due and passes the capacity, rate and ordering checks: the
    service bound and the priority lanes cannot turn everything away. *)
Theorem unit_selection_progress b now eligible l j r v :
  is_budget b = true → unit_reached b l → fl_candidates l !! j = Some r → in_pass eligible j = true →
  fc_scheduled_at (cr_candidate r) ≤ now → validate_candidate l j = Ok v →
  ∃ permit l', select_next_due_in_scope now eligible l = Some (Ok (Some permit), l').
Proof.
  intros Hb Hr Hj Hin Hdue Hv. destruct (unit_reached_ok b l Hb Hr) as (Hok & Hs & Hu). destruct v as [c g].
  destruct (validated_active l (Some now) eligible j r c g Hok Hj Hv Hin) as (pc & p & Ha).
  - cbn. lia.
  - rewrite (proj1 Hu j r Hj). pose proof (lk_budget _ Hok) as Hbu. unfold is_budget in Hbu. split_andb. ranges. lia.
  - exact (active_selects l (Some now) eligible Hok Hs Hu pc p Ha).
Qed.

Lemma unit_selection_progress_witness :
  ∃ permit l', select_next_due_in_scope 200 None FairScenario.arrived = Some (Ok (Some permit), l').
Proof.
  destruct (fl_candidates FairScenario.arrived !! FairScenario.job Byte.x03) as [r|] eqn:Hj; [|vm_compute in Hj; discriminate Hj].
  destruct (validate_candidate FairScenario.arrived (FairScenario.job Byte.x03)) as [v|] eqn:Hv; [|vm_compute in Hv; discriminate Hv].
  apply (unit_selection_progress FairScenario.budget 200 None FairScenario.arrived (FairScenario.job Byte.x03) r v);
    [reflexivity|exact FairScenario.arrived_units|exact Hj|reflexivity| |exact Hv].
  assert (match fl_candidates FairScenario.arrived !! FairScenario.job Byte.x03 with
          | Some r => fc_scheduled_at (cr_candidate r) <=? 200 | None => false end = true) as H by (vm_compute; reflexivity).
  rewrite Hj in H. apply Z.leb_le. exact H.
Defined.

