(* ===== verification/FairFindings.v ===== *)
(** * Where fair dispatch does not do what it says

    Runs of the ledger, computed: a cost above the weight of its lane is never
    admitted, a window that cannot be filled exactly stops its lane, a refused
    selection can reset the window, and a permit from before a reconciliation
    settles the lease after it. *)

From S2P Require Import Prelude Errors Ids Clock Policy JobRecord Ordered Fairness FairLedger FairSelect FairExtrema.
From S2P Require Import FairInvariant FairSteps FairAdmission FairPass FairSearch FairBound FairReach FairProgress.

Definition finding_budget : FairnessBudget := mkFairnessBudget 4 4 8 1 (384 * 1024) 4.
Definition finding_job (n : Byte.byte) : JobId := replicate 16 n.
Definition finding_input (j : Byte.byte) (priority : Priority) (cost : Z) : FairCandidateInput :=
  mkFairCandidateInput (finding_job j) (FC_Scoped (mkFairnessPath [j] None)) priority cost 100 64 None 0 None.

(** ** Costs above the weight of a lane *)

(** Whatever the state of the lanes, a cost above the weight of its lane is
    refused. *)
Lemma oversize_refused d priority cost bulk_ready bound :
  is_priority_deficit d = true → Priority_default_weight priority < cost → cost ≤ U16_MAX →
  pd_allows d priority cost bulk_ready bound = false.
Proof.
  unfold is_priority_deficit, is_u64, is_u32. rewrite !andb_true_iff, !in_range_spec. intros Hd Hc Hc'. unfold pd_allows.
  assert (window_allows d priority cost = false) as ->; [|by rewrite orb_true_r].
  unfold window_allows, saturating_add, CRITICAL_WEIGHT, DEFAULT_WEIGHT, BULK_WEIGHT, U32_MAX, U16_MAX in *.
  destruct priority; cbn in Hc; apply Z.leb_gt; lia.
Qed.

(** So no selection in a reachable ledger ever leases it. *)
Theorem oversize_never_leased b now eligible l permit l' :
  is_budget b = true → reached b l → select_next_due_in_scope now eligible l = Some (Ok (Some permit), l') →
  pm_cost_units permit ≤ Priority_default_weight (pm_priority permit).
Proof.
  intros Hb Hr Hsel. destruct (reached_ok b l Hb Hr) as [Hok _]. unfold select_next_due_in_scope, SELECT_FUEL in Hsel.
  set (pass := prepare_selection_pass l (Some now) eligible) in *. set (bulk := has_admissible_bulk l pass) in *.
  assert (∃ L b', renewed l L ∧ finish_search pass b' L = (Ok (Some permit), l')) as (L & b' & HL & E).
  { destruct (select_loop_cases 0 pass bulk l) as [[E _]|(_ & _ & _ & E)]; rewrite E in Hsel; injection Hsel as Hsel.
    - exists l, bulk. split; [by left|done].
    - eexists _, _. split; [by right|exact Hsel]. }
  unfold finish_search in E. destruct (ds_best _) as [[[j p] sc]|] eqn:Hbest; [|by destruct (ds_first_rejection _)].
  destruct (fd_some _ _ _ _ _ (find_found L pass b') j p sc Hbest) as [(pc & Hin & [_ _ Hc _] & <- & _) _].
  destruct (prepare_candidate L (pc_job_id pc)) as [sel|] eqn:Hs; [|done].
  apply prepare_admitted in Hs as (r & g & -> & Had). unfold settle_selection in E. injection E as <- _. cbn.
  destruct (pass_prepares l (Some now) eligible Hok pc p Hin (checked_preparation _ _ _ _ Hc)) as (r0 & [[g0 Had0] Hf _ _ _ _] & _).
  destruct (renewed_candidate l L _ r HL (ad_record _ _ _ _ Had)) as (r1 & Hr1 & Ec & _).
  pose proof (ad_record _ _ _ _ Had0) as Hr0. rewrite Hr1 in Hr0. injection Hr0 as <-.
  apply checked_priority in Hc. rewrite Hf, Ec in Hc. cbn in Hc. unfold check_priority in Hc.
  destruct (Z.le_gt_cases (fc_cost_units (cr_candidate r)) (Priority_default_weight (fc_priority (cr_candidate r)))) as [|Hgt]; [done|].
  pose proof (renewed_ok l L Hok HL) as HokL. pose proof (candidate_bounds L _ r (lk_candidates _ HokL _ r (ad_record _ _ _ _ Had))).
  rewrite oversize_refused in Hc; [done|apply HokL|lia|lia].
Qed.

(** ** A lane that cannot fill its window *)

Definition stuck_ops : list ledger_op :=
  [LO_Add (finding_input Byte.x01 Critical 3); LO_Add (finding_input Byte.x02 Critical 3);
   LO_Add (finding_input Byte.x03 Critical 3); LO_SelectNext 200 None; LO_SelectNext 200 None].
Definition stuck_ledger : FairnessLedger := run_ops stuck_ops (FairnessLedger_new finding_budget).

(** Two of three critical candidates of cost 3 are leased; the window is at 6
    of 8, the third does not fit, and the window is not renewed below 8.  The
    third passes every other check. *)
Theorem window_stuck :
  reached finding_budget stuck_ledger ∧
  (λ a : _ * FairnessLedger, (a.1, pd_critical_window (fl_priority a.2))) <$> select_next_due_in_scope 200 None stuck_ledger
    = Some (Err FR_PriorityDeficit, 6) ∧
  is_ok (validate_candidate stuck_ledger (finding_job Byte.x03)) = true.
Proof.
  split; [apply run_steps; vm_compute; auto 20|]. split; vm_compute; reflexivity.
Qed.

(** ** A refusal that changes the ledger *)

Definition renewing_ops : list ledger_op :=
  [LO_Add (finding_input Byte.x01 Bulk 1); LO_Select (finding_job Byte.x01); LO_Add (finding_input Byte.x02 Bulk 2)].
Definition renewing_ledger : FairnessLedger := run_ops renewing_ops (FairnessLedger_new finding_budget).

(** The refused selection of the second candidate resets the bulk window. *)
Theorem refusal_renews :
  reached finding_budget renewing_ledger ∧
  (select (finding_job Byte.x02) renewing_ledger).1 = Err FR_PriorityDeficit ∧
  pd_bulk_window (fl_priority renewing_ledger) = 1 ∧
  pd_bulk_window (fl_priority (select (finding_job Byte.x02) renewing_ledger).2) = 0.
Proof.
  split; [apply run_steps; vm_compute; auto 20|]. split_and!; vm_compute; reflexivity.
Qed.

(** ** A permit that outlives its lease *)

Definition leased_ledger : FairnessLedger :=
  run_ops [LO_Add (finding_input Byte.x01 Critical 1); LO_Select (finding_job Byte.x01)] (FairnessLedger_new finding_budget).
Definition releases_ledger : FairnessLedger :=
  run_ops [LO_Reconcile (finding_job Byte.x01) 150; LO_Select (finding_job Byte.x01)] leased_ledger.

Definition stale_permit : option FairPermit :=
  permit_for_leased_record (finding_job Byte.x01) <$> fl_candidates leased_ledger !! finding_job Byte.x01.

(** The permit of the lease that was reconciled away releases the next one. *)
Theorem stale_permit_settles :
  ∃ permit, stale_permit = Some permit ∧ candidate_state releases_ledger (finding_job Byte.x01) = Some CS_Leased ∧
    is_ok (release permit RL_Complete releases_ledger) = true.
Proof.
  assert (match stale_permit with Some permit => is_ok (release permit RL_Complete releases_ledger) | None => false end = true) as H
    by (vm_compute; reflexivity).
  destruct stale_permit as [permit|]; [|done]. exists permit. split_and!; [done|vm_compute; reflexivity|done].
Qed.
