(* ===== verification/FairOwner.v ===== *)
(** * The owner of the fair-dispatch ledger

    [crates/bg-jobs/src/fairness/fairness_ledger/owner]: the durable owner
    with its registration metadata and its batch ([state.rs]), the commands on
    it ([commands.rs]), the ordered registration of a discovery pass
    ([discovery.rs]) and the validation of persisted state ([accounting.rs]
    and the checks of [persistence.rs]). *)

From S2P Require Import Prelude Errors Ids Clock Policy JobRecord Ordered Fairness FairLedger FairSelect.

(** [BatchKey] and [AuthConfigId]: opaque [u64] identities. *)
Abbreviation BatchKey := Z.
Abbreviation AuthConfigId := Z.

(** ** State *)

Record FairCandidateMetadata : Type := mkFairCandidateMetadata {
  md_handler_kind : JobKind;
  md_schema_version : Z;
  md_batch_key : BatchKey;
  md_auth_config : AuthConfigId;
  md_effect_mode : EffectMode;
  md_retry_policy : RetryPolicy;
  md_timeout : Duration;
  md_enqueued_at : Timestamp;
  md_batch_deadline : Timestamp;
}.

Record FairSelectionSnapshot : Type := mkFairSelectionSnapshot {
  sn_job_id : JobId;
  sn_scope : FairScope;
  sn_cost_units : Z;
}.

Inductive FairBatchItemState : Type := BI_Missing | BI_Success | BI_Retry | BI_DeadLetter | BI_Duplicate.
#[export] Instance FairBatchItemState_eq_dec : EqDecision FairBatchItemState.
Proof. solve_decision. Defined.

Record FairBatchState : Type := mkFairBatchState {
  fs_active : bool;
  fs_scope : FairScope;
  fs_auth_config : AuthConfigId;
  fs_members : gset JobId;
  fs_results : gmap JobId FairBatchItemState;
  fs_scratch_size : Z;
  fs_scratch_capacity : Z;
  fs_payload_bytes : Z;
  fs_formed_at : Timestamp;
  fs_deadline : Timestamp;
}.

Definition FairBatchState_try_default : result ValidationError FairBatchState :=
  primary ← map_err ValidationError_from_identifier (FairnessKey_try_new [Byte.x61]);
  Ok (mkFairBatchState false (Scoped primary None) 1 ∅ ∅ 0 3 0 0 0).

Definition FairCandidateMetadata_for_record (record : JobRecordV1) : FairCandidateMetadata :=
  mkFairCandidateMetadata (jr_kind record) (jr_schema_version record) 1 1 (ps_effect_mode (jr_policy record))
    (ps_retry_policy (jr_policy record)) (default 0 (ps_execution_timeout (jr_policy record))) (jr_created_at record)
    (jr_scheduled_at record).

Record FairDispatchOwner : Type := mkFairDispatchOwner {
  ow_ledger : FairnessLedger;
  ow_metadata : gmap JobId FairCandidateMetadata;
  ow_batch : FairBatchState;
  ow_hol_escapes : Z;
  ow_selected : FairSelectionSnapshot;
  (** The bytes [load] read; [None] expects an absent value. *)
  ow_loaded_value : option bytes;
}.

Definition set_ow_ledger (v : FairnessLedger) (x : FairDispatchOwner) : FairDispatchOwner :=
  mkFairDispatchOwner v (ow_metadata x) (ow_batch x) (ow_hol_escapes x) (ow_selected x) (ow_loaded_value x).
Definition set_ow_metadata (v : gmap JobId FairCandidateMetadata) (x : FairDispatchOwner) : FairDispatchOwner :=
  mkFairDispatchOwner (ow_ledger x) v (ow_batch x) (ow_hol_escapes x) (ow_selected x) (ow_loaded_value x).
Definition set_ow_batch (v : FairBatchState) (x : FairDispatchOwner) : FairDispatchOwner :=
  mkFairDispatchOwner (ow_ledger x) (ow_metadata x) v (ow_hol_escapes x) (ow_selected x) (ow_loaded_value x).
Definition set_ow_hol_escapes (v : Z) (x : FairDispatchOwner) : FairDispatchOwner :=
  mkFairDispatchOwner (ow_ledger x) (ow_metadata x) (ow_batch x) v (ow_selected x) (ow_loaded_value x).
Definition set_ow_selected (v : FairSelectionSnapshot) (x : FairDispatchOwner) : FairDispatchOwner :=
  mkFairDispatchOwner (ow_ledger x) (ow_metadata x) (ow_batch x) (ow_hol_escapes x) v (ow_loaded_value x).
Definition set_ow_loaded_value (v : option bytes) (x : FairDispatchOwner) : FairDispatchOwner :=
  mkFairDispatchOwner (ow_ledger x) (ow_metadata x) (ow_batch x) (ow_hol_escapes x) (ow_selected x) v.

Definition FairDispatchOwner_try_new (budget : FairnessBudget) : result ValidationError FairDispatchOwner :=
  batch ← FairBatchState_try_default;
  Ok (mkFairDispatchOwner (FairnessLedger_new budget) ∅ batch 0
        (mkFairSelectionSnapshot (replicate 16 Byte.x01) (fs_scope batch) 0) None).

(** ** Commands *)

(** A command on the ledger with a value. *)
Definition on_ledger {A} (f : FairnessLedger → A * FairnessLedger) (o : FairDispatchOwner) : A * FairDispatchOwner :=
  let '(a, l) := f (ow_ledger o) in (a, set_ow_ledger l o).
(** A command on the ledger that fails without a change. *)
Definition try_ledger {E} (f : FairnessLedger → result E FairnessLedger) (o : FairDispatchOwner)
    : result E FairDispatchOwner :=
  l ← f (ow_ledger o); Ok (set_ow_ledger l o).

Definition observe_selection_attempt (job_id : JobId) (served : bool) (o : FairDispatchOwner)
    : bool * FairDispatchOwner :=
  match fl_candidates (ow_ledger o) !! job_id with
  | None => (false, o)
  | Some record =>
      (true, set_ow_selected (mkFairSelectionSnapshot job_id (fc_scope (cr_candidate record))
               (if served then fc_cost_units (cr_candidate record) else 0)) o)
  end.

Definition observe_permit (permit : FairPermit) (o : FairDispatchOwner) : FairDispatchOwner :=
  set_ow_selected (mkFairSelectionSnapshot (pm_job_id permit) (pm_scope permit) (pm_cost_units permit)) o.

Definition clear_selected_cost (o : FairDispatchOwner) : FairDispatchOwner :=
  set_ow_selected (mkFairSelectionSnapshot (sn_job_id (ow_selected o)) (sn_scope (ow_selected o)) 0) o.

Definition record_hol_escape (o : FairDispatchOwner) : FairDispatchOwner :=
  set_ow_hol_escapes (saturating_add U64_MAX (ow_hol_escapes o) 1) o.

Definition batch_clearable (o : FairDispatchOwner) : bool :=
  fs_active (ow_batch o)
  && forallb (λ e, negb (bool_decide (e.2 = BI_Missing))) (btree (fs_results (ow_batch o))).

Definition scratch_shrinkable (o : FairDispatchOwner) : bool :=
  negb (fs_active (ow_batch o)) && (fs_scratch_size (ow_batch o) =? 0) && (0 <? fs_scratch_capacity (ow_batch o)).

Definition start_batch (scope : FairScope) (auth_config : AuthConfigId) (members : gset JobId)
    (payload_bytes : Z) (formed_at deadline : Timestamp) (o : FairDispatchOwner) : FairDispatchOwner :=
  set_ow_batch (mkFairBatchState true scope auth_config members (gset_to_gmap BI_Missing members)
    (Z.of_nat (size members)) (fs_scratch_capacity (ow_batch o)) payload_bytes formed_at deadline) o.

Definition record_batch_result (job_id : JobId) (result : FairBatchItemState) (o : FairDispatchOwner)
    : bool * FairDispatchOwner :=
  let b := ow_batch o in
  if negb (fs_active b) || negb (bool_decide (job_id ∈ fs_members b)) then (false, o)
  else (true, set_ow_batch (mkFairBatchState (fs_active b) (fs_scope b) (fs_auth_config b) (fs_members b)
          (<[job_id := result]> (fs_results b)) (fs_scratch_size b) (fs_scratch_capacity b) (fs_payload_bytes b)
          (fs_formed_at b) (fs_deadline b)) o).

Definition clear_batch (o : FairDispatchOwner) : FairDispatchOwner :=
  set_ow_batch (mkFairBatchState false (fs_scope (ow_batch o)) 1 ∅ ∅ 0 (fs_scratch_capacity (ow_batch o)) 0 0 0) o.

Definition shrink_scratch (o : FairDispatchOwner) : FairDispatchOwner :=
  let b := ow_batch o in
  set_ow_batch (mkFairBatchState (fs_active b) (fs_scope b) (fs_auth_config b) (fs_members b) (fs_results b)
    (fs_scratch_size b) 0 (fs_payload_bytes b) (fs_formed_at b) (fs_deadline b)) o.

Definition ensure_candidate (input : FairCandidateInput) (metadata : FairCandidateMetadata) (o : FairDispatchOwner)
    : result ValidationError FairDispatchOwner :=
  let job_id := fi_job_id input in
  o ← match candidate_state (ow_ledger o) job_id with
      | None => try_ledger (add_candidate input) o
      | Some (CS_Absent | CS_Scheduled | CS_RetryWaiting | CS_DeadLettered | CS_Cancelled) =>
          try_ledger (upsert_candidate input) o
      | Some CS_Leased => Ok o
      end;
  Ok (set_ow_metadata (<[job_id := metadata]> (ow_metadata o)) o).

Definition owner_set_scope_weight (scope : FairScope) (weight : Z) : FairDispatchOwner → bool * FairDispatchOwner :=
  on_ledger (set_scope_weight scope weight).
Definition owner_set_scope_mode (scope : FairScope) (mode : FairVolumeMode)
    : FairDispatchOwner → bool * FairDispatchOwner :=
  on_ledger (set_scope_mode scope mode).

(** [None] only if the selection loop ran out of fuel. *)
Definition owner_select_next_due_in (now : Timestamp) (eligible : gset JobId) (o : FairDispatchOwner)
    : option (result FairnessRejection (option FairPermit) * FairDispatchOwner) :=
  (λ '(permit, l), (permit, set_ow_ledger l o)) <$> select_next_due_in now eligible (ow_ledger o).

Definition owner_select (job_id : JobId) : FairDispatchOwner → result FairnessRejection FairPermit * FairDispatchOwner :=
  on_ledger (select job_id).

Definition owner_release (permit : FairPermit) (outcome : FairRelease)
    : FairDispatchOwner → result FairnessRejection FairDispatchOwner :=
  try_ledger (release permit outcome).

Definition owner_settle_service (permit : FairPermit) (refill_rate : bool)
    : FairDispatchOwner → result FairnessRejection FairDispatchOwner :=
  try_ledger (settle_service permit refill_rate).

Definition owner_record_service_units (job_id : JobId) (units : Z) : FairDispatchOwner → bool * FairDispatchOwner :=
  on_ledger (record_service_units job_id units).

Definition record_selection (permit : FairPermit) (o : FairDispatchOwner) : bool * FairDispatchOwner :=
  let '(recorded, o) := owner_record_service_units (pm_job_id permit) (pm_cost_units permit) o in
  (recorded, if recorded then observe_permit permit o else o).

Definition has_eligible_bulk (now : Timestamp) (o : FairDispatchOwner) : bool :=
  existsb (λ e, let candidate := cr_candidate e.2 in
    bool_decide (fc_priority candidate = Bulk) && (fc_scheduled_at candidate <=? now)
    && has_ready_route (cr_state e.2) && is_ok (select (fc_job_id candidate) (ow_ledger o)).1)
    (btree (fl_candidates (ow_ledger o))).

Definition service_error_scope (job_id : JobId) (now : Timestamp) (o : FairDispatchOwner) : option FairScope :=
  record ← fl_candidates (ow_ledger o) !! job_id;
  if (now <? fc_scheduled_at (cr_candidate record)) || negb (has_ready_route (cr_state record)) then None
  else Some (fc_scope (cr_candidate record)).

Definition service_error_is_admissible (job_id : JobId) (now : Timestamp) (o : FairDispatchOwner) : bool :=
  if is_ok (select job_id (ow_ledger o)).1 then
    (pd_cycle (fl_priority (ow_ledger o)) <? normalized_error_bound (fl_budget (ow_ledger o)))
    || negb (has_eligible_bulk now o)
  else false.

Definition service_error_value (scope : FairScope) (o : FairDispatchOwner) : option Z :=
  let l := ow_ledger o in
  let primary := FairScope_primary_scope scope in
  primary_state ← fl_scopes l !! primary;
  other ← List.find (λ e, is_scoped_primary e.1 && negb (bool_decide (e.1 = primary))) (btree (fl_scopes l));
  Some (abs_diff (sa_position (ss_service primary_state) (ss_weight primary_state) (fl_service_clock l))
                 (sa_position (ss_service other.2) (ss_weight other.2) (fl_service_clock l))).

Definition record_service_error (job_id : JobId) (now : Timestamp) (o : FairDispatchOwner) : bool * FairDispatchOwner :=
  match service_error_scope job_id now o with
  | None => (false, o)
  | Some scope =>
      if negb (service_error_is_admissible job_id now o) then (false, o)
      else match service_error_value scope o with
      | None => (false, o)
      | Some error =>
          let bound := saturating_mul U128_MAX (normalized_error_bound (fl_budget (ow_ledger o))) NORMALIZATION_SCALE in
          if bound <? error then (false, o)
          else match fl_scopes (ow_ledger o) !! scope with
          | None => (false, o)
          | Some _ => (true, set_ow_ledger (update_scope (set_ss_errors error) scope (ow_ledger o)) o)
          end
      end
  end.

Definition block_candidate (job_id : JobId) (reason : CandidateBlock) (o : FairDispatchOwner) : bool * FairDispatchOwner :=
  match fl_candidates (ow_ledger o) !! job_id with
  | None => (false, o)
  | Some record =>
      match cr_state record with
      | CS_Scheduled | CS_RetryWaiting =>
          match fc_block (cr_candidate record) with
          | Some _ => (false, o)
          | None =>
              let scope := fc_scope (cr_candidate record) in
              let l := update_candidate (λ r, set_cr_candidate (set_fc_block (Some reason) (cr_candidate r)) r) job_id
                         (ow_ledger o) in
              on_ledger (block scope reason) (set_ow_ledger l o)
          end
      | CS_Absent | CS_Leased | CS_DeadLettered | CS_Cancelled => (false, o)
      end
  end.

Definition owner_refill (scope : FairScope) : FairDispatchOwner → bool * FairDispatchOwner := on_ledger (refill scope).
Definition owner_tick (o : FairDispatchOwner) : FairDispatchOwner := set_ow_ledger (tick (ow_ledger o)) o.
Definition owner_reset_priority_window (o : FairDispatchOwner) : FairDispatchOwner :=
  clear_selected_cost (set_ow_ledger (reset_priority_window (ow_ledger o)) o).
Definition owner_defer_candidate (job_id : JobId) (scheduled_at : Timestamp) (o : FairDispatchOwner) : FairDispatchOwner :=
  set_ow_ledger (defer_candidate job_id scheduled_at (ow_ledger o)) o.
Definition reconcile_leased_candidate (job_id : JobId) (scheduled_at : Timestamp)
    : FairDispatchOwner → bool * FairDispatchOwner :=
  on_ledger (reconcile_leased job_id scheduled_at).
Definition candidate_ids (o : FairDispatchOwner) : list JobId := (btree (fl_candidates (ow_ledger o))).*1.
Definition owner_remove_candidate (job_id : JobId) (o : FairDispatchOwner) : FairDispatchOwner :=
  set_ow_ledger (remove_candidate job_id (ow_ledger o)) o.

Definition compact_terminal_candidates (o : FairDispatchOwner) : FairDispatchOwner :=
  let o :=
    foldl (λ o job_id,
      let '(compacted, l) := compact_candidate job_id (ow_ledger o) in
      let o := set_ow_ledger l o in
      if compacted then set_ow_metadata (delete job_id (ow_metadata o)) o else o)
      o (terminal_or_absent_candidates (ow_ledger o)) in
  set_ow_ledger (compact_empty_scopes (ow_ledger o)) o.

(** ** Discovery *)

Definition active_registrations (o : FairDispatchOwner) : list (FairScope * FairCandidateMetadata) :=
  omap (λ e,
    if has_ready_route (cr_state e.2) || is_leased (cr_state e.2)
    then (λ metadata, (fc_scope (cr_candidate e.2), metadata)) <$> ow_metadata o !! e.1
    else None) (btree (fl_candidates (ow_ledger o))).

Definition raise_tail (record : CandidateRecord) (tails : gmap OrderingKey Z) : gmap OrderingKey Z :=
  match fc_ordering_key (cr_candidate record) with
  | Some key => <[key := Z.max (default 0 (tails !! key)) (fc_ordering_position (cr_candidate record))]> tails
  | None => tails
  end.

Definition collect_ordering_tails (o : FairDispatchOwner) : gmap OrderingKey Z :=
  foldl (λ tails e, raise_tail e.2 tails) ∅ (btree (fl_candidates (ow_ledger o))).

Definition set_fi_ordering_position (v : Z) (x : FairCandidateInput) : FairCandidateInput :=
  mkFairCandidateInput (fi_job_id x) (fi_fairness x) (fi_priority x) (fi_cost_units x) (fi_scheduled_at x)
    (fi_payload_bytes x) (fi_ordering_key x) v (fi_block x).

(** The position of a discovered candidate, and the tails it leaves. *)
Definition assign_position (input : FairCandidateInput) (tails : gmap OrderingKey Z) (o : FairDispatchOwner)
    : result ValidationError (FairCandidateInput * gmap OrderingKey Z) :=
  match fi_ordering_key input with
  | None => Ok (input, tails)
  | Some key =>
      let previous :=
        match fl_candidates (ow_ledger o) !! fi_job_id input with
        | Some record => if bool_decide (fc_ordering_key (cr_candidate record) = Some key) then Some record else None
        | None => None
        end in
      match previous with
      | Some record => Ok (set_fi_ordering_position (fc_ordering_position (cr_candidate record)) input, tails)
      | None =>
          tail ← ok_or (VE_InvalidValue "ordering_position") (checked_add_u64 (default 0 (tails !! key)) 1);
          Ok (set_fi_ordering_position tail input, <[key := tail]> tails)
      end
  end.

(** The loop over the discovered candidates; the owner a failure leaves is
    returned with the error, as [&mut self] keeps what was done. *)
Fixpoint ensure_discovered (candidates : list (FairCandidateInput * FairCandidateMetadata))
    (tails : gmap OrderingKey Z) (o : FairDispatchOwner) : result ValidationError unit * FairDispatchOwner :=
  match candidates with
  | [] => (Ok tt, o)
  | (input, metadata) :: candidates =>
      match assign_position input tails o with
      | Err e => (Err e, o)
      | Ok (input, tails) =>
          match ensure_candidate input metadata o with
          | Err e => (Err e, o)
          | Ok o => ensure_discovered candidates tails o
          end
      end
  end.

Definition ensure_discovered_candidates (candidates : list (FairCandidateInput * FairCandidateMetadata))
    (o : FairDispatchOwner) : result ValidationError unit * FairDispatchOwner :=
  ensure_discovered candidates (collect_ordering_tails o) o.

(** ** Validation of persisted state *)

(** One scope of the first loop of [validate_service_accounting]. *)
Definition retain_cost (costs : gmap FairScope Z) (e : FairScope * ScopeState)
    : result StoreDataError (gmap FairScope Z) :=
  let '(scope, state) := e in
  let add primary cost :=
    total ← ok_or (SDE_Malformed "fair owner aggregate service") (checked_add_u64 (default 0 (costs !! primary)) cost);
    Ok (<[primary := total]> costs) in
  if is_scoped_primary scope then add scope (sa_cost (ss_own_service state))
  else if negb (sa_cost (ss_own_service state) =? 0) || negb (sa_origin (ss_own_service state) =? 0)
          || negb (sa_base_cost (ss_own_service state) =? 0) || negb (ss_child_service_clock state =? 0)
  then Err (SDE_Malformed "fair owner non-primary service")
  else if FairScope_is_secondary scope then add (FairScope_primary_scope scope) (sa_cost (ss_service state))
  else Ok costs.

Fixpoint retain_costs (costs : gmap FairScope Z) (scopes : list (FairScope * ScopeState))
    : result StoreDataError (gmap FairScope Z) :=
  match scopes with
  | [] => Ok costs
  | e :: scopes => costs ← retain_cost costs e; retain_costs costs scopes
  end.

(** The second loop: every retained cost is within its primary's. *)
Fixpoint check_retained (scopes : gmap FairScope ScopeState) (costs : list (FairScope * Z)) : result StoreDataError unit :=
  match costs with
  | [] => Ok tt
  | (primary, minimum) :: costs =>
      match scopes !! primary with
      | None => Err (SDE_Malformed "fair owner missing primary service")
      | Some state =>
          if sa_cost (ss_service state) <? minimum then Err (SDE_Malformed "fair owner aggregate service")
          else check_retained scopes costs
      end
  end.

Definition validate_service_accounting (o : FairDispatchOwner) : result StoreDataError unit :=
  costs ← retain_costs ∅ (btree (fl_scopes (ow_ledger o)));
  check_retained (fl_scopes (ow_ledger o)) (btree costs).

Definition malformed (reason : string) (bad : bool) : result StoreDataError unit :=
  if bad then Err (SDE_Malformed reason) else Ok tt.

Definition validate_inactive_batch (batch : FairBatchState) : result StoreDataError unit :=
  if bool_decide (fs_members batch = ∅) && bool_decide (fs_results batch = ∅) && (fs_scratch_size batch =? 0)
     && (fs_payload_bytes batch =? 0) && (fs_formed_at batch =? 0) && (fs_deadline batch =? 0)
  then Ok tt else Err (SDE_Malformed "fair owner inactive batch state").

Definition validate_batch_shape (batch : FairBatchState) : result StoreDataError unit :=
  _ ← malformed "fair owner batch members" (bool_decide (fs_members batch = ∅));
  _ ← malformed "fair owner batch results"
        (negb (size (fs_members batch) =? size (fs_results batch))%nat
         || existsb (λ e, negb (bool_decide (e.1 ∈ fs_members batch))) (btree (fs_results batch)));
  malformed "fair owner batch scratch"
    (negb (fs_scratch_size batch =? Z.of_nat (size (fs_members batch)))
     || (fs_scratch_capacity batch <? fs_scratch_size batch)).

Definition validate_missing_batch_member (candidate : option CandidateRecord) (metadata : option FairCandidateMetadata)
    : result StoreDataError unit :=
  let candidate_is_leased := match candidate with Some record => is_leased (cr_state record) | None => false end in
  _ ← malformed "fair owner batch candidate" (negb candidate_is_leased);
  malformed "fair owner batch metadata" (bool_decide (metadata = None)).

Definition validate_batch_member (o : FairDispatchOwner) (job_id : JobId) : result StoreDataError unit :=
  match fs_results (ow_batch o) !! job_id with
  | None => Err (SDE_Malformed "fair owner batch results")
  | Some result =>
      let candidate := fl_candidates (ow_ledger o) !! job_id in
      let metadata := ow_metadata o !! job_id in
      _ ← (if bool_decide (result = BI_Missing) then validate_missing_batch_member candidate metadata else Ok tt);
      _ ← malformed "fair owner batch scope"
            (match candidate with
             | Some record =>
                 negb (bool_decide (FairScope_primary_scope (fc_scope (cr_candidate record)) = fs_scope (ow_batch o)))
             | None => false
             end);
      malformed "fair owner batch metadata"
        (match metadata with
         | Some metadata =>
             negb (md_auth_config metadata =? fs_auth_config (ow_batch o))
             || (md_batch_deadline metadata <? fs_deadline (ow_batch o))
         | None => false
         end)
  end.

Fixpoint validate_batch_members (o : FairDispatchOwner) (members : list JobId) : result StoreDataError unit :=
  match members with
  | [] => Ok tt
  | job_id :: members => _ ← validate_batch_member o job_id; validate_batch_members o members
  end.

Definition validate_batch_time (batch : FairBatchState) : result StoreDataError unit :=
  malformed "fair owner batch time" (fs_deadline batch <? fs_formed_at batch).

Definition validate_selected (o : FairDispatchOwner) : result StoreDataError unit :=
  let selected := ow_selected o in
  _ ← malformed "fair owner batch selection" (negb (bool_decide (sn_job_id selected ∈ fs_members (ow_batch o))));
  malformed "fair owner batch selection"
    (match fl_candidates (ow_ledger o) !! sn_job_id selected with
     | Some record =>
         negb (bool_decide (fc_scope (cr_candidate record) = sn_scope selected))
         || negb (fc_cost_units (cr_candidate record) =? sn_cost_units selected)
     | None => false
     end).

Definition validate_active_batch (o : FairDispatchOwner) : result StoreDataError unit :=
  _ ← validate_batch_shape (ow_batch o);
  _ ← validate_batch_members o (btree_set (fs_members (ow_batch o)));
  _ ← validate_batch_time (ow_batch o);
  validate_selected o.

Definition validate_persisted_state (o : FairDispatchOwner) : result StoreDataError unit :=
  _ ← validate_service_accounting o;
  if negb (fs_active (ow_batch o)) then validate_inactive_batch (ow_batch o) else validate_active_batch o.
