(* ===== verification/FairCodec.v ===== *)
(** * The codec of the fair-dispatch owner

    [crates/bg-jobs/src/fairness/fairness_ledger/owner/codec]: the primitive
    fields and enum bytes ([wire.rs]), the encoder ([encode.rs]) and the
    decoder ([decode.rs]) of the versioned owner state, and the envelope of
    the stored value ([persistence.rs]).  The [Writer] and the [Reader] of
    [wire.rs] are private copies with the primitives of [Wire], to which they
    add 128-bit integers. *)

From S2P Require Import Prelude Errors Ids Clock Policy JobRecord Wire KeyCodec ValueCodec JobCodec Keyspace.
From S2P Require Import Ordered Fairness FairLedger FairSelect FairOwner.

Definition FAIR_OWNER_VERSION : Z := 7.
Definition MAX_OWNER_ENTRIES : Z := 4096.
(** [b"dispatch-state\0"]. *)
Definition FAIR_OWNER_MARKER : bytes := ascii "dispatch-state" ++ [Byte.x00].

(** ** Primitives: [wire.rs] *)

Definition u128_bytes (value : Z) : bytes := to_be_bytes 16 value.
Definition Writer_u128 (w : Writer) (value : Z) : Writer := w ++ u128_bytes value.
Definition Reader_u128 : reader Z := value ← Reader_fixed_array 16; mret (from_be_unsigned value).

Definition wire_text : reader bytes :=
  bs ← Reader_bytes; lift (if is_str bs then Ok bs else Err (SDE_Malformed "fair owner text")).
Definition wire_optional_bytes : reader (option bytes) := read_option "fair owner optional bytes" Reader_bytes.

Definition write_count (w : Writer) (count : Z) : result StoreDataError Writer :=
  count ← ok_or SDE_LengthOverflow (checked 0 U32_MAX count);
  if MAX_OWNER_ENTRIES <? count then Err (SDE_InvalidLength "fair owner entries" count MAX_OWNER_ENTRIES)
  else Ok (Writer_u32 w count).

Definition read_count : reader Z :=
  count ← Reader_u32;
  if MAX_OWNER_ENTRIES <? count then fail (SDE_InvalidLength "fair owner entries" count MAX_OWNER_ENTRIES)
  else mret count.

Definition wire_write_optional_bytes (w : Writer) (value : option bytes) : result StoreDataError Writer :=
  match value with
  | None => Ok (Writer_u8 w 0)
  | Some value => Writer_bytes (Writer_u8 w 1) value
  end.

Definition write_scope (w : Writer) (scope : FairScope) : result StoreDataError Writer :=
  match scope with
  | LowVolume => Ok (Writer_u8 w 0)
  | Scoped primary secondary =>
      w ← Writer_bytes (Writer_u8 w 1) primary;
      wire_write_optional_bytes w secondary
  end.

Definition read_scope : reader FairScope :=
  tag ← Reader_u8;
  if tag =? 0 then mret LowVolume
  else if tag =? 1 then
    primary ← (bs ← Reader_bytes; lift (ident (FairnessKey_try_new bs)));
    secondary ← (value ← wire_optional_bytes; lift (transpose (λ bs, ident (FairnessKey_try_new bs)) value));
    mret (Scoped primary secondary)
  else fail (SDE_Malformed "fair owner scope").

Definition block_byte (block : option CandidateBlock) : Z :=
  match block with
  | None => 0
  | Some CB_Leased => 1
  | Some CB_Missing => 2
  | Some CB_Corrupt => 3
  | Some CB_Oversized => 4
  | Some CB_Poison => 5
  | Some CB_RateLimited => 6
  | Some CB_Capacity => 7
  end.
Definition write_block (w : Writer) (block : option CandidateBlock) : Writer := Writer_u8 w (block_byte block).

Definition block_from_byte (b : Z) : result StoreDataError (option CandidateBlock) :=
  if b =? 0 then Ok None
  else if b =? 1 then Ok (Some CB_Leased)
  else if b =? 2 then Ok (Some CB_Missing)
  else if b =? 3 then Ok (Some CB_Corrupt)
  else if b =? 4 then Ok (Some CB_Oversized)
  else if b =? 5 then Ok (Some CB_Poison)
  else if b =? 6 then Ok (Some CB_RateLimited)
  else if b =? 7 then Ok (Some CB_Capacity)
  else Err (SDE_Malformed "fair owner block").
Definition read_block : reader (option CandidateBlock) := b ← Reader_u8; lift (block_from_byte b).

Definition volume_mode_byte (mode : FairVolumeMode) : Z := match mode with VM_Scoped => 0 | VM_LowVolume => 1 end.
Definition volume_mode_from_byte (b : Z) : result StoreDataError FairVolumeMode :=
  if b =? 0 then Ok VM_Scoped else if b =? 1 then Ok VM_LowVolume else Err (SDE_Malformed "fair owner volume mode").

Definition wire_priority_byte (priority : Priority) : Z := match priority with Critical => 0 | Default => 1 | Bulk => 2 end.
Definition wire_priority_from_byte (b : Z) : result StoreDataError Priority :=
  if b =? 0 then Ok Critical else if b =? 1 then Ok Default else if b =? 2 then Ok Bulk
  else Err (SDE_Malformed "fair owner priority").

Definition candidate_state_byte (state : FairCandidateState) : Z :=
  match state with
  | CS_Absent => 0 | CS_Scheduled => 1 | CS_Leased => 2 | CS_RetryWaiting => 3 | CS_DeadLettered => 4 | CS_Cancelled => 5
  end.
Definition candidate_state_from_byte (b : Z) : result StoreDataError FairCandidateState :=
  if b =? 0 then Ok CS_Absent
  else if b =? 1 then Ok CS_Scheduled
  else if b =? 2 then Ok CS_Leased
  else if b =? 3 then Ok CS_RetryWaiting
  else if b =? 4 then Ok CS_DeadLettered
  else if b =? 5 then Ok CS_Cancelled
  else Err (SDE_Malformed "fair owner candidate state").

Definition batch_result_state_byte (state : FairBatchItemState) : Z :=
  match state with BI_Missing => 0 | BI_Success => 1 | BI_Retry => 2 | BI_DeadLetter => 3 | BI_Duplicate => 4 end.
Definition batch_result_state_from_byte (b : Z) : result StoreDataError FairBatchItemState :=
  if b =? 0 then Ok BI_Missing
  else if b =? 1 then Ok BI_Success
  else if b =? 2 then Ok BI_Retry
  else if b =? 3 then Ok BI_DeadLetter
  else if b =? 4 then Ok BI_Duplicate
  else Err (SDE_Malformed "fair owner batch result").

Definition wire_write_retry (w : Writer) (policy : RetryPolicy) : result StoreDataError Writer :=
  let nanos duration := ok_or SDE_LengthOverflow (checked 0 U64_MAX duration) in
  let w := Writer_u16 w (rp_maximum_attempts policy) in
  age ← nanos (rp_maximum_age policy);
  let w := Writer_u64 w age in
  minimum ← nanos (rp_minimum_backoff policy);
  let w := Writer_u64 w minimum in
  maximum ← nanos (rp_maximum_backoff policy);
  let w := Writer_u64 w maximum in
  Ok (Writer_u32 w (rp_multiplier policy)).

Definition wire_read_retry : reader RetryPolicy :=
  maximum_attempts ← (value ← Reader_u16; lift (nonzero value "retry attempts"));
  maximum_age ← Reader_u64;
  minimum_backoff ← Reader_u64;
  maximum_backoff ← Reader_u64;
  multiplier ← (value ← Reader_u32;
                lift (map_err (λ _, SDE_Malformed "fair owner retry multiplier") (BackoffMultiplier_try_from value)));
  lift (map_err (λ _, SDE_Malformed "fair owner retry policy")
    (RetryPolicy_try_from
       (mkRetryPolicy maximum_attempts maximum_age minimum_backoff maximum_backoff multiplier))).

(** [usize::try_from] of a [u64]. *)
Definition usize_from (value : Z) : result StoreDataError Z := ok_or SDE_LengthOverflow (checked 0 USIZE_MAX value).
Definition nonzero_usize (value : Z) (field : string) : result StoreDataError Z :=
  value ← usize_from value; nonzero value field.

(** ** Encoder: [encode.rs] *)

(** [for entry in entries { f(writer, entry)?; }]. *)
Fixpoint write_each {A} (f : Writer → A → result StoreDataError Writer) (w : Writer) (entries : list A)
    : result StoreDataError Writer :=
  match entries with
  | [] => Ok w
  | a :: entries => w ← f w a; write_each f w entries
  end.

Definition write_header (w : Writer) (o : FairDispatchOwner) : Writer :=
  let budget := fl_budget (ow_ledger o) in
  let priority := fl_priority (ow_ledger o) in
  let w := Writer_fixed w (ascii "FDS") in
  let w := Writer_u8 w FAIR_OWNER_VERSION in
  let w := Writer_u32 w (fb_candidate_window budget) in
  let w := Writer_u32 w (fb_max_concurrency_per_scope budget) in
  let w := Writer_u32 w (fb_max_rate_per_scope budget) in
  let w := Writer_u32 w (fb_max_low_volume_service budget) in
  let w := Writer_u64 w (fb_max_payload_bytes budget) in
  let w := Writer_u16 w (fb_max_cost_units budget) in
  let w := Writer_u64 w (pd_critical_served priority) in
  let w := Writer_u64 w (pd_default_served priority) in
  let w := Writer_u64 w (pd_bulk_served priority) in
  let w := Writer_u32 w (pd_critical_window priority) in
  let w := Writer_u32 w (pd_default_window priority) in
  let w := Writer_u32 w (pd_bulk_window priority) in
  let w := Writer_u32 w (pd_cycle priority) in
  Writer_u128 w (fl_service_clock (ow_ledger o)).

Definition write_service_accounting (w : Writer) (service : ServiceAccounting) : Writer :=
  let w := Writer_u64 w (sa_cost service) in
  let w := Writer_u128 w (sa_origin service) in
  Writer_u64 w (sa_base_cost service).

Definition write_scope_state (w : Writer) (state : ScopeState) : Writer :=
  let w := Writer_u8 w (volume_mode_byte (ss_mode state)) in
  let w := Writer_u64 w (ss_head state) in
  let w := Writer_u64 w (ss_order state) in
  let w := Writer_u16 w (ss_cost state) in
  let w := write_block w (ss_block state) in
  let w := Writer_u16 w (ss_weight state) in
  let w := Writer_u64 w (ss_served state) in
  let w := write_service_accounting w (ss_service state) in
  let w := write_service_accounting w (ss_own_service state) in
  let w := Writer_u128 w (ss_child_service_clock state) in
  let w := Writer_u32 w (ss_in_flight state) in
  let w := Writer_u32 w (ss_permits state) in
  let w := Writer_u32 w (ss_rate state) in
  let w := Writer_u32 w (ss_quiet_dwell state) in
  let w := Writer_u128 w (ss_errors state) in
  let w := Writer_u64 w (ss_acquisitions state) in
  Writer_u64 w (ss_releases state).

Definition write_scopes (w : Writer) (o : FairDispatchOwner) : result StoreDataError Writer :=
  w ← write_count w (Z.of_nat (size (fl_scopes (ow_ledger o))));
  write_each (λ w e, w ← write_scope w e.1; Ok (write_scope_state w e.2)) w (btree (fl_scopes (ow_ledger o))).

(** [u8::from(bool)]. *)
Definition bool_byte (b : bool) : Z := if b then 1 else 0.

Definition write_order (w : Writer) (e : OrderingKey * OrderRecord) : result StoreDataError Writer :=
  let '(ordering, order) := e in
  w ← Writer_bytes w ordering;
  let w := Writer_u64 w (ord_head order) in
  let w := Writer_fixed w (ord_owner order) in
  let w := Writer_u8 w (bool_byte (ord_in_flight order)) in
  let w := Writer_u64 w (ord_acquisitions order) in
  Ok (Writer_u64 w (ord_releases order)).

Definition write_orders (w : Writer) (o : FairDispatchOwner) : result StoreDataError Writer :=
  w ← write_count w (Z.of_nat (size (fl_orders (ow_ledger o))));
  write_each write_order w (btree (fl_orders (ow_ledger o))).

Definition write_candidate (w : Writer) (record : CandidateRecord) : result StoreDataError Writer :=
  let candidate := cr_candidate record in
  w ← write_scope w (fc_scope candidate);
  let w := Writer_u8 w (wire_priority_byte (fc_priority candidate)) in
  let w := Writer_u16 w (fc_cost_units candidate) in
  let w := Writer_i64 w (fc_scheduled_at candidate) in
  let w := Writer_u64 w (fc_payload_bytes candidate) in
  w ← wire_write_optional_bytes w (fc_ordering_key candidate);
  let w := Writer_u64 w (fc_ordering_position candidate) in
  let w := write_block w (fc_block candidate) in
  let w := Writer_u8 w (candidate_state_byte (cr_state record)) in
  let w := Writer_u64 w (cr_service_transitions record) in
  Ok (Writer_u64 w (default 0 (cr_acquisition_generation record))).

Definition write_candidates (w : Writer) (o : FairDispatchOwner) : result StoreDataError Writer :=
  w ← write_count w (Z.of_nat (size (fl_candidates (ow_ledger o))));
  write_each (λ w e, write_candidate (Writer_fixed w e.1) e.2) w (btree (fl_candidates (ow_ledger o))).

Definition write_metadata_entry (w : Writer) (metadata : FairCandidateMetadata) : result StoreDataError Writer :=
  w ← Writer_text w (md_handler_kind metadata);
  let w := Writer_u16 w (md_schema_version metadata) in
  let w := Writer_u64 w (md_batch_key metadata) in
  let w := Writer_u64 w (md_auth_config metadata) in
  let w := Writer_u8 w (encode_effect_mode (md_effect_mode metadata)) in
  w ← wire_write_retry w (md_retry_policy metadata);
  let w := Writer_u64 w (as_u64 (md_timeout metadata)) in
  let w := Writer_i64 w (md_enqueued_at metadata) in
  Ok (Writer_i64 w (md_batch_deadline metadata)).

Definition write_metadata (w : Writer) (o : FairDispatchOwner) : result StoreDataError Writer :=
  w ← write_count w (Z.of_nat (size (ow_metadata o)));
  write_each (λ w e, write_metadata_entry (Writer_fixed w e.1) e.2) w (btree (ow_metadata o)).

Definition write_batch_members (w : Writer) (batch : FairBatchState) : result StoreDataError Writer :=
  w ← write_count w (Z.of_nat (size (fs_members batch)));
  write_each (λ w job_id, Ok (Writer_fixed w job_id)) w (btree_set (fs_members batch)).

Definition write_batch_results (w : Writer) (batch : FairBatchState) : result StoreDataError Writer :=
  w ← write_count w (Z.of_nat (size (fs_results batch)));
  write_each (λ w e, Ok (Writer_u8 (Writer_fixed w e.1) (batch_result_state_byte e.2))) w (btree (fs_results batch)).

Definition write_batch (w : Writer) (batch : FairBatchState) : result StoreDataError Writer :=
  let w := Writer_u8 w (bool_byte (fs_active batch)) in
  w ← write_scope w (fs_scope batch);
  let w := Writer_u64 w (fs_auth_config batch) in
  w ← write_batch_members w batch;
  w ← write_batch_results w batch;
  let w := Writer_u64 w (fs_scratch_size batch) in
  let w := Writer_u64 w (fs_scratch_capacity batch) in
  let w := Writer_u64 w (fs_payload_bytes batch) in
  let w := Writer_i64 w (fs_formed_at batch) in
  Ok (Writer_i64 w (fs_deadline batch)).

Definition write_selection (w : Writer) (o : FairDispatchOwner) : result StoreDataError Writer :=
  let w := Writer_u64 w (ow_hol_escapes o) in
  let w := Writer_fixed w (sn_job_id (ow_selected o)) in
  w ← write_scope w (sn_scope (ow_selected o));
  Ok (Writer_u16 w (sn_cost_units (ow_selected o))).

Definition FairDispatchOwner_encode (o : FairDispatchOwner) : result StoreDataError bytes :=
  let w := write_header [] o in
  w ← write_scopes w o;
  w ← write_orders w o;
  w ← write_candidates w o;
  w ← write_metadata w o;
  w ← write_batch w (ow_batch o);
  write_selection w o.

(** ** Decoder: [decode.rs] *)

Definition read_job_id : reader JobId := bs ← Reader_fixed_array 16; lift (ident (fixed_try_from_slice "job ID" bs)).
(** [reader.u8()? != 0]. *)
Definition read_flag : reader bool := b ← Reader_u8; mret (negb (b =? 0)).
Definition decode_usize : reader Z := value ← Reader_u64; lift (usize_from value).

Definition read_header : reader unit :=
  magic ← Reader_take 3;
  if negb (bytes_eqb magic (ascii "FDS")) then fail (SDE_Malformed "fair owner version")
  else
    version ← Reader_u8;
    if negb (version =? FAIR_OWNER_VERSION) then fail (SDE_Malformed "fair owner version") else mret tt.

Definition decode_budget : reader FairnessBudget :=
  candidate_window ← (value ← Reader_u32; lift (nonzero value "candidate window"));
  max_concurrency_per_scope ← (value ← Reader_u32; lift (nonzero value "scope concurrency"));
  max_rate_per_scope ← (value ← Reader_u32; lift (nonzero value "scope rate"));
  max_low_volume_service ← (value ← Reader_u32; lift (nonzero value "low volume service"));
  max_payload_bytes ← (value ← Reader_u64; lift (nonzero_usize value "payload bytes"));
  max_cost_units ← (value ← Reader_u16; lift (nonzero value "cost units"));
  lift (map_err (λ _, SDE_Malformed "fair owner budget")
    (FairnessBudget_try_new (mkFairnessBudget candidate_window max_concurrency_per_scope max_rate_per_scope
       max_low_volume_service max_payload_bytes max_cost_units))).

Definition decode_priority : reader PriorityDeficit :=
  critical_served ← Reader_u64;
  default_served ← Reader_u64;
  bulk_served ← Reader_u64;
  critical_window ← Reader_u32;
  default_window ← Reader_u32;
  bulk_window ← Reader_u32;
  cycle ← Reader_u32;
  mret (mkPriorityDeficit critical_served default_served bulk_served critical_window default_window bulk_window cycle).

Definition read_service_accounting : reader ServiceAccounting :=
  cost ← Reader_u64;
  origin ← Reader_u128;
  base_cost ← Reader_u64;
  if cost <? base_cost then fail (SDE_Malformed "fair service cost baseline")
  else mret (mkServiceAccounting cost origin base_cost).

Definition decode_scope_state : reader ScopeState :=
  mode ← (b ← Reader_u8; lift (volume_mode_from_byte b));
  head ← Reader_u64;
  order ← Reader_u64;
  cost ← (value ← Reader_u16; lift (nonzero value "scope cost"));
  block ← read_block;
  weight ← (value ← Reader_u16; lift (nonzero value "scope weight"));
  served ← Reader_u64;
  service ← read_service_accounting;
  own_service ← read_service_accounting;
  child_service_clock ← Reader_u128;
  in_flight ← Reader_u32;
  permits ← Reader_u32;
  rate ← Reader_u32;
  quiet_dwell ← Reader_u32;
  errors ← Reader_u128;
  acquisitions ← Reader_u64;
  releases ← Reader_u64;
  mret (mkScopeState mode 0 head order cost block weight served service own_service child_service_clock in_flight
          permits rate quiet_dwell errors acquisitions releases).

Definition decode_scope : reader (FairScope * ScopeState) :=
  scope ← read_scope;
  state ← decode_scope_state;
  mret (scope, state).

(** [for _ in 0..count { let (k, v) = entry?; if map.insert(k, v).is_some() { return Err(duplicate) } }]. *)
Fixpoint insert_entries {K V} `{Countable K} (entry : reader (K * V)) (duplicate : string) (count : nat)
    (m : gmap K V) : reader (gmap K V) :=
  match count with
  | O => mret m
  | S count =>
      e ← entry;
      if bool_decide (is_Some (m !! e.1)) then fail (SDE_Malformed duplicate)
      else insert_entries entry duplicate count (<[e.1 := e.2]> m)
  end.

Definition decode_scopes (l : FairnessLedger) : reader FairnessLedger :=
  count ← read_count;
  scopes ← insert_entries decode_scope "fair owner duplicate scope" (Z.to_nat count) (fl_scopes l);
  mret (set_fl_scopes scopes l).

Definition decode_order : reader OrderRecord :=
  head ← Reader_u64;
  owner ← read_job_id;
  in_flight ← read_flag;
  acquisitions ← Reader_u64;
  releases ← Reader_u64;
  mret (mkOrderRecord head owner in_flight acquisitions releases).

Definition decode_order_entry : reader (OrderingKey * OrderRecord) :=
  ordering ← (bs ← Reader_bytes; lift (ident (OrderingKey_try_new bs)));
  order ← decode_order;
  mret (ordering, order).

Definition decode_orders (l : FairnessLedger) : reader FairnessLedger :=
  count ← read_count;
  orders ← insert_entries decode_order_entry "fair owner duplicate order" (Z.to_nat count) (fl_orders l);
  mret (set_fl_orders orders l).

Definition decode_candidate (l : FairnessLedger) : reader (JobId * CandidateRecord) :=
  job_id ← read_job_id;
  scope ← read_scope;
  if negb (bool_decide (is_Some (fl_scopes l !! scope)))
     || negb (bool_decide (is_Some (fl_scopes l !! FairScope_primary_scope scope)))
  then fail (SDE_Malformed "fair owner candidate scope")
  else
    priority ← (b ← Reader_u8; lift (wire_priority_from_byte b));
    cost_units ← (value ← Reader_u16; lift (nonzero value "candidate cost"));
    scheduled_at ← Reader_i64;
    payload_bytes ← decode_usize;
    ordering_key ← (value ← wire_optional_bytes; lift (transpose (λ bs, ident (OrderingKey_try_new bs)) value));
    ordering_position ← Reader_u64;
    block ← read_block;
    state ← (b ← Reader_u8; lift (candidate_state_from_byte b));
    service_transitions ← Reader_u64;
    acquisition_generation ← Reader_u64;
    mret (job_id, mkCandidateRecord (mkFairCandidate job_id scope priority cost_units scheduled_at payload_bytes
                    ordering_key ordering_position block) state service_transitions
                    (FairPermitGeneration_from_u64 acquisition_generation)).

Definition decode_candidates (l : FairnessLedger) : reader FairnessLedger :=
  count ← read_count;
  candidates ← insert_entries (decode_candidate l) "fair owner duplicate candidate" (Z.to_nat count) (fl_candidates l);
  mret (set_fl_candidates candidates l).

Definition decode_ledger : reader FairnessLedger :=
  _ ← read_header;
  budget ← decode_budget;
  let l := FairnessLedger_new budget in
  priority ← decode_priority;
  service_clock ← Reader_u128;
  let l := set_fl_service_clock service_clock (set_fl_priority priority l) in
  l ← decode_scopes l;
  l ← decode_orders l;
  l ← decode_candidates l;
  mret (rebuild_ready_counts l).

Definition decode_metadata_fields : reader FairCandidateMetadata :=
  handler_kind ← (value ← wire_text; lift (ident (JobKind_try_new value)));
  schema_version ← (value ← Reader_u16; lift (nonzero value "schema version"));
  batch_key ← Reader_u64;
  auth_config ← Reader_u64;
  effect_mode ← (b ← Reader_u8; lift (map_err (λ _, SDE_Malformed "fair owner effect mode") (decode_effect_mode b)));
  retry_policy ← wire_read_retry;
  timeout ← Reader_u64;
  enqueued_at ← Reader_i64;
  batch_deadline ← Reader_i64;
  mret (mkFairCandidateMetadata handler_kind schema_version batch_key auth_config effect_mode retry_policy timeout
          enqueued_at batch_deadline).

Definition decode_metadata_entry : reader (JobId * FairCandidateMetadata) :=
  job_id ← read_job_id;
  metadata ← decode_metadata_fields;
  mret (job_id, metadata).

Definition decode_metadata : reader (gmap JobId FairCandidateMetadata) :=
  count ← read_count;
  insert_entries decode_metadata_entry "fair owner duplicate metadata" (Z.to_nat count) ∅.

Fixpoint insert_members (count : nat) (members : gset JobId) : reader (gset JobId) :=
  match count with
  | O => mret members
  | S count =>
      job_id ← read_job_id;
      if bool_decide (job_id ∈ members) then fail (SDE_Malformed "fair owner duplicate batch member")
      else insert_members count ({[job_id]} ∪ members)
  end.

Definition decode_batch_members : reader (gset JobId) :=
  count ← read_count;
  insert_members (Z.to_nat count) ∅.

Definition decode_batch_result : reader (JobId * FairBatchItemState) :=
  job_id ← read_job_id;
  result ← (b ← Reader_u8; lift (batch_result_state_from_byte b));
  mret (job_id, result).

Definition decode_batch_results : reader (gmap JobId FairBatchItemState) :=
  count ← read_count;
  insert_entries decode_batch_result "fair owner duplicate batch result" (Z.to_nat count) ∅.

Definition decode_batch : reader FairBatchState :=
  active ← read_flag;
  scope ← read_scope;
  auth_config ← Reader_u64;
  members ← decode_batch_members;
  results ← decode_batch_results;
  scratch_size ← decode_usize;
  scratch_capacity ← decode_usize;
  payload_bytes ← decode_usize;
  formed_at ← Reader_i64;
  deadline ← Reader_i64;
  mret (mkFairBatchState active scope auth_config members results scratch_size scratch_capacity
          payload_bytes formed_at deadline).

Definition decode_selection : reader FairSelectionSnapshot :=
  job_id ← read_job_id;
  scope ← read_scope;
  cost_units ← Reader_u16;
  if MAX_COST_UNITS <? cost_units then fail (SDE_Malformed "fair owner selected cost")
  else mret (mkFairSelectionSnapshot job_id scope cost_units).

Definition read_owner : reader FairDispatchOwner :=
  ledger ← decode_ledger;
  metadata ← decode_metadata;
  batch ← decode_batch;
  hol_escapes ← Reader_u64;
  selected ← decode_selection;
  mret (mkFairDispatchOwner ledger metadata batch hol_escapes selected None).

Definition FairDispatchOwner_decode (encoded : bytes) : result StoreDataError FairDispatchOwner :=
  '(owner, rd) ← read_owner (Reader_new encoded);
  _ ← Reader_finish rd;
  _ ← validate_persisted_state owner;
  Ok owner.

(** ** The stored value: [persistence.rs] *)

Fixpoint starts_with (prefix bs : bytes) : bool :=
  match prefix, bs with
  | [], _ => true
  | p :: prefix, b :: bs => bool_decide (p = b) && starts_with prefix bs
  | _ :: _, [] => false
  end.

Definition decode_value (encoded : bytes) : result StoreDataError bytes :=
  '(tag, body) ← ValueCodec_decode_body encoded;
  if negb (bool_decide (tag = VT_FairReady)) || negb (starts_with FAIR_OWNER_MARKER body)
  then Err (SDE_Malformed "fair owner value")
  else Ok (drop (length FAIR_OWNER_MARKER) body).

Definition encode_value (o : FairDispatchOwner) : result StoreDataError bytes :=
  encoded ← FairDispatchOwner_encode o;
  ValueCodec_encode VT_FairReady (FAIR_OWNER_MARKER ++ encoded).

(** [FairDispatchOwner::load] after the value was read. *)
Definition load_encoded (encoded : bytes) : result StoreDataError FairDispatchOwner :=
  body ← decode_value encoded;
  owner ← FairDispatchOwner_decode body;
  Ok (set_ow_loaded_value (Some encoded) (set_ow_ledger (restart_low_volume (ow_ledger owner)) owner)).
