(* ===== verification/FairRoundtrip.v ===== *)
(** * Round trips of the fair-dispatch owner

    What the encoder of [FairCodec] writes, the decoder reads back.  The
    decoder accepts more than the encoder writes (entries in any order, any
    non-zero byte for [true]), so its read functions satisfy a contract weaker
    than [codec]: [parses p wf enc] reads the layout [enc a] of a value that
    satisfies [wf] exactly, and whatever it accepts satisfies [wf] and has the
    length of its layout. *)

From S2P Require Import Prelude Errors Ids Clock Policy JobRecord Wire KeyCodec ValueCodec JobCodec JobRoundtrip Keyspace.
From S2P Require Import Ordered Fairness FairLedger FairSelect FairInvariant FairOwner FairCodec.

(** ** The contract *)

Record parses {A} (p : reader A) (wf : A → Prop) (enc : A → bytes) : Prop := {
  parses_complete : ∀ a r tl,
    wf a → reader_ok r → rest r = enc a ++ tl → p r = Ok (a, advance r (enc a));
  parses_sound : ∀ a r r',
    reader_ok r → p r = Ok (a, r') → wf a ∧ r' = advance r (enc a) ∧ reader_ok r';
}.

Lemma codec_parses {A} (p : reader A) wf enc : codec p wf enc → parses p wf enc.
Proof.
  intros [Hc Hs]. split; [done|]. intros a r r' Hr Hp. destruct (Hs a r r' Hr Hp) as (Ha & -> & tl & Hrest).
  split_and!; [done..|]. by destruct (advance_ok r (enc a) tl Hr Hrest).
Qed.

Lemma parses_ext {A} (p : reader A) (wf wf' : A → Prop) (enc enc' : A → bytes) :
  parses p wf enc → (∀ a, wf a ↔ wf' a) → (∀ a, wf a → enc a = enc' a) → parses p wf' enc'.
Proof.
  intros [Hc Hs] Hwf Henc. split.
  - intros a r tl Ha Hr Hrest. apply Hwf in Ha. rewrite <- Henc in * by done. eauto.
  - intros a r r' Hr Hp. destruct (Hs a r r' Hr Hp) as (Ha & -> & Hr'). rewrite <- Henc in * by done.
    split; [by apply Hwf|done].
Qed.

Lemma parses_eq {A} (p q : reader A) wf enc : (∀ r, p r = q r) → parses q wf enc → parses p wf enc.
Proof. intros He [Hc Hs]. split; intros; rewrite He in *; eauto. Qed.

Lemma parses_ret {A} (a : A) : parses (mret a) (λ b, b = a) (λ _, []).
Proof. apply codec_parses, codec_ret. Qed.

Lemma parses_bind {A B} (π : B → A) (p : reader A) (k : A → reader B)
    (wf1 : A → Prop) (enc1 : A → bytes) (wf2 : A → B → Prop) (enc2 : A → B → bytes) :
  parses p wf1 enc1 →
  (∀ a, wf1 a → parses (k a) (wf2 a) (enc2 a)) →
  (∀ a b, wf1 a → wf2 a b → π b = a) →
  parses (p ≫= k) (λ b, wf1 (π b) ∧ wf2 (π b) b) (λ b, enc1 (π b) ++ enc2 (π b) b).
Proof.
  intros [Hc Hs] Hk Hπ. split.
  - intros b r tl [H1 H2] Hr Hrest. rewrite <- app_assoc in Hrest.
    unfold mbind, reader_bind. rewrite (Hc _ _ _ H1 Hr Hrest).
    destruct (advance_ok _ _ _ Hr Hrest) as [Hr' Hrest'].
    rewrite (parses_complete _ _ _ (Hk _ H1) _ _ _ H2 Hr' Hrest'). by rewrite advance_app.
  - intros b r r' Hr Hp. unfold mbind, reader_bind in Hp.
    destruct (p r) as [[a r1]|] eqn:Hpr; [|done].
    destruct (Hs _ _ _ Hr Hpr) as (Ha & -> & Hr1).
    destruct (parses_sound _ _ _ (Hk _ Ha) _ _ _ Hr1 Hp) as (Hb & -> & Hr').
    rewrite (Hπ _ _ Ha Hb) in *. rewrite advance_app in *. done.
Qed.

(** [if c { return Err(e) }] in the middle of a read. *)
Lemma parses_unless {A} (c : bool) (e : StoreDataError) (p : reader A) wf enc :
  parses p wf enc → parses (if c then fail e else p) (λ a, c = false ∧ wf a) enc.
Proof.
  intros [Hc Hs]. destruct c; split.
  - by intros a r tl [? _].
  - by intros a r r' _.
  - intros a r tl [_ Ha]. by apply Hc.
  - intros a r r' Hr Hp. destruct (Hs a r r' Hr Hp) as (? & ? & ?). done.
Qed.

(** A conversion of what was read that forgets something. *)
Lemma parses_image {A B} (f : A → B) (p : reader A) wf enc (wf' : B → Prop) (enc' : B → bytes) :
  parses p wf enc → (∀ a, wf a → wf' (f a) ∧ len (enc' (f a)) = len (enc a)) →
  (∀ b, wf' b → ∃ a, wf a ∧ f a = b ∧ enc a = enc' b) →
  parses (a ← p; mret (f a)) wf' enc'.
Proof.
  intros [Hc Hs] Hf Hg. split.
  - intros b r tl Hb Hr Hrest. destruct (Hg b Hb) as (a & Ha & <- & He). rewrite <- He in *.
    unfold mbind, reader_bind. by rewrite (Hc _ _ _ Ha Hr Hrest).
  - intros b r r' Hr Hp. unfold mbind, reader_bind in Hp. destruct (p r) as [[a r1]|] eqn:Hpr; [|done].
    injection Hp as <- <-. destruct (Hs _ _ _ Hr Hpr) as (Ha & -> & Hr'). destruct (Hf a Ha) as [Hb He].
    unfold advance in *. rewrite He. done.
Qed.

(** ** Maps and sets *)

Section entries.
Context {K V : Type} `{Countable K} `{!KeyOrder K}.
Context (entry : reader (K * V)) (duplicate : string) (wf : K * V → Prop) (enc : K * V → bytes).
Hypothesis Hentry : parses entry wf enc.
Implicit Types m : gmap K V.

Definition entries_layout (es : list (K * V)) : bytes := es ≫= enc.

Lemma insert_entries_complete es m r tl :
  Forall wf es → NoDup es.*1 → (∀ k, k ∈ es.*1 → m !! k = None) → reader_ok r →
  rest r = entries_layout es ++ tl →
  insert_entries entry duplicate (length es) m r = Ok (list_to_map es ∪ m, advance r (entries_layout es)).
Proof.
  revert m r. induction es as [|e es IH]; intros m r Hw Hn Hm Hr Hrest; cbn [insert_entries length].
  - unfold entries_layout. cbn. by rewrite advance_nil, (left_id_L ∅ (∪)).
  - apply Forall_cons in Hw as [He Hw]. cbn in Hn. apply NoDup_cons in Hn as [Hk Hn].
    unfold entries_layout in Hrest. cbn in Hrest. rewrite <- app_assoc in Hrest.
    unfold mbind, reader_bind. rewrite (parses_complete _ _ _ Hentry _ _ _ He Hr Hrest).
    rewrite bool_decide_false by (rewrite Hm by left; by intros []).
    destruct (advance_ok _ _ _ Hr Hrest) as [Hr' Hrest']. rewrite (IH _ _ Hw Hn); [|..|done|done].
    + unfold entries_layout at 2. cbn. rewrite advance_app. do 2 f_equal. destruct e as [k v]. cbn.
      rewrite <- insert_union_r by (by apply not_elem_of_list_to_map_1). by rewrite insert_union_l.
    + intros k' Hk'. destruct (decide (k' = e.1)) as [->|Hne]; [done|]. rewrite lookup_insert_ne by done.
      apply Hm. by right.
Qed.

Lemma insert_entries_sound n m m' r r' :
  insert_entries entry duplicate n m r = Ok (m', r') → reader_ok r →
  ∃ es, length es = n ∧ Forall wf es ∧ NoDup es.*1 ∧ (∀ k, k ∈ es.*1 → m !! k = None) ∧ m' = list_to_map es ∪ m
    ∧ r' = advance r (entries_layout es) ∧ reader_ok r'.
Proof.
  revert m r. induction n as [|n IH]; intros m r Hi Hr; cbn [insert_entries] in Hi.
  - injection Hi as <- <-. exists []. unfold entries_layout. cbn. rewrite advance_nil, (left_id_L ∅ (∪)).
    split_and!; try done; [constructor|set_solver].
  - unfold mbind, reader_bind in Hi. destruct (entry r) as [[e r1]|] eqn:He; [|done].
    destruct (parses_sound _ _ _ Hentry _ _ _ Hr He) as (Hw & -> & Hr1). case_bool_decide as Hm; [done|].
    assert (m !! e.1 = None) as Hm0 by (destruct (m !! e.1); naive_solver).
    destruct (IH _ _ Hi Hr1) as (es & Hl & Hws & Hn & Hms & -> & -> & Hr').
    assert (e.1 ∉ es.*1) as Hk by (intros Hin; specialize (Hms _ Hin); by rewrite lookup_insert_eq in Hms).
    exists (e :: es). unfold entries_layout in *. cbn. rewrite advance_app in *.
    split_and!; try done; [by rewrite Hl|by constructor|by constructor| |].
    + intros k [->|Hin]%elem_of_cons; [done|]. specialize (Hms _ Hin).
      rewrite lookup_insert_ne in Hms; [done|]. by intros <-.
    + destruct e as [k v]. cbn in *. rewrite <- insert_union_r by (by apply not_elem_of_list_to_map_1).
      by rewrite insert_union_l.
Qed.

Lemma entries_layout_perm es es' : es ≡ₚ es' → len (entries_layout es) = len (entries_layout es').
Proof.
  intros Hp. unfold len, entries_layout. f_equal. induction Hp; cbn; rewrite ?length_app; lia.
Qed.

(** A counted map: at most [MAX_OWNER_ENTRIES] entries, in the order of the keys. *)
Definition map_wf m : Prop := Z.of_nat (size m) ≤ MAX_OWNER_ENTRIES ∧ ∀ k v, m !! k = Some v → wf (k, v).
Definition map_layout m : bytes := u32_bytes (Z.of_nat (size m)) ++ entries_layout (btree m).

Lemma btree_wf m : (∀ k v, m !! k = Some v → wf (k, v)) → Forall wf (btree m).
Proof. intros Hm. apply Forall_forall. intros [k v] Hin%elem_of_btree. auto. Qed.

Lemma map_of_entries es m :
  NoDup es.*1 → m = list_to_map es → size m = length es ∧ len (entries_layout (btree m)) = len (entries_layout es).
Proof.
  intros Hn ->. pose proof (map_to_list_to_map es Hn) as Hp.
  split; [by rewrite <- length_map_to_list, Hp|]. apply entries_layout_perm. by rewrite btree_perm.
Qed.

End entries.

Lemma read_count_parses : parses read_count (λ c, 0 ≤ c ≤ MAX_OWNER_ENTRIES) u32_bytes.
Proof.
  eapply parses_ext.
  - eapply (parses_bind (λ c, c)); [apply codec_parses, codec_u32|intros ? ?; cbn beta|shelve].
    apply parses_unless, parses_ret.
  - intros c. cbn. rewrite Z.ltb_ge. unfold MAX_OWNER_ENTRIES. split.
    + intros (Hc & ? & _). ranges. lia.
    + intros Hc. split_and!; [ranges; unfold U32_MAX; lia|lia|done].
  - intros c _. apply app_nil_r.
  Unshelve. intros ? ? _ [_ ->]. done.
Qed.

Section counted.
Context {K V : Type} `{Countable K} `{!KeyOrder K}.
Context (entry : reader (K * V)) (duplicate : string) (wf : K * V → Prop) (enc : K * V → bytes).
Hypothesis Hentry : parses entry wf enc.

Lemma counted_parses :
  parses (count ← read_count; insert_entries entry duplicate (Z.to_nat count) ∅) (map_wf wf) (map_layout enc).
Proof.
  split.
  - intros m r tl [Hs Hm] Hr Hrest. unfold map_layout in Hrest. rewrite <- app_assoc in Hrest.
    unfold mbind, reader_bind.
    rewrite (parses_complete _ _ _ read_count_parses _ _ _ (conj (Nat2Z.is_nonneg _) Hs) Hr Hrest).
    destruct (advance_ok _ _ _ Hr Hrest) as [Hr' Hrest']. rewrite Nat2Z.id, <- length_btree.
    rewrite (insert_entries_complete entry duplicate wf enc Hentry _ ∅ _ tl); [|by apply btree_wf|apply btree_nodup|done..].
    rewrite advance_app, (right_id_L ∅ (∪)), btree_to_map. unfold map_layout. by rewrite length_btree.
  - intros m r r' Hr Hp. unfold mbind, reader_bind in Hp. destruct (read_count r) as [[c r1]|] eqn:Hc; [|done].
    destruct (parses_sound _ _ _ read_count_parses _ _ _ Hr Hc) as (Hc0 & -> & Hr1).
    destruct (insert_entries_sound entry duplicate wf enc Hentry _ _ _ _ _ Hp Hr1)
      as (es & Hl & Hw & Hn & _ & Hm & -> & Hr').
    rewrite (right_id_L ∅ (∪)) in Hm. destruct (map_of_entries enc es m Hn Hm) as [Hsz Hlen].
    split_and!; [split|..|done].
    + lia.
    + intros k v Hkv. subst m. apply elem_of_list_to_map_2 in Hkv. rewrite Forall_forall in Hw. by apply Hw.
    + rewrite advance_app. unfold advance, map_layout. rewrite !len_app, Hlen. by do 3 f_equal.
Qed.
End counted.

(** ** Primitive fields *)

Create HintDb parses.

Lemma u128_codec : codec Reader_u128 (λ z, is_u128 z = true) u128_bytes.
Proof. by apply (codec_unsigned 16); [apply codec_fixed_array| |]. Qed.

Lemma wire_text_codec : codec wire_text (λ bs, len bs ≤ U32_MAX ∧ is_str bs = true) framed.
Proof.
  eapply codec_guard; [apply codec_bytes| |naive_solver]. intros a b Ha. case_match; naive_solver.
Qed.

Lemma wire_kind_codec :
  codec (value ← wire_text; lift (ident (JobKind_try_new value))) (λ bs, is_text MAX_NAME_BYTES bs = true) framed.
Proof.
  eapply codec_guard; [apply wire_text_codec| |].
  - intros a b [_ Ha]. unfold ident, JobKind_try_new. by rewrite map_err_Ok, ValidatedText_try_new_Ok.
  - intros a Ha. split; [apply is_text_len in Ha; unfold MAX_NAME_BYTES, U32_MAX in *; lia|by eapply is_text_is_str].
Qed.

Lemma wire_optional_codec MAX kind :
  MAX ≤ U32_MAX →
  codec (value ← wire_optional_bytes; lift (transpose (λ bs, ident (OpaqueBytes_try_new MAX kind bs)) value))
    (λ o, is_option (is_opaque MAX) o = true) (option_layout framed).
Proof.
  intros HM. eapply codec_transpose; [apply codec_option, codec_bytes| |].
  - intros a b _. unfold ident. by rewrite map_err_Ok, OpaqueBytes_try_new_Ok.
  - intros a Ha%is_opaque_len. cbn. lia.
Qed.

(** A byte that stands for a constructor. *)
Lemma byte_codec {A} (to : A → Z) (from : Z → result StoreDataError A) :
  (∀ a, is_u8 (to a) = true) → (∀ b a, from b = Ok a ↔ b = to a) →
  codec (b ← Reader_u8; lift (from b)) (λ _, True) (λ a, to_be_bytes 1 (to a)).
Proof.
  intros Ht Hf. eapply codec_wf; [eapply (codec_check to _ _ _ _ (λ _, True)); [apply codec_u8|]|].
  - intros a b _. rewrite Hf. naive_solver.
  - naive_solver.
Qed.

(** Decides a cascade of byte tests against the bytes of the constructors. *)
Ltac byte_table :=
  intros b a; split;
  [intros; repeat case_match; simplify_eq; cbn; lia
  |intros ->; repeat first [reflexivity | match goal with x : _ |- _ => destruct x end]].

Lemma block_codec : codec read_block (λ _, True) (λ b, to_be_bytes 1 (block_byte b)).
Proof.
  apply byte_codec; [by intros [[]|]|]. unfold block_from_byte. byte_table.
Qed.
Lemma volume_mode_codec :
  codec (b ← Reader_u8; lift (volume_mode_from_byte b)) (λ _, True) (λ m, to_be_bytes 1 (volume_mode_byte m)).
Proof. apply byte_codec; [by intros []|]. unfold volume_mode_from_byte. byte_table. Qed.
Lemma wire_priority_codec :
  codec (b ← Reader_u8; lift (wire_priority_from_byte b)) (λ _, True) (λ p, to_be_bytes 1 (wire_priority_byte p)).
Proof. apply byte_codec; [by intros []|]. unfold wire_priority_from_byte. byte_table. Qed.
Lemma candidate_state_codec :
  codec (b ← Reader_u8; lift (candidate_state_from_byte b)) (λ _, True) (λ s, to_be_bytes 1 (candidate_state_byte s)).
Proof. apply byte_codec; [by intros []|]. unfold candidate_state_from_byte. byte_table. Qed.
Lemma batch_result_codec :
  codec (b ← Reader_u8; lift (batch_result_state_from_byte b)) (λ _, True)
    (λ s, to_be_bytes 1 (batch_result_state_byte s)).
Proof. apply byte_codec; [by intros []|]. unfold batch_result_state_from_byte. byte_table. Qed.
Lemma wire_effect_codec :
  codec (b ← Reader_u8; lift (map_err (λ _, SDE_Malformed "fair owner effect mode") (decode_effect_mode b)))
    (λ _, True) (λ m, to_be_bytes 1 (encode_effect_mode m)).
Proof. apply byte_codec; [by intros []|]. intros b a. by rewrite map_err_Ok, effect_mode_codec. Qed.

Lemma usize_codec : codec decode_usize (λ z, is_u64 z = true) u64_bytes.
Proof.
  eapply codec_guard; [apply codec_u64| |done]. intros a b Ha. unfold usize_from.
  rewrite checked_ok by (unfold USIZE_MAX; ranges; lia). naive_solver.
Qed.

Lemma nonzero_usize_codec field :
  codec (value ← Reader_u64; lift (nonzero_usize value field)) (λ z, is_nonzero_u64 z = true) u64_bytes.
Proof.
  eapply codec_guard; [apply codec_u64| |].
  - intros a b Ha. unfold nonzero_usize, usize_from. rewrite checked_ok by (unfold USIZE_MAX; ranges; lia). cbn.
    unfold nonzero. ranges. destruct (Z.eqb_spec a 0) as [->|]; [by split; [|intros [_ ?]]|].
    split; [intros [= <-]; split; [done|ranges; lia]|]. by intros [-> _].
  - intros a Ha. ranges. lia.
Qed.

Lemma job_id_codec : codec read_job_id (λ bs, is_fixed_id bs = true) (λ bs, bs).
Proof. apply codec_fixed_id. Qed.

(** A flag: any byte is accepted, zero or one is written. *)
Lemma flag_parses : parses read_flag (λ _, True) (λ b, to_be_bytes 1 (bool_byte b)).
Proof.
  apply (parses_image _ _ _ _ _ _ (codec_parses _ _ _ codec_u8)).
  - intros b _. by rewrite !len_to_be_bytes.
  - intros b _. exists (bool_byte b). by destruct b.
Qed.

#[export] Hint Resolve codec_parses flag_parses : parses.
#[export] Hint Resolve u128_codec block_codec volume_mode_codec wire_priority_codec candidate_state_codec
  batch_result_codec wire_effect_codec usize_codec nonzero_usize_codec job_id_codec wire_kind_codec : codecs.
#[export] Hint Extern 1 (codec (_ ← wire_optional_bytes; _) _ _) => apply wire_optional_codec; done : codecs.

(** ** Composite fields *)

Definition scope_layout (s : FairScope) : bytes :=
  match s with
  | LowVolume => to_be_bytes 1 0
  | Scoped primary secondary => to_be_bytes 1 1 ++ framed primary ++ option_layout framed secondary
  end.

Lemma scope_codec : codec read_scope (λ s, is_fair_scope s = true) scope_layout.
Proof.
  eapply (codec_ext _ (λ s, is_fair_scope s = true)); [|done|].
  - apply (codec_tagged (λ s, match s with LowVolume => 0 | Scoped _ _ => 1 end) _ _
      (λ s, match s with Scoped p c => framed p ++ option_layout framed c | LowVolume => [] end)); [|by intros []].
    intros tag. cbn beta. tag_cases; [tag_unit| |tag_unknown].
    eapply codec_ext.
    + field (λ s, match s with Scoped p _ => p | LowVolume => [] end).
      field (λ s, match s with Scoped _ c => c | LowVolume => None end). apply codec_ret.
    + intros [p c|]; cbn; rewrite ?andb_true_iff; naive_solver.
    + intros [p c|] (_ & _ & He); [|done]. by rewrite app_nil_r.
  - by intros [].
  Unshelve. all: field_kept.
Qed.

Definition service_layout (s : ServiceAccounting) : bytes :=
  u64_bytes (sa_cost s) ++ u128_bytes (sa_origin s) ++ u64_bytes (sa_base_cost s).

Lemma service_codec : codec read_service_accounting (λ s, is_service s = true) service_layout.
Proof.
  eapply codec_ext.
  - unfold read_service_accounting. field sa_cost. field sa_origin. field sa_base_cost.
    apply codec_unless, codec_ret.
  - intros [c o b]. cbn. rewrite is_service_spec, Z.ltb_ge. unfold is_u128. cbn. rewrite in_range_spec. split.
    + intros (Hc & Ho & Hb & ? & _). ranges. lia.
    + intros. split_and!; ranges; done || lia.
  - fields_layout.
  Unshelve. all: field_kept.
Qed.
#[export] Hint Resolve scope_codec service_codec : codecs.

Definition scope_state_layout (st : ScopeState) : bytes :=
  to_be_bytes 1 (volume_mode_byte (ss_mode st)) ++ u64_bytes (ss_head st) ++ u64_bytes (ss_order st)
  ++ u16_bytes (ss_cost st) ++ to_be_bytes 1 (block_byte (ss_block st)) ++ u16_bytes (ss_weight st)
  ++ u64_bytes (ss_served st) ++ service_layout (ss_service st) ++ service_layout (ss_own_service st)
  ++ u128_bytes (ss_child_service_clock st) ++ u32_bytes (ss_in_flight st) ++ u32_bytes (ss_permits st)
  ++ u32_bytes (ss_rate st) ++ u32_bytes (ss_quiet_dwell st) ++ u128_bytes (ss_errors st)
  ++ u64_bytes (ss_acquisitions st) ++ u64_bytes (ss_releases st).

(** A decoded scope has no ready candidates yet. *)
Definition scope_state_wf (st : ScopeState) : Prop := is_scope_state st = true ∧ ss_ready_count st = 0.

Lemma scope_state_codec : codec decode_scope_state scope_state_wf scope_state_layout.
Proof.
  eapply codec_ext.
  - unfold decode_scope_state. field ss_mode. field ss_head. field ss_order. field ss_cost. field ss_block.
    field ss_weight. field ss_served. field ss_service. field ss_own_service. field ss_child_service_clock.
    field ss_in_flight. field ss_permits. field ss_rate. field ss_quiet_dwell. field ss_errors.
    field ss_acquisitions. field ss_releases. apply codec_ret.
  - unfold scope_state_wf, is_scope_state, is_nonzero_u16. intros []. cbn. rewrite !andb_true_iff. split.
    + intros. destruct_and!. match goal with H : mkScopeState _ _ _ _ _ _ _ _ _ _ _ _ _ _ _ _ _ _ = _ |- _ => injection H as -> end. by split_and!.
    + intros. destruct_and!. subst. by split_and!.
  - fields_layout.
  Unshelve. all: field_kept.
Qed.

Definition entry_scope_layout (e : FairScope * ScopeState) : bytes := scope_layout e.1 ++ scope_state_layout e.2.
Definition entry_scope_wf (e : FairScope * ScopeState) : Prop := is_fair_scope e.1 = true ∧ scope_state_wf e.2.

#[export] Hint Resolve scope_state_codec : codecs.

Lemma scope_entry_codec : codec decode_scope entry_scope_wf entry_scope_layout.
Proof.
  eapply codec_ext.
  - unfold decode_scope. field (fst : FairScope * ScopeState → FairScope).
    field (snd : FairScope * ScopeState → ScopeState). apply codec_ret.
  - unfold entry_scope_wf. intros []. cbn. naive_solver.
  - fields_layout.
  Unshelve. all: field_kept.
Qed.

(** The reads of a record whose fields are not all written canonically. *)
Ltac pfield π :=
  eapply (parses_bind π); [solve [eauto with parses codecs]|intros ? ?; cbn beta|shelve].

Definition order_layout (o : OrderRecord) : bytes :=
  u64_bytes (ord_head o) ++ ord_owner o ++ to_be_bytes 1 (bool_byte (ord_in_flight o)) ++ u64_bytes (ord_acquisitions o)
  ++ u64_bytes (ord_releases o).

Lemma order_parses : parses decode_order (λ o, is_order o = true) order_layout.
Proof.
  eapply parses_ext.
  - unfold decode_order. pfield ord_head. pfield ord_owner. pfield ord_in_flight. pfield ord_acquisitions. pfield ord_releases. apply parses_ret.
  - unfold is_order. intros []. cbn. rewrite !andb_true_iff. naive_solver.
  - fields_layout.
  Unshelve. all: field_kept.
Qed.
#[export] Hint Resolve order_parses : parses.

Definition entry_order_layout (e : OrderingKey * OrderRecord) : bytes := framed e.1 ++ order_layout e.2.
Definition entry_order_wf (e : OrderingKey * OrderRecord) : Prop :=
  is_opaque MAX_ORDERING_KEY_BYTES e.1 = true ∧ is_order e.2 = true.

Lemma order_entry_parses : parses decode_order_entry entry_order_wf entry_order_layout.
Proof.
  eapply parses_ext.
  - unfold decode_order_entry. pfield (fst : OrderingKey * OrderRecord → OrderingKey).
    pfield (snd : OrderingKey * OrderRecord → OrderRecord). apply parses_ret.
  - unfold entry_order_wf. intros []. cbn. naive_solver.
  - fields_layout.
  Unshelve. all: field_kept.
Qed.

Definition entry_candidate_layout (e : JobId * CandidateRecord) : bytes :=
  let c := cr_candidate e.2 in
  e.1 ++ scope_layout (fc_scope c) ++ to_be_bytes 1 (wire_priority_byte (fc_priority c)) ++ u16_bytes (fc_cost_units c)
  ++ i64_bytes (fc_scheduled_at c) ++ u64_bytes (fc_payload_bytes c) ++ option_layout framed (fc_ordering_key c)
  ++ u64_bytes (fc_ordering_position c) ++ to_be_bytes 1 (block_byte (fc_block c))
  ++ to_be_bytes 1 (candidate_state_byte (cr_state e.2)) ++ u64_bytes (cr_service_transitions e.2)
  ++ u64_bytes (default 0 (cr_acquisition_generation e.2)).

(** The scopes of a candidate are among the decoded ones. *)
Definition entry_candidate_wf (scopes : gmap FairScope ScopeState) (e : JobId * CandidateRecord) : Prop :=
  is_candidate_record e.2 = true ∧ fc_job_id (cr_candidate e.2) = e.1
  ∧ is_Some (scopes !! fc_scope (cr_candidate e.2))
  ∧ is_Some (scopes !! FairScope_primary_scope (fc_scope (cr_candidate e.2))).

Lemma generation_wf g :
  is_option is_nonzero_u64 g = true ↔
  is_u64 (default 0 g) = true ∧ g = FairPermitGeneration_from_u64 (default 0 g).
Proof.
  destruct g as [g|]; cbn; [|done]. unfold FairPermitGeneration_from_u64. destruct (Z.eqb_spec g 0) as [->|Hg].
  - split; [intros; ranges; lia|]. by intros [_ ?].
  - split; [intros; split; [ranges; lia|done]|intros [? _]; ranges; lia].
Qed.

Lemma candidate_codec l : codec (decode_candidate l) (entry_candidate_wf (fl_scopes l)) entry_candidate_layout.
Proof.
  eapply codec_ext.
  - unfold decode_candidate. field (fst : JobId * CandidateRecord → JobId).
    field (λ e : JobId * CandidateRecord, fc_scope (cr_candidate e.2)). apply codec_unless.
    field (λ e : JobId * CandidateRecord, fc_priority (cr_candidate e.2)).
    field (λ e : JobId * CandidateRecord, fc_cost_units (cr_candidate e.2)).
    field (λ e : JobId * CandidateRecord, fc_scheduled_at (cr_candidate e.2)).
    field (λ e : JobId * CandidateRecord, fc_payload_bytes (cr_candidate e.2)).
    field (λ e : JobId * CandidateRecord, fc_ordering_key (cr_candidate e.2)).
    field (λ e : JobId * CandidateRecord, fc_ordering_position (cr_candidate e.2)).
    field (λ e : JobId * CandidateRecord, fc_block (cr_candidate e.2)).
    field (λ e : JobId * CandidateRecord, cr_state e.2).
    field (λ e : JobId * CandidateRecord, cr_service_transitions e.2).
    field (λ e : JobId * CandidateRecord, default 0 (cr_acquisition_generation e.2)). apply codec_ret.
  - intros [j [[] st tr g]]. unfold entry_candidate_wf, is_candidate_record, is_candidate, is_nonzero_u16. cbn.
    rewrite orb_false_iff, !negb_false_iff, !bool_decide_eq_true, !andb_true_iff, generation_wf. split.
    + intros. destruct_and!. match goal with H : (_, _) = _ |- _ => injection H as -> ? end. by split_and!.
    + intros. destruct_and!. subst. split_and!; try done. congruence.
  - fields_layout.
  Unshelve. all: try field_kept. intros g e Hg ->. cbn. unfold FairPermitGeneration_from_u64.
  by destruct (Z.eqb_spec g 0) as [->|].
Qed.

Definition budget_layout (b : FairnessBudget) : bytes :=
  u32_bytes (fb_candidate_window b) ++ u32_bytes (fb_max_concurrency_per_scope b) ++ u32_bytes (fb_max_rate_per_scope b)
  ++ u32_bytes (fb_max_low_volume_service b) ++ u64_bytes (fb_max_payload_bytes b) ++ u16_bytes (fb_max_cost_units b).

Lemma FairnessBudget_try_new_Ok b b' : FairnessBudget_try_new b = Ok b' ↔ b' = b ∧ fb_max_cost_units b ≤ MAX_COST_UNITS.
Proof. unfold FairnessBudget_try_new. destruct (Z.ltb_spec MAX_COST_UNITS (fb_max_cost_units b)); naive_solver lia. Qed.

Lemma budget_codec : codec decode_budget (λ b, is_budget b = true) budget_layout.
Proof.
  eapply codec_ext.
  - unfold decode_budget. field fb_candidate_window. field fb_max_concurrency_per_scope. field fb_max_rate_per_scope.
    field fb_max_low_volume_service.
    eapply (codec_bind fb_max_payload_bytes); [apply nonzero_usize_codec|intros ? ?; cbn beta|shelve].
    field fb_max_cost_units. apply codec_lift.
  - intros []. unfold is_budget. cbn. rewrite map_err_Ok, FairnessBudget_try_new_Ok, !andb_true_iff. cbn.
    unfold is_nonzero_u32. rewrite !in_range_spec. unfold MAX_COST_UNITS, U16_MAX. split.
    + intros. destruct_and!. split_and!; try done; lia.
    + intros. destruct_and!. split_and!; try done; lia.
  - fields_layout.
  Unshelve.
  all: intros ? ? _ Hk; cbn in Hk; destruct_and?.
  all: match goal with H : map_err _ _ = Ok _ |- _ => apply map_err_Ok, FairnessBudget_try_new_Ok in H as [-> _]; reflexivity end.
Qed.

Definition priority_layout (d : PriorityDeficit) : bytes :=
  u64_bytes (pd_critical_served d) ++ u64_bytes (pd_default_served d) ++ u64_bytes (pd_bulk_served d)
  ++ u32_bytes (pd_critical_window d) ++ u32_bytes (pd_default_window d) ++ u32_bytes (pd_bulk_window d)
  ++ u32_bytes (pd_cycle d).

Lemma priority_codec : codec decode_priority (λ d, is_priority_deficit d = true) priority_layout.
Proof.
  eapply codec_ext.
  - unfold decode_priority. field pd_critical_served. field pd_default_served. field pd_bulk_served.
    field pd_critical_window. field pd_default_window. field pd_bulk_window. field pd_cycle. apply codec_ret.
  - intros []. unfold is_priority_deficit. fields_wf.
  - fields_layout.
  Unshelve. all: field_kept.
Qed.

Lemma header_codec : codec read_header (λ _, True) (λ _, ascii "FDS" ++ to_be_bytes 1 FAIR_OWNER_VERSION).
Proof.
  eapply codec_ext.
  - unfold read_header. eapply (codec_bind (λ _, ascii "FDS")); [apply (codec_take 3); lia|intros ? ?; cbn beta|shelve].
    apply codec_unless. eapply (codec_bind (λ _, FAIR_OWNER_VERSION)); [apply codec_u8|intros ? ?; cbn beta|shelve].
    apply codec_unless, codec_ret.
  - intros []. cbn. naive_solver.
  - fields_layout.
  Unshelve.
  all: intros v [] _ [Hv _]; apply negb_false_iff in Hv; symmetry;
    first [by apply Z.eqb_eq | by apply bytes_eqb_spec].
Qed.
#[export] Hint Resolve candidate_codec budget_codec priority_codec header_codec : codecs.

(** ** Metadata, batch and selection *)

Definition wire_retry_layout (p : RetryPolicy) : bytes :=
  u16_bytes (rp_maximum_attempts p) ++ u64_bytes (rp_maximum_age p) ++ u64_bytes (rp_minimum_backoff p)
  ++ u64_bytes (rp_maximum_backoff p) ++ u32_bytes (rp_multiplier p).

Lemma wire_retry_codec : codec wire_read_retry (λ p, is_retry_policy p = true) wire_retry_layout.
Proof.
  eapply codec_ext.
  - unfold wire_read_retry. field rp_maximum_attempts. field rp_maximum_age.
    field rp_minimum_backoff. field rp_maximum_backoff.
    eapply (codec_bind rp_multiplier); [|intros ? ?; cbn beta|shelve].
    { eapply (codec_guard _ _ _ (λ m, is_multiplier m = true)); [apply codec_u32| |].
      - intros m n Hm. by rewrite map_err_Ok, BackoffMultiplier_try_from_Ok.
      - intros m. unfold is_multiplier, BackoffMultiplier_MAX. intros. ranges. lia. }
    apply codec_lift.
  - intros p. cbn. rewrite map_err_Ok. split.
    + intros (Ha & ? & ? & ? & Hm & Hp). ranges.
      apply RetryPolicy_try_from_Ok in Hp as [-> Hp]; cbn; ranges; done || lia.
    + intros Hp. pose proof Hp as Hw. unfold is_retry_policy in Hw. split_andb.
      assert (RetryPolicy_try_from p = Ok p) as Ht.
      { apply RetryPolicy_try_from_Ok; ranges; done || lia. }
      destruct p. cbn in *. split_and!; ranges; done || lia.
  - fields_layout.
  Unshelve.
  all: intros ? ? _ Hk; cbn in Hk; destruct_and?.
  all: match goal with H : map_err _ _ = Ok _ |- _ => apply map_err_Ok, RetryPolicy_try_from_id in H end.
  all: match goal with H : ?b = _ |- _ = _ => rewrite H; reflexivity end.
Qed.
#[export] Hint Resolve wire_retry_codec : codecs.

Definition metadata_layout (m : FairCandidateMetadata) : bytes :=
  framed (md_handler_kind m) ++ u16_bytes (md_schema_version m) ++ u64_bytes (md_batch_key m)
  ++ u64_bytes (md_auth_config m) ++ to_be_bytes 1 (encode_effect_mode (md_effect_mode m))
  ++ wire_retry_layout (md_retry_policy m) ++ u64_bytes (md_timeout m) ++ i64_bytes (md_enqueued_at m)
  ++ i64_bytes (md_batch_deadline m).

Definition is_metadata (m : FairCandidateMetadata) : bool :=
  is_text MAX_NAME_BYTES (md_handler_kind m) && is_nonzero_u16 (md_schema_version m) && is_u64 (md_batch_key m)
  && is_u64 (md_auth_config m) && is_retry_policy (md_retry_policy m) && is_u64 (md_timeout m)
  && is_i64 (md_enqueued_at m) && is_i64 (md_batch_deadline m).

Lemma metadata_codec : codec decode_metadata_fields (λ m, is_metadata m = true) metadata_layout.
Proof.
  eapply codec_ext.
  - unfold decode_metadata_fields. field md_handler_kind. field md_schema_version. field md_batch_key.
    field md_auth_config. field md_effect_mode. field md_retry_policy. field md_timeout. field md_enqueued_at.
    field md_batch_deadline. apply codec_ret.
  - intros []. unfold is_metadata. fields_wf.
  - fields_layout.
  Unshelve. all: field_kept.
Qed.
#[export] Hint Resolve metadata_codec : codecs.

Definition entry_metadata_layout (e : JobId * FairCandidateMetadata) : bytes := e.1 ++ metadata_layout e.2.
Definition entry_metadata_wf (e : JobId * FairCandidateMetadata) : Prop :=
  is_fixed_id e.1 = true ∧ is_metadata e.2 = true.

Lemma metadata_entry_codec : codec decode_metadata_entry entry_metadata_wf entry_metadata_layout.
Proof.
  eapply codec_ext.
  - unfold decode_metadata_entry. field (fst : JobId * FairCandidateMetadata → JobId).
    field (snd : JobId * FairCandidateMetadata → FairCandidateMetadata). apply codec_ret.
  - unfold entry_metadata_wf. intros []. cbn. naive_solver.
  - fields_layout.
  Unshelve. all: field_kept.
Qed.

Definition entry_result_layout (e : JobId * FairBatchItemState) : bytes :=
  e.1 ++ to_be_bytes 1 (batch_result_state_byte e.2).
Definition entry_result_wf (e : JobId * FairBatchItemState) : Prop := is_fixed_id e.1 = true.

Lemma result_entry_codec : codec decode_batch_result entry_result_wf entry_result_layout.
Proof.
  eapply codec_ext.
  - unfold decode_batch_result. field (fst : JobId * FairBatchItemState → JobId).
    field (snd : JobId * FairBatchItemState → FairBatchItemState). apply codec_ret.
  - unfold entry_result_wf. intros []. cbn. naive_solver.
  - fields_layout.
  Unshelve. all: field_kept.
Qed.

Lemma metadata_parses :
  parses decode_metadata (map_wf entry_metadata_wf) (map_layout entry_metadata_layout).
Proof. apply counted_parses, codec_parses, metadata_entry_codec. Qed.
Lemma results_parses : parses decode_batch_results (map_wf entry_result_wf) (map_layout entry_result_layout).
Proof. apply counted_parses, codec_parses, result_entry_codec. Qed.

(** A set is a map to the unit. *)
Definition member_entry : reader (JobId * ()) := job_id ← read_job_id; mret (job_id, tt).

Lemma member_entry_codec : codec member_entry (λ e, is_fixed_id e.1 = true) (λ e, e.1).
Proof.
  eapply codec_ext.
  - unfold member_entry. field (fst : JobId * () → JobId). apply codec_ret.
  - intros [j []]. cbn. naive_solver.
  - fields_layout.
  Unshelve. field_kept.
Qed.

Lemma insert_members_entries (n : nat) (X : gset JobId) (r : Reader) :
  insert_members n X r
  = match insert_entries member_entry "fair owner duplicate batch member" n (gset_to_gmap tt X) r with
    | Ok (m, r') => Ok (dom m, r')
    | Err e => Err e
    end.
Proof.
  revert X r. induction n as [|n IH]; intros X r; cbn [insert_members insert_entries].
  - cbn. by rewrite dom_gset_to_gmap.
  - assert (member_entry r = match read_job_id r with Ok (j, r') => Ok ((j, tt), r') | Err e => Err e end) as He by done.
    unfold mbind, reader_bind. rewrite He. destruct (read_job_id r) as [[j r']|]; [|done]. cbn [fst snd].
    destruct (decide (j ∈ X)) as [Hj|Hj].
    + rewrite !bool_decide_true; [done| |done]. rewrite lookup_gset_to_gmap, option_guard_True by done. by eexists.
    + rewrite !bool_decide_false; [|rewrite lookup_gset_to_gmap, option_guard_False by done; by intros []|done].
      rewrite IH. by rewrite gset_to_gmap_union_singleton.
Qed.

Definition members_wf (X : gset JobId) : Prop :=
  Z.of_nat (size X) ≤ MAX_OWNER_ENTRIES ∧ ∀ j, j ∈ X → is_fixed_id j = true.
Definition members_layout (X : gset JobId) : bytes := u32_bytes (Z.of_nat (size X)) ++ (btree_set X ≫= λ j, j).

Lemma members_layout_map (m : gmap JobId ()) : len (members_layout (dom m)) = len (map_layout (λ e, e.1) m).
Proof.
  unfold members_layout, map_layout. rewrite !len_app, size_dom. f_equal. unfold len. f_equal.
  unfold entries_layout. assert (btree_set (dom m) ≡ₚ (btree m).*1) as Hp.
  { apply NoDup_Permutation; [apply btree_set_nodup|apply btree_nodup|]. intros j.
    rewrite elem_of_btree_set, elem_of_dom, list_elem_of_fmap. split.
    - intros [u Hu]. exists (j, u). split; [done|]. by apply elem_of_btree.
    - intros ([j' u] & -> & Hin). apply elem_of_btree in Hin. by eexists. }
  transitivity (length ((btree m).*1 ≫= λ j, j)).
  - clear -Hp. induction Hp; cbn; rewrite ?length_app; lia.
  - clear. induction (btree m) as [|e l IH]; cbn; [done|]. by rewrite !length_app, IH.
Qed.

Lemma members_parses : parses decode_batch_members members_wf members_layout.
Proof.
  assert (∀ r, decode_batch_members r = (m ← (count ← read_count;
    insert_entries member_entry "fair owner duplicate batch member" (Z.to_nat count) ∅); mret (dom m)) r) as He.
  { intros r. unfold decode_batch_members, mbind, reader_bind. destruct (read_count r) as [[c r']|]; [|done].
    rewrite insert_members_entries, gset_to_gmap_empty. by destruct (insert_entries _ _ _ _ _) as [[]|]. }
  apply (parses_eq _ _ _ _ He).
  eapply parses_image; [apply counted_parses, codec_parses, member_entry_codec| |].
  - intros m [Hs Hm]. split; [|apply members_layout_map]. split; [by rewrite size_dom|].
    intros j [u Hu]%elem_of_dom. by apply (Hm j u).
  - intros X [Hs Hm]. exists (gset_to_gmap tt X). split_and!.
    + split; [by rewrite <- size_dom, dom_gset_to_gmap|]. intros j u [Hj _]%lookup_gset_to_gmap_Some. by apply Hm.
    + apply dom_gset_to_gmap.
    + unfold map_layout, members_layout. rewrite <- size_dom, dom_gset_to_gmap. f_equal. unfold btree_set, entries_layout.
      clear. induction (btree (gset_to_gmap tt X)) as [|e l IH]; cbn; [done|]. by rewrite IH.
Qed.
#[export] Hint Resolve metadata_parses results_parses members_parses : parses.

Definition batch_layout (b : FairBatchState) : bytes :=
  to_be_bytes 1 (bool_byte (fs_active b)) ++ scope_layout (fs_scope b) ++ u64_bytes (fs_auth_config b)
  ++ members_layout (fs_members b) ++ map_layout entry_result_layout (fs_results b) ++ u64_bytes (fs_scratch_size b)
  ++ u64_bytes (fs_scratch_capacity b) ++ u64_bytes (fs_payload_bytes b) ++ i64_bytes (fs_formed_at b)
  ++ i64_bytes (fs_deadline b).

Record batch_wf (b : FairBatchState) : Prop := {
  bw_scope : is_fair_scope (fs_scope b) = true;
  bw_auth_config : is_u64 (fs_auth_config b) = true;
  bw_members : members_wf (fs_members b);
  bw_results : map_wf entry_result_wf (fs_results b);
  bw_scratch_size : is_u64 (fs_scratch_size b) = true;
  bw_scratch_capacity : is_u64 (fs_scratch_capacity b) = true;
  bw_payload_bytes : is_u64 (fs_payload_bytes b) = true;
  bw_formed_at : is_i64 (fs_formed_at b) = true;
  bw_deadline : is_i64 (fs_deadline b) = true;
}.

Lemma batch_parses : parses decode_batch batch_wf batch_layout.
Proof.
  eapply parses_ext.
  - unfold decode_batch. pfield fs_active. pfield fs_scope. pfield fs_auth_config. pfield fs_members. pfield fs_results.
    pfield fs_scratch_size. pfield fs_scratch_capacity. pfield fs_payload_bytes. pfield fs_formed_at. pfield fs_deadline.
    apply parses_ret.
  - intros []. cbn. split; [intros; destruct_and!; by split|]. intros []. by split_and!.
  - fields_layout.
  Unshelve. all: field_kept.
Qed.

Definition selection_layout (s : FairSelectionSnapshot) : bytes :=
  sn_job_id s ++ scope_layout (sn_scope s) ++ u16_bytes (sn_cost_units s).
Definition is_selection (s : FairSelectionSnapshot) : bool :=
  is_fixed_id (sn_job_id s) && is_fair_scope (sn_scope s) && in_range 0 MAX_COST_UNITS (sn_cost_units s).

Lemma selection_codec : codec decode_selection (λ s, is_selection s = true) selection_layout.
Proof.
  eapply codec_ext.
  - unfold decode_selection. field sn_job_id. field sn_scope. field sn_cost_units. apply codec_unless, codec_ret.
  - intros []. unfold is_selection. cbn. rewrite !andb_true_iff, Z.ltb_ge, in_range_spec. unfold MAX_COST_UNITS. split.
    + intros (? & ? & ? & ? & _). split_and!; [done..| |done]. ranges. lia.
    + intros ((? & ?) & ? & ?). split_and!; try done. ranges. unfold U16_MAX. lia.
  - fields_layout.
  Unshelve. all: field_kept.
Qed.
#[export] Hint Resolve batch_parses : parses.
#[export] Hint Resolve selection_codec : codecs.

(** ** The ledger *)

(** A read wrapped by a constructor. *)
Lemma parses_inj {A B} (f : A → B) (p : reader A) wf enc (wf' : B → Prop) (enc' : B → bytes) :
  parses p wf enc → (∀ a, enc' (f a) = enc a) → (∀ b, wf' b ↔ ∃ a, b = f a ∧ wf a) →
  parses (a ← p; mret (f a)) wf' enc'.
Proof.
  intros Hp He Hw. apply (parses_image _ _ _ _ _ _ Hp).
  - intros a Ha. split; [apply Hw; eauto|by rewrite He].
  - intros b (a & -> & Ha)%Hw. eauto.
Qed.

(** The fields of the ledger read one after the other, before the ready counts
    are rebuilt. *)
Definition read_ledger : reader FairnessLedger :=
  _ ← read_header;
  budget ← decode_budget;
  priority ← decode_priority;
  service_clock ← Reader_u128;
  scopes ← (count ← read_count; insert_entries decode_scope "fair owner duplicate scope" (Z.to_nat count) ∅);
  orders ← (count ← read_count; insert_entries decode_order_entry "fair owner duplicate order" (Z.to_nat count) ∅);
  let l := mkFairnessLedger budget scopes ∅ orders priority service_clock in
  candidates ← (count ← read_count;
                insert_entries (decode_candidate l) "fair owner duplicate candidate" (Z.to_nat count) ∅);
  mret (set_fl_candidates candidates l).

Lemma decode_ledger_read r : decode_ledger r = (l ← read_ledger; mret (rebuild_ready_counts l)) r.
Proof.
  unfold decode_ledger, read_ledger, decode_scopes, decode_orders, decode_candidates, mbind, reader_bind.
  destruct (read_header r) as [[[] r1]|]; [|done]. destruct (decode_budget r1) as [[b r2]|]; [|done].
  destruct (decode_priority r2) as [[p r3]|]; [|done]. destruct (Reader_u128 r3) as [[c r4]|]; [|done].
  destruct (read_count r4) as [[c1 r5]|]; [|done]. cbn [FairnessLedger_new set_fl_priority set_fl_service_clock
    fl_scopes fl_orders fl_candidates fl_budget fl_priority fl_service_clock].
  destruct (insert_entries decode_scope _ _ _ r5) as [[ss r6]|]; [|done]. cbn.
  destruct (read_count r6) as [[c2 r7]|]; [|done].
  destruct (insert_entries decode_order_entry _ _ _ r7) as [[os r8]|]; [|done]. cbn.
  destruct (read_count r8) as [[c3 r9]|]; [|done].
  unfold set_fl_scopes, set_fl_orders, set_fl_priority, set_fl_service_clock. cbn.
  by destruct (insert_entries _ _ _ _ r9) as [[cs r10]|].
Qed.

Definition ledger_layout (l : FairnessLedger) : bytes :=
  (ascii "FDS" ++ to_be_bytes 1 FAIR_OWNER_VERSION) ++ budget_layout (fl_budget l) ++ priority_layout (fl_priority l)
  ++ u128_bytes (fl_service_clock l) ++ map_layout entry_scope_layout (fl_scopes l)
  ++ map_layout entry_order_layout (fl_orders l) ++ map_layout entry_candidate_layout (fl_candidates l).

(** A ledger as it is read; [scope_wf] says what is known of its scopes. *)
Record ledger_fields_wf (scope_wf : FairScope * ScopeState → Prop) (l : FairnessLedger) : Prop := {
  lw_budget : is_budget (fl_budget l) = true;
  lw_priority : is_priority_deficit (fl_priority l) = true;
  lw_clock : is_u128 (fl_service_clock l) = true;
  lw_scopes : map_wf scope_wf (fl_scopes l);
  lw_orders : map_wf entry_order_wf (fl_orders l);
  lw_candidates : map_wf (entry_candidate_wf (fl_scopes l)) (fl_candidates l);
}.

Lemma scopes_parses :
  parses (count ← read_count; insert_entries decode_scope "fair owner duplicate scope" (Z.to_nat count) ∅)
    (map_wf entry_scope_wf) (map_layout entry_scope_layout).
Proof. apply counted_parses, codec_parses, scope_entry_codec. Qed.
Lemma orders_parses :
  parses (count ← read_count; insert_entries decode_order_entry "fair owner duplicate order" (Z.to_nat count) ∅)
    (map_wf entry_order_wf) (map_layout entry_order_layout).
Proof. apply counted_parses, order_entry_parses. Qed.
Lemma candidates_parses l :
  parses (count ← read_count; insert_entries (decode_candidate l) "fair owner duplicate candidate" (Z.to_nat count) ∅)
    (map_wf (entry_candidate_wf (fl_scopes l))) (map_layout entry_candidate_layout).
Proof. apply counted_parses, codec_parses, candidate_codec. Qed.
#[export] Hint Resolve scopes_parses orders_parses candidates_parses : parses.

Lemma read_ledger_parses : parses read_ledger (ledger_fields_wf entry_scope_wf) ledger_layout.
Proof.
  eapply parses_ext.
  - unfold read_ledger. pfield (λ _ : FairnessLedger, tt). pfield fl_budget. pfield fl_priority. pfield fl_service_clock.
    pfield fl_scopes. pfield fl_orders. pfield fl_candidates. apply parses_ret.
  - intros []. cbn. split; [intros; destruct_and!; by split|]. intros []. by split_and!.
  - intros l _. cbn. by rewrite app_nil_r.
  Unshelve. all: try field_kept. by intros [].
Qed.

(** ** Ready counts are rebuilt, not stored *)

Definition unready (l : FairnessLedger) : FairnessLedger := set_fl_scopes (set_ss_ready_count 0 <$> fl_scopes l) l.

Lemma unready_twice l : unready (unready l) = unready l.
Proof. unfold unready. destruct l. cbn. unfold set_fl_scopes. cbn. f_equal.
  apply map_eq. intros i. rewrite !lookup_fmap. by destruct (fl_scopes !! i).
Qed.

Lemma unready_adjust s ready add l : unready (adjust_ready_count s ready add l) = unready l.
Proof.
  unfold adjust_ready_count. destruct ready; [|done]. unfold unready, update_scope, set_fl_scopes. destruct l. cbn. f_equal.
  apply map_eq. intros i. rewrite !lookup_fmap. destruct (decide (s = i)) as [<-|Hne].
  - rewrite lookup_alter_eq. by destruct (fl_scopes !! s).
  - by rewrite lookup_alter_ne.
Qed.

Lemma unready_adjusts scopes l : unready (foldl (λ l scope, adjust_ready_count scope true true l) l scopes) = unready l.
Proof. revert l. induction scopes as [|s scopes IH]; intros l; [done|]. cbn [foldl]. rewrite IH. apply unready_adjust. Qed.

Lemma unready_rebuild l : unready (rebuild_ready_counts l) = unready l.
Proof. unfold rebuild_ready_counts. fold (unready l). cbn zeta. rewrite unready_adjusts. apply unready_twice. Qed.

Lemma rebuild_unready l : rebuild_ready_counts (unready l) = rebuild_ready_counts l.
Proof. unfold rebuild_ready_counts. fold (unready (unready l)) (unready l). by rewrite unready_twice. Qed.

Lemma map_layout_fmap {K V} `{Countable K} `{!KeyOrder K} (enc : K * V → bytes) (f : V → V) (m : gmap K V) :
  (∀ k v, enc (k, f v) = enc (k, v)) → map_layout enc (f <$> m) = map_layout enc m.
Proof.
  intros He. unfold map_layout. rewrite map_size_fmap, btree_fmap. f_equal. unfold entries_layout.
  induction (btree m) as [|[k v] l IH]; cbn; [done|]. by rewrite IH, He.
Qed.

Lemma unready_layout l : ledger_layout (unready l) = ledger_layout l.
Proof. unfold ledger_layout, unready. cbn. by rewrite map_layout_fmap. Qed.

(** What is known of a decoded ledger. *)
Definition scope_typed (e : FairScope * ScopeState) : Prop :=
  is_fair_scope e.1 = true ∧ is_scope_state (set_ss_ready_count 0 e.2) = true.
Definition ledger_wf (l : FairnessLedger) : Prop :=
  ledger_fields_wf scope_typed l ∧ rebuild_ready_counts l = l.

Lemma unready_wf l : ledger_fields_wf scope_typed l ↔ ledger_fields_wf entry_scope_wf (unready l).
Proof.
  assert (map_wf scope_typed (fl_scopes l) ↔ map_wf entry_scope_wf (set_ss_ready_count 0 <$> fl_scopes l)) as Hs.
  { unfold map_wf. rewrite map_size_fmap. split; intros [Hn Hm]; split; try done.
    - intros k v. rewrite lookup_fmap_Some. intros (st & <- & Hst). by destruct (Hm k st Hst).
    - intros k st Hst. destruct (Hm k (set_ss_ready_count 0 st)) as (? & ? & _); [by rewrite lookup_fmap, Hst|done]. }
  assert (map_wf (entry_candidate_wf (fl_scopes l)) (fl_candidates l)
    ↔ map_wf (entry_candidate_wf (set_ss_ready_count 0 <$> fl_scopes l)) (fl_candidates l)) as Hc.
  { unfold map_wf, entry_candidate_wf. setoid_rewrite lookup_fmap. by setoid_rewrite fmap_is_Some. }
  split; intros [Hb Hp Hk Hss Ho Hcs]; split; try done; (by apply Hs) || by apply Hc.
Qed.

Lemma unready_fields l l' : unready l = unready l' → ledger_fields_wf scope_typed l → ledger_fields_wf scope_typed l'.
Proof. rewrite !unready_wf. by intros ->. Qed.

Lemma ledger_parses : parses decode_ledger ledger_wf ledger_layout.
Proof.
  apply (parses_eq _ _ _ _ decode_ledger_read). apply (parses_image _ _ _ _ _ _ read_ledger_parses).
  - intros l Hl. assert (unready l = l) as Hu.
    { unfold unready, set_fl_scopes. destruct l as [b ss cs os p c]. cbn. f_equal. apply map_eq. intros i. rewrite lookup_fmap.
      destruct (ss !! i) as [st|] eqn:Hst; [|done]. destruct (proj2 (lw_scopes _ _ Hl) i st Hst) as (_ & _ & Hz). cbn in *. f_equal.
      destruct st. cbn in *. by subst. }
    split; [split|].
    + apply (unready_fields l); [by rewrite unready_rebuild|]. apply unready_wf. by rewrite Hu.
    + rewrite <- (rebuild_unready (rebuild_ready_counts l)), unready_rebuild. by rewrite rebuild_unready.
    + by rewrite <- unready_layout, unready_rebuild, unready_layout.
  - intros l [Hl Hr]. exists (unready l). split_and!; [by apply unready_wf|by rewrite rebuild_unready|apply unready_layout].
Qed.
#[export] Hint Resolve ledger_parses : parses.

(** ** The owner *)

Definition owner_layout (o : FairDispatchOwner) : bytes :=
  ledger_layout (ow_ledger o) ++ map_layout entry_metadata_layout (ow_metadata o) ++ batch_layout (ow_batch o)
  ++ u64_bytes (ow_hol_escapes o) ++ selection_layout (ow_selected o).

Record owner_wf (o : FairDispatchOwner) : Prop := {
  ow_ledger_wf : ledger_wf (ow_ledger o);
  ow_metadata_wf : map_wf entry_metadata_wf (ow_metadata o);
  ow_batch_wf : batch_wf (ow_batch o);
  ow_escapes_wf : is_u64 (ow_hol_escapes o) = true;
  ow_selected_wf : is_selection (ow_selected o) = true;
}.

Lemma owner_parses : parses read_owner (λ o, owner_wf o ∧ ow_loaded_value o = None) owner_layout.
Proof.
  eapply parses_ext.
  - unfold read_owner. pfield ow_ledger. pfield ow_metadata. pfield ow_batch. pfield ow_hol_escapes. pfield ow_selected.
    apply parses_ret.
  - intros []. cbn. split.
    + intros. destruct_and!. match goal with H : mkFairDispatchOwner _ _ _ _ _ _ = _ |- _ => injection H as -> end.
      by split.
    + intros [[] He]. cbn in *. subst. by split_and!.
  - intros o _. cbn. by rewrite app_nil_r.
  Unshelve. all: field_kept.
Qed.

(** ** Writers append the layouts *)

Lemma write_count_Ok w c : 0 ≤ c ≤ MAX_OWNER_ENTRIES → write_count w c = Ok (w ++ u32_bytes c).
Proof.
  intros Hc. unfold write_count, MAX_OWNER_ENTRIES in *. rewrite checked_ok by (unfold U32_MAX; lia). cbn.
  by rewrite (proj2 (Z.ltb_ge _ _)) by lia.
Qed.

Lemma write_count_fits w c w' : write_count w c = Ok w' → c ≤ MAX_OWNER_ENTRIES.
Proof.
  unfold write_count. intros Hw. invert_ok. apply checked_Some in Ha as [-> _].
  destruct (Z.ltb_spec MAX_OWNER_ENTRIES c); [done|lia].
Qed.

Lemma write_each_Ok {A} (f : Writer → A → result StoreDataError Writer) (enc : A → bytes) w es :
  Forall (λ a, ∀ w, f w a = Ok (w ++ enc a)) es → write_each f w es = Ok (w ++ (es ≫= enc)).
Proof.
  intros Hf. revert w. induction Hf as [|a es Ha _ IH]; intros w; cbn [write_each]; [by rewrite app_nil_r|].
  rewrite Ha. cbn [mbind result_bind]. rewrite IH. cbn. by rewrite <- app_assoc.
Qed.

Lemma write_map_Ok {K V} `{Countable K} `{!KeyOrder K} (f : Writer → K * V → result StoreDataError Writer) wf enc w
    (m : gmap K V) :
  map_wf wf m → (∀ e w, wf e → f w e = Ok (w ++ enc e)) →
  (w ← write_count w (Z.of_nat (size m)); write_each f w (btree m)) = Ok (w ++ map_layout enc m).
Proof.
  intros [Hs Hm] Hf. rewrite write_count_Ok by lia. cbn [mbind result_bind].
  rewrite (write_each_Ok f enc); [unfold map_layout; by rewrite <- app_assoc|].
  eapply Forall_impl; [by apply btree_wf|]. cbn. auto.
Qed.

Lemma wire_write_optional_Ok w o :
  on_option (λ bs, len bs ≤ U32_MAX) o → wire_write_optional_bytes w o = Ok (w ++ option_layout framed o).
Proof. apply write_optional_bytes_Ok. Qed.

Lemma write_scope_Ok w s : is_fair_scope s = true → write_scope w s = Ok (w ++ scope_layout s).
Proof.
  destruct s as [p c|]; [|done]. cbn. rewrite andb_true_iff. intros [Hp Hc].
  rewrite Writer_bytes_Ok by (by eapply (is_opaque_framed MAX_FAIRNESS_KEY_BYTES)). cbn.
  rewrite wire_write_optional_Ok by (by eapply (is_option_framed MAX_FAIRNESS_KEY_BYTES)).
  unfold Writer_u8. by rewrite <- !app_assoc.
Qed.

Lemma write_scope_state_layout w st : write_scope_state w st = w ++ scope_state_layout st.
Proof.
  unfold write_scope_state, write_service_accounting, write_block, scope_state_layout, service_layout, Writer_u8,
    Writer_u16, Writer_u32, Writer_u64, Writer_u128. by rewrite <- !app_assoc.
Qed.

Lemma write_order_Ok w e : entry_order_wf e → write_order w e = Ok (w ++ entry_order_layout e).
Proof.
  destruct e as [k o]. intros [Hk _]. unfold write_order. cbn [fst] in Hk.
  rewrite Writer_bytes_Ok by (by eapply (is_opaque_framed MAX_ORDERING_KEY_BYTES)). cbn [mbind result_bind].
  unfold entry_order_layout, order_layout, Writer_u8, Writer_u64, Writer_fixed. cbn [fst snd]. by rewrite <- !app_assoc.
Qed.

Lemma write_candidate_Ok w e scopes :
  entry_candidate_wf scopes e → write_candidate (Writer_fixed w e.1) e.2 = Ok (w ++ entry_candidate_layout e).
Proof.
  destruct e as [j r]. intros (Hr & _). cbn in Hr. unfold is_candidate_record, is_candidate in Hr. split_andb.
  unfold write_candidate. rewrite write_scope_Ok by done. cbn [mbind result_bind].
  rewrite wire_write_optional_Ok by (by eapply (is_option_framed MAX_ORDERING_KEY_BYTES)). cbn [mbind result_bind].
  unfold entry_candidate_layout, write_block, Writer_u8, Writer_u16, Writer_u64, Writer_i64, Writer_fixed. cbn [fst snd].
  by rewrite <- !app_assoc.
Qed.

Lemma wire_write_retry_Ok w p : is_retry_policy p = true → wire_write_retry w p = Ok (w ++ wire_retry_layout p).
Proof.
  intros Hp. unfold is_retry_policy in Hp. split_andb. unfold wire_write_retry. ranges.
  rewrite checked_ok by lia. cbn [mbind result_bind ok_or]. rewrite checked_ok by lia. cbn [mbind result_bind ok_or].
  rewrite checked_ok by lia. cbn [mbind result_bind ok_or].
  unfold wire_retry_layout, Writer_u16, Writer_u32, Writer_u64. by rewrite <- !app_assoc.
Qed.

Lemma write_metadata_Ok w e :
  entry_metadata_wf e → write_metadata_entry (Writer_fixed w e.1) e.2 = Ok (w ++ entry_metadata_layout e).
Proof.
  destruct e as [j m]. intros [_ Hm]. cbn in Hm. unfold is_metadata in Hm. split_andb.
  unfold write_metadata_entry, Writer_text. cbn [fst snd].
  rewrite Writer_bytes_Ok by (by eapply (is_text_framed MAX_NAME_BYTES)). cbn [mbind result_bind].
  rewrite wire_write_retry_Ok by done. cbn [mbind result_bind].
  unfold entry_metadata_layout, metadata_layout, Writer_u8, Writer_u16, Writer_u64, Writer_i64, Writer_fixed. cbn [fst snd].
  assert (as_u64 (md_timeout m) = md_timeout m) as ->.
  { unfold as_u64. rewrite Z.mod_small; [done|]. ranges. lia. }
  by rewrite <- !app_assoc.
Qed.

Lemma write_header_layout o w :
  write_header w o = w ++ (ascii "FDS" ++ to_be_bytes 1 FAIR_OWNER_VERSION) ++ budget_layout (fl_budget (ow_ledger o))
    ++ priority_layout (fl_priority (ow_ledger o)) ++ u128_bytes (fl_service_clock (ow_ledger o)).
Proof.
  unfold write_header, budget_layout, priority_layout, Writer_fixed, Writer_u8, Writer_u16, Writer_u32, Writer_u64,
    Writer_u128. by rewrite <- !app_assoc.
Qed.

Lemma write_batch_Ok w b : batch_wf b → write_batch w b = Ok (w ++ batch_layout b).
Proof.
  intros [Hs _ [Hm _] Hr _ _ _ _ _]. unfold write_batch, write_batch_members, write_batch_results.
  rewrite write_scope_Ok by done. cbn [mbind result_bind].
  rewrite write_count_Ok by lia. cbn [mbind result_bind].
  rewrite (write_each_Ok _ (λ j, j)) by (apply Forall_forall; done). cbn [mbind result_bind].
  rewrite (write_map_Ok _ entry_result_wf entry_result_layout) by
    (done || (intros [j x] w' _; unfold entry_result_layout, Writer_u8, Writer_fixed; cbn; by rewrite <- app_assoc)).
  cbn [mbind result_bind]. unfold batch_layout, members_layout, Writer_u8, Writer_u64, Writer_i64. by rewrite <- !app_assoc.
Qed.

Lemma encode_layout o : owner_wf o → FairDispatchOwner_encode o = Ok (owner_layout o).
Proof.
  intros [[[_ _ _ Hs Ho Hc] _] Hm Hb _ Hsel]. unfold FairDispatchOwner_encode, write_scopes, write_orders, write_candidates, write_metadata.
  rewrite (write_map_Ok _ scope_typed entry_scope_layout); [|done|].
  2: { intros [s st] w [Hs' _]. cbn in *. rewrite write_scope_Ok by done. cbn. rewrite write_scope_state_layout.
       unfold entry_scope_layout. cbn. by rewrite <- app_assoc. }
  cbn [mbind result_bind]. rewrite (write_map_Ok _ entry_order_wf entry_order_layout); [|done|intros; by apply write_order_Ok].
  cbn [mbind result_bind]. rewrite (write_map_Ok _ (entry_candidate_wf (fl_scopes (ow_ledger o))) entry_candidate_layout);
    [|done|intros; by eapply write_candidate_Ok].
  cbn [mbind result_bind]. rewrite (write_map_Ok _ entry_metadata_wf entry_metadata_layout); [|done|intros; by apply write_metadata_Ok].
  cbn [mbind result_bind]. rewrite write_batch_Ok by done. cbn [mbind result_bind].
  unfold write_selection. unfold is_selection in Hsel. split_andb. rewrite write_scope_Ok by done. cbn [mbind result_bind].
  rewrite write_header_layout. unfold owner_layout, ledger_layout, selection_layout, Writer_u64, Writer_u16, Writer_fixed.
  cbn [app]. by rewrite <- !app_assoc.
Qed.

(** ** Round trips *)

Lemma reader_new_ok bs : len bs ≤ USIZE_MAX → reader_ok (Reader_new bs).
Proof. intros Hl. pose proof (len_nonneg bs). split; cbn; lia. Qed.

Lemma decode_Ok encoded o :
  len encoded ≤ USIZE_MAX → FairDispatchOwner_decode encoded = Ok o →
  owner_wf o ∧ ow_loaded_value o = None ∧ validate_persisted_state o = Ok tt ∧ len encoded = len (owner_layout o).
Proof.
  intros Hl Hd. unfold FairDispatchOwner_decode in Hd. invert_ok. destruct a as [o' rd]. invert_ok. destruct a, a0.
  pose proof (reader_new_ok encoded Hl) as Hr.
  destruct (parses_sound _ _ _ owner_parses _ _ _ Hr Ha) as ([Hw Hn] & -> & _). split_and!; try done.
  unfold Reader_finish, advance, Reader_new in Ha0. cbn [rd_offset rd_bytes] in Ha0.
  destruct (Z.eqb_spec (0 + len (owner_layout o)) (len encoded)); [lia|done].
Qed.

Lemma decode_layout o :
  owner_wf o → ow_loaded_value o = None → validate_persisted_state o = Ok tt → len (owner_layout o) ≤ USIZE_MAX →
  FairDispatchOwner_decode (owner_layout o) = Ok o.
Proof.
  intros Hw Hn Hv Hl. unfold FairDispatchOwner_decode.
  pose proof (reader_new_ok (owner_layout o) Hl) as Hr.
  rewrite (parses_complete _ _ _ owner_parses o _ [] (conj Hw Hn) Hr) by (unfold rest; cbn; by rewrite app_nil_r).
  cbn [mbind result_bind]. unfold Reader_finish, advance, Reader_new. cbn [rd_offset rd_bytes]. rewrite Z.add_0_l, Z.eqb_refl.
  cbn [mbind result_bind]. by rewrite Hv.
Qed.
