(* ===== verification/FairCommands.v ===== *)
(** * The commands of the owner

    [owner_op] has one constructor per command of [owner/commands.rs] and
    [owner/discovery.rs] that the engine is built with (the other commands of
    [FairOwner] are compiled for the tests only).  Each is a sequence of operations of the ledger, and keeps one
    registration per candidate and one position per ordered candidate. *)

From S2P Require Import Prelude Errors Ids Clock Policy JobRecord Wire JobCodec Ordered Fairness FairLedger FairSelect FairExtrema FairInvariant.
From S2P Require Import FairSteps FairAdmission FairPass FairSearch FairBound FairReach FairOwner FairCodec FairRoundtrip.

(** ** Commands *)

Inductive owner_op : Type :=
  | OO_Discover (candidates : list (FairCandidateInput * FairCandidateMetadata))
  | OO_SetWeight (scope : FairScope) (weight : Z)
  | OO_SelectNext (now : Timestamp) (eligible : gset JobId)
  | OO_Release (permit : FairPermit) (outcome : FairRelease)
  | OO_RecordService (job_id : JobId) (units : Z)
  | OO_Defer (job_id : JobId) (scheduled_at : Timestamp)
  | OO_Reconcile (job_id : JobId) (scheduled_at : Timestamp)
  | OO_Remove (job_id : JobId)
  | OO_Compact.

Definition discovered_ok (e : FairCandidateInput * FairCandidateMetadata) : Prop :=
  is_candidate_input e.1 = true ∧ is_metadata e.2 = true.

(** What the types of the arguments and the callers guarantee. *)
Definition owner_op_ok (o : FairDispatchOwner) (op : owner_op) : Prop :=
  match op with
  | OO_Discover candidates =>
      Forall discovered_ok candidates
      ∧ Z.of_nat (size (fl_candidates (ow_ledger o))) + Z.of_nat (length candidates) ≤ U32_MAX
  | OO_SetWeight _ weight => 1 ≤ weight ≤ U16_MAX
  | OO_Release permit _ => current_permit (ow_ledger o) permit
  | OO_RecordService _ units => 0 ≤ units ≤ U64_MAX
  | OO_Defer j t => candidate_state (ow_ledger o) j ≠ Some CS_Leased ∧ is_i64 t = true
  | OO_Reconcile _ t => is_i64 t = true
  | OO_SelectNext _ _ | OO_Remove _ | OO_Compact => True
  end.

(** The owner a command leaves. *)
Definition owner_apply (op : owner_op) (o : FairDispatchOwner) : FairDispatchOwner :=
  match op with
  | OO_Discover candidates => (ensure_discovered_candidates candidates o).2
  | OO_SetWeight scope weight => (owner_set_scope_weight scope weight o).2
  | OO_SelectNext now eligible =>
      match owner_select_next_due_in now eligible o with Some (_, o') => o' | None => o end
  | OO_Release permit outcome => match owner_release permit outcome o with Ok o' => o' | Err _ => o end
  | OO_RecordService j units => (owner_record_service_units j units o).2
  | OO_Defer j t => owner_defer_candidate j t o
  | OO_Reconcile j t => (reconcile_leased_candidate j t o).2
  | OO_Remove j => owner_remove_candidate j o
  | OO_Compact => compact_terminal_candidates o
  end.

(** ** Candidates that stay *)

(** A candidate without its time. *)
Definition place (r : CandidateRecord) : FairCandidate := set_fc_scheduled_at 0 (cr_candidate r).

Definition stays (l l' : FairnessLedger) : Prop :=
  ∀ j, place <$> fl_candidates l' !! j = place <$> fl_candidates l !! j.

#[export] Instance stays_equivalence : Equivalence stays.
Proof. split; [by intros l j|by intros l l' H j|]. intros l1 l2 l3 H1 H2 j. by rewrite H2, H1. Qed.

Lemma stays_same l l' : fl_candidates l' = fl_candidates l → stays l l'.
Proof. intros H j. by rewrite H. Qed.

Lemma stays_candidate f j l : (∀ r, place (f r) = place r) → stays l (update_candidate f j l).
Proof.
  intros Hf i. cbn. destruct (decide (j = i)) as [<-|]; [rewrite lookup_alter_eq|by rewrite lookup_alter_ne].
  destruct (fl_candidates l !! j) as [r|]; [|done]. cbn. by rewrite Hf.
Qed.

Lemma stays_route old new refresh l : stays l (replace_candidate_route old new refresh l).
Proof. apply stays_same, replace_route_parts. Qed.

Lemma stays_settlement p s l : stays l (apply_settlement p s l).
Proof.
  unfold apply_settlement. etrans; [|apply stays_route]. etrans; [|apply stays_candidate].
  - destruct (release_capacity_parts p (PermitSettlement_capacity_release s) l) as (? & _).
    destruct (pm_ordering_key p); [destruct (PermitSettlement_advances_order s)|]; by apply stays_same.
  - intros r. by destruct (PermitSettlement_records_service s).
Qed.

Lemma stays_restore p l : stays l (restore_reconciled_low_volume_service p l).
Proof. unfold restore_reconciled_low_volume_service. destruct (is_low_volume _); [by apply stays_same|done]. Qed.

Lemma stays_renewed l L : renewed l L → stays l L.
Proof.
  intros [->| ->]; [done|]. intros j. cbn. rewrite lookup_fmap. by destruct (fl_candidates l !! j).
Qed.

Lemma stays_leases l L permit : leases L l permit → stays L l.
Proof.
  intros (j & r & g & Had & _ & Hc) i. rewrite Hc. destruct (decide (j = i)) as [<-|]; [|by rewrite lookup_insert_ne].
  by rewrite lookup_insert_eq, (ad_record _ _ _ _ Had).
Qed.

Lemma stays_select now eligible l : ledger_ok l → stays l (apply_op (LO_SelectNext now eligible) l).
Proof.
  intros Hok. cbn [apply_op]. destruct (select_next_ok now eligible l Hok) as (res & l' & -> & _ & H).
  destruct res as [[permit|]|]; [|by apply stays_renewed..].
  destruct H as (L & HL & Hl). etrans; [by apply stays_renewed|]. by eapply stays_leases.
Qed.

Lemma stays_settle p s l : stays l (ok_ledger (settle_permit p s l) l).
Proof. unfold settle_permit. destruct (_ !! _); [|done]. destruct (_ && _); [|done]. apply stays_settlement. Qed.

Lemma stays_remove j l : stays l (remove_candidate j l).
Proof.
  unfold remove_candidate. destruct (_ !! _); [|done]. destruct (is_leased _).
  - etrans; [|apply stays_restore]. apply stays_settlement.
  - etrans; [|apply stays_route]. by apply stays_candidate.
Qed.

Lemma stays_defer j t l : stays l (defer_candidate j t l).
Proof. unfold defer_candidate. destruct (_ !! _); [|done]. etrans; [|apply stays_route]. by apply stays_candidate. Qed.

Lemma stays_reconcile j t l : stays l (reconcile_leased j t l).2.
Proof.
  unfold reconcile_leased. destruct (_ !! _) as [r|]; [|done]. destruct (is_leased _); [|done]. cbn [snd].
  etrans; [|apply stays_route]. etrans; [|by apply stays_candidate]. etrans; [|apply stays_restore].
  apply stays_same, release_capacity_parts.
Qed.

(** ** Registrations *)

(** The ordered candidates of a key have a position each. *)
Definition positions_distinct (l : FairnessLedger) : Prop :=
  ∀ j1 r1 j2 r2 key,
    fl_candidates l !! j1 = Some r1 → fl_candidates l !! j2 = Some r2 →
    fc_ordering_key (cr_candidate r1) = Some key → fc_ordering_key (cr_candidate r2) = Some key →
    fc_ordering_position (cr_candidate r1) = fc_ordering_position (cr_candidate r2) → j1 = j2.

Record owner_ok (o : FairDispatchOwner) : Prop := {
  ok_ledger_ok : ledger_ok (ow_ledger o);
  ok_registered : dom (ow_metadata o) = dom (fl_candidates (ow_ledger o));
  ok_metadata j m : ow_metadata o !! j = Some m → is_metadata m = true;
  ok_positions : positions_distinct (ow_ledger o);
  ok_batch : FairBatchState_try_default = Ok (ow_batch o);
  ok_escapes : ow_hol_escapes o = 0;
  ok_selected : ow_selected o = mkFairSelectionSnapshot (replicate 16 Byte.x01) (fs_scope (ow_batch o)) 0;
}.

Lemma stays_lookup l l' j r' :
  stays l l' → fl_candidates l' !! j = Some r' →
  ∃ r, fl_candidates l !! j = Some r ∧ fc_ordering_key (cr_candidate r') = fc_ordering_key (cr_candidate r)
    ∧ fc_ordering_position (cr_candidate r') = fc_ordering_position (cr_candidate r).
Proof.
  intros Hs Hr'. specialize (Hs j). rewrite Hr' in Hs. destruct (fl_candidates l !! j) as [r|]; [|done].
  exists r. unfold place, set_fc_scheduled_at in Hs. cbn in Hs. injection Hs. auto.
Qed.

Lemma stays_dom l l' : stays l l' → dom (fl_candidates l') = dom (fl_candidates l).
Proof.
  intros Hs. apply set_eq. intros j. rewrite !elem_of_dom. specialize (Hs j).
  destruct (fl_candidates l' !! j), (fl_candidates l !! j); cbn in Hs; try done; by split; eexists.
Qed.

(** A command that changes the ledger only, and no place in it. *)
Lemma ledger_keeps l' o :
  owner_ok o → ledger_ok l' → stays (ow_ledger o) l' → owner_ok (set_ow_ledger l' o).
Proof.
  intros [_ Hd Hm Hp Hb He Hs] Hok Hst. split; cbn; try done.
  - by rewrite (stays_dom _ _ Hst).
  - intros j1 r1 j2 r2 k H1 H2 K1 K2 E.
    apply (stays_lookup _ _ _ _ Hst) in H1 as (r1' & H1 & E1 & P1). apply (stays_lookup _ _ _ _ Hst) in H2 as (r2' & H2 & E2 & P2).
    apply (Hp j1 r1' j2 r2' k); congruence.
Qed.

(** ** Discovery *)

(** The tail of a key is at least every position taken in it. *)
Definition covers (tails : gmap OrderingKey Z) (l : FairnessLedger) : Prop :=
  (∀ key tail, tails !! key = Some tail → 0 ≤ tail ≤ U64_MAX) ∧
  ∀ j r key, fl_candidates l !! j = Some r → fc_ordering_key (cr_candidate r) = Some key →
    fc_ordering_position (cr_candidate r) ≤ default 0 (tails !! key).

Lemma raise_tail_covers r tails :
  is_candidate (cr_candidate r) = true →
  (∀ key tail, tails !! key = Some tail → 0 ≤ tail ≤ U64_MAX) →
  (∀ key tail, raise_tail r tails !! key = Some tail → 0 ≤ tail ≤ U64_MAX) ∧
  (∀ key, default 0 (tails !! key) ≤ default 0 (raise_tail r tails !! key)) ∧
  (∀ key, fc_ordering_key (cr_candidate r) = Some key →
    fc_ordering_position (cr_candidate r) ≤ default 0 (raise_tail r tails !! key)).
Proof.
  intros Hc Ht. unfold raise_tail. destruct (fc_ordering_key (cr_candidate r)) as [k|] eqn:Hk; [|split_and!; naive_solver].
  assert (0 ≤ fc_ordering_position (cr_candidate r) ≤ U64_MAX) as Hpos.
  { unfold is_candidate in Hc. split_andb. ranges. lia. }
  assert (0 ≤ default 0 (tails !! k) ≤ U64_MAX) as Hd.
  { destruct (tails !! k) eqn:E; cbn; [by eapply Ht|unfold U64_MAX; lia]. }
  split_and!.
  - intros key tail. rewrite lookup_insert_Some. intros [[<- <-]|[_ ?]]; [lia|by eapply Ht].
  - intros key. destruct (decide (k = key)) as [<-|]; [rewrite lookup_insert_eq; cbn; lia|by rewrite lookup_insert_ne].
  - intros key [= <-]. rewrite lookup_insert_eq. cbn. lia.
Qed.

Lemma collect_tails_covers o : ledger_ok (ow_ledger o) → covers (collect_ordering_tails o) (ow_ledger o).
Proof.
  intros Hok. unfold collect_ordering_tails.
  assert (∀ es tails,
    Forall (λ e, is_candidate (cr_candidate e.2) = true) es →
    (∀ key tail, tails !! key = Some tail → 0 ≤ tail ≤ U64_MAX) →
    let tails' := foldl (λ tails (e : JobId * CandidateRecord), raise_tail e.2 tails) tails es in
    (∀ key tail, tails' !! key = Some tail → 0 ≤ tail ≤ U64_MAX) ∧
    (∀ key, default 0 (tails !! key) ≤ default 0 (tails' !! key)) ∧
    ∀ e key, e ∈ es → fc_ordering_key (cr_candidate e.2) = Some key →
      fc_ordering_position (cr_candidate e.2) ≤ default 0 (tails' !! key)) as H.
  { induction es as [|e es IH]; intros tails Hes Ht; [split_and!; [done..|by intros ? ? ?%elem_of_nil]|].
    apply Forall_cons in Hes as [He Hes]. destruct (raise_tail_covers e.2 tails He Ht) as (T1 & T2 & T3).
    destruct (IH (raise_tail e.2 tails) Hes T1) as (U1 & U2 & U3). cbn [foldl]. split_and!; [done| |].
    - intros key. etrans; [apply T2|apply U2].
    - intros e' key [->|Hin]%elem_of_cons Hk; [|by apply U3]. etrans; [by apply T3|apply U2]. }
  destruct (H (btree (fl_candidates (ow_ledger o))) ∅) as (H1 & _ & H3); [|by intros|].
  - apply Forall_forall. intros [j r] Hin%elem_of_btree. destruct (lk_candidates _ Hok j r Hin) as [Ht _ _ _ _].
    unfold is_candidate_record in Ht. by split_andb.
  - split; [exact H1|]. intros j r key Hr Hk. apply (H3 (j, r)); [by apply elem_of_btree|done].
Qed.

Lemma assign_position_spec input tails o input' tails' :
  ledger_ok (ow_ledger o) → is_candidate_input input = true → covers tails (ow_ledger o) →
  assign_position input tails o = Ok (input', tails') →
  input' = set_fi_ordering_position (fi_ordering_position input') input ∧ is_candidate_input input' = true ∧
  covers tails' (ow_ledger o) ∧
  ∀ key, fi_ordering_key input = Some key →
    fi_ordering_position input' ≤ default 0 (tails' !! key) ∧
    ((∃ r, fl_candidates (ow_ledger o) !! fi_job_id input = Some r ∧ fc_ordering_key (cr_candidate r) = Some key
        ∧ fi_ordering_position input' = fc_ordering_position (cr_candidate r))
     ∨ default 0 (tails !! key) < fi_ordering_position input').
Proof.
  intros Hok Hi [Ht Hc] Ha. unfold assign_position in Ha. destruct (fi_ordering_key input) as [k|] eqn:Hk.
  2: { injection Ha as -> ->. split_and!; [by destruct input'|done|done|done]. }
  assert (∀ v, 0 ≤ v ≤ U64_MAX → is_candidate_input (set_fi_ordering_position v input) = true) as Hset.
  { intros v Hv. apply andb_true_iff in Hi as [Hi _]. apply andb_true_iff. split; [exact Hi|]. cbn. ranges. lia. }
  destruct (match fl_candidates _ !! _ with Some _ => _ | None => _ end) as [r|] eqn:Hprev.
  - injection Ha as <- <-. destruct (fl_candidates (ow_ledger o) !! fi_job_id input) as [r'|] eqn:Hr; [|done].
    destruct (bool_decide_reflect (fc_ordering_key (cr_candidate r') = Some k)) as [Hrk|]; [|done]. injection Hprev as ->.
    destruct (lk_candidates _ Hok _ r Hr) as [Hty _ _ _ _]. unfold is_candidate_record, is_candidate in Hty. split_andb.
    split_and!; [done|apply Hset; ranges; lia|done|]. cbn. intros key [= <-]. split; [by eapply Hc|]. left. eauto.
  - clear Hprev. destruct (checked_add_u64 (default 0 (tails !! k)) 1) as [tail|] eqn:Htl; [|done].
    cbn in Ha. injection Ha as <- <-. apply checked_Some in Htl as [-> Hr].
    assert (0 ≤ default 0 (tails !! k)) as H0 by (destruct (tails !! k) eqn:E; cbn; [by eapply Ht|lia]).
    split_and!; [done|by apply Hset| |].
    + split.
      * intros key tail. rewrite lookup_insert_Some. intros [[<- <-]|[_ ?]]; [done|by eapply Ht].
      * intros j r key Hr' Hk'. destruct (decide (k = key)) as [<-|]; [|rewrite lookup_insert_ne by done; by eapply Hc].
        rewrite lookup_insert_eq. cbn. pose proof (Hc j r k Hr' Hk'). lia.
    + cbn. intros key [= <-]. rewrite lookup_insert_eq. cbn. split; [lia|]. right. lia.
Qed.

Lemma try_from_fields i c :
  FairCandidate_try_from i = Ok c →
  fc_job_id c = fi_job_id i ∧ fc_ordering_key c = fi_ordering_key i ∧ fc_ordering_position c = fi_ordering_position i.
Proof. unfold FairCandidate_try_from. destruct (_ <? _); [done|]. by intros [= <-]. Qed.

Lemma register_candidates c l : fl_candidates (register_candidate c l) = fl_candidates l.
Proof. unfold register_candidate, ensure_scope. by repeat (case_match; cbn). Qed.

(** What registering a discovered candidate does: nothing to a leased one,
    otherwise it is recorded as discovered. *)
Lemma ensure_candidate_spec input metadata o o' :
  ensure_candidate input metadata o = Ok o' →
  ∃ l', o' = set_ow_metadata (<[fi_job_id input := metadata]> (ow_metadata o)) (set_ow_ledger l' o) ∧
    ((l' = ow_ledger o ∧ is_Some (fl_candidates l' !! fi_job_id input)) ∨
     ((l' = apply_op (LO_Add input) (ow_ledger o) ∨ l' = apply_op (LO_Upsert input) (ow_ledger o)) ∧
      ∃ c r, FairCandidate_try_from input = Ok c ∧ cr_candidate r = c ∧
        fl_candidates l' = <[fi_job_id input := r]> (fl_candidates (ow_ledger o)))).
Proof.
  intros He. unfold ensure_candidate, candidate_state in He.
  destruct (fl_candidates (ow_ledger o) !! fi_job_id input) as [r0|] eqn:Hr0; cbn in He.
  - destruct (is_leased (cr_state r0)) eqn:Hl.
    { destruct (cr_state r0) eqn:E; try done. cbn in He. injection He as <-. exists (ow_ledger o).
      split; [by destruct o|]. left. eauto. }
    assert (∃ l', upsert_candidate input (ow_ledger o) = Ok l' ∧
      o' = set_ow_metadata (<[fi_job_id input := metadata]> (ow_metadata o)) (set_ow_ledger l' o)) as (l' & Hu & ->).
    { unfold try_ledger in He. destruct (cr_state r0); try done;
        (destruct (upsert_candidate input (ow_ledger o)) as [l'|]; [|done]); cbn in He; injection He as <-; eauto. }
    exists l'. split; [done|]. right. split; [right; cbn; by rewrite Hu|].
    unfold upsert_candidate in Hu. destruct (FairCandidate_try_from input) as [c|] eqn:Hc; [|done]. cbn in Hu.
    destruct (upsert_state _) as [next|]; [|done]. cbn in Hu. injection Hu as <-.
    destruct (try_from_fields _ _ Hc) as (Ej & _). exists c, (set_cr_state next (set_cr_candidate c r0)). split_and!; [done..|].
    rewrite (proj1 (replace_route_parts _ _ _ _)). unfold replace_candidate_record. rewrite register_candidates, Ej, Hr0. done.
  - unfold try_ledger in He. destruct (add_candidate input (ow_ledger o)) as [l'|] eqn:Ha; [|done]. cbn in He. injection He as <-.
    exists l'. split; [done|]. right. split; [left; cbn; by rewrite Ha|].
    unfold add_candidate in Ha. destruct (FairCandidate_try_from input) as [c|] eqn:Hc; [|done]. cbn in Ha.
    destruct (try_from_fields _ _ Hc) as (Ej & _). rewrite Ej, Hr0 in Ha. injection Ha as <-.
    exists c, (CandidateRecord_scheduled c). split_and!; [done..|].
    rewrite (proj1 (replace_route_parts _ _ _ _)). cbn. by rewrite register_candidates.
Qed.

Lemma covers_same l l' tails : fl_candidates l' = fl_candidates l → covers tails l → covers tails l'.
Proof. unfold covers. by intros ->. Qed.

(** A recorded candidate has a position of its own. *)
Lemma insert_positions l l' tails tails' j r :
  fl_candidates l' = <[j := r]> (fl_candidates l) → positions_distinct l → covers tails l → covers tails' l →
  (∀ key, fc_ordering_key (cr_candidate r) = Some key →
    fc_ordering_position (cr_candidate r) ≤ default 0 (tails' !! key) ∧
    ((∃ r0, fl_candidates l !! j = Some r0 ∧ fc_ordering_key (cr_candidate r0) = Some key
        ∧ fc_ordering_position (cr_candidate r) = fc_ordering_position (cr_candidate r0))
     ∨ default 0 (tails !! key) < fc_ordering_position (cr_candidate r))) →
  positions_distinct l' ∧ covers tails' l'.
Proof.
  intros Hc Hp [_ Ht] [Ht1 Ht2] Hr.
  assert (∀ i ri key, i ≠ j → fl_candidates l !! i = Some ri → fc_ordering_key (cr_candidate r) = Some key →
    fc_ordering_key (cr_candidate ri) = Some key →
    fc_ordering_position (cr_candidate r) ≠ fc_ordering_position (cr_candidate ri)) as Hne.
  { intros i ri key Hij Hi Hk Hki E. destruct (Hr key Hk) as [_ [(r0 & Hr0 & K0 & E0)|Hlt]].
    - apply Hij. apply (Hp i ri j r0 key); congruence.
    - pose proof (Ht i ri key Hi Hki). lia. }
  split; [|split; [exact Ht1|]].
  - intros j1 r1 j2 r2 key. rewrite Hc, !lookup_insert_Some. intros [[<- <-]|[N1 H1]] [[<- <-]|[N2 H2]] K1 K2 E.
    + done.
    + by destruct (Hne j2 r2 key).
    + by destruct (Hne j1 r1 key).
    + by eapply Hp.
  - intros i ri key. rewrite Hc, lookup_insert_Some. intros [[<- <-]|[_ Hi]] Hk; [by apply Hr|by eapply Ht2].
Qed.

(** One discovered candidate. *)
Lemma discover_one input metadata tails o input' tails' o' :
  owner_ok o → covers tails (ow_ledger o) → discovered_ok (input, metadata) →
  Z.of_nat (size (fl_candidates (ow_ledger o))) < U32_MAX →
  assign_position input tails o = Ok (input', tails') → ensure_candidate input' metadata o = Ok o' →
  owner_ok o' ∧ covers tails' (ow_ledger o') ∧ rtc ledger_step (ow_ledger o) (ow_ledger o') ∧
  (size (fl_candidates (ow_ledger o')) ≤ S (size (fl_candidates (ow_ledger o))))%nat.
Proof.
  intros [Hok Hd Hm Hp Hb He Hs] Hcov [Hi Hmd] Hsz Ha Hen. cbn in Hi, Hmd.
  destruct (assign_position_spec _ _ _ _ _ Hok Hi Hcov Ha) as (Ei & Hi' & Hcov' & Hpos).
  assert (fi_job_id input' = fi_job_id input ∧ fi_ordering_key input' = fi_ordering_key input) as [Ej Ek] by by rewrite Ei.
  destruct (ensure_candidate_spec _ _ _ _ Hen) as (l' & -> & [[-> Hin]|(Hop & c & r & Hc & Hrc & Hl')]).
  - cbn. split_and!; [split; cbn; try done|done|done|lia].
    + rewrite dom_insert_L, Hd. apply set_eq. intros j. rewrite elem_of_union, elem_of_singleton, !elem_of_dom. naive_solver.
    + intros j m. rewrite lookup_insert_Some. intros [[_ <-]|[_ ?]]; [done|by eapply Hm].
  - assert (∃ op, op_ok (ow_ledger o) op ∧ l' = apply_op op (ow_ledger o)) as (op & Hopk & ->).
    { destruct Hop as [->| ->]; [exists (LO_Add input')|exists (LO_Upsert input')]; done. }
    destruct (try_from_fields _ _ Hc) as (_ & Fk & Fp). destruct (insert_positions (ow_ledger o) (apply_op op (ow_ledger o))
      tails tails' (fi_job_id input') r Hl' Hp Hcov Hcov') as [Hp' Hcv'].
    { intros key Hk. rewrite Hrc, Fk, Ek in Hk. rewrite Hrc, Fp, Ej. by apply Hpos. }
    cbn. split_and!; [split; cbn; try done| |apply rtc_once; by eapply ledger_step_intro|].
    + by apply op_keeps.
    + by rewrite Hl', !dom_insert_L, Hd.
    + intros j m. rewrite lookup_insert_Some. intros [[_ <-]|[_ ?]]; [done|by eapply Hm].
    + done.
    + rewrite Hl', map_size_insert. case_match; unfold id; lia.
Qed.

Lemma discover_keeps candidates tails o :
  owner_ok o → covers tails (ow_ledger o) → Forall discovered_ok candidates →
  Z.of_nat (size (fl_candidates (ow_ledger o))) + Z.of_nat (length candidates) ≤ U32_MAX →
  owner_ok (ensure_discovered candidates tails o).2 ∧
  rtc ledger_step (ow_ledger o) (ow_ledger (ensure_discovered candidates tails o).2).
Proof.
  revert tails o. induction candidates as [|[input metadata] candidates IH]; intros tails o Hok Hcov Hf Hsz; [done|].
  apply Forall_cons in Hf as [Hone Hf]. cbn [ensure_discovered length] in *.
  destruct (assign_position input tails o) as [[input' tails']|] eqn:Ha; [|done].
  destruct (ensure_candidate input' metadata o) as [o'|] eqn:Hen; [|done].
  destruct (discover_one input metadata tails o input' tails' o') as (Hok' & Hcov' & Hst & Hsz'); [done..|lia|done|done|].
  destruct (IH tails' o') as [H1 H2]; [done..|lia|]. split; [done|]. by etrans.
Qed.

(** ** Compaction *)

Definition compact_one (o : FairDispatchOwner) (job_id : JobId) : FairDispatchOwner :=
  let '(compacted, l) := compact_candidate job_id (ow_ledger o) in
  let o := set_ow_ledger l o in
  if compacted then set_ow_metadata (delete job_id (ow_metadata o)) o else o.

Lemma compact_one_spec j o :
  compact_one o j = o ∨
  (fl_candidates (ow_ledger (compact_one o j)) = delete j (fl_candidates (ow_ledger o)) ∧
   ow_ledger (compact_one o j) = apply_op (LO_CompactCandidate j) (ow_ledger o) ∧
   compact_one o j = set_ow_metadata (delete j (ow_metadata o)) (set_ow_ledger (ow_ledger (compact_one o j)) o)).
Proof.
  unfold compact_one. cbn [apply_op]. unfold compact_candidate. destruct (fl_candidates (ow_ledger o) !! j) as [r|]; [|left; by destruct o].
  destruct (is_terminal_or_absent (cr_state r)); [|left; by destruct o]. right. cbn [snd set_ow_metadata set_ow_ledger ow_ledger ow_metadata].
  split_and!; [|done|done].
  set (l1 := replace_candidate_route _ _ _ _). assert (fl_candidates l1 = delete j (fl_candidates (ow_ledger o))) as E.
  { unfold l1. by rewrite (proj1 (replace_route_parts _ _ _ _)). }
  destruct (fc_ordering_key _); [|done]. by destruct (existsb _ _).
Qed.

Lemma compact_one_keeps j o :
  owner_ok o → owner_ok (compact_one o j) ∧ rtc ledger_step (ow_ledger o) (ow_ledger (compact_one o j)).
Proof.
  intros Ho. destruct (compact_one_spec j o) as [->|(Hc & Hl & Heq)]; [done|]. destruct Ho as [Hok Hd Hm Hp Hb He Hs].
  remember (compact_one o j) as o' eqn:E. clear E. split; [|rewrite Hl; apply rtc_once; by apply (ledger_step_intro _ _ (LO_CompactCandidate j))]. rewrite Heq. split; cbn; try done.
  - rewrite Hl. by apply op_keeps.
  - by rewrite Hc, !dom_delete_L, Hd.
  - intros i m [_ ?]%lookup_delete_Some. by eapply Hm.
  - intros j1 r1 j2 r2 key. rewrite Hc. intros [_ H1]%lookup_delete_Some [_ H2]%lookup_delete_Some. by eapply Hp.
Qed.

Lemma compact_all_keeps js o :
  owner_ok o → owner_ok (foldl compact_one o js) ∧ rtc ledger_step (ow_ledger o) (ow_ledger (foldl compact_one o js)).
Proof.
  revert o. induction js as [|j js IH]; intros o Ho; [done|]. cbn [foldl].
  destruct (compact_one_keeps j o Ho) as [H1 H2]. destruct (IH _ H1) as [H3 H4]. split; [done|by etrans].
Qed.

(** ** Every command *)

Lemma step_once l op : op_ok l op → rtc ledger_step l (apply_op op l).
Proof. intros Hop. apply rtc_once. by apply (ledger_step_intro _ _ op). Qed.

Lemma op_command o op :
  owner_ok o → op_ok (ow_ledger o) op → stays (ow_ledger o) (apply_op op (ow_ledger o)) →
  owner_ok (set_ow_ledger (apply_op op (ow_ledger o)) o) ∧
  rtc ledger_step (ow_ledger o) (ow_ledger (set_ow_ledger (apply_op op (ow_ledger o)) o)).
Proof.
  intros Ho Hop Hst. split; [|by apply step_once]. apply ledger_keeps; [done| |done]. apply op_keeps; [apply Ho|done].
Qed.

Lemma compact_keeps o :
  owner_ok o →
  owner_ok (compact_terminal_candidates o) ∧ rtc ledger_step (ow_ledger o) (ow_ledger (compact_terminal_candidates o)).
Proof.
  intros Ho. destruct (compact_all_keeps (terminal_or_absent_candidates (ow_ledger o)) o Ho) as [H1 H2].
  change (compact_terminal_candidates o) with
    (set_ow_ledger (apply_op LO_CompactScopes (ow_ledger (foldl compact_one o (terminal_or_absent_candidates (ow_ledger o)))))
       (foldl compact_one o (terminal_or_absent_candidates (ow_ledger o)))).
  destruct (op_command _ LO_CompactScopes H1) as [H3 H4]; [done|by apply stays_same|]. split; [done|by etrans].
Qed.

Lemma command_keeps o op :
  owner_ok o → owner_op_ok o op →
  owner_ok (owner_apply op o) ∧ rtc ledger_step (ow_ledger o) (ow_ledger (owner_apply op o)).
Proof.
  intros Ho Hop. pose proof (ok_ledger_ok _ Ho) as Hok. destruct op; cbn [owner_apply owner_op_ok] in *.
  - destruct Hop. apply discover_keeps; [done|by apply collect_tails_covers|done|done].
  - unfold owner_set_scope_weight, on_ledger. pose proof (op_command o (LO_SetWeight scope weight) Ho Hop) as H. cbn [apply_op] in H.
    unfold set_scope_weight in *. destruct (fl_scopes _ !! _); apply H; by apply stays_same.
  - unfold owner_select_next_due_in, select_next_due_in. pose proof (op_command o (LO_SelectNext now (Some eligible)) Ho I
      (stays_select _ _ _ Hok)) as H. cbn [apply_op] in H. destruct (select_next_due_in_scope _ _ _) as [[permit l']|]; [done|].
    by destruct o.
  - unfold owner_release, try_ledger. pose proof (op_command o (LO_Release permit outcome) Ho Hop) as H. cbn [apply_op] in H.
    specialize (H (stays_settle _ _ _)). destruct (release _ _ _); [done|]. by destruct o.
  - unfold owner_record_service_units, on_ledger. pose proof (op_command o (LO_RecordService job_id units) Ho Hop) as H.
    cbn [apply_op] in H. unfold record_service_units in *. destruct (fl_candidates _ !! _); apply H; [by apply stays_candidate|done].
  - apply (op_command o (LO_Defer job_id scheduled_at)); [done|done|apply stays_defer].
  - unfold reconcile_leased_candidate, on_ledger. pose proof (op_command o (LO_Reconcile job_id scheduled_at) Ho Hop
      (stays_reconcile _ _ _)) as H. cbn [apply_op] in H. by destruct (reconcile_leased _ _ _).
  - apply (op_command o (LO_Remove job_id)); [done|done|apply stays_remove].
  - by apply compact_keeps.
Qed.
