(* ===== verification/FairDurable.v ===== *)
(** * Durability of the owner

    An owner that commands reached is well formed: it passes the validation of
    persisted state, and is saved if its tables fit.  Loading what was saved
    gives the owner back, with the low-volume allowance renewed. *)

From S2P Require Import Prelude Errors Ids Clock Policy JobRecord Wire ValueCodec JobCodec Ordered Fairness FairLedger FairSelect FairExtrema FairInvariant.
From S2P Require Import FairSteps FairAdmission FairPass FairSearch FairBound FairReach FairOwner FairCodec FairRoundtrip FairCommands.

(** ** Service accounting *)

(** What [validate_service_accounting] retains of an entry for a primary. *)
Definition retained (p s : FairScope) (st : ScopeState) : Z :=
  if is_scoped_primary s then (if bool_decide (s = p) then sa_cost (ss_own_service st) else 0)
  else if FairScope_is_secondary s && bool_decide (FairScope_primary_scope s = p) then sa_cost (ss_service st) else 0.

Definition list_sum (f : FairScope → ScopeState → Z) (es : list (FairScope * ScopeState)) : Z :=
  foldr (λ e acc, f e.1 e.2 + acc) 0 es.

(** An entry the first loop accepts. *)
Definition entry_plain (e : FairScope * ScopeState) : Prop :=
  is_scope_state e.2 = true ∧
  (is_scoped_primary e.1 = false → ss_own_service e.2 = ServiceAccounting_default ∧ ss_child_service_clock e.2 = 0).

Lemma entry_costs e : entry_plain e → 0 ≤ sa_cost (ss_service e.2) ∧ 0 ≤ sa_cost (ss_own_service e.2).
Proof.
  intros [He _]. unfold is_scope_state in He. split_andb.
  repeat match goal with H : is_service _ = true |- _ => apply is_service_spec in H end. lia.
Qed.

Lemma retained_nonneg p e : entry_plain e → 0 ≤ retained p e.1 e.2.
Proof. intros He. pose proof (entry_costs e He). unfold retained. repeat case_match; lia. Qed.

Lemma list_sum_nonneg p es : Forall entry_plain es → 0 ≤ list_sum (retained p) es.
Proof.
  induction 1 as [|e es He _ IH]; cbn; [lia|]. pose proof (retained_nonneg p e He). unfold list_sum in IH. lia.
Qed.

Lemma retain_add costs p x :
  0 ≤ default 0 (costs !! p) + x ≤ U64_MAX →
  (total ← ok_or (SDE_Malformed "fair owner aggregate service") (checked_add_u64 (default 0 (costs !! p)) x);
   Ok (<[p := total]> costs)) = Ok (<[p := default 0 (costs !! p) + x]> costs : gmap FairScope Z).
Proof. intros Hx. unfold checked_add_u64. by rewrite checked_ok. Qed.

(** One entry adds what it retains, and names no primary but its own. *)
Lemma retain_cost_spec costs e :
  entry_plain e → (∀ p, 0 ≤ default 0 (costs !! p)) →
  (∀ p, default 0 (costs !! p) + retained p e.1 e.2 ≤ U64_MAX) →
  ∃ costs', retain_cost costs e = Ok costs' ∧
    (∀ p, default 0 (costs' !! p) = default 0 (costs !! p) + retained p e.1 e.2) ∧
    (∀ p, is_Some (costs' !! p) → is_Some (costs !! p) ∨ (p = FairScope_primary_scope e.1 ∧ is_scoped_primary p = true)).
Proof.
  intros He Hn Hu. pose proof (entry_costs e He) as [Hs0 Ho0]. destruct e as [s st]. destruct He as [_ Hpl]. cbn [fst snd] in *.
  assert (∀ p x, default 0 (<[p := x]> costs !! p) = x) as Hat by (intros; by rewrite lookup_insert_eq).
  unfold retain_cost, retained in *. destruct (is_scoped_primary s) eqn:Hp.
  - pose proof (Hn s) as Hns. specialize (Hu s) as Hus. rewrite bool_decide_true in Hus by done.
    rewrite retain_add by lia. eexists; split_and!; [done| |].
    + intros p. destruct (decide (s = p)) as [<-|Hne]; [by rewrite Hat, bool_decide_true|].
      rewrite lookup_insert_ne, bool_decide_false by done. lia.
    + intros p. rewrite lookup_insert_is_Some. intros [<-|[_ ?]]; [right|by left]. by destruct s as [? []|].
  - destruct (Hpl eq_refl) as [-> ->]. cbn [sa_cost sa_origin sa_base_cost ServiceAccounting_default Z.eqb negb orb].
    destruct (FairScope_is_secondary s) eqn:Hsec; cbn [andb] in *; [|exists costs; split_and!; [done| |by left]; intros; lia].
    specialize (Hu (FairScope_primary_scope s)) as Hus. specialize (Hn (FairScope_primary_scope s)) as Hns.
    rewrite bool_decide_true in Hus by done. rewrite retain_add by lia. eexists; split_and!; [done| |].
    + intros p. destruct (decide (FairScope_primary_scope s = p)) as [<-|Hne]; [by rewrite Hat, bool_decide_true|].
      rewrite lookup_insert_ne, bool_decide_false by done. lia.
    + intros p. rewrite lookup_insert_is_Some. intros [<-|[_ ?]]; [right|by left]. by destruct s.
Qed.

Lemma retain_costs_spec es costs :
  Forall entry_plain es → (∀ p, 0 ≤ default 0 (costs !! p)) →
  (∀ p, default 0 (costs !! p) + list_sum (retained p) es ≤ U64_MAX) →
  ∃ costs', retain_costs costs es = Ok costs' ∧
    (∀ p, default 0 (costs' !! p) = default 0 (costs !! p) + list_sum (retained p) es) ∧
    (∀ p, is_Some (costs' !! p) → is_Some (costs !! p) ∨
      (is_scoped_primary p = true ∧ ∃ e, e ∈ es ∧ p = FairScope_primary_scope e.1)).
Proof.
  intros Hes. revert costs. induction Hes as [|e es He Hes IH]; intros costs Hn Hu; cbn [retain_costs].
  - exists costs. split_and!; [done| |by left]. intros p. cbn. lia.
  - assert (∀ p, default 0 (costs !! p) + retained p e.1 e.2 ≤ U64_MAX) as Hu1.
    { intros p. specialize (Hu p). pose proof (list_sum_nonneg p es Hes). unfold list_sum in *. cbn in Hu. lia. }
    destruct (retain_cost_spec costs e He Hn Hu1) as (costs1 & -> & Hc1 & Hd1). cbn [mbind result_bind].
    destruct (IH costs1) as (costs2 & -> & Hc2 & Hd2).
    + intros p. rewrite Hc1. pose proof (retained_nonneg p e He). specialize (Hn p). lia.
    + intros p. rewrite Hc1. specialize (Hu p). unfold list_sum in *. cbn in Hu. lia.
    + exists costs2. split_and!; [done| |].
      * intros p. rewrite Hc2, Hc1. unfold list_sum. cbn. lia.
      * intros p [[?|[-> ?]]%Hd1|(? & e' & ? & ?)]%Hd2; [by left|right..].
        -- split; [done|]. exists e. split; [by apply list_elem_of_here|done].
        -- split; [done|]. exists e'. split; [by apply list_elem_of_further|done].
Qed.

Lemma check_retained_Ok scopes costs :
  (∀ p x, (p, x) ∈ costs → ∃ st, scopes !! p = Some st ∧ x ≤ sa_cost (ss_service st)) →
  check_retained scopes costs = Ok tt.
Proof.
  induction costs as [|[p x] costs IH]; intros H; [done|]. cbn [check_retained].
  destruct (H p x) as (st & -> & Hx); [by apply list_elem_of_here|]. rewrite (proj2 (Z.ltb_ge _ _)) by lia.
  apply IH. intros q y Hin. apply H. by apply list_elem_of_further.
Qed.

(** A primary was charged what is retained for it. *)
Lemma retained_within l p st :
  ledger_ok l → is_scoped_primary p = true → fl_scopes l !! p = Some st →
  map_sum (retained p) (fl_scopes l) ≤ sa_cost (ss_service st).
Proof.
  intros Hok Hp Hst. pose proof (so_load _ _ (lk_scopes _ Hok) p Hp) as Hl. cbn in Hl.
  rewrite (map_sum_delete _ _ p st Hst) in Hl. rewrite (map_sum_delete _ _ p st Hst).
  rewrite (map_sum_ext (retained p) (load p) (delete p (fl_scopes l))).
  - unfold load at 1 in Hl. unfold retained at 1. rewrite Hp, bool_decide_true by done.
    replace (FairScope_is_secondary p) with false in Hl by (by destruct p as [? []|]). cbn [andb] in Hl.
    rewrite bool_decide_true in Hl by done. lia.
  - intros s st' [Hne _]%lookup_delete_Some. unfold retained, load. rewrite !(bool_decide_false (s = p)) by done.
    destruct s as [q [c|]|]; cbn; [done|done|done].
Qed.

Lemma retained_absent l p :
  ledger_ok l → is_scoped_primary p = true → fl_scopes l !! p = None → map_sum (retained p) (fl_scopes l) = 0.
Proof.
  intros Hok Hp Hn. apply map_sum_zero. intros s st Hst. unfold retained.
  destruct (is_scoped_primary s) eqn:Hs; [rewrite bool_decide_false; [done|congruence]|].
  destruct (FairScope_is_secondary s) eqn:Hsec; [|done]. rewrite bool_decide_false; [done|]. intros <-.
  destruct (so_primary _ _ (lk_scopes _ Hok) s) as [x Hx]; [by eexists|congruence].
Qed.

Lemma accounting_valid o : ledger_ok (ow_ledger o) → validate_service_accounting o = Ok tt.
Proof.
  intros Hok. set (l := ow_ledger o) in *. unfold validate_service_accounting. fold l.
  assert (Forall entry_plain (btree (fl_scopes l))) as Hpl.
  { apply Forall_forall. intros [s st] Hin%elem_of_btree. destruct (so_inv _ _ (lk_scopes _ Hok) s st Hin). by split. }
  assert (∀ p, map_sum (retained p) (fl_scopes l) ≤ U64_MAX) as Hb.
  { intros p. destruct (is_scoped_primary p) eqn:Hp.
    - destruct (fl_scopes l !! p) as [st|] eqn:Hst; [|rewrite retained_absent by done; unfold U64_MAX; lia].
      etrans; [by apply (retained_within l p st)|]. pose proof (si_typed _ _ _ _ (so_inv _ _ (lk_scopes _ Hok) p st Hst)) as Ht.
      unfold is_scope_state in Ht. split_andb. repeat match goal with H : is_service _ = true |- _ => apply is_service_spec in H end. lia.
    - rewrite map_sum_zero; [unfold U64_MAX; lia|]. intros s st _. unfold retained.
      destruct (is_scoped_primary s) eqn:Hs; [rewrite bool_decide_false; [done|congruence]|].
      destruct s as [q [c|]|]; cbn; [|done..]. rewrite bool_decide_false; [done|]. by intros <-. }
  destruct (retain_costs_spec (btree (fl_scopes l)) ∅ Hpl) as (costs & -> & Hc & Hd).
  - intros p. rewrite lookup_empty. cbn. lia.
  - intros p. rewrite lookup_empty. unfold list_sum. rewrite <- map_sum_btree. cbn. apply Hb.
  - cbn [mbind result_bind]. apply check_retained_Ok. intros p x Hin%elem_of_btree.
    destruct (Hd p) as [[? He]|(Hp & e & He & ->)]; [by eexists|by rewrite lookup_empty in He|].
    destruct e as [s st]. apply elem_of_btree in He. destruct (so_primary _ _ (lk_scopes _ Hok) s) as [pst Hpst]; [by eexists|].
    exists pst. cbn in *. split; [done|]. specialize (Hc (FairScope_primary_scope s)). rewrite Hin, lookup_empty in Hc. cbn in Hc.
    rewrite Hc. unfold list_sum. rewrite <- map_sum_btree. by apply retained_within.
Qed.

(** ** Well-formed owners *)

Definition tables_fit (o : FairDispatchOwner) : Prop :=
  Z.of_nat (size (fl_scopes (ow_ledger o))) ≤ MAX_OWNER_ENTRIES ∧
  Z.of_nat (size (fl_orders (ow_ledger o))) ≤ MAX_OWNER_ENTRIES ∧
  Z.of_nat (size (fl_candidates (ow_ledger o))) ≤ MAX_OWNER_ENTRIES.

Lemma default_batch b :
  FairBatchState_try_default = Ok b →
  batch_wf b ∧ fs_active b = false ∧ validate_inactive_batch b = Ok tt.
Proof.
  intros Hb. assert (b = mkFairBatchState false (Scoped [Byte.x61] None) 1 ∅ ∅ 0 3 0 0 0) as ->.
  { vm_compute in Hb. injection Hb as <-. reflexivity. }
  split_and!; [|done|by vm_compute].
  split; cbn; try done; by split.
Qed.

Lemma unready_typed st : is_scope_state st = true → is_scope_state (set_ss_ready_count 0 st) = true.
Proof.
  unfold is_scope_state. destruct st. cbn -[is_u32 is_u64 is_u128 is_nonzero_u16 is_service]. rewrite !andb_true_iff.
  intros. destruct_and!. split_and!; first [assumption|reflexivity].
Qed.

Lemma ledger_typed l :
  ledger_ok l → Z.of_nat (size (fl_scopes l)) ≤ MAX_OWNER_ENTRIES → Z.of_nat (size (fl_orders l)) ≤ MAX_OWNER_ENTRIES →
  Z.of_nat (size (fl_candidates l)) ≤ MAX_OWNER_ENTRIES → ledger_wf l.
Proof.
  intros Hok Hs Ho Hc. split; [|by apply rebuild_ready_same]. split; try apply Hok.
  - unfold is_u128. apply in_range_spec. apply Hok.
  - split; [done|]. intros s st Hst. split; [apply (so_named _ _ (lk_scopes _ Hok)); by eexists|].
    by apply unready_typed, (si_typed _ _ _ _ (so_inv _ _ (lk_scopes _ Hok) s st Hst)).
  - split; [done|]. intros k o Hk. destruct (oo_inv _ _ (lk_orders _ Hok) k o Hk) as (? & ? & _). by split.
  - split; [done|]. intros j r Hr. destruct (lk_candidates _ Hok j r Hr) as [Ht Hj Hsc _ _]. split_and!; [done..|].
    by apply (so_primary _ _ (lk_scopes _ Hok)).
Qed.

Lemma owner_typed o : owner_ok o → tables_fit o → owner_wf o.
Proof.
  intros [Hok Hd Hm _ Hb He Hs] (Fs & Fo & Fc). destruct (default_batch _ Hb) as (Hbw & _ & _). split; try done.
  - by apply ledger_typed.
  - split.
    + by rewrite <- size_dom, Hd, size_dom.
    + intros j m Hj. split; [|by eapply Hm]. cbn. assert (j ∈ dom (ow_metadata o)) as Hin by (apply elem_of_dom; by eexists).
      rewrite Hd in Hin. apply elem_of_dom in Hin as [r Hr]. destruct (lk_candidates _ Hok j r Hr) as [Ht Hj' _ _ _].
      unfold is_candidate_record, is_candidate in Ht. split_andb. by rewrite <- Hj'.
  - by rewrite He.
  - rewrite Hs. unfold is_selection. cbn. by rewrite (bw_scope _ Hbw).
Qed.

Lemma owner_valid o : owner_ok o → validate_persisted_state o = Ok tt.
Proof.
  intros [Hok _ _ _ Hb _ _]. destruct (default_batch _ Hb) as (_ & Ha & Hv).
  unfold validate_persisted_state. rewrite accounting_valid by done. cbn [mbind result_bind]. by rewrite Ha.
Qed.

(** ** What is saved fits *)

Lemma encode_fits o encoded : FairDispatchOwner_encode o = Ok encoded → tables_fit o.
Proof.
  intros He. unfold FairDispatchOwner_encode, write_scopes, write_orders, write_candidates in He.
  invert_ok. repeat match goal with H : write_count _ _ = Ok _ |- _ => apply write_count_fits in H end. by split_and!.
Qed.

Lemma encode_Ok o : owner_ok o → tables_fit o → FairDispatchOwner_encode o = Ok (owner_layout o).
Proof. intros Ho Hf. by apply encode_layout, owner_typed. Qed.

Lemma encode_value_Ok o v :
  owner_ok o →
  encode_value o = Ok v ↔
  tables_fit o ∧ v = value_layout VT_FairReady (FAIR_OWNER_MARKER ++ owner_layout o)
    ∧ len (FAIR_OWNER_MARKER ++ owner_layout o) ≤ MAX_VALUE_BODY_BYTES.
Proof.
  intros Ho. unfold encode_value. split.
  - intros He. invert_ok. pose proof (encode_fits _ _ Ha) as Hf. rewrite encode_Ok in Ha by done. invert_ok.
    by apply ValueCodec_encode_Ok in He.
  - intros (Hf & -> & Hl). rewrite encode_Ok by done. cbn [mbind result_bind]. by apply ValueCodec_encode_Ok.
Qed.

(** ** What is loaded *)

Lemma starts_with_app p bs : starts_with p (p ++ bs) = true.
Proof. induction p as [|x p IH]; cbn; [done|]. by rewrite bool_decide_true. Qed.

Lemma starts_with_spec p bs : starts_with p bs = true ↔ ∃ rest, bs = p ++ rest.
Proof.
  revert bs. induction p as [|x p IH]; intros bs; cbn; [naive_solver|]. destruct bs as [|y bs]; [naive_solver|].
  rewrite andb_true_iff, bool_decide_eq_true, IH. naive_solver.
Qed.

Lemma decode_value_Ok v body :
  decode_value v = Ok body ↔
  v = value_layout VT_FairReady (FAIR_OWNER_MARKER ++ body) ∧ len (FAIR_OWNER_MARKER ++ body) ≤ MAX_VALUE_BODY_BYTES.
Proof.
  rewrite <- ValueCodec_decode_body_Ok. unfold decode_value. destruct (ValueCodec_decode_body v) as [[tag bd]|]; [|naive_solver].
  cbn [mbind result_bind]. destruct (bool_decide_reflect (tag = VT_FairReady)) as [->|]; cbn [negb orb]; [|naive_solver].
  destruct (starts_with FAIR_OWNER_MARKER bd) eqn:Hs; cbn [negb].
  - apply starts_with_spec in Hs as [rest ->]. rewrite drop_app_length. split; [by intros [= ->]|].
    intros H. assert (FAIR_OWNER_MARKER ++ rest = FAIR_OWNER_MARKER ++ body) as E by congruence.
    apply app_inv_head in E. by subst.
  - split; [done|]. intros H. assert (bd = FAIR_OWNER_MARKER ++ body) as -> by congruence. by rewrite starts_with_app in Hs.
Qed.

Lemma owner_layout_loaded v o : owner_layout (set_ow_loaded_value v o) = owner_layout o.
Proof. done. Qed.

Lemma owner_ok_loaded v o : owner_ok o → owner_ok (set_ow_loaded_value v o).
Proof. by intros []. Qed.

Definition restarted (o : FairDispatchOwner) : FairDispatchOwner :=
  set_ow_ledger (restart_low_volume (ow_ledger o)) o.

Lemma restart_keeps o :
  owner_ok o → owner_ok (restarted o) ∧ rtc ledger_step (ow_ledger o) (ow_ledger (restarted o)).
Proof. intros Ho. apply (op_command o LO_Restart); [done|done|by apply stays_same]. Qed.

Lemma saved_loads o v :
  owner_ok o → encode_value o = Ok v → load_encoded v = Ok (set_ow_loaded_value (Some v) (restarted o)).
Proof.
  intros Ho (Hf & Hv & Hl)%encode_value_Ok; [|done]. unfold load_encoded.
  rewrite (proj2 (decode_value_Ok v (owner_layout o))) by done. cbn [mbind result_bind].
  rewrite <- (owner_layout_loaded None o), decode_layout; [done| |done| |].
  - by apply owner_typed; [apply owner_ok_loaded|].
  - by apply owner_valid, owner_ok_loaded.
  - rewrite owner_layout_loaded. rewrite len_app in Hl. pose proof (len_nonneg FAIR_OWNER_MARKER).
    unfold MAX_VALUE_BODY_BYTES, USIZE_MAX, U64_MAX in *. lia.
Qed.

(** ** The life of an owner *)

(** A command, or the load of the saved owner by a later process. *)
Inductive owner_step (o o' : FairDispatchOwner) : Prop :=
  | owner_step_command op (Hop : owner_op_ok o op) (Heq : o' = owner_apply op o)
  | owner_step_reload v (Hsave : encode_value o = Ok v) (Hload : load_encoded v = Ok o').

(** The owners reached from a new one. *)
Definition owner_reached (b : FairnessBudget) (o : FairDispatchOwner) : Prop :=
  ∃ o0, FairDispatchOwner_try_new b = Ok o0 ∧ rtc owner_step o0 o.

Lemma new_owner_ok b o :
  is_budget b = true → FairDispatchOwner_try_new b = Ok o → owner_ok o ∧ ow_ledger o = FairnessLedger_new b.
Proof.
  intros Hb Ho. unfold FairDispatchOwner_try_new in Ho. destruct FairBatchState_try_default as [batch|] eqn:Hd; [|done].
  cbn in Ho. injection Ho as <-. split; [|done]. split; cbn; try done. by apply new_ok.
Qed.

Lemma owner_step_keeps o o' :
  owner_ok o → owner_step o o' → owner_ok o' ∧ rtc ledger_step (ow_ledger o) (ow_ledger o').
Proof.
  intros Ho [op Hop ->|v Hs Hl]; [by apply command_keeps|]. rewrite (saved_loads o v Ho Hs) in Hl. injection Hl as <-.
  destruct (restart_keeps o Ho) as [H1 H2]. split; [by apply owner_ok_loaded|done].
Qed.

Lemma owner_reached_ok b o : is_budget b = true → owner_reached b o → owner_ok o ∧ reached b (ow_ledger o).
Proof.
  intros Hb (o0 & H0 & Hr). destruct (new_owner_ok b o0 Hb H0) as [Hok0 Hl0].
  refine (rtc_ind_r (λ o, owner_ok o ∧ reached b (ow_ledger o)) o0 _ _ o Hr).
  - split; [done|]. unfold reached. by rewrite Hl0.
  - intros o1 o2 _ Hst [IH1 IH2]. destruct (owner_step_keeps o1 o2 IH1 Hst) as [H1 H2]. split; [done|]. unfold reached in *. by etrans.
Qed.
