(* ===== verification/FairOwned.v ===== *)
(** * Guarantees of the owner

    The owner refines the ledger over its whole life, saves and loads
    included; what it saves is what a later process loads; and discovery
    passes keep the positions of ordered work. *)

From S2P Require Import Prelude Errors Ids Clock Policy JobRecord Wire KeyCodec ValueCodec JobCodec Keyspace Ordered Fairness FairLedger FairSelect FairExtrema FairInvariant.
From S2P Require Import FairSteps FairAdmission FairPass FairSearch FairBound FairReach FairProgress FairGuarantees FairOwner FairCodec FairRoundtrip FairCommands FairDurable.

(** ** Discovery joins the tail *)

(** Every discovered candidate with the identity [j] has the key [key]. *)
Definition keyed (j : JobId) (key : OrderingKey) (es : list (FairCandidateInput * FairCandidateMetadata)) : Prop :=
  Forall (λ e, fi_job_id e.1 = j → fi_ordering_key e.1 = Some key) es.

Definition placed (l : FairnessLedger) (j : JobId) (key : OrderingKey) (position : Z) : Prop :=
  ∃ r, fl_candidates l !! j = Some r ∧ fc_ordering_key (cr_candidate r) = Some key
    ∧ fc_ordering_position (cr_candidate r) = position.

(** What one discovered candidate does to the places. *)
Lemma discover_one_places input metadata tails o input' tails' o' :
  ledger_ok (ow_ledger o) → covers tails (ow_ledger o) → is_candidate_input input = true →
  assign_position input tails o = Ok (input', tails') → ensure_candidate input' metadata o = Ok o' →
  (∀ key, default 0 (tails !! key) ≤ default 0 (tails' !! key)) ∧
  (∀ j key p, placed (ow_ledger o) j key p → (fi_job_id input = j → fi_ordering_key input = Some key) →
     placed (ow_ledger o') j key p) ∧
  (∀ j, fi_job_id input ≠ j → fl_candidates (ow_ledger o') !! j = fl_candidates (ow_ledger o) !! j) ∧
  (∀ key, fl_candidates (ow_ledger o) !! fi_job_id input = None → fi_ordering_key input = Some key →
     ∃ p, default 0 (tails !! key) < p ≤ default 0 (tails' !! key) ∧ placed (ow_ledger o') (fi_job_id input) key p).
Proof.
  intros Hok Hcov Hi Ha He. destruct (assign_position_spec _ _ _ _ _ Hok Hi Hcov Ha) as (Ei & _ & _ & Hpos).
  assert (fi_job_id input' = fi_job_id input ∧ fi_ordering_key input' = fi_ordering_key input) as [Ej Ek] by by rewrite Ei.
  assert (∀ key, default 0 (tails !! key) ≤ default 0 (tails' !! key)) as Hmono.
  { unfold assign_position in Ha. destruct (fi_ordering_key input) as [k|]; [|by injection Ha as <- <-].
    destruct (match fl_candidates _ !! _ with Some _ => _ | None => _ end); [by injection Ha as <- <-|].
    destruct (checked_add_u64 _ 1) as [tail|] eqn:Et; [|done]. cbn in Ha. injection Ha as <- <-. apply checked_Some in Et as [-> _].
    intros key. destruct (decide (k = key)) as [<-|]; [rewrite lookup_insert_eq; cbn; lia|by rewrite lookup_insert_ne]. }
  destruct (ensure_candidate_spec _ _ _ _ He) as (l' & -> & [[-> Hin]|(_ & c & r & Hc & Hrc & Hl')]);
    cbn [set_ow_metadata set_ow_ledger ow_ledger]; rewrite Ej in *.
  - split_and!; [done|done|done|]. intros key Hn _. rewrite Hn in Hin. by destruct Hin.
  - destruct (try_from_fields _ _ Hc) as (_ & Fk & Fp). split_and!; [done| | |].
    + intros j key p (r0 & Hr0 & K0 & P0) Hkey. unfold placed. rewrite Hl'.
      destruct (decide (fi_job_id input = j)) as [<-|Hne]; [|exists r0; by rewrite lookup_insert_ne].
      exists r. rewrite lookup_insert_eq, Hrc, Fk, Ek, Fp. split_and!; [done|by apply Hkey|].
      destruct (Hpos key (Hkey eq_refl)) as [_ [(r1 & Hr1 & _ & ->)|Hlt]]; [congruence|].
      (* the candidate keeps its key, so its place is kept *)
      unfold assign_position in Ha. rewrite (Hkey eq_refl), Hr0, bool_decide_true in Ha by done. injection Ha as <- <-. done.
    + intros j Hne. by rewrite Hl', lookup_insert_ne.
    + intros key Hn Hk. destruct (Hpos key Hk) as [Hle [(r1 & Hr1 & _)|Hlt]]; [congruence|].
      exists (fi_ordering_position input'). split; [lia|]. exists r. by rewrite Hl', lookup_insert_eq, Hrc, Fk, Ek, Fp.
Qed.

Lemma discover_places es tails o o' :
  owner_ok o → covers tails (ow_ledger o) → Forall discovered_ok es →
  Z.of_nat (size (fl_candidates (ow_ledger o))) + Z.of_nat (length es) ≤ U32_MAX →
  ensure_discovered es tails o = (Ok tt, o') →
  (∀ j key p, placed (ow_ledger o) j key p → keyed j key es → placed (ow_ledger o') j key p) ∧
  (∀ j key, fl_candidates (ow_ledger o) !! j = None → keyed j key es → j ∈ (fi_job_id ∘ fst) <$> es →
     ∃ p, default 0 (tails !! key) < p ∧ placed (ow_ledger o') j key p).
Proof.
  revert tails o. induction es as [|[input metadata] es IH]; intros tails o Ho Hcov Hes Hsz Hd.
  { injection Hd as <-. split; [done|]. by intros j key _ _ ?%elem_of_nil. }
  apply Forall_cons in Hes as [He Hes]. cbn [ensure_discovered length] in *.
  destruct (assign_position input tails o) as [[input' tails']|] eqn:Ha; [|done].
  destruct (ensure_candidate input' metadata o) as [o1|] eqn:Hen; [|done].
  destruct (discover_one input metadata tails o input' tails' o1) as (Hok' & Hcov' & _ & Hsz'); [done..|lia|done|done|].
  destruct (discover_one_places input metadata tails o input' tails' o1) as (Hmono & Hkeep & Hother & Hnew);
    [apply Ho|done|apply He|done|done|].
  destruct (IH tails' o1) as [IH1 IH2]; [done..|lia|done|]. split.
  - intros j key p Hp [Hk Hks]%Forall_cons. apply IH1; [|done]. by apply Hkeep.
  - intros j key Hn Hk%Forall_cons. destruct Hk as [Hk Hks]. cbn [fmap list_fmap]. intros [->|Hin]%elem_of_cons.
    + cbn in *. destruct (Hnew key Hn (Hk eq_refl)) as (p & Hp & Hpl). exists p. split; [lia|]. by apply IH1.
    + destruct (decide (fi_job_id input = j)) as [<-|Hne].
      * destruct (Hnew key Hn (Hk eq_refl)) as (p & Hp & Hpl). exists p. split; [lia|]. by apply IH1.
      * destruct (IH2 j key) as (p & Hp & Hpl); [by rewrite Hother|done|done|]. exists p. split; [|done].
        specialize (Hmono key). lia.
Qed.

(** Two new candidates of a key are placed in the order they were discovered. *)
Lemma discover_order es tails o o' :
  owner_ok o → covers tails (ow_ledger o) → Forall discovered_ok es →
  Z.of_nat (size (fl_candidates (ow_ledger o))) + Z.of_nat (length es) ≤ U32_MAX →
  ensure_discovered es tails o = (Ok tt, o') → NoDup ((fi_job_id ∘ fst) <$> es) →
  ∀ n1 n2 e1 e2 key, (n1 < n2)%nat → es !! n1 = Some e1 → es !! n2 = Some e2 →
    fi_ordering_key e1.1 = Some key → fi_ordering_key e2.1 = Some key →
    fl_candidates (ow_ledger o) !! fi_job_id e1.1 = None → fl_candidates (ow_ledger o) !! fi_job_id e2.1 = None →
    ∃ p1 p2, p1 < p2 ∧ placed (ow_ledger o') (fi_job_id e1.1) key p1 ∧ placed (ow_ledger o') (fi_job_id e2.1) key p2.
Proof.
  revert tails o. induction es as [|[input metadata] es IH]; intros tails o Ho Hcov Hes Hsz Hd Hnd n1 n2 e1 e2 key Hlt H1 H2 K1 K2 N1 N2; [done|].
  apply Forall_cons in Hes as [He Hes]. cbn [ensure_discovered length fmap list_fmap] in *. apply NoDup_cons in Hnd as [Hnin Hnd].
  destruct (assign_position input tails o) as [[input' tails']|] eqn:Ha; [|done].
  destruct (ensure_candidate input' metadata o) as [o1|] eqn:Hen; [|done].
  destruct (discover_one input metadata tails o input' tails' o1) as (Hok' & Hcov' & _ & Hsz'); [done..|lia|done|done|].
  destruct (discover_one_places input metadata tails o input' tails' o1) as (Hmono & Hkeep & Hother & Hnew);
    [apply Ho|done|apply He|done|done|].
  assert (∀ e n, es !! n = Some e → fi_job_id input ≠ fi_job_id e.1) as Hne.
  { intros e n Hn Heq. apply Hnin. cbn. rewrite Heq. apply (list_elem_of_fmap_2 (fi_job_id ∘ fst)). by eapply list_elem_of_lookup_2. }
  assert (∀ e n, es !! n = Some e → fi_ordering_key e.1 = Some key → keyed (fi_job_id e.1) key es) as Hkeyed.
  { intros e n Hn Hk. apply Forall_lookup. intros m e' Hm Hj.
    assert (n = m) as ->; [|congruence]. apply (NoDup_lookup _ _ _ (fi_job_id e.1) Hnd); rewrite list_lookup_fmap;
      [by rewrite Hn|rewrite Hm; cbn; by rewrite Hj]. }
  destruct n2 as [|n2]; [lia|]. cbn in H2. destruct n1 as [|n1].
  - cbn in H1. injection H1 as <-. cbn [fst] in *. destruct (Hnew key N1 K1) as (p1 & Hp1 & Hpl1).
    destruct (discover_places es tails' o1 o') as [P1 P2]; [done..|lia|done|].
    destruct (P2 (fi_job_id e2.1) key) as (p2 & Hp2 & Hpl2).
    { rewrite Hother; [done|by eapply Hne]. }
    { by eapply Hkeyed. }
    { apply (list_elem_of_fmap_2 (fi_job_id ∘ fst)). by eapply list_elem_of_lookup_2. }
    exists p1, p2. split_and!; [lia| |done]. apply P1; [done|]. apply Forall_lookup. intros m e' Hm Hj. by destruct (Hne e' m Hm).
  - cbn in H1. apply (IH tails' o1) with (n1 := n1) (n2 := n2); try done; [lia|lia| |]; rewrite Hother; try done; by eapply Hne.
Qed.

(** ** A life of the owner *)

(** Two ordered jobs and another are discovered, one is leased, the owner is
    saved and loaded again. *)
Module OwnerScenario.
Definition key : OrderingKey := [Byte.x07].
Definition input (j : Byte.byte) (order : option OrderingKey) : FairCandidateInput :=
  FairScenario.input j Byte.x0a None Default order.
Definition metadata : FairCandidateMetadata :=
  mkFairCandidateMetadata (ascii "mail") 1 1 1 Idempotent (mkRetryPolicy 3 3600000000000 1000000000 60000000000 2) 0 50 100.
Definition found : list (FairCandidateInput * FairCandidateMetadata) :=
  [(input Byte.x03 (Some key), metadata); (input Byte.x01 (Some key), metadata); (input Byte.x02 None, metadata)].

Definition fresh : FairDispatchOwner :=
  mkFairDispatchOwner (FairnessLedger_new FairScenario.budget) ∅
    (mkFairBatchState false (Scoped [Byte.x61] None) 1 ∅ ∅ 0 3 0 0 0) 0
    (mkFairSelectionSnapshot (replicate 16 Byte.x01) (Scoped [Byte.x61] None) 0) None.
Definition discovered : FairDispatchOwner := owner_apply (OO_Discover found) fresh.
Definition leased : FairDispatchOwner := owner_apply (OO_SelectNext 200 {[FairScenario.job Byte.x03]}) discovered.

Lemma fresh_new : FairDispatchOwner_try_new FairScenario.budget = Ok fresh.
Proof. vm_compute. reflexivity. Qed.

Lemma found_ok : owner_op_ok fresh (OO_Discover found).
Proof. split; [|vm_compute; discriminate]. repeat constructor. Qed.

Lemma discovered_reached : owner_reached FairScenario.budget discovered.
Proof. exists fresh. split; [exact fresh_new|]. apply rtc_once. by apply (owner_step_command _ _ (OO_Discover found) found_ok). Qed.

Lemma leased_reached : owner_reached FairScenario.budget leased.
Proof.
  destruct discovered_reached as (o0 & H0 & Hr). exists o0. split; [done|]. eapply rtc_r; [exact Hr|].
  by apply (owner_step_command _ _ (OO_SelectNext 200 {[FairScenario.job Byte.x03]})).
Qed.

Lemma leased_saves : is_ok (encode_value leased) = true.
Proof. vm_compute. reflexivity. Qed.

Lemma found_succeeds : (ensure_discovered_candidates found fresh).1 = Ok tt.
Proof. vm_compute. reflexivity. Qed.

Lemma found_distinct : NoDup ((fi_job_id ∘ fst) <$> found).
Proof. apply (bool_decide_unpack _). vm_compute. exact I. Qed.
End OwnerScenario.

(** ** Properties *)

(** C26: over the whole life of an owner, through any sequence of discovery
    passes, selections, settlements, deferrals, removals, compactions, saves
    and loads by later processes, its ledger is one that the operations of the
    ledger reach from a new one, every candidate has its registration and no
    other job has one, and the ordered candidates of a key have distinct
    positions. *)
Theorem owner_refines_ledger b o :
  is_budget b = true → owner_reached b o →
  reached b (ow_ledger o) ∧ dom (ow_metadata o) = dom (fl_candidates (ow_ledger o)) ∧ positions_distinct (ow_ledger o).
Proof.
  intros Hb Ho. destruct (owner_reached_ok b o Hb Ho) as [[_ Hd _ Hp _ _ _] Hr]. by split_and!.
Qed.

Lemma owner_refines_ledger_witness : reached FairScenario.budget (ow_ledger OwnerScenario.leased).
Proof. apply (owner_refines_ledger FairScenario.budget _ eq_refl OwnerScenario.leased_reached). Defined.

(** C27: an owner is saved exactly when each of its tables has at most 4,096
    entries and its body fits in a value, and what a later process loads is
    the owner that was saved, with the low-volume scope charged its
    outstanding reservations and the saved bytes kept for the next checked
    replacement. *)
Theorem owner_save_load b o :
  is_budget b = true → owner_reached b o →
  (is_ok (encode_value o) = true ↔
     tables_fit o ∧ len (FAIR_OWNER_MARKER ++ owner_layout o) ≤ MAX_VALUE_BODY_BYTES) ∧
  (∀ v, encode_value o = Ok v →
     load_encoded v = Ok (set_ow_loaded_value (Some v) (set_ow_ledger (restart_low_volume (ow_ledger o)) o))).
Proof.
  intros Hb Ho. destruct (owner_reached_ok b o Hb Ho) as [Hok _]. split; [|intros v; by apply saved_loads].
  split.
  - destruct (encode_value o) as [v|] eqn:E; [|done]. apply encode_value_Ok in E; [|done]. tauto.
  - intros [Hf Hl]. by rewrite (proj2 (encode_value_Ok o _ Hok) (conj Hf (conj eq_refl Hl))).
Qed.

Lemma owner_save_load_witness :
  ∃ v, encode_value OwnerScenario.leased = Ok v ∧
    load_encoded v = Ok (set_ow_loaded_value (Some v)
      (set_ow_ledger (restart_low_volume (ow_ledger OwnerScenario.leased)) OwnerScenario.leased)).
Proof.
  destruct (owner_save_load FairScenario.budget _ eq_refl OwnerScenario.leased_reached) as [_ H].
  pose proof OwnerScenario.leased_saves as Hs. destruct (encode_value OwnerScenario.leased) as [v|]; [|discriminate Hs].
  exists v. split; [reflexivity|exact (H v eq_refl)].
Defined.

(** C28: a discovery pass keeps the position of every ordered candidate it
    finds again, or does not find; a candidate it finds for the first time is
    placed after every position taken in its key; and of two such candidates
    the one found first is placed first. *)
Theorem discovery_joins_tail b o es o' :
  is_budget b = true → owner_reached b o → owner_op_ok o (OO_Discover es) → NoDup ((fi_job_id ∘ fst) <$> es) →
  ensure_discovered_candidates es o = (Ok tt, o') →
  (∀ j key p, placed (ow_ledger o) j key p → keyed j key es → placed (ow_ledger o') j key p) ∧
  (∀ e key, e ∈ es → fi_ordering_key e.1 = Some key → fl_candidates (ow_ledger o) !! fi_job_id e.1 = None →
     ∃ p, placed (ow_ledger o') (fi_job_id e.1) key p ∧ ∀ j q, placed (ow_ledger o) j key q → q < p) ∧
  (∀ n1 n2 e1 e2 key, (n1 < n2)%nat → es !! n1 = Some e1 → es !! n2 = Some e2 →
     fi_ordering_key e1.1 = Some key → fi_ordering_key e2.1 = Some key →
     fl_candidates (ow_ledger o) !! fi_job_id e1.1 = None → fl_candidates (ow_ledger o) !! fi_job_id e2.1 = None →
     ∃ p1 p2, p1 < p2 ∧ placed (ow_ledger o') (fi_job_id e1.1) key p1 ∧ placed (ow_ledger o') (fi_job_id e2.1) key p2).
Proof.
  intros Hb Ho [Hes Hsz] Hnd Hd. destruct (owner_reached_ok b o Hb Ho) as [Hok _].
  pose proof (collect_tails_covers o (ok_ledger_ok _ Hok)) as Hcov.
  destruct (discover_places es _ o o' Hok Hcov Hes Hsz Hd) as [P1 P2]. split_and!; [done| |by eapply discover_order].
  intros e key He Hk Hn. apply list_elem_of_lookup in He as [n He]. destruct (P2 (fi_job_id e.1) key Hn) as (p & Hp & Hpl).
  - apply Forall_lookup. intros m e' Hm Hj. assert (n = m) as ->; [|congruence].
    apply (NoDup_lookup _ _ _ (fi_job_id e.1) Hnd); rewrite list_lookup_fmap; [by rewrite He|rewrite Hm; cbn; by rewrite Hj].
  - apply (list_elem_of_fmap_2 (fi_job_id ∘ fst)). by eapply list_elem_of_lookup_2.
  - exists p. split; [done|]. intros j q (r & Hr & Hrk & <-). pose proof (proj2 Hcov j r key Hr Hrk). lia.
Qed.

Lemma discovery_joins_tail_witness :
  ∃ p1 p2, p1 < p2 ∧ placed (ow_ledger OwnerScenario.discovered) (FairScenario.job Byte.x03) OwnerScenario.key p1
    ∧ placed (ow_ledger OwnerScenario.discovered) (FairScenario.job Byte.x01) OwnerScenario.key p2.
Proof.
  assert (owner_reached FairScenario.budget OwnerScenario.fresh) as Hr by (exists OwnerScenario.fresh; split; [exact OwnerScenario.fresh_new|apply rtc_refl]).
  destruct (discovery_joins_tail FairScenario.budget OwnerScenario.fresh OwnerScenario.found OwnerScenario.discovered eq_refl Hr
    OwnerScenario.found_ok OwnerScenario.found_distinct) as (_ & _ & H).
  - rewrite <- OwnerScenario.found_succeeds. apply surjective_pairing.
  - exact (H 0%nat 1%nat _ _ OwnerScenario.key ltac:(lia) eq_refl eq_refl eq_refl eq_refl eq_refl eq_refl).
Defined.
