(* ===== verification/Budgets.v ===== *)
(** * Budgets of a bounded drive

    [crates/bg-jobs/src/budget/drive.rs] (requests and reports),
    [budget/profile.rs] (profiles and the named presets),
    [drive/constants.rs] (the store-operation allowance and the costs it
    reserves), [drive/runner.rs] (deadline checks) and
    [drive/scheduler/clock.rs] (elapsed wall time on the caller's clock).
    The observer that [OperationBudget] notifies is not modelled. *)

From S2P Require Import Prelude Errors Ids Clock Policy JobRecord Store Prog Transition Completion Fairness.

(** ** Requests *)

Inductive QueueSelection : Type :=
  | QS_All
  | QS_Only (queues : list QueueName).

Definition MAX_QUEUES : Z := 64.

Definition QueueSelection_only (queues : list QueueName) : result ValidationError QueueSelection :=
  match queues with
  | [] => Err (VE_Empty "queue selection")
  | _ =>
      if MAX_QUEUES <? len queues then Err (VE_TooLong "queue selection" MAX_QUEUES (len queues))
      else Ok (QS_Only queues)
  end.

Definition QueueSelection_is_all (s : QueueSelection) : bool :=
  match s with QS_All => true | QS_Only _ => false end.
Definition QueueSelection_as_only (s : QueueSelection) : option (list QueueName) :=
  match s with QS_All => None | QS_Only queues => Some queues end.
Definition QueueSelection_iter (s : QueueSelection) : list QueueName :=
  default [] (QueueSelection_as_only s).

(** [DriveRequest] and [DriveRequestInput] have the same fields. *)
Record DriveRequest : Type := mkDriveRequest {
  dq_queues : QueueSelection;
  dq_max_claims : Z;
  dq_max_concurrency : Z;
  dq_max_payload_bytes_in_flight : Z;
  dq_max_completion_details : Z;
  dq_max_store_operations : Z;
  dq_stop_claiming_at : MonotonicDeadline;
  dq_finish_by : MonotonicDeadline;
}.

Definition is_queue_selection (s : QueueSelection) : bool :=
  match s with
  | QS_All => true
  | QS_Only queues =>
      negb (len queues =? 0) && (len queues <=? MAX_QUEUES) && forallb (is_text MAX_NAME_BYTES) queues
  end.

(** What the types of the fields guarantee. *)
Definition is_nonzero_usize : Z → bool := in_range 1 USIZE_MAX.
Definition is_request_input (q : DriveRequest) : bool :=
  is_queue_selection (dq_queues q) && is_nonzero_u32 (dq_max_claims q) && is_nonzero_u16 (dq_max_concurrency q)
  && is_nonzero_usize (dq_max_payload_bytes_in_flight q) && is_u32 (dq_max_completion_details q)
  && is_nonzero_u32 (dq_max_store_operations q) && is_u64 (dq_stop_claiming_at q) && is_u64 (dq_finish_by q).

Definition DriveRequest_try_from (input : DriveRequest) : result ValidationError DriveRequest :=
  if dq_max_claims input <? dq_max_completion_details input
  then Err (VE_InvalidValue "max completion details")
  else if MonotonicDeadline_is_before (dq_finish_by input) (dq_stop_claiming_at input)
  then Err (VE_Ordering "drive deadlines")
  else Ok input.

(** ** Reports *)

Inductive DriveStopReason : Type :=
  | ClaimsExhausted | Deadline | Shutdown | NoVisibleWork | Capacity | StoreFailure.
#[export] Instance DriveStopReason_eq_dec : EqDecision DriveStopReason.
Proof. solve_decision. Defined.

Record DriveCounts : Type := mkDriveCounts {
  dc_claimed : Z;
  dc_succeeded : Z;
  dc_continued : Z;
  dc_retried : Z;
  dc_dead_lettered : Z;
  dc_cancelled : Z;
  dc_lease_conflicts : Z;
  dc_capacity_deferrals : Z;
  dc_repair_actions : Z;
}.

Definition DriveCounts_default : DriveCounts := mkDriveCounts 0 0 0 0 0 0 0 0 0.

Record DriveReport : Type := mkDriveReport {
  dr_counts : DriveCounts;
  dr_completions : list CompletionDetails;
  dr_completions_omitted : Z;
  dr_has_immediately_visible_work : bool;
  dr_next_wake : WakeHint;
  dr_stop_reason : DriveStopReason;
}.

Definition set_dr_counts (v : DriveCounts) (r : DriveReport) : DriveReport :=
  mkDriveReport v (dr_completions r) (dr_completions_omitted r) (dr_has_immediately_visible_work r)
    (dr_next_wake r) (dr_stop_reason r).
Definition set_dr_stop_reason (v : DriveStopReason) (r : DriveReport) : DriveReport :=
  mkDriveReport (dr_counts r) (dr_completions r) (dr_completions_omitted r) (dr_has_immediately_visible_work r)
    (dr_next_wake r) v.

(** ** Profiles *)

Definition TINY_MAX_PAYLOAD_BYTES_IN_FLIGHT : Z := 384 * 1024.
Definition TINY_MAX_COMPLETION_DETAILS : Z := 8.

(** [DriveProfile] and [DriveProfileInput] have the same fields, and
    [DriveBudget] wraps a profile. *)
Record DriveProfile : Type := mkDriveProfile {
  dp_queues : QueueSelection;
  dp_max_claims : Z;
  dp_max_concurrency : Z;
  dp_max_payload_bytes_in_flight : Z;
  dp_max_completion_details : Z;
  dp_max_store_operations : Z;
  dp_stop_claiming_after : Duration;
  dp_finish_after : Duration;
}.

Record DriveBudgetInput : Type := mkDriveBudgetInput {
  db_queues : QueueSelection;
  db_max_claims : Z;
  db_max_concurrency : Z;
  db_max_store_operations : Z;
  db_stop_claiming_after : Duration;
  db_finish_after : Duration;
}.

Definition validate_duration (field : string) (duration : Duration) : result ValidationError unit :=
  if duration =? 0 then Err (VE_InvalidValue field)
  else if U64_MAX <? duration then Err (VE_Overflow field)
  else Ok tt.

Definition nonzero (field : string) (value : Z) : result ValidationError Z :=
  if value =? 0 then Err (VE_InvalidValue field) else Ok value.

Definition DriveProfile_try_from (input : DriveProfile) : result ValidationError DriveProfile :=
  max_claims ← nonzero "max claims" (dp_max_claims input);
  _ ← nonzero "max concurrency" (dp_max_concurrency input);
  _ ← nonzero "max payload bytes in flight" (dp_max_payload_bytes_in_flight input);
  _ ← nonzero "max store operations" (dp_max_store_operations input);
  if max_claims <? dp_max_completion_details input then Err (VE_InvalidValue "max completion details")
  else
    _ ← validate_duration "stop claiming duration" (dp_stop_claiming_after input);
    _ ← validate_duration "finish duration" (dp_finish_after input);
    if dp_finish_after input <? dp_stop_claiming_after input then Err (VE_Ordering "drive durations")
    else Ok input.

Definition request_at (profile : DriveProfile) (now : MonotonicDeadline) : result ValidationError DriveRequest :=
  stop_claiming_at ← MonotonicDeadline_checked_add now (dp_stop_claiming_after profile) "drive deadline";
  finish_by ← MonotonicDeadline_checked_add now (dp_finish_after profile) "drive deadline";
  DriveRequest_try_from (mkDriveRequest (dp_queues profile) (dp_max_claims profile) (dp_max_concurrency profile)
    (dp_max_payload_bytes_in_flight profile) (dp_max_completion_details profile) (dp_max_store_operations profile)
    stop_claiming_at finish_by).

Definition DriveBudget_try_from (input : DriveBudgetInput) : result ValidationError DriveProfile :=
  DriveProfile_try_from (mkDriveProfile (db_queues input) (db_max_claims input) (db_max_concurrency input)
    MAX_INLINE_PAYLOAD_BYTES (db_max_claims input) (db_max_store_operations input)
    (db_stop_claiming_after input) (db_finish_after input)).

Definition DriveBudget_try_tiny (queues : QueueSelection) : result ValidationError DriveProfile :=
  DriveProfile_try_from (mkDriveProfile queues 8 2 TINY_MAX_PAYLOAD_BYTES_IN_FLIGHT TINY_MAX_COMPLETION_DETAILS
    32 (from_millis 250) (from_millis 500)).
Definition DriveBudget_try_resident (queues : QueueSelection) : result ValidationError DriveProfile :=
  DriveProfile_try_from (mkDriveProfile queues 32 8 (1024 * 1024) 32 128 (from_secs 4) (from_secs 5)).
Definition DriveBudget_try_serverless (queues : QueueSelection) : result ValidationError DriveProfile :=
  DriveProfile_try_from (mkDriveProfile queues 16 4 (64 * 1024) 16 128 (from_secs 20) (from_secs 25)).

(** ** Store operations *)

Definition CLAIM_INPUT_STORE_OPERATIONS : Z := 4.
Definition UNKNOWN_TRANSITION_STORE_OPERATIONS : Z := 4.
Definition PAYLOAD_READ_STORE_OPERATIONS : Z := 1.
Definition CANCELLATION_READ_STORE_OPERATIONS : Z := 1.
Definition WAKE_RECONCILIATION_STORE_OPERATIONS : Z := 2.
Definition WAKE_TRANSITION_STORE_OPERATIONS : Z :=
  saturating_mul U32_MAX UNKNOWN_TRANSITION_STORE_OPERATIONS 2.
Definition CANDIDATE_WORST_CASE_STORE_OPERATIONS : Z :=
  saturating_add U32_MAX
    (saturating_add U32_MAX
      (saturating_add U32_MAX
        (saturating_add U32_MAX
          (saturating_add U32_MAX CLAIM_INPUT_STORE_OPERATIONS UNKNOWN_TRANSITION_STORE_OPERATIONS)
          PAYLOAD_READ_STORE_OPERATIONS)
        CANCELLATION_READ_STORE_OPERATIONS)
      WAKE_RECONCILIATION_STORE_OPERATIONS)
    WAKE_TRANSITION_STORE_OPERATIONS.
Definition OWNER_LOAD_STORE_OPERATIONS : Z := 1.
Definition OWNER_SAVE_WORST_CASE_STORE_OPERATIONS : Z := 5.
Definition MAX_DISCOVERY_ITEMS : Z := MAX_INDEX_RANGE_ITEMS.
Definition MAX_DISCOVERY_BYTES : Z := MAX_INDEX_RANGE_BYTES.

(** [OperationBudget] is the number of operations that remain. *)
Definition reserve (operations budget : Z) : option Z :=
  if budget <? operations then None else Some (budget - operations).

Definition claim_deadline_reached (request : DriveRequest) (current : MonotonicDeadline) : bool :=
  MonotonicDeadline_is_at_or_before (dq_stop_claiming_at request) current
  || MonotonicDeadline_is_at_or_before (dq_finish_by request) current.

(** ** The clock of a drive *)

(** The caller's clock is an input; the origin is its first reading. *)
Record DriveClock : Type := mkDriveClock { ck_origin : MonotonicDeadline; ck_wall_origin : Timestamp }.

Section clock.
Context {E : Type}.

Definition DriveClock_new (wall_origin : Timestamp) : job E DriveClock :=
  origin ← ambient_ AMonotonicNow;
  mret (mkDriveClock origin wall_origin).

Definition clock_now (clock : DriveClock) : job E MonotonicDeadline := ambient_ AMonotonicNow.

Definition deadline_at (clock : DriveClock) (t : Timestamp) : result ValidationError MonotonicDeadline :=
  duration ← Timestamp_duration_since t (ck_wall_origin clock);
  MonotonicDeadline_checked_add (ck_origin clock) duration "handler deadline".

Definition deadline_after (clock : DriveClock) (delay : Duration) : job E MonotonicDeadline :=
  now ← clock_now clock;
  try_ (MonotonicDeadline_checked_add now delay "handler deadline").

Definition wall_at (clock : DriveClock) (t : MonotonicDeadline) : result ValidationError Timestamp :=
  elapsed ← ok_or (VE_InvalidValue "monotonic clock") (checked 0 U64_MAX (t - ck_origin clock));
  Timestamp_checked_add (ck_wall_origin clock) elapsed.

Definition wall_now (clock : DriveClock) : job E Timestamp :=
  now ← clock_now clock;
  try_ (wall_at clock now).
End clock.
