(* ===== verification/Discovery.v ===== *)
(** * Discovery

    [crates/bg-jobs/src/drive/discovery]: the allowance of a discovery
    ([budget.rs]), the paged scans of the due and lease indexes ([scan.rs]),
    the decoding of their entries and of the job records they name
    ([records.rs]) and the discovery of a drive ([runner.rs]); with the
    [Candidate] of [drive/candidate/runner.rs].  Observations of corrupt
    entries and of exhausted capacity are not modelled. *)

From S2P Require Import Prelude Errors Ids Clock Policy JobRecord Wire KeyCodec ValueCodec JobCodec Keyspace Store.
From S2P Require Import Prog System Transition Completion Fairness Budgets.

(** ** The allowance: [budget.rs] *)

Record DiscoveryBudget : Type := mkDiscoveryBudget { dg_remaining_items : Z; dg_remaining_bytes : Z }.

Definition DiscoveryBudget_new : DiscoveryBudget := mkDiscoveryBudget MAX_DISCOVERY_ITEMS MAX_DISCOVERY_BYTES.

Definition entry_bytes (entry : RangeEntry) : Z :=
  saturating_add USIZE_MAX (len (re_key entry)) (len (re_value entry)).

Definition reserve_entry (entry : RangeEntry) (b : DiscoveryBudget) : option DiscoveryBudget :=
  if (dg_remaining_items b =? 0) || (dg_remaining_bytes b <? entry_bytes entry) then None
  else Some (mkDiscoveryBudget (saturating_sub (dg_remaining_items b) 1)
               (saturating_sub (dg_remaining_bytes b) (entry_bytes entry))).

Definition range_limits (capabilities : StoreCapabilities) (requested_items : Z) (b : DiscoveryBudget)
    : option RangeLimits :=
  bounded_range_limits capabilities requested_items (dg_remaining_items b) (dg_remaining_bytes b).

(** The loop of [record_batch_len] at an index, with the bytes so far. *)
Fixpoint record_batch_from (index key_bytes response_bytes : Z) (keys : list StoreKey)
    (max_value_bytes max_keys max_key_bytes : Z) (b : DiscoveryBudget) : Z :=
  match keys with
  | [] => index
  | key :: keys =>
      let next_key_bytes := saturating_add USIZE_MAX key_bytes (len key) in
      if (max_keys <=? index) || (max_key_bytes <? next_key_bytes) then index
      else
        let record_bytes := saturating_add USIZE_MAX (len key) max_value_bytes in
        let next := saturating_add USIZE_MAX response_bytes record_bytes in
        if dg_remaining_bytes b <? next then index
        else record_batch_from (index + 1) next_key_bytes next keys max_value_bytes max_keys max_key_bytes b
  end.

(** [(index > 0).then_some(index)]. *)
Definition record_batch_len (keys : list StoreKey) (max_value_bytes max_keys max_key_bytes : Z)
    (b : DiscoveryBudget) : option nat :=
  let index := record_batch_from 0 0 0 keys max_value_bytes max_keys max_key_bytes b in
  if 0 <? index then Some (Z.to_nat index) else None.

Definition reserve_record_keys (keys : list StoreKey) (b : DiscoveryBudget) : DiscoveryBudget :=
  mkDiscoveryBudget (dg_remaining_items b) (saturating_sub (dg_remaining_bytes b) (sum_Z (len <$> keys))).

Definition reserve_record_value (bytes : Z) (b : DiscoveryBudget) : option DiscoveryBudget :=
  if dg_remaining_bytes b <? bytes then None
  else Some (mkDiscoveryBudget (dg_remaining_items b) (saturating_sub (dg_remaining_bytes b) bytes)).

Definition is_exhausted (b : DiscoveryBudget) : bool :=
  (dg_remaining_items b =? 0) || (dg_remaining_bytes b =? 0).

(** ** Scans: [scan.rs] *)

Record DiscoveryScan : Type := mkDiscoveryScan {
  sn_entries : list RangeEntry;
  sn_stop_reason : option DriveStopReason;
}.

Fixpoint append_entries (entries : list RangeEntry) (scan : DiscoveryScan) (b : DiscoveryBudget)
    : DiscoveryScan * DiscoveryBudget :=
  match entries with
  | [] => (scan, b)
  | entry :: entries =>
      match reserve_entry entry b with
      | None => (mkDiscoveryScan (sn_entries scan) (Some Capacity), b)
      | Some b => append_entries entries (mkDiscoveryScan (sn_entries scan ++ [entry]) (sn_stop_reason scan)) b
      end
  end.

(** The two allowances a scan draws on: store operations and discovery. *)
Definition budgets : Type := Z * DiscoveryBudget.

Section scan.
Context {E : Type} (system : JobSystem) (request : DriveRequest) (clock : DriveClock).

Definition index_prefix (tag : KeyTag) (queue : option QueueName) : result (JobSystemError E) StoreKey :=
  match tag with
  | KT_Due =>
      data (match queue with
            | None => due_prefix (sys_namespace system)
            | Some queue => due_queue_prefix (sys_namespace system) queue
            end)
  | KT_Lease =>
      data (match queue with
            | None => KeyCodec_encode (sys_namespace system) KT_Lease []
            | Some queue => lease_queue_prefix (sys_namespace system) queue
            end)
  | _ => Err JSE_PayloadCorrupt
  end.

Definition read_index_page (tag : KeyTag) (queue : option QueueName) (continuation : option StoreKey)
    (limits : RangeLimits) : job E RangePage :=
  prefix ← try_ (index_prefix tag queue);
  range ← try_ (RangeRequest_try_from
    (mkRangeRequest (Some prefix) (KeyCodec_prefix_end prefix) Forward (rl_item_limit limits)
       (rl_byte_limit limits) continuation));
  store_read_range range.

(** [prepare_next_page]: the limits of the next page, or why there is none. *)
Definition prepare_next_page (previous_continuation : option StoreKey) (continuation : StoreKey) (bs : budgets)
    : job E (DriveStopReason + RangeLimits * Z) :=
  if bool_decide (previous_continuation = Some continuation) then mret (inl Capacity)
  else
    now ← clock_now clock;
    mret (if claim_deadline_reached request now then inl Deadline
          else match range_limits (sys_capabilities system) (dq_max_claims request) bs.2 with
          | None => inl Capacity
          | Some page_limits =>
              match reserve 1 bs.1 with
              | None => inl Capacity
              | Some operations => inr (page_limits, operations)
              end
          end).

(** The loop of [collect_index_pages]; every further page costs an operation,
    so [fuel] is the number of operations that remain. *)
Fixpoint collect_pages (fuel : nat) (tag : KeyTag) (queue : option QueueName) (page : RangePage)
    (previous_continuation : option StoreKey) (scan : DiscoveryScan) (bs : budgets)
    : job E (DiscoveryScan * budgets) :=
  let '(scan, b) := append_entries (pg_entries page) scan bs.2 in
  let bs := (bs.1, b) in
  match sn_stop_reason scan, pg_continuation page with
  | Some _, _ | None, None => mret (scan, bs)
  | None, Some continuation =>
      next ← prepare_next_page previous_continuation continuation bs;
      match next, fuel with
      | inl reason, _ => mret (mkDiscoveryScan (sn_entries scan) (Some reason), bs)
      | inr _, O => mret (mkDiscoveryScan (sn_entries scan) (Some Capacity), bs)
      | inr (page_limits, operations), S fuel =>
          page ← read_index_page tag queue (Some continuation) page_limits;
          collect_pages fuel tag queue page (Some continuation) scan (operations, b)
      end
  end.

Definition collect_index_pages (tag : KeyTag) (queue : option QueueName) (first_page : RangePage) (bs : budgets)
    : job E (DiscoveryScan * budgets) :=
  collect_pages (Z.to_nat bs.1) tag queue first_page None (mkDiscoveryScan [] None) bs.

Definition scan_lane (tag : KeyTag) (queue : option QueueName) (bs : budgets)
    : job E (option DiscoveryScan * budgets) :=
  match range_limits (sys_capabilities system) (dq_max_claims request) bs.2 with
  | None => mret (None, bs)
  | Some page_limits =>
      match reserve 1 bs.1 with
      | None => mret (None, bs)
      | Some operations =>
          first_page ← read_index_page tag queue None page_limits;
          '(scan, bs) ← collect_index_pages tag queue first_page (operations, bs.2);
          mret (Some scan, bs)
      end
  end.

Record QueueDiscovery : Type := mkQueueDiscovery {
  qd_due_entries : list RangeEntry;
  qd_lease_entries : list RangeEntry;
  qd_stop_reason : option DriveStopReason;
  qd_stop_now : bool;
}.

Definition QueueDiscovery_stopped : QueueDiscovery := mkQueueDiscovery [] [] (Some Capacity) true.

(** [self.budget.is_exhausted()] after both lanes. *)
Definition finish_queue (due lease : DiscoveryScan) (b : DiscoveryBudget) : QueueDiscovery :=
  let stop_reason := match sn_stop_reason due with None => sn_stop_reason lease | reason => reason end in
  if is_exhausted b then mkQueueDiscovery (sn_entries due) (sn_entries lease) (Some Capacity) true
  else mkQueueDiscovery (sn_entries due) (sn_entries lease) stop_reason false.

Definition discover_queue (queue : option QueueName) (bs : budgets) : job E (QueueDiscovery * budgets) :=
  '(due_scan, bs) ← scan_lane KT_Due queue bs;
  match due_scan with
  | None => mret (QueueDiscovery_stopped, bs)
  | Some due_scan =>
      '(lease_scan, bs) ← scan_lane KT_Lease queue bs;
      match lease_scan with
      | None => mret (mkQueueDiscovery (sn_entries due_scan) [] (Some Capacity) true, bs)
      | Some lease_scan => mret (finish_queue due_scan lease_scan bs.2, bs)
      end
  end.

(** ** Routes: [records.rs] *)

Record LeaseDiscoveryEntry : Type := mkLeaseDiscoveryEntry {
  le_entry : RangeEntry;
  le_queue : QueueName;
  le_job_id : JobId;
}.

Record DueDiscoveryEntry : Type := mkDueDiscoveryEntry {
  de_entry : RangeEntry;
  de_queue : QueueName;
  de_job_id : JobId;
  de_when : Timestamp;
}.

Inductive DiscoveryRoute : Type :=
  | Route_Due (route : DueDiscoveryEntry)
  | Route_Lease (route : LeaseDiscoveryEntry).

Definition route_job_id (route : DiscoveryRoute) : JobId :=
  match route with Route_Due route => de_job_id route | Route_Lease route => le_job_id route end.

Definition queue_selected (queue : QueueName) : bool :=
  QueueSelection_is_all (dq_queues request)
  || existsb (λ item, bytes_eqb item queue) (QueueSelection_iter (dq_queues request)).

Definition decode_due_entry (selected_queue : option QueueName) (entry : RangeEntry) : option DueDiscoveryEntry :=
  match decode_due_key (sys_namespace system) (re_key entry) with
  | Ok (Some decoded) =>
      let queue :=
        match selected_queue with
        | Some queue => if bytes_eqb queue (dk_queue decoded) then Some queue else None
        | None => match QueueName_try_new (dk_queue decoded) with Ok queue => Some queue | Err _ => None end
        end in
      (λ queue, mkDueDiscoveryEntry entry queue (dk_job_id decoded) (dk_when decoded)) <$> queue
  | _ => None
  end.

Definition decode_lease_key (key : StoreKey) : option (QueueName * JobId) :=
  match KeyCodec_decode_borrowed (sys_namespace system) key with
  | Ok (KT_Lease, [queue_bytes; job_bytes]) =>
      if is_str queue_bytes then
        match QueueName_try_new queue_bytes, fixed_try_from_slice "job ID" job_bytes with
        | Ok queue, Ok job_id => Some (queue, job_id)
        | _, _ => None
        end
      else None
  | _ => None
  end.

Definition decode_lease_entry (entry : RangeEntry) : option LeaseDiscoveryEntry :=
  match decode_lease_key (re_key entry) with
  | None => None
  | Some (queue, job_id) =>
      if negb (queue_selected queue) then None
      else match ValueCodec_decode_body (re_value entry) with
      | Ok (tag, body) =>
          if negb (bool_decide (tag = VT_Lease)) || negb (bytes_eqb body job_id) then None
          else Some (mkLeaseDiscoveryEntry entry queue job_id)
      | Err _ => None
      end
  end.

(** ** Candidates *)

Record Candidate : Type := mkCandidate {
  cd_record : JobRecordV1;
  cd_encoded : bytes;
  cd_key : StoreKey;
  cd_value : bytes;
  cd_when : Timestamp;
  cd_route_is_due : bool;
}.

Record Discovery : Type := mkDiscovery {
  ds_candidates : list Candidate;
  ds_future_wake : option Timestamp;
  ds_immediate_candidates : Z;
  ds_stop_reason : option DriveStopReason;
}.

Definition Discovery_new : Discovery := mkDiscovery [] None 0 None.

Definition set_ds_stop_reason (v : option DriveStopReason) (d : Discovery) : Discovery :=
  mkDiscovery (ds_candidates d) (ds_future_wake d) (ds_immediate_candidates d) v.

Definition Discovery_record (candidate : Candidate) (now : Timestamp) (d : Discovery) : Discovery :=
  let candidates := ds_candidates d ++ [candidate] in
  if cd_when candidate <=? now
  then mkDiscovery candidates (ds_future_wake d) (saturating_add U32_MAX (ds_immediate_candidates d) 1) (ds_stop_reason d)
  else mkDiscovery candidates
         (Some (match ds_future_wake d with None => cd_when candidate | Some current => Z.min current (cd_when candidate) end))
         (ds_immediate_candidates d) (ds_stop_reason d).

Definition decode_due_candidate (route : DueDiscoveryEntry) (encoded : option bytes) : option (JobRecordV1 * bytes) :=
  encoded ← encoded;
  match decode_job_record encoded, decode_timestamp_value (re_value (de_entry route)) VT_Due with
  | Ok record, Ok due_timestamp =>
      if bytes_eqb (jr_job_id record) (de_job_id route) && bytes_eqb (jr_queue record) (de_queue route)
         && (jr_scheduled_at record =? de_when route) && (due_timestamp =? de_when route)
      then Some (record, encoded) else None
  | _, _ => None
  end.

Definition decode_lease_candidate (route : LeaseDiscoveryEntry) (encoded : option bytes)
    : option (JobRecordV1 * bytes * Timestamp) :=
  encoded ← encoded;
  match decode_job_record encoded with
  | Ok record =>
      if negb (bytes_eqb (jr_job_id record) (le_job_id route)) || negb (bytes_eqb (jr_queue record) (le_queue route))
      then None
      else match jr_state record with
      | Leased lease => if queue_selected (jr_queue record) then Some (record, encoded, ls_expires_at lease) else None
      | _ => None
      end
  | Err _ => None
  end.

(** [record_due_candidate] and [record_lease_candidate]. *)
Definition route_candidate (route : DiscoveryRoute) (encoded : option bytes) : option Candidate :=
  match route with
  | Route_Due route =>
      (λ '(record, encoded), mkCandidate record encoded (re_key (de_entry route)) (re_value (de_entry route))
         (de_when route) true) <$> decode_due_candidate route encoded
  | Route_Lease route =>
      (λ '(record, encoded, expires_at), mkCandidate record encoded (re_key (le_entry route))
         (re_value (le_entry route)) expires_at false) <$> decode_lease_candidate route encoded
  end.

Fixpoint process_batch (now : Timestamp) (routes : list DiscoveryRoute) (values : list (option bytes)) (d : Discovery)
    (b : DiscoveryBudget) : bool * Discovery * DiscoveryBudget :=
  match routes, values with
  | route :: routes, encoded :: values =>
      match reserve_record_value (match encoded with Some bs => len bs | None => 0 end) b with
      | None => (false, d, b)
      | Some b =>
          let d := match route_candidate route encoded with
                   | Some candidate => Discovery_record candidate now d
                   | None => d
                   end in
          process_batch now routes values d b
      end
  | _, _ => (true, d, b)
  end.

Definition load_batch (now : Timestamp) (routes : list DiscoveryRoute) (keys : list StoreKey) (d : Discovery)
    (b : DiscoveryBudget) : job E (bool * Discovery * DiscoveryBudget) :=
  let b := reserve_record_keys keys b in
  values ← read_many system keys;
  if negb (len values =? len keys) then fail JSE_PayloadCorrupt
  else mret (process_batch now routes values d b).

(** The loop of [load] from an offset on; a batch is not empty, so [fuel] is
    the number of records. *)
Fixpoint load_records (fuel : nat) (now : Timestamp) (routes : list DiscoveryRoute) (keys : list StoreKey)
    (d : Discovery) (bs : budgets) : job E (Discovery * budgets) :=
  let capabilities := sys_capabilities system in
  let stop d := set_ds_stop_reason (Some Capacity) d in
  match keys, fuel with
  | [], _ | _, O => mret (d, bs)
  | _, S fuel =>
      match record_batch_len keys (cap_max_value_bytes capabilities) (cap_max_get_many_keys capabilities)
              (cap_max_get_many_key_bytes capabilities) bs.2 with
      | None => mret (stop d, bs)
      | Some batch_len =>
          match reserve 1 bs.1 with
          | None => mret (stop d, bs)
          | Some operations =>
              '(within_budget, d, b) ← load_batch now (take batch_len routes) (take batch_len keys) d bs.2;
              if negb within_budget || is_exhausted b then mret (stop d, (operations, b))
              else load_records fuel now (drop batch_len routes) (drop batch_len keys) d (operations, b)
          end
      end
  end.

(** ** The discovery of a drive: [runner.rs] *)

Record RouteEntries : Type := mkRouteEntries {
  rt_due_entries : list DueDiscoveryEntry;
  rt_lease_entries : list LeaseDiscoveryEntry;
  rt_stop_reason : option DriveStopReason;
}.

Definition RouteEntries_new : RouteEntries := mkRouteEntries [] [] None.

Definition collect_due_entries (queue : option QueueName) (entries : list RangeEntry)
    (due_entries : list DueDiscoveryEntry) : list DueDiscoveryEntry :=
  due_entries ++ omap (decode_due_entry queue) entries.

Definition collect_lease_entries (entries : list RangeEntry) (lease_entries : list LeaseDiscoveryEntry)
    : list LeaseDiscoveryEntry :=
  lease_entries ++ omap decode_lease_entry entries.

(** What the loop of [discover_routes] does with the entries of a queue. *)
Definition collect_entries (queue : option QueueName) (found : QueueDiscovery) (routes : RouteEntries) : RouteEntries :=
  mkRouteEntries (collect_due_entries queue (qd_due_entries found) (rt_due_entries routes))
    (collect_lease_entries (qd_lease_entries found) (rt_lease_entries routes))
    (if qd_stop_now found then qd_stop_reason found
     else match rt_stop_reason routes with None => qd_stop_reason found | reason => reason end).

Fixpoint discover_queues (queues : list (option QueueName)) (routes : RouteEntries) (bs : budgets)
    : job E (RouteEntries * budgets) :=
  match queues with
  | [] => mret (routes, bs)
  | queue :: queues =>
      '(found, bs) ← discover_queue queue bs;
      let routes := collect_entries queue found routes in
      if qd_stop_now found then mret (routes, bs) else discover_queues queues routes bs
  end.

Definition selected_queues : list (option QueueName) :=
  (if QueueSelection_is_all (dq_queues request) then [None] else [])
  ++ (Some <$> QueueSelection_iter (dq_queues request)).

Definition discover_routes (bs : budgets) : job E (RouteEntries * budgets) :=
  discover_queues selected_queues RouteEntries_new bs.

Definition discover (now : Timestamp) (operation_budget : Z) : job E (Discovery * Z) :=
  '(routes, bs) ← discover_routes (operation_budget, DiscoveryBudget_new);
  let record_entries :=
    (Route_Due <$> rt_due_entries routes) ++ (Route_Lease <$> rt_lease_entries routes) in
  record_keys ← try_ (try_map (λ route, job_key (sys_namespace system) (route_job_id route)) record_entries);
  '(discovery, bs) ← load_records (length record_keys) now record_entries record_keys
    (set_ds_stop_reason (rt_stop_reason routes) Discovery_new) bs;
  mret (discovery, bs.1).
End scan.
