(* ===== verification/Candidate.v ===== *)
(** * Candidates

    [crates/bg-jobs/src/drive/candidate]: one candidate of a drive from the
    checks before its claim to the outcome of its handler ([runner.rs]), the
    boundary a handler runs in ([handler.rs]) and the checkpoints it may save
    ([checkpoint.rs]); with the registration of attempts and
    [execute_claimed] of [engine.rs].  A handler is the application's code: it
    is a parameter, a tree of what it asks of the engine. *)

From S2P Require Import Prelude Errors Ids Clock Policy JobRecord Wire KeyCodec ValueCodec JobCodec Keyspace Store.
From S2P Require Import Prog System Transition Permits Claim Completion Admin Failure Fairness Budgets Discovery.

(** ** Handlers *)

(** [ExecutionContext] of [model/handler.rs]. *)
Record ExecutionContext : Type := mkExecutionContext {
  ec_job_id : JobId;
  ec_namespace : Namespace;
  ec_execution_id : ExecutionId;
  ec_attempt_id : AttemptId;
  ec_attempt : Z;
  ec_generation : Z;
  ec_fence : Z;
  ec_token : LeaseToken;
  ec_owner : OwnerId;
  ec_queue : QueueName;
  ec_wall_now : Timestamp;
  ec_deadline : MonotonicDeadline;
  ec_operation_id : OperationId;
  ec_checkpoint : option bytes;
  ec_payload : bytes;
}.

Definition context_with_deadline (claim : ClaimedJob) (deadline : MonotonicDeadline) : option ExecutionContext :=
  let r := cj_record claim in
  if cj_authority_lost claim then None
  else match jr_state r, jr_attempts r with
  | Leased lease, Some attempts =>
      Some (mkExecutionContext (jr_job_id r) (jr_namespace r) (jr_execution_id r) (cj_attempt_id claim)
              (ah_attempts attempts) (jr_generation r) (ls_fence lease) (ls_token lease) (ls_owner lease)
              (jr_queue r) (ah_last_attempt_at attempts) deadline (cj_operation_id claim) (jr_checkpoint r)
              (cj_payload claim))
  | _, _ => None
  end.

Inductive ClaimLeasePolicy : Type := RegisteredTimeout | DriveBoundedNative.

(** What a handler's future does next: it ends, panics, awaits something of
    its own (and then sees whether it was cancelled), reads its context or
    saves a checkpoint. *)
Inductive handler_run : Type :=
  | HR_finish (r : result unit JobOutcome)
  | HR_panic
  | HR_yield (k : bool → handler_run)
  | HR_context (k : option ExecutionContext → handler_run)
  | HR_checkpoint (checkpoint : bytes) (k : bool → handler_run).

(** [JobHandler]; the call that creates the future may panic. *)
Record JobHandler : Type := mkJobHandler {
  hd_claim_lease_policy : ClaimLeasePolicy;
  hd_execute : ExecutionContext → bytes → option handler_run;
  hd_execute_checkpointed : bytes → option handler_run;
}.

(** The default body of [execute_checkpointed]. *)
Definition default_execute_checkpointed (execute : ExecutionContext → bytes → option handler_run) (payload : bytes)
    : option handler_run :=
  Some (HR_context (λ context,
    match context with
    | Some context => default HR_panic (execute context payload)
    | None => HR_finish (Err tt)
    end)).

Inductive HandlerExecution : Type :=
  | HX_Outcome (outcome : JobOutcome)
  | HX_Deadline.

Inductive HandlerBoundaryResult (A : Type) : Type :=
  | HB_Finished (a : A)
  | HB_Deadline
  | HB_WakeScheduler.
Arguments HB_Finished {A} a.
Arguments HB_Deadline {A}.
Arguments HB_WakeScheduler {A}.

(** [None] is a panic. *)
Definition handler_end : Type := option (result unit JobOutcome).

Inductive CandidateResult : Type :=
  | CN_Completed (completion : CompletionDetails)
  | CN_Continued (not_before : Timestamp)
  | CN_Retried (not_before : Timestamp)
  | CN_DeadLettered
  | CN_Cancelled
  | CN_Unregistered
  | CN_LeaseConflict
  | CN_Capacity
  | CN_Deadline.

Inductive ClaimFailure : Type := CF_DeadLettered | CF_LeaseConflict.

Section candidate.
Context {E : Type} (system : JobSystem) (handlers : JobKind → Z → JobHandler).

(** ** Attempts: [engine.rs] *)

Definition claim_authority_of (claim : ClaimedJob) : AttemptAuthority :=
  mkAttemptAuthority (jr_job_id (cj_record claim)) (cj_operation_id claim) (cj_fence_high_water claim)
    (cj_attempt_id claim).

Definition refresh_attempt_cancellation (authority : AttemptAuthority) : job E unit :=
  key ← try_ (cancellation_key (sys_namespace system) (aa_job_id authority));
  value ← store_get key;
  match value with
  | None => mret tt
  | Some value =>
      _ ← try_ (map_err (λ _, JSE_PayloadCorrupt) (validate_empty_marker value VT_Cancellation));
      ambient_ (ASignalRegistered authority)
  end.

(** Dropping an [AttemptRegistration] removes it. *)
Definition drop_registration {A} (authority : AttemptAuthority) (r : result (JobSystemError E) A) : job E A :=
  _ ← ambient_ (AUnregister authority);
  Ret r.

Definition register_execution (claim : ClaimedJob) : job E AttemptAuthority :=
  let authority := claim_authority_of claim in
  _ ← ambient_ (ARegister authority);
  prog_bind (refresh_attempt_cancellation authority) (λ refreshed,
    match refreshed with
    | Err e => drop_registration authority (Err e)
    | Ok _ =>
        shutdown ← ambient_ AShutdown;
        _ ← (if shutdown : bool then ambient_ ASignalActive else mret tt);
        mret authority
    end).

(** ** Checkpoints: [checkpoint.rs] *)

Definition checkpoint_context (clock : DriveClock) (finish_by : MonotonicDeadline) (claim : ClaimedJob)
    : job E ExecutionContext :=
  now ← wall_now clock;
  _ ← try_ (current_lease claim now);
  try_ (ok_or JSE_LeaseLost (context_with_deadline claim finish_by)).

Definition save_checkpoint (clock : DriveClock) (finish_by : MonotonicDeadline) (checkpoint : bytes)
    (claim : ClaimedJob) : prog E (ClaimedJob * bool) :=
  prog_bind (_ ← checkpoint_context clock finish_by claim; wall_now clock) (λ now,
    match now with
    | Err _ => Ret (claim, false)
    | Ok now =>
        prog_bind (Failure.checkpoint system claim checkpoint now) (λ '(claim, saved), Ret (claim, is_ok saved))
    end).

(** ** The boundary: [handler.rs] *)

(** The future of a handler, on the claim it was lent. *)
Fixpoint handler_future (clock : DriveClock) (finish_by : MonotonicDeadline) (h : handler_run) (claim : ClaimedJob)
    : prog E (ClaimedJob * handler_end) :=
  match h with
  | HR_finish r => Ret (claim, Some r)
  | HR_panic => Ret (claim, None)
  | HR_yield k =>
      prog_bind (trigger (OAmbient (ACancelled (cj_attempt_id claim))))
        (λ cancelled, handler_future clock finish_by (k cancelled) claim)
  | HR_context k =>
      prog_bind (checkpoint_context clock finish_by claim) (λ context,
        handler_future clock finish_by (k (match context with Ok context => Some context | Err _ => None end)) claim)
  | HR_checkpoint bs k =>
      prog_bind (save_checkpoint clock finish_by bs claim)
        (λ '(claim, saved), handler_future clock finish_by (k saved) claim)
  end.

(** The operations a future is pending at. *)
Definition awaits {X} (o : op E X) : bool :=
  match o with
  | OGet _ | OGetMany _ | OReadRange _ | OCommit _ => true
  | ORandom | OChoose => false
  | OAmbient a => match a with ACancelled _ => true | _ => false end
  end.

Definition deadline_reached (finish_by : MonotonicDeadline) : prog E bool :=
  prog_bind (trigger (OAmbient AMonotonicNow)) (λ now, Ret (MonotonicDeadline_is_at_or_before finish_by now)).

Definition unless_deadline {A} (finish_by : MonotonicDeadline) (rest : prog E (HandlerBoundaryResult A))
    : prog E (HandlerBoundaryResult A) :=
  prog_bind (deadline_reached finish_by) (λ reached, if reached : bool then Ret HB_Deadline else rest).

(** The future was pending or not; while it was, the deadline's timer may have
    fired or not been available, and the poll that resumes it checks the
    clock. *)
Definition pending {A} (finish_by : MonotonicDeadline) (rest : prog E (HandlerBoundaryResult A))
    : prog E (HandlerBoundaryResult A) :=
  Vis OChoose (λ pended : bool,
    if pended then
      Vis (OAmbient ATimer) (λ timer,
        match timer with
        | TM_elapsed => Ret HB_Deadline
        | TM_unavailable => Ret HB_WakeScheduler
        | TM_pending => unless_deadline finish_by rest
        end)
    else rest).

(** [HandlerBoundary] polled to its end: a future that is dropped at the
    deadline leaves what its operations did. *)
Fixpoint poll_handler {A} (finish_by : MonotonicDeadline) (future : prog E A) : prog E (HandlerBoundaryResult A) :=
  match future with
  | Ret a => unless_deadline finish_by (Ret (HB_Finished a))
  | Vis o k =>
      if awaits o
      then pending finish_by (Vis o (λ x, pending finish_by (poll_handler finish_by (k x))))
      else Vis o (λ x, poll_handler finish_by (k x))
  end.

Definition HandlerBoundary {A} (finish_by : MonotonicDeadline) (future : prog E A) : prog E (HandlerBoundaryResult A) :=
  unless_deadline finish_by (poll_handler finish_by future).

Definition handler_retry (value : string) : result (JobSystemError E) JobOutcome :=
  outcome_code ← map_err JSE_Validation (code value);
  Ok (Retry Transient None outcome_code).

Definition into_execution (claim : ClaimedJob) (r : HandlerBoundaryResult (ClaimedJob * handler_end))
    : result (JobSystemError E) (ClaimedJob * HandlerExecution) :=
  match r with
  | HB_Deadline => Ok (claim, HX_Deadline)
  | HB_WakeScheduler => Err JSE_WakeScheduler
  | HB_Finished (claim, Some (Ok outcome)) => Ok (claim, HX_Outcome outcome)
  | HB_Finished (claim, Some (Err _)) =>
      outcome ← handler_retry "handler_failed"; Ok (claim, HX_Outcome outcome)
  | HB_Finished (claim, None) =>
      outcome ← handler_retry "handler_panic"; Ok (claim, HX_Outcome outcome)
  end.

(** [execute_handler] with the future the context selects. *)
Definition execute_handler (clock : DriveClock) (finish_by : MonotonicDeadline) (future : option handler_run)
    (claim : ClaimedJob) : job E (ClaimedJob * HandlerExecution) :=
  match future with
  | None => outcome ← try_ (handler_retry "handler_panic"); mret (claim, HX_Outcome outcome)
  | Some h =>
      prog_bind (HandlerBoundary finish_by (handler_future clock finish_by h claim))
        (λ r, Ret (into_execution claim r))
  end.

(** [HandlerContext::Checkpointed]: no context, no execution. *)
Definition execute_checkpointed (clock : DriveClock) (finish_by : MonotonicDeadline) (handler : JobHandler)
    (payload : bytes) (claim : ClaimedJob) : job E (ClaimedJob * HandlerExecution) :=
  prog_bind (checkpoint_context clock finish_by claim) (λ context,
    match context with
    | Err _ => fail JSE_LeaseLost
    | Ok _ => execute_handler clock finish_by (hd_execute_checkpointed handler payload) claim
    end).

(** ** Claims executed by their holder: [execute_claimed] of [engine.rs] *)

Definition execute_claimed (claim : ClaimedJob) (now : Timestamp) : job E JobOutcome :=
  registration ← try_ (ok_or JSE_UnregisteredHandler
    (HandlerRegistry_get_ref (sys_registry system) (jr_kind (cj_record claim)) (jr_schema_version (cj_record claim))));
  lease ← try_ (current_lease claim now);
  clock ← DriveClock_new now;
  after ← deadline_after clock (hr_default_timeout registration);
  until ← try_ (deadline_at clock (ls_expires_at lease));
  let finish_by := Z.min after until in
  context ← try_ (ok_or JSE_LeaseLost (context_with_deadline claim finish_by));
  attempt ← register_execution claim;
  prog_bind
    (now ← wall_now clock;
     _ ← try_ (current_lease claim now);
     let handler := handlers (jr_kind (cj_record claim)) (jr_schema_version (cj_record claim)) in
     '(_, execution) ← execute_handler clock finish_by (hd_execute handler context (cj_payload claim)) claim;
     match execution with
     | HX_Outcome outcome => mret outcome
     | HX_Deadline =>
         outcome_code ← try_ (code "handler_deadline");
         mret (Retry Transient None outcome_code)
     end)
    (drop_registration attempt).

(** ** A candidate of a drive: [runner.rs] *)

Definition find_registration (candidate : Candidate) : option HandlerRegistration :=
  HandlerRegistry_get_ref (sys_registry system) (jr_kind (cd_record candidate)) (jr_schema_version (cd_record candidate)).

Definition claim_candidate (candidate : Candidate) (now : Timestamp) (capacity : Z) (deadline : option Timestamp)
    : job E (ClaimFailure + ClaimedJob) :=
  let route := if cd_route_is_due candidate then CR_Due (cd_key candidate) (cd_value candidate)
               else CR_ExpiredLease (cd_key candidate) (cd_value candidate) in
  claimed ← catch (claim_record_with_capacity system (cd_record candidate) (cd_encoded candidate) route now capacity deadline);
  match claimed with
  | Ok claimed => mret (inr claimed)
  | Err JSE_LeaseConflict => mret (inl CF_LeaseConflict)
  | Err JSE_PayloadCorrupt =>
      _ ← dead_letter_by_id system (jr_job_id (cd_record candidate)) now;
      mret (inl CF_DeadLettered)
  | Err e => fail e
  end.

(** Whether the candidate can have expired; a lease that ran out may have a
    cancellation to honour. *)
Definition can_expire (candidate : Candidate) (now : Timestamp) : job E bool :=
  let r := cd_record candidate in
  let expired :=
    is_some_and (λ expiry, expiry <=? now) (jr_expires_at r) || (jr_retention_deadline r <=? now) in
  match jr_state r with
  | Scheduled => mret expired
  | Leased lease =>
      if ls_expires_at lease <=? now then
        if expired || JobRecordV1_has_exhausted_attempts r then mret true
        else
          key ← try_ (cancellation_key (sys_namespace system) (jr_job_id r));
          value ← store_get key;
          mret (bool_decide (value ≠ None))
      else mret false
  | DeadLettered | Cancelled | Suspended => mret false
  end.

Definition precheck_candidate (request : DriveRequest) (candidate : Candidate) (now : Timestamp)
    : job E (option CandidateResult) :=
  let payload_check :=
    if dq_max_payload_bytes_in_flight request <? pm_total_length (jr_payload (cd_record candidate))
    then Some CN_Capacity else None in
  expires ← can_expire candidate now;
  if expires : bool then
    expiry ← expire_job system (jr_job_id (cd_record candidate)) now;
    mret (match expiry with
          | ER_Cancelled => Some CN_Cancelled
          | ER_DeadLettered => Some CN_DeadLettered
          | ER_LeaseExpired | ER_Unchanged => payload_check
          end)
  else mret payload_check.

Definition deadline_outcome (now : Timestamp) : result ValidationError JobOutcome :=
  outcome_code ← code "drive_deadline";
  Ok (Retry Transient (Some now) outcome_code).

Definition candidate_outcome (r : OutcomeResult) : CandidateResult :=
  match r with
  | OR_Completed completion => CN_Completed completion
  | OR_Continued not_before => CN_Continued not_before
  | OR_Retried _ not_before => CN_Retried not_before
  | OR_DeadLettered _ => CN_DeadLettered
  | OR_Cancelled => CN_Cancelled
  end.

Definition apply_candidate_outcome (claim : ClaimedJob) (outcome : JobOutcome) (now : Timestamp) : job E CandidateResult :=
  result ← apply_outcome system claim outcome now;
  mret (candidate_outcome result).

Definition execute_claim (handler : JobHandler) (finish_by : MonotonicDeadline) (clock : DriveClock)
    (claimed : ClaimedJob) : job E CandidateResult :=
  now ← wall_now clock;
  lease ← try_ (current_lease claimed now);
  until ← try_ (deadline_at clock (ls_expires_at lease));
  let finish_by := Z.min finish_by until in
  current ← clock_now clock;
  if MonotonicDeadline_is_at_or_before finish_by current then
    outcome ← try_ (deadline_outcome now);
    apply_candidate_outcome claimed outcome now
  else
    '(claimed, execution) ← execute_checkpointed clock finish_by handler (cj_payload claimed) claimed;
    match execution with
    | HX_Deadline => mret CN_Deadline
    | HX_Outcome outcome =>
        now ← wall_now clock;
        apply_candidate_outcome claimed outcome now
    end.

Definition process_candidate (request : DriveRequest) (candidate : Candidate) (clock : DriveClock)
    : job E CandidateResult :=
  now ← wall_now clock;
  checked ← precheck_candidate request candidate now;
  match checked with
  | Some result => mret result
  | None =>
      match find_registration candidate with
      | None => mret CN_Unregistered
      | Some _ =>
          let handler := handlers (jr_kind (cd_record candidate)) (jr_schema_version (cd_record candidate)) in
          current ← clock_now clock;
          if claim_deadline_reached request current
             || (MonotonicDeadline_remaining_until (dq_finish_by request) current =? 0)
          then mret CN_Deadline
          else
            deadline ← try_ (match hd_claim_lease_policy handler with
                             | RegisteredTimeout => Ok None
                             | DriveBoundedNative => until ← wall_at clock (dq_finish_by request); Ok (Some until)
                             end);
            now ← wall_now clock;
            claimed ← claim_candidate candidate now (dq_max_concurrency request) deadline;
            match claimed with
            | inl CF_DeadLettered => mret CN_DeadLettered
            | inl CF_LeaseConflict => mret CN_LeaseConflict
            | inr claimed =>
                attempt ← register_execution claimed;
                prog_bind (execute_claim handler (dq_finish_by request) clock claimed) (drop_registration attempt)
            end
      end
  end.
End candidate.

(** ** Accounting of results *)

Definition add_counts (claimed succeeded continued retried dead_lettered cancelled conflicts deferrals : Z)
    (c : DriveCounts) : DriveCounts :=
  mkDriveCounts (dc_claimed c + claimed) (dc_succeeded c + succeeded) (dc_continued c + continued)
    (dc_retried c + retried) (dc_dead_lettered c + dead_lettered) (dc_cancelled c + cancelled)
    (dc_lease_conflicts c + conflicts) (dc_capacity_deferrals c + deferrals) (dc_repair_actions c).

Definition count (f : DriveCounts → DriveCounts) (r : DriveReport) : DriveReport := set_dr_counts (f (dr_counts r)) r.

Definition record_completion (completion : CompletionDetails) (maximum : Z) (r : DriveReport) : DriveReport :=
  if len (dr_completions r) <? maximum
  then mkDriveReport (dr_counts r) (dr_completions r ++ [completion]) (dr_completions_omitted r)
         (dr_has_immediately_visible_work r) (dr_next_wake r) (dr_stop_reason r)
  else mkDriveReport (dr_counts r) (dr_completions r) (dr_completions_omitted r + 1)
         (dr_has_immediately_visible_work r) (dr_next_wake r) (dr_stop_reason r).

(** The flag tells the drive to stop starting candidates. *)
Definition apply_candidate_result (result : CandidateResult) (max_completion_details : Z) (report : DriveReport)
    : bool * DriveReport :=
  match result with
  | CN_Completed completion =>
      (false, record_completion completion max_completion_details (count (add_counts 1 1 0 0 0 0 0 0) report))
  | CN_Continued _ => (false, count (add_counts 1 0 1 0 0 0 0 0) report)
  | CN_Retried _ => (false, count (add_counts 1 0 0 1 0 0 0 0) report)
  | CN_DeadLettered => (false, count (add_counts 1 0 0 0 1 0 0 0) report)
  | CN_Cancelled => (false, count (add_counts 1 0 0 0 0 1 0 0) report)
  | CN_Unregistered => (false, report)
  | CN_LeaseConflict => (false, count (add_counts 0 0 0 0 0 0 1 0) report)
  | CN_Capacity => (true, set_dr_stop_reason Capacity (count (add_counts 0 0 0 0 0 0 0 1) report))
  | CN_Deadline => (true, set_dr_stop_reason Deadline report)
  end.
