(* ===== verification/DriveOwner.v ===== *)
(** * The owner of a drive

    The owner is loaded from and saved to one entry of the namespace, with a
    checked replacement of the value it was loaded from
    ([crates/bg-jobs/src/fairness/fairness_ledger/owner/persistence.rs]); a
    drive brings it up to date with its discovery and weighs it by the
    registered policies ([crates/bg-jobs/src/drive/scheduler/owner.rs]). *)

From stdpp Require Import sorting.
From S2P Require Import Prelude Errors Ids Clock Policy JobRecord Wire KeyCodec ValueCodec JobCodec Keyspace Store.
From S2P Require Import Prog System Transition Completion Ordered Fairness FairLedger FairSelect FairOwner FairCodec Budgets Discovery.

(** ** The entry of the owner *)

Section owner_store.
Context {E : Type} (system : JobSystem).

Definition load_value (key : StoreKey) : job E (option bytes) := store_get key.

Definition FairDispatchOwner_load : job E (option FairDispatchOwner) :=
  key ← try_ (fair_state_key (sys_namespace system));
  encoded ← load_value key;
  match encoded with
  | None => mret None
  | Some encoded => owner ← try_ (load_encoded encoded); mret (Some owner)
  end.

Definition build_save_transaction (key : StoreKey) (expected_old : option bytes) (value : bytes)
    : job E StoreTransaction :=
  let checks := match expected_old with
                | Some expected => [Value key expected]
                | None => [Absent key]
                end in
  checked_transaction system checks [Put key value].

(** The checked replacement of the stored value. *)
Definition save_value (owner : FairDispatchOwner) : job E bytes :=
  key ← try_ (fair_state_key (sys_namespace system));
  value ← try_ (encode_value owner);
  let expected_old := ow_loaded_value owner in
  transaction ← build_save_transaction key expected_old value;
  _ ← commit_transition system transaction key expected_old (Some value) TC_LeaseConflict;
  mret value.

(** [FairDispatchOwner::save]; the compaction stays with the owner whatever
    the rest returns. *)
Definition FairDispatchOwner_save (owner : FairDispatchOwner) : prog E (result (JobSystemError E) unit * FairDispatchOwner) :=
  let owner := compact_terminal_candidates owner in
  prog_bind (save_value owner) (λ saved,
    Ret match saved with
        | Ok value => (Ok tt, set_ow_loaded_value (Some value) owner)
        | Err e => (Err e, owner)
        end).
End owner_store.

(** ** Discovered candidates *)

Definition insert_discovered (discovered : list Candidate) (candidates : gmap JobId Candidate) : gmap JobId Candidate :=
  foldl (λ candidates candidate,
    let job_id := jr_job_id (cd_record candidate) in
    match candidates !! job_id with
    | Some _ => candidates
    | None => <[job_id := candidate]> candidates
    end) candidates discovered.

(** The comparison of [ordered_candidates]; [false] sorts before [true]. *)
Definition sort_key (c : Candidate) : option OrderingKey * (Z * (Timestamp * JobId)) :=
  (jr_ordering_key (cd_record c), (Z.b2z (cd_route_is_due c), (cd_when c, jr_job_id (cd_record c)))).

Definition candidate_le (a b : Candidate) : Prop := key_ltb (sort_key b) (sort_key a) = false.
#[export] Instance candidate_le_dec : RelDecision candidate_le.
Proof. intros a b. unfold candidate_le. apply _. Defined.

Definition ordered_candidates (candidates : gmap JobId Candidate) : list Candidate :=
  merge_sort candidate_le (btree candidates).*2.

Definition candidate_input (c : Candidate) : FairCandidateInput :=
  let r := cd_record c in
  mkFairCandidateInput (jr_job_id r) (jr_fairness r) (jr_priority r) (ps_cost_units (jr_policy r)) (cd_when c)
    (pm_total_length (jr_payload r)) (jr_ordering_key r) 0 None.

Section drive_owner.
Context {E : Type} (system : JobSystem) (request : DriveRequest).

(** ** The owner *)

Definition drive_fairness_budget : FairnessBudget :=
  mkFairnessBudget (dq_max_claims request) (dq_max_concurrency request) (dq_max_claims request) 1
    (dq_max_payload_bytes_in_flight request) MAX_COST_UNITS.

Definition load_owner : job E FairDispatchOwner :=
  budget ← try_ (FairnessBudget_try_new drive_fairness_budget);
  owner ← FairDispatchOwner_load system;
  match owner with
  | Some owner => mret owner
  | None => try_ (FairDispatchOwner_try_new budget)
  end.

Definition build_owner (candidates : gmap JobId Candidate) : job E FairDispatchOwner :=
  owner ← load_owner;
  let '(registered, owner) :=
    ensure_discovered_candidates
      ((λ c, (candidate_input c, FairCandidateMetadata_for_record (cd_record c))) <$> ordered_candidates candidates)
      owner in
  _ ← try_ registered;
  mret owner.

Definition owner_candidate_is_selected (owner : FairDispatchOwner) (job_id : JobId) : bool :=
  match ow_metadata owner !! job_id with
  | None => false
  | Some metadata =>
      match HandlerRegistry_get_ref (sys_registry system) (md_handler_kind metadata) (md_schema_version metadata) with
      | None => false
      | Some registration => queue_selected request (hr_queue registration)
      end
  end.

Definition stale_candidates (owner : FairDispatchOwner) (candidates : gmap JobId Candidate) : list JobId :=
  List.filter (λ job_id, bool_decide (candidates !! job_id = None) && owner_candidate_is_selected owner job_id)
    (candidate_ids owner).

Definition remove_undiscovered_candidates (owner : FairDispatchOwner) (candidates : gmap JobId Candidate)
    : FairDispatchOwner :=
  foldl (λ owner job_id, owner_remove_candidate job_id owner) owner (stale_candidates owner candidates).

(** ** Weights *)

(** The weight a registration gives to the scope of a candidate. *)
Definition registered_weight (metadata : FairCandidateMetadata) : option Z :=
  registration ← HandlerRegistry_get_ref (sys_registry system) (md_handler_kind metadata) (md_schema_version metadata);
  match hr_fairness_policy registration with FP_Scoped weight => Some weight | FP_LowVolume => None end.

Definition insert_weight (scope key : FairScope) (weight : Z) (acc : gmap FairScope Z * gset FairScope)
    : gmap FairScope Z * gset FairScope :=
  let '(weights, conflicts) := acc in
  (<[key := weight]> weights,
   match weights !! key with
   | Some previous => if previous =? weight then conflicts else {[FairScope_primary_scope scope]} ∪ conflicts
   | None => conflicts
   end).

Definition collect_weight (acc : gmap FairScope Z * gset FairScope) (e : FairScope * FairCandidateMetadata)
    : gmap FairScope Z * gset FairScope :=
  let '(scope, metadata) := e in
  match registered_weight metadata with
  | None => acc
  | Some weight => insert_weight scope (FairScope_primary_scope scope) weight (insert_weight scope scope weight acc)
  end.

Definition apply_registration_weights (owner : FairDispatchOwner) : gset FairScope * FairDispatchOwner :=
  let '(weights, conflicts) := foldl collect_weight (∅, ∅) (active_registrations owner) in
  (conflicts,
   foldl (λ owner e, if bool_decide (FairScope_primary_scope e.1 ∈ conflicts) then owner
                     else (owner_set_scope_weight e.1 e.2 owner).2) owner (btree weights)).

(** [candidates.retain(...)]. *)
Definition retain_unconflicted (conflicts : gset FairScope) (candidates : gmap JobId Candidate) : gmap JobId Candidate :=
  filter (λ e, FairScope_primary_scope (FairScope_from (jr_fairness (cd_record e.2))) ∉ conflicts) candidates.

Definition prepare_owner (discovery : Discovery) (operation_budget : Z)
    : job E (option (FairDispatchOwner * gmap JobId Candidate) * Z) :=
  match reserve OWNER_LOAD_STORE_OPERATIONS operation_budget with
  | None => mret (None, operation_budget)
  | Some operation_budget =>
      if negb (len (ds_candidates discovery) =? 0) && (operation_budget <? CANDIDATE_WORST_CASE_STORE_OPERATIONS)
      then mret (None, operation_budget)
      else
        let candidates := insert_discovered (ds_candidates discovery) ∅ in
        owner ← build_owner candidates;
        let owner := match ds_stop_reason discovery with
                     | None => remove_undiscovered_candidates owner candidates
                     | Some _ => owner
                     end in
        let '(conflicts, owner) := apply_registration_weights owner in
        mret (Some (owner, retain_unconflicted conflicts candidates), operation_budget)
  end.
End drive_owner.
