(* ===== verification/Scheduler.v ===== *)
(** * The scheduler of a drive

    [crates/bg-jobs/src/drive/scheduler]: reservations against the owner and
    the store-operation allowance ([reservation.rs]), results applied in the
    order of their claims ([completion.rs]), the futures in flight and the
    shutdown of a drive ([shutdown.rs]), and the loop that starts candidates
    and settles them ([runner.rs]).

    The loop is written in a state and error monad on [SchedulerLoop].  The
    futures in flight are programs: a poll advances any one of them by an
    operation, so their operations interleave in every order. *)

From S2P Require Import Prelude Errors Ids Clock Policy JobRecord Wire KeyCodec ValueCodec JobCodec Keyspace Store.
From S2P Require Import Prog System Transition Permits Claim Completion Failure Ordered Fairness FairLedger FairSelect FairOwner FairCodec.
From S2P Require Import Budgets Discovery Candidate DriveOwner.

(** ** State *)

Record CompletedCandidate (E : Type) : Type := mkCompletedCandidate {
  cc_order : nat;
  cc_payload_bytes : Z;
  cc_result : result (JobSystemError E) CandidateResult;
}.
Arguments mkCompletedCandidate {E} _ _ _.
Arguments cc_order {E} _.
Arguments cc_payload_bytes {E} _.
Arguments cc_result {E} _.

Record InFlightCandidate (E : Type) : Type := mkInFlightCandidate {
  if_order : nat;
  if_payload_bytes : Z;
  if_permit : FairPermit;
  if_future : job E CandidateResult;
}.
Arguments mkInFlightCandidate {E} _ _ _ _.
Arguments if_order {E} _.
Arguments if_payload_bytes {E} _.
Arguments if_permit {E} _.
Arguments if_future {E} _.

Definition set_if_future {E} (v : job E CandidateResult) (f : InFlightCandidate E) : InFlightCandidate E :=
  mkInFlightCandidate (if_order f) (if_payload_bytes f) (if_permit f) v.

Record CompletionBookkeeping (E : Type) : Type := mkCompletionBookkeeping {
  cb_completed : list (option (CompletedCandidate E));
  cb_next_apply : nat;
  cb_next_order : nat;
  cb_reserved_claims : Z;
  cb_future_wake : option Timestamp;
  cb_stop_starting : bool;
}.
Arguments mkCompletionBookkeeping {E} _ _ _ _ _ _.
Arguments cb_completed {E} _.
Arguments cb_next_apply {E} _.
Arguments cb_next_order {E} _.
Arguments cb_reserved_claims {E} _.
Arguments cb_future_wake {E} _.
Arguments cb_stop_starting {E} _.

(** The grace timer of a shutdown is an input of its poll. *)
Record ShutdownController : Type := mkShutdownController { sc_requested : bool; sc_signaled : bool }.

Record SchedulerLoop (E : Type) : Type := mkSchedulerLoop {
  sl_owner : FairDispatchOwner;
  sl_candidates : gmap JobId Candidate;
  sl_eligible_ids : gset JobId;
  sl_operation_budget : Z;
  sl_report : DriveReport;
  sl_completion : CompletionBookkeeping E;
  sl_active : list (InFlightCandidate E);
  sl_active_payload_bytes : Z;
  sl_shutdown : ShutdownController;
}.
Arguments mkSchedulerLoop {E} _ _ _ _ _ _ _ _ _.
Arguments sl_owner {E} _.
Arguments sl_candidates {E} _.
Arguments sl_eligible_ids {E} _.
Arguments sl_operation_budget {E} _.
Arguments sl_report {E} _.
Arguments sl_completion {E} _.
Arguments sl_active {E} _.
Arguments sl_active_payload_bytes {E} _.
Arguments sl_shutdown {E} _.

Section setters.
Context {E : Type}.
Implicit Types s : SchedulerLoop E.
Implicit Types b : CompletionBookkeeping E.

Definition set_owner (v : FairDispatchOwner) s : SchedulerLoop E :=
  mkSchedulerLoop v (sl_candidates s) (sl_eligible_ids s) (sl_operation_budget s) (sl_report s) (sl_completion s)
    (sl_active s) (sl_active_payload_bytes s) (sl_shutdown s).
Definition set_operation_budget (v : Z) s : SchedulerLoop E :=
  mkSchedulerLoop (sl_owner s) (sl_candidates s) (sl_eligible_ids s) v (sl_report s) (sl_completion s)
    (sl_active s) (sl_active_payload_bytes s) (sl_shutdown s).
Definition set_report (v : DriveReport) s : SchedulerLoop E :=
  mkSchedulerLoop (sl_owner s) (sl_candidates s) (sl_eligible_ids s) (sl_operation_budget s) v (sl_completion s)
    (sl_active s) (sl_active_payload_bytes s) (sl_shutdown s).
Definition set_completion (v : CompletionBookkeeping E) s : SchedulerLoop E :=
  mkSchedulerLoop (sl_owner s) (sl_candidates s) (sl_eligible_ids s) (sl_operation_budget s) (sl_report s) v
    (sl_active s) (sl_active_payload_bytes s) (sl_shutdown s).
Definition set_active (v : list (InFlightCandidate E)) s : SchedulerLoop E :=
  mkSchedulerLoop (sl_owner s) (sl_candidates s) (sl_eligible_ids s) (sl_operation_budget s) (sl_report s)
    (sl_completion s) v (sl_active_payload_bytes s) (sl_shutdown s).
Definition set_active_payload_bytes (v : Z) s : SchedulerLoop E :=
  mkSchedulerLoop (sl_owner s) (sl_candidates s) (sl_eligible_ids s) (sl_operation_budget s) (sl_report s)
    (sl_completion s) (sl_active s) v (sl_shutdown s).
Definition set_shutdown (v : ShutdownController) s : SchedulerLoop E :=
  mkSchedulerLoop (sl_owner s) (sl_candidates s) (sl_eligible_ids s) (sl_operation_budget s) (sl_report s)
    (sl_completion s) (sl_active s) (sl_active_payload_bytes s) v.

Definition set_stop_starting (v : bool) b : CompletionBookkeeping E :=
  mkCompletionBookkeeping (cb_completed b) (cb_next_apply b) (cb_next_order b) (cb_reserved_claims b)
    (cb_future_wake b) v.
Definition set_reserved_claims (v : Z) b : CompletionBookkeeping E :=
  mkCompletionBookkeeping (cb_completed b) (cb_next_apply b) (cb_next_order b) v (cb_future_wake b)
    (cb_stop_starting b).
Definition set_future_wake (v : option Timestamp) b : CompletionBookkeeping E :=
  mkCompletionBookkeeping (cb_completed b) (cb_next_apply b) (cb_next_order b) (cb_reserved_claims b) v
    (cb_stop_starting b).
Definition stop_starting s : SchedulerLoop E := set_completion (set_stop_starting true (sl_completion s)) s.
Definition stop_with (reason : DriveStopReason) s : SchedulerLoop E :=
  set_report (set_dr_stop_reason reason (sl_report s)) s.
End setters.

(** ** The monad: [&mut self] and [JobResult] *)

Definition sched (E A : Type) : Type :=
  SchedulerLoop E → prog E (result (JobSystemError E) A * SchedulerLoop E).

#[export] Instance sched_ret E : MRet (sched E) := λ A a s, Ret (Ok a, s).
#[export] Instance sched_bind E : MBind (sched E) :=
  λ A B k m s, prog_bind (m s) (λ '(r, s), match r with Ok a => k a s | Err e => Ret (Err e, s) end).

Definition get {E} : sched E (SchedulerLoop E) := λ s, Ret (Ok s, s).
Definition modify {E} (f : SchedulerLoop E → SchedulerLoop E) : sched E unit := λ s, Ret (Ok tt, f s).
Definition lift_job {E A} (p : job E A) : sched E A := λ s, prog_bind p (λ r, Ret (r, s)).
Definition raise {E A} (e : JobSystemError E) : sched E A := λ s, Ret (Err e, s).
(** The result of a fallible step as a value. *)
Definition attempt {E A} (m : sched E A) : sched E (result (JobSystemError E) A) :=
  λ s, prog_bind (m s) (λ '(r, s), Ret (Ok r, s)).

(** ** Results in the order of the claims: [completion.rs] *)

Section completion.
Context {E : Type}.

Definition CompletionBookkeeping_new (stop_starting : bool) : CompletionBookkeeping E :=
  mkCompletionBookkeeping [] 0 0 0 None stop_starting.

Definition reserve_claim (b : CompletionBookkeeping E) : nat * CompletionBookkeeping E :=
  (cb_next_order b,
   mkCompletionBookkeeping (cb_completed b ++ [None]) (cb_next_apply b) (S (cb_next_order b))
     (saturating_add U32_MAX (cb_reserved_claims b) 1) (cb_future_wake b) (cb_stop_starting b)).

(** [let _ = owner.release(..)]. *)
Definition release_permit (permit : FairPermit) (outcome : FairRelease) (owner : FairDispatchOwner) : FairDispatchOwner :=
  match owner_release permit outcome owner with Ok owner => owner | Err _ => owner end.

Definition settle_ledger_result (permit : FairPermit) (result : result (JobSystemError E) CandidateResult)
    (owner : FairDispatchOwner) : FairDispatchOwner :=
  let job_id := pm_job_id permit in
  let serve owner := (owner_record_service_units job_id (pm_cost_units permit) owner).2 in
  match result with
  | Err _ => release_permit permit RL_Retry owner
  | Ok (CN_Completed _ | CN_DeadLettered | CN_Cancelled) => release_permit permit RL_Complete (serve owner)
  | Ok (CN_Continued not_before | CN_Retried not_before) =>
      owner_defer_candidate job_id not_before (release_permit permit RL_Retry (serve owner))
  | Ok (CN_LeaseConflict | CN_Unregistered) =>
      owner_remove_candidate job_id (release_permit permit RL_Conflict owner)
  | Ok (CN_Capacity | CN_Deadline) => release_permit permit RL_Retry owner
  end.

Definition settle (completed : CompletedCandidate E) (permit : FairPermit) (s : SchedulerLoop E) : SchedulerLoop E :=
  let b := sl_completion s in
  let b := mkCompletionBookkeeping (<[cc_order completed := Some completed]> (cb_completed b)) (cb_next_apply b)
             (cb_next_order b) (cb_reserved_claims b) (cb_future_wake b)
             (cb_stop_starting b || negb (is_ok (cc_result completed))) in
  set_completion b
    (set_active_payload_bytes (saturating_sub (sl_active_payload_bytes s) (cc_payload_bytes completed))
       (set_owner (settle_ledger_result permit (cc_result completed) (sl_owner s)) s)).

Definition pending_at (result : CandidateResult) (now : Timestamp) : option Timestamp :=
  match result with
  | CN_Completed _ | CN_DeadLettered | CN_Cancelled => None
  | CN_Continued not_before | CN_Retried not_before => Some not_before
  | CN_LeaseConflict | CN_Unregistered | CN_Capacity | CN_Deadline => Some now
  end.

(** One result of [apply]. *)
Definition apply_one (result : CandidateResult) (now : Timestamp) (max_completion_details : Z)
    (b : CompletionBookkeeping E) (report : DriveReport) : CompletionBookkeeping E * DriveReport :=
  let b := match pending_at result now with
           | Some t => set_future_wake (Some (match cb_future_wake b with None => t | Some current => Z.min current t end)) b
           | None => b
           end in
  let '(stop, report) := apply_candidate_result result max_completion_details report in
  (if stop : bool then set_stop_starting true b else b, report).

(** The loop of [apply]; every round takes a result, so [fuel] is the number
    of results. *)
Fixpoint apply_results (fuel : nat) (now : Timestamp) (max_completion_details : Z) (b : CompletionBookkeeping E)
    (report : DriveReport) : result (JobSystemError E) unit * CompletionBookkeeping E * DriveReport :=
  match fuel, cb_completed b !! cb_next_apply b with
  | S fuel, Some (Some completed) =>
      let b := mkCompletionBookkeeping (<[cb_next_apply b := None]> (cb_completed b)) (S (cb_next_apply b))
                 (cb_next_order b) (saturating_sub (cb_reserved_claims b) 1) (cb_future_wake b) (cb_stop_starting b) in
      match cc_result completed with
      | Err e => (Err e, b, report)
      | Ok result =>
          let '(b, report) := apply_one result now max_completion_details b report in
          apply_results fuel now max_completion_details b report
      end
  | _, _ => (Ok tt, b, report)
  end.

Definition apply_completed (now : Timestamp) (max_completion_details : Z) : sched E unit :=
  λ s, let '(r, b, report) :=
         apply_results (length (cb_completed (sl_completion s))) now max_completion_details (sl_completion s) (sl_report s) in
       Ret (r, set_report report (set_completion b s)).

Definition finish_report (request : DriveRequest) (report : DriveReport) (next_wake : WakeHint) : job E DriveReport :=
  let visible := WakeHint_is_now next_wake in
  shutdown ← ambient_ AShutdown;
  mret (mkDriveReport (dr_counts report) (dr_completions report) (dr_completions_omitted report) visible next_wake
    (if shutdown : bool then Shutdown
     else if dq_max_claims request <=? dc_claimed (dr_counts report) then ClaimsExhausted
     else if bool_decide (dr_stop_reason report = NoVisibleWork) && visible then Capacity
     else dr_stop_reason report)).

Definition empty_report : DriveReport := mkDriveReport DriveCounts_default [] 0 false WH_None NoVisibleWork.
End completion.

(** ** Reservations: [reservation.rs] *)

Inductive CandidateStartStatus : Type :=
  | CS_Idle
  | CS_Conflict
  | CS_Stop (reason : DriveStopReason).

Record ReservedCandidate : Type := mkReservedCandidate {
  rc_permit : FairPermit;
  rc_candidate : Candidate;
  rc_payload_bytes : Z;
}.

(** A lease that ran out. *)
Definition lease_expired (now : Timestamp) (candidate : Candidate) : bool :=
  match jr_state (cd_record candidate) with Leased lease => ls_expires_at lease <=? now | _ => false end.

Section reservation.
Context {E : Type} (system : JobSystem) (request : DriveRequest).

Definition candidate_ready (now : Timestamp) (candidate : Candidate) : bool :=
  match jr_state (cd_record candidate) with
  | Scheduled | DeadLettered | Cancelled | Suspended => true
  | Leased lease => ls_expires_at lease <=? now
  end.

Definition reconcile_ready_candidates (now : Timestamp) (candidates : gmap JobId Candidate) (owner : FairDispatchOwner)
    : FairDispatchOwner :=
  foldl (λ owner candidate,
    if candidate_ready now candidate
    then (reconcile_leased_candidate (jr_job_id (cd_record candidate)) (cd_when candidate) owner).2
    else owner) owner (btree candidates).*2.

Definition eligible_now (now : Timestamp) (s : SchedulerLoop E) : gset JobId :=
  let recovering : gset JobId :=
    filter (λ id, is_some_and (lease_expired now) (sl_candidates s !! id)) (sl_eligible_ids s) in
  if bool_decide (recovering = ∅) then sl_eligible_ids s else recovering.

(** The selection never runs out of its fuel ([FairSearch]). *)
Definition select_candidate (now : Timestamp) : sched E (CandidateStartStatus + FairPermit * Candidate) :=
  s ← get;
  match owner_select_next_due_in now (eligible_now now s) (sl_owner s) with
  | None => mret (inl (CS_Stop Capacity))
  | Some (selected, owner) =>
      _ ← modify (set_owner owner);
      match selected with
      | Err _ => mret (inl (CS_Stop Capacity))
      | Ok None => mret (inl CS_Idle)
      | Ok (Some permit) =>
          match sl_candidates s !! pm_job_id permit with
          | None => raise JSE_PayloadCorrupt
          | Some candidate => mret (inr (permit, candidate))
          end
      end
  end.

Definition candidate_operation_bound (now : Timestamp) (candidate : Candidate) : result (JobSystemError E) Z :=
  let permit_capacity := if cd_route_is_due candidate then dq_max_concurrency request else MAX_DURABLE_PERMIT_SLOTS in
  permit_reads ← data (permit_read_operation_bound system (cd_record candidate) permit_capacity);
  permit_reads ← ok_or JSE_PayloadCorrupt permit_reads;
  let operations :=
    saturating_add U32_MAX CANDIDATE_WORST_CASE_STORE_OPERATIONS (saturating_sub permit_reads 1) in
  Ok (if lease_expired now candidate then saturating_add U32_MAX operations CANCELLATION_READ_STORE_OPERATIONS
      else operations).

Definition give_back (permit : FairPermit) : sched E unit :=
  modify (λ s, set_owner (release_permit permit RL_Retry (sl_owner s)) s).

Definition save_reservation (permit : FairPermit) : sched E (CandidateStartStatus + FairPermit) :=
  λ s, prog_bind (FairDispatchOwner_save system (sl_owner s)) (λ '(saved, owner),
    let s := set_owner owner s in
    match saved with
    | Ok _ => Ret (Ok (inr permit), s)
    | Err e =>
        let s := set_owner (release_permit permit RL_Retry (sl_owner s)) s in
        Ret (match e with JSE_LeaseConflict => Ok (inl CS_Conflict) | e => Err e end, s)
    end).

Definition reserve_next (now : Timestamp) : sched E (CandidateStartStatus + ReservedCandidate) :=
  _ ← modify (λ s, set_owner (reconcile_ready_candidates now (sl_candidates s) (sl_owner s)) s);
  selected ← select_candidate now;
  match selected with
  | inl status => mret (inl status)
  | inr (permit, candidate) =>
      s ← get;
      let payload_bytes := pm_total_length (jr_payload (cd_record candidate)) in
      if (dq_max_payload_bytes_in_flight request <? saturating_add USIZE_MAX (sl_active_payload_bytes s) payload_bytes)
         && negb (len (sl_active s) =? 0)
      then _ ← give_back permit; mret (inl CS_Idle)
      else
        operations ← lift_job (try_ (candidate_operation_bound now candidate));
        match reserve (saturating_add U32_MAX OWNER_SAVE_WORST_CASE_STORE_OPERATIONS operations) (sl_operation_budget s) with
        | None => _ ← give_back permit; mret (inl (CS_Stop Capacity))
        | Some operation_budget =>
            _ ← modify (set_operation_budget operation_budget);
            saved ← save_reservation permit;
            mret (match saved with
                  | inl status => inl status
                  | inr permit => inr (mkReservedCandidate permit candidate payload_bytes)
                  end)
        end
  end.
End reservation.

(** ** Futures in flight: [shutdown.rs] *)

Section in_flight.
Context {E : Type}.
Implicit Types active : list (InFlightCandidate E).

Definition ShutdownController_new : ShutdownController := mkShutdownController false false.

Definition request_shutdown (c : ShutdownController) : prog E ShutdownController :=
  if sc_signaled c then Ret (mkShutdownController true true)
  else prog_bind (trigger (OAmbient ASignalActive)) (λ _, Ret (mkShutdownController true true)).

(** A program after its first operation. *)
Definition successor {A} (p' p : prog E A) : Prop :=
  match p with Ret _ => False | Vis o k => ∃ x, p' = k x end.

(** One of the futures advanced by an operation. *)
Inductive advances : list (InFlightCandidate E) → list (InFlightCandidate E) → Prop :=
  | advances_at active i f p :
      active !! i = Some f → successor p (if_future f) → advances (<[i := set_if_future p f]> active) active.

Lemma advances_cons active f : Acc advances active → Acc advances (f :: active).
Proof.
  intros Ha. destruct f as [order bytes permit p]. revert active Ha.
  induction p as [r|X o k IHp]; intros active Ha; induction Ha as [active Ha IH]; constructor; intros active' Hs;
    inversion Hs as [a i f p Hl Hp]; subst; destruct i as [|i]; cbn in *.
  - injection Hl as <-. destruct Hp.
  - apply IH. by apply advances_at.
  - injection Hl as <-. destruct Hp as [x ->]. apply IHp. by constructor.
  - apply IH. by apply advances_at.
Qed.

Lemma advances_wf : well_founded advances.
Proof.
  intros active. induction active as [|f active IH]; [|by apply advances_cons].
  constructor. intros active' Hs. inversion Hs as [a i f p Hl Hp]. by rewrite lookup_nil in Hl.
Qed.

(** [Vec::swap_remove]. *)
Definition swap_remove {A} (i : nat) (l : list A) : list A :=
  match last l with
  | Some a => take (length l - 1) (<[i := a]> l)
  | None => []
  end.

Definition SHUTDOWN_GRACE : Duration := from_millis 50.

(** What a poll of the drive ends with: a candidate that is done, or the end
    of the shutdown's grace, or no timer for it. *)
Inductive ShutdownPoll : Type :=
  | SP_Completed (completed : CompletedCandidate E) (permit : FairPermit)
  | SP_GraceElapsed
  | SP_WakeScheduler.

(** [ShutdownController::poll] until it is ready.  A poll sees whether the
    system shuts down; then a future that is done is taken from the set, or
    one advances by an operation; under a shutdown the grace timer may end the
    wait instead. *)
Fixpoint poll_in_flight active (H : Acc advances active) (shutdown : ShutdownController) {struct H}
    : prog E (ShutdownPoll * list (InFlightCandidate E) * ShutdownController) :=
  Vis (OAmbient AShutdown) (λ down : bool,
    prog_bind (if down then request_shutdown shutdown else Ret shutdown) (λ shutdown,
      prog_bind (if down then trigger (OAmbient ATimer) else Ret TM_pending) (λ timer,
        match timer with
        | TM_elapsed => Ret (SP_GraceElapsed, active, shutdown)
        | TM_unavailable => Ret (SP_WakeScheduler, active, shutdown)
        | TM_pending =>
            Vis (OAmbient ANextReady) (λ next : nat,
              let i := (next mod length active)%nat in
              match active !! i as found return active !! i = found → _ with
              | None => λ _, Ret (SP_GraceElapsed, active, shutdown)
              | Some f => λ Hf,
                  match if_future f as p
                    return (∀ p', successor p' p → successor p' (if_future f)) → _ with
                  | Ret result => λ _,
                      Ret (SP_Completed (mkCompletedCandidate (if_order f) (if_payload_bytes f) result) (if_permit f),
                           swap_remove i active, shutdown)
                  | Vis o k => λ Hp,
                      Vis o (λ x, poll_in_flight (<[i := set_if_future (k x) f]> active)
                                    (Acc_inv H (advances_at active i f (k x) Hf (Hp _ (ex_intro _ x eq_refl)))) shutdown)
                  end (λ _ Hs, Hs)
              end eq_refl)
        end))).

(** The proof of termination, behind enough constructors to compute. *)
Definition advances_acc active : Acc advances active := Acc_intro_generator 20 advances_wf active.

Definition drain (s : SchedulerLoop E) : Z * SchedulerLoop E :=
  (len (sl_active s),
   set_active [] (set_owner (foldl (λ owner f, release_permit (if_permit f) RL_Retry owner) (sl_owner s) (sl_active s)) s)).
End in_flight.

(** ** The loop: [runner.rs] *)

Section scheduler.
Context {E : Type} (system : JobSystem) (handlers : JobKind → Z → JobHandler).
Context (request : DriveRequest) (clock : DriveClock).

Definition request_shutdown_ : sched E unit :=
  λ s, prog_bind (request_shutdown (sl_shutdown s)) (λ shutdown, Ret (Ok tt, set_shutdown shutdown s)).

Definition should_stop_starting : sched E bool :=
  down ← lift_job (ambient_ AShutdown);
  if down : bool then
    _ ← modify (λ s, stop_starting (stop_with Shutdown s));
    _ ← request_shutdown_;
    mret true
  else
    s ← get;
    mret (dq_max_claims request <=?
          saturating_add U32_MAX (dc_claimed (dr_counts (sl_report s))) (cb_reserved_claims (sl_completion s))).

Definition start_candidate (reservation : ReservedCandidate) (s : SchedulerLoop E) : SchedulerLoop E :=
  let candidate := rc_candidate reservation in
  let job_id := jr_job_id (cd_record candidate) in
  let '(order, completion) := reserve_claim (sl_completion s) in
  mkSchedulerLoop (sl_owner s) (delete job_id (sl_candidates s)) (sl_eligible_ids s ∖ {[job_id]})
    (sl_operation_budget s) (sl_report s) completion
    (sl_active s ++ [mkInFlightCandidate order (rc_payload_bytes reservation) (rc_permit reservation)
                       (process_candidate system handlers request candidate clock)])
    (saturating_add USIZE_MAX (sl_active_payload_bytes s) (rc_payload_bytes reservation)) (sl_shutdown s).

Definition record_start_status (status : CandidateStartStatus) (s : SchedulerLoop E) : SchedulerLoop E :=
  match status with
  | CS_Idle => s
  | CS_Conflict => stop_starting (set_report (count (add_counts 0 0 0 0 0 0 1 0) (sl_report s)) s)
  | CS_Stop reason => stop_starting (stop_with reason s)
  end.

(** The loop of [start_available]: it runs while a lane is free, and every
    round fills one, so [lanes] is the number of free lanes. *)
Fixpoint start_lanes (lanes : nat) : sched E bool :=
  match lanes with
  | O => mret false
  | S lanes =>
      s ← get;
      if cb_stop_starting (sl_completion s) then mret false
      else
        stop ← should_stop_starting;
        if stop : bool then mret false
        else
          now ← lift_job (wall_now clock);
          start ← reserve_next system request now;
          match start with
          | inr reservation => _ ← modify (start_candidate reservation); start_lanes lanes
          | inl status => _ ← modify (record_start_status status); mret true
          end
  end.

Definition start_available : sched E bool :=
  s ← get;
  start_lanes (Z.to_nat (dq_max_concurrency request - len (sl_active s))).

Definition advance_candidates : sched E bool :=
  selection_idle ← start_available;
  now ← lift_job (wall_now clock);
  _ ← apply_completed now (dq_max_completion_details request);
  mret selection_idle.

(** [completion.reserved_claims.saturating_sub(drained)]. *)
Definition drain_active (s : SchedulerLoop E) : SchedulerLoop E :=
  let '(drained, s) := drain s in
  set_completion (set_reserved_claims (saturating_sub (cb_reserved_claims (sl_completion s)) drained) (sl_completion s)) s.

Definition poll_active : sched E (option (CompletedCandidate E * FairPermit)) :=
  λ s, prog_bind (poll_in_flight (sl_active s) (advances_acc (sl_active s)) (sl_shutdown s)) (λ '(polled, active, shutdown),
    let s := set_shutdown shutdown (set_active active s) in
    Ret match polled with
        | SP_Completed completed permit => (Ok (Some (completed, permit)), s)
        | SP_GraceElapsed => (Ok None, s)
        | SP_WakeScheduler => (Err JSE_WakeScheduler, drain_active s)
        end).

Definition finish_shutdown (s : SchedulerLoop E) : SchedulerLoop E :=
  let s := drain_active (stop_with Shutdown s) in
  set_completion (set_future_wake None (sl_completion s)) s.

(** What a round of the loop decides. *)
Inductive round : Type := RD_break | RD_continue.

Definition loop_round : sched E (round * option (JobSystemError E)) :=
  advanced ← attempt advance_candidates;
  let error := match advanced with Ok _ => None | Err cause => Some cause end in
  selection_idle ← match advanced with
                   | Ok idle => mret idle
                   | Err _ => _ ← modify stop_starting; mret true
                   end;
  s ← get;
  match sl_active s with
  | [] =>
      mret (if selection_idle || cb_stop_starting (sl_completion s)
               || (dq_max_claims request <=? dc_claimed (dr_counts (sl_report s)))
            then RD_break else RD_continue, error)
  | _ =>
      polled ← poll_active;
      match polled with
      | None => _ ← modify finish_shutdown; mret (RD_break, error)
      | Some (completed, permit) =>
          _ ← modify (λ s, if sc_requested (sl_shutdown s) then stop_starting (stop_with Shutdown s) else s);
          _ ← modify (settle completed permit);
          mret (RD_continue, error)
      end
  end.

(** The loop of [run]: the first error is kept; [None] is out of fuel. *)
Fixpoint run_loop (fuel : nat) (error : option (JobSystemError E)) : sched E (option unit) :=
  match fuel with
  | O => mret None
  | S fuel =>
      '(r, cause) ← loop_round;
      let error := match error with None => cause | error => error end in
      match r with
      | RD_continue => run_loop fuel error
      | RD_break => match error with None => mret (Some tt) | Some e => raise e end
      end
  end.

Definition min_timestamp (times : list Timestamp) : option Timestamp :=
  foldl (λ acc t, Some (match acc with None => t | Some current => Z.min current t end)) None times.

Definition finish (s : SchedulerLoop E) : job E DriveReport :=
  now ← wall_now clock;
  let pending := ((cd_when <$> (btree (sl_candidates s)).*2)
                  ++ match cb_future_wake (sl_completion s) with Some t => [t] | None => [] end) in
  let next_wake :=
    if sc_requested (sl_shutdown s) then WH_None
    else match min_timestamp pending with
         | None => WH_None
         | Some t => WakeHint_from_timestamp t now
         end in
  finish_report request (sl_report s) next_wake.

Record SchedulerSetup : Type := mkSchedulerSetup {
  su_report : DriveReport;
  su_stop_reason : option DriveStopReason;
  su_future_wake : option Timestamp;
  su_immediate_candidates : Z;
}.

Definition SchedulerSetup_new (discovery : Discovery) : SchedulerSetup :=
  mkSchedulerSetup
    (match ds_stop_reason discovery with Some reason => set_dr_stop_reason reason empty_report | None => empty_report end)
    (ds_stop_reason discovery) (ds_future_wake discovery) (ds_immediate_candidates discovery).

Definition SchedulerSetup_finish (setup : SchedulerSetup) (now : Timestamp) : job E DriveReport :=
  finish_report request (su_report setup)
    (if 0 <? su_immediate_candidates setup then WH_Now
     else match su_future_wake setup with None => WH_None | Some t => WakeHint_from_timestamp t now end).

Definition SchedulerLoop_new (owner : FairDispatchOwner) (candidates : gmap JobId Candidate) (operation_budget : Z)
    (setup : SchedulerSetup) : SchedulerLoop E :=
  mkSchedulerLoop owner candidates (dom candidates) operation_budget (su_report setup)
    (CompletionBookkeeping_new (bool_decide (su_stop_reason setup = Some Deadline))) [] 0 ShutdownController_new.

(** A round starts, settles or ends something: every candidate is started and
    settled at most once, and a round that does neither is followed by one
    that does or ends the loop. *)
Definition loop_fuel (candidates : gmap JobId Candidate) : nat := 4 + 3 * size candidates.

(** [scheduler.run().await?; scheduler.finish().await]. *)
Definition conclude (ended : result (JobSystemError E) (option unit) * SchedulerLoop E) : job E (option DriveReport) :=
  match ended.1 with
  | Err e => fail e
  | Ok None => mret None
  | Ok (Some _) => report ← finish ended.2; mret (Some report)
  end.

Definition drive_scheduler (discovery : Discovery) (operation_budget : Z) : job E (option DriveReport) :=
  let setup := SchedulerSetup_new discovery in
  '(prepared, operation_budget) ← prepare_owner system request discovery operation_budget;
  match prepared with
  | None =>
      now ← wall_now clock;
      report ← SchedulerSetup_finish setup now;
      mret (Some report)
  | Some (owner, candidates) =>
      prog_bind (run_loop (loop_fuel candidates) None (SchedulerLoop_new owner candidates operation_budget setup)) conclude
  end.
End scheduler.

(** [drive]; [None] if the loop ran out of its fuel. *)
Definition drive {E} (system : JobSystem) (handlers : JobKind → Z → JobHandler) (request : DriveRequest)
    (wall_now : Timestamp) : job E (option DriveReport) :=
  clock ← DriveClock_new wall_now;
  '(discovery, operation_budget) ← discover system request clock wall_now (dq_max_store_operations request);
  drive_scheduler system handlers request clock discovery operation_budget.
