(* ===== verification/Futures.v ===== *)
(** * Futures of one process

    A process that polls several futures interleaves their operations in any
    order.  Each future draws identifiers of its own; what one does is
    interference that the others rely on ([Logic]).  [futures] collects the
    weakest preconditions of a set of futures, [wp_beside] runs a program
    beside them and [wp_advance] advances one of them by an operation. *)

From S2P Require Import Prelude Errors Ids JobRecord Store Prog Logic.

Lemma delete_insert_list {A} (i : nat) (a : A) (l : list A) : delete i (<[i := a]> l) = delete i l.
Proof. revert i. induction l as [|b l IH]; intros [|i]; cbn; [done..|]. f_equal. apply IH. Qed.

Section futures.
Context `{!Discipline} {E A : Type}.
Context (Φ : A → world → Prop).
Implicit Types w : world.
Implicit Types own mine rest m : gset bytes.

(** The futures [fs] drew the identifiers [own], each its own. *)
Inductive futures w : gset bytes → list (prog E A) → Prop :=
  | futures_nil : futures w ∅ []
  | futures_cons m own f fs :
      wp m w f (λ a _ w', Φ a w') → m ## own → futures w own fs → futures w (m ∪ own) (f :: fs).

Lemma futures_extends own w w' fs : extends own w w' → futures w own fs → futures w' own fs.
Proof.
  intros He Hf. induction Hf as [|m own f fs Hw Hd Hf IH]; [constructor|]. constructor; [|done|].
  - eapply wp_extends; [|exact Hw]. eapply extends_weaken; [|exact He]. set_solver.
  - apply IH. eapply extends_weaken; [|exact He]. set_solver.
Qed.

Lemma futures_perm own w fs fs' : fs ≡ₚ fs' → futures w own fs → futures w own fs'.
Proof.
  intros Hp. revert own. induction Hp as [|f fs fs' _ IH|f g fs|fs1 fs2 fs3 _ IH1 _ IH2]; intros own Hf.
  - done.
  - inversion Hf as [|m o f' fs0 Hw Hd Hr]; subst. constructor; auto.
  - inversion Hf as [|m o g' fs0 Hw Hd Hr]; subst. inversion Hr as [|m' o' f' fs0 Hw' Hd' Hr']; subst.
    assert (m ∪ (m' ∪ o') = m' ∪ (m ∪ o')) as -> by (apply leibniz_equiv; set_solver).
    constructor; [done|set_solver|]. constructor; [done|set_solver|done].
  - auto.
Qed.

(** One future and the rest. *)
Lemma futures_pick own w fs i f :
  futures w own fs → fs !! i = Some f →
  ∃ m rest, own = m ∪ rest ∧ m ## rest ∧ wp m w f (λ a _ w', Φ a w') ∧ futures w rest (delete i fs).
Proof.
  intros Hf Hi. apply delete_Permutation in Hi as Hp. eapply futures_perm in Hf; [|exact Hp].
  inversion Hf as [|m o f' fs0 Hw Hd Hr]; subst. by exists m, o.
Qed.

Lemma futures_put w m rest fs i f :
  (i < length fs)%nat → wp m w f (λ a _ w', Φ a w') → m ## rest → futures w rest (delete i fs) →
  futures w (m ∪ rest) (<[i := f]> fs).
Proof.
  intros Hi Hw Hd Hf. eapply futures_perm; [|by constructor].
  assert (<[i := f]> fs !! i = Some f) as Hl by by rewrite list_lookup_insert_eq.
  apply delete_Permutation in Hl. rewrite Hl. f_equiv. by rewrite delete_insert_list.
Qed.

(** The process drew [mine]; its futures drew some of them. *)
Definition in_flight mine w (fs : list (prog E A)) : Prop :=
  mine ⊆ w_ids w ∧ ∃ own, own ⊆ mine ∧ futures w own fs.

Lemma in_flight_extends mine w w' fs : extends mine w w' → in_flight mine w fs → in_flight mine w' fs.
Proof.
  intros He (Hm & own & Ho & Hf). split; [etrans; [exact Hm|apply He]|]. exists own. split; [done|].
  eapply futures_extends; [|exact Hf]. by eapply extends_weaken.
Qed.

Lemma in_flight_nil mine w : mine ⊆ w_ids w → in_flight mine w [].
Proof. intros Hm. split; [done|]. exists ∅. split; [set_solver|constructor]. Qed.

(** A new future draws nothing before it is polled. *)
Lemma in_flight_push mine w f fs :
  wp ∅ w f (λ a _ w', Φ a w') → in_flight mine w fs → in_flight mine w (fs ++ [f]).
Proof.
  intros Hw (Hm & own & Ho & Hf). split; [done|]. exists (∅ ∪ own). split; [set_solver|].
  eapply futures_perm; [apply Permutation_cons_append|]. constructor; [done|set_solver|done].
Qed.

Lemma in_flight_perm mine w fs fs' : fs ≡ₚ fs' → in_flight mine w fs → in_flight mine w fs'.
Proof. intros Hp (Hm & own & Ho & Hf). split; [done|]. exists own. split; [done|]. by eapply futures_perm. Qed.

(** ** Operations *)

(** The operation of one future is an operation of its process. *)
Lemma op_effect_local {X} (o : op E X) mine m w x mine' w' :
  op_effect o mine w x mine' w' → m ⊆ mine → mine ⊆ w_ids w →
  ∃ m', op_effect o m w x m' w' ∧ m' ⊆ mine' ∧ mine ⊆ mine' ∧ mine' ⊆ w_ids w' ∧
    ∀ rest, rest ⊆ mine → m ## rest → m' ## rest.
Proof.
  intros Ho Hm Hids. destruct (op_grows _ _ _ _ _ _ Ho) as (_ & Hgrow & _).
  destruct o; cbn in *;
    try (destruct Ho as (-> & Ho); exists m; split; [exact (conj eq_refl Ho)|]; split; [done|]; split; [done|];
         split; [by etrans|done]).
  destruct Ho as [(-> & -> & ->)|(id & -> & Hf & Hid & -> & ->)].
  - exists m. split; [by left|]. done.
  - exists ({[id]} ∪ m). split; [right; by exists id|]. split; [set_solver|]. split; [set_solver|]. split; set_solver.
Qed.

Lemma step_ok_mono m mine w w' : m ⊆ mine → step_ok m w w' → step_ok mine w w'.
Proof. intros Hm [Hv Hp Hl]. split; [done| |]; set_solver. Qed.

(** A program beside the futures: it starts with identifiers of its own. *)
Lemma wp_beside {B : Type} (m rest : gset bytes) w (p : prog E B) (Ψ : B → gset bytes → world → Prop) fs :
  m ## rest → m ∪ rest ⊆ w_ids w → in_flight rest w fs → wp m w p Ψ →
  wp (m ∪ rest) w p (λ b mine' w', in_flight mine' w' fs ∧ ∃ m', Ψ b m' w').
Proof.
  revert m w. induction p as [b|X o k IH]; intros m w Hd Hids Hf Hp.
  - intros w' He. split; [|exists m; apply Hp; eapply extends_weaken; [|exact He]; set_solver].
    eapply in_flight_extends in Hf; [|eapply extends_weaken; [|exact He]; set_solver].
    destruct Hf as (Hm & own & Ho & Hf). split; [etrans; [exact Hids|apply He]|]. exists own. split; [set_solver|done].
  - intros w1 He x mine' w2 Ho. pose proof (ex_ids _ _ _ He) as Hi1.
    destruct (op_effect_local o (m ∪ rest) m w1 x mine' w2 Ho) as (m' & Ho' & Hm' & Hmine & Hids' & Hdis); [set_solver..|].
    destruct (Hp w1 (extends_weaken _ _ _ _ (union_subseteq_l _ _) He) x m' w2 Ho') as [Hs Hk].
    split; [by eapply step_ok_mono; [|exact Hs]; set_solver|].
    assert (extends rest w1 w2) as Hr by (eapply op_extends; [exact Ho'|exact Hs|set_solver]).
    assert (mine' = m' ∪ rest) as ->.
    { clear -Ho Ho' Hd. destruct o; cbn in *; try (destruct Ho as (-> & _); destruct Ho' as (-> & _); done).
      destruct Ho as [(? & -> & _)|(id & -> & _ & _ & -> & _)], Ho' as [(? & -> & _)|(id' & Hid & _ & _ & -> & _)]; try congruence.
      injection Hid as <-. apply leibniz_equiv. set_solver. }
    apply IH; [apply Hdis; [set_solver|done]|done| |done].
    eapply in_flight_extends; [exact Hr|]. eapply in_flight_extends; [|exact Hf].
    eapply extends_weaken; [|exact He]. set_solver.
Qed.

(** A future that is done, taken from the set. *)
Lemma in_flight_done mine w fs i a :
  valid w → in_flight mine w fs → fs !! i = Some (Ret a) → Φ a w ∧ in_flight mine w (delete i fs).
Proof.
  intros Hv (Hm & own & Ho & Hf) Hi. destruct (futures_pick _ _ _ _ _ Hf Hi) as (m & rest & -> & Hd & Hw & Hr).
  split; [apply Hw; by apply extends_refl|]. split; [done|]. exists rest. split; [set_solver|done].
Qed.

(** A future advanced by an operation. *)
Lemma in_flight_advance mine w fs i (X : Type) (o : op E X) k x mine' w' :
  valid w → in_flight mine w fs → fs !! i = Some (Vis o k) → op_effect o mine w x mine' w' →
  step_ok mine w w' ∧ in_flight mine' w' (<[i := k x]> fs).
Proof.
  intros Hv (Hm & own & Hown & Hf) Hi Ho. destruct (futures_pick _ _ _ _ _ Hf Hi) as (m & rest & -> & Hd & Hw & Hr).
  destruct (op_effect_local o mine m w x mine' w' Ho) as (m' & Ho' & Hm' & Hmine & Hids' & Hdis); [set_solver..|].
  destruct (Hw w (extends_refl _ _ Hv) x m' w' Ho') as [Hs Hk].
  split; [by eapply step_ok_mono; [|exact Hs]; set_solver|]. split; [done|]. exists (m' ∪ rest). split; [set_solver|].
  apply futures_put; [by eapply lookup_lt_Some|done|apply Hdis; [set_solver|done]|].
  eapply futures_extends; [|exact Hr]. eapply op_extends; [exact Ho'|exact Hs|set_solver].
Qed.
End futures.
