(* ===== verification/CandidateSafe.v ===== *)
(** * The owner and the candidates of a drive keep the invariant

    The value of the fair-dispatch owner is one entry that belongs to no job
    and is no permit: saving it keeps the invariant of the engine, whatever
    the owner is.  A save that reports success replaced the value it was
    loaded from.

    The handler of a candidate may be any code; its checkpoints, the outcome
    it returns and the deadline that drops it are operations of a claim.
    Processing a candidate that was read from the store keeps the invariant of
    the engine, and a completion it reports has its receipt in the store. *)

From S2P Require Import Prelude Errors Ids Clock Policy JobRecord Wire KeyCodec ValueCodec JobCodec.
From S2P Require Import JobRoundtrip OperationCodec Keyspace Store Prog Logic System Transition Permits Claim.
From S2P Require Import Completion Enqueue Admin Failure Refs Invariant Update Protocol Steps Moves Held LeaseTx.
From S2P Require Import Completed Outcomes Renewal Claimed Controls Recovery Administered.
From S2P Require Import Ordered Fairness FairLedger FairSelect FairOwner FairCodec Budgets Discovery Candidate DriveOwner.

(** What holds after a quiet program, errors included. *)
Lemma wp_quiet `{!Discipline} {E A : Type} (mine : gset bytes) (w : world) (p : prog E A) (P : A → Prop) :
  quiet p → leaves P p → wp mine w p (λ a mine' w', mine' = mine ∧ extends mine w w' ∧ P a).
Proof.
  revert w. induction p as [a|X o k IH]; intros w Hq Hl; cbn in *; [auto|].
  intros w1 He x mine' w2 Ho. destruct Hq as [Hr Hq]. destruct (read_only_effect _ _ _ _ _ _ Hr Ho) as [-> ->].
  split; [apply step_ok_refl; by eapply ex_valid|]. eapply wp_mono; [by apply IH|].
  intros a mine' w' _ (-> & He' & HP). split; [done|]. split; [|done]. by eapply extends_trans.
Qed.

Lemma wp_quiet_then `{!Discipline} {E A B : Type} (mine : gset bytes) (w : world) (p : prog E A) (k : A → prog E B)
    (P : A → Prop) Φ :
  quiet p → leaves P p → (∀ a w', extends mine w w' → P a → wp mine w' (k a) Φ) → wp mine w (prog_bind p k) Φ.
Proof.
  intros Hq Hl Hk. apply wp_bind. eapply wp_mono; [by apply wp_quiet|]. intros a mine' w' _ (-> & He & HP). auto.
Qed.

Section owner_safe.
Context (ns : Namespace) (sha256 : bytes → bytes) (Hns : is_opaque MAX_NAMESPACE_BYTES ns = true).
#[local] Instance owner_disc : Discipline := engine_discipline ns sha256.
Implicit Types w : world.

Definition FairStateK : StoreKey := key_layout ns KT_FairReady [ascii "dispatch-state"].

Lemma fair_state_key_Ok : fair_state_key ns = Ok FairStateK.
Proof. unfold fair_state_key, FairStateK. by small_key. Qed.

Lemma parse_fair_state : parse ns FairStateK = Some (KT_FairReady, [ascii "dispatch-state"]).
Proof. apply parse_layout; [done|repeat constructor; vm_compute; congruence|vm_compute; congruence]. Qed.

Lemma fair_state_foreign : key_job ns FairStateK = None ∧ ¬ is_permit ns FairStateK ∧ ¬ is_wake ns FairStateK.
Proof. unfold key_job, is_permit, is_wake, key_tag. rewrite parse_fair_state. cbn. by split_and!. Qed.

Context {E : Type} (system : JobSystem) (Hsys : system_ok ns sha256 system).

Lemma quiet_owner_load : quiet (FairDispatchOwner_load (E := E) system).
Proof. unfold FairDispatchOwner_load, load_value. quiet. Qed.

(** What a save that reported success left in the store. *)
Definition owner_saved w (o : FairDispatchOwner) (v : bytes) : Prop :=
  encode_value o = Ok v ∧ ∃ m, m ∈ states w ∧ m !! FairStateK = Some v.

Lemma owner_saved_extends mine w w' o v : extends mine w w' → owner_saved w o v → owner_saved w' o v.
Proof. intros He (Hv & m & Hm & Hl). split; [done|]. exists m. split; [by eapply extends_state|done]. Qed.

Lemma wpj_save_value mine w o : wpj mine w (save_value (E := E) system o) (λ v _ w', owner_saved w' o v).
Proof.
  destruct fair_state_foreign as (Hj & Hp & Hk). unfold save_value, build_save_transaction.
  rewrite (sk_namespace _ _ _ Hsys), fair_state_key_Ok. apply wpj_try. intros k [= <-]. apply wpj_try. intros v Hv.
  set (checks := match ow_loaded_value o with Some e => [Value FairStateK e] | None => [Absent FairStateK] end).
  apply wpj_bind. apply (wpj_checked_last ns sha256 Hns system Hsys checks _ ∅ _ _ checks [Put FairStateK v]);
    [set_solver..| |done|apply (foreign_safe ns sha256 Hns); by repeat constructor|].
  { unfold checks. destruct (ow_loaded_value o); by repeat constructor. }
  intros tx mine1 w1 Hm1 He1 Hg. apply wpj_bind. eapply wpj_mono.
  { by eapply (wpj_commit_transition ns sha256 Hns system Hsys). }
  intros ? mine2 w2 Hv2 (_ & _ & Hre). apply wpj_ret. intros w3 He3. eapply owner_saved_extends; [exact He3|].
  split; [done|]. destruct Hre as [(m & m' & _ & Hm' & _ & Hnd & Ha)|(_ & m & Hm & Hl)]; [|by exists m].
  exists m'. split; [done|]. rewrite (Ha _ Hk). apply apply_put; [done|]. apply list_elem_of_here.
Qed.

Lemma wp_owner_save mine w o :
  wp mine w (FairDispatchOwner_save (E := E) system o) (λ '(saved, o') _ w',
    match saved with
    | Ok _ => ∃ v, ow_loaded_value o' = Some v ∧ owner_saved w' o' v
    | Err _ => True
    end).
Proof.
  unfold FairDispatchOwner_save. apply wp_bind. eapply wp_mono; [apply wpj_save_value|].
  intros [v|e] mine' w' _ Hv; apply wp_ret; intros w2 He2; [|done]. exists v. split; [done|].
  eapply owner_saved_extends; [exact He2|]. exact Hv.
Qed.
End owner_safe.

(** ** Handlers *)

(** What the type of an outcome guarantees, wherever a handler returns one. *)
Fixpoint handler_typed (h : handler_run) : Prop :=
  match h with
  | HR_finish (Ok outcome) => outcome_typed outcome
  | HR_finish (Err _) | HR_panic => True
  | HR_yield k => ∀ b, handler_typed (k b)
  | HR_context k => ∀ c, handler_typed (k c)
  | HR_checkpoint _ k => ∀ b, handler_typed (k b)
  end.

Record handlers_typed (handlers : JobKind → Z → JobHandler) : Prop := {
  ht_execute kind version context payload h :
    hd_execute (handlers kind version) context payload = Some h → handler_typed h;
  ht_execute_checkpointed kind version payload h :
    hd_execute_checkpointed (handlers kind version) payload = Some h → handler_typed h;
}.

Definition end_typed (r : handler_end) : Prop := ∀ outcome, r = Some (Ok outcome) → outcome_typed outcome.

(** ** Clocks *)

Section quiet.
Context {E : Type}.

Lemma quiet_wall_now clock : quiet (wall_now (E := E) clock).
Proof. unfold wall_now, clock_now. quiet. Qed.

Lemma wall_now_outcomes clock : outcomes (E := E) (λ t, is_i64 t = true) (wall_now clock).
Proof.
  unfold wall_now. apply outcomes_any. intros now. apply outcomes_last. intros t Ht. unfold wall_at, Timestamp_checked_add in Ht.
  invert_ok. unfold checked_add_i64 in *. unfold is_i64. ranges. lia.
Qed.

Lemma quiet_checkpoint_context clock finish_by c : quiet (checkpoint_context (E := E) clock finish_by c).
Proof. unfold checkpoint_context, wall_now, clock_now. quiet. Qed.
End quiet.
#[export] Hint Resolve quiet_wall_now quiet_checkpoint_context : quiet.

(** ** The boundary *)

Section boundary.
Context `{!Discipline} {E A : Type}.
Implicit Types w : world.
Context (Φ : A → gset bytes → world → Prop).

(** What is known of a handler's future that was not dropped. *)
Definition finished (r : HandlerBoundaryResult A) (mine : gset bytes) w : Prop :=
  match r with HB_Finished a => Φ a mine w | HB_Deadline | HB_WakeScheduler => True end.

Lemma wp_unless_deadline mine w finish_by (rest : prog E (HandlerBoundaryResult A)) :
  wp mine w rest finished → wp mine w (unless_deadline finish_by rest) finished.
Proof.
  intros Hr. unfold unless_deadline. apply (wp_quiet_then mine w _ _ (λ _, True)); [done|apply leaves_true|].
  intros [] w' He _; [by apply wp_ret|]. by eapply wp_extends.
Qed.

Lemma wp_pending mine w finish_by (rest : prog E (HandlerBoundaryResult A)) :
  wp mine w rest finished → wp mine w (pending finish_by rest) finished.
Proof.
  intros Hr w1 He1 pended mine1 w1' [-> ->]. split; [apply step_ok_refl; by eapply ex_valid|].
  destruct pended; [|by eapply wp_extends]. intros w2 He2 timer mine2 w2' [-> ->].
  split; [apply step_ok_refl; by eapply ex_valid|]. destruct timer; [|by apply wp_ret..].
  apply wp_unless_deadline. eapply wp_extends; [exact He2|]. by eapply wp_extends.
Qed.

(** Dropping a future is safe at every point. *)
Lemma wp_poll_handler mine w finish_by (p : prog E A) :
  wp mine w p Φ → wp mine w (poll_handler finish_by p) finished.
Proof.
  revert mine w. induction p as [a|X o k IH]; intros mine w Hp; cbn [poll_handler].
  - apply wp_unless_deadline. apply wp_ret. exact Hp.
  - destruct (awaits o); [apply wp_pending|]; intros w1 He x mine' w2 Ho; destruct (Hp w1 He x mine' w2 Ho) as [Hs Hk];
      (split; [done|]); [apply wp_pending|]; by apply IH.
Qed.
End boundary.

(** ** A candidate *)

Section candidate_safe.
Context (ns : Namespace) (sha256 : bytes → bytes) (Hns : is_opaque MAX_NAMESPACE_BYTES ns = true).
Context (Hsha : ∀ bs, len (sha256 bs) = 32).
#[local] Instance disc : Discipline := engine_discipline ns sha256.
Implicit Types w : world.
Context {E : Type} (system : JobSystem) (Hsys : system_ok ns sha256 system).
Context (handlers : JobKind → Z → JobHandler) (Hhandlers : handlers_typed handlers).

Lemma wp_save_checkpoint mine w clock finish_by bs c :
  claim_ok ns w c → wp mine w (save_checkpoint (E := E) system clock finish_by bs c) (λ '(c', _) _ w', claim_ok ns w' c').
Proof.
  intros Hc. unfold save_checkpoint. apply (wp_quiet_then mine w _ _ (λ _, True)); [quiet|apply leaves_true|].
  intros [now|e] w1 He1 _; (apply (claim_ok_extends ns sha256 w w1) in Hc; [|by eapply extends_empty]).
  - apply wp_bind. eapply wp_mono; [by apply (wp_checkpoint ns sha256 Hns system Hsys)|].
    intros [c' saved] mine' w' _ Hc'. apply wp_ret. intros w2 He2.
    eapply claim_ok_extends; [by eapply extends_empty|done].
  - apply wp_ret. intros w2 He2. eapply claim_ok_extends; [by eapply extends_empty|done].
Qed.

Lemma wp_handler_future mine w clock finish_by h c :
  claim_ok ns w c → handler_typed h →
  wp mine w (handler_future (E := E) system clock finish_by h c) (λ '(c', r) _ w', claim_ok ns w' c' ∧ end_typed r).
Proof.
  revert mine w c. induction h as [r| |k IH|k IH|bs k IH]; intros mine w c Hc Ht; cbn [handler_future].
  - apply wp_ret. intros w' He. split; [eapply claim_ok_extends; [by eapply extends_empty|done]|].
    intros outcome [= ->]. exact Ht.
  - apply wp_ret. intros w' He. split; [eapply claim_ok_extends; [by eapply extends_empty|done]|done].
  - apply (wp_quiet_then mine w _ _ (λ _, True)); [done|apply leaves_true|]. intros b w1 He1 _.
    apply IH; [|apply Ht]. eapply claim_ok_extends; [by eapply extends_empty|done].
  - apply (wp_quiet_then mine w _ _ (λ _, True)); [quiet|apply leaves_true|]. intros x w1 He1 _.
    apply IH; [|apply Ht]. eapply claim_ok_extends; [by eapply extends_empty|done].
  - apply wp_bind. eapply wp_mono; [by apply wp_save_checkpoint|]. intros [c' saved] mine' w' _ Hc'.
    apply IH; [done|apply Ht].
Qed.

Lemma handler_retry_typed value outcome : handler_retry (E := E) value = Ok outcome → outcome_typed outcome.
Proof. unfold handler_retry. intros H. invert_ok. split; [done|]. by apply code_typed in Ha. Qed.

Definition executed (x : ClaimedJob * HandlerExecution) w : Prop :=
  match x.2 with HX_Outcome outcome => claim_ok ns w x.1 ∧ outcome_typed outcome | HX_Deadline => True end.

Lemma wpj_execute_handler mine w clock finish_by future c :
  claim_ok ns w c → (∀ h, future = Some h → handler_typed h) →
  wpj mine w (execute_handler (E := E) system clock finish_by future c) (λ x _ w', executed x w').
Proof.
  intros Hc Hf. unfold execute_handler. destruct future as [h|].
  - apply wp_bind. eapply wp_mono.
    { unfold HandlerBoundary. apply wp_unless_deadline, wp_poll_handler, wp_handler_future; [done|by apply Hf]. }
    intros r mine' w' _ Hr. apply wp_ret. intros w2 He2. destruct r as [[c' r]| |]; [|done..]. destruct Hr as [Hc' Hr].
    apply (claim_ok_extends ns sha256 w' w2) in Hc'; [|by eapply extends_empty]. cbn [into_execution].
    destruct r as [[outcome|[]]|]; [by split; [|apply Hr]|..];
      (destruct (handler_retry _) as [outcome|] eqn:Ho; [|done]; split; [done|by eapply handler_retry_typed]).
  - apply wpj_try. intros outcome Ho. apply wpj_ret. intros w' He.
    split; [eapply claim_ok_extends; [by eapply extends_empty|done]|by eapply handler_retry_typed].
Qed.

Lemma wpj_execute_checkpointed mine w clock finish_by kind version payload c :
  claim_ok ns w c →
  wpj mine w (execute_checkpointed (E := E) system clock finish_by (handlers kind version) payload c)
    (λ x _ w', executed x w').
Proof.
  intros Hc. unfold execute_checkpointed. apply (wp_quiet_then mine w _ _ (λ _, True)); [quiet|apply leaves_true|].
  intros [context|e] w1 He1 _; [|done]. apply wpj_execute_handler; [|intros h; apply Hhandlers].
  eapply claim_ok_extends; [by eapply extends_empty|done].
Qed.

Lemma quiet_register c : quiet (register_execution (E := E) system c).
Proof.
  unfold register_execution. apply quiet_job_bind; [done|]. intros _.
  apply quiet_bind; [unfold refresh_attempt_cancellation; quiet|]. intros [u|e]; [quiet|].
  unfold drop_registration. by apply quiet_job_bind.
Qed.

(** ** What a candidate reports *)

(** The receipt of a completion is in the store. *)
Definition receipt_recorded w (details : CompletionDetails) : Prop :=
  ∃ rc rv, details = completion_details rc ∧ operation_receipt_value rc = Ok rv ∧ is_receipt rc = true ∧
    recorded_bytes w (OpK ns (or_job_id rc)) rv.

Definition result_ok (r : result (JobSystemError E) CandidateResult) w : Prop :=
  match r with Ok (CN_Completed details) => receipt_recorded w details | _ => True end.

Lemma receipt_recorded_extends mine w w' d : extends mine w w' → receipt_recorded w d → receipt_recorded w' d.
Proof.
  intros He (rc & rv & Hd & Hv & Ht & Hr). exists rc, rv. split_and!; try done. by eapply recorded_extends.
Qed.

Lemma wpj_apply_candidate_outcome mine w c outcome now :
  claim_ok ns w c → outcome_typed outcome → is_i64 now = true →
  wp mine w (apply_candidate_outcome (E := E) system c outcome now) (λ r _ w', result_ok r w').
Proof.
  intros [l Hc] Ho Hn. unfold apply_candidate_outcome. apply wp_bind. eapply wp_mono.
  { by apply (wpj_apply_outcome ns sha256 Hns Hsha system Hsys c l). }
  intros [res|e] mine' w' _ Hr; apply wp_ret; intros w2 He2; [|done]. destruct res; cbn in *; try done.
  eapply receipt_recorded_extends; [exact He2|]. destruct Hr as (rc & rv & Hd & Hv & Ht & Hj & Hrec).
  exists rc, rv. rewrite Hj. by split_and!.
Qed.

(** A program whose result is known to fit, then a deferred registration. *)
Lemma wp_drop_registration mine w authority (p : job E CandidateResult) :
  wp mine w p (λ r _ w', result_ok r w') →
  wp mine w (prog_bind p (drop_registration authority)) (λ r _ w', result_ok r w').
Proof.
  intros Hp. apply wp_bind. eapply wp_mono; [exact Hp|]. intros r mine' w' _ Hr.
  intros w2 He2 [] mine2 w3 [-> ->]. split; [apply step_ok_refl; by eapply ex_valid|]. intros w4 He4.
  destruct r as [[]|]; cbn in *; try done. do 2 (eapply receipt_recorded_extends; [eassumption|]). done.
Qed.

(** Errors satisfy [result_ok], so its proofs follow successes. *)
Lemma result_ok_wpj {A} mine w (p : job E A) (k : A → job E CandidateResult) Ψ :
  wpj mine w p Ψ →
  (∀ a mine' w', valid w' → Ψ a mine' w' → wp mine' w' (k a) (λ r _ w', result_ok r w')) →
  wp mine w (p ≫= k) (λ r _ w', result_ok r w').
Proof.
  intros Hp Hk. apply wp_bind. eapply wp_mono; [exact Hp|]. intros [a|e] mine' w' Hv Ha; [by apply Hk|]. by apply wp_ret.
Qed.

Lemma result_ok_quiet {A} mine w (p : job E A) (k : A → job E CandidateResult) (P : A → Prop) :
  quiet p → outcomes P p →
  (∀ a w', extends mine w w' → P a → wp mine w' (k a) (λ r _ w', result_ok r w')) →
  wp mine w (p ≫= k) (λ r _ w', result_ok r w').
Proof.
  intros Hq Ho Hk. apply (wp_quiet_then mine w _ _ (on_ok P)); [done|done|]. intros [a|e] w' He HP; [by apply Hk|].
  by apply wp_ret.
Qed.

Lemma result_ok_try {A F} `{!IntoJobError F E} mine w (r : result F A) (k : A → job E CandidateResult) :
  (∀ a, r = Ok a → wp mine w (k a) (λ r _ w', result_ok r w')) →
  wp mine w (try_ r ≫= k) (λ r _ w', result_ok r w').
Proof. intros Hk. destruct r; [by apply Hk|]. by apply wp_ret. Qed.

Lemma wp_execute_claim mine w kind version finish_by clock c :
  claim_ok ns w c →
  wp mine w (execute_claim (E := E) system (handlers kind version) finish_by clock c) (λ r _ w', result_ok r w').
Proof.
  intros Hc. unfold execute_claim.
  apply (result_ok_quiet _ _ _ _ _ (quiet_wall_now _) (wall_now_outcomes _)). intros now w1 He1 Hnow.
  apply (claim_ok_extends ns sha256 w w1) in Hc; [|by eapply extends_empty].
  apply result_ok_try. intros lease _. apply result_ok_try. intros expiry _. cbn zeta.
  apply (result_ok_quiet _ _ _ _ (λ _, True)); [unfold clock_now; quiet|apply leaves_ok|]. intros current w2 He2 _.
  apply (claim_ok_extends ns sha256 w1 w2) in Hc; [|by eapply extends_empty].
  destruct (MonotonicDeadline_is_at_or_before _ _).
  - apply result_ok_try. intros outcome Ho. apply wpj_apply_candidate_outcome; [done| |done].
    unfold deadline_outcome in Ho. invert_ok. apply code_typed in Ha. by split.
  - apply (result_ok_wpj mine w2 _ _ _ (wpj_execute_checkpointed mine w2 clock _ kind version (cj_payload c) c Hc)).
    intros [c' [outcome|]] mine3 w3 _ Hx; [|by apply wp_ret]. destruct Hx as [Hc' Ho]. cbn [fst snd] in *.
    apply (result_ok_quiet _ _ _ _ _ (quiet_wall_now _) (wall_now_outcomes _)). intros now' w4 He4 Hnow'.
    apply wpj_apply_candidate_outcome; [|done..]. eapply claim_ok_extends; [by eapply extends_empty|done].
Qed.

(** A candidate that was read from the store. *)
Definition candidate_seen w (c : Candidate) : Prop :=
  decode_job_record (cd_encoded c) = Ok (cd_record c) ∧
  route_ok ns (cd_record c) (if cd_route_is_due c then CR_Due (cd_key c) (cd_value c)
                             else CR_ExpiredLease (cd_key c) (cd_value c)) ∧
  ∃ w0, extends ∅ w0 w ∧ w_now w0 !! JobK ns (jr_job_id (cd_record c)) = Some (cd_encoded c).

Lemma candidate_seen_extends mine w w' c : extends mine w w' → candidate_seen w c → candidate_seen w' c.
Proof.
  intros He (Hd & Hr & w0 & He0 & H0). split; [done|]. split; [done|]. exists w0. split; [|done].
  eapply extends_trans; [exact He0|]. by eapply extends_empty.
Qed.

Lemma candidate_seen_id w c : candidate_seen w c → is_fixed_id (jr_job_id (cd_record c)) = true.
Proof. intros (Hd & _). by destruct (typed_names _ (decode_typed _ _ Hd)). Qed.

Lemma wpj_claim_candidate mine w c now capacity deadline :
  candidate_seen w c → is_i64 now = true → 0 ≤ capacity →
  wpj mine w (claim_candidate (E := E) system c now capacity deadline)
    (λ r _ w', match r with inr claimed => claim_ok ns w' claimed | inl _ => True end).
Proof.
  intros Hs Hn Hc. pose proof (candidate_seen_id _ _ Hs) as Hid. destruct Hs as (Hd & Hr & w0 & He0 & H0).
  unfold claim_candidate. apply wpj_lift. eapply wp_mono; [by eapply (wpj_claim_record ns sha256 Hns system Hsys)|].
  intros [claimed|e] mine' w' _ Hx.
  - apply wpj_ret. intros w2 He2. eapply claim_ok_extends; [by eapply extends_empty|done].
  - destruct e; try done; try by apply wpj_ret. apply wpj_bind. eapply wpj_mono.
    { by apply (wpj_dead_letter_by_id ns sha256 Hns system Hsys). }
    intros. by apply wpj_ret.
Qed.

Lemma quiet_can_expire c now : quiet (can_expire (E := E) system c now).
Proof. unfold can_expire. quiet. Qed.

Lemma wpj_precheck mine w request c now :
  valid w → is_fixed_id (jr_job_id (cd_record c)) = true → is_i64 now = true →
  wpj mine w (precheck_candidate (E := E) system request c now)
    (λ r _ w', extends ∅ w w' ∧ ∀ d, r ≠ Some (CN_Completed d)).
Proof.
  intros Hv Hid Hn. unfold precheck_candidate. cbn zeta.
  apply (wpj_quiet_bind ns sha256 _ _ _ _ _ _ (quiet_can_expire _ _) (leaves_ok _)). intros expires w1 He1 _.
  pose proof (ex_valid _ _ _ He1) as Hv1. apply extends_empty in He1. destruct expires.
  - apply wpj_bind. eapply wp_mono; [apply wp_grows; [exact Hv1|]; by apply (wpj_expire_job ns sha256 Hns system Hsys)|].
    intros [expiry|e] mine2 w2 _ [_ He2]; [|done]. apply wpj_ret. intros w3 He3. apply extends_empty in He3.
    split; [eapply extends_trans; [exact He1|]; by eapply extends_trans|].
    intros d. by destruct expiry; [..|destruct (_ <? _)|destruct (_ <? _)].
  - apply wpj_ret. intros w2 He2. apply extends_empty in He2. split; [by eapply extends_trans|].
    intros d. by destruct (_ <? _).
Qed.

Lemma wp_process_candidate mine w request c clock :
  candidate_seen w c → 0 ≤ dq_max_concurrency request →
  wp mine w (process_candidate (E := E) system handlers request c clock) (λ r _ w', result_ok r w').
Proof.
  intros Hs Hcap. unfold process_candidate.
  apply (result_ok_quiet _ _ _ _ _ (quiet_wall_now _) (wall_now_outcomes _)). intros now w1 He1 Hnow.
  pose proof (ex_valid _ _ _ He1) as Hv1. apply (candidate_seen_extends mine w w1) in Hs; [|done].
  apply (result_ok_wpj mine w1 _ _ _ (wpj_precheck mine w1 request c now Hv1 (candidate_seen_id _ _ Hs) Hnow)).
  intros checked mine2 w2 _ [He2 Hch]. apply (candidate_seen_extends ∅ w1 w2) in Hs; [|done].
  destruct checked as [res|].
  { apply wp_ret. intros w' _. destruct res; try done. by destruct (Hch completion). }
  destruct (find_registration _ _); [|by apply wp_ret]. cbn zeta.
  apply (result_ok_quiet _ _ _ _ (λ _, True)); [unfold clock_now; quiet|apply leaves_ok|]. intros current w3 He3 _.
  apply (candidate_seen_extends mine2 w2 w3) in Hs; [|done]. destruct (_ || _); [by apply wp_ret|].
  apply result_ok_try. intros deadline _.
  apply (result_ok_quiet _ _ _ _ _ (quiet_wall_now _) (wall_now_outcomes _)). intros now4 w4 He4 Hnow4.
  apply (candidate_seen_extends mine2 w3 w4) in Hs; [|done].
  apply (result_ok_wpj mine2 w4 _ _ _ (wpj_claim_candidate mine2 w4 c now4 _ deadline Hs Hnow4 Hcap)).
  intros [[]|claimed] mine5 w5 _ Hc; [by apply wp_ret..|].
  apply (result_ok_quiet _ _ _ _ _ (quiet_register _) (leaves_ok _)). intros authority w6 He6 _.
  apply wp_drop_registration, wp_execute_claim. eapply claim_ok_extends; [by eapply extends_empty|done].
Qed.

(** ** Claims executed by their holder *)

Lemma wpj_execute_claimed mine w c now :
  claim_ok ns w c → wpj mine w (execute_claimed (E := E) system handlers c now) (λ outcome _ _, outcome_typed outcome).
Proof.
  intros Hc. unfold execute_claimed. apply wpj_try. intros registration _. apply wpj_try. intros lease _.
  apply (wpj_quiet_bind ns sha256 _ _ _ _ (λ _, True)); [unfold DriveClock_new; quiet|apply leaves_ok|]. intros clock w1 He1 _.
  apply (claim_ok_extends ns sha256 w w1) in Hc; [|by eapply extends_empty].
  apply (wpj_quiet_bind ns sha256 _ _ _ _ (λ _, True)); [unfold deadline_after, clock_now; quiet|apply leaves_ok|].
  intros after w2 He2 _. apply (claim_ok_extends ns sha256 w1 w2) in Hc; [|by eapply extends_empty].
  apply wpj_try. intros expiry _. cbn zeta. apply wpj_try. intros context _.
  apply (wpj_quiet_bind ns sha256 _ _ _ _ _ _ (quiet_register _) (leaves_ok _)). intros authority w3 He3 _.
  apply (claim_ok_extends ns sha256 w2 w3) in Hc; [|by eapply extends_empty]. apply wp_bind.
  eapply (wp_mono _ _ _ (λ r _ _, match r with Ok o => outcome_typed o | Err _ => True end)).
  { apply (wpj_quiet_bind ns sha256 _ _ _ _ _ (λ o _ _, outcome_typed o) (quiet_wall_now _) (wall_now_outcomes _)). intros now4 w4 He4 _.
    apply (claim_ok_extends ns sha256 w3 w4) in Hc; [|by eapply extends_empty].
    apply wpj_try. intros lease' _. apply wpj_bind. eapply wpj_mono; [apply wpj_execute_handler; [exact Hc|]|].
    { intros h. apply Hhandlers. }
    intros [c' [outcome|]] mine5 w5 _ Hx.
    - apply (wpj_ret _ _ _ (λ o _ _, outcome_typed o)). intros w6 _. apply Hx.
    - apply wpj_try. intros code Hcode. apply wpj_ret. intros w6 _. apply code_typed in Hcode. by split. }
  intros r mine5 w5 _ Hr. unfold drop_registration. intros w6 He6 [] mine6 w7 [-> ->].
  split; [apply step_ok_refl; by eapply ex_valid|]. intros w8 He8. exact Hr.
Qed.
End candidate_safe.
