(* ===== verification/DiscoverySafe.v ===== *)
(** * What a discovery finds

    Discovery only reads.  Every candidate it returns carries a record that
    was in the store while it ran, and the key of a due or lease entry of that
    record's job. *)

From S2P Require Import Prelude Errors Ids Clock Policy JobRecord Wire KeyCodec ValueCodec JobCodec.
From S2P Require Import JobRoundtrip OperationCodec Keyspace Store Prog Logic System Transition Permits Claim.
From S2P Require Import Completion Refs Invariant Update Protocol Steps Moves Held Claimed Controls.
From S2P Require Import Fairness Budgets Discovery Candidate CandidateSafe.

(** ** Budgets *)

Definition budget_ok (b : DiscoveryBudget) : Prop := 0 ≤ dg_remaining_items b ∧ 0 ≤ dg_remaining_bytes b.

Lemma DiscoveryBudget_new_ok : budget_ok DiscoveryBudget_new.
Proof. by vm_compute. Qed.

Lemma reserve_entry_ok e b b' : reserve_entry e b = Some b' → budget_ok b → budget_ok b'.
Proof.
  unfold reserve_entry, budget_ok, saturating_sub. destruct (_ || _); [done|]. intros [= <-]. cbn. lia.
Qed.

Lemma reserve_record_value_ok n b b' : reserve_record_value n b = Some b' → budget_ok b → budget_ok b'.
Proof. unfold reserve_record_value, budget_ok, saturating_sub. destruct (_ <? _); [done|]. intros [= <-]. cbn. lia. Qed.

Lemma reserve_record_keys_ok keys b : budget_ok b → budget_ok (reserve_record_keys keys b).
Proof. unfold reserve_record_keys, budget_ok, saturating_sub. cbn. lia. Qed.

Definition limits_ok (l : RangeLimits) : Prop := 0 < rl_item_limit l ∧ 0 < rl_byte_limit l < USIZE_MAX.

Lemma range_limits_ok caps requested b l :
  0 < cap_max_range_items caps ∧ 0 < cap_max_range_bytes caps → budget_ok b →
  range_limits caps requested b = Some l → limits_ok l.
Proof.
  intros [Hi Hb] [Hbi Hbb]. unfold range_limits, bounded_range_limits.
  destruct (checked _ _ _) as [items|] eqn:Hc; [|done]. cbn. destruct (Z.eqb_spec items 0); [done|].
  destruct (Z.eqb_spec (Z.min (Z.min (dg_remaining_bytes b) MAX_INDEX_RANGE_BYTES) (cap_max_range_bytes caps)) 0); [done|].
  intros [= <-]. unfold limits_ok. cbn. unfold checked in Hc. destruct (in_range _ _ _) eqn:Hr; [|done].
  injection Hc as <-. unfold in_range in Hr. assert (MAX_INDEX_RANGE_BYTES < USIZE_MAX) by (vm_compute; done).
  assert (0 < MAX_INDEX_RANGE_BYTES) by (vm_compute; done). lia.
Qed.

(** ** Scans *)

(** Entries whose keys a [Vec] can hold. *)
Definition sized (entries : list RangeEntry) : Prop := Forall (λ e, len (re_key e) ≤ USIZE_MAX) entries.

Lemma page_sized entries request page :
  range_contract entries request page → rq_byte_limit request < USIZE_MAX → sized (pg_entries page).
Proof.
  intros [_ _ _ Hb] Hl. unfold RangePage_total_bytes in Hb. unfold sized. revert Hb. generalize (pg_entries page) as l.
  assert (∀ l : list RangeEntry, 0 ≤ fold_right (λ e acc, len (re_key e) + len (re_value e) + acc) 0 l) as Hpos.
  { induction l as [|e l IH]; cbn; [lia|]. pose proof (len_nonneg (re_key e)). pose proof (len_nonneg (re_value e)). lia. }
  induction l as [|e l IH]; cbn; intros Hb; [constructor|]. pose proof (Hpos l). pose proof (len_nonneg (re_key e)).
  pose proof (len_nonneg (re_value e)). constructor; [lia|apply IH; lia].
Qed.

Lemma append_entries_spec l scan b :
  let '(scan', b') := append_entries l scan b in
  (budget_ok b → budget_ok b') ∧
  ∃ taken, sn_entries scan' = sn_entries scan ++ taken ∧ taken `prefix_of` l ∧
    (sn_stop_reason scan = None → sn_stop_reason scan' = None → taken = l).
Proof.
  revert scan b. induction l as [|e l IH]; intros scan b; cbn [append_entries].
  { split; [done|]. exists []. by rewrite app_nil_r. }
  destruct (reserve_entry e b) as [b1|] eqn:Hr.
  - specialize (IH (mkDiscoveryScan (sn_entries scan ++ [e]) (sn_stop_reason scan)) b1).
    destruct (append_entries l _ b1) as [scan' b']. destruct IH as (Hb & taken & Ht & Hp & Hs). cbn in *.
    split; [intros; apply Hb; by eapply reserve_entry_ok|]. exists (e :: taken). split; [by rewrite Ht, <- app_assoc|].
    split; [by apply prefix_cons|]. intros H1 H2. by rewrite Hs.
  - split; [done|]. exists []. cbn. rewrite app_nil_r. split; [done|]. split; [apply prefix_nil|done].
Qed.

Lemma sized_prefix l l' : l `prefix_of` l' → sized l' → sized l.
Proof. intros [k ->]. unfold sized. by intros [? _]%Forall_app. Qed.

Section scans.
Context (ns : Namespace) (sha256 : bytes → bytes) (Hns : is_opaque MAX_NAMESPACE_BYTES ns = true).
#[local] Instance disc : Discipline := engine_discipline ns sha256.
Implicit Types w : world.
Context {E : Type} (system : JobSystem) (Hsys : system_ok ns sha256 system) (request : DriveRequest) (clock : DriveClock).

(** A read keeps the process and lets time pass. *)
Definition after {A} (P : A → world → Prop) mine w (a : A) mine' w' : Prop :=
  mine' = mine ∧ extends mine w w' ∧ P a w'.

Lemma wpj_after_bind {A B} (P : A → world → Prop) (Q : B → world → Prop) mine w (p : job E A) (k : A → job E B) :
  wpj mine w p (after P mine w) →
  (∀ a w', extends mine w w' → P a w' → wpj mine w' (k a) (after Q mine w')) →
  wpj mine w (p ≫= k) (after Q mine w).
Proof.
  intros Hp Hk. apply wpj_bind. eapply wpj_mono; [exact Hp|]. intros a mine' w' _ (-> & He & HP).
  eapply wpj_mono; [by apply Hk|]. intros b mine' w2 _ (-> & He2 & HQ). split; [done|]. split; [by eapply extends_trans|done].
Qed.

Lemma wpj_after_ret {A} (Q : A → world → Prop) mine w (a : A) :
  (∀ w', extends mine w w' → Q a w') → wpj mine w (mret a : job E A) (after Q mine w).
Proof. intros H. apply wpj_ret. intros w' He. split; [done|]. auto. Qed.

Lemma wpj_read_index_page mine w tag queue continuation limits :
  limits_ok limits →
  wpj mine w (read_index_page (E := E) system tag queue continuation limits)
    (after (λ page _, sized (pg_entries page)) mine w).
Proof.
  intros (Hi & Hb). unfold read_index_page. apply wpj_try. intros prefix _. apply wpj_try. intros range Hr.
  assert (range = mkRangeRequest (Some prefix) (KeyCodec_prefix_end prefix) Forward (rl_item_limit limits)
    (rl_byte_limit limits) continuation) as ->.
  { unfold RangeRequest_try_from in Hr. repeat (case_match; [done|]). congruence. }
  intros w1 He x mine' w2 (-> & -> & Hx). split; [apply step_ok_refl; by eapply ex_valid|].
  intros w3 He3. destruct x as [page|e]; [|done]. cbn. split; [done|]. split; [by eapply extends_trans|].
  eapply page_sized; [by apply Hx|]. cbn. lia.
Qed.

Definition scan_ok (x : DiscoveryScan * budgets) (_ : world) : Prop := sized (sn_entries x.1) ∧ budget_ok x.2.2.

Lemma wpj_collect_pages fuel mine w tag queue page previous scan bs :
  sized (pg_entries page) → scan_ok (scan, bs) w →
  wpj mine w (collect_pages (E := E) system request clock fuel tag queue page previous scan bs) (after scan_ok mine w).
Proof.
  revert w page previous scan bs. induction fuel as [|fuel IH]; intros w page previous scan bs Hp [Hs Hb];
    cbn [collect_pages]; pose proof (append_entries_spec (pg_entries page) scan bs.2) as Ha;
    destruct (append_entries _ _ _) as [scan1 b1]; destruct Ha as (Hb1 & taken & Ht & Htp & _);
    (assert (scan_ok (scan1, (bs.1, b1)) w) as Hok
       by (split; cbn; [rewrite Ht; apply Forall_app; split; [done|by eapply sized_prefix]|by apply Hb1]));
    cbn zeta; (destruct (sn_stop_reason scan1); [by apply wpj_after_ret|]);
    (destruct (pg_continuation page) as [continuation|]; [|by apply wpj_after_ret]).
  all: apply (wpj_after_bind (λ x _, ∀ l n, x = inr (l, n) → limits_ok l)).
  1,3: unfold prepare_next_page; case_bool_decide; [by apply wpj_after_ret|]; apply wpj_ambient; intros w1 now He1;
    apply wpj_ret; intros w2 He2; (split; [done|]); (split; [by eapply extends_trans|]); intros l n;
    destruct (claim_deadline_reached request now); [done|]; cbn [fst snd];
    destruct (range_limits _ _ _) as [limits|] eqn:Hl; [|done]; destruct (reserve 1 _); [|done]; intros [= -> ->];
    (eapply range_limits_ok; [apply Hsys|by apply Hb1|exact Hl]).
  all: intros [reason|[limits operations]] w1 He1 Hx; try by apply wpj_after_ret.
  apply (wpj_after_bind (λ page _, sized (pg_entries page))); [apply wpj_read_index_page; by eapply Hx|].
  intros page' w2 He2 Hp'. apply IH; [done|]. destruct Hok. by split.
Qed.

Lemma wpj_scan_lane mine w tag queue bs :
  budget_ok bs.2 →
  wpj mine w (scan_lane (E := E) system request clock tag queue bs)
    (after (λ x _, budget_ok x.2.2 ∧ ∀ scan, x.1 = Some scan → sized (sn_entries scan)) mine w).
Proof.
  intros Hb. unfold scan_lane. destruct (range_limits _ _ _) as [limits|] eqn:Hl; [|by apply wpj_after_ret; split].
  destruct (reserve 1 _) as [operations|]; [|by apply wpj_after_ret; split].
  apply (wpj_after_bind (λ page _, sized (pg_entries page))).
  { apply wpj_read_index_page. eapply range_limits_ok; [apply Hsys|exact Hb|exact Hl]. }
  intros page w1 He1 Hp. apply (wpj_after_bind scan_ok); [apply wpj_collect_pages; [done|split; [constructor|done]]|].
  intros [scan bs'] w2 He2 [Hs Hb']. apply wpj_after_ret. intros w3 _. split; [done|]. by intros ? [= <-].
Qed.

Definition found_ok (x : QueueDiscovery * budgets) (_ : world) : Prop :=
  sized (qd_due_entries x.1) ∧ sized (qd_lease_entries x.1) ∧ budget_ok x.2.2.

Lemma wpj_discover_queue mine w queue bs :
  budget_ok bs.2 → wpj mine w (discover_queue (E := E) system request clock queue bs) (after found_ok mine w).
Proof.
  intros Hb. unfold discover_queue. eapply wpj_after_bind; [by apply wpj_scan_lane|].
  intros [due bs1] w1 He1 [Hb1 Hd]. destruct due as [due|]; [|apply wpj_after_ret; intros w2 _; split; [constructor|split; [constructor|done]]].
  eapply wpj_after_bind; [by apply wpj_scan_lane|]. intros [lease bs2] w2 He2 [Hb2 Hl].
  destruct lease as [lease|]; apply wpj_after_ret; intros w3 _.
  - unfold finish_queue. destruct (is_exhausted _); (split; cbn; [by apply Hd|split; [by apply Hl|done]]).
  - split; [by apply Hd|]. split; [constructor|done].
Qed.

(** ** Routes *)

#[local] Transparent DueK LeaseK.

Definition due_ok (d : DueDiscoveryEntry) : Prop :=
  re_key (de_entry d) = DueK ns (de_queue d) (de_when d) (de_job_id d) ∧ is_fixed_id (de_job_id d) = true.
Definition lease_ok (d : LeaseDiscoveryEntry) : Prop :=
  re_key (le_entry d) = LeaseK ns (le_queue d) (le_job_id d) ∧ is_fixed_id (le_job_id d) = true.
Definition route_found (route : DiscoveryRoute) : Prop :=
  match route with Route_Due d => due_ok d | Route_Lease d => lease_ok d end.

Lemma parse_decode k tag cs :
  len k ≤ USIZE_MAX → KeyCodec_decode_borrowed ns k = Ok (tag, cs) → k = key_layout ns tag cs.
Proof. intros Hl Hd. apply KeyCodec_decode_Ok in Hd as [-> _]; [done|by apply ns_fits|done]. Qed.

Lemma QueueName_try_new_val bs q : QueueName_try_new bs = Ok q → q = bs.
Proof. unfold QueueName_try_new, ValidatedText_try_new. intros H. repeat (case_match; try done). congruence. Qed.

Lemma decode_due_key_inv k d :
  len k ≤ USIZE_MAX → decode_due_key ns k = Ok (Some d) →
  k = DueK ns (dk_queue d) (dk_when d) (dk_job_id d) ∧ is_fixed_id (dk_job_id d) = true.
Proof.
  intros Hl Hd. unfold decode_due_key in Hd. apply bind_Ok in Hd as ([tag cs] & Hk & Hd).
  apply parse_decode in Hk; [|done]. case_bool_decide; [|done]. subst tag. cbn [negb] in Hd.
  destruct cs as [|q [|t [|j [|]]]]; try done. destruct (is_str q); [|done]. cbn [negb] in Hd.
  destruct (_ || _); [done|]. destruct (Z.eqb_spec (len t) 8) as [Ht|]; [|done]. cbn [negb] in Hd.
  apply bind_Ok in Hd as (job_id & Hj & Hd). apply map_err_Ok in Hj. apply fixed_try_from_slice_Ok in Hj as [-> Hj].
  injection Hd as <-. cbn. split; [|done]. assert (length t = 8%nat) as Ht8 by (unfold len in Ht; lia).
  unfold DueK. by rewrite i64_bytes_exact.
Qed.

Lemma decode_due_entry_ok queue e d :
  len (re_key e) ≤ USIZE_MAX → decode_due_entry system queue e = Some d → due_ok d.
Proof.
  unfold decode_due_entry. rewrite (sk_namespace _ _ _ Hsys). intros Hl Hd.
  destruct (decode_due_key ns (re_key e)) as [[k|]|] eqn:Hk; try done.
  destruct (decode_due_key_inv _ _ Hl Hk) as [Hkey Hj].
  assert (∀ q, q = dk_queue k → due_ok (mkDueDiscoveryEntry e q (dk_job_id k) (dk_when k))) as Hok by by intros q ->.
  destruct queue as [queue|].
  - destruct (bytes_eqb _ _) eqn:Hq; [|done]. apply bytes_eqb_spec in Hq. injection Hd as <-. by apply Hok.
  - destruct (QueueName_try_new _) as [q|] eqn:Hq; [|done]. injection Hd as <-. apply Hok.
    by eapply QueueName_try_new_val.
Qed.

Lemma decode_lease_key_inv k q j :
  len k ≤ USIZE_MAX → decode_lease_key system k = Some (q, j) → k = LeaseK ns q j ∧ is_fixed_id j = true.
Proof.
  unfold decode_lease_key. rewrite (sk_namespace _ _ _ Hsys). intros Hl Hd.
  destruct (KeyCodec_decode_borrowed ns k) as [[tag cs]|] eqn:Hk; [|done]. apply parse_decode in Hk; [|done].
  destruct tag; try done. destruct cs as [|qb [|jb [|]]]; try done. destruct (is_str qb); [|done].
  destruct (QueueName_try_new qb) as [q'|] eqn:Hq; [|done].
  destruct (fixed_try_from_slice _ jb) as [j'|] eqn:Hj; [|done]. injection Hd as -> ->.
  apply fixed_try_from_slice_Ok in Hj as [-> Hj]. split; [|done]. apply QueueName_try_new_val in Hq as ->. exact Hk.
Qed.

Lemma decode_lease_entry_ok e d :
  len (re_key e) ≤ USIZE_MAX → decode_lease_entry system request e = Some d → lease_ok d.
Proof.
  unfold decode_lease_entry. intros Hl Hd. destruct (decode_lease_key _ _) as [[q j]|] eqn:Hk; [|done].
  apply decode_lease_key_inv in Hk as [Hk Hj]; [|done]. destruct (negb _); [done|].
  destruct (ValueCodec_decode_body _) as [[tag body]|]; [|done]. destruct (_ || _); [done|]. injection Hd as <-. done.
Qed.

Definition routes_ok (routes : RouteEntries) : Prop :=
  Forall due_ok (rt_due_entries routes) ∧ Forall lease_ok (rt_lease_entries routes).

Lemma Forall_omap {A B} (f : A → option B) (P : A → Prop) (Q : B → Prop) l :
  (∀ a b, P a → f a = Some b → Q b) → Forall P l → Forall Q (omap f l).
Proof.
  intros H. induction 1 as [|a l Ha _ IH]; cbn; [constructor|]. destruct (f a) as [b|] eqn:Hf; [|done]. constructor; eauto.
Qed.

Lemma collect_entries_ok queue x bs routes w :
  found_ok (x, bs) w → routes_ok routes → routes_ok (collect_entries system request queue x routes).
Proof.
  intros (Hd & Hl & _) [H1 H2]. split; apply Forall_app; (split; [done|]).
  - eapply Forall_omap; [|exact Hd]. intros e d. apply decode_due_entry_ok.
  - eapply Forall_omap; [|exact Hl]. intros e d. apply decode_lease_entry_ok.
Qed.

Lemma wpj_discover_queues mine w queues routes bs :
  routes_ok routes → budget_ok bs.2 →
  wpj mine w (discover_queues (E := E) system request clock queues routes bs)
    (after (λ x _, routes_ok x.1 ∧ budget_ok x.2.2) mine w).
Proof.
  revert w routes bs. induction queues as [|queue queues IH]; intros w routes bs Hr Hb; cbn [discover_queues];
    [by apply wpj_after_ret|].
  eapply wpj_after_bind; [by apply wpj_discover_queue|]. intros [x bs1] w1 He1 Hx. cbn zeta.
  pose proof (collect_entries_ok queue x bs1 routes w1 Hx Hr) as Hr1. destruct Hx as (_ & _ & Hb1).
  destruct (qd_stop_now x); [by apply wpj_after_ret|]. by apply IH.
Qed.

#[local] Opaque DueK LeaseK.

(** ** Records *)

Lemma route_candidate_seen w route e c :
  route_found route → route_candidate request route (Some e) = Some c →
  w_now w !! JobK ns (route_job_id route) = Some e → valid w → candidate_seen ns sha256 w c.
Proof.
  intros Hr Hc He Hv. assert (extends ∅ w w) as Hrefl by by apply extends_refl.
  destruct route as [d|d]; cbn [route_candidate route_found route_job_id] in Hc, Hr, He; destruct Hr as [Hk Hj].
  - destruct (decode_due_candidate d (Some e)) as [[r e']|] eqn:Hd; [|done]. injection Hc as <-.
    unfold decode_due_candidate in Hd. cbn in Hd. destruct (decode_job_record e) as [r0|] eqn:Hr; [|done].
    destruct (decode_timestamp_value _ _) as [t|]; [|done]. destruct (_ && _) eqn:Hb; [|done]. injection Hd as <- <-.
    split_andb. unfold candidate_seen. cbn.
    match goal with H : bytes_eqb (jr_job_id _) _ = true |- _ => apply bytes_eqb_spec in H; rewrite H end.
    match goal with H : bytes_eqb (jr_queue _) _ = true |- _ => apply bytes_eqb_spec in H; rewrite H end.
    split; [done|]. split; [by exists (de_when d)|]. by exists w.
  - destruct (decode_lease_candidate request d (Some e)) as [[[r e'] t]|] eqn:Hd; [|done]. injection Hc as <-.
    unfold decode_lease_candidate in Hd. cbn in Hd. destruct (decode_job_record e) as [r0|] eqn:Hr; [|done].
    destruct (_ || _) eqn:Hb; [done|]. apply orb_false_iff in Hb as [H1%negb_false_iff H2%negb_false_iff].
    apply bytes_eqb_spec in H1, H2. destruct (jr_state r0); try done. destruct (queue_selected _ _); [|done].
    injection Hd as <- <- <-. unfold candidate_seen. cbn. rewrite H1, H2. split; [done|]. split; [done|]. by exists w.
Qed.

Definition discovered_seen w (d : Discovery) : Prop := Forall (candidate_seen ns sha256 w) (ds_candidates d).

Lemma discovered_seen_extends mine w w' d : extends mine w w' → discovered_seen w d → discovered_seen w' d.
Proof. intros He Hd. eapply Forall_impl; [exact Hd|]. intros c. by apply (candidate_seen_extends ns sha256 mine). Qed.

Lemma Discovery_record_seen w c now d :
  candidate_seen ns sha256 w c → discovered_seen w d → discovered_seen w (Discovery_record c now d).
Proof. intros Hc Hd. unfold discovered_seen, Discovery_record. case_match; cbn; apply Forall_app; (split; [done|by apply Forall_singleton]). Qed.

Lemma process_batch_seen w now routes d b :
  valid w → Forall route_found routes → discovered_seen w d → budget_ok b →
  let '(_, d', b') := process_batch request now routes ((λ r, w_now w !! JobK ns (route_job_id r)) <$> routes) d b in
  discovered_seen w d' ∧ budget_ok b'.
Proof.
  intros Hv Hr. revert d b. induction Hr as [|route routes Hroute _ IH]; intros d b Hd Hb; cbn; [done|].
  destruct (reserve_record_value _ b) as [b1|] eqn:Hrv; [|done]. apply IH; [|by eapply reserve_record_value_ok].
  destruct (w_now w !! JobK ns (route_job_id route)) as [e|] eqn:He; last by destruct route.
  destruct (route_candidate request route (Some e)) as [c|] eqn:Hc; [|done].
  apply Discovery_record_seen; [|done]. by eapply route_candidate_seen.
Qed.

Lemma wpj_load_batch mine w now routes d b :
  Forall route_found routes → discovered_seen w d → budget_ok b →
  wpj mine w (load_batch (E := E) system request now routes ((λ r, JobK ns (route_job_id r)) <$> routes) d b)
    (after (λ '(_, d', b') w', discovered_seen w' d' ∧ budget_ok b') mine w).
Proof.
  intros Hr Hd Hb. unfold load_batch. cbn zeta. apply wpj_read_many. intros w1 vs He1 ->.
  destruct (negb _); [done|]. apply wpj_ret. intros w2 He2. split; [done|]. split; [by eapply extends_trans|].
  rewrite <- list_fmap_compose. pose proof (ex_valid _ _ _ He1) as Hv1.
  pose proof (process_batch_seen w1 now routes d (reserve_record_keys ((λ r, JobK ns (route_job_id r)) <$> routes) b) Hv1 Hr) as H.
  unfold compose. destruct (process_batch _ _ _ _ _ _) as [[ok d'] b'].
  destruct H as [Hd' Hb']; [by eapply discovered_seen_extends|by apply reserve_record_keys_ok|].
  split; [by eapply discovered_seen_extends|done].
Qed.

Lemma wpj_load_records fuel mine w now routes d bs :
  Forall route_found routes → discovered_seen w d → budget_ok bs.2 →
  wpj mine w (load_records (E := E) system request fuel now routes ((λ r, JobK ns (route_job_id r)) <$> routes) d bs)
    (after (λ x w', discovered_seen w' x.1) mine w).
Proof.
  revert w routes d bs. induction fuel as [|fuel IH]; intros w routes d bs Hr Hd Hb; cbn [load_records]; cbn zeta;
    (destruct routes as [|route routes]; [apply wpj_after_ret; intros w' He; by eapply discovered_seen_extends|]); cbn [fmap list_fmap].
  { apply wpj_after_ret; intros w' He; by eapply discovered_seen_extends. }
  rewrite <- (fmap_cons (λ r, JobK ns (route_job_id r)) route routes). set (rs := route :: routes) in *.
  destruct (record_batch_len _ _ _ _ _) as [n|]; [|apply wpj_after_ret; intros w' He; by eapply discovered_seen_extends].
  destruct (reserve 1 _) as [operations|]; [|apply wpj_after_ret; intros w' He; by eapply discovered_seen_extends].
  rewrite <- !fmap_take, <- !fmap_drop.
  eapply wpj_after_bind; [apply wpj_load_batch; [by apply Forall_take|done|done]|].
  intros [[within d'] b'] w1 He1 [Hd' Hb']. destruct (_ || _).
  - apply wpj_after_ret. intros w2 He2. by eapply discovered_seen_extends.
  - apply IH; [by apply Forall_drop|done|done].
Qed.

Lemma record_keys_Ok routes keys :
  Forall route_found routes → try_map (λ r, job_key (sys_namespace system) (route_job_id r)) routes = Ok keys →
  keys = (λ r, JobK ns (route_job_id r)) <$> routes.
Proof.
  rewrite (sk_namespace _ _ _ Hsys). intros Hr. revert keys. induction Hr as [|route routes Hroute _ IH]; intros keys Hk.
  { by injection Hk as <-. }
  cbn in Hk. rewrite job_key_Ok in Hk; [|done|by destruct route; destruct Hroute]. cbn in Hk.
  apply bind_Ok in Hk as (keys' & Hk' & Hk). injection Hk as <-. cbn. f_equal. by apply IH.
Qed.

Lemma wpj_discover mine w now operations :
  wpj mine w (discover (E := E) system request clock now operations) (after (λ x w', discovered_seen w' x.1) mine w).
Proof.
  unfold discover. eapply wpj_after_bind; [apply wpj_discover_queues; [by split|apply DiscoveryBudget_new_ok]|].
  intros [routes bs] w1 He1 [[Hd Hl] Hb]. cbn zeta. set (rs := (Route_Due <$> _) ++ (Route_Lease <$> _)).
  assert (Forall route_found rs) as Hrs by (apply Forall_app; by rewrite !Forall_fmap).
  apply wpj_try. intros keys ->%record_keys_Ok; [|done].
  eapply wpj_after_bind; [apply wpj_load_records; [done|constructor|done]|].
  intros [d bs'] w2 He2 Hd'. apply wpj_after_ret. intros w3 He3. by eapply discovered_seen_extends.
Qed.
End scans.
