(* ===== verification/DiscoveryComplete.v ===== *)
(** * What a discovery does not miss

    A discovery reads its indexes page by page while other processes change
    the store.  If it is not stopped by its budget, it finds every job that
    waits, or stays leased, in a selected queue all the while it runs. *)

From S2P Require Import Prelude Errors Ids Clock Policy JobRecord Wire KeyCodec ValueCodec JobCodec.
From S2P Require Import JobRoundtrip OperationCodec Keyspace Store Prog Logic System Transition Permits Claim.
From S2P Require Import Completion Refs Invariant Update Protocol Steps Moves Held Claimed Controls.
From S2P Require Import Fairness Budgets Discovery Candidate CandidateSafe DiscoverySafe.

(** ** Pages *)

(** The request for the entries of a prefix behind a cursor. *)
Definition behind (prefix : StoreKey) (cursor : option StoreKey) (k : StoreKey) : bool :=
  selected (mkRangeRequest (Some prefix) (KeyCodec_prefix_end prefix) Forward 1 1 cursor) (k, []).

Lemma behind_start prefix k : prefix `prefix_of` k → behind prefix None k = true.
Proof.
  intros Hp%in_prefix_range_spec. unfold behind, selected. rewrite andb_true_r. unfold within_range, in_prefix_range in *.
  cbn in *. by destruct (KeyCodec_prefix_end prefix).
Qed.

(** A page holds an entry that is there, or its cursor is before it. *)
Lemma page_covers m prefix limits cursor page k v :
  range_contract m (mkRangeRequest (Some prefix) (KeyCodec_prefix_end prefix) Forward (rl_item_limit limits)
    (rl_byte_limit limits) cursor) page →
  m !! k = Some v → behind prefix cursor k = true →
  mkRangeEntry k v ∈ pg_entries page ∨
  ∃ next, pg_continuation page = Some next ∧ behind prefix (Some next) k = true.
Proof.
  intros [Hs _ _ _] Hk Hb.
  assert (mkRangeEntry k v ∈ range_entries m (mkRangeRequest (Some prefix) (KeyCodec_prefix_end prefix) Forward
    (rl_item_limit limits) (rl_byte_limit limits) cursor)) as Hin.
  { unfold range_entries. apply (list_elem_of_fmap_2' entry_of _ (k, v)); [|done].
    apply list_elem_of_In, filter_In. split; [|exact Hb]. apply list_elem_of_In. by apply btree_iter_elem. }
  rewrite Hs in Hin. apply elem_of_app in Hin as [Hin|Hin]; [by left|].
  destruct (pg_continuation page) as [next|]; [|by apply not_elem_of_nil in Hin]. right. exists next. split; [done|].
  unfold range_entries in Hin. apply list_elem_of_fmap in Hin as ([k' v'] & Heq & Hin). injection Heq as <- <-.
  apply list_elem_of_In, filter_In in Hin as [_ Hsel]. exact Hsel.
Qed.

Section complete.
Context (ns : Namespace) (sha256 : bytes → bytes) (Hns : is_opaque MAX_NAMESPACE_BYTES ns = true).
#[local] Instance disc : Discipline := engine_discipline ns sha256.
Implicit Types w : world.
Implicit Types m : StoreMap.
Implicit Types mine : gset bytes.

(** [P] holds in every state of the store from [w] to [w']. *)
Definition throughout (P : StoreMap → Prop) w w' : Prop :=
  ∃ newer, states w' = newer ++ w_past w ∧ Forall P newer.
(** The same of the worlds in between. *)
Definition stays (P : StoreMap → Prop) w w' : Prop := ∀ w1, extends ∅ w w1 → extends ∅ w1 w' → P (w_now w1).

Lemma throughout_stays P w w' : throughout P w w' → stays P w w'.
Proof.
  intros (newer & Hst & Hf) w1 [[l1 H1] _ _ _ _ _] [[l2 H2] _ _ _ _ _]. unfold states in *.
  rewrite H2, H1, app_assoc, (app_assoc _ [w_now w] (w_past w)) in Hst. apply app_inv_tail in Hst as <-.
  rewrite Forall_forall in Hf. apply Hf. rewrite <- app_assoc. apply elem_of_app. right.
  destruct l1 as [|m l1]; injection H1 as -> _; set_solver.
Qed.

Lemma stays_after P mine w w1 w' : stays P w w' → extends mine w w1 → stays P w1 w'.
Proof.
  intros Hs He w2 H1 H2. apply Hs; [|done]. eapply extends_trans; [by eapply extends_empty|done].
Qed.
Lemma stays_before P mine w w1 w' : stays P w w' → extends mine w1 w' → stays P w w1.
Proof.
  intros Hs He w2 H1 H2. apply Hs; [done|]. eapply extends_trans; [done|by eapply extends_empty].
Qed.
Lemma stays_at P mine w w1 w' : stays P w w' → extends mine w w1 → extends mine w1 w' → P (w_now w1).
Proof. intros Hs H1 H2. apply Hs; by eapply extends_empty. Qed.

(** ** The logic of reads that go on *)

Context {E : Type} (system : JobSystem) (Hsys : system_ok ns sha256 system) (request : DriveRequest) (clock : DriveClock).

(** What a read found, if [P] held all the while. *)
Definition finds {A : Type} (P : StoreMap → Prop) (mine : gset bytes) w (Q : A → Prop) : A → gset bytes → world → Prop :=
  after ns sha256 (λ a w', stays P w w' → Q a) mine w.

Lemma wpj_finds_bind {A B} P (R : A → Prop) (Q : B → Prop) mine w (p : job E A) (k : A → job E B) :
  wpj mine w p (finds P mine w R) →
  (∀ a w', extends mine w w' → wpj mine w' (k a) (finds P mine w' (λ b, R a → Q b))) →
  wpj mine w (p ≫= k) (finds P mine w Q).
Proof.
  intros Hp Hk. apply wpj_bind. eapply wpj_mono; [exact Hp|]. intros a mine' w1 _ (-> & He & HR).
  eapply wpj_mono; [by apply Hk|]. intros b mine' w2 _ (-> & He2 & HQ). split; [done|]. split; [by eapply extends_trans|].
  intros Hs. apply HQ; [by eapply stays_after|]. apply HR. by eapply stays_before.
Qed.

Lemma wpj_finds_ret {A} P (Q : A → Prop) mine w (a : A) : Q a → wpj mine w (mret a : job E A) (finds P mine w Q).
Proof. intros H. apply wpj_after_ret. by intros w' _ _. Qed.

Lemma wpj_finds_mono {A} P (R Q : A → Prop) mine w (p : job E A) :
  wpj mine w p (finds P mine w R) → (∀ a, R a → Q a) → wpj mine w p (finds P mine w Q).
Proof. intros Hp H. eapply wpj_mono; [exact Hp|]. intros a mine' w' _ (-> & He & HR). split; [done|]. split; [done|]. auto. Qed.

Lemma wpj_finds_quiet {A B} P (R : A → Prop) (Q : B → Prop) mine w (p : job E A) (k : A → job E B) :
  quiet p → outcomes R p → (∀ a w', extends mine w w' → R a → wpj mine w' (k a) (finds P mine w' Q)) →
  wpj mine w (p ≫= k) (finds P mine w Q).
Proof.
  intros Hp HR Hk. apply (wpj_quiet_bind ns sha256 _ _ _ _ _ _ Hp HR). intros a w1 He Ha.
  eapply wpj_mono; [by apply Hk|]. intros b mine' w2 _ (-> & He2 & HQ). split; [done|]. split; [by eapply extends_trans|].
  intros Hs. apply HQ. by eapply stays_after.
Qed.

Lemma wp_and {A} mine w (p : prog E A) (Φ Ψ : A → gset bytes → world → Prop) :
  wp mine w p Φ → wp mine w p Ψ → wp mine w p (λ a mine' w', Φ a mine' w' ∧ Ψ a mine' w').
Proof.
  revert mine w. induction p as [a|X o k IH]; cbn; [auto|]. intros mine w H1 H2 w1 He x mine' w2 Hx.
  destruct (H1 w1 He x mine' w2 Hx) as [Hs H1']. destruct (H2 w1 He x mine' w2 Hx) as [_ H2']. split; [done|by apply IH].
Qed.

(** A step of which something holds in any case. *)
Lemma wpj_finds_step {A B} P (S R : A → Prop) (Q : B → Prop) mine w (p : job E A) (k : A → job E B) :
  wpj mine w p (after ns sha256 (λ a _, S a) mine w) → wpj mine w p (finds P mine w R) →
  (∀ a w', extends mine w w' → S a → wpj mine w' (k a) (finds P mine w' (λ b, R a → Q b))) →
  wpj mine w (p ≫= k) (finds P mine w Q).
Proof.
  intros HS Hp Hk. apply wpj_bind. eapply wp_mono; [exact (wp_and _ _ _ _ _ HS Hp)|].
  intros [a|e] mine' w1 _; [|done]. intros [(-> & He & Ha) (_ & _ & HR)].
  eapply wpj_mono; [by apply Hk|]. intros b mine' w2 _ (-> & He2 & HQ). split; [done|]. split; [by eapply extends_trans|].
  intros Hs. apply HQ; [by eapply stays_after|]. apply HR. by eapply stays_before.
Qed.

(** ** Scans *)

Section lane.
Context (P : StoreMap → Prop) (tag : KeyTag) (queue : option QueueName) (k : StoreKey) (v : bytes).
Context (Hentry : ∀ w, valid w → P (w_now w) → w_now w !! k = Some v).
Context (Hprefix : ∀ prefix, index_prefix (E := E) system tag queue = Ok prefix → prefix `prefix_of` k).

(** An entry still to be read from [cursor] on. *)
Definition ahead (cursor : option StoreKey) : Prop :=
  ∀ prefix, index_prefix (E := E) system tag queue = Ok prefix → behind prefix cursor k = true.

Definition page_found (page : RangePage) : Prop :=
  mkRangeEntry k v ∈ pg_entries page ∨ ∃ next, pg_continuation page = Some next ∧ ahead (Some next).

Lemma wpj_page_covers mine w cursor limits :
  limits_ok limits →
  wpj mine w (read_index_page (E := E) system tag queue cursor limits) (finds P mine w (λ page, ahead cursor → page_found page)).
Proof.
  intros [Hi Hb]. unfold read_index_page. apply wpj_try. intros prefix Hp. apply wpj_try. intros range Hr.
  assert (range = mkRangeRequest (Some prefix) (KeyCodec_prefix_end prefix) Forward (rl_item_limit limits)
    (rl_byte_limit limits) cursor) as ->.
  { unfold RangeRequest_try_from in Hr. repeat (case_match; [done|]). congruence. }
  intros w1 He x mine' w2 (-> & -> & Hx). pose proof (ex_valid _ _ _ He) as Hv. split; [by apply step_ok_refl|].
  intros w3 He3. destruct x as [page|e]; [|done]. cbn. split; [done|]. split; [by eapply extends_trans|].
  intros Hs Ha. assert (w_now w1 !! k = Some v) as Hk by (apply Hentry; [done|by eapply stays_at]).
  destruct (page_covers _ _ _ _ _ _ _ (Hx _ eq_refl Hi Hb) Hk (Ha _ Hp)) as [Hin|(next & Hn & Hnb)]; [by left|right].
  exists next. split; [done|]. intros prefix' Hp'. by assert (prefix' = prefix) as -> by congruence.
Qed.

Definition scan_found (scan : DiscoveryScan) : Prop :=
  sn_stop_reason scan = None → mkRangeEntry k v ∈ sn_entries scan.

Lemma prepare_limits previous cursor bs :
  budget_ok bs.2 →
  outcomes (λ x, ∀ l n, x = inr (l, n) → limits_ok l) (prepare_next_page (E := E) system request clock previous cursor bs).
Proof.
  intros Hb. unfold prepare_next_page. case_bool_decide; [done|]. apply outcomes_any. intros now l n.
  destruct (claim_deadline_reached request now); [done|]. destruct (range_limits _ _ _) as [limits|] eqn:Hl; [|done].
  destruct (reserve 1 _); [|done]. intros [= -> ->]. eapply range_limits_ok; [apply Hsys|exact Hb|exact Hl].
Qed.

(** A scan that was not stopped read the entry, if it was read or ahead
    before. *)
Lemma wpj_collect_covers fuel mine w page previous scan bs :
  sn_stop_reason scan = None → budget_ok bs.2 →
  wpj mine w (collect_pages (E := E) system request clock fuel tag queue page previous scan bs)
    (finds P mine w (λ x, mkRangeEntry k v ∈ sn_entries scan ∨ page_found page → scan_found x.1)).
Proof.
  revert w page previous scan bs. induction fuel as [|fuel IH]; intros w page previous scan bs Hscan Hb;
    cbn [collect_pages]; pose proof (append_entries_spec (pg_entries page) scan bs.2) as Ha;
    destruct (append_entries _ _ _) as [scan1 b1]; destruct Ha as (Hb1 & taken & Ht & _ & Hall);
    cbn zeta; (destruct (sn_stop_reason scan1) eqn:Hstop; [by apply wpj_finds_ret; intros _ Hn; cbn in Hn; congruence|]);
    specialize (Hall Hscan eq_refl) as ->;
    (destruct (pg_continuation page) as [next|] eqn:Hnext;
      [|apply wpj_finds_ret; intros [Hin|[Hin|(? & [=] & _)]] _; cbn; rewrite Ht; set_solver]).
  all: eapply wpj_finds_quiet; [unfold prepare_next_page, clock_now; quiet|by apply prepare_limits, Hb1|];
    intros [reason|[limits operations]] w1 He1 Hl; try by apply wpj_finds_ret.
  eapply wpj_finds_bind; [by apply wpj_page_covers; eapply Hl|]. intros page' w2 He2.
  eapply wpj_finds_mono; [apply IH; [done|by apply Hb1]|]. cbn.
  intros x Hx Hpage [Hin|[Hin|(next' & Hn & Ha)]]; apply Hx; rewrite Ht; [left; set_solver..|right].
  assert (next' = next) as -> by congruence. by apply Hpage.
Qed.

Lemma wpj_lane_covers mine w bs :
  budget_ok bs.2 →
  wpj mine w (scan_lane (E := E) system request clock tag queue bs)
    (finds P mine w (λ x, ∀ scan, x.1 = Some scan → scan_found scan)).
Proof.
  intros Hb. unfold scan_lane. destruct (range_limits _ _ _) as [limits|] eqn:Hl; [|by apply wpj_finds_ret].
  destruct (reserve 1 _) as [operations|]; [|by apply wpj_finds_ret].
  eapply wpj_finds_bind; [apply wpj_page_covers; eapply range_limits_ok; [apply Hsys|exact Hb|exact Hl]|]. intros page w1 He1.
  eapply wpj_finds_bind; [by apply wpj_collect_covers|]. intros [scan bs'] w2 He2. apply wpj_finds_ret.
  intros Hscan Hpage ? [= <-]. apply Hscan. right. apply Hpage. intros prefix Hp. by apply behind_start, Hprefix.
Qed.
End lane.

(** ** Routes *)

Definition record_entries (routes : RouteEntries) : list DiscoveryRoute :=
  (Route_Due <$> rt_due_entries routes) ++ (Route_Lease <$> rt_lease_entries routes).

Lemma collect_entries_keeps queue x routes :
  record_entries routes ⊆ record_entries (collect_entries system request queue x routes).
Proof.
  intros r. unfold record_entries, collect_entries, collect_due_entries, collect_lease_entries. cbn.
  rewrite !fmap_app. set_solver.
Qed.

(** A job sought in the queue [q]: while [P] holds, the entry [k] of one of
    the two indexes is there with the value [v], and leads to [route], whose
    record makes a candidate that is [wanted]. *)
Record sought (P : StoreMap → Prop) (q : QueueName) (due : bool) (k : StoreKey) (v : bytes) (route : DiscoveryRoute)
    (wanted : Candidate → Prop) : Prop := {
  sg_entry w : valid w → P (w_now w) → w_now w !! k = Some v;
  sg_prefix queue prefix :
    queue = None ∨ queue = Some q →
    index_prefix (E := E) system (if due then KT_Due else KT_Lease) queue = Ok prefix → prefix `prefix_of` k;
  sg_route queue x routes :
    queue = None ∨ queue = Some q →
    mkRangeEntry k v ∈ (if due then qd_due_entries x else qd_lease_entries x) →
    route ∈ record_entries (collect_entries system request queue x routes);
  sg_candidate w :
    valid w → P (w_now w) →
    ∃ c, route_candidate request route (w_now w !! JobK ns (route_job_id route)) = Some c ∧ wanted c;
}.

Section seek.
Context P q due k v route wanted (Hsought : sought P q due k v route wanted).

Definition queue_found (x : QueueDiscovery) : Prop :=
  qd_stop_reason x = None → mkRangeEntry k v ∈ (if due then qd_due_entries x else qd_lease_entries x).

(** A queue stopped at once has a reason. *)
Definition queue_done (queue : option QueueName) (x : QueueDiscovery) : Prop :=
  (qd_stop_now x = true → qd_stop_reason x ≠ None) ∧ (queue = None ∨ queue = Some q → queue_found x).

Lemma wpj_queue_covers mine w queue bs :
  budget_ok bs.2 →
  wpj mine w (discover_queue (E := E) system request clock queue bs) (finds P mine w (λ x, queue_done queue x.1)).
Proof.
  intros Hb. destruct Hsought as [Hentry Hprefix _ _]. unfold discover_queue.
  set (found (tag : KeyTag) (x : option DiscoveryScan * budgets) :=
    tag = (if due then KT_Due else KT_Lease) → queue = None ∨ queue = Some q → ∀ scan, x.1 = Some scan → scan_found k v scan).
  assert (∀ w tag bs, budget_ok bs.2 →
    wpj mine w (scan_lane (E := E) system request clock tag queue bs) (finds P mine w (found tag))) as Hlane.
  { intros w' tag bs' Hb'.
    destruct (decide (tag = (if due then KT_Due else KT_Lease) ∧ (queue = None ∨ queue = Some q))) as [[-> Hq]|Hne].
    - eapply wpj_finds_mono; [apply wpj_lane_covers; [done| |done]|]; [by intros; eapply Hprefix|]. by intros x Hx _.
    - eapply wpj_mono; [by apply (wpj_scan_lane ns sha256)|]. intros x mine' w1 _ (-> & He & _). split; [done|]. split; [done|].
      intros _ ? ?. by destruct Hne. }
  eapply wpj_finds_step; [by apply (wpj_scan_lane ns sha256)|by apply Hlane|]. intros [due_scan bs1] w1 He1 [Hb1 _].
  destruct due_scan as [due_scan|]; [|by apply wpj_finds_ret].
  eapply wpj_finds_step; [by apply (wpj_scan_lane ns sha256)|by apply Hlane|]. intros [lease_scan bs2] w2 He2 [Hb2 _].
  destruct lease_scan as [lease_scan|]; apply wpj_finds_ret; [|done]. cbn. unfold finish_queue, queue_done, queue_found.
  destruct (is_exhausted _); [done|]. cbn. intros Hlease Hdue. split; [done|]. intros Hq Hstop.
  destruct (sn_stop_reason due_scan) eqn:Hs; [done|]. destruct due; [by apply Hdue|by apply Hlease].
Qed.

Definition routes_found (queues : list (option QueueName)) (routes routes' : RouteEntries) : Prop :=
  rt_stop_reason routes' = None →
  rt_stop_reason routes = None ∧
  (route ∈ record_entries routes ∨ None ∈ queues ∨ Some q ∈ queues → route ∈ record_entries routes').

Lemma wpj_queues_cover mine w queues routes bs :
  budget_ok bs.2 →
  wpj mine w (discover_queues (E := E) system request clock queues routes bs)
    (finds P mine w (λ x, routes_found queues routes x.1)).
Proof.
  revert w routes bs. induction queues as [|queue queues IH]; intros w routes bs Hb; cbn [discover_queues].
  { apply wpj_finds_ret. intros Hs. split; [done|]. cbn. set_solver. }
  eapply (wpj_finds_step _ (λ x, found_ok x w)); [by apply (wpj_discover_queue ns sha256)|by apply wpj_queue_covers|].
  intros [x bs1] w1 He1 (_ & _ & Hb1). cbn zeta. set (routes1 := collect_entries system request queue x routes).
  assert (queue_done queue x → qd_stop_now x = false → rt_stop_reason routes1 = None → rt_stop_reason routes = None ∧
    (route ∈ record_entries routes ∨ queue = None ∨ queue = Some q → route ∈ record_entries routes1)) as Hone.
  { intros [_ Hq] Hnow Hs. unfold routes1 in Hs. cbn in Hs. rewrite Hnow in Hs.
    destruct (rt_stop_reason routes) eqn:Hr; [done|]. split; [done|].
    intros [Hin|Hq']; [by apply collect_entries_keeps|]. apply (sg_route _ _ _ _ _ _ _ Hsought); [done|]. by apply Hq. }
  destruct (qd_stop_now x) eqn:Hnow.
  - apply wpj_finds_ret. intros [Hx _] Hs. cbn in Hs. rewrite Hnow in Hs. by destruct Hx.
  - eapply wpj_finds_mono; [by apply IH|]. cbn. intros y Hy Hx Hs. destruct (Hy Hs) as [Hs1 Hin].
    destruct (Hone Hx eq_refl Hs1) as [Hs0 Hin0]. split; [done|]. set_solver.
Qed.

(** ** Records *)

Definition has_wanted (d : Discovery) : Prop := ∃ c, c ∈ ds_candidates d ∧ wanted c.
Definition loaded (routes : list DiscoveryRoute) (d d' : Discovery) : Prop :=
  ds_stop_reason d' = None → ds_stop_reason d = None ∧ (route ∈ routes ∨ has_wanted d → has_wanted d').

Lemma Discovery_record_keeps c now d :
  ds_stop_reason (Discovery_record c now d) = ds_stop_reason d ∧
  ds_candidates (Discovery_record c now d) = ds_candidates d ++ [c].
Proof. unfold Discovery_record. by case_match. Qed.

Lemma process_batch_loads w now routes d b :
  valid w → P (w_now w) →
  let '(within, d', _) := process_batch request now routes ((λ r, w_now w !! JobK ns (route_job_id r)) <$> routes) d b in
  within = true → loaded routes d d'.
Proof.
  intros Hv HP. revert d b. induction routes as [|r routes IH]; intros d b; cbn.
  { intros _ Hs. split; [done|]. by intros [?%not_elem_of_nil|?]. }
  destruct (reserve_record_value _ b) as [b1|]; [|done].
  set (d1 := match route_candidate request r (w_now w !! JobK ns (route_job_id r)) with
             | Some c => Discovery_record c now d | None => d end). specialize (IH d1 b1).
  destruct (process_batch _ _ _ _ _ _) as [[within d'] b']. intros Hw Hs. destruct (IH Hw Hs) as [Hs1 Hin].
  assert (ds_stop_reason d1 = ds_stop_reason d ∧ (route = r ∨ has_wanted d → has_wanted d1)) as [Hs2 Hd].
  { unfold d1. destruct (sg_candidate _ _ _ _ _ _ _ Hsought w Hv HP) as (c0 & Hc0 & Hw0).
    destruct (route_candidate request r _) as [c|] eqn:Hc.
    - destruct (Discovery_record_keeps c now d) as [-> Hd]. split; [done|]. unfold has_wanted. rewrite Hd.
      intros [<-|(c' & Hc' & ?)]; [exists c0|exists c']; (split; [|done]); [|set_solver].
      assert (c0 = c) as -> by congruence. set_solver.
    - split; [done|]. intros [<-|?]; [congruence|done]. }
  split; [congruence|]. rewrite elem_of_cons. intuition.
Qed.

Lemma wpj_batch_loads mine w now routes d b :
  wpj mine w (load_batch (E := E) system request now routes ((λ r, JobK ns (route_job_id r)) <$> routes) d b)
    (finds P mine w (λ x, x.1.1 = true → loaded routes d x.1.2)).
Proof.
  unfold load_batch. cbn zeta. apply (wpj_read_many ns sha256). intros w1 vs He1 ->.
  destruct (negb _); [done|]. apply wpj_ret. intros w2 He2. split; [done|]. split; [by eapply extends_trans|].
  intros Hs. rewrite <- list_fmap_compose. pose proof (ex_valid _ _ _ He1) as Hv1.
  pose proof (process_batch_loads w1 now routes d (reserve_record_keys ((λ r, JobK ns (route_job_id r)) <$> routes) b) Hv1) as H.
  unfold compose. destruct (process_batch _ _ _ _ _ _) as [[ok d'] b']. apply H. by eapply stays_at.
Qed.

Lemma record_batch_len_pos keys mv mk mb b n : record_batch_len keys mv mk mb b = Some n → (0 < n)%nat.
Proof. unfold record_batch_len. destruct (Z.ltb_spec 0 (record_batch_from 0 0 0 keys mv mk mb b)); [|done]. intros [= <-]. lia. Qed.

Lemma loaded_refl d : loaded [] d d.
Proof. intros Hs. split; [done|]. by intros [?%not_elem_of_nil|?]. Qed.

Lemma loaded_trans rs1 rs2 d1 d2 d3 : loaded rs1 d1 d2 → loaded rs2 d2 d3 → loaded (rs1 ++ rs2) d1 d3.
Proof. intros H1 H2 Hs. destruct (H2 Hs) as [Hs2 Hin2]. destruct (H1 Hs2) as [Hs1 Hin1]. split; [done|]. set_solver. Qed.

Lemma wpj_records_load fuel mine w now routes d bs :
  (length routes ≤ fuel)%nat →
  wpj mine w (load_records (E := E) system request fuel now routes ((λ r, JobK ns (route_job_id r)) <$> routes) d bs)
    (finds P mine w (λ x, loaded routes d x.1)).
Proof.
  revert w routes d bs. induction fuel as [|fuel IH]; intros w routes d bs Hf; cbn [load_records]; cbn zeta;
    (destruct routes as [|r routes]; [apply wpj_finds_ret, loaded_refl|]); cbn [fmap list_fmap]; [cbn in Hf; lia|].
  rewrite <- (fmap_cons (λ r, JobK ns (route_job_id r)) r routes). set (rs := r :: routes) in *.
  destruct (record_batch_len _ _ _ _ _) as [n|] eqn:Hn; [|by apply wpj_finds_ret].
  apply record_batch_len_pos in Hn. destruct (reserve 1 _) as [operations|]; [|by apply wpj_finds_ret].
  rewrite <- !fmap_take, <- !fmap_drop. eapply wpj_finds_bind; [apply wpj_batch_loads|].
  intros [[within d'] b'] w1 He1. cbn. destruct within; [|by apply wpj_finds_ret]. destruct (is_exhausted b'); [by apply wpj_finds_ret|].
  eapply wpj_finds_mono; [apply IH; rewrite length_drop; lia|]. intros x Hx Hd. rewrite <- (take_drop n rs).
  eapply loaded_trans; [by apply Hd|done].
Qed.

Lemma wpj_discover_finds mine w now operations :
  queue_selected request q = true →
  wpj mine w (discover (E := E) system request clock now operations)
    (finds P mine w (λ x, ds_stop_reason x.1 = None → has_wanted x.1)).
Proof.
  intros Hq. unfold discover.
  eapply (wpj_finds_step _ (λ x, routes_ok ns x.1 ∧ budget_ok x.2.2));
    [apply (wpj_discover_queues ns sha256); [done..|by split|apply DiscoveryBudget_new_ok]
    |apply wpj_queues_cover, DiscoveryBudget_new_ok|].
  intros [routes bs] w1 He1 [[Hd Hl] Hb]. cbn zeta. fold (record_entries routes).
  assert (Forall (route_found ns) (record_entries routes)) as Hrs by (apply Forall_app; by rewrite !Forall_fmap).
  apply wpj_try. intros keys Hk. apply (record_keys_Ok ns sha256) in Hk as ->; [|done..]. rewrite length_fmap.
  eapply wpj_finds_bind; [by apply wpj_records_load|]. intros [d bs'] w2 He2. apply wpj_finds_ret. cbn.
  intros Hload Hroutes Hs. destruct (Hload Hs) as [Hs1 Hin]. destruct (Hroutes Hs1) as [_ Hroute]. apply Hin. left. apply Hroute.
  right. unfold selected_queues. unfold queue_selected in Hq. destruct (QueueSelection_is_all _); [left; set_solver|right].
  cbn in Hq. apply existsb_exists in Hq as (q' & Hin' & ->%bytes_eqb_spec). apply list_elem_of_In in Hin'. cbn.
  by apply list_elem_of_fmap_2.
Qed.
End seek.
End complete.

(** ** Jobs that wait, and jobs that are leased *)

Section jobs.
Context (ns : Namespace) (sha256 : bytes → bytes) (Hns : is_opaque MAX_NAMESPACE_BYTES ns = true).
#[local] Instance engine_disc : Discipline := engine_discipline ns sha256.
Implicit Types w : world.
Implicit Types m : StoreMap.
Implicit Types mine : gset bytes.
Implicit Types j : JobId.

(** The job [j] waits in the queue [q] to run at [t]. *)
Definition waits q (t : Timestamp) j m : Prop :=
  ∃ r, record_at ns m j = Some r ∧ jr_state r = Scheduled ∧ jr_queue r = q ∧ jr_scheduled_at r = t.
(** The job [j] of the queue [q] is leased. *)
Definition held q j m : Prop := ∃ r l, record_at ns m j = Some r ∧ jr_state r = Leased l ∧ jr_queue r = q.

Lemma found_record m j r :
  state_ok ns sha256 m → is_fixed_id j = true → record_at ns m j = Some r →
  ∃ e, m !! JobK ns j = Some e ∧ decode_job_record e = Ok r ∧ jr_job_id r = j ∧ is_job_record r = true ∧
    is_text MAX_NAME_BYTES (jr_queue r) = true.
Proof.
  intros Hs Hj Hr. destruct (record_at_spec ns sha256 m j r) as (e & []); [by apply so_job|done|].
  exists e. split_and!; try done. by apply typed_names.
Qed.

Lemma entry_there m j r k v :
  state_ok ns sha256 m → is_fixed_id j = true → record_at ns m j = Some r → is_index ns j k →
  (k, v) ∈ index_entries ns r → m !! k = Some v.
Proof.
  intros Hs Hj Hr Hk Hin. destruct (found_record m j r Hs Hj Hr) as (e & _ & _ & _ & Ht & _).
  rewrite (ji_index _ _ _ _ (so_job _ _ _ Hs j Hj) k Hk), Hr. by apply (index_at_in ns Hns).
Qed.

Lemma marker_decodes tag j : is_fixed_id j = true → ValueCodec_decode_body (marker_layout tag j) = Ok (tag, j).
Proof.
  intros Hj%is_fixed_id_len. apply ValueCodec_decode_body_Ok. split; [done|]. unfold MAX_VALUE_BODY_BYTES. lia.
Qed.

Lemma due_value_decodes t : is_i64 t = true → decode_timestamp_value (due_layout t) VT_Due = Ok t.
Proof.
  intros Ht. unfold decode_timestamp_value, ValueCodec_decode_timestamp, due_layout.
  rewrite (proj2 (ValueCodec_decode_body_Ok _ VT_Due (i64_bytes t))); last first.
  { split; [done|]. unfold i64_bytes. rewrite len_to_be_bytes. unfold MAX_VALUE_BODY_BYTES. lia. }
  cbn [mbind result_bind]. rewrite bool_decide_true by done. unfold i64_bytes at 1. rewrite len_to_be_bytes.
  cbn [Z.eqb Z.of_nat negb orb]. by rewrite from_be_i64_exact.
Qed.

#[local] Transparent DueK LeaseK.

Lemma decodes_DueK q t j :
  is_text MAX_NAME_BYTES q = true → is_i64 t = true → is_fixed_id j = true →
  decode_due_key ns (DueK ns q t j) = Ok (Some (mkDecodedDueKey q t j)).
Proof.
  intros Hq Ht Hj. apply due_key_decodes; try done.
  pose proof (due_key_Ok ns Hns q t j Hq Hj) as [_ Hf]%KeyCodec_encode_Ok. apply Hf.
Qed.

Context {E : Type} (system : JobSystem) (Hsys : system_ok ns sha256 system) (request : DriveRequest).

Lemma due_prefixes queue prefix q t j :
  is_text MAX_NAME_BYTES q = true → is_fixed_id j = true → queue = None ∨ queue = Some q →
  index_prefix (E := E) system KT_Due queue = Ok prefix → prefix `prefix_of` DueK ns q t j.
Proof.
  intros Hq Hj Hqueue Hp. pose proof (due_key_Ok ns Hns q t j Hq Hj) as Hk. unfold due_key in Hk.
  unfold index_prefix, data in Hp. apply map_err_Ok in Hp. rewrite (sk_namespace _ _ _ Hsys) in Hp.
  destruct Hqueue as [->| ->]; (eapply encoded_prefix; [exact Hp|exact Hk|]); [apply prefix_nil|by apply prefix_cons, prefix_nil].
Qed.

Lemma lease_prefixes queue prefix q j :
  is_text MAX_NAME_BYTES q = true → is_fixed_id j = true → queue = None ∨ queue = Some q →
  index_prefix (E := E) system KT_Lease queue = Ok prefix → prefix `prefix_of` LeaseK ns q j.
Proof.
  intros Hq Hj Hqueue Hp. pose proof (lease_key_Ok ns Hns q j Hq Hj) as Hk. unfold lease_key in Hk.
  unfold index_prefix, data in Hp. apply map_err_Ok in Hp. rewrite (sk_namespace _ _ _ Hsys) in Hp.
  destruct Hqueue as [->| ->]; (eapply encoded_prefix; [exact Hp|exact Hk|]); [apply prefix_nil|by apply prefix_cons, prefix_nil].
Qed.

Lemma decodes_LeaseK q j :
  is_text MAX_NAME_BYTES q = true → is_fixed_id j = true → decode_lease_key system (LeaseK ns q j) = Some (q, j).
Proof.
  intros Hq Hj. unfold decode_lease_key, LeaseK. rewrite (sk_namespace _ _ _ Hsys).
  pose proof (lease_key_Ok ns Hns q j Hq Hj) as [_ Hf]%KeyCodec_encode_Ok.
  rewrite (proj2 (KeyCodec_decode_Ok ns _ KT_Lease [q; j] (ns_fits ns Hns) (kf_total _ _ _ Hf))) by done.
  rewrite (is_text_is_str _ _ Hq). unfold QueueName_try_new.
  rewrite (proj2 (ValidatedText_try_new_Ok _ _ q q (is_text_is_str _ _ Hq))) by done.
  by rewrite fixed_try_from_slice_id.
Qed.
#[local] Opaque DueK LeaseK.

(** What a discovery makes of them. *)
Definition due_candidate t j (c : Candidate) : Prop :=
  jr_job_id (cd_record c) = j ∧ jr_state (cd_record c) = Scheduled ∧ cd_when c = t ∧ cd_route_is_due c = true.
Definition lease_candidate j (c : Candidate) : Prop :=
  jr_job_id (cd_record c) = j ∧ cd_route_is_due c = false ∧
  ∃ l, jr_state (cd_record c) = Leased l ∧ cd_when c = ls_expires_at l.

Lemma waits_sought q t j :
  is_text MAX_NAME_BYTES q = true → is_i64 t = true → is_fixed_id j = true →
  sought ns sha256 (E := E) system request (waits q t j) q true (DueK ns q t j) (due_layout t)
    (Route_Due (mkDueDiscoveryEntry (mkRangeEntry (DueK ns q t j) (due_layout t)) q j t)) (due_candidate t j).
Proof.
  intros Hq Ht Hj. split.
  - intros w Hv (r & Hr & Hs & Hrq & Hrt). eapply entry_there; [by apply now_ok|done|exact Hr|by apply is_index_DueK|].
    destruct (found_record (w_now w) j r) as (e & _ & _ & Hrj & _); [by apply now_ok|done..|].
    unfold index_entries. rewrite Hs, Hrq, Hrt, Hrj. set_solver.
  - intros queue prefix. by apply due_prefixes.
  - intros queue x routes Hqueue Hin. unfold record_entries, collect_entries, collect_due_entries. cbn.
    rewrite fmap_app. apply elem_of_app. left. apply elem_of_app. right. apply list_elem_of_fmap_2.
    apply list_elem_of_omap. eexists. split; [exact Hin|]. unfold decode_due_entry. cbn [re_key].
    rewrite (sk_namespace _ _ _ Hsys), decodes_DueK by done. cbn [dk_queue dk_when dk_job_id].
    destruct Hqueue as [->| ->]; [|by rewrite bytes_eqb_refl]. unfold QueueName_try_new.
    by rewrite (proj2 (ValidatedText_try_new_Ok _ _ q q (is_text_is_str _ _ Hq))).
  - intros w Hv (r & Hr & Hs & Hrq & Hrt). destruct (found_record (w_now w) j r) as (e & He & Hd & Hrj & _); [by apply now_ok|done..|].
    exists (mkCandidate r e (DueK ns q t j) (due_layout t) t true). split; [|done].
    cbn [route_candidate route_job_id de_job_id]. rewrite He. unfold decode_due_candidate. cbn [mbind option_bind].
    rewrite Hd. cbn [de_entry re_value de_job_id de_queue de_when]. rewrite due_value_decodes by done.
    by rewrite Hrj, Hrq, Hrt, !bytes_eqb_refl, !Z.eqb_refl.
Qed.

Lemma held_sought q j :
  is_text MAX_NAME_BYTES q = true → is_fixed_id j = true → queue_selected request q = true →
  sought ns sha256 (E := E) system request (held q j) q false (LeaseK ns q j) (marker_layout VT_Lease j)
    (Route_Lease (mkLeaseDiscoveryEntry (mkRangeEntry (LeaseK ns q j) (marker_layout VT_Lease j)) q j)) (lease_candidate j).
Proof.
  intros Hq Hj Hsel. split.
  - intros w Hv (r & l & Hr & Hs & Hrq). eapply entry_there; [by apply now_ok|done|exact Hr|by apply is_index_LeaseK|].
    destruct (found_record (w_now w) j r) as (e & _ & _ & Hrj & _); [by apply now_ok|done..|].
    unfold index_entries. rewrite Hs, Hrq, Hrj. set_solver.
  - intros queue prefix. by apply lease_prefixes.
  - intros queue x routes Hqueue Hin. unfold record_entries, collect_entries, collect_lease_entries. cbn.
    rewrite !fmap_app. apply elem_of_app. right. apply elem_of_app. right. apply list_elem_of_fmap_2.
    apply list_elem_of_omap. eexists. split; [exact Hin|]. unfold decode_lease_entry. cbn [re_key re_value].
    rewrite decodes_LeaseK, Hsel, marker_decodes by done. cbn [negb]. by rewrite bool_decide_true, bytes_eqb_refl.
  - intros w Hv (r & l & Hr & Hs & Hrq). destruct (found_record (w_now w) j r) as (e & He & Hd & Hrj & _); [by apply now_ok|done..|].
    exists (mkCandidate r e (LeaseK ns q j) (marker_layout VT_Lease j) (ls_expires_at l) false).
    split; [|split; [done|split; [done|by exists l]]].
    cbn [route_candidate route_job_id le_job_id]. rewrite He. unfold decode_lease_candidate. cbn [mbind option_bind].
    rewrite Hd. cbn [le_entry le_job_id le_queue]. rewrite Hrj, Hrq, !bytes_eqb_refl, Hs, Hsel. done.
Qed.

Context (clock : DriveClock) (now : Timestamp) (operations : Z).

Lemma wpj_found P q due k v route wanted mine w :
  sought ns sha256 (E := E) system request P q due k v route wanted → queue_selected request q = true →
  wpj mine w (discover (E := E) system request clock now operations) (λ x _ w', throughout P w w' →
    ds_stop_reason x.1 = None → ∃ c, c ∈ ds_candidates x.1 ∧ wanted c).
Proof.
  intros Hs Hq. eapply wpj_mono; [by eapply (wpj_discover_finds ns sha256)|].
  intros x mine' w' _ (_ & _ & Hx) Ht. by apply Hx, throughout_stays.
Qed.


End jobs.
