(* ===== verification/SchedulerSafe.v ===== *)
(** * The loop of a drive keeps the invariant

    The scheduler interleaves the candidates it has in flight, saves its owner
    beside them and settles what they return.  Whatever the order of their
    operations, the loop keeps the invariant of the engine, and every
    completion its report lists has its receipt in the store. *)

From S2P Require Import Prelude Errors Ids Clock Policy JobRecord Wire KeyCodec ValueCodec JobCodec Keyspace Store.
From S2P Require Import Prog Logic System Transition Permits Claim Completion Failure Refs Invariant Update Protocol.
From S2P Require Import Held Claimed Controls Ordered Fairness FairLedger FairSelect FairOwner FairCodec.
From S2P Require Import Budgets Discovery Candidate DriveOwner Scheduler Futures CandidateSafe DiscoverySafe.

(** ** Futures in flight *)

Lemma swap_remove_perm {A} (i : nat) (a : A) l : l !! i = Some a → swap_remove i l ≡ₚ delete i l.
Proof.
  intros Hi. unfold swap_remove. destruct l as [|b l _] using rev_ind; [done|]. rewrite last_snoc, length_app. cbn.
  replace (length l + 1 - 1)%nat with (length l) by lia.
  destruct (decide (i < length l)%nat) as [Hl|Hl].
  - rewrite insert_app_l by done. rewrite take_app_le by (rewrite length_insert; lia).
    rewrite take_ge by (rewrite length_insert; lia). rewrite lookup_app_l in Hi by done.
    rewrite insert_take_drop, delete_take_drop, take_app_le, drop_app_le by lia.
    by rewrite (Permutation_cons_append (drop (S i) l) b).
  - assert (i = length l) as ->.
    { apply lookup_lt_Some in Hi. rewrite length_app in Hi. cbn in Hi. lia. }
    rewrite take_insert_ge by done. rewrite take_app_length.
    apply (Permutation_cons_inv (a := a)). rewrite <- (delete_Permutation (l ++ [b]) (length l) a) by done.
    rewrite lookup_app_r, Nat.sub_diag in Hi by done. injection Hi as ->. apply Permutation_cons_append.
Qed.

Section poll.
Context {E : Type}.
Implicit Types active : list (InFlightCandidate E).

(** What a poll finds at a position: nothing, a candidate that is done, or a
    future to advance, after which the poll goes on. *)
Inductive taken (Q : list (InFlightCandidate E) → ShutdownController → prog E (ShutdownPoll * list (InFlightCandidate E) * ShutdownController) → Prop)
    active (i : nat) (shutdown : ShutdownController)
    : prog E (ShutdownPoll * list (InFlightCandidate E) * ShutdownController) → Prop :=
  | taken_none : active !! i = None → taken Q active i shutdown (Ret (SP_GraceElapsed, active, shutdown))
  | taken_done f r :
      active !! i = Some f → if_future f = Ret r →
      taken Q active i shutdown
        (Ret (SP_Completed (mkCompletedCandidate (if_order f) (if_payload_bytes f) r) (if_permit f),
              swap_remove i active, shutdown))
  | taken_step f X (o : op E X) k rest :
      active !! i = Some f → if_future f = Vis o k →
      (∀ x, Q (<[i := set_if_future (k x) f]> active) shutdown (rest x)) →
      taken Q active i shutdown (Vis o rest).

Definition poll_shape Q active (shutdown : ShutdownController)
    (p : prog E (ShutdownPoll * list (InFlightCandidate E) * ShutdownController)) : Prop :=
  ∃ body, (∀ sh next, taken Q active (next mod length active) sh (body sh next)) ∧
    p = Vis (OAmbient AShutdown) (λ down : bool,
          prog_bind (if down then request_shutdown shutdown else Ret shutdown) (λ shutdown,
            prog_bind (if down then trigger (OAmbient ATimer) else Ret TM_pending) (λ timer,
              match timer with
              | TM_elapsed => Ret (SP_GraceElapsed, active, shutdown)
              | TM_unavailable => Ret (SP_WakeScheduler, active, shutdown)
              | TM_pending => Vis (OAmbient ANextReady) (body shutdown)
              end))).

Lemma match_option {A B} (P : B → Prop) (x : option A) (none : x = None → B) (some : ∀ a, x = Some a → B) :
  (∀ H, P (none H)) → (∀ a H, P (some a H)) →
  P (match x as found return x = found → B with None => none | Some a => some a end eq_refl).
Proof. destruct x; auto. Qed.

Lemma poll_in_flight_ind Q :
  (∀ active shutdown p, poll_shape Q active shutdown p → Q active shutdown p) →
  ∀ active H shutdown, Q active shutdown (poll_in_flight active H shutdown).
Proof.
  intros HQ. fix IH 2. intros active H shutdown. apply HQ. destruct H as [H]. cbn [poll_in_flight].
  eexists. split; [|reflexivity]. intros sh next. cbn beta zeta.
  apply (match_option (taken Q active _ sh)); [by constructor|]. intros f Hf.
  assert (∀ p (Hp : ∀ p', successor p' p → successor p' (if_future f)), if_future f = p →
    taken Q active (next mod length active) sh
      (match p as p return (∀ p', successor p' p → successor p' (if_future f)) → _ with
       | Ret result => λ _,
           Ret (SP_Completed (mkCompletedCandidate (if_order f) (if_payload_bytes f) result) (if_permit f),
                swap_remove (next mod length active) active, sh)
       | Vis o k => λ Hp,
           Vis o (λ x, poll_in_flight (<[(next mod length active)%nat := set_if_future (k x) f]> active)
             (H _ (advances_at active (next mod length active) f (k x) Hf (Hp _ (ex_intro _ x eq_refl)))) sh)
       end Hp)) as Htaken; [|exact (Htaken (if_future f) (λ _ Hs, Hs) eq_refl)].
  intros [r|X o k] Hp Hq; [by apply taken_done|]. eapply taken_step; [done|done|]. intros x. apply IH.
Qed.
End poll.

Section scheduler_safe.
Context (ns : Namespace) (sha256 : bytes → bytes) (Hns : is_opaque MAX_NAMESPACE_BYTES ns = true).
Context (Hsha : ∀ bs, len (sha256 bs) = 32).
#[local] Instance disc : Discipline := engine_discipline ns sha256.
Implicit Types w : world.
Implicit Types mine : gset bytes.
Context {E : Type} (system : JobSystem) (Hsys : system_ok ns sha256 system).
Context (handlers : JobKind → Z → JobHandler) (Hhandlers : handlers_typed handlers).
Context (request : DriveRequest) (clock : DriveClock) (Hlanes : 0 ≤ dq_max_concurrency request).
Implicit Types s : SchedulerLoop E.

Notation result_ok := (result_ok ns (E := E)).
Notation seen := (candidate_seen ns sha256).

Lemma result_ok_extends mine w w' r : extends mine w w' → result_ok r w → result_ok r w'.
Proof. destruct r as [[]|]; try done. apply (receipt_recorded_extends ns sha256). Qed.

Definition flying mine w (active : list (InFlightCandidate E)) : Prop := in_flight result_ok mine w (if_future <$> active).

Definition polled_ok (x : ShutdownPoll (E := E) * list (InFlightCandidate E) * ShutdownController) mine w : Prop :=
  flying mine w x.1.2 ∧
  match x.1.1 with SP_Completed completed _ => result_ok (cc_result completed) w | _ => True end.

Lemma wp_poll_in_flight active H shutdown mine w :
  flying mine w active → wp mine w (poll_in_flight active H shutdown) polled_ok.
Proof.
  revert mine w. apply (poll_in_flight_ind (λ active shutdown p, ∀ mine w, flying mine w active → wp mine w p polled_ok)).
  clear active H shutdown. intros active shutdown p (body & Hbody & ->) mine w Hf w1 He1 down mine1 w1' [-> ->].
  pose proof (ex_valid _ _ _ He1) as Hv1. split; [by apply step_ok_refl|].
  apply (wp_quiet_then mine w1 _ _ (λ _, True)); [|apply leaves_true|].
  { destruct down; [|done]. unfold request_shutdown. by destruct (sc_signaled shutdown). }
  intros sh w2 He2 _. apply (wp_quiet_then mine w2 _ _ (λ _, True)); [by destruct down|apply leaves_true|].
  intros timer w3 He3 _. assert (flying mine w3 active) as Hf3.
  { eapply in_flight_extends; [exact He3|]. eapply in_flight_extends; [exact He2|]. by eapply in_flight_extends. }
  destruct timer; [|apply wp_ret; intros w4 He4; split; [by eapply in_flight_extends|done]..].
  intros w4 He4 next mine4 w4' [-> ->]. pose proof (ex_valid _ _ _ He4) as Hv4. split; [by apply step_ok_refl|].
  apply (in_flight_extends _ mine w3 w4) in Hf3; [|done]. clear -Hbody Hf3 Hv4.
  destruct (Hbody sh next) as [Hn|f r Hi Hr|f X o k rest Hi Hr Hrest].
  - apply wp_ret. intros w5 He5. split; [by eapply in_flight_extends|done].
  - apply wp_ret. intros w5 He5. apply (in_flight_extends _ mine w4 w5) in Hf3; [|done].
    destruct (in_flight_done result_ok mine w5 _ (next mod length active) r (ex_valid _ _ _ He5) Hf3) as [Hok Hrest].
    { by rewrite list_lookup_fmap, Hi; cbn; rewrite Hr. }
    split; [|done]. cbn. eapply in_flight_perm; [|exact Hrest]. rewrite <- list_fmap_delete. f_equiv. symmetry.
    by eapply swap_remove_perm.
  - intros w5 He5 x mine6 w6 Ho. apply (in_flight_extends _ mine w4 w5) in Hf3; [|done].
    eapply in_flight_advance in Ho as [Hs Hf6]; [|by eapply ex_valid|exact Hf3|by rewrite list_lookup_fmap, Hi; cbn; rewrite Hr].
    split; [done|]. apply Hrest. unfold flying. by rewrite list_fmap_insert.
Qed.

(** ** The state of the loop *)

Record loop_ok mine w s : Prop := mkLoopOk {
  lk_flying : flying mine w (sl_active s);
  lk_candidates : map_Forall (λ _, seen w) (sl_candidates s);
  lk_completed : Forall (λ c, from_option (λ c, result_ok (cc_result c) w) True c) (cb_completed (sl_completion s));
  lk_report : Forall (receipt_recorded ns w) (dr_completions (sl_report s));
}.

Lemma loop_ok_extends mine w w' s : extends mine w w' → loop_ok mine w s → loop_ok mine w' s.
Proof.
  intros He [Hf Hc Hd Hr]. split.
  - by eapply in_flight_extends.
  - intros id c Hl. eapply candidate_seen_extends; [exact He|]. by eapply Hc.
  - eapply Forall_impl; [exact Hd|]. intros [c|]; [|done]. by apply (result_ok_extends mine).
  - eapply Forall_impl; [exact Hr|]. intros d. by apply (receipt_recorded_extends ns sha256 mine).
Qed.

(** From [w0] on, a step keeps [loop_ok], and [P] holds of what it returns. *)
Definition keeps {A} w0 (m : sched E A) (P : A → world → Prop) : Prop :=
  ∀ mine w s, extends ∅ w0 w → loop_ok mine w s →
  wp mine w (m s) (λ '(r, s') mine' w', loop_ok mine' w' s' ∧ ∀ a, r = Ok a → P a w').

Lemma keeps_bind {A B} w0 (m : sched E A) (k : A → sched E B) P Q :
  keeps w0 m P → (∀ a w1, extends ∅ w0 w1 → P a w1 → keeps w1 (k a) Q) → keeps w0 (m ≫= k) Q.
Proof.
  intros Hm Hk mine w s He Hs. apply wp_bind. eapply wp_mono; [apply wp_grows; [by eapply ex_valid|by apply Hm]|].
  intros [r s'] mine' w' Hv [[Hs' Hr] He']. destruct r as [a|e].
  - apply (Hk a w'); [by eapply extends_trans|by apply Hr|by apply extends_refl|done].
  - apply wp_ret. intros w2 He2. split; [by eapply loop_ok_extends|done].
Qed.

Lemma keeps_ret {A} w0 (a : A) (P : A → world → Prop) :
  (∀ w, extends ∅ w0 w → P a w) → keeps w0 (mret a) P.
Proof.
  intros HP mine w s He Hs. apply wp_ret. intros w' He'. split; [by eapply loop_ok_extends|].
  intros ? [= <-]. apply HP. eapply extends_trans; [exact He|]. by eapply extends_empty.
Qed.

Lemma keeps_raise {A} w0 e (P : A → world → Prop) : keeps w0 (raise e) P.
Proof. intros mine w s He Hs. apply wp_ret. intros w' He'. split; [by eapply loop_ok_extends|done]. Qed.

Lemma keeps_get w0 : keeps w0 get (λ s w, map_Forall (λ _, seen w) (sl_candidates s)).
Proof.
  intros mine w s He Hs. apply wp_ret. intros w' He'. apply (loop_ok_extends mine w w') in Hs; [|done].
  split; [done|]. intros ? [= <-]. apply Hs.
Qed.

Lemma keeps_modify w0 f :
  (∀ mine w s, extends ∅ w0 w → loop_ok mine w s → loop_ok mine w (f s)) → keeps w0 (modify f) (λ _ _, True).
Proof.
  intros Hf mine w s He Hs. apply wp_ret. intros w' He'. split; [|done]. apply Hf; [|by eapply loop_ok_extends].
  eapply extends_trans; [exact He|]. by eapply extends_empty.
Qed.

Lemma keeps_lift {A} w0 (p : job E A) : quiet p → keeps w0 (lift_job p) (λ _ _, True).
Proof.
  intros Hq mine w s He Hs. apply (wp_quiet_then mine w _ _ (λ _, True)); [done|apply leaves_true|].
  intros r w1 He1 _. apply wp_ret. intros w2 He2. split; [|done]. eapply loop_ok_extends; [exact He2|].
  by eapply loop_ok_extends.
Qed.

Lemma keeps_attempt {A} w0 (m : sched E A) P : keeps w0 m P → keeps w0 (attempt m) (λ _ _, True).
Proof.
  intros Hm mine w s He Hs. apply wp_bind. eapply wp_mono; [by apply Hm|]. intros [r s'] mine' w' _ [Hs' _].
  apply wp_ret. intros w2 He2. split; [by eapply loop_ok_extends|done].
Qed.

Lemma keeps_weaken {A} w0 (m : sched E A) P : keeps w0 m P → keeps w0 m (λ _ _, True).
Proof.
  intros Hm mine w s He Hs. eapply wp_mono; [by apply Hm|]. intros [r s'] mine' w' _ [Hs' _]. by split.
Qed.

(** ** Reservations *)

(** Only these four fields matter. *)
Lemma loop_ok_fields mine w s s' :
  sl_active s' = sl_active s → sl_candidates s' = sl_candidates s →
  cb_completed (sl_completion s') = cb_completed (sl_completion s) →
  dr_completions (sl_report s') = dr_completions (sl_report s) → loop_ok mine w s → loop_ok mine w s'.
Proof. intros Ha Hc Hd Hr []. split; by rewrite ?Ha, ?Hc, ?Hd, ?Hr. Qed.

Lemma keeps_fields w0 f :
  (∀ s, sl_active (f s) = sl_active s ∧ sl_candidates (f s) = sl_candidates s ∧
    cb_completed (sl_completion (f s)) = cb_completed (sl_completion s) ∧
    dr_completions (sl_report (f s)) = dr_completions (sl_report s)) → keeps w0 (modify f) (λ _ _, True).
Proof.
  intros Hf. apply keeps_modify. intros mine w s _. destruct (Hf s) as (? & ? & ? & ?). by apply loop_ok_fields.
Qed.

Lemma keeps_select_candidate w0 now :
  keeps w0 (select_candidate now) (λ x w, match x with inr (_, c) => seen w c | inl _ => True end).
Proof.
  eapply keeps_bind; [apply keeps_get|]. intros s w1 He1 Hs. destruct (owner_select_next_due_in _ _ _) as [[selected owner]|];
    [|by apply keeps_ret].
  eapply keeps_bind; [by apply keeps_fields|]. intros _ w2 He2 _. destruct selected as [[permit|]|]; [|by apply keeps_ret..].
  destruct (sl_candidates s !! pm_job_id permit) as [c|] eqn:Hc; [|apply keeps_raise]. apply keeps_ret. intros w3 He3.
  apply (candidate_seen_extends ns sha256 ∅ w1); [by eapply extends_trans|]. by eapply Hs.
Qed.

Lemma keeps_save_reservation w0 permit : keeps w0 (save_reservation system permit) (λ _ _, True).
Proof.
  intros mine w s He [Hf Hc Hd Hr]. pose proof (ex_valid _ _ _ He) as Hv. unfold save_reservation.
  apply wp_bind. replace mine with (∅ ∪ mine) at 1 by (apply leibniz_equiv; set_solver). eapply wp_mono.
  { apply wp_grows; [done|]. eapply wp_beside; [set_solver| |exact Hf|by apply (wp_owner_save ns sha256 Hns system Hsys)].
    destruct Hf. set_solver. }
  intros [saved owner] mine1 w1 Hv1 [[Hf1 _] He1].
  assert (loop_ok mine1 w1 (set_active (sl_active s) s)) as Hs.
  { split; [done|..].
    - intros id c Hl. eapply candidate_seen_extends; [exact He1|]. by eapply Hc.
    - eapply Forall_impl; [exact Hd|]. intros [c|]; [|done]. by apply (result_ok_extends ∅).
    - eapply Forall_impl; [exact Hr|]. intros d. by apply (receipt_recorded_extends ns sha256 ∅). }
  destruct saved as [v|[]]; apply wp_ret; intros w2 He2;
    (split; [eapply loop_ok_extends; [exact He2|]; by eapply loop_ok_fields; [..|exact Hs]|done]).
Qed.

Definition reserved_seen (x : CandidateStartStatus + ReservedCandidate) w : Prop :=
  match x with inr r => seen w (rc_candidate r) | inl _ => True end.

Lemma keeps_give_back w0 permit status : keeps w0 (_ ← give_back permit; mret (inl status)) reserved_seen.
Proof. eapply keeps_bind; [by apply keeps_fields|]. intros. by apply keeps_ret. Qed.

Lemma keeps_reserve_next w0 now : keeps w0 (reserve_next system request now) reserved_seen.
Proof.
  eapply keeps_bind; [by apply keeps_fields|]. intros _ w1 He1 _. eapply keeps_bind; [apply keeps_select_candidate|].
  intros [status|[permit c]] w2 He2 Hc; [by apply keeps_ret|]. eapply keeps_bind; [apply keeps_get|].
  intros s w3 He3 _.
  cbn zeta. destruct (_ && _); [apply keeps_give_back|]. eapply keeps_bind; [apply keeps_lift; quiet|]. intros operations w4 He4 _.
  destruct (reserve _ _) as [budget|]; [|apply keeps_give_back]. eapply keeps_bind; [by apply keeps_fields|]. intros _ w5 He5 _.
  eapply keeps_bind; [apply keeps_save_reservation|]. intros [status|p] w6 He6 _; [by apply keeps_ret|].
  apply keeps_ret. intros w7 He7. eapply candidate_seen_extends; [|exact Hc].
  do 4 (eapply extends_trans; [eassumption|]). done.
Qed.

(** ** The loop *)

Lemma keeps_request_shutdown w0 : keeps w0 request_shutdown_ (λ _ _, True).
Proof.
  intros mine w s He Hs. apply (wp_quiet_then mine w _ _ (λ _, True)); [|apply leaves_true|].
  { unfold request_shutdown. by destruct (sc_signaled _). }
  intros sh w1 He1 _. apply wp_ret. intros w2 He2. split; [|done].
  apply (loop_ok_fields _ _ s); [done..|]. eapply loop_ok_extends; [exact He2|]. by eapply loop_ok_extends.
Qed.

Lemma keeps_should_stop_starting w0 : keeps w0 (should_stop_starting request) (λ _ _, True).
Proof.
  eapply keeps_bind; [by apply keeps_lift|]. intros [] w1 He1 _.
  - eapply keeps_bind; [by apply keeps_fields|]. intros _ w2 _ _. eapply keeps_bind; [apply keeps_request_shutdown|].
    intros. by apply keeps_ret.
  - eapply keeps_bind; [apply keeps_get|]. intros. by apply keeps_ret.
Qed.

Lemma loop_ok_start mine w s reservation :
  valid w → seen w (rc_candidate reservation) → loop_ok mine w s →
  loop_ok mine w (start_candidate system handlers request clock reservation s).
Proof.
  intros Hv Hc [Hf Hs Hd Hr].
  assert (flying mine w (sl_active s ++ [mkInFlightCandidate (cb_next_order (sl_completion s))
    (rc_payload_bytes reservation) (rc_permit reservation)
    (process_candidate system handlers request (rc_candidate reservation) clock)])) as Hf'.
  { unfold flying. rewrite fmap_app. apply in_flight_push; [|exact Hf].
    by apply (wp_process_candidate ns sha256 Hns Hsha system Hsys handlers Hhandlers). }
  split; [exact Hf'| | |exact Hr].
  - by apply map_Forall_delete.
  - apply Forall_app. split; [exact Hd|by repeat constructor].
Qed.

Lemma keeps_start_lanes lanes w0 : keeps w0 (start_lanes system handlers request clock lanes) (λ _ _, True).
Proof.
  revert w0. induction lanes as [|lanes IH]; intros w0; [by apply keeps_ret|]. cbn [start_lanes].
  eapply keeps_bind; [apply keeps_get|]. intros s w1 He1 _. destruct (cb_stop_starting _); [by apply keeps_ret|].
  eapply keeps_bind; [apply keeps_should_stop_starting|]. intros [] w2 He2 _; [by apply keeps_ret|].
  eapply keeps_bind; [apply keeps_lift, quiet_wall_now|]. intros now w3 He3 _.
  eapply keeps_bind; [apply keeps_reserve_next|]. intros [status|reservation] w4 He4 Hr.
  - eapply keeps_bind; [by apply keeps_fields; intros s'; destruct status|]. intros. by apply keeps_ret.
  - eapply keeps_bind; [|intros; apply IH]. apply keeps_modify. intros mine w s' He Hs.
    apply loop_ok_start; [by eapply ex_valid| |done]. by eapply candidate_seen_extends.
Qed.

Lemma apply_candidate_result_ok w r n report :
  result_ok (Ok r) w → Forall (receipt_recorded ns w) (dr_completions report) →
  Forall (receipt_recorded ns w) (dr_completions (apply_candidate_result r n report).2).
Proof.
  intros Hr Hf. destruct r; try done. cbn. unfold record_completion. destruct (_ <? _); [|done]. cbn.
  apply Forall_app. split; [done|by apply Forall_singleton].
Qed.

Lemma apply_results_ok fuel now n (b : CompletionBookkeeping E) report w :
  Forall (λ c, from_option (λ c, result_ok (cc_result c) w) True c) (cb_completed b) →
  Forall (receipt_recorded ns w) (dr_completions report) →
  let '(_, b', report') := apply_results fuel now n b report in
  Forall (λ c, from_option (λ c, result_ok (cc_result c) w) True c) (cb_completed b') ∧
  Forall (receipt_recorded ns w) (dr_completions report').
Proof.
  revert b report. induction fuel as [|fuel IH]; intros b report Hb Hr; [done|]. cbn [apply_results].
  destruct (cb_completed b !! cb_next_apply b) as [[completed|]|] eqn:Hc; [|done..].
  pose proof (Forall_lookup_1 _ _ _ _ Hb Hc) as Hok. cbn in Hok.
  assert (Forall (λ c, from_option (λ c, result_ok (cc_result c) w) True c)
    (<[cb_next_apply b := None]> (cb_completed b))) as Hb' by by apply Forall_insert.
  destruct (cc_result completed) as [r|e] eqn:Hres; [|done]. unfold apply_one.
  pose proof (apply_candidate_result_ok w r n report Hok Hr) as Hr'.
  destruct (apply_candidate_result r n report) as [stop report']. cbn zeta.
  destruct (pending_at r now), stop; by apply IH.
Qed.

Lemma keeps_apply_completed w0 now n : keeps w0 (apply_completed now n) (λ _ _, True).
Proof.
  intros mine w s He Hs. unfold apply_completed. destruct (apply_results _ _ _ _ _) as [[r b] report] eqn:Hap.
  apply wp_ret. intros w' He'. apply (loop_ok_extends mine w w') in Hs as [Hf Hc Hd Hr]; [|done].
  pose proof (apply_results_ok (length (cb_completed (sl_completion s))) now n (sl_completion s) (sl_report s) w' Hd Hr) as Ha.
  rewrite Hap in Ha. destruct Ha as [Ha1 Ha2]. split; [by split|done].
Qed.

Lemma keeps_advance w0 : keeps w0 (advance_candidates system handlers request clock) (λ _ _, True).
Proof.
  eapply keeps_bind.
  { eapply keeps_bind; [apply keeps_get|]. intros s w1 _ _. apply keeps_start_lanes. }
  intros idle w1 _ _. eapply keeps_bind; [apply keeps_lift, quiet_wall_now|]. intros now w2 _ _.
  eapply keeps_bind; [apply keeps_apply_completed|]. intros. by apply keeps_ret.
Qed.

Lemma loop_ok_drain mine w s : loop_ok mine w s → loop_ok mine w (drain_active s).
Proof.
  intros [Hf Hc Hd Hr]. split; cbn; try done. apply in_flight_nil. by destruct Hf.
Qed.

Lemma keeps_poll_active w0 :
  keeps w0 poll_active (λ x w, match x with Some (completed, _) => result_ok (cc_result completed) w | None => True end).
Proof.
  intros mine w s He [Hf Hc Hd Hr]. pose proof (ex_valid _ _ _ He) as Hv. unfold poll_active. apply wp_bind. eapply wp_mono.
  { apply wp_grows; [done|]. by apply wp_poll_in_flight. }
  intros [[polled active] shutdown] mine1 w1 Hv1 [[Hf1 Hp] He1]. cbn in Hf1, Hp.
  assert (loop_ok mine1 w1 (set_shutdown shutdown (set_active active s))) as Hs.
  { split; cbn; [done|..].
    - intros id c Hl. eapply candidate_seen_extends; [exact He1|]. by eapply Hc.
    - eapply Forall_impl; [exact Hd|]. intros [c|]; [|done]. by apply (result_ok_extends ∅).
    - eapply Forall_impl; [exact Hr|]. intros d. by apply (receipt_recorded_extends ns sha256 ∅). }
  apply wp_ret. intros w2 He2. apply (loop_ok_extends mine1 w1 w2) in Hs; [|done].
  destruct polled as [completed permit| |].
  - split; [done|]. intros a [= <-]. by eapply result_ok_extends.
  - split; [done|]. by intros a [= <-].
  - split; [by apply loop_ok_drain|done].
Qed.

Lemma loop_ok_settle mine w s completed permit :
  result_ok (cc_result completed) w → loop_ok mine w s → loop_ok mine w (settle completed permit s).
Proof. intros Hr [Hf Hc Hd Hrep]. split; cbn; try done. by apply Forall_insert. Qed.

Lemma keeps_loop_round w0 : keeps w0 (loop_round system handlers request clock) (λ _ _, True).
Proof.
  eapply keeps_bind; [eapply keeps_attempt, keeps_advance|]. intros advanced w1 _ _. cbn zeta.
  eapply (keeps_bind _ _ _ (λ _ _, True)).
  { destruct advanced as [idle|cause]; [by apply keeps_ret|]. eapply keeps_bind; [by apply keeps_fields|].
    intros. by apply keeps_ret. }
  intros idle w2 _ _. eapply keeps_bind; [apply keeps_get|]. intros s w3 _ _.
  destruct (sl_active s) as [|f active]; [by apply keeps_ret|].
  eapply keeps_bind; [apply keeps_poll_active|]. intros [[completed permit]|] w4 He4 Hc.
  - eapply keeps_bind; [apply keeps_fields; intros s'; by destruct (sc_requested _)|]. intros _ w5 He5 _.
    eapply keeps_bind; [|intros; by apply keeps_ret]. apply keeps_modify. intros mine w s' He Hs.
    apply loop_ok_settle; [|done]. apply (result_ok_extends ∅ w4); [by eapply extends_trans|done].
  - eapply keeps_bind; [|intros; by apply keeps_ret]. apply keeps_modify. intros mine w s' He Hs.
    eapply (loop_ok_fields _ _ (drain_active s')); [done..|]. by apply loop_ok_drain.
Qed.

Lemma keeps_run_loop fuel error w0 : keeps w0 (run_loop system handlers request clock fuel error) (λ _ _, True).
Proof.
  revert error w0. induction fuel as [|fuel IH]; intros error w0; [by apply keeps_ret|]. cbn [run_loop].
  eapply keeps_bind; [apply keeps_loop_round|]. intros [r cause] w1 _ _. cbn zeta.
  destruct r; [|apply IH]. destruct (match error with None => cause | _ => error end); [apply keeps_raise|by apply keeps_ret].
Qed.

(** ** The drive *)

(** What a report says of the store. *)
Definition report_recorded w (report : DriveReport) : Prop := Forall (receipt_recorded ns w) (dr_completions report).

Lemma report_recorded_extends mine w w' report : extends mine w w' → report_recorded w report → report_recorded w' report.
Proof. intros He Hr. eapply Forall_impl; [exact Hr|]. intros d. by apply (receipt_recorded_extends ns sha256 mine). Qed.

Lemma insert_discovered_seen w discovered candidates :
  Forall (seen w) discovered → map_Forall (λ _, seen w) candidates →
  map_Forall (λ _, seen w) (insert_discovered discovered candidates).
Proof.
  intros Hd. unfold insert_discovered. revert candidates. induction Hd as [|c discovered Hc _ IH]; intros candidates Hm; [done|].
  cbn. apply IH. destruct (candidates !! _); [done|]. by apply map_Forall_insert_2.
Qed.

Lemma quiet_build_owner candidates : quiet (build_owner (E := E) system request candidates).
Proof.
  unfold build_owner, load_owner. apply quiet_job_bind.
  - apply quiet_job_bind; [quiet|]. intros budget. apply quiet_job_bind; [apply quiet_owner_load|]. intros []; quiet.
  - intros owner. destruct (ensure_discovered_candidates _ _). quiet.
Qed.

Lemma wpj_prepare_owner mine w discovery operations :
  valid w → discovered_seen ns sha256 w discovery →
  wpj mine w (prepare_owner (E := E) system request discovery operations)
    (after ns sha256 (λ x w', ∀ owner candidates, x.1 = Some (owner, candidates) → map_Forall (λ _, seen w') candidates) mine w).
Proof.
  intros Hv Hd. unfold prepare_owner. destruct (reserve _ _) as [operations'|]; [|by apply wpj_after_ret].
  destruct (_ && _); [by apply wpj_after_ret|]. cbn zeta.
  apply (wpj_quiet_bind ns sha256 _ _ _ _ _ _ (quiet_build_owner _) (leaves_ok _)). intros owner w1 He1 _.
  destruct (apply_registration_weights _ _) as [conflicts owner']. apply wpj_ret. intros w2 He2. split; [done|].
  assert (extends mine w w2) as He by by eapply extends_trans. split; [done|].
  intros ? candidates [= <- <-]. unfold retain_unconflicted. intros id c [Hl _]%map_lookup_filter_Some. revert id c Hl.
  apply insert_discovered_seen; [|apply map_Forall_empty].
  eapply Forall_impl; [exact Hd|]. intros c. by apply (candidate_seen_extends ns sha256 mine).
Qed.

Lemma quiet_finish_report report wake : quiet (finish_report (E := E) request report wake).
Proof. unfold finish_report. quiet. Qed.
#[local] Hint Resolve quiet_finish_report : quiet.

Lemma finish_report_completions report wake :
  outcomes (E := E) (λ report', dr_completions report' = dr_completions report) (finish_report request report wake).
Proof. unfold finish_report. apply outcomes_any. by intros []. Qed.

Lemma wpj_finish mine w s :
  loop_ok mine w s → wpj mine w (finish request clock s) (λ report _ w', report_recorded w' report).
Proof.
  intros Hs. unfold finish.
  apply (wpj_quiet_bind ns sha256 _ _ _ _ _ _ (quiet_wall_now _) (leaves_ok _)). intros now w1 He1 _. cbn zeta.
  eapply wp_mono; [apply wp_quiet; [apply quiet_finish_report|apply finish_report_completions]|].
  intros [report|e] mine' w2 _ (-> & He2 & Hr); [|done]. unfold report_recorded. cbn in *. rewrite Hr.
  eapply report_recorded_extends; [exact He2|]. eapply report_recorded_extends; [exact He1|]. apply Hs.
Qed.

Definition driven_ok (r : option DriveReport) (_ : gset bytes) w : Prop := ∀ report, r = Some report → report_recorded w report.

Lemma wpj_setup_finish mine w discovery now :
  valid w →
  wpj mine w (SchedulerSetup_finish (E := E) request (SchedulerSetup_new discovery) now) (λ report _ w', report_recorded w' report).
Proof.
  intros Hv. unfold SchedulerSetup_finish.
  eapply wp_mono; [apply wp_quiet; [apply quiet_finish_report|apply finish_report_completions]|].
  intros [report|e] mine' w2 _ (-> & He2 & Hr); [|done]. unfold report_recorded. cbn in *. rewrite Hr.
  destruct (ds_stop_reason discovery); constructor.
Qed.

Lemma loop_ok_new mine w owner candidates operations setup :
  mine ⊆ w_ids w → map_Forall (λ _, seen w) candidates → dr_completions (su_report setup) = [] →
  loop_ok mine w (SchedulerLoop_new owner candidates operations setup).
Proof.
  intros Hm Hc Hr. split; cbn; [by apply in_flight_nil|done|constructor|]. rewrite Hr. constructor.
Qed.

Lemma wpj_drive_scheduler mine w discovery operations :
  valid w → mine ⊆ w_ids w → discovered_seen ns sha256 w discovery →
  wpj mine w (drive_scheduler (E := E) system handlers request clock discovery operations) driven_ok.
Proof.
  intros Hv Hm Hd. unfold drive_scheduler. cbn zeta. apply wpj_bind.
  eapply wpj_mono; [by apply wpj_prepare_owner|]. intros [[[owner candidates]|] operations'] mine' w1 Hv1 (-> & He1 & Hc).
  - apply wp_bind. eapply wp_mono.
    { apply (keeps_run_loop _ _ w1); [by apply extends_refl|]. apply loop_ok_new; [|by eapply Hc|].
      - etrans; [exact Hm|apply He1].
      - unfold SchedulerSetup_new. cbn. by destruct (ds_stop_reason discovery). }
    intros [[[u|]|e] s'] mine2 w2 _ [Hs' _]; unfold conclude; cbn [fst snd]; [|by apply wpj_ret|done].
    apply wpj_bind. eapply wpj_mono; [by apply wpj_finish|]. intros report mine3 w3 _ Hr. apply wpj_ret.
    intros w4 He4 ? [= <-]. by eapply report_recorded_extends.
  - apply (wpj_quiet_bind ns sha256 _ _ _ _ _ _ (quiet_wall_now _) (leaves_ok _)). intros now w2 He2 _.
    apply wpj_bind. eapply wpj_mono; [apply wpj_setup_finish; by eapply ex_valid|]. intros report mine3 w3 _ Hr.
    apply wpj_ret. intros w4 He4 ? [= <-]. by eapply report_recorded_extends.
Qed.
End scheduler_safe.

Section drive_safe.
Context (ns : Namespace) (sha256 : bytes → bytes) (Hns : is_opaque MAX_NAMESPACE_BYTES ns = true).
Context (Hsha : ∀ bs, len (sha256 bs) = 32).
#[local] Instance disc' : Discipline := engine_discipline ns sha256.

Lemma wpj_drive {E : Type} (system : JobSystem) (handlers : JobKind → Z → JobHandler) (request : DriveRequest)
    (wall_now : Timestamp) (mine : gset bytes) (w : world) :
  system_ok ns sha256 system → handlers_typed handlers → 0 ≤ dq_max_concurrency request → valid w → mine ⊆ w_ids w →
  wpj mine w (drive (E := E) system handlers request wall_now) (driven_ok ns).
Proof.
  intros Hsys Hh Hl Hv Hm. unfold drive.
  apply (wpj_quiet_bind ns sha256 _ _ _ _ (λ _, True)); [unfold DriveClock_new; quiet|apply leaves_ok|].
  intros clock w1 He1 _. apply wpj_bind. eapply wpj_mono; [by apply wpj_discover|].
  intros [discovery operations] mine2 w2 Hv2 (-> & He2 & Hd). apply wpj_drive_scheduler; try done.
  etrans; [exact Hm|]. etrans; [apply (ex_ids _ _ _ He1)|apply (ex_ids _ _ _ He2)].
Qed.
End drive_safe.
