(* ===== verification/DriveBounds.v ===== *)
(** * A drive ends within its request

    The loop of a drive always ends: a round that goes on starts a candidate,
    settles one or applies results that were still reserved.  It never claims
    more than its request allows, never has more candidates in flight than it
    has lanes, and its report adds up.

    The statements are about every leaf of the program, so they hold whatever
    the store answers, whenever the system shuts down and in whatever order
    the futures in flight make progress. *)

From S2P Require Import Prelude Errors Ids Clock Policy JobRecord Wire KeyCodec ValueCodec JobCodec Keyspace Store.
From S2P Require Import Prog Logic System Transition Permits Claim Completion Failure Refs Protocol JobRoundtrip.
From S2P Require Import Ordered Fairness FairLedger FairSelect FairOwner FairCodec.
From S2P Require Import Budgets Discovery Candidate DriveOwner Scheduler SchedulerSafe.

(** ** Leaves of the monad *)

Section ends.
Context {E : Type}.
Implicit Types s : SchedulerLoop E.

(** [Q] holds of every result of [m] from [s]. *)
Definition ends {A} (m : sched E A) s (Q : result (JobSystemError E) A → SchedulerLoop E → Prop) : Prop :=
  leaves (λ x, Q x.1 x.2) (m s).

Lemma leaves_mono {A} (P Q : A → Prop) (p : prog E A) : (∀ a, P a → Q a) → leaves P p → leaves Q p.
Proof. intros H. induction p as [a|X o k IH]; cbn; auto. Qed.

Lemma ends_mono {A} (m : sched E A) s (P Q : result (JobSystemError E) A → SchedulerLoop E → Prop) :
  ends m s P → (∀ r s', P r s' → Q r s') → ends m s Q.
Proof. intros Hm H. eapply leaves_mono; [|exact Hm]. intros []; apply H. Qed.

Lemma ends_bind {A B} (m : sched E A) (k : A → sched E B) s Q :
  ends m s (λ r s', match r with Ok a => ends (k a) s' Q | Err e => Q (Err e) s' end) → ends (m ≫= k) s Q.
Proof. intros Hm. eapply leaves_bind; [exact Hm|]. by intros [[a|e] s']. Qed.

Lemma ends_lift {A} (p : job E A) s Q : (∀ r, Q r s) → ends (lift_job p) s Q.
Proof. intros H. eapply leaves_bind; [apply leaves_true|]. intros r _. apply H. Qed.

Lemma ends_ret {A} (a : A) s Q : Q (Ok a) s → ends (mret a) s Q.
Proof. done. Qed.
Lemma ends_get {B} (k : SchedulerLoop E → sched E B) s Q : ends (k s) s Q → ends (get ≫= k) s Q.
Proof. done. Qed.
Lemma ends_modify {B} f (k : unit → sched E B) s Q : ends (k tt) (f s) Q → ends (modify f ≫= k) s Q.
Proof. done. Qed.
Lemma ends_raise {A} e s Q : Q (Err e) s → ends (raise e : sched E A) s Q.
Proof. done. Qed.

Lemma ends_attempt {A} (m : sched E A) s Q : ends m s (λ r s', Q (Ok r) s') → ends (attempt m) s Q.
Proof. intros Hm. eapply leaves_bind; [exact Hm|]. by intros [r s']. Qed.
End ends.

(** ** What the loop keeps *)

(** A report that adds up and stays within the request. *)
Record report_bounded (request : DriveRequest) (r : DriveReport) : Prop := {
  rb_claimed : dc_claimed (dr_counts r) ≤ dq_max_claims request;
  rb_outcomes : dc_claimed (dr_counts r) =
    dc_succeeded (dr_counts r) + dc_continued (dr_counts r) + dc_retried (dr_counts r)
    + dc_dead_lettered (dr_counts r) + dc_cancelled (dr_counts r);
  rb_completions : dc_succeeded (dr_counts r) = len (dr_completions r) + dr_completions_omitted r;
  rb_details : len (dr_completions r) ≤ dq_max_completion_details request;
  rb_nonneg : 0 ≤ dc_claimed (dr_counts r);
}.

(** A candidate as [insert_discovered] keeps it. *)
Definition candidate_typed (id : JobId) (c : Candidate) : Prop :=
  jr_job_id (cd_record c) = id ∧ is_u32 (pm_total_length (jr_payload (cd_record c))) = true.

#[local] Opaque process_candidate.

Section bounds.
Context {E : Type} (system : JobSystem) (handlers : JobKind → Z → JobHandler).
Context (request : DriveRequest) (clock : DriveClock) (Hrequest : is_request_input request = true).
Context (Hdetails : dq_max_completion_details request ≤ dq_max_claims request).
Implicit Types s : SchedulerLoop E.

Definition in_flight_payload (active : list (InFlightCandidate E)) : Z :=
  foldr (λ f n, if_payload_bytes f + n) 0 active.

Record loop_bounded s : Prop := {
  lb_order : cb_next_order (sl_completion s) = length (cb_completed (sl_completion s));
  lb_apply : (cb_next_apply (sl_completion s) ≤ length (cb_completed (sl_completion s)))%nat;
  (** A result that is awaited belongs to a candidate in flight. *)
  lb_awaited i :
    (cb_next_apply (sl_completion s) ≤ i)%nat → cb_completed (sl_completion s) !! i = Some None →
    i ∈ if_order <$> sl_active s;
  lb_reserved : cb_reserved_claims (sl_completion s) =
    Z.of_nat (length (cb_completed (sl_completion s))) - Z.of_nat (cb_next_apply (sl_completion s));
  lb_claims : dc_claimed (dr_counts (sl_report s)) + cb_reserved_claims (sl_completion s) ≤ dq_max_claims request;
  lb_report : report_bounded request (sl_report s);
  lb_candidates : map_Forall candidate_typed (sl_candidates s);
  lb_lanes : len (sl_active s) ≤ dq_max_concurrency request;
  lb_payloads : Forall (λ f, is_u32 (if_payload_bytes f) = true) (sl_active s);
  lb_payload : sl_active_payload_bytes s = in_flight_payload (sl_active s);
  (** A single candidate that is too large is refused before it is claimed. *)
  lb_in_flight : len (sl_active s) ≤ 1 ∨ sl_active_payload_bytes s ≤ dq_max_payload_bytes_in_flight request;
}.

(** What is left to do: a candidate to start, one in flight, results to apply. *)
Definition work s : nat :=
  3 * size (sl_candidates s) + 2 * length (sl_active s)
  + (if 0 <? cb_reserved_claims (sl_completion s) then 1 else 0).

(** ** Reservations *)

(** Only the owner and the allowance differ. *)
Definition owner_only s s' : Prop := ∃ owner budget, s' = set_owner owner (set_operation_budget budget s).

Lemma owner_only_refl s : owner_only s s.
Proof. exists (sl_owner s), (sl_operation_budget s). by destruct s. Qed.
Lemma owner_only_owner s s' owner : owner_only s s' → owner_only s (set_owner owner s').
Proof. intros (o & b & ->). by exists owner, b. Qed.
Lemma owner_only_budget s s' budget : owner_only s s' → owner_only s (set_operation_budget budget s').
Proof. intros (o & b & ->). by exists o, budget. Qed.

Lemma ends_select_candidate now s0 s :
  owner_only s0 s →
  ends (select_candidate now) s (λ r s', owner_only s0 s' ∧
    ∀ permit c, r = Ok (inr (permit, c)) → sl_candidates s0 !! pm_job_id permit = Some c).
Proof.
  intros Ho. assert (sl_candidates s = sl_candidates s0) as Hc by (destruct Ho as (o & b & ->); done).
  apply ends_get. destruct (owner_select_next_due_in now (eligible_now now s) (sl_owner s)) as [[selected owner]|];
    [|by apply ends_ret].
  apply ends_modify. assert (owner_only s0 (set_owner owner s)) as Ho' by by apply owner_only_owner.
  destruct selected as [[permit|]|]; [|by apply ends_ret..]. rewrite Hc.
  destruct (sl_candidates s0 !! pm_job_id permit) as [c|] eqn:Hl; [|by apply ends_raise]. apply ends_ret. split; [done|].
  by intros ? ? [= <- <-].
Qed.

(** What a reservation found. *)
Definition reserved_from s (r : ReservedCandidate) : Prop :=
  sl_candidates s !! pm_job_id (rc_permit r) = Some (rc_candidate r) ∧
  rc_payload_bytes r = pm_total_length (jr_payload (cd_record (rc_candidate r))) ∧
  (sl_active s = [] ∨
   saturating_add USIZE_MAX (sl_active_payload_bytes s) (rc_payload_bytes r) ≤ dq_max_payload_bytes_in_flight request).

Lemma ends_save_reservation permit s0 s :
  owner_only s0 s →
  ends (save_reservation system permit) s (λ r s', owner_only s0 s' ∧ ∀ p, r = Ok (inr p) → p = permit).
Proof.
  intros Ho. eapply leaves_bind; [apply leaves_true|]. intros [saved owner] _.
  destruct saved as [v|[]]; (split; [repeat apply owner_only_owner; done|]); by intros ? [= <-].
Qed.

Lemma ends_reserve_next now s :
  ends (reserve_next system request now) s (λ r s', owner_only s s' ∧ ∀ res, r = Ok (inr res) → reserved_from s res).
Proof.
  apply ends_modify, ends_bind.
  eapply ends_mono; [apply (ends_select_candidate now s), owner_only_owner, owner_only_refl|].
  intros [[status|[permit c]]|e] s1 [Ho Hc]; [by apply ends_ret| |done]. specialize (Hc permit c eq_refl).
  apply ends_get. cbn zeta. set (payload := pm_total_length _). destruct (_ && _) eqn:Hfit.
  { apply ends_modify, ends_ret. split; [by apply owner_only_owner|done]. }
  apply ends_bind, ends_lift. intros [operations|e]; [|done]. destruct (reserve _ _) as [budget|];
    [|apply ends_modify, ends_ret; split; [by apply owner_only_owner|done]].
  apply ends_modify, ends_bind. eapply ends_mono.
  { apply (ends_save_reservation permit s). by apply owner_only_budget. }
  intros [[status|p]|e] s2 [Ho2 Hp]; [by apply ends_ret| |done]. apply ends_ret. split; [done|]. intros res [= <-].
  assert (p = permit) as -> by by apply Hp. split; [done|]. split; [done|]. cbn [rc_payload_bytes]. fold payload.
  destruct Ho as (o & b & ->). cbn in Hfit. destruct (sl_active s); [by left|right].
  apply andb_false_iff in Hfit as [Hfit|Hfit]; [lia|].
  apply negb_false_iff, Z.eqb_eq in Hfit. unfold len in Hfit. cbn [length] in Hfit. lia.
Qed.
(** ** Starting candidates *)

Lemma request_bounds :
  1 ≤ dq_max_claims request ≤ U32_MAX ∧ 1 ≤ dq_max_concurrency request ≤ U16_MAX ∧
  1 ≤ dq_max_payload_bytes_in_flight request ≤ USIZE_MAX ∧ 0 ≤ dq_max_completion_details request ≤ U32_MAX.
Proof.
  unfold is_request_input in Hrequest. repeat (apply andb_prop in Hrequest as [Hrequest ?]).
  unfold is_nonzero_u32, is_nonzero_u16, is_nonzero_usize, is_u32 in *. rewrite in_range_spec in *. lia.
Qed.

Lemma payload_bound (active : list (InFlightCandidate E)) :
  Forall (λ f, is_u32 (if_payload_bytes f) = true) active →
  0 ≤ in_flight_payload active ≤ len active * U32_MAX.
Proof.
  unfold is_u32, len. induction 1 as [|f active Hf _ IH]; cbn [in_flight_payload foldr length]; [lia|].
  rewrite in_range_spec in Hf. unfold in_flight_payload in IH. lia.
Qed.

Lemma in_flight_payload_app (l1 l2 : list (InFlightCandidate E)) :
  in_flight_payload (l1 ++ l2) = in_flight_payload l1 + in_flight_payload l2.
Proof. unfold in_flight_payload. induction l1 as [|f l1 IH]; cbn; lia. Qed.

Lemma loop_bounded_owner_only s s' : owner_only s s' → loop_bounded s → loop_bounded s'.
Proof. by intros (o & b & ->) []. Qed.

Lemma start_candidate_bounded s res :
  loop_bounded s → reserved_from s res → len (sl_active s) < dq_max_concurrency request →
  dc_claimed (dr_counts (sl_report s)) + cb_reserved_claims (sl_completion s) < dq_max_claims request →
  loop_bounded (start_candidate system handlers request clock res s).
Proof.
  intros [] (Hc & Hp & Hfit) Hlanes Hclaims. destruct request_bounds as (Hr1 & Hr2 & Hr3 & _).
  pose proof (rb_nonneg _ _ lb_report0) as Hn. destruct (lb_candidates0 _ _ Hc) as [Hid Hu].
  pose proof (payload_bound _ lb_payloads0) as Hpb. rewrite <- Hp in Hu.
  assert (0 ≤ rc_payload_bytes res ≤ U32_MAX) as Hres by by apply in_range_spec.
  assert (len (sl_active s) * U32_MAX + U32_MAX ≤ USIZE_MAX) as Hmax.
  { pose proof (len_nonneg (sl_active s)). unfold U32_MAX, U16_MAX, USIZE_MAX, U64_MAX in *. nia. }
  assert (sl_active_payload_bytes s + rc_payload_bytes res ≤ USIZE_MAX) as Hsum by lia.
  assert (saturating_add U32_MAX (cb_reserved_claims (sl_completion s)) 1 = cb_reserved_claims (sl_completion s) + 1) as Hres1.
  { unfold saturating_add. lia. }
  assert (saturating_add USIZE_MAX (sl_active_payload_bytes s) (rc_payload_bytes res)
    = sl_active_payload_bytes s + rc_payload_bytes res) as Hsat by (unfold saturating_add; lia).
  split; cbn.
  - rewrite length_app, lb_order0. cbn. lia.
  - rewrite length_app. lia.
  - intros i Hi Hl. rewrite fmap_app. apply elem_of_app. apply lookup_app_Some in Hl as [Hl|[Hge Hl]]; [left; by eapply lb_awaited0|].
    right. apply list_lookup_singleton_Some in Hl as [Hi0 _]. cbn. apply list_elem_of_singleton. rewrite lb_order0. lia.
  - rewrite Hres1, length_app. cbn. lia.
  - lia.
  - done.
  - by apply map_Forall_delete.
  - rewrite len_app. unfold len at 2. cbn. lia.
  - apply Forall_app. split; [done|by apply Forall_singleton].
  - rewrite Hsat, in_flight_payload_app, lb_payload0. unfold in_flight_payload at 3. cbn. lia.
  - rewrite Hsat in *. rewrite len_app. unfold len at 2. cbn. destruct Hfit as [->|Hfit]; [left; done|right; lia].
Qed.

Lemma start_candidate_work s res :
  loop_bounded s → reserved_from s res →
  (work (start_candidate system handlers request clock res s) ≤ work s)%nat.
Proof.
  intros [] (Hc & _). destruct (lb_candidates0 _ _ Hc) as [Hid _]. unfold work. cbn. rewrite Hid, length_app. cbn.
  rewrite map_size_delete_Some by by eexists.
  assert (size (sl_candidates s) ≠ 0%nat) by (intros H0%map_size_empty_inv; by rewrite H0 in Hc).
  destruct (0 <? _), (0 <? _); lia.
Qed.

Definition claims_reached s : Prop :=
  dq_max_claims request ≤ dc_claimed (dr_counts (sl_report s)) + cb_reserved_claims (sl_completion s).

(** After the starts of a round: nothing was started only if the claims are
    used up, the loop stops starting or the selection is idle. *)
Definition started s0 (lanes : nat) (r : result (JobSystemError E) bool) s : Prop :=
  loop_bounded s ∧ (work s ≤ work s0)%nat ∧ (length (sl_active s0) ≤ length (sl_active s))%nat ∧
  (r = Ok false → lanes ≠ O → sl_active s = [] → cb_stop_starting (sl_completion s) = false → claims_reached s).

Lemma stop_starting_bounded s : loop_bounded s → loop_bounded (stop_starting s).
Proof. by intros []. Qed.

Lemma stop_with_bounded reason s : loop_bounded s → loop_bounded (stop_with reason s).
Proof. intros [? ? ? ? ? [] ? ? ? ? ?]. by split. Qed.

Lemma start_status_bounded status s : loop_bounded s → loop_bounded (record_start_status status s).
Proof.
  intros Hb. destruct status as [| |reason]; cbn; [done| |by apply stop_starting_bounded, stop_with_bounded].
  apply stop_starting_bounded. destruct Hb as [? ? ? ? ? [] ? ? ? ? ?]. split; try done; cbn; [lia|]. split; cbn; lia.
Qed.

Lemma ends_should_stop s :
  loop_bounded s →
  ends (should_stop_starting request) s (λ r s', loop_bounded s' ∧ work s' = work s ∧ sl_active s' = sl_active s ∧
    (r = Ok false → s' = s ∧ ¬ claims_reached s) ∧
    (r = Ok true → cb_stop_starting (sl_completion s') = true ∨ claims_reached s')).
Proof.
  intros Hb. apply ends_bind, ends_lift. intros [[]|e]; [| |by split_and!].
  - apply ends_modify, ends_bind. eapply leaves_bind; [apply leaves_true|]. intros shutdown _. cbn.
    split; [by apply (stop_with_bounded Shutdown), stop_starting_bounded in Hb as []|]. split_and!; try done. by left.
  - apply ends_get, ends_ret. split; [done|]. split_and!; try done; unfold claims_reached.
    + intros [= Hlt]. split; [done|]. destruct request_bounds as (? & _). apply Z.leb_gt in Hlt. unfold saturating_add in Hlt. lia.
    + intros [= Hle]. right. apply Z.leb_le in Hle. unfold saturating_add in Hle. lia.
Qed.
Lemma ends_start_lanes lanes s :
  loop_bounded s → len (sl_active s) + Z.of_nat lanes ≤ dq_max_concurrency request →
  ends (start_lanes system handlers request clock lanes) s (started s lanes).
Proof.
  revert s. induction lanes as [|lanes IH]; intros s Hb Hl; [by apply ends_ret; split_and!|]. cbn [start_lanes].
  apply ends_get. destruct (cb_stop_starting (sl_completion s)) eqn:Hstop.
  { apply ends_ret. split_and!; try done. intros _ _ _. by rewrite Hstop. }
  apply ends_bind. eapply ends_mono; [by apply ends_should_stop|]. intros [[]|e] s1 (Hb1 & Hw1 & Ha1 & Hf & Ht).
  - apply ends_ret. split_and!; [done|lia|by rewrite Ha1|]. intros _ _ _ Hs. destruct (Ht eq_refl); [congruence|done].
  - destruct (Hf eq_refl) as [-> Hnot]. apply ends_bind, ends_lift. intros [now|e]; [|by split_and!].
    apply ends_bind. eapply ends_mono; [apply ends_reserve_next|]. intros [[status|res]|e] s2 [Ho Hres].
    + apply ends_modify, ends_ret. apply (loop_bounded_owner_only s s2) in Hb1 as Hb2; [|done].
      assert (work s2 = work s) as Hw2 by (by destruct Ho as (o & b & ->)).
      split; [by apply start_status_bounded|]. split; [|split; [|done]]; destruct Ho as (o & b & ->); by destruct status.
    + apply ends_modify. pose proof (Hres res eq_refl) as Hfrom.
      assert (loop_bounded s2 ∧ reserved_from s2 res ∧ work s2 = work s ∧ len (sl_active s2) = len (sl_active s) ∧ ¬ claims_reached s2)
        as (Hb2 & Hfrom2 & Hw2 & Hl2 & Hnot2).
      { split; [by eapply loop_bounded_owner_only|]. by destruct Ho as (o & b & ->). }
      assert (len (sl_active (start_candidate system handlers request clock res s2)) = len (sl_active s2) + 1) as Hl3.
      { cbn. rewrite len_app. done. }
      unfold claims_reached in Hnot2. eapply ends_mono.
      { apply IH; [apply start_candidate_bounded; [done..|lia|lia]|lia]. }
      intros r s3 (Hb3 & Hw3 & Hl4 & _). pose proof (start_candidate_work s2 res Hb2 Hfrom2). unfold len in *.
      split_and!; [done|lia|lia|]. intros _ _ Hnil. rewrite Hnil in Hl4. cbn [length] in Hl4. lia.
    + split; [by eapply loop_bounded_owner_only|]. by destruct Ho as (o & b & ->).
  - split_and!; [done|lia|by rewrite Ha1|done].
Qed.
(** ** Applying results *)

(** The bookkeeping of results and the report. *)
Record books_bounded (b : CompletionBookkeeping E) (report : DriveReport) : Prop := {
  bb_order : cb_next_order b = length (cb_completed b);
  bb_apply : (cb_next_apply b ≤ length (cb_completed b))%nat;
  bb_reserved : cb_reserved_claims b = Z.of_nat (length (cb_completed b)) - Z.of_nat (cb_next_apply b);
  bb_claims : dc_claimed (dr_counts report) + cb_reserved_claims b ≤ dq_max_claims request;
  bb_report : report_bounded request report;
}.

Lemma apply_candidate_result_bounded r report stop report' :
  apply_candidate_result r (dq_max_completion_details request) report = (stop, report') →
  report_bounded request report → dc_claimed (dr_counts report) + 1 ≤ dq_max_claims request →
  report_bounded request report' ∧
  dc_claimed (dr_counts report) ≤ dc_claimed (dr_counts report') ≤ dc_claimed (dr_counts report) + 1.
Proof.
  intros Hap [H1 H2 H3 H4 H5] Hc. destruct r; cbn in Hap; injection Hap as <- <-; unfold record_completion;
    try (destruct (Z.ltb_spec (len (dr_completions (count (add_counts 1 1 0 0 0 0 0 0) report))) (dq_max_completion_details request)));
    cbn in *; (split; [split; cbn; rewrite ?len_app; cbn; unfold len in *; cbn [length] in *; lia|lia]).
Qed.

(** What a pass over the results leaves. *)
Record applied (b : CompletionBookkeeping E) (report : DriveReport) (r : result (JobSystemError E) unit)
    (b' : CompletionBookkeeping E) (report' : DriveReport) : Prop := {
  ap_books : books_bounded b' report';
  ap_next : (cb_next_apply b ≤ cb_next_apply b')%nat;
  ap_length : length (cb_completed b') = length (cb_completed b);
  ap_later i : (cb_next_apply b' ≤ i)%nat → cb_completed b' !! i = cb_completed b !! i;
  ap_claimed : dc_claimed (dr_counts report) ≤ dc_claimed (dr_counts report');
  ap_stop : cb_stop_starting b' = false → cb_stop_starting b = false;
  ap_blocked : r = Ok tt → cb_next_apply b' = length (cb_completed b) ∨ cb_completed b !! cb_next_apply b' = Some None;
}.

Lemma apply_results_bounded fuel now b report :
  books_bounded b report → (length (cb_completed b) ≤ fuel + cb_next_apply b)%nat →
  let '(r, b', report') := apply_results fuel now (dq_max_completion_details request) b report in
  applied b report r b' report'.
Proof.
  revert b report. induction fuel as [|fuel IH]; intros b report Hb Hfuel; cbn [apply_results].
  { split; try done. intros _. left. destruct Hb. lia. }
  destruct (cb_completed b !! cb_next_apply b) as [[completed|]|] eqn:Hc.
  2: { split; try done. intros _. by right. }
  2: { split; try done. intros _. left. apply lookup_ge_None in Hc. destruct Hb. lia. }
  set (b1 := mkCompletionBookkeeping _ _ _ _ _ _). pose proof (lookup_lt_Some _ _ _ Hc) as Hlt.
  assert (books_bounded b1 report) as Hb1.
  { destruct Hb. split; cbn; rewrite ?length_insert; try done; unfold saturating_sub; lia. }
  assert (∀ r b' report', applied b1 report r b' report' → applied b report r b' report') as Hstep.
  { intros r b' report' [Ha1 Ha2 Ha3 Ha4 Ha5 Ha7 Ha6]. cbn in *. rewrite length_insert in *.
    assert (∀ i, (cb_next_apply b' ≤ i)%nat → <[cb_next_apply b:=None]> (cb_completed b) !! i = cb_completed b !! i) as Hins.
    { intros i Hi. apply list_lookup_insert_ne. lia. }
    split; [done|lia|done| |done|done|].
    - intros i Hi. rewrite Ha4 by done. by apply Hins.
    - intros Hr. destruct (Ha6 Hr) as [?|Hn]; [by left|]. right. by rewrite <- Hins. }
  destruct (cc_result completed) as [r|e]; [|by apply Hstep; split].
  unfold apply_one. destruct (apply_candidate_result r _ report) as [stop report1] eqn:Hap. cbn zeta.
  assert (dc_claimed (dr_counts report) + 1 ≤ dq_max_claims request) as Hroom.
  { destruct Hb. lia. }
  destruct (apply_candidate_result_bounded _ _ _ _ Hap (bb_report _ _ Hb) Hroom) as [Hr1 Hcl].
  set (b2 := match pending_at r now with Some _ => _ | None => _ end). set (b3 := if stop then _ else _).
  assert (cb_completed b3 = cb_completed b1 ∧ cb_next_apply b3 = cb_next_apply b1 ∧ cb_next_order b3 = cb_next_order b1
    ∧ cb_reserved_claims b3 = cb_reserved_claims b1 ∧ (cb_stop_starting b3 = false → cb_stop_starting b1 = false))
    as (E1 & E2 & E3 & E4 & E5).
  { subst b3 b2. by destruct stop, (pending_at r now). }
  assert (books_bounded b3 report1) as Hb3.
  { destruct Hb1, Hb. split; rewrite ?E1, ?E2, ?E3, ?E4; try done. cbn in *. unfold saturating_sub in *. lia. }
  specialize (IH b3 report1 Hb3). rewrite E1, E2 in IH. cbn in IH. rewrite length_insert in IH. specialize (IH ltac:(lia)).
  destruct (apply_results fuel now _ b3 report1) as [[r' b'] report']. apply Hstep.
  destruct IH as [Ha1 Ha2 Ha3 Ha4 Ha5 Ha7 Ha6]. rewrite E1, ?E2 in *. split; try done; [lia|]. auto.
Qed.

Lemma ends_apply_completed now s :
  loop_bounded s →
  ends (apply_completed now (dq_max_completion_details request)) s (λ r s', loop_bounded s' ∧ (work s' ≤ work s)%nat ∧
    sl_active s' = sl_active s ∧ sl_candidates s' = sl_candidates s ∧
    dc_claimed (dr_counts (sl_report s)) ≤ dc_claimed (dr_counts (sl_report s')) ∧
    (cb_stop_starting (sl_completion s') = false → cb_stop_starting (sl_completion s) = false) ∧
    (r = Ok tt → sl_active s = [] → cb_reserved_claims (sl_completion s') = 0)).
Proof.
  intros Hb. unfold ends, apply_completed.
  pose proof (apply_results_bounded (length (cb_completed (sl_completion s))) now (sl_completion s) (sl_report s)) as Ha.
  destruct (apply_results _ _ _ _ _) as [[r b] report]. cbn [leaves fst snd].
  destruct Ha as [Ha1 Ha2 Ha3 Ha4 Ha5 Ha7 Ha6]; [by destruct Hb|lia|]. pose proof Ha1 as [? ? Hres ? ?].
  assert (cb_reserved_claims b ≤ cb_reserved_claims (sl_completion s)) as Hle by (destruct Hb; lia).
  split; [|split; [|split_and!; try done]].
  - destruct Hb. split; cbn; try done. intros i Hi. rewrite Ha4 by done. apply lb_awaited0. lia.
  - unfold work. cbn. destruct (Z.ltb_spec 0 (cb_reserved_claims b)), (Z.ltb_spec 0 (cb_reserved_claims (sl_completion s))); lia.
  - intros Hr Hnil. cbn. rewrite Hres, Ha3. destruct (Ha6 Hr) as [->|Hn]; [lia|].
    apply (lb_awaited _ Hb) in Hn; [|done]. rewrite Hnil in Hn. by apply not_elem_of_nil in Hn.
Qed.
(** ** Rounds *)

(** After [advance_candidates]: if nothing is in flight and the loop could go
    on, either the claims are used up or there were results to apply. *)
Lemma ends_advance s :
  loop_bounded s →
  ends (advance_candidates system handlers request clock) s (λ r s', loop_bounded s' ∧ (work s' ≤ work s)%nat ∧
    (r = Ok false → sl_active s' = [] → cb_stop_starting (sl_completion s') = false →
     dc_claimed (dr_counts (sl_report s')) < dq_max_claims request → (work s' < work s)%nat)).
Proof.
  intros Hb. destruct request_bounds as (_ & Hlanes & _). apply ends_bind. apply ends_get. eapply ends_mono.
  { apply ends_start_lanes; [done|]. destruct Hb. pose proof (len_nonneg (sl_active s)). lia. }
  intros [idle|e] s1 (Hb1 & Hw1 & Hl1 & Hidle); [|by split_and!].
  apply ends_bind, ends_lift. intros [now|e]; [|by split_and!].
  apply ends_bind. eapply ends_mono; [by apply ends_apply_completed|].
  intros [[]|e] s2 (Hb2 & Hw2 & Ha2 & Hc2 & Hclaimed & Hst & Hres); [|split_and!; [done|lia|done]].
  apply ends_ret. split_and!; [done|lia|]. intros [= ->] Hnil Hstop Hroom. rewrite Ha2 in Hnil. specialize (Hres eq_refl Hnil).
  assert (cb_stop_starting (sl_completion s1) = false → claims_reached s1) as Hreached.
  { apply Hidle; [done| |done]. rewrite Hnil in Hl1. destruct (sl_active s); [|cbn in Hl1; lia]. unfold len. cbn. lia. }
  assert (claims_reached s1) as Hfull by auto.
  unfold claims_reached in Hfull. enough (work s2 < work s1)%nat by lia. unfold work. rewrite Ha2, Hc2, Hres.
  destruct (Z.ltb_spec 0 (cb_reserved_claims (sl_completion s1))); [cbn; lia|lia].
Qed.
Definition view (f : InFlightCandidate E) : nat * Z := (if_order f, if_payload_bytes f).

Lemma leaves_poll active H shutdown :
  leaves (λ x, match x.1.1 with
    | SP_Completed completed _ => view <$> active ≡ₚ (cc_order completed, cc_payload_bytes completed) :: (view <$> x.1.2)
    | _ => view <$> x.1.2 = view <$> active
    end) (poll_in_flight active H shutdown).
Proof.
  set (Q := λ active0 (x : ShutdownPoll (E := E) * list (InFlightCandidate E) * ShutdownController), match x.1.1 with
    | SP_Completed completed _ => view <$> active0 ≡ₚ (cc_order completed, cc_payload_bytes completed) :: (view <$> x.1.2)
    | _ => view <$> x.1.2 = view <$> active0
    end).
  apply (poll_in_flight_ind (λ active shutdown p, leaves (Q active) p)). clear active H shutdown.
  intros active shutdown p (body & Hbody & ->). intros down. eapply leaves_bind; [apply leaves_true|]. intros sh _.
  eapply leaves_bind; [apply leaves_true|]. intros timer _. destruct timer; [|done..]. intros next.
  destruct (Hbody sh next) as [Hn|f r Hi Hr|f X o k rest Hi Hr Hrest]; [done| |].
  - cbn. rewrite (swap_remove_perm _ _ _ Hi). rewrite (delete_Permutation active _ f Hi) at 1. done.
  - intros x. eapply leaves_mono; [|apply Hrest]. intros [[polled active'] sh']. unfold Q. cbn [fst snd].
    rewrite list_fmap_insert, (list_insert_id (view <$> active)); [done|]. by rewrite list_lookup_fmap, Hi.
Qed.

Lemma payload_sum_perm (l l' : list (nat * Z)) :
  l ≡ₚ l' → foldr (λ v n, v.2 + n) 0 l = foldr (λ v n, v.2 + n) 0 l'.
Proof. induction 1; cbn; lia. Qed.

(** A candidate settled: the invariant is kept, and there is less to do. *)
Lemma settle_bounded s completed permit active shutdown :
  loop_bounded s → view <$> sl_active s ≡ₚ (cc_order completed, cc_payload_bytes completed) :: (view <$> active) →
  let s' := settle completed permit (set_shutdown shutdown (set_active active s)) in
  loop_bounded s' ∧ (work s' < work s)%nat.
Proof.
  intros [] Hp. assert (length (sl_active s) = S (length active)) as Hlen.
  { apply Permutation_length in Hp. cbn in Hp. by rewrite !length_fmap in Hp. }
  assert (is_u32 (cc_payload_bytes completed) = true ∧ Forall (λ f, is_u32 (if_payload_bytes f) = true) active) as [Hu Hact].
  { assert (Forall (λ v : nat * Z, is_u32 v.2 = true) (view <$> sl_active s)) as Hv by by rewrite Forall_fmap.
    rewrite Hp in Hv. inversion Hv as [|? ? H1 H2]; subst. by rewrite Forall_fmap in H2. }
  assert (in_flight_payload (sl_active s) = cc_payload_bytes completed + in_flight_payload active) as Hsum.
  { assert (∀ l : list (InFlightCandidate E), in_flight_payload l = foldr (λ (v : nat * Z) n, v.2 + n) 0 (view <$> l)) as Hf.
    { induction l as [|f l IH]; cbn; [done|]. unfold in_flight_payload in IH. by rewrite IH. }
    rewrite !Hf, (payload_sum_perm _ _ Hp). done. }
  pose proof (payload_bound _ Hact) as Hpb. unfold is_u32 in Hu. rewrite in_range_spec in Hu.
  assert (saturating_sub (sl_active_payload_bytes s) (cc_payload_bytes completed) = in_flight_payload active) as Hsub.
  { unfold saturating_sub. lia. }
  split.
  - split; cbn; rewrite ?length_insert; try done.
    + intros i Hi Hl. destruct (decide (i = cc_order completed)) as [->|Hne].
      { apply list_lookup_insert_Some in Hl as [(_ & [=] & _)|[? _]]; done. }
      rewrite list_lookup_insert_ne in Hl by done. apply (lb_awaited0 _ Hi) in Hl.
      assert (i ∈ (view <$> sl_active s).*1) as Hin by by rewrite <- list_fmap_compose.
      rewrite Hp in Hin. cbn in Hin. apply elem_of_cons in Hin as [?|Hin]; [done|].
      by rewrite <- list_fmap_compose in Hin.
    + unfold len in *. lia.
    + unfold len in *. destruct lb_in_flight0; [left|right]; lia.
  - unfold work. cbn. rewrite Hlen. lia.
Qed.

(** A finished loop, which may have dropped what was in flight. *)
Definition loop_done s : Prop := report_bounded request (sl_report s).

Lemma ends_round s :
  loop_bounded s →
  ends (loop_round system handlers request clock) s (λ r s',
    match r with
    | Ok (RD_continue, _) => loop_bounded s' ∧ (work s' < work s)%nat
    | _ => loop_done s'
    end).
Proof.
  intros Hb. apply ends_bind, ends_attempt. eapply ends_mono; [by apply ends_advance|].
  intros advanced s1 (Hb1 & Hw1 & Hidle). cbn zeta. apply ends_bind.
  apply (ends_mono _ _ (λ r s2, ∃ idle, r = Ok idle ∧ loop_bounded s2 ∧ (work s2 ≤ work s)%nat ∧
    (idle = false → sl_active s2 = [] → cb_stop_starting (sl_completion s2) = false →
     dc_claimed (dr_counts (sl_report s2)) < dq_max_claims request → (work s2 < work s)%nat))).
  { destruct advanced as [idle|cause].
    - apply ends_ret. exists idle. split_and!; try done. intros ->. by apply Hidle.
    - apply ends_modify, ends_ret. exists true. split_and!; try done. by apply stop_starting_bounded. }
  intros ? s2 (idle & -> & Hb2 & Hw2 & Hlt). apply ends_get. destruct (sl_active s2) as [|f active] eqn:Hact.
  { apply ends_ret. destruct (_ || _) eqn:Hcond; [apply Hb2|]. apply orb_false_iff in Hcond as [Hcond Hmax].
    apply orb_false_iff in Hcond as [-> Hstop]. split; [done|]. apply Hlt; [done..|lia]. }
  clear f active Hact Hlt. apply ends_bind. eapply leaves_bind; [apply leaves_poll|].
  intros [[polled active] shutdown] Hp. cbn in Hp. destruct polled as [completed permit| |]; cbn [leaves fst snd].
  - apply ends_modify, ends_modify, ends_ret. pose proof (settle_bounded s2 completed permit active shutdown Hb2 Hp) as [Hb3 Hw3].
    destruct (sc_requested _); [|split; [done|lia]].
    split; [by apply (stop_with_bounded Shutdown), stop_starting_bounded in Hb3|]. unfold work in *. cbn in *. lia.
  - apply ends_modify, ends_ret. destruct Hb2 as [? ? ? ? ? [] ? ? ? ? ?]. by split.
  - destruct Hb2 as [? ? ? ? ? [] ? ? ? ? ?]. by split.
Qed.

Lemma ends_run_loop fuel error s :
  loop_bounded s → (work s < fuel)%nat →
  ends (run_loop system handlers request clock fuel error) s (λ r s', r ≠ Ok None ∧ loop_done s').
Proof.
  revert error s. induction fuel as [|fuel IH]; intros error s Hb Hf; [lia|]. cbn [run_loop]. apply ends_bind.
  eapply ends_mono; [by apply ends_round|]. intros [[[] cause]|e] s1 Hr; [| |by split].
  - cbn zeta. destruct (match error with None => cause | _ => error end); [by apply ends_raise|by apply ends_ret].
  - destruct Hr as [Hb1 Hw1]. apply IH; [done|lia].
Qed.
End bounds.

(** ** The drive *)

Section discovered.
Context {E : Type} (system : JobSystem) (request : DriveRequest) (clock : DriveClock).

Definition decoded (c : Candidate) : Prop := decode_job_record (cd_encoded c) = Ok (cd_record c).

Lemma decoded_typed c : decoded c → candidate_typed (jr_job_id (cd_record c)) c.
Proof.
  intros Hd. apply decode_typed in Hd. split; [done|]. unfold is_job_record in Hd. split_andb.
  match goal with H : is_payload_manifest _ = true |- _ => unfold is_payload_manifest in H end. by split_andb.
Qed.

Lemma route_candidate_decoded route encoded c : route_candidate request route encoded = Some c → decoded c.
Proof.
  unfold route_candidate, decoded. destruct route as [d|d], encoded as [e|]; try done.
  - unfold decode_due_candidate. cbn. destruct (decode_job_record e) as [r|] eqn:Hr; [|done].
    destruct (decode_timestamp_value _ _); [|done]. destruct (_ && _); [|done]. cbn. by intros [= <-].
  - unfold decode_lease_candidate. cbn. destruct (decode_job_record e) as [r|] eqn:Hr; [|done].
    destruct (_ || _); [done|]. destruct (jr_state r); try done. destruct (queue_selected _ _); [|done]. cbn. by intros [= <-].
Qed.

Lemma process_batch_decoded now routes values d b :
  Forall decoded (ds_candidates d) → Forall decoded (ds_candidates (process_batch request now routes values d b).1.2).
Proof.
  revert values d b. induction routes as [|route routes IH]; intros [|encoded values] d b Hd; cbn [process_batch]; [done..|].
  destruct (reserve_record_value _ _); [|done]. apply IH.
  destruct (route_candidate request route encoded) as [c|] eqn:Hc; [|done]. apply route_candidate_decoded in Hc.
  unfold Discovery_record. destruct (_ <=? _); apply Forall_app; (split; [done|by apply Forall_singleton]).
Qed.

Lemma load_records_decoded fuel now routes keys d bs :
  Forall decoded (ds_candidates d) →
  outcomes (λ x, Forall decoded (ds_candidates x.1)) (load_records (E := E) system request fuel now routes keys d bs).
Proof.
  revert routes keys d bs. induction fuel as [|fuel IH]; intros routes keys d bs Hd; destruct keys as [|key keys]; try done.
  cbn [load_records]. cbn zeta. destruct (record_batch_len _ _ _ _ _) as [n|]; [|done]. destruct (reserve 1 bs.1) as [ops|]; [|done].
  eapply (outcomes_bind (λ x, Forall decoded (ds_candidates x.1.2))).
  { unfold load_batch. apply outcomes_any. intros values. destruct (negb _); [done|]. by apply process_batch_decoded. }
  intros [[within d'] b'] Hd'. destruct (_ || _); [done|]. by apply IH.
Qed.

Lemma discover_decoded now operations :
  outcomes (λ x, Forall decoded (ds_candidates x.1)) (discover (E := E) system request clock now operations).
Proof.
  unfold discover. apply outcomes_any. intros [routes bs]. apply outcomes_any. intros keys.
  eapply outcomes_bind; [apply load_records_decoded; constructor|]. intros [d bs'] Hd. exact Hd.
Qed.

Lemma insert_discovered_typed discovered candidates :
  Forall decoded discovered → map_Forall candidate_typed candidates →
  map_Forall candidate_typed (insert_discovered discovered candidates).
Proof.
  intros Hd. unfold insert_discovered. revert candidates. induction Hd as [|c discovered Hc _ IH]; intros candidates Hm; [done|].
  cbn. apply IH. destruct (candidates !! _); [done|]. apply map_Forall_insert_2; [|done]. by apply decoded_typed.
Qed.

Lemma prepare_owner_typed discovery operations :
  Forall decoded (ds_candidates discovery) →
  outcomes (λ x, ∀ owner candidates, x.1 = Some (owner, candidates) → map_Forall candidate_typed candidates)
    (prepare_owner (E := E) system request discovery operations).
Proof.
  intros Hd. unfold prepare_owner. destruct (reserve _ _) as [ops|]; [|done]. destruct (_ && _); [done|]. cbn zeta.
  apply outcomes_any. intros owner. destruct (apply_registration_weights _ _) as [conflicts owner'].
  intros ? candidates [= <- <-] id c [Hl _]%map_lookup_filter_Some. revert id c Hl.
  apply insert_discovered_typed; [done|apply map_Forall_empty].
Qed.

Lemma finish_report_bounded report wake :
  report_bounded request report →
  outcomes (E := E) (report_bounded request) (finish_report request report wake).
Proof. intros []. unfold finish_report. apply outcomes_any. intros down. by split. Qed.

Lemma empty_report_bounded discovery :
  is_request_input request = true → report_bounded request (su_report (SchedulerSetup_new discovery)).
Proof.
  intros Hr. apply request_bounds in Hr as (? & _ & _ & ?). unfold SchedulerSetup_new. cbn.
  destruct (ds_stop_reason discovery); split; unfold len; cbn; lia.
Qed.

Lemma loop_start_bounded owner candidates operations discovery :
  is_request_input request = true → map_Forall candidate_typed candidates →
  loop_bounded (E := E) request (SchedulerLoop_new owner candidates operations (SchedulerSetup_new discovery)).
Proof.
  intros Hr Htyped. pose proof (empty_report_bounded discovery Hr) as Hrep.
  destruct (request_bounds request Hr) as (? & ? & ? & ?). split; cbn; try done; [|unfold len; cbn; lia|by left].
  destruct (ds_stop_reason discovery); cbn; lia.
Qed.
End discovered.

Section drive_bounds.
Context {E : Type} (system : JobSystem) (handlers : JobKind → Z → JobHandler).

(** Every way a drive can end: it returns a report within its request, or an
    error, and never runs out of the fuel of its loop. *)
Lemma leaves_drive request now :
  is_request_input request = true → dq_max_completion_details request ≤ dq_max_claims request →
  leaves (λ r, r ≠ Ok None ∧ ∀ report, r = Ok (Some report) → report_bounded request report)
    (drive (E := E) system handlers request now).
Proof.
  intros Hr Hd. set (Q := λ r : result (JobSystemError E) (option DriveReport),
    r ≠ Ok None ∧ ∀ report, r = Ok (Some report) → report_bounded request report).
  assert (∀ p : job E DriveReport, outcomes (report_bounded request) p →
    leaves Q (report ← p; mret (Some report))) as Hlast.
  { intros p Hp. eapply leaves_bind; [exact Hp|]. intros [report|e] Hrep; (split; [done|]); by intros ? [= <-]. }
  assert (∀ (A : Type) (P : A → Prop) (p : job E A) k, outcomes P p → (∀ a, P a → leaves Q (k a)) → leaves Q (p ≫= k)) as Hbind.
  { intros A P p k Hp Hk. eapply leaves_bind; [exact Hp|]. intros [a|e] Ha; [by apply Hk|by split]. }
  unfold drive. apply (Hbind _ (λ _, True)); [apply leaves_ok|]. intros clock _.
  eapply Hbind; [apply discover_decoded|]. intros [discovery operations] Hdec. unfold drive_scheduler. cbn zeta.
  eapply Hbind; [by apply prepare_owner_typed|]. intros [[[owner candidates]|] operations'] Htyped.
  - eapply leaves_bind; [apply ends_run_loop; [done..| |]|].
    + apply loop_start_bounded; [done|]. by eapply Htyped.
    + unfold work, loop_fuel. cbn. lia.
    + intros [[[u|]|e] s] [Hn Hdone]; unfold conclude; cbn [fst snd] in *; [|done|by split]. apply Hlast.
      unfold finish. apply outcomes_any. intros t. by apply finish_report_bounded.
  - apply (Hbind _ (λ _, True)); [apply leaves_ok|]. intros t _. apply Hlast. unfold SchedulerSetup_finish.
    apply finish_report_bounded. by apply empty_report_bounded.
Qed.
End drive_bounds.
