(* ===== verification/Engine.v ===== *)
(** * The engine

    Any number of processes call the operations of the engine on one store, in
    any interleaving, with commits whose outcome may stay unknown and claims
    that may be used after they were lost.  Every reachable state satisfies
    the invariant, and everything the operations reported is true of the
    history of the store. *)

From S2P Require Import Prelude Errors Ids Clock Policy JobRecord Wire KeyCodec ValueCodec JobCodec.
From S2P Require Import JobRoundtrip OperationCodec Keyspace Store Prog Logic System Transition Permits Claim.
From S2P Require Import Completion Enqueue Admin Failure Refs Invariant Update Protocol Steps Moves Held LeaseTx.
From S2P Require Import Completed Outcomes Renewal Claimed Controls Recovery Administered Payload Enqueued.
From S2P Require Import Budgets Candidate Scheduler CandidateSafe SchedulerSafe.

(** ** What operations return *)

(** A successful return, with the job it speaks of. *)
Inductive report : Type :=
  | R_Enqueued (job : NewJob) (ematch : ExistingJobMatch) (result : EnqueueResult)
  | R_Outcome (claim : ClaimedJob) (result : OutcomeResult)
  | R_Cancel (job_id : JobId) (result : CancellationResult)
  | R_CancelRequested (job_id : JobId)
  | R_Suspended (job_id : JobId)
  | R_Resumed (job_id : JobId)
  | R_Redriven (job_id : JobId) (result : RedriveResult)
  | R_Repaired (job_id : JobId)
  | R_Expired (job_id : JobId) (result : ExpiryResult)
  | R_DeadLettered (job_id : JobId)
  | R_Driven (report : DriveReport).

Inductive token : Type :=
  | T_claim (claim : ClaimedJob)
  | T_report (rep : report).

(** An operation whose result [f] describes. *)
Definition reporting {E A} (p : job E A) (f : A → list token) : prog E (list token) :=
  prog_bind p (λ r, Ret (match r with Ok a => f a | Err _ => [] end)).

Section engine.
Context (ns : Namespace) (sha256 : bytes → bytes).
#[local] Instance disc : Discipline := engine_discipline ns sha256.
Implicit Types w : world.
Implicit Types j : JobId.
Implicit Types r : JobRecordV1.
Implicit Types l : Lease.
Implicit Types m : StoreMap.

(** What a report says of the history of the store. *)
Definition report_ok w (rep : report) : Prop :=
  match rep with
  | R_Enqueued job ematch result => enqueue_post ns job ematch result w
  | R_Outcome c result => outcome_moved ns c w result
  | R_Cancel j result => cancelled_or_requested ns w j result
  | R_CancelRequested j => requested ns w j
  | R_Suspended j => moved ns w j Suspended
  | R_Resumed j | R_Repaired j => moved ns w j Scheduled
  | R_Redriven j result => rr_job_id result = j ∧ moved ns w j Scheduled
  | R_Expired j result => expiry_moved ns w j result
  | R_DeadLettered j => moved ns w j DeadLettered
  | R_Driven report => report_recorded ns w report
  end.

Definition token_ok w (t : token) : Prop :=
  match t with T_claim c => claim_ok ns w c | T_report rep => report_ok w rep end.

(** ** The operations *)

(** The calls a process that holds [tokens] may make.  A claim may be used by
    anyone it was handed to, any number of times. *)
Inductive calls {E : Type} (tokens : list token) : prog E (list token) → Prop :=
  | call_enqueue system job now ematch :
      system_ok ns sha256 system → is_new_job job = true → is_i64 now = true →
      calls tokens (reporting (enqueue_with_match system job now ematch) (λ res, [T_report (R_Enqueued job ematch res)]))
  | call_claim system j now capacity :
      system_ok ns sha256 system → is_fixed_id j = true → is_i64 now = true → 0 ≤ capacity →
      calls tokens (reporting (claim_with_capacity system j now capacity) (λ c, [T_claim c]))
  | call_apply_outcome system c outcome now :
      system_ok ns sha256 system → T_claim c ∈ tokens → outcome_typed outcome → is_i64 now = true →
      calls tokens (reporting (apply_outcome system c outcome now) (λ res, [T_report (R_Outcome c res)]))
  | call_renew system c now :
      system_ok ns sha256 system → T_claim c ∈ tokens →
      calls tokens (prog_bind (renew system c now) (λ '(c', _), Ret [T_claim c']))
  | call_checkpoint system c bs now :
      system_ok ns sha256 system → T_claim c ∈ tokens →
      calls tokens (prog_bind (checkpoint system c bs now) (λ '(c', _), Ret [T_claim c']))
  | call_cancel_claim system c now :
      system_ok ns sha256 system → T_claim c ∈ tokens →
      calls tokens (reporting (cancel_claim system c now) (λ res, [T_report (R_Cancel (jr_job_id (cj_record c)) res)]))
  | call_request_cancellation system c now :
      system_ok ns sha256 system → T_claim c ∈ tokens →
      calls tokens (reporting (request_job_cancellation system c now)
        (λ _, [T_report (R_CancelRequested (jr_job_id (cj_record c)))]))
  | call_cancel system j now :
      system_ok ns sha256 system → is_fixed_id j = true →
      calls tokens (reporting (cancel_job system j now) (λ res, [T_report (R_Cancel j res)]))
  | call_suspend system j :
      system_ok ns sha256 system → is_fixed_id j = true →
      calls tokens (reporting (suspend_job system j) (λ _, [T_report (R_Suspended j)]))
  | call_resume system j :
      system_ok ns sha256 system → is_fixed_id j = true →
      calls tokens (reporting (resume_job system j) (λ _, [T_report (R_Resumed j)]))
  | call_redrive system j request :
      system_ok ns sha256 system → is_fixed_id j = true → is_i64 (rd_scheduled_at request) = true →
      calls tokens (reporting (redrive_job system j request) (λ res, [T_report (R_Redriven j res)]))
  | call_repair system j revision operation :
      system_ok ns sha256 system → is_fixed_id j = true →
      calls tokens (reporting (repair_job system j revision operation) (λ _, [T_report (R_Repaired j)]))
  | call_expire system j now :
      system_ok ns sha256 system → is_fixed_id j = true → is_i64 now = true →
      calls tokens (reporting (expire_job system j now) (λ res, [T_report (R_Expired j res)]))
  | call_dead_letter system j now :
      system_ok ns sha256 system → is_fixed_id j = true → is_i64 now = true →
      calls tokens (reporting (dead_letter_by_id system j now) (λ _, [T_report (R_DeadLettered j)]))
  | call_execute_claimed system handlers c now :
      system_ok ns sha256 system → handlers_typed handlers → T_claim c ∈ tokens →
      calls tokens (reporting (execute_claimed system handlers c now) (λ _, []))
  | call_drive system handlers request now :
      system_ok ns sha256 system → handlers_typed handlers → 0 ≤ dq_max_concurrency request →
      calls tokens (reporting (drive system handlers request now)
        (λ driven, match driven with Some report => [T_report (R_Driven report)] | None => [] end))
  | call_read {A : Type} (p : job E A) :
      quiet p → calls tokens (reporting p (λ _, [])).

(** ** Safety *)

Definition start : world := mkWorld ∅ [] ∅ ∅.
Definition reachable {E : Type} (c : config (E := E) (T := token)) : Prop :=
  rtc (pool_step calls) (mkConfig start ∅ []) c.

Section safety.
Context (Hns : is_opaque MAX_NAMESPACE_BYTES ns = true) (Hsha : ∀ bs, len (sha256 bs) = 32).

Lemma start_record j : record_at ns ∅ j = None.
Proof. apply record_at_none, lookup_empty. Qed.

Lemma start_job_inv j : job_inv ns sha256 ∅ j.
Proof.
  split.
  - intros e. by rewrite lookup_empty.
  - intros k _. by rewrite start_record, lookup_empty.
  - rewrite start_record. left. apply lookup_empty.
  - intros v. by rewrite lookup_empty.
  - intros k _. rewrite start_record, lookup_empty. split; [by intros []|by intros (? & ? & _)].
  - intros r. by rewrite start_record.
Qed.

Lemma start_state_ok : state_ok ns sha256 ∅.
Proof.
  split.
  - intros j _. apply start_job_inv.
  - intros k v _. by rewrite lookup_empty.
  - intros j r pv _. by rewrite start_record.
Qed.

Lemma start_valid : valid_world ns sha256 start.
Proof.
  split.
  - split; [done|]. split; [apply start_state_ok|]. intros j _. split.
    + intros m0 Hm. by apply not_elem_of_nil in Hm.
    + intros e m0 Hm. by apply not_elem_of_nil in Hm.
  - intros m id Hm (j & r & _ & Hr & _). apply list_elem_of_singleton in Hm as ->.
    rewrite start_record in Hr. done.
  - intros id rc. cbn. by rewrite lookup_empty.
  - intros id tx. cbn. by rewrite lookup_empty.
Qed.

Lemma report_extends w w' rep : extends ∅ w w' → report_ok w rep → report_ok w' rep.
Proof.
  intros He. destruct rep as [job em [jid disp wake]|c res|j res| | | |j res| |j res| |report]; cbn;
    try by apply (moved_extends ns sha256 ∅).
  - unfold enqueue_post. cbn. destruct disp; try done; intros [? Hs]; (split; [done|by eapply stored_extends]).
  - destruct res; cbn; try by apply (moved_extends ns sha256 ∅). by eapply completed_extends.
  - destruct res; cbn; [|intros [?|?]; [left|right]; by eapply moved_extends]. by eapply recorded_extends.
  - by eapply recorded_extends.
  - intros [? Hm]. split; [done|]. by eapply moved_extends.
  - destruct res; cbn; try by apply (moved_extends ns sha256 ∅). done.
  - by apply (report_recorded_extends ns sha256 ∅).
Qed.

Lemma token_extends w w' t : extends ∅ w w' → token_ok w t → token_ok w' t.
Proof. intros He. destruct t; cbn; [by apply (claim_ok_extends ns sha256)|by apply report_extends]. Qed.

Lemma wp_reporting {E A} w (p : job E A) (f : A → list token) :
  wpj ∅ w p (λ a _ w', Forall (token_ok w') (f a)) → wp ∅ w (reporting p f) (returns token_ok).
Proof.
  intros Hp. unfold reporting. apply wp_bind. eapply wp_mono; [exact Hp|].
  intros [a|e] mine' w' _ Ha; apply wp_ret; intros w2 He2; [|constructor].
  eapply Forall_impl; [exact Ha|]. intros t. apply token_extends. by eapply extends_empty.
Qed.

Lemma wp_reporting_one {E A} w (p : job E A) (f : A → token) (Φ : A → gset bytes → world → Prop) :
  wpj ∅ w p Φ → (∀ a mine' w', Φ a mine' w' → token_ok w' (f a)) →
  wp ∅ w (reporting p (λ a, [f a])) (returns token_ok).
Proof.
  intros Hp Hf. apply wp_reporting. eapply wpj_mono; [exact Hp|].
  intros a mine' w' _ Ha. apply Forall_singleton. by eapply Hf.
Qed.

Lemma wp_returning {E A} w (p : prog E (ClaimedJob * A)) :
  wp ∅ w p (λ '(c, _) _ w', claim_ok ns w' c) →
  wp ∅ w (prog_bind p (λ '(c, _), Ret [T_claim c])) (returns token_ok).
Proof.
  intros Hp. apply wp_bind. eapply wp_mono; [exact Hp|]. intros [c a] mine' w' _ Ha. apply wp_ret. intros w2 He2.
  apply Forall_singleton. eapply token_extends; [by eapply extends_empty|done].
Qed.

Lemma held_in w tokens c : Forall (token_ok w) tokens → T_claim c ∈ tokens → claim_ok ns w c.
Proof. intros Ht Hin. rewrite Forall_forall in Ht. exact (Ht _ Hin). Qed.

Lemma calls_safe {E} w tokens (p : prog E (list token)) :
  valid w → Forall (token_ok w) tokens → calls tokens p → wp ∅ w p (returns token_ok).
Proof.
  intros Hv Ht Hc. destruct Hc as
    [system job now em Hs Hj Hn|system j now cap Hs Hj Hn Hcap|system c o now Hs Hin Ho Hn|system c now Hs Hin
    |system c bs now Hs Hin|system c now Hs Hin|system c now Hs Hin|system j now Hs Hj|system j Hs Hj|system j Hs Hj
    |system j rq Hs Hj Hr|system j rv op Hs Hj|system j now Hs Hj Hn|system j now Hs Hj Hn
    |system handlers c now Hs Hh Hin|system handlers rq now Hs Hh Hl|A p Hq];
    try (pose proof (held_in w tokens c Ht Hin) as Hok; pose proof Hok as [l Hheld]).
  - eapply wp_reporting_one; [by apply (wpj_enqueue ns sha256 Hns Hsha)|done].
  - eapply wp_reporting_one; [by apply (wpj_claim ns sha256 Hns system Hs)|done].
  - eapply wp_reporting_one; [by apply (wpj_apply_outcome ns sha256 Hns Hsha system Hs c l)|done].
  - apply wp_returning. by apply (wp_renew ns sha256 Hns system Hs).
  - apply wp_returning. by apply (wp_checkpoint ns sha256 Hns system Hs).
  - eapply wp_reporting_one; [by apply (wpj_cancel_claim ns sha256 Hns system Hs c l)|].
    intros a mine' w' [-> Ha]. by left.
  - eapply wp_reporting_one; [by apply (wpj_request_cancellation ns sha256 Hns system Hs _ _ c (cj_record c) l)|done].
  - eapply wp_reporting_one; [by apply (wpj_cancel_job ns sha256 Hns system Hs)|done].
  - eapply wp_reporting_one; [by apply (wpj_suspend_job ns sha256 Hns system Hs)|done].
  - eapply wp_reporting_one; [by apply (wpj_resume ns sha256 Hns system Hs)|done].
  - eapply wp_reporting_one; [by apply (wpj_redrive ns sha256 Hns system Hs)|done].
  - eapply wp_reporting_one; [by apply (wpj_repair ns sha256 Hns system Hs)|done].
  - eapply wp_reporting_one; [by apply (wpj_expire_job ns sha256 Hns system Hs)|done].
  - eapply wp_reporting_one; [by apply (wpj_dead_letter_by_id ns sha256 Hns system Hs)|done].
  - apply wp_reporting. eapply wpj_mono; [by apply (wpj_execute_claimed ns sha256 Hns system Hs handlers Hh)|]. constructor.
  - apply wp_reporting. eapply wpj_mono; [apply (wpj_drive ns sha256 Hns Hsha); done || set_solver|].
    intros [report|] mine' w' _ Hr; [|constructor]. apply Forall_singleton. by apply Hr.
  - apply wp_reporting. eapply wpj_mono; [by apply (wpj_quiet ns sha256 _ _ _ (λ _, True)); [| |apply leaves_ok]|].
    intros. constructor.
Qed.

Lemma start_pool_ok {E} : pool_ok (E := E) token_ok (mkConfig start ∅ []).
Proof.
  split; cbn.
  - apply start_valid.
  - intros i t. by rewrite lookup_empty.
  - intros i k t u _. by rewrite lookup_empty.
  - constructor.
Qed.

Lemma pool_reachable {E} (c c' : config (E := E)) :
  pool_ok token_ok c → rtc (pool_step calls) c c' → pool_ok token_ok c'.
Proof.
  apply (pool_safe token_ok calls).
  - intros w w' t. apply token_extends.
  - intros w tokens p. apply calls_safe.
Qed.

Lemma reachable_ok {E} (c : config (E := E)) : reachable c → pool_ok token_ok c.
Proof. apply pool_reachable, start_pool_ok. Qed.

Lemma reachable_valid {E} (c : config (E := E)) : reachable c → valid_world ns sha256 (cf_world c).
Proof. intros Hc. exact (po_valid _ _ (reachable_ok c Hc)). Qed.

Lemma reachable_state {E} (c : config (E := E)) m :
  reachable c → m ∈ states (cf_world c) → state_ok ns sha256 m.
Proof. intros Hc. apply history_in, vw_history. by apply reachable_valid. Qed.
End safety.
End engine.
