(* ===== verification/Scenario.v ===== *)
(** * A run of the engine

    One process on the in-memory store: a job is enqueued, claimed, retried,
    claimed again and completed.  The phases are computed; [act_alive] makes
    each of them a reachable configuration. *)

From S2P Require Import Prelude Errors Ids Clock Policy JobRecord Wire KeyCodec ValueCodec JobCodec.
From S2P Require Import JobRoundtrip OperationCodec Keyspace Store FakeStore Prog Logic System Transition Permits Claim.
From S2P Require Import Completion Enqueue Admin Failure Refs Invariant Update Protocol Steps Moves Held LeaseTx.
From S2P Require Import Completed Outcomes Renewal Claimed Controls Recovery Administered Payload Enqueued Engine.

(** ** Running alone *)

Record phase : Type := mkPhase {
  ph_store : FakeStore;
  ph_entropy : list bytes;
  ph_tokens : list token;
}.

Definition act (p : prog FakeStoreError (list token)) (s : phase) : phase :=
  let '(tokens, store, entropy) := run p (ph_store s) (ph_entropy s) in
  mkPhase store entropy (tokens ++ ph_tokens s).

(** The claim handed out last. *)
Fixpoint latest_claim (tokens : list token) : option ClaimedJob :=
  match tokens with
  | [] => None
  | T_claim c :: _ => Some c
  | T_report _ :: tokens => latest_claim tokens
  end.

Lemma latest_claim_elem tokens c : latest_claim tokens = Some c → T_claim c ∈ tokens.
Proof. induction tokens as [|[c'|rep] tokens IH]; cbn; [done| |]; intros; simplify_eq; set_solver. Qed.

Definition act_claimed (p : ClaimedJob → prog FakeStoreError (list token)) (s : phase) : phase :=
  match latest_claim (ph_tokens s) with Some c => act (p c) s | None => s end.

Section alive.
Context (ns : Namespace) (sha256 : bytes → bytes).

Definition phase_world (s : phase) (past : list StoreMap) (ids : gset bytes) : world :=
  world_of (ph_store s) past ids.
Definition phase_config (s : phase) past ids : config (E := FakeStoreError) (T := token) :=
  mkConfig (phase_world s past ids) ∅ (ph_tokens s).

Record alive (s : phase) past ids : Prop := {
  al_reachable : reachable ns sha256 (phase_config s past ids);
  al_store : sc_inv (ph_store s);
  al_entropy : fresh_entropy (ph_entropy s) ids;
}.

(** [s'] comes after [s], in which only [past] was before. *)
Definition later (s : phase) past ids (s' : phase) : Prop :=
  ∃ past' ids', alive s' past' ids' ∧
    rtc (pool_step (calls ns sha256)) (phase_config s past ids) (phase_config s' past' ids').

Lemma act_alive p s past ids :
  alive s past ids → calls ns sha256 (ph_tokens s) p → later s past ids (act p s).
Proof.
  intros [Hr Hi He] Hc. unfold act. destruct (run p (ph_store s) (ph_entropy s)) as [[rs s'] e'] eqn:Hrun.
  destruct (run_thread p _ _ ∅ past ids _ _ _ Hi He Hrun) as (mine' & past' & ids' & Ht & Hi' & He').
  assert (rtc (pool_step (calls ns sha256)) (phase_config s past ids)
    (phase_config (mkPhase s' e' (rs ++ ph_tokens s)) past' ids')) as Hsteps.
  { eapply rtc_l; [by apply (PS_call _ _ _ _ 0%nat)|].
    eapply (thread_run_pool _ _ _ _ _ _ _ _ _ 0%nat) in Ht; [|by rewrite lookup_insert_eq].
    by rewrite delete_insert_eq, delete_empty in Ht. }
  exists past', ids'. split; [|done]. split; [|done|done]. unfold reachable. by etrans.
Qed.

Lemma act_claimed_alive p s past ids :
  alive s past ids → (∀ c, T_claim c ∈ ph_tokens s → calls ns sha256 (ph_tokens s) (p c)) →
  later s past ids (act_claimed p s).
Proof.
  intros Ha Hc. unfold act_claimed. destruct (latest_claim (ph_tokens s)) as [c|] eqn:Hl.
  - apply act_alive; [done|]. by apply Hc, latest_claim_elem.
  - exists past, ids. split; [done|]. apply rtc_refl.
Qed.

(** The states only grow. *)
Lemma pool_grows {E} (c c' : config (E := E) (T := token)) :
  rtc (pool_step (calls ns sha256)) c c' → states (cf_world c) `suffix_of` states (cf_world c').
Proof.
  induction 1 as [c|c1 c2 c3 Hs _ IH]; [done|]. etrans; [|exact IH]. destruct Hs; cbn; try done.
  by eapply op_grows.
Qed.
End alive.

(** A state that was left is in the past. *)
Lemma left_behind w w' :
  states w `suffix_of` states w' → w_now w' ≠ w_now w → w_now w ∈ w_past w'.
Proof. unfold states. intros [[|now newer] Hst] Hne; injection Hst as Hnow Hst; [done|]. rewrite Hst. set_solver. Qed.

(** ** The scenario *)

Module Scenario.
Definition caps : StoreCapabilities :=
  mkStoreCapabilities Local 4096 4096 64 65536 65536 64 64 65536 (from_secs 5).
Definition registration : HandlerRegistration :=
  mkHandlerRegistration Sample.name 1 Sample.name Idempotent 1 (FP_Scoped 1) (RS_Preset Network) (from_secs 30).
Definition registry : HandlerRegistry := {[ 1 := {[ Sample.name := registration ]} ]}.
Definition system : JobSystem := mkJobSystem caps registry Sample.name (Sample.id16 7) SamplePayload.sha256.
Definition id : JobId := Sample.id16 1.
Definition job : NewJob :=
  mkNewJob id Sample.name 1 [Byte.x01; Byte.x02; Byte.x03; Byte.x04; Byte.x05]
    (FC_Scoped (mkFairnessPath Sample.name None)) (Some Sample.name) Default 0 None None None.

Definition empty : phase := mkPhase (with_capabilities caps) (Sample.id16 <$> seqZ 100 60) [].
Definition enqueued : phase :=
  act (reporting (enqueue_with_match system job 1000 ExactRequest) (λ res, [T_report (R_Enqueued job ExactRequest res)])) empty.
Definition claim_at (now : Timestamp) : phase → phase :=
  act (reporting (claim_with_capacity system id now 4) (λ c, [T_claim c])).
Definition outcome_at (outcome : JobOutcome) (now : Timestamp) : phase → phase :=
  act_claimed (λ c, reporting (apply_outcome system c outcome now) (λ res, [T_report (R_Outcome c res)])).
Definition claimed : phase := claim_at 2000 enqueued.
Definition renewed : phase :=
  act_claimed (λ c, prog_bind (renew system c 15000) (λ '(c', _), Ret [T_claim c'])) claimed.
Definition retried : phase := outcome_at (Retry Transient None (ascii "again")) 3000 claimed.
Definition reclaimed : phase := claim_at 600000 retried.
Definition finished : phase := outcome_at (Complete (ascii "done")) 600500 reclaimed.

Lemma namespace_ok : is_opaque MAX_NAMESPACE_BYTES Sample.name = true.
Proof. reflexivity. Qed.

Lemma digest_len bs : len (SamplePayload.sha256 bs) = 32.
Proof. unfold len, SamplePayload.sha256. rewrite length_take, length_app, length_replicate. lia. Qed.

Lemma system_is_ok : system_ok Sample.name SamplePayload.sha256 system.
Proof.
  split; try reflexivity; [by vm_compute|by vm_compute|]. intros kind version d Hd. unfold HandlerRegistry_get_ref in Hd. cbn in Hd.
  destruct (registry !! version) as [by_kind|] eqn:Hv; [|done]. cbn in Hd.
  unfold registry in Hv. apply lookup_singleton_Some in Hv as [_ <-]. apply lookup_singleton_Some in Hd as [_ <-]. reflexivity.
Qed.

Abbreviation alive := (alive Sample.name SamplePayload.sha256).
Abbreviation later := (later Sample.name SamplePayload.sha256).

Lemma empty_alive : alive empty [] ∅.
Proof.
  split.
  - apply rtc_refl.
  - constructor.
  - split.
    + apply (bool_decide_unpack _). vm_compute. exact I.
    + apply (bool_decide_unpack _). vm_compute. exact I.
Qed.

Lemma claim_alive now s past ids : is_i64 now = true → alive s past ids → later s past ids (claim_at now s).
Proof. intros Hn Ha. apply act_alive; [done|]. by apply call_claim; [apply system_is_ok| | |]. Qed.

Lemma outcome_alive outcome now s past ids :
  is_i64 now = true → outcome_typed outcome → alive s past ids → later s past ids (outcome_at outcome now s).
Proof.
  intros Hn Ho Ha. apply act_claimed_alive; [done|]. intros c Hc. by apply call_apply_outcome; [apply system_is_ok| | |].
Qed.

Lemma enqueued_alive : later empty [] ∅ enqueued.
Proof. apply act_alive; [apply empty_alive|]. by apply call_enqueue; [apply system_is_ok| |]. Qed.

(** The record of the job in a phase. *)
Definition record_in (s : phase) : option JobRecordV1 := record_at Sample.name (sc_entries (ph_store s)) id.
Definition claimed_record : JobRecordV1 := Eval vm_compute in default Sample.record (record_in claimed).
Definition reclaimed_record : JobRecordV1 := Eval vm_compute in default Sample.record (record_in reclaimed).
Definition lease_of (r : JobRecordV1) : Lease := match jr_state r with Leased l => l | _ => Sample.lease end.

Lemma claimed_in : record_in claimed = Some claimed_record ∧ jr_state claimed_record = Leased (lease_of claimed_record).
Proof. vm_compute. split; reflexivity. Qed.

Lemma reclaimed_in :
  record_in reclaimed = Some reclaimed_record ∧ jr_state reclaimed_record = Leased (lease_of reclaimed_record).
Proof. vm_compute. split; reflexivity. Qed.

(** The claim handed out last. *)
Definition no_claim : ClaimedJob :=
  mkClaimedJob Sample.record [] [] None [] [] [] [] [] 0 false false 0 None.
Definition claim_in (s : phase) : ClaimedJob := default no_claim (latest_claim (ph_tokens s)).
Definition first_claim : ClaimedJob := Eval vm_compute in claim_in claimed.
Definition renewed_claim : ClaimedJob := Eval vm_compute in claim_in renewed.

Lemma moved_on : sc_entries (ph_store reclaimed) ≠ sc_entries (ph_store claimed).
Proof.
  intros Heq. assert (sc_entries (ph_store reclaimed) !! JobK Sample.name id
    = sc_entries (ph_store claimed) !! JobK Sample.name id) as Hk by by rewrite Heq.
  revert Heq Hk. clear. intros _. vm_compute. discriminate.
Qed.

(** The first claim is lost when the job was claimed again. *)
Definition first_checks : list Check :=
  Eval vm_compute in match authority_checks (E := unit) system first_claim with Ok checks => checks | Err _ => [] end.

Lemma first_checks_ok : authority_checks (E := FakeStoreError) system first_claim = Ok first_checks.
Proof. vm_compute. reflexivity. Qed.

Lemma first_claim_lost :
  sc_entries (ph_store reclaimed) !! JobK Sample.name (jr_job_id (cj_record first_claim)) ≠ Some (cj_encoded first_claim).
Proof. vm_compute. discriminate. Qed.

(** The report of the completion. *)
Definition details : CompletionDetails :=
  mkCompletionDetails id (jr_execution_id reclaimed_record) (jr_generation reclaimed_record) Sample.name Sample.name
    Idempotent 1000 600500 2 (ascii "done").
Definition second_claim : ClaimedJob := Eval vm_compute in claim_in reclaimed.

Lemma finished_report :
  ph_tokens finished !! 0%nat = Some (T_report (R_Outcome second_claim (OR_Completed details))).
Proof. vm_compute. reflexivity. Qed.

Abbreviation steps := (rtc (pool_step (calls Sample.name SamplePayload.sha256))).

Lemma renewed_alive past ids : alive claimed past ids → later claimed past ids renewed.
Proof. intros Ha. apply act_claimed_alive; [done|]. intros c Hc. by apply call_renew; [apply system_is_ok|]. Qed.

(** Every phase is reachable, one after the other. *)
Lemma phases :
  ∃ p1 i1 p2 i2 p3 i3, alive claimed p1 i1 ∧ alive reclaimed p2 i2 ∧ alive finished p3 i3 ∧
    steps (phase_config claimed p1 i1) (phase_config reclaimed p2 i2) ∧
    steps (phase_config reclaimed p2 i2) (phase_config finished p3 i3).
Proof.
  destruct enqueued_alive as (p0 & i0 & H0 & _).
  destruct (claim_alive 2000 enqueued p0 i0) as (p1 & i1 & H1 & _); [done..|].
  destruct (outcome_alive (Retry Transient None (ascii "again")) 3000 claimed p1 i1) as (pr & ir & Hr & Sr); [done..|].
  destruct (claim_alive 600000 retried pr ir) as (p2 & i2 & H2 & S2); [done..|].
  destruct (outcome_alive (Complete (ascii "done")) 600500 reclaimed p2 i2) as (p3 & i3 & H3 & S3); [done..|].
  exists p1, i1, p2, i2, p3, i3. split_and!; try done. by etrans.
Qed.
End Scenario.
