(* ===== verification/Guarantees.v ===== *)
(** * What the engine guarantees

    The consequences of the invariant for any set of processes, stated on the
    reachable configurations of [Engine]. *)

From S2P Require Import Prelude Errors Ids Clock Policy JobRecord Wire KeyCodec ValueCodec JobCodec.
From S2P Require Import JobRoundtrip OperationCodec Keyspace Store FakeStore Prog Logic System Transition Permits Claim.
From S2P Require Import Completion Enqueue Admin Failure Refs Invariant Update Protocol Steps Moves Held LeaseTx.
From S2P Require Import Completed Outcomes Renewal Claimed Controls Recovery Administered Payload Enqueued Engine Scenario.

(** The job [j] is leased in [m], in the queue [q] and the primary scope [scope]. *)
Definition leased_in (ns : Namespace) (m : StoreMap) (q : QueueName) (scope : bytes) (j : JobId) : Prop :=
  is_fixed_id j = true ∧ ∃ r path l, record_at ns m j = Some r ∧ jr_state r = Leased l ∧ jr_queue r = q ∧
    jr_fairness r = FC_Scoped path ∧ fp_primary path = scope.

Section guarantees.
Context (ns : Namespace) (sha256 : bytes → bytes).
Context (Hns : is_opaque MAX_NAMESPACE_BYTES ns = true) (Hsha : ∀ bs, len (sha256 bs) = 32).
Context {E : Type}.
Implicit Types c : config (E := E) (T := token).
Implicit Types m : StoreMap.
Implicit Types j : JobId.
Implicit Types r : JobRecordV1.
Implicit Types l : Lease.

(** ** Slots *)

(** A key of the slots of two leased jobs makes them one. *)
Lemma slot_key_owner m j1 j2 r1 r2 pv1 pv2 s1 s2 k :
  state_ok ns sha256 m → is_fixed_id j1 = true → is_fixed_id j2 = true →
  record_at ns m j1 = Some r1 → record_at ns m j2 = Some r2 →
  permit_of r1 = Some pv1 → permit_of r2 = Some pv2 →
  holds_slot ns m r1 pv1 s1 → holds_slot ns m r2 pv2 s2 →
  k ∈ slot_keys ns r1 s1 → k ∈ slot_keys ns r2 s2 → j1 = j2.
Proof.
  intros Hs Hj1 Hj2 Hr1 Hr2 Hp1 Hp2 [_ H1] [_ H2] Hk1 Hk2. assert (is_permit ns k) as Hk.
  { destruct (record_at_spec ns sha256 m j1 r1) as (e & Hspec); [by apply so_job|done|].
    eapply slot_keys_permit; [done| |exact Hk1]. by apply permit_record_typed, Hspec. }
  apply H1 in Hk1; [|done]. apply H2 in Hk2; [|done].
  assert (pv2 = pv1) as -> by congruence.
  by destruct (permit_of_job ns sha256 m m j1 j2 r1 r2 pv1) as [? _]; [apply so_job..| | | | |].
Qed.

Definition slot_in m q scope j (s : Z) : Prop :=
  is_fixed_id j = true ∧ ∃ r pv path, record_at ns m j = Some r ∧ permit_of r = Some pv ∧ jr_queue r = q ∧
    jr_fairness r = FC_Scoped path ∧ fp_primary path = scope ∧ holds_slot ns m r pv s.

Lemma leased_slot m q scope j : state_ok ns sha256 m → leased_in ns m q scope j → ∃ s, slot_in m q scope j s.
Proof.
  intros Hs (Hj & r & path & l & Hr & Hl & Hq & Hf & Hp).
  destruct (so_slot _ _ _ Hs j r (permit_layout r l)) as [s Hslot]; [done..|by apply leased_permit|].
  exists s. split; [done|]. exists r, (permit_layout r l), path. split_and!; try done. by apply leased_permit.
Qed.

Lemma slot_in_inj m q scope j1 j2 s :
  state_ok ns sha256 m → slot_in m q scope j1 s → slot_in m q scope j2 s → j1 = j2.
Proof.
  intros Hs (Hj1 & r1 & pv1 & p1 & Hr1 & Hp1 & Hq1 & Hf1 & Hs1 & Hh1) (Hj2 & r2 & pv2 & p2 & Hr2 & Hp2 & Hq2 & Hf2 & Hs2 & Hh2).
  set (k := key_layout ns KT_Permit [ascii "scope"; ascii "primary"; q; scope; u32_bytes s]).
  assert (k ∈ slot_keys ns r1 s) as Hk1.
  { apply elem_of_app. left. unfold scope_permit_keys. rewrite Hf1, Hq1, Hs1. apply list_elem_of_here. }
  assert (k ∈ slot_keys ns r2 s) as Hk2.
  { apply elem_of_app. left. unfold scope_permit_keys. rewrite Hf2, Hq2, Hs2. apply list_elem_of_here. }
  by eapply (slot_key_owner m j1 j2 r1 r2 pv1 pv2 s s k).
Qed.

Lemma slots_of m q scope (jobs : list JobId) :
  state_ok ns sha256 m → Forall (leased_in ns m q scope) jobs → ∃ slots, Forall2 (slot_in m q scope) jobs slots.
Proof.
  intros Hs. induction 1 as [|j jobs Hj _ [slots IH]]; [by exists []|].
  destruct (leased_slot _ _ _ _ Hs Hj) as [s Hslot]. exists (s :: slots). by constructor.
Qed.

Lemma slots_distinct m q scope jobs slots :
  state_ok ns sha256 m → NoDup jobs → Forall2 (slot_in m q scope) jobs slots → NoDup slots.
Proof.
  intros Hs Hn Hf. apply NoDup_alt. intros i k s Hi Hk.
  destruct (Forall2_lookup_r _ _ _ _ _ Hf Hi) as (j1 & Hj1 & H1).
  destruct (Forall2_lookup_r _ _ _ _ _ Hf Hk) as (j2 & Hj2 & H2).
  pose proof (slot_in_inj _ _ _ _ _ _ Hs H1 H2) as <-. by eapply NoDup_lookup.
Qed.

(** C5: concurrency of a fairness scope is bounded.  In every state the store
    ever had, whatever the interleaving, at most [MAX_DURABLE_PERMIT_SLOTS]
    jobs of one queue and one primary scope hold a lease: every lease holds a
    slot of its own. *)
Theorem scope_concurrency_bounded c m q scope (jobs : list JobId) :
  reachable ns sha256 c → m ∈ states (cf_world c) →
  NoDup jobs → Forall (leased_in ns m q scope) jobs →
  len jobs ≤ MAX_DURABLE_PERMIT_SLOTS.
Proof.
  intros Hc Hm Hn Hj. pose proof (reachable_state ns sha256 Hns Hsha c m Hc Hm) as Hs.
  destruct (slots_of _ _ _ _ Hs Hj) as [slots Hf]. pose proof (slots_distinct _ _ _ _ _ Hs Hn Hf) as Hd.
  assert (slots ⊆ seqZ 0 MAX_DURABLE_PERMIT_SLOTS) as Hsub.
  { intros s (i & Hi)%list_elem_of_lookup. destruct (Forall2_lookup_r _ _ _ _ _ Hf Hi) as (j & _ & _ & r & pv & p & ? & ? & ? & ? & ? & Hh & _).
    apply elem_of_seqZ. lia. }
  apply (NoDup_submseteq _ _ Hd) in Hsub. apply submseteq_length in Hsub.
  rewrite length_seqZ in Hsub. apply Forall2_length in Hf. unfold len, MAX_DURABLE_PERMIT_SLOTS in *. lia.
Qed.

(** C4: jobs with one ordering key run one at a time.  In every state the store
    ever had, two leased jobs of one queue with the same ordering key are the
    same job. *)
Theorem ordering_key_exclusive c m j1 j2 r1 r2 l1 l2 (ordering : OrderingKey) :
  reachable ns sha256 c → m ∈ states (cf_world c) → is_fixed_id j1 = true → is_fixed_id j2 = true →
  record_at ns m j1 = Some r1 → record_at ns m j2 = Some r2 → jr_state r1 = Leased l1 → jr_state r2 = Leased l2 →
  jr_queue r1 = jr_queue r2 → jr_ordering_key r1 = Some ordering → jr_ordering_key r2 = Some ordering →
  j1 = j2.
Proof.
  intros Hc Hm Hj1 Hj2 Hr1 Hr2 Hl1 Hl2 Hq Ho1 Ho2. pose proof (reachable_state ns sha256 Hns Hsha c m Hc Hm) as Hs.
  destruct (so_slot _ _ _ Hs j1 r1 _ Hj1 Hr1 (leased_permit _ _ Hl1)) as [s1 H1].
  destruct (so_slot _ _ _ Hs j2 r2 _ Hj2 Hr2 (leased_permit _ _ Hl2)) as [s2 H2].
  set (k := key_layout ns KT_Permit [ascii "ordering"; jr_queue r1; ordering; u32_bytes 0]).
  assert (k ∈ slot_keys ns r1 s1) as Hk1.
  { apply elem_of_app. right. unfold ordering_permit_keys. rewrite Ho1. apply list_elem_of_here. }
  assert (k ∈ slot_keys ns r2 s2) as Hk2.
  { apply elem_of_app. right. unfold ordering_permit_keys. rewrite Ho2, <- Hq. apply list_elem_of_here. }
  by eapply (slot_key_owner m j1 j2 r1 r2); try apply leased_permit.
Qed.

(** ** Fences *)

Lemma claim_token c claim :
  reachable ns sha256 c → T_claim claim ∈ cf_tokens c → claim_ok ns (cf_world c) claim.
Proof. intros Hc. eapply held_in, po_tokens. by apply (reachable_ok ns sha256). Qed.


(** ** Claims *)

(** A record value that is there again never left. *)
Lemma value_kept w w' m0 j e :
  valid_world ns sha256 w' → states w `suffix_of` states w' → is_fixed_id j = true → m0 ∈ states w →
  m0 !! JobK ns j = Some e → w_now w' !! JobK ns j = Some e → w_now w !! JobK ns j = Some e.
Proof.
  intros Hv [newer Hst] Hj Hm He0 He. apply elem_of_cons in Hm as [->|Hm]; [done|].
  apply list_elem_of_split in Hm as (l2 & l3 & Hpast). pose proof (vw_history _ _ _ Hv) as Hh. unfold states in *.
  destruct newer as [|now l1]; [by injection Hst as <- _|]. injection Hst as <- Hst.
  rewrite Hst, Hpast in Hh. by eapply history_between.
Qed.

(** C3: a claim that lost its record never gets it back.  Once the store holds
    another record than the one the claim was made for, in no later state, of
    any process and with any further use of the claim, do the checks of the
    lease-gated transactions of the claim hold: a stale worker cannot commit. *)
Theorem lost_claim_stays_lost c c' system claim checks :
  reachable ns sha256 c → T_claim claim ∈ cf_tokens c → system_ok ns sha256 system →
  w_now (cf_world c) !! JobK ns (jr_job_id (cj_record claim)) ≠ Some (cj_encoded claim) →
  rtc (pool_step (calls ns sha256)) c c' →
  authority_checks (E := E) system claim = Ok checks → checks_match (w_now (cf_world c')) checks = false.
Proof.
  intros Hc Hin Hsys Hlost Hsteps Hch. destruct (claim_token c claim Hc Hin) as [l Hheld].
  destruct (authority_checks_Ok ns sha256 Hns system Hsys (cf_world c) claim _ _ checks Hheld Hch) as (ov & _ & ->).
  apply not_true_is_false. intros Hm. apply Hlost. destruct (ch_written _ _ _ _ _ Hheld) as (m0 & Hm0 & He0 & _).
  assert (reachable ns sha256 c') as Hc' by (unfold reachable in *; by etrans).
  apply (value_kept _ (cf_world c') m0); try done.
  - by apply reachable_valid.
  - by eapply pool_grows.
  - by eapply rn_job, typed_names, claim_held_typed.
  - eapply check_value; [exact Hm|]. apply list_elem_of_here.
Qed.

Lemma claim_record w claim r l :
  claim_held ns w claim r l → ∃ m, m ∈ states w ∧ record_at ns m (jr_job_id r) = Some r.
Proof.
  intros [Hd _ (m & Hm & He & _) _ _ _ _ _ _ _ _]. exists m. split; [done|]. by eapply record_at_decode.
Qed.


(** C9: a claim whose record is still the stored one holds its lease: the
    operation entry carries the fence of the claim, the lease is indexed, and
    the permits of the lease are exactly the keys the claim carries. *)
Theorem claim_holds_lease c claim :
  reachable ns sha256 c → T_claim claim ∈ cf_tokens c →
  let m := w_now (cf_world c) in
  let r := cj_record claim in
  m !! JobK ns (jr_job_id r) = Some (cj_encoded claim) →
  ∃ l, jr_state r = Leased l ∧
    m !! LeaseK ns (jr_queue r) (jr_job_id r) = Some (marker_layout VT_Lease (jr_job_id r)) ∧
    (∃ op id, m !! OpK ns (jr_job_id r) = Some op ∧
       decode_active_operation op (jr_job_id r) = Ok (id, cj_fence_high_water claim)) ∧
    ∀ k, is_permit ns k → m !! k = Some (permit_layout r l) ↔ k ∈ cj_permit_keys claim.
Proof.
  intros Hc Hin m r. subst m r. intros Hnow. destruct (claim_token c claim Hc Hin) as [l Hh]. exists l.
  pose proof (reachable_valid ns sha256 Hns Hsha c Hc) as Hv.
  pose proof (claim_now ns sha256 _ _ _ _ Hv Hh Hnow) as [Hr Hl Hp].
  assert (record_names (cj_record claim)) as [Hj Hq _ _ _ _ _] by by eapply typed_names, claim_held_typed.
  pose proof (now_job_inv ns sha256 _ Hv _ Hj) as Hi. split_and!; try done.
  - rewrite (ji_index _ _ _ _ Hi) by by apply is_index_LeaseK. rewrite Hr. unfold index_at.
    cbn [mbind option_bind]. unfold index_entries. rewrite Hl. apply lookup_insert_eq.
  - pose proof (ji_op _ _ _ _ Hi) as Hop. rewrite Hr in Hop. cbn in Hop. rewrite Hl in Hop.
    rewrite (ch_fence _ _ _ _ _ Hh). naive_solver.
Qed.

(** ** What was reported *)


(** ** Records and their indexes *)

(** C6: the indexes are exact.  In every state the store ever had, the due,
    fair-ready, lease and dead-letter entries of a job are those of the state
    of its record, and there are none without a record. *)
Theorem indexes_exact c m j k :
  reachable ns sha256 c → m ∈ states (cf_world c) → is_fixed_id j = true → is_index ns j k →
  m !! k = index_at ns (record_at ns m j) k.
Proof.
  intros Hc Hm Hj Hk. by apply (ji_index _ sha256), Hk; apply so_job; [by apply (reachable_state ns sha256 Hns Hsha c)|].
Qed.

(** C7: payloads stay intact.  In every state the store ever had, the chunks of
    a stored job reassemble to a payload with the length and the digest of its
    manifest, and a job has no other chunks. *)
Theorem payloads_intact c m j :
  reachable ns sha256 c → m ∈ states (cf_world c) → is_fixed_id j = true →
  (∀ r, record_at ns m j = Some r → ∃ p, decode_payload (E := unit) sha256 r (chunk_values m r) = Ok p) ∧
  ∀ k, is_chunk ns j k → is_Some (m !! k) ↔ ∃ r, record_at ns m j = Some r ∧ k ∈ pm_chunk_keys (jr_payload r).
Proof.
  intros Hc Hm Hj. pose proof (so_job _ _ _ (reachable_state ns sha256 Hns Hsha c m Hc Hm) j Hj) as [].
  split; [done|done].
Qed.

(** C8: a cancellation request is pending only for a leased job, and the
    operation entry of a job follows its record: a receipt only when the record
    is gone, the fence of the lease while it is leased. *)
Theorem operations_follow_records c m j :
  reachable ns sha256 c → m ∈ states (cf_world c) → is_fixed_id j = true →
  op_inv j (jr_state <$> record_at ns m j) (m !! OpK ns j) ∧
  (is_Some (m !! CancelK ns j) → ∃ r l, record_at ns m j = Some r ∧ jr_state r = Leased l).
Proof.
  intros Hc Hm Hj. pose proof (so_job _ _ _ (reachable_state ns sha256 Hns Hsha c m Hc Hm) j Hj) as [].
  split; [done|]. intros [v Hv]. destruct (ji_cancel v Hv) as (_ & ?). done.
Qed.
End guarantees.

(** ** Witnesses *)

Abbreviation name := Sample.name.
Abbreviation sha := SamplePayload.sha256.

Lemma scope_concurrency_bounded_witness :
  ∃ past ids, reachable name sha (phase_config Scenario.claimed past ids) ∧
    len [Scenario.id] ≤ MAX_DURABLE_PERMIT_SLOTS.
Proof.
  destruct Scenario.phases as (p1 & i1 & p2 & i2 & p3 & i3 & [H1 _ _] & _). exists p1, i1. split; [exact H1|].
  apply (scope_concurrency_bounded name sha Scenario.namespace_ok Scenario.digest_len (phase_config Scenario.claimed p1 i1)
    (sc_entries (ph_store Scenario.claimed)) name name); [exact H1|left|apply NoDup_singleton|].
  apply Forall_singleton. split; [reflexivity|]. destruct Scenario.claimed_in as [Hr Hl].
  exists Scenario.claimed_record, (mkFairnessPath name None), (Scenario.lease_of Scenario.claimed_record).
  split_and!; [exact Hr|exact Hl|reflexivity..].
Defined.

Lemma ordering_key_exclusive_witness :
  ∃ past ids, reachable name sha (phase_config Scenario.claimed past ids) ∧ jr_job_id Scenario.claimed_record = Scenario.id.
Proof.
  destruct Scenario.phases as (p1 & i1 & p2 & i2 & p3 & i3 & [H1 _ _] & _). exists p1, i1. split; [exact H1|].
  destruct Scenario.claimed_in as [Hr Hl].
  apply (ordering_key_exclusive name sha Scenario.namespace_ok Scenario.digest_len (phase_config Scenario.claimed p1 i1)
    (sc_entries (ph_store Scenario.claimed)) _ _ Scenario.claimed_record Scenario.claimed_record
    (Scenario.lease_of Scenario.claimed_record) (Scenario.lease_of Scenario.claimed_record) name);
    [exact H1|left|reflexivity|reflexivity|exact Hr|exact Hr|exact Hl|exact Hl|reflexivity..].
Defined.


Lemma first_claim_held s n :
  ph_tokens s !! n = Some (T_claim Scenario.first_claim) → T_claim Scenario.first_claim ∈ ph_tokens s.
Proof. apply list_elem_of_lookup_2. Qed.

Lemma lost_claim_stays_lost_witness :
  checks_match (sc_entries (ph_store Scenario.finished)) Scenario.first_checks = false.
Proof.
  destruct Scenario.phases as (p1 & i1 & p2 & i2 & p3 & i3 & _ & [H2 _ _] & _ & _ & S23).
  apply (lost_claim_stays_lost name sha Scenario.namespace_ok Scenario.digest_len (phase_config Scenario.reclaimed p2 i2)
    (phase_config Scenario.finished p3 i3) Scenario.system Scenario.first_claim Scenario.first_checks);
    [exact H2| |exact Scenario.system_is_ok|exact Scenario.first_claim_lost|exact S23|exact Scenario.first_checks_ok].
  apply (first_claim_held Scenario.reclaimed 2). vm_compute. reflexivity.
Defined.


Lemma claim_holds_lease_witness :
  ∃ l, jr_state (cj_record Scenario.first_claim) = Leased l ∧
    ∃ past ids, ∀ k, is_permit name k →
      w_now (phase_world Scenario.claimed past ids) !! k = Some (permit_layout (cj_record Scenario.first_claim) l)
      ↔ k ∈ cj_permit_keys Scenario.first_claim.
Proof.
  destruct Scenario.phases as (p1 & i1 & p2 & i2 & p3 & i3 & [H1 _ _] & _).
  destruct (claim_holds_lease name sha Scenario.namespace_ok Scenario.digest_len (phase_config Scenario.claimed p1 i1)
    Scenario.first_claim H1) as (l & Hl & _ & _ & Hk).
  - apply (first_claim_held Scenario.claimed 0). vm_compute. reflexivity.
  - vm_compute. reflexivity.
  - exists l. split; [exact Hl|]. exists p1, i1. exact Hk.
Defined.


Lemma indexes_exact_witness :
  sc_entries (ph_store Scenario.claimed) !! LeaseK name name Scenario.id
  = index_at name (Some Scenario.claimed_record) (LeaseK name name Scenario.id).
Proof.
  destruct Scenario.phases as (p1 & i1 & p2 & i2 & p3 & i3 & [H1 _ _] & _).
  destruct Scenario.claimed_in as [Hr _]. rewrite <- Hr.
  apply (indexes_exact name sha Scenario.namespace_ok Scenario.digest_len (phase_config Scenario.claimed p1 i1));
    [exact H1|left|reflexivity|]. split; vm_compute; [reflexivity|exact I].
Defined.

Lemma payloads_intact_witness :
  ∃ p, decode_payload (E := unit) sha Scenario.claimed_record
         (chunk_values (sc_entries (ph_store Scenario.claimed)) Scenario.claimed_record) = Ok p.
Proof.
  destruct Scenario.phases as (p1 & i1 & p2 & i2 & p3 & i3 & [H1 _ _] & _).
  destruct (payloads_intact name sha Scenario.namespace_ok Scenario.digest_len (phase_config Scenario.claimed p1 i1)
    (sc_entries (ph_store Scenario.claimed)) Scenario.id H1) as [Hp _]; [left|reflexivity|].
  apply Hp. exact (proj1 Scenario.claimed_in).
Defined.

Lemma operations_follow_records_witness :
  op_inv Scenario.id (jr_state <$> Scenario.record_in Scenario.finished)
    (sc_entries (ph_store Scenario.finished) !! OpK name Scenario.id).
Proof.
  destruct Scenario.phases as (p1 & i1 & p2 & i2 & p3 & i3 & _ & _ & [H3 _ _] & _).
  destruct (operations_follow_records name sha Scenario.namespace_ok Scenario.digest_len
    (phase_config Scenario.finished p3 i3) (sc_entries (ph_store Scenario.finished)) Scenario.id H3) as [Hop _];
    [left|reflexivity|]. exact Hop.
Defined.
