(* ===== verification/Pulse.v ===== *)
(** * Active pulses

    [crates/bg-jobs/src/active_pulse/request.rs]: a burst of drives that goes
    on while the last one reports work that is visible now. *)

From S2P Require Import Prelude Errors Clock Prog Protocol Budgets.

Record ActivePulseRequest : Type := mkActivePulseRequest {
  ap_max_pulses : Z;
  ap_stop_by : MonotonicDeadline;
}.

Inductive ActivePulseStopReason : Type := AP_NoImmediateWork | AP_MaxPulses | AP_Deadline.

Record ActivePulseReport : Type := mkActivePulseReport {
  ap_drives : list DriveReport;
  ap_stop_reason : ActivePulseStopReason;
}.

Definition continue_pulse (report : DriveReport) : bool :=
  WakeHint_is_now (dr_next_wake report) && dr_has_immediately_visible_work report.
Definition is_deadline (report : DriveReport) : bool := bool_decide (dr_stop_reason report = Deadline).

Section pulse.
(** The caller's [drive] fails with an error of its own. *)
Context {E F : Type} (request : ActivePulseRequest) (drive : prog E (result F DriveReport)).

(** The loop of [ActivePulseRequest::drive]; every round drives once, so
    [pulses] is the number of pulses that are left. *)
Fixpoint pulse_loop (pulses : nat) (reports : list DriveReport) : prog E (result F ActivePulseReport) :=
  match pulses with
  | O => Ret (Ok (mkActivePulseReport reports AP_MaxPulses))
  | S pulses =>
      Vis (OAmbient AMonotonicNow) (λ now,
        if ap_stop_by request <=? now then Ret (Ok (mkActivePulseReport reports AP_Deadline))
        else prog_bind drive (λ driven,
          match driven with
          | Err e => Ret (Err e)
          | Ok report =>
              let reports := reports ++ [report] in
              if is_deadline report then Ret (Ok (mkActivePulseReport reports AP_Deadline))
              else if continue_pulse report then pulse_loop pulses reports
              else Ret (Ok (mkActivePulseReport reports AP_NoImmediateWork))
          end))
  end.

Definition ActivePulseRequest_drive : prog E (result F ActivePulseReport) :=
  pulse_loop (Z.to_nat (ap_max_pulses request)) [].

(** A report after which a pulse goes on. *)
Definition goes_on (report : DriveReport) : Prop := continue_pulse report = true ∧ is_deadline report = false.

(** What a pulse that drove [n] times at most may return. *)
Definition pulse_ok (n : Z) (r : ActivePulseReport) : Prop :=
  len (ap_drives r) ≤ n ∧
  match ap_stop_reason r with
  | AP_MaxPulses => len (ap_drives r) = n ∧ Forall goes_on (ap_drives r)
  | AP_NoImmediateWork =>
      ∃ before last, ap_drives r = before ++ [last] ∧ Forall goes_on before ∧ continue_pulse last = false
  | AP_Deadline =>
      Forall goes_on (ap_drives r) ∨
      ∃ before last, ap_drives r = before ++ [last] ∧ Forall goes_on before ∧ dr_stop_reason last = Deadline
  end.

Lemma leaves_pulse_loop pulses reports :
  Forall goes_on reports →
  leaves (λ r, ∀ report, r = Ok report → pulse_ok (len reports + Z.of_nat pulses) report) (pulse_loop pulses reports).
Proof.
  revert reports. induction pulses as [|pulses IH]; intros reports Hr; cbn [pulse_loop].
  { intros report [= <-]. unfold pulse_ok. cbn. split; [lia|]. split; [lia|done]. }
  intros now. destruct (_ <=? now). { intros report [= <-]. unfold pulse_ok. cbn. split; [lia|by left]. }
  eapply leaves_bind; [apply leaves_true|]. intros [report|e] _; [|done]. cbn zeta.
  assert (len (reports ++ [report]) = len reports + 1) as Hlen by (unfold len; rewrite length_app; cbn; lia).
  destruct (is_deadline report) eqn:Hd.
  { intros ? [= <-]. unfold pulse_ok. cbn. split; [lia|]. right. exists reports, report. split_and!; try done.
    by apply bool_decide_eq_true in Hd. }
  destruct (continue_pulse report) eqn:Hc.
  - specialize (IH (reports ++ [report])). rewrite Hlen in IH. replace (len reports + Z.of_nat (S pulses)) with (len reports + 1 + Z.of_nat pulses) by lia.
    apply IH. apply Forall_app. split; [done|by apply Forall_singleton].
  - intros ? [= <-]. unfold pulse_ok. cbn. split; [lia|]. by exists reports, report.
Qed.

(** A pulse drives at most [max_pulses] times, goes on only while work is
    visible, and says why it stopped. *)
Theorem active_pulse_bounded :
  0 ≤ ap_max_pulses request →
  leaves (λ r, ∀ report, r = Ok report → pulse_ok (ap_max_pulses request) report) ActivePulseRequest_drive.
Proof.
  intros Hn. pose proof (leaves_pulse_loop (Z.to_nat (ap_max_pulses request)) [] ltac:(constructor)) as Hp.
  rewrite Z2Nat.id in Hp by done. exact Hp.
Qed.
End pulse.
