(* ===== verification/Driven.v ===== *)
(** * Bounded drives

    What a drive promises its caller, whatever the store answers, whenever the
    system shuts down and in whatever order the futures in flight make
    progress: it ends, it stays within its request, and the completions it
    reports are durable.  Drives of the scenario's store follow, among them
    two that do less, or more, than the request says. *)

From S2P Require Import Prelude Errors Ids Clock Policy JobRecord Wire KeyCodec ValueCodec JobCodec.
From S2P Require Import JobRoundtrip OperationCodec Keyspace Store FakeStore Prog Logic System Transition Permits Claim.
From S2P Require Import Completion Enqueue Admin Failure Refs Invariant Update Protocol Steps Moves Held LeaseTx.
From S2P Require Import Completed Outcomes Renewal Claimed Controls Recovery Administered Payload Enqueued.
From S2P Require Import Fairness FairLedger FairOwner Budgets Discovery Candidate DriveOwner Scheduler.
From S2P Require Import CandidateSafe DiscoverySafe DiscoveryComplete SchedulerSafe DriveBounds Engine Scenario Pulse.

#[local] Opaque process_candidate.

(** ** Requests *)

Lemma request_details input request :
  DriveRequest_try_from input = Ok request →
  request = input ∧ dq_max_completion_details request ≤ dq_max_claims request.
Proof. unfold DriveRequest_try_from. repeat case_match; try done. intros [= <-]. split; [done|lia]. Qed.

Section driven.
Context {E : Type} (system : JobSystem) (handlers : JobKind → Z → JobHandler).

(** C11: a drive ends.  Whatever the store answers, whenever the system shuts
    down, and in whatever order the candidates in flight make progress, the
    loop of a drive for a valid request reaches its end: the drive returns a
    report or an error. *)
Theorem drive_terminates input request now :
  is_request_input input = true → DriveRequest_try_from input = Ok request →
  leaves (λ r, match r with Ok driven => ∃ report, driven = Some report | Err _ => True end)
    (drive (E := E) system handlers request now).
Proof.
  intros Hi Hr. destruct (request_details _ _ Hr) as [-> Hd].
  eapply leaves_mono; [|by apply leaves_drive]. intros [[report|]|e] [Hn _]; [by exists report|done|done].
Qed.

(** C12: a drive stays within its request.  Its report never counts more
    claims than the request allows, every claim it counts has exactly one
    outcome, and every success is either detailed or counted as omitted, with
    no more details than the request asks for. *)
Theorem drive_within_request input request now :
  is_request_input input = true → DriveRequest_try_from input = Ok request →
  outcomes (λ driven, ∀ report, driven = Some report → report_bounded request report)
    (drive (E := E) system handlers request now).
Proof.
  intros Hi Hr. destruct (request_details _ _ Hr) as [-> Hd].
  eapply leaves_mono; [|by apply leaves_drive]. intros [[report|]|e] [_ Hb]; [|done|done].
  intros ? [= <-]. by apply Hb.
Qed.
End driven.

(** ** Rounds of the loop *)

(** [a] is a possible result of the program. *)
Inductive may_return {E A} (a : A) : prog E A → Prop :=
  | MR_ret : may_return a (Ret a)
  | MR_vis X (o : op E X) k x : may_return a (k x) → may_return a (Vis o k).

Lemma leaves_may_return {E A} (P : A → Prop) (p : prog E A) a : leaves P p → may_return a p → P a.
Proof. intros Hp. induction 1 as [|X o k x _ IH]; [done|]. apply IH, Hp. Qed.

Lemma run_may_return {S E A} `{!JobStore S E} (p : prog E A) (s : S) entropy : may_return (run p s entropy).1.1 p.
Proof.
  revert s entropy. induction p as [a|X o k IH]; intros s entropy; cbn; [constructor|].
  destruct (run_op o s entropy) as [[x s'] entropy']. econstructor. apply IH.
Qed.

Section rounds.
Context {E : Type} (system : JobSystem) (handlers : JobKind → Z → JobHandler) (request : DriveRequest) (clock : DriveClock).

(** The states between the rounds of a drive's loop, from the one it starts in
    with what it discovers and the owner it prepares. *)
Inductive looping : SchedulerLoop E → Prop :=
  | looping_start now discovery operations owner candidates operations' :
      may_return (Ok clock) (DriveClock_new (E := E) now) →
      may_return (Ok (discovery, operations))
        (discover (E := E) system request clock now (dq_max_store_operations request)) →
      may_return (Ok (Some (owner, candidates), operations')) (prepare_owner (E := E) system request discovery operations) →
      looping (SchedulerLoop_new owner candidates operations' (SchedulerSetup_new discovery))
  | looping_round s s' error :
      looping s → may_return (Ok (RD_continue, error), s') (loop_round system handlers request clock s) → looping s'.

(** C13: lanes and payload in flight.  Between any two rounds of a drive's
    loop, and after a round started its candidates, no more candidates are in
    flight than the request has lanes; the payload in flight is the sum of
    theirs and, once two are in flight, within the request; and the claims
    already counted and those in flight together never exceed the request. *)
Theorem drive_in_flight_bounded s :
  is_request_input request = true → dq_max_completion_details request ≤ dq_max_claims request →
  looping s →
  loop_bounded request s ∧
  ends (advance_candidates system handlers request clock) s (λ _ s', loop_bounded request s').
Proof.
  intros Hr Hd Hs. enough (loop_bounded request s) as Hb.
  { split; [done|]. eapply ends_mono; [by apply ends_advance|]. by intros r s' [? _]. }
  induction Hs as [now discovery operations owner candidates operations' _ Hdisc Hprep|s s' error _ IH Hround].
  - eapply leaves_may_return in Hdisc; [|apply discover_decoded].
    eapply leaves_may_return in Hprep; [|by apply prepare_owner_typed]. apply loop_start_bounded; [done|]. by eapply Hprep.
  - eapply (leaves_may_return (λ x, _ x.1 x.2)) in Hround; [|by apply ends_round]. apply Hround.
Qed.
End rounds.

(** ** A round, computed *)

Definition returned {A} (p : prog FakeStoreError A) (s : phase) : A * phase :=
  let '(a, store, entropy) := run p (ph_store s) (ph_entropy s) in (a, mkPhase store entropy (ph_tokens s)).

Lemma returned_may_return {A} (p : prog FakeStoreError A) s a s' : returned p s = (a, s') → may_return a p.
Proof.
  unfold returned. pose proof (run_may_return p (ph_store s) (ph_entropy s)) as Hr.
  destruct (run p (ph_store s) (ph_entropy s)) as [[a' store] entropy]. by intros [= -> _].
Qed.

Section one_round.
Context (system : JobSystem) (handlers : JobKind → Z → JobHandler) (request : DriveRequest) (now : Timestamp) (s0 : phase).

Definition clock_at : DriveClock := mkDriveClock 0 now.
(** The loop of a drive when it starts, and after its first round. *)
Definition loop_started : option (SchedulerLoop FakeStoreError * phase) :=
  match returned (discover system request clock_at now (dq_max_store_operations request)) s0 with
  | (Ok (discovery, operations), s) =>
      match returned (prepare_owner system request discovery operations) s with
      | (Ok (Some (owner, candidates), operations), s) =>
          Some (SchedulerLoop_new owner candidates operations (SchedulerSetup_new discovery), s)
      | _ => None
      end
  | _ => None
  end.
Definition loop_rounded : option (SchedulerLoop FakeStoreError) :=
  match loop_started with
  | Some (l, s) =>
      match (returned (loop_round system handlers request clock_at l) s).1 with
      | (Ok (RD_continue, _), l) => Some l
      | _ => None
      end
  | None => None
  end.

Lemma loop_started_looping l s : loop_started = Some (l, s) → looping system handlers request clock_at l.
Proof.
  unfold loop_started. destruct (returned (discover _ _ _ _ _) _) as [[[discovery operations]|] s1] eqn:Hd; [|done].
  destruct (returned (prepare_owner _ _ _ _) _) as [[[[[owner candidates]|] operations']|] s2] eqn:Hp; [|done..].
  intros [= <- <-]. eapply (looping_start _ _ _ _ now).
  - apply (MR_vis _ _ _ _ 0). constructor.
  - by eapply returned_may_return.
  - by eapply returned_may_return.
Qed.

Lemma loop_rounded_looping l : loop_rounded = Some l → looping system handlers request clock_at l.
Proof.
  unfold loop_rounded. destruct loop_started as [[l0 s]|] eqn:Hs; [|done].
  destruct (returned (loop_round _ _ _ _ _) _) as [[[[[] error]|] l'] s'] eqn:Hr; [done| |done]. intros [= <-].
  eapply looping_round; [by eapply loop_started_looping|by eapply returned_may_return].
Qed.
End one_round.

(** ** Drives of the scenario *)

Module DriveScenario.
Import Scenario.

(** A handler that completes its job after [n] checkpoints. *)
Fixpoint checkpoints (n : nat) : handler_run :=
  match n with
  | O => HR_finish (Ok (Complete (ascii "done")))
  | S n => HR_checkpoint (ascii "half") (λ _, checkpoints n)
  end.
Definition handlers (n : nat) : JobKind → Z → JobHandler := λ _ _,
  mkJobHandler RegisteredTimeout (λ _ _, Some (HR_finish (Ok (Complete (ascii "done")))))
    (λ _, Some (checkpoints n)).

Definition request (claims operations : Z) : DriveRequest :=
  mkDriveRequest QS_All claims 1 1024 claims operations 1000000000 2000000000.
Definition drive_at (claims : Z) (now : Timestamp) : phase → phase :=
  act (reporting (drive system (handlers 1) (request claims 200) now)
    (λ driven, match driven with Some report => [T_report (R_Driven report)] | None => [] end)).
Definition driven : phase := drive_at 4 2000 enqueued.

(** The report of the last drive. *)
Fixpoint last_report (tokens : list token) : option DriveReport :=
  match tokens with
  | [] => None
  | T_report (R_Driven report) :: _ => Some report
  | _ :: tokens => last_report tokens
  end.

Lemma checkpoints_typed n : handler_typed (checkpoints n).
Proof. induction n as [|n IH]; [reflexivity|]. intros b. exact IH. Qed.

Lemma handlers_are_typed n : handlers_typed (handlers n).
Proof.
  split.
  - intros kind version context payload h [= <-]. done.
  - intros kind version payload h [= <-]. apply checkpoints_typed.
Qed.

Lemma driven_alive : later empty [] ∅ driven.
Proof.
  destruct enqueued_alive as (past & ids & Ha & Hs).
  destruct (act_alive Sample.name SamplePayload.sha256
    (reporting (drive system (handlers 1) (request 4 200) 2000)
      (λ driven, match driven with Some report => [T_report (R_Driven report)] | None => [] end)) enqueued past ids)
    as (past' & ids' & Ha' & Hs'); [done| |].
  - by apply call_drive; [apply system_is_ok|apply handlers_are_typed|].
  - exists past', ids'. split; [exact Ha'|]. etrans; [exact Hs|exact Hs'].
Qed.

Definition rounded : option (SchedulerLoop FakeStoreError) := loop_rounded system (handlers 1) (request 4 200) 2000 enqueued.

Lemma rounded_in :
  from_option (λ l, (dc_claimed (dr_counts (sl_report l)), cb_reserved_claims (sl_completion l))) (0, 0) rounded = (0, 1).
Proof. vm_compute. reflexivity. Qed.

(** *** An ordered successor that is never served *)

Definition ordered (i : Z) (ordering : option OrderingKey) : NewJob :=
  mkNewJob (Sample.id16 i) Sample.name 1 [Byte.x01] (FC_Scoped (mkFairnessPath Sample.name None)) ordering Default i None
    None None.
Definition enqueue_one (i : Z) (ordering : option OrderingKey) : phase → phase :=
  act (reporting (enqueue_with_match system (ordered i ordering) 0 ExactRequest)
    (λ res, [T_report (R_Enqueued (ordered i ordering) ExactRequest res)])).
Definition cancel_one (i : Z) (now : Timestamp) : phase → phase :=
  act (reporting (cancel_job system (Sample.id16 i) now) (λ res, [T_report (R_Cancel (Sample.id16 i) res)])).

(** Three jobs of one scope, the last two of one ordering key; a drive that
    claims the first registers the other two with the owner. *)
Definition registered (ordering : option OrderingKey) : phase :=
  drive_at 1 2000 (enqueue_one 3 ordering (enqueue_one 2 ordering (enqueue_one 1 None empty))).

Definition summary (s : phase) : option (Z * bool * DriveStopReason) :=
  (λ r, (dc_claimed (dr_counts r), dr_has_immediately_visible_work r, dr_stop_reason r)) <$> last_report (ph_tokens s).
Definition state_of (i : Z) (s : phase) : option JobState :=
  jr_state <$> record_at Sample.name (sc_entries (ph_store s)) (Sample.id16 i).

(** The first of the two is cancelled before it is claimed: its candidate is
    removed without moving the head of the key on, so the second never is the
    head.  Every later drive claims nothing and reports work that is visible
    now. *)
Theorem ordered_successor_stuck :
  let s := cancel_one 2 3000 (registered (Some (ascii "k"))) in
  let s1 := drive_at 4 4000 s in
  let s2 := drive_at 4 900000 s1 in
  state_of 3 s2 = Some Scheduled ∧
  summary s1 = Some (0, true, Capacity) ∧ summary s2 = Some (0, true, Capacity).
Proof. vm_compute. done. Qed.

(** A pulse of such drives uses up all its drives for nothing. *)
Theorem stuck_pulse_spins :
  let s := cancel_one 2 3000 (registered (Some (ascii "k"))) in
  let pulse := ActivePulseRequest_drive (mkActivePulseRequest 5 1000000000)
    (prog_bind (drive system (handlers 1) (request 4 200) 4000) (λ driven, Ret (driven ≫= ok_or JSE_PayloadCorrupt))) in
  (λ r, (ap_stop_reason r, dc_claimed ∘ dr_counts <$> ap_drives r)) <$>
    match (run pulse (ph_store s) (ph_entropy s)).1.1 with Ok r => Some r | Err _ => None end
  = Some (AP_MaxPulses, [0; 0; 0; 0; 0]).
Proof. vm_compute. reflexivity. Qed.

(** Without the cancellation, or without an ordering key, it is served. *)
Theorem ordered_successor_served :
  state_of 3 (drive_at 4 4000 (registered (Some (ascii "k")))) = None ∧
  state_of 3 (drive_at 4 4000 (cancel_one 2 3000 (registered None))) = None.
Proof. vm_compute. done. Qed.

(** *** Operations a drive does not reserve *)

Definition is_store_operation {E X} (o : op E X) : bool :=
  match o with OGet _ | OGetMany _ | OReadRange _ | OCommit _ => true | _ => false end.

(** The result of a program run alone, with the store operations it did. *)
Fixpoint operations_of {A} (p : prog FakeStoreError A) (s : FakeStore) (entropy : list bytes) : A * Z :=
  match p with
  | Ret a => (a, 0)
  | Vis o k =>
      let '(x, s, entropy) := run_op o s entropy in
      let '(a, n) := operations_of (k x) s entropy in
      (a, (if is_store_operation o then 1 else 0) + n)
  end.

(** A drive that may use 29 store operations uses 33, when the handler of its
    job writes 20 checkpoints. *)
Theorem checkpoints_exceed_allowance :
  ∃ report, operations_of (drive system (handlers 20) (request 1 29) 2000) (ph_store enqueued) (ph_entropy enqueued)
            = (Ok (Some report), 33) ∧
    dc_succeeded (dr_counts report) = 1 ∧ dq_max_store_operations (request 1 29) = 29.
Proof. eexists. split; [vm_compute; reflexivity|]. done. Qed.

(** *** What the discoveries of the scenario have to find *)

Lemma enqueued_waits :
  waits Sample.name Sample.name 0 id (sc_entries (ph_store enqueued)).
Proof.
  unfold waits. fold (record_in enqueued). destruct (record_in enqueued) as [r|] eqn:Hr; [|by vm_compute in Hr].
  exists r. split; [done|]. revert Hr. vm_compute. intros [= <-]. done.
Qed.

Lemma claimed_held : held Sample.name Sample.name id (sc_entries (ph_store claimed)).
Proof.
  destruct claimed_in as [Hr Hs]. exists claimed_record, (lease_of claimed_record). split; [exact Hr|]. split; [exact Hs|reflexivity].
Qed.
End DriveScenario.

(** ** Witnesses *)

Lemma drive_terminates_witness :
  leaves (λ r, match r with Ok driven => ∃ report, driven = Some report | Err _ => True end)
    (drive (E := FakeStoreError) Scenario.system (DriveScenario.handlers 1) (DriveScenario.request 4 200) 2000).
Proof. apply (drive_terminates _ _ (DriveScenario.request 4 200)); reflexivity. Defined.

Lemma drive_within_request_witness :
  outcomes (λ driven, ∀ report, driven = Some report → report_bounded (DriveScenario.request 4 200) report)
    (drive (E := FakeStoreError) Scenario.system (DriveScenario.handlers 1) (DriveScenario.request 4 200) 2000).
Proof. apply (drive_within_request _ _ (DriveScenario.request 4 200)); reflexivity. Defined.

Lemma drive_in_flight_bounded_witness :
  ∃ l, DriveScenario.rounded = Some l ∧ loop_bounded (DriveScenario.request 4 200) l.
Proof.
  destruct DriveScenario.rounded as [l|] eqn:Hl.
  - exists l. split; [reflexivity|].
    apply (drive_in_flight_bounded Scenario.system (DriveScenario.handlers 1) _ (clock_at 2000)); [reflexivity|done|].
    exact (loop_rounded_looping _ _ _ _ _ l Hl).
  - exfalso. pose proof DriveScenario.rounded_in as Hin. rewrite Hl in Hin. discriminate Hin.
Defined.


