(* ===== verification/Batch.v ===== *)
(** * Batches

    [crates/bg-jobs/src/batch]: bounded formation of a batch of compatible
    claimed items ([compatibility.rs], [formation.rs]) and the application of
    a handler's results to its items ([results.rs]).

    The builder finds an ordering key through a hash and a table of
    collisions; the theorems show that what it accepts does not depend on the
    hash. *)

From stdpp Require Import sorting.
From S2P Require Import Prelude Errors Ids Clock Policy JobRecord Keyspace Ordered FairOwner.

(** ** Items: [compatibility.rs] *)

Record BatchCompatibility : Type := mkBatchCompatibility {
  bc_handler_kind : JobKind;
  bc_schema_version : Z;
  bc_batch_key : BatchKey;
  bc_auth_config : AuthConfigId;
  bc_effect_mode : EffectMode;
  bc_retry_policy : RetryPolicy;
  bc_timeout : Duration;
  bc_priority : Priority;
  bc_fairness : FairnessClass;
}.
#[export] Instance BatchCompatibility_eq_dec : EqDecision BatchCompatibility.
Proof. solve_decision. Defined.

Record BatchItem : Type := mkBatchItem {
  bi_job_id : JobId;
  bi_execution_id : ExecutionId;
  bi_attempt_id : AttemptId;
  bi_payload : bytes;
  bi_compatibility : BatchCompatibility;
  bi_ordering_key : option OrderingKey;
  bi_ordering_position : Z;
  bi_enqueued_at : Timestamp;
  bi_batch_deadline : Timestamp;
}.

(** ** Formation: [formation.rs] *)

(** [BatchLimits] and [BatchLimitsInput] have the same fields. *)
Record BatchLimits : Type := mkBatchLimits {
  bl_max_items : Z;
  bl_max_payload_bytes : Z;
  bl_max_formation_delay : Duration;
}.

Definition BatchLimits_try_new (input : BatchLimits) : result ValidationError BatchLimits :=
  if bl_max_formation_delay input =? 0 then Err (VE_InvalidValue "batch formation delay")
  else if I64_MAX <? as_millis (bl_max_formation_delay input) then Err (VE_Overflow "batch formation delay")
  else Ok input.

Inductive BatchRejection : Type :=
  | BR_Full | BR_Incompatible | BR_DuplicateAttemptId | BR_DuplicateOrderingGroup
  | BR_PayloadCapacity | BR_FormationDeadline | BR_FormationWindow | BR_FormationClock.

Record Batch : Type := mkBatch {
  ba_items : list BatchItem;
  ba_formed_at : Timestamp;
  ba_deadline : Timestamp;
  ba_payload_bytes : Z;
}.

Record BatchBuilder : Type := mkBatchBuilder {
  bb_limits : BatchLimits;
  bb_items : list BatchItem;
  bb_ordering_hashes : gmap Z nat;
  bb_ordering_collisions : gmap Z (list nat);
  bb_formed_at : Timestamp;
  bb_payload_bytes : Z;
  bb_deadline : Timestamp;
}.

(** FNV-1a on 64 bits. *)
Definition ordering_hash (bs : bytes) : Z :=
  foldl (λ hash b, (Z.lxor hash (Z_of_byte b) * 0x00000100000001b3) mod (U64_MAX + 1)) 0xcbf29ce484222325 bs.

Section builder.
Context (b : BatchBuilder).

(** The ordering key at an index of [items], which is in range. *)
Definition key_at (i : nat) : option OrderingKey := item ← bb_items b !! i; bi_ordering_key item.

Definition has_ordering (hash : Z) (item : BatchItem) : bool :=
  match bb_ordering_hashes b !! hash with
  | None => false
  | Some primary_index =>
      bool_decide (key_at primary_index = bi_ordering_key item)
      || match bb_ordering_collisions b !! hash with
         | None => false
         | Some indices => existsb (λ index, bool_decide (key_at index = bi_ordering_key item)) indices
         end
  end.

Definition check_basic_admission (item : BatchItem) : result BatchRejection unit :=
  if bl_max_items (bb_limits b) <=? len (bb_items b) then Err BR_Full
  else if existsb (λ current, bytes_eqb (bi_attempt_id current) (bi_attempt_id item)) (bb_items b)
  then Err BR_DuplicateAttemptId
  else match bb_items b with
  | current :: _ =>
      if bool_decide (bi_compatibility current ≠ bi_compatibility item) then Err BR_Incompatible else Ok tt
  | [] => Ok tt
  end.

Definition check_ordering (item : BatchItem) : result BatchRejection (option Z) :=
  let hash := ordering_hash <$> bi_ordering_key item in
  if match hash with Some hash => has_ordering hash item | None => false end
  then Err BR_DuplicateOrderingGroup
  else Ok hash.

Definition check_timing (item : BatchItem) (at_ : Timestamp) : result BatchRejection unit :=
  if (at_ <? bi_enqueued_at item) || (at_ <? bb_formed_at b) then Err BR_FormationClock
  else
    delay ← map_err (λ _, BR_FormationClock) (Timestamp_duration_since at_ (bb_formed_at b));
    if bl_max_formation_delay (bb_limits b) <? delay then Err BR_FormationWindow
    else if (bi_batch_deadline item <? at_) || (bb_deadline b <? at_) then Err BR_FormationDeadline
    else Ok tt.

Definition check_admission (item : BatchItem) (at_ : Timestamp) : result BatchRejection (option Z) :=
  _ ← check_basic_admission item;
  hash ← check_ordering item;
  _ ← check_timing item at_;
  Ok hash.

Definition checked_payload_bytes (item : BatchItem) : result BatchRejection Z :=
  bytes ← ok_or BR_PayloadCapacity (checked_add_usize (bb_payload_bytes b) (len (bi_payload item)));
  if bl_max_payload_bytes (bb_limits b) <? bytes then Err BR_PayloadCapacity else Ok bytes.

(** The tables after the item at [item_index] joined. *)
Definition record_ordering (hash : option Z) (item_index : nat) : gmap Z nat * gmap Z (list nat) :=
  match hash with
  | None => (bb_ordering_hashes b, bb_ordering_collisions b)
  | Some hash =>
      match bb_ordering_hashes b !! hash with
      | None => (<[hash := item_index]> (bb_ordering_hashes b), bb_ordering_collisions b)
      | Some primary_index =>
          if bool_decide (key_at primary_index = key_at item_index)
          then (bb_ordering_hashes b, bb_ordering_collisions b)
          else
            let collisions := default [] (bb_ordering_collisions b !! hash) in
            let collisions := if len collisions =? 0 then [primary_index] else collisions in
            (bb_ordering_hashes b, <[hash := collisions ++ [item_index]]> (bb_ordering_collisions b))
      end
  end.
End builder.

(** A refused item leaves the builder as it was. *)
Definition try_add (item : BatchItem) (at_ : Timestamp) (b : BatchBuilder) : result BatchRejection BatchBuilder :=
  hash ← check_admission b item at_;
  bytes ← checked_payload_bytes b item;
  let b := mkBatchBuilder (bb_limits b) (bb_items b ++ [item]) (bb_ordering_hashes b) (bb_ordering_collisions b)
             (bb_formed_at b) bytes (Z.min (bb_deadline b) (bi_batch_deadline item)) in
  let '(hashes, collisions) := record_ordering b hash (length (bb_items b) - 1) in
  Ok (mkBatchBuilder (bb_limits b) (bb_items b) hashes collisions (bb_formed_at b) (bb_payload_bytes b) (bb_deadline b)).

Definition BatchBuilder_try_new (first : BatchItem) (limits : BatchLimits) (formed_at : Timestamp)
    : result BatchRejection BatchBuilder :=
  try_add first formed_at (mkBatchBuilder limits [] ∅ ∅ formed_at 0 (bi_batch_deadline first)).

Definition BatchBuilder_finish (b : BatchBuilder) : Batch :=
  mkBatch (bb_items b) (bb_formed_at b) (bb_deadline b) (bb_payload_bytes b).

(** ** Results: [results.rs] *)

Record BatchResult : Type := mkBatchResult {
  br_attempt_id : AttemptId;
  br_outcome : JobOutcome;
}.

Inductive BatchOutcome : Type :=
  | BO_Provided (outcome : JobOutcome)
  | BO_RetryInvariant
  | BO_MissingResult
  | BO_DeferredOrdering.

Record BatchItemResolution : Type := mkBatchItemResolution {
  bs_job_id : JobId;
  bs_attempt_id : AttemptId;
  bs_outcome : BatchOutcome;
}.

Definition set_bs_outcome (v : BatchOutcome) (r : BatchItemResolution) : BatchItemResolution :=
  mkBatchItemResolution (bs_job_id r) (bs_attempt_id r) v.

Inductive BatchResultError : Type := RE_UnknownAttempt | RE_DuplicateAttemptId.

(** The loop of [attempt_indexes] from an index on. *)
Fixpoint attempt_indexes_from (index : nat) (items : list BatchItem) (indexes : gmap AttemptId nat)
    : result BatchResultError (gmap AttemptId nat) :=
  match items with
  | [] => Ok indexes
  | item :: items =>
      match indexes !! bi_attempt_id item with
      | Some _ => Err RE_DuplicateAttemptId
      | None => attempt_indexes_from (S index) items (<[bi_attempt_id item := index]> indexes)
      end
  end.
Definition attempt_indexes (items : list BatchItem) : result BatchResultError (gmap AttemptId nat) :=
  attempt_indexes_from 0 items ∅.

Definition missing_resolutions (items : list BatchItem) : list BatchItemResolution :=
  (λ item, mkBatchItemResolution (bi_job_id item) (bi_attempt_id item) BO_MissingResult) <$> items.

Definition combine_result (current : BatchOutcome) (outcome : JobOutcome) : BatchOutcome :=
  match current with
  | BO_Provided _ => BO_RetryInvariant
  | BO_RetryInvariant => BO_RetryInvariant
  | BO_MissingResult => BO_Provided outcome
  | BO_DeferredOrdering => BO_RetryInvariant
  end.

(** The loop over the results. *)
Fixpoint resolve_results (by_attempt : gmap AttemptId nat) (results : list BatchResult)
    (resolutions : list BatchItemResolution) : result BatchResultError (list BatchItemResolution) :=
  match results with
  | [] => Ok resolutions
  | result :: results =>
      match by_attempt !! br_attempt_id result with
      | None => Err RE_UnknownAttempt
      | Some index =>
          resolve_results by_attempt results
            (alter (λ r, set_bs_outcome (combine_result (bs_outcome r) (br_outcome result)) r) index resolutions)
      end
  end.

Definition outcome_is_terminal (outcome : BatchOutcome) : bool :=
  match outcome with
  | BO_Provided (Complete _ | DeadLetter _ | OutcomeCancelled) => true
  | BO_Provided (Continue _ _ | Retry _ _ _) | BO_RetryInvariant | BO_MissingResult | BO_DeferredOrdering => false
  end.

(** *** The ordering barrier *)

(** The ordered items: their keys, positions and indexes. *)
Definition ordered_items (items : list BatchItem) : list (OrderingKey * Z * nat) :=
  omap (λ '(index, item), (λ key, (key, bi_ordering_position item, index)) <$> bi_ordering_key item)
    (zip (seq 0 (length items)) items).

(** The order of [sort_unstable_by]: keys and then positions. *)
Definition ordered_le (a b : OrderingKey * Z * nat) : Prop := key_ltb b.1 a.1 = false.
#[export] Instance ordered_le_dec : RelDecision ordered_le.
Proof. intros a b. unfold ordered_le. apply _. Defined.

(** The items of the key that comes first. *)
Fixpoint key_group (key : OrderingKey) (ordered : list (OrderingKey * Z * nat)) : list (OrderingKey * Z * nat) :=
  match ordered with
  | (key', position, index) :: ordered =>
      if bytes_eqb key' key then (key', position, index) :: key_group key ordered else []
  | [] => []
  end.

Fixpoint defer_group (unresolved : bool) (group : list (OrderingKey * Z * nat)) (resolutions : list BatchItemResolution)
    : list BatchItemResolution :=
  match group with
  | [] => resolutions
  | (_, _, index) :: group =>
      if unresolved then defer_group true group (alter (set_bs_outcome BO_DeferredOrdering) index resolutions)
      else
        let terminal := match resolutions !! index with Some r => outcome_is_terminal (bs_outcome r) | None => true end in
        defer_group (negb terminal) group resolutions
  end.

(** The loop over the groups; a group is not empty, so [fuel] is the number
    of ordered items. *)
Fixpoint defer_groups (fuel : nat) (ordered : list (OrderingKey * Z * nat)) (resolutions : list BatchItemResolution)
    : list BatchItemResolution :=
  match fuel, ordered with
  | S fuel, (key, _, _) :: _ =>
      let group := key_group key ordered in
      defer_groups fuel (drop (length group) ordered) (defer_group false group resolutions)
  | _, _ => resolutions
  end.

Definition apply_ordering_barrier (items : list BatchItem) (resolutions : list BatchItemResolution)
    : list BatchItemResolution :=
  let ordered := merge_sort ordered_le (ordered_items items) in
  defer_groups (length ordered) ordered resolutions.

Definition Batch_apply_results (results : list BatchResult) (batch : Batch)
    : result BatchResultError (list BatchItemResolution) :=
  by_attempt ← attempt_indexes (ba_items batch);
  resolutions ← resolve_results by_attempt results (missing_resolutions (ba_items batch));
  Ok (apply_ordering_barrier (ba_items batch) resolutions).

(** ** The index of ordering keys *)

(** The tables of [b] lead from the hash [h] to the item at [i]. *)
Definition leads (b : BatchBuilder) (h : Z) (i : nat) : Prop :=
  bb_ordering_hashes b !! h = Some i ∨
  (is_Some (bb_ordering_hashes b !! h) ∧ ∃ indices, bb_ordering_collisions b !! h = Some indices ∧ i ∈ indices).

Record index_ok (b : BatchBuilder) : Prop := {
  ix_complete i key : key_at b i = Some key → leads b (ordering_hash key) i;
  ix_sound h i :
    bb_ordering_hashes b !! h = Some i ∨ (∃ indices, bb_ordering_collisions b !! h = Some indices ∧ i ∈ indices) →
    ∃ key, key_at b i = Some key ∧ ordering_hash key = h;
}.

Lemma has_ordering_iff b item key :
  index_ok b → bi_ordering_key item = Some key →
  has_ordering b (ordering_hash key) item = true ↔ ∃ i, key_at b i = Some key.
Proof.
  intros [Hc Hs] Hk. unfold has_ordering. rewrite Hk. split.
  - destruct (bb_ordering_hashes b !! _) as [p|]; [|done]. intros [Hp%bool_decide_eq_true|Hex]%orb_true_iff; [by exists p|].
    destruct (bb_ordering_collisions b !! _) as [indices|]; [|done].
    apply existsb_exists in Hex as (i & _ & Hi%bool_decide_eq_true). by exists i.
  - intros (i & Hi). destruct (Hc _ _ Hi) as [Hp|[[p Hp] (indices & Hin & Hmem)]]; rewrite Hp.
    + by rewrite bool_decide_true.
    + rewrite Hin. apply orb_true_iff. right. apply existsb_exists. exists i. split; [by apply list_elem_of_In|].
      by apply bool_decide_eq_true.
Qed.

Lemma key_at_snoc b item i hashes collisions formed bytes deadline :
  key_at (mkBatchBuilder (bb_limits b) (bb_items b ++ [item]) hashes collisions formed bytes deadline) i
  = if decide (i = length (bb_items b)) then bi_ordering_key item else key_at b i.
Proof.
  unfold key_at. cbn. case_decide as Hi.
  - subst i. by rewrite list_lookup_middle.
  - destruct (decide (i < length (bb_items b))%nat).
    + by rewrite lookup_app_l.
    + rewrite lookup_ge_None_2, (lookup_ge_None_2 (bb_items b)); [done|lia|rewrite length_app; cbn; lia].
Qed.

(** The two ways a new key [key] at [n] is recorded. *)
Section record.
Context (b b1 : BatchBuilder) (n : nat) (key : OrderingKey).
Context (Hin : ∀ i key', key_at b1 i = Some key' → (i = n ∧ Some key = Some key') ∨ leads b (ordering_hash key') i).
Context (Hsound : ∀ h i, bb_ordering_hashes b !! h = Some i ∨
  (∃ indices, bb_ordering_collisions b !! h = Some indices ∧ i ∈ indices) → ∃ key', key_at b1 i = Some key' ∧ ordering_hash key' = h).
Context (Hkey : key_at b1 n = Some key).

Definition with_tables hashes collisions : BatchBuilder :=
  mkBatchBuilder (bb_limits b1) (bb_items b1) hashes collisions (bb_formed_at b1) (bb_payload_bytes b1) (bb_deadline b1).

Lemma first_ok :
  bb_ordering_hashes b !! ordering_hash key = None →
  index_ok (with_tables (<[ordering_hash key := n]> (bb_ordering_hashes b)) (bb_ordering_collisions b)).
Proof.
  intros Hn. split.
  - intros i key' Hi. destruct (Hin i key' Hi) as [[-> [= <-]]|[Hl|[[p Hp] Hl]]]; unfold leads; cbn.
    + left. by rewrite lookup_insert_eq.
    + left. rewrite lookup_insert_ne by congruence. done.
    + right. rewrite lookup_insert_ne by congruence. by rewrite Hp.
  - intros h i [Hi|Hi]; [|apply (Hsound h i); auto]. cbn in Hi.
    apply lookup_insert_Some in Hi as [[<- <-]|[_ Hi]]; [by exists key|apply (Hsound h i); auto].
Qed.

Lemma collide_ok p :
  bb_ordering_hashes b !! ordering_hash key = Some p →
  let collisions := default [] (bb_ordering_collisions b !! ordering_hash key) in
  let collisions := if len collisions =? 0 then [p] else collisions in
  index_ok (with_tables (bb_ordering_hashes b) (<[ordering_hash key := collisions ++ [n]]> (bb_ordering_collisions b))).
Proof.
  intros Hp. set (old := default [] _). cbn zeta. set (all := if len old =? 0 then [p] else old). split.
  - intros i key' Hi. destruct (Hin i key' Hi) as [[-> [= <-]]|[Hl|[Hl (indices & Hx & Hm)]]]; unfold leads; cbn; [|by left|].
    + right. split; [by rewrite Hp|]. exists (all ++ [n]). rewrite lookup_insert_eq. set_solver.
    + right. split; [done|]. destruct (decide (ordering_hash key = ordering_hash key')) as [He|Hne].
      * exists (all ++ [n]). rewrite He, lookup_insert_eq. split; [done|]. unfold all, old. rewrite He, Hx. cbn.
        destruct (Z.eqb_spec (len indices) 0) as [Hz|]; [|set_solver].
        destruct indices; [by apply not_elem_of_nil in Hm|]. unfold len in Hz. cbn in Hz. lia.
      * exists indices. by rewrite lookup_insert_ne.
  - intros h i [Hi|(indices & Hi & Hm)]; [apply (Hsound h i); auto|]. cbn in Hi.
    apply lookup_insert_Some in Hi as [[<- <-]|[_ Hi]]; [|apply (Hsound h i); eauto].
    apply elem_of_app in Hm as [Hm|Hm%list_elem_of_singleton]; [|subst i; by exists key].
    unfold all in Hm. destruct (len old =? 0); [apply list_elem_of_singleton in Hm as ->; apply Hsound; auto|].
    unfold old in Hm. destruct (bb_ordering_collisions b !! ordering_hash key) as [indices|] eqn:Hx; [|by apply not_elem_of_nil in Hm].
    apply (Hsound _ i). right. by exists indices.
Qed.
End record.

(** An item with a new key joins the index. *)
Lemma record_ordering_ok b item bytes deadline :
  index_ok b → (∀ key i, bi_ordering_key item = Some key → key_at b i ≠ Some key) →
  let b1 := mkBatchBuilder (bb_limits b) (bb_items b ++ [item]) (bb_ordering_hashes b) (bb_ordering_collisions b)
              (bb_formed_at b) bytes deadline in
  let '(hashes, collisions) := record_ordering b1 (ordering_hash <$> bi_ordering_key item) (length (bb_items b)) in
  index_ok (mkBatchBuilder (bb_limits b) (bb_items b ++ [item]) hashes collisions (bb_formed_at b) bytes deadline).
Proof.
  intros [Hc Hs] Hnew b1. set (n := length (bb_items b)).
  assert (∀ i, key_at b1 i = if decide (i = n) then bi_ordering_key item else key_at b i) as Hat.
  { intros i. apply key_at_snoc. }
  assert (key_at b n = None) as Hn by (unfold key_at; by rewrite lookup_ge_None_2).
  assert (∀ i key, key_at b i = Some key → key_at b1 i = Some key) as Hold.
  { intros i key Hi. rewrite Hat. case_decide; [congruence|done]. }
  assert (∀ i key, key_at b1 i = Some key → (i = n ∧ bi_ordering_key item = Some key) ∨ leads b (ordering_hash key) i) as Hin.
  { intros i key. rewrite Hat. case_decide; [auto|]. intros Hi. right. by apply Hc. }
  assert (∀ h i, bb_ordering_hashes b !! h = Some i ∨ (∃ indices, bb_ordering_collisions b !! h = Some indices ∧ i ∈ indices) →
    ∃ key, key_at b1 i = Some key ∧ ordering_hash key = h) as Hsound.
  { intros h i Hi. destruct (Hs h i Hi) as (key & Hk & Hh). exists key. auto. }
  unfold record_ordering. destruct (bi_ordering_key item) as [key|] eqn:Hkey; cbn [fmap option_fmap option_map];
    [|split; [|exact Hsound]; intros i key Hi; destruct (Hin i key Hi) as [[_ [=]]|Hl]; exact Hl].
  assert (key_at b1 n = Some key) as Hkn by by rewrite Hat, decide_True. cbn [bb_ordering_hashes b1].
  destruct (bb_ordering_hashes b !! ordering_hash key) as [p|] eqn:Hp.
  - rewrite bool_decide_false; last first.
    { destruct (Hs _ p (or_introl Hp)) as (key' & Hk' & _). rewrite (Hold _ _ Hk'), Hkn. intros [= ->]. by apply (Hnew key p). }
    cbn [bb_ordering_collisions b1]. by apply (collide_ok b b1 n key Hin Hsound Hkn).
  - by apply (first_ok b b1 n key Hin Hsound Hkn).
Qed.

(** ** Admission *)

Definition payload_total (items : list BatchItem) : Z := foldr (λ item n, len (bi_payload item) + n) 0 items.

Record builder_ok (b : BatchBuilder) : Prop := {
  bo_items : len (bb_items b) ≤ bl_max_items (bb_limits b);
  bo_attempts : NoDup (bi_attempt_id <$> bb_items b);
  bo_compatible x y : x ∈ bb_items b → y ∈ bb_items b → bi_compatibility x = bi_compatibility y;
  bo_keys : NoDup (omap bi_ordering_key (bb_items b));
  bo_payload : bb_payload_bytes b = payload_total (bb_items b);
  bo_payload_bound : bb_payload_bytes b ≤ bl_max_payload_bytes (bb_limits b);
  bo_deadline : Forall (λ item, bb_deadline b ≤ bi_batch_deadline item) (bb_items b);
  bo_index : index_ok b;
}.

(** An item that may join, without hashes and tables. *)
Record joins (b : BatchBuilder) (item : BatchItem) (at_ : Timestamp) : Prop := {
  jn_room : len (bb_items b) < bl_max_items (bb_limits b);
  jn_attempt : bi_attempt_id item ∉ bi_attempt_id <$> bb_items b;
  jn_compatible : Forall (λ x, bi_compatibility x = bi_compatibility item) (bb_items b);
  jn_ordering key : bi_ordering_key item = Some key → key ∉ omap bi_ordering_key (bb_items b);
  jn_payload : bb_payload_bytes b + len (bi_payload item) ≤ bl_max_payload_bytes (bb_limits b);
  jn_clock : bi_enqueued_at item ≤ at_ ∧ bb_formed_at b ≤ at_;
  jn_window : from_millis (at_ - bb_formed_at b) ≤ bl_max_formation_delay (bb_limits b);
  jn_deadline : at_ ≤ bi_batch_deadline item ∧ at_ ≤ bb_deadline b;
}.

(** The builder with the item. *)
Definition grown (b : BatchBuilder) (item : BatchItem) (b' : BatchBuilder) : Prop :=
  bb_limits b' = bb_limits b ∧ bb_items b' = bb_items b ++ [item] ∧ bb_formed_at b' = bb_formed_at b ∧
  bb_payload_bytes b' = bb_payload_bytes b + len (bi_payload item) ∧
  bb_deadline b' = Z.min (bb_deadline b) (bi_batch_deadline item).

Lemma key_at_elem b key : (∃ i, key_at b i = Some key) ↔ key ∈ omap bi_ordering_key (bb_items b).
Proof.
  rewrite list_elem_of_omap. split.
  - intros (i & Hi). unfold key_at in Hi. destruct (bb_items b !! i) as [item|] eqn:Hl; [|done].
    exists item. split; [by eapply list_elem_of_lookup_2|done].
  - intros (item & (i & Hi)%list_elem_of_lookup & Hk). exists i. unfold key_at. by rewrite Hi.
Qed.

Lemma check_basic_iff b item :
  builder_ok b →
  check_basic_admission b item = Ok tt ↔
  len (bb_items b) < bl_max_items (bb_limits b) ∧ bi_attempt_id item ∉ bi_attempt_id <$> bb_items b ∧
  Forall (λ x, bi_compatibility x = bi_compatibility item) (bb_items b).
Proof.
  intros Hb. unfold check_basic_admission. destruct (Z.leb_spec (bl_max_items (bb_limits b)) (len (bb_items b))); [split; [done|lia]|].
  destruct (existsb _ _) eqn:Hex.
  { split; [done|]. intros (_ & Hn & _). destruct Hn. apply existsb_exists in Hex as (x & Hx%list_elem_of_In & He%bytes_eqb_spec).
    rewrite <- He. by apply list_elem_of_fmap_2. }
  assert (bi_attempt_id item ∉ bi_attempt_id <$> bb_items b) as Hn.
  { intros (x & He & Hx)%list_elem_of_fmap. apply not_true_iff_false in Hex. destruct Hex. apply existsb_exists.
    exists x. split; [by apply list_elem_of_In|]. apply bytes_eqb_spec. done. }
  pose proof (bo_compatible _ Hb) as Hc. destruct (bb_items b) as [|first items] eqn:Hi.
  { split; [|done]. intros _. split_and!; [done..|constructor]. }
  case_bool_decide as Hf.
  - split; [done|]. intros (_ & _ & Hall). apply Forall_cons in Hall as [? _]. done.
  - split; [|done]. intros _. split_and!; [done..|]. apply Forall_forall. intros x Hx.
    rewrite <- Hf. apply Hc; set_solver.
Qed.

Lemma check_ordering_iff b item hash :
  builder_ok b →
  check_ordering b item = Ok hash ↔
  hash = ordering_hash <$> bi_ordering_key item ∧
  ∀ key, bi_ordering_key item = Some key → key ∉ omap bi_ordering_key (bb_items b).
Proof.
  intros Hb. unfold check_ordering. destruct (bi_ordering_key item) as [key|] eqn:Hk; cbn; [|naive_solver].
  pose proof (has_ordering_iff b item key (bo_index _ Hb) Hk) as Hh. rewrite key_at_elem in Hh.
  destruct (has_ordering b _ item).
  - split; [done|]. intros [_ Hn]. destruct (Hn key); [done|]. by apply Hh.
  - split; [|naive_solver]. intros [= <-]. split; [done|]. intros ? [= <-] Hin. by apply Hh in Hin.
Qed.

Lemma check_timing_iff b item at_ :
  BatchLimits_try_new (bb_limits b) = Ok (bb_limits b) → is_i64 at_ = true → is_i64 (bb_formed_at b) = true →
  check_timing b item at_ = Ok tt ↔
  (bi_enqueued_at item ≤ at_ ∧ bb_formed_at b ≤ at_) ∧
  from_millis (at_ - bb_formed_at b) ≤ bl_max_formation_delay (bb_limits b) ∧
  at_ ≤ bi_batch_deadline item ∧ at_ ≤ bb_deadline b.
Proof.
  intros Hl Ha Hf. unfold check_timing, Timestamp_duration_since, checked_sub_i64.
  destruct (Z.ltb_spec at_ (bi_enqueued_at item)); [split; [done|lia]|].
  destruct (Z.ltb_spec at_ (bb_formed_at b)); [split; [done|lia]|]. cbn [orb].
  unfold checked. destruct (in_range I64_MIN I64_MAX (at_ - bb_formed_at b)) eqn:Hr; cbn [ok_or mbind result_bind map_err].
  - destruct (Z.ltb_spec (at_ - bb_formed_at b) 0); [lia|]. cbn [mbind result_bind map_err].
    destruct (Z.ltb_spec (bl_max_formation_delay (bb_limits b)) (from_millis (at_ - bb_formed_at b))); [split; [done|lia]|].
    destruct (Z.ltb_spec (bi_batch_deadline item) at_); [split; [done|lia]|].
    destruct (Z.ltb_spec (bb_deadline b) at_); [split; [done|lia]|]. split; [lia|done].
  - split; [done|]. intros (_ & Hw & _). exfalso. unfold BatchLimits_try_new in Hl.
    destruct (_ =? 0); [done|]. destruct (Z.ltb_spec I64_MAX (as_millis (bl_max_formation_delay (bb_limits b)))); [done|].
    apply not_true_iff_false in Hr. destruct Hr. rewrite in_range_spec. unfold as_millis, from_millis, NANOS_PER_MILLI in *.
    apply (Z.div_le_mono _ _ 1000000) in Hw; [|lia]. rewrite Z.div_mul in Hw by lia. unfold I64_MIN, I64_MAX in *. lia.
Qed.

Lemma checked_payload_iff b item n :
  0 ≤ bb_payload_bytes b → bl_max_payload_bytes (bb_limits b) ≤ USIZE_MAX →
  checked_payload_bytes b item = Ok n ↔
  n = bb_payload_bytes b + len (bi_payload item) ∧ n ≤ bl_max_payload_bytes (bb_limits b).
Proof.
  intros Hn Hm. unfold checked_payload_bytes, checked_add_usize, checked. pose proof (len_nonneg (bi_payload item)).
  destruct (in_range 0 USIZE_MAX _) eqn:Hr; cbn.
  - destruct (Z.ltb_spec (bl_max_payload_bytes (bb_limits b)) (bb_payload_bytes b + len (bi_payload item))); [split; [done|lia]|].
    split; [intros [= <-]; lia|intros [-> _]; done].
  - split; [done|]. intros [-> Hle]. apply not_true_iff_false in Hr. destruct Hr. rewrite in_range_spec. lia.
Qed.

(** What the types of a builder's fields guarantee. *)
Record builder_typed (b : BatchBuilder) : Prop := {
  bt_limits : BatchLimits_try_new (bb_limits b) = Ok (bb_limits b);
  bt_payload : bl_max_payload_bytes (bb_limits b) ≤ USIZE_MAX;
  bt_formed_at : is_i64 (bb_formed_at b) = true;
}.

Lemma payload_total_nonneg items : 0 ≤ payload_total items.
Proof. induction items as [|item items IH]; cbn; [lia|]. pose proof (len_nonneg (bi_payload item)). unfold payload_total in IH. lia. Qed.

Lemma payload_total_app l1 l2 : payload_total (l1 ++ l2) = payload_total l1 + payload_total l2.
Proof. induction l1 as [|item l1 IH]; cbn; [done|]. unfold payload_total in *. rewrite IH. lia. Qed.

Lemma try_add_joins b item at_ b' :
  builder_ok b → builder_typed b → is_i64 at_ = true → try_add item at_ b = Ok b' →
  joins b item at_ ∧ grown b item b' ∧ index_ok b'.
Proof.
  intros Hb [Hl Hp Hf] Ha Hadd. pose proof (payload_total_nonneg (bb_items b)) as Hnn. rewrite <- (bo_payload _ Hb) in Hnn.
  unfold try_add in Hadd. apply bind_Ok in Hadd as (hash & Hadm & Hadd). apply bind_Ok in Hadd as (n & Hn & Hadd).
  unfold check_admission in Hadm. apply bind_Ok in Hadm as ([] & Hbasic & Hadm). apply bind_Ok in Hadm as (hash' & Hord & Hadm).
  apply bind_Ok in Hadm as ([] & Htime & [= <-]).
  apply check_basic_iff in Hbasic as (H1 & H2 & H3); [|done]. apply check_ordering_iff in Hord as [-> H4]; [|done].
  apply check_timing_iff in Htime as (H5 & H6 & H7); [|done..]. apply checked_payload_iff in Hn as [-> H8]; [|done..].
  cbn zeta in Hadd. pose proof (record_ordering_ok b item (bb_payload_bytes b + len (bi_payload item))
    (Z.min (bb_deadline b) (bi_batch_deadline item)) (bo_index _ Hb)) as Hix. cbn zeta in Hix.
  cbn [bb_items] in Hadd. rewrite length_app in Hadd. cbn [length] in Hadd.
  replace (length (bb_items b) + 1 - 1)%nat with (length (bb_items b)) in Hadd by lia.
  destruct (record_ordering _ _ _) as [hashes collisions]. injection Hadd as <-. split; [by split|]. split; [done|].
  apply Hix. intros key i Hk Hi. apply (H4 key Hk). apply key_at_elem. by exists i.
Qed.

Lemma joins_try_add b item at_ :
  builder_ok b → builder_typed b → is_i64 at_ = true → joins b item at_ → ∃ b', try_add item at_ b = Ok b'.
Proof.
  intros Hb [Hl Hp Hf] Ha [H1 H2 H3 H4 H8 H5 H6 H7].
  pose proof (payload_total_nonneg (bb_items b)) as Hnn. rewrite <- (bo_payload _ Hb) in Hnn.
  unfold try_add, check_admission. rewrite (proj2 (check_basic_iff b item Hb)) by done. cbn [mbind result_bind].
  rewrite (proj2 (check_ordering_iff b item _ Hb)) by done. cbn [mbind result_bind].
  rewrite (proj2 (check_timing_iff b item at_ Hl Ha Hf)) by done. cbn [mbind result_bind].
  rewrite (proj2 (checked_payload_iff b item _ Hnn Hp)) by done. cbn [mbind result_bind].
  destruct (record_ordering _ _ _) as [hashes collisions]. eauto.
Qed.

Lemma grown_ok b item at_ b' :
  builder_ok b → joins b item at_ → grown b item b' → index_ok b' → builder_ok b'.
Proof.
  intros Hb Hj (Hl & Hi & Hf & Hp & Hd) Hix. destruct Hb as [B1 B2 B3 B4 B5 B6 B7 B8], Hj. split; rewrite ?Hl, ?Hi, ?Hp, ?Hd; try done.
  - rewrite len_app. unfold len at 2. cbn. lia.
  - rewrite fmap_app. apply NoDup_app. split; [done|]. split; [set_solver|]. cbn. apply NoDup_singleton.
  - rewrite Forall_forall in jn_compatible0. intros x y [Hx|Hx%list_elem_of_singleton]%elem_of_app [Hy|Hy%list_elem_of_singleton]%elem_of_app; subst;
      [by apply B3|by apply jn_compatible0|symmetry; by apply jn_compatible0|done].
  - rewrite omap_app. apply NoDup_app. split; [done|]. cbn. destruct (bi_ordering_key item) as [key|]; [|split; [set_solver|constructor]].
    split; [|apply NoDup_singleton]. intros x Hx ->%list_elem_of_singleton. by eapply jn_ordering0.
  - rewrite payload_total_app, <- B5. cbn. lia.
  - apply Forall_app. split; [|apply Forall_singleton; lia]. eapply Forall_impl; [exact B7|]. intros x Hx. cbn in Hx. lia.
Qed.

(** Builders as [BatchBuilder] makes them. *)
Inductive built (limits : BatchLimits) (formed_at : Timestamp) : BatchBuilder → Prop :=
  | built_new first b :
      BatchLimits_try_new limits = Ok limits → is_nonzero_u16 (bl_max_items limits) = true →
      in_range 1 USIZE_MAX (bl_max_payload_bytes limits) = true → is_i64 formed_at = true →
      BatchBuilder_try_new first limits formed_at = Ok b → built limits formed_at b
  | built_add b item at_ b' :
      built limits formed_at b → is_i64 at_ = true → try_add item at_ b = Ok b' → built limits formed_at b'.

Lemma built_ok limits formed_at b :
  built limits formed_at b → builder_ok b ∧ builder_typed b ∧ bb_limits b = limits ∧ bb_formed_at b = formed_at.
Proof.
  induction 1 as [first b Hl Hi Hp Hf Hb|b item at_ b' _ (IH & Ht & <- & <-) Ha Hb].
  - unfold BatchBuilder_try_new in Hb. set (b0 := mkBatchBuilder _ _ _ _ _ _ _) in Hb.
    unfold is_nonzero_u16 in Hi. rewrite in_range_spec in Hi, Hp.
    assert (builder_ok b0) as H0.
    { split; [unfold len; cbn; lia|constructor|intros x y Hx; by apply not_elem_of_nil in Hx|constructor|done|cbn; lia|constructor|].
      split; [done|]. intros h i. cbn. rewrite !lookup_empty. by intros [[=]|(? & [=] & _)]. }
    assert (builder_typed b0) as Ht0 by (split; cbn; [done|lia|done]).
    destruct (try_add_joins _ _ _ _ H0 Ht0 Hf Hb) as (Hj & Hg & Hix). pose proof Hg as (E1 & _ & E2 & _ & _).
    split; [by eapply grown_ok|]. split; [|done]. destruct Ht0. split; by rewrite ?E1, ?E2.
  - destruct (try_add_joins _ _ _ _ IH Ht Ha Hb) as (Hj & Hg & Hix). pose proof Hg as (E1 & _ & E2 & _ & _).
    split; [by eapply grown_ok|]. split; [|by rewrite E1, E2]. destruct Ht. split; by rewrite ?E1, ?E2.
Qed.

(** C39: admission to a batch does not depend on hashes.  Whatever keys collide
    under the 64-bit hash, a builder accepts an item exactly when there is
    room for it and its payload, its attempt and its ordering key are new, it
    is compatible with every item, and it comes within the formation window
    and every deadline; then only that item joins. *)
Theorem batch_admission_exact limits formed_at b item at_ :
  built limits formed_at b → is_i64 at_ = true →
  (joins b item at_ ↔ ∃ b', try_add item at_ b = Ok b') ∧
  ∀ b', try_add item at_ b = Ok b' → grown b item b'.
Proof.
  intros Hb Ha. destruct (built_ok _ _ _ Hb) as (Hok & Ht & _ & _). split; [split|].
  - by apply joins_try_add.
  - intros (b' & Hb'). by eapply try_add_joins.
  - intros b' Hb'. by eapply try_add_joins.
Qed.

(** ** The ordering barrier *)

Abbreviation slot := (OrderingKey * Z * nat)%type.
Definition index_of (x : slot) : nat := x.2.

(** The resolution at [i] does not end its item. *)
Definition open_at (resolutions : list BatchItemResolution) (i : nat) : Prop :=
  ∃ r, resolutions !! i = Some r ∧ outcome_is_terminal (bs_outcome r) = false.

Lemma defer_all group resolutions i :
  NoDup (index_of <$> group) →
  defer_group true group resolutions !! i
  = (if decide (i ∈ index_of <$> group) then set_bs_outcome BO_DeferredOrdering <$> resolutions !! i else resolutions !! i).
Proof.
  revert resolutions. induction group as [|[[key p] j] group IH]; intros resolutions; cbn.
  { intros _. by rewrite decide_False by apply not_elem_of_nil. }
  intros [Hj Hn]%NoDup_cons. rewrite IH by done. destruct (decide (i = j)) as [->|Hne].
  - rewrite list_lookup_alter_eq. rewrite decide_False by done. by rewrite decide_True by (left; done).
  - rewrite list_lookup_alter_ne by done. destruct (decide (i ∈ index_of <$> group)) as [Hi|Hi].
    + by rewrite decide_True by (right; done).
    + rewrite decide_False; [done|]. intros [?|?]%elem_of_cons; done.
Qed.

(** The item at [i] comes after an open one of the same key. *)
Definition behind_open (ordered : list slot) resolutions (i : nat) : Prop :=
  ∃ n m x y, ordered !! n = Some x ∧ index_of x = i ∧ ordered !! m = Some y ∧ (m < n)%nat ∧ y.1.1 = x.1.1 ∧
    open_at resolutions (index_of y).

Lemma behind_open_elem ordered resolutions i : behind_open ordered resolutions i → i ∈ index_of <$> ordered.
Proof. intros (n & _ & x & _ & Hn & <- & _). apply list_elem_of_fmap_2. by eapply list_elem_of_lookup_2. Qed.

Definition deferred_at (deferred : Prop) (before after : option BatchItemResolution) : Prop :=
  (deferred → after = set_bs_outcome BO_DeferredOrdering <$> before) ∧ (¬ deferred → after = before).

Lemma deferred_at_iff P Q before after : P ↔ Q → deferred_at P before after → deferred_at Q before after.
Proof. unfold deferred_at. tauto. Qed.

(** In one group the items behind an open one are deferred. *)
Lemma defer_group_spec key group resolutions i :
  NoDup (index_of <$> group) → Forall (λ x : slot, x.1.1 = key) group →
  deferred_at (behind_open group resolutions i) (resolutions !! i) (defer_group false group resolutions !! i).
Proof.
  induction group as [|[[key' p] j] group IH]; cbn.
  { intros _ _. split; [|done]. by intros (n & ? & ? & ? & Hn & _). }
  intros [Hj Hn]%NoDup_cons [Hkey Hf]%Forall_cons. cbn in Hkey. subst key'. specialize (IH Hn Hf).
  set (terminal := match resolutions !! j with Some _ => _ | None => _ end).
  assert ((terminal = false ∧ i ∈ index_of <$> group) ∨ behind_open group resolutions i ↔
    behind_open ((key, p, j) :: group) resolutions i) as Hiff.
  { split.
    - intros [[Ht (x & -> & [n Hx]%list_elem_of_lookup)%list_elem_of_fmap]|(n & m & x & y & Hx & Hi & Hy & Hlt & He & Ho)].
      + exists (S n), 0%nat, x, (key, p, j). split_and!; try done; [lia| |].
        * rewrite Forall_forall in Hf. symmetry. by eapply Hf, list_elem_of_lookup_2.
        * unfold terminal in Ht. unfold open_at. destruct (resolutions !! j) as [r|] eqn:Hr; [|done]. by exists r.
      + exists (S n), (S m), x, y. split_and!; try done. lia.
    - intros ([|n] & [|m] & x & y & Hx & Hi & Hy & Hlt & He & Ho); try lia; cbn in Hx, Hy.
      + left. injection Hy as <-. destruct Ho as (r & Hr & Ht). cbn in Hr. unfold terminal. rewrite Hr. split; [done|].
        rewrite <- Hi. apply list_elem_of_fmap_2. by eapply list_elem_of_lookup_2.
      + right. exists n, m, x, y. split_and!; try done. lia. }
  eapply deferred_at_iff; [exact Hiff|]. destruct terminal; cbn [negb].
  - eapply deferred_at_iff; [|exact IH]. naive_solver.
  - rewrite defer_all by done. split.
    + intros Hb. rewrite decide_True; [done|]. destruct Hb as [[_ ?]|?%behind_open_elem]; done.
    + intros Hno. rewrite decide_False; [done|]. intros Hi. apply Hno. auto.
Qed.

(** A group is the items of the first key. *)
Lemma key_group_split key ordered :
  ∃ rest, ordered = key_group key ordered ++ rest ∧ Forall (λ x : slot, x.1.1 = key) (key_group key ordered) ∧
    drop (length (key_group key ordered)) ordered = rest ∧
    (∀ x rest', rest = x :: rest' → x.1.1 ≠ key).
Proof.
  induction ordered as [|[[key' p] j] ordered (rest & Heq & Hf & Hd & Hr)]; cbn.
  { by exists []. }
  destruct (bytes_eqb key' key) eqn:Hk.
  - apply bytes_eqb_spec in Hk as ->. exists rest. cbn. split_and!; [by rewrite <- Heq|by constructor|done..].
  - exists ((key', p, j) :: ordered). split_and!; [done|constructor|done|]. intros x rest' [= <- <-]. cbn. intros ->.
    by rewrite bytes_eqb_refl in Hk.
Qed.

#[export] Instance ordered_le_trans : Transitive ordered_le.
Proof.
  unfold ordered_le. intros x y z H1 H2. apply not_true_iff_false. intros H3.
  destruct (key_ltb_total x.1 y.1) as [H|[H|H]]; [|rewrite H in *; congruence|congruence].
  pose proof (key_ltb_trans _ _ _ H3 H). congruence.
Qed.
#[export] Instance ordered_le_total : Total ordered_le.
Proof.
  unfold ordered_le. intros x y. destruct (key_ltb y.1 x.1) eqn:H1; [right|by left]. apply not_true_iff_false. intros H2.
  pose proof (key_ltb_trans _ _ _ H1 H2) as H. by rewrite key_ltb_irrefl in H.
Qed.

Lemma ordered_le_keys (x y : slot) : ordered_le x y → x.1.1 = y.1.1 ∨ bytes_ltb x.1.1 y.1.1 = true.
Proof.
  destruct x as [[kx px] ix], y as [[ky py] iy]. unfold ordered_le. cbn. unfold pair_ltb. cbn.
  intros [H _]%orb_false_iff. destruct (bytes_ltb_total kx ky) as [?|[?|?]]; auto. congruence.
Qed.

Lemma key_gone key (x : slot) rest :
  StronglySorted ordered_le (x :: rest) → bytes_ltb key x.1.1 = true → Forall (λ y : slot, y.1.1 ≠ key) (x :: rest).
Proof.
  intros [Hs Hf]%StronglySorted_inv Hlt. constructor; [intros He; by rewrite He, bytes_ltb_irrefl in Hlt|].
  eapply Forall_impl; [exact Hf|]. intros y [Hk|Hk]%ordered_le_keys He; rewrite <- He in Hlt.
  - by rewrite Hk, bytes_ltb_irrefl in Hlt.
  - pose proof (bytes_ltb_trans _ _ _ Hk Hlt) as H. by rewrite bytes_ltb_irrefl in H.
Qed.

Lemma rest_keys key (x : slot) group rest :
  StronglySorted ordered_le (x :: group ++ rest) → x.1.1 = key → (∀ y rest', rest = y :: rest' → y.1.1 ≠ key) →
  Forall (λ y : slot, y.1.1 ≠ key) rest.
Proof.
  intros [Hs Hf]%StronglySorted_inv <- Hr. apply StronglySorted_app_1_r in Hs.
  destruct rest as [|y rest]; [constructor|]. apply key_gone; [done|]. apply Forall_app in Hf as [_ Hf].
  apply Forall_cons in Hf as [[Hk|Hk]%ordered_le_keys _]; [|done]. symmetry in Hk. by destruct (Hr y rest).
Qed.

Lemma behind_open_group key group rest resolutions i :
  Forall (λ y : slot, y.1.1 = key) group → i ∉ index_of <$> rest →
  behind_open group resolutions i ↔ behind_open (group ++ rest) resolutions i.
Proof.
  intros Hg Hi. split; intros (n & m & x & y & Hx & Hn & Hy & Hlt & He & Ho).
  - exists n, m, x, y. split_and!; try done; by apply lookup_app_l_Some.
  - apply lookup_app_Some in Hx as [Hx|[_ Hx]].
    + exists n, m, x, y. split_and!; try done. pose proof (lookup_lt_Some _ _ _ Hx). by rewrite lookup_app_l in Hy by lia.
    + destruct Hi. rewrite <- Hn. apply list_elem_of_fmap_2. by eapply list_elem_of_lookup_2.
Qed.

Lemma behind_open_rest key group rest resolutions res1 i :
  Forall (λ y : slot, y.1.1 = key) group → Forall (λ y : slot, y.1.1 ≠ key) rest →
  (∀ i, i ∈ index_of <$> group → i ∉ index_of <$> rest) → (∀ i, i ∈ index_of <$> rest → res1 !! i = resolutions !! i) →
  i ∈ index_of <$> rest →
  behind_open rest res1 i ↔ behind_open (group ++ rest) resolutions i.
Proof.
  intros Hg Hr Hdis Hsame Hi. rewrite Forall_forall in Hg, Hr.
  assert (∀ y n, rest !! n = Some y → open_at res1 (index_of y) ↔ open_at resolutions (index_of y)) as Hopen.
  { intros y n Hy. unfold open_at. rewrite Hsame; [done|]. apply list_elem_of_fmap_2. by eapply list_elem_of_lookup_2. }
  split; intros (n & m & x & y & Hx & Hn & Hy & Hlt & He & Ho).
  - exists (length group + n)%nat, (length group + m)%nat, x, y.
    split_and!; try done; [by rewrite lookup_app_r, Nat.add_comm, Nat.add_sub by lia..|lia|by eapply Hopen].
  - apply lookup_app_Some in Hx as [Hx|[Hge Hx]].
    { destruct (Hdis i); [|done]. rewrite <- Hn. apply list_elem_of_fmap_2. by eapply list_elem_of_lookup_2. }
    apply lookup_app_Some in Hy as [Hy|[Hge' Hy]].
    { apply list_elem_of_lookup_2 in Hx, Hy. destruct (Hr x Hx). rewrite <- He. by apply Hg. }
    exists (n - length group)%nat, (m - length group)%nat, x, y. split_and!; try done; [lia|by eapply Hopen].
Qed.

Lemma defer_groups_spec fuel ordered resolutions i :
  StronglySorted ordered_le ordered → NoDup (index_of <$> ordered) → (length ordered ≤ fuel)%nat →
  deferred_at (behind_open ordered resolutions i) (resolutions !! i) (defer_groups fuel ordered resolutions !! i).
Proof.
  revert ordered resolutions. induction fuel as [|fuel IH]; intros ordered resolutions Hs Hn Hf.
  { destruct ordered; [|cbn in Hf; lia]. split; [|done]. by intros ?%behind_open_elem%not_elem_of_nil. }
  destruct ordered as [|[[key p] j] ordered]; cbn [defer_groups].
  { split; [|done]. by intros ?%behind_open_elem%not_elem_of_nil. }
  set (all := (key, p, j) :: ordered) in *. destruct (key_group_split key all) as (rest & Heq & Hg & Hd & Hr).
  rewrite Hd. set (group := key_group key all) in *. set (res1 := defer_group false group resolutions).
  assert (∃ group', group = (key, p, j) :: group') as [group' Hg'].
  { unfold group, all. cbn. rewrite bytes_eqb_refl. eauto. }
  rewrite Heq in Hs, Hn, Hf |- *. assert (Forall (λ y : slot, y.1.1 ≠ key) rest) as Hrest.
  { rewrite Hg' in Hs. by eapply (rest_keys key (key, p, j) group'). }
  rewrite fmap_app in Hn. apply NoDup_app in Hn as (Hn1 & Hdis & Hn2).
  pose proof (λ i, defer_group_spec key group resolutions i Hn1 Hg) as Hgroup. fold res1 in Hgroup.
  assert (∀ i, i ∈ index_of <$> rest → res1 !! i = resolutions !! i) as Hsame.
  { intros i' Hi. apply Hgroup. intros Hb%behind_open_elem. by eapply Hdis. }
  specialize (IH rest res1 (StronglySorted_app_1_r _ _ _ Hs) Hn2).
  rewrite Hg', length_app in Hf. cbn in Hf. specialize (IH ltac:(lia)).
  destruct (decide (i ∈ index_of <$> rest)) as [Hi|Hi].
  - rewrite <- Hsame by done. eapply deferred_at_iff; [|exact IH]. by apply behind_open_rest with key.
  - destruct IH as [_ IH]. rewrite IH by (by intros ?%behind_open_elem).
    eapply deferred_at_iff; [|apply Hgroup]. by apply behind_open_group with key.
Qed.

Definition slot_of (index : nat) (item : BatchItem) : option slot :=
  (λ key, (key, bi_ordering_position item, index)) <$> bi_ordering_key item.

Lemma ordered_items_elem start items x :
  x ∈ omap (λ '(index, item), slot_of index item) (zip (seq start (length items)) items) ↔
  ∃ n item, items !! n = Some item ∧ slot_of (start + n) item = Some x.
Proof.
  rewrite list_elem_of_omap. split.
  - intros ([i item] & [n Hn]%list_elem_of_lookup & Hx). apply lookup_zip_Some in Hn as [Hi Hitem].
    apply lookup_seq in Hi as [-> _]. by exists n, item.
  - intros (n & item & Hn & Hx). exists ((start + n)%nat, item). split; [|done]. apply list_elem_of_lookup. exists n.
    apply lookup_zip_Some. split; [|done]. apply lookup_seq. apply lookup_lt_Some in Hn. lia.
Qed.

Lemma ordered_items_nodup start items :
  NoDup (index_of <$> omap (λ '(index, item), slot_of index item) (zip (seq start (length items)) items)).
Proof.
  revert start. induction items as [|item items IH]; intros start; cbn; [constructor|].
  destruct (slot_of start item) as [x|] eqn:Hx; cbn; [|apply IH]. constructor; [|apply IH].
  unfold slot_of in Hx. destruct (bi_ordering_key item); [|done]. injection Hx as <-. cbn.
  intros (y & Hy & (n & item' & _ & Hn)%ordered_items_elem)%list_elem_of_fmap.
  unfold slot_of in Hn. destruct (bi_ordering_key item'); [|done]. injection Hn as <-. cbn in Hy. lia.
Qed.

(** The item at [i] comes, in its ordering key, after one whose result does
    not end it. *)
Definition held_back (items : list BatchItem) resolutions (i : nat) : Prop :=
  ∃ j item item' key, items !! i = Some item ∧ items !! j = Some item' ∧
    bi_ordering_key item = Some key ∧ bi_ordering_key item' = Some key ∧
    bi_ordering_position item' < bi_ordering_position item ∧ open_at resolutions j.

(** Items of one ordering key have positions of their own. *)
Definition distinct_positions (items : list BatchItem) : Prop :=
  ∀ i j item item' key, items !! i = Some item → items !! j = Some item' →
    bi_ordering_key item = Some key → bi_ordering_key item' = Some key →
    bi_ordering_position item = bi_ordering_position item' → i = j.

Lemma sorted_before (l : list slot) n m x y :
  StronglySorted ordered_le l → l !! n = Some x → l !! m = Some y → x.1.1 = y.1.1 → y.1.2 < x.1.2 → (m < n)%nat.
Proof.
  intros Hs Hx Hy Hk Hp. destruct (decide (m < n)%nat) as [|Hge]; [done|]. exfalso.
  assert (n = m ∨ (n < m)%nat) as [->|Hlt] by lia; [assert (x = y) as -> by congruence; lia|].
  pose proof (take_drop_middle l m y Hy) as Hsplit. rewrite <- Hsplit in Hs.
  eapply (StronglySorted_app_1_elem_of _ _ _ x y) in Hs; [|by apply list_elem_of_lookup_2 with n; rewrite lookup_take_lt|left].
  unfold ordered_le in Hs. destruct x as [[kx px] ix], y as [[ky py] iy]. cbn in *. subst ky. unfold pair_ltb in Hs. cbn in Hs.
  rewrite bool_decide_true in Hs by done. apply orb_false_iff in Hs as [_ Hs]. cbn in Hs. lia.
Qed.

Lemma barrier_spec items resolutions i :
  distinct_positions items →
  deferred_at (held_back items resolutions i) (resolutions !! i) (apply_ordering_barrier items resolutions !! i).
Proof.
  intros Hd. unfold apply_ordering_barrier. set (ordered := merge_sort _ _).
  assert (StronglySorted ordered_le ordered) as Hs.
  { apply (StronglySorted_merge_sort ordered_le). }
  assert (ordered ≡ₚ ordered_items items) as Hp by apply merge_sort_Permutation.
  assert (NoDup (index_of <$> ordered)) as Hn by (rewrite Hp; apply ordered_items_nodup).
  assert (∀ x, x ∈ ordered ↔ ∃ n item, items !! n = Some item ∧ slot_of n item = Some x) as Hin.
  { intros x. rewrite Hp. apply ordered_items_elem. }
  eapply deferred_at_iff; [|by apply defer_groups_spec]. split.
  - intros (n & m & x & y & Hx & <- & Hy & Hlt & He & Ho).
    pose proof (proj1 (Hin x) (list_elem_of_lookup_2 _ _ _ Hx)) as (i & item & Hi & Hsx).
    pose proof (proj1 (Hin y) (list_elem_of_lookup_2 _ _ _ Hy)) as (j & item' & Hj & Hsy).
    unfold slot_of in Hsx, Hsy. destruct (bi_ordering_key item) as [key|] eqn:Hk; [|done].
    destruct (bi_ordering_key item') as [key'|] eqn:Hk'; [|done]. injection Hsx as <-. injection Hsy as <-. cbn in He. subst key'.
    exists j, item, item', key. split_and!; try done. destruct (Z.lt_total (bi_ordering_position item') (bi_ordering_position item)) as [?|[Heq|Hgt]]; [done| |].
    + assert (i = j) as <- by by eapply Hd. exfalso. cut (n = m); [lia|].
      eapply (NoDup_lookup _ n m i Hn); rewrite list_lookup_fmap; [by rewrite Hx|by rewrite Hy].
    + exfalso. cut (n < m)%nat; [lia|]. eapply (sorted_before ordered m n); [exact Hs|exact Hy|exact Hx|done|done].
  - intros (j & item & item' & key & Hi & Hj & Hk & Hk' & Hpos & Ho).
    assert (∃ n, ordered !! n = Some (key, bi_ordering_position item, i)) as [n Hx].
    { apply list_elem_of_lookup, Hin. exists i, item. unfold slot_of. by rewrite Hk. }
    assert (∃ m, ordered !! m = Some (key, bi_ordering_position item', j)) as [m Hy].
    { apply list_elem_of_lookup, Hin. exists j, item'. unfold slot_of. by rewrite Hk'. }
    exists n, m, (key, bi_ordering_position item, i), (key, bi_ordering_position item', j). split_and!; try done.
    by eapply sorted_before.
Qed.

(** ** Results *)

(** The outcome of an item that was given these outcomes. *)
Definition combined (outcomes : list JobOutcome) : BatchOutcome :=
  match outcomes with
  | [] => BO_MissingResult
  | [outcome] => BO_Provided outcome
  | _ => BO_RetryInvariant
  end.

Lemma foldl_combine outcomes : foldl combine_result BO_MissingResult outcomes = combined outcomes.
Proof.
  destruct outcomes as [|o1 [|o2 outcomes]]; [done..|]. cbn. induction outcomes as [|o outcomes IH]; [done|exact IH].
Qed.

(** The outcomes a handler gave for an attempt. *)
Definition given (attempt : AttemptId) (results : list BatchResult) : list JobOutcome :=
  br_outcome <$> filter (λ result, br_attempt_id result = attempt) results.

Lemma attempt_indexes_from_ok start items indexes :
  NoDup (bi_attempt_id <$> items) → Forall (λ item, indexes !! bi_attempt_id item = None) items →
  ∃ indexes', attempt_indexes_from start items indexes = Ok indexes' ∧
    ∀ a i, indexes' !! a = Some i ↔
      indexes !! a = Some i ∨ ∃ n item, items !! n = Some item ∧ bi_attempt_id item = a ∧ i = (start + n)%nat.
Proof.
  revert start indexes. induction items as [|item items IH]; intros start indexes Hn Hf; cbn.
  { exists indexes. split; [done|]. intros a i. split; [by left|]. by intros [?|(n & x & [=] & _)]. }
  apply NoDup_cons in Hn as [Hnew Hn]. apply Forall_cons in Hf as [Hnone Hf]. rewrite Hnone.
  destruct (IH (S start) (<[bi_attempt_id item := start]> indexes)) as (indexes' & Heq & Hiff); [done|..].
  { rewrite Forall_forall in *. intros x Hx. rewrite lookup_insert_ne; [by apply Hf|]. intros He. destruct Hnew. rewrite He.
    by apply list_elem_of_fmap_2. }
  exists indexes'. split; [done|]. intros a i. rewrite Hiff, lookup_insert_Some. split.
  - intros [[[<- <-]|[_ Ha]]|(n & x & Hx & Ha & ->)]; [right|by left|right].
    + exists 0%nat, item. rewrite Nat.add_0_r. done.
    + exists (S n), x. split_and!; [done..|lia].
  - intros [Ha|([|n] & x & Hx & Ha & ->)]; cbn in *; [left; right|left; left|right].
    + split; [congruence|done].
    + injection Hx as <-. by rewrite Nat.add_0_r.
    + exists n, x. split_and!; [done..|lia].
Qed.

Lemma attempt_indexes_ok items :
  NoDup (bi_attempt_id <$> items) →
  ∃ indexes, attempt_indexes items = Ok indexes ∧
    ∀ a i, indexes !! a = Some i ↔ ∃ item, items !! i = Some item ∧ bi_attempt_id item = a.
Proof.
  intros Hn. destruct (attempt_indexes_from_ok 0 items ∅ Hn) as (indexes & Heq & Hiff).
  { apply Forall_forall. intros x _. apply lookup_empty. }
  exists indexes. split; [done|]. intros a i. rewrite Hiff, lookup_empty. naive_solver.
Qed.

Lemma resolve_results_spec indexes results resolutions :
  (Forall (λ result, is_Some (indexes !! br_attempt_id result)) results →
   ∃ resolutions', resolve_results indexes results resolutions = Ok resolutions' ∧
     ∀ i, resolutions' !! i =
       (λ r, set_bs_outcome (foldl combine_result (bs_outcome r)
          (br_outcome <$> filter (λ result, indexes !! br_attempt_id result = Some i) results)) r) <$> resolutions !! i) ∧
  (Exists (λ result, indexes !! br_attempt_id result = None) results →
   resolve_results indexes results resolutions = Err RE_UnknownAttempt).
Proof.
  revert resolutions. induction results as [|result results IH]; intros resolutions; cbn [resolve_results].
  { split; [|by intros ?%Exists_nil]. intros _. exists resolutions. split; [done|]. intros i.
    destruct (resolutions !! i) as [[]|]; done. }
  destruct (indexes !! br_attempt_id result) as [j|] eqn:Hj.
  - destruct (IH (alter (λ r, set_bs_outcome (combine_result (bs_outcome r) (br_outcome result)) r) j resolutions)) as [IH1 IH2].
    split; [intros [_ Hf]%Forall_cons|by intros [?|?]%Exists_cons; [congruence|apply IH2]].
    destruct (IH1 Hf) as (resolutions' & Heq & Hi). exists resolutions'. split; [done|]. intros i. rewrite Hi.
    rewrite filter_cons. destruct (decide (i = j)) as [->|Hne].
    + rewrite list_lookup_alter_eq, decide_True by done. destruct (resolutions !! j) as [r|]; done.
    + rewrite list_lookup_alter_ne, decide_False by congruence. done.
  - split; [by intros [[? ?] _]%Forall_cons; congruence|done].
Qed.

Lemma built_barrier b resolutions :
  builder_ok b → apply_ordering_barrier (bb_items b) resolutions = resolutions.
Proof.
  intros Hb. apply list_eq. intros i.
  assert (∀ i j x y key, bb_items b !! i = Some x → bb_items b !! j = Some y → bi_ordering_key x = Some key →
    bi_ordering_key y = Some key → i = j) as Hone.
  { pose proof (bo_keys _ Hb) as Hn. clear Hb i. induction (bb_items b) as [|z items IH]; [done|].
    cbn in Hn. intros [|i] [|j] x y key Hx Hy Hkx Hky; cbn in Hx, Hy; [done|..].
    - injection Hx as ->. rewrite Hkx in Hn. apply NoDup_cons in Hn as [Hn _]. destruct Hn. apply list_elem_of_omap.
      exists y. split; [by eapply list_elem_of_lookup_2|done].
    - injection Hy as ->. rewrite Hky in Hn. apply NoDup_cons in Hn as [Hn _]. destruct Hn. apply list_elem_of_omap.
      exists x. split; [by eapply list_elem_of_lookup_2|done].
    - f_equal. eapply IH; [|done..]. destruct (bi_ordering_key z); [by apply NoDup_cons in Hn as [_ ?]|done]. }
  apply (barrier_spec (bb_items b) resolutions i); [unfold distinct_positions; eauto|].
  intros (j & x & y & key & Hx & Hy & Hkx & Hky & Hpos & _). assert (i = j) as <- by by eapply Hone.
  assert (x = y) as -> by congruence. lia.
Qed.

(** C40: results reach their own items.  Results for attempts that are in the
    batch resolve each item by what was given for its attempt: one result is
    its outcome, none is a missing result, several are a retry of that item
    alone; a result for an unknown attempt refuses them all.  Items of a built
    batch have different ordering keys, so none is deferred. *)
Theorem batch_results_exact limits formed_at b results :
  built limits formed_at b →
  (Forall (λ result, br_attempt_id result ∈ bi_attempt_id <$> bb_items b) results →
   Batch_apply_results results (BatchBuilder_finish b) = Ok ((λ item,
     mkBatchItemResolution (bi_job_id item) (bi_attempt_id item) (combined (given (bi_attempt_id item) results))) <$> bb_items b)) ∧
  (Exists (λ result, br_attempt_id result ∉ bi_attempt_id <$> bb_items b) results →
   Batch_apply_results results (BatchBuilder_finish b) = Err RE_UnknownAttempt).
Proof.
  intros Hb. destruct (built_ok _ _ _ Hb) as (Hok & _). unfold Batch_apply_results, BatchBuilder_finish. cbn [ba_items].
  destruct (attempt_indexes_ok (bb_items b) (bo_attempts _ Hok)) as (indexes & -> & Hiff). cbn [mbind result_bind].
  assert (∀ a, a ∈ bi_attempt_id <$> bb_items b ↔ is_Some (indexes !! a)) as Hknown.
  { intros a. split.
    - intros (item & -> & [i Hi]%list_elem_of_lookup)%list_elem_of_fmap. exists i. apply Hiff. by exists item.
    - intros [i (item & Hi & <-)%Hiff]. apply list_elem_of_fmap_2. by eapply list_elem_of_lookup_2. }
  destruct (resolve_results_spec indexes results (missing_resolutions (bb_items b))) as [Hres Herr]. split.
  - intros Hf. destruct Hres as (resolutions & -> & Hi); [by eapply Forall_impl; [exact Hf|]; intros x Hx; apply Hknown|].
    cbn [mbind result_bind]. f_equal. rewrite built_barrier by done. apply list_eq. intros i. rewrite Hi.
    unfold missing_resolutions. rewrite !list_lookup_fmap. destruct (bb_items b !! i) as [item|] eqn:Hitem; [|done]. cbn.
    unfold set_bs_outcome. cbn. rewrite foldl_combine. do 3 f_equal. unfold given. f_equal. apply list_filter_iff.
    intros x. rewrite Hiff. split; [by intros (item' & Hi' & <-); assert (item' = item) as -> by congruence|].
    intros Ha. by exists item.
  - intros Hex. rewrite Herr; [done|]. eapply Exists_impl; [exact Hex|]. intros x Hx. apply eq_None_not_Some. by rewrite <- Hknown.
Qed.

(** The barrier, whatever batch it is applied to: when the items of a key have
    positions of their own, an item is deferred exactly if one of its key
    with a lower position was not ended. *)
Theorem ordering_barrier_exact items resolutions i r :
  distinct_positions items → resolutions !! i = Some r →
  (held_back items resolutions i →
   apply_ordering_barrier items resolutions !! i = Some (set_bs_outcome BO_DeferredOrdering r)) ∧
  (¬ held_back items resolutions i → apply_ordering_barrier items resolutions !! i = Some r).
Proof. intros Hd Hr. pose proof (barrier_spec items resolutions i Hd) as Hs. rewrite Hr in Hs. exact Hs. Qed.

(** ** Witnesses *)

Module BatchSample.
Definition compatibility : BatchCompatibility :=
  mkBatchCompatibility (ascii "kind") 1 1 1 Idempotent (mkRetryPolicy 3 (from_secs 60) (from_secs 1) (from_secs 10) 2)
    (from_secs 30) Default FC_LowVolume.
Definition item (i : Z) (key : option OrderingKey) (position : Z) : BatchItem :=
  mkBatchItem (to_be_bytes 16 i) (to_be_bytes 16 i) (to_be_bytes 16 i) [Byte.x01] compatibility key position 0 10.
Definition limits : BatchLimits := mkBatchLimits 4 64 (from_secs 1).
Definition add (item : BatchItem) (b : result BatchRejection BatchBuilder) : result BatchRejection BatchBuilder :=
  b ← b; try_add item 0 b.
Definition two : result BatchRejection BatchBuilder :=
  add (item 2 (Some (ascii "b")) 1) (BatchBuilder_try_new (item 1 (Some (ascii "a")) 1) limits 0).
Definition builder : BatchBuilder := match two with Ok b => b | Err _ => mkBatchBuilder limits [] ∅ ∅ 0 0 0 end.
Definition done_ : BatchResult := mkBatchResult (to_be_bytes 16 1) (Complete (ascii "ok")).

Lemma builder_built : built limits 0 builder.
Proof.
  assert (two = Ok builder) as Htwo by (vm_compute; reflexivity). unfold two, add in Htwo.
  apply bind_Ok in Htwo as (b & Hb & Hadd).
  apply (built_add limits 0 b (item 2 (Some (ascii "b")) 1) 0); [|reflexivity|exact Hadd].
  apply (built_new limits 0 (item 1 (Some (ascii "a")) 1)); [reflexivity..|exact Hb].
Qed.

(** Two items of one key, the first without a result. *)
Definition items : list BatchItem := [item 1 (Some (ascii "a")) 1; item 2 (Some (ascii "a")) 2].
Definition resolutions : list BatchItemResolution :=
  [mkBatchItemResolution (to_be_bytes 16 1) (to_be_bytes 16 1) BO_MissingResult;
   mkBatchItemResolution (to_be_bytes 16 2) (to_be_bytes 16 2) (BO_Provided (Complete (ascii "ok")))].
End BatchSample.

Lemma batch_admission_exact_witness :
  (joins BatchSample.builder (BatchSample.item 3 None 0) 0 ↔
   ∃ b', try_add (BatchSample.item 3 None 0) 0 BatchSample.builder = Ok b') ∧
  ∀ b', try_add (BatchSample.item 3 None 0) 0 BatchSample.builder = Ok b' →
    grown BatchSample.builder (BatchSample.item 3 None 0) b'.
Proof. exact (batch_admission_exact _ _ _ _ 0 BatchSample.builder_built eq_refl). Defined.

Lemma batch_results_exact_witness :
  Batch_apply_results [BatchSample.done_] (BatchBuilder_finish BatchSample.builder) = Ok ((λ item,
    mkBatchItemResolution (bi_job_id item) (bi_attempt_id item)
      (combined (given (bi_attempt_id item) [BatchSample.done_]))) <$> bb_items BatchSample.builder).
Proof.
  destruct (batch_results_exact _ _ _ [BatchSample.done_] BatchSample.builder_built) as [Hok _]. apply Hok.
  apply Forall_singleton. apply (bool_decide_unpack _). vm_compute. exact I.
Defined.

Lemma ordering_barrier_exact_witness :
  apply_ordering_barrier BatchSample.items BatchSample.resolutions !! 1%nat
  = Some (mkBatchItemResolution (to_be_bytes 16 2) (to_be_bytes 16 2) BO_DeferredOrdering).
Proof.
  apply (ordering_barrier_exact BatchSample.items BatchSample.resolutions 1
    (mkBatchItemResolution (to_be_bytes 16 2) (to_be_bytes 16 2) (BO_Provided (Complete (ascii "ok"))))); [|reflexivity|].
  - intros [|[|]] [|[|]] x y key Hx Hy _ _; try done; injection Hx as <-; injection Hy as <-; done.
  - exists 0%nat, (BatchSample.item 2 (Some (ascii "a")) 2), (BatchSample.item 1 (Some (ascii "a")) 1), (ascii "a").
    split_and!; try reflexivity. eexists. split; reflexivity.
Defined.
